(* ===== verification/_CoqProject ===== *)
-Q . S2P
Prelude.v
Logic.v
WordSpan.v
LogicWord.v
PackedLogic4.v
PackedRange.v
PackedConvert.v
PackedText.v
PackedNumeric.v
PackedBit2.v
PackedLogic9.v
Resolve.v
KernelWord.v
SimirArithmetic.v
IntegerArithmetic.v
RippleArithmetic.v
BinaryEquivalence.v
KernelEquivalence.v
SimirLogic.v
LogicEquivalence.v
ShiftEquivalence.v
SelectEquivalence.v
ReaderPins.v
StreamHash.v
Sha256.v
PayloadChecksum.v
CancellationSlots.v
WorkQueue.v
SchedulerState.v
SchedulerApi.v
SchedulerInvariant.v
SchedulerCalls.v
SchedulerRun.v
SchedulerDispatch.v
SchedulerProgress.v
FstCompression.v
FstReader.v
FstRoundTrip.v
FstBitStream.v
FstZlibRoundTrip.v
GlobMatch.v
UvmPacker.v
UvmPackerRoundTrip.v
ConfigPattern.v
UvmResource.v
UvmResourceTheorems.v
UvmConfigDb.v
UvmConfigDbTheorems.v
SchedulerProperties.v
ServiceProperties.v
ConfigProperties.v
Properties.v
SvaPlan.v
SvaPlanRoundTrip.v
SvaMatcher.v
SvaEngine.v
SvaCompile.v
SvaReach.v
SvaStep.v
SvaSequence.v
SvaEmit.v
SvaTermination.v
SvaSemantics.v
SvaVerdict.v
SvaProperty.v
SvaProgress.v
SvaMonitor.v
SvaProperties.v
UvmSequence.v
UvmArbitrationRandom.v
UvmArbitration.v
UvmSelection.v
UvmServing.v
UvmAccess.v
UvmAccessTheorems.v
SequenceProperties.v
SyncObjects.v
SyncWaiting.v
SyncTheorems.v
SyncProperties.v
