(* ===== verification/Prelude.v ===== *)
(** * fsim: verification of the simulation core

    fsim is a mixed-language HDL simulator (VHDL, Verilog, SystemVerilog,
    SystemC).  Front ends and elaboration lower a design to a typed simulation
    IR; a reference interpreter or compiled kernels execute it on a phased
    event scheduler.  Every object of a design carries a packed vector of
    four-state or nine-state logic values, and every operator of every language
    ends in the functions on such vectors.  This development models that value
    kernel, the event scheduler, the engine of concurrent assertions with its
    compiler, the mailboxes, semaphores and events of SystemVerilog processes,
    the block encodings of waveform files, the UVM packer, resource pool,
    configuration database and sequencers, and the hashes that guard stored
    designs, and proves them correct.

    ** Parts and how they interact

    Values:
    - Scalar logic ([Logic], include/fsim/runtime/logic.hpp): [Logic4],
      [Logic9], their texts, tables, conversions and resolution functions.
      Class [Resolution] is what the packed resolution relies on.
    - Word spans ([WordSpan], src/runtime/packed_value.cpp, anonymous
      namespace): a bit plane is a list of 64-bit words; every helper gets a
      bit-level specification.
    - Single-word values ([LogicWord], packed_value.hpp): [Logic4Word],
      [Logic9Word], the resolution accumulator, [apply_force_word].
    - The packed transport value (class [PackedLogic4]): [PackedLogic4] holds
      the record, elements, fills, promotion and equality; [PackedRange] the
      range and masked-word operations; [PackedConvert] construction from words
      and single-word transfers; [PackedText] the textual form;
      [PackedNumeric] the integer readings.
    - [PackedBit2] and [PackedLogic9]: the plain two-state and nine-state
      vectors, and the conversions between the latter and the packed value.
    - [Resolve]: the value of a net with several drivers.
    - [KernelWord] (src/runtime/simir_kernel_word_ops.hpp): the operators of the
      IR on at most 64 bits, in machine words; used by the compiled kernels and
      as the fast path of the packed operators.
    - [SimirArithmetic], [IntegerArithmetic]
      (src/runtime/simir_arithmetic.cpp): [binary_value] and the ripple
      routines behind it, checked VHDL integers, range checks, conditional.
    - [SimirLogic] (src/runtime/simir_logic.cpp): negation, truth values,
      reductions, counts, shifts, part selects, part writes, concatenation.
    - [ReaderPins] (packed_value.cpp, [PackedLogic4PlaneBlock]): readers and
      writers of a shared plane block.
    - [StreamHash], [Sha256], [PayloadChecksum] (src/support): incremental
      hashes, their interface as the class [StreamHash], and the verifier that
      is proved against that interface.

    Scheduling (src/runtime/scheduler_internal.hpp, scheduler.cpp,
    scheduler_systemverilog.cpp, scheduler_dispatch.cpp):
    - [CancellationSlots]: the table of cancelable tasks, with generations.
    - [WorkQueue]: the entries of one phase, as sorted or unsorted bulk plus a
      heap of later insertions.
    - [SchedulerState]: buckets, future slots, the current slot, the members of
      the scheduler, [enqueue_at] and its relatives.
    - [SchedulerApi]: one definition per public call; a task is a [Program],
      a tree of calls and reactions to their answers.
    - [SchedulerRun]: [Scheduler::run] as a machine: time slots, delta cycles,
      phases, SystemVerilog regions, end-of-slot work, observers.
    - [SchedulerInvariant], [SchedulerCalls], [SchedulerDispatch],
      [SchedulerProgress]: the invariant [sched_ok], the
      abstract agenda, and the theorems on calls, steps and runs.

    Concurrent assertions (src/semantic/sva_plan.cpp,
    src/frontend/verilog_parser_sva.cpp, src/runtime/sva_engine.cpp):
    - [SvaPlan]: the plan of a property, its text, the writer and the reader;
      [SvaPlanRoundTrip].
    - [SvaCompile]: class PlanCompiler, from the property tree to the plan.
    - [SvaMatcher]: one attempt of a sequence as a set of threads that run the
      plan's instructions tick by tick; [SvaEngine]: property instances on top
      of matchers, and the monitor that starts attempts and queues outcomes.
    - Sequences: [SvaReach] and [SvaStep] give programs a declarative meaning
      that a matcher step computes, [SvaSequence] the meaning of sequences
      ([tight], after IEEE 1800 Annex F), [SvaEmit] connects them
      through the compiler, [SvaTermination] shows that a step ends.
    - Properties: [SvaSemantics] ([satisfies], on infinite traces), [SvaVerdict]
      (an instance decides only what every continuation of the trace agrees
      with), [SvaProperty] (the compiler), [SvaProgress] (a step ends) and
      [SvaMonitor] (runs of a monitor).

    Synchronization (src/runtime/simir_synchronization.cpp, and of
    simir_state.cpp and simir_fork.cpp what processes need for it):
    - [SyncObjects]: mailboxes, semaphores and dynamic events in the interpreter's
      tables, every operation on them, and the processes that wait: registers,
      status, suspension, completion, the tasks that resume them.
    - [SyncWaiting]: the invariant [sync_ok] and the steps between which it holds
      ([sync_step]); [SyncTheorems]: what each operation does and that it keeps the
      invariant.

    Services:
    - [FstCompression] (src/runtime/fst_compression.cpp) and [FstReader]
      (cursors and inflaters of src/runtime/fst_reader.cpp): stored gzip and
      fixed-Huffman zlib blocks; [FstRoundTrip], [FstBitStream] and
      [FstZlibRoundTrip] relate the two.
    - [GlobMatch] (include/fsim/support/glob_match.hpp and the budgeted copy in
      src/elaboration/coverage_external_exclusions.cpp).
    - [UvmPacker] (src/runtime/uvm_packer.cpp), which stores the vectors of
      [PackedLogic4] by their texts; [UvmPackerRoundTrip].
    - [UvmResource] (src/runtime/uvm_resource.cpp) with its spelling suggestions;
      [UvmResourceTheorems].
    - [ConfigPattern] and [UvmConfigDb] (src/runtime/uvm_config_db.cpp), which
      keeps its values in the resource pool; [UvmConfigDbTheorems].
    - [UvmSequence] (src/runtime/uvm_sequence_arbitration.cpp and the lookups of
      uvm_sequence.cpp): requests of sequences in the queues of sequencers, and
      the six modes that select one.  [UvmArbitration] has the invariant
      [arbitration_ok], [UvmSelection] what one selection does,
      [UvmArbitrationRandom] the generator, [UvmServing] a whole queue being
      served and the shares of the modes that draw.
    - [UvmAccess] (src/runtime/uvm_sequence_access.cpp): locks and grabs of
      sequencers, held by a sequence and shared with its children, and the
      service that is left behind when a call throws halfway;
      [UvmAccessTheorems].

    ** How code is translated

    A C++ exception is the [Throw] branch of [Outcome], with its class and the
    literal prefix of its message; the scheduler, where the state an exception
    leaves behind matters, uses a state and exception monad ([Act]), and the
    FST reader, the packer and the sequencers, which throw classes of their own,
    have their own results ([ReadResult], [PackResult], [SeqResult]).  [std::size_t] and [std::uint64_t]
    are [Z] with the wrap-around of each operation written out ([wrap64],
    [not64], [shl64], [wrap32]).  A call on a mutable object returns the new
    object.  Records keep the fields of the classes; functions keep the names
    of the source, with a prefix or suffix where C++ overloads ([kw_], [bit2_],
    [packed9_], [sha_], [xx_], [4], [9]).

    A [for] loop over an index range is [foreach] or [foreach_pure] over the
    finite list [up a b], so no fuel is needed.  Other loops are bounded by
    construction: the VHDL integer power halves a 64-bit exponent and gets 64
    iterations, shown enough; block loops of hashes, encoders and inflaters get
    one turn per byte or bit of input, shown enough by the round trips; the
    wildcard matcher gets [glob_bound], shown enough.  [run] takes fuel, since
    tasks may schedule each other forever; what it executed is the log
    [executed_by], the refinement holds for every fuel, and [SchedulerProgress]
    shows that fuel only ever runs out because entries are executed forever.
    The assertion engine takes a depth, the nesting of operators it descends,
    and fuel, the steps of one matcher; [SvaTermination] and [SvaProgress] show
    that both have enough values, after which a call returns or reports that the
    limit on threads is exceeded.  Drawing a random number gets one turn per
    unit of work its caller has left, which is when the code gives up too.  The
    walk from a sequence to its ancestors gets the sequence's slot number, shown
    enough where parents are older than their children ([related_fuel]).

    Where a value is stored (inline words, a shared allocation, a snapshot, a
    live component slot) is not modelled; the record holds the words the plane
    accessors return, and the flag [has_live_plane_backing], the one bit of
    storage that changes a result.  [wf] is the class invariant: the planes
    have the word count of the width, bits above the width are clear and
    nine-state codes are canonical.  [Rep v w nine f] says that [v] is a
    well-formed vector of [w] elements [f 0 .. f (w - 1)]; nearly every
    operation is specified with it, so operations compose by [Rep].

    Callbacks are parameters: tasks and observers of the scheduler are
    programs; callbacks of the UVM services only return or throw.  The object
    heap of the resource pool is a parameter too.  [std::sort] and the heap
    functions of the standard library are sorted lists, which is all their
    contracts promise, since the keys in question are unique or the order of
    equal keys does not matter.

    ** What is proved

    - Scheduler.  A run refines an abstract one, a clock and a bag of timed
      entries: entries run in order of time, none is lost, a completed run
      leaves none, the limit is respected (C1); a work queue is a priority queue
      (C2); whatever tasks do, the invariant is kept (C8); scheduling,
      cancelling, stale handles and the delta limit do exactly what they promise
      (C18-C20); the loop never spins (C34).
    - Operators.  The fast word paths return exactly what the element code
      returns, for binary operators (C3), shifts (C23), selects (C26)
      and the other operators (C36), and both have the meaning stated on
      elements and numbers (C4, C7).  VHDL integers never wrap (C24).
    - Resolution of nets is the element-wise IEEE 1164 resolution, independent
      of the order of drivers, and refines the nine-state algorithm (C11, C12).
    - Assertions.  For properties and sequences of the fragment named below,
      every outcome the monitor of the compiled property reports agrees with
      every continuation of the trace (C5), its calls end (C16), and a monitor
      that covers a sequence reports each match once and nothing else (C6).  For
      every plan, its text is read back (C15); no attempt of a monitor that does
      not cover a sequence is lost (C40).
    - FST blocks and packed UVM items are read back as written (C9, C10).
    - Wildcard patterns and the configuration database's expressions are
      decided as declared (C13, C14).
    - Synchronization.  A mailbox is a first-in first-out channel (C25) whose
      messages arrive where they were asked for (C17); keys of semaphores go to the
      waiters in order (C21); nobody waits for what is there (C28).  C25 and C28
      hold as long as no process is disabled while it waits.
    - The resource pool stays well typed (C27); the configuration database
      stays consistent, also when others use the pool without erasing what it
      refers to (C32), resolves to the best entry (C29) and reads back what was
      set (C30, for names without the separator of keys).
    - Sequencers.  A selection takes the request its mode asks for and nothing
      else (C33), in proportion to the weights where it draws (C35); queues,
      request table and counters stay consistent under every sequence of calls
      (C38); the FIFO modes serve a whole queue in order (C39).  Whoever holds a
      sequencer excludes every unrelated sequence, and waiters get it in order
      (C22), each after a bounded number of others (C31).
    - Pins exclude the writer of a plane block under every interleaving (C37).

    Not numbered, but in the same files: scheduling adds exactly one entry,
    [reset], encoders and packer succeed within stated limits, budgeted
    wildcards, expressions below contexts, spelling suggestions, bit ranges,
    ripple arithmetic modulo 2^width and division, texts of values, lookups of
    resources, handles of synchronization objects, waiters of the configuration
    database that wake once, incremental SHA-256, the checksum verifier, and the
    rollback of a request.

    The claims are in the files named after them, each with a witness on
    concrete values: [SchedulerProperties], [SvaProperties],
    [ServiceProperties] (encodings and patterns), [ConfigProperties],
    [SequenceProperties], [SyncProperties] and [Properties] (values, pins and
    hashes).  Examples of behaviour that departs from a comment, a standard or
    the rest of the code stand beside them: the representation of one signed power, part writes past
    32-bit offsets and matching equality on unknown elements ([Properties]); a
    star in a matched value ([GlobMatch.glob_match_star_in_value]); integer
    arrays that pack and do not unpack ([UvmPackerRoundTrip.pack_unreadable]);
    contexts with brackets and escaped dollars in expressions ([ConfigPattern]),
    names with the separator of keys ([ConfigProperties.separator_shares_entry]);
    selections that do not look at locks and a release that throws and strands
    the waiters ([SequenceProperties]); processes that are killed, disabled or
    suspended while they wait ([SyncProperties]);
    and six of the assertion engine, on [throughout], [first_match], joins,
    fusion with empty matches, merging of threads and [until], at the end of
    [SvaProperties].

    ** Limits of the model

    - Reading a word past the end of a span, undefined in C++, gives 0 here,
      and writing one does nothing.
    - Differences of 64-bit indices are exact integers in the selects; the
      theorems bound the indices as the types do.
    - Atomic operations are sequentially consistent steps, stronger than the
      memory orders the code names.
    - [Sha256] models the portable compression function, not the one for
      processors with SHA instructions.
    - Scheduler: batches, readiness tickets and ordered tickets, which dispatch
      several entries in one call, are left out, with the recycling of storage,
      trace and discard hooks and failing allocations.
    - Assertions: ticks and bounds are integers without a width, the sentinel of
      an open range is [None].  Every operator is modelled; the exactness
      theorems cover the [regular] fragment: one clock, sequences without [and],
      [intersect], [within], [throughout], [first_match] and clock changes,
      properties without [accept_on] and [reject_on], an immediate left operand
      of [until].  The six examples above show why the fragment ends there.  The
      parser of assertions and the sampling of their operands are left out.
    - Synchronization: processes of the reference interpreter without executors and
      suspended activations; [sizeof(std::string)] is 32; what other parts of the
      interpreter do to a process is any change ([Other]) as long as it does not wait
      here.  Disabling a process ([redirect_process]) is a step only for one that
      stands in no queue and waits for no event: the code leaves a waiting process
      in the queue, after which the invariant fails, as
      [SyncProperties.disabled_reader_takes_message] shows.
    - UVM services: textual reports are left out, callbacks do not call back
      into the service, and the state after an exception is not described, except
      that a failing arbitration call changes nothing and that a failing lock,
      grab or release leaves the service it has changed so far.  The objects and
      components behind sequences and sequencers are the parameter [Services].
    - Plane memory, cells and leases, the rest of the interpreter, the compiled kernels,
      the other UVM services, randomisation, foreign interfaces, the structure
      of waveform files, front ends, elaboration, application and platform code
      are not modelled.

    ** Order of work

    Values came first because everything else computes with them, then the
    scheduler and the services around it, then assertions, then sequencers with
    their locks, then synchronization.  What could be added on this basis: the
    driver handshake of sequencers, objections, the scheduler's batches and
    tickets, plane cells and leases on top of [ReaderPins], the record structure
    of FST files, and the interpreter's dispatch onto the value functions.

    ** This file

    Outcomes, loops, machine words, and the lemmas, tactics and hint databases
    ([fsim], [fsim_bits]) the other files share. *)
From Stdlib Require Export ZArith Lia Bool.
From Stdlib Require Export Ascii String.
From stdpp Require Export base tactics decidable numbers option sets list list_numbers strings.
From stdpp Require Import options.

#[global] Open Scope Z_scope.

(** * Outcomes: C++ exceptions as values *)

(** The standard exception classes the kernels throw, with the literal prefix
    of the message. *)
Inductive exception :=
  | length_error (what : string)
  | out_of_range (what : string)
  | invalid_argument (what : string)
  | logic_error (what : string)
  | overflow_error (what : string)
  | runtime_error (what : string).

(** The result of a call: it returns a value or throws. *)
Inductive Outcome (A : Type) :=
  | Ok (a : A)
  | Throw (e : exception).
Arguments Ok {A} _.
Arguments Throw {A} _.

#[global] Instance exception_eq_dec : EqDecision exception.
Proof. solve_decision. Defined.
#[global] Instance outcome_eq_dec {A} `{EqDecision A} : EqDecision (Outcome A).
Proof. solve_decision. Defined.

#[global] Instance outcome_ret : MRet Outcome := fun A a => Ok a.
#[global] Instance outcome_bind : MBind Outcome := fun A B f m =>
  match m with Ok a => f a | Throw e => Throw e end.
#[global] Instance outcome_fmap : FMap Outcome := fun A B f m =>
  match m with Ok a => Ok (f a) | Throw e => Throw e end.

(** [returns m Q]: the call returns normally and its value satisfies [Q]. *)
Definition returns {A} (m : Outcome A) (Q : A -> Prop) : Prop :=
  match m with Ok a => Q a | Throw _ => False end.

(** * Loops *)

(** [up lo hi] is the index sequence of [for (i = lo; i < hi; ++i)], [down n]
    that of [for (i = n; i-- > 0;)]. *)
Definition up (lo hi : Z) : list Z := seqZ lo (hi - lo).
Definition down (n : Z) : list Z := reverse (up 0 n).

(** A loop whose body may throw. *)
Fixpoint foreach {I S} (l : list I) (body : I -> S -> Outcome S) (s : S) : Outcome S :=
  match l with
  | [] => Ok s
  | i :: l => s' ← body i s; foreach l body s'
  end.

(** A loop whose body may also leave it early: [inl] continues with the next
    index, [inr] is a [return] (or a [break] carrying its state). *)
Fixpoint foreach_flow {I S R} (l : list I) (body : I -> S -> Outcome (S + R)) (s : S)
    : Outcome (S + R) :=
  match l with
  | [] => Ok (inl s)
  | i :: l =>
      match body i s with
      | Ok (inl s') => foreach_flow l body s'
      | other => other
      end
  end.

(** What follows a loop with early return: [k] runs when the loop finishes. *)
Definition after_loop {S R} (m : Outcome (S + R)) (k : S -> Outcome R) : Outcome R :=
  r ← m; match r with inl s => k s | inr q => Ok q end.

(** A loop that cannot throw. *)
Fixpoint foreach_pure {I S} (l : list I) (body : I -> S -> S) (s : S) : S :=
  match l with
  | [] => s
  | i :: l => foreach_pure l body (body i s)
  end.

(** * Machine words *)

Definition U64_MAX : Z := 2 ^ 64 - 1.
Definition U32_MAX : Z := 2 ^ 32 - 1.
Definition SIZE_MAX : Z := 2 ^ 64 - 1.

(** Unsigned 64-bit arithmetic: every result is taken modulo 2^64. *)
Definition wrap64 (x : Z) : Z := x mod 2 ^ 64.
Definition wrap32 (x : Z) : Z := x mod 2 ^ 32.
Definition not64 (x : Z) : Z := Z.land (Z.lnot x) (Z.ones 64).
Definition shl64 (x n : Z) : Z := Z.land (Z.shiftl x n) (Z.ones 64).
Definition add64 (x y : Z) : Z := wrap64 (x + y).
Definition sub64 (x y : Z) : Z := wrap64 (x - y).
Definition mul64 (x y : Z) : Z := wrap64 (x * y).

(** [std::bit_cast<std::int64_t>] and [static_cast<std::int64_t>]. *)
Definition to_int64 (x : Z) : Z := if x <? 2 ^ 63 then x else x - 2 ^ 64.
Definition to_int32 (x : Z) : Z := if x <? 2 ^ 31 then x else x - 2 ^ 32.

Definition is_u64 (x : Z) : Prop := 0 <= x < 2 ^ 64.

(** Reading and writing element [k] of a word span.  C++ leaves an access past
    the end undefined; the model reads zero and writes nothing there. *)
Definition word_at (ws : list Z) (k : Z) : Z := nth (Z.to_nat k) ws 0.
Definition set_word (ws : list Z) (k v : Z) : list Z := <[Z.to_nat k := v]> ws.
Definition size {A} (ws : list A) : Z := Z.of_nat (length ws).
Definition front (ws : list Z) : Z := word_at ws 0.

(** * Lemmas: outcomes and loops *)

Create HintDb fsim.
Create Rewrite HintDb fsim_bits.

(** Weakest-precondition style rules: a call that returns within [Q]. *)
Lemma returns_ok {A} (a : A) (Q : A -> Prop) : Q a -> returns (Ok a) Q.
Proof. done. Qed.

Lemma returns_bind {A B} (m : Outcome A) (f : A -> Outcome B) (Q : B -> Prop) :
  returns m (fun a => returns (f a) Q) -> returns (m ≫= f) Q.
Proof. by destruct m. Qed.

Lemma returns_mono {A} (m : Outcome A) (P Q : A -> Prop) :
  returns m P -> (forall a, P a -> Q a) -> returns m Q.
Proof. destruct m; simpl; auto. Qed.

Lemma returns_eq {A} (m : Outcome A) (a : A) : returns m (eq a) <-> m = Ok a.
Proof.
  destruct m; simpl; split; intros H; [by rewrite H | by injection H | done | done].
Qed.

Lemma returns_inv {A} (m : Outcome A) (Q : A -> Prop) :
  returns m Q -> exists a, m = Ok a /\ Q a.
Proof. destruct m; simpl; [eauto | done]. Qed.

Lemma bind_ok {A B} (a : A) (f : A -> Outcome B) : (Ok a ≫= f) = f a.
Proof. done. Qed.

Lemma bind_throw {A B} e (f : A -> Outcome B) : ((Throw e : Outcome A) ≫= f) = Throw e.
Proof. done. Qed.

Lemma up_nil lo hi : hi <= lo -> up lo hi = [].
Proof. intros. unfold up. apply seqZ_nil. lia. Qed.

Lemma up_cons lo hi : lo < hi -> up lo hi = lo :: up (lo + 1) hi.
Proof.
  intros. unfold up. rewrite seqZ_cons by lia.
  replace (Z.pred (hi - lo)) with (hi - (lo + 1)) by lia.
  by rewrite <- Z.add_1_r.
Qed.

Lemma up_snoc lo hi : lo < hi -> up lo hi = up lo (hi - 1) ++ [hi - 1].
Proof.
  intros. unfold up. replace (hi - lo) with ((hi - 1 - lo) + 1) by lia.
  rewrite seqZ_app by lia. f_equal.
  rewrite seqZ_cons by lia. rewrite seqZ_nil by lia. f_equal. lia.
Qed.

Lemma elem_of_up lo hi i : i ∈ up lo hi <-> lo <= i < hi.
Proof. unfold up. rewrite elem_of_seqZ. lia. Qed.

Lemma down_cons n : 0 < n -> down n = (n - 1) :: down (n - 1).
Proof. intros. unfold down. rewrite up_snoc by lia. by rewrite reverse_snoc. Qed.

Lemma down_nil n : n <= 0 -> down n = [].
Proof. intros. unfold down. by rewrite up_nil by lia. Qed.

(** Induction principle behind every loop rule: the distance still to go. *)
Lemma range_ind (P : Z -> Prop) hi :
  P hi -> (forall i, i < hi -> P (i + 1) -> P i) -> forall i, i <= hi -> P i.
Proof.
  intros Hhi Hstep i Hi.
  remember (Z.to_nat (hi - i)) as n eqn:En. revert i Hi En.
  induction n as [|n IH]; intros i Hi En.
  - by replace i with hi by lia.
  - apply Hstep; [lia|]. apply IH; lia.
Qed.

(** Loop invariant rule for a counting-up loop. *)
Lemma foreach_up {S} (P : Z -> S -> Prop) lo hi (body : Z -> S -> Outcome S) :
  (forall i s, lo <= i < hi -> P i s -> returns (body i s) (P (i + 1))) ->
  lo <= hi -> forall s, P lo s -> returns (foreach (up lo hi) body s) (P hi).
Proof.
  intros Hbody Hle.
  cut (forall i, i <= hi -> lo <= i ->
         forall s, P i s -> returns (foreach (up i hi) body s) (P hi)).
  { intros H. by apply H. }
  apply (range_ind (fun i => lo <= i ->
         forall s, P i s -> returns (foreach (up i hi) body s) (P hi))).
  - intros _ s Hs. by rewrite up_nil by lia.
  - intros i Hi IH Hlo s Hs. rewrite up_cons by lia. simpl.
    apply returns_bind. eapply returns_mono; [apply Hbody; [lia|done]|].
    intros s' Hs'. apply IH; [lia|done].
Qed.

Lemma foreach_pure_up {S} (P : Z -> S -> Prop) lo hi (body : Z -> S -> S) :
  (forall i s, lo <= i < hi -> P i s -> P (i + 1) (body i s)) ->
  lo <= hi -> forall s, P lo s -> P hi (foreach_pure (up lo hi) body s).
Proof.
  intros Hbody Hle.
  cut (forall i, i <= hi -> lo <= i ->
         forall s, P i s -> P hi (foreach_pure (up i hi) body s)).
  { intros H. by apply H. }
  apply (range_ind (fun i => lo <= i ->
         forall s, P i s -> P hi (foreach_pure (up i hi) body s))).
  - intros _ s Hs. by rewrite up_nil by lia.
  - intros i Hi IH Hlo s Hs. rewrite up_cons by lia. simpl.
    apply IH; [lia|]. apply Hbody; [lia|done].
Qed.

(** A loop with early exit: [P] at every index reached, [Q] on return. *)
Lemma foreach_flow_up {S R} (P : Z -> S -> Prop) (Q : R -> Prop) lo hi
    (body : Z -> S -> Outcome (S + R)) :
  (forall i s, lo <= i < hi -> P i s ->
     returns (body i s) (fun r => match r with inl s' => P (i + 1) s' | inr q => Q q end)) ->
  lo <= hi -> forall s, P lo s ->
  returns (foreach_flow (up lo hi) body s)
    (fun r => match r with inl s' => P hi s' | inr q => Q q end).
Proof.
  intros Hbody Hle.
  cut (forall i, i <= hi -> lo <= i -> forall s, P i s ->
         returns (foreach_flow (up i hi) body s)
           (fun r => match r with inl s' => P hi s' | inr q => Q q end)).
  { intros H. by apply H. }
  apply (range_ind (fun i => lo <= i -> forall s, P i s ->
         returns (foreach_flow (up i hi) body s)
           (fun r => match r with inl s' => P hi s' | inr q => Q q end))).
  - intros _ s Hs. by rewrite up_nil by lia.
  - intros i Hi IH Hlo s Hs. rewrite up_cons by lia. simpl.
    specialize (Hbody i s ltac:(lia) Hs).
    destruct (body i s) as [[s'|q]|e]; simpl in *; [apply IH; [lia|done] | done | done].
Qed.

(** Loop invariant rule for a counting-down loop. *)
Lemma foreach_down {S} (P : Z -> S -> Prop) n (body : Z -> S -> Outcome S) :
  (forall i s, 0 <= i < n -> P (i + 1) s -> returns (body i s) (P i)) ->
  0 <= n -> forall s, P n s -> returns (foreach (down n) body s) (P 0).
Proof.
  intros Hbody Hn. revert Hbody.
  pattern n. apply natlike_ind; [| |done].
  - intros _ s Hs. by rewrite down_nil by lia.
  - intros m Hm IH Hbody s Hs. rewrite down_cons by lia.
    replace (Z.succ m - 1) with m by lia. simpl.
    apply returns_bind. eapply returns_mono.
    + apply Hbody; [lia|]. by rewrite Z.add_1_r.
    + intros s' Hs'. apply IH; [|done]. intros; apply Hbody; [lia|done].
Qed.

Lemma foreach_flow_down {S R} (P : Z -> S -> Prop) (Q : R -> Prop) n
    (body : Z -> S -> Outcome (S + R)) :
  (forall i s, 0 <= i < n -> P (i + 1) s ->
     returns (body i s) (fun r => match r with inl s' => P i s' | inr q => Q q end)) ->
  0 <= n -> forall s, P n s ->
  returns (foreach_flow (down n) body s)
    (fun r => match r with inl s' => P 0 s' | inr q => Q q end).
Proof.
  intros Hbody Hn. revert Hbody.
  pattern n. apply natlike_ind; [| |done].
  - intros _ s Hs. by rewrite down_nil by lia.
  - intros m Hm IH Hbody s Hs. rewrite down_cons by lia.
    replace (Z.succ m - 1) with m by lia. simpl.
    pose proof (Hbody m s ltac:(lia)) as Hb. rewrite Z.add_1_r in Hb.
    specialize (Hb Hs). destruct (body m s) as [[s'|q]|e]; simpl in *; [|done|done].
    apply IH; [|done]. intros; apply Hbody; [lia|done].
Qed.

(** A loop over a list of values (drivers, operands): the invariant knows the
    values already visited. *)
Lemma foreach_prefix {I S} (P : list I -> S -> Prop) (body : I -> S -> Outcome S) l s :
  P [] s ->
  (forall done i rest s, l = done ++ i :: rest -> P done s -> returns (body i s) (P (done ++ [i]))) ->
  returns (foreach l body s) (P l).
Proof.
  intros Hnil Hbody.
  cut (forall pre suf s, pre ++ suf = l -> P pre s -> returns (foreach suf body s) (P l)).
  { intros H. by apply (H []). }
  intros pre suf. revert pre. induction suf as [|i suf IH]; intros pre s' Hl Hs'.
  - simpl. rewrite app_nil_r in Hl. by subst.
  - simpl. apply returns_bind. eapply returns_mono; [by eapply Hbody|].
    intros s2 Hs2. eapply IH; [|done]. by rewrite <- app_assoc.
Qed.

Lemma foreach_list {I S} (P : list I -> S -> Prop) (body : I -> S -> Outcome S) l s :
  P [] s ->
  (forall done i s, P done s -> i ∈ l -> returns (body i s) (P (done ++ [i]))) ->
  returns (foreach l body s) (P l).
Proof.
  intros Hnil Hbody. apply foreach_prefix; [done|]. intros done i rest s' -> Hs'.
  apply Hbody; [done|set_solver].
Qed.

(** Two loops whose bodies agree on the indices visited. *)
Lemma foreach_ext {I S} (l : list I) (f g : I -> S -> Outcome S) s :
  (forall i s, i ∈ l -> f i s = g i s) -> foreach l f s = foreach l g s.
Proof.
  revert s. induction l as [|i l IH]; intros s H; simpl; [done|].
  rewrite H by set_solver. destruct (g i s); simpl; [|done]. apply IH. set_solver.
Qed.

(** A loop over an invariant [P] whose body fails in only one way, and does so
    at some index it visits. *)
Lemma foreach_throws_inv {I S} (P : S -> Prop) (l : list I) (body : I -> S -> Outcome S) e s :
  P s -> (forall i s, i ∈ l -> P s -> body i s = Throw e \/ returns (body i s) P) ->
  (exists i, i ∈ l /\ forall s, body i s = Throw e) ->
  foreach l body s = Throw e.
Proof.
  revert s. induction l as [|i l IH]; intros s Hs Hall (j & Hj & Hbad); [by apply elem_of_nil in Hj|].
  simpl. destruct (Hall i s) as [->|(s' & Hs' & HP)%returns_inv]; [set_solver|done|done|].
  rewrite Hs'. simpl. apply IH; [done|set_solver|].
  destruct (proj1 (elem_of_cons l j i) Hj) as [->|Hin]; [by rewrite Hbad in Hs'|eauto].
Qed.

Lemma foreach_throws {I S} (l : list I) (body : I -> S -> Outcome S) e s :
  (forall i s, i ∈ l -> (exists s', body i s = Ok s') \/ body i s = Throw e) ->
  (exists i, i ∈ l /\ forall s, body i s = Throw e) ->
  foreach l body s = Throw e.
Proof.
  intros Hall Hbad. apply (foreach_throws_inv (fun _ => True)); [done| |done].
  intros i s' Hi _. destruct (Hall i s' Hi) as [[s'' ->]| ->]; [by right|by left].
Qed.

Lemma foreach_ok_or {I S} (l : list I) (body : I -> S -> Outcome S) e s :
  (forall i s, i ∈ l -> (exists s', body i s = Ok s') \/ body i s = Throw e) ->
  (exists s', foreach l body s = Ok s') \/ foreach l body s = Throw e.
Proof.
  revert s. induction l as [|i l IH]; intros s Hall; simpl; [eauto|].
  destruct (Hall i s) as [[s' Hs']|Hs']; [set_solver| |rewrite Hs'; by right].
  rewrite Hs'. simpl. apply IH. set_solver.
Qed.

Lemma foreach_flow_ext {I S R} (l : list I) (f g : I -> S -> Outcome (S + R)) s :
  (forall i s, i ∈ l -> f i s = g i s) -> foreach_flow l f s = foreach_flow l g s.
Proof.
  revert s. induction l as [|i l IH]; intros s H; simpl; [done|].
  rewrite H by set_solver. destruct (g i s) as [[]|]; [|done|done]. apply IH. set_solver.
Qed.

(** A scan that returns [q] at the first index satisfying [p]. *)
Lemma scan_exists {I R} (l : list I) (body : I -> unit -> Outcome (unit + R)) (p : I -> bool) q :
  (forall i s, i ∈ l -> body i s = Ok (if p i then inr q else inl tt)) ->
  foreach_flow l body tt = Ok (if existsb p l then inr q else inl tt).
Proof.
  induction l as [|i l IH]; intros H; simpl; [done|].
  rewrite H by set_solver. destruct (p i); simpl; [done|]. apply IH. set_solver.
Qed.

(** A loop that neither throws nor leaves early is a pure fold. *)
Lemma foreach_is_pure {I S} (l : list I) (body : I -> S -> Outcome S) (f : I -> S -> S) s :
  (forall i s, i ∈ l -> body i s = Ok (f i s)) -> foreach l body s = Ok (foreach_pure l f s).
Proof.
  revert s. induction l as [|i l IH]; intros s H; simpl; [done|].
  rewrite H by set_solver. simpl. apply IH. set_solver.
Qed.

Lemma existsb_up lo hi (p : Z -> bool) :
  existsb p (up lo hi) = true <-> exists i, lo <= i < hi /\ p i = true.
Proof.
  rewrite existsb_exists. split; intros (i & Hi & Hp); exists i; split; try done.
  - by apply elem_of_up, list_elem_of_In.
  - by apply list_elem_of_In, elem_of_up.
Qed.

Lemma existsb_up_false lo hi (p : Z -> bool) :
  existsb p (up lo hi) = false <-> forall i, lo <= i < hi -> p i = false.
Proof.
  rewrite <- not_true_iff_false, existsb_up. split.
  - intros H i Hi. apply not_true_is_false. intros Hp. apply H. by exists i.
  - intros H (i & Hi & Hp). by rewrite H in Hp.
Qed.

(** * Lemmas: words *)

Lemma testbit_ones64 i : 0 <= i -> Z.testbit (Z.ones 64) i = (i <? 64).
Proof. intros. rewrite Z.testbit_ones_nonneg by lia. done. Qed.

Lemma testbit_not64 x i : 0 <= i -> Z.testbit (not64 x) i = (i <? 64) && negb (Z.testbit x i).
Proof.
  intros. unfold not64. rewrite Z.land_spec, Z.lnot_spec, testbit_ones64 by lia.
  by rewrite andb_comm.
Qed.

Lemma testbit_shl64 x n i :
  0 <= i -> Z.testbit (shl64 x n) i = (i <? 64) && Z.testbit x (i - n).
Proof.
  intros. unfold shl64. rewrite Z.land_spec, Z.shiftl_spec, testbit_ones64 by lia.
  by rewrite andb_comm.
Qed.

Lemma testbit_shiftr x n i : 0 <= i -> Z.testbit (Z.shiftr x n) i = Z.testbit x (i + n).
Proof. intros. by apply Z.shiftr_spec. Qed.

Lemma testbit_pow2m1 n i : 0 <= n -> 0 <= i -> Z.testbit (2 ^ n - 1) i = (i <? n).
Proof.
  intros. replace (2 ^ n - 1) with (Z.ones n) by (rewrite Z.ones_equiv; lia).
  by rewrite Z.testbit_ones_nonneg by lia.
Qed.

Lemma testbit_u64_max i : 0 <= i -> Z.testbit U64_MAX i = (i <? 64).
Proof. intros. unfold U64_MAX. by apply testbit_pow2m1. Qed.

Lemma testbit_pow2 n i : 0 <= n -> Z.testbit (2 ^ n) i = (i =? n).
Proof.
  intros. destruct (Z.eqb_spec i n) as [->|].
  - by apply Z.pow2_bits_true.
  - apply Z.pow2_bits_false. lia.
Qed.

Lemma testbit_shl_one n i :
  0 <= n -> 0 <= i -> Z.testbit (shl64 1 n) i = (i <? 64) && (i =? n).
Proof.
  intros. rewrite testbit_shl64 by lia. f_equal.
  destruct (Z.eqb_spec i n) as [->|]; [by rewrite Z.sub_diag|].
  destruct (Z.ltb_spec i n); [by apply Z.testbit_neg_r; lia|].
  apply (Z.bits_above_log2 1); [lia|]. change (Z.log2 1) with 0. lia.
Qed.

Lemma testbit_high x n i : 0 <= x < 2 ^ n -> 0 <= n <= i -> Z.testbit x i = false.
Proof.
  intros [Hx Hlt] Hi. destruct (Z.eq_dec x 0) as [->|]; [apply Z.bits_0|].
  apply Z.bits_above_log2; [lia|]. apply Z.log2_lt_pow2; [lia|].
  eapply Z.lt_le_trans; [done|]. apply Z.pow_le_mono_r; lia.
Qed.

Lemma testbit_u64_high x i : is_u64 x -> 64 <= i -> Z.testbit x i = false.
Proof. intros. eapply testbit_high with (n := 64); [done|lia]. Qed.

(** A number whose bits are clear from [n] on is below [2^n]. *)
Lemma bounded_of_testbit x n :
  0 <= n -> (forall i, n <= i -> Z.testbit x i = false) -> 0 <= x < 2 ^ n.
Proof.
  intros Hn Hb. assert (x = x mod 2 ^ n) as Hx.
  { apply Z.bits_inj'. intros i Hi. destruct (Z.ltb_spec i n).
    - by rewrite Z.mod_pow2_bits_low by lia.
    - rewrite Z.mod_pow2_bits_high by lia. by apply Hb. }
  rewrite Hx. apply Z.mod_pos_bound. by apply Z.pow_pos_nonneg.
Qed.

Lemma u64_of_testbit x : (forall i, 64 <= i -> Z.testbit x i = false) -> is_u64 x.
Proof. intros. by apply bounded_of_testbit. Qed.

Lemma is_u64_land_ones x : is_u64 (Z.land x (Z.ones 64)).
Proof.
  apply u64_of_testbit. intros i Hi. rewrite Z.land_spec, testbit_ones64 by lia.
  by rewrite (proj2 (Z.ltb_ge i 64)), andb_false_r by lia.
Qed.

Lemma is_u64_not64 x : is_u64 (not64 x).
Proof. apply is_u64_land_ones. Qed.
Lemma is_u64_shl64 x n : is_u64 (shl64 x n).
Proof. apply is_u64_land_ones. Qed.

Lemma is_u64_0 : is_u64 0.
Proof. done. Qed.
Lemma is_u64_max : is_u64 U64_MAX.
Proof. done. Qed.

Lemma is_u64_wrap64 x : is_u64 (wrap64 x).
Proof. unfold is_u64, wrap64. by apply Z.mod_pos_bound. Qed.

Lemma is_u64_land_l x y : is_u64 x -> is_u64 (Z.land x y).
Proof.
  intros. apply u64_of_testbit. intros. rewrite Z.land_spec.
  by rewrite (testbit_u64_high x) by (done || lia).
Qed.
Lemma is_u64_land_r x y : is_u64 y -> is_u64 (Z.land x y).
Proof. rewrite Z.land_comm. apply is_u64_land_l. Qed.

Lemma is_u64_lor x y : is_u64 x -> is_u64 y -> is_u64 (Z.lor x y).
Proof.
  intros. apply u64_of_testbit. intros. rewrite Z.lor_spec.
  by rewrite (testbit_u64_high x), (testbit_u64_high y) by (done || lia).
Qed.

Lemma is_u64_lxor x y : is_u64 x -> is_u64 y -> is_u64 (Z.lxor x y).
Proof.
  intros. apply u64_of_testbit. intros. rewrite Z.lxor_spec.
  by rewrite (testbit_u64_high x), (testbit_u64_high y) by (done || lia).
Qed.

Lemma is_u64_shiftr x n : 0 <= n -> is_u64 x -> is_u64 (Z.shiftr x n).
Proof.
  intros. apply u64_of_testbit. intros. rewrite Z.shiftr_spec by lia.
  apply testbit_u64_high; [done|lia].
Qed.

#[export] Hint Resolve is_u64_not64 is_u64_shl64 is_u64_0 is_u64_max is_u64_wrap64
  is_u64_lor is_u64_lxor is_u64_land_ones : fsim.
#[export] Hint Resolve is_u64_land_l is_u64_land_r : fsim.

#[export] Hint Rewrite Z.land_spec Z.lor_spec Z.lxor_spec Z.ldiff_spec Z.bits_0 : fsim_bits.
#[export] Hint Rewrite testbit_ones64 testbit_not64 testbit_shl_one testbit_shl64 testbit_shiftr
  testbit_u64_max using lia : fsim_bits.

(** Decide every boolean integer comparison in sight. *)
Ltac cases_ltb :=
  repeat match goal with
  | |- context [ ?a <? ?b ] => destruct (Z.ltb_spec a b)
  | |- context [ ?a <=? ?b ] => destruct (Z.leb_spec a b)
  | |- context [ ?a =? ?b ] => destruct (Z.eqb_spec a b)
  end.

(** Prove an equation between words bit by bit. *)
Ltac word_ext i Hi := apply Z.bits_inj'; intros i Hi; autorewrite with fsim_bits.

Ltac destruct_testbits :=
  repeat match goal with
  | |- context [ Z.testbit ?x ?i ] => destruct (Z.testbit x i)
  end.

(** ** Word spans *)

Lemma word_at_lookup ws k : word_at ws k = default 0 (ws !! Z.to_nat k).
Proof. unfold word_at. by rewrite nth_lookup. Qed.

Lemma word_at_set ws k j v :
  0 <= k < size ws -> 0 <= j ->
  word_at (set_word ws k v) j = if j =? k then v else word_at ws j.
Proof.
  intros. rewrite !word_at_lookup. unfold set_word, size in *.
  destruct (Z.eqb_spec j k) as [->|].
  - rewrite list_lookup_insert_eq by lia. done.
  - rewrite list_lookup_insert_ne by lia. done.
Qed.

Lemma word_at_high ws k : size ws <= k -> word_at ws k = 0.
Proof. intros. unfold word_at, size in *. apply nth_overflow. lia. Qed.

Lemma size_set_word ws k v : size (set_word ws k v) = size ws.
Proof. unfold size, set_word. by rewrite length_insert. Qed.

Lemma size_app {A} (l1 l2 : list A) : size (l1 ++ l2) = size l1 + size l2.
Proof. unfold size. rewrite length_app. lia. Qed.

Lemma size_nonneg {A} (ws : list A) : 0 <= size ws.
Proof. unfold size. lia. Qed.

Lemma word_at_replicate n v k :
  0 <= k -> word_at (replicate n v) k = if k <? Z.of_nat n then v else 0.
Proof.
  intros. rewrite word_at_lookup. destruct (Z.ltb_spec k (Z.of_nat n)).
  - rewrite lookup_replicate_2 by lia. done.
  - rewrite lookup_ge_None_2; [done|]. rewrite length_replicate. lia.
Qed.

Lemma word_at_ext ws1 ws2 :
  size ws1 = size ws2 ->
  (forall k, 0 <= k < size ws1 -> word_at ws1 k = word_at ws2 k) -> ws1 = ws2.
Proof.
  unfold size. intros Hl H. apply (nth_ext _ _ 0 0); [lia|].
  intros n Hn. specialize (H (Z.of_nat n)). unfold word_at in H.
  rewrite Nat2Z.id in H. apply H. lia.
Qed.

Lemma word_at_fmap (f : Z -> Z) ws k :
  0 <= k < size ws -> word_at (f <$> ws) k = f (word_at ws k).
Proof.
  intros Hk. rewrite !word_at_lookup, list_lookup_fmap. unfold size in Hk.
  destruct (lookup_lt_is_Some_2 ws (Z.to_nat k)) as [x ->]; [lia|]. done.
Qed.

Lemma word_at_zip_with (f : Z -> Z -> Z) ws vs k :
  0 <= k < size ws -> k < size vs ->
  word_at (zip_with f ws vs) k = f (word_at ws k) (word_at vs k).
Proof.
  intros Hk Hk'. rewrite !word_at_lookup, lookup_zip_with. unfold size in *.
  destruct (lookup_lt_is_Some_2 ws (Z.to_nat k)) as [x ->]; [lia|].
  destruct (lookup_lt_is_Some_2 vs (Z.to_nat k)) as [y ->]; [lia|]. done.
Qed.

Lemma word_at_u64 ws k : Forall is_u64 ws -> is_u64 (word_at ws k).
Proof.
  intros H. rewrite word_at_lookup. destruct (ws !! Z.to_nat k) eqn:E; simpl; [|done].
  by eapply Forall_lookup_1.
Qed.

Lemma set_word_u64 ws k v : Forall is_u64 ws -> is_u64 v -> Forall is_u64 (set_word ws k v).
Proof. intros. unfold set_word. by apply Forall_insert. Qed.

#[export] Hint Resolve word_at_u64 set_word_u64 : fsim.

(** * Numbers from bits *)

(** The number whose bit [i] is [f i] for [i < w]. *)
Definition bits_value (w : Z) (f : Z -> bool) : Z :=
  foreach_pure (up 0 w) (fun i acc => acc + Z.b2z (f i) * 2 ^ i) 0.

Lemma foreach_pure_app {I S} (l1 l2 : list I) (body : I -> S -> S) s :
  foreach_pure (l1 ++ l2) body s = foreach_pure l2 body (foreach_pure l1 body s).
Proof. revert s. induction l1 as [|i l1 IH]; intros s; simpl; [done|]. apply IH. Qed.

Lemma bits_value_succ w f :
  0 <= w -> bits_value (w + 1) f = bits_value w f + Z.b2z (f w) * 2 ^ w.
Proof.
  intros. unfold bits_value. rewrite (up_snoc 0 (w + 1)) by lia.
  rewrite foreach_pure_app. simpl. by replace (w + 1 - 1) with w by lia.
Qed.

Lemma bits_value_0 f : bits_value 0 f = 0.
Proof. done. Qed.

Lemma bits_value_bound w f : 0 <= w -> 0 <= bits_value w f < 2 ^ w.
Proof.
  intros Hw. pattern w. apply natlike_ind; [| |done].
  - rewrite bits_value_0. lia.
  - intros n Hn IH. rewrite <- Z.add_1_r, bits_value_succ, Z.pow_add_r by lia.
    destruct (f n); simpl; lia.
Qed.

Lemma testbit_add_pow2 x n b i :
  0 <= n -> 0 <= x < 2 ^ n -> 0 <= i ->
  Z.testbit (x + Z.b2z b * 2 ^ n) i = if i =? n then b else Z.testbit x i.
Proof.
  intros Hn Hx Hi. destruct b; simpl Z.b2z.
  2:{ rewrite Z.mul_0_l, Z.add_0_r. destruct (Z.eqb_spec i n) as [->|]; [|done].
      by apply (testbit_high x n). }
  rewrite Z.mul_1_l.
  assert (Z.land x (2 ^ n) = 0) as Hd.
  { apply Z.bits_inj'. intros j Hj. rewrite Z.land_spec, Z.bits_0, testbit_pow2 by lia.
    destruct (Z.eqb_spec j n) as [->|]; [|apply andb_false_r].
    by rewrite (testbit_high x n) by (done || lia). }
  rewrite (Z.add_nocarry_lxor _ _ Hd), Z.lxor_spec, testbit_pow2 by lia.
  destruct (Z.eqb_spec i n) as [->|]; [|apply xorb_false_r].
  by rewrite (testbit_high x n) by (done || lia).
Qed.

Lemma testbit_bits_value w f i :
  0 <= w -> 0 <= i -> Z.testbit (bits_value w f) i = (i <? w) && f i.
Proof.
  intros Hw Hi. pattern w. apply natlike_ind; [| |done].
  - rewrite bits_value_0, Z.bits_0. destruct (Z.ltb_spec i 0); [lia|done].
  - intros n Hn IH. rewrite <- Z.add_1_r, bits_value_succ by lia.
    rewrite testbit_add_pow2 by (auto using bits_value_bound || lia). rewrite IH.
    destruct (Z.eqb_spec i n) as [->|].
    + by rewrite (proj2 (Z.ltb_lt n (n + 1))) by lia.
    + f_equal. cases_ltb; lia.
Qed.

Lemma bits_value_testbit w x : 0 <= w -> 0 <= x < 2 ^ w -> bits_value w (Z.testbit x) = x.
Proof.
  intros Hw Hx. apply Z.bits_inj'. intros i Hi. rewrite testbit_bits_value by lia.
  destruct (Z.ltb_spec i w); [done|]. by rewrite (testbit_high x w) by (done || lia).
Qed.

Lemma bits_value_ext w f g :
  (forall i, 0 <= i < w -> f i = g i) -> bits_value w f = bits_value w g.
Proof.
  intros H. destruct (Z.ltb_spec w 0).
  { unfold bits_value. by rewrite up_nil by lia. }
  apply Z.bits_inj'. intros i Hi. rewrite !testbit_bits_value by lia.
  destruct (Z.ltb_spec i w); [|done]. by rewrite H by lia.
Qed.

Lemma testbit_mod_pow2 x w i : 0 <= w -> 0 <= i ->
  Z.testbit (x mod 2 ^ w) i = (i <? w) && Z.testbit x i.
Proof.
  intros. destruct (Z.ltb_spec i w).
  - by rewrite Z.mod_pow2_bits_low by lia.
  - by rewrite Z.mod_pow2_bits_high by lia.
Qed.

(** * Counting *)

(** How many indices below [n] satisfy [p]. *)
Definition count_up (p : Z -> bool) (n : Z) : Z :=
  foreach_pure (up 0 n) (fun i count => count + Z.b2z (p i)) 0.

Lemma count_up_succ p n : 0 <= n -> count_up p (n + 1) = count_up p n + Z.b2z (p n).
Proof.
  intros Hn. unfold count_up. rewrite (up_snoc 0 (n + 1)), foreach_pure_app by lia. simpl.
  by replace (n + 1 - 1) with n by lia.
Qed.

Lemma count_up_bounds p n : 0 <= n -> 0 <= count_up p n <= n.
Proof.
  intros Hn. pattern n. apply natlike_ind; [done| |done]. intros k Hk IH.
  rewrite <- Z.add_1_r, count_up_succ by lia. destruct (p k); simpl; lia.
Qed.

Lemma count_up_mono p k n : 0 <= k <= n -> count_up p k <= count_up p n.
Proof.
  intros Hk. replace n with (k + (n - k)) by lia. assert (0 <= n - k) as Hd by lia. revert Hd.
  generalize (n - k) as d. intros d Hd. pattern d. apply natlike_ind; [|intros m Hm IH|done].
  - by rewrite Z.add_0_r.
  - replace (k + Z.succ m) with (k + m + 1) by lia. rewrite count_up_succ by lia.
    destruct (p (k + m)); simpl; lia.
Qed.

Lemma count_up_ext p q n : (forall i, 0 <= i < n -> p i = q i) -> count_up p n = count_up q n.
Proof.
  intros H. destruct (Z.ltb_spec n 0); [unfold count_up; by rewrite up_nil by lia|].
  revert H. pattern n. apply natlike_ind; [done| |done]. intros k Hk IH Hext.
  rewrite <- Z.add_1_r, !count_up_succ, IH, Hext by (intros; try apply Hext; lia). done.
Qed.

(** * Tables filled in order *)

Lemma nth_insert {A} (d : A) row i j b : (j < length row)%nat ->
  nth i (<[j := b]> row) d = if decide (i = j) then b else nth i row d.
Proof.
  intros Hj. rewrite !nth_lookup. destruct (decide (i = j)) as [->|].
  - by rewrite list_lookup_insert_eq.
  - by rewrite list_lookup_insert_ne.
Qed.

(** A loop that fills the cells 1 .. n in order leaves in each what [f] makes
    of the cell before it. *)
Lemma fill_row {A} (d : A) (f : list A -> nat -> A) (row0 : list A) n :
  (n < length row0)%nat ->
  (forall r1 r2 i, (1 <= i <= n)%nat -> nth (i - 1) r1 d = nth (i - 1) r2 d -> f r1 i = f r2 i) ->
  let row := foldl (fun row i => <[i := f row i]> row) row0 (seq 1 n) in
  length row = length row0 /\ nth 0 row d = nth 0 row0 d /\
  forall i, (1 <= i <= n)%nat -> nth i row d = f row i.
Proof.
  intros Hn Hf. cbv zeta. induction n as [|n IH]; [split_and!; [done..|]; intros; lia|].
  destruct IH as (Hlen & H0 & Hcells); [lia|intros; apply Hf; [lia|done]|].
  rewrite seq_S, foldl_snoc. set (row := foldl _ _ _) in *.
  assert (forall i, (i < S n)%nat -> nth i (<[(1 + n)%nat := f row (1 + n)%nat]> row) d = nth i row d) as Hold.
  { intros i Hi. rewrite nth_insert by lia. by rewrite decide_False by lia. }
  split_and!; [by rewrite length_insert|by rewrite Hold by lia|].
  intros i Hi. destruct (decide (i = S n)) as [->|Hne].
  - rewrite nth_insert, decide_True by lia. apply Hf; [lia|]. by rewrite Hold by lia.
  - rewrite Hold by lia. rewrite Hcells by lia. apply Hf; [lia|]. by rewrite Hold by lia.
Qed.
