(* ===== verification/Logic.v ===== *)
(** * Scalar logic values

    Model of include/fsim/runtime/logic.hpp: the four-state values of Verilog
    and SystemVerilog, the nine-state values of IEEE std_logic_1164, their
    textual forms, the conversions at a mixed-language boundary, the logical
    tables and the driver resolution functions.  The C++ overloads on [Logic4]
    and [Logic9] carry the suffix 4 or 9 here; the class [Resolution] states
    what both resolution functions promise to the packed kernels. *)
From S2P Require Import Prelude.

Inductive Logic4 :=
  | Logic4_zero | Logic4_one | Logic4_x | Logic4_z.

Inductive Logic9 :=
  | Logic9_u | Logic9_x | Logic9_zero | Logic9_one | Logic9_z
  | Logic9_w | Logic9_l | Logic9_h | Logic9_dont_care.

#[global] Instance logic4_eq_dec : EqDecision Logic4.
Proof. solve_decision. Defined.
#[global] Instance logic9_eq_dec : EqDecision Logic9.
Proof. solve_decision. Defined.

Definition logic4_eqb (a b : Logic4) : bool := bool_decide (a = b).
Definition logic9_eqb (a b : Logic9) : bool := bool_decide (a = b).

(** [static_cast<std::uint8_t>(value)]: the declared enumerator values. *)
Definition logic4_code (v : Logic4) : Z :=
  match v with Logic4_zero => 0 | Logic4_one => 1 | Logic4_x => 2 | Logic4_z => 3 end.

Definition logic9_code (v : Logic9) : Z :=
  match v with
  | Logic9_u => 0 | Logic9_x => 1 | Logic9_zero => 2 | Logic9_one => 3 | Logic9_z => 4
  | Logic9_w => 5 | Logic9_l => 6 | Logic9_h => 7 | Logic9_dont_care => 8
  end.

(** [encoded <= Logic9::dont_care ? static_cast<Logic9>(encoded) : Logic9::x],
    the checked decoding used by every reader of the four planes. *)
Definition logic9_of_code (c : Z) : Logic9 :=
  if c =? 0 then Logic9_u else if c =? 1 then Logic9_x
  else if c =? 2 then Logic9_zero else if c =? 3 then Logic9_one
  else if c =? 4 then Logic9_z else if c =? 5 then Logic9_w
  else if c =? 6 then Logic9_l else if c =? 7 then Logic9_h
  else if c =? 8 then Logic9_dont_care else Logic9_x.

(** ** Characters *)

Definition to_char4 (v : Logic4) : ascii :=
  match v with
  | Logic4_zero => "0" | Logic4_one => "1" | Logic4_x => "X" | Logic4_z => "Z"
  end%char.

Definition to_char9 (v : Logic9) : ascii :=
  nth (Z.to_nat (logic9_code v))
    ["U"; "X"; "0"; "1"; "Z"; "W"; "L"; "H"; "-"]%char "X"%char.

Definition parse_logic4 (c : ascii) : option Logic4 :=
  match c with
  | "0" => Some Logic4_zero
  | "1" => Some Logic4_one
  | "x" | "X" => Some Logic4_x
  | "z" | "Z" => Some Logic4_z
  | _ => None
  end%char.

Definition parse_logic9 (c : ascii) : option Logic9 :=
  match c with
  | "u" | "U" => Some Logic9_u
  | "x" | "X" => Some Logic9_x
  | "0" => Some Logic9_zero
  | "1" => Some Logic9_one
  | "z" | "Z" => Some Logic9_z
  | "w" | "W" => Some Logic9_w
  | "l" | "L" => Some Logic9_l
  | "h" | "H" => Some Logic9_h
  | "-" => Some Logic9_dont_care
  | _ => None
  end%char.

(** ** Conversions at a language boundary *)

Definition to_logic4 (v : Logic9) : Logic4 :=
  match v with
  | Logic9_zero | Logic9_l => Logic4_zero
  | Logic9_one | Logic9_h => Logic4_one
  | Logic9_z => Logic4_z
  | Logic9_u | Logic9_x | Logic9_w | Logic9_dont_care => Logic4_x
  end.

Definition to_logic9 (v : Logic4) : Logic9 :=
  match v with
  | Logic4_zero => Logic9_zero
  | Logic4_one => Logic9_one
  | Logic4_x => Logic9_x
  | Logic4_z => Logic9_z
  end.

(** ** Logical operators *)

Definition logic_not4 (v : Logic4) : Logic4 :=
  match v with
  | Logic4_zero => Logic4_one
  | Logic4_one => Logic4_zero
  | Logic4_x | Logic4_z => Logic4_x
  end.

Definition logic_and4 (lhs rhs : Logic4) : Logic4 :=
  if logic4_eqb lhs Logic4_zero || logic4_eqb rhs Logic4_zero then Logic4_zero
  else if logic4_eqb lhs Logic4_one && logic4_eqb rhs Logic4_one then Logic4_one
  else Logic4_x.

Definition logic_or4 (lhs rhs : Logic4) : Logic4 :=
  if logic4_eqb lhs Logic4_one || logic4_eqb rhs Logic4_one then Logic4_one
  else if logic4_eqb lhs Logic4_zero && logic4_eqb rhs Logic4_zero then Logic4_zero
  else Logic4_x.

Definition logic_xor4 (lhs rhs : Logic4) : Logic4 :=
  let lhs_known := logic4_eqb lhs Logic4_zero || logic4_eqb lhs Logic4_one in
  let rhs_known := logic4_eqb rhs Logic4_zero || logic4_eqb rhs Logic4_one in
  if negb lhs_known || negb rhs_known then Logic4_x
  else if logic4_eqb lhs rhs then Logic4_zero else Logic4_one.

(** [table[left][right]] of a nine-by-nine table written row by row. *)
Definition table9 (table : list (list Logic9)) (lhs rhs : Logic9) : Logic9 :=
  nth (Z.to_nat (logic9_code rhs))
    (nth (Z.to_nat (logic9_code lhs)) table []) Logic9_x.

Section tables.
#[local] Abbreviation U := Logic9_u.
#[local] Abbreviation X := Logic9_x.
#[local] Notation "'O" := Logic9_zero (at level 0).
#[local] Abbreviation I := Logic9_one.
#[local] Abbreviation Z' := Logic9_z.
#[local] Abbreviation W := Logic9_w.
#[local] Abbreviation L := Logic9_l.
#[local] Abbreviation H := Logic9_h.

Definition logic_not9 (v : Logic9) : Logic9 :=
  nth (Z.to_nat (logic9_code v)) [U; X; I; 'O; X; X; I; 'O; X] Logic9_x.

Definition logic_and9 : Logic9 -> Logic9 -> Logic9 := table9
  [ [U;  U;  'O; U;  U;  U;  'O; U;  U];
    [U;  X;  'O; X;  X;  X;  'O; X;  X];
    ['O; 'O; 'O; 'O; 'O; 'O; 'O; 'O; 'O];
    [U;  X;  'O; I;  X;  X;  'O; I;  X];
    [U;  X;  'O; X;  X;  X;  'O; X;  X];
    [U;  X;  'O; X;  X;  X;  'O; X;  X];
    ['O; 'O; 'O; 'O; 'O; 'O; 'O; 'O; 'O];
    [U;  X;  'O; I;  X;  X;  'O; I;  X];
    [U;  X;  'O; X;  X;  X;  'O; X;  X] ].

Definition logic_or9 : Logic9 -> Logic9 -> Logic9 := table9
  [ [U; U; U;  I; U; U; U;  I; U];
    [U; X; X;  I; X; X; X;  I; X];
    [U; X; 'O; I; X; X; 'O; I; X];
    [I; I; I;  I; I; I; I;  I; I];
    [U; X; X;  I; X; X; X;  I; X];
    [U; X; X;  I; X; X; X;  I; X];
    [U; X; 'O; I; X; X; 'O; I; X];
    [I; I; I;  I; I; I; I;  I; I];
    [U; X; X;  I; X; X; X;  I; X] ].

Definition logic_xor9 : Logic9 -> Logic9 -> Logic9 := table9
  [ [U; U; U;  U;  U; U; U;  U;  U];
    [U; X; X;  X;  X; X; X;  X;  X];
    [U; X; 'O; I;  X; X; 'O; I;  X];
    [U; X; I;  'O; X; X; I;  'O; X];
    [U; X; X;  X;  X; X; X;  X;  X];
    [U; X; X;  X;  X; X; X;  X;  X];
    [U; X; 'O; I;  X; X; 'O; I;  X];
    [U; X; I;  'O; X; X; I;  'O; X];
    [U; X; X;  X;  X; X; X;  X;  X] ].

(** ** Driver resolution *)

Definition resolve4 (lhs rhs : Logic4) : Logic4 :=
  if logic4_eqb lhs Logic4_z then rhs
  else if logic4_eqb rhs Logic4_z then lhs
  else if logic4_eqb lhs rhs then lhs
  else Logic4_x.

Definition resolve9 : Logic9 -> Logic9 -> Logic9 := table9
  [ [U; U; U;  U; U;  U;  U;  U;  U];
    [U; X; X;  X; X;  X;  X;  X;  X];
    [U; X; 'O; X; 'O; 'O; 'O; 'O; X];
    [U; X; X;  I; I;  I;  I;  I;  X];
    [U; X; 'O; I; Z'; W;  L;  H;  X];
    [U; X; 'O; I; W;  W;  W;  W;  X];
    [U; X; 'O; I; L;  W;  L;  W;  X];
    [U; X; 'O; I; H;  W;  W;  H;  X];
    [U; X; X;  X; X;  X;  X;  X;  X] ].
End tables.

Definition resolve4_span (drivers : list Logic4) : Logic4 :=
  foldl resolve4 Logic4_z drivers.

Definition resolve9_span (drivers : list Logic9) : Logic9 :=
  match drivers with
  | [d] => d
  | _ => foldl resolve9 Logic9_z drivers
  end.

(** What a resolution function promises: it is commutative and associative,
    so the value of a net does not depend on the order of its drivers. *)
Class Resolution {A : Type} (combine : A -> A -> A) : Prop := {
  combine_comm : forall a b, combine a b = combine b a;
  combine_assoc : forall a b c, combine a (combine b c) = combine (combine a b) c;
}.

(** * Theorems *)

Lemma logic4_eqb_eq a b : logic4_eqb a b = true <-> a = b.
Proof. unfold logic4_eqb. by rewrite bool_decide_eq_true. Qed.

Lemma logic9_eqb_eq a b : logic9_eqb a b = true <-> a = b.
Proof. unfold logic9_eqb. by rewrite bool_decide_eq_true. Qed.

Lemma logic9_of_code_code v : logic9_of_code (logic9_code v) = v.
Proof. by destruct v. Qed.

Lemma logic9_code_bound v : 0 <= logic9_code v <= 8.
Proof. destruct v; simpl; lia. Qed.

Lemma parse_to_char4 v : parse_logic4 (to_char4 v) = Some v.
Proof. by destruct v. Qed.

Lemma parse_to_char9 v : parse_logic9 (to_char9 v) = Some v.
Proof. by destruct v. Qed.

Lemma to_logic4_to_logic9 v : to_logic4 (to_logic9 v) = v.
Proof. by destruct v. Qed.

Lemma to_logic9_inj a b : to_logic9 a = to_logic9 b -> a = b.
Proof. by destruct a, b. Qed.

#[global] Instance resolution4 : Resolution resolve4.
Proof. split; [by intros [] [] | by intros [] [] []]. Qed.

#[global] Instance resolution9 : Resolution resolve9.
Proof. split; [by intros [] [] | by intros [] [] []]. Qed.

Section resolution.
Context {A : Type} {combine : A -> A -> A} `{!Resolution combine}.

Lemma fold_combine_shift init a l :
  foldl combine (combine init a) l = combine (foldl combine init l) a.
Proof.
  revert init. induction l as [|b l IH]; intros init; simpl; [done|].
  rewrite <- IH. f_equal.
  by rewrite <- !(combine_assoc (combine:=combine)), (combine_comm (combine:=combine) a b).
Qed.

(** Reordering the drivers of a net does not change the folded value. *)
Lemma fold_combine_permutation init l1 l2 :
  l1 ≡ₚ l2 -> foldl combine init l1 = foldl combine init l2.
Proof.
  intros Hp. revert init.
  induction Hp as [|a l1 l2 _ IH|a b l|l1 l2 l3 _ IH1 _ IH2]; intros init; simpl; auto.
  - by rewrite <- !(combine_assoc (combine:=combine)), (combine_comm (combine:=combine) b a).
  - by rewrite IH1.
Qed.
End resolution.

(** The nine-state tables agree with the four-state operators when both
    operands are driven to 0, 1, X or Z (the values a Logic4 can promote to). *)
Lemma logic_and9_to_logic9 a b :
  to_logic4 (logic_and9 (to_logic9 a) (to_logic9 b)) = logic_and4 a b.
Proof. by destruct a, b. Qed.

Lemma resolve9_to_logic9 a b :
  resolve9 (to_logic9 a) (to_logic9 b) = to_logic9 (resolve4 a b).
Proof. by destruct a, b. Qed.

Lemma resolve4_span_to_logic9 l :
  foldl resolve9 Logic9_z (to_logic9 <$> l) = to_logic9 (resolve4_span l).
Proof.
  unfold resolve4_span. change Logic9_z with (to_logic9 Logic4_z).
  generalize Logic4_z. induction l as [|a l IH]; intros init; simpl; [done|].
  by rewrite resolve9_to_logic9, IH.
Qed.
