(* ===== verification/WordSpan.v ===== *)
(** * Word spans

    Model of the word-span helpers in the anonymous namespace of
    src/runtime/packed_value.cpp: a bit plane is a little-endian sequence of
    64-bit words, bit [i] living in word [i / 64] at position [i % 64].  Each
    helper is translated word by word; the theorems describe it bit by bit,
    which is the view every packed class is verified against. *)
From S2P Require Import Prelude.

(** Let [lia] reason about [/ 64] and [mod 64]. *)
Ltac Zify.zify_post_hook ::= Z.div_mod_to_equations.

Definition bits_per_word : Z := 64.

Definition word_count (width : Z) : Outcome Z :=
  if width >? SIZE_MAX - (bits_per_word - 1)
  then Throw (length_error "packed value width is too large")
  else Ok ((width + bits_per_word - 1) / bits_per_word).

Definition checked_packed_width (width : Z) : Outcome Z :=
  let maximum_width := SIZE_MAX / 4 in
  if width >? maximum_width
  then Throw (length_error "packed value width is too large")
  else Ok width.

Definition check_index (index width : Z) : Outcome unit :=
  if index >=? width
  then Throw (out_of_range "packed value bit index is out of range")
  else Ok tt.

Definition final_word_mask (width : Z) : Z :=
  let remainder := width mod bits_per_word in
  if remainder =? 0 then not64 0 else sub64 (shl64 1 remainder) 1.

Definition mask_last (words : list Z) (width : Z) : list Z :=
  if size words =? 0 then words
  else set_word words (size words - 1)
         (Z.land (word_at words (size words - 1)) (final_word_mask width)).

Definition read_bit (words : list Z) (index : Z) : bool :=
  negb (Z.land (Z.shiftr (word_at words (index / bits_per_word))
                 (index mod bits_per_word)) 1 =? 0).

Definition write_bit (words : list Z) (index : Z) (value : bool) : list Z :=
  let mask := shl64 1 (index mod bits_per_word) in
  let k := index / bits_per_word in
  if value
  then set_word words k (Z.lor (word_at words k) mask)
  else set_word words k (Z.land (word_at words k) (not64 mask)).

Definition copy_bit_range (destination source : list Z)
    (destination_offset width : Z) : list Z :=
  let range_end := destination_offset + width in
  let first_word := destination_offset / bits_per_word in
  let last_word := (range_end - 1) / bits_per_word in
  foreach_pure (up first_word (last_word + 1)) (fun word destination =>
    let destination_begin := word * bits_per_word in
    let copied_begin := Z.max destination_begin destination_offset in
    let copied_end := Z.min (destination_begin + bits_per_word) range_end in
    let copied_width := copied_end - copied_begin in
    let source_begin := copied_begin - destination_offset in
    let source_word := source_begin / bits_per_word in
    let source_shift := source_begin mod bits_per_word in
    let bits := Z.shiftr (word_at source source_word) source_shift in
    let bits :=
      if negb (source_shift =? 0) && (source_word + 1 <? size source)
      then Z.lor bits (shl64 (word_at source (source_word + 1))
                         (bits_per_word - source_shift))
      else bits in
    let copied_mask :=
      if copied_width =? bits_per_word then not64 0
      else sub64 (shl64 1 copied_width) 1 in
    let destination_shift := copied_begin - destination_begin in
    let destination_mask := shl64 copied_mask destination_shift in
    set_word destination word
      (Z.lor (Z.land (word_at destination word) (not64 destination_mask))
         (shl64 (Z.land bits copied_mask) destination_shift)))
    destination.

Definition extract_bit_range (source : list Z) (source_offset : Z)
    (destination : list Z) : list Z :=
  let source_word := source_offset / bits_per_word in
  let source_shift := source_offset mod bits_per_word in
  foreach_pure (up 0 (size destination)) (fun word destination =>
    let index := source_word + word in
    let bits := Z.shiftr (word_at source index) source_shift in
    let bits :=
      if negb (source_shift =? 0) && (index + 1 <? size source)
      then Z.lor bits (shl64 (word_at source (index + 1)) (bits_per_word - source_shift))
      else bits in
    set_word destination word bits)
    destination.

Definition copy_word_range (destination : list Z) (source : Z)
    (destination_offset width : Z) : list Z :=
  let source_mask := final_word_mask width in
  let source := Z.land source source_mask in
  let first_word := destination_offset / bits_per_word in
  let shift := destination_offset mod bits_per_word in
  if shift =? 0 then
    set_word destination first_word
      (Z.lor (Z.land (word_at destination first_word) (not64 source_mask)) source)
  else
    let first_width := Z.min width (bits_per_word - shift) in
    let first_mask := shl64 (final_word_mask first_width) shift in
    let destination :=
      set_word destination first_word
        (Z.lor (Z.land (word_at destination first_word) (not64 first_mask))
           (Z.land (shl64 source shift) first_mask)) in
    if first_width =? width then destination
    else
      let second_width := width - first_width in
      let second_mask := final_word_mask second_width in
      set_word destination (first_word + 1)
        (Z.lor (Z.land (word_at destination (first_word + 1)) (not64 second_mask))
           (Z.land (Z.shiftr source first_width) second_mask)).

Definition read_word_range (source : list Z) (source_offset width : Z) : Z :=
  let first_word := source_offset / bits_per_word in
  let shift := source_offset mod bits_per_word in
  let result := Z.shiftr (word_at source first_word) shift in
  let result :=
    if negb (shift =? 0) && (shift + width >? bits_per_word)
    then Z.lor result (shl64 (word_at source (first_word + 1)) (bits_per_word - shift))
    else result in
  Z.land result (final_word_mask width).

(** * Specification vocabulary *)

(** The number of words of a plane, when [word_count] returns. *)
Definition words_for (width : Z) : Z := (width + 63) / 64.

(** A span of [n] machine words. *)
Record span_ok (n : Z) (ws : list Z) : Prop := {
  span_size : size ws = n;
  span_u64 : Forall is_u64 ws;
}.

(** A plane of [w] bits: the right number of words, and nothing above [w]. *)
Record plane_ok (w : Z) (ws : list Z) : Prop := {
  plane_span : span_ok (words_for w) ws;
  plane_clear : forall i, w <= i -> read_bit ws i = false;
}.

(** * Theorems *)

Lemma word_count_ok w : 0 <= w <= SIZE_MAX - 63 -> word_count w = Ok (words_for w).
Proof.
  intros. unfold word_count, bits_per_word, words_for. rewrite Z.gtb_ltb.
  destruct (Z.ltb_spec (SIZE_MAX - (64 - 1)) w); [lia|]. do 2 f_equal. lia.
Qed.

Lemma check_index_ok i w : i < w -> check_index i w = Ok tt.
Proof.
  intros. unfold check_index. rewrite Z.geb_leb.
  by destruct (Z.leb_spec w i); [lia|].
Qed.

Lemma testbit_pred_shl k i :
  0 <= k < 64 -> 0 <= i -> Z.testbit (sub64 (shl64 1 k) 1) i = (i <? k).
Proof.
  intros Hk Hi. assert (shl64 1 k = 2 ^ k) as ->.
  { apply Z.bits_inj'. intros j Hj. rewrite testbit_shl_one, testbit_pow2 by lia.
    cases_ltb; simpl; lia. }
  unfold sub64, wrap64. rewrite Z.mod_small.
  - by apply testbit_pow2m1; lia.
  - assert (0 < 2 ^ k) by (apply Z.pow_pos_nonneg; lia).
    assert (2 ^ k < 2 ^ 64) by (apply Z.pow_lt_mono_r; lia). lia.
Qed.

Lemma testbit_final_word_mask w i :
  0 <= i -> Z.testbit (final_word_mask w) i =
    (i <? 64) && ((w mod 64 =? 0) || (i <? w mod 64)).
Proof.
  intros. unfold final_word_mask, bits_per_word.
  pose proof (Z.mod_pos_bound w 64 ltac:(lia)).
  destruct (Z.eqb_spec (w mod 64) 0).
  - by rewrite testbit_not64, Z.bits_0 by lia.
  - rewrite testbit_pred_shl by lia. simpl. cases_ltb; simpl; lia.
Qed.

Lemma testbit_final_word_mask_narrow w i :
  0 < w <= 64 -> 0 <= i -> Z.testbit (final_word_mask w) i = (i <? w).
Proof.
  intros. rewrite testbit_final_word_mask by lia.
  destruct (Z.eq_dec w 64) as [->|].
  - by rewrite andb_true_r.
  - rewrite (Z.mod_small w 64) by lia. cases_ltb; simpl; lia.
Qed.

Lemma is_u64_final_word_mask w : is_u64 (final_word_mask w).
Proof.
  apply u64_of_testbit. intros. rewrite testbit_final_word_mask by lia.
  destruct (Z.ltb_spec i 64); [lia|done].
Qed.

Lemma read_bit_testbit ws i :
  0 <= i -> read_bit ws i = Z.testbit (word_at ws (i / 64)) (i mod 64).
Proof.
  intros. unfold read_bit, bits_per_word.
  pose proof (Z.mod_pos_bound i 64 ltac:(lia)).
  generalize (word_at ws (i / 64)) as x. intros x.
  change 1 with (Z.ones 1). rewrite Z.land_ones by lia. change (2 ^ 1) with 2.
  rewrite <- Z.bit0_mod, Z.shiftr_spec, Z.add_0_l by lia.
  by destruct (Z.testbit x (i mod 64)).
Qed.

Lemma read_bit_split ws k j :
  0 <= k -> 0 <= j < 64 -> read_bit ws (k * 64 + j) = Z.testbit (word_at ws k) j.
Proof.
  intros. rewrite read_bit_testbit by lia.
  by replace ((k * 64 + j) / 64) with k by lia; replace ((k * 64 + j) mod 64) with j by lia.
Qed.

Lemma read_bit_high ws i : 64 * size ws <= i -> read_bit ws i = false.
Proof.
  intros. pose proof (size_nonneg ws). rewrite read_bit_testbit by lia.
  rewrite word_at_high by lia. apply Z.bits_0.
Qed.

(** Spans of words are determined by their bits. *)
Lemma span_ext n ws1 ws2 :
  span_ok n ws1 -> span_ok n ws2 ->
  (forall i, 0 <= i < 64 * n -> read_bit ws1 i = read_bit ws2 i) -> ws1 = ws2.
Proof.
  intros [Hs1 Hu1] [Hs2 Hu2] H. apply word_at_ext; [congruence|].
  intros k Hk. apply Z.bits_inj'. intros j Hj. destruct (Z.ltb_spec j 64).
  - specialize (H (k * 64 + j)). rewrite !read_bit_split in H by lia. apply H. lia.
  - rewrite !testbit_u64_high; auto with fsim.
Qed.

Lemma plane_ext w ws1 ws2 :
  plane_ok w ws1 -> plane_ok w ws2 ->
  (forall i, 0 <= i < w -> read_bit ws1 i = read_bit ws2 i) -> ws1 = ws2.
Proof.
  intros [Hs1 Hc1] [Hs2 Hc2] H. eapply span_ext; [done|done|].
  intros i Hi. destruct (Z.ltb_spec i w); [by apply H; lia|].
  by rewrite Hc1, Hc2 by lia.
Qed.

Lemma words_for_bounds w : 0 <= w -> w <= 64 * words_for w /\ 64 * words_for w < w + 64.
Proof. intros. unfold words_for. lia. Qed.

Lemma words_for_index w i : 0 <= i < w -> 0 <= i / 64 < words_for w.
Proof. intros. unfold words_for. lia. Qed.

Lemma words_for_nonneg w : 0 <= w -> 0 <= words_for w.
Proof. intros. unfold words_for. lia. Qed.

(** [set_word] at the level of bits. *)
Lemma read_bit_set_word ws k v i :
  0 <= k < size ws -> 0 <= i ->
  read_bit (set_word ws k v) i =
    if i / 64 =? k then Z.testbit v (i mod 64) else read_bit ws i.
Proof.
  intros. rewrite !read_bit_testbit by lia. rewrite word_at_set by lia.
  by destruct (i / 64 =? k).
Qed.

Lemma span_set_word n ws k v : span_ok n ws -> is_u64 v -> span_ok n (set_word ws k v).
Proof.
  intros [Hs Hu] Hv. split; [by rewrite size_set_word|]. by apply set_word_u64.
Qed.

Lemma span_write_bit n ws i b : span_ok n ws -> span_ok n (write_bit ws i b).
Proof.
  intros H. unfold write_bit. destruct H as [Hs Hu].
  destruct b; apply span_set_word; try (by split); auto with fsim.
Qed.

Lemma read_write_bit ws k b i :
  0 <= k < 64 * size ws -> 0 <= i ->
  read_bit (write_bit ws k b) i = if i =? k then b else read_bit ws i.
Proof.
  intros. unfold write_bit, bits_per_word.
  pose proof (Z.mod_pos_bound i 64 ltac:(lia)).
  pose proof (Z.mod_pos_bound k 64 ltac:(lia)).
  destruct b; rewrite read_bit_set_word by lia; rewrite (read_bit_testbit ws i) by lia;
    (destruct (Z.eqb_spec (i / 64) (k / 64)) as [Heq|];
     [rewrite Heq | by destruct (Z.eqb_spec i k) as [->|]; [lia|]]);
    rewrite ?Z.lor_spec, ?Z.land_spec, ?testbit_not64, testbit_shl_one by lia;
    (destruct (Z.eqb_spec i k) as [->|];
     [rewrite Z.eqb_refl | rewrite (proj2 (Z.eqb_neq (i mod 64) (k mod 64))) by lia]);
    rewrite (proj2 (Z.ltb_lt _ 64)) by lia; destruct_testbits; done.
Qed.

Lemma span_mask_last n ws w : span_ok n ws -> span_ok n (mask_last ws w).
Proof.
  intros H. unfold mask_last. destruct (size ws =? 0); [done|].
  destruct H as [Hs Hu]. apply span_set_word; [by split|]. auto with fsim.
Qed.

Lemma read_mask_last ws w i :
  size ws = words_for w -> 0 <= w -> 0 <= i ->
  read_bit (mask_last ws w) i = (i <? w) && read_bit ws i.
Proof.
  intros Hs Hw Hi. pose proof (words_for_bounds w Hw). unfold mask_last.
  pose proof (Z.mod_pos_bound i 64 ltac:(lia)).
  destruct (Z.eqb_spec (size ws) 0).
  { rewrite read_bit_high by lia. by rewrite andb_false_r. }
  rewrite read_bit_set_word by lia. rewrite (read_bit_testbit ws i) by lia.
  destruct (Z.eqb_spec (i / 64) (size ws - 1)) as [E|].
  - rewrite E, Z.land_spec, testbit_final_word_mask by lia.
    rewrite andb_comm. f_equal. unfold words_for in *. cases_ltb; simpl; lia.
  - destruct (Z.ltb_spec i w); [done|].
    rewrite word_at_high by lia. by rewrite Z.bits_0.
Qed.

Lemma plane_mask_last w ws :
  0 <= w -> span_ok (words_for w) ws -> plane_ok w (mask_last ws w).
Proof.
  intros Hw H. split; [by apply span_mask_last|].
  intros i Hi. rewrite read_mask_last by (apply H || lia).
  by rewrite (proj2 (Z.ltb_ge i w)) by lia.
Qed.

Lemma plane_write_bit w ws k b :
  0 <= k < w -> plane_ok w ws -> plane_ok w (write_bit ws k b).
Proof.
  intros Hk [Hs Hc]. split; [by apply span_write_bit|].
  intros i Hi. pose proof (words_for_bounds w ltac:(lia)).
  rewrite read_write_bit by (rewrite ?(span_size _ _ Hs); lia).
  rewrite (proj2 (Z.eqb_neq i k)) by lia. by apply Hc.
Qed.

Lemma span_replicate n v : 0 <= n -> is_u64 v -> span_ok n (replicate (Z.to_nat n) v).
Proof.
  intros. split.
  - unfold size. rewrite length_replicate. lia.
  - by apply Forall_replicate.
Qed.

Lemma read_replicate n (b : bool) i :
  0 <= i < 64 * n ->
  read_bit (replicate (Z.to_nat n) (if b then not64 0 else 0)) i = b.
Proof.
  intros. rewrite read_bit_testbit, word_at_replicate by lia.
  rewrite (proj2 (Z.ltb_lt _ _)) by lia. destruct b; [|apply Z.bits_0].
  pose proof (Z.mod_pos_bound i 64 ltac:(lia)).
  rewrite testbit_not64, Z.bits_0 by lia. rewrite (proj2 (Z.ltb_lt _ _)) by lia. done.
Qed.

(** The unaligned 64-bit read shared by the range helpers: the word holding
    [offset] shifted down, completed from the next word unless [skip] says the
    latter holds no bit of interest. *)
Lemma testbit_unaligned ws offset (use_next : bool) t :
  Forall is_u64 ws -> 0 <= offset -> 0 <= t < 64 ->
  (use_next = false -> offset mod 64 + t < 64 \/ size ws <= offset / 64 + 1) ->
  (use_next = true -> offset mod 64 <> 0) ->
  Z.testbit
    (let bits := Z.shiftr (word_at ws (offset / 64)) (offset mod 64) in
     if use_next then Z.lor bits (shl64 (word_at ws (offset / 64 + 1)) (64 - offset mod 64))
     else bits) t = read_bit ws (offset + t).
Proof.
  intros Hu Ho Ht Hno Hyes. cbv zeta.
  rewrite (read_bit_testbit ws (offset + t)) by lia.
  assert (Z.testbit (Z.shiftr (word_at ws (offset / 64)) (offset mod 64)) t
          = (offset mod 64 + t <? 64) && Z.testbit (word_at ws (offset / 64)) (offset mod 64 + t))
    as Hlow.
  { rewrite testbit_shiftr by lia. rewrite Z.add_comm.
    destruct (Z.ltb_spec (offset mod 64 + t) 64); [done|].
    apply testbit_u64_high; [auto with fsim|lia]. }
  destruct (Z.ltb_spec (offset mod 64 + t) 64).
  - replace ((offset + t) / 64) with (offset / 64) by lia.
    replace ((offset + t) mod 64) with (offset mod 64 + t) by lia.
    destruct use_next; [|done].
    rewrite Z.lor_spec, Hlow, testbit_shl64 by lia.
    rewrite (Z.testbit_neg_r _ (t - _)) by lia. by rewrite andb_false_r, orb_false_r.
  - replace ((offset + t) / 64) with (offset / 64 + 1) by lia.
    replace ((offset + t) mod 64) with (t - (64 - offset mod 64)) by lia.
    destruct use_next.
    + rewrite Z.lor_spec, Hlow, testbit_shl64 by lia.
      by rewrite (proj2 (Z.ltb_lt t 64)) by lia.
    + destruct (Hno eq_refl); [lia|].
      rewrite Hlow, (word_at_high _ (offset / 64 + 1)) by lia. by rewrite Z.bits_0.
Qed.

Lemma is_u64_unaligned ws k s (b : bool) y :
  0 <= s -> Forall is_u64 ws -> 
  is_u64 (let bits := Z.shiftr (word_at ws k) s in
          if b then Z.lor bits (shl64 y (64 - s)) else bits).
Proof.
  intros. cbv zeta.
  destruct b; [apply is_u64_lor|]; auto using is_u64_shiftr with fsim.
Qed.

(** One word of [copy_bit_range]. *)
Lemma read_copy_bit_word dst src off w word i :
  let begin_ := Z.max (word * 64) off in
  let width_ := Z.min (word * 64 + 64) (off + w) - begin_ in
  let sb := begin_ - off in
  let bits := Z.shiftr (word_at src (sb / 64)) (sb mod 64) in
  let bits := if negb (sb mod 64 =? 0) && (sb / 64 + 1 <? size src)
              then Z.lor bits (shl64 (word_at src (sb / 64 + 1)) (64 - sb mod 64))
              else bits in
  let cm := if width_ =? 64 then not64 0 else sub64 (shl64 1 width_) 1 in
  let ds := begin_ - word * 64 in
  Forall is_u64 src -> 0 <= off -> 0 < w -> off / 64 <= word <= (off + w - 1) / 64 ->
  i / 64 = word ->
  Z.testbit (Z.lor (Z.land (word_at dst word) (not64 (shl64 cm ds)))
               (shl64 (Z.land bits cm) ds)) (i mod 64) =
  if (off <=? i) && (i <? off + w) then read_bit src (i - off)
  else Z.testbit (word_at dst word) (i mod 64).
Proof.
  intros begin_ width_ sb bits0 bits cm ds Hu Ho Hw Hword Hi.
  pose proof (Z.mod_pos_bound i 64 ltac:(lia)).
  assert (forall t, 0 <= t -> Z.testbit cm t = (t <? width_)) as Hcm.
  { intros t Ht. unfold cm. destruct (Z.eqb_spec width_ 64) as [->|].
    - rewrite testbit_not64, Z.bits_0 by lia. by rewrite andb_true_r.
    - apply testbit_pred_shl; lia. }
  autorewrite with fsim_bits. rewrite (proj2 (Z.ltb_lt (i mod 64) 64)) by lia. cbn [andb].
  destruct (Z.ltb_spec (i mod 64) ds).
  { rewrite !(Z.testbit_neg_r _ (i mod 64 - ds)) by lia.
    rewrite (proj2 (Z.leb_gt off i)) by lia. cbn.
    by rewrite andb_true_r, orb_false_r. }
  rewrite Hcm by lia.
  replace ((off <=? i) && (i <? off + w)) with (i mod 64 - ds <? width_)
    by (cases_ltb; simpl; lia).
  destruct (Z.ltb_spec (i mod 64 - ds) width_); cbn.
  - rewrite andb_false_r, andb_true_r. cbn. unfold bits, bits0.
    rewrite (testbit_unaligned src sb); [f_equal; lia|done|lia|lia| |].
    + intros Hb. apply andb_false_iff in Hb as [Hb|Hb]; [left|right].
      * apply negb_false_iff, Z.eqb_eq in Hb. lia.
      * apply Z.ltb_ge in Hb. lia.
    + intros Hb. apply andb_true_iff in Hb as [Hb _].
      by apply negb_true_iff, Z.eqb_neq in Hb.
  - by rewrite andb_true_r, andb_false_r, orb_false_r.
Qed.

(** [copy_bit_range] overwrites exactly the addressed range. *)
Lemma copy_bit_range_spec n dst src off w :
  span_ok n dst -> Forall is_u64 src ->
  0 <= off -> 0 < w -> off + w <= 64 * n ->
  span_ok n (copy_bit_range dst src off w) /\
  forall i, 0 <= i ->
    read_bit (copy_bit_range dst src off w) i =
      if (off <=? i) && (i <? off + w) then read_bit src (i - off) else read_bit dst i.
Proof.
  intros Hd Hu Ho Hw Hn. unfold copy_bit_range, bits_per_word.
  match goal with |- context [foreach_pure _ ?b _] => set (body := b) end.
  cut (span_ok n (foreach_pure (up (off / 64) ((off + w - 1) / 64 + 1)) body dst) /\
       forall i, 0 <= i ->
         read_bit (foreach_pure (up (off / 64) ((off + w - 1) / 64 + 1)) body dst) i =
         if (off <=? i) && (i <? off + w) && (i / 64 <? (off + w - 1) / 64 + 1)
         then read_bit src (i - off) else read_bit dst i).
  { intros [Hs Hr]. split; [done|]. intros i Hi. rewrite Hr by done.
    replace ((off <=? i) && (i <? off + w) && (i / 64 <? (off + w - 1) / 64 + 1))
      with ((off <=? i) && (i <? off + w)); [done|]. cases_ltb; simpl; lia. }
  apply (foreach_pure_up (fun word d => span_ok n d /\ forall i, 0 <= i ->
         read_bit d i = if (off <=? i) && (i <? off + w) && (i / 64 <? word)
                        then read_bit src (i - off) else read_bit dst i)); [|lia|].
  - intros word d Hword [Hs Hr]. split.
    { apply span_set_word; [done|]. auto with fsim. }
    intros i Hi. unfold body. rewrite read_bit_set_word by (rewrite ?(span_size _ _ Hs); lia).
    destruct (Z.eqb_spec (i / 64) word) as [Hw'|Hne].
    + rewrite read_copy_bit_word by (done || lia).
      rewrite <- Hw', <- (read_bit_testbit d i), Hr by lia.
      cases_ltb; simpl; done || lia.
    + rewrite Hr by lia.
      replace (i / 64 <? word + 1) with (i / 64 <? word) by (cases_ltb; lia). done.
  - split; [done|]. intros i Hi.
    destruct ((off <=? i) && (i <? off + w) && (i / 64 <? off / 64)) eqn:E; [|done]. lia.
Qed.

(** [extract_bit_range] reads [destination.size()] words starting at any bit. *)
Lemma extract_bit_range_spec n src off dst :
  span_ok n dst -> Forall is_u64 src -> 0 <= off ->
  span_ok n (extract_bit_range src off dst) /\
  forall i, 0 <= i < 64 * n -> read_bit (extract_bit_range src off dst) i = read_bit src (off + i).
Proof.
  intros Hd Hu Ho. unfold extract_bit_range, bits_per_word. rewrite (span_size _ _ Hd).
  pose proof (size_nonneg dst). pose proof (span_size _ _ Hd).
  match goal with |- context [foreach_pure _ ?b _] => set (body := b) end.
  cut (span_ok n (foreach_pure (up 0 n) body dst) /\ forall i, 0 <= i -> i / 64 < n ->
         read_bit (foreach_pure (up 0 n) body dst) i = read_bit src (off + i)).
  { intros [Hs Hr]. split; [done|]. intros i Hi. apply Hr; lia. }
  apply (foreach_pure_up (fun word d => span_ok n d /\ forall i, 0 <= i -> i / 64 < word ->
         read_bit d i = read_bit src (off + i))); [|lia|].
  - intros word d Hword [Hs Hr]. split.
    { apply span_set_word; [done|].
      apply (is_u64_unaligned src _ (off mod 64)); [lia|done]. }
    intros i Hi Hlt. unfold body. rewrite read_bit_set_word by (rewrite ?(span_size _ _ Hs); lia).
    destruct (Z.eqb_spec (i / 64) word) as [Hw'|Hne]; [|apply Hr; lia].
    pose proof (Z.mod_pos_bound i 64 ltac:(lia)).
    pose proof (testbit_unaligned src (off + word * 64)
      (negb (off mod 64 =? 0) && (off / 64 + word + 1 <? size src)) (i mod 64)) as Hb.
    replace ((off + word * 64) / 64) with (off / 64 + word) in Hb by lia.
    replace ((off + word * 64) mod 64) with (off mod 64) in Hb by lia.
    etransitivity; [apply Hb|f_equal; lia]; [done|lia|lia| |].
    + intros E. apply andb_false_iff in E as [E|E].
      * apply negb_false_iff, Z.eqb_eq in E. lia.
      * apply Z.ltb_ge in E. lia.
    + intros E. apply andb_true_iff in E as [E _]. by apply negb_true_iff, Z.eqb_neq in E.
  - split; [done|]. intros; lia.
Qed.

(** One word of [copy_word_range]: the bits a word receives when it starts
    inside the destination word. *)
Lemma read_first_word n dst x off w fw :
  span_ok n dst -> 0 <= off -> 0 < w <= 64 -> off + w <= 64 * n ->
  fw = Z.min w (64 - off mod 64) ->
  let mask := shl64 (final_word_mask fw) (off mod 64) in
  let d := set_word dst (off / 64)
    (Z.lor (Z.land (word_at dst (off / 64)) (not64 mask))
       (Z.land (shl64 (Z.land x (final_word_mask w)) (off mod 64)) mask)) in
  span_ok n d /\ forall i, 0 <= i -> read_bit d i =
    if (off <=? i) && (i <? off + fw) then Z.testbit x (i - off) else read_bit dst i.
Proof.
  intros Hd Ho Hw Hn Hf mask d. pose proof (span_size _ _ Hd) as Hsz. pose proof (span_u64 _ _ Hd) as Hu.
  split; [apply span_set_word; [done|]; unfold mask; auto with fsim|].
  intros i Hi. pose proof (Z.mod_pos_bound i 64 ltac:(lia)).
  unfold d, mask. rewrite read_bit_set_word, (read_bit_testbit dst) by lia.
  destruct (Z.eqb_spec (i / 64) (off / 64)) as [E2|E2].
  2:{ destruct ((off <=? i) && (i <? off + fw)) eqn:?; [lia|done]. }
  rewrite E2. autorewrite with fsim_bits.
  rewrite (proj2 (Z.ltb_lt (i mod 64) 64)) by lia.
  destruct (Z.ltb_spec (i mod 64) (off mod 64)).
  { rewrite !(Z.testbit_neg_r _ (i mod 64 - off mod 64)) by lia.
    rewrite (proj2 (Z.leb_gt off i)) by lia. simpl.
    by rewrite andb_true_r, orb_false_r. }
  rewrite !testbit_final_word_mask_narrow by lia.
  replace ((off <=? i) && (i <? off + fw)) with (i mod 64 - off mod 64 <? fw)
    by (cases_ltb; simpl; lia).
  replace (i - off) with (i mod 64 - off mod 64) by lia.
  destruct (Z.ltb_spec (i mod 64 - off mod 64) fw); simpl.
  - rewrite (proj2 (Z.ltb_lt _ w)) by lia. destruct_testbits; done.
  - rewrite !andb_false_r, !andb_true_r. by rewrite orb_false_r.
Qed.

Lemma read_aligned_word n dst x off w :
  span_ok n dst -> 0 <= off -> 0 < w <= 64 -> off + w <= 64 * n -> off mod 64 = 0 ->
  let mask := final_word_mask w in
  let d := set_word dst (off / 64)
    (Z.lor (Z.land (word_at dst (off / 64)) (not64 mask)) (Z.land x mask)) in
  span_ok n d /\ forall i, 0 <= i -> read_bit d i =
    if (off <=? i) && (i <? off + w) then Z.testbit x (i - off) else read_bit dst i.
Proof.
  intros Hd Ho Hw Hn E mask d. pose proof (span_size _ _ Hd) as Hsz. pose proof (span_u64 _ _ Hd) as Hu.
  split; [apply span_set_word; [done|]; unfold mask; auto using is_u64_final_word_mask with fsim|].
  intros i Hi. pose proof (Z.mod_pos_bound i 64 ltac:(lia)).
  unfold d, mask. rewrite read_bit_set_word, (read_bit_testbit dst) by lia.
  autorewrite with fsim_bits. rewrite testbit_final_word_mask_narrow by lia.
  rewrite (proj2 (Z.ltb_lt (i mod 64) 64)) by lia.
  destruct (Z.eqb_spec (i / 64) (off / 64)) as [E2|E2].
  - replace ((off <=? i) && (i <? off + w)) with (i mod 64 <? w) by (cases_ltb; simpl; lia).
    replace (i - off) with (i mod 64) by lia. rewrite E2.
    destruct (i mod 64 <? w); destruct_testbits; done.
  - destruct ((off <=? i) && (i <? off + w)) eqn:?; [lia|done].
Qed.

(** [copy_word_range] writes the low [w] bits of a word at any bit offset. *)
Lemma copy_word_range_spec n dst x off w :
  span_ok n dst -> 0 <= off -> 0 < w <= 64 -> off + w <= 64 * n ->
  span_ok n (copy_word_range dst x off w) /\
  forall i, 0 <= i ->
    read_bit (copy_word_range dst x off w) i =
      if (off <=? i) && (i <? off + w) then Z.testbit x (i - off) else read_bit dst i.
Proof.
  intros Hd Ho Hw Hn. unfold copy_word_range, bits_per_word.
  destruct (Z.eqb_spec (off mod 64) 0) as [E|E]; [by apply read_aligned_word|].
  set (fw := Z.min w (64 - off mod 64)).
  destruct (read_first_word n dst x off w fw Hd Ho Hw Hn eq_refl) as [Hd1 Hr1]. cbv zeta in Hd1, Hr1 |- *.
  set (d1 := set_word dst (off / 64) _) in *.
  destruct (Z.eqb_spec fw w) as [E3|E3].
  { split; [done|]. intros i Hi. rewrite Hr1 by lia. by rewrite E3. }
  split.
  { apply span_set_word; [done|]. pose proof (span_u64 _ _ Hd1).
    apply is_u64_lor; auto using is_u64_final_word_mask with fsim. }
  intros i Hi. pose proof (Z.mod_pos_bound i 64 ltac:(lia)).
  rewrite read_bit_set_word by (rewrite ?(span_size _ _ Hd1); lia).
  destruct (Z.eqb_spec (i / 64) (off / 64 + 1)) as [E2|E2].
  - rewrite <- E2. autorewrite with fsim_bits. rewrite <- read_bit_testbit, Hr1 by lia.
    rewrite (proj2 (Z.ltb_lt (i mod 64) 64)) by lia.
    rewrite !testbit_final_word_mask_narrow by lia.
    replace ((off <=? i) && (i <? off + fw)) with false by (cases_ltb; simpl; lia).
    replace ((off <=? i) && (i <? off + w)) with (i mod 64 <? w - fw) by (cases_ltb; simpl; lia).
    replace (i mod 64 + fw) with (i - off) by lia.
    destruct (Z.ltb_spec (i mod 64) (w - fw)); simpl.
    + rewrite (proj2 (Z.ltb_lt _ w)) by lia. by rewrite andb_false_r, !andb_true_r.
    + by rewrite andb_true_r, andb_false_r, orb_false_r.
  - rewrite Hr1 by lia.
    replace ((off <=? i) && (i <? off + fw)) with ((off <=? i) && (i <? off + w)); [done|].
    cases_ltb; simpl; lia.
Qed.

(** [read_word_range] reads up to 64 bits at any bit offset. *)
Lemma testbit_read_word_range src off w t :
  Forall is_u64 src -> 0 <= off -> 0 < w <= 64 -> 0 <= t ->
  Z.testbit (read_word_range src off w) t = (t <? w) && read_bit src (off + t).
Proof.
  intros Hu Ho Hw Ht. unfold read_word_range, bits_per_word.
  rewrite Z.land_spec, testbit_final_word_mask_narrow, andb_comm by lia.
  destruct (Z.ltb_spec t w); simpl; [|done].
  rewrite testbit_unaligned; [done|done|lia|lia| |].
  - intros E. left. apply andb_false_iff in E as [E|E]; lia.
  - intros E. lia.
Qed.
