(* ===== verification/LogicWord.v ===== *)
(** * Single-word logic values

    Model of the allocation-free single-word types of
    include/fsim/runtime/packed_value.hpp ([Logic4Word], [Logic9Word],
    [Logic4ResolutionAccumulator]) and of their operations in
    src/runtime/packed_value.cpp.  A [Logic4Word] holds up to 64 four-state
    bits as an aval and a bval word (0=00, 1=10, X=11, Z=01); a [Logic9Word]
    holds the ordinal codes of up to 64 nine-state values in four planes. *)
From S2P Require Import Prelude Logic WordSpan.

Record Logic4Word := mkLogic4Word {
  l4w_width : Z;
  l4w_aval : Z;
  l4w_bval : Z;
}.

Record Logic9Word := mkLogic9Word {
  l9w_width : Z;
  l9w_plane0 : Z;
  l9w_plane1 : Z;
  l9w_plane2 : Z;
  l9w_plane3 : Z;
}.

Definition normalize_invalid_codes_to_x (v : Logic9Word) : Logic9Word :=
  let invalid := Z.land (l9w_plane3 v)
                   (Z.lor (Z.lor (l9w_plane2 v) (l9w_plane1 v)) (l9w_plane0 v)) in
  {| l9w_width := l9w_width v;
     l9w_plane0 := Z.lor (l9w_plane0 v) invalid;
     l9w_plane1 := Z.land (l9w_plane1 v) (not64 invalid);
     l9w_plane2 := Z.land (l9w_plane2 v) (not64 invalid);
     l9w_plane3 := Z.land (l9w_plane3 v) (not64 invalid) |}.

Definition has_canonical_codes (v : Logic9Word) : bool :=
  Z.land (l9w_plane3 v)
    (Z.lor (Z.lor (l9w_plane2 v) (l9w_plane1 v)) (l9w_plane0 v)) =? 0.

(** ** Resolution accumulator *)

Record Logic4ResolutionAccumulator := mkAccumulator {
  acc_width : Z;
  acc_width_mask : Z;
  acc_zero_seen : Z;
  acc_one_seen : Z;
  acc_unknown_seen : Z;
}.

Definition accumulator (width : Z) : Outcome Logic4ResolutionAccumulator :=
  if (width =? 0) || (width >? bits_per_word)
  then Throw (invalid_argument "Logic4 word resolution width must be between 1 and 64")
  else Ok {| acc_width := width; acc_width_mask := final_word_mask width;
             acc_zero_seen := 0; acc_one_seen := 0; acc_unknown_seen := 0 |}.

Definition accumulator_add (acc : Logic4ResolutionAccumulator) (driver : Logic4Word)
    : Outcome Logic4ResolutionAccumulator :=
  if negb (l4w_width driver =? acc_width acc)
  then Throw (invalid_argument "Logic4 word resolution driver width mismatch")
  else
    let aval := Z.land (l4w_aval driver) (acc_width_mask acc) in
    let bval := Z.land (l4w_bval driver) (acc_width_mask acc) in
    let known := Z.land (not64 bval) (acc_width_mask acc) in
    Ok {| acc_width := acc_width acc; acc_width_mask := acc_width_mask acc;
          acc_zero_seen := Z.lor (acc_zero_seen acc) (Z.land (not64 aval) known);
          acc_one_seen := Z.lor (acc_one_seen acc) (Z.land aval known);
          acc_unknown_seen := Z.lor (acc_unknown_seen acc) (Z.land aval bval) |}.

Definition accumulator_result (acc : Logic4ResolutionAccumulator) : Logic4Word :=
  let driven := Z.lor (Z.lor (acc_zero_seen acc) (acc_one_seen acc)) (acc_unknown_seen acc) in
  {| l4w_width := acc_width acc;
     l4w_aval := Z.land (Z.lor (acc_one_seen acc) (acc_unknown_seen acc)) (acc_width_mask acc);
     l4w_bval :=
       Z.land (Z.lor (Z.lor (acc_unknown_seen acc)
                            (Z.land (acc_zero_seen acc) (acc_one_seen acc)))
                     (Z.land (not64 driven) (acc_width_mask acc)))
         (acc_width_mask acc) |}.

Definition apply_force_word (driven forced : Logic4Word) (mask : Z) : Outcome Logic4Word :=
  if (l4w_width driven =? 0) || (l4w_width driven >? bits_per_word)
     || negb (l4w_width forced =? l4w_width driven)
  then Throw (invalid_argument "Logic4 force words must have the same width between 1 and 64")
  else
    let width_mask := final_word_mask (l4w_width driven) in
    let force_mask := Z.land mask width_mask in
    Ok {| l4w_width := l4w_width driven;
          l4w_aval := Z.land (Z.lor (Z.land (l4w_aval driven) (not64 force_mask))
                                    (Z.land (l4w_aval forced) force_mask)) width_mask;
          l4w_bval := Z.land (Z.lor (Z.land (l4w_bval driven) (not64 force_mask))
                                    (Z.land (l4w_bval forced) force_mask)) width_mask |}.

(** * Specification vocabulary *)

(** The aval/bval encoding of one four-state bit, and its inverse. *)
Definition logic4_of_bits (a b : bool) : Logic4 :=
  if negb b then (if a then Logic4_one else Logic4_zero)
  else (if a then Logic4_x else Logic4_z).
Definition aval_bit (v : Logic4) : bool :=
  match v with Logic4_one | Logic4_x => true | _ => false end.
Definition bval_bit (v : Logic4) : bool :=
  match v with Logic4_z | Logic4_x => true | _ => false end.

(** The ordinal code of one nine-state value from its four plane bits. *)
Definition logic9_of_bits (p0 p1 p2 p3 : bool) : Logic9 :=
  logic9_of_code (Z.b2z p0 + 2 * Z.b2z p1 + 4 * Z.b2z p2 + 8 * Z.b2z p3).

Definition logic4_word_bit (v : Logic4Word) (i : Z) : Logic4 :=
  logic4_of_bits (Z.testbit (l4w_aval v) i) (Z.testbit (l4w_bval v) i).

Definition logic9_word_bit (v : Logic9Word) (i : Z) : Logic9 :=
  logic9_of_bits (Z.testbit (l9w_plane0 v) i) (Z.testbit (l9w_plane1 v) i)
    (Z.testbit (l9w_plane2 v) i) (Z.testbit (l9w_plane3 v) i).

(** The net value when drivers with the given values have been seen. *)
Definition seen4 (zero one unknown : bool) : Logic4 :=
  logic4_of_bits (one || unknown)
    (unknown || (zero && one) || negb (zero || one || unknown)).

(** * Theorems *)

Lemma logic4_of_bits_bits v : logic4_of_bits (aval_bit v) (bval_bit v) = v.
Proof. by destruct v. Qed.

Lemma logic4_of_bits_inj a b a' b' :
  logic4_of_bits a b = logic4_of_bits a' b' -> a = a' /\ b = b'.
Proof. by destruct a, b, a', b'. Qed.

Lemma logic9_of_bits_code v :
  logic9_of_bits (Z.testbit (logic9_code v) 0) (Z.testbit (logic9_code v) 1)
    (Z.testbit (logic9_code v) 2) (Z.testbit (logic9_code v) 3) = v.
Proof. by destruct v. Qed.

(** Normalization: codes 9..15 become X, valid codes are untouched. *)
Lemma normalize_word_bit v i :
  0 <= i < 64 ->
  logic9_word_bit (normalize_invalid_codes_to_x v) i = logic9_word_bit v i.
Proof.
  intros. unfold logic9_word_bit, normalize_invalid_codes_to_x; cbn [l9w_plane0 l9w_plane1
    l9w_plane2 l9w_plane3]. autorewrite with fsim_bits.
  rewrite (proj2 (Z.ltb_lt i 64)) by lia. by destruct_testbits.
Qed.

Lemma normalize_canonical v :
  is_u64 (l9w_plane3 v) -> has_canonical_codes (normalize_invalid_codes_to_x v) = true.
Proof.
  intros Hu. unfold has_canonical_codes. apply Z.eqb_eq.
  unfold normalize_invalid_codes_to_x; cbn [l9w_plane0 l9w_plane1 l9w_plane2 l9w_plane3].
  word_ext i Hi. destruct (Z.ltb_spec i 64); [by destruct_testbits|].
  rewrite (testbit_u64_high (l9w_plane3 v)) by (done || lia). done.
Qed.

(** Resolution depends only on which values occur among the drivers. *)
Lemma resolve4_seen zero one unknown d :
  resolve4 (seen4 zero one unknown) d =
    seen4 (zero || logic4_eqb d Logic4_zero) (one || logic4_eqb d Logic4_one)
      (unknown || logic4_eqb d Logic4_x).
Proof. by destruct zero, one, unknown, d. Qed.

Lemma testbit_low_mask m w i x :
  (forall j, 0 <= j -> Z.testbit m j = (j <? w)) -> 0 <= i < w ->
  Z.testbit (Z.land x m) i = Z.testbit x i.
Proof.
  intros Hm Hi. rewrite Z.land_spec, Hm by lia.
  by rewrite (proj2 (Z.ltb_lt i w)), andb_true_r by lia.
Qed.

(** What the accumulator stands for after folding some drivers. *)
Definition acc_inv (w : Z) (drivers : list Logic4Word) (acc : Logic4ResolutionAccumulator) : Prop :=
  acc_width acc = w /\ acc_width_mask acc = final_word_mask w /\
  forall i, 0 <= i < w ->
    resolve4_span ((fun d => logic4_word_bit d i) <$> drivers) =
    seen4 (Z.testbit (acc_zero_seen acc) i) (Z.testbit (acc_one_seen acc) i)
      (Z.testbit (acc_unknown_seen acc) i).

Lemma accumulator_add_inv w drivers acc d :
  0 < w <= 64 -> acc_inv w drivers acc -> l4w_width d = w ->
  returns (accumulator_add acc d) (acc_inv w (drivers ++ [d])).
Proof.
  intros Hw (Hwd & Hm & Hb) Hd. unfold accumulator_add. rewrite Hd, Hwd, Z.eqb_refl. simpl.
  split_and!; simpl; [done|done|]. intros i Hi.
  unfold resolve4_span in *. rewrite fmap_app, foldl_app. simpl. rewrite Hb by done.
  rewrite resolve4_seen, Hm. unfold logic4_word_bit.
  autorewrite with fsim_bits. rewrite testbit_final_word_mask_narrow by lia.
  rewrite (proj2 (Z.ltb_lt i w)), (proj2 (Z.ltb_lt i 64)) by lia.
  by destruct_testbits.
Qed.

Lemma accumulator_result_bit w drivers acc i :
  0 < w <= 64 -> acc_inv w drivers acc -> 0 <= i < w ->
  logic4_word_bit (accumulator_result acc) i =
    resolve4_span ((fun d => logic4_word_bit d i) <$> drivers).
Proof.
  intros Hw (Hwd & Hm & Hb) Hi. rewrite Hb by done.
  unfold logic4_word_bit, accumulator_result; cbn [l4w_aval l4w_bval]. rewrite Hm.
  autorewrite with fsim_bits. rewrite testbit_final_word_mask_narrow by lia.
  rewrite (proj2 (Z.ltb_lt i w)), (proj2 (Z.ltb_lt i 64)) by lia.
  by destruct_testbits.
Qed.

Lemma accumulator_init w : 0 < w <= 64 -> returns (accumulator w) (acc_inv w []).
Proof.
  intros Hw. unfold accumulator, bits_per_word. rewrite Z.gtb_ltb.
  rewrite (proj2 (Z.eqb_neq w 0)), (proj2 (Z.ltb_ge 64 w)) by lia. simpl.
  split_and!; simpl; [done|done|]. intros i Hi. by rewrite !Z.bits_0.
Qed.

(** Resolving single-word drivers through the accumulator. *)
Definition accumulate (w : Z) (drivers : list Logic4Word) : Outcome Logic4Word :=
  acc ← accumulator w;
  acc ← foreach drivers (fun d acc => accumulator_add acc d) acc;
  Ok (accumulator_result acc).

(** The accumulator computes, at every bit position, the four-state resolution
    of the drivers' bits, for any number of drivers of a width up to 64. *)
Lemma accumulate_resolves w drivers :
  0 < w <= 64 -> Forall (fun d => l4w_width d = w) drivers ->
  returns (accumulate w drivers) (fun r =>
    l4w_width r = w /\
    forall i, 0 <= i < w ->
      logic4_word_bit r i = resolve4_span ((fun d => logic4_word_bit d i) <$> drivers)).
Proof.
  intros Hw Hd. unfold accumulate. apply returns_bind.
  eapply returns_mono; [by apply accumulator_init|]. intros acc Hacc.
  apply returns_bind. eapply returns_mono.
  - apply (foreach_list (acc_inv w)); [done|].
    intros dn d s Hs Hin. apply accumulator_add_inv; [done|done|].
    by eapply Forall_forall in Hd.
  - intros acc' Hacc'. simpl. split; [apply Hacc'|].
    intros i Hi. by apply (accumulator_result_bit w).
Qed.

(** A force overlays exactly the masked bits and keeps the rest. *)
Lemma apply_force_word_spec driven forced mask :
  0 < l4w_width driven <= 64 -> l4w_width forced = l4w_width driven ->
  returns (apply_force_word driven forced mask) (fun r =>
    l4w_width r = l4w_width driven /\
    forall i, 0 <= i < l4w_width driven ->
      logic4_word_bit r i =
        if Z.testbit mask i then logic4_word_bit forced i else logic4_word_bit driven i).
Proof.
  intros Hw Hf. unfold apply_force_word, bits_per_word. rewrite Z.gtb_ltb, Hf, Z.eqb_refl.
  rewrite (proj2 (Z.eqb_neq _ 0)), (proj2 (Z.ltb_ge 64 _)) by lia. simpl.
  split; [done|]. intros i Hi. unfold logic4_word_bit; simpl.
  autorewrite with fsim_bits. rewrite testbit_final_word_mask_narrow by lia.
  rewrite (proj2 (Z.ltb_lt i (l4w_width driven))), (proj2 (Z.ltb_lt i 64)) by lia.
  by destruct_testbits.
Qed.
