(* ===== verification/PackedLogic4.v ===== *)
(** * The packed transport value

    Model of class [PackedLogic4] of include/fsim/runtime/packed_value.hpp and
    src/runtime/packed_value.cpp, the value every HDL object of the simulator
    carries: a vector of four-state elements in two bit planes (aval, bval), or
    of nine-state elements in four planes holding their ordinal codes.

    The record holds the words the plane accessors expose; whether C++ keeps
    them inline, in a shared wide allocation or behind a snapshot does not
    change them.  A live component slot ([has_live_plane_backing]) is kept as a
    flag, because it changes one behaviour: such a slot cannot be promoted. *)
From S2P Require Import Prelude Logic WordSpan LogicWord.
Ltac Zify.zify_post_hook ::= Z.div_mod_to_equations.

Record PackedLogic4 := mkPackedLogic4 {
  width : Z;
  is_logic9 : bool;
  aval_words : list Z;
  bval_words : list Z;
  logic9_plane2 : list Z;
  logic9_plane3 : list Z;
  has_live_plane_backing : bool;
}.

#[global] Instance packed_logic4_eq_dec : EqDecision PackedLogic4.
Proof. solve_decision. Defined.

(** ** Plane access *)

Definition logic9_plane (v : PackedLogic4) (index : Z) : list Z :=
  if (width v =? 0) || (index >=? 4) then []
  else if index =? 0 then aval_words v
  else if index =? 1 then bval_words v
  else if index =? 2 then logic9_plane2 v
  else logic9_plane3 v.

Definition logic9_plane_words (v : PackedLogic4) (plane : Z) : list Z :=
  if negb (is_logic9 v) || (plane >=? 4) then [] else logic9_plane v plane.

(** Writing through the mutable spans: [f] rewrites plane 0 to 3 in turn. *)
Definition on_logic9_planes (v : PackedLogic4) (f : Z -> list Z -> list Z) : PackedLogic4 :=
  {| width := width v; is_logic9 := is_logic9 v;
     aval_words := f 0 (aval_words v); bval_words := f 1 (bval_words v);
     logic9_plane2 := f 2 (logic9_plane2 v); logic9_plane3 := f 3 (logic9_plane3 v);
     has_live_plane_backing := has_live_plane_backing v |}.

Definition on_logic4_planes (v : PackedLogic4) (fa fb : list Z -> list Z) : PackedLogic4 :=
  {| width := width v; is_logic9 := is_logic9 v;
     aval_words := fa (aval_words v); bval_words := fb (bval_words v);
     logic9_plane2 := logic9_plane2 v; logic9_plane3 := logic9_plane3 v;
     has_live_plane_backing := has_live_plane_backing v |}.

Definition mask_unused_bits (v : PackedLogic4) : PackedLogic4 :=
  let v := on_logic4_planes v (fun ws => mask_last ws (width v))
             (fun ws => mask_last ws (width v)) in
  if is_logic9 v
  then {| width := width v; is_logic9 := is_logic9 v;
          aval_words := aval_words v; bval_words := bval_words v;
          logic9_plane2 := mask_last (logic9_plane2 v) (width v);
          logic9_plane3 := mask_last (logic9_plane3 v) (width v);
          has_live_plane_backing := has_live_plane_backing v |}
  else v.

(** Bit [plane] of an ordinal code: [((encoded >> plane) & 1U) != 0]. *)
Definition code_bit (encoded plane : Z) : bool :=
  negb (Z.land (Z.shiftr encoded plane) 1 =? 0).

Definition fill_words (ws : list Z) (b : bool) : list Z :=
  replicate (length ws) (if b then not64 0 else 0).

Definition fill4 (v : PackedLogic4) (value : Logic4) : PackedLogic4 :=
  if is_logic9 v then
    let encoded := logic9_code (to_logic9 value) in
    mask_unused_bits (on_logic9_planes v (fun plane ws => fill_words ws (code_bit encoded plane)))
  else
    let aval := logic4_eqb value Logic4_one || logic4_eqb value Logic4_x in
    let bval := logic4_eqb value Logic4_x || logic4_eqb value Logic4_z in
    mask_unused_bits (on_logic4_planes v (fun ws => fill_words ws aval) (fun ws => fill_words ws bval)).

(** The constructor [PackedLogic4(width, initial)]. *)
Definition make (w : Z) (initial : Logic4) : Outcome PackedLogic4 :=
  w ← checked_packed_width w;
  words ← word_count w;
  let zeros := replicate (Z.to_nat words) 0 in
  Ok (fill4 {| width := w; is_logic9 := false; aval_words := zeros; bval_words := zeros;
               logic9_plane2 := []; logic9_plane3 := []; has_live_plane_backing := false |}
        initial).

(** The copy constructor: a copy of a live slot is a detached snapshot. *)
Definition copy (v : PackedLogic4) : PackedLogic4 :=
  {| width := width v; is_logic9 := is_logic9 v;
     aval_words := aval_words v; bval_words := bval_words v;
     logic9_plane2 := logic9_plane2 v; logic9_plane3 := logic9_plane3 v;
     has_live_plane_backing := false |}.

Definition promote_to_logic9 (v : PackedLogic4) : Outcome PackedLogic4 :=
  if is_logic9 v then Ok v
  else if has_live_plane_backing v
  then Throw (logic_error "cannot promote a component-backed Logic4 slot to Logic9")
  else
    words ← word_count (width v);
    Ok (mask_unused_bits
      {| width := width v; is_logic9 := true;
         aval_words := aval_words v;
         bval_words := not64 <$> bval_words v;
         logic9_plane2 := zip_with (fun aval bval => Z.land (not64 aval) bval)
                            (aval_words v) (bval_words v);
         logic9_plane3 := replicate (Z.to_nat words) 0;
         has_live_plane_backing := false |}).

Definition promoted_to_logic9 (v : PackedLogic4) : Outcome PackedLogic4 :=
  promote_to_logic9 (copy v).

Definition fill9 (v : PackedLogic4) (value : Logic9) : Outcome PackedLogic4 :=
  v ← (if negb (is_logic9 v) then promote_to_logic9 v else Ok v);
  let encoded := logic9_code value in
  Ok (mask_unused_bits
        (on_logic9_planes v (fun plane ws => fill_words ws (code_bit encoded plane)))).

(** ** Element access *)

(** The decoding of one element from its two or four plane bits. *)
Definition logic4_at (v : PackedLogic4) (index : Z) : Logic4 :=
  let aval := read_bit (aval_words v) index in
  let bval := read_bit (bval_words v) index in
  if negb bval then (if aval then Logic4_one else Logic4_zero)
  else (if aval then Logic4_x else Logic4_z).

Definition logic9_at (v : PackedLogic4) (index : Z) : Logic9 :=
  let encoded := foreach_pure (up 0 4) (fun plane encoded =>
    Z.lor encoded (Z.shiftl (Z.b2z (read_bit (logic9_plane v plane) index)) plane)) 0 in
  if encoded <=? logic9_code Logic9_dont_care then logic9_of_code encoded else Logic9_x.

Definition get_logic9 (v : PackedLogic4) (index : Z) : Outcome Logic9 :=
  _ ← check_index index (width v);
  if negb (is_logic9 v) then Ok (to_logic9 (logic4_at v index))
  else Ok (logic9_at v index).

Definition get (v : PackedLogic4) (index : Z) : Outcome Logic4 :=
  _ ← check_index index (width v);
  if is_logic9 v then (r ← get_logic9 v index; Ok (to_logic4 r))
  else Ok (logic4_at v index).

Definition set_logic9 (v : PackedLogic4) (index : Z) (value : Logic9) : Outcome PackedLogic4 :=
  _ ← check_index index (width v);
  v ← (if negb (is_logic9 v) then promote_to_logic9 v else Ok v);
  let encoded := logic9_code value in
  Ok (on_logic9_planes v (fun plane ws => write_bit ws index (code_bit encoded plane))).

Definition set (v : PackedLogic4) (index : Z) (value : Logic4) : Outcome PackedLogic4 :=
  _ ← check_index index (width v);
  if is_logic9 v then set_logic9 v index (to_logic9 value)
  else
    Ok match value with
       | Logic4_zero => on_logic4_planes v (fun ws => write_bit ws index false)
                          (fun ws => write_bit ws index false)
       | Logic4_one => on_logic4_planes v (fun ws => write_bit ws index true)
                         (fun ws => write_bit ws index false)
       | Logic4_x => on_logic4_planes v (fun ws => write_bit ws index true)
                       (fun ws => write_bit ws index true)
       | Logic4_z => on_logic4_planes v (fun ws => write_bit ws index false)
                       (fun ws => write_bit ws index true)
       end.

(** ** Comparison *)

Definition words_equal (l r : list Z) : bool := bool_decide (l = r).

Definition packed_eq (left right : PackedLogic4) : bool :=
  if negb (width left =? width right) || negb (eqb (is_logic9 left) (is_logic9 right))
  then false
  else
    let plane_count := if is_logic9 left then 4 else 2 in
    forallb (fun plane =>
      let lhs := if plane =? 0 then aval_words left else if plane =? 1 then bval_words left
                 else logic9_plane left plane in
      let rhs := if plane =? 0 then aval_words right else if plane =? 1 then bval_words right
                 else logic9_plane right plane in
      words_equal lhs rhs) (up 0 plane_count).

(** * Specification vocabulary *)

(** The element at [i], in either representation, as a nine-state value. *)
Definition at9 (v : PackedLogic4) (i : Z) : Logic9 :=
  if is_logic9 v
  then logic9_of_bits (read_bit (aval_words v) i) (read_bit (bval_words v) i)
         (read_bit (logic9_plane2 v) i) (read_bit (logic9_plane3 v) i)
  else to_logic9 (logic4_of_bits (read_bit (aval_words v) i) (read_bit (bval_words v) i)).

(** The same element seen as a four-state value. *)
Definition at4 (v : PackedLogic4) (i : Z) : Logic4 := to_logic4 (at9 v i).

(** The representation invariant: planes of the right size with no bit above
    the width, and, for nine-state values, only codes 0 to 8. *)
Record wf (v : PackedLogic4) : Prop := {
  wf_width : 0 <= width v <= SIZE_MAX / 4;
  wf_aval : plane_ok (width v) (aval_words v);
  wf_bval : plane_ok (width v) (bval_words v);
  wf_plane2 : if is_logic9 v then plane_ok (width v) (logic9_plane2 v) else logic9_plane2 v = [];
  wf_plane3 : if is_logic9 v then plane_ok (width v) (logic9_plane3 v) else logic9_plane3 v = [];
  wf_codes : is_logic9 v = true -> forall i, 0 <= i < width v ->
    read_bit (logic9_plane3 v) i = true ->
    read_bit (aval_words v) i = false /\ read_bit (bval_words v) i = false /\
    read_bit (logic9_plane2 v) i = false;
}.

(** [Rep v w nine f]: [v] is a detached, well-formed value of [w] elements in
    the nine- or four-state representation whose element [i] is [f i].  A value
    is determined by such a description ([Rep_unique]). *)
Record Rep (v : PackedLogic4) (w : Z) (nine : bool) (f : Z -> Logic9) : Prop := {
  rep_wf : wf v;
  rep_width : width v = w;
  rep_nine : is_logic9 v = nine;
  rep_live : has_live_plane_backing v = false;
  rep_at : forall i, 0 <= i < w -> at9 v i = f i;
}.

(** * Theorems *)

Lemma logic9_of_bits_inj p0 p1 p2 p3 q0 q1 q2 q3 :
  (p3 = true -> p0 = false /\ p1 = false /\ p2 = false) ->
  (q3 = true -> q0 = false /\ q1 = false /\ q2 = false) ->
  logic9_of_bits p0 p1 p2 p3 = logic9_of_bits q0 q1 q2 q3 ->
  p0 = q0 /\ p1 = q1 /\ p2 = q2 /\ p3 = q3.
Proof.
  destruct p0, p1, p2, p3, q0, q1, q2, q3; cbn; intros Hp Hq H; try done;
    (by destruct Hp as (?&?&?)) || (by destruct Hq as (?&?&?)).
Qed.

(** Two well-formed values with the same elements are the same value. *)
Lemma packed_ext v1 v2 :
  wf v1 -> wf v2 -> width v1 = width v2 -> is_logic9 v1 = is_logic9 v2 ->
  has_live_plane_backing v1 = has_live_plane_backing v2 ->
  (forall i, 0 <= i < width v1 -> at9 v1 i = at9 v2 i) -> v1 = v2.
Proof.
  intros H1 H2 Hw Hn Hl Hat.
  destruct v1 as [w n a b p2 p3 l], v2 as [w' n' a' b' p2' p3' l'].
  simpl in Hw, Hn, Hl. subst w' n' l'.
  destruct H1 as [Hw1 Ha1 Hb1 Hp1 Hq1 Hc1], H2 as [_ Ha2 Hb2 Hp2 Hq2 Hc2]. simpl in *.
  unfold at9 in Hat; simpl in Hat. destruct n.
  - assert (forall i, 0 <= i < w -> read_bit a i = read_bit a' i /\ read_bit b i = read_bit b' i /\
      read_bit p2 i = read_bit p2' i /\ read_bit p3 i = read_bit p3' i) as Hbits.
    { intros i Hi. apply logic9_of_bits_inj; auto. }
    f_equal; eapply plane_ext; eauto; intros i Hi; by apply Hbits.
  - subst. assert (forall i, 0 <= i < w -> read_bit a i = read_bit a' i /\
      read_bit b i = read_bit b' i) as Hbits.
    { intros i Hi. apply logic4_of_bits_inj, to_logic9_inj, Hat; done. }
    f_equal; eapply plane_ext; eauto; intros i Hi; by apply Hbits.
Qed.

Lemma Rep_unique v1 v2 w nine f : Rep v1 w nine f -> Rep v2 w nine f -> v1 = v2.
Proof.
  intros [H1 Hw1 Hn1 Hl1 Ha1] [H2 Hw2 Hn2 Hl2 Ha2].
  apply packed_ext; try congruence. intros i Hi. rewrite Ha1, Ha2; congruence.
Qed.

Lemma Rep_ext v w nine f g :
  Rep v w nine f -> (forall i, 0 <= i < w -> f i = g i) -> Rep v w nine g.
Proof. intros [? ? ? ? H] Hfg. split; try done. intros i Hi. by rewrite H, Hfg. Qed.

Lemma Rep_self v : wf v -> has_live_plane_backing v = false ->
  Rep v (width v) (is_logic9 v) (at9 v).
Proof. by split. Qed.

Lemma Rep_copy v : wf v -> Rep (copy v) (width v) (is_logic9 v) (at9 v).
Proof. intros []. by split. Qed.

(** Two computations that return the same representation are equal. *)
Lemma returns_Rep_eq m1 m2 w nine f :
  returns m1 (fun v => Rep v w nine f) -> returns m2 (fun v => Rep v w nine f) -> m1 = m2.
Proof.
  destruct m1, m2; simpl; try done. intros H1 H2. f_equal. by eapply Rep_unique.
Qed.

Lemma at9_four v i : is_logic9 v = false -> at9 v i = to_logic9 (at4 v i).
Proof.
  intros H. unfold at4, at9. rewrite H. by rewrite to_logic4_to_logic9.
Qed.

(** ** Reading *)

Lemma logic4_at_spec v i :
  is_logic9 v = false -> 0 <= i -> logic4_at v i = at4 v i.
Proof.
  intros H Hi. unfold at4, at9. rewrite H, to_logic4_to_logic9.
  unfold logic4_at, logic4_of_bits. done.
Qed.

Lemma logic9_at_spec v i :
  is_logic9 v = true -> 0 <= i < width v -> logic9_at v i = at9 v i.
Proof.
  intros H Hi. unfold at9, logic9_at. rewrite H.
  unfold logic9_plane. rewrite (proj2 (Z.eqb_neq (width v) 0)) by lia.
  change (up 0 4) with [0; 1; 2; 3]. simpl.
  destruct (read_bit (aval_words v) i), (read_bit (bval_words v) i),
    (read_bit (logic9_plane2 v) i), (read_bit (logic9_plane3 v) i); done.
Qed.

Lemma get_logic9_ok v i : 0 <= i < width v -> get_logic9 v i = Ok (at9 v i).
Proof.
  intros Hi. unfold get_logic9. rewrite check_index_ok by lia. simpl.
  destruct (is_logic9 v) eqn:E; simpl.
  - by rewrite logic9_at_spec.
  - rewrite logic4_at_spec by (done || lia). by rewrite <- at9_four.
Qed.

Lemma get_ok v i : 0 <= i < width v -> get v i = Ok (at4 v i).
Proof.
  intros Hi. unfold get. rewrite check_index_ok by lia. simpl.
  destruct (is_logic9 v) eqn:E.
  - by rewrite get_logic9_ok.
  - by rewrite logic4_at_spec by (done || lia).
Qed.

Lemma get_throws v i : width v <= i ->
  get v i = Throw (out_of_range "packed value bit index is out of range").
Proof.
  intros. unfold get, check_index. rewrite Z.geb_leb.
  by destruct (Z.leb_spec (width v) i); [|lia].
Qed.

(** ** Masking, filling and construction *)

Lemma code_bit_testbit e p : 0 <= p -> code_bit e p = Z.testbit e p.
Proof.
  intros. unfold code_bit. change 1 with (Z.ones 1).
  rewrite Z.land_ones by lia. change (2 ^ 1) with 2.
  rewrite <- Z.bit0_mod, Z.shiftr_spec, Z.add_0_l by lia.
  by destruct (Z.testbit e p).
Qed.

Lemma code_bits_codes v :
  Z.testbit (logic9_code v) 3 = true ->
  Z.testbit (logic9_code v) 0 = false /\ Z.testbit (logic9_code v) 1 = false /\
  Z.testbit (logic9_code v) 2 = false.
Proof. by destruct v. Qed.

Lemma span_fill_words n ws b : span_ok n ws -> span_ok n (fill_words ws b).
Proof.
  intros [Hs Hu]. split.
  - unfold size, fill_words in *. by rewrite length_replicate.
  - apply Forall_replicate. destruct b; auto with fsim.
Qed.

Lemma read_fill_words ws b i : 0 <= i < 64 * size ws -> read_bit (fill_words ws b) i = b.
Proof.
  intros Hi. unfold fill_words. unfold size in Hi.
  replace (length ws) with (Z.to_nat (Z.of_nat (length ws))) by lia.
  by apply read_replicate.
Qed.

(** [mask_unused_bits] turns four spans of the right size into a value. *)
Lemma wf_mask_unused_bits w nine a b p2 p3 live (f : Z -> Logic9) :
  let v := mkPackedLogic4 w nine a b p2 p3 live in
  0 <= w <= SIZE_MAX / 4 ->
  span_ok (words_for w) a -> span_ok (words_for w) b ->
  (if nine then span_ok (words_for w) p2 /\ span_ok (words_for w) p3 else p2 = [] /\ p3 = []) ->
  (nine = true -> forall i, 0 <= i < w -> read_bit p3 i = true ->
     read_bit a i = false /\ read_bit b i = false /\ read_bit p2 i = false) ->
  (forall i, 0 <= i < w -> at9 v i = f i) ->
  wf (mask_unused_bits v) /\ width (mask_unused_bits v) = w /\
  is_logic9 (mask_unused_bits v) = nine /\
  has_live_plane_backing (mask_unused_bits v) = live /\
  forall i, 0 <= i < w -> at9 (mask_unused_bits v) i = f i.
Proof.
  intros v Hw Ha Hb Hp Hc Hat.
  assert (forall ws i, span_ok (words_for w) ws -> 0 <= i < w ->
            read_bit (mask_last ws w) i = read_bit ws i) as Hrd.
  { intros ws i Hs Hi. rewrite read_mask_last by (apply Hs || lia).
    by rewrite (proj2 (Z.ltb_lt i w)) by lia. }
  destruct nine; unfold mask_unused_bits; simpl.
  - destruct Hp as [Hp2 Hp3]. split_and!; [|done|done|done|].
    + split; simpl; [done|by apply plane_mask_last; [lia|]..|].
      intros _ i Hi. rewrite !Hrd by done. by apply Hc.
    + intros i Hi. rewrite <- Hat by done. unfold at9; simpl. by rewrite !Hrd by done.
  - destruct Hp as [-> ->]. split_and!; [|done|done|done|].
    + split; simpl; try done; apply plane_mask_last; [lia|done|lia|done].
    + intros i Hi. rewrite <- Hat by done. unfold at9; simpl. by rewrite !Hrd by done.
Qed.

Lemma wf_spans v : wf v ->
  span_ok (words_for (width v)) (aval_words v) /\ span_ok (words_for (width v)) (bval_words v) /\
  (if is_logic9 v
   then span_ok (words_for (width v)) (logic9_plane2 v) /\
        span_ok (words_for (width v)) (logic9_plane3 v)
   else logic9_plane2 v = [] /\ logic9_plane3 v = []).
Proof.
  intros [Hw Ha Hb Hp2 Hp3 _]. split_and!; [apply Ha|apply Hb|].
  destruct (is_logic9 v); [|done]. split; [apply Hp2|apply Hp3].
Qed.

(** ** Filling *)

Lemma fill4_spec v x : wf v ->
  wf (fill4 v x) /\ width (fill4 v x) = width v /\ is_logic9 (fill4 v x) = is_logic9 v /\
  has_live_plane_backing (fill4 v x) = has_live_plane_backing v /\
  forall i, 0 <= i < width v -> at9 (fill4 v x) i = to_logic9 x.
Proof.
  intros Hv. destruct (wf_spans _ Hv) as (Ha & Hb & Hp). pose proof (wf_width _ Hv) as Hw.
  pose proof (words_for_bounds (width v) ltac:(lia)) as Hwf.
  assert (forall ws b i, span_ok (words_for (width v)) ws -> 0 <= i < width v ->
            read_bit (fill_words ws b) i = b) as Hrd.
  { intros ws b i Hs Hi. apply read_fill_words. rewrite (span_size _ _ Hs). lia. }
  unfold fill4. destruct (is_logic9 v) eqn:E.
  - destruct Hp as [Hp2 Hp3]. unfold on_logic9_planes. rewrite E.
    apply wf_mask_unused_bits; auto using span_fill_words; intros; unfold at9; simpl.
    + revert H1. rewrite !Hrd, !code_bit_testbit by (done || lia). apply code_bits_codes.
    + rewrite !Hrd, !code_bit_testbit by (done || lia). apply logic9_of_bits_code.
  - destruct Hp as [Hp2 Hp3]. unfold on_logic4_planes. rewrite E, Hp2, Hp3.
    apply wf_mask_unused_bits; auto using span_fill_words; try done.
    intros i Hi. unfold at9; simpl. rewrite !Hrd by done. by destruct x.
Qed.

Lemma make_spec w x :
  0 <= w <= SIZE_MAX / 4 -> returns (make w x) (fun v => Rep v w false (fun _ => to_logic9 x)).
Proof.
  intros Hw. unfold make, checked_packed_width. rewrite Z.gtb_ltb.
  rewrite (proj2 (Z.ltb_ge (SIZE_MAX / 4) w)) by lia. simpl.
  rewrite word_count_ok by (unfold SIZE_MAX in *; lia). simpl.
  pose proof (words_for_nonneg w ltac:(lia)).
  set (v := mkPackedLogic4 _ _ _ _ _ _ _).
  assert (wf v) as Hv.
  { assert (plane_ok w (replicate (Z.to_nat (words_for w)) 0)) as Hp.
    { split; [by apply span_replicate|]. intros i Hi. rewrite read_bit_testbit by lia.
      rewrite word_at_replicate by lia. destruct (_ <? _); apply Z.bits_0. }
    split; simpl; try done. }
  destruct (fill4_spec v x Hv) as (H1 & H2 & H3 & H4 & H5). by split.
Qed.

(** ** Promotion to nine states *)

Lemma promote_to_logic9_spec v :
  wf v -> has_live_plane_backing v = false \/ is_logic9 v = true ->
  returns (promote_to_logic9 v) (fun r => wf r /\ width r = width v /\ is_logic9 r = true /\
    has_live_plane_backing r = has_live_plane_backing v /\
    forall i, 0 <= i < width v -> at9 r i = at9 v i).
Proof.
  intros Hv Hl. unfold promote_to_logic9. destruct (is_logic9 v) eqn:E; [done|].
  destruct Hl as [Hl|]; [|done]. rewrite Hl.
  destruct (wf_spans _ Hv) as (Ha & Hb & Hp). pose proof (wf_width _ Hv) as Hw.
  pose proof (words_for_bounds (width v) ltac:(lia)) as Hwf.
  rewrite word_count_ok by (unfold SIZE_MAX in *; lia). simpl.
  assert (size (zip_with (fun aval bval => Z.land (not64 aval) bval)
            (aval_words v) (bval_words v)) = words_for (width v)) as Hz.
  { unfold size. rewrite length_zip_with_l_eq; [apply Ha|].
    pose proof (span_size _ _ Ha). pose proof (span_size _ _ Hb). unfold size in *. lia. }
  assert (forall i, 0 <= i < width v ->
    read_bit (not64 <$> bval_words v) i = negb (read_bit (bval_words v) i)) as Hnot.
  { intros i Hi. rewrite !read_bit_testbit by lia.
    rewrite word_at_fmap by (rewrite (span_size _ _ Hb); lia).
    rewrite testbit_not64 by lia. by rewrite (proj2 (Z.ltb_lt _ 64)) by lia. }
  assert (forall i, 0 <= i < width v ->
    read_bit (zip_with (fun aval bval => Z.land (not64 aval) bval) (aval_words v) (bval_words v)) i
    = negb (read_bit (aval_words v) i) && read_bit (bval_words v) i) as Hzip.
  { intros i Hi. rewrite !read_bit_testbit by lia.
    rewrite word_at_zip_with by (rewrite ?(span_size _ _ Ha), ?(span_size _ _ Hb); lia).
    autorewrite with fsim_bits. by rewrite (proj2 (Z.ltb_lt _ 64)) by lia. }
  apply wf_mask_unused_bits; [done|done| | | |].
  - split; [unfold size; rewrite length_fmap; apply Hb|].
    apply Forall_fmap, Forall_forall. intros; simpl; auto with fsim.
  - split; [|by apply span_replicate; [apply words_for_nonneg; lia|done]].
    split; [done|]. apply Forall_forall. intros x Hx.
    apply elem_of_lookup_zip_with in Hx as (? & y & z & -> & _ & Hx).
    apply is_u64_land_l. auto with fsim.
  - intros _ i Hi. rewrite read_bit_testbit, word_at_replicate by lia.
    destruct (_ <? _); by rewrite Z.bits_0.
  - intros i Hi. unfold at9; simpl. rewrite E, Hnot, Hzip by done.
    rewrite (read_bit_testbit (replicate _ _)), word_at_replicate by lia.
    assert (Z.testbit (if i / 64 <? Z.of_nat (Z.to_nat (words_for (width v))) then 0 else 0)
              (i mod 64) = false) as -> by (destruct (_ <? _); apply Z.bits_0).
    by destruct (read_bit (aval_words v) i), (read_bit (bval_words v) i).
Qed.

Lemma promote_live_throws v :
  is_logic9 v = false -> has_live_plane_backing v = true ->
  promote_to_logic9 v = Throw (logic_error "cannot promote a component-backed Logic4 slot to Logic9").
Proof. intros H1 H2. unfold promote_to_logic9. by rewrite H1, H2. Qed.

Lemma promoted_to_logic9_spec v :
  wf v -> returns (promoted_to_logic9 v) (fun r => Rep r (width v) true (at9 v)).
Proof.
  intros Hv. unfold promoted_to_logic9. destruct (Rep_copy v Hv) as [H1 H2 H3 H4 H5].
  eapply returns_mono; [apply promote_to_logic9_spec; [done|by left]|].
  intros r (R1 & R2 & R3 & R4 & R5). by split.
Qed.

Lemma fill9_spec v x :
  wf v -> has_live_plane_backing v = false ->
  returns (fill9 v x) (fun r => Rep r (width v) true (fun _ => x)).
Proof.
  intros Hv Hl. unfold fill9. apply returns_bind.
  assert (returns (if negb (is_logic9 v) then promote_to_logic9 v else Ok v)
    (fun r => wf r /\ width r = width v /\ is_logic9 r = true /\
      has_live_plane_backing r = has_live_plane_backing v /\
      forall i, 0 <= i < width v -> at9 r i = at9 v i)) as Hp.
  { destruct (is_logic9 v) eqn:E; simpl; [done|]. by apply promote_to_logic9_spec; [|left]. }
  eapply returns_mono; [exact Hp|]. intros r (R1 & R2 & R3 & R4 & R5). simpl.
  destruct (wf_spans _ R1) as (Ha & Hb & Hp'). pose proof (wf_width _ R1) as Hw.
  rewrite R3 in Hp'. destruct Hp' as [Hp2 Hp3].
  pose proof (words_for_bounds (width r) ltac:(lia)) as Hwf.
  assert (forall ws b i, span_ok (words_for (width r)) ws -> 0 <= i < width r ->
            read_bit (fill_words ws b) i = b) as Hrd.
  { intros ws b i Hs Hi. apply read_fill_words. rewrite (span_size _ _ Hs). lia. }
  unfold on_logic9_planes. rewrite R3.
  edestruct (wf_mask_unused_bits (width r) true) as (W1 & W2 & W3 & W4 & W5).
  7: split; [exact W1|congruence|exact W3|rewrite W4; congruence|rewrite <- R2; exact W5].
  all: auto using span_fill_words.
  - intros _ i Hi. rewrite !Hrd, !code_bit_testbit by (done || lia). apply code_bits_codes.
  - intros i Hi. unfold at9; simpl.
    rewrite !Hrd, !code_bit_testbit by (done || lia). apply logic9_of_bits_code.
Qed.

(** ** Writing one element *)

(** [set_logic9] writes exactly the addressed element and promotes a
    four-state value first. *)
Lemma set_logic9_spec v i x :
  wf v -> 0 <= i < width v -> has_live_plane_backing v = false \/ is_logic9 v = true ->
  returns (set_logic9 v i x) (fun r => wf r /\ width r = width v /\ is_logic9 r = true /\
    has_live_plane_backing r = has_live_plane_backing v /\
    forall j, 0 <= j < width v -> at9 r j = if j =? i then x else at9 v j).
Proof.
  intros Hv Hi Hl. unfold set_logic9. rewrite check_index_ok by lia. simpl.
  apply returns_bind.
  assert (returns (if negb (is_logic9 v) then promote_to_logic9 v else Ok v)
    (fun r => wf r /\ width r = width v /\ is_logic9 r = true /\
      has_live_plane_backing r = has_live_plane_backing v /\
      forall i, 0 <= i < width v -> at9 r i = at9 v i)) as Hp.
  { destruct (is_logic9 v) eqn:E; simpl; [done|]. apply promote_to_logic9_spec; [done|].
    destruct Hl as [Hl|Hl]; [by left|done]. }
  eapply returns_mono; [exact Hp|]. intros r (R1 & R2 & R3 & R4 & R5). simpl.
  destruct (wf_spans _ R1) as (Ha & Hb & Hp'). rewrite R3 in Hp'. destruct Hp' as [Hp2 Hp3].
  pose proof (words_for_bounds (width r) ltac:(lia)) as Hwf.
  assert (forall ws b j, span_ok (words_for (width r)) ws -> 0 <= j < width r ->
            read_bit (write_bit ws i b) j = if j =? i then b else read_bit ws j) as Hrd.
  { intros ws b j Hs Hj. apply read_write_bit; rewrite ?(span_size _ _ Hs); lia. }
  destruct R1 as [W1 W2 W3 W4 W5 W6]. rewrite R3 in *.
  split_and!; [|done|done|done|].
  - split; simpl; rewrite ?R3; [done|by apply plane_write_bit; [lia|]..|].
    intros _ j Hj. rewrite !Hrd by done. rewrite !code_bit_testbit by lia.
    destruct (j =? i); [apply code_bits_codes|by apply W6].
  - intros j Hj. rewrite <- R5 by done. unfold at9; simpl. rewrite R3.
    rewrite !Hrd by (done || lia). rewrite !code_bit_testbit by lia.
    destruct (j =? i); [apply logic9_of_bits_code|done].
Qed.

(** [set] writes exactly the addressed element, in either representation. *)
Lemma set_spec v i x :
  wf v -> 0 <= i < width v ->
  returns (set v i x) (fun r => wf r /\ width r = width v /\ is_logic9 r = is_logic9 v /\
    has_live_plane_backing r = has_live_plane_backing v /\
    forall j, 0 <= j < width v -> at9 r j = if j =? i then to_logic9 x else at9 v j).
Proof.
  intros Hv Hi. unfold set. rewrite check_index_ok by lia. simpl.
  destruct (is_logic9 v) eqn:E.
  { eapply returns_mono; [apply set_logic9_spec; [done|lia|by right]|]. done. }
  assert (set v i x = Ok (on_logic4_planes v (fun ws => write_bit ws i (aval_bit x))
            (fun ws => write_bit ws i (bval_bit x)))) as Hset.
  { unfold set. rewrite check_index_ok by lia. simpl. rewrite E. by destruct x. }
  unfold set in Hset. rewrite check_index_ok in Hset by lia. simpl in Hset. rewrite E in Hset.
  rewrite Hset. simpl.
  destruct (wf_spans _ Hv) as (Ha & Hb & Hp').
  pose proof (words_for_bounds (width v) ltac:(lia)) as Hwf.
  assert (forall ws b j, span_ok (words_for (width v)) ws -> 0 <= j < width v ->
            read_bit (write_bit ws i b) j = if j =? i then b else read_bit ws j) as Hrd.
  { intros ws b j Hs Hj. apply read_write_bit; rewrite ?(span_size _ _ Hs); lia. }
  destruct Hv as [W1 W2 W3 W4 W5 W6]. rewrite E in *.
  split_and!; [|done|done|done|].
  - split; simpl; rewrite ?E; try done; apply plane_write_bit; done || lia.
  - intros j Hj. unfold at9; simpl. rewrite E. rewrite !Hrd by done.
    destruct (j =? i); [by rewrite logic4_of_bits_bits|done].
Qed.

(** ** Equality *)

Lemma words_equal_eq l r : words_equal l r = true <-> l = r.
Proof. unfold words_equal. by rewrite bool_decide_eq_true. Qed.

(** [operator==] decides equality of representation and of every element. *)
Lemma packed_eq_spec v1 v2 :
  wf v1 -> wf v2 ->
  packed_eq v1 v2 = true <->
  width v1 = width v2 /\ is_logic9 v1 = is_logic9 v2 /\
  forall i, 0 <= i < width v1 -> at9 v1 i = at9 v2 i.
Proof.
  intros H1 H2. split.
  - unfold packed_eq. intros H.
    destruct (Z.eqb_spec (width v1) (width v2)) as [Hw|]; [|done]. simpl in H.
    destruct (eqb _ _) eqn:E; [|done]. apply eqb_prop in E. simpl in H.
    split_and!; [done|done|]. intros i Hi.
    unfold at9. rewrite <- E. destruct (is_logic9 v1); simpl in H;
      rewrite !andb_true_iff, ?words_equal_eq in H.
    + unfold logic9_plane in H. rewrite <- !Hw in H.
      rewrite !(proj2 (Z.eqb_neq (width v1) 0)) in H by lia. simpl in H.
      destruct H as (-> & -> & -> & -> & _). done.
    + destruct H as (-> & -> & _). done.
  - intros (Hw & Hn & Hat).
    assert (copy v1 = copy v2) as Hc.
    { eapply Rep_unique; [by apply Rep_copy|].
      eapply Rep_ext; [rewrite Hw, Hn; by apply Rep_copy|].
      intros i Hi. symmetry. apply Hat. lia. }
    destruct v1 as [w n a b p q l], v2 as [w' n' a' b' p' q' l'].
    unfold copy in Hc; simpl in Hc. injection Hc as -> -> -> -> -> ->.
    unfold packed_eq; simpl. rewrite Z.eqb_refl, eqb_reflx. simpl.
    unfold words_equal. destruct n'; simpl; rewrite ?bool_decide_eq_true_2 by done; done.
Qed.

(** ** Loops that write a value element by element *)

Lemma Rep_set r w h i x : Rep r w false h -> 0 <= i < w ->
  returns (set r i x) (fun r' => Rep r' w false (fun j => if j =? i then to_logic9 x else h j)).
Proof.
  intros [R1 R2 R3 R4 R5] Hi. eapply returns_mono; [apply set_spec; [done|lia]|].
  intros r' (S1 & S2 & S3 & S4 & S5). split; try congruence. intros j Hj. rewrite S5 by lia.
  by rewrite R5.
Qed.

Lemma Rep_set9 r w h i x : Rep r w true h -> 0 <= i < w ->
  returns (set_logic9 r i x) (fun r' => Rep r' w true (fun j => if j =? i then x else h j)).
Proof.
  intros [R1 R2 R3 R4 R5] Hi. eapply returns_mono; [apply set_logic9_spec; [done|lia|by right]|].
  intros r' (S1 & S2 & S3 & S4 & S5). split; try congruence. intros j Hj. rewrite S5 by lia.
  by rewrite R5.
Qed.

(** A loop whose body gives element [i] its final value and leaves the rest. *)
Lemma element_loop w nine f g (body : Z -> PackedLogic4 -> Outcome PackedLogic4) r0 :
  0 <= w -> Rep r0 w nine f ->
  (forall i r h, 0 <= i < w -> Rep r w nine h -> h i = f i ->
     returns (body i r) (fun r' => Rep r' w nine (fun j => if j =? i then g i else h j))) ->
  returns (foreach (up 0 w) body r0) (fun r => Rep r w nine g).
Proof.
  intros Hw R0 Hbody.
  eapply returns_mono; [apply (foreach_up (fun i r => Rep r w nine (fun j => if j <? i then g j else f j)))|].
  - intros i r Hi R. eapply returns_mono; [apply (Hbody i r _ Hi R); by rewrite Z.ltb_irrefl|].
    intros r' R'. eapply Rep_ext; [exact R'|]. intros j Hj. cbv beta.
    destruct (Z.eqb_spec j i) as [->|]; [by rewrite (proj2 (Z.ltb_lt i (i + 1))) by lia|].
    by replace (j <? i + 1) with (j <? i) by (cases_ltb; lia).
  - lia.
  - eapply Rep_ext; [exact R0|]. intros j Hj. cbv beta. by rewrite (proj2 (Z.ltb_ge j 0)) by lia.
  - intros r HR. eapply Rep_ext; [exact HR|]. intros j Hj. cbv beta.
    by rewrite (proj2 (Z.ltb_lt j w)) by lia.
Qed.

(** Leaving element [i] alone when it already has its final value. *)
Lemma Rep_keep r w nine h i x : Rep r w nine h -> h i = x ->
  Rep r w nine (fun j => if j =? i then x else h j).
Proof.
  intros R E. eapply Rep_ext; [exact R|]. intros j Hj. cbv beta.
  by destruct (Z.eqb_spec j i) as [->|].
Qed.
