(* ===== verification/PackedRange.v ===== *)
(** * Contiguous ranges of a packed value

    Model of the range operations of class [PackedLogic4] in
    src/runtime/packed_value.cpp: replacing, comparing and extracting runs of
    elements a word at a time.  The theorems give each of them its
    element-by-element meaning. *)
From S2P Require Import Prelude Logic WordSpan LogicWord PackedLogic4.
Ltac Zify.zify_post_hook ::= Z.div_mod_to_equations.

(** The guard shared by the single-word range operations. *)
Definition word_range_outside (v : PackedLogic4) (source : Logic4Word) (offset : Z) : bool :=
  (l4w_width source =? 0) || (l4w_width source >? bits_per_word)
  || (offset >? width v) || (l4w_width source >? width v - offset).

Definition insert_word (v : PackedLogic4) (source : Logic4Word) (offset : Z)
    : Outcome PackedLogic4 :=
  if word_range_outside v source offset
  then Throw (invalid_argument "insert word range is outside its target value")
  else if negb (is_logic9 v) then
    Ok (mask_unused_bits (on_logic4_planes v
          (fun ws => copy_word_range ws (l4w_aval source) offset (l4w_width source))
          (fun ws => copy_word_range ws (l4w_bval source) offset (l4w_width source))))
  else
    let mask := final_word_mask (l4w_width source) in
    let aval := Z.land (l4w_aval source) mask in
    let bval := Z.land (l4w_bval source) mask in
    Ok (mask_unused_bits (on_logic9_planes v (fun plane ws =>
          copy_word_range ws
            (if plane =? 0 then aval else if plane =? 1 then not64 bval
             else if plane =? 2 then Z.land (not64 aval) bval else 0)
            offset (l4w_width source)))).

Definition matches_word (v : PackedLogic4) (source : Logic4Word) (offset : Z) : Outcome bool :=
  if word_range_outside v source offset
  then Throw (invalid_argument "word comparison range is outside its target value")
  else if is_logic9 v then Ok false
  else
    let mask := final_word_mask (l4w_width source) in
    if width v <=? bits_per_word then
      Ok ((Z.land (Z.shiftr (front (aval_words v)) offset) mask
             =? Z.land (l4w_aval source) mask)
          && (Z.land (Z.shiftr (front (bval_words v)) offset) mask
             =? Z.land (l4w_bval source) mask))
    else
      Ok ((read_word_range (aval_words v) offset (l4w_width source)
             =? Z.land (l4w_aval source) mask)
          && (read_word_range (bval_words v) offset (l4w_width source)
             =? Z.land (l4w_bval source) mask)).

(** [(word >> bit) & 1 != 0] *)
Definition word_bit (x bit : Z) : bool := negb (Z.land (Z.shiftr x bit) 1 =? 0).

Definition insert_masked_word (v : PackedLogic4) (source : Logic4Word) (mask offset : Z)
    : Outcome PackedLogic4 :=
  if word_range_outside v source offset
  then Throw (invalid_argument "masked insert word range is outside its target value")
  else
    let width_mask := final_word_mask (l4w_width source) in
    let mask := Z.land mask width_mask in
    if mask =? 0 then Ok v
    else if mask =? width_mask then insert_word v source offset
    else if is_logic9 v then
      foreach (up 0 (l4w_width source)) (fun bit v =>
        if negb (word_bit mask bit) then Ok v
        else
          let aval := word_bit (l4w_aval source) bit in
          let bval := word_bit (l4w_bval source) bit in
          set v (offset + bit)
            (if negb bval then (if aval then Logic4_one else Logic4_zero)
             else (if aval then Logic4_x else Logic4_z))) v
    else if offset mod bits_per_word =? 0 then
      let word := offset / bits_per_word in
      Ok (mask_unused_bits (on_logic4_planes v
        (fun aval => set_word aval word
           (Z.lor (Z.land (word_at aval word) (not64 mask)) (Z.land (l4w_aval source) mask)))
        (fun bval => set_word bval word
           (Z.lor (Z.land (word_at bval word) (not64 mask)) (Z.land (l4w_bval source) mask)))))
    else
      let current_aval := read_word_range (aval_words v) offset (l4w_width source) in
      let current_bval := read_word_range (bval_words v) offset (l4w_width source) in
      Ok (mask_unused_bits (on_logic4_planes v
        (fun ws => copy_word_range ws
           (Z.lor (Z.land current_aval (not64 mask)) (Z.land (l4w_aval source) mask))
           offset (l4w_width source))
        (fun ws => copy_word_range ws
           (Z.lor (Z.land current_bval (not64 mask)) (Z.land (l4w_bval source) mask))
           offset (l4w_width source)))).

Definition matches_masked_word (v : PackedLogic4) (source : Logic4Word) (mask offset : Z)
    : Outcome bool :=
  if word_range_outside v source offset
  then Throw (invalid_argument "masked word comparison range is outside its target value")
  else if is_logic9 v then Ok false
  else
    let mask := Z.land mask (final_word_mask (l4w_width source)) in
    if mask =? 0 then Ok true
    else if offset mod bits_per_word =? 0 then
      let word := offset / bits_per_word in
      Ok ((Z.land (Z.lxor (word_at (aval_words v) word) (l4w_aval source)) mask =? 0)
          && (Z.land (Z.lxor (word_at (bval_words v) word) (l4w_bval source)) mask =? 0))
    else
      Ok ((Z.land (Z.lxor (read_word_range (aval_words v) offset (l4w_width source))
                          (l4w_aval source)) mask =? 0)
          && (Z.land (Z.lxor (read_word_range (bval_words v) offset (l4w_width source))
                             (l4w_bval source)) mask =? 0)).

(** [source] is a value: the self-insertion branch of the C++ code first takes
    a copy of it, which is the same value. *)
Definition insert_bits (v source : PackedLogic4) (offset : Z) : Outcome PackedLogic4 :=
  if (width source =? 0) || (offset >? width v) || (width source >? width v - offset)
  then Throw (invalid_argument "insert range is outside its target value")
  else if negb (is_logic9 v) && negb (is_logic9 source) then
    Ok (mask_unused_bits (on_logic4_planes v
      (fun ws => copy_bit_range ws (aval_words source) offset (width source))
      (fun ws => copy_bit_range ws (bval_words source) offset (width source))))
  else
    v ← promote_to_logic9 v;
    promoted_source ← (if is_logic9 source then Ok source else promoted_to_logic9 source);
    Ok (mask_unused_bits (on_logic9_planes v (fun plane ws =>
          copy_bit_range ws (logic9_plane promoted_source plane) offset (width source)))).

Definition extract_bits (v : PackedLogic4) (offset w : Z) : Outcome PackedLogic4 :=
  if (w =? 0) || (offset >? width v) || (w >? width v - offset)
  then Throw (invalid_argument "extract range offset")
  else
    result ← make w Logic4_zero;
    if negb (is_logic9 v) then
      Ok (mask_unused_bits (on_logic4_planes result
        (fun ws => extract_bit_range (aval_words v) offset ws)
        (fun ws => extract_bit_range (bval_words v) offset ws)))
    else
      result ← promote_to_logic9 result;
      Ok (mask_unused_bits (on_logic9_planes result (fun plane ws =>
            extract_bit_range (logic9_plane v plane) offset ws))).

(** * Theorems *)

Lemma word_range_inside v source offset :
  0 < l4w_width source <= 64 -> 0 <= offset -> offset + l4w_width source <= width v ->
  word_range_outside v source offset = false.
Proof.
  intros. unfold word_range_outside, bits_per_word. rewrite !Z.gtb_ltb.
  destruct (Z.eqb_spec (l4w_width source) 0), (Z.ltb_spec 64 (l4w_width source)),
    (Z.ltb_spec (width v) offset), (Z.ltb_spec (width v - offset) (l4w_width source));
    done || lia.
Qed.

Lemma word_range_outside_true v source offset :
  word_range_outside v source offset = true <->
  l4w_width source = 0 \/ l4w_width source > 64 \/ offset > width v \/
  l4w_width source > width v - offset.
Proof.
  unfold word_range_outside, bits_per_word. rewrite !Z.gtb_ltb.
  destruct (Z.eqb_spec (l4w_width source) 0), (Z.ltb_spec 64 (l4w_width source)),
    (Z.ltb_spec (width v) offset), (Z.ltb_spec (width v - offset) (l4w_width source));
    simpl; split; intros; done || lia.
Qed.

(** What a partial update does: elements where [sel] holds take the value
    [new], all others and everything else stay. *)
Definition updated (v : PackedLogic4) (nine : bool) (sel : Z -> bool) (new : Z -> Logic9)
    (r : PackedLogic4) : Prop :=
  wf r /\ width r = width v /\ is_logic9 r = nine /\
  has_live_plane_backing r = has_live_plane_backing v /\
  forall j, 0 <= j < width v -> at9 r j = if sel j then new j else at9 v j.

(** Shared scheme for four-state range writes: rewrite both planes, then mask. *)
Lemma updated_logic4 v fa fb (sel : Z -> bool) (na nb : Z -> bool) :
  wf v -> is_logic9 v = false ->
  span_ok (words_for (width v)) (fa (aval_words v)) ->
  span_ok (words_for (width v)) (fb (bval_words v)) ->
  (forall j, 0 <= j < width v ->
     read_bit (fa (aval_words v)) j = if sel j then na j else read_bit (aval_words v) j) ->
  (forall j, 0 <= j < width v ->
     read_bit (fb (bval_words v)) j = if sel j then nb j else read_bit (bval_words v) j) ->
  updated v false sel (fun j => to_logic9 (logic4_of_bits (na j) (nb j)))
    (mask_unused_bits (on_logic4_planes v fa fb)).
Proof.
  intros Hv E Ha Hb Hra Hrb. destruct (wf_spans _ Hv) as (_ & _ & Hp). rewrite E in Hp.
  destruct Hp as [Hp2 Hp3]. unfold on_logic4_planes, updated. rewrite E, Hp2, Hp3.
  apply wf_mask_unused_bits; try done; [by apply Hv|].
  intros j Hj. unfold at9; simpl. rewrite E, Hra, Hrb by done. by destruct (sel j).
Qed.

(** The same for nine-state targets: [n0]..[n3] are the new code bits. *)
Lemma updated_logic9 v (f : Z -> list Z -> list Z) (sel : Z -> bool) (n : Z -> Z -> bool) :
  wf v -> is_logic9 v = true ->
  (forall p ws, span_ok (words_for (width v)) ws -> span_ok (words_for (width v)) (f p ws)) ->
  (forall p ws j, 0 <= p < 4 -> span_ok (words_for (width v)) ws -> 0 <= j < width v ->
     read_bit (f p ws) j = if sel j then n p j else read_bit ws j) ->
  (forall j, 0 <= j < width v -> sel j = true -> n 3 j = true ->
     n 0 j = false /\ n 1 j = false /\ n 2 j = false) ->
  updated v true sel (fun j => logic9_of_bits (n 0 j) (n 1 j) (n 2 j) (n 3 j))
    (mask_unused_bits (on_logic9_planes v f)).
Proof.
  intros Hv E Hs Hr Hc. destruct (wf_spans _ Hv) as (Ha & Hb & Hp). rewrite E in Hp.
  destruct Hp as [Hp2 Hp3]. pose proof (wf_codes _ Hv E) as Hcode.
  unfold on_logic9_planes, updated. rewrite E.
  apply wf_mask_unused_bits; auto; [by apply Hv| |].
  - intros _ j Hj. rewrite !Hr by (done || lia).
    destruct (sel j) eqn:?; [by apply Hc|by apply Hcode].
  - intros j Hj. unfold at9; simpl. rewrite E, !Hr by (done || lia). by destruct (sel j).
Qed.

Lemma updated_ext v nine sel new sel' new' r :
  (forall j, 0 <= j < width v -> sel j = sel' j) ->
  (forall j, 0 <= j < width v -> sel j = true -> new j = new' j) ->
  updated v nine sel new r -> updated v nine sel' new' r.
Proof.
  intros Hsel Hnew (H1 & H2 & H3 & H4 & H5). split_and!; try done.
  intros j Hj. rewrite H5, <- Hsel by done. destruct (sel j) eqn:?; [by apply Hnew|done].
Qed.

Definition in_range (offset w j : Z) : bool := (offset <=? j) && (j <? offset + w).

Lemma in_range_true offset w j : in_range offset w j = true <-> offset <= j < offset + w.
Proof. unfold in_range. rewrite andb_true_iff. lia. Qed.

(** [insert_word] writes the elements of a single-word value, in either
    representation of the target. *)
Lemma insert_word_spec v source offset :
  wf v -> 0 < l4w_width source <= 64 -> 0 <= offset ->
  offset + l4w_width source <= width v ->
  returns (insert_word v source offset)
    (updated v (is_logic9 v) (in_range offset (l4w_width source))
       (fun j => to_logic9 (logic4_word_bit source (j - offset)))).
Proof.
  intros Hv Hs Ho Hw. unfold insert_word. rewrite word_range_inside by done.
  pose proof (words_for_bounds (width v) ltac:(apply Hv)) as Hwf.
  assert (forall ws x, span_ok (words_for (width v)) ws ->
    span_ok (words_for (width v)) (copy_word_range ws x offset (l4w_width source)) /\
    forall j, 0 <= j -> read_bit (copy_word_range ws x offset (l4w_width source)) j =
      if in_range offset (l4w_width source) j then Z.testbit x (j - offset) else read_bit ws j)
    as Hcopy.
  { intros ws x Hws. apply copy_word_range_spec; [done|lia|lia|lia]. }
  destruct (wf_spans _ Hv) as (Ha & Hb & _).
  destruct (is_logic9 v) eqn:E; simpl.
  - set (n := fun p j => Z.testbit
      (if p =? 0 then Z.land (l4w_aval source) (final_word_mask (l4w_width source))
       else if p =? 1 then not64 (Z.land (l4w_bval source) (final_word_mask (l4w_width source)))
       else if p =? 2 then Z.land (not64 (Z.land (l4w_aval source) (final_word_mask (l4w_width source))))
                             (Z.land (l4w_bval source) (final_word_mask (l4w_width source)))
       else 0) (j - offset)).
    eapply updated_ext; [done| |apply (updated_logic9 v _ _ n)]; try done.
    + intros j Hj Hr. apply in_range_true in Hr. unfold n, logic4_word_bit; simpl.
      autorewrite with fsim_bits. rewrite testbit_final_word_mask_narrow by lia.
      rewrite (proj2 (Z.ltb_lt (j - offset) (l4w_width source))),
        (proj2 (Z.ltb_lt (j - offset) 64)) by lia.
      destruct (Z.testbit (l4w_aval source) (j - offset)),
        (Z.testbit (l4w_bval source) (j - offset)); done.
    + intros p ws Hws. by apply Hcopy.
    + intros p ws j Hp Hws Hj. apply Hcopy; [done|lia].
    + intros j Hj _. unfold n; simpl. by rewrite Z.bits_0.
  - eapply updated_ext; [done| |apply (updated_logic4 v _ _ (in_range offset (l4w_width source))
      (fun j => Z.testbit (l4w_aval source) (j - offset))
      (fun j => Z.testbit (l4w_bval source) (j - offset)))]; try done.
    1,2: by apply Hcopy.
    1,2: intros j Hj; apply Hcopy; [done|lia].
Qed.

(** Extraction into a plane of [w] bits from a plane of [n] bits. *)
Lemma extract_plane n w offset src ws :
  span_ok (words_for n) src -> span_ok (words_for w) ws -> 0 < w -> 0 <= offset ->
  span_ok (words_for w) (extract_bit_range src offset ws) /\
  forall j, 0 <= j < w -> read_bit (extract_bit_range src offset ws) j = read_bit src (offset + j).
Proof.
  intros Hsrc Hws Hw Ho. pose proof (words_for_bounds w ltac:(lia)).
  edestruct (extract_bit_range_spec (words_for w) src offset ws) as [H1 H2]; [done|apply Hsrc|lia|].
  split; [done|]. intros j Hj. apply H2. lia.
Qed.

(** The planes of a nine-state value hold whole words and its codes. *)
Lemma logic9_plane_span v p : wf v -> is_logic9 v = true -> 0 < width v -> 0 <= p < 4 ->
  span_ok (words_for (width v)) (logic9_plane v p).
Proof.
  intros Hv E Hw Hp. destruct (wf_spans _ Hv) as (Ha & Hb & Hpl). rewrite E in Hpl.
  destruct Hpl as [Hp2 Hp3]. unfold logic9_plane.
  rewrite (proj2 (Z.eqb_neq (width v) 0)) by lia. simpl. destruct (Z.geb_spec p 4); [lia|].
  destruct (p =? 0); [done|]. destruct (p =? 1); [done|]. by destruct (p =? 2).
Qed.

Lemma logic9_plane_u64 v p : wf v -> is_logic9 v = true -> 0 < width v ->
  Forall is_u64 (logic9_plane v p).
Proof.
  intros Hv E Hw. destruct (wf_spans _ Hv) as (Ha & Hb & Hp). rewrite E in Hp. destruct Hp as [Hp2 Hp3].
  unfold logic9_plane. destruct (_ || _); [constructor|].
  destruct (p =? 0); [apply Ha|]. destruct (p =? 1); [apply Hb|].
  destruct (p =? 2); [apply Hp2|apply Hp3].
Qed.

Lemma logic9_plane_at v i : wf v -> is_logic9 v = true -> 0 < width v ->
  at9 v i = logic9_of_bits (read_bit (logic9_plane v 0) i) (read_bit (logic9_plane v 1) i)
              (read_bit (logic9_plane v 2) i) (read_bit (logic9_plane v 3) i).
Proof.
  intros Hv E Hw. unfold at9, logic9_plane. rewrite E.
  by rewrite (proj2 (Z.eqb_neq (width v) 0)) by lia.
Qed.

Lemma logic9_plane_codes v i : wf v -> is_logic9 v = true -> 0 <= i < width v ->
  read_bit (logic9_plane v 3) i = true ->
  read_bit (logic9_plane v 0) i = false /\ read_bit (logic9_plane v 1) i = false /\
  read_bit (logic9_plane v 2) i = false.
Proof.
  intros Hv E Hi. unfold logic9_plane. rewrite (proj2 (Z.eqb_neq (width v) 0)) by lia. simpl.
  by apply (wf_codes _ Hv E).
Qed.

Lemma extract_nine v r offset w :
  wf v -> is_logic9 v = true -> 0 < w -> 0 <= offset -> offset + w <= width v ->
  wf r -> is_logic9 r = true -> width r = w ->
  updated r true (fun _ => true) (fun j => at9 v (offset + j))
    (mask_unused_bits (on_logic9_planes r (fun plane ws =>
       extract_bit_range (logic9_plane v plane) offset ws))).
Proof.
  intros Hv E Hw Ho Hle Hr Er Wr.
  eapply updated_ext; [done| |apply (updated_logic9 r _ (fun _ => true)
    (fun p j => read_bit (logic9_plane v p) (offset + j)))]; try done.
  - intros j Hj _. symmetry. apply logic9_plane_at; done || lia.
  - intros p ws. rewrite Wr. intros Hws.
    edestruct (extract_bit_range_spec (words_for w) (logic9_plane v p) offset ws); try done.
    apply logic9_plane_u64; done || lia.
  - intros p ws j Hp. rewrite Wr. intros Hws Hj.
    apply (extract_plane (width v) w); try done. apply logic9_plane_span; done || lia.
  - intros j Hj _. apply logic9_plane_codes; done || lia.
Qed.

Lemma extract_four v r offset w :
  wf v -> is_logic9 v = false -> 0 < w -> 0 <= offset -> offset + w <= width v ->
  wf r -> is_logic9 r = false -> width r = w ->
  updated r false (fun _ => true) (fun j => at9 v (offset + j))
    (mask_unused_bits (on_logic4_planes r
       (fun ws => extract_bit_range (aval_words v) offset ws)
       (fun ws => extract_bit_range (bval_words v) offset ws))).
Proof.
  intros Hv E Hw Ho Hle Hr Er Wr. destruct (wf_spans _ Hv) as (Ha & Hb & _).
  destruct (wf_spans _ Hr) as (Hra & Hrb & _). rewrite Wr in Hra, Hrb.
  eapply updated_ext; [done| |apply (updated_logic4 r _ _ (fun _ => true)
    (fun j => read_bit (aval_words v) (offset + j))
    (fun j => read_bit (bval_words v) (offset + j)))]; try done.
  1: intros j Hj _; unfold at9; by rewrite E.
  all: rewrite Wr; by apply (extract_plane (width v) w).
Qed.

(** [extract_bits] returns the addressed elements, keeping the representation. *)
Lemma extract_bits_spec v offset w :
  wf v -> 0 < w -> 0 <= offset -> offset + w <= width v ->
  returns (extract_bits v offset w) (fun r => Rep r w (is_logic9 v) (fun i => at9 v (offset + i))).
Proof.
  intros Hv Hw Ho Hle. unfold extract_bits. rewrite !Z.gtb_ltb.
  rewrite (proj2 (Z.eqb_neq w 0)), (proj2 (Z.ltb_ge (width v) offset)),
    (proj2 (Z.ltb_ge (width v - offset) w)) by lia. simpl.
  pose proof (wf_width _ Hv).
  apply returns_bind. eapply returns_mono; [apply make_spec; lia|].
  intros r [Hr Hrw Hr9 Hrl Hra].
  destruct (is_logic9 v) eqn:E; simpl.
  - apply returns_bind. eapply returns_mono; [apply promote_to_logic9_spec; [done|by left]|].
    intros r2 (R1 & R2 & R3 & R4 & R5). simpl.
    destruct (extract_nine v r2 offset w) as (W1 & W2 & W3 & W4 & W5); try done; [congruence|].
    split; [done|congruence|done|congruence|]. intros i Hi. by rewrite W5 by congruence.
  - destruct (extract_four v r offset w) as (W1 & W2 & W3 & W4 & W5); try done.
    split; [done|congruence|done|congruence|]. intros i Hi. by rewrite W5 by congruence.
Qed.

(** Copying a plane of the source into the addressed range of a plane. *)
Lemma copy_plane n offset w ws src :
  span_ok (words_for n) ws -> Forall is_u64 src -> 0 < w -> 0 <= offset -> offset + w <= n ->
  span_ok (words_for n) (copy_bit_range ws src offset w) /\
  forall j, 0 <= j -> read_bit (copy_bit_range ws src offset w) j =
    if in_range offset w j then read_bit src (j - offset) else read_bit ws j.
Proof.
  intros Hws Hu Hw Ho Hle. pose proof (words_for_bounds n ltac:(lia)).
  apply copy_bit_range_spec; done || lia.
Qed.

Lemma insert_nine v s offset :
  wf v -> is_logic9 v = true -> wf s -> is_logic9 s = true -> 0 < width s -> 0 <= offset ->
  offset + width s <= width v ->
  updated v true (in_range offset (width s)) (fun j => at9 s (j - offset))
    (mask_unused_bits (on_logic9_planes v (fun plane ws =>
       copy_bit_range ws (logic9_plane s plane) offset (width s)))).
Proof.
  intros Hv Ev Hs Es Hw Ho Hle.
  assert (forall p, Forall is_u64 (logic9_plane s p)) as Hpl by (intros p; by apply logic9_plane_u64).
  eapply updated_ext; [done| |apply (updated_logic9 v _ (in_range offset (width s))
    (fun p j => read_bit (logic9_plane s p) (j - offset)))]; try done.
  - intros j Hj Hr. symmetry. by apply logic9_plane_at.
  - intros p ws Hws. by apply (copy_plane (width v)).
  - intros p ws j Hp Hws Hj. apply (copy_plane (width v)); done || lia.
  - intros j Hj Hr. apply in_range_true in Hr. apply logic9_plane_codes; done || lia.
Qed.

Lemma insert_four v s offset :
  wf v -> is_logic9 v = false -> wf s -> is_logic9 s = false -> 0 < width s -> 0 <= offset ->
  offset + width s <= width v ->
  updated v false (in_range offset (width s)) (fun j => at9 s (j - offset))
    (mask_unused_bits (on_logic4_planes v
      (fun ws => copy_bit_range ws (aval_words s) offset (width s))
      (fun ws => copy_bit_range ws (bval_words s) offset (width s)))).
Proof.
  intros Hv Ev Hs Es Hw Ho Hle. destruct (wf_spans _ Hv) as (Ha & Hb & _).
  destruct (wf_spans _ Hs) as (Hsa & Hsb & _).
  eapply updated_ext; [done| |apply (updated_logic4 v _ _ (in_range offset (width s))
    (fun j => read_bit (aval_words s) (j - offset))
    (fun j => read_bit (bval_words s) (j - offset)))]; try done.
  1: intros j Hj _; unfold at9; by rewrite Es.
  1,2: apply (copy_plane (width v)); done || apply Hsa || apply Hsb.
  all: intros j Hj; apply (copy_plane (width v)); lia || done || apply Hsa || apply Hsb.
Qed.

(** [insert_bits] overwrites exactly the addressed elements; inserting a
    nine-state value promotes the target. *)
Lemma insert_bits_spec v source offset :
  wf v -> wf source -> 0 < width source -> 0 <= offset -> offset + width source <= width v ->
  has_live_plane_backing v = false \/ is_logic9 v = true ->
  returns (insert_bits v source offset)
    (updated v (is_logic9 v || is_logic9 source) (in_range offset (width source))
       (fun j => at9 source (j - offset))).
Proof.
  intros Hv Hsrc Hw Ho Hle Hl. unfold insert_bits. rewrite !Z.gtb_ltb.
  rewrite (proj2 (Z.eqb_neq (width source) 0)), (proj2 (Z.ltb_ge (width v) offset)),
    (proj2 (Z.ltb_ge (width v - offset) (width source))) by lia. simpl.
  destruct (negb (is_logic9 v) && negb (is_logic9 source)) eqn:E.
  { apply andb_true_iff in E as [E1 E2]. apply negb_true_iff in E1, E2. rewrite E1, E2.
    by apply insert_four. }
  replace (is_logic9 v || is_logic9 source) with true
    by (destruct (is_logic9 v), (is_logic9 source); done).
  apply returns_bind. eapply returns_mono; [by apply promote_to_logic9_spec|].
  intros v2 (V1 & V2 & V3 & V4 & V5). apply returns_bind.
  assert (returns (if is_logic9 source then Ok source else promoted_to_logic9 source)
    (fun s => wf s /\ width s = width source /\ is_logic9 s = true /\
       forall i, 0 <= i < width source -> at9 s i = at9 source i)) as Hps.
  { destruct (is_logic9 source) eqn:?; [done|].
    eapply returns_mono; [by apply promoted_to_logic9_spec|]. by intros s []. }
  eapply returns_mono; [exact Hps|]. intros s (S1 & S2 & S3 & S4). simpl. rewrite <- S2 in *.
  destruct (insert_nine v2 s offset) as (W1 & W2 & W3 & W4 & W5); try done; [congruence|].
  split_and!; [done|congruence|done|congruence|].
  intros j Hj. rewrite W5 by congruence.
  destruct (in_range offset (width s) j) eqn:Er; [|by apply V5].
  apply in_range_true in Er. apply S4. lia.
Qed.

Lemma word_bit_testbit x t : 0 <= t -> word_bit x t = Z.testbit x t.
Proof. apply code_bit_testbit. Qed.

(** Equality of two words under a mask, bit by bit. *)
Lemma eq_by_bits x y (sel : Z -> bool) :
  (forall t, 0 <= t -> sel t = false -> Z.testbit x t = false /\ Z.testbit y t = false) ->
  (x =? y) = true <-> forall t, 0 <= t -> sel t = true -> Z.testbit x t = Z.testbit y t.
Proof.
  intros Hsel. rewrite Z.eqb_eq. split; [by intros ->|]. intros H.
  apply Z.bits_inj'. intros t Ht. destruct (sel t) eqn:E; [by apply H|].
  by destruct (Hsel t Ht E) as [-> ->].
Qed.

Lemma masked_xor_zero x y m :
  (Z.land (Z.lxor x y) m =? 0) = true <->
  forall t, 0 <= t -> Z.testbit m t = true -> Z.testbit x t = Z.testbit y t.
Proof.
  rewrite (eq_by_bits _ 0 (Z.testbit m)).
  - split; intros H t Ht E; specialize (H t Ht E); revert H; autorewrite with fsim_bits; rewrite E;
      by destruct (Z.testbit x t), (Z.testbit y t).
  - intros t Ht E. rewrite Z.land_spec, E, andb_false_r. by rewrite Z.bits_0.
Qed.

(** The element-wise meaning of a comparison against a single-word value. *)
Definition word_matches (v : PackedLogic4) (source : Logic4Word) (sel : Z -> bool) (offset : Z) : Prop :=
  forall t, 0 <= t < l4w_width source -> sel t = true ->
    at9 v (offset + t) = to_logic9 (logic4_word_bit source t).

Lemma word_matches_planes v source sel offset :
  is_logic9 v = false ->
  word_matches v source sel offset <->
  forall t, 0 <= t < l4w_width source -> sel t = true ->
    read_bit (aval_words v) (offset + t) = Z.testbit (l4w_aval source) t /\
    read_bit (bval_words v) (offset + t) = Z.testbit (l4w_bval source) t.
Proof.
  intros E. unfold word_matches, at9, logic4_word_bit. rewrite E.
  split; intros H t Ht Hs; specialize (H t Ht Hs).
  - apply logic4_of_bits_inj. by apply to_logic9_inj.
  - by destruct H as [-> ->].
Qed.

(** The two ways [matches_word] reads a plane compare it to a word. *)
Lemma plane_range_equals n ws x offset w :
  span_ok (words_for n) ws -> 0 < w <= 64 -> 0 <= offset -> offset + w <= n ->
  let m := final_word_mask w in
  ((if n <=? bits_per_word then Z.land (Z.shiftr (front ws) offset) m
    else read_word_range ws offset w) =? Z.land x m) = true <->
  forall t, 0 <= t < w -> read_bit ws (offset + t) = Z.testbit x t.
Proof.
  intros Hws Hw Ho Hle m.
  assert (forall t, 0 <= t -> Z.testbit m t = (t <? w)) as Hm.
  { intros t Ht. by apply testbit_final_word_mask_narrow. }
  assert (forall t, 0 <= t -> Z.testbit
    (if n <=? bits_per_word then Z.land (Z.shiftr (front ws) offset) m
     else read_word_range ws offset w) t = (t <? w) && read_bit ws (offset + t)) as Hbit.
  { intros t Ht. destruct (Z.leb_spec n bits_per_word) as [Hn|].
    - unfold bits_per_word in Hn. rewrite Z.land_spec, testbit_shiftr, Hm, andb_comm by lia.
      destruct (Z.ltb_spec t w); [|done]. rewrite read_bit_testbit by lia. unfold front. simpl.
      by replace ((offset + t) / 64) with 0 by lia;
        replace ((offset + t) mod 64) with (t + offset) by lia.
    - apply testbit_read_word_range; [apply Hws|lia|lia|lia]. }
  rewrite (eq_by_bits _ _ (fun t => t <? w)).
  - split; intros H t Ht.
    + specialize (H t ltac:(lia) ltac:(lia)). rewrite Hbit, Z.land_spec, Hm in H by lia.
      rewrite (proj2 (Z.ltb_lt t w)) in H by lia. by rewrite andb_true_r in H.
    + intros Hlt. rewrite Hbit, Z.land_spec, Hm by lia. rewrite H by lia.
      by rewrite Hlt, andb_true_r.
  - intros t Ht Hlt. rewrite Hbit, Z.land_spec, Hm, Hlt by lia. by rewrite andb_false_r.
Qed.

(** [matches_word] decides element equality; a nine-state value never matches. *)
Lemma matches_word_spec v source offset :
  wf v -> 0 < l4w_width source <= 64 -> 0 <= offset -> offset + l4w_width source <= width v ->
  returns (matches_word v source offset) (fun b =>
    b = true <-> is_logic9 v = false /\ word_matches v source (fun _ => true) offset).
Proof.
  intros Hv Hs Ho Hw. unfold matches_word. rewrite word_range_inside by done.
  destruct (is_logic9 v) eqn:E; [simpl; split; [done|by intros []]|].
  pose proof (word_matches_planes v source (fun _ => true) offset E) as Hwm.
  destruct (wf_spans _ Hv) as (Ha & Hb & _).
  pose proof (plane_range_equals (width v) _ (l4w_aval source) offset _ Ha Hs Ho Hw) as HA.
  pose proof (plane_range_equals (width v) _ (l4w_bval source) offset _ Hb Hs Ho Hw) as HB.
  cbv zeta in HA, HB. destruct (width v <=? bits_per_word); simpl;
    rewrite andb_true_iff, HA, HB, Hwm;
    (split; [intros [? ?]; split; auto | intros [_ H]; by split; intros t Ht; apply H]).
Qed.

Lemma testbit_read_aligned ws offset t :
  offset mod 64 = 0 -> 0 <= offset -> 0 <= t < 64 ->
  Z.testbit (word_at ws (offset / 64)) t = read_bit ws (offset + t).
Proof.
  intros E Ho Ht. rewrite read_bit_testbit by lia.
  by replace ((offset + t) / 64) with (offset / 64) by lia;
    replace ((offset + t) mod 64) with t by lia.
Qed.

Lemma conj_forall {A} (P S : A -> Prop) (Q R : A -> Prop) :
  (forall t, P t -> S t -> Q t) /\ (forall t, P t -> S t -> R t) <->
  false = false /\ forall t, P t -> S t -> Q t /\ R t.
Proof.
  split; [intros [? ?]; split; auto|].
  intros [_ H]. split; intros t HP HS; by apply (H t HP HS).
Qed.

(** [matches_masked_word] compares only the selected elements. *)
Lemma matches_masked_word_spec v source mask offset :
  wf v -> 0 < l4w_width source <= 64 -> 0 <= offset -> offset + l4w_width source <= width v ->
  returns (matches_masked_word v source mask offset) (fun b =>
    b = true <-> is_logic9 v = false /\ word_matches v source (Z.testbit mask) offset).
Proof.
  intros Hv Hs Ho Hw. unfold matches_masked_word. rewrite word_range_inside by done.
  destruct (is_logic9 v) eqn:E; [simpl; split; [done|by intros []]|].
  pose proof (word_matches_planes v source (Z.testbit mask) offset E) as Hwm.
  destruct (wf_spans _ Hv) as (Ha & Hb & _).
  set (w := l4w_width source) in *. set (m := Z.land mask (final_word_mask w)).
  assert (forall t, 0 <= t -> Z.testbit m t = Z.testbit mask t && (t <? w)) as Hm.
  { intros t Ht. unfold m. by rewrite Z.land_spec, testbit_final_word_mask_narrow by lia. }
  assert (forall ws x y, span_ok (words_for (width v)) ws ->
    (forall t, 0 <= t < w -> Z.testbit y t = read_bit ws (offset + t)) ->
    (Z.land (Z.lxor y x) m =? 0) = true <->
    forall t, 0 <= t < w -> Z.testbit mask t = true -> read_bit ws (offset + t) = Z.testbit x t)
    as Hplane.
  { intros ws x y Hws Hy. rewrite masked_xor_zero. split; intros H t.
    - intros Ht Hmt. rewrite <- Hy by done. apply H; [lia|].
      rewrite Hm, Hmt by lia. simpl. lia.
    - intros Ht Hmt. rewrite Hm in Hmt by lia. apply andb_true_iff in Hmt as [? Hlt].
      rewrite Hy by lia. apply H; [lia|done]. }
  assert (forall ws t, span_ok (words_for (width v)) ws -> 0 <= t < w ->
    Z.testbit (read_word_range ws offset w) t = read_bit ws (offset + t)) as Hrange.
  { intros ws t Hws Ht. rewrite testbit_read_word_range by (apply Hws || lia).
    by rewrite (proj2 (Z.ltb_lt t w)) by lia. }
  destruct (Z.eqb_spec m 0) as [Em|_].
  { simpl. split; [|done]. intros _. split; [done|]. apply Hwm. intros t Ht Hmt. exfalso.
    assert (Z.testbit m t = false) as Hf by (rewrite Em; apply Z.bits_0).
    rewrite Hm, Hmt in Hf by lia. simpl in Hf. lia. }
  unfold bits_per_word. destruct (Z.eqb_spec (offset mod 64) 0) as [Eo|_]; simpl;
    rewrite andb_true_iff, Hwm.
  - rewrite (Hplane (aval_words v)), (Hplane (bval_words v)); [|done| |done|];
      [by apply conj_forall|..]; intros t Ht; apply testbit_read_aligned; lia.
  - rewrite (Hplane (aval_words v)), (Hplane (bval_words v)); [|done| |done|];
      [by apply conj_forall|..]; intros t Ht; by apply Hrange.
Qed.

Lemma updated_refl v : wf v -> updated v (is_logic9 v) (fun _ => false) (fun _ => Logic9_u) v.
Proof. done. Qed.

(** The element loop used for a masked insertion into a nine-state value. *)
Lemma insert_masked_logic9_loop v source mask offset :
  wf v -> is_logic9 v = true ->
  0 < l4w_width source <= 64 -> 0 <= offset -> offset + l4w_width source <= width v ->
  returns
    (foreach (up 0 (l4w_width source)) (fun bit v =>
        if negb (word_bit mask bit) then Ok v
        else
          let aval := word_bit (l4w_aval source) bit in
          let bval := word_bit (l4w_bval source) bit in
          set v (offset + bit)
            (if negb bval then (if aval then Logic4_one else Logic4_zero)
             else (if aval then Logic4_x else Logic4_z))) v)
    (updated v true
       (fun j => in_range offset (l4w_width source) j && Z.testbit mask (j - offset))
       (fun j => to_logic9 (logic4_word_bit source (j - offset)))).
Proof.
  intros Hv E Hs Ho Hw. eapply returns_mono.
  - apply (foreach_up (fun i r => updated v true
       (fun j => in_range offset i j && Z.testbit mask (j - offset))
       (fun j => to_logic9 (logic4_word_bit source (j - offset))) r)); [|lia|].
    + intros i r Hi (R1 & R2 & R3 & R4 & R5). rewrite word_bit_testbit by lia.
      destruct (Z.testbit mask i) eqn:Em; simpl.
      * eapply returns_mono; [apply set_spec; [done|lia]|].
        intros r2 (S1 & S2 & S3 & S4 & S5).
        split_and!; [done|congruence|congruence|congruence|].
        intros j Hj. rewrite S5, R5 by lia. rewrite !word_bit_testbit by lia.
        destruct (Z.eqb_spec j (offset + i)) as [->|].
        -- replace (in_range offset (i + 1) (offset + i)) with true
             by (symmetry; apply in_range_true; lia).
           replace (offset + i - offset) with i by lia. by rewrite Em.
        -- by replace (in_range offset (i + 1) j) with (in_range offset i j)
             by (unfold in_range; cases_ltb; simpl; lia).
      * split_and!; [done..|]. intros j Hj. rewrite R5 by lia.
        destruct (Z.eq_dec j (offset + i)) as [->|].
        -- replace (offset + i - offset) with i by lia. rewrite Em. by rewrite !andb_false_r.
        -- by replace (in_range offset (i + 1) j) with (in_range offset i j)
             by (unfold in_range; cases_ltb; simpl; lia).
    + split_and!; [done..|]. intros j Hj.
      by replace (in_range offset 0 j) with false by (unfold in_range; cases_ltb; simpl; lia).
  - done.
Qed.

(** A plane after a masked insertion, word-aligned and unaligned. *)
Lemma masked_plane_aligned n ws x m offset w :
  span_ok (words_for n) ws -> 0 < w <= 64 -> 0 <= offset -> offset + w <= n -> offset mod 64 = 0 ->
  is_u64 m -> (forall t, w <= t -> Z.testbit m t = false) ->
  let word := offset / 64 in
  let d := set_word ws word (Z.lor (Z.land (word_at ws word) (not64 m)) (Z.land x m)) in
  span_ok (words_for n) d /\ forall j, 0 <= j < n -> read_bit d j =
    if in_range offset w j && Z.testbit m (j - offset) then Z.testbit x (j - offset) else read_bit ws j.
Proof.
  intros Hws Hw Ho Hle Eo Hm Hhigh word d. pose proof (words_for_bounds n ltac:(lia)) as Hwf.
  pose proof (span_u64 _ _ Hws). split.
  { apply span_set_word; [done|]. apply is_u64_lor; [auto with fsim|by apply is_u64_land_r]. }
  intros j Hj. unfold d, word. rewrite read_bit_set_word by (rewrite ?(span_size _ _ Hws); lia).
  destruct (Z.eqb_spec (j / 64) (offset / 64)) as [Ej|Ej].
  2:{ destruct (in_range offset w j) eqn:Er; [apply in_range_true in Er; lia|done]. }
  rewrite <- Ej. autorewrite with fsim_bits. rewrite (proj2 (Z.ltb_lt (j mod 64) 64)) by lia.
  rewrite <- read_bit_testbit by lia. replace (j - offset) with (j mod 64) by lia.
  replace (in_range offset w j) with (j mod 64 <? w) by (unfold in_range; cases_ltb; simpl; lia).
  destruct (Z.ltb_spec (j mod 64) w) as [|Hge]; [|rewrite (Hhigh _ Hge)];
    [destruct (Z.testbit m (j mod 64))|]; simpl; by rewrite ?andb_true_r, ?andb_false_r, ?orb_false_r.
Qed.

Lemma masked_plane_unaligned n ws x m offset w :
  span_ok (words_for n) ws -> 0 < w <= 64 -> 0 <= offset -> offset + w <= n ->
  let d := copy_word_range ws
    (Z.lor (Z.land (read_word_range ws offset w) (not64 m)) (Z.land x m)) offset w in
  span_ok (words_for n) d /\ forall j, 0 <= j < n -> read_bit d j =
    if in_range offset w j && Z.testbit m (j - offset) then Z.testbit x (j - offset) else read_bit ws j.
Proof.
  intros Hws Hw Ho Hle d. pose proof (words_for_bounds n ltac:(lia)).
  edestruct (copy_word_range_spec (words_for n) ws
    (Z.lor (Z.land (read_word_range ws offset w) (not64 m)) (Z.land x m)) offset w) as [H1 H2];
    [done|lia|lia|lia|].
  split; [done|]. intros j Hj. unfold d. rewrite H2 by lia. fold (in_range offset w j).
  destruct (in_range offset w j) eqn:Er; [|done]. apply in_range_true in Er.
  autorewrite with fsim_bits. rewrite testbit_read_word_range by (apply Hws || lia).
  rewrite (proj2 (Z.ltb_lt (j - offset) 64)), (proj2 (Z.ltb_lt (j - offset) w)) by lia.
  replace (offset + (j - offset)) with j by lia. simpl.
  destruct (Z.testbit m (j - offset)); simpl; by rewrite ?andb_true_r, ?andb_false_r, ?orb_false_r.
Qed.

(** [insert_masked_word] replaces exactly the selected elements on each of its
    paths: nothing selected, everything selected, nine-state, word-aligned and
    unaligned. *)
Lemma insert_masked_word_spec v source mask offset :
  wf v -> 0 < l4w_width source <= 64 -> 0 <= offset -> offset + l4w_width source <= width v ->
  returns (insert_masked_word v source mask offset)
    (updated v (is_logic9 v)
       (fun j => in_range offset (l4w_width source) j && Z.testbit mask (j - offset))
       (fun j => to_logic9 (logic4_word_bit source (j - offset)))).
Proof.
  intros Hv Hs Ho Hw. unfold insert_masked_word. rewrite word_range_inside by done.
  set (w := l4w_width source) in *. set (m := Z.land mask (final_word_mask w)).
  assert (forall t, 0 <= t -> Z.testbit m t = Z.testbit mask t && (t <? w)) as Hm.
  { intros t Ht. unfold m. by rewrite Z.land_spec, testbit_final_word_mask_narrow by lia. }
  assert (forall j, in_range offset w j && Z.testbit m (j - offset) =
                    in_range offset w j && Z.testbit mask (j - offset)) as Hsel.
  { intros j. destruct (in_range offset w j) eqn:Er; [|done]. apply in_range_true in Er.
    rewrite Hm by lia. rewrite (proj2 (Z.ltb_lt _ _)) by lia. by rewrite andb_true_r. }
  destruct (Z.eqb_spec m 0) as [Em|_].
  { simpl. eapply updated_ext; [| |by apply updated_refl]; [|done].
    intros j Hj. cbv beta. rewrite <- Hsel, Em, Z.bits_0. by rewrite andb_false_r. }
  destruct (Z.eqb_spec m (final_word_mask w)) as [Em|_].
  { eapply returns_mono; [by apply insert_word_spec|]. intros r. apply updated_ext; [|done].
    intros j Hj. rewrite <- Hsel, Em. fold w. destruct (in_range offset w j) eqn:Er; [|done].
    apply in_range_true in Er. rewrite testbit_final_word_mask_narrow by lia. simpl. lia. }
  destruct (is_logic9 v) eqn:E.
  { eapply returns_mono; [by apply insert_masked_logic9_loop|]. intros r.
    apply updated_ext; [|done]. intros j Hj. apply Hsel. }
  destruct (wf_spans _ Hv) as (Ha & Hb & _).
  assert (is_u64 m) as Hmu by (apply is_u64_land_r, is_u64_final_word_mask).
  assert (forall t, w <= t -> Z.testbit m t = false) as Hhigh.
  { intros t Ht. rewrite Hm by lia. by rewrite (proj2 (Z.ltb_ge t w)), andb_false_r by lia. }
  unfold bits_per_word. destruct (Z.eqb_spec (offset mod 64) 0) as [Eo|_]; simpl;
    [ pose proof (fun ws x H =>
        masked_plane_aligned (width v) ws x m offset w H Hs Ho Hw Eo Hmu Hhigh) as HP
    | pose proof (fun ws x H => masked_plane_unaligned (width v) ws x m offset w H Hs Ho Hw) as HP ];
    cbv zeta in HP;
    (eapply updated_ext; [intros; apply Hsel| |apply (updated_logic4 v _ _
      (fun j => in_range offset w j && Z.testbit m (j - offset))
      (fun j => Z.testbit (l4w_aval source) (j - offset))
      (fun j => Z.testbit (l4w_bval source) (j - offset)))]; try done);
    by apply HP.
Qed.
