(* ===== verification/PackedConvert.v ===== *)
(** * Conversions of the packed value

    Model of the functions of class [PackedLogic4] in
    src/runtime/packed_value.cpp that build a value from plane words or a
    single-word value, and the single-word transfers used by generated code. *)
From S2P Require Import Prelude Logic WordSpan LogicWord PackedLogic4.
Ltac Zify.zify_post_hook ::= Z.div_mod_to_equations.

(** ** Construction from words *)

Definition from_aval_bval (w aval bval : Z) : Outcome PackedLogic4 :=
  if (w =? 0) || (w >? bits_per_word)
  then Throw (invalid_argument "four-state word width must be between 1 and 64")
  else
    result ← make w Logic4_zero;
    let mask := if w =? bits_per_word then not64 0 else sub64 (shl64 1 w) 1 in
    Ok (on_logic4_planes result (fun ws => set_word ws 0 (Z.land aval mask))
          (fun ws => set_word ws 0 (Z.land bval mask))).

Definition from_word_planes (w : Z) (aval bval : list Z) : Outcome PackedLogic4 :=
  words ← word_count w;
  if (w =? 0) || negb (size aval =? words) || negb (size bval =? words)
  then Throw (invalid_argument "four-state plane dimensions do not match the packed width")
  else
    result ← make w Logic4_zero;
    Ok (mask_unused_bits (on_logic4_planes result (fun _ => aval) (fun _ => bval))).

Definition from_logic9_word_planes (w : Z) (plane0 plane1 plane2 plane3 : list Z)
    : Outcome PackedLogic4 :=
  words ← word_count w;
  if (w =? 0) || negb (size plane0 =? words) || negb (size plane1 =? words)
     || negb (size plane2 =? words) || negb (size plane3 =? words)
  then Throw (invalid_argument "nine-state plane dimensions do not match the packed width")
  else
    result ← make w Logic4_zero;
    result ← promote_to_logic9 result;
    let result := on_logic9_planes result (fun plane _ =>
      if plane =? 0 then plane0 else if plane =? 1 then plane1
      else if plane =? 2 then plane2 else plane3) in
    let result := foreach_pure (up 0 words) (fun word result =>
      let remaining_width := w - word * bits_per_word in
      let value := normalize_invalid_codes_to_x
        {| l9w_width := Z.min remaining_width bits_per_word;
           l9w_plane0 := word_at (logic9_plane result 0) word;
           l9w_plane1 := word_at (logic9_plane result 1) word;
           l9w_plane2 := word_at (logic9_plane result 2) word;
           l9w_plane3 := word_at (logic9_plane result 3) word |} in
      on_logic9_planes result (fun plane ws => set_word ws word
        (if plane =? 0 then l9w_plane0 value else if plane =? 1 then l9w_plane1 value
         else if plane =? 2 then l9w_plane2 value else l9w_plane3 value))) result in
    Ok (mask_unused_bits result).

Definition word9_plane (v : Logic9Word) (plane : Z) : Z :=
  if plane =? 0 then l9w_plane0 v else if plane =? 1 then l9w_plane1 v
  else if plane =? 2 then l9w_plane2 v else l9w_plane3 v.

Definition from_logic9_word (value : Logic9Word) : Outcome PackedLogic4 :=
  if (l9w_width value =? 0) || (l9w_width value >? bits_per_word)
  then Throw (invalid_argument "nine-state word width must be between 1 and 64")
  else
    result ← make (l9w_width value) Logic4_zero;
    let canonical_value := normalize_invalid_codes_to_x value in
    Ok (mask_unused_bits
      {| width := width result; is_logic9 := true;
         aval_words := set_word (aval_words result) 0 (l9w_plane0 canonical_value);
         bval_words := set_word (bval_words result) 0 (l9w_plane1 canonical_value);
         logic9_plane2 := [l9w_plane2 canonical_value];
         logic9_plane3 := [l9w_plane3 canonical_value];
         has_live_plane_backing := false |}).

(** ** Single-word transfers *)

Definition assign_logic9_word (v : PackedLogic4) (source : Logic9Word) : Outcome PackedLogic4 :=
  if negb (is_logic9 v) || (width v =? 0) || (width v >? bits_per_word)
     || negb (l9w_width source =? width v)
  then Throw (invalid_argument
                "nine-state word assignment requires a matching single-word value")
  else
    let canonical_source := normalize_invalid_codes_to_x source in
    Ok (mask_unused_bits (on_logic9_planes v (fun plane ws =>
          set_word ws 0 (word9_plane canonical_source plane)))).

Definition insert_masked_logic9_word (v : PackedLogic4) (source : Logic9Word) (mask : Z)
    : Outcome PackedLogic4 :=
  if negb (is_logic9 v) || (width v =? 0) || (width v >? bits_per_word)
     || negb (l9w_width source =? width v)
  then Throw (invalid_argument
                "masked nine-state word assignment requires a matching single-word value")
  else
    let mask := Z.land mask (final_word_mask (width v)) in
    let canonical_source := normalize_invalid_codes_to_x source in
    Ok (on_logic9_planes v (fun plane ws =>
          set_word ws 0 (Z.lor (Z.land (front ws) (not64 mask))
                               (Z.land (word9_plane canonical_source plane) mask)))).

Definition matches_masked_logic9_word (v : PackedLogic4) (source : Logic9Word) (mask : Z) : bool :=
  if negb (is_logic9 v) || (width v =? 0) || (width v >? bits_per_word)
     || negb (l9w_width source =? width v)
  then false
  else
    let mask := Z.land mask (final_word_mask (width v)) in
    let canonical_source := normalize_invalid_codes_to_x source in
    forallb (fun plane =>
      Z.land (Z.lxor (front (logic9_plane v plane)) (word9_plane canonical_source plane)) mask =? 0)
      (up 0 4).

Definition low_word (v : PackedLogic4) : Outcome Logic4Word :=
  if (width v =? 0) || (width v >? bits_per_word)
  then Throw (invalid_argument "four-state word width must be between 1 and 64")
  else if is_logic9 v
  then Throw (invalid_argument "an exact nine-state value has no lossless aval/bval word")
  else Ok {| l4w_width := width v; l4w_aval := front (aval_words v);
             l4w_bval := front (bval_words v) |}.

Definition assign_word (v : PackedLogic4) (source : Logic4Word) : Outcome PackedLogic4 :=
  if is_logic9 v || (width v =? 0) || (width v >? bits_per_word)
     || negb (l4w_width source =? width v)
  then Throw (invalid_argument "assigned four-state word must match a single-word Logic4 value")
  else
    let mask := final_word_mask (width v) in
    Ok (on_logic4_planes v (fun ws => set_word ws 0 (Z.land (l4w_aval source) mask))
          (fun ws => set_word ws 0 (Z.land (l4w_bval source) mask))).

Definition logic9_low_word (v : PackedLogic4) : Outcome Logic9Word :=
  if (width v =? 0) || (width v >? bits_per_word)
  then Throw (invalid_argument "nine-state word width must be between 1 and 64")
  else
    planes ←
      (if is_logic9 v
       then Ok [front (logic9_plane v 0); front (logic9_plane v 1);
                front (logic9_plane v 2); front (logic9_plane v 3)]
       else foreach (up 0 (width v)) (fun index planes =>
              value ← get v index;
              let encoded := logic9_code (to_logic9 value) in
              Ok (foreach_pure (up 0 4) (fun plane planes =>
                    if code_bit encoded plane
                    then set_word planes plane (Z.lor (word_at planes plane) (shl64 1 index))
                    else planes) planes)) [0; 0; 0; 0]);
    Ok (normalize_invalid_codes_to_x
          {| l9w_width := width v;
             l9w_plane0 := word_at planes 0; l9w_plane1 := word_at planes 1;
             l9w_plane2 := word_at planes 2; l9w_plane3 := word_at planes 3 |}).

(** * Theorems *)

(** A single-word value becomes the packed value with the same elements. *)
Lemma from_aval_bval_spec w aval bval :
  0 < w <= 64 ->
  returns (from_aval_bval w aval bval) (fun r => Rep r w false
    (fun i => to_logic9 (logic4_of_bits (Z.testbit aval i) (Z.testbit bval i)))).
Proof.
  intros Hw. unfold from_aval_bval, bits_per_word. rewrite Z.gtb_ltb.
  rewrite (proj2 (Z.eqb_neq w 0)), (proj2 (Z.ltb_ge 64 w)) by lia. simpl.
  apply returns_bind. eapply returns_mono; [apply make_spec; unfold SIZE_MAX; lia|].
  intros r [R1 R2 R3 R4 R5]. simpl.
  set (m := if w =? 64 then not64 0 else sub64 (shl64 1 w) 1).
  assert (forall i, 0 <= i -> Z.testbit m i = (i <? w)) as Hm.
  { intros i Hi. unfold m. destruct (Z.eqb_spec w 64) as [->|].
    - rewrite testbit_not64, Z.bits_0 by lia. by rewrite andb_true_r.
    - apply testbit_pred_shl; lia. }
  destruct (wf_spans _ R1) as (Ha & Hb & Hp). rewrite R3 in Hp.
  assert (words_for w = 1) as H1 by (unfold words_for; lia).
  assert (forall ws x i, span_ok (words_for (width r)) ws -> 0 <= i ->
    read_bit (set_word ws 0 (Z.land x m)) i = (i <? w) && Z.testbit x i) as Hrd.
  { intros ws x i Hws Hi. rewrite R2 in Hws.
    rewrite read_bit_set_word by (rewrite ?(span_size _ _ Hws); lia).
    destruct (Z.eqb_spec (i / 64) 0).
    - replace (i mod 64) with i by lia. rewrite Z.land_spec, Hm by lia. apply andb_comm.
    - rewrite read_bit_high by (rewrite (span_size _ _ Hws); lia).
      by rewrite (proj2 (Z.ltb_ge i w)) by lia. }
  assert (forall ws x, span_ok (words_for (width r)) ws ->
    plane_ok (width r) (set_word ws 0 (Z.land x m))) as Hpl.
  { intros ws x Hws. split.
    - apply span_set_word; [done|]. apply is_u64_land_r, u64_of_testbit.
      intros i Hi. rewrite Hm by lia. lia.
    - intros i Hi. rewrite Hrd by (done || lia).
      by rewrite (proj2 (Z.ltb_ge i w)) by lia. }
  split; simpl; try done.
  - destruct R1. split; simpl; rewrite ?R3 in *; auto; done.
  - intros i Hi. unfold at9; simpl. rewrite R3, !Hrd by (done || lia).
    by rewrite (proj2 (Z.ltb_lt i w)) by lia.
Qed.

Lemma from_aval_bval_throws w aval bval :
  w = 0 \/ 64 < w ->
  from_aval_bval w aval bval = Throw (invalid_argument "four-state word width must be between 1 and 64").
Proof.
  intros H. unfold from_aval_bval, bits_per_word. rewrite Z.gtb_ltb.
  by destruct (Z.eqb_spec w 0), (Z.ltb_spec 64 w); [..|lia].
Qed.

(** Plane words become the packed value with the same elements; bits above the
    width are dropped. *)
Lemma from_word_planes_spec w aval bval :
  0 < w <= SIZE_MAX / 4 -> span_ok (words_for w) aval -> span_ok (words_for w) bval ->
  returns (from_word_planes w aval bval) (fun r => Rep r w false
    (fun i => to_logic9 (logic4_of_bits (read_bit aval i) (read_bit bval i)))).
Proof.
  intros Hw Ha Hb. unfold from_word_planes. rewrite word_count_ok by (unfold SIZE_MAX in *; lia).
  simpl. rewrite (span_size _ _ Ha), (span_size _ _ Hb), !Z.eqb_refl.
  rewrite (proj2 (Z.eqb_neq w 0)) by lia. simpl.
  apply returns_bind. eapply returns_mono; [apply make_spec; lia|].
  intros r [R1 R2 R3 R4 R5]. simpl. destruct (wf_spans _ R1) as (_ & _ & Hp).
  rewrite R3 in Hp. destruct Hp as [Hp2 Hp3].
  unfold on_logic4_planes. rewrite R2, R3, R4, Hp2, Hp3.
  edestruct (wf_mask_unused_bits w false aval bval [] [] false) as (W1 & W2 & W3 & W4 & W5);
    [lia|done|done|done|done| |].
  - intros i Hi. unfold at9; simpl. reflexivity.
  - by split.
Qed.

Lemma normalize_bit_codes v i :
  0 <= i < 64 ->
  let n := normalize_invalid_codes_to_x v in
  Z.testbit (l9w_plane3 n) i = true ->
  Z.testbit (l9w_plane0 n) i = false /\ Z.testbit (l9w_plane1 n) i = false /\
  Z.testbit (l9w_plane2 n) i = false.
Proof.
  intros Hi. simpl. autorewrite with fsim_bits. rewrite (proj2 (Z.ltb_lt i 64)) by lia.
  by destruct_testbits.
Qed.

Lemma normalize_u64 v :
  is_u64 (l9w_plane0 v) -> is_u64 (l9w_plane1 v) -> is_u64 (l9w_plane2 v) -> is_u64 (l9w_plane3 v) ->
  forall p, is_u64 (word9_plane (normalize_invalid_codes_to_x v) p).
Proof.
  intros. unfold word9_plane, normalize_invalid_codes_to_x; simpl.
  destruct (p =? 0), (p =? 1), (p =? 2); auto 6 using is_u64_lor, is_u64_land_l.
Qed.

(** Decoding four spans element by element. *)
Definition spans9 (p0 p1 p2 p3 : list Z) (i : Z) : Logic9 :=
  logic9_of_bits (read_bit p0 i) (read_bit p1 i) (read_bit p2 i) (read_bit p3 i).

(** The invariant of the normalizing loop of [from_logic9_word_planes]. *)
Definition normalized_upto (w : Z) (f : Z -> Logic9) (word : Z) (r : PackedLogic4) : Prop :=
  width r = w /\ is_logic9 r = true /\ has_live_plane_backing r = false /\
  span_ok (words_for w) (aval_words r) /\ span_ok (words_for w) (bval_words r) /\
  span_ok (words_for w) (logic9_plane2 r) /\ span_ok (words_for w) (logic9_plane3 r) /\
  (forall i, 0 <= i < w ->
     spans9 (aval_words r) (bval_words r) (logic9_plane2 r) (logic9_plane3 r) i = f i) /\
  (forall i, 0 <= i < w -> i / 64 < word -> read_bit (logic9_plane3 r) i = true ->
     read_bit (aval_words r) i = false /\ read_bit (bval_words r) i = false /\
     read_bit (logic9_plane2 r) i = false).

Lemma normalize_step w f word r :
  0 < w -> 0 <= word < words_for w -> normalized_upto w f word r ->
  normalized_upto w f (word + 1)
    (let value := normalize_invalid_codes_to_x
        {| l9w_width := Z.min (w - word * bits_per_word) bits_per_word;
           l9w_plane0 := word_at (logic9_plane r 0) word;
           l9w_plane1 := word_at (logic9_plane r 1) word;
           l9w_plane2 := word_at (logic9_plane r 2) word;
           l9w_plane3 := word_at (logic9_plane r 3) word |} in
      on_logic9_planes r (fun plane ws => set_word ws word
        (if plane =? 0 then l9w_plane0 value else if plane =? 1 then l9w_plane1 value
         else if plane =? 2 then l9w_plane2 value else l9w_plane3 value))).
Proof.
  intros Hw Hword (H1 & H2 & H3 & Ha & Hb & Hp & Hq & Hf & Hc).
  set (lw := mkLogic9Word _ _ _ _ _). cbv zeta.
  assert (forall p, is_u64 (word9_plane (normalize_invalid_codes_to_x lw) p)) as Hu.
  { apply normalize_u64; unfold lw, logic9_plane; simpl;
      (destruct (width r =? 0); simpl; [by apply word_at_u64|]).
    - apply word_at_u64, Ha. - apply word_at_u64, Hb.
    - apply word_at_u64, Hp. - apply word_at_u64, Hq. }
  pose proof (Hu 0) as Hu0. pose proof (Hu 1) as Hu1.
  pose proof (Hu 2) as Hu2. pose proof (Hu 3) as Hu3. clear Hu.
  assert (forall ws x i, span_ok (words_for w) ws -> 0 <= i ->
    read_bit (set_word ws word x) i = if i / 64 =? word then Z.testbit x (i mod 64) else read_bit ws i)
    as Hrd.
  { intros ws x i Hws Hi. apply read_bit_set_word; rewrite ?(span_size _ _ Hws); lia. }
  assert (forall i, 0 <= i < w -> i / 64 = word ->
    logic9_word_bit lw (i mod 64) =
      spans9 (aval_words r) (bval_words r) (logic9_plane2 r) (logic9_plane3 r) i) as Hlw.
  { intros i Hi E. unfold logic9_word_bit, spans9, lw, logic9_plane; simpl.
    rewrite H1, (proj2 (Z.eqb_neq w 0)) by lia. simpl. rewrite <- E.
    by rewrite !read_bit_testbit by lia. }
  split_and!; simpl; auto using span_set_word.
  - intros i Hi. rewrite <- Hf by done. unfold spans9. rewrite !Hrd by (done || lia).
    destruct (Z.eqb_spec (i / 64) word) as [E|]; [|done].
    fold (spans9 (aval_words r) (bval_words r) (logic9_plane2 r) (logic9_plane3 r) i).
    rewrite <- Hlw, <- normalize_word_bit by (done || lia). done.
  - intros i Hi Hlt. rewrite !Hrd by (done || lia).
    destruct (Z.eqb_spec (i / 64) word) as [E|]; [|apply Hc; lia].
    apply (normalize_bit_codes lw). lia.
Qed.

(** Nine-state plane words become the packed value with the same elements,
    malformed codes reading as X. *)
Lemma from_logic9_word_planes_spec w p0 p1 p2 p3 :
  0 < w <= SIZE_MAX / 4 -> span_ok (words_for w) p0 -> span_ok (words_for w) p1 ->
  span_ok (words_for w) p2 -> span_ok (words_for w) p3 ->
  returns (from_logic9_word_planes w p0 p1 p2 p3) (fun r => Rep r w true (spans9 p0 p1 p2 p3)).
Proof.
  intros Hw H0 H1 H2 H3. unfold from_logic9_word_planes.
  rewrite word_count_ok by (unfold SIZE_MAX in *; lia). simpl.
  rewrite (span_size _ _ H0), (span_size _ _ H1), (span_size _ _ H2), (span_size _ _ H3), !Z.eqb_refl.
  rewrite (proj2 (Z.eqb_neq w 0)) by lia. simpl.
  apply returns_bind. eapply returns_mono; [apply make_spec; lia|]. intros r [R1 R2 R3 R4 R5].
  apply returns_bind. eapply returns_mono; [apply promote_to_logic9_spec; [done|by left]|].
  intros r2 (S1 & S2 & S3 & S4 & S5). cbn [returns].
  match goal with |- context [foreach_pure _ ?b ?s] => set (body := b); set (init := s) end.
  assert (normalized_upto w (spans9 p0 p1 p2 p3) (words_for w)
            (foreach_pure (up 0 (words_for w)) body init)) as HN.
  { apply (foreach_pure_up (normalized_upto w (spans9 p0 p1 p2 p3))).
    - intros word s Hword Hs. by apply normalize_step; [lia| |].
    - apply words_for_nonneg. lia.
    - unfold init. split_and!; simpl; try done; [congruence|congruence|].
      intros i Hi Hlt. lia. }
  destruct HN as (N1 & N2 & N3 & Na & Nb & Np & Nq & Nf & Nc).
  destruct (foreach_pure (up 0 (words_for w)) body init) as [w' n' a b p q l].
  simpl in N1, N2, N3, Na, Nb, Np, Nq, Nf, Nc. rewrite N1, N2, N3.
  edestruct (wf_mask_unused_bits w true a b p q false (spans9 p0 p1 p2 p3))
    as (W1 & W2 & W3 & W4 & W5); [lia|done|done|done| |exact Nf|].
  - intros _ i Hi. apply Nc; [done|]. by apply words_for_index.
  - by split.
Qed.

Lemma from_logic9_word_spec value :
  0 < l9w_width value <= 64 ->
  is_u64 (l9w_plane0 value) -> is_u64 (l9w_plane1 value) ->
  is_u64 (l9w_plane2 value) -> is_u64 (l9w_plane3 value) ->
  returns (from_logic9_word value)
    (fun r => Rep r (l9w_width value) true (logic9_word_bit value)).
Proof.
  intros Hw U0 U1 U2 U3. unfold from_logic9_word, bits_per_word. rewrite Z.gtb_ltb.
  rewrite (proj2 (Z.eqb_neq _ 0)), (proj2 (Z.ltb_ge 64 _)) by lia. simpl.
  apply returns_bind. eapply returns_mono; [apply make_spec; unfold SIZE_MAX; lia|].
  intros r [R1 R2 R3 R4 R5].
  set (n := normalize_invalid_codes_to_x value). set (w := l9w_width value) in *.
  assert (words_for w = 1) as H1 by (unfold words_for; lia).
  destruct (wf_spans _ R1) as (Ha & Hb & _). rewrite R2, H1 in Ha, Hb.
  assert (forall p, is_u64 (word9_plane n p)) as Hu by (by apply normalize_u64).
  pose proof (Hu 0) as V0. pose proof (Hu 1) as V1.
  pose proof (Hu 2) as V2. pose proof (Hu 3) as V3. unfold word9_plane in V0, V1, V2, V3.
  simpl in V0, V1, V2, V3.
  assert (forall ws x i, span_ok 1 ws -> 0 <= i < w ->
    read_bit (set_word ws 0 x) i = Z.testbit x i) as Hrd.
  { intros ws x i Hws Hi. rewrite read_bit_set_word by (rewrite ?(span_size _ _ Hws); lia).
    replace (i / 64) with 0 by lia. by replace (i mod 64) with i by lia. }
  assert (forall x i, 0 <= i < w -> read_bit [x] i = Z.testbit x i) as Hrd1.
  { intros x i Hi. rewrite read_bit_testbit by lia.
    replace (i / 64) with 0 by lia. by replace (i mod 64) with i by lia. }
  assert (forall x, is_u64 x -> span_ok 1 [x]) as Hs1.
  { intros x Hx. split; [done|]. by constructor. }
  simpl. rewrite R2.
  edestruct (wf_mask_unused_bits w true (set_word (aval_words r) 0 (l9w_plane0 n))
    (set_word (bval_words r) 0 (l9w_plane1 n)) [l9w_plane2 n] [l9w_plane3 n] false
    (logic9_word_bit value)) as (W1 & W2 & W3 & W4 & W5).
  - unfold SIZE_MAX. lia.
  - rewrite H1. by apply span_set_word.
  - rewrite H1. by apply span_set_word.
  - rewrite H1. auto.
  - intros _ i Hi. rewrite !Hrd, !Hrd1 by done. apply (normalize_bit_codes value). lia.
  - intros i Hi. unfold at9; simpl. rewrite !Hrd, !Hrd1 by done.
    rewrite <- (normalize_word_bit value) by lia. done.
  - by split.
Qed.

(** ** Single-word transfers *)

Lemma read_bit_front ws i : 0 <= i < 64 -> read_bit ws i = Z.testbit (front ws) i.
Proof.
  intros. rewrite read_bit_testbit by lia. unfold front.
  by replace (i / 64) with 0 by lia; replace (i mod 64) with i by lia.
Qed.

Lemma read_bit_set_front ws x i :
  0 < size ws -> 0 <= i < 64 -> read_bit (set_word ws 0 x) i = Z.testbit x i.
Proof.
  intros. rewrite read_bit_set_word by lia.
  by replace (i / 64) with 0 by lia; replace (i mod 64) with i by lia.
Qed.

Lemma words_for_narrow w : 0 < w <= 64 -> words_for w = 1.
Proof. intros. unfold words_for. lia. Qed.

(** [low_word] exposes the elements of a narrow four-state value. *)
Lemma low_word_spec v :
  wf v -> 0 < width v <= 64 -> is_logic9 v = false ->
  returns (low_word v) (fun lw => l4w_width lw = width v /\
    forall i, 0 <= i < width v -> to_logic9 (logic4_word_bit lw i) = at9 v i).
Proof.
  intros Hv Hw E. unfold low_word, bits_per_word. rewrite Z.gtb_ltb, E.
  rewrite (proj2 (Z.eqb_neq _ 0)), (proj2 (Z.ltb_ge 64 _)) by lia. simpl.
  split; [done|]. intros i Hi. unfold logic4_word_bit, at9; simpl. rewrite E.
  by rewrite !read_bit_front by lia.
Qed.

(** Rebuilding a value from its own word gives the value back. *)
Lemma from_low_word v :
  wf v -> 0 < width v <= 64 -> is_logic9 v = false ->
  (lw ← low_word v; from_aval_bval (l4w_width lw) (l4w_aval lw) (l4w_bval lw)) = Ok (copy v).
Proof.
  intros Hv Hw E.
  destruct (returns_inv _ _ (low_word_spec v Hv Hw E)) as (lw & -> & Hl & Hb). simpl.
  apply (returns_Rep_eq _ (Ok (copy v)) (width v) false (at9 v)).
  - eapply returns_mono; [apply from_aval_bval_spec; lia|]. rewrite Hl.
    intros r Hr. eapply Rep_ext; [done|]. intros i Hi. by apply Hb.
  - simpl. rewrite <- E. by apply Rep_copy.
Qed.

Lemma logic9_planes_spans v p :
  wf v -> is_logic9 v = true -> 0 < width v -> 0 <= p < 4 ->
  span_ok (words_for (width v)) (logic9_plane v p).
Proof.
  intros Hv E Hw Hp. destruct (wf_spans _ Hv) as (Ha & Hb & Hpl). rewrite E in Hpl.
  destruct Hpl as [H2 H3]. unfold logic9_plane.
  rewrite (proj2 (Z.eqb_neq (width v) 0)) by lia. simpl.
  destruct (Z.geb_spec p 4); [lia|].
  destruct (p =? 0); [done|]. destruct (p =? 1); [done|]. by destruct (p =? 2).
Qed.

(** [logic9_low_word] exposes the elements of a narrow value of either
    representation, with canonical codes. *)
Lemma logic9_low_word_nine v :
  wf v -> 0 < width v <= 64 -> is_logic9 v = true ->
  returns (logic9_low_word v) (fun lw => l9w_width lw = width v /\
    forall i, 0 <= i < width v -> logic9_word_bit lw i = at9 v i).
Proof.
  intros Hv Hw E. unfold logic9_low_word, bits_per_word. rewrite Z.gtb_ltb, E.
  rewrite (proj2 (Z.eqb_neq _ 0)), (proj2 (Z.ltb_ge 64 _)) by lia. cbn [orb mbind outcome_bind].
  split; [done|]. intros i Hi. rewrite normalize_word_bit by lia.
  unfold logic9_word_bit, at9, logic9_plane; simpl. rewrite E.
  rewrite (proj2 (Z.eqb_neq (width v) 0)) by lia. simpl. by rewrite !read_bit_front by lia.
Qed.

(** [assign_word] replaces every element of a narrow four-state value. *)
Lemma assign_word_spec v source :
  wf v -> is_logic9 v = false -> 0 < width v <= 64 -> l4w_width source = width v ->
  returns (assign_word v source) (fun r => wf r /\ width r = width v /\ is_logic9 r = false /\
    has_live_plane_backing r = has_live_plane_backing v /\
    forall i, 0 <= i < width v -> at9 r i = to_logic9 (logic4_word_bit source i)).
Proof.
  intros Hv E Hw Hs. unfold assign_word, bits_per_word. rewrite Z.gtb_ltb, E, Hs, Z.eqb_refl.
  rewrite (proj2 (Z.eqb_neq _ 0)), (proj2 (Z.ltb_ge 64 _)) by lia. simpl.
  destruct (wf_spans _ Hv) as (Ha & Hb & Hp). rewrite E in Hp.
  rewrite words_for_narrow in Ha, Hb by lia.
  assert (forall ws x i, span_ok 1 ws -> 0 <= i ->
    read_bit (set_word ws 0 (Z.land x (final_word_mask (width v)))) i
    = (i <? width v) && Z.testbit x i) as Hrd.
  { intros ws x i Hws Hi. rewrite read_bit_set_word by (rewrite ?(span_size _ _ Hws); lia).
    destruct (Z.eqb_spec (i / 64) 0).
    - replace (i mod 64) with i by lia.
      rewrite Z.land_spec, testbit_final_word_mask_narrow by lia. apply andb_comm.
    - rewrite read_bit_high by (rewrite (span_size _ _ Hws); lia).
      by rewrite (proj2 (Z.ltb_ge i (width v))) by lia. }
  assert (forall ws x, span_ok 1 ws ->
    plane_ok (width v) (set_word ws 0 (Z.land x (final_word_mask (width v))))) as Hpl.
  { intros ws x Hws. split.
    - rewrite words_for_narrow by lia. apply span_set_word; [done|].
      apply is_u64_land_r, is_u64_final_word_mask.
    - intros i Hi. rewrite Hrd by (done || lia). by rewrite (proj2 (Z.ltb_ge i _)) by lia. }
  split_and!; try done.
  - destruct Hv. split; simpl; rewrite ?E in *; auto; done.
  - intros i Hi. unfold at9, logic4_word_bit; simpl. rewrite E, !Hrd by (done || lia).
    by rewrite (proj2 (Z.ltb_lt i _)) by lia.
Qed.

(** [assign_logic9_word] replaces every element of a narrow nine-state value. *)
Lemma assign_logic9_word_spec v source :
  wf v -> is_logic9 v = true -> 0 < width v <= 64 -> l9w_width source = width v ->
  (forall p, is_u64 (word9_plane source p)) ->
  returns (assign_logic9_word v source) (fun r => wf r /\ width r = width v /\
    is_logic9 r = true /\ has_live_plane_backing r = has_live_plane_backing v /\
    forall i, 0 <= i < width v -> at9 r i = logic9_word_bit source i).
Proof.
  intros Hv E Hw Hs Hu. unfold assign_logic9_word, bits_per_word.
  rewrite Z.gtb_ltb, E, Hs, Z.eqb_refl.
  rewrite (proj2 (Z.eqb_neq _ 0)), (proj2 (Z.ltb_ge 64 _)) by lia. cbn [negb orb returns].
  destruct (wf_spans _ Hv) as (Ha & Hb & Hp). rewrite E in Hp. destruct Hp as [Hp2 Hp3].
  set (n := normalize_invalid_codes_to_x source).
  assert (forall p, is_u64 (word9_plane n p)) as Hun.
  { apply normalize_u64; [apply (Hu 0)|apply (Hu 1)|apply (Hu 2)|apply (Hu 3)]. }
  assert (forall ws x i, span_ok (words_for (width v)) ws -> 0 <= i < width v ->
    read_bit (set_word ws 0 x) i = Z.testbit x i) as Hrd.
  { intros ws x i Hws Hi. apply read_bit_set_front; [|lia].
    rewrite (span_size _ _ Hws), words_for_narrow; lia. }
  unfold on_logic9_planes. rewrite E.
  apply wf_mask_unused_bits; auto using span_set_word; [by apply Hv| |].
  - intros _ i Hi. rewrite !Hrd by done. apply (normalize_bit_codes source). lia.
  - intros i Hi. unfold at9; simpl. rewrite !Hrd by done.
    rewrite <- (normalize_word_bit source) by lia. done.
Qed.

(** The front word of a narrow plane with the selected bits replaced. *)
Definition masked_front (w mask : Z) (ws : list Z) (x : Z) : list Z :=
  let m := Z.land mask (final_word_mask w) in
  set_word ws 0 (Z.lor (Z.land (front ws) (not64 m)) (Z.land x m)).

Lemma masked_front_spec w mask ws x :
  0 < w <= 64 -> plane_ok w ws -> is_u64 x ->
  plane_ok w (masked_front w mask ws x) /\
  forall i, 0 <= i < w -> read_bit (masked_front w mask ws x) i =
    if Z.testbit mask i then Z.testbit x i else read_bit ws i.
Proof.
  intros Hw [Hws Hc] Hx.
  assert (forall i, 0 <= i -> read_bit (masked_front w mask ws x) i =
    if Z.testbit mask i && (i <? w) then Z.testbit x i else read_bit ws i) as Hrd.
  { intros i Hi. unfold masked_front. rewrite words_for_narrow in Hws by lia.
    rewrite read_bit_set_word by (rewrite ?(span_size _ _ Hws); lia).
    destruct (Z.eqb_spec (i / 64) 0) as [E0|E0].
    - replace (i mod 64) with i by lia. rewrite (read_bit_front ws i) by lia.
      autorewrite with fsim_bits. rewrite testbit_final_word_mask_narrow, (proj2 (Z.ltb_lt i 64)) by lia.
      destruct (Z.testbit mask i), (i <? w); simpl;
        by rewrite ?andb_true_r, ?andb_false_r, ?orb_false_r.
    - rewrite (proj2 (Z.ltb_ge i w)) by lia. by rewrite andb_false_r. }
  split; [split|].
  - apply span_set_word; [done|]. apply is_u64_lor; [|by apply is_u64_land_l].
    apply is_u64_land_r. auto with fsim.
  - intros i Hi. rewrite Hrd, (proj2 (Z.ltb_ge i w)) by lia. rewrite andb_false_r. by apply Hc.
  - intros i Hi. rewrite Hrd, (proj2 (Z.ltb_lt i w)) by lia. by rewrite andb_true_r.
Qed.

(** [insert_masked_logic9_word] replaces exactly the selected elements. *)
Lemma insert_masked_logic9_word_spec v source mask :
  wf v -> is_logic9 v = true -> 0 < width v <= 64 -> l9w_width source = width v ->
  (forall p, is_u64 (word9_plane source p)) ->
  returns (insert_masked_logic9_word v source mask) (fun r => wf r /\ width r = width v /\
    is_logic9 r = true /\ has_live_plane_backing r = has_live_plane_backing v /\
    forall i, 0 <= i < width v ->
      at9 r i = if Z.testbit mask i then logic9_word_bit source i else at9 v i).
Proof.
  intros Hv E Hw Hs Hu. unfold insert_masked_logic9_word, bits_per_word.
  rewrite Z.gtb_ltb, E, Hs, Z.eqb_refl.
  rewrite (proj2 (Z.eqb_neq _ 0)), (proj2 (Z.ltb_ge 64 _)) by lia. cbn [negb orb returns].
  set (n := normalize_invalid_codes_to_x source).
  assert (forall p, is_u64 (word9_plane n p)) as Hun.
  { apply normalize_u64; [apply (Hu 0)|apply (Hu 1)|apply (Hu 2)|apply (Hu 3)]. }
  pose proof (wf_plane2 _ Hv) as W2. pose proof (wf_plane3 _ Hv) as W3. rewrite E in W2, W3.
  destruct (masked_front_spec _ mask _ (word9_plane n 0) Hw (wf_aval _ Hv) (Hun 0)) as [A1 A2].
  destruct (masked_front_spec _ mask _ (word9_plane n 1) Hw (wf_bval _ Hv) (Hun 1)) as [B1 B2].
  destruct (masked_front_spec _ mask _ (word9_plane n 2) Hw W2 (Hun 2)) as [C1 C2].
  destruct (masked_front_spec _ mask _ (word9_plane n 3) Hw W3 (Hun 3)) as [D1 D2].
  unfold masked_front in *. cbv zeta in *.
  split_and!; try done.
  - pose proof (wf_codes _ Hv E) as Hc. split; simpl; rewrite ?E; try done; [by apply Hv|].
    intros _ i Hi. rewrite A2, B2, C2, D2 by done.
    destruct (Z.testbit mask i); [|by apply Hc]. apply (normalize_bit_codes source). lia.
  - intros i Hi. unfold at9; simpl. rewrite E, A2, B2, C2, D2 by done.
    destruct (Z.testbit mask i); [|done]. by rewrite <- (normalize_word_bit source) by lia.
Qed.
