(* ===== verification/PackedText.v ===== *)
(** * The textual form of a packed value

    Model of [from_msb_string], [from_logic9_msb_string] and [to_msb_string] of
    class [PackedLogic4] in src/runtime/packed_value.cpp: one character per
    element, most significant first, the form of literals, waveforms and
    diagnostics.  The readers fill the planes a word at a time. *)
From S2P Require Import Prelude Logic WordSpan LogicWord PackedLogic4.
Ltac Zify.zify_post_hook ::= Z.div_mod_to_equations.

(** [value[value.size() - offset - 1]]: the character [offset] from the end. *)
Definition char_from_end (value : list ascii) (offset : Z) : ascii :=
  nth (Z.to_nat (size value - offset - 1)) value "000"%char.

Definition from_msb_string (value : list ascii) : Outcome PackedLogic4 :=
  result ← make (size value) Logic4_zero;
  if size value =? 0 then Ok result
  else
    foreach (up 0 (size (aval_words result))) (fun word result =>
      let first := word * bits_per_word in
      let last := Z.min (size value) (first + bits_per_word) in
      ab ← foreach (up first last) (fun offset (ab : Z * Z) =>
        let '(a, b) := ab in
        match parse_logic4 (char_from_end value offset) with
        | None => Throw (invalid_argument "four-state vector contains an invalid digit")
        | Some parsed =>
            let bit := shl64 1 (offset - first) in
            Ok match parsed with
               | Logic4_zero => (a, b)
               | Logic4_one => (Z.lor a bit, b)
               | Logic4_z => (a, Z.lor b bit)
               | Logic4_x => (Z.lor a bit, Z.lor b bit)
               end
        end) (0, 0);
      let '(a, b) := ab in
      Ok (on_logic4_planes result (fun ws => set_word ws word a) (fun ws => set_word ws word b)))
      result.

Definition from_logic9_msb_string (value : list ascii) : Outcome PackedLogic4 :=
  result ← make (size value) Logic4_zero;
  result ← promote_to_logic9 result;
  words ← word_count (size value);
  foreach (up 0 words) (fun word result =>
    let first := word * bits_per_word in
    let last := Z.min (size value) (first + bits_per_word) in
    planes ← foreach (up first last) (fun offset planes =>
      match parse_logic9 (char_from_end value offset) with
      | None => Throw (invalid_argument "nine-state vector contains an invalid digit")
      | Some parsed =>
          let encoded := logic9_code parsed in
          let bit := shl64 1 (offset - first) in
          Ok (foreach_pure (up 0 4) (fun plane planes =>
                if code_bit encoded plane
                then set_word planes plane (Z.lor (word_at planes plane) bit)
                else planes) planes)
      end) [0; 0; 0; 0];
    Ok (on_logic9_planes result (fun plane ws => set_word ws word (word_at planes plane))))
    result.

(** [result[width() - index - 1] = c] *)
Definition put_char_from_end (w index : Z) (c : ascii) (result : list ascii) : list ascii :=
  <[Z.to_nat (w - index - 1) := c]> result.

Definition to_msb_string (v : PackedLogic4) : list ascii :=
  let result := replicate (Z.to_nat (width v)) "X"%char in
  if negb (is_logic9 v) then
    foreach_pure (up 0 (width v)) (fun index result =>
      let mask := shl64 1 (index mod bits_per_word) in
      let word := index / bits_per_word in
      put_char_from_end (width v) index
        (if negb (Z.land (word_at (bval_words v) word) mask =? 0)
         then (if negb (Z.land (word_at (aval_words v) word) mask =? 0) then "X"%char else "Z"%char)
         else (if negb (Z.land (word_at (aval_words v) word) mask =? 0) then "1"%char else "0"%char))
        result) result
  else
    let digits := ["U"; "X"; "0"; "1"; "Z"; "W"; "L"; "H"; "-"]%char in
    let plane2 := logic9_plane v 2 in
    let plane3 := logic9_plane v 3 in
    foreach_pure (up 0 (width v)) (fun index result =>
      let mask := shl64 1 (index mod bits_per_word) in
      let word := index / bits_per_word in
      let encoded :=
        Z.lor (Z.lor (Z.lor
          (if negb (Z.land (word_at (aval_words v) word) mask =? 0) then 1 else 0)
          (if negb (Z.land (word_at (bval_words v) word) mask =? 0) then 2 else 0))
          (if negb (Z.land (word_at plane2 word) mask =? 0) then 4 else 0))
          (if negb (Z.land (word_at plane3 word) mask =? 0) then 8 else 0) in
      put_char_from_end (width v) index
        (nth (Z.to_nat (if encoded <=? logic9_code Logic9_dont_care then encoded
                        else logic9_code Logic9_x)) digits "X"%char)
        result) result.

(** * Theorems *)

(** ** Printing *)

Lemma length_down n : 0 <= n -> length (down n) = Z.to_nat n.
Proof. intros. unfold down, up. rewrite length_reverse, length_seqZ. f_equal. lia. Qed.

Lemma lookup_down n k : 0 <= k < n -> down n !! Z.to_nat k = Some (n - 1 - k).
Proof.
  intros. unfold down, up. rewrite reverse_lookup by (rewrite length_seqZ; lia).
  rewrite length_seqZ. rewrite (lookup_seqZ_lt _ _ _) by lia. f_equal. lia.
Qed.

Lemma char_from_end_down (f : Z -> ascii) n i :
  0 <= i < n -> char_from_end (f <$> down n) i = f i.
Proof.
  intros. unfold char_from_end. rewrite nth_lookup.
  unfold size. rewrite length_fmap, length_down by lia.
  replace (Z.of_nat (Z.to_nat n) - i - 1) with (n - 1 - i) by lia.
  rewrite list_lookup_fmap, lookup_down by lia. simpl. f_equal. lia.
Qed.

(** One step of filling a buffer of [w] characters from its end. *)
Lemma put_char_snoc w i c (f : Z -> ascii) :
  0 <= i < w ->
  put_char_from_end w i (f i) (replicate (Z.to_nat (w - i)) c ++ (f <$> down i))
  = replicate (Z.to_nat (w - (i + 1))) c ++ (f <$> down (i + 1)).
Proof.
  intros Hi. unfold put_char_from_end.
  replace (Z.to_nat (w - i)) with (Z.to_nat (w - (i + 1)) + 1)%nat by lia.
  rewrite replicate_add, <- app_assoc.
  replace (Z.to_nat (w - i - 1)) with (length (replicate (Z.to_nat (w - (i + 1))) c) + 0)%nat
    by (rewrite length_replicate; lia).
  rewrite insert_app_r. f_equal. rewrite (down_cons (i + 1)) by lia.
  by replace (i + 1 - 1) with i by lia.
Qed.

(** Filling a buffer from its end. *)
Lemma put_chars_loop w (body : Z -> list ascii -> list ascii) (f : Z -> ascii) :
  0 <= w -> (forall i r, 0 <= i < w -> body i r = put_char_from_end w i (f i) r) ->
  foreach_pure (up 0 w) body (replicate (Z.to_nat w) "X"%char) = f <$> down w.
Proof.
  intros Hw Hbody.
  apply (foreach_pure_up (fun i r => r = replicate (Z.to_nat (w - i)) "X"%char ++ (f <$> down i))
           0 w body) with (s := replicate (Z.to_nat w) "X"%char) in Hw as H.
  - rewrite H. by rewrite Z.sub_diag.
  - intros i r Hi ->. rewrite Hbody by done. by apply put_char_snoc.
  - by rewrite Z.sub_0_r, app_nil_r.
Qed.

Lemma mask_test ws index :
  0 <= index ->
  negb (Z.land (word_at ws (index / bits_per_word)) (shl64 1 (index mod bits_per_word)) =? 0)
  = read_bit ws index.
Proof.
  intros. unfold bits_per_word. rewrite read_bit_testbit by lia.
  set (x := word_at ws (index / 64)). set (k := index mod 64).
  assert (0 <= k < 64) as Hk by lia.
  destruct (Z.testbit x k) eqn:E.
  - apply negb_true_iff, Z.eqb_neq. intros H0.
    assert (Z.testbit (Z.land x (shl64 1 k)) k = false) as Hf by (rewrite H0; apply Z.bits_0).
    rewrite Z.land_spec, E, testbit_shl_one in Hf by lia. lia.
  - apply negb_false_iff, Z.eqb_eq. apply Z.bits_inj'. intros j Hj.
    rewrite Z.land_spec, testbit_shl_one, Z.bits_0 by lia.
    destruct (Z.eqb_spec j k) as [->|]; [by rewrite E|]. by rewrite !andb_false_r.
Qed.

(** The text of a value lists its elements, most significant first; four-state
    values print with the four-state digits. *)
Lemma to_msb_string_spec v :
  wf v -> to_msb_string v = (fun i => to_char9 (at9 v i)) <$> down (width v).
Proof.
  intros Hv. pose proof (wf_width _ Hv). unfold to_msb_string.
  destruct (is_logic9 v) eqn:E; simpl; apply put_chars_loop; try lia;
    intros i r Hi; cbv zeta; f_equal; rewrite ?mask_test by lia; unfold at9; rewrite E.
  - unfold logic9_plane. rewrite (proj2 (Z.eqb_neq (width v) 0)) by lia. simpl.
    by destruct (read_bit (aval_words v) i), (read_bit (bval_words v) i),
      (read_bit (logic9_plane2 v) i), (read_bit (logic9_plane3 v) i).
  - by destruct (read_bit (aval_words v) i), (read_bit (bval_words v) i).
Qed.

(** ** Reading four-state text *)

(** The element an input character stands for. *)
Definition digit4 (value : list ascii) (i : Z) : Logic4 :=
  default Logic4_x (parse_logic4 (char_from_end value i)).
Definition digit9 (value : list ascii) (i : Z) : Logic9 :=
  default Logic9_x (parse_logic9 (char_from_end value i)).

Lemma char_from_end_elem value i : 0 <= i < size value -> char_from_end value i ∈ value.
Proof.
  intros. unfold char_from_end. rewrite nth_lookup. unfold size in *.
  destruct (lookup_lt_is_Some_2 value (Z.to_nat (Z.of_nat (length value) - i - 1))) as [c Hc]; [lia|].
  rewrite Hc. simpl. by eapply list_elem_of_lookup_2.
Qed.

Lemma elem_char_from_end value c :
  c ∈ value -> exists i, 0 <= i < size value /\ char_from_end value i = c.
Proof.
  intros (k & Hk)%list_elem_of_lookup. pose proof (lookup_lt_Some _ _ _ Hk).
  exists (size value - 1 - Z.of_nat k). unfold size. split; [lia|].
  unfold char_from_end, size. rewrite nth_lookup.
  by replace (Z.to_nat _) with k by lia; rewrite Hk.
Qed.

(** The bits of one word being assembled: those of the digits read so far. *)
Definition word_so_far (f : Z -> bool) (first offset x : Z) : Prop :=
  forall t, 0 <= t -> Z.testbit x t = (t <? offset - first) && f (first + t).

Lemma word_so_far_set f first offset x :
  0 <= first <= offset -> offset < first + 64 -> word_so_far f first offset x ->
  f offset = true -> word_so_far f first (offset + 1) (Z.lor x (shl64 1 (offset - first))).
Proof.
  intros Ho Hlt Hx Hf t Ht. rewrite Z.lor_spec, testbit_shl_one, Hx by lia.
  destruct (Z.eqb_spec t (offset - first)) as [->|].
  - replace (first + (offset - first)) with offset by lia. rewrite Hf.
    rewrite Z.ltb_irrefl, (proj2 (Z.ltb_lt (offset - first) 64)) by lia. simpl. lia.
  - rewrite andb_false_r, orb_false_r. f_equal. cases_ltb; lia.
Qed.

Lemma word_so_far_skip f first offset x :
  0 <= first <= offset -> word_so_far f first offset x ->
  f offset = false -> word_so_far f first (offset + 1) x.
Proof.
  intros Ho Hx Hf t Ht. rewrite Hx by lia.
  destruct (Z.eq_dec t (offset - first)) as [->|]; [|f_equal; cases_ltb; lia].
  replace (first + (offset - first)) with offset by lia. by rewrite Hf, !andb_false_r.
Qed.

Lemma word_so_far_u64 f first last x :
  first <= last <= first + 64 -> word_so_far f first last x -> is_u64 x.
Proof.
  intros Hl Hx. apply u64_of_testbit. intros i Hi. rewrite Hx by lia.
  by rewrite (proj2 (Z.ltb_ge i (last - first))) by lia.
Qed.

Lemma word_so_far_nil f first : word_so_far f first first 0.
Proof.
  intros t Ht. rewrite Z.bits_0, Z.sub_diag. destruct (Z.ltb_spec t 0); [lia|done].
Qed.

(** A plane filled word by word from a digit function. *)
Definition plane_so_far (f : Z -> bool) (w word : Z) (ws : list Z) : Prop :=
  span_ok (words_for w) ws /\
  forall i, 0 <= i -> i / 64 < word -> read_bit ws i = (i <? w) && f i.

Lemma plane_so_far_start f w ws : span_ok (words_for w) ws -> plane_so_far f w 0 ws.
Proof. split; [done|]. intros; lia. Qed.

Lemma plane_so_far_set f w word ws x :
  0 <= w -> 0 <= word < words_for w ->
  word_so_far f (word * 64) (Z.min w (word * 64 + 64)) x ->
  plane_so_far f w word ws -> plane_so_far f w (word + 1) (set_word ws word x).
Proof.
  intros Hw Hword Hx [Hs Hr]. split.
  { apply span_set_word; [done|]. eapply word_so_far_u64; [|exact Hx].
    unfold words_for in *. lia. }
  intros i Hi Hiw. rewrite read_bit_set_word by (rewrite ?(span_size _ _ Hs); lia).
  destruct (Z.eqb_spec (i / 64) word) as [E|E]; [|apply Hr; lia].
  rewrite Hx by lia. replace (word * 64 + i mod 64) with i by lia.
  f_equal. cases_ltb; simpl; lia.
Qed.

Lemma plane_so_far_done f w ws :
  0 <= w -> plane_so_far f w (words_for w) ws ->
  plane_ok w ws /\ forall i, 0 <= i < w -> read_bit ws i = f i.
Proof.
  intros Hw [Hs Hr]. split; [split; [done|]|].
  - intros i Hi. destruct (Z.ltb_spec (i / 64) (words_for w)).
    + rewrite Hr by lia. by rewrite (proj2 (Z.ltb_ge i w)) by lia.
    + apply read_bit_high. rewrite (span_size _ _ Hs). lia.
  - intros i Hi. pose proof (words_for_index w i Hi). rewrite Hr by lia.
    by rewrite (proj2 (Z.ltb_lt i w)) by lia.
Qed.

(** A valid digit extends both words of a four-state group. *)
Lemma digit4_step value word offset a b :
  let fa i := aval_bit (digit4 value i) in let fb i := bval_bit (digit4 value i) in
  let bit := shl64 1 (offset - word * 64) in
  0 <= word -> word * 64 <= offset < word * 64 + 64 ->
  word_so_far fa (word * 64) offset a -> word_so_far fb (word * 64) offset b ->
  let '(a', b') := match digit4 value offset with
    | Logic4_zero => (a, b) | Logic4_one => (Z.lor a bit, b)
    | Logic4_z => (a, Z.lor b bit) | Logic4_x => (Z.lor a bit, Z.lor b bit) end in
  word_so_far fa (word * 64) (offset + 1) a' /\ word_so_far fb (word * 64) (offset + 1) b'.
Proof.
  intros fa fb bit Hw Ho A B. subst bit.
  assert (fa offset = aval_bit (digit4 value offset)) as Efa by done.
  assert (fb offset = bval_bit (digit4 value offset)) as Efb by done.
  destruct (digit4 value offset); simpl in *;
    (split; [first [apply word_so_far_set|apply word_so_far_skip]
            |first [apply word_so_far_set|apply word_so_far_skip]]); done || lia.
Qed.

Lemma parse_digits {D} (parse : ascii -> option D) (d0 : D) value i :
  Forall (fun c => is_Some (parse c)) value -> 0 <= i < size value ->
  parse (char_from_end value i) = Some (default d0 (parse (char_from_end value i))).
Proof.
  intros Hall Hi. eapply Forall_forall in Hall as [d Hd]; [|by apply char_from_end_elem].
  by rewrite Hd.
Qed.

(** Every valid four-state text denotes the value with its digits. *)
Lemma from_msb_string_spec value :
  size value <= SIZE_MAX / 4 -> Forall (fun c => is_Some (parse_logic4 c)) value ->
  returns (from_msb_string value)
    (fun r => Rep r (size value) false (fun i => to_logic9 (digit4 value i))).
Proof.
  intros Hsz Hall. pose proof (size_nonneg value). unfold from_msb_string. apply returns_bind.
  eapply returns_mono; [by apply make_spec|]. intros r0 HR. pose proof HR as [R1 R2 R3 R4 R5].
  destruct (Z.eqb_spec (size value) 0) as [E0|_].
  { simpl. eapply Rep_ext; [done|]. intros; lia. }
  destruct (wf_spans _ R1) as (Ha & Hb & Hp). rewrite R2 in Ha, Hb. rewrite (span_size _ _ Ha).
  rewrite R3 in Hp. destruct Hp as [Hp2 Hp3].
  set (w := size value) in *. set (fa := fun i => aval_bit (digit4 value i)).
  set (fb := fun i => bval_bit (digit4 value i)).
  eapply returns_mono; [apply (foreach_up (fun word r =>
    width r = w /\ is_logic9 r = false /\ has_live_plane_backing r = false /\
    logic9_plane2 r = [] /\ logic9_plane3 r = [] /\
    plane_so_far fa w word (aval_words r) /\ plane_so_far fb w word (bval_words r))) | ].
  - intros word r Hword (T1 & T2 & T3 & T4 & T5 & T6 & T7). cbv zeta. apply returns_bind.
    unfold bits_per_word. eapply returns_mono; [apply (foreach_up (fun offset ab =>
      word_so_far fa (word * 64) offset (fst ab) /\
      word_so_far fb (word * 64) offset (snd ab))) | ].
    + intros offset [a b] Hoff [A B]. rewrite (parse_digits _ Logic4_x) by (done || lia). simpl.
      pose proof (digit4_step value word offset a b ltac:(lia) ltac:(lia) A B) as Hstep.
      unfold digit4 in Hstep at 1. by destruct (default Logic4_x _).
    + unfold words_for in *. lia.
    + split; apply word_so_far_nil.
    + intros [a b] [A B]. simpl in *.
      split_and!; try done; apply plane_so_far_set; done || lia.
  - apply words_for_nonneg. lia.
  - split_and!; try done; by apply plane_so_far_start.
  - intros r (T1 & T2 & T3 & T4 & T5 & T6 & T7).
    apply plane_so_far_done in T6 as [T6 T6']; [|lia].
    apply plane_so_far_done in T7 as [T7 T7']; [|lia].
    split; try done; [split; rewrite ?T1, ?T2; done || lia|].
    intros i Hi. unfold at9. rewrite T2, T6', T7' by done. unfold fa, fb.
    by rewrite logic4_of_bits_bits.
Qed.

(** ** Reading nine-state text *)

Definition planes_so_far (value : list ascii) (first offset : Z) (planes : list Z) : Prop :=
  size planes = 4 /\ forall plane, 0 <= plane < 4 ->
    word_so_far (fun i => Z.testbit (logic9_code (digit9 value i)) plane) first offset
      (word_at planes plane).

(** A valid digit extends the four words of a nine-state group. *)
Lemma digit9_step value first offset planes :
  0 <= first <= offset -> offset < first + 64 ->
  planes_so_far value first offset planes ->
  planes_so_far value first (offset + 1)
    (foreach_pure (up 0 4) (fun plane planes =>
       if code_bit (logic9_code (digit9 value offset)) plane
       then set_word planes plane (Z.lor (word_at planes plane) (shl64 1 (offset - first)))
       else planes) planes).
Proof.
  intros Ho Hlt [Hs Hp].
  destruct (foreach_pure_up (fun k ps => size ps = 4 /\ forall plane, 0 <= plane < 4 ->
    word_so_far (fun i => Z.testbit (logic9_code (digit9 value i)) plane) first
      (if plane <? k then offset + 1 else offset) (word_at ps plane)) 0 4
    (fun plane planes =>
       if code_bit (logic9_code (digit9 value offset)) plane
       then set_word planes plane (Z.lor (word_at planes plane) (shl64 1 (offset - first)))
       else planes)) with (s := planes) as [Hs' Hp']; [|lia| |].
  - intros k ps Hk [Hks Hkp]. rewrite code_bit_testbit by lia.
    destruct (Z.testbit (logic9_code (digit9 value offset)) k) eqn:E;
      (split; [by rewrite ?size_set_word|]); intros plane Hpl;
      rewrite ?word_at_set by (rewrite ?Hks; lia); specialize (Hkp plane Hpl);
      destruct (Z.eqb_spec plane k) as [->|Hne]; try lia;
      try (replace (plane <? k + 1) with (plane <? k) by (cases_ltb; lia); done);
      rewrite Z.ltb_irrefl in Hkp; rewrite (proj2 (Z.ltb_lt k (k + 1))) by lia.
    + by apply word_so_far_set.
    + by apply word_so_far_skip.
  - split; [done|]. intros plane Hpl. rewrite (proj2 (Z.ltb_ge plane 0)) by lia. by apply Hp.
  - split; [done|]. intros plane Hpl. specialize (Hp' plane Hpl).
    by rewrite (proj2 (Z.ltb_lt plane 4)) in Hp' by lia.
Qed.

(** Every valid nine-state text denotes the value with its digits. *)
Lemma from_logic9_msb_string_spec value :
  size value <= SIZE_MAX / 4 -> Forall (fun c => is_Some (parse_logic9 c)) value ->
  returns (from_logic9_msb_string value)
    (fun r => Rep r (size value) true (digit9 value)).
Proof.
  intros Hsz Hall. pose proof (size_nonneg value). unfold from_logic9_msb_string.
  apply returns_bind. eapply returns_mono; [by apply make_spec|]. intros r0 [R1 R2 R3 R4 R5].
  apply returns_bind. eapply returns_mono; [apply promote_to_logic9_spec; auto|].
  intros r1 (Q1 & Q2 & Q3 & Q4 & _). rewrite R2 in Q2. rewrite R4 in Q4.
  rewrite word_count_ok by (unfold SIZE_MAX in *; lia). simpl.
  destruct (wf_spans _ Q1) as (Ha & Hb & Hp). rewrite Q3 in Hp. destruct Hp as [Hc Hd].
  rewrite Q2 in Ha, Hb, Hc, Hd. set (w := size value) in *.
  set (f := fun plane i => Z.testbit (logic9_code (digit9 value i)) plane).
  eapply returns_mono; [apply (foreach_up (fun word r =>
    width r = w /\ is_logic9 r = true /\ has_live_plane_backing r = false /\
    plane_so_far (f 0) w word (aval_words r) /\ plane_so_far (f 1) w word (bval_words r) /\
    plane_so_far (f 2) w word (logic9_plane2 r) /\ plane_so_far (f 3) w word (logic9_plane3 r))) | ].
  - intros word r Hword (T1 & T2 & T3 & T4 & T5 & T6 & T7). cbv zeta. apply returns_bind.
    unfold bits_per_word.
    eapply returns_mono; [apply (foreach_up (planes_so_far value (word * 64))) | ].
    + intros offset ps Hoff Hps. rewrite (parse_digits _ Logic9_x) by (done || lia).
      apply (digit9_step value (word * 64) offset ps); done || lia.
    + unfold words_for in *. lia.
    + split; [done|]. intros plane Hpl. assert (word_at [0; 0; 0; 0] plane = 0) as ->.
      { assert (plane = 0 \/ plane = 1 \/ plane = 2 \/ plane = 3) as [->|[->|[->| ->]]] by lia; done. }
      apply word_so_far_nil.
    + intros ps [Hs Hps]. simpl.
      split_and!; try done; apply plane_so_far_set; try lia; try done; apply Hps; lia.
  - apply words_for_nonneg. lia.
  - split_and!; try done; by apply plane_so_far_start.
  - intros r (T1 & T2 & T3 & T4 & T5 & T6 & T7).
    apply plane_so_far_done in T4 as [T4 T4'], T5 as [T5 T5'], T6 as [T6 T6'], T7 as [T7 T7']; try lia.
    split; try done.
    + split; rewrite ?T1, ?T2; try done || lia.
      intros _ i Hi. rewrite T4', T5', T6', T7' by done. apply code_bits_codes.
    + intros i Hi. unfold at9. rewrite T2, T4', T5', T6', T7' by done. apply logic9_of_bits_code.
Qed.

(** ** Invalid text *)

(** A nested scan over all the positions of a text: words outside, digits of
    the word inside.  A position whose digit throws makes the scan throw. *)
Lemma nested_scan_throws {S T} w e (init : T) (inner : Z -> Z -> T -> Outcome T)
    (store : Z -> T -> S -> Outcome S) (s : S) bad :
  0 <= bad < w -> (forall word t s, exists s', store word t s = Ok s') ->
  (forall word o t, 0 <= o < w ->
     (exists t', inner word o t = Ok t') \/ inner word o t = Throw e) ->
  (forall word t, inner word bad t = Throw e) ->
  foreach (up 0 (words_for w)) (fun word s =>
    t ← foreach (up (word * 64) (Z.min w (word * 64 + 64))) (inner word) init;
    store word t s) s = Throw e.
Proof.
  intros Hbad Hstore Hall Hthrow.
  assert (forall word o, 0 <= word -> o ∈ up (word * 64) (Z.min w (word * 64 + 64)) ->
    0 <= o < w) as Hin by (intros word o Hw Ho%elem_of_up; lia).
  apply foreach_throws.
  - intros word s' Hword%elem_of_up.
    destruct (foreach_ok_or (up (word * 64) (Z.min w (word * 64 + 64))) (inner word) e init)
      as [[t Ht]|Ht]; [intros o t Ho; apply Hall; eapply Hin; [|done]; lia|rewrite Ht..];
      [left; apply Hstore|by right].
  - exists (bad / 64). split; [apply elem_of_up; unfold words_for; lia|]. intros s'.
    rewrite (foreach_throws _ _ e); [done| |].
    + intros o t Ho. apply Hall. eapply Hin; [|done]. lia.
    + exists bad. split; [apply elem_of_up; lia|done].
Qed.

Lemma from_msb_string_invalid value c :
  size value <= SIZE_MAX / 4 -> c ∈ value -> parse_logic4 c = None ->
  from_msb_string value =
    Throw (invalid_argument "four-state vector contains an invalid digit").
Proof.
  intros Hsz (bad & Hbad & Hc)%elem_char_from_end Hnone. unfold from_msb_string.
  destruct (returns_inv _ _ (make_spec (size value) Logic4_zero ltac:(lia)))
    as (r0 & -> & [R1 R2 _ _ _]). simpl.
  destruct (Z.eqb_spec (size value) 0) as [|_]; [lia|].
  destruct (wf_spans _ R1) as (Ha & _). rewrite (span_size _ _ Ha), R2.
  apply (nested_scan_throws _ _ _ _ _ _ bad); [done|intros ? [] ?; simpl; eauto| |].
  - intros word o [a b] Ho. destruct (parse_logic4 (char_from_end value o)); [left; by eexists|by right].
  - intros word [a b]. by rewrite Hc, Hnone.
Qed.

Lemma from_logic9_msb_string_invalid value c :
  size value <= SIZE_MAX / 4 -> c ∈ value -> parse_logic9 c = None ->
  from_logic9_msb_string value =
    Throw (invalid_argument "nine-state vector contains an invalid digit").
Proof.
  intros Hsz (bad & Hbad & Hc)%elem_char_from_end Hnone. unfold from_logic9_msb_string.
  destruct (returns_inv _ _ (make_spec (size value) Logic4_zero ltac:(lia)))
    as (r0 & -> & [R1 R2 _ R4 _]). simpl.
  destruct (returns_inv _ _ (promote_to_logic9_spec r0 R1 (or_introl R4))) as (r1 & -> & _).
  rewrite word_count_ok by (unfold SIZE_MAX in *; lia). simpl.
  apply (nested_scan_throws _ _ _ _ _ _ bad); [done|eauto| |].
  - intros word o t Ho. destruct (parse_logic9 (char_from_end value o)); [left; by eexists|by right].
  - intros word t. by rewrite Hc, Hnone.
Qed.

(** ** Round trips *)

Lemma size_to_msb_string v : wf v -> size (to_msb_string v) = width v.
Proof.
  intros Hv. pose proof (wf_width _ Hv). rewrite to_msb_string_spec by done.
  unfold size. rewrite length_fmap, length_down; lia.
Qed.

Lemma to_char9_four v : to_char9 (to_logic9 v) = to_char4 v.
Proof. by destruct v. Qed.

Lemma char_to_msb_string v i : wf v -> 0 <= i < width v ->
  char_from_end (to_msb_string v) i = to_char9 (at9 v i).
Proof. intros Hv Hi. rewrite to_msb_string_spec by done. by rewrite char_from_end_down. Qed.

Lemma to_msb_string_digits v c : wf v -> c ∈ to_msb_string v ->
  exists i, 0 <= i < width v /\ c = to_char9 (at9 v i).
Proof.
  intros Hv (i & Hi & <-)%elem_char_from_end. rewrite size_to_msb_string in Hi by done.
  exists i. by rewrite char_to_msb_string.
Qed.

(** Reading back a printed four-state value gives the value. *)
Lemma read_printed4 v : wf v -> is_logic9 v = false ->
  from_msb_string (to_msb_string v) = Ok (copy v).
Proof.
  intros Hv Hn. pose proof (wf_width _ Hv). apply returns_eq.
  eapply returns_mono; [apply from_msb_string_spec|].
  - rewrite size_to_msb_string by done. lia.
  - apply Forall_forall. intros c (i & Hi & ->)%to_msb_string_digits; [|done].
    rewrite at9_four, to_char9_four, parse_to_char4 by done. eauto.
  - intros r HR. rewrite size_to_msb_string in HR by done.
    pose proof (Rep_copy v Hv) as HC. rewrite Hn in HC. eapply Rep_unique; [exact HC|].
    eapply Rep_ext; [exact HR|]. intros i Hi. unfold digit4.
    rewrite char_to_msb_string, at9_four, to_char9_four, parse_to_char4 by done. done.
Qed.

(** The same for nine-state values and the nine-state reader. *)
Lemma read_printed9 v : wf v -> is_logic9 v = true ->
  from_logic9_msb_string (to_msb_string v) = Ok (copy v).
Proof.
  intros Hv Hn. pose proof (wf_width _ Hv). apply returns_eq.
  eapply returns_mono; [apply from_logic9_msb_string_spec|].
  - rewrite size_to_msb_string by done. lia.
  - apply Forall_forall. intros c (i & Hi & ->)%to_msb_string_digits; [|done].
    rewrite parse_to_char9 by done. eauto.
  - intros r HR. rewrite size_to_msb_string in HR by done.
    pose proof (Rep_copy v Hv) as HC. rewrite Hn in HC. eapply Rep_unique; [exact HC|].
    eapply Rep_ext; [exact HR|]. intros i Hi. unfold digit9.
    by rewrite char_to_msb_string, parse_to_char9 by done.
Qed.
