(* ===== verification/PackedNumeric.v ===== *)
(** * Integer readings of a packed value

    Model of [known_unsigned_value] and [known_signed_value] of class
    [PackedLogic4] in src/runtime/packed_value.cpp, and the arithmetic reading
    of a packed value the operator theorems are stated with. *)
From S2P Require Import Prelude Logic WordSpan LogicWord PackedLogic4.
Ltac Zify.zify_post_hook ::= Z.div_mod_to_equations.

Definition known_unsigned_value (v : PackedLogic4) : option Z :=
  if (width v =? 0) || is_logic9 v then None
  else if existsb (fun word => negb (word =? 0)) (bval_words v)
          || existsb (fun word => negb (word =? 0)) (drop 1 (aval_words v))
  then None
  else Some (front (aval_words v)).

Definition known_signed_value (v : PackedLogic4) : option Z :=
  if (width v =? 0) || is_logic9 v then None
  else if existsb (fun word => negb (word =? 0)) (bval_words v) then None
  else
    let aval := aval_words v in
    let low := front aval in
    if width v <? bits_per_word then
      let sign := shl64 1 (width v - 1) in
      let low := if negb (Z.land low sign =? 0)
                 then Z.lor low (not64 (final_word_mask (width v))) else low in
      Some (to_int64 low)
    else
      let negative := negb (Z.land low (shl64 1 63) =? 0) in
      if forallb (fun index =>
           let mask := if index + 1 =? size aval then final_word_mask (width v) else U64_MAX in
           let extension := if negative then mask else 0 in
           Z.land (word_at aval index) mask =? extension) (up 1 (size aval))
      then Some (to_int64 low)
      else None.

(** * Specification vocabulary *)

(** Element [i] is a 1; is a 0 or a 1. *)
Definition one_at (v : PackedLogic4) (i : Z) : bool := logic4_eqb (at4 v i) Logic4_one.
Definition known_at (v : PackedLogic4) (i : Z) : bool :=
  logic4_eqb (at4 v i) Logic4_zero || logic4_eqb (at4 v i) Logic4_one.

(** Every element is a 0 or a 1. *)
Definition all_known (v : PackedLogic4) : Prop :=
  forall i, 0 <= i < width v -> known_at v i = true.

(** The unsigned and the two's complement reading. *)
Definition uvalue (v : PackedLogic4) : Z := bits_value (width v) (one_at v).
Definition signed_of (w n : Z) : Z := if Z.testbit n (w - 1) then n - 2 ^ w else n.
Definition svalue (v : PackedLogic4) : Z := signed_of (width v) (uvalue v).

(** * Theorems *)

(** The floor modulus from the truncated remainder. *)
Lemma modulo_of_remainder l r : r <> 0 ->
  (if negb (Z.rem l r =? 0) && negb (eqb (Z.rem l r <? 0) (r <? 0)) then Z.rem l r + r else Z.rem l r)
  = l mod r.
Proof.
  intros Hr. set (m := Z.rem l r). pose proof (Z.quot_rem' l r) as Hqr. fold m in Hqr.
  pose proof (Z.rem_bound_abs l r Hr) as Hb. fold m in Hb.
  destruct (Z.eqb_spec m 0) as [E|E]; simpl.
  { apply Z.mod_unique with (Z.quot l r); lia. }
  destruct (Z.ltb_spec m 0), (Z.ltb_spec r 0); simpl;
    first [apply Z.mod_unique with (Z.quot l r); lia | apply Z.mod_unique with (Z.quot l r - 1); lia].
Qed.

(** ** Sign extension *)

(** Beyond the magnitude every bit of an integer is its sign. *)
Lemma testbit_sign x k i : 0 <= k <= i -> - 2 ^ k <= x < 2 ^ k -> Z.testbit x i = (x <? 0).
Proof.
  intros Hk Hx. destruct (Z.ltb_spec x 0).
  - rewrite <- (Z.lnot_involutive x), Z.lnot_spec by lia. apply negb_true_iff.
    apply (testbit_high _ k); [|lia]. unfold Z.lnot. lia.
  - apply (testbit_high _ k); lia.
Qed.

Lemma testbit_pow2_split w n : 0 < w -> 0 <= n < 2 ^ w ->
  Z.testbit n (w - 1) = (2 ^ (w - 1) <=? n).
Proof.
  intros Hw Hn. assert (2 ^ w = 2 * 2 ^ (w - 1)) as Hp
    by (rewrite <- Z.pow_succ_r by lia; f_equal; lia).
  assert (0 < 2 ^ (w - 1)) by (apply Z.pow_pos_nonneg; lia).
  rewrite Z.testbit_odd, Z.shiftr_div_pow2 by lia.
  destruct (Z.leb_spec (2 ^ (w - 1)) n).
  - replace (n / 2 ^ (w - 1)) with 1; [done|].
    apply Z.div_unique with (n - 2 ^ (w - 1)); lia.
  - rewrite Z.div_small by lia. done.
Qed.

Lemma signed_of_bounds w n : 0 < w -> 0 <= n < 2 ^ w ->
  - 2 ^ (w - 1) <= signed_of w n < 2 ^ (w - 1).
Proof.
  intros Hw Hn. unfold signed_of. rewrite testbit_pow2_split by lia.
  assert (2 ^ w = 2 * 2 ^ (w - 1)) by (rewrite <- Z.pow_succ_r by lia; f_equal; lia).
  destruct (Z.leb_spec (2 ^ (w - 1)) n); lia.
Qed.

Lemma testbit_signed_of w n i : 0 < w -> 0 <= n < 2 ^ w -> 0 <= i ->
  Z.testbit (signed_of w n) i = Z.testbit n (Z.min i (w - 1)).
Proof.
  intros Hw Hn Hi. destruct (Z.ltb_spec i w).
  - rewrite Z.min_l by lia. unfold signed_of. destruct (Z.testbit n (w - 1)); [|done].
    rewrite <- (Z.mod_pow2_bits_low _ w) by lia. f_equal.
    replace (n - 2 ^ w) with (n + (-1) * 2 ^ w) by lia.
    rewrite Z.mod_add by (apply Z.pow_nonzero; lia). by apply Z.mod_small.
  - rewrite Z.min_r by lia. rewrite (testbit_sign _ (w - 1)); [|lia|by apply signed_of_bounds].
    unfold signed_of. destruct (Z.testbit n (w - 1)); cases_ltb; lia.
Qed.

Lemma to_int64_signed_of x : is_u64 x -> to_int64 x = signed_of 64 x.
Proof.
  intros Hx. unfold to_int64, signed_of. rewrite testbit_pow2_split by (done || lia).
  change (2 ^ (64 - 1)) with (2 ^ 63). destruct (Z.ltb_spec x (2 ^ 63)), (Z.leb_spec (2 ^ 63) x); lia.
Qed.

(** ** Readings of a four-state value *)

Lemma one_at_four v i : is_logic9 v = false ->
  one_at v i = read_bit (aval_words v) i && negb (read_bit (bval_words v) i).
Proof.
  intros H. unfold one_at, at4, at9. rewrite H, to_logic4_to_logic9.
  by destruct (read_bit (aval_words v) i), (read_bit (bval_words v) i).
Qed.

Lemma known_at_four v i : is_logic9 v = false -> known_at v i = negb (read_bit (bval_words v) i).
Proof.
  intros H. unfold known_at, at4, at9. rewrite H, to_logic4_to_logic9.
  by destruct (read_bit (aval_words v) i), (read_bit (bval_words v) i).
Qed.

Lemma uvalue_bound v : 0 <= width v -> 0 <= uvalue v < 2 ^ width v.
Proof. apply bits_value_bound. Qed.

Lemma testbit_uvalue v i : 0 <= width v -> 0 <= i ->
  Z.testbit (uvalue v) i = (i <? width v) && one_at v i.
Proof. apply testbit_bits_value. Qed.

Lemma words_zero ws : Forall is_u64 ws ->
  existsb (fun word => negb (word =? 0)) ws = false <-> forall i, 0 <= i -> read_bit ws i = false.
Proof.
  intros Hu. split.
  - intros Hz i Hi. rewrite read_bit_testbit by lia. rewrite word_at_lookup.
    destruct (ws !! Z.to_nat (i / 64)) eqn:E; simpl; [|apply Z.bits_0].
    destruct (Z.eqb_spec z 0) as [->|Hne]; [apply Z.bits_0|].
    assert (existsb (fun word => negb (word =? 0)) ws = true) as Ht; [|congruence].
    apply existsb_exists. exists z. split; [by apply list_elem_of_In, (list_elem_of_lookup_2 _ _ _ E)|lia].
  - intros Hz. apply not_true_is_false. intros (x & Hin & Hne)%existsb_exists.
    apply list_elem_of_In, list_elem_of_lookup in Hin as [k Hk].
    assert (x = 0); [|lia]. apply Z.bits_inj'. intros i Hi. rewrite Z.bits_0.
    destruct (Z.ltb_spec i 64).
    + rewrite <- (Hz (Z.of_nat k * 64 + i)) by lia. rewrite read_bit_split by lia.
      by rewrite word_at_lookup, Nat2Z.id, Hk.
    + apply testbit_u64_high; [|done]. by eapply Forall_lookup_1.
Qed.

Lemma all_known_four v : wf v -> is_logic9 v = false ->
  all_known v <-> existsb (fun word => negb (word =? 0)) (bval_words v) = false.
Proof.
  intros Hv Hn. destruct (wf_spans _ Hv) as (_ & Hb & _).
  rewrite words_zero by apply Hb. unfold all_known. split; intros H i Hi.
  - destruct (Z.ltb_spec i (width v)); [|apply (plane_clear _ _ (wf_bval _ Hv)); lia].
    specialize (H i ltac:(lia)). rewrite known_at_four in H by done. by apply negb_true_iff.
  - rewrite known_at_four, H by (done || lia). done.
Qed.

(** The value of a known vector is the number in its aval plane. *)
Lemma testbit_uvalue_known v i : wf v -> is_logic9 v = false -> all_known v -> 0 <= i ->
  Z.testbit (uvalue v) i = read_bit (aval_words v) i.
Proof.
  intros Hv Hn Hk Hi. pose proof (wf_width _ Hv). rewrite testbit_uvalue by lia.
  destruct (Z.ltb_spec i (width v)); simpl.
  - rewrite one_at_four by done. specialize (Hk i ltac:(lia)). rewrite known_at_four in Hk by done.
    by rewrite Hk, andb_true_r.
  - symmetry. apply (plane_clear _ _ (wf_aval _ Hv)). lia.
Qed.

Lemma drop_words_zero ws : Forall is_u64 ws ->
  existsb (fun word => negb (word =? 0)) (drop 1 ws) = false <->
  forall i, 64 <= i -> read_bit ws i = false.
Proof.
  intros Hu. rewrite words_zero by by apply Forall_drop.
  assert (forall i, 0 <= i -> read_bit (drop 1 ws) i = read_bit ws (i + 64)) as Hd.
  { intros i Hi. rewrite !read_bit_testbit, !word_at_lookup, lookup_drop by lia.
    replace (Z.to_nat ((i + 64) / 64)) with (1 + Z.to_nat (i / 64))%nat by lia.
    by replace ((i + 64) mod 64) with (i mod 64) by lia. }
  split; intros H i Hi.
  - replace i with ((i - 64) + 64) by lia. rewrite <- Hd by lia. apply H; lia.
  - rewrite Hd by lia. apply H; lia.
Qed.

Lemma read_front ws i : 0 <= i < 64 -> Z.testbit (front ws) i = read_bit ws i.
Proof.
  intros. unfold front. rewrite read_bit_testbit by lia.
  by rewrite Z.div_small, Z.mod_small by lia.
Qed.

Lemma known_unsigned_value_spec v n :
  wf v -> is_logic9 v = false -> 0 < width v ->
  known_unsigned_value v = Some n <-> all_known v /\ uvalue v = n /\ n < 2 ^ 64.
Proof.
  intros Hv Hn Hw. destruct (wf_spans _ Hv) as (Ha & Hb & _). unfold known_unsigned_value.
  rewrite (proj2 (Z.eqb_neq _ 0)), Hn by lia. simpl. rewrite all_known_four by done.
  destruct (existsb _ (bval_words v)) eqn:Eb; simpl; [split; [done|by intros (? & _)]|].
  assert (all_known v) as Hk by by apply all_known_four.
  pose proof (fun i => testbit_uvalue_known v i Hv Hn Hk) as Hbit.
  pose proof (uvalue_bound v ltac:(lia)) as Hu0.
  assert (is_u64 (front (aval_words v))) as Hfu by (apply word_at_u64, Ha).
  destruct (existsb _ (drop 1 _)) eqn:Ed.
  - split; [done|]. intros (_ & Hu & Hlt). exfalso. apply not_false_iff_true in Ed. apply Ed.
    apply drop_words_zero; [apply Ha|]. intros i Hi. rewrite <- Hbit by lia.
    apply (testbit_high _ 64); lia.
  - rewrite drop_words_zero in Ed by apply Ha.
    assert (uvalue v = front (aval_words v)) as Hf.
    { apply Z.bits_inj'. intros i Hi. rewrite Hbit by lia. destruct (Z.ltb_spec i 64).
      - by rewrite read_front by lia.
      - rewrite Ed by lia. symmetry. by apply testbit_u64_high. }
    rewrite Hf. unfold is_u64 in Hfu. split; [intros [= <-]; split_and!; done || lia|].
    by intros (_ & -> & _).
Qed.

Lemma svalue_bits v i : wf v -> is_logic9 v = false -> all_known v -> 0 < width v -> 0 <= i ->
  Z.testbit (svalue v) i = read_bit (aval_words v) (Z.min i (width v - 1)).
Proof.
  intros Hv Hn Hk Hw Hi. unfold svalue.
  rewrite testbit_signed_of by (apply uvalue_bound || lia; lia).
  apply testbit_uvalue_known; done || lia.
Qed.

Lemma svalue_bounds v : 0 < width v -> - 2 ^ (width v - 1) <= svalue v < 2 ^ (width v - 1).
Proof. intros. apply signed_of_bounds; [done|]. apply uvalue_bound. lia. Qed.

Lemma testbit_set x k : 0 <= k < 64 -> negb (Z.land x (shl64 1 k) =? 0) = Z.testbit x k.
Proof.
  intros Hk. destruct (Z.testbit x k) eqn:E.
  - apply negb_true_iff, Z.eqb_neq. intros H0. apply (f_equal (fun y => Z.testbit y k)) in H0.
    rewrite Z.land_spec, E, testbit_shl_one, Z.bits_0 in H0 by lia. lia.
  - apply negb_false_iff, Z.eqb_eq. apply Z.bits_inj'. intros j Hj.
    rewrite Z.land_spec, testbit_shl_one, Z.bits_0 by lia.
    destruct (Z.eqb_spec j k) as [->|]; [by rewrite E|by rewrite !andb_false_r].
Qed.

(** The words from the second on repeat bit 63. *)
Definition extension_word (v : PackedLogic4) (negative : bool) (index : Z) : bool :=
  let aval := aval_words v in
  let mask := if index + 1 =? size aval then final_word_mask (width v) else U64_MAX in
  Z.land (word_at aval index) mask =? (if negative then mask else 0).

Lemma extension_word_spec v negative index :
  wf v -> 1 <= index < words_for (width v) ->
  extension_word v negative index = true <->
  forall i, i / 64 = index -> 0 <= i < width v -> read_bit (aval_words v) i = negative.
Proof.
  intros Hv Hix. destruct (wf_spans _ Hv) as (Ha & _). pose proof (wf_width _ Hv).
  unfold extension_word. rewrite (span_size _ _ Ha).
  set (mask := if _ =? _ then _ else _). rewrite Z.eqb_eq.
  assert (forall j, 0 <= j < 64 -> Z.testbit mask j = (index * 64 + j <? width v)) as Hm.
  { intros j Hj. subst mask. unfold words_for in *. destruct (Z.eqb_spec (index + 1) ((width v + 63) / 64)).
    - rewrite testbit_final_word_mask by lia. cases_ltb; simpl; lia.
    - rewrite testbit_u64_max by lia. cases_ltb; lia. }
  assert (is_u64 mask) as Hmu by (subst mask; destruct (_ =? _); auto using is_u64_final_word_mask with fsim).
  split.
  - intros He i Hi Hw. apply (f_equal (fun y => Z.testbit y (i mod 64))) in He.
    rewrite Z.land_spec, Hm in He by lia. replace (index * 64 + i mod 64) with i in He by lia.
    rewrite (proj2 (Z.ltb_lt i _)), andb_true_r in He by lia.
    rewrite read_bit_testbit, Hi, He by lia. destruct negative; [|apply Z.bits_0].
    rewrite Hm by lia. replace (index * 64 + i mod 64) with i by lia. lia.
  - intros Hall. apply Z.bits_inj'. intros j Hj. rewrite Z.land_spec. destruct (Z.ltb_spec j 64).
    + rewrite <- read_bit_split by lia. destruct (Z.ltb_spec (index * 64 + j) (width v)) as [Hlt|Hge].
      * rewrite Hall, Hm by lia. rewrite (proj2 (Z.ltb_lt _ (width v))) by lia.
        destruct negative; [|by rewrite Z.bits_0]. rewrite Hm by lia. simpl. lia.
      * rewrite Hm, (proj2 (Z.ltb_ge _ (width v))), andb_false_r by lia.
        destruct negative; [|by rewrite Z.bits_0]. rewrite Hm by lia. symmetry. apply Z.ltb_ge. lia.
    + rewrite (testbit_u64_high mask), andb_false_r by (done || lia).
      destruct negative; [|by rewrite Z.bits_0]. by rewrite (testbit_u64_high mask).
Qed.

Lemma forallb_up lo hi (p : Z -> bool) :
  forallb p (up lo hi) = true <-> forall i, lo <= i < hi -> p i = true.
Proof.
  rewrite forallb_forall. split; intros H i Hi; apply H; apply list_elem_of_In, elem_of_up || idtac.
  - done.
  - by apply list_elem_of_In, elem_of_up in Hi.
Qed.

(** The sign-extended low word of a narrow value is its signed reading. *)
Lemma sign_extended_low v :
  wf v -> is_logic9 v = false -> all_known v -> 0 < width v < 64 ->
  let low := front (aval_words v) in
  to_int64 (if read_bit (aval_words v) (width v - 1)
            then Z.lor low (not64 (final_word_mask (width v))) else low) = svalue v.
Proof.
  intros Hv Hn Hk Hw low0. destruct (wf_spans _ Hv) as (Ha & _).
  assert (is_u64 low0) as Hfu by (apply word_at_u64, Ha). remember (if read_bit (aval_words v) (width v - 1)
    then Z.lor low0 (not64 (final_word_mask (width v))) else low0) as low eqn:Elow.
  assert (is_u64 low) as Hlu by (rewrite Elow; destruct (read_bit _ _); auto with fsim).
  assert (forall j, 0 <= j < 64 ->
    Z.testbit low j = read_bit (aval_words v) (Z.min j (width v - 1))) as Hl.
  { intros j Hj. rewrite Elow. subst low0. destruct (read_bit (aval_words v) (width v - 1)) eqn:Es;
      rewrite ?Z.lor_spec, ?testbit_not64, ?testbit_final_word_mask_narrow, read_front by lia;
      (destruct (Z.ltb_spec j (width v)); [rewrite Z.min_l by lia|rewrite Z.min_r, Es by lia]).
    - by rewrite andb_false_r, orb_false_r.
    - rewrite (proj2 (Z.ltb_lt j 64)) by lia. apply orb_true_r.
    - done.
    - apply (plane_clear _ _ (wf_aval _ Hv)). lia. }
  rewrite to_int64_signed_of by done. apply Z.bits_inj'. intros i Hi.
  rewrite testbit_signed_of, svalue_bits, Hl by (done || lia). f_equal. lia.
Qed.

(** A wide value fits 64 bits exactly when its upper words extend bit 63. *)
Lemma wide_extension v :
  wf v -> is_logic9 v = false -> all_known v -> 64 <= width v ->
  forallb (extension_word v (read_bit (aval_words v) 63)) (up 1 (size (aval_words v))) = true
  <-> - 2 ^ 63 <= svalue v < 2 ^ 63.
Proof.
  intros Hv Hn Hk Hw. destruct (wf_spans _ Hv) as (Ha & _).
  pose proof (fun i => svalue_bits v i Hv Hn Hk ltac:(lia)) as Hbit.
  rewrite forallb_up, (span_size _ _ Ha). split.
  - intros Hall. assert (svalue v = to_int64 (front (aval_words v))) as ->.
    { assert (is_u64 (front (aval_words v))) by (apply word_at_u64, Ha).
      rewrite to_int64_signed_of by done. apply Z.bits_inj'. intros i Hi.
      rewrite Hbit, testbit_signed_of, read_front by (done || lia).
      destruct (Z.ltb_spec i 64); [f_equal; lia|]. rewrite (Z.min_r i (64 - 1)) by lia.
      destruct (Z.eq_dec (width v) 64); [f_equal; lia|].
      set (k := Z.min i (width v - 1)). assert (64 <= k < width v) by lia.
      apply (proj1 (extension_word_spec v _ (k / 64) Hv ltac:(unfold words_for; lia)));
        [apply Hall; unfold words_for; lia|done|lia]. }
    pose proof (word_at_u64 (aval_words v) 0 ltac:(apply Ha)) as Hu.
    unfold to_int64, front. unfold is_u64 in Hu. destruct (Z.ltb_spec (word_at (aval_words v) 0) (2 ^ 63)); lia.
  - intros Hb index Hix. apply extension_word_spec; [done|lia|]. intros i Hi1 Hi2.
    assert (read_bit (aval_words v) i = (svalue v <? 0)) as ->.
    { rewrite <- (testbit_sign _ 63 i) by lia. rewrite Hbit by lia. f_equal. lia. }
    rewrite <- (testbit_sign _ 63 63) by lia. rewrite Hbit by lia. f_equal. lia.
Qed.

(** The low word of a value that fits 64 bits is its signed reading. *)
Lemma fitting_low v :
  wf v -> is_logic9 v = false -> all_known v -> 64 <= width v -> - 2 ^ 63 <= svalue v < 2 ^ 63 ->
  to_int64 (front (aval_words v)) = svalue v.
Proof.
  intros Hv Hn Hk Hw Hb. destruct (wf_spans _ Hv) as (Ha & _).
  assert (is_u64 (front (aval_words v))) by (apply word_at_u64, Ha).
  rewrite to_int64_signed_of by done. apply Z.bits_inj'. intros i Hi.
  rewrite testbit_signed_of, read_front by (done || lia).
  destruct (Z.ltb_spec i 63).
  - rewrite svalue_bits by (done || lia). f_equal. lia.
  - rewrite (testbit_sign _ 63 i), <- (testbit_sign _ 63 63) by lia.
    rewrite svalue_bits by (done || lia). f_equal. lia.
Qed.

Lemma known_signed_value_spec v n :
  wf v -> is_logic9 v = false -> 0 < width v ->
  known_signed_value v = Some n <-> all_known v /\ svalue v = n /\ - 2 ^ 63 <= n < 2 ^ 63.
Proof.
  intros Hv Hn Hw. unfold known_signed_value.
  rewrite (proj2 (Z.eqb_neq _ 0)), Hn by lia. simpl. rewrite all_known_four by done.
  destruct (existsb _ (bval_words v)) eqn:Eb; simpl; [split; [done|by intros (? & _)]|].
  assert (all_known v) as Hk by by apply all_known_four.
  pose proof (svalue_bounds v Hw) as Hsb.
  unfold bits_per_word. destruct (Z.ltb_spec (width v) 64).
  - rewrite testbit_set, read_front, sign_extended_low by (done || lia).
    assert (2 ^ (width v - 1) <= 2 ^ 63) by (apply Z.pow_le_mono_r; lia).
    split; [intros [= <-]; split_and!; done || lia|by intros (_ & -> & _)].
  - rewrite testbit_set, read_front by lia.
    change (fun index => _) with (extension_word v (read_bit (aval_words v) 63)).
    pose proof (wide_extension v Hv Hn Hk ltac:(lia)) as Hext.
    destruct (forallb _ _).
    + rewrite fitting_low by (done || lia || by apply Hext).
      split; [intros [= <-]; split_and!; done || by apply Hext|by intros (_ & -> & _)].
    + split; [done|]. intros (_ & Hs & Hr). rewrite <- Hs in Hr. by apply Hext in Hr.
Qed.
