(* ===== verification/PackedBit2.v ===== *)
(** * The two-state vector

    Model of class [PackedBit2] of include/fsim/runtime/packed_value.hpp and
    src/runtime/packed_value.cpp: a width and one plane of words, addressed by
    bit and masked above the width. *)
From S2P Require Import Prelude WordSpan PackedText.
Ltac Zify.zify_post_hook ::= Z.div_mod_to_equations.

Record PackedBit2 := mkPackedBit2 {
  bit2_width : Z;
  bit2_words : list Z;
}.

Definition bit2_mask_unused_bits (v : PackedBit2) : PackedBit2 :=
  {| bit2_width := bit2_width v; bit2_words := mask_last (bit2_words v) (bit2_width v) |}.

(** The constructor [PackedBit2(width, initial)]. *)
Definition bit2_make (width : Z) (initial : bool) : Outcome PackedBit2 :=
  words ← word_count width;
  Ok (bit2_mask_unused_bits
        {| bit2_width := width;
           bit2_words := replicate (Z.to_nat words) (if initial then not64 0 else 0) |}).

Definition bit2_get (v : PackedBit2) (index : Z) : Outcome bool :=
  _ ← check_index index (bit2_width v);
  Ok (read_bit (bit2_words v) index).

Definition bit2_set (v : PackedBit2) (index : Z) (value : bool) : Outcome PackedBit2 :=
  _ ← check_index index (bit2_width v);
  Ok {| bit2_width := bit2_width v; bit2_words := write_bit (bit2_words v) index value |}.

Definition bit2_fill (v : PackedBit2) (value : bool) : PackedBit2 :=
  bit2_mask_unused_bits
    {| bit2_width := bit2_width v;
       bit2_words := replicate (length (bit2_words v)) (if value then not64 0 else 0) |}.

Definition bit2_from_msb_string (value : list ascii) : Outcome PackedBit2 :=
  result ← bit2_make (size value) false;
  foreach (up 0 (size value)) (fun offset result =>
    let character := char_from_end value offset in
    if negb (bool_decide (character = "0"%char)) && negb (bool_decide (character = "1"%char))
    then Throw (invalid_argument "two-state vector contains a non-binary digit")
    else bit2_set result offset (bool_decide (character = "1"%char))) result.

Definition bit2_to_msb_string (v : PackedBit2) : Outcome (list ascii) :=
  foreach (up 0 (bit2_width v)) (fun index result =>
    bit ← bit2_get v index;
    Ok (put_char_from_end (bit2_width v) index (if bit : bool then "1"%char else "0"%char) result))
    (replicate (Z.to_nat (bit2_width v)) "0"%char).

(** * Specification vocabulary *)

(** A vector of [w] bits whose bit [i] is [f i]; it is determined by them. *)
Record Bits (v : PackedBit2) (w : Z) (f : Z -> bool) : Prop := {
  bits_width : bit2_width v = w;
  bits_range : 0 <= w <= SIZE_MAX - 63;
  bits_plane : plane_ok w (bit2_words v);
  bits_at : forall i, 0 <= i < w -> read_bit (bit2_words v) i = f i;
}.

(** * Theorems *)

Lemma Bits_unique v1 v2 w f : Bits v1 w f -> Bits v2 w f -> v1 = v2.
Proof.
  destruct v1 as [w1 ws1], v2 as [w2 ws2].
  intros [H1 _ P1 A1] [H2 _ P2 A2]. simpl in *. subst. f_equal.
  eapply plane_ext; [done|done|]. intros i Hi. by rewrite A1, A2.
Qed.

Lemma bit2_masked w b n :
  0 <= w <= SIZE_MAX - 63 -> Z.of_nat n = words_for w ->
  Bits (bit2_mask_unused_bits (mkPackedBit2 w (replicate n (if b : bool then not64 0 else 0))))
    w (fun _ => b).
Proof.
  intros Hw Hn. pose proof (words_for_bounds w ltac:(lia)).
  replace n with (Z.to_nat (words_for w)) by lia.
  assert (span_ok (words_for w) (replicate (Z.to_nat (words_for w)) (if b then not64 0 else 0))) as Hs
    by (apply span_replicate; [lia|destruct b; auto with fsim]).
  split; simpl; [done|done|apply plane_mask_last; [lia|done]|].
  intros i Hi. rewrite read_mask_last by (apply Hs || lia).
  rewrite (proj2 (Z.ltb_lt i w)), read_replicate by lia. done.
Qed.

Lemma bit2_make_spec w b :
  0 <= w <= SIZE_MAX - 63 -> returns (bit2_make w b) (fun v => Bits v w (fun _ => b)).
Proof.
  intros Hw. unfold bit2_make. rewrite word_count_ok by lia. simpl.
  apply bit2_masked; [done|]. pose proof (words_for_nonneg w ltac:(lia)). lia.
Qed.

Lemma bit2_fill_spec v w f b : Bits v w f -> Bits (bit2_fill v b) w (fun _ => b).
Proof.
  intros [<- Hr Hp _]. apply bit2_masked; [done|]. apply (span_size _ _ (plane_span _ _ Hp)).
Qed.

Lemma bit2_get_spec v w f i : Bits v w f -> 0 <= i < w -> bit2_get v i = Ok (f i).
Proof.
  intros [Hw _ _ Ha] Hi. unfold bit2_get. rewrite check_index_ok by lia. simpl. by rewrite Ha.
Qed.

Lemma bit2_set_spec v w f i b : Bits v w f -> 0 <= i < w ->
  returns (bit2_set v i b) (fun r => Bits r w (fun j => if j =? i then b else f j)).
Proof.
  intros [Hw Hr Hp Ha] Hi. unfold bit2_set. rewrite check_index_ok by lia. simpl.
  pose proof (words_for_bounds w ltac:(lia)). pose proof (span_size _ _ (plane_span _ _ Hp)).
  split; simpl; [done|done|apply plane_write_bit; done || lia|].
  intros j Hj. rewrite read_write_bit by lia. by destruct (j =? i); [|apply Ha].
Qed.

Lemma bit2_index_throws v w f i b : Bits v w f -> w <= i ->
  bit2_get v i = Throw (out_of_range "packed value bit index is out of range") /\
  bit2_set v i b = Throw (out_of_range "packed value bit index is out of range").
Proof.
  intros [Hw _ _ _] Hi. unfold bit2_get, bit2_set, check_index. rewrite Z.geb_leb, Hw.
  by rewrite (proj2 (Z.leb_le w i)).
Qed.

Lemma bit2_to_msb_string_spec v w f : Bits v w f ->
  bit2_to_msb_string v = Ok ((fun i => if f i then "1"%char else "0"%char) <$> down w).
Proof.
  intros Hv. pose proof Hv as [Hw Hr _ _]. unfold bit2_to_msb_string. rewrite Hw.
  apply returns_eq. eapply returns_mono; [apply (foreach_up (fun i r =>
    r = replicate (Z.to_nat (w - i)) "0"%char ++ ((fun i => if f i then "1"%char else "0"%char) <$> down i)))|].
  - intros i r Hi ->. erewrite bit2_get_spec by done.
    by apply (put_char_snoc w i _ (fun i => if f i then "1"%char else "0"%char)).
  - lia.
  - by rewrite Z.sub_0_r, app_nil_r.
  - intros r ->. by rewrite Z.sub_diag.
Qed.

Lemma bit2_from_msb_string_spec value :
  size value <= SIZE_MAX - 63 -> Forall (fun c => c = "0"%char \/ c = "1"%char) value ->
  returns (bit2_from_msb_string value)
    (fun r => Bits r (size value) (fun i => bool_decide (char_from_end value i = "1"%char))).
Proof.
  intros Hsz Hall. pose proof (size_nonneg value). unfold bit2_from_msb_string. apply returns_bind.
  eapply returns_mono; [by apply bit2_make_spec|]. intros r0 H0.
  set (d := fun i => bool_decide (char_from_end value i = "1"%char)).
  eapply returns_mono; [apply (foreach_up (fun i r => Bits r (size value) (fun j => (j <? i) && d j)))|].
  - intros i r Hi Hr. pose proof (char_from_end_elem value i Hi) as Hin.
    rewrite Forall_forall in Hall. assert ((negb (bool_decide (char_from_end value i = "0"%char))
      && negb (bool_decide (char_from_end value i = "1"%char)) = false)) as ->.
    { destruct (Hall _ Hin) as [-> | ->]; done. }
    eapply returns_mono; [by eapply bit2_set_spec|]. intros r' [B1 B2 B3 B4]. split; try done.
    intros j Hj. rewrite B4 by done. unfold d. destruct (Z.eqb_spec j i) as [->|].
    + by rewrite (proj2 (Z.ltb_lt i (i + 1))) by lia.
    + f_equal. cases_ltb; lia.
  - done.
  - destruct H0 as [B1 B2 B3 B4]. split; try done. intros i Hi. rewrite B4 by done.
    by rewrite (proj2 (Z.ltb_ge i 0)) by lia.
  - intros r [B1 B2 B3 B4]. split; try done. intros i Hi. rewrite B4 by done.
    by rewrite (proj2 (Z.ltb_lt i _)) by lia.
Qed.

(** Printing and reading back is the identity, in both directions. *)
Lemma bit2_round_trip v w f : Bits v w f -> (bit2_to_msb_string v ≫= bit2_from_msb_string) = Ok v.
Proof.
  intros Hv. pose proof (bits_range _ _ _ Hv) as Hr. erewrite bit2_to_msb_string_spec by done. simpl.
  set (text := _ <$> down w). assert (size text = w) as Hs
    by (unfold size, text; rewrite length_fmap, length_down; lia).
  apply returns_eq. eapply returns_mono; [apply bit2_from_msb_string_spec|].
  - lia.
  - apply Forall_forall. intros c (i & -> & _)%list_elem_of_fmap. destruct (f i); auto.
  - intros r HB. rewrite Hs in HB. eapply Bits_unique; [done|].
    destruct HB as [B1 B2 B3 B4]. split; try done. intros i Hi. rewrite B4 by done.
    unfold text. rewrite char_from_end_down by done. by destruct (f i).
Qed.

Lemma bit2_from_msb_string_invalid value c :
  size value <= SIZE_MAX - 63 -> c ∈ value -> c <> "0"%char -> c <> "1"%char ->
  bit2_from_msb_string value =
    Throw (invalid_argument "two-state vector contains a non-binary digit").
Proof.
  intros Hsz Hc H0 H1. pose proof (size_nonneg value). unfold bit2_from_msb_string.
  destruct (elem_char_from_end value c Hc) as (bad & Hbad & Ec).
  destruct (returns_inv _ _ (bit2_make_spec (size value) false ltac:(lia))) as (r0 & -> & HB). simpl.
  apply (foreach_throws_inv (fun r => exists f, Bits r (size value) f)); [eauto| |].
  - intros i r Hi%elem_of_up [f Hr]. destruct (negb _ && negb _); [by left|right].
    eapply returns_mono; [by eapply bit2_set_spec|]. intros r' Hr'. eexists; exact Hr'.
  - exists bad. rewrite elem_of_up. split; [done|]. intros r. rewrite Ec.
    by rewrite !bool_decide_eq_false_2.
Qed.
