(* ===== verification/PackedLogic9.v ===== *)
(** * The nine-state vector and conversions

    Model of class [PackedLogic9] and of [collapse_to_logic4] and
    [expand_to_logic9] of src/runtime/packed_value.cpp.  The vector keeps the
    four planes of the ordinal codes in an array. *)
From S2P Require Import Prelude Logic WordSpan LogicWord PackedLogic4 PackedText.
Ltac Zify.zify_post_hook ::= Z.div_mod_to_equations.

Record PackedLogic9 := mkPackedLogic9 {
  packed9_width : Z;
  packed9_planes : list (list Z);
}.

Definition packed9_mask_unused_bits (v : PackedLogic9) : PackedLogic9 :=
  {| packed9_width := packed9_width v;
     packed9_planes := (fun plane => mask_last plane (packed9_width v)) <$> packed9_planes v |}.

Definition packed9_fill (v : PackedLogic9) (value : Logic9) : PackedLogic9 :=
  let encoded := logic9_code value in
  packed9_mask_unused_bits
    {| packed9_width := packed9_width v;
       packed9_planes := imap (fun plane words => fill_words words (code_bit encoded (Z.of_nat plane)))
                           (packed9_planes v) |}.

(** The constructor [PackedLogic9(width, initial)]. *)
Definition packed9_make (width : Z) (initial : Logic9) : Outcome PackedLogic9 :=
  count ← word_count width;
  Ok (packed9_fill {| packed9_width := width;
                      packed9_planes := replicate 4 (replicate (Z.to_nat count) 0) |} initial).

Definition packed9_get (v : PackedLogic9) (index : Z) : Outcome Logic9 :=
  _ ← check_index index (packed9_width v);
  let encoded := foreach_pure (up 0 (size (packed9_planes v))) (fun plane encoded =>
    Z.lor encoded
      (Z.shiftl (Z.b2z (read_bit (nth (Z.to_nat plane) (packed9_planes v) []) index)) plane)) 0 in
  Ok (if encoded <=? logic9_code Logic9_dont_care then logic9_of_code encoded else Logic9_x).

Definition packed9_set (v : PackedLogic9) (index : Z) (value : Logic9) : Outcome PackedLogic9 :=
  _ ← check_index index (packed9_width v);
  let encoded := logic9_code value in
  Ok {| packed9_width := packed9_width v;
        packed9_planes := imap (fun plane words =>
          write_bit words index (code_bit encoded (Z.of_nat plane))) (packed9_planes v) |}.

Definition packed9_plane (v : PackedLogic9) (index : Z) : Outcome (list Z) :=
  if index >=? size (packed9_planes v)
  then Throw (out_of_range "nine-state vector plane index is out of range")
  else Ok (nth (Z.to_nat index) (packed9_planes v) []).

Definition packed9_from_msb_string (value : list ascii) : Outcome PackedLogic9 :=
  result ← packed9_make (size value) Logic9_u;
  foreach (up 0 (size value)) (fun offset result =>
    match parse_logic9 (char_from_end value offset) with
    | None => Throw (invalid_argument "nine-state vector contains an invalid digit")
    | Some parsed => packed9_set result offset parsed
    end) result.

Definition packed9_to_msb_string (v : PackedLogic9) : Outcome (list ascii) :=
  foreach (up 0 (packed9_width v)) (fun index result =>
    value ← packed9_get v index;
    Ok (put_char_from_end (packed9_width v) index (to_char9 value) result))
    (replicate (Z.to_nat (packed9_width v)) "U"%char).

Definition collapse_packed9 (value : PackedLogic9) : Outcome PackedLogic4 :=
  result ← make (packed9_width value) Logic4_zero;
  foreach (up 0 (packed9_width value)) (fun index result =>
    element ← packed9_get value index;
    set result index (to_logic4 element)) result.

Definition collapse_to_logic4 (value : PackedLogic4) : Outcome PackedLogic4 :=
  if negb (is_logic9 value) then Ok (copy value)
  else
    result ← make (width value) Logic4_zero;
    foreach (up 0 (width value)) (fun index result =>
      element ← get_logic9 value index;
      set result index (to_logic4 element)) result.

Definition expand_to_logic9 (value : PackedLogic4) : Outcome PackedLogic9 :=
  result ← packed9_make (width value) Logic9_zero;
  foreach (up 0 (width value)) (fun index result =>
    element ← get_logic9 value index;
    packed9_set result index element) result.

(** * Specification vocabulary *)

(** The four plane bits of a nine-state value, the planes of code [f]. *)
Definition plane_bit (f : Z -> Logic9) (plane i : Z) : bool :=
  Z.testbit (logic9_code (f i)) plane.

(** A vector of [w] nine-state elements whose element [i] is [f i]. *)
Record Nine (v : PackedLogic9) (w : Z) (f : Z -> Logic9) : Prop := {
  nine_width : packed9_width v = w;
  nine_range : 0 <= w <= SIZE_MAX - 63;
  nine_planes : exists p0 p1 p2 p3, packed9_planes v = [p0; p1; p2; p3] /\
    plane_ok w p0 /\ plane_ok w p1 /\ plane_ok w p2 /\ plane_ok w p3 /\
    forall i, 0 <= i < w -> read_bit p0 i = plane_bit f 0 i /\ read_bit p1 i = plane_bit f 1 i /\
      read_bit p2 i = plane_bit f 2 i /\ read_bit p3 i = plane_bit f 3 i;
}.

(** * Theorems *)

Lemma Nine_unique v1 v2 w f : Nine v1 w f -> Nine v2 w f -> v1 = v2.
Proof.
  destruct v1 as [w1 ps], v2 as [w2 qs].
  intros [H1 _ (p0 & p1 & p2 & p3 & E1 & P0 & P1 & P2 & P3 & A1)]
         [H2 _ (q0 & q1 & q2 & q3 & E2 & Q0 & Q1 & Q2 & Q3 & A2)]. simpl in *. subst. f_equal.
  repeat f_equal; eapply plane_ext; eauto; intros i Hi;
    destruct (A1 i Hi) as (?&?&?&?), (A2 i Hi) as (?&?&?&?); congruence.
Qed.

Lemma Nine_ext v w f g : Nine v w f -> (forall i, 0 <= i < w -> f i = g i) -> Nine v w g.
Proof.
  intros [? ? (p0 & p1 & p2 & p3 & E & P0 & P1 & P2 & P3 & A)] Hfg. split; [done|done|].
  exists p0, p1, p2, p3. split_and!; try done. intros i Hi. unfold plane_bit in *.
  rewrite <- Hfg by done. by apply A.
Qed.

Lemma packed9_fill_spec w ps x :
  0 <= w <= SIZE_MAX - 63 -> length ps = 4%nat -> Forall (span_ok (words_for w)) ps ->
  Nine (packed9_fill (mkPackedLogic9 w ps) x) w (fun _ => x).
Proof.
  intros Hw Hl Hs. destruct ps as [|p0 [|p1 [|p2 [|p3 [|]]]]]; try done.
  rewrite !Forall_cons in Hs. destruct Hs as (S0 & S1 & S2 & S3 & _).
  pose proof (words_for_bounds w ltac:(lia)).
  split; [done|done|]. simpl. eexists _, _, _, _. split; [reflexivity|].
  split_and!; try (apply plane_mask_last; [lia|by apply span_fill_words]).
  intros i Hi. unfold plane_bit. assert (forall ws b, span_ok (words_for w) ws ->
    read_bit (mask_last (fill_words ws b) w) i = b) as Hrd.
  { intros ws b Hws. rewrite read_mask_last by (apply (span_fill_words _ _ b Hws) || lia).
    rewrite (proj2 (Z.ltb_lt i w)) by lia. apply read_fill_words. rewrite (span_size _ _ Hws). lia. }
  by rewrite !Hrd, !code_bit_testbit by (done || lia).
Qed.

Lemma packed9_make_spec w x :
  0 <= w <= SIZE_MAX - 63 -> returns (packed9_make w x) (fun v => Nine v w (fun _ => x)).
Proof.
  intros Hw. unfold packed9_make. rewrite word_count_ok by lia. simpl returns.
  apply packed9_fill_spec; [done|done|].
  pose proof (words_for_nonneg w ltac:(lia)).
  repeat constructor; try (by apply Forall_replicate); unfold size; rewrite length_replicate; lia.
Qed.

Lemma packed9_get_spec v w f i : Nine v w f -> 0 <= i < w -> packed9_get v i = Ok (f i).
Proof.
  intros [Hw _ (p0 & p1 & p2 & p3 & E & _ & _ & _ & _ & A)] Hi. unfold packed9_get.
  rewrite check_index_ok, E by lia. change (up 0 (size [p0; p1; p2; p3])) with [0; 1; 2; 3]. simpl.
  destruct (A i Hi) as (-> & -> & -> & ->). unfold plane_bit. by destruct (f i).
Qed.

Lemma packed9_set_spec v w f i x : Nine v w f -> 0 <= i < w ->
  returns (packed9_set v i x) (fun r => Nine r w (fun j => if j =? i then x else f j)).
Proof.
  intros [Hw Hr (p0 & p1 & p2 & p3 & E & P0 & P1 & P2 & P3 & A)] Hi. unfold packed9_set.
  rewrite check_index_ok, E by lia. simpl. pose proof (words_for_bounds w ltac:(lia)).
  split; [done|done|]. simpl. eexists _, _, _, _. split; [reflexivity|].
  split_and!; try (apply plane_write_bit; done || lia).
  intros j Hj. unfold plane_bit in *. specialize (A j Hj) as (A0 & A1 & A2 & A3).
  rewrite !read_write_bit, !code_bit_testbit by
    (rewrite ?(span_size _ _ (plane_span _ _ P0)), ?(span_size _ _ (plane_span _ _ P1)),
       ?(span_size _ _ (plane_span _ _ P2)), ?(span_size _ _ (plane_span _ _ P3)); lia).
  by destruct (j =? i).
Qed.

(** Filling a vector element by element. *)
Lemma packed9_set_loop w (body : Z -> PackedLogic9 -> Outcome PackedLogic9) f g v :
  Nine v w g ->
  (forall i r, 0 <= i < w -> packed9_width r = w -> body i r = packed9_set r i (f i)) ->
  returns (foreach (up 0 w) body v) (fun r => Nine r w f).
Proof.
  intros Hv Hbody. pose proof (nine_range _ _ _ Hv).
  eapply returns_mono; [apply (foreach_up (fun i r => Nine r w (fun j => if j <? i then f j else g j)))|].
  - intros i r Hi Hr. rewrite Hbody by (done || apply Hr).
    eapply returns_mono; [by eapply packed9_set_spec|]. intros r' Hr'. eapply Nine_ext; [exact Hr'|].
    intros j Hj. simpl. destruct (Z.eqb_spec j i) as [->|].
    + by rewrite (proj2 (Z.ltb_lt i (i + 1))) by lia.
    + by replace (j <? i + 1) with (j <? i) by (cases_ltb; lia).
  - lia.
  - eapply Nine_ext; [exact Hv|]. intros j Hj. simpl. by rewrite (proj2 (Z.ltb_ge j 0)) by lia.
  - intros r Hr. eapply Nine_ext; [exact Hr|]. intros j Hj. simpl.
    by rewrite (proj2 (Z.ltb_lt j w)) by lia.
Qed.

Lemma packed9_from_msb_string_spec value :
  size value <= SIZE_MAX - 63 -> Forall (fun c => is_Some (parse_logic9 c)) value ->
  returns (packed9_from_msb_string value) (fun r => Nine r (size value) (digit9 value)).
Proof.
  intros Hsz Hall. pose proof (size_nonneg value). unfold packed9_from_msb_string.
  apply returns_bind. eapply returns_mono; [apply packed9_make_spec; lia|]. intros r0 H0.
  eapply packed9_set_loop; [exact H0|]. intros i r Hi _.
  by rewrite (parse_digits _ Logic9_x) by done.
Qed.

Lemma packed9_to_msb_string_spec v w f : Nine v w f ->
  packed9_to_msb_string v = Ok ((fun i => to_char9 (f i)) <$> down w).
Proof.
  intros Hv. pose proof (nine_width _ _ _ Hv) as Hw. pose proof (nine_range _ _ _ Hv) as Hr.
  unfold packed9_to_msb_string. rewrite Hw. apply returns_eq.
  eapply returns_mono; [apply (foreach_up (fun i r => r =
    replicate (Z.to_nat (w - i)) "U"%char ++ ((fun i => to_char9 (f i)) <$> down i)))|].
  - intros i r Hi ->. erewrite packed9_get_spec by done. simpl. 
    by apply (put_char_snoc w i _ (fun i => to_char9 (f i))).
  - lia.
  - by rewrite Z.sub_0_r, app_nil_r.
  - intros r ->. by rewrite Z.sub_diag.
Qed.

Lemma packed9_round_trip v w f :
  Nine v w f -> (packed9_to_msb_string v ≫= packed9_from_msb_string) = Ok v.
Proof.
  intros Hv. pose proof (nine_range _ _ _ Hv) as Hr. erewrite packed9_to_msb_string_spec by done.
  simpl. set (text := _ <$> down w). assert (size text = w) as Hs
    by (unfold size, text; rewrite length_fmap, length_down; lia).
  apply returns_eq. eapply returns_mono; [apply packed9_from_msb_string_spec|].
  - lia.
  - apply Forall_forall. intros c (i & -> & _)%list_elem_of_fmap. rewrite parse_to_char9. eauto.
  - intros r HB. rewrite Hs in HB. eapply Nine_unique; [done|]. eapply Nine_ext; [done|].
    intros i Hi. unfold digit9, text. by rewrite char_from_end_down, parse_to_char9.
Qed.

(** ** Conversions *)

Lemma set_loop w (body : Z -> PackedLogic4 -> Outcome PackedLogic4) f g v :
  Rep v w false g ->
  (forall i r, 0 <= i < w -> body i r = set r i (f i)) ->
  returns (foreach (up 0 w) body v) (fun r => Rep r w false (fun i => to_logic9 (f i))).
Proof.
  intros Hv Hbody. pose proof (wf_width _ (rep_wf _ _ _ _ Hv)). pose proof (rep_width _ _ _ _ Hv).
  eapply returns_mono; [apply (foreach_up (fun i r =>
    Rep r w false (fun j => if j <? i then to_logic9 (f j) else g j)))|].
  - intros i r Hi [R1 R2 R3 R4 R5]. rewrite Hbody by done.
    eapply returns_mono; [apply set_spec; [done|lia]|].
    intros r' (S1 & S2 & S3 & S4 & S5). split; try congruence.
    intros j Hj. rewrite S5 by lia. destruct (Z.eqb_spec j i) as [->|].
    + by rewrite (proj2 (Z.ltb_lt i (i + 1))) by lia.
    + rewrite R5 by done. by replace (j <? i + 1) with (j <? i) by (cases_ltb; lia).
  - lia.
  - eapply Rep_ext; [exact Hv|]. intros j Hj. simpl. by rewrite (proj2 (Z.ltb_ge j 0)) by lia.
  - intros r Hr. eapply Rep_ext; [exact Hr|]. intros j Hj. simpl.
    by rewrite (proj2 (Z.ltb_lt j w)) by lia.
Qed.

Lemma collapse_packed9_spec v w f : Nine v w f -> w <= SIZE_MAX / 4 ->
  returns (collapse_packed9 v) (fun r => Rep r w false (fun i => to_logic9 (to_logic4 (f i)))).
Proof.
  intros Hv Hw. pose proof (nine_width _ _ _ Hv) as Ew. pose proof (nine_range _ _ _ Hv).
  unfold collapse_packed9. rewrite Ew. apply returns_bind.
  eapply returns_mono; [apply make_spec; lia|]. intros r0 H0.
  eapply set_loop; [exact H0|]. intros i r Hi. by erewrite packed9_get_spec by done.
Qed.

Lemma collapse_to_logic4_spec v : wf v ->
  returns (collapse_to_logic4 v) (fun r => Rep r (width v) false (fun i => to_logic9 (at4 v i))).
Proof.
  intros Hv. unfold collapse_to_logic4. destruct (is_logic9 v) eqn:E; simpl.
  - apply returns_bind. eapply returns_mono; [apply make_spec, Hv|]. intros r0 H0.
    eapply set_loop; [exact H0|]. intros i r Hi. by rewrite get_logic9_ok by done.
  - pose proof (Rep_copy v Hv) as HC. rewrite E in HC. eapply Rep_ext; [done|].
    intros i Hi. by apply at9_four.
Qed.

Lemma expand_to_logic9_spec v : wf v ->
  returns (expand_to_logic9 v) (fun r => Nine r (width v) (at9 v)).
Proof.
  intros Hv. pose proof (wf_width _ Hv). unfold expand_to_logic9. apply returns_bind.
  eapply returns_mono; [apply packed9_make_spec; unfold SIZE_MAX in *; lia|]. intros r0 H0.
  eapply packed9_set_loop; [exact H0|]. intros i r Hi _. by rewrite get_logic9_ok.
Qed.
