(* ===== verification/Resolve.v ===== *)
(** * Net resolution of packed drivers

    Model of the two [resolve] overloads of src/runtime/packed_value.cpp: the
    value of a net driven by several packed values.  The C++ works on whole
    words, recording which driver values occur at each position and decoding
    that record at the end; the theorems show it is the element-wise fold of
    the scalar resolution tables of include/fsim/runtime/logic.hpp. *)
From S2P Require Import Prelude Logic WordSpan LogicWord PackedLogic4 PackedConvert PackedLogic9.
Ltac Zify.zify_post_hook ::= Z.div_mod_to_equations.

Definition width_mismatch : exception :=
  invalid_argument "cannot resolve drivers of different widths".

(** ** Four-state drivers *)

Definition resolve_logic4_driver (w words : Z) (driver : PackedLogic4)
    (seen : list Z * list Z * list Z) : Outcome (list Z * list Z * list Z) :=
  if negb (width driver =? w) then Throw width_mismatch
  else
    let aval := aval_words driver in
    let bval := bval_words driver in
    Ok (foreach_pure (up 0 words) (fun word seen =>
      let '(zero_seen, one_seen, unknown_seen) := seen in
      let known := not64 (word_at bval word) in
      (set_word zero_seen word
         (Z.lor (word_at zero_seen word) (Z.land (not64 (word_at aval word)) known)),
       set_word one_seen word
         (Z.lor (word_at one_seen word) (Z.land (word_at aval word) known)),
       set_word unknown_seen word
         (Z.lor (word_at unknown_seen word) (Z.land (word_at aval word) (word_at bval word)))))
      seen).

Definition resolve_logic4 (w : Z) (drivers : list PackedLogic4) : Outcome PackedLogic4 :=
  let words := (w + bits_per_word - 1) / bits_per_word in
  let zeros := replicate (Z.to_nat words) 0 in
  seen ← foreach drivers (resolve_logic4_driver w words) (zeros, zeros, zeros);
  let '(zero_seen, one_seen, unknown_seen) := seen in
  let '(resolved_aval, resolved_bval) :=
    foreach_pure (up 0 words) (fun word (resolved : list Z * list Z) =>
      let '(resolved_aval, resolved_bval) := resolved in
      let driven := Z.lor (Z.lor (word_at zero_seen word) (word_at one_seen word))
                      (word_at unknown_seen word) in
      (set_word resolved_aval word (Z.lor (word_at one_seen word) (word_at unknown_seen word)),
       set_word resolved_bval word
         (Z.lor (Z.lor (word_at unknown_seen word)
                   (Z.land (word_at zero_seen word) (word_at one_seen word)))
            (not64 driven)))) (zeros, zeros) in
  from_word_planes w resolved_aval resolved_bval.

(** ** Nine-state drivers *)

(** The seven "value seen" accumulators: words for a narrow net
    ([std::array<std::uint64_t, 7>], in this order), word vectors for a wide
    one ([u_seen], [x_seen], ...). *)
Record Seen (A : Type) := mkSeen {
  seen_u : A; seen_x : A; seen_zero : A; seen_one : A; seen_w : A; seen_l : A; seen_h : A;
}.
Arguments mkSeen {A}.
Arguments seen_u {A}. Arguments seen_x {A}. Arguments seen_zero {A}. Arguments seen_one {A}.
Arguments seen_w {A}. Arguments seen_l {A}. Arguments seen_h {A}.

Definition seen_map {A B} (f : A -> B) (s : Seen A) : Seen B :=
  mkSeen (f (seen_u s)) (f (seen_x s)) (f (seen_zero s)) (f (seen_one s))
    (f (seen_w s)) (f (seen_l s)) (f (seen_h s)).
Definition seen_zip {A B C} (f : A -> B -> C) (s : Seen A) (t : Seen B) : Seen C :=
  mkSeen (f (seen_u s) (seen_u t)) (f (seen_x s) (seen_x t)) (f (seen_zero s) (seen_zero t))
    (f (seen_one s) (seen_one t)) (f (seen_w s) (seen_w t)) (f (seen_l s) (seen_l t))
    (f (seen_h s) (seen_h t)).

(** Recording one word of a four-state driver, and of a nine-state driver. *)
Definition see_logic4_word (p0 p1 : Z) (seen : Seen Z) : Seen Z :=
  let known := not64 p1 in
  mkSeen (seen_u seen)
    (Z.lor (seen_x seen) (Z.land p0 p1))
    (Z.lor (seen_zero seen) (Z.land (not64 p0) known))
    (Z.lor (seen_one seen) (Z.land p0 known))
    (seen_w seen) (seen_l seen) (seen_h seen).

Definition see_logic9_word (p0 p1 p2 p3 : Z) (seen : Seen Z) : Seen Z :=
  let np0 := not64 p0 in
  let np1 := not64 p1 in
  let np2 := not64 p2 in
  let np3 := not64 p3 in
  let upper_zero := Z.land np2 np3 in
  let upper_four := Z.land p2 np3 in
  let state_u := Z.land (Z.land np0 np1) upper_zero in
  let state_x := Z.land (Z.land p0 np1) upper_zero in
  let state_zero := Z.land (Z.land np0 p1) upper_zero in
  let state_one := Z.land (Z.land p0 p1) upper_zero in
  let state_z := Z.land (Z.land np0 np1) upper_four in
  let state_w := Z.land (Z.land p0 np1) upper_four in
  let state_l := Z.land (Z.land np0 p1) upper_four in
  let state_h := Z.land (Z.land p0 p1) upper_four in
  let state_dont_care := Z.land (Z.land (Z.land np0 np1) np2) p3 in
  let valid := Z.lor (Z.lor (Z.lor (Z.lor (Z.lor (Z.lor (Z.lor (Z.lor state_u state_x)
                 state_zero) state_one) state_z) state_w) state_l) state_h) state_dont_care in
  mkSeen (Z.lor (seen_u seen) state_u)
    (Z.lor (seen_x seen) (Z.lor (Z.lor state_x state_dont_care) (not64 valid)))
    (Z.lor (seen_zero seen) state_zero)
    (Z.lor (seen_one seen) state_one)
    (Z.lor (seen_w seen) state_w)
    (Z.lor (seen_l seen) state_l)
    (Z.lor (seen_h seen) state_h).

(** Decoding the record: the four plane words of the resolved value. *)
Definition resolved_word (w : Z) (seen : Seen Z) : Logic9Word :=
  let strong_conflict := Z.land (seen_zero seen) (seen_one seen) in
  let state_u := seen_u seen in
  let state_x := Z.land (not64 state_u) (Z.lor (seen_x seen) strong_conflict) in
  let strong_domain := not64 (Z.lor state_u state_x) in
  let state_zero := Z.land (Z.land strong_domain (seen_zero seen)) (not64 (seen_one seen)) in
  let state_one := Z.land (Z.land strong_domain (seen_one seen)) (not64 (seen_zero seen)) in
  let weak_domain := Z.land (Z.land strong_domain (not64 (seen_zero seen))) (not64 (seen_one seen)) in
  let state_w := Z.land weak_domain (Z.lor (seen_w seen) (Z.land (seen_l seen) (seen_h seen))) in
  let state_l := Z.land (Z.land (Z.land weak_domain (not64 state_w)) (seen_l seen)) (not64 (seen_h seen)) in
  let state_h := Z.land (Z.land (Z.land weak_domain (not64 state_w)) (seen_h seen)) (not64 (seen_l seen)) in
  let state_z := Z.land weak_domain (not64 (Z.lor (Z.lor state_w state_l) state_h)) in
  {| l9w_width := w;
     l9w_plane0 := Z.lor (Z.lor (Z.lor state_x state_one) state_w) state_h;
     l9w_plane1 := Z.lor (Z.lor (Z.lor state_zero state_one) state_l) state_h;
     l9w_plane2 := Z.lor (Z.lor (Z.lor state_z state_w) state_l) state_h;
     l9w_plane3 := 0 |}.

Definition resolve_narrow_driver (w : Z) (driver : PackedLogic4) (seen : Seen Z)
    : Outcome (Seen Z) :=
  if negb (width driver =? w) then Throw width_mismatch
  else
    let p0 := front (aval_words driver) in
    let p1 := front (bval_words driver) in
    if negb (is_logic9 driver) then Ok (see_logic4_word p0 p1 seen)
    else
      let p2 := front (logic9_plane_words driver 2) in
      let p3 := front (logic9_plane_words driver 3) in
      Ok (see_logic9_word p0 p1 p2 p3 seen).

Definition resolve_narrow (w : Z) (drivers : list PackedLogic4) : Outcome PackedLogic4 :=
  seen ← foreach drivers (resolve_narrow_driver w) (mkSeen 0 0 0 0 0 0 0);
  from_logic9_word (resolved_word w seen).

(** Element [word] of each of the seven vectors. *)
Definition seen_word (seen : Seen (list Z)) (word : Z) : Seen Z :=
  seen_map (fun ws => word_at ws word) seen.
Definition set_seen_word (seen : Seen (list Z)) (word : Z) (value : Seen Z) : Seen (list Z) :=
  seen_zip (fun ws x => set_word ws word x) seen value.

Definition resolve_wide_driver (w words : Z) (driver : PackedLogic4) (seen : Seen (list Z))
    : Outcome (Seen (list Z)) :=
  if negb (width driver =? w) then Throw width_mismatch
  else
    let plane0 := aval_words driver in
    let plane1 := bval_words driver in
    let plane2 := logic9_plane_words driver 2 in
    let plane3 := logic9_plane_words driver 3 in
    Ok (foreach_pure (up 0 words) (fun word seen =>
      let p0 := word_at plane0 word in
      let p1 := word_at plane1 word in
      set_seen_word seen word
        (if negb (is_logic9 driver) then see_logic4_word p0 p1 (seen_word seen word)
         else see_logic9_word p0 p1 (word_at plane2 word) (word_at plane3 word)
                (seen_word seen word))) seen).

Definition resolve_wide (w : Z) (drivers : list PackedLogic4) : Outcome PackedLogic4 :=
  let words := (w + bits_per_word - 1) / bits_per_word in
  let zeros := replicate (Z.to_nat words) 0 in
  seen ← foreach drivers (resolve_wide_driver w words)
           (mkSeen zeros zeros zeros zeros zeros zeros zeros);
  let '(resolved0, resolved1, resolved2, resolved3) :=
    foreach_pure (up 0 words) (fun word (resolved : list Z * list Z * list Z * list Z) =>
      let '(resolved0, resolved1, resolved2, resolved3) := resolved in
      let value := resolved_word bits_per_word (seen_word seen word) in
      (set_word resolved0 word (l9w_plane0 value), set_word resolved1 word (l9w_plane1 value),
       set_word resolved2 word (l9w_plane2 value), set_word resolved3 word 0))
      (zeros, zeros, zeros, zeros) in
  from_logic9_word_planes w resolved0 resolved1 resolved2 resolved3.

(** [resolve(std::span<const PackedLogic4>)] *)
Definition resolve (drivers : list PackedLogic4) : Outcome PackedLogic4 :=
  match drivers with
  | [] => make 0 Logic4_x
  | [driver] => Ok (copy driver)
  | first :: _ =>
      let w := width first in
      let logic9 := existsb is_logic9 drivers in
      if negb logic9 then
        if w =? 0 then make 0 Logic4_x else resolve_logic4 w drivers
      else if w =? 0 then make 0 Logic4_x
      else if w <=? bits_per_word then resolve_narrow w drivers
      else resolve_wide w drivers
  end.

Definition resolve_packed9_driver (w : Z) (driver result : PackedLogic9) : Outcome PackedLogic9 :=
  if negb (packed9_width driver =? w) then Throw width_mismatch
  else
    foreach (up 0 w) (fun index result =>
      current ← packed9_get result index;
      driven ← packed9_get driver index;
      packed9_set result index (resolve9 current driven)) result.

(** [resolve(std::span<const PackedLogic9>)] *)
Definition resolve_packed9 (drivers : list PackedLogic9) : Outcome PackedLogic9 :=
  match drivers with
  | [] => packed9_make 0 Logic9_u
  | [driver] => Ok driver
  | first :: _ =>
      let w := packed9_width first in
      result ← packed9_make w Logic9_z;
      foreach drivers (resolve_packed9_driver w) result
  end.

(** * Specification vocabulary *)

(** The net value when the flagged driver values have been seen. *)
Definition resolved_flags (s : Seen bool) : Logic9 :=
  if seen_u s then Logic9_u
  else if seen_x s || (seen_zero s && seen_one s) then Logic9_x
  else if seen_zero s then Logic9_zero
  else if seen_one s then Logic9_one
  else if seen_w s || (seen_l s && seen_h s) then Logic9_w
  else if seen_l s then Logic9_l
  else if seen_h s then Logic9_h
  else Logic9_z.

Definition see_flag (d : Logic9) (s : Seen bool) : Seen bool :=
  match d with
  | Logic9_u => mkSeen true (seen_x s) (seen_zero s) (seen_one s) (seen_w s) (seen_l s) (seen_h s)
  | Logic9_x | Logic9_dont_care =>
      mkSeen (seen_u s) true (seen_zero s) (seen_one s) (seen_w s) (seen_l s) (seen_h s)
  | Logic9_zero => mkSeen (seen_u s) (seen_x s) true (seen_one s) (seen_w s) (seen_l s) (seen_h s)
  | Logic9_one => mkSeen (seen_u s) (seen_x s) (seen_zero s) true (seen_w s) (seen_l s) (seen_h s)
  | Logic9_z => s
  | Logic9_w => mkSeen (seen_u s) (seen_x s) (seen_zero s) (seen_one s) true (seen_l s) (seen_h s)
  | Logic9_l => mkSeen (seen_u s) (seen_x s) (seen_zero s) (seen_one s) (seen_w s) true (seen_h s)
  | Logic9_h => mkSeen (seen_u s) (seen_x s) (seen_zero s) (seen_one s) (seen_w s) (seen_l s) true
  end.

(** The elements the drivers contribute at position [i]. *)
Definition column (drivers : list PackedLogic4) (i : Z) : list Logic9 :=
  (fun driver => at9 driver i) <$> drivers.

(** * Theorems *)

(** Nine-state resolution depends only on which values occur. *)
Lemma resolve9_seen s d : resolve9 (resolved_flags s) d = resolved_flags (see_flag d s).
Proof. by destruct s as [[] [] [] [] [] [] []], d. Qed.

Lemma fold_seen s l : foldl resolve9 (resolved_flags s) l =
  resolved_flags (foldl (fun s d => see_flag d s) s l).
Proof. revert s. induction l as [|d l IH]; intros s; simpl; [done|]. by rewrite resolve9_seen. Qed.

Lemma see_logic4_bit p0 p1 s j :
  0 <= j < 64 ->
  seen_map (fun x => Z.testbit x j) (see_logic4_word p0 p1 s) =
  see_flag (to_logic9 (logic4_of_bits (Z.testbit p0 j) (Z.testbit p1 j)))
    (seen_map (fun x => Z.testbit x j) s).
Proof.
  intros Hj. destruct s. unfold see_logic4_word, seen_map; simpl. autorewrite with fsim_bits.
  rewrite (proj2 (Z.ltb_lt j 64)) by lia.
  destruct (Z.testbit p0 j), (Z.testbit p1 j); simpl; by rewrite ?orb_false_r, ?orb_true_r.
Qed.

Lemma see_logic9_bit p0 p1 p2 p3 s j :
  0 <= j < 64 ->
  seen_map (fun x => Z.testbit x j) (see_logic9_word p0 p1 p2 p3 s) =
  see_flag (logic9_of_bits (Z.testbit p0 j) (Z.testbit p1 j) (Z.testbit p2 j) (Z.testbit p3 j))
    (seen_map (fun x => Z.testbit x j) s).
Proof.
  intros Hj. destruct s. unfold see_logic9_word, seen_map; simpl. autorewrite with fsim_bits.
  rewrite (proj2 (Z.ltb_lt j 64)) by lia.
  destruct (Z.testbit p0 j), (Z.testbit p1 j), (Z.testbit p2 j), (Z.testbit p3 j); simpl;
    by rewrite ?orb_false_r, ?orb_true_r.
Qed.

Lemma resolved_word_bit w s j :
  0 <= j < 64 ->
  logic9_word_bit (resolved_word w s) j = resolved_flags (seen_map (fun x => Z.testbit x j) s).
Proof.
  intros Hj. destruct s. unfold logic9_word_bit, resolved_word, resolved_flags, seen_map; simpl.
  autorewrite with fsim_bits. rewrite (proj2 (Z.ltb_lt j 64)) by lia. by destruct_testbits.
Qed.

Definition nothing_seen : Seen bool := mkSeen false false false false false false false.

(** The drivers seen so far at position [i]. *)
Definition flags (drivers : list PackedLogic4) (i : Z) : Seen bool :=
  foldl (fun s d => see_flag d s) nothing_seen (column drivers i).

Lemma flags_snoc drivers d i : flags (drivers ++ [d]) i = see_flag (at9 d i) (flags drivers i).
Proof. unfold flags, column. by rewrite fmap_app, foldl_app. Qed.

Lemma flags_resolve drivers i :
  resolved_flags (flags drivers i) = foldl resolve9 Logic9_z (column drivers i).
Proof. by rewrite (fold_seen nothing_seen). Qed.

(** A set of drivers that fit one net. *)
Definition net_of (w : Z) (drivers : list PackedLogic4) : Prop :=
  Forall (fun d => wf d /\ width d = w) drivers.

Lemma resolved_word_u64 w s :
  let r := resolved_word w s in
  is_u64 (l9w_plane0 r) /\ is_u64 (l9w_plane1 r) /\ is_u64 (l9w_plane2 r) /\ is_u64 (l9w_plane3 r).
Proof. destruct s. simpl. split_and!; auto 25 using is_u64_lor, is_u64_land_l, is_u64_not64, is_u64_0. Qed.

(** ** Narrow nets *)

Lemma resolve_narrow_driver_bit w d s i :
  0 < w <= 64 -> wf d -> width d = w -> 0 <= i < w ->
  returns (resolve_narrow_driver w d s) (fun s' =>
    seen_map (fun x => Z.testbit x i) s' = see_flag (at9 d i) (seen_map (fun x => Z.testbit x i) s)).
Proof.
  intros Hw Hd Hwd Hi. unfold resolve_narrow_driver. rewrite Hwd, Z.eqb_refl. simpl.
  unfold at9, logic9_plane_words, logic9_plane. rewrite Hwd, (proj2 (Z.eqb_neq w 0)) by lia.
  destruct (is_logic9 d) eqn:E; simpl.
  - rewrite see_logic9_bit by lia. by rewrite !read_bit_front by lia.
  - rewrite see_logic4_bit by lia. by rewrite !read_bit_front by lia.
Qed.

Lemma resolve_narrow_spec w drivers :
  0 < w <= 64 -> net_of w drivers ->
  returns (resolve_narrow w drivers)
    (fun r => Rep r w true (fun i => foldl resolve9 Logic9_z (column drivers i))).
Proof.
  intros Hw Hnet. unfold resolve_narrow. apply returns_bind.
  eapply returns_mono; [apply (foreach_list (fun dn s =>
    forall i, 0 <= i < w -> seen_map (fun x => Z.testbit x i) s = flags dn i))|].
  - intros i Hi. unfold seen_map; simpl. by rewrite Z.bits_0.
  - intros dn d s Hs Hin. unfold net_of in Hnet. rewrite Forall_forall in Hnet.
    destruct (Hnet d Hin) as [Hd Hwd].
    pose proof (fun i => resolve_narrow_driver_bit w d s i Hw Hd Hwd) as Hbit.
    destruct (resolve_narrow_driver w d s); [|by apply (Hbit 0); lia]. simpl in *.
    intros i Hi. by rewrite Hbit, Hs, flags_snoc.
  - intros s Hs. destruct (resolved_word_u64 w s) as (U0 & U1 & U2 & U3).
    eapply returns_mono; [by apply from_logic9_word_spec|]. intros r HR. simpl in HR.
    eapply Rep_ext; [exact HR|]. intros i Hi. rewrite resolved_word_bit by lia.
    by rewrite Hs, flags_resolve.
Qed.

(** ** Wide nets *)

Definition spans_ok (n : Z) (s : Seen (list Z)) : Prop :=
  span_ok n (seen_u s) /\ span_ok n (seen_x s) /\ span_ok n (seen_zero s) /\ span_ok n (seen_one s) /\
  span_ok n (seen_w s) /\ span_ok n (seen_l s) /\ span_ok n (seen_h s).

Definition seen_u64 (s : Seen Z) : Prop :=
  is_u64 (seen_u s) /\ is_u64 (seen_x s) /\ is_u64 (seen_zero s) /\ is_u64 (seen_one s) /\
  is_u64 (seen_w s) /\ is_u64 (seen_l s) /\ is_u64 (seen_h s).

Lemma seen_word_u64 n s k : spans_ok n s -> seen_u64 (seen_word s k).
Proof. intros (?&?&?&?&?&?&?). split_and!; simpl; by eapply word_at_u64, span_u64. Qed.

Lemma set_seen_spans n s k x : spans_ok n s -> seen_u64 x -> spans_ok n (set_seen_word s k x).
Proof. intros (?&?&?&?&?&?&?) (?&?&?&?&?&?&?). split_and!; simpl; by apply span_set_word. Qed.

Lemma see_logic4_u64 p0 p1 s : is_u64 p0 -> seen_u64 s -> seen_u64 (see_logic4_word p0 p1 s).
Proof. intros ? (?&?&?&?&?&?&?). split_and!; simpl; auto using is_u64_lor, is_u64_land_l, is_u64_not64. Qed.

Lemma see_logic9_u64 p0 p1 p2 p3 s :
  is_u64 p0 -> seen_u64 s -> seen_u64 (see_logic9_word p0 p1 p2 p3 s).
Proof.
  intros ? (?&?&?&?&?&?&?). split_and!; simpl; auto 8 using is_u64_lor, is_u64_land_l, is_u64_not64.
Qed.

Lemma read_set_seen n s k x i :
  spans_ok n s -> 0 <= k < n -> 0 <= i ->
  seen_map (fun ws => read_bit ws i) (set_seen_word s k x) =
  if i / 64 =? k then seen_map (fun y => Z.testbit y (i mod 64)) x
  else seen_map (fun ws => read_bit ws i) s.
Proof.
  intros (H1&H2&H3&H4&H5&H6&H7) Hk Hi. unfold seen_map, set_seen_word, seen_zip; simpl.
  rewrite !read_bit_set_word by
    (rewrite ?(span_size _ _ H1), ?(span_size _ _ H2), ?(span_size _ _ H3), ?(span_size _ _ H4),
       ?(span_size _ _ H5), ?(span_size _ _ H6), ?(span_size _ _ H7); lia).
  by destruct (i / 64 =? k).
Qed.

Lemma seen_word_bit s i : 0 <= i ->
  seen_map (fun y => Z.testbit y (i mod 64)) (seen_word s (i / 64)) =
  seen_map (fun ws => read_bit ws i) s.
Proof. intros Hi. destruct s. unfold seen_map, seen_word; simpl. by rewrite !read_bit_testbit. Qed.

(** One driver word recorded at its place. *)
Definition see_driver_word (d : PackedLogic4) (word : Z) (seen : Seen Z) : Seen Z :=
  if negb (is_logic9 d)
  then see_logic4_word (word_at (aval_words d) word) (word_at (bval_words d) word) seen
  else see_logic9_word (word_at (aval_words d) word) (word_at (bval_words d) word)
         (word_at (logic9_plane_words d 2) word) (word_at (logic9_plane_words d 3) word) seen.

Lemma see_driver_word_u64 d word s : wf d -> seen_u64 s -> seen_u64 (see_driver_word d word s).
Proof.
  intros Hd Hs. destruct (wf_spans _ Hd) as (Ha & _). unfold see_driver_word.
  destruct (is_logic9 d); simpl; [apply see_logic9_u64|apply see_logic4_u64]; try done;
    apply word_at_u64, Ha.
Qed.

Lemma see_driver_word_bit d s i :
  wf d -> 0 <= i < width d ->
  seen_map (fun y => Z.testbit y (i mod 64)) (see_driver_word d (i / 64) s) =
  see_flag (at9 d i) (seen_map (fun y => Z.testbit y (i mod 64)) s).
Proof.
  intros Hd Hi. unfold see_driver_word, at9, logic9_plane_words, logic9_plane.
  rewrite (proj2 (Z.eqb_neq (width d) 0)) by lia. destruct (is_logic9 d); simpl.
  - rewrite see_logic9_bit by lia. by rewrite !read_bit_testbit by lia.
  - rewrite see_logic4_bit by lia. by rewrite !read_bit_testbit by lia.
Qed.

Lemma resolve_wide_driver_spec w d s :
  0 < w -> wf d -> width d = w -> spans_ok (words_for w) s ->
  returns (resolve_wide_driver w (words_for w) d s) (fun s' => spans_ok (words_for w) s' /\
    forall i, 0 <= i < w ->
      seen_map (fun ws => read_bit ws i) s' =
      see_flag (at9 d i) (seen_map (fun ws => read_bit ws i) s)).
Proof.
  intros Hw Hd Hwd Hs. unfold resolve_wide_driver. rewrite Hwd, Z.eqb_refl. simpl.
  match goal with |- context [foreach_pure _ ?b _] => set (body := b) end.
  destruct (foreach_pure_up (fun k s' => spans_ok (words_for w) s' /\
    forall i, 0 <= i < w -> seen_map (fun ws => read_bit ws i) s' =
      if i / 64 <? k then see_flag (at9 d i) (seen_map (fun ws => read_bit ws i) s)
      else seen_map (fun ws => read_bit ws i) s) 0 (words_for w) body) with (s := s) as [H1 H2].
  - intros k s' Hk [HS HB]. change (body k s') with
      (set_seen_word s' k (see_driver_word d k (seen_word s' k))). split.
    { apply set_seen_spans; [done|]. apply see_driver_word_u64; [done|by eapply seen_word_u64]. }
    intros i Hi. rewrite (read_set_seen (words_for w)) by (done || lia).
    destruct (Z.eqb_spec (i / 64) k) as [<-|].
    + rewrite see_driver_word_bit, seen_word_bit, HB, Z.ltb_irrefl by (done || lia).
      by rewrite (proj2 (Z.ltb_lt _ (i / 64 + 1))) by lia.
    + rewrite HB by done. by replace (i / 64 <? k + 1) with (i / 64 <? k) by (cases_ltb; lia).
  - apply words_for_nonneg. lia.
  - split; [done|]. intros i Hi. by rewrite (proj2 (Z.ltb_ge (i / 64) 0)) by lia.
  - split; [done|]. intros i Hi. rewrite H2 by done. pose proof (words_for_index w i Hi).
    by rewrite (proj2 (Z.ltb_lt (i / 64) _)) by lia.
Qed.

(** A plane computed word by word. *)
Definition plane_filled (n : Z) (g : Z -> Z) (k : Z) (ws : list Z) : Prop :=
  span_ok n ws /\ forall i, 0 <= i -> i / 64 < k -> read_bit ws i = Z.testbit (g (i / 64)) (i mod 64).

Lemma plane_filled_start n g : 0 <= n -> plane_filled n g 0 (replicate (Z.to_nat n) 0).
Proof. intros. split; [by apply span_replicate|]. intros; lia. Qed.

Lemma plane_filled_set n g k ws :
  0 <= k < n -> is_u64 (g k) -> plane_filled n g k ws -> plane_filled n g (k + 1) (set_word ws k (g k)).
Proof.
  intros Hk Hu [Hs Hb]. split; [by apply span_set_word|].
  intros i Hi Hik. rewrite read_bit_set_word by (rewrite ?(span_size _ _ Hs); lia).
  destruct (Z.eqb_spec (i / 64) k) as [<-|]; [done|]. apply Hb; lia.
Qed.

(** The decoding loop of a wide net. *)
Definition planes_filled (n : Z) (g : Z -> Logic9Word) (k : Z)
    (r : list Z * list Z * list Z * list Z) : Prop :=
  plane_filled n (fun k => l9w_plane0 (g k)) k r.1.1.1 /\
  plane_filled n (fun k => l9w_plane1 (g k)) k r.1.1.2 /\
  plane_filled n (fun k => l9w_plane2 (g k)) k r.1.2 /\
  plane_filled n (fun k => 0) k r.2.

Lemma resolved_planes n (s : Seen (list Z)) :
  0 <= n ->
  let zeros := replicate (Z.to_nat n) 0 in
  planes_filled n (fun k => resolved_word 64 (seen_word s k)) n
    (foreach_pure (up 0 n) (fun word (resolved : list Z * list Z * list Z * list Z) =>
      let '(resolved0, resolved1, resolved2, resolved3) := resolved in
      let value := resolved_word bits_per_word (seen_word s word) in
      (set_word resolved0 word (l9w_plane0 value), set_word resolved1 word (l9w_plane1 value),
       set_word resolved2 word (l9w_plane2 value), set_word resolved3 word 0))
      (zeros, zeros, zeros, zeros)).
Proof.
  intros Hn zeros. apply (foreach_pure_up (planes_filled n _)); [|done|].
  - intros k [[[r0 r1] r2] r3] Hk (F0 & F1 & F2 & F3).
    destruct (resolved_word_u64 64 (seen_word s k)) as (U0 & U1 & U2 & _).
    split_and!; [apply (plane_filled_set n _ k _ Hk U0 F0)|apply (plane_filled_set n _ k _ Hk U1 F1)
      |apply (plane_filled_set n _ k _ Hk U2 F2)|apply (plane_filled_set n _ k _ Hk is_u64_0 F3)].
  - split_and!; by apply plane_filled_start.
Qed.

Lemma resolve_wide_spec w drivers :
  0 < w <= SIZE_MAX / 4 -> net_of w drivers ->
  returns (resolve_wide w drivers)
    (fun r => Rep r w true (fun i => foldl resolve9 Logic9_z (column drivers i))).
Proof.
  intros Hw Hnet. unfold resolve_wide.
  replace ((w + bits_per_word - 1) / bits_per_word) with (words_for w)
    by (unfold words_for, bits_per_word; f_equal; lia).
  pose proof (words_for_nonneg w ltac:(lia)) as Hn. apply returns_bind.
  assert (span_ok (words_for w) (replicate (Z.to_nat (words_for w)) 0)) as Hz by by apply span_replicate.
  eapply returns_mono; [apply (foreach_list (fun dn s => spans_ok (words_for w) s /\
    forall i, 0 <= i < w -> seen_map (fun ws => read_bit ws i) s = flags dn i))|].
  - split; [by split_and!|]. intros i Hi. unfold seen_map; simpl.
    by rewrite (read_replicate (words_for w) false) by (pose proof (words_for_bounds w); lia).
  - intros dn d s [Hs Hb] Hin. unfold net_of in Hnet. rewrite Forall_forall in Hnet.
    destruct (Hnet d Hin) as [Hd Hwd].
    eapply returns_mono; [apply resolve_wide_driver_spec; done || lia|].
    intros s' [Hs' Hb']. split; [done|]. intros i Hi. by rewrite Hb', Hb, flags_snoc.
  - intros s [Hs Hb]. pose proof (resolved_planes (words_for w) s Hn) as HF. cbv zeta in HF.
    destruct (foreach_pure _ _ _) as [[[r0 r1] r2] r3].
    destruct HF as ([S0 F0] & [S1 F1] & [S2 F2] & [S3 F3]). simpl in *.
    eapply returns_mono; [by apply from_logic9_word_planes_spec|]. intros r HR.
    eapply Rep_ext; [exact HR|]. intros i Hi. pose proof (words_for_index w i Hi).
    unfold spans9. rewrite F0, F1, F2, F3 by lia.
    rewrite <- flags_resolve, <- Hb by done.
    rewrite <- seen_word_bit, <- resolved_word_bit with (w := 64) by lia.
    unfold logic9_word_bit. by change (l9w_plane3 (resolved_word 64 (seen_word s (i / 64)))) with 0.
Qed.

(** ** Four-state nets *)

Definition seen3_inv (w : Z) (dn : list PackedLogic4) (s : list Z * list Z * list Z) : Prop :=
  span_ok (words_for w) s.1.1 /\ span_ok (words_for w) s.1.2 /\ span_ok (words_for w) s.2 /\
  forall i, 0 <= i < w ->
    resolve4_span ((fun d => at4 d i) <$> dn) =
    seen4 (read_bit s.1.1 i) (read_bit s.1.2 i) (read_bit s.2 i).

Lemma resolve_logic4_driver_inv w dn d s :
  0 < w -> wf d -> width d = w -> is_logic9 d = false -> seen3_inv w dn s ->
  returns (resolve_logic4_driver w (words_for w) d s) (seen3_inv w (dn ++ [d])).
Proof.
  intros Hw Hd Hwd Hnd (S1 & S2 & S3 & Hinv). unfold resolve_logic4_driver.
  rewrite Hwd, Z.eqb_refl. simpl. destruct (wf_spans _ Hd) as (Ha & Hb & _). rewrite Hwd in Ha, Hb.
  match goal with |- context [foreach_pure _ ?b _] => set (body := b) end.
  assert (forall i, 0 <= i < w -> at4 d i = logic4_of_bits (read_bit (aval_words d) i)
    (read_bit (bval_words d) i)) as Hat.
  { intros i Hi. unfold at4, at9. by rewrite Hnd, to_logic4_to_logic9. }
  destruct (foreach_pure_up (fun k s' => span_ok (words_for w) s'.1.1 /\ span_ok (words_for w) s'.1.2 /\
    span_ok (words_for w) s'.2 /\ forall i, 0 <= i < w ->
    seen4 (read_bit s'.1.1 i) (read_bit s'.1.2 i) (read_bit s'.2 i) =
      if i / 64 <? k then resolve4 (resolve4_span ((fun d => at4 d i) <$> dn)) (at4 d i)
      else resolve4_span ((fun d => at4 d i) <$> dn)) 0 (words_for w) body) with (s := s)
    as (T1 & T2 & T3 & T4).
  - intros k [[zero one] unk] Hk (T1 & T2 & T3 & T4). simpl in *.
    assert (is_u64 (word_at (aval_words d) k)) by (apply word_at_u64, Ha).
    split_and!; try (apply span_set_word; [done|]; apply is_u64_lor; [by eapply word_at_u64, span_u64|];
      auto using is_u64_land_l, is_u64_not64).
    intros i Hi. rewrite !read_bit_set_word by
      (rewrite ?(span_size _ _ T1), ?(span_size _ _ T2), ?(span_size _ _ T3); lia).
    specialize (T4 i Hi). destruct (Z.eqb_spec (i / 64) k) as [<-|].
    + rewrite Z.ltb_irrefl in T4. rewrite (proj2 (Z.ltb_lt _ (i / 64 + 1))) by lia.
      rewrite <- T4, resolve4_seen, Hat by done. rewrite !(read_bit_testbit _ i) by lia.
      autorewrite with fsim_bits. rewrite (proj2 (Z.ltb_lt (i mod 64) 64)) by lia. by destruct_testbits.
    + by replace (i / 64 <? k + 1) with (i / 64 <? k) by (cases_ltb; lia).
  - apply words_for_nonneg. lia.
  - split_and!; try done. intros i Hi. rewrite Hinv by done.
    by rewrite (proj2 (Z.ltb_ge (i / 64) 0)) by lia.
  - split_and!; try done. intros i Hi. rewrite T4 by done. pose proof (words_for_index w i Hi).
    rewrite (proj2 (Z.ltb_lt (i / 64) _)) by lia. unfold resolve4_span. by rewrite fmap_app, foldl_app.
Qed.

Lemma resolve_logic4_spec w drivers :
  0 < w <= SIZE_MAX / 4 -> net_of w drivers -> Forall (fun d => is_logic9 d = false) drivers ->
  returns (resolve_logic4 w drivers) (fun r => Rep r w false
    (fun i => to_logic9 (resolve4_span ((fun d => at4 d i) <$> drivers)))).
Proof.
  intros Hw Hnet Hfour. unfold resolve_logic4.
  replace ((w + bits_per_word - 1) / bits_per_word) with (words_for w)
    by (unfold words_for, bits_per_word; f_equal; lia).
  pose proof (words_for_nonneg w ltac:(lia)) as Hn. apply returns_bind.
  assert (span_ok (words_for w) (replicate (Z.to_nat (words_for w)) 0)) as Hz by by apply span_replicate.
  eapply returns_mono; [apply (foreach_list (seen3_inv w))|].
  - split_and!; try done. intros i Hi. simpl.
    by rewrite (read_replicate (words_for w) false) by (pose proof (words_for_bounds w); lia).
  - intros dn d s Hs Hin. unfold net_of in Hnet. rewrite Forall_forall in Hnet, Hfour.
    destruct (Hnet d Hin) as [Hd Hwd]. apply resolve_logic4_driver_inv; auto; lia.
  - intros [[zero one] unk] (S1 & S2 & S3 & Hinv). simpl in S1, S2, S3, Hinv.
    set (ga := fun k => Z.lor (word_at one k) (word_at unk k)).
    set (gb := fun k => Z.lor (Z.lor (word_at unk k) (Z.land (word_at zero k) (word_at one k)))
      (not64 (Z.lor (Z.lor (word_at zero k) (word_at one k)) (word_at unk k)))).
    match goal with |- context [foreach_pure _ ?b ?z] => set (body := b); set (zs := z) end.
    destruct (foreach_pure_up (fun k r => plane_filled (words_for w) ga k r.1 /\
        plane_filled (words_for w) gb k r.2) 0 (words_for w) body) with (s := zs) as [Fa Fb].
    + intros k [ra rb] Hk [Fa Fb]. simpl in *.
      assert (is_u64 (word_at zero k) /\ is_u64 (word_at one k) /\ is_u64 (word_at unk k)) as (? & ? & ?)
        by (split_and!; by eapply word_at_u64, span_u64).
      split; [apply (plane_filled_set _ ga)|apply (plane_filled_set _ gb)]; unfold ga, gb;
        auto 6 using is_u64_lor, is_u64_land_l, is_u64_not64.
    + done.
    + split; by apply plane_filled_start.
    + destruct (foreach_pure _ _ _) as [ra rb]. destruct Fa as [Sa Fa], Fb as [Sb Fb]. simpl in *.
      eapply returns_mono; [by apply from_word_planes_spec|]. intros r HR.
      eapply Rep_ext; [exact HR|]. intros i Hi. pose proof (words_for_index w i Hi).
      cbv beta. rewrite Fa, Fb, Hinv by lia. f_equal. unfold seen4, ga, gb.
      rewrite !(read_bit_testbit _ i) by lia. autorewrite with fsim_bits.
      by rewrite (proj2 (Z.ltb_lt (i mod 64) 64)) by lia.
Qed.

(** ** The packed overload *)

Lemma net_of_cons_width w d ds : net_of w (d :: ds) -> width d = w.
Proof. unfold net_of. rewrite Forall_cons. by intros [[_ ?] _]. Qed.

Lemma column_four drivers i :
  Forall (fun d => is_logic9 d = false) drivers ->
  column drivers i = to_logic9 <$> ((fun d => at4 d i) <$> drivers).
Proof.
  intros H. unfold column. rewrite <- list_fmap_compose. apply list_fmap_ext.
  intros k d Hk. simpl. apply at9_four. by eapply Forall_lookup_1 in H.
Qed.

Lemma existsb_false_forall {A} (p : A -> bool) l :
  existsb p l = false -> Forall (fun x => p x = false) l.
Proof.
  induction l as [|a l IH]; simpl; [constructor|]. intros [Ha Hl]%orb_false_iff.
  constructor; [done|by apply IH].
Qed.

(** Resolving the packed drivers of a net resolves, at every position, the
    elements the drivers contribute there. *)
Lemma resolve_elementwise w drivers :
  0 < w -> drivers <> [] -> net_of w drivers ->
  returns (resolve drivers) (fun r => Rep r w (existsb is_logic9 drivers)
    (fun i => resolve9_span (column drivers i))).
Proof.
  intros Hw Hne Hnet. destruct drivers as [|d [|d2 ds]]; [done| |].
  - unfold net_of in Hnet. rewrite Forall_singleton in Hnet. destruct Hnet as [Hd <-].
    simpl. rewrite orb_false_r. by apply Rep_copy.
  - pose proof (net_of_cons_width _ _ _ Hnet) as Hwd.
    assert (w <= SIZE_MAX / 4) as Hmax.
    { unfold net_of in Hnet. rewrite Forall_cons in Hnet. destruct Hnet as [[Hd _] _].
      pose proof (wf_width _ Hd). lia. }
    assert (resolve (d :: d2 :: ds) =
      if negb (existsb is_logic9 (d :: d2 :: ds)) then resolve_logic4 w (d :: d2 :: ds)
      else if w <=? bits_per_word then resolve_narrow w (d :: d2 :: ds)
      else resolve_wide w (d :: d2 :: ds)) as ->.
    { unfold resolve. rewrite Hwd. by rewrite (proj2 (Z.eqb_neq w 0)) by lia. }
    set (drivers := d :: d2 :: ds) in *.
    assert (forall i, resolve9_span (column drivers i) = foldl resolve9 Logic9_z (column drivers i))
      as Hspan by done.
    destruct (existsb is_logic9 drivers) eqn:E; cbn [negb].
    + destruct (Z.leb_spec w bits_per_word); [apply resolve_narrow_spec|apply resolve_wide_spec]; done || lia.
    + pose proof (existsb_false_forall _ _ E) as Hfour.
      eapply returns_mono; [by apply resolve_logic4_spec|]. intros r HR.
      eapply Rep_ext; [exact HR|]. intros i Hi. cbv beta.
      by rewrite Hspan, column_four, resolve4_span_to_logic9.
Qed.

(** ** Drivers of different widths *)

Lemma resolve_mismatch d d2 ds bad :
  width d <> 0 -> bad ∈ d2 :: ds -> width bad <> width d ->
  resolve (d :: d2 :: ds) = Throw width_mismatch.
Proof.
  intros Hw Hin Hbad. unfold resolve. rewrite (proj2 (Z.eqb_neq (width d) 0)) by done.
  assert (forall S (body : PackedLogic4 -> S -> Outcome S) s,
    (forall x s, width x = width d -> exists s', body x s = Ok s') ->
    (forall x s, width x <> width d -> body x s = Throw width_mismatch) ->
    foreach (d :: d2 :: ds) body s = Throw width_mismatch) as Hscan.
  { intros S body s Hok Hthrow. apply foreach_throws.
    - intros x s' _. destruct (Z.eq_dec (width x) (width d)); [left; by apply Hok|right; by apply Hthrow].
    - exists bad. split; [by apply elem_of_cons; right|]. intros s'. by apply Hthrow. }
  destruct (negb _); [|destruct (width d <=? bits_per_word)];
    unfold resolve_logic4, resolve_narrow, resolve_wide; cbv zeta; rewrite Hscan; try done;
    intros x s E; unfold resolve_logic4_driver, resolve_narrow_driver, resolve_wide_driver;
    rewrite ?E, ?Z.eqb_refl, ?(proj2 (Z.eqb_neq _ _) E); simpl; try done; [by eexists| |by eexists].
  destruct (negb (is_logic9 x)); by eexists.
Qed.

(** ** Reordering *)

Lemma column_permutation ds1 ds2 i : ds1 ≡ₚ ds2 -> column ds1 i ≡ₚ column ds2 i.
Proof. intros Hp. unfold column. by rewrite Hp. Qed.

Lemma resolve9_span_permutation l1 l2 : l1 ≡ₚ l2 -> resolve9_span l1 = resolve9_span l2.
Proof.
  intros Hp. pose proof (Permutation_length Hp) as Hlen.
  destruct l1 as [|a [|a2 l1]], l2 as [|b [|b2 l2]]; try done.
  - apply Permutation_singleton_inj in Hp as ->. done.
  - unfold resolve9_span. by apply fold_combine_permutation.
Qed.

Lemma existsb_permutation {A} (p : A -> bool) l1 l2 : l1 ≡ₚ l2 -> existsb p l1 = existsb p l2.
Proof.
  induction 1 as [|a l1 l2 _ IH|a b l|l1 l2 l3 _ IH1 _ IH2]; simpl; [done|by rewrite IH| |congruence].
  destruct (p a), (p b); done.
Qed.

Lemma resolve_permuted w ds1 ds2 :
  0 < w -> ds1 <> [] -> net_of w ds1 -> ds1 ≡ₚ ds2 -> resolve ds1 = resolve ds2.
Proof.
  intros Hw Hne Hnet Hp. eapply returns_Rep_eq; [by apply (resolve_elementwise w)|].
  eapply returns_mono; [apply (resolve_elementwise w); [done| |]|].
  - intros ->. by apply Hne, Permutation_nil_r.
  - unfold net_of. by rewrite <- Hp.
  - intros r HR. rewrite (existsb_permutation _ _ _ Hp). eapply Rep_ext; [exact HR|].
    intros i Hi. by apply resolve9_span_permutation, column_permutation.
Qed.

(** ** The overload on [PackedLogic9] *)

Lemma resolve_packed9_driver_spec w d f r g :
  Nine d w f -> Nine r w g ->
  returns (resolve_packed9_driver w d r) (fun r' => Nine r' w (fun i => resolve9 (g i) (f i))).
Proof.
  intros Hd Hr. unfold resolve_packed9_driver. rewrite (nine_width _ _ _ Hd), Z.eqb_refl. simpl.
  pose proof (nine_range _ _ _ Hd).
  eapply returns_mono; [apply (foreach_up (fun i r' =>
    Nine r' w (fun j => if j <? i then resolve9 (g j) (f j) else g j)))|].
  - intros i r' Hi Hr'. erewrite packed9_get_spec by done. simpl.
    erewrite packed9_get_spec by done. simpl. rewrite Z.ltb_irrefl.
    eapply returns_mono; [by eapply packed9_set_spec|]. intros r2 Hr2.
    eapply Nine_ext; [exact Hr2|]. intros j Hj. simpl. destruct (Z.eqb_spec j i) as [->|].
    + by rewrite (proj2 (Z.ltb_lt i (i + 1))) by lia.
    + by replace (j <? i + 1) with (j <? i) by (cases_ltb; lia).
  - lia.
  - eapply Nine_ext; [exact Hr|]. intros j Hj. simpl. by rewrite (proj2 (Z.ltb_ge j 0)) by lia.
  - intros r2 Hr2. eapply Nine_ext; [exact Hr2|]. intros j Hj. simpl.
    by rewrite (proj2 (Z.ltb_lt j w)) by lia.
Qed.

Lemma resolve_packed9_fold w drivers (fs : list (Z -> Logic9)) r g :
  Forall2 (fun d f => Nine d w f) drivers fs -> Nine r w g ->
  returns (foreach drivers (resolve_packed9_driver w) r)
    (fun r' => Nine r' w (fun i => foldl resolve9 (g i) ((fun f => f i) <$> fs))).
Proof.
  intros Hds. revert r g. induction Hds as [|d f ds fs Hd _ IH]; intros r g Hr; simpl; [done|].
  apply returns_bind. eapply returns_mono; [by eapply resolve_packed9_driver_spec|].
  intros r' Hr'. apply (IH r' _ Hr').
Qed.

Lemma resolve_packed9_elementwise w (fs : list (Z -> Logic9)) drivers :
  0 <= w <= SIZE_MAX - 63 -> drivers <> [] ->
  Forall2 (fun d f => Nine d w f) drivers fs ->
  returns (resolve_packed9 drivers)
    (fun r => Nine r w (fun i => resolve9_span ((fun f => f i) <$> fs))).
Proof.
  intros Hw Hne Hds. destruct Hds as [|d f ds fs Hd Hds]; [done|].
  destruct Hds as [|d2 f2 ds fs Hd2 Hds]; [done|]. unfold resolve_packed9.
  rewrite (nine_width _ _ _ Hd). apply returns_bind.
  eapply returns_mono; [by apply packed9_make_spec|]. intros r0 Hr0.
  apply (resolve_packed9_fold w (d :: d2 :: ds) (f :: f2 :: fs) r0 _); [|done].
  by constructor; [|constructor].
Qed.

(** The packed overload refines the reference: expanding the drivers and
    resolving them element by element gives the expansion of the result. *)
Lemma expand_all w drivers : net_of w drivers ->
  exists nines, mapM expand_to_logic9 drivers = Ok nines /\
    Forall2 (fun d f => Nine d w f) nines (at9 <$> drivers).
Proof.
  induction drivers as [|d ds IH]; intros Hnet; [by exists []|].
  unfold net_of in Hnet. rewrite Forall_cons in Hnet. destruct Hnet as [[Hd Hwd] Hds].
  destruct (IH Hds) as (nines & E & HF).
  destruct (returns_inv _ _ (expand_to_logic9_spec d Hd)) as (n & En & HN). rewrite Hwd in HN.
  exists (n :: nines). split; [|by constructor]. simpl. rewrite En. simpl. by rewrite E.
Qed.

Lemma expand_resolve w drivers :
  0 < w -> drivers <> [] -> net_of w drivers ->
  (r ← resolve drivers; expand_to_logic9 r) =
  (nines ← mapM expand_to_logic9 drivers; resolve_packed9 nines).
Proof.
  intros Hw Hne Hnet. destruct (expand_all w drivers Hnet) as (nines & -> & HF).
  destruct (returns_inv _ _ (resolve_elementwise w drivers Hw Hne Hnet)) as (r & -> & [R1 R2 R3 R4 R5]).
  simpl. pose proof (wf_width _ R1). symmetry.
  destruct (returns_inv _ _ (expand_to_logic9_spec r R1)) as (e & -> & HE). rewrite R2 in HE.
  apply returns_eq. eapply returns_mono; [apply (resolve_packed9_elementwise w (at9 <$> drivers))|].
  - unfold SIZE_MAX in *. lia.
  - intros ->. apply Hne. destruct drivers; [done|]. inversion HF.
  - done.
  - intros e' HE'. eapply Nine_unique; [exact HE|]. eapply Nine_ext; [exact HE'|].
    intros i Hi. rewrite R5 by done. unfold column. by rewrite <- list_fmap_compose.
Qed.
