(* ===== verification/KernelWord.v ===== *)
(** * Word operations of the static kernel

    Model of src/runtime/simir_kernel_word_ops.hpp (namespace [kernel_word]):
    the operators of the simulation IR on four-state values of at most 64 bits,
    held as one aval and one bval word.  The operator enumerations are those of
    include/fsim/runtime/simir.hpp.  Definitions carry the prefix [kw_] where
    the packed reference functions have the same name. *)
From S2P Require Import Prelude Logic WordSpan LogicWord PackedLogic4 PackedConvert PackedNumeric.
Ltac Zify.zify_post_hook ::= Z.div_mod_to_equations.

(** ** Operators of the simulation IR *)

Inductive LogicalBinaryOperator := logical_and | logical_or.

Inductive ReductionOperator :=
  | reduce_and | reduce_or | reduce_xor | one_hot | one_hot_or_zero.

Inductive ShiftOperator :=
  | logical_left | logical_right | arithmetic_right | arithmetic_left
  | rotate_left | rotate_right.

Inductive BinaryOperator :=
  | bit_and | bit_or | bit_xor
  | add_unsigned | subtract_unsigned | multiply_unsigned | power_unsigned
  | divide_unsigned | modulo_unsigned
  | add_signed | subtract_signed | multiply_signed | power_signed
  | divide_signed | remainder_signed | modulo_signed
  | equal | case_equal | casez_equal | casex_equal | wildcard_equal | not_equal
  | less_unsigned | less_equal_unsigned | greater_unsigned | greater_equal_unsigned
  | less_signed | less_equal_signed | greater_signed | greater_equal_signed
  | vhdl_match_equal.

#[global] Instance reduction_operator_eq_dec : EqDecision ReductionOperator.
Proof. solve_decision. Defined.
#[global] Instance shift_operator_eq_dec : EqDecision ShiftOperator.
Proof. solve_decision. Defined.
#[global] Instance binary_operator_eq_dec : EqDecision BinaryOperator.
Proof. solve_decision. Defined.

(** Normalization of a runtime index against a packed range. *)
Record DynamicIndex := mkDynamicIndex {
  di_left : Z; di_right : Z; di_base_offset : Z;
}.

Record DynamicPartIndex := mkDynamicPartIndex {
  dpi_left : Z; dpi_right : Z; dpi_base_offset : Z; dpi_width : Z;
  dpi_increasing : bool; dpi_source_descending : bool;
}.

(** [operation >= equal && operation <= greater_equal_signed] *)
Definition is_comparison (operation : BinaryOperator) : bool :=
  match operation with
  | equal | case_equal | casez_equal | casex_equal | wildcard_equal | not_equal
  | less_unsigned | less_equal_unsigned | greater_unsigned | greater_equal_unsigned
  | less_signed | less_equal_signed | greater_signed | greater_equal_signed => true
  | _ => false
  end.

Definition is_signed_relation (operation : BinaryOperator) : bool :=
  match operation with
  | less_signed | less_equal_signed | greater_signed | greater_equal_signed => true
  | _ => false
  end.

(** ** Words *)

Record Word := mkWord { word_a : Z; word_b : Z }.

Definition kw_mask (width : Z) : Z :=
  if width >=? 64 then not64 0 else sub64 (shl64 1 width) 1.

Definition kw_known (value : Word) : bool := word_b value =? 0.

Definition kw_all_x (width : Z) : Word := mkWord (kw_mask width) (kw_mask width).

Definition kw_bit (value : Word) (index : Z) : Logic4 :=
  let a := Z.land (Z.shiftr (word_a value) index) 1 in
  let b := Z.land (Z.shiftr (word_b value) index) 1 in
  if b =? 0 then (if negb (a =? 0) then Logic4_one else Logic4_zero)
  else (if negb (a =? 0) then Logic4_x else Logic4_z).

Definition kw_from_logic4 (value : Logic4) : Word :=
  match value with
  | Logic4_zero => mkWord 0 0
  | Logic4_one => mkWord 1 0
  | Logic4_x => mkWord 1 1
  | Logic4_z => mkWord 0 1
  end.

Definition kw_bit_and (l r : Word) (width : Z) : Word :=
  let m := kw_mask width in
  let zero := Z.lor (Z.land (not64 (word_a l)) (not64 (word_b l)))
                (Z.land (not64 (word_a r)) (not64 (word_b r))) in
  let one := Z.land (Z.land (word_a l) (not64 (word_b l))) (Z.land (word_a r) (not64 (word_b r))) in
  let x := Z.land (not64 (Z.lor zero one)) m in
  mkWord (Z.land (Z.lor one x) m) x.

Definition kw_bit_or (l r : Word) (width : Z) : Word :=
  let m := kw_mask width in
  let one := Z.lor (Z.land (word_a l) (not64 (word_b l))) (Z.land (word_a r) (not64 (word_b r))) in
  let zero := Z.land (Z.land (not64 (word_a l)) (not64 (word_b l)))
                (Z.land (not64 (word_a r)) (not64 (word_b r))) in
  let x := Z.land (not64 (Z.lor zero one)) m in
  mkWord (Z.land (Z.lor one x) m) x.

Definition kw_bit_xor (l r : Word) (width : Z) : Word :=
  let m := kw_mask width in
  let unknown := Z.land (Z.lor (word_b l) (word_b r)) m in
  mkWord (Z.land (Z.lor (Z.lxor (word_a l) (word_a r)) unknown) m) unknown.

Definition kw_unary_not (value : Word) (width : Z) : Word :=
  let m := kw_mask width in
  mkWord (Z.land (Z.lor (not64 (word_a value)) (word_b value)) m) (Z.land (word_b value) m).

Definition kw_truth (value : Word) : Logic4 :=
  if negb (Z.land (word_a value) (not64 (word_b value)) =? 0) then Logic4_one
  else if negb (word_b value =? 0) then Logic4_x else Logic4_zero.

Definition kw_scalar (value : Logic4) : Word := kw_from_logic4 value.

Definition kw_logical_not (value : Word) : Word := kw_scalar (logic_not4 (kw_truth value)).

Definition kw_logical_binary (operation : LogicalBinaryOperator) (l r : Word) : Word :=
  let left := kw_truth l in
  let right := kw_truth r in
  kw_scalar (match operation with
             | logical_and => logic_and4 left right
             | logical_or => logic_or4 left right
             end).

(** [std::popcount] *)
Definition popcount (x : Z) : Z := count_up (Z.testbit x) 64.

Definition kw_reduce (operation : ReductionOperator) (value : Word) (width : Z) : Word :=
  let m := kw_mask width in
  let ones := Z.land (Z.land (word_a value) (not64 (word_b value))) m in
  let zeros := Z.land (Z.land (not64 (word_a value)) (not64 (word_b value))) m in
  let unknown := Z.land (word_b value) m in
  match operation with
  | one_hot => kw_scalar (if popcount ones =? 1 then Logic4_one else Logic4_zero)
  | one_hot_or_zero => kw_scalar (if popcount ones <=? 1 then Logic4_one else Logic4_zero)
  | reduce_and =>
      if negb (zeros =? 0) then kw_scalar Logic4_zero
      else kw_scalar (if negb (unknown =? 0) then Logic4_x else Logic4_one)
  | reduce_or =>
      if negb (ones =? 0) then kw_scalar Logic4_one
      else kw_scalar (if negb (unknown =? 0) then Logic4_x else Logic4_zero)
  | reduce_xor =>
      if negb (unknown =? 0) then kw_scalar Logic4_x
      else kw_scalar (if negb (Z.land (popcount ones) 1 =? 0) then Logic4_one else Logic4_zero)
  end.

Definition kw_sign_extend (value width : Z) : Z :=
  if width >=? 64 then to_int64 value
  else
    let sign := shl64 1 (width - 1) in
    to_int64 (sub64 (Z.lxor value sign) sign).

Definition kw_power_known (base exponent base_width exponent_width : Z) (signed_exponent : bool) : Z :=
  let m := kw_mask base_width in
  let negative :=
    signed_exponent && negb (Z.land (Z.shiftr exponent (exponent_width - 1)) 1 =? 0) in
  if negative then
    if base =? 0 then U64_MAX
    else if base =? 1 then 1
    else if base =? m then (if negb (Z.land exponent 1 =? 0) then base else 1)
    else 0
  else
    let result := Z.land 1 m in
    let factor := Z.land base m in
    fst (foreach_pure (up 0 exponent_width) (fun bit_index (rf : Z * Z) =>
      let '(result, factor) := rf in
      let result :=
        if negb (Z.land (Z.shiftr exponent bit_index) 1 =? 0)
        then Z.land (mul64 result factor) m else result in
      (result, Z.land (mul64 factor factor) m)) (result, factor)).

(** ** Nine-state code planes as words *)

Definition kw_logic9_word (p0 p1 p2 p3 width : Z) : option Word :=
  let m := kw_mask width in
  let known := Z.land p1 (not64 p2) in
  let unknown := Z.land (Z.land (not64 p2) (not64 p1)) p0 in
  let high_z := Z.land (Z.land p2 (not64 p1)) (not64 p0) in
  if negb (Z.land p3 m =? 0)
     || negb (Z.land (Z.lor (Z.lor known unknown) high_z) m =? m)
  then None
  else Some (mkWord (Z.land p0 m) (Z.land (Z.lor unknown high_z) m)).

Record UWord := mkUWord { uword_value : Word; uword_unknown : Z }.

Definition kw_logic9_uword (p0 p1 p2 p3 width : Z) : option UWord :=
  let m := kw_mask width in
  let unknown := Z.land (not64 (Z.lor (Z.lor (Z.lor p0 p1) p2) p3)) m in
  match kw_logic9_word (Z.lor p0 unknown) p1 p2 p3 width with
  | None => None
  | Some word => Some (mkUWord word unknown)
  end.

Definition kw_logic9_coerced (p0 p1 p2 p3 width : Z) : Word :=
  let m := kw_mask width in
  let zero := Z.land (Z.land (not64 p3) p1) (not64 p0) in
  let one := Z.land (Z.land (not64 p3) p1) p0 in
  let high_z := Z.land (Z.land (Z.land (not64 p3) p2) (not64 p1)) (not64 p0) in
  let unknown := not64 (Z.lor (Z.lor zero one) high_z) in
  mkWord (Z.land (Z.lor one unknown) m) (Z.land (Z.lor high_z unknown) m).

(** The result is the quadruple of code planes ([Logic9Planes]). *)
Definition kw_logic9_planes (value : Word) (width unknown : Z) : Z * Z * Z * Z :=
  let m := Z.land (kw_mask width) (not64 unknown) in
  (Z.land (word_a value) m, Z.land (not64 (word_b value)) m,
   Z.land (Z.land (not64 (word_a value)) (word_b value)) m, 0).

Definition kw_known_bits (value : PackedLogic4) : option Z :=
  if (width value =? 0) || (width value >? 64) then None
  else
    let w := width value in
    if negb (is_logic9 value) then
      if negb (Z.land (front (bval_words value)) (kw_mask w) =? 0) then None
      else Some (Z.land (front (aval_words value)) (kw_mask w))
    else
      match kw_logic9_word (front (logic9_plane_words value 0)) (front (logic9_plane_words value 1))
              (front (logic9_plane_words value 2)) (front (logic9_plane_words value 3)) w with
      | None => None
      | Some word => if negb (word_b word =? 0) then None else Some (word_a word)
      end.

Definition kw_logic9_known (bits w : Z) : Outcome PackedLogic4 :=
  let '(p0, p1, p2, p3) := kw_logic9_planes (mkWord bits 0) w 0 in
  from_logic9_word {| l9w_width := w; l9w_plane0 := p0; l9w_plane1 := p1;
                      l9w_plane2 := p2; l9w_plane3 := p3 |}.

Definition kw_unknown_and (l : Word) (lu : Z) (r : Word) (ru : Z) : Z :=
  let zero_l := Z.land (not64 (word_a l)) (not64 (word_b l)) in
  let zero_r := Z.land (not64 (word_a r)) (not64 (word_b r)) in
  Z.land (Z.land (Z.lor lu ru) (not64 zero_l)) (not64 zero_r).

Definition kw_unknown_or (l : Word) (lu : Z) (r : Word) (ru : Z) : Z :=
  let one_l := Z.land (word_a l) (not64 (word_b l)) in
  let one_r := Z.land (word_a r) (not64 (word_b r)) in
  Z.land (Z.land (Z.lor lu ru) (not64 one_l)) (not64 one_r).

(** ** Binary operators *)

(** [comparison] is -1, 0 or 1. *)
Definition kw_relation (operation : BinaryOperator) (comparison : Z) : bool :=
  match operation with
  | not_equal => negb (comparison =? 0)
  | less_unsigned | less_signed => comparison <? 0
  | less_equal_unsigned | less_equal_signed => comparison <=? 0
  | greater_unsigned | greater_signed => comparison >? 0
  | _ => comparison >=? 0
  end.

Definition kw_signed_division (operation : BinaryOperator) (left right width : Z) : Word :=
  let m := kw_mask width in
  let sign := shl64 1 (width - 1) in
  let left_negative := negb (Z.land left sign =? 0) in
  let right_negative := negb (Z.land right sign =? 0) in
  let left_magnitude := if left_negative then Z.land (sub64 0 left) m else left in
  let right_magnitude := if right_negative then Z.land (sub64 0 right) m else right in
  let quotient := Z.land (left_magnitude / right_magnitude) m in
  let remainder := Z.land (left_magnitude mod right_magnitude) m in
  let quotient := if negb (eqb left_negative right_negative)
                  then Z.land (sub64 0 quotient) m else quotient in
  let remainder := if left_negative then Z.land (sub64 0 remainder) m else remainder in
  match operation with
  | divide_signed => mkWord quotient 0
  | modulo_signed =>
      if negb (remainder =? 0) && negb (eqb left_negative right_negative)
      then mkWord (Z.land (add64 remainder right) m) 0 else mkWord remainder 0
  | _ => mkWord remainder 0
  end.

(** The arithmetic half of [binary]: operands known. *)
Definition kw_arithmetic (operation : BinaryOperator) (left right width : Z) : Word :=
  let m := kw_mask width in
  match operation with
  | add_unsigned | add_signed => mkWord (Z.land (add64 left right) m) 0
  | subtract_unsigned | subtract_signed => mkWord (Z.land (sub64 left right) m) 0
  | multiply_unsigned | multiply_signed => mkWord (Z.land (mul64 left right) m) 0
  | power_unsigned => mkWord (Z.land (kw_power_known left right width width false) m) 0
  | power_signed =>
      let negative := negb (Z.land (Z.shiftr right (width - 1)) 1 =? 0) in
      if negative && (left =? 0) then kw_all_x width
      else mkWord (Z.land (kw_power_known left right width width true) m) 0
  | divide_unsigned =>
      if right =? 0 then kw_all_x width else mkWord (Z.land (left / right) m) 0
  | modulo_unsigned =>
      if right =? 0 then kw_all_x width else mkWord (Z.land (left mod right) m) 0
  | divide_signed | remainder_signed | modulo_signed =>
      if right =? 0 then kw_all_x width else kw_signed_division operation left right width
  | _ => kw_all_x width
  end.

Definition kw_binary (operation : BinaryOperator) (l r : Word) (width : Z) : Word :=
  let m := kw_mask width in
  let unknown := Z.land (Z.lor (word_b l) (word_b r)) m in
  match operation with
  | bit_and => kw_bit_and l r width
  | bit_or => kw_bit_or l r width
  | bit_xor => kw_bit_xor l r width
  | equal =>
      if negb (Z.land (Z.land (Z.lxor (word_a l) (word_a r)) (not64 unknown)) m =? 0)
      then kw_scalar Logic4_zero
      else if negb (unknown =? 0) then kw_scalar Logic4_x else kw_scalar Logic4_one
  | case_equal =>
      kw_scalar (if (word_a l =? word_a r) && (word_b l =? word_b r)
                 then Logic4_one else Logic4_zero)
  | casez_equal =>
      let z := Z.land (Z.lor (Z.land (not64 (word_a l)) (word_b l))
                         (Z.land (not64 (word_a r)) (word_b r))) m in
      let differ := Z.land (Z.land (Z.lor (Z.lxor (word_a l) (word_a r))
                       (Z.lxor (word_b l) (word_b r))) m) (not64 z) in
      kw_scalar (if differ =? 0 then Logic4_one else Logic4_zero)
  | casex_equal =>
      let differ := Z.land (Z.land (Z.lor (Z.lxor (word_a l) (word_a r))
                       (Z.lxor (word_b l) (word_b r))) m) (not64 unknown) in
      kw_scalar (if differ =? 0 then Logic4_one else Logic4_zero)
  | wildcard_equal =>
      let care := Z.land (not64 (word_b r)) m in
      if negb (Z.land (Z.land (Z.lxor (word_a l) (word_a r)) care) (not64 (word_b l)) =? 0)
      then kw_scalar Logic4_zero
      else if negb (Z.land (word_b l) care =? 0) then kw_scalar Logic4_x
      else kw_scalar (if Z.land (Z.lxor (word_a l) (word_a r)) care =? 0
                      then Logic4_one else Logic4_zero)
  | not_equal =>
      if negb (Z.land (Z.land (Z.lxor (word_a l) (word_a r)) (not64 unknown)) m =? 0)
      then kw_scalar Logic4_one
      else if negb (unknown =? 0) then kw_scalar Logic4_x else kw_scalar Logic4_zero
  | less_unsigned | less_equal_unsigned | greater_unsigned | greater_equal_unsigned
  | less_signed | less_equal_signed | greater_signed | greater_equal_signed =>
      if negb (unknown =? 0) then kw_scalar Logic4_x
      else
        let left := if is_signed_relation operation then kw_sign_extend (word_a l) width else word_a l in
        let right := if is_signed_relation operation then kw_sign_extend (word_a r) width else word_a r in
        let comparison := if left <? right then -1 else if left >? right then 1 else 0 in
        kw_scalar (if kw_relation operation comparison then Logic4_one else Logic4_zero)
  | vhdl_match_equal =>
      kw_scalar (if negb (Z.land (Z.land (Z.lxor (word_a l) (word_a r))
                            (not64 (Z.lor (word_b l) (word_b r)))) m =? 0) then Logic4_zero
                 else if negb (Z.land (Z.lor (word_b l) (word_b r)) m =? 0) then Logic4_x
                 else Logic4_one)
  | _ =>
      if negb (unknown =? 0) then kw_all_x width
      else kw_arithmetic operation (word_a l) (word_a r) width
  end.

(** ** Shifts *)

Definition kw_reverse (operation : ShiftOperator) : ShiftOperator :=
  match operation with
  | logical_left => logical_right
  | logical_right => logical_left
  | arithmetic_left => arithmetic_right
  | arithmetic_right => arithmetic_left
  | rotate_left => rotate_right
  | rotate_right => rotate_left
  end.

Definition kw_rotate (operation : ShiftOperator) (width amount_value plane : Z) : Z :=
  let m := kw_mask width in
  match operation with
  | rotate_left => Z.land (Z.lor (shl64 plane amount_value) (Z.shiftr plane (width - amount_value))) m
  | _ => Z.land (Z.lor (Z.shiftr plane amount_value) (shl64 plane (width - amount_value))) m
  end.

Definition kw_shift (operation : ShiftOperator) (value : Word) (width : Z) (amount : Word)
    (amount_width : Z) (signed_amount : bool) : Word :=
  let m := kw_mask width in
  let amount_mask := kw_mask amount_width in
  if negb (Z.land (word_b amount) amount_mask =? 0) then kw_all_x width
  else
    let magnitude := Z.land (word_a amount) amount_mask in
    let negative := signed_amount
                    && negb (Z.land (Z.shiftr magnitude (amount_width - 1)) 1 =? 0) in
    let operation := if negative then kw_reverse operation else operation in
    let magnitude := if negative then Z.land (sub64 0 magnitude) amount_mask else magnitude in
    let fill_bit := match operation with
                    | arithmetic_right => kw_bit value (width - 1)
                    | arithmetic_left => kw_bit value 0
                    | _ => Logic4_zero
                    end in
    let fill_word := kw_from_logic4 fill_bit in
    let fill := mkWord (if negb (word_a fill_word =? 0) then m else 0)
                       (if negb (word_b fill_word =? 0) then m else 0) in
    match operation with
    | rotate_left | rotate_right =>
        let amount_value := magnitude mod width in
        if amount_value =? 0 then mkWord (Z.land (word_a value) m) (Z.land (word_b value) m)
        else mkWord (kw_rotate operation width amount_value (word_a value))
                    (kw_rotate operation width amount_value (word_b value))
    | _ =>
        if magnitude >=? width then fill
        else if magnitude =? 0 then mkWord (Z.land (word_a value) m) (Z.land (word_b value) m)
        else
          let keep := kw_mask (width - magnitude) in
          match operation with
          | logical_left | arithmetic_left =>
              let low := kw_mask magnitude in
              mkWord (Z.lor (Z.land (shl64 (word_a value) magnitude) m) (Z.land (word_a fill) low))
                     (Z.lor (Z.land (shl64 (word_b value) magnitude) m) (Z.land (word_b fill) low))
          | _ =>
              let high := Z.land m (not64 keep) in
              mkWord (Z.lor (Z.land (Z.shiftr (word_a value) magnitude) keep) (Z.land (word_a fill) high))
                     (Z.lor (Z.land (Z.shiftr (word_b value) magnitude) keep) (Z.land (word_b fill) high))
          end
    end.

(** ** Part selects and conditionals *)

Definition kw_extract (value : Word) (offset width : Z) : Word :=
  let m := kw_mask width in
  if offset >=? 64 then mkWord 0 0
  else mkWord (Z.land (Z.shiftr (word_a value) offset) m) (Z.land (Z.shiftr (word_b value) offset) m).

Definition kw_insert (target source : Word) (offset source_width : Z) : Word :=
  let field := shl64 (kw_mask source_width) offset in
  mkWord (Z.lor (Z.land (word_a target) (not64 field)) (Z.land (shl64 (word_a source) offset) field))
         (Z.lor (Z.land (word_b target) (not64 field)) (Z.land (shl64 (word_b source) offset) field)).

Definition kw_conditional (condition when_true when_false : Word) (width : Z) : Word :=
  let selected := kw_bit condition 0 in
  match selected with
  | Logic4_one => when_true
  | Logic4_zero => when_false
  | _ =>
      let m := kw_mask width in
      let same_known := Z.land (not64 (Z.lor (Z.lor (word_b when_true) (word_b when_false))
                                  (Z.lxor (word_a when_true) (word_a when_false)))) m in
      let unknown := Z.land (not64 same_known) m in
      mkWord (Z.lor (Z.land (word_a when_true) same_known) unknown) unknown
  end.

Definition kw_to_two_state (value : Word) : Word :=
  mkWord (Z.land (word_a value) (not64 (word_b value))) 0.

(** [static_cast<std::int64_t>(static_cast<std::int32_t>(raw))] of the low word. *)
Definition kw_signed32 (a : Z) : Z := to_int32 (wrap32 a).

Definition kw_dynamic_index (index : Word) (selection : DynamicIndex) : option Z :=
  if negb (Z.land (word_b index) (kw_mask 32) =? 0) then None
  else
    let signed_index := kw_signed32 (word_a index) in
    let lower := if di_left selection <? di_right selection then di_left selection else di_right selection in
    let upper := if di_left selection <? di_right selection then di_right selection else di_left selection in
    if (signed_index <? lower) || (signed_index >? upper) then None
    else
      let offset := if signed_index >=? di_right selection
                    then wrap64 (signed_index - di_right selection)
                    else wrap64 (di_right selection - signed_index) in
      if offset >? U32_MAX - di_base_offset selection then None
      else Some (di_base_offset selection + offset).

(** The index a selected bit is normalized from; [selected_right] is the index
    of result bit 0. *)
Definition selected_right_of (signed_base width : Z) (increasing source_descending : bool) : Z :=
  let edge := width - 1 in
  if increasing then signed_base + (if source_descending then 0 else edge)
  else signed_base - (if source_descending then edge else 0).

Definition selected_index (selected_right index : Z) (source_descending : bool) : Z :=
  if source_descending then selected_right + index else selected_right - index.

(** [static_cast<std::uint64_t>(|selected - right|)] *)
Definition kw_distance (selected right : Z) : Z :=
  if selected >=? right then wrap64 (selected - right) else wrap64 (right - selected).

Definition kw_dynamic_part_select (source : Word) (source_width : Z) (base : Word)
    (left right base_offset width : Z) (increasing source_descending two_state : bool) : Word :=
  let result := if two_state then mkWord 0 0 else kw_all_x width in
  if negb (Z.land (word_b base) (kw_mask 32) =? 0) then result
  else
    let signed_base := kw_signed32 (word_a base) in
    let lower := if left <? right then left else right in
    let upper := if left <? right then right else left in
    let selected_right := selected_right_of signed_base width increasing source_descending in
    foreach_pure (up 0 width) (fun index result =>
      let selected := selected_index selected_right index source_descending in
      if (selected <? lower) || (selected >? upper) then result
      else
        let offset := kw_distance selected right in
        if (offset >? U32_MAX - base_offset) || (add64 base_offset offset >=? source_width) then result
        else
          let from := base_offset + offset in
          let one := shl64 1 index in
          mkWord (Z.lor (Z.land (word_a result) (not64 one))
                    (shl64 (Z.land (Z.shiftr (word_a source) from) 1) index))
                 (Z.lor (Z.land (word_b result) (not64 one))
                    (shl64 (Z.land (Z.shiftr (word_b source) from) 1) index))) result.

Record PartWrite := mkPartWrite { pw_value : Word; pw_offset : Z; pw_width : Z }.

(** The loop state of [dynamic_part_write]: [first_source], [first_target] and
    [selected_width]. *)
Definition PartScan : Type := option Z * Z * Z.

(** [PartWriteResult]: [None] where [valid] is false, [Some None] when nothing
    is written. *)
Definition kw_dynamic_part_write (source base : Word) (selection : DynamicPartIndex)
    : option (option PartWrite) :=
  if negb (Z.land (word_b base) (kw_mask 32) =? 0) then Some None
  else
    let signed_base := kw_signed32 (word_a base) in
    let left := dpi_left selection in
    let right := dpi_right selection in
    let lower := if left <? right then left else right in
    let upper := if left <? right then right else left in
    let selected_right := selected_right_of signed_base (dpi_width selection)
                            (dpi_increasing selection) (dpi_source_descending selection) in
    let scan := foreach_flow (up 0 (dpi_width selection)) (fun index (s : PartScan) =>
      let '(first_source, first_target, selected_width) := s in
      let selected := selected_index selected_right index (dpi_source_descending selection) in
      if (selected <? lower) || (selected >? upper) then Ok (inl s)
      else
        let offset := kw_distance selected right in
        if offset >? U32_MAX then Ok (inr tt)
        else
          match first_source with
          | None =>
              if offset >? U32_MAX - dpi_base_offset selection then Ok (inr tt)
              else Ok (inl (Some index, add64 (dpi_base_offset selection) offset, selected_width + 1))
          | Some first =>
              if negb (index =? wrap32 (first + selected_width))
                 || negb (add64 (dpi_base_offset selection) offset
                          =? add64 first_target selected_width)
              then Ok (inr tt)
              else Ok (inl (first_source, first_target, selected_width + 1))
          end) (None, 0, 0) in
    match scan with
    | Ok (inl (Some first_source, first_target, selected_width)) =>
        Some (Some (mkPartWrite (kw_extract source first_source selected_width)
                      (wrap32 first_target) selected_width))
    | Ok (inl (None, _, _)) => Some None
    | _ => None
    end.
