(* ===== verification/SimirArithmetic.v ===== *)
(** * Packed arithmetic

    Model of src/runtime/simir_arithmetic.cpp: the binary operators of the
    simulation IR on packed values ([binary_value] and the ripple-carry
    routines it falls back to), the checked VHDL integer operations, subtype
    range checks and the conditional operator.

    [binary_value] tries the word operations of [KernelWord] first; the
    element-by-element code after them is [reference_value] here, one
    definition per group of operators. *)
From S2P Require Import Prelude Logic WordSpan LogicWord PackedLogic4 PackedConvert PackedNumeric.
From S2P Require Import KernelWord.
Ltac Zify.zify_post_hook ::= Z.div_mod_to_equations.

Definition logic4_of_bool (b : bool) : Logic4 := if b then Logic4_one else Logic4_zero.
Definition is_unknown (v : Logic4) : bool := logic4_eqb v Logic4_x || logic4_eqb v Logic4_z.

(** ** Predicates *)

Definition has_unknown (value : PackedLogic4) : Outcome bool :=
  after_loop (foreach_flow (up 0 (width value)) (fun index _ =>
    bit ← get value index;
    Ok (if is_unknown bit then inr true else inl tt)) tt)
    (fun _ => Ok false).

Definition is_zero (value : PackedLogic4) : Outcome bool :=
  after_loop (foreach_flow (up 0 (width value)) (fun index _ =>
    bit ← get value index;
    Ok (if logic4_eqb bit Logic4_one then inr false else inl tt)) tt)
    (fun _ => Ok true).

Definition is_one (value : PackedLogic4) : Outcome bool :=
  first ← get value 0;
  if negb (logic4_eqb first Logic4_one) then Ok false
  else
    after_loop (foreach_flow (up 1 (width value)) (fun index _ =>
      bit ← get value index;
      Ok (if negb (logic4_eqb bit Logic4_zero) then inr false else inl tt)) tt)
      (fun _ => Ok true).

Definition is_all_ones (value : PackedLogic4) : Outcome bool :=
  after_loop (foreach_flow (up 0 (width value)) (fun index _ =>
    bit ← get value index;
    Ok (if negb (logic4_eqb bit Logic4_one) then inr false else inl tt)) tt)
    (fun _ => Ok true).

Definition compare_known_unsigned (lhs rhs : PackedLogic4) : Outcome Z :=
  after_loop (foreach_flow (down (width lhs)) (fun index _ =>
    left ← get lhs index;
    right ← get rhs index;
    Ok (if logic4_eqb left right then inl tt
        else inr (if logic4_eqb left Logic4_one then 1 else -1))) tt)
    (fun _ => Ok 0).

(** ** Ripple arithmetic *)

Definition subtract_known (lhs rhs : PackedLogic4) : Outcome PackedLogic4 :=
  result ← make (width lhs) Logic4_zero;
  rb ← foreach (up 0 (width lhs)) (fun index (rb : PackedLogic4 * bool) =>
    let '(result, borrow) := rb in
    l ← get lhs index;
    r ← get rhs index;
    let left := logic4_eqb l Logic4_one in
    let right := logic4_eqb r Logic4_one in
    result ← set result index (logic4_of_bool (xorb (xorb left right) borrow));
    Ok (result, (negb left && (right || borrow)) || (right && borrow))) (result, false);
  Ok (fst rb).

Definition add_known (lhs rhs : PackedLogic4) : Outcome PackedLogic4 :=
  result ← make (width lhs) Logic4_zero;
  rc ← foreach (up 0 (width lhs)) (fun index (rc : PackedLogic4 * bool) =>
    let '(result, carry) := rc in
    l ← get lhs index;
    r ← get rhs index;
    let left := logic4_eqb l Logic4_one in
    let right := logic4_eqb r Logic4_one in
    result ← set result index (logic4_of_bool (xorb (xorb left right) carry));
    Ok (result, (left && right) || (carry && (left || right)))) (result, false);
  Ok (fst rc).

Definition negate_known (value : PackedLogic4) : Outcome PackedLogic4 :=
  zero ← make (width value) Logic4_zero;
  subtract_known zero value.

Definition multiply_known (lhs rhs : PackedLogic4) : Outcome PackedLogic4 :=
  result ← make (width lhs) Logic4_zero;
  foreach (up 0 (width rhs)) (fun rhs_bit result =>
    b ← get rhs rhs_bit;
    if negb (logic4_eqb b Logic4_one) then Ok result
    else
      rc ← foreach (up rhs_bit (width result)) (fun bit (rc : PackedLogic4 * bool) =>
        let '(result, carry) := rc in
        a ← get result bit;
        m ← get lhs (bit - rhs_bit);
        let accumulated := logic4_eqb a Logic4_one in
        let multiplicand := logic4_eqb m Logic4_one in
        result ← set result bit (logic4_of_bool (xorb (xorb accumulated multiplicand) carry));
        Ok (result, (accumulated && multiplicand) || (carry && (accumulated || multiplicand))))
        (result, false);
      Ok (fst rc)) result.

(** [auto result = PackedLogic4(width, Logic4::zero); result.set(0, one)] *)
Definition packed_one (w : Z) : Outcome PackedLogic4 :=
  result ← make w Logic4_zero;
  set result 0 Logic4_one.

Definition power_known (base exponent : PackedLogic4) (signed_exponent : bool) : Outcome PackedLogic4 :=
  negative ← (if signed_exponent
              then (top ← get exponent (width exponent - 1); Ok (logic4_eqb top Logic4_one))
              else Ok false);
  if negative : bool then
    zero ← is_zero base;
    if zero : bool then make (width base) Logic4_x
    else
      one ← is_one base;
      if one : bool then packed_one (width base)
      else
        ones ← is_all_ones base;
        if ones : bool then
          odd ← get exponent 0;
          if logic4_eqb odd Logic4_one then Ok (copy base) else packed_one (width base)
        else make (width base) Logic4_zero
  else
    result ← packed_one (width base);
    rf ← foreach (up 0 (width exponent)) (fun bit (rf : PackedLogic4 * PackedLogic4) =>
      let '(result, factor) := rf in
      e ← get exponent bit;
      result ← (if logic4_eqb e Logic4_one then multiply_known result factor else Ok result);
      factor ← (if bit + 1 <? width exponent then multiply_known factor factor else Ok factor);
      Ok (result, factor)) (result, copy base);
    Ok (fst rf).

Record KnownDivision := mkKnownDivision { quotient : PackedLogic4; remainder : PackedLogic4 }.

(** The inner loop [for (bit = remainder.width(); bit-- > 1;)]. *)
Definition shift_remainder (remainder : PackedLogic4) : Outcome PackedLogic4 :=
  foreach (down (width remainder)) (fun bit remainder =>
    if bit =? 0 then Ok remainder
    else
      below ← get remainder (bit - 1);
      set remainder bit below) remainder.

Definition divide_known (dividend divisor : PackedLogic4) : Outcome KnownDivision :=
  quotient ← make (width dividend) Logic4_zero;
  remainder ← make (width dividend) Logic4_zero;
  qr ← foreach (down (width dividend)) (fun dividend_bit (qr : PackedLogic4 * PackedLogic4) =>
    let '(quotient, remainder) := qr in
    remainder ← shift_remainder remainder;
    b ← get dividend dividend_bit;
    remainder ← set remainder 0 b;
    comparison ← compare_known_unsigned remainder divisor;
    if comparison >=? 0 then
      remainder ← subtract_known remainder divisor;
      quotient ← set quotient dividend_bit Logic4_one;
      Ok (quotient, remainder)
    else Ok (quotient, remainder)) (quotient, remainder);
  Ok (mkKnownDivision (fst qr) (snd qr)).

Definition divide_known_signed (dividend divisor : PackedLogic4) : Outcome KnownDivision :=
  dividend_top ← get dividend (width dividend - 1);
  divisor_top ← get divisor (width divisor - 1);
  let dividend_negative := logic4_eqb dividend_top Logic4_one in
  let divisor_negative := logic4_eqb divisor_top Logic4_one in
  dividend_magnitude ← (if dividend_negative then negate_known dividend else Ok (copy dividend));
  divisor_magnitude ← (if divisor_negative then negate_known divisor else Ok (copy divisor));
  divided ← divide_known dividend_magnitude divisor_magnitude;
  q ← (if negb (eqb dividend_negative divisor_negative)
       then negate_known (quotient divided) else Ok (quotient divided));
  r ← (if dividend_negative then negate_known (remainder divided) else Ok (remainder divided));
  Ok (mkKnownDivision q r).

(** ** Binary operators, element by element *)

Definition equality_state (mismatch unknown : bool) : Logic4 :=
  if mismatch then Logic4_zero else if unknown then Logic4_x else Logic4_one.

Definition equal_reference (lhs rhs : PackedLogic4) : Outcome PackedLogic4 :=
  um ← foreach (up 0 (width lhs)) (fun index (um : bool * bool) =>
    let '(unknown, mismatch) := um in
    left ← get lhs index;
    right ← get rhs index;
    let left_known := logic4_eqb left Logic4_zero || logic4_eqb left Logic4_one in
    let right_known := logic4_eqb right Logic4_zero || logic4_eqb right Logic4_one in
    Ok (if negb left_known || negb right_known then (true, mismatch)
        else if negb (logic4_eqb left right) then (unknown, true)
        else (unknown, mismatch))) (false, false);
  let '(unknown, mismatch) := um in
  make 1 (equality_state mismatch unknown).

Definition case_reference (operation : BinaryOperator) (lhs rhs : PackedLogic4)
    : Outcome PackedLogic4 :=
  result ← make 1 Logic4_one;
  matched ← after_loop (foreach_flow (up 0 (width lhs)) (fun index _ =>
    if bool_decide (operation = case_equal) && (is_logic9 lhs || is_logic9 rhs) then
      l ← get_logic9 lhs index;
      r ← get_logic9 rhs index;
      Ok (if negb (logic9_eqb l r) then inr false else inl tt)
    else
      left ← get lhs index;
      right ← get rhs index;
      let wildcard :=
        if bool_decide (operation = casez_equal)
        then logic4_eqb left Logic4_z || logic4_eqb right Logic4_z
        else bool_decide (operation = casex_equal) && (is_unknown left || is_unknown right) in
      Ok (if negb wildcard && negb (logic4_eqb left right) then inr false else inl tt)) tt)
    (fun _ => Ok true);
  if matched : bool then Ok result else set result 0 Logic4_zero.

Definition wildcard_reference (lhs rhs : PackedLogic4) : Outcome PackedLogic4 :=
  um ← foreach (up 0 (width lhs)) (fun index (um : bool * bool) =>
    let '(unknown, mismatch) := um in
    left ← get lhs index;
    right ← get rhs index;
    Ok (if is_unknown right then (unknown, mismatch)
        else if is_unknown left then (true, mismatch)
        else if negb (logic4_eqb left right) then (unknown, true)
        else (unknown, mismatch))) (false, false);
  let '(unknown, mismatch) := um in
  make 1 (equality_state mismatch unknown).

Definition match_class (value : Logic9) : Z :=
  if logic9_eqb value Logic9_dont_care then -1
  else if logic9_eqb value Logic9_zero || logic9_eqb value Logic9_l then 0
  else if logic9_eqb value Logic9_one || logic9_eqb value Logic9_h then 1
  else if logic9_eqb value Logic9_u then 3
  else 2.

Definition vhdl_match_reference (lhs rhs : PackedLogic4) : Outcome PackedLogic4 :=
  scan ← foreach_flow (up 0 (width lhs)) (fun index (uu : bool * bool) =>
    let '(unknown, uninitialized) := uu in
    l ← get_logic9 lhs index;
    r ← get_logic9 rhs index;
    let left := match_class l in
    let right := match_class r in
    Ok (if (left =? -1) || (right =? -1) then inl (unknown, uninitialized)
        else if (left =? 3) || (right =? 3) then inl (unknown, true)
        else if (left =? 2) || (right =? 2) then inl (true, uninitialized)
        else if negb (left =? right) then inr tt
        else inl (unknown, uninitialized))) (false, false);
  match scan with
  | inr _ => make 1 Logic4_zero
  | inl (unknown, uninitialized) =>
      if uninitialized : bool then (result ← make 1 Logic4_x; set_logic9 result 0 Logic9_u)
      else make 1 (if unknown : bool then Logic4_x else Logic4_one)
  end.

(** The result of a relational operator from [less] and [greater]. *)
Definition relation_result (operation : BinaryOperator) (less greater : bool) : bool :=
  match operation with
  | not_equal => less || greater
  | less_unsigned | less_signed => less
  | less_equal_unsigned | less_equal_signed => less || negb greater
  | greater_unsigned | greater_signed => greater
  | greater_equal_unsigned | greater_equal_signed => greater || negb less
  | _ => false
  end.

Definition relation_reference (operation : BinaryOperator) (lhs rhs : PackedLogic4)
    : Outcome PackedLogic4 :=
  unknown ← after_loop (foreach_flow (up 0 (width lhs)) (fun index _ =>
    left ← get lhs index;
    right ← get rhs index;
    Ok (if is_unknown left || is_unknown right then inr true else inl tt)) tt)
    (fun _ => Ok false);
  if unknown : bool then make 1 Logic4_x
  else
    lhs_top ← get lhs (width lhs - 1);
    rhs_top ← get rhs (width rhs - 1);
    let lhs_negative := logic4_eqb lhs_top Logic4_one in
    let rhs_negative := logic4_eqb rhs_top Logic4_one in
    comparison ← (if is_signed_relation operation && negb (eqb lhs_negative rhs_negative)
                  then Ok (if lhs_negative then -1 else 1)
                  else compare_known_unsigned lhs rhs);
    make 1 (logic4_of_bool (relation_result operation (comparison <? 0) (comparison >? 0))).

(** The arithmetic operators on operands without unknown elements. *)
Definition arithmetic_reference (operation : BinaryOperator) (lhs rhs : PackedLogic4)
    : Outcome PackedLogic4 :=
  match operation with
  | add_unsigned | add_signed => add_known lhs rhs
  | subtract_unsigned | subtract_signed => subtract_known lhs rhs
  | multiply_unsigned | multiply_signed => multiply_known lhs rhs
  | power_unsigned => power_known lhs rhs false
  | power_signed => power_known lhs rhs true
  | divide_unsigned | modulo_unsigned =>
      zero ← is_zero rhs;
      if zero : bool then make (width lhs) Logic4_x
      else
        divided ← divide_known lhs rhs;
        match operation with
        | modulo_unsigned => Ok (remainder divided)
        | _ => Ok (quotient divided)
        end
  | _ =>
      zero ← is_zero rhs;
      if zero : bool then make (width lhs) Logic4_x
      else
        divided ← divide_known_signed lhs rhs;
        match operation with
        | divide_signed => Ok (quotient divided)
        | modulo_signed =>
            none_left ← is_zero (remainder divided);
            lhs_top ← get lhs (width lhs - 1);
            rhs_top ← get rhs (width rhs - 1);
            if negb none_left && negb (logic4_eqb lhs_top rhs_top)
            then add_known (remainder divided) rhs
            else Ok (remainder divided)
        | _ => Ok (remainder divided)
        end
  end.

Definition is_arithmetic (operation : BinaryOperator) : bool :=
  match operation with
  | add_unsigned | subtract_unsigned | multiply_unsigned | power_unsigned | divide_unsigned
  | modulo_unsigned | add_signed | subtract_signed | multiply_signed | power_signed
  | divide_signed | remainder_signed | modulo_signed => true
  | _ => false
  end.

(** The bitwise operators, on the elements of the representation in use. *)
Definition bitwise4 (operation : BinaryOperator) : Logic4 -> Logic4 -> Logic4 :=
  match operation with
  | bit_and => logic_and4 | bit_or => logic_or4 | _ => logic_xor4
  end.
Definition bitwise9 (operation : BinaryOperator) : Logic9 -> Logic9 -> Logic9 :=
  match operation with
  | bit_and => logic_and9 | bit_or => logic_or9 | _ => logic_xor9
  end.

Definition bitwise_reference (operation : BinaryOperator) (exact_logic9 : bool)
    (lhs rhs result : PackedLogic4) : Outcome PackedLogic4 :=
  foreach (up 0 (width lhs)) (fun index result =>
    if exact_logic9 then
      left ← get_logic9 lhs index;
      right ← get_logic9 rhs index;
      set_logic9 result index (bitwise9 operation left right)
    else
      left ← get lhs index;
      right ← get rhs index;
      set result index (bitwise4 operation left right)) result.

(** The tail of [binary_value]: results of the operand width. *)
Definition vector_reference (operation : BinaryOperator) (lhs rhs : PackedLogic4)
    : Outcome PackedLogic4 :=
  result ← make (width lhs) Logic4_zero;
  let exact_logic9 := is_logic9 lhs || is_logic9 rhs in
  result ← (if exact_logic9 then fill9 result Logic9_u else Ok result);
  if is_arithmetic operation then
    left_unknown ← has_unknown lhs;
    unknown ← (if left_unknown : bool then Ok true else has_unknown rhs);
    if unknown : bool then make (width lhs) Logic4_x
    else arithmetic_reference operation lhs rhs
  else bitwise_reference operation exact_logic9 lhs rhs result.

(** ** Dispatch *)

(** Four-state operands of at most 64 bits. *)
Definition word_path (operation : BinaryOperator) (lhs rhs : PackedLogic4)
    : option (Outcome PackedLogic4) :=
  if (width lhs <=? 64) && negb (is_logic9 lhs) && negb (is_logic9 rhs)
     && negb (bool_decide (operation = vhdl_match_equal)) then
    let left := mkWord (front (aval_words lhs)) (front (bval_words lhs)) in
    let right := mkWord (front (aval_words rhs)) (front (bval_words rhs)) in
    let w := width lhs in
    let result := kw_binary operation left right w in
    Some (from_aval_bval (if is_comparison operation then 1 else w) (word_a result) (word_b result))
  else None.

(** Operands of at most 64 bits in either representation, all 0 or 1. *)
Definition known_path (operation : BinaryOperator) (lhs rhs : PackedLogic4)
    : option (Outcome PackedLogic4) :=
  if (width lhs <=? 64) && negb (bool_decide (operation = vhdl_match_equal)) then
    match kw_known_bits lhs with
    | None => None
    | Some left_bits =>
        match kw_known_bits rhs with
        | None => None
        | Some right_bits =>
            let w := width lhs in
            let result := kw_binary operation (mkWord left_bits 0) (mkWord right_bits 0) w in
            Some match operation with
                 | bit_and | bit_or | bit_xor => kw_logic9_known (word_a result) w
                 | _ => from_aval_bval (if is_comparison operation then 1 else w)
                          (word_a result) (word_b result)
                 end
        end
    end
  else None.

(** The checks and word paths every operator goes through before its
    element-by-element code [reference]. *)
Definition dispatch (operation : BinaryOperator)
    (reference : PackedLogic4 -> PackedLogic4 -> Outcome PackedLogic4)
    (lhs rhs : PackedLogic4) : Outcome PackedLogic4 :=
  if negb (width lhs =? width rhs)
  then Throw (invalid_argument "binary operands have different widths")
  else if width lhs =? 0
  then Throw (invalid_argument "binary operands must not be empty")
  else
    match word_path operation lhs rhs with
    | Some result => result
    | None =>
        match known_path operation lhs rhs with
        | Some result => result
        | None => reference lhs rhs
        end
    end.

Definition not_equal_reference (lhs rhs : PackedLogic4) : Outcome PackedLogic4 :=
  same ← dispatch equal equal_reference lhs rhs;
  state ← get same 0;
  make 1 (if logic4_eqb state Logic4_one then Logic4_zero
          else if logic4_eqb state Logic4_zero then Logic4_one else Logic4_x).

Definition reference_value (operation : BinaryOperator)
    : PackedLogic4 -> PackedLogic4 -> Outcome PackedLogic4 :=
  match operation with
  | equal => equal_reference
  | case_equal | casez_equal | casex_equal => case_reference operation
  | wildcard_equal => wildcard_reference
  | vhdl_match_equal => vhdl_match_reference
  | not_equal => not_equal_reference
  | less_unsigned | less_equal_unsigned | greater_unsigned | greater_equal_unsigned
  | less_signed | less_equal_signed | greater_signed | greater_equal_signed =>
      relation_reference operation
  | _ => vector_reference operation
  end.

Definition binary_value (operation : BinaryOperator) (lhs rhs : PackedLogic4)
    : Outcome PackedLogic4 :=
  dispatch operation (reference_value operation) lhs rhs.

(** ** Conditional operator *)

Definition conditional_value (condition when_true when_false : PackedLogic4) : Outcome PackedLogic4 :=
  if negb (width condition =? 1)
  then Throw (invalid_argument "conditional-select condition is not scalar")
  else if negb (width when_true =? width when_false)
  then Throw (invalid_argument "conditional-select values have different widths")
  else
    selected ← get condition 0;
    if logic4_eqb selected Logic4_one then Ok (copy when_true)
    else if logic4_eqb selected Logic4_zero then Ok (copy when_false)
    else
      result ← make (width when_true) Logic4_x;
      foreach (up 0 (width result)) (fun index result =>
        bit ← get when_true index;
        other ← get when_false index;
        if logic4_eqb bit other && (logic4_eqb bit Logic4_zero || logic4_eqb bit Logic4_one)
        then set result index bit else Ok result) result.
