(* ===== verification/IntegerArithmetic.v ===== *)
(** * Checked VHDL integers

    Model of the integer half of src/runtime/simir_arithmetic.cpp: VHDL INTEGER
    operations on packed 32- or 64-bit operands, which must be known, and whose
    result must be representable at the operand width; and the subtype range
    check.  Operands are [std::int64_t]; every intermediate value of the C++
    stays in that type's range, so integers are unbounded here. *)
From S2P Require Import Prelude Logic WordSpan LogicWord PackedLogic4 PackedConvert PackedNumeric.
Ltac Zify.zify_post_hook ::= Z.div_mod_to_equations.

Inductive IntegerUnaryOperator := negate | absolute.
Inductive IntegerBinaryOperator :=
  | integer_add | integer_subtract | integer_multiply | integer_power
  | integer_divide | integer_remainder | integer_modulo.

Definition unknown_operand : exception :=
  invalid_argument "VHDL integer operand contains an unknown or high-impedance value".
Definition integer_overflow : exception := invalid_argument "VHDL integer arithmetic overflow".
Definition division_by_zero : exception := invalid_argument "VHDL integer division by zero".
Definition negative_exponent : exception :=
  invalid_argument "VHDL integer exponent must be nonnegative".

Definition checked_integer_operand (value : PackedLogic4) : Outcome Z :=
  if negb (width value =? 32) && negb (width value =? 64) then Throw unknown_operand
  else
    match known_signed_value value with
    | None => Throw unknown_operand
    | Some converted => Ok converted
    end.

Definition integer_minimum (w : Z) : Z := if w =? 64 then - 2 ^ 63 else - 2 ^ 31.
Definition integer_maximum (w : Z) : Z := if w =? 64 then 2 ^ 63 - 1 else 2 ^ 31 - 1.

(** The checked operations return [None] where the C++ returns false. *)
Definition checked_add_integer (lhs rhs minimum maximum : Z) : option Z :=
  if ((rhs >? 0) && (lhs >? maximum - rhs)) || ((rhs <? 0) && (lhs <? minimum - rhs))
  then None else Some (lhs + rhs).

Definition checked_subtract_integer (lhs rhs minimum maximum : Z) : option Z :=
  if ((rhs <? 0) && (lhs >? maximum + rhs)) || ((rhs >? 0) && (lhs <? minimum + rhs))
  then None else Some (lhs - rhs).

(** C++ division truncates: [Z.quot] and [Z.rem]. *)
Definition checked_multiply_integer (lhs rhs minimum maximum : Z) : option Z :=
  if (lhs =? 0) || (rhs =? 0) then Some 0
  else if ((lhs =? -1) && (rhs =? minimum)) || ((rhs =? -1) && (lhs =? minimum)) then None
  else
    let overflow :=
      if lhs >? 0
      then (if rhs >? 0 then lhs >? Z.quot maximum rhs else rhs <? Z.quot minimum lhs)
      else (if rhs >? 0 then lhs <? Z.quot minimum rhs else lhs <? Z.quot maximum rhs) in
    if overflow then None else Some (lhs * rhs).

Definition packed_integer (value w : Z) : Outcome PackedLogic4 :=
  if (negb (w =? 32) && negb (w =? 64))
     || (value <? integer_minimum w) || (value >? integer_maximum w)
  then Throw integer_overflow
  else from_aval_bval w (wrap64 value) 0.

Definition integer_unary_value (operation : IntegerUnaryOperator) (source : PackedLogic4)
    : Outcome PackedLogic4 :=
  value ← checked_integer_operand source;
  if value =? integer_minimum (width source) then Throw integer_overflow
  else
    match operation with
    | negate => packed_integer (- value) (width source)
    | absolute => packed_integer (if value <? 0 then - value else value) (width source)
    end.

(** The state of the exponentiation loop. *)
Record PowerState := mkPowerState { ps_exponent : Z; ps_result : Z; ps_factor : Z }.

Definition or_overflow (r : option Z) : Outcome Z :=
  match r with None => Throw integer_overflow | Some x => Ok x end.

(** One iteration of [while (exponent != 0)]. *)
Definition power_step (minimum maximum : Z) (s : PowerState) : Outcome PowerState :=
  result ← (if negb (Z.land (ps_exponent s) 1 =? 0)
            then or_overflow (checked_multiply_integer (ps_result s) (ps_factor s) minimum maximum)
            else Ok (ps_result s));
  let exponent := Z.shiftr (ps_exponent s) 1 in
  factor ← (if negb (exponent =? 0)
            then or_overflow (checked_multiply_integer (ps_factor s) (ps_factor s) minimum maximum)
            else Ok (ps_factor s));
  Ok (mkPowerState exponent result factor).

(** The loop: the exponent is a 64-bit word halved by every iteration, so the
    guard fails after at most 64 of them ([power_loop_ends]). *)
Definition power_loop (minimum maximum : Z) (s : PowerState) : Outcome PowerState :=
  foreach (up 0 64) (fun _ s =>
    if ps_exponent s =? 0 then Ok s else power_step minimum maximum s) s.

Definition integer_binary_value (operation : IntegerBinaryOperator)
    (lhs_value rhs_value : PackedLogic4) : Outcome PackedLogic4 :=
  if negb (width lhs_value =? width rhs_value)
  then Throw (invalid_argument "VHDL integer operand widths differ")
  else
    let w := width lhs_value in
    let minimum := integer_minimum w in
    let maximum := integer_maximum w in
    lhs ← checked_integer_operand lhs_value;
    rhs ← checked_integer_operand rhs_value;
    match operation with
    | integer_add =>
        result ← or_overflow (checked_add_integer lhs rhs minimum maximum);
        packed_integer result w
    | integer_subtract =>
        result ← or_overflow (checked_subtract_integer lhs rhs minimum maximum);
        packed_integer result w
    | integer_multiply =>
        result ← or_overflow (checked_multiply_integer lhs rhs minimum maximum);
        packed_integer result w
    | integer_power =>
        if rhs <? 0 then Throw negative_exponent
        else
          s ← power_loop minimum maximum (mkPowerState rhs 1 lhs);
          packed_integer (ps_result s) w
    | integer_divide | integer_remainder | integer_modulo =>
        if rhs =? 0 then Throw division_by_zero
        else if (lhs =? minimum) && (rhs =? -1) then Throw integer_overflow
        else
          match operation with
          | integer_divide => packed_integer (Z.quot lhs rhs) w
          | _ =>
              let result := Z.rem lhs rhs in
              let result :=
                match operation with
                | integer_modulo =>
                    if negb (result =? 0) && negb (eqb (result <? 0) (rhs <? 0))
                    then result + rhs else result
                | _ => result
                end in
              packed_integer result w
          end
    end.

Definition check_integer_range (source : PackedLogic4) (lower upper : Z) : Outcome unit :=
  if (width source =? 0) || (width source >? 64)
  then Throw (invalid_argument
    "VHDL integer range check requires an operand no wider than 64 bits")
  else
    value ← (if (width source =? 32) || (width source =? 64)
             then (v ← checked_integer_operand source; Ok (Some v))
             else if lower <? 0 then Ok (known_signed_value source)
             else match known_unsigned_value source with
                  | Some ordinal => Ok (if ordinal <=? 2 ^ 63 - 1 then Some ordinal else None)
                  | None => Ok None
                  end);
    match value with
    | None => Throw unknown_operand
    | Some value =>
        if (value <? lower) || (value >? upper)
        then Throw (invalid_argument "VHDL integer subtype range check failed")
        else Ok tt
    end.

(** * Specification vocabulary *)

(** The integers of a profile width. *)
Definition integer_width (w : Z) : Prop := w = 32 \/ w = 64.
Definition representable (w n : Z) : Prop := integer_minimum w <= n <= integer_maximum w.

(** A known four-state value of width [w] that denotes the integer [n]. *)
Record Integer (v : PackedLogic4) (w n : Z) : Prop := {
  integer_wf : wf v;
  integer_four : is_logic9 v = false;
  integer_of_width : width v = w;
  integer_known : all_known v;
  integer_value : svalue v = n;
}.

(** The mathematical result: division truncates, [mod] takes the sign of the
    divisor, [rem] that of the dividend. *)
Definition integer_result (operation : IntegerBinaryOperator) (l r : Z) : Z :=
  match operation with
  | integer_add => l + r
  | integer_subtract => l - r
  | integer_multiply => l * r
  | integer_power => l ^ r
  | integer_divide => Z.quot l r
  | integer_remainder => Z.rem l r
  | integer_modulo => l mod r
  end.

(** Operands an operation rejects before computing. *)
Definition integer_domain_error (operation : IntegerBinaryOperator) (w l r : Z) : option exception :=
  match operation with
  | integer_power => if r <? 0 then Some negative_exponent else None
  | integer_divide | integer_remainder | integer_modulo =>
      if r =? 0 then Some division_by_zero
      else if (l =? integer_minimum w) && (r =? -1) then Some integer_overflow
      else None
  | _ => None
  end.

(** * Theorems *)

Lemma representable_bounds w n : integer_width w ->
  representable w n <-> - 2 ^ (w - 1) <= n < 2 ^ (w - 1).
Proof.
  intros [-> | ->]; unfold representable, integer_minimum, integer_maximum; simpl; lia.
Qed.

#[global] Instance representable_dec w n : Decision (representable w n).
Proof. unfold representable. apply _. Defined.

Lemma packed_integer_ok w n : integer_width w -> representable w n ->
  returns (packed_integer n w) (fun v => Integer v w n).
Proof.
  intros Hw Hr. pose proof (proj1 (representable_bounds w n Hw) Hr) as Hb. unfold packed_integer.
  assert ((negb (w =? 32) && negb (w =? 64)) || (n <? integer_minimum w) || (n >? integer_maximum w)
    = false) as ->.
  { unfold representable in Hr. rewrite Z.gtb_ltb. destruct Hw as [-> | ->]; simpl;
      rewrite !(proj2 (Z.ltb_ge _ _)) by lia; done. }
  assert (0 < w <= 64) as Hw' by (destruct Hw; lia).
  eapply returns_mono; [by apply from_aval_bval_spec|]. intros v [R1 R2 R3 R4 R5].
  assert (forall i, 0 <= i < w -> at4 v i = logic4_of_bits (Z.testbit (wrap64 n) i) false) as Hat.
  { intros i Hi. unfold at4. rewrite R5, to_logic4_to_logic9, Z.bits_0 by done. done. }
  split; try done.
  - intros i Hi. unfold known_at. rewrite Hat by lia. by destruct (Z.testbit (wrap64 n) i).
  - assert (uvalue v = n mod 2 ^ w) as Hu.
    { apply Z.bits_inj'. intros i Hi. rewrite testbit_uvalue, testbit_mod_pow2, R2 by lia.
      destruct (Z.ltb_spec i w); [|done]. unfold one_at. rewrite Hat by lia.
      unfold wrap64. rewrite Z.mod_pow2_bits_low by lia. by destruct (Z.testbit n i). }
    unfold svalue. rewrite R2, Hu. apply Z.bits_inj'. intros i Hi.
    rewrite testbit_signed_of by (try apply Z.mod_pos_bound; try apply Z.pow_pos_nonneg; lia).
    rewrite Z.mod_pow2_bits_low by lia. destruct (Z.ltb_spec i (w - 1)).
    + f_equal. lia.
    + rewrite Z.min_r by lia. by rewrite !(testbit_sign n (w - 1)) by lia.
Qed.

Lemma packed_integer_overflow w n : integer_width w -> ~ representable w n ->
  packed_integer n w = Throw integer_overflow.
Proof.
  intros Hw Hr. unfold packed_integer, representable in *. rewrite Z.gtb_ltb.
  destruct (Z.ltb_spec n (integer_minimum w)), (Z.ltb_spec (integer_maximum w) n);
    rewrite ?orb_true_r; done || lia.
Qed.

Lemma checked_operand_ok v w n : integer_width w -> Integer v w n ->
  checked_integer_operand v = Ok n /\ representable w n.
Proof.
  intros Hw [H1 H2 H3 H4 H5].
  assert (0 < width v) as Hpos by (destruct Hw; lia).
  pose proof (svalue_bounds v Hpos) as Hb. rewrite H3, H5 in Hb.
  assert (representable w n) as Hr by by apply representable_bounds. split; [|done].
  unfold checked_integer_operand. rewrite H3.
  replace (negb (w =? 32) && negb (w =? 64)) with false by (destruct Hw as [-> | ->]; done).
  rewrite (proj2 (known_signed_value_spec v n H1 H2 Hpos)); [done|]. split_and!; [done|done| |];
    destruct Hw as [-> | ->]; simpl in Hb; lia.
Qed.

Lemma checked_operand_unknown v : wf v -> is_logic9 v = false -> 0 < width v -> ~ all_known v ->
  checked_integer_operand v = Throw unknown_operand.
Proof.
  intros H1 H2 H3 H4. unfold checked_integer_operand. destruct (negb _ && negb _); [done|].
  destruct (known_signed_value v) eqn:E; [|done].
  by apply known_signed_value_spec in E as (? & _).
Qed.

(** ** Checked operations *)

Lemma checked_add_spec w l r : representable w l -> representable w r ->
  checked_add_integer l r (integer_minimum w) (integer_maximum w) =
  if bool_decide (representable w (l + r)) then Some (l + r) else None.
Proof.
  unfold representable, checked_add_integer. intros Hl Hr. rewrite !Z.gtb_ltb.
  destruct (Z.ltb_spec 0 r), (Z.ltb_spec r 0), (Z.ltb_spec (integer_maximum w - r) l),
    (Z.ltb_spec l (integer_minimum w - r)); simpl;
    first [rewrite bool_decide_eq_true_2 by lia; done|rewrite bool_decide_eq_false_2 by lia; done|lia].
Qed.

Lemma checked_subtract_spec w l r : representable w l -> representable w r ->
  checked_subtract_integer l r (integer_minimum w) (integer_maximum w) =
  if bool_decide (representable w (l - r)) then Some (l - r) else None.
Proof.
  unfold representable, checked_subtract_integer. intros Hl Hr. rewrite !Z.gtb_ltb.
  destruct (Z.ltb_spec 0 r), (Z.ltb_spec r 0), (Z.ltb_spec (integer_maximum w + r) l),
    (Z.ltb_spec l (integer_minimum w + r)); simpl;
    first [rewrite bool_decide_eq_true_2 by lia; done|rewrite bool_decide_eq_false_2 by lia; done|lia].
Qed.

(** Comparing with a truncated quotient is comparing the product. *)
Lemma quot_bound_pos a b m : 0 <= m -> 0 < b -> (Z.quot m b <? a) = (m <? a * b).
Proof.
  intros Hm Hb. rewrite Z.quot_div_nonneg by lia. apply eq_true_iff_eq. rewrite !Z.ltb_lt.
  split; intros H; nia.
Qed.

Lemma quot_bound_neg a b m : m <= 0 -> 0 < b -> (a <? Z.quot m b) = (a * b <? m).
Proof.
  intros Hm Hb. replace m with (- - m) at 1 by lia. rewrite Z.quot_opp_l by lia.
  pose proof (quot_bound_pos (- a) b (- m) ltac:(lia) Hb) as H.
  apply eq_true_iff_eq. rewrite !Z.ltb_lt.
  destruct (Z.ltb_spec (Z.quot (- m) b) (- a)), (Z.ltb_spec (- m) (- a * b)); try done; lia.
Qed.

Lemma quot_bound_both_neg a b m : 0 <= m -> b < 0 -> (a <? Z.quot m b) = (m <? a * b).
Proof.
  intros Hm Hb. replace b with (- - b) at 1 by lia. rewrite Z.quot_opp_r by lia.
  pose proof (quot_bound_pos (- a) (- b) m ltac:(lia) ltac:(lia)) as H.
  replace (- a * - b) with (a * b) in H by lia. rewrite <- H.
  apply eq_true_iff_eq. rewrite !Z.ltb_lt. lia.
Qed.

Lemma checked_multiply_spec w l r : integer_width w -> representable w l -> representable w r ->
  checked_multiply_integer l r (integer_minimum w) (integer_maximum w) =
  if bool_decide (representable w (l * r)) then Some (l * r) else None.
Proof.
  intros Hw Hl Hr. unfold representable, checked_multiply_integer in *.
  set (mn := integer_minimum w) in *. set (mx := integer_maximum w) in *.
  assert (mn = - mx - 1 /\ 0 < mx) as [Hmn Hmx]
    by (subst mn mx; unfold integer_minimum, integer_maximum; destruct Hw as [-> | ->]; simpl; lia).
  destruct (Z.eqb_spec l 0) as [->|]; simpl; [rewrite bool_decide_eq_true_2 by lia; done|].
  destruct (Z.eqb_spec r 0) as [->|]; simpl;
    [rewrite bool_decide_eq_true_2 by lia; f_equal; lia|].
  destruct (Z.eqb_spec l (-1)), (Z.eqb_spec r mn); simpl;
    [rewrite bool_decide_eq_false_2 by nia; done|..];
    (destruct (Z.eqb_spec r (-1)), (Z.eqb_spec l mn); simpl;
      [rewrite bool_decide_eq_false_2 by nia; done|..]).
  all: rewrite !Z.gtb_ltb; destruct (Z.ltb_spec 0 l), (Z.ltb_spec 0 r);
    [rewrite (quot_bound_pos l r mx) by lia
    |rewrite (quot_bound_neg r l mn) by lia
    |rewrite (quot_bound_neg l r mn) by lia
    |rewrite (quot_bound_both_neg l r mx) by lia];
    match goal with |- context [?a <? ?b] => destruct (Z.ltb_spec a b) end;
    first [rewrite bool_decide_eq_false_2 by nia; done|rewrite bool_decide_eq_true_2 by nia; done].
Qed.

(** ** Exponentiation by squaring *)

(** The magnitude bound of a profile is not a square, so a squared factor that
    does not exceed it fits. *)
Lemma square_fits w f : integer_width w -> f * f <= - integer_minimum w -> representable w (f * f).
Proof.
  intros Hw Hf. unfold representable, integer_minimum, integer_maximum in *.
  destruct Hw as [-> | ->]; simpl in *.
  - assert (Z.abs f <= 46340) by nia. nia.
  - assert (Z.abs f <= 3037000499) by nia. nia.
Qed.

Lemma abs_pow_ge_1 f n : f <> 0 -> 0 <= n -> 1 <= Z.abs (f ^ n).
Proof. intros Hf Hn. pose proof (Z.pow_nonzero f n Hf Hn). lia. Qed.

(** A partial product is in range when the whole product is: either every
    later factor has magnitude one, or there is room to spare. *)
Lemma partial_fits w r f e :
  integer_width w -> r <> 0 -> f <> 0 -> 0 < e -> representable w (r * (f * f) ^ e) ->
  representable w r /\ representable w (f * f).
Proof.
  intros Hw Hr Hf He HT. set (T := r * (f * f) ^ e) in *.
  assert (1 <= f * f) as Hff by nia.
  assert (f * f <= (f * f) ^ e) as Hpow.
  { replace (f * f) with ((f * f) ^ 1) at 1 by lia. apply Z.pow_le_mono_r; lia. }
  assert (- integer_maximum w - 1 = integer_minimum w /\ 0 < integer_maximum w) as [Hmm Hmx]
    by (unfold integer_minimum, integer_maximum; destruct Hw as [-> | ->]; simpl; lia).
  assert (Z.abs T = Z.abs r * (f * f) ^ e) as HabsT
    by (unfold T; rewrite Z.abs_mul, (Z.abs_eq (_ ^ _)) by lia; done).
  unfold representable in *. split.
  - destruct (Z.eq_dec (f * f) 1) as [E|].
    + unfold T in HT. rewrite E, Z.pow_1_l in HT by lia. lia.
    + nia.
  - apply square_fits; [done|]. nia.
Qed.

Lemma power_split f e : 0 < e -> f ^ e = (if Z.odd e then f else 1) * (f * f) ^ (e / 2).
Proof.
  intros He. rewrite <- Z.pow_2_r, <- Z.pow_mul_r by lia.
  pose proof (Z.div_mod e 2 ltac:(lia)) as Hd. rewrite Zmod_odd in Hd.
  destruct (Z.odd e).
  - rewrite Hd at 1. rewrite Z.add_comm, Z.pow_add_r by lia. by rewrite Z.pow_1_r.
  - rewrite Hd at 1. rewrite Z.add_0_r. lia.
Qed.

Lemma land_one_odd e : 0 <= e -> negb (Z.land e 1 =? 0) = Z.odd e.
Proof.
  intros He. change 1 with (Z.ones 1). rewrite Z.land_ones by lia. change (2 ^ 1) with 2.
  rewrite Zmod_odd. by destruct (Z.odd e).
Qed.

(** What a run of the loop from [s] must do. *)
Definition power_outcome (w : Z) (s : PowerState) (m : Outcome PowerState) : Prop :=
  let total := ps_result s * ps_factor s ^ ps_exponent s in
  match m with
  | Ok s' => ps_exponent s' = 0 /\ ps_result s' = total /\ representable w total
  | Throw e => e = integer_overflow /\ ~ representable w total
  end.

Record power_ok (w : Z) (s : PowerState) : Prop := {
  power_exponent : 0 <= ps_exponent s;
  power_result : representable w (ps_result s);
  power_factor : representable w (ps_factor s);
  power_nonzero : ps_result s = 0 -> ps_factor s = 0;
}.

(** One iteration keeps the product, or stops because it does not fit. *)
Lemma power_step_ok w s :
  integer_width w -> power_ok w s -> 0 < ps_exponent s ->
  match power_step (integer_minimum w) (integer_maximum w) s with
  | Ok s' => power_ok w s' /\ ps_exponent s' = ps_exponent s / 2 /\
      ps_result s' * ps_factor s' ^ ps_exponent s' = ps_result s * ps_factor s ^ ps_exponent s
  | Throw e => e = integer_overflow /\ ~ representable w (ps_result s * ps_factor s ^ ps_exponent s)
  end.
Proof.
  intros Hw [H1 H2 H3 H4] He. destruct s as [e r f]; simpl in *. unfold power_step; simpl.
  rewrite land_one_odd by lia. rewrite (power_split f e) by done.
  rewrite Z.shiftr_div_pow2 by lia. change (2 ^ 1) with 2.
  set (r' := if Z.odd e then r * f else r).
  replace (r * ((if Z.odd e then f else 1) * (f * f) ^ (e / 2))) with (r' * (f * f) ^ (e / 2))
    by (unfold r'; destruct (Z.odd e); lia).
  assert (r' = 0 -> f = 0) as Hz by (unfold r'; destruct (Z.odd e); nia).
  assert (representable w 0) as H0
    by (unfold representable, integer_minimum, integer_maximum; destruct Hw as [-> | ->]; simpl; lia).
  rewrite !checked_multiply_spec by done.
  assert ((if Z.odd e then or_overflow (if bool_decide (representable w (r * f)) then Some (r * f) else None)
           else Ok r) = if bool_decide (representable w r') then Ok r' else Throw integer_overflow) as ->.
  { unfold r'. destruct (Z.odd e); [by destruct (bool_decide _)|].
    by rewrite (bool_decide_eq_true_2 _ H2). }
  destruct (Z.eq_dec f 0) as [->|Hf].
  { assert (r' * (0 * 0) ^ (e / 2) = if e / 2 =? 0 then r' else 0) as ->.
    { destruct (Z.eqb_spec (e / 2) 0) as [->|]; [lia|]. rewrite Z.pow_0_l; lia. }
    assert (e / 2 = 0 -> r' = 0) as Hr0 by (intros; unfold r'; destruct (Z.odd e) eqn:Eo; [lia|];
      pose proof (Zmod_odd e); rewrite Eo in *; lia).
    assert (r' = 0 \/ r' = r) as Hr' by (unfold r'; destruct (Z.odd e); lia).
    rewrite (bool_decide_eq_true_2 (representable w r')) by (destruct Hr' as [-> | ->]; done).
    simpl. rewrite (bool_decide_eq_true_2 _ H0).
    destruct (Z.eqb_spec (e / 2) 0); simpl; split_and!; try lia;
      try (split; simpl; try done; try lia; destruct Hr' as [-> | ->]; done);
      rewrite ?Z.pow_0_l by lia; rewrite ?e0, ?Z.pow_0_r; lia. }
  destruct (bool_decide_reflect (representable w r')) as [Hr'|Hr']; simpl.
  - destruct (Z.eqb_spec (e / 2) 0) as [E0|E0]; simpl.
    + split_and!; [split; simpl; done || lia|done|]. by rewrite E0, !Z.pow_0_r.
    + destruct (bool_decide_reflect (representable w (f * f))) as [Hff|Hff]; simpl.
      * split_and!; [split; simpl; try done; [lia|nia]|done|done].
      * split; [done|]. intros HT. apply Hff.
        eapply (partial_fits w r' f (e / 2)); try done; [by intros ?%Hz|lia].
  - split; [done|]. intros HT. apply Hr'. destruct (Z.eq_dec (e / 2) 0) as [E0|E0].
    + by rewrite E0, Z.pow_0_r, Z.mul_1_r in HT.
    + eapply (partial_fits w r' f (e / 2)); try done; [by intros ?%Hz|lia].
Qed.

Lemma power_loop_ends {I} w (l : list I) s :
  integer_width w -> power_ok w s -> ps_exponent s < 2 ^ size l ->
  power_outcome w s (foreach l (fun _ s =>
    if ps_exponent s =? 0 then Ok s else power_step (integer_minimum w) (integer_maximum w) s) s).
Proof.
  intros Hw. revert s. induction l as [|i l IH]; intros s Hs Hlt.
  - change (2 ^ size []) with 1 in Hlt. pose proof (power_exponent _ _ Hs).
    assert (ps_exponent s = 0) as E by lia. simpl. unfold power_outcome. rewrite E, Z.pow_0_r.
    split_and!; [done|lia|]. rewrite Z.mul_1_r. apply Hs.
  - assert (2 ^ size (i :: l) = 2 * 2 ^ size l) as Hsz.
    { unfold size. simpl length. rewrite Nat2Z.inj_succ, Z.pow_succ_r by lia. done. }
    rewrite Hsz in Hlt. simpl foreach. destruct (Z.eqb_spec (ps_exponent s) 0) as [E|E].
    + apply IH; [done|]. rewrite E. apply Z.pow_pos_nonneg; [lia|]. apply size_nonneg.
    + pose proof (power_exponent _ _ Hs). pose proof (power_step_ok w s Hw Hs ltac:(lia)) as Hstep.
      destruct (power_step _ _ s) as [s'|e]; [|done]. destruct Hstep as (Hs' & E1 & E2).
      simpl. specialize (IH s' Hs' ltac:(lia)). unfold power_outcome in *. by rewrite E2 in IH.
Qed.

(** ** The operations *)

Lemma quotient_fits w l r : integer_width w -> representable w l -> r <> 0 ->
  ~ (l = integer_minimum w /\ r = -1) -> representable w (Z.quot l r).
Proof.
  intros Hw Hl Hr Hn. unfold representable in *.
  assert (- integer_maximum w - 1 = integer_minimum w /\ 0 < integer_maximum w) as [Hmm Hmx]
    by (unfold integer_minimum, integer_maximum; destruct Hw as [-> | ->]; simpl; lia).
  pose proof (Z.quot_abs l r Hr) as Hq.
  destruct (Z.eq_dec r (-1)) as [->|Hr1].
  { change (-1) with (- (1)). rewrite Z.quot_opp_r, Z.quot_1_r by lia. lia. }
  destruct (Z.eq_dec r 1) as [->|Hr2]; [rewrite Z.quot_1_r; lia|].
  assert (Z.abs (Z.quot l r) <= Z.abs l / 2).
  { rewrite <- Hq, Z.quot_div_nonneg by lia. apply Z.div_le_compat_l; lia. }
  lia.
Qed.

Lemma modulus_fits w l r : integer_width w -> representable w l -> representable w r -> r <> 0 ->
  representable w (l mod r) /\ representable w (Z.rem l r).
Proof.
  intros Hw Hl Hr Hne. unfold representable in *.
  assert (- integer_maximum w - 1 = integer_minimum w /\ 0 < integer_maximum w) as [Hmm Hmx]
    by (unfold integer_minimum, integer_maximum; destruct Hw as [-> | ->]; simpl; lia).
  pose proof (Z.rem_bound_abs l r Hne). split; [|lia].
  destruct (Z.ltb_spec r 0); [pose proof (Z.mod_neg_bound l r)|pose proof (Z.mod_pos_bound l r)]; lia.
Qed.

(** What a checked integer operation must do on operands [l] and [r]. *)
Definition integer_outcome (operation : IntegerBinaryOperator) (w l r : Z)
    (m : Outcome PackedLogic4) : Prop :=
  match integer_domain_error operation w l r with
  | Some e => m = Throw e
  | None =>
      if bool_decide (representable w (integer_result operation l r))
      then returns m (fun v => Integer v w (integer_result operation l r))
      else m = Throw integer_overflow
  end.

Lemma packed_if_representable w n m :
  integer_width w -> m = packed_integer n w ->
  if bool_decide (representable w n) then returns m (fun v => Integer v w n)
  else m = Throw integer_overflow.
Proof.
  intros Hw ->. destruct (bool_decide_reflect (representable w n)).
  - by apply packed_integer_ok.
  - by apply packed_integer_overflow.
Qed.

Lemma integer_binary_correct operation w l r lhs rhs :
  integer_width w -> Integer lhs w l -> Integer rhs w r ->
  integer_outcome operation w l r (integer_binary_value operation lhs rhs).
Proof.
  intros Hw Hl Hr.
  destruct (checked_operand_ok _ _ _ Hw Hl) as [El Rl], (checked_operand_ok _ _ _ Hw Hr) as [Er Rr].
  unfold integer_binary_value. rewrite (integer_of_width _ _ _ Hl), (integer_of_width _ _ _ Hr), Z.eqb_refl.
  simpl. rewrite El. simpl. rewrite Er. simpl.
  destruct operation; unfold integer_outcome; simpl.
  1,2,3: rewrite ?checked_add_spec, ?checked_subtract_spec, ?checked_multiply_spec by done;
    case_bool_decide; simpl; [by apply packed_integer_ok|done].
  - destruct (Z.ltb_spec r 0); [done|].
    assert (power_ok w (mkPowerState r 1 l)) as Hs.
    { split; simpl; try done. unfold representable, integer_minimum, integer_maximum.
      destruct Hw as [-> | ->]; simpl; lia. }
    assert (r < 2 ^ size (up 0 64)) as Hlt.
    { change (2 ^ size (up 0 64)) with (2 ^ 64). unfold representable, integer_maximum in Rr.
      destruct Hw as [-> | ->]; simpl in Rr; lia. }
    assert (power_outcome w (mkPowerState r 1 l) (power_loop (integer_minimum w) (integer_maximum w)
      (mkPowerState r 1 l))) as Hp by by apply power_loop_ends.
    unfold power_outcome in Hp. cbn [ps_result ps_factor ps_exponent] in Hp. rewrite Z.mul_1_l in Hp.
    destruct (power_loop _ _ _) as [s'|e]; simpl.
    + destruct Hp as (_ & -> & Hrep). rewrite bool_decide_eq_true_2 by done. by apply packed_integer_ok.
    + destruct Hp as [-> Hrep]. by rewrite bool_decide_eq_false_2.
  - destruct (Z.eqb_spec r 0); [done|]. destruct ((l =? _) && (r =? -1)); [done|].
    by apply packed_if_representable.
  - destruct (Z.eqb_spec r 0); [done|]. destruct ((l =? _) && (r =? -1)); [done|].
    by apply packed_if_representable.
  - destruct (Z.eqb_spec r 0); [done|]. destruct ((l =? _) && (r =? -1)); [done|].
    rewrite modulo_of_remainder by done. by apply packed_if_representable.
Qed.

(** Only addition, subtraction, multiplication and exponentiation can leave
    the representable range; a quotient or remainder that is defined fits. *)
Lemma division_representable operation w l r :
  integer_width w -> representable w l -> representable w r ->
  (operation = integer_divide \/ operation = integer_remainder \/ operation = integer_modulo) ->
  integer_domain_error operation w l r = None -> representable w (integer_result operation l r).
Proof.
  intros Hw Hl Hr Hop. destruct Hop as [-> | [-> | ->]]; simpl;
    destruct (Z.eqb_spec r 0) as [|Hne]; try done;
    destruct ((l =? _) && (r =? -1)) eqn:E; try done; intros _.
  - apply quotient_fits; try done. intros [-> ->]. by rewrite Z.eqb_refl in E.
  - by apply modulus_fits.
  - by apply modulus_fits.
Qed.

Lemma integer_unary_correct operation w n source :
  integer_width w -> Integer source w n ->
  let result := match operation with negate => - n | absolute => Z.abs n end in
  if n =? integer_minimum w then integer_unary_value operation source = Throw integer_overflow
  else returns (integer_unary_value operation source) (fun v => Integer v w result).
Proof.
  intros Hw Hs result. destruct (checked_operand_ok _ _ _ Hw Hs) as [E R].
  unfold integer_unary_value. rewrite E, (integer_of_width _ _ _ Hs). simpl.
  destruct (Z.eqb_spec n (integer_minimum w)) as [|Hne]; [done|].
  assert (- integer_maximum w - 1 = integer_minimum w) as Hmm
    by (unfold integer_minimum, integer_maximum; destruct Hw as [-> | ->]; simpl; lia).
  unfold representable in R. subst result. destruct operation.
  - apply packed_integer_ok; [done|]. unfold representable. lia.
  - replace (Z.abs n) with (if n <? 0 then - n else n) by (destruct (Z.ltb_spec n 0); lia).
    apply packed_integer_ok; [done|]. unfold representable. destruct (Z.ltb_spec n 0); lia.
Qed.

(** Unknown elements in an operand are reported, whatever the operation. *)
Lemma integer_binary_unknown operation lhs rhs w :
  integer_width w -> wf lhs -> wf rhs -> is_logic9 lhs = false -> is_logic9 rhs = false ->
  width lhs = w -> width rhs = w -> ~ (all_known lhs /\ all_known rhs) ->
  integer_binary_value operation lhs rhs = Throw unknown_operand.
Proof.
  intros Hw Wl Wr Fl Fr El Er Hn. unfold integer_binary_value. rewrite El, Er, Z.eqb_refl. simpl.
  assert (0 < w) by (destruct Hw; lia).
  assert (forall v, wf v -> is_logic9 v = false -> width v = w ->
    (exists n, checked_integer_operand v = Ok n /\ all_known v) \/
    checked_integer_operand v = Throw unknown_operand) as Hcase.
  { intros v W F E. unfold checked_integer_operand. destruct (negb _ && negb _); [by right|].
    destruct (known_signed_value v) as [n|] eqn:K; [|by right].
    apply known_signed_value_spec in K as (Hk & _); [|done|done|lia]. eauto. }
  destruct (Hcase lhs Wl Fl El) as [(l & -> & Kl)| ->]; [|done]. simpl.
  destruct (Hcase rhs Wr Fr Er) as [(r & -> & Kr)| ->]; [|done]. by destruct Hn.
Qed.

(** ** Subtype ranges *)

(** The reading a range check takes: signed at the integer widths and for
    ranges that admit negative values, ordinal otherwise. *)
Definition checked_reading (source : PackedLogic4) (lower : Z) : Z :=
  if (width source =? 32) || (width source =? 64) || (lower <? 0) then svalue source else uvalue source.

Lemma range_check_correct source lower upper :
  wf source -> is_logic9 source = false -> 0 < width source <= 64 ->
  check_integer_range source lower upper = Ok tt <->
  all_known source /\ lower <= checked_reading source lower <= upper.
Proof.
  intros Hv Hn Hw. unfold check_integer_range, checked_reading. rewrite Z.gtb_ltb.
  rewrite (proj2 (Z.eqb_neq _ 0)), (proj2 (Z.ltb_ge 64 _)) by lia. simpl.
  pose proof (known_signed_value_spec source (svalue source) Hv Hn ltac:(lia)) as Hs.
  pose proof (known_unsigned_value_spec source (uvalue source) Hv Hn ltac:(lia)) as Hu.
  pose proof (svalue_bounds source ltac:(lia)) as Hsb. pose proof (uvalue_bound source ltac:(lia)) as Hub.
  assert (2 ^ (width source - 1) <= 2 ^ 63) by (apply Z.pow_le_mono_r; lia).
  assert (2 ^ width source <= 2 ^ 64) by (apply Z.pow_le_mono_r; lia).
  assert (forall x : Z, (if (x <? lower) || (x >? upper)
    then Throw (invalid_argument "VHDL integer subtype range check failed") else Ok tt) = Ok tt
    <-> lower <= x <= upper) as Hrange.
  { intros x. rewrite Z.gtb_ltb. destruct (Z.ltb_spec x lower), (Z.ltb_spec upper x); simpl;
      split; intros; done || lia. }
  assert (known_signed_value source = Some (svalue source) \/
    (known_signed_value source = None /\ ~ all_known source)) as [Es|[Es Hns]].
  { destruct (known_signed_value source) as [n|] eqn:E.
    - left. apply known_signed_value_spec in E as (_ & -> & _); done || lia.
    - right. split; [done|]. intros Hk. assert (None = Some (svalue source)); [|done].
      apply Hs. split_and!; done || lia. }
  - assert (all_known source) as Hk by by apply Hs.
    destruct ((width source =? 32) || (width source =? 64)) eqn:E3; simpl.
    { unfold checked_integer_operand. rewrite Es, <- negb_orb, E3. simpl. rewrite Hrange. tauto. }
    destruct (lower <? 0); [rewrite Es; cbn [mbind outcome_bind]; rewrite Hrange; tauto|].
    rewrite (proj2 Hu) by (split_and!; done || lia).
    assert (width source < 64) by (apply orb_false_iff in E3 as [_ ?]; lia).
    assert (2 ^ width source <= 2 ^ 63) by (apply Z.pow_le_mono_r; lia).
    rewrite (proj2 (Z.leb_le _ _)) by lia. cbn [mbind outcome_bind]. rewrite Hrange. tauto.
  - split; [|by intros (? & _)]. intros Hok. exfalso.
    destruct ((width source =? 32) || (width source =? 64)) eqn:E3; simpl in Hok.
    { unfold checked_integer_operand in Hok. by rewrite Es, <- negb_orb, E3 in Hok. }
    destruct (lower <? 0); [by rewrite Es in Hok|].
    destruct (known_unsigned_value source) eqn:Eu; [|done].
    apply known_unsigned_value_spec in Eu as (? & _); done || lia.
Qed.
