(* ===== verification/RippleArithmetic.v ===== *)
(** * Correctness of the ripple arithmetic

    The element-by-element adders, multiplier, powers and restoring division of
    [SimirArithmetic] compute modulo the width what the unsigned and signed
    readings of their operands say. *)
From S2P Require Import Prelude Logic WordSpan LogicWord PackedLogic4 PackedConvert PackedNumeric.
From S2P Require Import KernelWord SimirArithmetic.
Ltac Zify.zify_post_hook ::= Z.div_mod_to_equations.

(** * Vocabulary *)

(** Element [i] of the known four-state vector for the number [n]. *)
Definition number (n i : Z) : Logic9 := to_logic9 (logic4_of_bool (Z.testbit n i)).

(** [v] is the [w]-bit four-state vector for [n], taken modulo [2^w]. *)
Definition Num (v : PackedLogic4) (w n : Z) : Prop := Rep v w false (number n).

(** * Theorems *)

Lemma Num_testbit v w n m :
  Num v w n -> (forall i, 0 <= i < w -> Z.testbit n i = Z.testbit m i) -> Num v w m.
Proof. intros H Heq. eapply Rep_ext; [done|]. intros i Hi. unfold number. by rewrite Heq. Qed.

Lemma Num_mod v w n m : 0 <= w -> Num v w n -> n mod 2 ^ w = m mod 2 ^ w -> Num v w m.
Proof.
  intros Hw H E. eapply Num_testbit; [done|]. intros i Hi.
  rewrite <- (Z.mod_pow2_bits_low n w), <- (Z.mod_pow2_bits_low m w) by lia. by rewrite E.
Qed.

Lemma Num_uvalue v w n : Num v w n -> uvalue v = n mod 2 ^ w.
Proof.
  intros [R1 R2 R3 R4 R5]. pose proof (wf_width _ R1). apply Z.bits_inj'. intros i Hi.
  rewrite testbit_uvalue, testbit_mod_pow2 by lia. rewrite R2.
  destruct (Z.ltb_spec i w); [|done]. unfold one_at, at4, number in *. rewrite R5 by lia.
  by destruct (Z.testbit n i).
Qed.

Lemma Num_known v w n : Num v w n -> all_known v.
Proof.
  intros [R1 R2 R3 R4 R5] i Hi. unfold known_at, at4, number in *. rewrite R5 by lia.
  by destruct (Z.testbit n i).
Qed.

Lemma Num_zero v w : Rep v w false (fun _ => to_logic9 Logic4_zero) -> Num v w 0.
Proof. intros H. eapply Rep_ext; [exact H|]. intros i Hi. unfold number. by rewrite Z.bits_0. Qed.

Lemma one_at_uvalue v i : 0 <= width v -> 0 <= i < width v -> one_at v i = Z.testbit (uvalue v) i.
Proof. intros Hw Hi. rewrite testbit_uvalue by lia. by rewrite (proj2 (Z.ltb_lt i _)) by lia. Qed.

(** ** Carries *)

(** The carries of an addition, position by position. *)
Lemma carry_bits a b c0 :
  exists carry : Z -> bool, carry 0 = c0 /\ forall i, 0 <= i ->
    Z.testbit (a + b + Z.b2z c0) i = xorb (xorb (Z.testbit a i) (Z.testbit b i)) (carry i) /\
    carry (i + 1) = (Z.testbit a i && Z.testbit b i)
                    || (carry i && (Z.testbit a i || Z.testbit b i)).
Proof.
  destruct (Z.add_carry_bits a b c0) as (c & H1 & H2 & H3). exists (Z.testbit c).
  split; [done|]. intros i Hi. rewrite H1. split; [by rewrite !Z.lxor_spec|].
  rewrite Z.add_1_r, <- (Z.div2_bits c i) by lia. rewrite H2.
  by rewrite Z.lor_spec, !Z.land_spec, Z.lor_spec.
Qed.

(** No carry leaves a stretch of zeros. *)
Lemma carry_low a b k (carry : Z -> bool) :
  carry 0 = false ->
  (forall i, 0 <= i -> carry (i + 1) = (Z.testbit a i && Z.testbit b i)
                        || (carry i && (Z.testbit a i || Z.testbit b i))) ->
  (forall i, 0 <= i < k -> Z.testbit b i = false) -> 0 <= k -> carry k = false.
Proof.
  intros H0 Hs Hb Hk. revert Hb. pattern k. apply natlike_ind; [done| |done].
  intros j Hj IH Hb. rewrite <- Z.add_1_r, Hs, IH, Hb by (intros; try apply Hb; lia).
  by rewrite andb_false_r.
Qed.

(** The vector holding the bits of [n] below [i] and those of [m] from [i]. *)
Definition mixed (n m i j : Z) : Logic9 := if j <? i then number n j else number m j.

Lemma set_mixed r w n m i b :
  Rep r w false (mixed n m i) -> 0 <= i < w -> Z.testbit n i = b ->
  returns (set r i (logic4_of_bool b)) (fun r' => Rep r' w false (mixed n m (i + 1))).
Proof.
  intros [R1 R2 R3 R4 R5] Hi Hb. eapply returns_mono; [apply set_spec; [done|lia]|].
  intros r' (S1 & S2 & S3 & S4 & S5). split; try congruence. intros j Hj. rewrite S5 by lia.
  unfold mixed in *. destruct (Z.eqb_spec j i) as [->|].
  - rewrite (proj2 (Z.ltb_lt i (i + 1))) by lia. unfold number. by rewrite Hb.
  - rewrite R5 by done. by replace (j <? i + 1) with (j <? i) by (cases_ltb; lia).
Qed.

Lemma mixed_start v w n m : Num v w m -> Rep v w false (mixed n m 0).
Proof.
  intros H. eapply Rep_ext; [exact H|]. intros i Hi. unfold mixed.
  by rewrite (proj2 (Z.ltb_ge i 0)) by lia.
Qed.

Lemma mixed_end v w n m : Rep v w false (mixed n m w) -> Num v w n.
Proof.
  intros H. eapply Rep_ext; [exact H|]. intros i Hi. unfold mixed.
  by rewrite (proj2 (Z.ltb_lt i w)) by lia.
Qed.

Lemma get_one v i : 0 <= i < width v ->
  exists x, get v i = Ok x /\ logic4_eqb x Logic4_one = one_at v i.
Proof. intros Hi. rewrite get_ok by done. eauto. Qed.

(** ** Addition and subtraction *)

Section adders.
Context (lhs rhs : PackedLogic4) (w : Z).
Context (Hl : wf lhs) (Hr : wf rhs) (Wl : width lhs = w) (Wr : width rhs = w).

Lemma add_known_spec :
  returns (add_known lhs rhs) (fun r => Num r w (uvalue lhs + uvalue rhs)).
Proof.
  pose proof (wf_width _ Hl) as Hw. unfold add_known. rewrite Wl. apply returns_bind.
  eapply returns_mono; [apply make_spec; lia|]. intros r0 H0%Num_zero. apply returns_bind.
  destruct (carry_bits (uvalue lhs) (uvalue rhs) false) as (carry & C0 & HC).
  set (total := uvalue lhs + uvalue rhs).
  eapply returns_mono; [apply (foreach_up (fun i (rc : PackedLogic4 * bool) =>
    Rep rc.1 w false (mixed total 0 i) /\ rc.2 = carry i))|].
  - intros i [r c] Hi [R C]. simpl in R, C. subst c. rewrite !get_ok by lia. simpl.
    fold (one_at lhs i) (one_at rhs i). rewrite !one_at_uvalue by lia.
    destruct (HC i ltac:(lia)) as [B1 B2]. rewrite Z.add_0_r in B1.
    apply returns_bind. eapply returns_mono; [apply (set_mixed r w total 0 i); [done|lia|done]|].
    intros r' R'. simpl. by rewrite B2.
  - lia.
  - split; [by apply mixed_start|done].
  - intros [r c] [R _]. simpl. by eapply mixed_end.
Qed.

Lemma subtract_known_spec :
  returns (subtract_known lhs rhs) (fun r => Num r w (uvalue lhs - uvalue rhs)).
Proof.
  pose proof (wf_width _ Hl) as Hw. unfold subtract_known. rewrite Wl. apply returns_bind.
  eapply returns_mono; [apply make_spec; lia|]. intros r0 H0%Num_zero. apply returns_bind.
  destruct (carry_bits (uvalue lhs) (Z.lnot (uvalue rhs)) true) as (carry & C0 & HC).
  set (total := uvalue lhs - uvalue rhs).
  assert (uvalue lhs + Z.lnot (uvalue rhs) + Z.b2z true = total) as Et
    by (unfold total, Z.lnot; simpl; lia).
  eapply returns_mono; [apply (foreach_up (fun i (rb : PackedLogic4 * bool) =>
    Rep rb.1 w false (mixed total 0 i) /\ rb.2 = negb (carry i)))|].
  - intros i [r b] Hi [R C]. simpl in R, C. subst b. rewrite !get_ok by lia. simpl.
    fold (one_at lhs i) (one_at rhs i). rewrite !one_at_uvalue by lia.
    destruct (HC i ltac:(lia)) as [B1 B2]. rewrite Et in B1. rewrite !Z.lnot_spec in B1, B2 by lia.
    apply returns_bind. eapply returns_mono; [apply (set_mixed r w total 0 i); [done|lia|]|].
    { rewrite B1. by destruct (Z.testbit (uvalue lhs) i), (Z.testbit (uvalue rhs) i), (carry i). }
    intros r' R'. simpl. split; [done|]. rewrite B2.
    by destruct (Z.testbit (uvalue lhs) i), (Z.testbit (uvalue rhs) i), (carry i).
  - lia.
  - split; [by apply mixed_start|]. simpl. by rewrite C0.
  - intros [r c] [R _]. simpl. by eapply mixed_end.
Qed.
End adders.

Lemma negate_known_spec v : wf v ->
  returns (negate_known v) (fun r => Num r (width v) (- uvalue v)).
Proof.
  intros Hv. pose proof (wf_width _ Hv). unfold negate_known. apply returns_bind.
  eapply returns_mono; [apply make_spec; lia|]. intros z Hz%Num_zero.
  eapply returns_mono; [apply (subtract_known_spec z v (width v)); try done; apply Hz|].
  intros r HR. rewrite (Num_uvalue _ _ _ Hz), Z.mod_0_l in HR by (apply Z.pow_nonzero; lia). done.
Qed.

(** ** Multiplication *)

(** One row of the long multiplication adds the shifted multiplicand. *)
Lemma multiply_row lhs result k A :
  wf lhs -> 0 <= k < width lhs -> Num result (width lhs) A ->
  returns (foreach (up k (width result)) (fun bit (rc : PackedLogic4 * bool) =>
    let '(result, carry) := rc in
    a ← get result bit;
    m ← get lhs (bit - k);
    let accumulated := logic4_eqb a Logic4_one in
    let multiplicand := logic4_eqb m Logic4_one in
    result ← set result bit (logic4_of_bool (xorb (xorb accumulated multiplicand) carry));
    Ok (result, (accumulated && multiplicand) || (carry && (accumulated || multiplicand))))
    (result, false))
    (fun rc => Num rc.1 (width lhs) (A + uvalue lhs * 2 ^ k)).
Proof.
  intros Hl Hk Hres. pose proof (wf_width _ Hl) as Hw. set (w := width lhs) in *.
  pose proof (rep_width _ _ _ _ Hres) as Ew. rewrite Ew.
  set (S := uvalue lhs * 2 ^ k). set (total := A + S).
  destruct (carry_bits A S false) as (carry & C0 & HC).
  assert (forall i, 0 <= i -> Z.testbit S i = (k <=? i) && Z.testbit (uvalue lhs) (i - k)) as HS.
  { intros i Hi. unfold S. rewrite <- Z.shiftl_mul_pow2, Z.shiftl_spec by lia.
    destruct (Z.leb_spec k i); [done|]. by rewrite Z.testbit_neg_r by lia. }
  assert (carry k = false) as Ck.
  { apply (carry_low A S k); [done|by intros i Hi; apply HC| |lia].
    intros i Hi. rewrite HS by lia. by rewrite (proj2 (Z.leb_gt k i)) by lia. }
  assert (forall i, 0 <= i < k -> Z.testbit total i = Z.testbit A i) as Hlow.
  { intros i Hi. unfold total, S. rewrite <- (Z.mod_pow2_bits_low _ k), <- (Z.mod_pow2_bits_low A k) by lia.
    by rewrite Z.mod_add by (apply Z.pow_nonzero; lia). }
  eapply returns_mono; [apply (foreach_up (fun i (rc : PackedLogic4 * bool) =>
    Rep rc.1 w false (mixed total A i) /\ rc.2 = carry i))|].
  - intros i [r c] Hi [R C]. simpl in R, C. subst c. pose proof (rep_width _ _ _ _ R).
    rewrite !get_ok by lia. simpl.
    assert (logic4_eqb (at4 r i) Logic4_one = Z.testbit A i) as ->.
    { unfold at4. rewrite (rep_at _ _ _ _ R) by lia. unfold mixed, number.
      rewrite Z.ltb_irrefl. by destruct (Z.testbit A i). }
    fold (one_at lhs (i - k)). rewrite one_at_uvalue by lia.
    destruct (HC i ltac:(lia)) as [B1 B2]. rewrite Z.add_0_r in B1. fold total in B1.
    rewrite HS, (proj2 (Z.leb_le k i)) in B1, B2 by lia. simpl in B1, B2.
    apply returns_bind. eapply returns_mono; [apply (set_mixed r w total A i); [done|lia|done]|].
    intros r' R'. simpl. by rewrite B2.
  - lia.
  - split; [|done]. eapply Rep_ext; [exact Hres|]. intros j Hj. unfold mixed, number.
    destruct (Z.ltb_spec j k); [|done]. by rewrite Hlow by lia.
  - intros [r c] [R _]. simpl. by eapply mixed_end.
Qed.

Lemma mod_pow2_succ x k : 0 <= k -> x mod 2 ^ (k + 1) = x mod 2 ^ k + Z.b2z (Z.testbit x k) * 2 ^ k.
Proof.
  intros Hk. apply Z.bits_inj'. intros i Hi.
  rewrite testbit_add_pow2 by (try apply Z.mod_pos_bound; try apply Z.pow_pos_nonneg; lia).
  rewrite !testbit_mod_pow2 by lia. destruct (Z.eqb_spec i k) as [->|].
  - by rewrite (proj2 (Z.ltb_lt k (k + 1))) by lia.
  - f_equal. cases_ltb; lia.
Qed.

Lemma multiply_known_spec lhs rhs :
  wf lhs -> wf rhs -> width rhs = width lhs ->
  returns (multiply_known lhs rhs) (fun r => Num r (width lhs) (uvalue lhs * uvalue rhs)).
Proof.
  intros Hl Hr Wr. pose proof (wf_width _ Hl) as Hw. unfold multiply_known. apply returns_bind.
  eapply returns_mono; [apply make_spec; lia|]. intros r0 H0%Num_zero. rewrite Wr.
  eapply returns_mono; [apply (foreach_up (fun k r =>
    Num r (width lhs) (uvalue lhs * (uvalue rhs mod 2 ^ k))))|].
  - intros k r Hk R. rewrite mod_pow2_succ by lia. rewrite get_ok by lia. simpl.
    fold (one_at rhs k). rewrite one_at_uvalue by lia.
    destruct (Z.testbit (uvalue rhs) k); simpl.
    + apply returns_bind. eapply returns_mono; [by apply multiply_row|]. intros [r' c] R'. simpl.
      eapply Num_testbit; [exact R'|]. intros i Hi. f_equal. simpl. lia.
    + by rewrite Z.add_0_r.
  - lia.
  - by rewrite Z.mod_1_r, Z.mul_0_r.
  - intros r R. pose proof (uvalue_bound rhs ltac:(lia)). rewrite Wr in *.
    by rewrite Z.mod_small in R.
Qed.

(** ** Predicates *)

Lemma get_scan {R} v (p : Logic4 -> bool) lo (q : R) :
  0 <= lo ->
  foreach_flow (up lo (width v)) (fun index _ =>
    bit ← get v index; Ok (if p bit then inr q else inl tt)) tt
  = Ok (if existsb (fun i => p (at4 v i)) (up lo (width v)) then inr q else inl tt).
Proof.
  intros Hlo. apply scan_exists. intros i s Hi%elem_of_up. by rewrite get_ok by lia.
Qed.

Lemma has_unknown_spec v : has_unknown v = Ok (existsb (fun i => is_unknown (at4 v i)) (up 0 (width v))).
Proof.
  unfold has_unknown. rewrite (get_scan v is_unknown 0 true) by lia. unfold after_loop. simpl.
  by destruct (existsb _ _).
Qed.

Lemma known_at_unknown v i : known_at v i = negb (is_unknown (at4 v i)).
Proof. unfold known_at, is_unknown. by destruct (at4 v i). Qed.

Lemma has_unknown_false v : has_unknown v = Ok false <-> all_known v.
Proof.
  rewrite has_unknown_spec. split.
  - intros [= H] i Hi. rewrite existsb_up_false in H. rewrite known_at_unknown, H by done. done.
  - intros H. f_equal. apply existsb_up_false. intros i Hi. specialize (H i Hi).
    rewrite known_at_unknown in H. by apply negb_true_iff.
Qed.

(** Deciding a number from its bits. *)
Lemma uvalue_bits v n : 0 <= width v -> uvalue v = n ->
  forall i, 0 <= i < width v -> one_at v i = Z.testbit n i.
Proof. intros Hw <- i Hi. by rewrite one_at_uvalue by lia. Qed.

Lemma uvalue_eq_bits v n : 0 <= width v -> 0 <= n < 2 ^ width v ->
  uvalue v = n <-> forall i, 0 <= i < width v -> one_at v i = Z.testbit n i.
Proof.
  intros Hw Hn. split.
  - intros <- i Hi. by rewrite one_at_uvalue by lia.
  - intros H. apply Z.bits_inj'. intros i Hi. rewrite testbit_uvalue by lia.
    destruct (Z.ltb_spec i (width v)); simpl; [by apply H|]. by rewrite (testbit_high n (width v)).
Qed.

Lemma is_zero_spec v : wf v -> is_zero v = Ok (uvalue v =? 0).
Proof.
  intros Hv. pose proof (wf_width _ Hv). unfold is_zero.
  rewrite (get_scan v (fun b => logic4_eqb b Logic4_one) 0 false) by lia. unfold after_loop. simpl.
  change (fun i => logic4_eqb (at4 v i) Logic4_one) with (one_at v).
  assert (0 < 2 ^ width v) by (apply Z.pow_pos_nonneg; lia).
  destruct (existsb _ _) eqn:E; f_equal; symmetry.
  - apply Z.eqb_neq. intros Hz. pose proof (uvalue_bits v _ ltac:(lia) Hz) as Hz'.
    apply existsb_up in E as (i & Hi & Ho). rewrite Hz', Z.bits_0 in Ho by done. done.
  - apply Z.eqb_eq. apply uvalue_eq_bits; [lia..|]. intros i Hi. rewrite Z.bits_0.
    rewrite existsb_up_false in E. by apply E.
Qed.

Lemma is_one_spec v : wf v -> all_known v -> 0 < width v -> is_one v = Ok (uvalue v =? 1).
Proof.
  intros Hv Hk Hw. pose proof (wf_width _ Hv). unfold is_one. rewrite get_ok by lia. simpl.
  fold (one_at v 0). assert (2 ^ 1 <= 2 ^ width v) as Hp by (apply Z.pow_le_mono_r; lia).
  change (2 ^ 1) with 2 in Hp.
  assert (forall i, 0 <= i -> Z.testbit 1 i = (i =? 0)) as H1
    by (intros i Hi; change 1 with (2 ^ 0); rewrite (testbit_pow2 0 i) by lia; done).
  destruct (one_at v 0) eqn:E0; simpl.
  - rewrite (get_scan v (fun b => negb (logic4_eqb b Logic4_zero)) 1 false) by lia.
    unfold after_loop. simpl. destruct (existsb _ _) eqn:E; f_equal; symmetry.
    + apply Z.eqb_neq. intros Hb. pose proof (uvalue_bits v _ ltac:(lia) Hb) as Hb'.
      apply existsb_up in E as (i & Hi & Ho). specialize (Hb' i ltac:(lia)).
      rewrite H1, (proj2 (Z.eqb_neq i 0)) in Hb' by lia. specialize (Hk i ltac:(lia)).
      unfold one_at, known_at in *. by destruct (at4 v i).
    + apply Z.eqb_eq. apply uvalue_eq_bits; [lia..|]. intros i Hi. rewrite H1 by lia.
      destruct (Z.eqb_spec i 0) as [->|]; [done|]. rewrite existsb_up_false in E.
      specialize (E i ltac:(lia)). unfold one_at. by destruct (at4 v i).
  - f_equal. symmetry. apply Z.eqb_neq. intros Hb. pose proof (uvalue_bits v _ ltac:(lia) Hb) as Hb'.
    specialize (Hb' 0 ltac:(lia)). by rewrite E0 in Hb'.
Qed.

Lemma is_all_ones_spec v : wf v -> is_all_ones v = Ok (uvalue v =? 2 ^ width v - 1).
Proof.
  intros Hv. pose proof (wf_width _ Hv). unfold is_all_ones.
  rewrite (get_scan v (fun b => negb (logic4_eqb b Logic4_one)) 0 false) by lia.
  unfold after_loop. simpl. assert (0 < 2 ^ width v) by (apply Z.pow_pos_nonneg; lia).
  destruct (existsb _ _) eqn:E; f_equal; symmetry.
  - apply Z.eqb_neq. intros Hb. pose proof (uvalue_bits v _ ltac:(lia) Hb) as Hb'.
    apply existsb_up in E as (i & Hi & Ho). specialize (Hb' i Hi).
    rewrite testbit_pow2m1, (proj2 (Z.ltb_lt _ _)) in Hb' by lia. unfold one_at in Hb'.
    by rewrite Hb' in Ho.
  - apply Z.eqb_eq. apply uvalue_eq_bits; [lia..|]. intros i Hi.
    rewrite testbit_pow2m1, (proj2 (Z.ltb_lt _ _)) by lia. rewrite existsb_up_false in E.
    specialize (E i Hi). unfold one_at. by apply negb_false_iff.
Qed.

(** ** Comparison *)

(** The highest differing bit decides. *)
Lemma highest_bit_decides x y i :
  0 <= i -> (forall j, i < j -> Z.testbit x j = Z.testbit y j) ->
  Z.testbit x i = true -> Z.testbit y i = false -> y < x.
Proof.
  intros Hi Hj Hx Hy.
  assert (x / 2 ^ (i + 1) = y / 2 ^ (i + 1)) as Hq.
  { apply Z.bits_inj'. intros k Hk. rewrite !Z.div_pow2_bits by lia. apply Hj. lia. }
  pose proof (Z.div_mod x (2 ^ (i + 1)) ltac:(apply Z.pow_nonzero; lia)) as Ex.
  pose proof (Z.div_mod y (2 ^ (i + 1)) ltac:(apply Z.pow_nonzero; lia)) as Ey.
  rewrite mod_pow2_succ, Hx in Ex by lia. rewrite mod_pow2_succ, Hy in Ey by lia.
  pose proof (Z.mod_pos_bound x (2 ^ i) ltac:(apply Z.pow_pos_nonneg; lia)).
  pose proof (Z.mod_pos_bound y (2 ^ i) ltac:(apply Z.pow_pos_nonneg; lia)).
  rewrite Hq in Ex. simpl in Ex, Ey. lia.
Qed.

Lemma known_element v i : known_at v i = true -> at4 v i = logic4_of_bool (one_at v i).
Proof. unfold known_at, one_at. by destruct (at4 v i). Qed.

Lemma compare_known_unsigned_spec lhs rhs :
  wf lhs -> wf rhs -> width rhs = width lhs -> all_known lhs -> all_known rhs ->
  compare_known_unsigned lhs rhs = Ok (Z.sgn (uvalue lhs - uvalue rhs)).
Proof.
  intros Hl Hr Wr Kl Kr. pose proof (wf_width _ Hl). unfold compare_known_unsigned. apply returns_eq.
  unfold after_loop. apply returns_bind.
  eapply returns_mono; [apply (foreach_flow_down
    (fun i (_ : unit) => forall j, i <= j -> Z.testbit (uvalue lhs) j = Z.testbit (uvalue rhs) j)
    (fun c => Z.sgn (uvalue lhs - uvalue rhs) = c))|].
  - intros i [] Hi Heq. rewrite !get_ok by lia. simpl.
    rewrite !known_element by (apply Kl || apply Kr; lia). rewrite !one_at_uvalue by lia.
    destruct (Z.testbit (uvalue lhs) i) eqn:El, (Z.testbit (uvalue rhs) i) eqn:Er; simpl.
    + intros j Hj. destruct (Z.eq_dec i j) as [<-|]; [congruence|apply Heq; lia].
    + pose proof (highest_bit_decides (uvalue lhs) (uvalue rhs) i ltac:(lia)
        ltac:(intros; apply Heq; lia) El Er). lia.
    + pose proof (highest_bit_decides (uvalue rhs) (uvalue lhs) i ltac:(lia)
        ltac:(intros; symmetry; apply Heq; lia) Er El). lia.
    + intros j Hj. destruct (Z.eq_dec i j) as [<-|]; [congruence|apply Heq; lia].
  - lia.
  - intros j Hj. rewrite !testbit_uvalue by lia. rewrite Wr.
    by rewrite (proj2 (Z.ltb_ge j _)) by lia.
  - intros [[]|c] Hc; simpl; [|done]. assert (uvalue lhs = uvalue rhs) as ->.
    { apply Z.bits_inj'. intros j Hj. by apply Hc. }
    by rewrite Z.sub_diag.
Qed.

(** ** Powers *)

Lemma packed_one_spec w : 0 < w <= SIZE_MAX / 4 -> returns (packed_one w) (fun r => Num r w 1).
Proof.
  intros Hw. unfold packed_one. apply returns_bind. eapply returns_mono; [apply make_spec; lia|].
  intros r [R1 R2 R3 R4 R5]. eapply returns_mono; [apply set_spec; [done|lia]|].
  intros r' (S1 & S2 & S3 & S4 & S5). split; try congruence. intros i Hi. rewrite S5 by lia.
  unfold number. change 1 with (2 ^ 0). rewrite testbit_pow2 by lia.
  destruct (i =? 0); [done|]. by apply R5.
Qed.

(** The products of [multiply_known] only depend on the factors modulo [2^w]. *)
Lemma multiply_mod a b x y w : 0 <= w -> wf a -> wf b -> width a = w -> width b = w ->
  uvalue a = x mod 2 ^ w -> uvalue b = y mod 2 ^ w ->
  returns (multiply_known a b) (fun r => Num r w (x * y)).
Proof.
  intros Hw Ha Hb Wa Wb Ea Eb. eapply returns_mono; [apply multiply_known_spec; done || lia|].
  intros r HR. rewrite Wa in HR. eapply Num_mod; [done|exact HR|]. rewrite Ea, Eb.
  by rewrite <- Z.mul_mod by (apply Z.pow_nonzero; lia).
Qed.

Lemma power_known_unsigned base exponent :
  wf base -> wf exponent -> 0 < width base ->
  returns (power_known base exponent false) (fun r => Num r (width base) (uvalue base ^ uvalue exponent)).
Proof.
  intros Hb He Hw. pose proof (wf_width _ Hb) as Hwb. pose proof (wf_width _ He) as Hwe.
  unfold power_known. simpl. apply returns_bind.
  eapply returns_mono; [apply packed_one_spec; lia|]. intros r0 H0. apply returns_bind.
  set (w := width base) in *. set (B := uvalue base). set (E := uvalue exponent).
  eapply returns_mono; [apply (foreach_up (fun k (rf : PackedLogic4 * PackedLogic4) =>
    Num rf.1 w (B ^ (E mod 2 ^ k)) /\
    (k < width exponent -> wf rf.2 /\ width rf.2 = w /\ uvalue rf.2 = B ^ (2 ^ k) mod 2 ^ w)))|].
  - intros k [r f] Hk [R F]. simpl in R, F. destruct (F ltac:(lia)) as (F1 & F2 & F3).
    assert (0 <= 2 ^ k) by (apply Z.pow_nonneg; lia).
    pose proof (Z.mod_pos_bound E (2 ^ k) ltac:(apply Z.pow_pos_nonneg; lia)).
    rewrite get_ok by lia. simpl. fold (one_at exponent k). rewrite one_at_uvalue by lia. fold E.
    apply returns_bind. eapply (returns_mono _ (fun r' => Num r' w (B ^ (E mod 2 ^ (k + 1))))).
    { rewrite mod_pow2_succ by lia. destruct (Z.testbit E k); simpl.
      - rewrite Z.mul_1_l, Z.pow_add_r by lia.
        apply (multiply_mod r f); try done; [lia|apply R|apply R|by apply Num_uvalue].
      - by rewrite Z.add_0_r. }
    intros r' R'. apply returns_bind.
    destruct (Z.ltb_spec (k + 1) (width exponent)); simpl; [|split; [done|lia]].
    eapply returns_mono; [apply (multiply_mod f f (B ^ 2 ^ k) (B ^ 2 ^ k) w); done || lia|].
    intros f' F'. simpl. split; [done|]. intros _. split_and!; [apply F'|apply F'|].
    rewrite (Num_uvalue _ _ _ F'), Z.pow_add_r, <- Z.pow_add_r by lia. do 2 f_equal. lia.
  - lia.
  - simpl. rewrite Z.mod_1_r. split; [done|]. intros _.
    pose proof (uvalue_bound base ltac:(lia)). rewrite Z.pow_1_r, Z.mod_small by done.
    pose proof (Rep_copy base Hb) as [? ? ? ? ?]. by split_and!.
  - intros [r f] [R _]. simpl in R |- *. pose proof (uvalue_bound exponent ltac:(lia)).
    by rewrite Z.mod_small in R.
Qed.

(** A negative exponent: only the bases 0, 1 and -1 have a defined result. *)
Definition negative_power (w base : Z) (odd : bool) : Z :=
  if base =? 1 then 1
  else if base =? 2 ^ w - 1 then (if odd then 2 ^ w - 1 else 1)
  else 0.

Lemma Num_self v : wf v -> is_logic9 v = false -> all_known v -> Num (copy v) (width v) (uvalue v).
Proof.
  intros Hv Hn Hk. pose proof (Rep_copy v Hv) as HC. rewrite Hn in HC. pose proof (wf_width _ Hv).
  eapply Rep_ext; [exact HC|]. intros i Hi. unfold number. rewrite <- one_at_uvalue by lia.
  by rewrite <- known_element, at9_four by (done || by apply Hk).
Qed.

Lemma power_known_negative base exponent :
  wf base -> wf exponent -> is_logic9 base = false -> 0 < width base -> 0 < width exponent ->
  all_known base -> one_at exponent (width exponent - 1) = true ->
  returns (power_known base exponent true) (fun r =>
    if uvalue base =? 0 then Rep r (width base) false (fun _ => to_logic9 Logic4_x)
    else Num r (width base) (negative_power (width base) (uvalue base) (one_at exponent 0))).
Proof.
  intros Hb He Hn Hw Hx Hk Hneg. pose proof (wf_width _ Hb) as Hwb. pose proof (wf_width _ He) as Hwe.
  unfold power_known, negative_power. rewrite (get_ok exponent (width exponent - 1)) by lia.
  cbn [mbind outcome_bind]. fold (one_at exponent (width exponent - 1)). rewrite Hneg. simpl.
  rewrite is_zero_spec by done. simpl. destruct (Z.eqb_spec (uvalue base) 0).
  { apply make_spec. lia. }
  rewrite is_one_spec by done. simpl. destruct (Z.eqb_spec (uvalue base) 1).
  { apply packed_one_spec. lia. }
  rewrite is_all_ones_spec by done. simpl. destruct (Z.eqb_spec (uvalue base) (2 ^ width base - 1)) as [E|].
  - rewrite get_ok by lia. simpl. fold (one_at exponent 0). destruct (one_at exponent 0).
    + rewrite <- E. by apply Num_self.
    + apply packed_one_spec. lia.
  - eapply returns_mono; [apply make_spec; lia|]. intros r HR%Num_zero. done.
Qed.

Lemma power_known_signed_nonnegative base exponent :
  wf exponent -> 0 < width exponent -> one_at exponent (width exponent - 1) = false ->
  power_known base exponent true = power_known base exponent false.
Proof.
  intros He Hx Hneg. unfold power_known. rewrite (get_ok exponent (width exponent - 1)) by lia.
  cbn [mbind outcome_bind].
  fold (one_at exponent (width exponent - 1)). by rewrite Hneg.
Qed.

(** ** Division *)

Lemma shift_remainder_spec r w n : 0 < w -> Num r w n ->
  returns (shift_remainder r) (fun r' => Rep r' w false (fun j => if 1 <=? j then number n (j - 1) else number n j)).
Proof.
  intros Hw HR. unfold shift_remainder. rewrite (rep_width _ _ _ _ HR).
  eapply returns_mono; [apply (foreach_down (fun i r' =>
    Rep r' w false (fun j => if (1 <=? j) && (i <=? j) then number n (j - 1) else number n j)))|].
  - intros i r' Hi R. pose proof R as [R1 R2 R3 R4 R5]. destruct (Z.eqb_spec i 0) as [->|Hne].
    { simpl. eapply Rep_ext; [exact R|]. intros j Hj. simpl.
      by replace ((1 <=? j) && (0 <=? j)) with ((1 <=? j) && (0 + 1 <=? j)) by (cases_ltb; done || lia). }
    rewrite get_ok by lia. simpl.
    eapply returns_mono; [apply set_spec; [done|lia]|]. intros r2 (S1 & S2 & S3 & S4 & S5).
    split; try congruence. intros j Hj. rewrite S5 by lia. destruct (Z.eqb_spec j i) as [->|].
    + rewrite (proj2 (Z.leb_le 1 i)), (proj2 (Z.leb_le i i)) by lia. simpl.
      unfold at4. rewrite R5 by lia. rewrite (proj2 (Z.leb_gt (i + 1) (i - 1))), andb_false_r by lia.
      unfold number. by rewrite to_logic4_to_logic9.
    + rewrite R5 by done. f_equal. by replace (i + 1 <=? j) with (i <=? j) by (cases_ltb; lia).
  - lia.
  - eapply Rep_ext; [exact HR|]. intros j Hj. simpl.
    by rewrite (proj2 (Z.leb_gt w j)), andb_false_r by lia.
  - intros r' R'. eapply Rep_ext; [exact R'|]. intros j Hj. simpl.
    by rewrite (proj2 (Z.leb_le 0 j)), andb_true_r by lia.
Qed.

(** Shifting in the next dividend bit doubles and adds. *)
Lemma shift_in_spec r w n x b : 0 < w -> Num r w n -> x = logic4_of_bool b ->
  returns (remainder ← shift_remainder r; set remainder 0 x) (fun r' => Num r' w (2 * n + Z.b2z b)).
Proof.
  intros Hw HR ->. apply returns_bind. eapply returns_mono; [by apply (shift_remainder_spec r w n)|].
  intros r1 [R1 R2 R3 R4 R5]. eapply returns_mono; [apply set_spec; [done|lia]|].
  intros r2 (S1 & S2 & S3 & S4 & S5). split; try congruence. intros j Hj. rewrite S5 by lia.
  destruct (Z.eqb_spec j 0) as [->|].
  - unfold number. f_equal. f_equal. by rewrite Z.add_comm, Z.add_b2z_double_bit0.
  - rewrite R5, (proj2 (Z.leb_le 1 j)) by lia. unfold number. do 2 f_equal.
    rewrite Z.add_comm. replace j with (Z.succ (j - 1)) at 2 by lia.
    by rewrite <- (Z.testbit_succ_r n b) by lia; f_equal; lia.
Qed.

Lemma bind_assoc {A B C} (m : Outcome A) (f : A -> Outcome B) (g : B -> Outcome C) :
  (m ≫= fun a => f a ≫= g) = ((m ≫= f) ≫= g).
Proof. by destruct m. Qed.

(** One step of restoring division: the running remainder never exceeds the
    dividend read so far, so shifting it loses no bit. *)
Definition division_inv (w D V k : Z) (qr : PackedLogic4 * PackedLogic4) : Prop :=
  Num qr.1 w ((D / 2 ^ k / V) * 2 ^ k) /\ Num qr.2 w ((D / 2 ^ k) mod V).

Lemma division_arith P V b : 0 < V -> 0 <= P -> 0 <= b <= 1 ->
  let x := 2 * (P mod V) + b in
  (V <= x -> (2 * P + b) / V = 2 * (P / V) + 1 /\ (2 * P + b) mod V = x - V) /\
  (x < V -> (2 * P + b) / V = 2 * (P / V) /\ (2 * P + b) mod V = x).
Proof.
  intros HV HP Hb x. pose proof (Z.div_mod P V ltac:(lia)) as E.
  pose proof (Z.mod_pos_bound P V HV) as Hm. subst x. split; intros Hx; split.
  - symmetry. apply Z.div_unique with (2 * (P mod V) + b - V); lia.
  - symmetry. apply Z.mod_unique with (2 * (P / V) + 1); lia.
  - symmetry. apply Z.div_unique with (2 * (P mod V) + b); lia.
  - symmetry. apply Z.mod_unique with (2 * (P / V)); lia.
Qed.

Lemma div_pow2_bit D k : 0 <= k -> D / 2 ^ k = 2 * (D / 2 ^ (k + 1)) + Z.b2z (Z.testbit D k).
Proof.
  intros Hk. rewrite Z.pow_add_r, <- Z.div_div by (try apply Z.pow_nonzero; try apply Z.pow_pos_nonneg; lia).
  change (2 ^ 1) with 2. replace (Z.testbit D k) with (Z.testbit (D / 2 ^ k) 0)
    by (rewrite Z.div_pow2_bits by lia; f_equal; lia).
  rewrite Z.bit0_odd. pose proof (Z.div_mod (D / 2 ^ k) 2 ltac:(lia)) as E. rewrite Zmod_odd in E.
  destruct (Z.odd _); simpl Z.b2z; lia.
Qed.

Lemma set_quotient_bit q w n k : 0 <= k < w -> Num q w (n * 2 ^ (k + 1)) ->
  returns (set q k Logic4_one) (fun q' => Num q' w ((2 * n + 1) * 2 ^ k)).
Proof.
  intros Hk [R1 R2 R3 R4 R5]. eapply returns_mono; [apply set_spec; [done|lia]|].
  intros q' (S1 & S2 & S3 & S4 & S5). split; try congruence. intros j Hj. rewrite S5 by lia.
  unfold number in *. rewrite <- Z.shiftl_mul_pow2, Z.shiftl_spec by lia.
  destruct (Z.eqb_spec j k) as [->|].
  - by rewrite Z.sub_diag, Z.testbit_odd_0.
  - rewrite R5 by done. do 2 f_equal. rewrite <- Z.shiftl_mul_pow2, Z.shiftl_spec by lia.
    destruct (Z.ltb_spec j k); [by rewrite !Z.testbit_neg_r by lia|].
    replace (j - k) with (Z.succ (j - (k + 1))) by lia. by rewrite Z.testbit_odd_succ by lia.
Qed.

Lemma divide_known_spec dividend divisor :
  wf dividend -> wf divisor -> width divisor = width dividend -> 0 < width dividend ->
  all_known dividend -> all_known divisor -> 0 < uvalue divisor ->
  returns (divide_known dividend divisor) (fun d =>
    Num (quotient d) (width dividend) (uvalue dividend / uvalue divisor) /\
    Num (remainder d) (width dividend) (uvalue dividend mod uvalue divisor)).
Proof.
  intros HD HV Wd Hw Kd Kv Hpos. pose proof (wf_width _ HD) as Hwd. unfold divide_known.
  set (w := width dividend) in *. set (D := uvalue dividend). set (V := uvalue divisor) in *.
  pose proof (uvalue_bound dividend ltac:(lia)) as HDb. fold D w in HDb.
  pose proof (uvalue_bound divisor ltac:(lia)) as HVb. rewrite Wd in HVb. fold V in HVb.
  apply returns_bind. eapply returns_mono; [apply make_spec; lia|]. intros q0 Q0%Num_zero.
  apply returns_bind. eapply returns_mono; [apply make_spec; lia|]. intros r0 R0%Num_zero.
  apply returns_bind. eapply returns_mono; [apply (foreach_down (division_inv w D V))|].
  - intros k [q r] Hk [Q R]. simpl in Q, R. rewrite (get_ok dividend k) by (fold w; lia).
    cbn [mbind outcome_bind]. rewrite bind_assoc. apply returns_bind.
    eapply returns_mono; [apply (shift_in_spec r w ((D / 2 ^ (k + 1)) mod V) (at4 dividend k) (Z.testbit D k)); [lia|exact R|]|].
    { rewrite known_element by (apply Kd; fold w; lia). by rewrite one_at_uvalue by (fold w; lia). }
    intros r1 R1. set (P := D / 2 ^ (k + 1)) in *. set (b := Z.b2z (Z.testbit D k)) in *.
    pose proof (div_pow2_bit D k ltac:(lia)) as EP. fold P b in EP.
    assert (0 <= b <= 1) as Hb by (unfold b; destruct (Z.testbit D k); simpl; lia).
    assert (0 <= P) as HP by (apply Z.div_pos; [lia|apply Z.pow_pos_nonneg; lia]).
    assert (2 * P + b <= D) as HPD.
    { rewrite <- EP. apply Z.div_le_upper_bound; [apply Z.pow_pos_nonneg; lia|].
      assert (1 <= 2 ^ k) by (pose proof (Z.pow_pos_nonneg 2 k); lia). nia. }
    pose proof (Z.mod_le P V HP Hpos). pose proof (Z.mod_pos_bound P V Hpos).
    assert (uvalue r1 = 2 * (P mod V) + b) as Er1.
    { rewrite (Num_uvalue _ _ _ R1). apply Z.mod_small. lia. }
    rewrite (compare_known_unsigned_spec r1 divisor (rep_wf _ _ _ _ R1) HV
      (eq_trans Wd (eq_sym (rep_width _ _ _ _ R1))) (Num_known _ _ _ R1) Kv).
    cbn [mbind outcome_bind]. fold V. rewrite Er1, Z.geb_leb.
    destruct (division_arith P V b Hpos HP Hb) as [Hge Hlt].
    destruct (Z.leb_spec 0 (Z.sgn (2 * (P mod V) + b - V))) as [Hs|Hs].
    + destruct (Hge ltac:(lia)) as [Eq Em]. apply returns_bind.
      eapply returns_mono; [apply (subtract_known_spec r1 divisor w); done || apply R1|].
      intros r2 R2. apply returns_bind.
      eapply returns_mono; [apply (set_quotient_bit q w (P / V) k); done|]. intros q2 Q2. simpl.
      split; simpl; rewrite EP, ?Eq, ?Em; [done|]. by rewrite Er1 in R2.
    + destruct (Hlt ltac:(lia)) as [Eq Em]. simpl. split; simpl; rewrite EP, ?Eq, ?Em; [|done].
      eapply Num_testbit; [exact Q|]. intros i Hi. f_equal. rewrite Z.pow_add_r by lia. lia.
  - lia.
  - unfold division_inv. rewrite (Z.div_small D) by done. split; cbn [fst snd].
    + by rewrite Z.div_0_l by lia.
    + by rewrite Z.mod_0_l by lia.
  - intros [q r] [Q R]. simpl in *. by rewrite Z.pow_0_r, Z.div_1_r, Z.mul_1_r in Q; rewrite Z.div_1_r in R.
Qed.

(** ** Signed division *)

Lemma top_bit_sign v : wf v -> 0 < width v ->
  one_at v (width v - 1) = (svalue v <? 0) /\
  uvalue v = if svalue v <? 0 then svalue v + 2 ^ width v else svalue v.
Proof.
  intros Hv Hw. pose proof (uvalue_bound v ltac:(lia)). rewrite one_at_uvalue by lia.
  unfold svalue, signed_of. destruct (Z.testbit (uvalue v) (width v - 1)).
  - rewrite (proj2 (Z.ltb_lt _ 0)) by lia. split; [done|lia].
  - by rewrite (proj2 (Z.ltb_ge _ 0)) by lia.
Qed.

(** A vector of width [w] reading as [n]. *)
Definition Reads (v : PackedLogic4) (w n : Z) : Prop :=
  wf v /\ width v = w /\ all_known v /\ uvalue v = n.

Lemma Num_Reads v w n : Num v w n -> 0 <= n < 2 ^ w -> Reads v w n.
Proof.
  intros H Hn. split_and!; [apply H|apply H|by eapply Num_known|].
  rewrite (Num_uvalue _ _ _ H). by apply Z.mod_small.
Qed.

Lemma magnitude_spec v : wf v -> all_known v -> 0 < width v ->
  returns (if one_at v (width v - 1) then negate_known v else Ok (copy v))
    (fun m => Reads m (width v) (Z.abs (svalue v))).
Proof.
  intros Hv Hk Hw. destruct (top_bit_sign v Hv Hw) as [-> Hu]. pose proof (svalue_bounds v Hw) as Hb.
  assert (2 ^ width v = 2 * 2 ^ (width v - 1)) as Hp
    by (rewrite <- Z.pow_succ_r by lia; f_equal; lia).
  destruct (Z.ltb_spec (svalue v) 0).
  - eapply returns_mono; [by apply negate_known_spec|]. intros r HR. apply Num_Reads; [|lia].
    eapply Num_mod; [lia|exact HR|]. rewrite Hu, Z.abs_neq by lia.
    replace (- (svalue v + 2 ^ width v)) with (- svalue v + (-1) * 2 ^ width v) by lia.
    apply Z.mod_add. lia.
  - simpl. rewrite Z.abs_eq by lia. rewrite <- Hu.
    pose proof (Rep_copy v Hv) as [C1 C2 C3 C4 C5]. split_and!; done.
Qed.

(** The quotient and remainder of the magnitudes, with their signs restored. *)
Lemma signed_quotient l r : r <> 0 ->
  Z.quot l r = (if eqb (l <? 0) (r <? 0) then Z.abs l / Z.abs r else - (Z.abs l / Z.abs r)) /\
  Z.rem l r = (if l <? 0 then - (Z.abs l mod Z.abs r) else Z.abs l mod Z.abs r).
Proof.
  intros Hr. destruct (Z.ltb_spec l 0), (Z.ltb_spec r 0); simpl;
    rewrite ?(Z.abs_neq l), ?(Z.abs_neq r), ?(Z.abs_eq l), ?(Z.abs_eq r) by lia.
  - rewrite <- Z.quot_div_nonneg, <- Z.rem_mod_nonneg by lia.
    by rewrite Z.quot_opp_opp, Z.rem_opp_opp, Z.opp_involutive by lia.
  - rewrite <- Z.quot_div_nonneg, <- Z.rem_mod_nonneg by lia.
    by rewrite Z.quot_opp_l, Z.rem_opp_l, !Z.opp_involutive by lia.
  - rewrite <- Z.quot_div_nonneg, <- Z.rem_mod_nonneg by lia.
    by rewrite Z.quot_opp_r, Z.rem_opp_r, !Z.opp_involutive by lia.
  - by rewrite Z.quot_div_nonneg, Z.rem_mod_nonneg by lia.
Qed.

(** Negating when a flag says so. *)
Lemma negate_if_spec (b : bool) v w n : 0 < w -> Num v w n ->
  returns (if b then negate_known v else Ok v) (fun r => Num r w (if b then - n else n)).
Proof.
  intros Hw Hv. destruct b; [|done]. pose proof (rep_width _ _ _ _ Hv) as E.
  eapply returns_mono; [apply negate_known_spec, Hv|]. intros r HR. rewrite E in HR.
  eapply Num_mod; [lia|exact HR|]. rewrite (Num_uvalue _ _ _ Hv).
  rewrite <- Z.sub_0_l, <- (Z.sub_0_l n). rewrite Zminus_mod_idemp_r. done.
Qed.

Lemma divide_known_signed_spec dividend divisor :
  wf dividend -> wf divisor -> width divisor = width dividend -> 0 < width dividend ->
  all_known dividend -> all_known divisor -> uvalue divisor <> 0 ->
  returns (divide_known_signed dividend divisor) (fun d =>
    Num (quotient d) (width dividend) (Z.quot (svalue dividend) (svalue divisor)) /\
    Num (remainder d) (width dividend) (Z.rem (svalue dividend) (svalue divisor))).
Proof.
  intros HD HV Wd Hw Kd Kv Hne. unfold divide_known_signed.
  rewrite (get_ok dividend), (get_ok divisor) by lia. cbn [mbind outcome_bind].
  fold (one_at dividend (width dividend - 1)) (one_at divisor (width divisor - 1)).
  destruct (top_bit_sign dividend HD Hw) as [Sd Ud], (top_bit_sign divisor HV ltac:(lia)) as [Sv Uv].
  assert (svalue divisor <> 0) as Hsv.
  { intros E. rewrite E in Uv. simpl in Uv. lia. }
  apply returns_bind. eapply returns_mono; [by apply magnitude_spec|]. intros m1 (M1 & M2 & M3 & M4).
  apply returns_bind. eapply returns_mono; [apply magnitude_spec; done || lia|].
  intros m2 (N1 & N2 & N3 & N4). apply returns_bind.
  eapply returns_mono; [apply divide_known_spec; done || lia|]. rewrite M2, M4, N4, Sd, Sv.
  intros d [Q R]. destruct (signed_quotient (svalue dividend) (svalue divisor) Hsv) as [Eq Er].
  apply returns_bind. eapply returns_mono; [by apply (negate_if_spec _ _ _ _ Hw Q)|]. intros q Q'.
  apply returns_bind. eapply returns_mono; [by apply (negate_if_spec _ _ _ _ Hw R)|]. intros r R'.
  simpl. split; simpl; rewrite ?Eq, ?Er; [|done].
  by destruct (eqb (svalue dividend <? 0) (svalue divisor <? 0)).
Qed.
