(* ===== verification/BinaryEquivalence.v ===== *)
(** * The word operators agree with the packed operators

    The header of src/runtime/simir_kernel_word_ops.hpp promises that every
    word operation reproduces the element-by-element operator "bit for bit".
    This file gives each binary operator a meaning on the elements and numbers
    of its operands and shows that both the word code ([kw_binary]) and the
    element code ([reference_value]) implement it. *)
From S2P Require Import Prelude Logic WordSpan LogicWord PackedLogic4 PackedConvert PackedNumeric.
From S2P Require Import KernelWord SimirArithmetic RippleArithmetic.
Ltac Zify.zify_post_hook ::= Z.div_mod_to_equations.

(** * Meaning *)

(** An arithmetic operator on numbers of [w] bits; [None] is the all-X result
    of a division by zero or of zero to a negative power. *)
Definition arithmetic_meaning (operation : BinaryOperator) (w l r : Z) : option Z :=
  let sl := signed_of w l in
  let sr := signed_of w r in
  match operation with
  | add_unsigned | add_signed => Some (l + r)
  | subtract_unsigned | subtract_signed => Some (l - r)
  | multiply_unsigned | multiply_signed => Some (l * r)
  | power_unsigned => Some (l ^ r)
  | power_signed =>
      if Z.testbit r (w - 1) then
        if l =? 0 then None else Some (negative_power w l (Z.testbit r 0))
      else Some (l ^ r)
  | divide_unsigned => if r =? 0 then None else Some (l / r)
  | modulo_unsigned => if r =? 0 then None else Some (l mod r)
  | divide_signed => if r =? 0 then None else Some (Z.quot sl sr)
  | remainder_signed => if r =? 0 then None else Some (Z.rem sl sr)
  | modulo_signed => if r =? 0 then None else Some (sl mod sr)
  | _ => None
  end.

(** The four-state vector of [w] elements an arithmetic meaning stands for. *)
Definition meaning_element (m : option Z) (i : Z) : Logic9 :=
  match m with Some n => number n i | None => to_logic9 Logic4_x end.

(** * Element code *)

Lemma signed_of_uvalue v w : width v = w -> signed_of w (uvalue v) = svalue v.
Proof. intros <-. done. Qed.

Section arithmetic_reference.
Context (lhs rhs : PackedLogic4) (w : Z).
Context (Hl : wf lhs) (Hr : wf rhs) (Wl : width lhs = w) (Wr : width rhs = w).
Context (Kl : all_known lhs) (Kr : all_known rhs) (Hw : 0 < w).

Lemma divided_unsigned (pick : KnownDivision -> PackedLogic4) (n : Z) :
  (forall d, Num (quotient d) w (uvalue lhs / uvalue rhs) ->
             Num (remainder d) w (uvalue lhs mod uvalue rhs) -> Num (pick d) w n) ->
  returns (zero ← is_zero rhs;
           if zero : bool then make (width lhs) Logic4_x
           else (divided ← divide_known lhs rhs; Ok (pick divided)))
    (fun r => Rep r w false (meaning_element (if uvalue rhs =? 0 then None else Some n))).
Proof.
  intros Hpick. pose proof (wf_width _ Hl). rewrite is_zero_spec by done. simpl.
  destruct (Z.eqb_spec (uvalue rhs) 0).
  { rewrite Wl. apply make_spec. lia. }
  pose proof (uvalue_bound rhs ltac:(lia)). apply returns_bind.
  eapply returns_mono; [apply divide_known_spec; done || lia|]. rewrite Wl. intros d [Q R].
  by apply Hpick.
Qed.

Lemma modulo_signed_spec d :
  uvalue rhs <> 0 ->
  Num (remainder d) w (Z.rem (svalue lhs) (svalue rhs)) ->
  returns (none_left ← is_zero (remainder d);
           lhs_top ← get lhs (width lhs - 1);
           rhs_top ← get rhs (width rhs - 1);
           if negb none_left && negb (logic4_eqb lhs_top rhs_top)
           then add_known (remainder d) rhs else Ok (remainder d))
    (fun r => Num r w (svalue lhs mod svalue rhs)).
Proof.
  intros Hne R. rewrite is_zero_spec by apply R. cbn [mbind outcome_bind].
  rewrite (get_ok lhs), (get_ok rhs) by lia. cbn [mbind outcome_bind].
  rewrite !known_element by (apply Kl || apply Kr; lia).
  destruct (top_bit_sign lhs Hl ltac:(lia)) as [-> Ul], (top_bit_sign rhs Hr ltac:(lia)) as [-> Ur].
  rewrite Wl in Ul. rewrite Wr in Ur.
  assert (svalue rhs <> 0) as Hsr by (intros E; rewrite E in Ur; simpl in Ur; lia).
  pose proof (svalue_bounds lhs ltac:(lia)) as Bl. pose proof (svalue_bounds rhs ltac:(lia)) as Br.
  rewrite Wl in Bl. rewrite Wr in Br.
  pose proof (Z.rem_bound_abs (svalue lhs) (svalue rhs) Hsr) as Hb.
  assert (2 ^ w = 2 * 2 ^ (w - 1)) as Hp by (rewrite <- Z.pow_succ_r by lia; f_equal; lia).
  assert ((uvalue (remainder d) =? 0) = (Z.rem (svalue lhs) (svalue rhs) =? 0)) as ->.
  { rewrite (Num_uvalue _ _ _ R). apply eq_true_iff_eq. rewrite !Z.eqb_eq. split; intros E; [|by rewrite E].
    destruct (Z.ltb_spec (Z.rem (svalue lhs) (svalue rhs)) 0); [|by rewrite Z.mod_small in E by lia].
    assert ((Z.rem (svalue lhs) (svalue rhs) + 1 * 2 ^ w) mod 2 ^ w = 0) as E' by by rewrite Z.mod_add by lia.
    rewrite Z.mod_small in E' by lia. lia. }
  assert (logic4_eqb (logic4_of_bool (svalue lhs <? 0)) (logic4_of_bool (svalue rhs <? 0))
    = eqb (svalue lhs <? 0) (svalue rhs <? 0)) as -> by by destruct (svalue lhs <? 0), (svalue rhs <? 0).
  rewrite <- (modulo_of_remainder (svalue lhs) (svalue rhs) Hsr).
  set (m := Z.rem (svalue lhs) (svalue rhs)) in *.
  assert (m <> 0 -> (m <? 0) = (svalue lhs <? 0)) as Hsign.
  { intros Hm0. pose proof (Z.rem_sign_mul (svalue lhs) (svalue rhs) Hsr) as Hs. fold m in Hs.
    assert (svalue lhs <> 0) by (intros E; apply Hm0; unfold m; by rewrite E, Z.rem_0_l).
    destruct (Z.ltb_spec m 0), (Z.ltb_spec (svalue lhs) 0); done || nia. }
  destruct (Z.eqb_spec m 0) as [|Hm0]; [done|]. rewrite (Hsign Hm0). cbn [negb andb].
  destruct (eqb _ _); cbn [negb]; [done|].
  eapply returns_mono; [apply (add_known_spec (remainder d) rhs w); done || apply R|].
  intros r HR. eapply Num_mod; [lia|exact HR|]. rewrite (Num_uvalue _ _ _ R), Ur.
  rewrite Zplus_mod_idemp_l. destruct (svalue rhs <? 0); [|done].
  replace (m + (svalue rhs + 2 ^ w)) with (m + svalue rhs + 1 * 2 ^ w) by lia. apply Z.mod_add. lia.
Qed.

Lemma divided_signed (pick : KnownDivision -> Outcome PackedLogic4) (n : Z) :
  (forall d, uvalue rhs <> 0 -> Num (quotient d) w (Z.quot (svalue lhs) (svalue rhs)) ->
     Num (remainder d) w (Z.rem (svalue lhs) (svalue rhs)) -> returns (pick d) (fun r => Num r w n)) ->
  returns (zero ← is_zero rhs;
           if zero : bool then make (width lhs) Logic4_x
           else (divided ← divide_known_signed lhs rhs; pick divided))
    (fun r => Rep r w false (meaning_element (if uvalue rhs =? 0 then None else Some n))).
Proof.
  intros Hpick. pose proof (wf_width _ Hl). rewrite is_zero_spec by done. simpl.
  destruct (Z.eqb_spec (uvalue rhs) 0).
  { rewrite Wl. apply make_spec. lia. }
  apply returns_bind. eapply returns_mono; [apply divide_known_signed_spec; done || lia|].
  rewrite Wl. intros d [Q R]. by apply Hpick.
Qed.

(** Every arithmetic operator of the element code computes its meaning.  The
    base of a signed power is returned as it is in one case, so it must be a
    four-state value there. *)
Lemma arithmetic_reference_spec operation :
  is_arithmetic operation = true -> (operation = power_signed -> is_logic9 lhs = false) ->
  returns (arithmetic_reference operation lhs rhs)
    (fun r => Rep r w false (meaning_element
       (arithmetic_meaning operation w (uvalue lhs) (uvalue rhs)))).
Proof.
  intros Hop Hfour. pose proof (wf_width _ Hl).
  destruct operation; try done; unfold arithmetic_reference, arithmetic_meaning; cbn [meaning_element].
  - by apply add_known_spec.
  - by apply subtract_known_spec.
  - rewrite <- Wl. apply multiply_known_spec; done || lia.
  - rewrite <- Wl. apply power_known_unsigned; done || lia.
  - by apply (divided_unsigned quotient).
  - by apply (divided_unsigned remainder).
  - by apply add_known_spec.
  - by apply subtract_known_spec.
  - rewrite <- Wl. apply multiply_known_spec; done || lia.
  - rewrite <- (one_at_uvalue rhs (w - 1)) by lia.
    destruct (one_at rhs (w - 1)) eqn:Etop; rewrite <- Wr in Etop.
    + eapply returns_mono; [apply power_known_negative; auto; lia|]. rewrite Wl.
      intros r HR. destruct (Z.eqb_spec (uvalue lhs) 0); [done|]. by rewrite <- one_at_uvalue by lia.
    + rewrite power_known_signed_nonnegative by (done || lia). rewrite <- Wl.
      apply power_known_unsigned; done || lia.
  - rewrite !signed_of_uvalue by done. by apply (divided_signed (fun d => Ok (quotient d))).
  - rewrite !signed_of_uvalue by done. by apply (divided_signed (fun d => Ok (remainder d))).
  - rewrite !signed_of_uvalue by done. apply (divided_signed _ (svalue lhs mod svalue rhs)).
    intros d Hne Q R. by apply modulo_signed_spec.
Qed.
End arithmetic_reference.

(** * Word code: arithmetic *)

Section words.
Context (w : Z) (Hw : 0 < w <= 64).

Lemma testbit_kw_mask i : 0 <= i -> Z.testbit (kw_mask w) i = (i <? w).
Proof.
  intros Hi. unfold kw_mask. rewrite Z.geb_leb. destruct (Z.leb_spec 64 w).
  - replace w with 64 by lia. rewrite testbit_not64, Z.bits_0 by lia. apply andb_true_r.
  - apply testbit_pred_shl; lia.
Qed.

Lemma kw_mask_ones : kw_mask w = Z.ones w.
Proof.
  apply Z.bits_inj'. intros i Hi. rewrite testbit_kw_mask by lia.
  by rewrite Z.testbit_ones_nonneg by lia.
Qed.

Lemma kw_mask_pow : kw_mask w = 2 ^ w - 1.
Proof. rewrite kw_mask_ones, Z.ones_equiv. lia. Qed.

Lemma land_kw_mask x : Z.land x (kw_mask w) = x mod 2 ^ w.
Proof. rewrite kw_mask_ones. apply Z.land_ones. lia. Qed.

(** 64-bit wrap-around is invisible modulo [2^w]. *)
Lemma wrap64_mod x : wrap64 x mod 2 ^ w = x mod 2 ^ w.
Proof.
  unfold wrap64. apply Z.bits_inj'. intros i Hi. rewrite !testbit_mod_pow2 by lia.
  destruct (Z.ltb_spec i w); [|done]. by rewrite (proj2 (Z.ltb_lt i 64)) by lia.
Qed.

Lemma pow_w_bounds : 2 <= 2 ^ w /\ 2 ^ w = 2 * 2 ^ (w - 1).
Proof.
  assert (2 ^ w = 2 * 2 ^ (w - 1)) by (rewrite <- Z.pow_succ_r by lia; f_equal; lia).
  pose proof (Z.pow_pos_nonneg 2 (w - 1)). lia.
Qed.

Lemma shiftr_and_one x k : 0 <= k -> negb (Z.land (Z.shiftr x k) 1 =? 0) = Z.testbit x k.
Proof. apply code_bit_testbit. Qed.

(** The square-and-multiply loop on words. *)
Lemma kw_power_loop base exponent :
  0 <= base < 2 ^ w -> 0 <= exponent < 2 ^ w ->
  fst (foreach_pure (up 0 w) (fun bit_index (rf : Z * Z) =>
      let '(result, factor) := rf in
      let result :=
        if negb (Z.land (Z.shiftr exponent bit_index) 1 =? 0)
        then Z.land (mul64 result factor) (kw_mask w) else result in
      (result, Z.land (mul64 factor factor) (kw_mask w))) (Z.land 1 (kw_mask w), Z.land base (kw_mask w)))
  = base ^ exponent mod 2 ^ w.
Proof.
  intros Hb He. pose proof pow_w_bounds as [Hp _]. assert (2 ^ w <> 0) as Hne by lia.
  destruct (foreach_pure_up (fun k (rf : Z * Z) =>
      rf.1 = base ^ (exponent mod 2 ^ k) mod 2 ^ w /\ rf.2 = base ^ (2 ^ k) mod 2 ^ w) 0 w
    (fun bit_index (rf : Z * Z) =>
      let '(result, factor) := rf in
      let result :=
        if negb (Z.land (Z.shiftr exponent bit_index) 1 =? 0)
        then Z.land (mul64 result factor) (kw_mask w) else result in
      (result, Z.land (mul64 factor factor) (kw_mask w))))
    with (s := (Z.land 1 (kw_mask w), Z.land base (kw_mask w))) as [H1 _].
  - intros k [r f] Hk [R F]. simpl in R, F. subst r f. rewrite shiftr_and_one by lia.
    pose proof (Z.mod_pos_bound exponent (2 ^ k) ltac:(apply Z.pow_pos_nonneg; lia)).
    assert (0 <= 2 ^ k) by (apply Z.pow_nonneg; lia).
    rewrite !land_kw_mask. unfold mul64. rewrite !wrap64_mod, <- !Z.mul_mod by done.
    rewrite mod_pow2_succ by lia. cbn [fst snd]. split.
    + destruct (Z.testbit exponent k); simpl Z.b2z.
      * by rewrite Z.mul_1_l, Z.pow_add_r by lia.
      * by rewrite Z.mul_0_l, Z.add_0_r.
    + rewrite <- Z.pow_add_r by lia. do 2 f_equal. rewrite Z.pow_add_r by lia. lia.
  - lia.
  - cbn [fst snd]. rewrite !land_kw_mask, Z.mod_1_r, Z.pow_0_r, Z.pow_1_r. done.
  - rewrite H1. by rewrite (Z.mod_small exponent) by done.
Qed.

Lemma kw_power_unsigned base exponent :
  0 <= base < 2 ^ w -> 0 <= exponent < 2 ^ w ->
  kw_power_known base exponent w w false = base ^ exponent mod 2 ^ w.
Proof. apply kw_power_loop. Qed.

Lemma kw_power_signed base exponent :
  0 <= base < 2 ^ w -> 0 <= exponent < 2 ^ w -> base <> 0 ->
  kw_power_known base exponent w w true =
  (if Z.testbit exponent (w - 1) then negative_power w base (Z.testbit exponent 0)
   else base ^ exponent) mod 2 ^ w.
Proof.
  intros Hb He Hne. pose proof pow_w_bounds as [Hp _]. unfold kw_power_known.
  rewrite shiftr_and_one by lia. destruct (Z.testbit exponent (w - 1)); [|by apply kw_power_loop].
  rewrite (proj2 (Z.eqb_neq base 0)) by done. unfold negative_power. rewrite kw_mask_pow.
  destruct (Z.eqb_spec base 1); [by rewrite Z.mod_small by lia|].
  destruct (Z.eqb_spec base (2 ^ w - 1)) as [->|]; [|by rewrite Z.mod_small by lia].
  replace (negb (Z.land exponent 1 =? 0)) with (Z.testbit exponent 0)
    by (rewrite <- (shiftr_and_one exponent 0) by lia; by rewrite Z.shiftr_0_r).
  destruct (Z.testbit exponent 0); by rewrite Z.mod_small by lia.
Qed.

(** ** Signed division of words *)

Lemma sign_test x : 0 <= x < 2 ^ w ->
  negb (Z.land x (shl64 1 (w - 1)) =? 0) = (signed_of w x <? 0).
Proof.
  intros Hx. rewrite testbit_set by lia. unfold signed_of.
  destruct (Z.testbit x (w - 1)); cases_ltb; lia.
Qed.

Lemma word_magnitude x : 0 <= x < 2 ^ w ->
  (if signed_of w x <? 0 then Z.land (sub64 0 x) (kw_mask w) else x) = Z.abs (signed_of w x).
Proof.
  intros Hx. pose proof (signed_of_bounds w x ltac:(lia) Hx) as Hb. pose proof pow_w_bounds as [Hp Hp2].
  rewrite land_kw_mask. unfold sub64. rewrite wrap64_mod.
  unfold signed_of in *. destruct (Z.testbit x (w - 1)).
  - rewrite (proj2 (Z.ltb_lt _ 0)) by lia. rewrite Z.sub_0_l, Z.abs_neq by lia.
    symmetry. apply Z.mod_unique with (-1); lia.
  - rewrite (proj2 (Z.ltb_ge _ 0)) by lia. lia.
Qed.

Lemma signed_of_zero x : 0 <= x < 2 ^ w -> signed_of w x = 0 <-> x = 0.
Proof.
  intros Hx. unfold signed_of. split; intros H.
  - destruct (Z.testbit x (w - 1)); lia.
  - subst x. by rewrite Z.bits_0.
Qed.

(** Negating a masked word. *)
Lemma word_negate_if (b : bool) x : 0 <= x < 2 ^ w ->
  (if b then Z.land (sub64 0 x) (kw_mask w) else x) = (if b then - x else x) mod 2 ^ w.
Proof.
  intros Hx. destruct b; [|by rewrite Z.mod_small].
  rewrite land_kw_mask. unfold sub64. by rewrite wrap64_mod, Z.sub_0_l.
Qed.

Lemma kw_signed_division_spec operation l r :
  0 <= l < 2 ^ w -> 0 <= r < 2 ^ w -> r <> 0 ->
  let sl := signed_of w l in let sr := signed_of w r in
  kw_signed_division operation l r w =
  mkWord ((match operation with
           | divide_signed => Z.quot sl sr
           | modulo_signed => sl mod sr
           | _ => Z.rem sl sr
           end) mod 2 ^ w) 0.
Proof.
  intros Hl Hr Hr0 sl sr. pose proof pow_w_bounds as [Hp Hp2].
  assert (sr <> 0) as Hsr by (intros E; apply Hr0, (signed_of_zero r Hr), E).
  pose proof (signed_of_bounds w l ltac:(lia) Hl) as Bl.
  pose proof (signed_of_bounds w r ltac:(lia) Hr) as Br. fold sl sr in Bl, Br.
  destruct (signed_quotient sl sr Hsr) as [Eq Er].
  assert (0 <= Z.abs sl / Z.abs sr <= Z.abs sl) as Hq.
  { split; [apply Z.div_pos; lia|]. apply Z.div_le_upper_bound; nia. }
  pose proof (Z.mod_pos_bound (Z.abs sl) (Z.abs sr) ltac:(lia)) as Hm.
  assert (forall x, 0 <= x < 2 ^ w ->
    (if negb (Z.land x (shl64 1 (w - 1)) =? 0) then Z.land (sub64 0 x) (kw_mask w) else x)
    = Z.abs (signed_of w x)) as Emag.
  { intros x Hx. rewrite sign_test by done. by apply word_magnitude. }
  unfold kw_signed_division. cbv zeta. rewrite !Emag by done. fold sl sr.
  rewrite !(land_kw_mask (_ / _)), !(land_kw_mask (_ mod _)), !sign_test by done. fold sl sr.
  rewrite !(Z.mod_small (_ / _)), !(Z.mod_small (_ mod _) (2 ^ w)) by lia.
  rewrite !word_negate_if by lia.
  assert ((if negb (eqb (sl <? 0) (sr <? 0)) then - (Z.abs sl / Z.abs sr) else Z.abs sl / Z.abs sr)
    = Z.quot sl sr) as -> by (rewrite Eq; by destruct (eqb _ _)).
  rewrite <- Er. set (m := Z.rem sl sr) in *.
  destruct operation; try done.
  assert ((m mod 2 ^ w =? 0) = (m =? 0)) as ->.
  { pose proof (Z.rem_bound_abs sl sr Hsr). fold m in H. apply eq_true_iff_eq. rewrite !Z.eqb_eq.
    split; intros E; [|by rewrite E]. destruct (Z.ltb_spec m 0); [|by rewrite Z.mod_small in E by lia].
    assert ((m + 1 * 2 ^ w) mod 2 ^ w = 0) as E' by by rewrite Z.mod_add by lia.
    rewrite Z.mod_small in E' by lia. lia. }
  rewrite <- (modulo_of_remainder sl sr Hsr). fold m.
  destruct (Z.eqb_spec m 0) as [E0|E0]; [done|]. cbn [negb andb].
  assert ((m <? 0) = (sl <? 0)) as ->.
  { rewrite Er. assert (0 <= Z.abs sl mod Z.abs sr) by lia. rewrite Er in E0.
    destruct (Z.ltb_spec sl 0); cases_ltb; lia. }
  destruct (eqb _ _); cbn [negb]; [done|]. f_equal.
  rewrite land_kw_mask. unfold add64. rewrite wrap64_mod, Zplus_mod_idemp_l.
  unfold sr, signed_of. destruct (Z.testbit r (w - 1)); [|done].
  replace (m + (r - 2 ^ w)) with (m + r + (-1) * 2 ^ w) by lia. by rewrite Z.mod_add by lia.
Qed.

(** Every arithmetic operator of the word code computes its meaning. *)
Lemma kw_arithmetic_spec operation l r :
  0 <= l < 2 ^ w -> 0 <= r < 2 ^ w -> is_arithmetic operation = true ->
  kw_arithmetic operation l r w =
  match arithmetic_meaning operation w l r with
  | Some n => mkWord (n mod 2 ^ w) 0
  | None => kw_all_x w
  end.
Proof.
  intros Hl Hr Hop. destruct operation; try done; unfold kw_arithmetic, arithmetic_meaning;
    rewrite ?land_kw_mask; unfold add64, sub64, mul64; rewrite ?wrap64_mod; try done.
  - rewrite kw_power_unsigned by done. by rewrite Z.mod_mod by (pose proof pow_w_bounds; lia).
  - by destruct (r =? 0).
  - by destruct (r =? 0).
  - rewrite shiftr_and_one by lia. destruct (Z.eqb_spec l 0) as [->|Hne].
    + destruct (Z.testbit r (w - 1)) eqn:E; [done|]. cbn [andb]. unfold kw_power_known.
      rewrite shiftr_and_one, E by lia. cbn [andb].
      rewrite kw_power_loop by (pose proof pow_w_bounds; lia).
      by rewrite Z.mod_mod by (pose proof pow_w_bounds; lia).
    + rewrite andb_false_r, kw_power_signed, Z.mod_mod by (done || pose proof pow_w_bounds; lia).
      by destruct (Z.testbit r (w - 1)).
  - destruct (Z.eqb_spec r 0); [done|]. by rewrite kw_signed_division_spec.
  - destruct (Z.eqb_spec r 0); [done|]. by rewrite kw_signed_division_spec.
  - destruct (Z.eqb_spec r 0); [done|]. by rewrite kw_signed_division_spec.
Qed.
End words.

(** * Relations *)

(** ** Meaning *)

Definition both_known (a b : Logic4) : bool := negb (is_unknown a) && negb (is_unknown b).
Definition differ (a b : Logic4) : bool := negb (logic4_eqb a b).

(** Some position satisfies [p] on the elements of the two operands. *)
Definition some_pair (w : Z) (p : Logic4 -> Logic4 -> bool) (f g : Z -> Logic4) : bool :=
  existsb (fun i => p (f i) (g i)) (up 0 w).

(** A pair that decides a case comparison against a match. *)
Definition case_mismatch (operation : BinaryOperator) (a b : Logic4) : bool :=
  differ a b &&
  match operation with
  | casez_equal => negb (logic4_eqb a Logic4_z || logic4_eqb b Logic4_z)
  | casex_equal => negb (is_unknown a || is_unknown b)
  | _ => true
  end.

Definition is_ordering (operation : BinaryOperator) : bool :=
  match operation with
  | less_unsigned | less_equal_unsigned | greater_unsigned | greater_equal_unsigned => true
  | _ => is_signed_relation operation
  end.

(** The order of the operands under a relational operator. *)
Definition operand_order (operation : BinaryOperator) (w l r : Z) : Z :=
  if is_signed_relation operation then Z.sgn (signed_of w l - signed_of w r) else Z.sgn (l - r).

(** The scalar a comparison operator returns for four-state operands with
    elements [f] and [g] and, when known, values [l] and [r]. *)
Definition relation_meaning (operation : BinaryOperator) (w : Z) (f g : Z -> Logic4) (l r : Z) : Logic4 :=
  let mismatch := some_pair w (fun a b => both_known a b && differ a b) f g in
  let unknown := some_pair w (fun a b => negb (both_known a b)) f g in
  match operation with
  | equal | vhdl_match_equal => equality_state mismatch unknown
  | not_equal => logic_not4 (equality_state mismatch unknown)
  | case_equal | casez_equal | casex_equal =>
      logic4_of_bool (negb (some_pair w (case_mismatch operation) f g))
  | wildcard_equal =>
      equality_state mismatch (some_pair w (fun a b => is_unknown a && negb (is_unknown b)) f g)
  | _ =>
      if unknown then Logic4_x
      else
        let order := operand_order operation w l r in
        logic4_of_bool (relation_result operation (order <? 0) (order >? 0))
  end.

(** ** Element code *)

Lemma existsb_ext {A} (p q : A -> bool) l : (forall x, x ∈ l -> p x = q x) -> existsb p l = existsb q l.
Proof.
  induction l as [|a l IH]; intros H; simpl; [done|]. rewrite H by set_solver. f_equal. apply IH. set_solver.
Qed.

(** A loop that accumulates two flags. *)
Lemma flags_loop n (body : Z -> bool * bool -> Outcome (bool * bool)) (p q : Z -> bool) :
  (forall i u m, 0 <= i < n -> body i (u, m) = Ok (u || p i, m || q i)) ->
  foreach (up 0 n) body (false, false) = Ok (existsb p (up 0 n), existsb q (up 0 n)).
Proof.
  intros Hbody. assert (forall l u m, (forall i, i ∈ l -> 0 <= i < n) ->
    foreach l body (u, m) = Ok (u || existsb p l, m || existsb q l)) as Hgen.
  { induction l as [|i l IH]; intros u m Hl; simpl; [by rewrite !orb_false_r|].
    rewrite Hbody by (apply Hl; set_solver). simpl. rewrite IH by set_solver. by rewrite !orb_assoc. }
  apply Hgen. intros i Hi. by apply elem_of_up in Hi.
Qed.

Section relations.
Context (lhs rhs : PackedLogic4) (w : Z).
Context (Hl : wf lhs) (Hr : wf rhs) (Wl : width lhs = w) (Wr : width rhs = w) (Hw : 0 < w).

Abbreviation relation op := (relation_meaning op w (at4 lhs) (at4 rhs) (uvalue lhs) (uvalue rhs)).

Lemma equal_reference_spec : equal_reference lhs rhs = make 1 (relation equal).
Proof.
  unfold equal_reference. rewrite Wl.
  rewrite (flags_loop w _ (fun i => negb (both_known (at4 lhs i) (at4 rhs i)))
    (fun i => both_known (at4 lhs i) (at4 rhs i) && differ (at4 lhs i) (at4 rhs i))); [done|].
  intros i u m Hi. rewrite !get_ok by lia. simpl. unfold both_known, differ, is_unknown.
  destruct (at4 lhs i), (at4 rhs i); simpl; by rewrite ?orb_true_r, ?orb_false_r.
Qed.

Lemma wildcard_reference_spec : wildcard_reference lhs rhs = make 1 (relation wildcard_equal).
Proof.
  unfold wildcard_reference. rewrite Wl.
  rewrite (flags_loop w _ (fun i => is_unknown (at4 lhs i) && negb (is_unknown (at4 rhs i)))
    (fun i => both_known (at4 lhs i) (at4 rhs i) && differ (at4 lhs i) (at4 rhs i))); [done|].
  intros i u m Hi. rewrite !get_ok by lia. simpl. unfold both_known, differ, is_unknown.
  destruct (at4 lhs i), (at4 rhs i); simpl; by rewrite ?orb_true_r, ?orb_false_r.
Qed.

Lemma case_reference_spec operation :
  operation = case_equal \/ operation = casez_equal \/ operation = casex_equal ->
  (is_logic9 lhs = false /\ is_logic9 rhs = false) \/ operation <> case_equal ->
  case_reference operation lhs rhs = make 1 (relation operation).
Proof.
  intros Hop Hnine. unfold case_reference. rewrite Wl.
  rewrite (scan_exists (up 0 w) _ (fun i => case_mismatch operation (at4 lhs i) (at4 rhs i)) false).
  - transitivity (make 1 (logic4_of_bool (negb (some_pair w (case_mismatch operation) (at4 lhs) (at4 rhs))))).
    + unfold some_pair. destruct (existsb _ _); vm_compute; done.
    + by destruct Hop as [-> | [-> | ->]].
  - intros i s Hi%elem_of_up.
    replace (bool_decide (operation = case_equal) && (is_logic9 lhs || is_logic9 rhs)) with false
      by (destruct Hnine as [[-> ->]|?]; [by rewrite andb_false_r|by rewrite bool_decide_eq_false_2]).
    rewrite !get_ok by lia. simpl. do 2 f_equal. unfold case_mismatch, differ, is_unknown.
    by destruct Hop as [-> | [-> | ->]]; destruct (at4 lhs i), (at4 rhs i).
Qed.

(** The matching relation on four-state operands. *)
Lemma vhdl_match_four : is_logic9 lhs = false -> is_logic9 rhs = false ->
  vhdl_match_reference lhs rhs = make 1 (relation vhdl_match_equal).
Proof.
  intros Fl Fr. unfold vhdl_match_reference. rewrite Wl. cbn [relation_meaning]. unfold some_pair.
  set (p := fun i => negb (both_known (at4 lhs i) (at4 rhs i))).
  set (q := fun i => both_known (at4 lhs i) (at4 rhs i) && differ (at4 lhs i) (at4 rhs i)).
  assert (forall l u, (forall i, i ∈ l -> 0 <= i < w) ->
    foreach_flow l (fun index (uu : bool * bool) =>
      let '(unknown, uninitialized) := uu in
      l ← get_logic9 lhs index; r ← get_logic9 rhs index;
      Ok (if (match_class l =? -1) || (match_class r =? -1) then inl (unknown, uninitialized)
        else if (match_class l =? 3) || (match_class r =? 3) then inl (unknown, true)
        else if (match_class l =? 2) || (match_class r =? 2) then inl (true, uninitialized)
        else if negb (match_class l =? match_class r) then inr tt
        else inl (unknown, uninitialized))) (u, false)
    = Ok (if existsb q l then inr tt else inl (u || existsb p l, false))) as Hscan.
  { induction l as [|i l IH]; intros u Hin; simpl; [by rewrite orb_false_r|].
    rewrite !get_logic9_ok by (rewrite ?Wl, ?Wr; apply Hin; set_solver). simpl.
    rewrite !at9_four by done. unfold p at 1, q at 1, both_known, differ, is_unknown.
    specialize (fun u => IH u ltac:(set_solver)).
    destruct (at4 lhs i), (at4 rhs i); simpl; rewrite ?IH, ?orb_true_r; done. }
  cbv zeta. rewrite (Hscan (up 0 w) false) by (by intros i Hi%elem_of_up).
  by destruct (existsb q (up 0 w)), (existsb p (up 0 w)).
Qed.

Lemma unknown_pair_spec :
  some_pair w (fun a b => negb (both_known a b)) (at4 lhs) (at4 rhs) = false ->
  all_known lhs /\ all_known rhs.
Proof.
  unfold some_pair. rewrite existsb_up_false. intros H.
  split; intros i Hi; specialize (H i ltac:(lia)); rewrite known_at_unknown; revert H;
    unfold both_known; by destruct (is_unknown (at4 lhs i)), (is_unknown (at4 rhs i)).
Qed.

Lemma relation_reference_spec operation :
  is_ordering operation = true ->
  relation_reference operation lhs rhs = make 1 (relation operation).
Proof.
  intros Hop. unfold relation_reference. rewrite Wl.
  rewrite (scan_exists (up 0 w) _ (fun i => negb (both_known (at4 lhs i) (at4 rhs i))) true).
  2:{ intros i s Hi%elem_of_up. rewrite !get_ok by lia. simpl. do 2 f_equal.
      unfold both_known. by destruct (is_unknown (at4 lhs i)), (is_unknown (at4 rhs i)). }
  assert (relation operation = if some_pair w (fun a b => negb (both_known a b)) (at4 lhs) (at4 rhs)
    then Logic4_x else logic4_of_bool (relation_result operation
      (operand_order operation w (uvalue lhs) (uvalue rhs) <? 0)
      (operand_order operation w (uvalue lhs) (uvalue rhs) >? 0))) as ->
    by by destruct operation.
  unfold some_pair at 1, after_loop. cbn [mbind outcome_bind].
  destruct (existsb _ _) eqn:E; [done|]. destruct (unknown_pair_spec E) as [Kl Kr].
  cbn [mbind outcome_bind]. rewrite (get_ok lhs), (get_ok rhs) by lia. cbn [mbind outcome_bind].
  fold (one_at lhs (w - 1)). fold (one_at rhs (width rhs - 1)).
  destruct (top_bit_sign lhs Hl ltac:(lia)) as [El Ul], (top_bit_sign rhs Hr ltac:(lia)) as [Er Ur].
  rewrite Wl in El, Ul. rewrite Wr in Ur. rewrite El, Er.
  pose proof (svalue_bounds lhs ltac:(lia)). pose proof (svalue_bounds rhs ltac:(lia)).
  assert ((if is_signed_relation operation && negb (eqb (svalue lhs <? 0) (svalue rhs <? 0))
     then Ok (if svalue lhs <? 0 then -1 else 1) else compare_known_unsigned lhs rhs)
     = Ok (operand_order operation w (uvalue lhs) (uvalue rhs))) as ->; [|done].
  unfold operand_order. rewrite !signed_of_uvalue by done.
  rewrite compare_known_unsigned_spec by (done || lia).
  destruct (is_signed_relation operation); cbn [andb]; [|done].
  destruct (Z.ltb_spec (svalue lhs) 0), (Z.ltb_spec (svalue rhs) 0); cbn [eqb negb]; f_equal; lia.
Qed.
End relations.
