(* ===== verification/KernelEquivalence.v ===== *)
(** * Equivalence of the word path and the element path

    Completes [BinaryEquivalence] on the word side: the relations and bitwise
    operators of [kw_binary], and the theorem that [binary_value], which
    prefers the word code, returns what its element code returns. *)
From S2P Require Import Prelude Logic WordSpan LogicWord PackedLogic4 PackedConvert PackedNumeric.
From S2P Require Import KernelWord SimirArithmetic RippleArithmetic BinaryEquivalence.
Ltac Zify.zify_post_hook ::= Z.div_mod_to_equations.

(** A word pair holding [w] four-state elements, clear above them. *)
Record WordRep (x : Word) (w : Z) (f : Z -> Logic4) : Prop := {
  word_a_bound : 0 <= word_a x < 2 ^ w;
  word_b_bound : 0 <= word_b x < 2 ^ w;
  word_a_bit : forall i, 0 <= i < w -> Z.testbit (word_a x) i = aval_bit (f i);
  word_b_bit : forall i, 0 <= i < w -> Z.testbit (word_b x) i = bval_bit (f i);
}.

(** The words of a narrow four-state value. *)
Definition word_of (v : PackedLogic4) : Word := mkWord (front (aval_words v)) (front (bval_words v)).

Lemma aval_bit_of_bits a b : aval_bit (logic4_of_bits a b) = a.
Proof. by destruct a, b. Qed.
Lemma bval_bit_of_bits a b : bval_bit (logic4_of_bits a b) = b.
Proof. by destruct a, b. Qed.

Lemma front_plane w ws : 0 < w <= 64 -> plane_ok w ws ->
  0 <= front ws < 2 ^ w /\ forall i, 0 <= i < 64 -> Z.testbit (front ws) i = read_bit ws i.
Proof.
  intros Hw [Hs Hc]. split; [|intros i Hi; by apply read_front].
  apply bounded_of_testbit; [lia|]. intros i Hi. destruct (Z.ltb_spec i 64).
  - rewrite read_front by lia. by apply Hc.
  - apply testbit_u64_high; [|done]. apply word_at_u64, Hs.
Qed.

Lemma word_of_rep v : wf v -> is_logic9 v = false -> 0 < width v <= 64 ->
  WordRep (word_of v) (width v) (at4 v).
Proof.
  intros Hv Hn Hw. destruct (front_plane _ _ Hw (wf_aval _ Hv)) as [A1 A2].
  destruct (front_plane _ _ Hw (wf_bval _ Hv)) as [B1 B2]. split; simpl; try done.
  - intros i Hi. rewrite A2 by lia. unfold at4, at9. rewrite Hn, to_logic4_to_logic9.
    by rewrite aval_bit_of_bits.
  - intros i Hi. rewrite B2 by lia. unfold at4, at9. rewrite Hn, to_logic4_to_logic9.
    by rewrite bval_bit_of_bits.
Qed.

(** The unsigned value of a known word. *)
Lemma word_value v : wf v -> is_logic9 v = false -> 0 < width v <= 64 -> all_known v ->
  word_a (word_of v) = uvalue v.
Proof.
  intros Hv Hn Hw Hk. destruct (word_of_rep v Hv Hn Hw) as [A1 _ A2 _].
  pose proof (uvalue_bound v ltac:(lia)). apply Z.bits_inj'. intros i Hi.
  destruct (Z.ltb_spec i (width v)).
  - rewrite A2 by lia. rewrite <- one_at_uvalue by lia. specialize (Hk i ltac:(lia)).
    unfold one_at, known_at in *. by destruct (at4 v i).
  - by rewrite !(testbit_high _ (width v)) by lia.
Qed.

Lemma pack_rep w x f : 0 < w <= 64 ->
  (forall i, 0 <= i < w -> Z.testbit (word_a x) i = aval_bit (f i)) ->
  (forall i, 0 <= i < w -> Z.testbit (word_b x) i = bval_bit (f i)) ->
  returns (from_aval_bval w (word_a x) (word_b x)) (fun r => Rep r w false (fun i => to_logic9 (f i))).
Proof.
  intros Hw Ha Hb. eapply returns_mono; [by apply from_aval_bval_spec|]. intros r HR.
  eapply Rep_ext; [exact HR|]. intros i Hi. cbv beta. rewrite Ha, Hb by done. by rewrite logic4_of_bits_bits.
Qed.

Lemma kw_bit_spec x w f i : WordRep x w f -> 0 <= i < w -> kw_bit x i = f i.
Proof.
  intros [_ _ Ba Bb] Hi. unfold kw_bit.
  pose proof (shiftr_and_one (word_a x) i ltac:(lia)) as ->.
  pose proof (shiftr_and_one (word_b x) i ltac:(lia)) as Eb. rewrite Ba by done. rewrite Bb in Eb by done.
  destruct (Z.land (Z.shiftr (word_b x) i) 1 =? 0), (f i); done.
Qed.

(** The words of a narrow value pack to the value itself. *)
Lemma pack_word_of v : wf v -> is_logic9 v = false -> 0 < width v <= 64 ->
  from_aval_bval (width v) (word_a (word_of v)) (word_b (word_of v)) = Ok (copy v).
Proof.
  intros Hv Nv Hw. pose proof (word_of_rep v Hv Nv Hw) as [_ _ Ba Bb].
  eapply (returns_Rep_eq _ _ (width v) (is_logic9 v) (at9 v)); [|by apply Rep_copy].
  rewrite Nv. eapply returns_mono; [by apply (pack_rep (width v) (word_of v) (at4 v))|].
  intros r HR. eapply Rep_ext; [exact HR|]. intros. symmetry. by apply at9_four.
Qed.

Lemma pack_scalar s : from_aval_bval 1 (word_a (kw_scalar s)) (word_b (kw_scalar s)) = make 1 s.
Proof. destruct s; vm_compute; done. Qed.

(** A word is nonzero when some bit below [w] is set. *)
Lemma word_nonzero w x (p : Z -> bool) :
  0 <= w -> (forall i, 0 <= i < w -> Z.testbit x i = p i) ->
  (forall i, w <= i -> Z.testbit x i = false) ->
  negb (x =? 0) = existsb p (up 0 w).
Proof.
  intros Hw Hp Hh. apply eq_true_iff_eq. rewrite negb_true_iff, Z.eqb_neq, existsb_up. split.
  - intros Hx. destruct (existsb p (up 0 w)) eqn:E; [by apply existsb_up|]. exfalso. apply Hx.
    rewrite existsb_up_false in E. apply Z.bits_inj'. intros i Hi. rewrite Z.bits_0.
    destruct (Z.ltb_spec i w); [by rewrite Hp, E by lia|apply Hh; lia].
  - intros (i & Hi & Hpi) ->. rewrite <- Hp, Z.bits_0 in Hpi by done. done.
Qed.

Section word_relations.
Context (l r : Word) (w : Z) (f g : Z -> Logic4).
Context (Hw : 0 < w <= 64) (Hl : WordRep l w f) (Hr : WordRep r w g).

(** Bit [i] of the four words, inside and above the width. *)
Lemma bits_in i : 0 <= i < w ->
  Z.testbit (word_a l) i = aval_bit (f i) /\ Z.testbit (word_b l) i = bval_bit (f i) /\
  Z.testbit (word_a r) i = aval_bit (g i) /\ Z.testbit (word_b r) i = bval_bit (g i).
Proof. intros Hi. destruct Hl, Hr. split_and!; auto. Qed.

Lemma bits_above i : w <= i ->
  Z.testbit (word_a l) i = false /\ Z.testbit (word_b l) i = false /\
  Z.testbit (word_a r) i = false /\ Z.testbit (word_b r) i = false.
Proof.
  intros Hi. destruct Hl, Hr. by rewrite !(testbit_high _ w) by lia.
Qed.

Lemma mask_in i : 0 <= i < w -> Z.testbit (kw_mask w) i = true.
Proof. intros Hi. rewrite testbit_kw_mask by lia. apply Z.ltb_lt. lia. Qed.

Lemma mask_above i : w <= i -> Z.testbit (kw_mask w) i = false.
Proof. intros Hi. rewrite testbit_kw_mask by lia. apply Z.ltb_ge. lia. Qed.
End word_relations.

(** Decide a bit equation at a position inside the width from the elements. *)
Ltac word_bits_in w :=
  match goal with
  | Hl : WordRep ?l w ?f, Hr : WordRep ?r w ?g, Hi : 0 <= ?i < w |- _ =>
      let Ha := fresh in
      pose proof (bits_in l r w f g Hl Hr i Hi) as Ha; destruct Ha as (Ha1 & Ha2 & Ha3 & Ha4);
      autorewrite with fsim_bits; rewrite ?(mask_in w) by (lia || done);
      rewrite ?Ha1, ?Ha2, ?Ha3, ?Ha4, ?(proj2 (Z.ltb_lt i 64)) by lia;
      destruct (f i), (g i); done
  end.

Ltac word_bits_above w :=
  match goal with
  | Hl : WordRep ?l w ?f, Hr : WordRep ?r w ?g, Hi : w <= ?i |- _ =>
      let Ha := fresh in
      pose proof (bits_above l r w f g ltac:(lia) Hl Hr i Hi) as Ha; destruct Ha as (Ha1 & Ha2 & Ha3 & Ha4);
      autorewrite with fsim_bits; rewrite ?(mask_above w) by (lia || done);
      rewrite ?Ha1, ?Ha2, ?Ha3, ?Ha4; by rewrite ?andb_false_r
  end.

Section word_relations_spec.
Context (l r : Word) (w : Z) (f g : Z -> Logic4).
Context (Hw : 0 < w <= 64) (Hl : WordRep l w f) (Hr : WordRep r w g).

Lemma mismatch_word :
  negb (Z.land (Z.land (Z.lxor (word_a l) (word_a r))
          (not64 (Z.land (Z.lor (word_b l) (word_b r)) (kw_mask w)))) (kw_mask w) =? 0)
  = some_pair w (fun a b => both_known a b && differ a b) f g.
Proof.
  apply word_nonzero; [lia|intros i Hi; word_bits_in w|intros i Hi; word_bits_above w].
Qed.

Lemma unknown_word :
  negb (Z.land (Z.lor (word_b l) (word_b r)) (kw_mask w) =? 0)
  = some_pair w (fun a b => negb (both_known a b)) f g.
Proof.
  apply word_nonzero; [lia|intros i Hi; word_bits_in w|intros i Hi; word_bits_above w].
Qed.

Lemma case_word operation :
  operation = case_equal \/ operation = casez_equal \/ operation = casex_equal ->
  kw_binary operation l r w =
  kw_scalar (logic4_of_bool (negb (some_pair w (case_mismatch operation) f g))).
Proof.
  intros Hop.
  assert (forall x (b : bool), negb (x =? 0) = b ->
    (if x =? 0 then Logic4_one else Logic4_zero) = logic4_of_bool (negb b)) as Hz.
  { intros x b <-. by destruct (x =? 0). }
  destruct Hop as [-> | [-> | ->]]; unfold kw_binary; f_equal.
  - assert ((word_a l =? word_a r) && (word_b l =? word_b r)
      = (Z.lor (Z.lxor (word_a l) (word_a r)) (Z.lxor (word_b l) (word_b r)) =? 0)) as ->.
    { apply eq_true_iff_eq. rewrite andb_true_iff, !Z.eqb_eq, Z.lor_eq_0_iff, !Z.lxor_eq_0_iff. done. }
    apply Hz. apply word_nonzero; [lia|intros i Hi; word_bits_in w|intros i Hi; word_bits_above w].
  - apply Hz. apply word_nonzero; [lia|intros i Hi; word_bits_in w|intros i Hi; word_bits_above w].
  - apply Hz. apply word_nonzero; [lia|intros i Hi; word_bits_in w|intros i Hi; word_bits_above w].
Qed.

Lemma wildcard_word :
  kw_binary wildcard_equal l r w =
  kw_scalar (relation_meaning wildcard_equal w f g (word_a l) (word_a r)).
Proof.
  unfold kw_binary, relation_meaning. cbv zeta.
  rewrite (word_nonzero w (Z.land (Z.land (Z.lxor (word_a l) (word_a r))
    (Z.land (not64 (word_b r)) (kw_mask w))) (not64 (word_b l)))
    (fun i => both_known (f i) (g i) && differ (f i) (g i)));
    [|lia|intros i Hi; word_bits_in w|intros i Hi; word_bits_above w].
  rewrite (word_nonzero w (Z.land (word_b l) (Z.land (not64 (word_b r)) (kw_mask w)))
    (fun i => is_unknown (f i) && negb (is_unknown (g i))));
    [|lia|intros i Hi; word_bits_in w|intros i Hi; word_bits_above w].
  unfold some_pair. destruct (existsb _ _) eqn:Em; [done|].
  destruct (existsb (fun i => is_unknown (f i) && negb (is_unknown (g i))) _) eqn:Eu; [done|].
  rewrite existsb_up_false in Em, Eu. rewrite (proj2 (Z.eqb_eq _ 0)); [done|].
  apply Z.bits_inj'. intros i Hi. rewrite Z.bits_0. destruct (Z.ltb_spec i w).
  - assert (0 <= i < w) as Hi' by lia. specialize (Em i Hi'). specialize (Eu i Hi'). revert Em Eu.
    clear Hi. word_bits_in w.
  - assert (w <= i) as Hi' by lia. clear Hi. word_bits_above w.
Qed.

Lemma vhdl_match_word :
  kw_binary vhdl_match_equal l r w =
  kw_scalar (relation_meaning vhdl_match_equal w f g (word_a l) (word_a r)).
Proof.
  unfold kw_binary, relation_meaning. cbv zeta. rewrite unknown_word.
  rewrite (word_nonzero w (Z.land (Z.land (Z.lxor (word_a l) (word_a r))
    (not64 (Z.lor (word_b l) (word_b r)))) (kw_mask w))
    (fun i => both_known (f i) (g i) && differ (f i) (g i)));
    [done|lia|intros i Hi; word_bits_in w|intros i Hi; word_bits_above w].
Qed.

Lemma lxor_pow2 x k : 0 <= k -> Z.lxor x (2 ^ k) = if Z.testbit x k then x - 2 ^ k else x + 2 ^ k.
Proof.
  intros Hk. destruct (Z.testbit x k) eqn:E.
  - rewrite Z.sub_nocarry_ldiff.
    + apply Z.bits_inj'. intros i Hi. rewrite Z.lxor_spec, Z.ldiff_spec, testbit_pow2 by lia.
      destruct (Z.eqb_spec i k) as [->|]; [by rewrite E|]. by rewrite xorb_false_r, andb_true_r.
    + apply Z.bits_inj'. intros i Hi. rewrite Z.ldiff_spec, testbit_pow2, Z.bits_0 by lia.
      destruct (Z.eqb_spec i k) as [->|]; [by rewrite E|done].
  - rewrite Z.add_nocarry_lxor; [done|]. apply Z.bits_inj'. intros i Hi.
    rewrite Z.land_spec, testbit_pow2, Z.bits_0 by lia.
    destruct (Z.eqb_spec i k) as [->|]; [by rewrite E|apply andb_false_r].
Qed.

Lemma shl64_one k : 0 <= k < 64 -> shl64 1 k = 2 ^ k.
Proof.
  intros Hk. apply Z.bits_inj'. intros i Hi. rewrite testbit_shl_one, testbit_pow2 by lia.
  cases_ltb; simpl; lia.
Qed.

Lemma kw_sign_extend_spec x : 0 <= x < 2 ^ w -> kw_sign_extend x w = signed_of w x.
Proof.
  intros Hx. unfold kw_sign_extend. rewrite Z.geb_leb. destruct (Z.leb_spec 64 w).
  { assert (w = 64) as -> by lia. by apply to_int64_signed_of. }
  destruct (pow_w_bounds w Hw) as [Hp1 Hp2]. rewrite shl64_one, lxor_pow2 by lia.
  assert (2 ^ w <= 2 ^ 63) by (apply Z.pow_le_mono_r; lia).
  pose proof (testbit_pow2_split w x ltac:(lia) Hx) as Ht.
  unfold signed_of, to_int64, sub64, wrap64. destruct (Z.testbit x (w - 1)).
  - replace (x - 2 ^ (w - 1) - 2 ^ (w - 1)) with (x - 2 ^ w) by lia.
    assert ((x - 2 ^ w) mod 2 ^ 64 = x - 2 ^ w + 2 ^ 64) as ->
      by (symmetry; apply Z.mod_unique with (-1); lia).
    rewrite (proj2 (Z.ltb_ge _ _)) by lia. lia.
  - replace (x + 2 ^ (w - 1) - 2 ^ (w - 1)) with x by lia. rewrite Z.mod_small by lia.
    by rewrite (proj2 (Z.ltb_lt _ _)) by lia.
Qed.

Lemma kw_relation_result operation c :
  is_ordering operation = true -> -1 <= c <= 1 ->
  kw_relation operation c = relation_result operation (c <? 0) (c >? 0).
Proof.
  intros Hop Hc. assert (c = -1 \/ c = 0 \/ c = 1) as [-> | [-> | ->]] by lia; by destruct operation.
Qed.

Lemma ordering_word operation :
  is_ordering operation = true ->
  kw_binary operation l r w = kw_scalar (relation_meaning operation w f g (word_a l) (word_a r)).
Proof.
  intros Hop. pose proof (word_a_bound _ _ _ Hl). pose proof (word_a_bound _ _ _ Hr).
  assert (kw_binary operation l r w =
    if negb (Z.land (Z.lor (word_b l) (word_b r)) (kw_mask w) =? 0) then kw_scalar Logic4_x
    else
      let left := if is_signed_relation operation then kw_sign_extend (word_a l) w else word_a l in
      let right := if is_signed_relation operation then kw_sign_extend (word_a r) w else word_a r in
      let comparison := if left <? right then -1 else if left >? right then 1 else 0 in
      kw_scalar (if kw_relation operation comparison then Logic4_one else Logic4_zero)) as ->
    by by destruct operation.
  rewrite unknown_word, !kw_sign_extend_spec by done.
  assert (relation_meaning operation w f g (word_a l) (word_a r) =
    if some_pair w (fun a b => negb (both_known a b)) f g then Logic4_x
    else logic4_of_bool (relation_result operation
      (operand_order operation w (word_a l) (word_a r) <? 0)
      (operand_order operation w (word_a l) (word_a r) >? 0))) as -> by by destruct operation.
  destruct (some_pair _ _ _ _); [done|]. cbv zeta. unfold operand_order.
  assert (forall x y : Z, (if x <? y then -1 else if x >? y then 1 else 0) = Z.sgn (x - y)) as Hsgn.
  { intros x y. rewrite Z.gtb_ltb. destruct (Z.ltb_spec x y), (Z.ltb_spec y x); lia. }
  rewrite Hsgn, kw_relation_result by (done || lia).
  by destruct (is_signed_relation operation).
Qed.

(** Every comparison of the word code computes its meaning. *)
Lemma kw_comparison_spec operation :
  is_comparison operation = true \/ operation = vhdl_match_equal ->
  kw_binary operation l r w = kw_scalar (relation_meaning operation w f g (word_a l) (word_a r)).
Proof.
  intros Hop. destruct operation; try (by destruct Hop as [Hop|Hop]);
    try (by apply ordering_word); try (by apply case_word; auto).
  - unfold kw_binary, relation_meaning. rewrite mismatch_word, unknown_word. unfold equality_state.
    by destruct (some_pair w (fun a b => both_known a b && differ a b) f g),
      (some_pair w (fun a b => negb (both_known a b)) f g).
  - apply wildcard_word.
  - unfold kw_binary, relation_meaning. rewrite mismatch_word, unknown_word. unfold equality_state.
    by destruct (some_pair w (fun a b => both_known a b && differ a b) f g),
      (some_pair w (fun a b => negb (both_known a b)) f g).
  - apply vhdl_match_word.
Qed.

(** Every bitwise operator of the word code applies the four-state table. *)
Lemma kw_bitwise_spec operation :
  operation = bit_and \/ operation = bit_or \/ operation = bit_xor ->
  WordRep (kw_binary operation l r w) w (fun i => bitwise4 operation (f i) (g i)).
Proof.
  intros Hop. destruct (pow_w_bounds w Hw) as [Hp _].
  assert (forall x, 0 <= Z.land x (kw_mask w) < 2 ^ w) as Hm.
  { intros x. rewrite land_kw_mask by done. apply Z.mod_pos_bound. lia. }
  split; destruct Hop as [-> | [-> | ->]]; cbn [kw_binary];
    unfold kw_bit_and, kw_bit_or, kw_bit_xor; cbn [word_a word_b]; try apply Hm;
    intros i Hi; word_bits_in w.
Qed.
End word_relations_spec.

(** * Results of the operand width *)

(** The elements of a vector result: arithmetic on known operands, all X when
    an operand has an unknown element, the tables otherwise. *)
Definition vector_element (operation : BinaryOperator) (lhs rhs : PackedLogic4) (i : Z) : Logic9 :=
  let w := width lhs in
  if is_arithmetic operation then
    if some_pair w (fun a b => negb (both_known a b)) (at4 lhs) (at4 rhs) then to_logic9 Logic4_x
    else meaning_element (arithmetic_meaning operation w (uvalue lhs) (uvalue rhs)) i
  else if is_logic9 lhs || is_logic9 rhs then bitwise9 operation (at9 lhs i) (at9 rhs i)
  else to_logic9 (bitwise4 operation (at4 lhs i) (at4 rhs i)).

(** Arithmetic results are four-state values, bitwise results keep nine states. *)
Definition vector_nine (operation : BinaryOperator) (lhs rhs : PackedLogic4) : bool :=
  negb (is_arithmetic operation) && (is_logic9 lhs || is_logic9 rhs).

Section vector.
Context (lhs rhs : PackedLogic4).
Context (Hl : wf lhs) (Hr : wf rhs) (Wr : width rhs = width lhs) (Hw : 0 < width lhs).

Lemma unknown_operands :
  (left_unknown ← has_unknown lhs;
   (if left_unknown : bool then Ok true else has_unknown rhs))
  = Ok (some_pair (width lhs) (fun a b => negb (both_known a b)) (at4 lhs) (at4 rhs)).
Proof.
  rewrite !has_unknown_spec. cbn [mbind outcome_bind]. rewrite Wr. unfold some_pair.
  destruct (existsb (fun i => is_unknown (at4 lhs i)) _) eqn:E; f_equal; symmetry.
  - apply existsb_up in E as (i & Hi & Ei). apply existsb_up. exists i. split; [done|].
    unfold both_known. by rewrite Ei.
  - apply existsb_ext. intros i Hi%elem_of_up. rewrite existsb_up_false in E. unfold both_known.
    rewrite E by done. simpl. by rewrite negb_involutive.
Qed.

Lemma bitwise_reference_spec operation nine result f :
  Rep result (width lhs) nine f ->
  returns (bitwise_reference operation nine lhs rhs result) (fun r => Rep r (width lhs) nine
    (fun i => if nine then bitwise9 operation (at9 lhs i) (at9 rhs i)
              else to_logic9 (bitwise4 operation (at4 lhs i) (at4 rhs i)))).
Proof.
  intros Hres. unfold bitwise_reference. eapply element_loop; [lia|exact Hres|].
  intros i r h Hi R _. destruct nine; rewrite ?get_logic9_ok, ?get_ok by lia; cbn [mbind outcome_bind].
  - by apply Rep_set9.
  - by apply Rep_set.
Qed.

Lemma vector_reference_spec operation :
  (operation = power_signed -> is_logic9 lhs = false) ->
  returns (vector_reference operation lhs rhs)
    (fun r => Rep r (width lhs) (vector_nine operation lhs rhs) (vector_element operation lhs rhs)).
Proof.
  intros Hfour. pose proof (wf_width _ Hl). unfold vector_reference, vector_nine, vector_element.
  apply returns_bind. eapply returns_mono; [apply make_spec; lia|]. intros r0 R0.
  apply returns_bind. eapply (returns_mono _ (fun r => exists f,
    Rep r (width lhs) (is_logic9 lhs || is_logic9 rhs) f)).
  { destruct (is_logic9 lhs || is_logic9 rhs); [|eexists; exact R0].
    pose proof R0 as [R1 R2 R3 R4 R5].
    eapply returns_mono; [by apply fill9_spec|]. rewrite R2. intros r Hr9. eexists. exact Hr9. }
  intros r1 [f R1]. destruct (is_arithmetic operation) eqn:Eop; cbn [negb andb].
  - rewrite bind_assoc, unknown_operands. cbn [mbind outcome_bind].
    destruct (some_pair _ _ _ _) eqn:Eu; [apply make_spec; lia|].
    destruct (unknown_pair_spec lhs rhs (width lhs) eq_refl Wr Eu) as [Kl Kr].
    by apply arithmetic_reference_spec.
  - eapply returns_mono; [by eapply bitwise_reference_spec|]. intros r HR.
    eapply Rep_ext; [exact HR|]. intros i Hi. by destruct (is_logic9 lhs || is_logic9 rhs).
Qed.
End vector.

(** The same results from the word code, for words that hold the elements. *)
Lemma kw_arithmetic_pack operation lhs rhs l r :
  wf lhs -> wf rhs -> width rhs = width lhs -> 0 < width lhs <= 64 ->
  WordRep l (width lhs) (at4 lhs) -> WordRep r (width lhs) (at4 rhs) ->
  is_arithmetic operation = true ->
  (all_known lhs -> word_a l = uvalue lhs) -> (all_known rhs -> word_a r = uvalue rhs) ->
  let x := kw_binary operation l r (width lhs) in
  returns (from_aval_bval (width lhs) (word_a x) (word_b x))
    (fun v => Rep v (width lhs) false (vector_element operation lhs rhs)).
Proof.
  intros Hl Hr Wr Hw Rl Rr Hop Vl Vr x. set (w := width lhs) in *.
  assert (x = if negb (Z.land (Z.lor (word_b l) (word_b r)) (kw_mask w) =? 0) then kw_all_x w
    else kw_arithmetic operation (word_a l) (word_a r) w) as Ex by (subst x; by destruct operation).
  rewrite (unknown_word l r w _ _ Hw Rl Rr) in Ex. unfold vector_element. rewrite Hop. fold w.
  assert (forall n, returns (from_aval_bval w (n mod 2 ^ w) 0) (fun v => Rep v w false (number n))) as Hnum.
  { intros n. eapply returns_mono; [by apply from_aval_bval_spec|]. intros v HR.
    eapply Rep_ext; [exact HR|]. intros i Hi. cbv beta. rewrite Z.mod_pow2_bits_low, Z.bits_0 by lia.
    unfold number. by destruct (Z.testbit n i). }
  assert (returns (from_aval_bval w (word_a (kw_all_x w)) (word_b (kw_all_x w)))
    (fun v => Rep v w false (fun _ => to_logic9 Logic4_x))) as Hx.
  { apply (pack_rep w (kw_all_x w) (fun _ => Logic4_x)); [done|..]; intros i Hi; simpl; by apply mask_in. }
  destruct (some_pair _ _ _ _) eqn:Eu; rewrite Ex; [exact Hx|].
  destruct (unknown_pair_spec lhs rhs w eq_refl Wr Eu) as [Kl Kr].
  pose proof (uvalue_bound lhs ltac:(lia)). pose proof (uvalue_bound rhs ltac:(lia)).
  rewrite Vl, Vr, kw_arithmetic_spec by (done || lia || (rewrite <- ?Wr; done)).
  destruct (arithmetic_meaning _ _ _ _) as [n|]; [apply Hnum|exact Hx].
Qed.

(** * Known operands in either representation *)

Lemma logic9_word_known p0 p1 p2 p3 w x i :
  0 < w <= 64 -> kw_logic9_word p0 p1 p2 p3 w = Some x -> word_b x = 0 -> 0 <= i < w ->
  Z.testbit p3 i = false /\ Z.testbit p2 i = false /\ Z.testbit p1 i = true /\
  Z.testbit (word_a x) i = Z.testbit p0 i.
Proof.
  intros Hw Hx Hb Hi. unfold kw_logic9_word in Hx.
  destruct (Z.eqb_spec (Z.land p3 (kw_mask w)) 0) as [E3|]; [|done]. simpl in Hx.
  destruct (Z.eqb_spec (Z.land (Z.lor (Z.lor (Z.land p1 (not64 p2))
    (Z.land (Z.land (not64 p2) (not64 p1)) p0)) (Z.land (Z.land p2 (not64 p1)) (not64 p0))) (kw_mask w))
    (kw_mask w)) as [Em|]; [|done].
  injection Hx as <-. simpl in Hb |- *.
  apply (f_equal (fun y => Z.testbit y i)) in E3, Em, Hb. revert E3 Em Hb.
  autorewrite with fsim_bits. rewrite !mask_in, (proj2 (Z.ltb_lt i 64)) by lia.
  by destruct_testbits.
Qed.

(** [known_bits] accepts exactly values whose elements are '0' and '1', and
    returns their number. *)
Lemma kw_known_bits_spec v n : wf v -> kw_known_bits v = Some n ->
  0 < width v <= 64 /\ 0 <= n < 2 ^ width v /\ forall i, 0 <= i < width v -> at9 v i = number n i.
Proof.
  intros Hv Hn. pose proof (wf_width _ Hv). unfold kw_known_bits in Hn. rewrite Z.gtb_ltb in Hn.
  destruct (Z.eqb_spec (width v) 0); [done|]. destruct (Z.ltb_spec 64 (width v)); [done|]. simpl in Hn.
  assert (0 < width v <= 64) as Hw by lia. split; [done|]. set (w := width v) in *.
  destruct (pow_w_bounds w Hw) as [Hp _].
  destruct (is_logic9 v) eqn:E; simpl in Hn.
  - destruct (kw_logic9_word _ _ _ _ _) as [x|] eqn:Ex; [|done].
    destruct (Z.eqb_spec (word_b x) 0) as [Eb|]; [|done]. simpl in Hn. injection Hn as <-.
    pose proof (fun i => logic9_word_known _ _ _ _ w x i Hw Ex Eb) as Hbits.
    unfold logic9_plane_words, logic9_plane in Ex, Hbits. rewrite E in Ex, Hbits.
    fold w in Ex, Hbits. rewrite (proj2 (Z.eqb_neq w 0)) in Ex, Hbits by lia. simpl in Ex, Hbits. split.
    + unfold kw_logic9_word in Ex. destruct (_ || _); [done|]. injection Ex as <-. simpl.
      rewrite land_kw_mask by done. apply Z.mod_pos_bound. lia.
    + intros i Hi. destruct (Hbits i Hi) as (B3 & B2 & B1 & B0). unfold at9, number. rewrite E.
      rewrite !read_bit_front, B3, B2, B1, B0 by lia. by destruct (Z.testbit (front (aval_words v)) i).
  - destruct (Z.eqb_spec (Z.land (front (bval_words v)) (kw_mask w)) 0) as [Eb|]; [|done].
    simpl in Hn. injection Hn as <-. rewrite land_kw_mask by done. split; [apply Z.mod_pos_bound; lia|].
    intros i Hi. unfold at9, number. rewrite E, Z.mod_pow2_bits_low, !read_bit_front by lia.
    apply (f_equal (fun y => Z.testbit y i)) in Eb. rewrite Z.land_spec, mask_in, Z.bits_0, andb_true_r in Eb by lia.
    rewrite Eb. by destruct (Z.testbit (front (aval_words v)) i).
Qed.

Section known_values.
Context (v : PackedLogic4) (n : Z) (Hv : wf v) (Hn : kw_known_bits v = Some n).

Lemma known_bits_at4 i : 0 <= i < width v -> at4 v i = logic4_of_bool (Z.testbit n i).
Proof.
  intros Hi. destruct (kw_known_bits_spec v n Hv Hn) as (_ & _ & Hat).
  unfold at4. rewrite Hat by done. unfold number. by rewrite to_logic4_to_logic9.
Qed.

Lemma known_bits_uvalue : uvalue v = n.
Proof.
  destruct (kw_known_bits_spec v n Hv Hn) as (Hw & Hb & _). apply uvalue_eq_bits; [lia|done|].
  intros i Hi. unfold one_at. rewrite known_bits_at4 by done. by destruct (Z.testbit n i).
Qed.

Lemma known_bits_rep : WordRep (mkWord n 0) (width v) (at4 v).
Proof.
  destruct (kw_known_bits_spec v n Hv Hn) as (Hw & Hb & _).
  assert (0 <= 0 < 2 ^ width v) by (pose proof (Z.pow_pos_nonneg 2 (width v)); lia).
  split; simpl; try done; intros i Hi; rewrite known_bits_at4 by done;
    rewrite ?Z.bits_0; by destruct (Z.testbit n i).
Qed.
End known_values.

Lemma kw_logic9_known_spec n w : 0 < w <= 64 ->
  returns (kw_logic9_known n w) (fun r => Rep r w true (number n)).
Proof.
  intros Hw. unfold kw_logic9_known, kw_logic9_planes. cbn [word_a word_b].
  assert (is_u64 (Z.land (kw_mask w) (not64 0))) as Hm by (apply is_u64_land_r; auto with fsim).
  eapply returns_mono; [apply from_logic9_word_spec; simpl; auto using is_u64_land_r, is_u64_0|].
  intros r HR. simpl in HR. eapply Rep_ext; [exact HR|]. intros i Hi. unfold logic9_word_bit; simpl.
  autorewrite with fsim_bits. rewrite mask_in, (proj2 (Z.ltb_lt i 64)) by lia.
  unfold number. by destruct (Z.testbit n i).
Qed.

(** * The dispatch *)

(** The result of any operator: a scalar for a relation, else a vector. *)
Definition relational (operation : BinaryOperator) : bool :=
  is_comparison operation || bool_decide (operation = vhdl_match_equal).

Lemma relation_values operation w f g l r l' r' :
  (some_pair w (fun a b => negb (both_known a b)) f g = false -> l = l' /\ r = r') ->
  relation_meaning operation w f g l r = relation_meaning operation w f g l' r'.
Proof.
  intros H. destruct operation; try done; unfold relation_meaning;
    (destruct (some_pair w (fun a b => negb (both_known a b)) f g); [done|]); by destruct H as [-> ->].
Qed.

Section dispatch_spec.
Context (lhs rhs : PackedLogic4).
Context (Hl : wf lhs) (Hr : wf rhs) (Wr : width rhs = width lhs) (Hw : 0 < width lhs).

Abbreviation relation op :=
  (relation_meaning op (width lhs) (at4 lhs) (at4 rhs) (uvalue lhs) (uvalue rhs)).

Lemma word_path_spec operation m : word_path operation lhs rhs = Some m ->
  is_logic9 lhs = false /\ is_logic9 rhs = false /\ width lhs <= 64 /\ operation <> vhdl_match_equal /\
  m = let x := kw_binary operation (word_of lhs) (word_of rhs) (width lhs) in
      from_aval_bval (if is_comparison operation then 1 else width lhs) (word_a x) (word_b x).
Proof.
  unfold word_path. destruct (Z.leb_spec (width lhs) 64); [|done].
  destruct (is_logic9 lhs), (is_logic9 rhs); try done. case_bool_decide; [done|]. simpl. by intros [= <-].
Qed.

Lemma word_path_relation operation m :
  is_comparison operation = true -> word_path operation lhs rhs = Some m -> m = make 1 (relation operation).
Proof.
  intros Hop (Fl & Fr & Hn & _ & ->)%word_path_spec. rewrite Hop. cbv zeta.
  pose proof (word_of_rep lhs Hl Fl ltac:(lia)) as Rl.
  pose proof (word_of_rep rhs Hr Fr ltac:(lia)) as Rr. rewrite Wr in Rr.
  rewrite (kw_comparison_spec _ _ (width lhs) _ _ ltac:(lia) Rl Rr operation (or_introl Hop)), pack_scalar.
  f_equal. apply relation_values.
  intros [Kl Kr]%(unknown_pair_spec lhs rhs (width lhs) eq_refl Wr).
  by rewrite !word_value by (done || lia).
Qed.

Lemma known_path_spec operation m : known_path operation lhs rhs = Some m ->
  exists l r, kw_known_bits lhs = Some l /\ kw_known_bits rhs = Some r /\ width lhs <= 64 /\
    operation <> vhdl_match_equal /\
    m = let x := kw_binary operation (mkWord l 0) (mkWord r 0) (width lhs) in
        match operation with
        | bit_and | bit_or | bit_xor => kw_logic9_known (word_a x) (width lhs)
        | _ => from_aval_bval (if is_comparison operation then 1 else width lhs) (word_a x) (word_b x)
        end.
Proof.
  unfold known_path. destruct (Z.leb_spec (width lhs) 64); [|done]. case_bool_decide; [done|]. simpl.
  destruct (kw_known_bits lhs) as [l|]; [|done]. destruct (kw_known_bits rhs) as [r|]; [|done].
  intros [= <-]. by exists l, r.
Qed.

Lemma known_path_relation operation m :
  is_comparison operation = true -> known_path operation lhs rhs = Some m -> m = make 1 (relation operation).
Proof.
  intros Hop (l & r & El & Er & Hn & _ & ->)%known_path_spec.
  pose proof (known_bits_rep lhs l Hl El) as Rl. pose proof (known_bits_rep rhs r Hr Er) as Rr.
  rewrite Wr in Rr. cbv zeta.
  rewrite (kw_comparison_spec _ _ (width lhs) _ _ ltac:(lia) Rl Rr operation (or_introl Hop)).
  rewrite (known_bits_uvalue lhs l Hl El), (known_bits_uvalue rhs r Hr Er), Hop, pack_scalar.
  by destruct operation.
Qed.

(** Equality through whichever path applies. *)
Lemma dispatch_relation operation reference :
  is_comparison operation = true -> reference lhs rhs = make 1 (relation operation) ->
  dispatch operation reference lhs rhs = make 1 (relation operation).
Proof.
  intros Hop Href. unfold dispatch. rewrite Wr, Z.eqb_refl, (proj2 (Z.eqb_neq _ 0)) by lia. simpl.
  destruct (word_path operation lhs rhs) as [m|] eqn:E1; [by apply word_path_relation|].
  destruct (known_path operation lhs rhs) as [m|] eqn:E2; [by apply known_path_relation|done].
Qed.

Lemma make_scalar_get s : (v ← make 1 s; get v 0) = Ok s.
Proof. destruct s; vm_compute; done. Qed.

Lemma not_equal_reference_spec : not_equal_reference lhs rhs = make 1 (relation not_equal).
Proof.
  unfold not_equal_reference. rewrite dispatch_relation by (done || by apply equal_reference_spec).
  rewrite bind_assoc, make_scalar_get. cbn [mbind outcome_bind]. f_equal. cbn [relation_meaning].
  by destruct (equality_state _ _).
Qed.

(** The comparison operators of the element code, for operands whose exact
    nine-state elements do not matter. *)
Lemma reference_relation operation :
  relational operation = true ->
  (operation = case_equal \/ operation = vhdl_match_equal -> is_logic9 lhs = false /\ is_logic9 rhs = false) ->
  reference_value operation lhs rhs = make 1 (relation operation).
Proof.
  intros Hop Hnine. destruct operation; try done; unfold reference_value;
    first [ by apply equal_reference_spec | by apply wildcard_reference_spec
          | apply not_equal_reference_spec | by apply relation_reference_spec
          | apply case_reference_spec; try done; auto | apply vhdl_match_four; try done; apply Hnine; auto ].
Qed.
End dispatch_spec.

Section main.
Context (lhs rhs : PackedLogic4).
Context (Hl : wf lhs) (Hr : wf rhs) (Wr : width rhs = width lhs) (Hw : 0 < width lhs).

(** Case equality with nine-state operands compares the exact elements. *)
Lemma case_equal_nine : is_logic9 lhs || is_logic9 rhs = true ->
  case_reference case_equal lhs rhs =
  make 1 (logic4_of_bool (negb (existsb (fun i => negb (logic9_eqb (at9 lhs i) (at9 rhs i)))
                                  (up 0 (width lhs))))).
Proof.
  intros Hn. unfold case_reference.
  rewrite (scan_exists _ _ (fun i => negb (logic9_eqb (at9 lhs i) (at9 rhs i))) false).
  - destruct (existsb _ _); vm_compute; done.
  - intros i s Hi%elem_of_up. rewrite bool_decide_eq_true_2, Hn by done. cbn [andb].
    by rewrite !get_logic9_ok by lia.
Qed.

Lemma known_path_case_equal l r :
  kw_known_bits lhs = Some l -> kw_known_bits rhs = Some r -> is_logic9 lhs || is_logic9 rhs = true ->
  case_reference case_equal lhs rhs =
  make 1 (relation_meaning case_equal (width lhs) (at4 lhs) (at4 rhs) (uvalue lhs) (uvalue rhs)).
Proof.
  intros El Er Hn. rewrite case_equal_nine by done. cbn [relation_meaning]. do 3 f_equal.
  destruct (kw_known_bits_spec lhs l Hl El) as (_ & _ & Al).
  destruct (kw_known_bits_spec rhs r Hr Er) as (_ & _ & Ar).
  apply existsb_ext. intros i Hi%elem_of_up. rewrite Al, Ar by lia.
  rewrite (known_bits_at4 lhs l Hl El), (known_bits_at4 rhs r Hr Er) by lia. unfold number.
  by destruct (Z.testbit l i), (Z.testbit r i).
Qed.

(** A vector operator through the words of the operands. *)
Lemma word_path_vector operation m :
  relational operation = false -> word_path operation lhs rhs = Some m ->
  returns m (fun v => Rep v (width lhs) (vector_nine operation lhs rhs) (vector_element operation lhs rhs)).
Proof.
  intros Hop (Fl & Fr & Hn & _ & ->)%word_path_spec. unfold relational in Hop.
  apply orb_false_iff in Hop as [Hop Hv%bool_decide_eq_false]. rewrite Hop. cbv zeta. unfold vector_nine. rewrite Fl, Fr, andb_false_r.
  pose proof (word_of_rep lhs Hl Fl ltac:(lia)) as Rl.
  pose proof (word_of_rep rhs Hr Fr ltac:(lia)) as Rr. rewrite Wr in Rr.
  destruct (is_arithmetic operation) eqn:Ea.
  - apply kw_arithmetic_pack; try done; intros; apply word_value; done || lia.
  - unfold vector_element. rewrite Ea, Fl, Fr. cbn [orb].
    destruct (kw_bitwise_spec _ _ (width lhs) _ _ ltac:(lia) Rl Rr operation) as [_ _ Ba Bb].
    { by destruct operation; auto. }
    apply (pack_rep (width lhs) _ (fun i => bitwise4 operation (at4 lhs i) (at4 rhs i))); done || lia.
Qed.

Lemma known_path_vector operation m :
  relational operation = false -> is_logic9 lhs || is_logic9 rhs = true ->
  known_path operation lhs rhs = Some m ->
  returns m (fun v => Rep v (width lhs) (vector_nine operation lhs rhs) (vector_element operation lhs rhs)).
Proof.
  intros Hop Hnine (l & r & El & Er & Hn & _ & ->)%known_path_spec. unfold relational in Hop.
  apply orb_false_iff in Hop as [Hop Hv%bool_decide_eq_false]. rewrite Hop. cbv zeta. unfold vector_nine. rewrite Hnine, andb_true_r.
  pose proof (known_bits_rep lhs l Hl El) as Rl. pose proof (known_bits_rep rhs r Hr Er) as Rr.
  rewrite Wr in Rr. destruct (is_arithmetic operation) eqn:Ea; cbn [negb].
  - assert (returns (from_aval_bval (width lhs)
        (word_a (kw_binary operation (mkWord l 0) (mkWord r 0) (width lhs)))
        (word_b (kw_binary operation (mkWord l 0) (mkWord r 0) (width lhs))))
      (fun v => Rep v (width lhs) false (vector_element operation lhs rhs))) as Hpack.
    { apply kw_arithmetic_pack; try done; try lia; intros _; symmetry; by apply known_bits_uvalue. }
    by destruct operation.
  - assert (operation = bit_and \/ operation = bit_or \/ operation = bit_xor) as Hbit
      by (by destruct operation; auto).
    destruct (kw_bitwise_spec _ _ (width lhs) _ _ ltac:(lia) Rl Rr operation Hbit) as [_ _ Ba _].
    set (x := kw_binary operation _ _ _) in *.
    assert (returns (kw_logic9_known (word_a x) (width lhs)) (fun v => Rep v (width lhs) true
      (vector_element operation lhs rhs))) as Hpack; [|by destruct Hbit as [E|[E|E]]; rewrite E in *].
    eapply returns_mono; [apply kw_logic9_known_spec; lia|]. intros v HR. eapply Rep_ext; [exact HR|].
    intros i Hi. unfold vector_element. rewrite Ea, Hnine. unfold number. rewrite Ba by done.
    destruct (kw_known_bits_spec lhs l Hl El) as (_ & _ & Al).
    destruct (kw_known_bits_spec rhs r Hr Er) as (_ & _ & Ar).
    rewrite Al, Ar, (known_bits_at4 lhs l Hl El), (known_bits_at4 rhs r Hr Er) by lia. unfold number.
    by destruct Hbit as [-> | [-> | ->]]; destruct (Z.testbit l i), (Z.testbit r i).
Qed.

Lemma not_word_path operation m : known_path operation lhs rhs = Some m ->
  word_path operation lhs rhs = None -> is_logic9 lhs || is_logic9 rhs = true.
Proof.
  intros (l & r & _ & _ & Hn & Hop & _)%known_path_spec Hnone. unfold word_path in Hnone.
  rewrite (proj2 (Z.leb_le _ _)), bool_decide_eq_false_2 in Hnone by done.
  by destruct (is_logic9 lhs), (is_logic9 rhs).
Qed.

(** [binary_value] returns what its element code returns. *)
Lemma binary_value_reference operation :
  (operation = power_signed -> is_logic9 lhs = false) ->
  binary_value operation lhs rhs = reference_value operation lhs rhs.
Proof.
  intros Hpow. unfold binary_value, dispatch. rewrite Wr, Z.eqb_refl, (proj2 (Z.eqb_neq _ 0)) by lia.
  cbn [negb]. destruct (relational operation) eqn:Hrel.
  - destruct (word_path operation lhs rhs) as [m|] eqn:E1.
    + pose proof (word_path_spec lhs rhs operation m E1) as (Fl & Fr & _ & Hv & _).
      assert (is_comparison operation = true) as Hc
        by (unfold relational in Hrel; by rewrite bool_decide_eq_false_2, orb_false_r in Hrel).
      rewrite (word_path_relation lhs rhs Hl Hr Wr Hw operation m Hc E1).
      symmetry. by apply reference_relation.
    + destruct (known_path operation lhs rhs) as [m|] eqn:E2; [|done].
      pose proof (not_word_path operation m E2 E1) as Hnine.
      pose proof (known_path_spec lhs rhs operation m E2) as (l & r & El & Er & _ & Hv & _).
      assert (is_comparison operation = true) as Hc
        by (unfold relational in Hrel; by rewrite bool_decide_eq_false_2, orb_false_r in Hrel).
      rewrite (known_path_relation lhs rhs Hl Hr Wr Hw operation m Hc E2). symmetry.
      destruct (decide (operation = case_equal)) as [->|Hne]; [by apply (known_path_case_equal l r)|].
      apply reference_relation; try done. by intros [?|?].
  - assert (reference_value operation = vector_reference operation) as -> by by destruct operation.
    pose proof (vector_reference_spec lhs rhs Hl Hr Wr Hw operation Hpow) as Href.
    destruct (word_path operation lhs rhs) as [m|] eqn:E1.
    + eapply returns_Rep_eq; [by apply word_path_vector|exact Href].
    + destruct (known_path operation lhs rhs) as [m|] eqn:E2; [|done].
      eapply returns_Rep_eq; [apply known_path_vector; try done; by eapply not_word_path|exact Href].
Qed.
End main.
