(* ===== verification/SimirLogic.v ===== *)
(** * Packed logic, shifts and selects

    Model of src/runtime/simir_logic.cpp: negation, truth values, reductions
    and counts, shifts and rotations, part selects with constant and runtime
    bounds, and concatenation of packed values; and of [index_distance] of
    include/fsim/support/index_distance.hpp. *)
From S2P Require Import Prelude Logic WordSpan LogicWord PackedLogic4 PackedRange PackedConvert.
From S2P Require Import PackedNumeric KernelWord SimirArithmetic.
Ltac Zify.zify_post_hook ::= Z.div_mod_to_equations.

Definition unary_not (source : PackedLogic4) : Outcome PackedLogic4 :=
  match kw_known_bits source with
  | Some bits =>
      let w := width source in
      let inverted := Z.land (not64 bits) (kw_mask w) in
      if is_logic9 source then kw_logic9_known inverted w else from_aval_bval w inverted 0
  | None =>
      result ← make (width source) Logic4_x;
      result ← (if is_logic9 source then fill9 result Logic9_u else Ok result);
      foreach (up 0 (width source)) (fun index result =>
        if is_logic9 source then
          element ← get_logic9 source index; set_logic9 result index (logic_not9 element)
        else
          element ← get source index; set result index (logic_not4 element)) result
  end.

Definition truth_value (source : PackedLogic4) : Outcome Logic4 :=
  after_loop (foreach_flow (up 0 (width source)) (fun index (has_unknown : bool) =>
    value ← get source index;
    Ok (if logic4_eqb value Logic4_one then inr Logic4_one
        else inl (has_unknown || is_unknown value))) false)
    (fun has_unknown => Ok (if has_unknown : bool then Logic4_x else Logic4_zero)).

Definition logical_not (source : PackedLogic4) : Outcome PackedLogic4 :=
  truth ← truth_value source;
  make 1 (logic_not4 truth).

Definition logical_binary (operation : LogicalBinaryOperator) (lhs rhs : PackedLogic4)
    : Outcome PackedLogic4 :=
  left ← truth_value lhs;
  right ← truth_value rhs;
  make 1 (match operation with
          | logical_and => logic_and4 left right
          | logical_or => logic_or4 left right
          end).

(** The loop condition [one_count < 2] leaves the loop early. *)
Definition reduce_value (operation : ReductionOperator) (source : PackedLogic4) : Outcome PackedLogic4 :=
  match operation with
  | one_hot | one_hot_or_zero =>
      scan ← foreach_flow (up 0 (width source)) (fun index one_count =>
        if one_count <? 2 then
          bit ← get source index;
          Ok (inl (if logic4_eqb bit Logic4_one then one_count + 1 else one_count))
        else Ok (inr one_count)) 0;
      let one_count := match scan with inl count => count | inr count => count end in
      let matched := match operation with one_hot => one_count =? 1 | _ => one_count <=? 1 end in
      make 1 (if matched then Logic4_one else Logic4_zero)
  | _ =>
      let initial := match operation with reduce_and => Logic4_one | _ => Logic4_zero end in
      result ← foreach (up 0 (width source)) (fun index result =>
        bit ← get source index;
        Ok (match operation with
            | reduce_and => logic_and4 result bit
            | reduce_or => logic_or4 result bit
            | _ => logic_xor4 result bit
            end)) initial;
      make 1 result
  end.

(** The final loop of the counting functions: a 32-bit vector of [count]. *)
Definition count_vector (count : Z) : Outcome PackedLogic4 :=
  result ← make 32 Logic4_zero;
  foreach (up 0 32) (fun bit result =>
    set result bit (if negb (Z.land (Z.shiftr count bit) 1 =? 0) then Logic4_one else Logic4_zero))
    result.

Definition count_ones_value (source : PackedLogic4) : Outcome PackedLogic4 :=
  count ← foreach (up 0 (width source)) (fun index count =>
    bit ← get source index;
    Ok (if logic4_eqb bit Logic4_one then wrap32 (count + 1) else count)) 0;
  count_vector count.

Definition count_bits_value (source : PackedLogic4) (state_mask : Z) : Outcome PackedLogic4 :=
  count ← foreach (up 0 (width source)) (fun index count =>
    bit ← get source index;
    Ok (if negb (Z.land state_mask (Z.shiftl 1 (logic4_code bit)) =? 0)
        then wrap32 (count + 1) else count)) 0;
  count_vector count.

Definition reverse_shift (operation : ShiftOperator) : ShiftOperator :=
  match operation with
  | logical_left => logical_right
  | logical_right => logical_left
  | arithmetic_left => arithmetic_right
  | arithmetic_right => arithmetic_left
  | rotate_left => rotate_right
  | rotate_right => rotate_left
  end.

Definition is_rotation (operation : ShiftOperator) : bool :=
  match operation with rotate_left | rotate_right => true | _ => false end.

(** Two's complement negation of a shift amount. *)
Definition negated_amount (amount_value : PackedLogic4) : Outcome PackedLogic4 :=
  magnitude ← make (width amount_value) Logic4_zero;
  mc ← foreach (up 0 (width amount_value)) (fun index (mc : PackedLogic4 * bool) =>
    let '(magnitude, carry) := mc in
    bit ← get amount_value index;
    let inverted := logic4_eqb bit Logic4_zero in
    magnitude ← set magnitude index (logic4_of_bool (xorb inverted carry));
    Ok (magnitude, inverted && carry)) (magnitude, true);
  Ok (fst mc).

(** The distance to move: the amount modulo the width for a rotation, the
    amount or, when it reaches the width, at least the width otherwise.  The
    state is [(amount, rotate_bit)]. *)
Definition shift_distance (rotating : bool) (w : Z) (magnitude : PackedLogic4) : Outcome Z :=
  scan ← foreach_flow (up 0 (width magnitude)) (fun index (ar : Z * Z) =>
    let '(amount, rotate_bit) := ar in
    bit ← get magnitude index;
    if rotating then
      let amount :=
        if logic4_eqb bit Logic4_one then
          (if amount >=? w - rotate_bit then amount - (w - rotate_bit) else amount + rotate_bit)
        else amount in
      let rotate_bit :=
        if rotate_bit >=? w - rotate_bit then rotate_bit - (w - rotate_bit)
        else rotate_bit + rotate_bit in
      Ok (inl (amount, rotate_bit))
    else if logic4_eqb bit Logic4_one then
      if (index >=? 64) || (shl64 1 index >=? w) then Ok (inr w)
      else Ok (inl (Z.lor amount (shl64 1 index), rotate_bit))
    else Ok (inl (amount, rotate_bit))) (0, 1 mod w);
  Ok (match scan with inl (amount, _) => amount | inr amount => amount end).

(** [result.insert_bits(value.extract_bits(low, width), offset)] *)
Definition move_bits (value result : PackedLogic4) (low w offset : Z) : Outcome PackedLogic4 :=
  part ← extract_bits value low w;
  insert_bits result part offset.

(** The element-by-element half of [shift_value]. *)
Definition shift_reference (operation : ShiftOperator) (value amount_value : PackedLogic4)
    (signed_amount : bool) : Outcome PackedLogic4 :=
  unknown ← has_unknown amount_value;
  if unknown : bool then make (width value) Logic4_x
  else
    negative ← (if signed_amount
                then (top ← get amount_value (width amount_value - 1); Ok (logic4_eqb top Logic4_one))
                else Ok false);
    let operation := if negative : bool then reverse_shift operation else operation in
    magnitude ← (if negative then negated_amount amount_value else Ok (copy amount_value));
    amount ← shift_distance (is_rotation operation) (width value) magnitude;
    fill ← match operation with
           | arithmetic_right => get value (width value - 1)
           | arithmetic_left => get value 0
           | _ => Ok Logic4_zero
           end;
    result ← make (width value) fill;
    result ← (if is_logic9 value then
                logic9_fill ← match operation with
                              | arithmetic_right => get_logic9 value (width value - 1)
                              | arithmetic_left => get_logic9 value 0
                              | _ => Ok Logic9_zero
                              end;
                fill9 result logic9_fill
              else Ok result);
    if amount >=? width value then Ok result
    else if amount =? 0 then Ok (copy value)
    else
      let kept := width value - amount in
      match operation with
      | rotate_left =>
          result ← move_bits value result 0 kept amount;
          move_bits value result kept amount 0
      | rotate_right =>
          result ← move_bits value result amount kept 0;
          move_bits value result 0 amount kept
      | logical_left | arithmetic_left => move_bits value result 0 kept amount
      | _ => move_bits value result amount kept 0
      end.

Definition shift_value (operation : ShiftOperator) (value amount_value : PackedLogic4)
    (signed_amount : bool) : Outcome PackedLogic4 :=
  let reference := shift_reference operation value amount_value signed_amount in
  if negb (width value =? 0) && (width value <=? 64)
     && negb (width amount_value =? 0) && (width amount_value <=? 64)
     && negb (is_logic9 amount_value) then
    let w := width value in
    let amount_width := width amount_value in
    let amount := mkWord (front (aval_words amount_value)) (front (bval_words amount_value)) in
    if negb (is_logic9 value) then
      let result := kw_shift operation (mkWord (front (aval_words value)) (front (bval_words value)))
                      w amount amount_width signed_amount in
      from_aval_bval w (word_a result) (word_b result)
    else
      match kw_known_bits value with
      | Some bits =>
          if Z.land (word_b amount) (kw_mask amount_width) =? 0 then
            let result := kw_shift operation (mkWord bits 0) w amount amount_width signed_amount in
            kw_logic9_known (word_a result) w
          else reference
      | None => reference
      end
  else reference.

(** ** Selects *)

Definition extract_value (source : PackedLogic4) (offset w : Z) : Outcome PackedLogic4 :=
  extract_bits source offset w.

Definition insert_value (target source : PackedLogic4) (offset : Z) : Outcome PackedLogic4 :=
  insert_bits target source offset.

Definition index_distance (left right : Z) : Z :=
  if left >=? right then sub64 (wrap64 left) (wrap64 right) else sub64 (wrap64 right) (wrap64 left).

(** A 32-bit pattern read as a signed index. *)
Definition signed_raw (raw : Z) : Z := if raw <=? 2 ^ 31 - 1 then raw else raw - 2 ^ 32.

Definition unknown_index : exception :=
  invalid_argument "dynamic packed index contains an unknown or high-impedance value".
Definition index_outside : exception :=
  invalid_argument "dynamic packed index is outside the declared range: index ".
Definition offset_not_representable : exception :=
  invalid_argument "dynamic packed index offset is not representable".

Definition dynamic_index_offset (index : PackedLogic4) (selection : DynamicIndex) : Outcome Z :=
  if negb (width index =? 32)
  then Throw (invalid_argument "dynamic packed index must use the signed 32-bit representation")
  else
    raw ← foreach (up 0 32) (fun bit raw =>
      value ← get index bit;
      if is_unknown value then Throw unknown_index
      else Ok (if logic4_eqb value Logic4_one then Z.lor raw (wrap32 (Z.shiftl 1 bit)) else raw)) 0;
    let signed_index := signed_raw raw in
    let lower := Z.min (di_left selection) (di_right selection) in
    let upper := Z.max (di_left selection) (di_right selection) in
    if (signed_index <? lower) || (signed_index >? upper) then Throw index_outside
    else
      let offset := if signed_index >=? di_right selection
                    then wrap64 (signed_index - di_right selection)
                    else wrap64 (di_right selection - signed_index) in
      if offset >? U32_MAX - di_base_offset selection then Throw offset_not_representable
      else Ok (di_base_offset selection + offset).

(** Reading a 32-bit base element by element; [None] when it is not known. *)
Definition raw_base (base : PackedLogic4) : Outcome (option Z) :=
  scan ← foreach_flow (up 0 32) (fun bit raw =>
    value ← get base bit;
    Ok (if is_unknown value then inr tt
        else inl (if logic4_eqb value Logic4_one then Z.lor raw (wrap32 (Z.shiftl 1 bit)) else raw))) 0;
  Ok (match scan with inl raw => Some raw | inr _ => None end).

Definition dynamic_part_select_value (source base : PackedLogic4) (left right base_offset w : Z)
    (increasing source_descending two_state : bool) : Outcome PackedLogic4 :=
  if negb (width base =? 32) || (w =? 0)
  then Throw (invalid_argument
    "dynamic part-select requires a signed 32-bit base and a nonzero fixed width")
  else
    result ← make w (if two_state then Logic4_zero else Logic4_x);
    result ← (if is_logic9 source then fill9 result Logic9_x else Ok result);
    raw ← raw_base base;
    match raw with
    | None => Ok result
    | Some raw =>
        let signed_base := signed_raw raw in
        let lower := Z.min left right in
        let upper := Z.max left right in
        let selected_right := selected_right_of signed_base w increasing source_descending in
        foreach (up 0 w) (fun bit result =>
          let selected := selected_index selected_right bit source_descending in
          if (selected <? lower) || (selected >? upper) then Ok result
          else
            let offset := index_distance selected right in
            if (offset >? U32_MAX - base_offset) || (add64 base_offset offset >=? width source)
            then Ok result
            else
              let source_offset := base_offset + offset in
              if is_logic9 source then
                element ← get_logic9 source source_offset; set_logic9 result bit element
              else
                element ← get source source_offset; set result bit element) result
    end.

Record DynamicPartWrite := mkDynamicPartWrite { dpw_value : PackedLogic4; dpw_offset : Z }.

Definition part_offset_not_representable : exception :=
  invalid_argument "dynamic part-select write offset is not representable".
Definition part_not_contiguous : exception :=
  invalid_argument "dynamic part-select write intersection is not contiguous".

Definition dynamic_part_write_value (source base : PackedLogic4) (selection : DynamicPartIndex)
    : Outcome (option DynamicPartWrite) :=
  if negb (width base =? 32) || (dpi_width selection =? 0)
     || negb (width source =? dpi_width selection)
  then Throw (invalid_argument
    "dynamic part-select write requires a signed 32-bit base and a matching nonzero fixed width")
  else
    raw ← match known_unsigned_value base with
          | Some known => Ok (Some (wrap32 known))
          | None => if negb (is_logic9 base) then Ok None else raw_base base
          end;
    match raw with
    | None => Ok None
    | Some raw =>
        let signed_base := signed_raw raw in
        let lower := Z.min (dpi_left selection) (dpi_right selection) in
        let upper := Z.max (dpi_left selection) (dpi_right selection) in
        let selected_right := selected_right_of signed_base (dpi_width selection)
                                (dpi_increasing selection) (dpi_source_descending selection) in
        scan ← foreach (up 0 (dpi_width selection)) (fun bit (s : option (Z * Z) * Z) =>
          let '(first, selected_width) := s in
          let selected := selected_index selected_right bit (dpi_source_descending selection) in
          if (selected <? lower) || (selected >? upper) then Ok s
          else
            let offset := index_distance selected (dpi_right selection) in
            if offset >? U32_MAX then Throw part_offset_not_representable
            else
              match first with
              | None =>
                  if offset >? U32_MAX - dpi_base_offset selection
                  then Throw part_offset_not_representable
                  else Ok (Some (bit, wrap32 (dpi_base_offset selection + offset)), selected_width + 1)
              | Some (first_source_bit, first_target_offset) =>
                  if negb (bit =? wrap32 (first_source_bit + selected_width))
                     || negb (add64 (dpi_base_offset selection) offset
                              =? wrap32 (first_target_offset + selected_width))
                  then Throw part_not_contiguous
                  else Ok (first, selected_width + 1)
              end) (None, 0);
        match scan with
        | (None, _) => Ok None
        | (Some (first_source_bit, first_target_offset), selected_width) =>
            value ← extract_value source first_source_bit selected_width;
            Ok (Some (mkDynamicPartWrite value first_target_offset))
        end
    end.

Definition dynamic_part_insert_value (target source base : PackedLogic4)
    (selection : DynamicPartIndex) : Outcome PackedLogic4 :=
  write ← dynamic_part_write_value source base selection;
  match write with
  | None => Ok target
  | Some write => insert_value target (dpw_value write) (dpw_offset write)
  end.

(** ** Concatenation *)

Definition concatenate_values (operands : list PackedLogic4) (expected_width : Z)
    : Outcome PackedLogic4 :=
  if bool_decide (operands = []) then
    Throw (invalid_argument "concatenation requires at least one operand")
  else
    w ← foreach operands (fun operand w =>
      if width operand >? SIZE_MAX - w then Throw (invalid_argument "concatenation width overflows")
      else Ok (w + width operand)) 0;
    if (w =? 0) || negb (w =? expected_width)
    then Throw (invalid_argument "concatenation operand widths do not match its result width")
    else
      result ← make w Logic4_zero;
      result ← (if existsb is_logic9 operands then fill9 result Logic9_u else Ok result);
      ro ← foreach (rev operands) (fun operand (ro : PackedLogic4 * Z) =>
        let '(result, offset) := ro in
        result ← (if negb (width operand =? 0) then insert_bits result operand offset else Ok result);
        Ok (result, offset + width operand)) (result, 0);
      Ok (fst ro).
