(* ===== verification/LogicEquivalence.v ===== *)
(** * Correctness of the packed logic operators

    Element-wise meaning of negation, truth values, reductions, counts and the
    conditional operator of [SimirLogic] and [SimirArithmetic], and agreement
    of the word operations of [KernelWord] with them. *)
From S2P Require Import Prelude Logic WordSpan LogicWord PackedLogic4 PackedRange PackedConvert.
From S2P Require Import PackedNumeric KernelWord SimirArithmetic SimirLogic RippleArithmetic.
From S2P Require Import BinaryEquivalence KernelEquivalence.
Ltac Zify.zify_post_hook ::= Z.div_mod_to_equations.

(** * Counting *)

(** A word with no bit above [w] is counted below [w]. *)
Lemma popcount_spec x w (p : Z -> bool) : 0 <= w <= 64 ->
  (forall i, 0 <= i < w -> Z.testbit x i = p i) -> (forall i, w <= i -> Z.testbit x i = false) ->
  popcount x = count_up p w.
Proof.
  intros Hw Hp Hh. transitivity (count_up (Z.testbit x) w); [|by apply count_up_ext].
  unfold popcount.
  assert (forall n, w <= n -> count_up (Z.testbit x) n = count_up (Z.testbit x) w) as H; [|apply H; lia].
  intros n Hn. replace n with (w + (n - w)) by lia. assert (0 <= n - w) as Hd by lia. revert Hd.
  generalize (n - w) as d. intros d Hd. pattern d. apply natlike_ind; [|intros m Hm IH|done].
  - by rewrite Z.add_0_r.
  - replace (w + Z.succ m) with (w + m + 1) by lia. rewrite count_up_succ, IH, Hh by lia. simpl. lia.
Qed.

Lemma existsb_up_succ p n : 0 <= n -> existsb p (up 0 (n + 1)) = existsb p (up 0 n) || p n.
Proof.
  intros Hn. rewrite (up_snoc 0 (n + 1)), existsb_app by lia. simpl.
  by replace (n + 1 - 1) with n by lia; rewrite orb_false_r.
Qed.

(** * Negation *)

Definition not_element (v : PackedLogic4) (i : Z) : Logic9 :=
  if is_logic9 v then logic_not9 (at9 v i) else to_logic9 (logic_not4 (at4 v i)).

Lemma unary_not_loop v result f :
  wf v -> Rep result (width v) (is_logic9 v) f ->
  returns (foreach (up 0 (width v)) (fun index result =>
        if is_logic9 v then
          element ← get_logic9 v index; set_logic9 result index (logic_not9 element)
        else
          element ← get v index; set result index (logic_not4 element)) result)
    (fun r => Rep r (width v) (is_logic9 v) (not_element v)).
Proof.
  intros Hv Hres. pose proof (wf_width _ Hv). eapply element_loop; [lia|exact Hres|].
  intros i r h Hi R _. unfold not_element.
  destruct (is_logic9 v); rewrite ?get_logic9_ok, ?get_ok by lia; cbn [mbind outcome_bind].
  - by apply Rep_set9.
  - by apply Rep_set.
Qed.

(** Negation negates every element, through the word path or the loop. *)
Lemma unary_not_spec v : wf v ->
  returns (unary_not v) (fun r => Rep r (width v) (is_logic9 v) (not_element v)).
Proof.
  intros Hv. pose proof (wf_width _ Hv). unfold unary_not.
  destruct (kw_known_bits v) as [n|] eqn:En.
  - destruct (kw_known_bits_spec v n Hv En) as (Hw & Hb & Hat). rewrite land_kw_mask by done.
    assert (forall i, 0 <= i < width v ->
      number (not64 n mod 2 ^ width v) i = not_element v i) as Hnot.
    { intros i Hi. unfold number, not_element. rewrite Z.mod_pow2_bits_low, testbit_not64 by lia.
      rewrite (proj2 (Z.ltb_lt i 64)), (known_bits_at4 v n Hv En), Hat by lia. unfold number.
      destruct (is_logic9 v), (Z.testbit n i); done. }
    destruct (is_logic9 v) eqn:E.
    + eapply returns_mono; [by apply kw_logic9_known_spec|]. intros r HR. eapply Rep_ext; [exact HR|exact Hnot].
    + eapply returns_mono; [by apply from_aval_bval_spec|]. intros r HR. eapply Rep_ext; [exact HR|].
      intros i Hi. cbv beta. rewrite Z.bits_0, <- Hnot by done. unfold number.
      by destruct (Z.testbit (not64 n mod 2 ^ width v) i).
  - apply returns_bind. eapply returns_mono; [apply make_spec; lia|]. intros r0 R0.
    apply returns_bind. eapply (returns_mono _ (fun r => exists f, Rep r (width v) (is_logic9 v) f)).
    { pose proof R0 as [R1 R2 R3 R4 R5]. destruct (is_logic9 v); [|eexists; exact R0].
      eapply returns_mono; [by apply fill9_spec|]. rewrite R2. intros r Hr. eexists. exact Hr. }
    intros r1 [f R1]. by eapply unary_not_loop.
Qed.

(** The word negation packs to the same value. *)
Lemma kw_unary_not_spec v : wf v -> is_logic9 v = false -> 0 < width v <= 64 ->
  let x := kw_unary_not (word_of v) (width v) in
  returns (from_aval_bval (width v) (word_a x) (word_b x))
    (fun r => Rep r (width v) false (fun i => to_logic9 (logic_not4 (at4 v i)))).
Proof.
  intros Hv Hn Hw x. destruct (word_of_rep v Hv Hn Hw) as [_ _ Ba Bb].
  apply (pack_rep (width v) x (fun i => logic_not4 (at4 v i))); [done|..]; intros i Hi; subst x; simpl;
    autorewrite with fsim_bits; rewrite (mask_in _ Hw i Hi), ?(proj2 (Z.ltb_lt i 64)) by lia;
    simpl in Ba, Bb; rewrite ?Ba, ?Bb by done; by destruct (at4 v i).
Qed.

(** * Truth values *)

Definition truth_of (w : Z) (f : Z -> Logic4) : Logic4 :=
  if existsb (fun i => logic4_eqb (f i) Logic4_one) (up 0 w) then Logic4_one
  else if existsb (fun i => is_unknown (f i)) (up 0 w) then Logic4_x else Logic4_zero.

Lemma truth_value_spec v : wf v -> truth_value v = Ok (truth_of (width v) (at4 v)).
Proof.
  intros Hv. pose proof (wf_width _ Hv). unfold truth_value, truth_of. set (w := width v) in *.
  apply returns_eq. unfold after_loop. apply returns_bind.
  set (ones := fun i => logic4_eqb (at4 v i) Logic4_one). set (unk := fun i => is_unknown (at4 v i)).
  eapply returns_mono; [apply (foreach_flow_up
    (fun i (u : bool) => existsb ones (up 0 i) = false /\ u = existsb unk (up 0 i))
    (fun q => existsb ones (up 0 w) = true /\ q = Logic4_one))|].
  - intros i u Hi [Ho ->]. rewrite get_ok by (fold w; lia). cbn [mbind outcome_bind returns].
    fold (ones i). fold (unk i). destruct (ones i) eqn:E.
    + split; [|done]. apply existsb_up. by exists i.
    + rewrite !existsb_up_succ, Ho, E by lia. done.
  - lia.
  - done.
  - intros [u|q]; cbn [returns].
    + intros [-> ->]. by destruct (existsb unk (up 0 w)).
    + by intros [-> ->].
Qed.

Lemma kw_truth_spec x w f : 0 < w <= 64 -> WordRep x w f -> kw_truth x = truth_of w f.
Proof.
  intros Hw Hx. unfold kw_truth, truth_of.
  rewrite (word_nonzero w (Z.land (word_a x) (not64 (word_b x))) (fun i => logic4_eqb (f i) Logic4_one)).
  - rewrite (word_nonzero w (word_b x) (fun i => is_unknown (f i))); [done|lia| |].
    + intros i Hi. rewrite (word_b_bit _ _ _ Hx) by done. by destruct (f i).
    + intros i Hi. apply (testbit_high _ w); [apply Hx|lia].
  - lia.
  - intros i Hi. autorewrite with fsim_bits. rewrite (proj2 (Z.ltb_lt i 64)) by lia.
    rewrite (word_a_bit _ _ _ Hx), (word_b_bit _ _ _ Hx) by done. by destruct (f i).
  - intros i Hi. rewrite Z.land_spec, (testbit_high (word_a x) w) by (apply Hx || lia). done.
Qed.

(** * Reductions *)

(** What a reduction of the elements below [w] yields. *)
Definition reduction_of (operation : ReductionOperator) (w : Z) (f : Z -> Logic4) : Logic4 :=
  let ones := count_up (fun i => logic4_eqb (f i) Logic4_one) w in
  let some_zero := existsb (fun i => logic4_eqb (f i) Logic4_zero) (up 0 w) in
  let some_one := existsb (fun i => logic4_eqb (f i) Logic4_one) (up 0 w) in
  let some_unknown := existsb (fun i => is_unknown (f i)) (up 0 w) in
  match operation with
  | one_hot => logic4_of_bool (ones =? 1)
  | one_hot_or_zero => logic4_of_bool (ones <=? 1)
  | reduce_and => if some_zero then Logic4_zero else if some_unknown then Logic4_x else Logic4_one
  | reduce_or => if some_one then Logic4_one else if some_unknown then Logic4_x else Logic4_zero
  | reduce_xor => if some_unknown then Logic4_x else logic4_of_bool (Z.odd ones)
  end.

Lemma reduce_fold_spec operation v :
  wf v -> operation <> one_hot -> operation <> one_hot_or_zero ->
  foreach (up 0 (width v)) (fun index result =>
    bit ← get v index;
    Ok (match operation with
        | reduce_and => logic_and4 result bit
        | reduce_or => logic_or4 result bit
        | _ => logic_xor4 result bit
        end)) (match operation with reduce_and => Logic4_one | _ => Logic4_zero end)
  = Ok (reduction_of operation (width v) (at4 v)).
Proof.
  intros Hv H1 H2. pose proof (wf_width _ Hv). apply returns_eq.
  eapply returns_mono; [apply (foreach_up (fun i s => s = reduction_of operation i (at4 v)))|].
  - intros i s Hi ->. rewrite get_ok by lia. cbn [mbind outcome_bind returns].
    unfold reduction_of. rewrite !existsb_up_succ, count_up_succ by lia.
    destruct operation; try done.
    + destruct (existsb _ _), (existsb _ _), (at4 v i); done.
    + destruct (existsb _ _), (existsb _ _), (at4 v i); done.
    + destruct (existsb (fun i => is_unknown (at4 v i)) _), (at4 v i); simpl; try done;
        rewrite ?Z.add_0_r, ?Z.odd_add; by destruct (Z.odd _).
  - lia.
  - by destruct operation.
  - by intros s ->.
Qed.

Lemma reduce_value_spec operation v : wf v ->
  reduce_value operation v = make 1 (reduction_of operation (width v) (at4 v)).
Proof.
  intros Hv. pose proof (wf_width _ Hv).
  assert (forall op, op = one_hot \/ op = one_hot_or_zero ->
    reduce_value op v = make 1 (reduction_of op (width v) (at4 v))) as Hhot.
  { intros op Hop. set (ones := count_up (fun i => logic4_eqb (at4 v i) Logic4_one)).
    assert (returns (foreach_flow (up 0 (width v)) (fun index one_count =>
        if one_count <? 2 then
          bit ← get v index;
          Ok (inl (if logic4_eqb bit Logic4_one then one_count + 1 else one_count))
        else Ok (inr one_count)) 0) (fun r => match r with
      | inl c => c = ones (width v)
      | inr c => 2 <= c /\ 2 <= ones (width v) end)) as Hscan.
    { apply (foreach_flow_up (fun i c => c = ones i) (fun c => 2 <= c /\ 2 <= ones (width v))); [|lia|done].
      intros i c Hi ->. destruct (Z.ltb_spec (ones i) 2); cbn [returns].
      - rewrite get_ok by lia. cbn [mbind outcome_bind returns]. unfold ones.
        rewrite count_up_succ by lia. destruct (logic4_eqb (at4 v i) Logic4_one); simpl; lia.
      - pose proof (count_up_mono (fun i => logic4_eqb (at4 v i) Logic4_one) i (width v) ltac:(lia)).
        unfold ones in *. lia. }
    destruct (returns_inv _ _ Hscan) as (r & Er & HQ).
    destruct Hop as [-> | ->]; unfold reduce_value, reduction_of; rewrite Er; cbn [mbind outcome_bind];
      unfold logic4_of_bool; fold (ones (width v)); do 2 f_equal; destruct r as [c|c];
      try (by subst c); cases_ltb; done || lia. }
  pose proof (reduce_fold_spec operation v Hv) as Hfold.
  destruct operation; try (apply Hhot; by auto); unfold reduce_value; cbv beta iota zeta in Hfold |- *;
    by rewrite Hfold.
Qed.

Lemma kw_reduce_spec operation x w f : 0 < w <= 64 -> WordRep x w f ->
  kw_reduce operation x w = kw_scalar (reduction_of operation w f).
Proof.
  intros Hw Hx. unfold kw_reduce, reduction_of. cbv zeta.
  assert (forall i, w <= i -> Z.testbit (word_a x) i = false /\ Z.testbit (word_b x) i = false) as Hhigh.
  { intros i Hi. split; apply (testbit_high _ w); try apply Hx; lia. }
  assert (forall i, 0 <= i < w -> Z.testbit (Z.land (Z.land (word_a x) (not64 (word_b x))) (kw_mask w)) i
    = logic4_eqb (f i) Logic4_one) as Hones.
  { intros i Hi. autorewrite with fsim_bits. rewrite (mask_in _ Hw i Hi), (proj2 (Z.ltb_lt i 64)) by lia.
    rewrite (word_a_bit _ _ _ Hx), (word_b_bit _ _ _ Hx) by done. by destruct (f i). }
  assert (forall i y, w <= i -> Z.testbit (Z.land y (kw_mask w)) i = false) as Habove.
  { intros i y Hi. rewrite Z.land_spec, (mask_above _ Hw i Hi). apply andb_false_r. }
  rewrite (popcount_spec _ w (fun i => logic4_eqb (f i) Logic4_one)) by (done || lia || (intros; auto)).
  rewrite (word_nonzero w (Z.land (Z.land (word_a x) (not64 (word_b x))) (kw_mask w))
    (fun i => logic4_eqb (f i) Logic4_one)) by (done || lia || (intros; auto)).
  rewrite (word_nonzero w (Z.land (Z.land (not64 (word_a x)) (not64 (word_b x))) (kw_mask w))
    (fun i => logic4_eqb (f i) Logic4_zero)); [|lia| |by intros; apply Habove].
  2:{ intros i Hi. autorewrite with fsim_bits. rewrite (mask_in _ Hw i Hi), (proj2 (Z.ltb_lt i 64)) by lia.
      rewrite (word_a_bit _ _ _ Hx), (word_b_bit _ _ _ Hx) by done. by destruct (f i). }
  rewrite (word_nonzero w (Z.land (word_b x) (kw_mask w)) (fun i => is_unknown (f i)));
    [|lia| |by intros; apply Habove].
  2:{ intros i Hi. rewrite Z.land_spec, (mask_in _ Hw i Hi), (word_b_bit _ _ _ Hx) by done.
      by destruct (f i). }
  assert (forall n, 0 <= n -> negb (Z.land n 1 =? 0) = Z.odd n) as Hodd.
  { intros n Hn. rewrite <- Z.bit0_odd, <- (code_bit_testbit n 0) by lia. unfold code_bit.
    by rewrite Z.shiftr_0_r. }
  rewrite Hodd by (apply count_up_bounds; lia).
  destruct operation; try done; destruct (existsb _ _); done.
Qed.

(** * Counts *)

Lemma count_vector_spec n : returns (count_vector n) (fun r => Num r 32 n).
Proof.
  unfold count_vector. apply returns_bind. eapply returns_mono; [by apply make_spec|].
  intros r0 R0%Num_zero.
  eapply returns_mono; [apply (foreach_up (fun i r => Rep r 32 false (mixed n 0 i)))|].
  - intros i r Hi R. apply set_mixed; [done|done|]. by rewrite shiftr_and_one by lia.
  - lia.
  - by apply mixed_start.
  - intros r R. exact (mixed_end _ _ _ _ R).
Qed.

Lemma count_loop v (p : Logic4 -> bool) : wf v ->
  foreach (up 0 (width v)) (fun index count =>
    bit ← get v index; Ok (if p bit then wrap32 (count + 1) else count)) 0
  = Ok (wrap32 (count_up (fun i => p (at4 v i)) (width v))).
Proof.
  intros Hv. pose proof (wf_width _ Hv). apply returns_eq.
  eapply returns_mono; [apply (foreach_up (fun i c => c = wrap32 (count_up (fun i => p (at4 v i)) i)))|].
  - intros i c Hi ->. rewrite get_ok by lia. cbn [mbind outcome_bind returns].
    rewrite count_up_succ by lia. unfold wrap32. destruct (p (at4 v i)); simpl Z.b2z.
    + by rewrite Zplus_mod_idemp_l.
    + by rewrite Z.add_0_r.
  - lia.
  - done.
  - by intros c ->.
Qed.

(** [$countones]: the number of ones as a 32-bit two-state vector. *)
Lemma count_ones_value_spec v : wf v ->
  returns (count_ones_value v)
    (fun r => Num r 32 (count_up (one_at v) (width v))).
Proof.
  intros Hv. unfold count_ones_value.
  rewrite (count_loop v (fun bit => logic4_eqb bit Logic4_one)) by done. cbn [mbind outcome_bind].
  eapply returns_mono; [apply count_vector_spec|]. intros r HR. eapply Num_mod; [lia|exact HR|].
  unfold wrap32. by rewrite Z.mod_mod.
Qed.

(** [$countbits]: the number of elements whose state the mask selects. *)
Lemma count_bits_value_spec v state_mask : wf v ->
  returns (count_bits_value v state_mask)
    (fun r => Num r 32 (count_up (fun i => Z.testbit state_mask (logic4_code (at4 v i))) (width v))).
Proof.
  intros Hv. unfold count_bits_value.
  rewrite (count_loop v (fun bit => negb (Z.land state_mask (Z.shiftl 1 (logic4_code bit)) =? 0))) by done.
  cbn [mbind outcome_bind]. eapply returns_mono; [apply count_vector_spec|]. intros r HR.
  rewrite (count_up_ext _ (fun i => Z.testbit state_mask (logic4_code (at4 v i)))) in HR.
  - eapply Num_mod; [lia|exact HR|]. unfold wrap32. by rewrite Z.mod_mod.
  - intros i Hi. rewrite <- (testbit_set state_mask (logic4_code (at4 v i)))
      by (destruct (at4 v i); simpl; lia). by destruct (at4 v i).
Qed.

(** * The conditional operator *)

Definition merged (a b : Logic4) : Logic4 :=
  if logic4_eqb a b && negb (is_unknown a) then a else Logic4_x.

Lemma conditional_unknown condition t e :
  wf condition -> width condition = 1 -> wf t -> wf e -> width e = width t ->
  is_unknown (at4 condition 0) = true ->
  returns (conditional_value condition t e)
    (fun r => Rep r (width t) false (fun i => to_logic9 (merged (at4 t i) (at4 e i)))).
Proof.
  intros Hc Wc Ht He We Hu. pose proof (wf_width _ Ht). unfold conditional_value.
  rewrite Wc, We, !Z.eqb_refl. cbn [negb]. rewrite get_ok by lia. cbn [mbind outcome_bind].
  assert (logic4_eqb (at4 condition 0) Logic4_one = false /\ logic4_eqb (at4 condition 0) Logic4_zero = false)
    as [-> ->] by by destruct (at4 condition 0).
  apply returns_bind. eapply returns_mono; [apply make_spec; lia|]. intros r0 R0.
  rewrite (rep_width _ _ _ _ R0).
  eapply element_loop; [lia|exact R0|]. intros i r h Hi R Hx. cbv beta in Hx |- *.
  rewrite !get_ok by lia. cbn [mbind outcome_bind]. unfold merged.
  assert (logic4_eqb (at4 t i) Logic4_zero || logic4_eqb (at4 t i) Logic4_one
    = negb (is_unknown (at4 t i))) as -> by by destruct (at4 t i).
  destruct (logic4_eqb (at4 t i) (at4 e i) && negb (is_unknown (at4 t i))).
  - by apply Rep_set.
  - by apply Rep_keep.
Qed.

Lemma conditional_known condition t e :
  wf condition -> width condition = 1 -> width e = width t -> is_unknown (at4 condition 0) = false ->
  conditional_value condition t e = Ok (if one_at condition 0 then copy t else copy e).
Proof.
  intros Hc Wc We Hu. unfold conditional_value. rewrite Wc, We, !Z.eqb_refl. cbn [negb].
  rewrite get_ok by lia. cbn [mbind outcome_bind]. unfold one_at. by destruct (at4 condition 0).
Qed.

(** The word conditional packs to what the element code returns. *)
Lemma kw_conditional_reference condition t e :
  wf condition -> width condition = 1 -> is_logic9 condition = false ->
  wf t -> wf e -> width e = width t -> 0 < width t <= 64 -> is_logic9 t = false -> is_logic9 e = false ->
  let r := kw_conditional (word_of condition) (word_of t) (word_of e) (width t) in
  from_aval_bval (width t) (word_a r) (word_b r) = conditional_value condition t e.
Proof.
  intros Hc Wc Nc Ht He We Hw Nt Ne r. subst r.
  pose proof (word_of_rep t Ht Nt Hw) as Rt.
  pose proof (word_of_rep e He Ne ltac:(lia)) as Re. rewrite We in Re.
  unfold kw_conditional.
  rewrite (kw_bit_spec _ 1 (at4 condition)) by (try lia; rewrite <- Wc; apply word_of_rep; done || lia).
  destruct (is_unknown (at4 condition 0)) eqn:Hu.
  - set (x := mkWord _ _). eapply returns_Rep_eq; [|by apply conditional_unknown].
    assert (from_aval_bval (width t)
      (word_a match at4 condition 0 with Logic4_one => word_of t | Logic4_zero => word_of e | _ => x end)
      (word_b match at4 condition 0 with Logic4_one => word_of t | Logic4_zero => word_of e | _ => x end)
      = from_aval_bval (width t) (word_a x) (word_b x)) as -> by by destruct (at4 condition 0).
    apply (pack_rep (width t) x (fun i => merged (at4 t i) (at4 e i))); [done|..]; intros i Hi; subst x; simpl;
      autorewrite with fsim_bits;
      rewrite ?(mask_in _ Hw i Hi), ?(word_a_bit _ _ _ Rt), ?(word_b_bit _ _ _ Rt),
        ?(word_a_bit _ _ _ Re), ?(word_b_bit _ _ _ Re), ?(proj2 (Z.ltb_lt i 64)) by (done || lia);
      by destruct (at4 t i), (at4 e i).
  - rewrite (conditional_known condition t e Hc Wc We Hu). unfold one_at.
    destruct (at4 condition 0); try done; [rewrite <- We|]; apply pack_word_of; done || lia.
Qed.
