(* ===== verification/ShiftEquivalence.v ===== *)
(** * Correctness of the shifts and rotations

    The meaning of every shift operator on the elements of a packed value, for
    an amount of any width, signed or unsigned; [shift_value] computes it
    through its element code and through the word code of [KernelWord]. *)
From S2P Require Import Prelude Logic WordSpan LogicWord PackedLogic4 PackedRange PackedConvert.
From S2P Require Import PackedNumeric KernelWord SimirArithmetic SimirLogic RippleArithmetic.
From S2P Require Import BinaryEquivalence KernelEquivalence.
Ltac Zify.zify_post_hook ::= Z.div_mod_to_equations.

(** Element [i] of [f], [w] elements wide, moved by [d] places. *)
Definition shift_element (operation : ShiftOperator) (w d : Z) (f : Z -> Logic9) (i : Z) : Logic9 :=
  match operation with
  | logical_left => if i <? d then Logic9_zero else f (i - d)
  | arithmetic_left => if i <? d then f 0 else f (i - d)
  | logical_right => if i + d <? w then f (i + d) else Logic9_zero
  | arithmetic_right => if i + d <? w then f (i + d) else f (w - 1)
  | rotate_left => f ((i - d) mod w)
  | rotate_right => f ((i + d) mod w)
  end.

(** The amount as a number, and the shift by a number of either sign: a
    negative amount moves the other way. *)
Definition shift_amount (signed_amount : bool) (amount : PackedLogic4) : Z :=
  if signed_amount then svalue amount else uvalue amount.

Definition shift_by (operation : ShiftOperator) (w n : Z) (f : Z -> Logic9) (i : Z) : Logic9 :=
  shift_element (if n <? 0 then reverse_shift operation else operation) w (Z.abs n) f i.

(** * The distance *)

Lemma negated_amount_spec v : wf v -> all_known v ->
  returns (negated_amount v) (fun m => Num m (width v) (- uvalue v)).
Proof.
  intros Hv Hk. pose proof (wf_width _ Hv) as Hw. unfold negated_amount.
  apply returns_bind. eapply returns_mono; [apply make_spec; lia|]. intros m0 M0%Num_zero.
  destruct (carry_bits (Z.lnot (uvalue v)) 0 true) as (carry & C0 & Hc).
  replace (Z.lnot (uvalue v) + 0 + Z.b2z true) with (- uvalue v) in Hc by (unfold Z.lnot; simpl; lia).
  apply returns_bind. eapply returns_mono.
  - apply (foreach_up (fun i (mc : PackedLogic4 * bool) =>
      Rep mc.1 (width v) false (mixed (- uvalue v) 0 i) /\ mc.2 = carry i)); [|lia|].
    + intros i [m c] Hi [Hm Hci]. simpl in Hm, Hci. subst c. destruct (Hc i ltac:(lia)) as [H1 H2].
      rewrite get_ok by lia. cbn [mbind outcome_bind].
      rewrite Z.lnot_spec, Z.bits_0 in H1, H2 by lia.
      rewrite <- one_at_uvalue in H1, H2 by lia.
      rewrite xorb_false_r in H1. rewrite andb_false_r, orb_false_r, orb_false_l in H2.
      assert (logic4_eqb (at4 v i) Logic4_zero = negb (one_at v i)) as ->.
      { rewrite (known_element v i) by (apply Hk; lia). by destruct (one_at v i). }
      apply returns_bind. eapply returns_mono; [apply set_mixed; [exact Hm|lia|exact H1]|].
      intros m' Hm'. cbn [returns fst snd]. split; [exact Hm'|]. by rewrite H2, andb_comm.
    + split; [by apply mixed_start|done].
  - intros [m c] [Hm _]. exact (mixed_end _ _ _ _ Hm).
Qed.

(** The magnitude the loop shifts by and the direction it takes. *)
Lemma shift_magnitude v (signed_amount : bool) : wf v -> all_known v -> 0 < width v ->
  let n := shift_amount signed_amount v in
  (if signed_amount then (top ← get v (width v - 1); Ok (logic4_eqb top Logic4_one)) else Ok false)
    = Ok (n <? 0) /\
  returns (if n <? 0 then negated_amount v else Ok (copy v)) (fun m => Reads m (width v) (Z.abs n)).
Proof.
  intros Hv Hk Hw n. destruct (top_bit_sign v Hv Hw) as [Ht Hu].
  pose proof (uvalue_bound v ltac:(lia)) as Hb. pose proof (Rep_copy v Hv) as [C1 C2 C3 C4 C5].
  assert (Reads (copy v) (width v) (uvalue v)) as Hcopy by by split_and!.
  subst n. unfold shift_amount. destruct signed_amount.
  - rewrite get_ok by lia. cbn [mbind outcome_bind]. fold (one_at v (width v - 1)). split; [by rewrite Ht|].
    pose proof (svalue_bounds v Hw).
    assert (2 ^ width v = 2 * 2 ^ (width v - 1)) by (rewrite <- Z.pow_succ_r by lia; f_equal; lia).
    destruct (Z.ltb_spec (svalue v) 0).
    + eapply returns_mono; [by apply negated_amount_spec|]. intros m Hm. apply Num_Reads.
      * eapply Num_mod; [lia|exact Hm|]. rewrite Hu.
        replace (- (svalue v + 2 ^ width v)) with (Z.abs (svalue v) + -1 * 2 ^ width v) by lia.
        by apply Z_mod_plus_full.
      * lia.
    + simpl. by rewrite Z.abs_eq, <- Hu by lia.
  - rewrite (proj2 (Z.ltb_ge (uvalue v) 0)) by lia. split; [done|]. simpl. by rewrite Z.abs_eq by lia.
Qed.

(** The running distance of a rotation is the amount read so far, modulo the
    width. *)
Lemma rotate_step a r w (b : bool) : 0 < w -> 0 <= a < w -> 0 <= r < w ->
  (if b then (if a >=? w - r then a - (w - r) else a + r) else a) = (a + Z.b2z b * r) mod w /\
  (if r >=? w - r then r - (w - r) else r + r) = (2 * r) mod w.
Proof.
  intros Hw Ha Hr. rewrite !Z.geb_leb. split.
  - destruct b; simpl Z.b2z.
    + rewrite Z.mul_1_l. destruct (Z.leb_spec (w - r) a).
      * rewrite <- (Z_mod_plus_full (a + r) (-1) w). symmetry. replace (a - (w - r)) with (a + r + -1 * w) by lia.
        apply Z.mod_small. lia.
      * symmetry. apply Z.mod_small. lia.
    + rewrite Z.mul_0_l, Z.add_0_r. symmetry. by apply Z.mod_small.
  - destruct (Z.leb_spec (w - r) r).
    + rewrite <- (Z_mod_plus_full (2 * r) (-1) w). symmetry. replace (r - (w - r)) with (2 * r + -1 * w) by lia.
      apply Z.mod_small. lia.
    + replace (r + r) with (2 * r) by lia. symmetry. apply Z.mod_small. lia.
Qed.

Lemma shift_distance_rotation w m u n : 0 < w -> Reads m n u ->
  shift_distance true w m = Ok (u mod w).
Proof.
  intros Hw (Hm & <- & Hk & <-). pose proof (wf_width _ Hm). apply returns_eq. unfold shift_distance.
  apply returns_bind. eapply returns_mono.
  - apply (foreach_flow_up (R := Z) (fun i (ar : Z * Z) =>
      ar.1 = (uvalue m mod 2 ^ i) mod w /\ ar.2 = 2 ^ i mod w) (fun _ => False)); [|lia|].
    + intros i [a r] Hi [Ha Hr]. simpl in Ha, Hr. rewrite get_ok by lia. cbn [mbind outcome_bind returns fst snd].
      fold (one_at m i). rewrite one_at_uvalue by lia.
      destruct (rotate_step a r w (Z.testbit (uvalue m) i) Hw) as [-> ->];
        [subst a; by apply Z.mod_pos_bound|subst r; by apply Z.mod_pos_bound|].
      rewrite mod_pow2_succ, Z.pow_add_r by lia. change (2 ^ 1) with 2. subst a r. split.
      * destruct (Z.testbit (uvalue m) i); simpl Z.b2z.
        { by rewrite !Z.mul_1_l, <- Z.add_mod by lia. }
        by rewrite !Z.mul_0_l, !Z.add_0_r, Z.mod_mod by lia.
      * by rewrite Zmult_mod_idemp_r, Z.mul_comm.
    + cbn [fst snd]. rewrite Z.mod_1_r. by rewrite Z.mod_0_l by lia.
  - intros [[a r]|q]; [|done]. simpl. intros [-> _].
    by rewrite (Z.mod_small (uvalue m) (2 ^ width m)) by (apply uvalue_bound; lia).
Qed.

(** A shift keeps the amount when it is less than the width, and otherwise
    ends with a distance that clears every element. *)
Lemma shift_distance_shift w m u n : 0 < w -> w <= SIZE_MAX / 4 -> Reads m n u ->
  returns (shift_distance false w m) (fun d => if u <? w then d = u else w <= d).
Proof.
  intros Hw Hmax (Hm & <- & Hk & <-). pose proof (wf_width _ Hm). unfold shift_distance.
  assert (forall i, 0 <= i < width m -> Z.testbit (uvalue m) i = true -> 2 ^ i <= uvalue m) as Hlow.
  { intros i Hi Hb. pose proof (uvalue_bound m ltac:(lia)).
    pose proof (mod_pow2_succ (uvalue m) i ltac:(lia)) as E. rewrite Hb in E. simpl in E.
    pose proof (Z.mod_le (uvalue m) (2 ^ (i + 1)) ltac:(lia) ltac:(apply Z.pow_pos_nonneg; lia)).
    pose proof (Z.mod_pos_bound (uvalue m) (2 ^ i) ltac:(apply Z.pow_pos_nonneg; lia)). lia. }
  apply returns_bind. eapply returns_mono.
  - apply (foreach_flow_up (fun i (ar : Z * Z) => ar.1 = uvalue m mod 2 ^ i)
      (fun q => q = w /\ w <= uvalue m)); [|lia|].
    + intros i [a r] Hi Ha. simpl in Ha. subst a. rewrite get_ok by lia. cbn [mbind outcome_bind].
      fold (one_at m i). rewrite one_at_uvalue by lia.
      pose proof (mod_pow2_succ (uvalue m) i ltac:(lia)) as E.
      destruct (Z.testbit (uvalue m) i) eqn:Hb; cbn [Z.b2z] in E.
      * specialize (Hlow i ltac:(lia) Hb). rewrite !Z.geb_leb.
        destruct (Z.leb_spec 64 i) as [H64|H64]; simpl orb.
        { cbn [returns]. split; [done|]. pose proof (Z.pow_le_mono_r 2 64 i ltac:(lia) ltac:(lia)).
          unfold SIZE_MAX in Hmax. lia. }
        rewrite shl64_one by lia. destruct (Z.leb_spec w (2 ^ i)); cbn [returns fst]; [lia|].
        rewrite E. apply Z.bits_inj'. intros j Hj. rewrite Z.lor_spec, testbit_pow2 by lia.
        pose proof (testbit_add_pow2 (uvalue m mod 2 ^ i) i true j ltac:(lia)
          ltac:(apply Z.mod_pos_bound, Z.pow_pos_nonneg; lia) Hj) as Hadd.
        cbn [Z.b2z] in Hadd.
        rewrite Hadd. destruct (Z.eqb_spec j i) as [->|].
        { by rewrite orb_true_r. }
        by rewrite orb_false_r.
      * cbn [returns fst]. lia.
    + simpl. by rewrite Z.mod_1_r.
  - intros [[a r]|q]; simpl.
    + intros ->. rewrite Z.mod_small by (apply uvalue_bound; lia). by cases_ltb.
    + intros [-> Hle]. by rewrite (proj2 (Z.ltb_ge _ _)).
Qed.

(** * The element code *)

Lemma mod_once x w : 0 < w -> - w <= x < 2 * w ->
  x mod w = if x <? 0 then x + w else if x <? w then x else x - w.
Proof.
  intros Hw Hx. cases_ltb.
  - rewrite <- (Z_mod_plus_full x 1 w), Z.mod_small by lia. lia.
  - apply Z.mod_small. lia.
  - rewrite <- (Z_mod_plus_full x (-1) w). rewrite Z.mod_small by lia. lia.
Qed.

Lemma move_bits_spec value result w f low len offset :
  wf value -> Rep result w (is_logic9 value) f ->
  0 < len -> 0 <= low -> low + len <= width value -> 0 <= offset -> offset + len <= w ->
  returns (move_bits value result low len offset) (fun r => Rep r w (is_logic9 value)
    (fun j => if in_range offset len j then at9 value (low + (j - offset)) else f j)).
Proof.
  intros Hv [R1 R2 R3 R4 R5] Hlen Hlow Hle Ho Hoe. unfold move_bits. apply returns_bind.
  eapply returns_mono; [by apply extract_bits_spec|]. intros part [P1 P2 P3 P4 P5].
  eapply returns_mono; [apply insert_bits_spec; try done; rewrite ?P2, ?R2; auto; lia|].
  intros r (U1 & U2 & U3 & U4 & U5). split; try congruence.
  - by rewrite U3, R3, P3, orb_diag.
  - intros j Hj. rewrite U5, P2 by lia. destruct (in_range offset len j) eqn:E.
    + apply in_range_true in E. rewrite P5 by lia. done.
    + by apply R5.
Qed.

Definition fill_element (operation : ShiftOperator) (w : Z) (f : Z -> Logic9) : Logic9 :=
  match operation with
  | arithmetic_right => f (w - 1)
  | arithmetic_left => f 0
  | _ => Logic9_zero
  end.

(** The result before any element is placed. *)
Lemma shift_fill_spec operation value : wf value -> 0 < width value ->
  returns (fill ← match operation with
           | arithmetic_right => get value (width value - 1)
           | arithmetic_left => get value 0
           | _ => Ok Logic4_zero
           end;
    result ← make (width value) fill;
    if is_logic9 value then
                logic9_fill ← match operation with
                              | arithmetic_right => get_logic9 value (width value - 1)
                              | arithmetic_left => get_logic9 value 0
                              | _ => Ok Logic9_zero
                              end;
                fill9 result logic9_fill
              else Ok result)
    (fun r => Rep r (width value) (is_logic9 value)
       (fun _ => fill_element operation (width value) (at9 value))).
Proof.
  intros Hv Hw. pose proof (wf_width _ Hv).
  assert (exists x, match operation with
           | arithmetic_right => get value (width value - 1)
           | arithmetic_left => get value 0
           | _ => Ok Logic4_zero
           end = Ok x /\ (is_logic9 value = false ->
             to_logic9 x = fill_element operation (width value) (at9 value))) as (x & -> & Hx).
  { destruct operation; rewrite ?get_ok by lia; eexists; (split; [done|]);
      intros; simpl; rewrite ?at9_four by done; done. }
  assert (match operation with
           | arithmetic_right => get_logic9 value (width value - 1)
           | arithmetic_left => get_logic9 value 0
           | _ => Ok Logic9_zero
           end = Ok (fill_element operation (width value) (at9 value))) as ->
    by (destruct operation; rewrite ?get_logic9_ok by lia; done).
  cbn [mbind outcome_bind]. apply returns_bind.
  eapply returns_mono; [apply make_spec; lia|]. intros r R. pose proof R as [R1 R2 R3 R4 R5].
  destruct (is_logic9 value).
  - eapply returns_mono; [by apply fill9_spec|]. rewrite R2. done.
  - simpl. eapply Rep_ext; [exact R|]. intros. apply Hx. done.
Qed.

(** Placing the elements that stay, for the distance the loop computed. *)
Lemma shift_place_spec operation value result n d :
  wf value -> 0 < width value -> 0 <= n ->
  Rep result (width value) (is_logic9 value) (fun _ => fill_element operation (width value) (at9 value)) ->
  0 <= d ->
  (if is_rotation operation then d = n mod width value
   else if n <? width value then d = n else width value <= d) ->
  returns (if d >=? width value then Ok result
    else if d =? 0 then Ok (copy value)
    else
      let kept := width value - d in
      match operation with
      | rotate_left =>
          result ← move_bits value result 0 kept d;
          move_bits value result kept d 0
      | rotate_right =>
          result ← move_bits value result d kept 0;
          move_bits value result 0 d kept
      | logical_left | arithmetic_left => move_bits value result 0 kept d
      | _ => move_bits value result d kept 0
      end)
    (fun r => Rep r (width value) (is_logic9 value) (shift_element operation (width value) n (at9 value))).
Proof.
  intros Hv Hw Hn R Hd Hdist. set (w := width value) in *. rewrite Z.geb_leb.
  assert (is_rotation operation = true -> forall j,
    shift_element operation w n (at9 value) j = shift_element operation w d (at9 value) j) as Hrot.
  { intros E j. rewrite E in Hdist. subst d. destruct operation; try done; simpl.
    - by rewrite Zminus_mod_idemp_r.
    - by rewrite Zplus_mod_idemp_r. }
  destruct (Z.leb_spec w d) as [Hwd|Hwd]; [|destruct (Z.eqb_spec d 0) as [->|Hd0]].
  - simpl. eapply Rep_ext; [exact R|]. intros i Hi. cbv beta.
    destruct (is_rotation operation) eqn:E.
    { pose proof (Z.mod_pos_bound n w Hw). lia. }
    assert (w <= n) by (destruct (Z.ltb_spec n w); lia).
    destruct operation; try done; simpl; cases_ltb; done || lia.
  - simpl. eapply Rep_ext; [by apply Rep_copy|]. intros i Hi.
    destruct (is_rotation operation) eqn:E.
    + rewrite Hrot by done. destruct operation; try done; simpl;
        rewrite ?Z.sub_0_r, ?Z.add_0_r, Z.mod_small by lia; done.
    + assert (n = 0) as -> by (destruct (Z.ltb_spec n w); lia).
      destruct operation; try done; simpl; cases_ltb; try lia; f_equal; lia.
  - assert (is_rotation operation = false -> d = n) as Hdn.
    { intros E. rewrite E in Hdist. destruct (Z.ltb_spec n w); lia. }
    cbv zeta. destruct operation; simpl in Hdn;
      try (specialize (Hdn eq_refl); subst n).
    1-4: eapply returns_mono; [by apply (move_bits_spec value result w _ _ _ _ Hv R); lia|];
      intros r HR; eapply Rep_ext; [exact HR|]; intros i Hi; simpl; unfold in_range;
      cases_ltb; simpl; try lia; try done; f_equal; lia.
    all: apply returns_bind; eapply returns_mono;
      [by apply (move_bits_spec value result w _ _ _ _ Hv R); lia|]; intros r1 R1;
      eapply returns_mono; [by apply (move_bits_spec value r1 w _ _ _ _ Hv R1); lia|];
      intros r HR; eapply Rep_ext; [exact HR|]; intros i Hi; rewrite Hrot by done; simpl; unfold in_range;
      rewrite mod_once by lia; cases_ltb; simpl; try lia; try done; f_equal; lia.
Qed.

Section shift_reference.
Context (operation : ShiftOperator) (value amount : PackedLogic4) (signed_amount : bool).
Context (Hv : wf value) (Ha : wf amount) (Hw : 0 < width value) (Hn : 0 < width amount).

(** An amount with an unknown element gives an unknown result. *)
Lemma shift_reference_unknown :
  existsb (fun i => is_unknown (at4 amount i)) (up 0 (width amount)) = true ->
  shift_reference operation value amount signed_amount = make (width value) Logic4_x.
Proof. intros H. unfold shift_reference. by rewrite has_unknown_spec, H. Qed.

Lemma shift_reference_spec : all_known amount ->
  returns (shift_reference operation value amount signed_amount)
    (fun r => Rep r (width value) (is_logic9 value)
       (shift_by operation (width value) (shift_amount signed_amount amount) (at9 value))).
Proof.
  intros Hk. pose proof (wf_width _ Hv). unfold shift_reference.
  rewrite (proj2 (has_unknown_false amount) Hk). cbn [mbind outcome_bind].
  destruct (shift_magnitude amount signed_amount Ha Hk Hn) as [-> Hmag]. cbn [mbind outcome_bind].
  unfold shift_by. set (n := shift_amount signed_amount amount) in *.
  set (op := if n <? 0 then reverse_shift operation else operation).
  apply returns_bind. eapply returns_mono; [exact Hmag|]. intros magnitude Hm.
  assert (returns (shift_distance (is_rotation op) (width value) magnitude) (fun d => 0 <= d /\
    if is_rotation op then d = Z.abs n mod width value
    else if Z.abs n <? width value then d = Z.abs n else width value <= d)) as Hdist.
  { destruct (is_rotation op).
    - rewrite (shift_distance_rotation _ _ _ _ Hw Hm). simpl. split; [|done].
      by apply Z.mod_pos_bound.
    - eapply returns_mono; [apply (shift_distance_shift _ _ _ _ Hw ltac:(lia) Hm)|].
      intros d Hd. split; [|exact Hd]. destruct (Z.abs n <? width value); lia. }
  apply returns_bind. eapply returns_mono; [exact Hdist|]. intros d [Hd0 Hd].
  destruct (returns_inv _ _ (shift_fill_spec op value Hv Hw)) as (r & Er & HR).
  cbv zeta in Er. destruct (match op with
           | arithmetic_right => get value (width value - 1)
           | arithmetic_left => get value 0
           | _ => Ok Logic4_zero
           end) as [fill|e]; [|done]. cbn [mbind outcome_bind] in Er |- *.
  destruct (make (width value) fill) as [r0|e]; [|done]. cbn [mbind outcome_bind] in Er |- *.
  rewrite Er. cbn [mbind outcome_bind]. apply shift_place_spec; try done. lia.
Qed.
End shift_reference.

(** * The word code *)

Lemma kw_reverse_eq operation : kw_reverse operation = reverse_shift operation.
Proof. by destruct operation. Qed.

(** One plane of a word: bits [P] below [w], none above. *)
Section plane_shift.
Context (w : Z) (X : Z) (P : Z -> bool) (Hw : 0 < w <= 64).
Context (Hin : forall i, 0 <= i < w -> Z.testbit X i = P i).
Context (Habove : forall i, w <= i -> Z.testbit X i = false).

Lemma filled_mask (F : bool) i : 0 <= i < w -> Z.testbit (if F then kw_mask w else 0) i = F.
Proof. intros Hi. destruct F; [by apply mask_in|apply Z.bits_0]. Qed.

Lemma plane_masked i : 0 <= i < w -> Z.testbit (Z.land X (kw_mask w)) i = P i.
Proof. intros Hi. rewrite Z.land_spec, (mask_in w Hw), andb_true_r by done. by apply Hin. Qed.

Lemma plane_left (F : bool) d i : 0 < d < w -> 0 <= i < w ->
  Z.testbit (Z.lor (Z.land (shl64 X d) (kw_mask w))
               (Z.land (if F then kw_mask w else 0) (kw_mask d))) i
  = if i <? d then F else P (i - d).
Proof.
  intros Hd Hi. rewrite Z.lor_spec, !Z.land_spec, testbit_shl64, (mask_in w Hw), filled_mask by (done || lia).
  rewrite (testbit_kw_mask d), (proj2 (Z.ltb_lt i 64)), andb_true_r by lia.
  destruct (Z.ltb_spec i d); rewrite ?andb_true_r, ?andb_false_r, ?orb_false_r.
  - by rewrite Z.testbit_neg_r by lia.
  - apply Hin. lia.
Qed.

Lemma plane_right (F : bool) d i : 0 < d < w -> 0 <= i < w ->
  Z.testbit (Z.lor (Z.land (Z.shiftr X d) (kw_mask (w - d)))
               (Z.land (if F then kw_mask w else 0) (Z.land (kw_mask w) (not64 (kw_mask (w - d)))))) i
  = if i + d <? w then P (i + d) else F.
Proof.
  intros Hd Hi. rewrite Z.lor_spec, !Z.land_spec, testbit_shiftr, testbit_not64, (mask_in w Hw), filled_mask
    by (done || lia).
  rewrite (testbit_kw_mask (w - d)), (proj2 (Z.ltb_lt i 64)) by lia.
  replace (i <? w - d) with (i + d <? w) by (cases_ltb; lia).
  destruct (Z.ltb_spec (i + d) w); simpl; rewrite ?andb_true_r, ?andb_false_r, ?orb_false_r; [|done].
  apply Hin. lia.
Qed.

Lemma plane_rotate_left d i : 0 < d < w -> 0 <= i < w ->
  Z.testbit (kw_rotate rotate_left w d X) i = P ((i - d) mod w).
Proof.
  intros Hd Hi. unfold kw_rotate. rewrite Z.land_spec, Z.lor_spec, testbit_shl64, testbit_shiftr by lia.
  rewrite (mask_in w Hw), (proj2 (Z.ltb_lt i 64)), andb_true_r, mod_once by lia. cases_ltb; simpl.
  - rewrite Z.testbit_neg_r by lia. simpl. rewrite Hin by lia. f_equal. lia.
  - rewrite (Habove (i + (w - d))), orb_false_r by lia. apply Hin. lia.
  - lia.
Qed.

Lemma plane_rotate_right d i : 0 < d < w -> 0 <= i < w ->
  Z.testbit (kw_rotate rotate_right w d X) i = P ((i + d) mod w).
Proof.
  intros Hd Hi. unfold kw_rotate. rewrite Z.land_spec, Z.lor_spec, testbit_shl64, testbit_shiftr by lia.
  rewrite (mask_in w Hw), (proj2 (Z.ltb_lt i 64)), andb_true_r, mod_once by lia. cases_ltb; simpl.
  - lia.
  - rewrite (Z.testbit_neg_r X (i - _)), orb_false_r by lia. apply Hin. lia.
  - rewrite (Habove (i + d)) by lia. simpl. rewrite Hin by lia. f_equal. lia.
Qed.
End plane_shift.

(** The bit pattern of the fill element. *)
Lemma kw_fill_spec x w f operation : 0 < w -> WordRep x w f ->
  let bit := match operation with
             | arithmetic_right => kw_bit x (w - 1)
             | arithmetic_left => kw_bit x 0
             | _ => Logic4_zero
             end in
  let element := to_logic4 (fill_element operation w (fun i => to_logic9 (f i))) in
  negb (word_a (kw_from_logic4 bit) =? 0) = aval_bit element /\
  negb (word_b (kw_from_logic4 bit) =? 0) = bval_bit element.
Proof.
  intros Hw Hx. cbv zeta. destruct operation; simpl; rewrite ?to_logic4_to_logic9, ?(kw_bit_spec x w f) by (done || lia);
    first [done | by destruct (f _)].
Qed.

(** The amount a word holds, and the direction it asks for. *)
Definition word_amount (signed_amount : bool) (aw a : Z) : Z :=
  if signed_amount then signed_of aw a else a.

Lemma kw_amount_spec (signed_amount : bool) aw a : 0 < aw <= 64 -> 0 <= a < 2 ^ aw ->
  let n := word_amount signed_amount aw a in
  signed_amount && negb (Z.land (Z.shiftr a (aw - 1)) 1 =? 0) = (n <? 0) /\
  (if n <? 0 then Z.land (sub64 0 a) (kw_mask aw) else a) = Z.abs n.
Proof.
  intros Haw Ha. cbv zeta. rewrite shiftr_and_one by lia. unfold word_amount. destruct signed_amount; simpl.
  - split; [|by apply word_magnitude]. pose proof (pow_w_bounds aw Haw).
    pose proof (signed_of_bounds aw a ltac:(lia) Ha). unfold signed_of in *.
    destruct (Z.testbit a (aw - 1)); symmetry; [apply Z.ltb_lt|apply Z.ltb_ge]; lia.
  - rewrite (proj2 (Z.ltb_ge a 0)), Z.abs_eq by lia. done.
Qed.

(** The two halves of [kw_shift] after the amount [d] is known, on a plane
    with bits [P] and fill bit [F]. *)
Definition plane_element (operation : ShiftOperator) (w d : Z) (P : Z -> bool) (F : bool) (i : Z) : bool :=
  match operation with
  | logical_left | arithmetic_left => if i <? d then F else P (i - d)
  | logical_right | arithmetic_right => if i + d <? w then P (i + d) else F
  | rotate_left => P ((i - d) mod w)
  | rotate_right => P ((i + d) mod w)
  end.

Lemma plane_element_logic4 {B} (pr : Logic4 -> B) operation w d (f : Z -> Logic4) i :
  pr (to_logic4 (shift_element operation w d (fun i => to_logic9 (f i)) i)) =
  match operation with
  | logical_left | arithmetic_left =>
      if i <? d then pr (to_logic4 (fill_element operation w (fun i => to_logic9 (f i)))) else pr (f (i - d))
  | logical_right | arithmetic_right =>
      if i + d <? w then pr (f (i + d))
      else pr (to_logic4 (fill_element operation w (fun i => to_logic9 (f i))))
  | rotate_left => pr (f ((i - d) mod w))
  | rotate_right => pr (f ((i + d) mod w))
  end.
Proof.
  destruct operation; simpl; rewrite ?to_logic4_to_logic9; try done;
    match goal with |- context [if ?b then _ else _] => destruct b end; by rewrite ?to_logic4_to_logic9.
Qed.

Section plane_cases.
Context (w : Z) (X : Z) (P : Z -> bool) (F : bool) (Hw : 0 < w <= 64).
Context (Hin : forall i, 0 <= i < w -> Z.testbit X i = P i).
Context (Habove : forall i, w <= i -> Z.testbit X i = false).

Lemma plane_rotation operation d i : is_rotation operation = true -> 0 <= d -> 0 <= i < w ->
  Z.testbit (if d mod w =? 0 then Z.land X (kw_mask w) else kw_rotate operation w (d mod w) X) i
  = plane_element operation w d P F i.
Proof.
  intros Ho Hd Hi. pose proof (Z.mod_pos_bound d w ltac:(lia)).
  assert (plane_element operation w d P F i = plane_element operation w (d mod w) P F i) as ->.
  { destruct operation; try done; simpl; by rewrite ?Zminus_mod_idemp_r, ?Zplus_mod_idemp_r. }
  destruct (Z.eqb_spec (d mod w) 0) as [->|].
  - rewrite (plane_masked w X P Hw Hin) by done.
    destruct operation; try done; simpl; by rewrite ?Z.sub_0_r, ?Z.add_0_r, Z.mod_small by lia.
  - destruct operation; try done; [apply plane_rotate_left|apply plane_rotate_right]; done || lia.
Qed.

Lemma plane_shifted operation d i : is_rotation operation = false -> 0 <= d -> 0 <= i < w ->
  let fill := if F then kw_mask w else 0 in
  Z.testbit (if d >=? w then fill else if d =? 0 then Z.land X (kw_mask w)
    else match operation with
         | logical_left | arithmetic_left =>
             Z.lor (Z.land (shl64 X d) (kw_mask w)) (Z.land fill (kw_mask d))
         | _ => Z.lor (Z.land (Z.shiftr X d) (kw_mask (w - d)))
                  (Z.land fill (Z.land (kw_mask w) (not64 (kw_mask (w - d)))))
         end) i
  = plane_element operation w d P F i.
Proof.
  intros Ho Hd Hi fill. subst fill. rewrite Z.geb_leb. destruct (Z.leb_spec w d); [|destruct (Z.eqb_spec d 0) as [->|]].
  - rewrite filled_mask by done. destruct operation; try done; simpl; cases_ltb; done || lia.
  - rewrite (plane_masked w X P Hw Hin) by done.
    destruct operation; try done; simpl; rewrite ?Z.sub_0_r, ?Z.add_0_r; cases_ltb; done || lia.
  - destruct operation; try done; first [apply plane_left|apply plane_right]; done || lia.
Qed.
End plane_cases.

Section kw_shift.
Context (operation : ShiftOperator) (x : Word) (w : Z) (f : Z -> Logic4) (amount : Word) (aw : Z).
Context (signed_amount : bool).
Context (Hw : 0 < w <= 64) (Haw : 0 < aw <= 64) (Hx : WordRep x w f).
Context (Ha : 0 <= word_a amount < 2 ^ aw) (Hb : Z.land (word_b amount) (kw_mask aw) = 0).
Let n := word_amount signed_amount aw (word_a amount).

(** The word shift moves the elements as the element code does. *)
Lemma kw_shift_spec :
  let r := kw_shift operation x w amount aw signed_amount in
  let element i := to_logic4 (shift_by operation w n (fun i => to_logic9 (f i)) i) in
  forall i, 0 <= i < w -> Z.testbit (word_a r) i = aval_bit (element i) /\
                          Z.testbit (word_b r) i = bval_bit (element i).
Proof.
  intros r element i Hi. subst r element. unfold kw_shift, shift_by. rewrite Hb.
  cbv zeta. rewrite (land_kw_mask aw Haw (word_a amount)), Z.mod_small by done.
  destruct (kw_amount_spec signed_amount aw (word_a amount) Haw Ha) as [-> ->]. fold n.
  rewrite kw_reverse_eq. set (op := if n <? 0 then reverse_shift operation else operation).
  set (d := Z.abs n). destruct (kw_fill_spec x w f op ltac:(lia) Hx) as [-> ->].
  rewrite !plane_element_logic4. change (negb (0 =? 0)) with false. cbv iota.
  set (F := fill_element op w (fun i => to_logic9 (f i))). clearbody F.
  assert (0 <= d) as Hd by lia. clearbody d op.
  assert (forall j, w <= j -> Z.testbit (word_a x) j = false /\ Z.testbit (word_b x) j = false) as Hab.
  { intros j Hj. split; apply (testbit_high _ w); try apply Hx; lia. }
  pose proof (word_a_bit _ _ _ Hx) as Ain. pose proof (word_b_bit _ _ _ Hx) as Bin.
  destruct (is_rotation op) eqn:Erot.
  - pose proof (plane_rotation w _ (fun j => aval_bit (f j)) true Hw Ain (fun j Hj => proj1 (Hab j Hj)) op d i Erot Hd Hi) as HA.
    pose proof (plane_rotation w _ (fun j => bval_bit (f j)) true Hw Bin (fun j Hj => proj2 (Hab j Hj)) op d i Erot Hd Hi) as HB.
    destruct op; try done; simpl in HA, HB; rewrite <- HA, <- HB; by destruct (d mod w =? 0).
  - pose proof (plane_shifted w _ (fun j => aval_bit (f j)) (aval_bit (to_logic4 F)) Hw Ain op d i Erot Hd Hi) as HA.
    pose proof (plane_shifted w _ (fun j => bval_bit (f j)) (bval_bit (to_logic4 F)) Hw Bin op d i Erot Hd Hi) as HB.
    destruct op; try done; cbv zeta in HA, HB; simpl in HA, HB; rewrite <- HA, <- HB;
      destruct (d >=? w), (d =? 0); done.
Qed.
End kw_shift.

(** * Both codes agree *)

Section shift_value.
Context (operation : ShiftOperator) (value amount : PackedLogic4) (signed_amount : bool).
Context (Hv : wf value) (Ha : wf amount).

Lemma amount_unknown_word : is_logic9 amount = false -> 0 < width amount <= 64 ->
  negb (Z.land (word_b (word_of amount)) (kw_mask (width amount)) =? 0)
  = existsb (fun i => is_unknown (at4 amount i)) (up 0 (width amount)).
Proof.
  intros Hn Hw. pose proof (word_of_rep amount Ha Hn Hw) as Hr. apply word_nonzero; [lia| |].
  - intros i Hi. rewrite Z.land_spec, (mask_in _ Hw), (word_b_bit _ _ _ Hr) by done.
    by destruct (at4 amount i).
  - intros i Hi. by rewrite Z.land_spec, (mask_above _ Hw), andb_false_r.
Qed.

Lemma word_amount_value : is_logic9 amount = false -> 0 < width amount <= 64 -> all_known amount ->
  word_amount signed_amount (width amount) (word_a (word_of amount)) = shift_amount signed_amount amount.
Proof. intros Hn Hw Hk. unfold word_amount, shift_amount. by rewrite word_value. Qed.

Lemma shift_by_elements (f g : Z -> Logic9) w n i :
  (forall j, 0 <= j < w -> f j = g j) -> 0 <= i < w ->
  shift_by operation w n f i = shift_by operation w n g i.
Proof.
  intros H Hi. unfold shift_by. destruct (if n <? 0 then _ else _); simpl; cases_ltb; try done;
    apply H; try lia; apply Z.mod_pos_bound; lia.
Qed.

Lemma shift_by_invariant (Q : Logic9 -> Prop) f w n i : Q Logic9_zero -> (forall j, Q (f j)) ->
  Q (shift_by operation w n f i).
Proof.
  intros Hz Hf. unfold shift_by. destruct (if n <? 0 then _ else _); simpl; auto;
    match goal with |- Q (if ?b then _ else _) => destruct b end; auto.
Qed.

(** The word path of a narrow value: the same packed value as the element
    code, whether the amount is known or not. *)
Lemma shift_words_four : is_logic9 value = false -> is_logic9 amount = false ->
  0 < width value <= 64 -> 0 < width amount <= 64 ->
  let r := kw_shift operation (word_of value) (width value) (word_of amount) (width amount) signed_amount in
  from_aval_bval (width value) (word_a r) (word_b r)
  = shift_reference operation value amount signed_amount.
Proof.
  intros Hn Hna Hw Hwa r. subst r. pose proof (word_of_rep value Hv Hn Hw) as Rv.
  pose proof (word_of_rep amount Ha Hna Hwa) as Ra. pose proof (wf_width _ Hv).
  pose proof (amount_unknown_word Hna Hwa) as Hu.
  destruct (existsb _ _) eqn:E.
  - rewrite shift_reference_unknown by done. unfold kw_shift. rewrite Hu.
    eapply returns_Rep_eq; [|apply make_spec; lia].
    apply (pack_rep _ (kw_all_x (width value)) (fun _ => Logic4_x)); [done|..]; intros i Hi; simpl;
      by apply mask_in.
  - assert (all_known amount) as Hk.
    { apply has_unknown_false. by rewrite has_unknown_spec, E. }
    apply negb_false_iff, Z.eqb_eq in Hu.
    pose proof (kw_shift_spec operation _ _ _ (word_of amount) _ signed_amount Hw Hwa Rv
      (word_a_bound _ _ _ Ra) Hu) as Hs. cbv zeta in Hs. rewrite word_amount_value in Hs by done.
    eapply (returns_Rep_eq _ _ (width value) (is_logic9 value)); [|apply shift_reference_spec; done || lia].
  rewrite Hn.
    eapply returns_mono; [apply (pack_rep _ (kw_shift _ _ _ _ _ _) (fun i => to_logic4
      (shift_by operation (width value) (shift_amount signed_amount amount)
         (fun i => to_logic9 (at4 value i)) i))); [done|..]; intros i Hi; by apply Hs|].
    intros r HR. eapply Rep_ext; [exact HR|]. intros i Hi. cbv beta.
    rewrite (shift_by_elements (at9 value) (fun i => to_logic9 (at4 value i)))
      by (try done; intros; by apply at9_four).
    apply (shift_by_invariant (fun e => to_logic9 (to_logic4 e) = e)); [done|].
    intros j. by rewrite to_logic4_to_logic9.
Qed.

Lemma shift_words_nine n : kw_known_bits value = Some n -> is_logic9 value = true ->
  is_logic9 amount = false -> 0 < width amount <= 64 ->
  Z.land (word_b (word_of amount)) (kw_mask (width amount)) = 0 ->
  kw_logic9_known (word_a (kw_shift operation (mkWord n 0) (width value) (word_of amount)
                     (width amount) signed_amount)) (width value)
  = shift_reference operation value amount signed_amount.
Proof.
  intros En Hn Hna Hwa Hu. destruct (kw_known_bits_spec value n Hv En) as (Hw & Hb & Hat).
  pose proof (word_of_rep amount Ha Hna Hwa) as Ra. pose proof (amount_unknown_word Hna Hwa) as Hx.
  rewrite Hu in Hx. simpl in Hx.
  assert (all_known amount) as Hk by (apply has_unknown_false; by rewrite has_unknown_spec, <- Hx).
  pose proof (kw_shift_spec operation _ _ _ (word_of amount) _ signed_amount Hw Hwa
    (known_bits_rep value n Hv En) (word_a_bound _ _ _ Ra) Hu) as Hs. cbv zeta in Hs.
  rewrite word_amount_value in Hs by done.
  eapply (returns_Rep_eq _ _ (width value) (is_logic9 value)); [|apply shift_reference_spec; done || lia].
  rewrite Hn.
  eapply returns_mono; [by apply kw_logic9_known_spec|]. intros r HR. eapply Rep_ext; [exact HR|].
  intros i Hi. unfold number at 1. rewrite (proj1 (Hs i Hi)).
  rewrite (shift_by_elements (at9 value) (number n)) by done.
  rewrite (shift_by_elements (fun i => to_logic9 (at4 value i)) (number n)).
  - apply (shift_by_invariant (fun e => to_logic9 (logic4_of_bool (aval_bit (to_logic4 e))) = e)); [done|].
    intros j. unfold number. by destruct (Z.testbit n j).
  - intros j Hj. by rewrite (known_bits_at4 value n Hv En).
  - done.
Qed.

(** [shift_value], which prefers the word code, returns what its element code
    returns. *)
Lemma shift_value_equals_reference :
  shift_value operation value amount signed_amount
  = shift_reference operation value amount signed_amount.
Proof.
  pose proof (wf_width _ Hv). pose proof (wf_width _ Ha). unfold shift_value.
  destruct (_ && _) eqn:E; [|done].
  rewrite !andb_true_iff, !negb_true_iff, !Z.eqb_neq, !Z.leb_le in E. destruct E as ((((? & ?) & ?) & ?) & Hna).
  fold (word_of amount) (word_of value). destruct (is_logic9 value) eqn:Hn; cbn [negb].
  - destruct (kw_known_bits value) as [n|] eqn:En; [|done]. destruct (Z.eqb_spec
      (Z.land (word_b (word_of amount)) (kw_mask (width amount))) 0); [|done].
    apply shift_words_nine; done || lia.
  - apply shift_words_four; done || lia.
Qed.
End shift_value.
