(* ===== verification/SelectEquivalence.v ===== *)
(** * Correctness of selects and concatenation

    Runtime-indexed selects of [SimirLogic] and their word versions in
    [KernelWord]: the normalized offset of an index, the elements a part
    select reads and a part write changes, and the layout of a
    concatenation. *)
From S2P Require Import Prelude Logic WordSpan LogicWord PackedLogic4 PackedRange PackedConvert.
From S2P Require Import PackedNumeric KernelWord SimirArithmetic SimirLogic RippleArithmetic.
From S2P Require Import BinaryEquivalence KernelEquivalence.
Ltac Zify.zify_post_hook ::= Z.div_mod_to_equations.

(** * 32-bit bases *)

Definition some_unknown (v : PackedLogic4) : bool :=
  existsb (fun i => is_unknown (at4 v i)) (up 0 (width v)).

Lemma some_unknown_false v : some_unknown v = false <-> all_known v.
Proof. rewrite <- has_unknown_false, has_unknown_spec. split; [by intros <-|by injection 1]. Qed.

(** A pair of operands is known when each of them is. *)
Lemma some_pair_unknown lhs rhs : width rhs = width lhs ->
  some_pair (width lhs) (fun a b => negb (both_known a b)) (at4 lhs) (at4 rhs)
  = some_unknown lhs || some_unknown rhs.
Proof.
  intros Hw. unfold some_pair, some_unknown. rewrite Hw. generalize (up 0 (width lhs)). intros l.
  induction l as [|i l IH]; simpl; [done|]. rewrite IH. unfold both_known.
  by destruct (is_unknown (at4 lhs i)), (is_unknown (at4 rhs i)), (existsb _ l), (existsb _ l).
Qed.

(** Setting bit [i] of the bits read so far. *)
Lemma raw_step v i : width v = 32 -> 0 <= i < 32 ->
  (if logic4_eqb (at4 v i) Logic4_one then Z.lor (uvalue v mod 2 ^ i) (wrap32 (Z.shiftl 1 i))
   else uvalue v mod 2 ^ i) = uvalue v mod 2 ^ (i + 1).
Proof.
  intros Hw Hi. fold (one_at v i). rewrite one_at_uvalue, mod_pow2_succ by lia.
  destruct (Z.testbit (uvalue v) i) eqn:E; cbn [Z.b2z]; [|lia].
  assert (wrap32 (Z.shiftl 1 i) = 2 ^ i) as ->.
  { unfold wrap32. rewrite Z.shiftl_mul_pow2, Z.mul_1_l by lia. apply Z.mod_small.
    split; [apply Z.pow_nonneg; lia|]. apply Z.pow_lt_mono_r; lia. }
  apply Z.bits_inj'. intros j Hj. rewrite Z.lor_spec, testbit_pow2 by lia.
  pose proof (testbit_add_pow2 (uvalue v mod 2 ^ i) i true j ltac:(lia)
    ltac:(apply Z.mod_pos_bound, Z.pow_pos_nonneg; lia) Hj) as Hadd. cbn [Z.b2z] in Hadd. rewrite Hadd.
  by destruct (Z.eqb_spec j i); rewrite ?orb_true_r, ?orb_false_r.
Qed.

Lemma signed_raw_svalue v : width v = 32 -> signed_raw (uvalue v) = svalue v.
Proof.
  intros Hw. pose proof (uvalue_bound v ltac:(lia)) as Hb. rewrite Hw in Hb.
  unfold signed_raw, svalue, signed_of. rewrite Hw, testbit_pow2_split by lia.
  change (32 - 1) with 31. cases_ltb; lia.
Qed.

(** The throwing and the early-returning scan of a base. *)
Lemma raw_throw_spec v e : wf v -> width v = 32 ->
  foreach (up 0 32) (fun bit raw =>
      value ← get v bit;
      if is_unknown value then Throw e
      else Ok (if logic4_eqb value Logic4_one then Z.lor raw (wrap32 (Z.shiftl 1 bit)) else raw)) 0
  = if some_unknown v then Throw e else Ok (uvalue v).
Proof.
  intros Hv Hw. unfold some_unknown. destruct (existsb _ _) eqn:E.
  - apply existsb_up in E. destruct E as (k & Hk & Hu). rewrite Hw in Hk. apply foreach_throws.
    + intros i s Hi%elem_of_up. rewrite get_ok by lia. cbn [mbind outcome_bind].
      destruct (is_unknown (at4 v i)); eauto.
    + exists k. split; [by apply elem_of_up|]. intros s. rewrite get_ok by lia. cbn [mbind outcome_bind].
      by rewrite Hu.
  - rewrite existsb_up_false, Hw in E. apply returns_eq.
    eapply returns_mono; [apply (foreach_up (fun i raw => raw = uvalue v mod 2 ^ i))|].
    + intros i raw Hi ->. rewrite get_ok by lia. cbn [mbind outcome_bind]. rewrite E by lia.
      cbn [returns]. by apply raw_step.
    + lia.
    + by rewrite Z.mod_1_r.
    + intros raw ->. pose proof (uvalue_bound v ltac:(lia)) as Hb. rewrite Hw in Hb. by rewrite Z.mod_small.
Qed.

Lemma raw_base_spec v : wf v -> width v = 32 ->
  raw_base v = Ok (if some_unknown v then None else Some (uvalue v)).
Proof.
  intros Hv Hw. apply returns_eq. unfold raw_base, some_unknown. apply returns_bind.
  set (unk := fun i => is_unknown (at4 v i)).
  eapply returns_mono; [apply (foreach_flow_up
    (fun i raw => raw = uvalue v mod 2 ^ i /\ existsb unk (up 0 i) = false)
    (fun _ => existsb unk (up 0 32) = true))|].
  - intros i raw Hi [-> Hu]. rewrite get_ok by lia. cbn [mbind outcome_bind returns].
    fold (unk i). destruct (unk i) eqn:E.
    + apply existsb_up. by exists i.
    + split; [by apply raw_step|]. apply existsb_up_false. intros j Hj.
      rewrite existsb_up_false in Hu. destruct (Z.eq_dec j i) as [->|]; [done|apply Hu; lia].
  - lia.
  - by rewrite Z.mod_1_r.
  - pose proof (uvalue_bound v ltac:(lia)) as Hb. rewrite Hw in Hb |- *.
    intros [raw|[]]; cbn [returns]; [intros [-> ->]; by rewrite Z.mod_small|by intros ->].
Qed.

(** The same number in a machine word. *)
Lemma word_base v : wf v -> is_logic9 v = false -> width v = 32 ->
  negb (Z.land (word_b (word_of v)) (kw_mask 32) =? 0) = some_unknown v /\
  (some_unknown v = false -> kw_signed32 (word_a (word_of v)) = svalue v).
Proof.
  intros Hv Hn Hw. pose proof (word_of_rep v Hv Hn ltac:(lia)) as Hr. split.
  - unfold some_unknown. rewrite Hw in Hr |- *. apply word_nonzero; [lia| |].
    + intros i Hi. rewrite Z.land_spec, (mask_in 32), (word_b_bit _ _ _ Hr) by (done || lia).
      by destruct (at4 v i).
    + intros i Hi. rewrite Z.land_spec, (mask_above 32) by (done || lia). apply andb_false_r.
  - intros Hk%some_unknown_false. rewrite word_value by (done || lia).
    pose proof (uvalue_bound v ltac:(lia)) as Hb. rewrite Hw in Hb.
    rewrite <- signed_raw_svalue by done. unfold kw_signed32, wrap32. rewrite Z.mod_small by lia.
    unfold to_int32, signed_raw. cases_ltb; lia.
Qed.

(** * Indexing *)

Lemma range_bounds left right :
  (if left <? right then left else right) = Z.min left right /\
  (if left <? right then right else left) = Z.max left right.
Proof. cases_ltb; lia. Qed.

(** The offset of an index in a declared range; [None] outside it or past the
    largest 32-bit offset. *)
Definition index_offset (index left right base_offset : Z) : option Z :=
  if (Z.min left right <=? index) && (index <=? Z.max left right)
     && (base_offset + Z.abs (index - right) <=? U32_MAX)
  then Some (base_offset + Z.abs (index - right)) else None.

Definition is_i64 (x : Z) : Prop := - 2 ^ 63 <= x < 2 ^ 63.

Lemma distance_abs x right : is_i64 x -> is_i64 right ->
  (if x >=? right then wrap64 (x - right) else wrap64 (right - x)) = Z.abs (x - right).
Proof.
  unfold is_i64, wrap64. intros Hx Hr. rewrite Z.geb_leb.
  destruct (Z.leb_spec right x); rewrite Z.mod_small by lia; lia.
Qed.

Lemma svalue_i64 v : width v = 32 -> - 2 ^ 31 <= svalue v < 2 ^ 31.
Proof. intros Hw. pose proof (svalue_bounds v ltac:(lia)) as H. by rewrite Hw in H. Qed.

Section dynamic_index.
Context (index : PackedLogic4) (selection : DynamicIndex).
Context (Hv : wf index) (Hw : width index = 32).
Context (Hl : is_i64 (di_left selection)) (Hr : is_i64 (di_right selection)).

Lemma dynamic_index_offset_spec :
  dynamic_index_offset index selection =
  if some_unknown index then Throw unknown_index
  else match index_offset (svalue index) (di_left selection) (di_right selection)
               (di_base_offset selection) with
       | Some offset => Ok offset
       | None => if (Z.min (di_left selection) (di_right selection) <=? svalue index)
                    && (svalue index <=? Z.max (di_left selection) (di_right selection))
                 then Throw offset_not_representable else Throw index_outside
       end.
Proof.
  unfold dynamic_index_offset. rewrite Hw. cbn [negb Z.eqb Pos.eqb].
  rewrite raw_throw_spec by done. destruct (some_unknown index); [done|]. cbn [mbind outcome_bind].
  rewrite signed_raw_svalue by done. pose proof (svalue_i64 index Hw).
  rewrite distance_abs by (unfold is_i64 in *; lia). unfold index_offset.
  rewrite !Z.gtb_ltb. cases_ltb; simpl; try done; lia.
Qed.

Lemma kw_dynamic_index_spec : is_logic9 index = false ->
  kw_dynamic_index (word_of index) selection =
  if some_unknown index then None
  else index_offset (svalue index) (di_left selection) (di_right selection) (di_base_offset selection).
Proof.
  intros Hn. unfold kw_dynamic_index. destruct (word_base index Hv Hn Hw) as [-> Hs].
  destruct (some_unknown index); [done|]. rewrite Hs by done. pose proof (svalue_i64 index Hw).
  destruct (range_bounds (di_left selection) (di_right selection)) as [-> ->].
  rewrite distance_abs by (unfold is_i64 in *; lia). unfold index_offset. rewrite !Z.gtb_ltb.
  cases_ltb; simpl; try done; lia.
Qed.
End dynamic_index.

(** * Part selects *)

Section part_select.
Context (source base : PackedLogic4) (left right base_offset w : Z).
Context (increasing source_descending two_state : bool).
Context (Hs : wf source) (Hb : wf base) (Wb : width base = 32).
Context (Hl : is_i64 left) (Hr : is_i64 right) (Ho : 0 <= base_offset <= U32_MAX) (Hw : 0 < w <= U32_MAX).

(** The offset in the source of bit [i] of the part; [None] outside. *)
Definition part_source (i : Z) : option Z :=
  let selected := selected_index (selected_right_of (svalue base) w increasing source_descending) i
                    source_descending in
  match index_offset selected left right base_offset with
  | Some offset => if offset <? width source then Some offset else None
  | None => None
  end.

Definition part_default : Logic9 := 
  if is_logic9 source then Logic9_x else to_logic9 (if two_state then Logic4_zero else Logic4_x).

Definition part_element (i : Z) : Logic9 :=
  if some_unknown base then part_default
  else match part_source i with Some offset => at9 source offset | None => part_default end.

Lemma selected_i64 i : 0 <= i < w ->
  is_i64 (selected_index (selected_right_of (svalue base) w increasing source_descending) i source_descending).
Proof.
  intros Hi. pose proof (svalue_i64 base Wb). unfold is_i64, selected_index, selected_right_of, U32_MAX in *.
  destruct increasing, source_descending; lia.
Qed.

Lemma index_distance_abs x : is_i64 x -> index_distance x right = Z.abs (x - right).
Proof.
  intros Hx. rewrite <- distance_abs by done. unfold index_distance, sub64, wrap64.
  destruct (x >=? right); by rewrite <- Zminus_mod.
Qed.

(** The two guards of the loops, as one test. *)
Lemma part_guards {A} i (keep : A) (k : Z -> A) : 0 <= i < w ->
  let selected := selected_index (selected_right_of (svalue base) w increasing source_descending) i
                    source_descending in
  (if (selected <? Z.min left right) || (selected >? Z.max left right) then keep
   else if (Z.abs (selected - right) >? U32_MAX - base_offset)
           || (add64 base_offset (Z.abs (selected - right)) >=? width source)
   then keep else k (base_offset + Z.abs (selected - right)))
  = match part_source i with Some offset => k offset | None => keep end.
Proof.
  intros Hi selected. pose proof (selected_i64 i Hi) as Hsel. fold selected in Hsel.
  unfold part_source, index_offset. fold selected. rewrite !Z.gtb_ltb, Z.geb_leb.
  destruct (Z.ltb_spec (U32_MAX - base_offset) (Z.abs (selected - right))); simpl.
  - rewrite (proj2 (Z.leb_gt (base_offset + _) _)), andb_false_r by lia. by destruct (_ || _).
  - unfold add64, wrap64. rewrite Z.mod_small by (unfold U32_MAX in *; lia).
    cases_ltb; simpl; try done; try lia; cases_ltb; simpl; try done; lia.
Qed.

Lemma part_source_bound i offset : part_source i = Some offset -> 0 <= offset < width source.
Proof.
  unfold part_source, index_offset. destruct (_ && _); [|done]. cases_ltb; [|done]. intros [= <-]. lia.
Qed.

(** A part select reads the elements of the part that lie in the declared
    range and in the source, and yields the default elsewhere. *)
Lemma dynamic_part_select_spec :
  returns (dynamic_part_select_value source base left right base_offset w increasing source_descending two_state)
    (fun r => Rep r w (is_logic9 source) part_element).
Proof.
  unfold dynamic_part_select_value. rewrite Wb, (proj2 (Z.eqb_neq w 0)) by lia. cbn [negb orb Z.eqb Pos.eqb].
  apply returns_bind. eapply returns_mono; [apply make_spec; unfold U32_MAX, SIZE_MAX in *; lia|]. intros r0 R0.
  apply returns_bind. eapply (returns_mono _ (fun r => Rep r w (is_logic9 source) (fun _ => part_default))).
  { unfold part_default. pose proof R0 as [R1 R2 R3 R4 R5]. destruct (is_logic9 source); [|exact R0].
    eapply returns_mono; [by apply fill9_spec|]. by rewrite R2. }
  intros r1 R1. rewrite raw_base_spec by done. cbn [mbind outcome_bind]. unfold part_element.
  destruct (some_unknown base); [done|]. rewrite signed_raw_svalue by done.
  eapply element_loop; [lia|exact R1|]. intros i r h Hi R Hx. cbv beta zeta in Hx |- *.
  rewrite index_distance_abs by by apply selected_i64.
  rewrite (part_guards i (Ok r) (fun source_offset => if is_logic9 source then
              element ← get_logic9 source source_offset; set_logic9 r i element
            else element ← get source source_offset; set r i element)) by done.
  pose proof (part_source_bound i) as Hbound. destruct (part_source i) as [offset|]; [|by apply Rep_keep].
  specialize (Hbound offset eq_refl). destruct (is_logic9 source) eqn:En.
  - rewrite get_logic9_ok by lia. by apply Rep_set9.
  - rewrite get_ok, at9_four by (done || lia). by apply Rep_set.
Qed.
(** Copying one bit of a word into another. *)
Lemma copied_bit R S from i j : 0 <= i < 64 -> 0 <= j < 64 -> 0 <= from ->
  Z.testbit (Z.lor (Z.land R (not64 (shl64 1 i))) (shl64 (Z.land (Z.shiftr S from) 1) i)) j
  = if j =? i then Z.testbit S from else Z.testbit R j.
Proof.
  intros Hi Hj Hf. rewrite Z.lor_spec, Z.land_spec, testbit_not64, testbit_shl_one, testbit_shl64 by lia.
  rewrite (proj2 (Z.ltb_lt j 64)) by lia. simpl.
  destruct (Z.eqb_spec j i) as [->|]; simpl.
  - rewrite Z.sub_diag, andb_false_r, Z.land_spec, Z.shiftr_spec by lia. simpl. by rewrite andb_true_r.
  - rewrite andb_true_r. destruct (Z.ltb_spec j i).
    + by rewrite (Z.testbit_neg_r _ (j - i)), orb_false_r by lia.
    + change 1 with (Z.ones 1). rewrite Z.land_spec, Z.testbit_ones_nonneg by lia.
      by rewrite (proj2 (Z.ltb_ge (j - i) 1)), andb_false_r, orb_false_r by lia.
Qed.

(** The bits of the word part select: the loop of the kernel builds the
    elements of the part one position at a time. *)
Definition word_default : Logic4 := if two_state then Logic4_zero else Logic4_x.
Definition word_element (i : Z) : Logic4 :=
  match part_source i with Some offset => at4 source offset | None => word_default end.

Lemma kw_part_start i : 0 <= i < w -> w <= 64 ->
  let start := if two_state then mkWord 0 0 else kw_all_x w in
  Z.testbit (word_a start) i = aval_bit word_default /\
  Z.testbit (word_b start) i = bval_bit word_default.
Proof.
  intros Hi Hw64 start. subst start. unfold word_default. destruct two_state; simpl; [by rewrite Z.bits_0|].
  by rewrite (mask_in w) by lia.
Qed.

Lemma kw_part_step k x i :
  is_logic9 source = false -> 0 < width source <= 64 -> w <= 64 -> 0 <= k < w -> 0 <= i < w ->
  let element := fun k i => if i <? k then word_element i else word_default in
  (Z.testbit (word_a x) i = aval_bit (element k i) /\ Z.testbit (word_b x) i = bval_bit (element k i)) ->
  let x' := match part_source k with
    | Some from => mkWord
        (Z.lor (Z.land (word_a x) (not64 (shl64 1 k))) (shl64 (Z.land (Z.shiftr (word_a (word_of source)) from) 1) k))
        (Z.lor (Z.land (word_b x) (not64 (shl64 1 k))) (shl64 (Z.land (Z.shiftr (word_b (word_of source)) from) 1) k))
    | None => x end in
  Z.testbit (word_a x') i = aval_bit (element (k + 1) i) /\
  Z.testbit (word_b x') i = bval_bit (element (k + 1) i).
Proof.
  intros Ns Ws Hw64 Hk Hi element IH x'. subst element x'. cbv beta in *.
  pose proof (word_of_rep source Hs Ns Ws) as [_ _ Sa Sb]. pose proof (part_source_bound k) as Hbound.
  destruct (Z.eq_dec i k) as [->|Hne].
  - rewrite Z.ltb_irrefl in IH. rewrite (proj2 (Z.ltb_lt k (k + 1))) by lia. unfold word_element.
    destruct (part_source k) as [from|]; [|done]. specialize (Hbound from eq_refl). simpl.
    rewrite !copied_bit, Z.eqb_refl by lia. by rewrite <- Sa, <- Sb by done.
  - replace (i <? k + 1) with (i <? k) by (cases_ltb; lia).
    destruct (part_source k) as [from|]; [|done]. specialize (Hbound from eq_refl). simpl.
    rewrite !copied_bit by lia. by rewrite !(proj2 (Z.eqb_neq i k)).
Qed.

Lemma kw_part_select_bits i :
  is_logic9 source = false -> is_logic9 base = false -> 0 < width source <= 64 -> w <= 64 -> 0 <= i < w ->
  let r := kw_dynamic_part_select (word_of source) (width source) (word_of base) left right base_offset w
             increasing source_descending two_state in
  let e := if some_unknown base then word_default else word_element i in
  Z.testbit (word_a r) i = aval_bit e /\ Z.testbit (word_b r) i = bval_bit e.
Proof.
  intros Ns Nb Ws Hw64 Hi r e. subst r e. unfold kw_dynamic_part_select.
  destruct (word_base base Hb Nb Wb) as [-> Hbase]. destruct (some_unknown base) eqn:Eu; [by apply kw_part_start|].
  rewrite Hbase by done. destruct (range_bounds left right) as [-> ->]. cbv zeta.
  match goal with |- context [foreach_pure ?l ?body ?start] => set (r := foreach_pure l body start) end.
  cut (forall i, 0 <= i < w -> Z.testbit (word_a r) i = aval_bit (if i <? w then word_element i else word_default) /\
    Z.testbit (word_b r) i = bval_bit (if i <? w then word_element i else word_default)).
  { intros H. specialize (H i Hi). by rewrite (proj2 (Z.ltb_lt i w)) in H by lia. }
  clear i Hi. apply (foreach_pure_up (fun k r => forall i, 0 <= i < w ->
    Z.testbit (word_a r) i = aval_bit (if i <? k then word_element i else word_default) /\
    Z.testbit (word_b r) i = bval_bit (if i <? k then word_element i else word_default))); [|lia|].
  - intros k x Hk IH i Hi. unfold kw_distance. rewrite distance_abs by (done || by apply selected_i64).
    rewrite (part_guards k x (fun from => mkWord
      (Z.lor (Z.land (word_a x) (not64 (shl64 1 k))) (shl64 (Z.land (Z.shiftr (word_a (word_of source)) from) 1) k))
      (Z.lor (Z.land (word_b x) (not64 (shl64 1 k))) (shl64 (Z.land (Z.shiftr (word_b (word_of source)) from) 1) k))))
      by lia.
    by apply kw_part_step, IH.
  - intros i Hi. rewrite (proj2 (Z.ltb_ge i 0)) by lia. by apply kw_part_start.
Qed.

(** The word part select packs to what the element code returns. *)
Lemma kw_dynamic_part_select_reference :
  is_logic9 source = false -> is_logic9 base = false -> 0 < width source <= 64 -> w <= 64 ->
  let r := kw_dynamic_part_select (word_of source) (width source) (word_of base) left right base_offset w
             increasing source_descending two_state in
  from_aval_bval w (word_a r) (word_b r)
  = dynamic_part_select_value source base left right base_offset w increasing source_descending two_state.
Proof.
  intros Ns Nb Ws Hw64 r. pose proof dynamic_part_select_spec as Href. rewrite Ns in Href.
  eapply returns_Rep_eq; [|exact Href]. eapply returns_mono.
  { apply (pack_rep w r (fun i => if some_unknown base then word_default else word_element i)); [lia|..];
      intros i Hi; by apply kw_part_select_bits. }
  intros v HR. eapply Rep_ext; [exact HR|]. intros i Hi. unfold part_element, part_default, word_element.
  rewrite Ns. destruct (some_unknown base); [done|].
  destruct (part_source i) as [offset|]; [|done]. by rewrite at9_four.
Qed.
End part_select.

(** * Part writes *)

Section part_write.
Context (source base : PackedLogic4) (selection : DynamicPartIndex).
Let w := dpi_width selection.
Let left := dpi_left selection.
Let right := dpi_right selection.
Let offset0 := dpi_base_offset selection.
Let descending := dpi_source_descending selection.
Let selected_right := selected_right_of (svalue base) w (dpi_increasing selection) descending.
Let span := Z.abs (left - right).

(** The declared range runs in the direction the selection records, and its
    offsets are 32-bit numbers. *)
Record selection_ok : Prop := {
  sel_left : is_i64 left;
  sel_right : is_i64 right;
  sel_direction : if descending then right <= left else left <= right;
  sel_width : 0 < w <= U32_MAX;
  sel_offset : 0 <= offset0;
  sel_span : offset0 + span <= U32_MAX;
}.
Context (Hsel : selection_ok).
Context (Hs : wf source) (Ws : width source = w) (Hb : wf base) (Wb : width base = 32).

(** Bit [i] of the part belongs at [part_origin + i] of the target; the bits
    from [part_first] below [part_last] fall inside the declared range. *)
Definition part_origin : Z :=
  offset0 + (if descending then selected_right - right else right - selected_right).
Definition part_first : Z := Z.max 0 (offset0 - part_origin).
Definition part_last : Z := Z.min w (offset0 + span + 1 - part_origin).

Lemma part_index i : 0 <= i < w ->
  let selected := selected_index selected_right i descending in
  is_i64 selected /\
  ((selected <? Z.min left right) || (selected >? Z.max left right)
   = negb ((part_first <=? i) && (i <? part_last))) /\
  (part_first <= i < part_last -> Z.abs (selected - right) = part_origin + i - offset0).
Proof.
  destruct Hsel as [Sl Sr Sd Sw So Ss]. intros Hi selected. pose proof (svalue_i64 base Wb).
  rewrite Z.gtb_ltb. subst selected. unfold part_first, part_last, part_origin, selected_right, span,
    selected_index, selected_right_of, is_i64, U32_MAX in *.
  destruct descending, (dpi_increasing selection); cases_ltb; simpl; split_and!; try done; lia.
Qed.

Lemma part_position i : part_first <= i < part_last ->
  0 <= i < w /\ offset0 <= part_origin + i <= offset0 + span.
Proof. unfold part_first, part_last. lia. Qed.

(** What the scan has found before bit [b]. *)
Definition part_scan (b : Z) : option (Z * Z) * Z :=
  if (b <=? part_first) || (part_last <=? part_first) then (None, 0)
  else (Some (part_first, part_origin + part_first), Z.min b part_last - part_first).

Lemma part_scan_step b : 0 <= b < w -> part_scan (b + 1) =
  if (part_first <=? b) && (b <? part_last)
  then (match fst (part_scan b) with None => Some (b, part_origin + b) | found => found end,
        snd (part_scan b) + 1)
  else part_scan b.
Proof.
  intros Hi. unfold part_scan.
  destruct (Z.leb_spec part_last part_first).
  - rewrite !orb_true_r. cases_ltb; done || lia.
  - rewrite !orb_false_r. destruct (Z.lt_trichotomy b part_first) as [|[->|]].
    + rewrite (proj2 (Z.leb_le (b + 1) _)), (proj2 (Z.leb_gt part_first b)), (proj2 (Z.leb_le b _)) by lia. done.
    + rewrite (proj2 (Z.leb_gt (_ + 1) _)), Z.leb_refl, (proj2 (Z.ltb_lt _ _)) by lia. simpl.
      do 2 f_equal; lia.
    + rewrite !(proj2 (Z.leb_gt _ part_first)), (proj2 (Z.leb_le part_first b)) by lia. simpl.
      destruct (Z.ltb_spec b part_last); simpl; f_equal; lia.
Qed.
(** The values one step of either scan compares. *)
Lemma part_step_values b : 0 <= b < w -> part_first <= b < part_last ->
  wrap32 (offset0 + (part_origin + b - offset0)) = part_origin + b /\
  add64 offset0 (part_origin + b - offset0) = part_origin + b /\
  (snd (part_scan b) = if b =? part_first then 0 else b - part_first) /\
  (fst (part_scan b) = if b =? part_first then None else Some (part_first, part_origin + part_first)).
Proof.
  intros Hb' Hin. destruct (part_position b Hin) as [_ Hp].
  destruct Hsel as [Sl Sr Sd Sw So Ss]. unfold U32_MAX in *.
  replace (offset0 + (part_origin + b - offset0)) with (part_origin + b) by lia.
  unfold wrap32, add64, wrap64. replace (offset0 + (part_origin + b - offset0)) with (part_origin + b) by lia.
  rewrite !Z.mod_small by lia. unfold part_scan. rewrite (proj2 (Z.leb_gt part_last _)), orb_false_r by lia.
  destruct (Z.eqb_spec b part_first) as [->|]; [by rewrite Z.leb_refl|].
  rewrite (proj2 (Z.leb_gt b _)) by lia. simpl. split_and!; try done. lia.
Qed.

Lemma part_scan_loop :
  foreach (up 0 w) (fun bit (s : option (Z * Z) * Z) =>
    let '(first, selected_width) := s in
    let selected := selected_index selected_right bit descending in
    if (selected <? Z.min left right) || (selected >? Z.max left right) then Ok s
    else
      let offset := index_distance selected right in
      if offset >? U32_MAX then Throw part_offset_not_representable
      else
        match first with
        | None =>
            if offset >? U32_MAX - offset0 then Throw part_offset_not_representable
            else Ok (Some (bit, wrap32 (offset0 + offset)), selected_width + 1)
        | Some (first_source_bit, first_target_offset) =>
            if negb (bit =? wrap32 (first_source_bit + selected_width))
               || negb (add64 offset0 offset =? wrap32 (first_target_offset + selected_width))
            then Throw part_not_contiguous
            else Ok (first, selected_width + 1)
        end) (None, 0) = Ok (part_scan w).
Proof.
  destruct Hsel as [Sl Sr Sd Sw So Ss]. apply returns_eq.
  eapply returns_mono; [apply (foreach_up (fun b s => s = part_scan b))|].
  - intros b s Hb' ->. rewrite part_scan_step by done. cbv zeta.
    destruct (part_index b Hb') as (Hi & -> & Habs). destruct (part_scan b) as [first n] eqn:Ep.
    destruct ((part_first <=? b) && (b <? part_last)) eqn:Ein; cbn [negb returns]; [|done].
    apply andb_true_iff in Ein as [Hf%Z.leb_le Hl%Z.ltb_lt].
    rewrite index_distance_abs by done. rewrite (Habs ltac:(lia)), !Z.gtb_ltb.
    destruct (part_position b ltac:(lia)) as [_ Hp].
    destruct (part_step_values b Hb' ltac:(lia)) as (E1 & E2 & E3 & E4). rewrite Ep in E3, E4. simpl in E3, E4.
    rewrite E1, E2, (proj2 (Z.ltb_ge U32_MAX _)), (proj2 (Z.ltb_ge (U32_MAX - _) _)) by lia.
    destruct (Z.eqb_spec b part_first) as [->|]; subst first n; cbn [returns fst snd]; [done|].
    unfold wrap32, U32_MAX in *. rewrite !Z.mod_small by lia.
    replace (part_first + (b - part_first)) with b by lia.
    replace (part_origin + part_first + (b - part_first)) with (part_origin + b) by lia.
    by rewrite !Z.eqb_refl.
  - lia.
  - unfold part_scan. by rewrite (proj2 (Z.leb_le 0 part_first)) by (unfold part_first; lia).
  - by intros s ->.
Qed.
Lemma part_scan_end :
  part_scan w = if part_last <=? part_first then (None, 0)
    else (Some (part_first, part_origin + part_first), part_last - part_first).
Proof.
  unfold part_scan. destruct (Z.leb_spec part_last part_first); [by rewrite orb_true_r|].
  rewrite orb_false_r, (proj2 (Z.leb_gt w _)) by (unfold part_last in *; lia).
  f_equal. unfold part_last in *. lia.
Qed.

(** The base as the write reads it: through the word shortcut or the loop. *)
Lemma part_base :
  match known_unsigned_value base with
  | Some known => Ok (Some (wrap32 known))
  | None => if negb (is_logic9 base) then Ok None else raw_base base
  end = Ok (if some_unknown base then None else Some (uvalue base)).
Proof.
  pose proof (uvalue_bound base ltac:(lia)) as Hu. rewrite Wb in Hu.
  destruct (is_logic9 base) eqn:En.
  - unfold known_unsigned_value. rewrite En, orb_true_r. by apply raw_base_spec.
  - pose proof (fun n => known_unsigned_value_spec base n Hb En ltac:(lia)) as Hspec.
    destruct (known_unsigned_value base) as [n|] eqn:E.
    + destruct (proj1 (Hspec n) eq_refl) as (Hk & <- & _). rewrite (proj2 (some_unknown_false base) Hk).
      unfold wrap32. by rewrite Z.mod_small.
    + destruct (some_unknown base) eqn:Eu; [done|]. apply some_unknown_false in Eu.
      assert (None = Some (uvalue base)) by (apply Hspec; split_and!; done || lia). done.
Qed.

(** A part write selects exactly the bits of the source inside the declared
    range; an unknown base or an empty intersection writes nothing. *)
Lemma dynamic_part_write_spec :
  returns (dynamic_part_write_value source base selection) (fun o =>
    if some_unknown base || (part_last <=? part_first) then o = None
    else exists value, o = Some (mkDynamicPartWrite value (part_origin + part_first)) /\
           Rep value (part_last - part_first) (is_logic9 source) (fun i => at9 source (part_first + i))).
Proof.
  pose proof Hsel as [Sl Sr Sd Sw So Ss]. unfold dynamic_part_write_value. fold w.
  rewrite Wb, Ws, !Z.eqb_refl, (proj2 (Z.eqb_neq w 0)) by lia. cbn [negb orb].
  rewrite part_base. cbn [mbind outcome_bind].
  destruct (some_unknown base); [done|]. rewrite signed_raw_svalue by done. cbn [orb].
  cbv zeta. pose proof part_scan_loop as Hloop. cbv zeta in Hloop.
  unfold selected_right, left, right, offset0, descending in Hloop. rewrite Hloop.
  cbn [mbind outcome_bind]. rewrite part_scan_end.
  destruct (Z.leb_spec part_last part_first); [done|]. apply returns_bind.
  assert (0 <= part_first /\ part_last <= w) as [? ?] by (unfold part_first, part_last; lia).
  eapply returns_mono; [apply extract_bits_spec; done || lia|]. intros value R. cbn [returns]. eauto.
Qed.

(** The target after the write: bit [i] of the source at [part_origin + i],
    where that lies in the declared range, every other element kept. *)
Definition part_written (j : Z) : bool :=
  negb (some_unknown base) && in_range part_origin w j && (offset0 <=? j) && (j <=? offset0 + span).

Lemma dynamic_part_insert_spec target :
  wf target -> has_live_plane_backing target = false -> offset0 + span < width target ->
  returns (dynamic_part_insert_value target source base selection) (fun r =>
    wf r /\ width r = width target /\
    forall j, 0 <= j < width target ->
      at9 r j = if part_written j then at9 source (j - part_origin) else at9 target j).
Proof.
  intros Ht Hlive Hfit. pose proof Hsel as [Sl Sr Sd Sw So Ss]. unfold dynamic_part_insert_value, part_written.
  apply returns_bind. eapply returns_mono; [apply dynamic_part_write_spec|]. intros o Ho.
  destruct (some_unknown base); cbn [orb andb negb] in Ho |- *; [by subst o|].
  destruct (Z.leb_spec part_last part_first).
  - subst o. split_and!; try done. intros j Hj. unfold in_range, part_first, part_last in *.
    cases_ltb; simpl; done || lia.
  - destruct Ho as (value & -> & [V1 V2 V3 V4 V5]).
    destruct (part_position part_first ltac:(lia)). destruct (part_position (part_last - 1) ltac:(lia)).
    eapply returns_mono; [apply insert_bits_spec; simpl; auto; lia|].
    intros r (U1 & U2 & U3 & U4 & U5). split_and!; try done. intros j Hj. rewrite U5 by done. simpl.
    rewrite V2. unfold in_range, part_first, part_last in *.
    destruct (Z.leb_spec (part_origin + Z.max 0 (offset0 - part_origin)) j),
      (Z.ltb_spec j (part_origin + Z.max 0 (offset0 - part_origin) +
        (Z.min w (offset0 + span + 1 - part_origin) - Z.max 0 (offset0 - part_origin)))); simpl;
      cases_ltb; simpl; try lia; try done.
    rewrite V5 by lia. f_equal. lia.
Qed.
(** The word scan keeps the same state in another shape. *)
Definition word_scan (s : option (Z * Z) * Z) : PartScan :=
  (fst <$> fst s, from_option snd 0 (fst s), snd s).

Lemma kw_part_scan_loop :
  foreach_flow (R := unit) (up 0 w) (fun index (s : PartScan) =>
    let '(first_source, first_target, selected_width) := s in
    let selected := selected_index selected_right index descending in
    if (selected <? Z.min left right) || (selected >? Z.max left right) then Ok (inl s)
    else
      let offset := kw_distance selected right in
      if offset >? U32_MAX then Ok (inr tt)
      else
        match first_source with
        | None =>
            if offset >? U32_MAX - offset0 then Ok (inr tt)
            else Ok (inl (Some index, add64 offset0 offset, selected_width + 1))
        | Some first =>
            if negb (index =? wrap32 (first + selected_width))
               || negb (add64 offset0 offset =? add64 first_target selected_width)
            then Ok (inr tt)
            else Ok (inl (first_source, first_target, selected_width + 1))
        end) (None, 0, 0) = Ok (inl (word_scan (part_scan w))).
Proof.
  destruct Hsel as [Sl Sr Sd Sw So Ss]. apply returns_eq.
  eapply returns_mono; [apply (foreach_flow_up (fun b s => s = word_scan (part_scan b)) (fun _ => False))|].
  - intros b s Hb' ->. rewrite part_scan_step by done. cbv zeta.
    destruct (part_index b Hb') as (Hi & -> & Habs). destruct (part_scan b) as [first n] eqn:Ep.
    destruct ((part_first <=? b) && (b <? part_last)) eqn:Ein; cbn [negb returns]; [|done].
    apply andb_true_iff in Ein as [Hf%Z.leb_le Hl%Z.ltb_lt].
    unfold kw_distance. rewrite distance_abs by done. rewrite (Habs ltac:(lia)), !Z.gtb_ltb.
    destruct (part_position b ltac:(lia)) as [_ Hp].
    destruct (part_step_values b Hb' ltac:(lia)) as (E1 & E2 & E3 & E4). rewrite Ep in E3, E4. simpl in E3, E4.
    unfold word_scan. cbn [fst snd].
    rewrite E2, (proj2 (Z.ltb_ge U32_MAX _)), (proj2 (Z.ltb_ge (U32_MAX - _) _)) by lia.
    destruct (Z.eqb_spec b part_first) as [->|]; subst first n; cbn [returns fst snd fmap option_fmap option_map from_option]; [done|].
    unfold wrap32, add64, wrap64, U32_MAX in *. rewrite !Z.mod_small by lia.
    replace (part_first + (b - part_first)) with b by lia.
    replace (part_origin + part_first + (b - part_first)) with (part_origin + b) by lia.
    by rewrite !Z.eqb_refl.
  - lia.
  - unfold part_scan. by rewrite (proj2 (Z.leb_le 0 part_first)) by (unfold part_first; lia).
  - by intros [s|[]] Hx; [rewrite Hx|].
Qed.

(** The word write computes the same slice and offset. *)
Lemma kw_dynamic_part_write_reference :
  is_logic9 source = false -> is_logic9 base = false -> w <= 64 ->
  returns (dynamic_part_write_value source base selection) (fun o =>
    match o with
    | None => kw_dynamic_part_write (word_of source) (word_of base) selection = Some None
    | Some written => exists p,
        kw_dynamic_part_write (word_of source) (word_of base) selection = Some (Some p) /\
        pw_offset p = dpw_offset written /\ pw_width p = width (dpw_value written) /\
        from_aval_bval (pw_width p) (word_a (pw_value p)) (word_b (pw_value p)) = Ok (dpw_value written)
    end).
Proof.
  intros Ns Nb Hw64. pose proof Hsel as [Sl Sr Sd Sw So Ss].
  eapply returns_mono; [apply dynamic_part_write_spec|]. intros o Ho.
  unfold kw_dynamic_part_write. destruct (word_base base Hb Nb Wb) as [-> Hbase].
  destruct (some_unknown base); cbn [orb] in Ho; [by subst o|]. rewrite Hbase by done. cbv zeta.
  destruct (range_bounds (dpi_left selection) (dpi_right selection)) as [-> ->].
  pose proof kw_part_scan_loop as Hloop. cbv zeta in Hloop.
  unfold selected_right, left, right, offset0, descending in Hloop. fold w. rewrite Hloop, part_scan_end.
  destruct (Z.leb_spec part_last part_first); [by subst o|].
  destruct Ho as (value & -> & R). eexists. split; [done|]. cbn [pw_offset pw_width pw_value dpw_offset dpw_value].
  destruct (part_position part_first ltac:(lia)). destruct (part_position (part_last - 1) ltac:(lia)).
  split; [|split].
  - simpl. unfold wrap32, U32_MAX in *. rewrite Z.mod_small by lia. done.
  - by rewrite (rep_width _ _ _ _ R).
  - simpl. eapply (returns_Rep_eq _ (Ok value)); [|exact R]. rewrite Ns.
    pose proof (word_of_rep source Hs Ns ltac:(lia)) as [_ _ Ba Bb].
    unfold kw_extract. rewrite Z.geb_leb, (proj2 (Z.leb_gt 64 _)) by lia.
    eapply returns_mono; [apply (pack_rep (part_last - part_first)
      (mkWord (Z.land (Z.shiftr (word_a (word_of source)) part_first) (kw_mask (part_last - part_first)))
              (Z.land (Z.shiftr (word_b (word_of source)) part_first) (kw_mask (part_last - part_first))))
      (fun i => at4 source (part_first + i))); [lia|..]|].
    1-2: intros i Hi; simpl; rewrite Z.land_spec, Z.shiftr_spec, mask_in, andb_true_r, Z.add_comm by lia;
      simpl in Ba, Bb; first [apply Ba | apply Bb]; lia.
    intros v HR. eapply Rep_ext; [exact HR|]. intros i Hi. cbv beta. by rewrite at9_four.
Qed.
End part_write.

(** * Concatenation *)

Definition total_width (operands : list PackedLogic4) : Z :=
  foldr (fun v n => width v + n) 0 operands.

Lemma total_width_app l1 l2 : total_width (l1 ++ l2) = total_width l1 + total_width l2.
Proof. induction l1; simpl; lia. Qed.

Lemma total_width_rev l : total_width (rev l) = total_width l.
Proof. induction l; simpl; [done|]. rewrite total_width_app, IHl. simpl. lia. Qed.

Lemma total_width_nonneg l : Forall wf l -> 0 <= total_width l.
Proof. induction 1 as [|v l Hv _ IH]; simpl; [lia|]. pose proof (wf_width _ Hv). lia. Qed.

Lemma concatenation_width l : Forall wf l -> total_width l <= SIZE_MAX ->
  foreach l (fun operand w =>
    if width operand >? SIZE_MAX - w then Throw (invalid_argument "concatenation width overflows")
    else Ok (w + width operand)) 0 = Ok (total_width l).
Proof.
  intros Hl Hmax. rewrite <- (Z.add_0_l (total_width l)).
  assert (0 + total_width l <= SIZE_MAX) as H0 by lia. revert H0. generalize 0 as n. clear Hmax.
  induction Hl as [|v l Hv Hl IH]; intros n Hn; simpl; [f_equal; lia|].
  pose proof (total_width_nonneg l Hl). simpl in Hn. rewrite Z.gtb_ltb.
  rewrite (proj2 (Z.ltb_ge (SIZE_MAX - n) (width v))) by lia. cbn [mbind outcome_bind].
  rewrite IH by lia. f_equal. lia.
Qed.

Lemma snoc_split {A} (l : list A) x pre y post : l ++ [x] = pre ++ y :: post ->
  (exists post', post = post' ++ [x] /\ l = pre ++ y :: post') \/ (post = [] /\ y = x /\ l = pre).
Proof.
  destruct post as [|z post _] using rev_ind; intros H.
  - right. apply app_inj_tail in H as [-> ->]. done.
  - left. exists post. rewrite app_comm_cons, app_assoc in H. apply app_inj_tail in H as [-> ->]. done.
Qed.

(** The elements placed so far, least significant operand first. *)
Definition concat_inv (w : Z) (nine : bool) (placed : list PackedLogic4) (ro : PackedLogic4 * Z) : Prop :=
  ro.2 = total_width placed /\ wf ro.1 /\ width ro.1 = w /\ is_logic9 ro.1 = nine /\
  has_live_plane_backing ro.1 = false /\
  forall pre v post, placed = pre ++ v :: post ->
    forall i, 0 <= i < width v -> at9 ro.1 (total_width pre + i) = at9 v i.

Lemma concat_step w nine placed v ro :
  Forall wf placed -> wf v -> total_width placed + width v <= w -> (is_logic9 v = true -> nine = true) ->
  concat_inv w nine placed ro ->
  returns (let '(result, offset) := ro in
    result ← (if negb (width v =? 0) then insert_bits result v offset else Ok result);
    Ok (result, offset + width v)) (concat_inv w nine (placed ++ [v])).
Proof.
  destruct ro as [r offset]. intros Hp Hv Hfit Hnine (Ho & R1 & R2 & R3 & R4 & R5). simpl in Ho, R1, R2, R3, R4, R5.
  pose proof (wf_width _ Hv) as Hw. pose proof (total_width_nonneg placed Hp). subst offset.
  assert (returns (if negb (width v =? 0) then insert_bits r v (total_width placed) else Ok r)
    (fun r' => wf r' /\ width r' = w /\ is_logic9 r' = nine /\ has_live_plane_backing r' = false /\
       forall j, 0 <= j < w -> at9 r' j =
         if in_range (total_width placed) (width v) j then at9 v (j - total_width placed) else at9 r j)) as Hins.
  { destruct (Z.eqb_spec (width v) 0) as [E|]; cbn [negb].
    - cbn [returns]. split_and!; try done. intros j Hj. unfold in_range. rewrite E. cases_ltb; simpl; done || lia.
    - eapply returns_mono; [apply insert_bits_spec; auto; lia|]. intros r' (U1 & U2 & U3 & U4 & U5).
      split_and!; try congruence.
      + rewrite U3, R3. destruct nine, (is_logic9 v); try done. by specialize (Hnine eq_refl).
      + intros j Hj. apply U5. lia. }
  apply returns_bind. eapply returns_mono; [exact Hins|]. intros r' (S1 & S2 & S3 & S4 & S5).
  cbn [returns]. split_and!; try done.
  { simpl. rewrite total_width_app. simpl. lia. }
  intros pre u post Hl i Hi. cbn [fst]. destruct (snoc_split placed v pre u post Hl) as [(post' & -> & Hpl)|(-> & -> & <-)].
  - pose proof Hp as Hp'. rewrite Hpl in Hp'. apply Forall_app in Hp' as [Hpre [Hu Hpost]%Forall_cons].
    pose proof (total_width_nonneg pre Hpre). pose proof (total_width_nonneg post' Hpost).
    assert (total_width placed = total_width pre + (width u + total_width post')) as Et
      by (rewrite Hpl, total_width_app; done).
    rewrite S5 by lia. unfold in_range. rewrite (proj2 (Z.leb_gt (total_width placed) _)) by lia.
    by apply (R5 pre u post').
  - rewrite S5 by lia. unfold in_range.
    rewrite (proj2 (Z.leb_le _ _)), (proj2 (Z.ltb_lt _ _)) by lia. simpl. f_equal. lia.
Qed.

(** The operands side by side, the last one least significant; the result is
    nine-state when an operand is. *)
Lemma concatenate_values_spec operands :
  Forall wf operands -> 0 < total_width operands <= SIZE_MAX / 4 ->
  returns (concatenate_values operands (total_width operands)) (fun r =>
    wf r /\ width r = total_width operands /\ is_logic9 r = existsb is_logic9 operands /\
    has_live_plane_backing r = false /\
    forall pre v post, operands = pre ++ v :: post ->
      forall i, 0 <= i < width v -> at9 r (total_width post + i) = at9 v i).
Proof.
  intros Hops Hw. set (w := total_width operands) in *. unfold concatenate_values.
  rewrite bool_decide_eq_false_2 by (intros ->; simpl in w; lia).
  rewrite concatenation_width by (done || (fold w; unfold SIZE_MAX in *; lia)). fold w. cbn [mbind outcome_bind].
  rewrite Z.eqb_refl, (proj2 (Z.eqb_neq w 0)) by lia. cbn [negb orb].
  apply returns_bind. eapply returns_mono; [apply make_spec; lia|]. intros r0 R0.
  apply returns_bind. eapply (returns_mono _ (fun r => exists f, Rep r w (existsb is_logic9 operands) f)).
  { pose proof R0 as [R1 R2 R3 R4 R5]. destruct (existsb is_logic9 operands); [|eexists; exact R0].
    eapply returns_mono; [by apply fill9_spec|]. rewrite R2. intros r Hr. eexists. exact Hr. }
  intros r1 (f & [Q1 Q2 Q3 Q4 Q5]). apply returns_bind.
  eapply returns_mono; [apply (foreach_prefix (concat_inv w (existsb is_logic9 operands)))|].
  - split_and!; try done. intros [|] ? ? [=].
  - intros placed v rest ro Hrev Hinv.
    assert (Forall wf (placed ++ v :: rest)) as Hall by (rewrite <- Hrev; by apply Forall_rev).
    apply Forall_app in Hall as [Hp [Hv Hrest]%Forall_cons]. apply concat_step; try done.
    + pose proof (total_width_nonneg rest Hrest).
      assert (w = total_width placed + (width v + total_width rest)) as ->; [|lia].
      subst w. rewrite <- (total_width_rev operands), Hrev, total_width_app. done.
    + intros Hnine. apply existsb_exists. exists v. split; [|done]. apply in_rev. rewrite Hrev.
      apply in_or_app. right. by left.
  - intros [r offset] (_ & S1 & S2 & S3 & S4 & S5). simpl in *. split_and!; try done.
    intros pre v post -> i Hi. rewrite <- (total_width_rev post). apply (S5 (rev post) v (rev pre)); [|done].
    rewrite rev_app_distr. simpl. by rewrite <- app_assoc.
Qed.
