(* ===== verification/ReaderPins.v ===== *)
(** * Read pins of a plane block

    Model of the atomic word [reader_state_] of [PackedLogic4PlaneBlock]
    (src/runtime/packed_value.cpp): readers pin a block so that it stays
    immutable, a writer takes it only when no pin is held.  Every atomic
    operation is one step and the steps of any number of threads interleave;
    memory is sequentially consistent.  A thread that holds several pins is
    several actors of the model. *)
From stdpp Require Import relations.
From S2P Require Import Prelude.

Definition writer_bit : Z := 2 ^ 63.

(** Where an actor stands: outside, inside the loop of [acquire_read_pin] with
    the value it last loaded, holding a pin, writing, or stopped by
    [std::terminate]. *)
Inductive PinThread :=
  | Idle
  | Acquiring (state : Z)
  | Pinned
  | Writing
  | Terminated.

#[global] Instance pin_thread_eq_dec : EqDecision PinThread.
Proof. solve_decision. Defined.

(** One iteration of the loop of [acquire_read_pin] with the loaded value
    [state]; [spurious] is a spurious failure of [compare_exchange_weak]. *)
Definition acquire_attempt (shared state : Z) (spurious : bool) : Z * PinThread :=
  if negb (Z.land state writer_bit =? 0) then (shared, Acquiring shared)
  else if state =? writer_bit - 1 then (shared, Terminated)
  else if (shared =? state) && negb spurious then (add64 state 1, Pinned)
  else (shared, Acquiring shared).

(** [fetch_sub], and the two assertions on the value it returns. *)
Definition release_read_pin (shared : Z) : Z := sub64 shared 1.
Definition release_asserts (previous : Z) : bool :=
  negb (previous =? 0) && (Z.land previous writer_bit =? 0).

Definition has_read_pins (shared : Z) : bool := negb (shared =? 0).
Definition write_locked (shared : Z) : bool := negb (Z.land shared writer_bit =? 0).

Definition try_begin_write (shared : Z) : Z * bool :=
  if shared =? 0 then (writer_bit, true) else (shared, false).

Definition end_write : Z := 0.
Definition end_write_asserts (shared : Z) : bool := shared =? writer_bit.

Record PinState := mkPinState { reader_state : Z; threads : list PinThread }.

Definition move (st : PinState) (i : nat) (shared : Z) (t : PinThread) : PinState :=
  mkPinState shared (<[i := t]> (threads st)).

(** An actor does one atomic operation. *)
Inductive pin_step (st : PinState) : PinState -> Prop :=
  | step_load i :
      threads st !! i = Some Idle ->
      pin_step st (move st i (reader_state st) (Acquiring (reader_state st)))
  | step_attempt i state spurious :
      threads st !! i = Some (Acquiring state) ->
      pin_step st (let '(shared, t) := acquire_attempt (reader_state st) state spurious in
                   move st i shared t)
  | step_release i :
      threads st !! i = Some Pinned ->
      pin_step st (move st i (release_read_pin (reader_state st)) Idle)
  | step_try_write i :
      threads st !! i = Some Idle ->
      pin_step st (let '(shared, locked) := try_begin_write (reader_state st) in
                   move st i shared (if locked then Writing else Idle))
  | step_end_write i :
      threads st !! i = Some Writing ->
      pin_step st (move st i end_write Idle).

Definition pin_initial (n : nat) : PinState := mkPinState 0 (replicate n Idle).
Definition pin_reachable (n : nat) (st : PinState) : Prop := rtc pin_step (pin_initial n) st.

(** * Theorems *)

Definition is_thread (t u : PinThread) : Z := Z.b2z (bool_decide (t = u)).
Definition count (t : PinThread) (l : list PinThread) : Z :=
  foldr (fun u n => is_thread t u + n) 0 l.

Lemma count_nonneg t l : 0 <= count t l.
Proof. induction l as [|u l IH]; simpl; [lia|]. unfold is_thread. destruct (bool_decide _); simpl; lia. Qed.

Lemma count_insert t l i old new : l !! i = Some old ->
  count t (<[i := new]> l) = count t l - is_thread t old + is_thread t new.
Proof.
  revert i. induction l as [|u l IH]; intros [|i] H; simpl in *; try done.
  - injection H as ->. lia.
  - rewrite (IH i H). lia.
Qed.

Lemma count_positive t l i : l !! i = Some t -> 1 <= count t l.
Proof.
  intros H. pose proof (count_nonneg t (<[i := t]> l)) as Hn. revert i H Hn.
  induction l as [|u l IH]; intros [|i] H Hn; simpl in *; try done.
  - injection H as ->. pose proof (count_nonneg t l). unfold is_thread. rewrite bool_decide_eq_true_2 by done. simpl. lia.
  - pose proof (IH i H (count_nonneg _ _)). unfold is_thread. destruct (bool_decide (t = u)); simpl; lia.
Qed.

Lemma count_replicate_other t u n : t <> u -> count t (replicate n u) = 0.
Proof.
  intros H. induction n as [|n IH]; simpl; [done|]. unfold is_thread in *.
  rewrite bool_decide_eq_false_2 by done. simpl. lia.
Qed.

(** Readers are counted in the low bits; a writer holds the block alone. *)
Definition pin_inv (st : PinState) : Prop :=
  let readers := count Pinned (threads st) in
  let writers := count Writing (threads st) in
  (writers = 0 /\ reader_state st = readers /\ readers <= writer_bit - 1) \/
  (writers = 1 /\ readers = 0 /\ reader_state st = writer_bit).

Lemma writer_bit_clear x : 0 <= x -> Z.land x writer_bit = 0 -> x < 2 ^ 64 -> x < writer_bit.
Proof.
  intros Hx H Hb. unfold writer_bit in *. destruct (Z.ltb_spec x (2 ^ 63)); [done|].
  apply (f_equal (fun z => Z.testbit z 63)) in H.
  rewrite Z.land_spec, Z.pow2_bits_true, andb_true_r, Z.bits_0 in H by lia.
  assert (Z.testbit x 63 = true) as Ht; [|congruence].
  rewrite Z.testbit_true by lia. change (2 ^ 63) with 9223372036854775808 in *.
  change (2 ^ 64) with 18446744073709551616 in *.
  replace (x / 9223372036854775808) with 1 by (apply (Z.div_unique x _ 1 (x - 9223372036854775808)); lia).
  done.
Qed.

Lemma writer_bit_unset x : 0 <= x < writer_bit -> Z.land x writer_bit = 0.
Proof.
  intros Hx. unfold writer_bit in *. apply Z.bits_inj'. intros i Hi.
  rewrite Z.land_spec, Z.bits_0, testbit_pow2 by lia. destruct (Z.eqb_spec i 63) as [->|]; [|apply andb_false_r].
  by rewrite (testbit_high x 63) by lia.
Qed.

Ltac thread_counts H :=
  rewrite !(count_insert _ _ _ _ _ H); unfold is_thread;
  repeat first [rewrite bool_decide_eq_false_2 by done | rewrite bool_decide_eq_true_2 by done];
  cbn [Z.b2z].

Lemma pin_inv_initial n : pin_inv (pin_initial n).
Proof.
  left. simpl. rewrite !count_replicate_other by done. unfold writer_bit. lia.
Qed.

Lemma pin_inv_step st st' : pin_inv st -> pin_step st st' -> pin_inv st'.
Proof.
  intros Hinv Hstep. pose proof (count_nonneg Pinned (threads st)) as Hp.
  destruct Hstep as [i H|i state spurious H|i H|i H|i H].
  - unfold pin_inv, move in *. simpl. thread_counts H. lia.
  - unfold acquire_attempt. destruct (Z.eqb_spec (Z.land state writer_bit) 0) as [E|E]; cbn [negb].
    2:{ unfold pin_inv, move in *. simpl. thread_counts H. lia. }
    destruct (Z.eqb_spec state (writer_bit - 1)) as [E1|E1].
    { unfold pin_inv, move in *. simpl. thread_counts H. lia. }
    destruct (Z.eqb_spec (reader_state st) state) as [E2|E2], spurious; cbn [andb negb];
      try (unfold pin_inv, move in *; simpl; thread_counts H; lia).
    subst state. unfold pin_inv, move in *. simpl. thread_counts H. left.
    destruct Hinv as [(W & R & B)|(W & R & B)].
    + unfold add64, wrap64, writer_bit in *. rewrite Z.mod_small by lia. lia.
    + exfalso. rewrite B in E. unfold writer_bit in E. rewrite Z.land_diag in E. done.
  - pose proof (count_positive _ _ _ H). unfold pin_inv, move in *. simpl. thread_counts H.
    unfold release_read_pin, sub64, wrap64, writer_bit in *. left.
    destruct Hinv as [(W & R & B)|(W & R & B)]; [|lia]. rewrite Z.mod_small by lia. lia.
  - unfold try_begin_write. destruct (Z.eqb_spec (reader_state st) 0) as [E|E];
      unfold pin_inv, move in *; simpl; thread_counts H; unfold writer_bit in *; lia.
  - pose proof (count_positive _ _ _ H). unfold pin_inv, move, end_write in *. simpl. thread_counts H.
    unfold writer_bit in *. lia.
Qed.

Lemma pin_inv_reachable n st : pin_reachable n st -> pin_inv st.
Proof.
  intros H. pose proof (pin_inv_initial n) as Hinit. revert Hinit. unfold pin_reachable in H.
  induction H as [|x y z Hxy _ IH]; intros Hx; [done|]. apply IH. by eapply pin_inv_step.
Qed.

(** ** What readers and writers rely on *)

Lemma pins_exclude_writers n st i j : pin_reachable n st ->
  threads st !! i = Some Pinned -> threads st !! j = Some Writing -> False.
Proof.
  intros H%pin_inv_reachable Hi Hj. pose proof (count_positive _ _ _ Hi). pose proof (count_positive _ _ _ Hj).
  unfold pin_inv in H. lia.
Qed.

Lemma count_two t l i j : i <> j -> l !! i = Some t -> l !! j = Some t -> 2 <= count t l.
Proof.
  intros Hij Hi Hj.
  assert (exists u, u <> t) as [u Hu] by (destruct t; [exists Pinned|exists Pinned|exists Idle|exists Idle|exists Idle]; done).
  assert (<[i := u]> l !! j = Some t) as Hj' by by rewrite list_lookup_insert_ne.
  pose proof (count_positive _ _ _ Hj') as Hc. rewrite (count_insert _ _ _ _ _ Hi) in Hc.
  unfold is_thread in Hc. rewrite bool_decide_eq_true_2, bool_decide_eq_false_2 in Hc by congruence.
  cbn [Z.b2z] in Hc. lia.
Qed.

Lemma one_writer n st i j : pin_reachable n st ->
  threads st !! i = Some Writing -> threads st !! j = Some Writing -> i = j.
Proof.
  intros H%pin_inv_reachable Hi Hj. destruct (decide (i = j)) as [|Hij]; [done|].
  pose proof (count_two _ _ _ _ Hij Hi Hj). unfold pin_inv in H. lia.
Qed.

(** The assertions of [release_read_pin] and [end_write] never fail. *)
Lemma pin_assertions n st i : pin_reachable n st ->
  (threads st !! i = Some Pinned -> release_asserts (reader_state st) = true) /\
  (threads st !! i = Some Writing -> end_write_asserts (reader_state st) = true).
Proof.
  intros H%pin_inv_reachable. split; intros Hi; pose proof (count_positive _ _ _ Hi); unfold pin_inv in H.
  - destruct H as [(W & R & B)|(W & R & B)]; [|lia]. unfold release_asserts.
    rewrite (proj2 (Z.eqb_neq _ 0)), writer_bit_unset by lia. done.
  - unfold end_write_asserts. apply Z.eqb_eq. lia.
Qed.

(** The observers tell whether anyone holds the block. *)
Lemma pin_observers n st : pin_reachable n st ->
  (write_locked (reader_state st) = true <-> 1 <= count Writing (threads st)) /\
  (has_read_pins (reader_state st) = true <->
     1 <= count Pinned (threads st) \/ 1 <= count Writing (threads st)).
Proof.
  intros H%pin_inv_reachable. pose proof (count_nonneg Pinned (threads st)).
  unfold write_locked, has_read_pins, pin_inv in *. rewrite !negb_true_iff, !Z.eqb_neq.
  destruct H as [(W & R & B)|(W & R & B)]; rewrite R in * || idtac.
  - rewrite writer_bit_unset by lia. lia.
  - rewrite B, Z.land_diag. unfold writer_bit in *. lia.
Qed.

(** A reader running alone gets its pin in two steps when no one writes. *)
Lemma pin_progress n st i : pin_reachable n st -> threads st !! i = Some Idle ->
  count Writing (threads st) = 0 -> count Pinned (threads st) < writer_bit - 1 ->
  exists st1 st2, pin_step st st1 /\ pin_step st1 st2 /\ threads st2 !! i = Some Pinned.
Proof.
  intros H%pin_inv_reachable Hi Hw Hp. pose proof (count_nonneg Pinned (threads st)).
  destruct H as [(W & R & B)|(W & R & B)]; [|lia].
  assert (i < length (threads st))%nat as Hlen by (eapply lookup_lt_Some; done).
  set (st1 := move st i (reader_state st) (Acquiring (reader_state st))).
  assert (threads st1 !! i = Some (Acquiring (reader_state st))) as H1 by by apply list_lookup_insert_eq.
  eexists st1, _. split; [by apply step_load|]. split; [by apply (step_attempt st1 i _ false H1)|].
  unfold acquire_attempt. cbn [reader_state st1 move]. rewrite writer_bit_unset by lia. cbn [negb Z.eqb].
  rewrite (proj2 (Z.eqb_neq _ _)), Z.eqb_refl by lia. cbn [andb negb].
  unfold move. cbn [threads]. apply list_lookup_insert_eq. unfold st1, move. cbn [threads].
  by rewrite length_insert.
Qed.
