(* ===== verification/StreamHash.v ===== *)
(** * Incremental hashing of a byte stream

    What the two hash classes of src/support share: bytes arrive in pieces of
    any size, whole blocks are absorbed as soon as they are complete and the
    rest waits in a buffer.  The file states when a buffered state has
    absorbed a message, the three ways an update moves from one message to a
    longer one, and the interface [StreamHash] that clients of a hash rely
    on. *)
From S2P Require Import Prelude.

(** Bytes are numbers below 256. *)
Abbreviation bytes := (list Z).
Definition is_byte (b : Z) : Prop := 0 <= b < 256.

Definition byte_of_ascii (c : ascii) : Z := Z.of_N (N_of_ascii c).
(** [std::as_bytes] of a [std::string_view]. *)
Definition as_bytes (text : string) : bytes := byte_of_ascii <$> list_ascii_of_string text.

(** [std::copy_n] or [std::memcpy] of [source] to position [offset]. *)
Definition copy_to (destination : bytes) (offset : nat) (source : bytes) : bytes :=
  take offset destination ++ source ++ drop (offset + length source) destination.

Lemma length_copy_to destination offset source :
  (offset + length source <= length destination)%nat ->
  length (copy_to destination offset source) = length destination.
Proof. intros H. unfold copy_to. rewrite !length_app, length_take, length_drop. lia. Qed.

(** The filled part of a buffer after a copy behind it. *)
Lemma take_copy_to destination offset source :
  (offset + length source <= length destination)%nat ->
  take (offset + length source) (copy_to destination offset source)
  = take offset destination ++ source.
Proof.
  intros H. unfold copy_to. rewrite app_assoc. apply take_app_length'.
  rewrite length_app, length_take. lia.
Qed.

(** * Absorbing blocks *)

Section blocks.
Context {S : Type} (B : nat) (absorb : S -> bytes -> S) (initial : S).
Context (HB : (0 < B)%nat).

(** [n] blocks of [B] bytes from the front of [data]. *)
Fixpoint absorb_blocks (n : nat) (s : S) (data : bytes) : S :=
  match n with
  | O => s
  | Datatypes.S n => absorb_blocks n (absorb s (take B data)) (drop B data)
  end.

Lemma absorb_blocks_add n1 n2 s data :
  absorb_blocks (n1 + n2) s data = absorb_blocks n2 (absorb_blocks n1 s data) (drop (n1 * B) data).
Proof.
  revert s data. induction n1 as [|n1 IH]; intros s data; simpl; [done|].
  by rewrite IH, drop_drop.
Qed.

(** Only the bytes of the blocks matter. *)
Lemma absorb_blocks_app n s data more : (n * B <= length data)%nat ->
  absorb_blocks n s (data ++ more) = absorb_blocks n s data.
Proof.
  revert s data. induction n as [|n IH]; intros s data H; simpl in *; [done|].
  rewrite take_app_le, drop_app_le by lia. apply IH. rewrite length_drop. lia.
Qed.

(** The state and the buffered rest of a message. *)
Definition block_count (m : bytes) : nat := length m / B.
Definition absorbed (m : bytes) : S := absorb_blocks (block_count m) initial m.
Definition pending (m : bytes) : bytes := drop (block_count m * B) m.

Lemma block_count_bounds m : (block_count m * B <= length m < block_count m * B + B)%nat.
Proof.
  unfold block_count. pose proof (Nat.div_mod_eq (length m) B).
  pose proof (Nat.mod_upper_bound (length m) B). lia.
Qed.

Lemma length_pending m : length (pending m) = (length m - block_count m * B)%nat.
Proof. apply length_drop. Qed.

Lemma pending_short m : (length (pending m) < B)%nat.
Proof. rewrite length_pending. pose proof (block_count_bounds m). lia. Qed.

Lemma block_count_unique m n : (n * B <= length m < n * B + B)%nat -> block_count m = n.
Proof. intros H. symmetry. apply (Nat.div_unique _ _ n (length m - n * B)); lia. Qed.

(** [absorbed] and [pending] from any split at a block boundary. *)
Lemma absorbed_split m n : block_count m = n ->
  absorbed m = absorb_blocks n initial m /\ pending m = drop (n * B) m.
Proof. by intros <-. Qed.

(** A piece that does not complete the block waits. *)
Lemma absorb_waiting m b : (length (pending m) + length b < B)%nat ->
  absorbed (m ++ b) = absorbed m /\ pending (m ++ b) = pending m ++ b.
Proof.
  intros H. pose proof (block_count_bounds m). rewrite length_pending in H.
  destruct (absorbed_split (m ++ b) (block_count m)) as [-> ->].
  { apply block_count_unique. rewrite length_app. lia. }
  split; [apply absorb_blocks_app; lia|]. unfold pending. by rewrite drop_app_le by lia.
Qed.

(** A piece that completes the block exactly. *)
Lemma absorb_completing m b : (length (pending m) + length b = B)%nat ->
  absorbed (m ++ b) = absorb (absorbed m) (pending m ++ b) /\ pending (m ++ b) = [].
Proof.
  intros H. pose proof (block_count_bounds m). rewrite length_pending in H.
  destruct (absorbed_split (m ++ b) (block_count m + 1)) as [-> ->].
  { apply block_count_unique. rewrite length_app. lia. }
  split.
  - rewrite absorb_blocks_add. simpl. rewrite absorb_blocks_app by lia. fold (absorbed m). f_equal.
    rewrite drop_app_le by lia. fold (pending m). apply take_ge.
    rewrite length_app, length_pending. lia.
  - apply drop_ge. rewrite length_app. lia.
Qed.

(** A piece that starts at a block boundary. *)
Lemma absorb_aligned m b : pending m = [] ->
  absorbed (m ++ b) = absorb_blocks (block_count b) (absorbed m) b /\ pending (m ++ b) = pending b.
Proof.
  intros H. pose proof (block_count_bounds m). pose proof (block_count_bounds b).
  assert (length m = block_count m * B)%nat as Hm.
  { apply (f_equal length) in H. rewrite length_pending in H. simpl in H. lia. }
  destruct (absorbed_split (m ++ b) (block_count m + block_count b)) as [-> ->].
  { apply block_count_unique. rewrite length_app. lia. }
  split.
  - rewrite absorb_blocks_add, absorb_blocks_app by lia. fold (absorbed m). f_equal.
    by apply drop_app_length'.
  - unfold pending. rewrite Nat.mul_add_distr_r, <- Hm, <- drop_drop. f_equal. by apply drop_app_length.
Qed.
End blocks.

(** * The interface of a hash *)

(** A hash state that has taken a message, and the digest of a message; a
    client needs nothing else of an implementation. *)
Class StreamHash {H D : Type} (new : H) (update : H -> bytes -> H) (result : H -> D)
    (digest_of : bytes -> D) := {
  has_taken : H -> bytes -> Prop;
  taken_new : has_taken new [];
  taken_update : forall h m b, has_taken h m -> has_taken (update h b) (m ++ b);
  taken_result : forall h m, has_taken h m -> result h = digest_of m;
}.

Section clients.
Context {H D : Type} {new : H} {update : H -> bytes -> H} {result : H -> D} {digest_of : bytes -> D}.
Context `{!StreamHash new update result digest_of}.

Lemma taken_pieces h m pieces : has_taken h m -> has_taken (foldl update h pieces) (m ++ mjoin pieces).
Proof.
  revert h m. induction pieces as [|b pieces IH]; intros h m Hm; simpl.
  - by rewrite app_nil_r.
  - rewrite app_assoc. by apply IH, taken_update.
Qed.

(** A message fed in pieces of any sizes has the digest of the whole. *)
Lemma stream_pieces pieces : result (foldl update new pieces) = digest_of (mjoin pieces).
Proof. apply (taken_result _ (mjoin pieces)). apply (taken_pieces new []), taken_new. Qed.
End clients.
