(* ===== verification/Sha256.v ===== *)
(** * SHA-256

    Model of src/support/sha256.cpp with the portable [transform]: the
    incremental state, padding, and the hexadecimal spelling of digests.  The
    state is proved to compute the digest of the padded message, whatever the
    sizes of the pieces it was fed. *)
From S2P Require Import Prelude StreamHash.
Ltac Zify.zify_post_hook ::= Z.div_mod_to_equations.

(** ** 32-bit words *)

Definition add32 (x y : Z) : Z := wrap32 (x + y).
Definition not32 (x : Z) : Z := Z.land (Z.lnot x) (Z.ones 32).
Definition rotr32 (x n : Z) : Z := Z.lor (Z.shiftr x n) (Z.land (Z.shiftl x (32 - n)) (Z.ones 32)).

(** The constants of FIPS 180, in the rows of the source. *)
Definition kRoundConstants : list Z :=
  [0x428a2f98; 0x71374491; 0xb5c0fbcf; 0xe9b5dba5; 0x3956c25b; 0x59f111f1]
  ++ [0x923f82a4; 0xab1c5ed5; 0xd807aa98; 0x12835b01; 0x243185be; 0x550c7dc3]
  ++ [0x72be5d74; 0x80deb1fe; 0x9bdc06a7; 0xc19bf174; 0xe49b69c1; 0xefbe4786]
  ++ [0x0fc19dc6; 0x240ca1cc; 0x2de92c6f; 0x4a7484aa; 0x5cb0a9dc; 0x76f988da]
  ++ [0x983e5152; 0xa831c66d; 0xb00327c8; 0xbf597fc7; 0xc6e00bf3; 0xd5a79147]
  ++ [0x06ca6351; 0x14292967; 0x27b70a85; 0x2e1b2138; 0x4d2c6dfc; 0x53380d13]
  ++ [0x650a7354; 0x766a0abb; 0x81c2c92e; 0x92722c85; 0xa2bfe8a1; 0xa81a664b]
  ++ [0xc24b8b70; 0xc76c51a3; 0xd192e819; 0xd6990624; 0xf40e3585; 0x106aa070]
  ++ [0x19a4c116; 0x1e376c08; 0x2748774c; 0x34b0bcb5; 0x391c0cb3; 0x4ed8aa4a]
  ++ [0x5b9cca4f; 0x682e6ff3; 0x748f82ee; 0x78a5636f; 0x84c87814; 0x8cc70208]
  ++ [0x90befffa; 0xa4506ceb; 0xbef9a3f7; 0xc67178f2].

Definition choose (x y z : Z) : Z := Z.lxor (Z.land x y) (Z.land (not32 x) z).
Definition majority (x y z : Z) : Z := Z.lxor (Z.lxor (Z.land x y) (Z.land x z)) (Z.land y z).
Definition big_sigma0 (x : Z) : Z := Z.lxor (Z.lxor (rotr32 x 2) (rotr32 x 13)) (rotr32 x 22).
Definition big_sigma1 (x : Z) : Z := Z.lxor (Z.lxor (rotr32 x 6) (rotr32 x 11)) (rotr32 x 25).
Definition small_sigma0 (x : Z) : Z := Z.lxor (Z.lxor (rotr32 x 7) (rotr32 x 18)) (Z.shiftr x 3).
Definition small_sigma1 (x : Z) : Z := Z.lxor (Z.lxor (rotr32 x 17) (rotr32 x 19)) (Z.shiftr x 10).

(** The four bytes at position [k] of a block, most significant first. *)
Definition load_be (data : bytes) (k : Z) : Z :=
  Z.lor (Z.lor (Z.lor (Z.shiftl (word_at data k) 24) (Z.shiftl (word_at data (k + 1)) 16))
           (Z.shiftl (word_at data (k + 2)) 8)) (word_at data (k + 3)).

(** ** Compression *)

(** The message schedule of a block. *)
Definition schedule (block : bytes) : list Z :=
  let words := replicate 64 0 in
  let words := foreach_pure (up 0 16) (fun i words => set_word words i (load_be block (i * 4))) words in
  foreach_pure (up 16 64) (fun i words =>
    set_word words i (add32 (add32 (add32 (small_sigma1 (word_at words (i - 2))) (word_at words (i - 7)))
                               (small_sigma0 (word_at words (i - 15)))) (word_at words (i - 16)))) words.

(** The working variables [a] to [h]. *)
Record Working := mkWorking {
  wa : Z; wb : Z; wc : Z; wd : Z; we : Z; wf_ : Z; wg : Z; wh : Z;
}.

Definition working_round (words : list Z) (i : Z) (v : Working) : Working :=
  let temp1 := add32 (add32 (add32 (add32 (wh v) (big_sigma1 (we v))) (choose (we v) (wf_ v) (wg v)))
                        (word_at kRoundConstants i)) (word_at words i) in
  let temp2 := add32 (big_sigma0 (wa v)) (majority (wa v) (wb v) (wc v)) in
  {| wa := add32 temp1 temp2; wb := wa v; wc := wb v; wd := wc v;
     we := add32 (wd v) temp1; wf_ := we v; wg := wf_ v; wh := wg v |}.

Definition transform (state : list Z) (block : bytes) : list Z :=
  let words := schedule block in
  let s k := word_at state k in
  let v := foreach_pure (up 0 64) (working_round words)
             (mkWorking (s 0) (s 1) (s 2) (s 3) (s 4) (s 5) (s 6) (s 7)) in
  [ add32 (s 0) (wa v); add32 (s 1) (wb v); add32 (s 2) (wc v); add32 (s 3) (wd v);
    add32 (s 4) (we v); add32 (s 5) (wf_ v); add32 (s 6) (wg v); add32 (s 7) (wh v) ].

(** ** The incremental state *)

Record Sha256 := mkSha256 {
  sha_state : list Z;
  sha_buffer : bytes;
  sha_total_bytes : Z;
  sha_buffered : nat;
  sha_finished : bool;
}.

Definition sha_initial : list Z :=
  [ 0x6a09e667; 0xbb67ae85; 0x3c6ef372; 0xa54ff53a; 0x510e527f; 0x9b05688c; 0x1f83d9ab; 0x5be0cd19 ].

Definition sha_new : Sha256 :=
  {| sha_state := sha_initial; sha_buffer := replicate 64 0; sha_total_bytes := 0;
     sha_buffered := 0; sha_finished := false |}.

(** The first half of [update]: complete a buffered block.  Returns the state
    and the number of bytes used. *)
Definition sha_top_up (h : Sha256) (data : bytes) : Sha256 * nat :=
  if (sha_buffered h =? 0)%nat then (h, O)
  else
    let count := Nat.min (64 - sha_buffered h) (length data) in
    let buffer := copy_to (sha_buffer h) (sha_buffered h) (take count data) in
    let buffered := (sha_buffered h + count)%nat in
    if (buffered =? 64)%nat
    then ({| sha_state := transform (sha_state h) buffer; sha_buffer := buffer;
             sha_total_bytes := sha_total_bytes h; sha_buffered := 0; sha_finished := sha_finished h |}, count)
    else ({| sha_state := sha_state h; sha_buffer := buffer;
             sha_total_bytes := sha_total_bytes h; sha_buffered := buffered;
             sha_finished := sha_finished h |}, count).

(** The [while] loop absorbs [size / 64] blocks. *)
Definition sha_update (h : Sha256) (data : bytes) : Sha256 :=
  if sha_finished h || (length data =? 0)%nat then h
  else
    let h := {| sha_state := sha_state h; sha_buffer := sha_buffer h;
                sha_total_bytes := add64 (sha_total_bytes h) (size data);
                sha_buffered := sha_buffered h; sha_finished := sha_finished h |} in
    let '(h, offset) := sha_top_up h data in
    let rest := drop offset data in
    let blocks := (length rest / 64)%nat in
    let state := absorb_blocks 64 transform blocks (sha_state h) rest in
    let rest := drop (blocks * 64) rest in
    if (length rest =? 0)%nat
    then {| sha_state := state; sha_buffer := sha_buffer h; sha_total_bytes := sha_total_bytes h;
            sha_buffered := sha_buffered h; sha_finished := sha_finished h |}
    else {| sha_state := state; sha_buffer := copy_to (sha_buffer h) 0 rest;
            sha_total_bytes := sha_total_bytes h;
            sha_buffered := length rest; sha_finished := sha_finished h |}.

(** [std::fill] of positions [from] to [until]. *)
Definition fill_zero (buffer : bytes) (from until : nat) : bytes :=
  copy_to buffer from (replicate (until - from) 0).

(** The eight bytes [buffer_[63 - i]] take, in the order of the buffer. *)
Definition length_bytes (bit_length : Z) : bytes :=
  (fun i => Z.land (Z.shiftr bit_length ((7 - i) * 8)) 255) <$> up 0 8.

Definition sha_pad (h : Sha256) : Sha256 :=
  let bit_length := mul64 (sha_total_bytes h) 8 in
  let buffer := copy_to (sha_buffer h) (sha_buffered h) [0x80] in
  let buffered := (sha_buffered h + 1)%nat in
  let '(state, buffer, buffered) :=
    if (56 <? buffered)%nat then
      let buffer := fill_zero buffer buffered 64 in
      (transform (sha_state h) buffer, buffer, O)
    else (sha_state h, buffer, buffered) in
  let buffer := fill_zero buffer buffered 56 in
  let buffer := copy_to buffer 56 (length_bytes bit_length) in
  {| sha_state := transform state buffer; sha_buffer := buffer; sha_total_bytes := sha_total_bytes h;
     sha_buffered := 0; sha_finished := true |}.

(** The digest bytes of a state, most significant byte of each word first. *)
Definition digest_bytes (state : list Z) : bytes :=
  word ← take 8 state;
  (fun byte => Z.land (Z.shiftr word ((3 - byte) * 8)) 255) <$> up 0 4.

Definition sha_finish (h : Sha256) : Sha256 * bytes :=
  let h := if negb (sha_finished h) then sha_pad h else h in
  (h, digest_bytes (sha_state h)).

Definition sha_digest (data : bytes) : bytes := snd (sha_finish (sha_update sha_new data)).

(** ** Hexadecimal *)

Definition hex_digits : list ascii :=
  ["0"; "1"; "2"; "3"; "4"; "5"; "6"; "7"; "8"; "9"; "a"; "b"; "c"; "d"; "e"; "f"]%char.
Definition hex_digit (n : Z) : ascii := nth (Z.to_nat n) hex_digits "0"%char.

Definition sha_hex (digest : bytes) : list ascii :=
  b ← digest; [hex_digit (Z.shiftr b 4); hex_digit (Z.land b 0x0f)].

Definition nibble (character : ascii) : Z :=
  let code := byte_of_ascii character in
  if (48 <=? code) && (code <=? 57) then code - 48
  else if (97 <=? code) && (code <=? 102) then code - 97 + 10 else -1.

Definition sha_from_hex (text : list ascii) : option bytes :=
  if negb (length text =? 64)%nat then None
  else
    match foreach_flow (up 0 32) (fun index digest =>
      let high := nibble (nth (Z.to_nat (2 * index)) text "0"%char) in
      let low := nibble (nth (Z.to_nat (2 * index + 1)) text "0"%char) in
      if (high <? 0) || (low <? 0) then Ok (inr tt)
      else Ok (inl (set_word digest index (Z.lor (Z.shiftl high 4) low)))) (replicate 32 0) with
    | Ok (inl digest) => Some digest
    | _ => None
    end.

(** * Theorems *)

#[local] Arguments Nat.div : simpl never.
#[local] Arguments Nat.modulo : simpl never.
#[local] Arguments Nat.sub : simpl never.
#[local] Arguments Nat.mul : simpl never.

Example sha256_abc :
  string_of_list_ascii (sha_hex (sha_digest (as_bytes "abc")))
  = "ba7816bf8f01cfea414140de5dae2223b00361a396177a9cb410ff61f20015ad"%string.
Proof. vm_compute. reflexivity. Qed.

(** The state after a message: the whole blocks compressed, the rest in the
    buffer, the byte count modulo 2^64. *)
Record sha_taken (h : Sha256) (m : bytes) : Prop := {
  taken_open : sha_finished h = false;
  taken_size : length (sha_buffer h) = 64%nat;
  taken_state : sha_state h = absorbed 64 transform sha_initial m;
  taken_count : sha_buffered h = length (pending 64 m);
  taken_rest : take (sha_buffered h) (sha_buffer h) = pending 64 m;
  taken_total : sha_total_bytes h = wrap64 (size m);
}.

Lemma total_app (m b : bytes) : add64 (wrap64 (size m)) (size b) = wrap64 (size (m ++ b)).
Proof. unfold add64, wrap64. by rewrite size_app, Zplus_mod_idemp_l. Qed.

Lemma sha_taken_new : sha_taken sha_new [].
Proof. by split. Qed.

(** Topping up a partly filled buffer takes a prefix of the piece. *)
Lemma sha_top_up_taken h m data :
  sha_taken h m ->
  let r := sha_top_up {| sha_state := sha_state h; sha_buffer := sha_buffer h;
                sha_total_bytes := add64 (sha_total_bytes h) (size data);
                sha_buffered := sha_buffered h; sha_finished := sha_finished h |} data in
  exists used rest, data = used ++ rest /\ r.2 = length used /\
    sha_taken {| sha_state := sha_state r.1; sha_buffer := sha_buffer r.1;
                 sha_total_bytes := wrap64 (size (m ++ used));
                 sha_buffered := sha_buffered r.1; sha_finished := sha_finished r.1 |} (m ++ used) /\
    sha_total_bytes r.1 = wrap64 (size (m ++ data)) /\
    (rest = [] \/ pending 64 (m ++ used) = []).
Proof.
  intros [T1 T2 T3 T4 T5 T6]. unfold sha_top_up. simpl. rewrite T6, total_app.
  pose proof (pending_short 64 ltac:(lia) m) as Hshort.
  destruct (Nat.eqb_spec (sha_buffered h) 0) as [E|E]; simpl.
  { exists [], data. rewrite app_nil_r. split_and!; try done; right; apply nil_length_inv; lia. }
  set (count := Nat.min (64 - sha_buffered h) (length data)).
  exists (take count data), (drop count data).
  assert (length (take count data) = count) as Hc by (rewrite length_take; lia).
  assert (sha_buffered h + length (take count data) <= length (sha_buffer h))%nat as Hfit by lia.
  pose proof (take_copy_to _ _ _ Hfit) as Htake. rewrite T5, Hc in Htake.
  pose proof (length_copy_to _ _ _ Hfit) as Hlen.
  rewrite take_drop. split; [done|].
  destruct (Nat.eqb_spec (sha_buffered h + count) 64) as [E64|E64]; simpl.
  - destruct (absorb_completing 64 transform sha_initial ltac:(lia) m (take count data)) as [A1 A2]; [lia|].
    assert (take (sha_buffered h + count) (copy_to (sha_buffer h) (sha_buffered h) (take count data))
      = copy_to (sha_buffer h) (sha_buffered h) (take count data)) as Hall by (apply take_ge; lia).
    rewrite Hall in Htake. split_and!; try done; [|by right].
    split; simpl; rewrite ?A2; try done; try lia. by rewrite A1, T3, Htake.
  - destruct (absorb_waiting 64 transform sha_initial ltac:(lia) m (take count data)) as [A1 A2]; [lia|].
    split_and!; try done; [|left; apply drop_ge; lia].
    split; simpl; rewrite ?A1, ?A2, ?length_app; try done; lia.
Qed.

(** [update] appends the piece to the message taken. *)
Lemma sha_taken_update h m b : sha_taken h m -> sha_taken (sha_update h b) (m ++ b).
Proof.
  intros Hm. unfold sha_update. rewrite (taken_open _ _ Hm). simpl.
  destruct (Nat.eqb_spec (length b) 0) as [E|E].
  { apply nil_length_inv in E. by rewrite E, app_nil_r. }
  pose proof (sha_top_up_taken h m b Hm) as Htop. cbv zeta in Htop. rewrite (taken_open _ _ Hm) in Htop.
  destruct (sha_top_up _ b) as [h1 offset]. cbn [fst snd] in Htop.
  destruct Htop as (used & rest & -> & -> & [T1 T2 T3 T4 T5 T6] & Htotal & Hcase). simpl in *.
  rewrite drop_app_length. fold (block_count 64 rest). fold (pending 64 rest).
  rewrite (app_assoc m used rest) in Htotal |- *.
  destruct Hcase as [->|Hp].
  - rewrite app_nil_r in Htotal |- *. by split.
  - destruct (absorb_aligned 64 transform sha_initial ltac:(lia) (m ++ used) rest Hp) as [A1 A2].
    pose proof (pending_short 64 ltac:(lia) rest) as Hshort.
    destruct (Nat.eqb_spec (length (pending 64 rest)) 0) as [E0|E0].
    + apply nil_length_inv in E0. rewrite Hp in T4, T5. split; simpl; try done.
      * by rewrite A1, T3.
      * by rewrite A2, E0.
      * by rewrite A2, E0.
    + pose proof (take_copy_to (sha_buffer h1) 0 (pending 64 rest) ltac:(lia)) as Htake.
      pose proof (length_copy_to (sha_buffer h1) 0 (pending 64 rest) ltac:(lia)) as Hlen.
      split; simpl; rewrite ?A1, ?A2, ?T3; try done; lia.
Qed.

(** ** Padding *)

(** The padded message of the standard: a one bit, zeros to 56 modulo 64, the
    length in bits as eight bytes. *)
Definition padding_zeros (n : nat) : nat := (if n mod 64 <? 56 then 55 - n mod 64 else 119 - n mod 64)%nat.
Definition padding (m : bytes) : bytes :=
  [0x80] ++ replicate (padding_zeros (length m)) 0 ++ length_bytes (mul64 (wrap64 (size m)) 8).

Definition sha256_of (m : bytes) : bytes :=
  digest_bytes (absorbed 64 transform sha_initial (m ++ padding m)).

Lemma length_pending_mod m : length (pending 64 m) = (length m mod 64)%nat.
Proof. rewrite length_pending. unfold block_count. rewrite Nat.Div0.mod_eq. lia. Qed.

(** A buffer of 64 bytes that starts with [P]. *)
Definition starts (buffer P : bytes) : Prop :=
  length buffer = 64%nat /\ take (length P) buffer = P.

Lemma starts_extend buffer P n s : starts buffer P -> length P = n -> (n + length s <= 64)%nat ->
  starts (copy_to buffer n s) (P ++ s).
Proof.
  intros [Hl HP] <- Hs. split.
  - by rewrite length_copy_to by lia.
  - by rewrite length_app, take_copy_to, HP by lia.
Qed.

Lemma starts_full buffer P : starts buffer P -> length P = 64%nat -> buffer = P.
Proof. intros [Hl HP] Hn. rewrite <- HP. symmetry. apply take_ge. lia. Qed.

Lemma starts_nil buffer : length buffer = 64%nat -> starts buffer [].
Proof. by split. Qed.

Lemma length_length_bytes n : length (length_bytes n) = 8%nat.
Proof. done. Qed.

Ltac lengths := rewrite ?length_app, ?length_replicate, ?length_length_bytes; simpl; lia.

(** The last block, or the last two, are the rest of the padded message. *)
Lemma sha_pad_state h m : sha_taken h m ->
  sha_state (sha_pad h) = absorbed 64 transform sha_initial (m ++ padding m).
Proof.
  intros [T1 T2 T3 T4 T5 T6]. pose proof (length_pending_mod m) as Hp.
  pose proof (Nat.mod_upper_bound (length m) 64 ltac:(lia)) as Hmod.
  unfold sha_pad, padding, padding_zeros, fill_zero. rewrite T6, T4 in *.
  set (P := pending 64 m) in *. set (bits := mul64 _ _).
  pose proof (starts_extend (sha_buffer h) P (length P) [0x80] (conj T2 T5) eq_refl ltac:(lengths)) as B1.
  set (b1 := copy_to (sha_buffer h) (length P) [0x80]) in *.
  replace (56 <? length P + 1)%nat with (negb (length m mod 64 <? 56)%nat)
    by (destruct (Nat.ltb_spec (length m mod 64) 56), (Nat.ltb_spec 56 (length P + 1)); simpl; lia).
  destruct (Nat.ltb_spec (length m mod 64) 56); cbn [negb sha_state].
  - pose proof (starts_extend b1 _ (length P + 1) (replicate (56 - (length P + 1)) 0) B1
      ltac:(lengths) ltac:(lengths)) as B2.
    pose proof (starts_extend _ _ 56 (length_bytes bits) B2 ltac:(lengths) ltac:(lengths)) as B3.
    rewrite (starts_full _ _ B3 ltac:(lengths)), T3.
    replace (55 - length m mod 64)%nat with (56 - (length P + 1))%nat by lia.
    rewrite <- !app_assoc. symmetry. apply absorb_completing; [lia|]. fold P. lengths.
  - pose proof (starts_extend b1 _ (length P + 1) (replicate (64 - (length P + 1)) 0) B1
      ltac:(lengths) ltac:(lengths)) as B2.
    rewrite (starts_full _ _ B2 ltac:(lengths)), T3.
    pose proof (starts_extend _ _ 0 (replicate (56 - 0) 0)
      (starts_nil ((P ++ [0x80]) ++ replicate (64 - (length P + 1)) 0) ltac:(lengths)) eq_refl ltac:(lengths)) as B4.
    pose proof (starts_extend _ _ 56 (length_bytes bits) B4 ltac:(lengths) ltac:(lengths)) as B5.
    rewrite (starts_full _ _ B5 ltac:(lengths)).
    assert (m ++ [0x80] ++ replicate (119 - length m mod 64) 0 ++ length_bytes bits =
      (m ++ [0x80] ++ replicate (64 - (length P + 1)) 0) ++ replicate 56 0 ++ length_bytes bits) as ->.
    { replace (119 - length m mod 64)%nat with ((64 - (length P + 1)) + 56)%nat by lia.
      by rewrite replicate_add, <- !app_assoc. }
    destruct (absorb_completing 64 transform sha_initial ltac:(lia) m ([0x80] ++ replicate (64 - (length P + 1)) 0))
      as [A1 A2]; [fold P; lengths|].
    destruct (absorb_completing 64 transform sha_initial ltac:(lia) (m ++ [0x80] ++ replicate (64 - (length P + 1)) 0)
      (replicate 56 0 ++ length_bytes bits)) as [A3 _]; [rewrite A2; lengths|].
    rewrite A3, A2, A1. fold P. by rewrite <- !app_assoc.
Qed.

(** ** The digest *)

#[global] Instance sha256_stream :
  StreamHash sha_new sha_update (fun h => snd (sha_finish h)) sha256_of.
Proof.
  refine {| has_taken := sha_taken; taken_new := sha_taken_new; taken_update := sha_taken_update |}.
  intros h m Hm. unfold sha_finish, sha256_of. rewrite (taken_open _ _ Hm). simpl. by rewrite (sha_pad_state h m).
Defined.

(** Finishing is idempotent and closes the state to further bytes. *)
Lemma sha_finish_closed h b :
  let h' := fst (sha_finish h) in
  sha_update h' b = h' /\ sha_finish h' = sha_finish h.
Proof.
  set (h' := fst (sha_finish h)).
  assert (sha_finished h' = true) as F.
  { subst h'. unfold sha_finish. destruct (sha_finished h) eqn:E; simpl; [done|].
    unfold sha_pad. by destruct (56 <? sha_buffered h + 1)%nat. }
  split; [unfold sha_update; by rewrite F|]. unfold sha_finish at 1. rewrite F. done.
Qed.

(** ** The hexadecimal spelling *)

Lemma nibble_digit n : 0 <= n < 16 -> nibble (hex_digit n) = n.
Proof.
  intros Hn. assert (n ∈ up 0 16) as Hin by by apply elem_of_up.
  revert n Hn Hin. cut (Forall (fun n => nibble (hex_digit n) = n) (up 0 16)).
  { rewrite Forall_forall. eauto. }
  by repeat constructor.
Qed.

Lemma digit_nibble c : 0 <= nibble c -> hex_digit (nibble c) = c /\ nibble c < 16.
Proof. destruct c as [[] [] [] [] [] [] [] []]; vm_compute; (done || by intros []). Qed.

Lemma sha_hex_cons b d :
  sha_hex (b :: d) = hex_digit (Z.shiftr b 4) :: hex_digit (Z.land b 0x0f) :: sha_hex d.
Proof. done. Qed.

Lemma length_sha_hex d : length (sha_hex d) = (2 * length d)%nat.
Proof. induction d as [|b d IH]; [done|]. rewrite sha_hex_cons. cbn [length]. rewrite IH. lia. Qed.

Lemma nth_sha_hex d k : (k < length d)%nat ->
  nth (2 * k) (sha_hex d) "0"%char = hex_digit (Z.shiftr (nth k d 0) 4) /\
  nth (2 * k + 1) (sha_hex d) "0"%char = hex_digit (Z.land (nth k d 0) 0x0f).
Proof.
  revert k. induction d as [|b d IH]; intros k Hk; simpl in Hk; [lia|]. destruct k as [|k]; [done|].
  replace (2 * S k)%nat with (S (S (2 * k)))%nat by lia.
  replace (S (S (2 * k)) + 1)%nat with (S (S (2 * k + 1)))%nat by lia. rewrite sha_hex_cons. cbn [nth].
  apply IH. lia.
Qed.

Lemma byte_nibbles b : is_byte b -> Z.lor (Z.shiftl (Z.shiftr b 4) 4) (Z.land b 15) = b /\
  0 <= Z.shiftr b 4 < 16 /\ 0 <= Z.land b 15 < 16.
Proof.
  intros Hb. unfold is_byte in Hb. split; [|split].
  - apply Z.bits_inj'. intros i Hi. change 15 with (Z.ones 4).
    rewrite Z.lor_spec, Z.shiftl_spec, Z.land_spec, Z.testbit_ones_nonneg by lia.
    destruct (Z.ltb_spec i 4).
    + by rewrite Z.testbit_neg_r, andb_true_r by lia.
    + by rewrite Z.shiftr_spec, andb_false_r, orb_false_r, Z.sub_add by lia.
  - rewrite Z.shiftr_div_pow2 by lia. change (2 ^ 4) with 16. lia.
  - change 15 with (Z.ones 4). rewrite Z.land_ones by lia. apply Z.mod_pos_bound. lia.
Qed.

Lemma nibbles_byte high low : 0 <= high < 16 -> 0 <= low < 16 ->
  let b := Z.lor (Z.shiftl high 4) low in is_byte b /\ Z.shiftr b 4 = high /\ Z.land b 15 = low.
Proof.
  intros Hh Hl.
  assert (high ∈ up 0 16 /\ low ∈ up 0 16) as [Hin1 Hin2] by (split; by apply elem_of_up).
  revert low Hl Hin2. revert high Hh Hin1.
  cut (Forall (fun high => Forall (fun low =>
    let b := Z.lor (Z.shiftl high 4) low in (0 <=? b) && (b <? 256) && (Z.shiftr b 4 =? high) && (Z.land b 15 =? low) = true)
    (up 0 16)) (up 0 16)).
  { rewrite Forall_forall. intros H high Hh H1 low Hl H2. specialize (H high H1).
    rewrite Forall_forall in H. specialize (H low H2). cbv zeta in *.
    rewrite !andb_true_iff in H. unfold is_byte. lia. }
  by repeat constructor.
Qed.

(** The digit pairs of a text. *)
Definition pair_high (text : list ascii) (k : Z) : Z := nibble (nth (Z.to_nat (2 * k)) text "0"%char).
Definition pair_low (text : list ascii) (k : Z) : Z := nibble (nth (Z.to_nat (2 * k + 1)) text "0"%char).

Lemma sha_from_hex_spec text d :
  sha_from_hex text = Some d <->
  length text = 64%nat /\ length d = 32%nat /\
  forall k, 0 <= k < 32 -> 0 <= pair_high text k /\ 0 <= pair_low text k /\
    word_at d k = Z.lor (Z.shiftl (pair_high text k) 4) (pair_low text k).
Proof.
  unfold sha_from_hex. destruct (Nat.eqb_spec (length text) 64) as [El|El]; cbn [negb]; [|naive_solver].
  set (body := fun (index : Z) (digest : bytes) => _).
  set (good := fun k => 0 <= pair_high text k /\ 0 <= pair_low text k).
  assert (returns (foreach_flow (up 0 32) body (replicate 32 0)) (fun r => match r with
    | inl e => length e = 32%nat /\ forall k, 0 <= k < 32 -> good k /\
        word_at e k = Z.lor (Z.shiftl (pair_high text k) 4) (pair_low text k)
    | inr _ => exists k, 0 <= k < 32 /\ ~ good k
    end)) as Hloop.
  { apply (foreach_flow_up (fun i e => length e = 32%nat /\ forall k, 0 <= k < i -> good k /\
        word_at e k = Z.lor (Z.shiftl (pair_high text k) 4) (pair_low text k))
      (fun _ => exists k, 0 <= k < 32 /\ ~ good k)).
    - intros i e Hi [He IH]. subst body. cbv beta zeta. fold (pair_high text i) (pair_low text i).
      destruct (Z.ltb_spec (pair_high text i) 0), (Z.ltb_spec (pair_low text i) 0); cbn [orb returns].
      1-3: exists i; unfold good; split; [done|lia].
      split; [unfold set_word; by rewrite length_insert|]. intros k Hk.
      rewrite word_at_set by (unfold size; lia). destruct (Z.eqb_spec k i) as [->|]; [done|]. apply IH. lia.
    - lia.
    - split; [done|]. intros; lia. }
  destruct (foreach_flow (up 0 32) body (replicate 32 0)) as [[e|[]]|ex]; simpl in Hloop; [| |done].
  - destruct Hloop as [He Hk]. split.
    + intros [= <-]. split_and!; try done. intros k Hk'. destruct (Hk k Hk') as [[? ?] ?]. done.
    + intros (_ & Hd & Hall). f_equal. apply word_at_ext.
      * unfold size. by rewrite He, Hd.
      * intros k Hk'. unfold size in Hk'. rewrite (proj2 (Hk k ltac:(lia))). symmetry. apply Hall. lia.
  - split; [done|]. intros (_ & _ & Hall). destruct Hloop as (k & Hk & Hbad). destruct Hbad.
    destruct (Hall k Hk) as (? & ? & _). done.
Qed.

(** [from_hex] reads back what [hex] writes, and accepts nothing else. *)
Lemma sha_from_hex_round d : length d = 32%nat -> Forall is_byte d -> sha_from_hex (sha_hex d) = Some d.
Proof.
  intros Hd Hb. apply sha_from_hex_spec. rewrite length_sha_hex, Hd. split_and!; [done|done|].
  intros k Hk. destruct (nth_sha_hex d (Z.to_nat k) ltac:(lia)) as [E1 E2].
  assert (is_byte (nth (Z.to_nat k) d 0)) as Hbyte.
  { rewrite Forall_forall in Hb. apply Hb, list_elem_of_In, nth_In. lia. }
  destruct (byte_nibbles _ Hbyte) as (E3 & H1 & H2).
  unfold pair_high, pair_low. replace (Z.to_nat (2 * k)) with (2 * Z.to_nat k)%nat by lia.
  replace (Z.to_nat (2 * k + 1)) with (2 * Z.to_nat k + 1)%nat by lia.
  rewrite E1, E2, !nibble_digit by done. unfold word_at. rewrite E3. lia.
Qed.

Lemma sha_hex_round text d : sha_from_hex text = Some d -> sha_hex d = text /\ Forall is_byte d.
Proof.
  intros (Ht & Hd & Hk)%sha_from_hex_spec.
  assert (forall k, (k < 32)%nat ->
    let b := nth k d 0 in is_byte b /\ hex_digit (Z.shiftr b 4) = nth (2 * k) text "0"%char /\
    hex_digit (Z.land b 15) = nth (2 * k + 1) text "0"%char) as Hbyte.
  { intros k Hlt b. destruct (Hk (Z.of_nat k) ltac:(lia)) as (H1 & H2 & Hw). unfold pair_high, pair_low in *.
    replace (Z.to_nat (2 * Z.of_nat k)) with (2 * k)%nat in * by lia.
    replace (Z.to_nat (2 * Z.of_nat k + 1)) with (2 * k + 1)%nat in * by lia.
    unfold word_at in Hw. rewrite Nat2Z.id in Hw. fold b in Hw.
    destruct (digit_nibble _ H1) as [D1 L1], (digit_nibble _ H2) as [D2 L2].
    destruct (nibbles_byte (nibble (nth (2 * k) text "0"%char)) (nibble (nth (2 * k + 1) text "0"%char)))
      as (N1 & N2 & N3); [done|done|]. rewrite <- Hw in N1, N2, N3. by rewrite N2, N3. }
  split.
  - apply (nth_ext _ _ "0"%char "0"%char); [rewrite length_sha_hex; lia|].
    intros n Hn. rewrite length_sha_hex in Hn. pose proof (Nat.div_mod_eq n 2) as E.
    pose proof (Nat.mod_upper_bound n 2 ltac:(lia)).
    destruct (nth_sha_hex d (n / 2) ltac:(lia)) as [E1 E2].
    destruct (Hbyte (n / 2)%nat ltac:(lia)) as (_ & B1 & B2). rewrite B1 in E1. rewrite B2 in E2.
    set (q := (n / 2)%nat) in *. set (r := (n mod 2)%nat) in *. clearbody q r.
    assert (n = 2 * q \/ n = 2 * q + 1)%nat as [-> | ->] by lia; done.
  - apply Forall_forall. intros b Hb%list_elem_of_In. apply (In_nth _ _ 0) in Hb as (k & Hk' & <-).
    apply Hbyte. lia.
Qed.
