(* ===== verification/PayloadChecksum.v ===== *)
(** * Payload checksums

    Model of src/support/payload_checksum.cpp: the incremental XXH64 hash, the
    spelling of a checksum, and the verifier that checks bytes fed in pieces
    against a recorded XXH64 or SHA-256 checksum. *)
From S2P Require Import Prelude StreamHash Sha256.
Ltac Zify.zify_post_hook ::= Z.div_mod_to_equations.

(** ** XXH64 *)

Definition prime1 : Z := 0x9E3779B185EBCA87.
Definition prime2 : Z := 0xC2B2AE3D27D4EB4F.
Definition prime3 : Z := 0x165667B19E3779F9.
Definition prime4 : Z := 0x85EBCA77C2B2AE63.
Definition prime5 : Z := 0x27D4EB2F165667C5.

Definition rotl64 (x n : Z) : Z := Z.lor (shl64 x n) (Z.shiftr x (64 - n)).

(** Little-endian reads of eight and of four bytes at position [k]. *)
Definition read64 (data : bytes) (k : Z) : Z :=
  foreach_pure (up 0 8) (fun index value =>
    Z.lor value (shl64 (word_at data (k + index)) (8 * index))) 0.
Definition read32 (data : bytes) (k : Z) : Z :=
  foreach_pure (up 0 4) (fun index value =>
    Z.lor value (wrap32 (Z.shiftl (word_at data (k + index)) (8 * index)))) 0.

Definition xx_round (lane input : Z) : Z :=
  let lane := add64 lane (mul64 input prime2) in
  let lane := rotl64 lane 31 in
  mul64 lane prime1.

Definition merge_round (hash lane : Z) : Z :=
  let hash := Z.lxor hash (xx_round 0 lane) in
  add64 (mul64 hash prime1) prime4.

Record Lanes := mkLanes { lane1 : Z; lane2 : Z; lane3 : Z; lane4 : Z }.

(** One iteration of [consume_stripes]. *)
Definition stripe (v : Lanes) (data : bytes) : Lanes :=
  {| lane1 := xx_round (lane1 v) (read64 data 0); lane2 := xx_round (lane2 v) (read64 data 8);
     lane3 := xx_round (lane3 v) (read64 data 16); lane4 := xx_round (lane4 v) (read64 data 24) |}.

Definition consume_stripes (lanes : Lanes) (data : bytes) (stripes : nat) : Lanes :=
  absorb_blocks 32 stripe stripes lanes data.

Record Xxh64 := mkXxh64 {
  xx_lanes : Lanes; xx_buffer : bytes; xx_total_bytes : Z; xx_buffered : nat;
}.

Definition xx_initial : Lanes := mkLanes (add64 prime1 prime2) prime2 0 (sub64 0 prime1).
Definition xx_new : Xxh64 :=
  {| xx_lanes := xx_initial; xx_buffer := replicate 32 0; xx_total_bytes := 0; xx_buffered := 0 |}.

(** The part of [update] behind the buffered bytes. *)
Definition xx_update_aligned (lanes : Lanes) (buffer : bytes) (total : Z) (data : bytes) : Xxh64 :=
  let stripes := (length data / 32)%nat in
  let lanes := consume_stripes lanes data stripes in
  let data := drop (stripes * 32) data in
  {| xx_lanes := lanes; xx_buffer := copy_to buffer 0 data; xx_total_bytes := total;
     xx_buffered := length data |}.

Definition xx_update (h : Xxh64) (data : bytes) : Xxh64 :=
  let total := add64 (xx_total_bytes h) (size data) in
  if negb (xx_buffered h =? 0)%nat then
    let taken := Nat.min (length data) (32 - xx_buffered h) in
    let buffer := copy_to (xx_buffer h) (xx_buffered h) (take taken data) in
    let buffered := (xx_buffered h + taken)%nat in
    let data := drop taken data in
    if (buffered <? 32)%nat
    then {| xx_lanes := xx_lanes h; xx_buffer := buffer; xx_total_bytes := total; xx_buffered := buffered |}
    else xx_update_aligned (consume_stripes (xx_lanes h) buffer 1) buffer total data
  else xx_update_aligned (xx_lanes h) (xx_buffer h) total data.

(** The start of [finish]: the lanes joined. *)
Definition xx_join (lanes : Lanes) (total : Z) : Z :=
  if total >=? 32 then
    let hash := add64 (add64 (add64 (rotl64 (lane1 lanes) 1) (rotl64 (lane2 lanes) 7))
                         (rotl64 (lane3 lanes) 12)) (rotl64 (lane4 lanes) 18) in
    foldl merge_round hash [lane1 lanes; lane2 lanes; lane3 lanes; lane4 lanes]
  else add64 (lane3 lanes) prime5.

(** The loops over the buffered tail: eight bytes, four bytes, single bytes. *)
Definition xx_tail (hash : Z) (tail : bytes) : Z :=
  let n := (length tail / 8)%nat in
  let hash := absorb_blocks 8 (fun hash block =>
    let hash := Z.lxor hash (xx_round 0 (read64 block 0)) in
    add64 (mul64 (rotl64 hash 27) prime1) prime4) n hash tail in
  let tail := drop (n * 8) tail in
  let '(hash, tail) :=
    if (4 <=? length tail)%nat then
      let hash := Z.lxor hash (mul64 (read32 tail 0) prime1) in
      (add64 (mul64 (rotl64 hash 23) prime2) prime3, drop 4 tail)
    else (hash, tail) in
  foldl (fun hash byte =>
    let hash := Z.lxor hash (mul64 byte prime5) in
    mul64 (rotl64 hash 11) prime1) hash tail.

Definition avalanche (hash : Z) : Z :=
  let hash := Z.lxor hash (Z.shiftr hash 33) in
  let hash := mul64 hash prime2 in
  let hash := Z.lxor hash (Z.shiftr hash 29) in
  let hash := mul64 hash prime3 in
  Z.lxor hash (Z.shiftr hash 32).

Definition xx_finish (h : Xxh64) : Z :=
  let hash := xx_join (xx_lanes h) (xx_total_bytes h) in
  let hash := add64 hash (xx_total_bytes h) in
  avalanche (xx_tail hash (take (xx_buffered h) (xx_buffer h))).

Definition xx_digest (data : bytes) : Z := xx_finish (xx_update xx_new data).

(** ** Spelling *)

Definition xxh64_tag : list ascii := list_ascii_of_string "xxh64:".

Definition hex64 (value : Z) : list ascii :=
  (fun nibble => hex_digit (Z.land (Z.shiftr value ((15 - nibble) * 4)) 0xf)) <$> up 0 16.

Definition lower_hex (text : list ascii) : bool :=
  forallb (fun character =>
    let code := byte_of_ascii character in
    ((48 <=? code) && (code <=? 57)) || ((97 <=? code) && (code <=? 102))) text.

Definition starts_with (text prefix : list ascii) : bool :=
  bool_decide (take (length prefix) text = prefix).

Definition payload_checksum (data : bytes) : list ascii := xxh64_tag ++ hex64 (xx_digest data).
Definition payload_checksum_state (state : Xxh64) : list ascii := xxh64_tag ++ hex64 (xx_finish state).

Definition payload_checksum_spelling (checksum : list ascii) : bool :=
  if starts_with checksum xxh64_tag then
    let digits := drop (length xxh64_tag) checksum in
    (length digits =? 16)%nat && lower_hex digits
  else (length checksum =? 64)%nat && lower_hex checksum.

(** ** The verifier *)

Record PayloadChecksumVerifier := mkVerifier {
  v_expected : list ascii; v_xxh64 : bool; v_xxh64_state : Xxh64; v_sha256_state : Sha256;
}.

Definition verifier (expected : list ascii) : PayloadChecksumVerifier :=
  mkVerifier expected (starts_with expected xxh64_tag) xx_new sha_new.

Definition verifier_update (v : PayloadChecksumVerifier) (data : bytes) : PayloadChecksumVerifier :=
  if v_xxh64 v
  then mkVerifier (v_expected v) (v_xxh64 v) (xx_update (v_xxh64_state v) data) (v_sha256_state v)
  else mkVerifier (v_expected v) (v_xxh64 v) (v_xxh64_state v) (sha_update (v_sha256_state v) data).

(** Finishing the SHA-256 state changes it. *)
Definition verifier_matches (v : PayloadChecksumVerifier) : PayloadChecksumVerifier * bool :=
  if v_xxh64 v
  then (v, bool_decide (xxh64_tag ++ hex64 (xx_finish (v_xxh64_state v)) = v_expected v))
  else
    let '(sha, digest) := sha_finish (v_sha256_state v) in
    (mkVerifier (v_expected v) (v_xxh64 v) (v_xxh64_state v) sha,
     bool_decide (sha_hex digest = v_expected v)).

Definition payload_checksum_matches (data : bytes) (expected : list ascii) : bool :=
  snd (verifier_matches (verifier_update (verifier expected) data)).

(** * Theorems *)

#[local] Arguments Nat.div : simpl never.
#[local] Arguments Nat.sub : simpl never.
#[local] Arguments Nat.mul : simpl never.

(** Published values of XXH64 with seed 0. *)
Example xxh64_empty : xx_digest [] = 0xEF46DB3751D8E999.
Proof. vm_compute. reflexivity. Qed.
Example xxh64_abc : xx_digest (as_bytes "abc") = 0x44BC2CF5AD770999.
Proof. vm_compute. reflexivity. Qed.
Example xxh64_long :
  xx_digest (as_bytes "Nobody inspects the spammish repetition") = 0xFBCEA83C8A378BF1.
Proof. vm_compute. reflexivity. Qed.

Record xx_taken (h : Xxh64) (m : bytes) : Prop := {
  xx_size : length (xx_buffer h) = 32%nat;
  xx_state : xx_lanes h = absorbed 32 stripe xx_initial m;
  xx_count : xx_buffered h = length (pending 32 m);
  xx_rest : take (xx_buffered h) (xx_buffer h) = pending 32 m;
  xx_total : xx_total_bytes h = wrap64 (size m);
}.

(** The digest of a message, independent of how it is fed. *)
Definition xxh64_of (m : bytes) : Z :=
  let total := wrap64 (size m) in
  avalanche (xx_tail (add64 (xx_join (absorbed 32 stripe xx_initial m) total) total) (pending 32 m)).

Lemma xx_update_aligned_taken lanes buffer total m data :
  length buffer = 32%nat -> lanes = absorbed 32 stripe xx_initial m -> pending 32 m = [] ->
  total = wrap64 (size (m ++ data)) ->
  xx_taken (xx_update_aligned lanes buffer total data) (m ++ data).
Proof.
  intros Hb -> Hp ->. unfold xx_update_aligned, consume_stripes. cbv zeta.
  fold (block_count 32 data). fold (pending 32 data).
  destruct (absorb_aligned 32 stripe xx_initial ltac:(lia) m data Hp) as [A1 A2].
  pose proof (pending_short 32 ltac:(lia) data) as Hshort.
  pose proof (take_copy_to buffer 0 (pending 32 data) ltac:(lia)) as Htake.
  split; simpl; rewrite ?A1, ?A2; try done. rewrite length_copy_to; lia.
Qed.

Lemma xx_taken_update h m b : xx_taken h m -> xx_taken (xx_update h b) (m ++ b).
Proof.
  intros [T1 T2 T3 T4 T5]. pose proof (pending_short 32 ltac:(lia) m) as Hshort.
  unfold xx_update. rewrite T5, total_app.
  destruct (Nat.eqb_spec (xx_buffered h) 0) as [E|E]; cbn [negb].
  { apply xx_update_aligned_taken; try done. apply nil_length_inv. lia. }
  cbv zeta. set (taken := Nat.min (length b) (32 - xx_buffered h)).
  assert (length (take taken b) = taken) as Hc by (rewrite length_take; lia).
  assert (xx_buffered h + length (take taken b) <= length (xx_buffer h))%nat as Hfit by lia.
  pose proof (take_copy_to _ _ _ Hfit) as Htake. rewrite T4, Hc in Htake.
  pose proof (length_copy_to _ _ _ Hfit) as Hlen.
  destruct (Nat.ltb_spec (xx_buffered h + taken) 32).
  - assert (take taken b = b) as Hb by (apply take_ge; lia). rewrite Hb in *.
    destruct (absorb_waiting 32 stripe xx_initial ltac:(lia) m b) as [A1 A2]; [lia|].
    split; simpl; rewrite ?A1, ?A2, ?length_app; try done; lia.
  - assert (m ++ b = (m ++ take taken b) ++ drop taken b) as -> by by rewrite <- app_assoc, take_drop.
    destruct (absorb_completing 32 stripe xx_initial ltac:(lia) m (take taken b)) as [A1 A2]; [lia|].
    apply xx_update_aligned_taken; try done; [lia|].
    rewrite A1, <- Htake. unfold consume_stripes. cbn [absorb_blocks]. rewrite T2.
    by replace (xx_buffered h + taken)%nat with 32%nat by lia.
Qed.

#[global] Instance xxh64_stream : StreamHash xx_new xx_update xx_finish xxh64_of.
Proof.
  refine {| has_taken := xx_taken; taken_update := xx_taken_update |}.
  - by split.
  - intros h m [T1 T2 T3 T4 T5]. unfold xx_finish, xxh64_of. by rewrite T2, T4, T5.
Defined.

(** ** Spelling *)

Definition is_lower_hex (c : ascii) : bool := lower_hex [c].

Lemma lower_hex_forallb text : lower_hex text = forallb is_lower_hex text.
Proof. unfold is_lower_hex, lower_hex. induction text as [|c text IH]; simpl; [done|]. by rewrite IH, andb_true_r. Qed.

Lemma lower_hex_digit n : 0 <= n < 16 -> is_lower_hex (hex_digit n) = true.
Proof.
  intros Hn. assert (n ∈ up 0 16) as Hin by by apply elem_of_up.
  revert n Hn Hin. cut (Forall (fun n => is_lower_hex (hex_digit n) = true) (up 0 16)).
  { rewrite Forall_forall. eauto. }
  by repeat constructor.
Qed.

Lemma land_15_bound x : 0 <= Z.land x 0xf < 16.
Proof. change 0xf with (Z.ones 4). rewrite Z.land_ones by lia. apply Z.mod_pos_bound. lia. Qed.

Lemma hex64_lower value : lower_hex (hex64 value) = true.
Proof.
  rewrite lower_hex_forallb. apply forallb_forall. intros c Hc%list_elem_of_In.
  unfold hex64 in Hc. apply list_elem_of_fmap in Hc as (k & -> & _). apply lower_hex_digit, land_15_bound.
Qed.

Lemma tag_prefix text : starts_with (xxh64_tag ++ text) xxh64_tag = true.
Proof. apply bool_decide_eq_true_2. apply take_app_length. Qed.

(** Sixteen digits determine the 64-bit value. *)
Lemma hex64_inj x y : is_u64 x -> is_u64 y -> hex64 x = hex64 y -> x = y.
Proof.
  intros Hx Hy H. apply Z.bits_inj'. intros i Hi. destruct (Z.ltb_spec i 64).
  2:{ by rewrite !testbit_u64_high. }
  assert (forall k, 0 <= k < 16 ->
    Z.land (Z.shiftr x ((15 - k) * 4)) 0xf = Z.land (Z.shiftr y ((15 - k) * 4)) 0xf) as Hk.
  { intros k Hk. rewrite <- (nibble_digit (Z.land (Z.shiftr x _) _)), <- (nibble_digit (Z.land (Z.shiftr y _) _))
      by apply land_15_bound. f_equal.
    apply (f_equal (fun l => l !! Z.to_nat k)) in H. unfold hex64 in H.
    rewrite !list_lookup_fmap in H. unfold up in H. rewrite lookup_seqZ_lt in H by lia.
    simpl in H. injection H as H. by rewrite Z2Nat.id in H by lia. }
  specialize (Hk (15 - i / 4) ltac:(lia)). replace (15 - (15 - i / 4)) with (i / 4) in Hk by lia.
  apply (f_equal (fun z => Z.testbit z (i mod 4))) in Hk. change 0xf with (Z.ones 4) in Hk.
  rewrite !Z.land_spec, Z.testbit_ones_nonneg, !Z.shiftr_spec in Hk by lia.
  replace (i mod 4 + i / 4 * 4) with i in Hk by lia.
  rewrite (proj2 (Z.ltb_lt (i mod 4) 4)), !andb_true_r in Hk by lia. done.
Qed.

Lemma lower_hex_app t1 t2 : lower_hex (t1 ++ t2) = lower_hex t1 && lower_hex t2.
Proof. unfold lower_hex. apply forallb_app. Qed.

(** A text of lowercase digits is never tagged. *)
Lemma lower_hex_untagged text : lower_hex text = true -> starts_with text xxh64_tag = false.
Proof.
  intros H. apply bool_decide_eq_false_2. intros E. rewrite <- (take_drop (length xxh64_tag) text), E in H.
  by rewrite lower_hex_app in H.
Qed.

Lemma sha_hex_lower d : Forall is_byte d -> lower_hex (sha_hex d) = true.
Proof.
  induction 1 as [|b d Hb _ IH]; [done|]. destruct (byte_nibbles b Hb) as (_ & H1 & H2).
  rewrite sha_hex_cons.
  change (hex_digit (Z.shiftr b 4) :: hex_digit (Z.land b 15) :: sha_hex d)
    with ([hex_digit (Z.shiftr b 4)] ++ [hex_digit (Z.land b 15)] ++ sha_hex d).
  rewrite !lower_hex_app, IH. fold (is_lower_hex (hex_digit (Z.shiftr b 4))) (is_lower_hex (hex_digit (Z.land b 15))).
  by rewrite !lower_hex_digit.
Qed.

(** A digest is 32 bytes. *)
Lemma digest_bytes_ok state : length state = 8%nat ->
  length (digest_bytes state) = 32%nat /\ Forall is_byte (digest_bytes state).
Proof.
  intros H. destruct state as [|s0 [|s1 [|s2 [|s3 [|s4 [|s5 [|s6 [|s7 [|]]]]]]]]]; try done. split; [done|].
  apply Forall_forall. intros b Hb. unfold digest_bytes in Hb.
  apply list_elem_of_bind in Hb as (word & Hb & _). apply list_elem_of_fmap in Hb as (k & -> & _).
  unfold is_byte. change 255 with (Z.ones 8). rewrite Z.land_ones by lia. apply Z.mod_pos_bound. lia.
Qed.

Lemma length_absorbed_sha m : length (absorbed 64 transform sha_initial m) = 8%nat.
Proof.
  unfold absorbed. generalize (block_count 64 m). intros n.
  assert (length sha_initial = 8%nat) as H by done. revert H. generalize sha_initial. revert m.
  induction n as [|n IH]; intros m s Hs; [done|]. cbn [absorb_blocks]. by apply IH.
Qed.

Lemma sha256_of_ok m : length (sha256_of m) = 32%nat /\ Forall is_byte (sha256_of m).
Proof. apply digest_bytes_ok, length_absorbed_sha. Qed.

(** ** The verifier *)

(** The checksum of [m] in the spelling of [expected]. *)
Definition checksum_like (expected : list ascii) (m : bytes) : list ascii :=
  if starts_with expected xxh64_tag then xxh64_tag ++ hex64 (xxh64_of m) else sha_hex (sha256_of m).

Lemma verifier_pieces_state v pieces :
  foldl verifier_update v pieces =
  mkVerifier (v_expected v) (v_xxh64 v)
    (if v_xxh64 v then foldl xx_update (v_xxh64_state v) pieces else v_xxh64_state v)
    (if v_xxh64 v then v_sha256_state v else foldl sha_update (v_sha256_state v) pieces).
Proof.
  revert v. induction pieces as [|b pieces IH]; intros v; simpl.
  - by destruct v as [e [] x s].
  - rewrite IH. unfold verifier_update. by destruct v as [e [] x s].
Qed.

(** Bytes fed in pieces match exactly when the checksum of the whole, in the
    spelling of the recorded one, equals it. *)
Lemma verifier_pieces expected pieces :
  snd (verifier_matches (foldl verifier_update (verifier expected) pieces))
  = bool_decide (checksum_like expected (mjoin pieces) = expected).
Proof.
  rewrite verifier_pieces_state. unfold verifier, verifier_matches, checksum_like. simpl.
  destruct (starts_with expected xxh64_tag).
  - by rewrite (stream_pieces (result := xx_finish) (digest_of := xxh64_of)).
  - pose proof (stream_pieces (result := fun h => snd (sha_finish h)) (digest_of := sha256_of) pieces) as Hs.
    destruct (sha_finish (foldl sha_update sha_new pieces)) as [h d]. simpl in Hs |- *. by rewrite Hs.
Qed.

Lemma payload_checksum_matches_spec m expected :
  payload_checksum_matches m expected = bool_decide (checksum_like expected m = expected).
Proof.
  pose proof (verifier_pieces expected [m]) as H. simpl in H. by rewrite app_nil_r in H.
Qed.

Lemma payload_checksum_eq m : payload_checksum m = xxh64_tag ++ hex64 (xxh64_of m).
Proof.
  unfold payload_checksum, xx_digest.
  pose proof (stream_pieces (result := xx_finish) (digest_of := xxh64_of) [m]) as H. simpl in H.
  by rewrite app_nil_r in H; rewrite H.
Qed.

(** What [payload_checksum] writes is a valid spelling and verifies. *)
Lemma payload_checksum_accepted m :
  payload_checksum_spelling (payload_checksum m) = true /\
  payload_checksum_matches m (payload_checksum m) = true.
Proof.
  rewrite payload_checksum_matches_spec, payload_checksum_eq. unfold payload_checksum_spelling, checksum_like.
  rewrite tag_prefix, drop_app_length, hex64_lower. split; [done|]. by apply bool_decide_eq_true_2.
Qed.

(** A SHA-256 digest in hexadecimal is a valid spelling and verifies. *)
Lemma sha_checksum_accepted m :
  payload_checksum_spelling (sha_hex (sha256_of m)) = true /\
  payload_checksum_matches m (sha_hex (sha256_of m)) = true.
Proof.
  destruct (sha256_of_ok m) as [Hl Hb]. pose proof (sha_hex_lower _ Hb) as Hlow.
  rewrite payload_checksum_matches_spec. unfold payload_checksum_spelling, checksum_like.
  rewrite lower_hex_untagged, length_sha_hex, Hl, Hlow by done. split; [done|].
  by apply bool_decide_eq_true_2.
Qed.

Lemma avalanche_u64 x : is_u64 (avalanche x).
Proof.
  unfold avalanche. cbv zeta. apply is_u64_lxor; [apply is_u64_wrap64|].
  apply is_u64_shiftr; [lia|]. apply is_u64_wrap64.
Qed.

(** Two payloads have the same checksum exactly when their hashes agree. *)
Lemma payload_checksum_inj m1 m2 :
  payload_checksum m1 = payload_checksum m2 <-> xxh64_of m1 = xxh64_of m2.
Proof.
  rewrite !payload_checksum_eq. split; [|by intros ->].
  intros H%app_inv_head. apply hex64_inj; [apply avalanche_u64|apply avalanche_u64|done].
Qed.
