(* ===== verification/CancellationSlots.v ===== *)
(** * Cancellation slots of the scheduler

    Model of class [CancellationSlots] of src/runtime/scheduler_internal.hpp:
    the table behind the handles of cancelable tasks.  A slot is reused through
    a free list, and a generation counter tells its successive occupants
    apart; a slot whose counter is exhausted is never reused.  The theorems
    show the free list stays well-formed and that a handle, once dead, stays
    dead. *)
From stdpp Require Import relations.
From S2P Require Import Prelude.

(** [std::numeric_limits<std::size_t>::max()], the end of the free list. *)
Definition no_slot : Z := U64_MAX.

Record Identity := mkIdentity {
  id_slot : Z;
  id_generation : Z;
}.

#[global] Instance identity_eq_dec : EqDecision Identity.
Proof. solve_decision. Defined.

(** [slot_task] is a [std::function]; [None] is the empty one. *)
Record CancelSlot (Task : Type) := mkCancelSlot {
  slot_generation : Z;
  slot_active : bool;
  slot_next_free : Z;
  slot_task : option Task;
}.
Arguments mkCancelSlot {Task}.
Arguments slot_generation {Task}.
Arguments slot_active {Task}.
Arguments slot_next_free {Task}.
Arguments slot_task {Task}.

Record CancellationSlots (Task : Type) := mkCancellationSlots {
  slots_ : list (CancelSlot Task);
  free_head : Z;
}.
Arguments mkCancellationSlots {Task}.
Arguments slots_ {Task}.
Arguments free_head {Task}.

Section slots.
Context {Task : Type}.
Implicit Types (cs : CancellationSlots Task) (id : Identity).

Definition no_slots : CancellationSlots Task := mkCancellationSlots [] no_slot.

(** [slots_[index]] *)
Definition slot_at cs (index : Z) : option (CancelSlot Task) :=
  if index <? 0 then None else slots_ cs !! Z.to_nat index.
Definition set_slot cs (index : Z) (slot : CancelSlot Task) : list (CancelSlot Task) :=
  <[Z.to_nat index := slot]> (slots_ cs).

Definition acquire cs (task : option Task) : CancellationSlots Task * Identity :=
  match (if free_head cs =? no_slot then None else slot_at cs (free_head cs)) with
  | Some slot =>
      let index := free_head cs in
      let generation := wrap64 (slot_generation slot + 1) in
      (mkCancellationSlots
         (set_slot cs index (mkCancelSlot generation true (slot_next_free slot) task))
         (slot_next_free slot),
       mkIdentity index generation)
  | None =>
      (mkCancellationSlots (slots_ cs ++ [mkCancelSlot 1 true no_slot task]) (free_head cs),
       mkIdentity (size (slots_ cs)) 1)
  end.

Definition slot_live cs id : bool :=
  match slot_at cs (id_slot id) with
  | Some slot => (slot_generation slot =? id_generation id) && slot_active slot
  | None => false
  end.

Definition release cs id : CancellationSlots Task :=
  if negb (slot_live cs id) then cs
  else
    match slot_at cs (id_slot id) with
    | Some slot =>
        if negb (slot_generation slot =? U64_MAX) then
          mkCancellationSlots
            (set_slot cs (id_slot id)
               (mkCancelSlot (slot_generation slot) false (free_head cs) None))
            (id_slot id)
        else
          mkCancellationSlots
            (set_slot cs (id_slot id)
               (mkCancelSlot (slot_generation slot) false (slot_next_free slot) None))
            (free_head cs)
    | None => cs
    end.

(** [take]: the task leaves its slot, which is released. *)
Definition take_slot cs id : CancellationSlots Task * option Task :=
  match slot_at cs (id_slot id) with
  | Some slot =>
      (release (mkCancellationSlots
         (set_slot cs (id_slot id)
            (mkCancelSlot (slot_generation slot) (slot_active slot) (slot_next_free slot) None))
         (free_head cs)) id,
       slot_task slot)
  | None => (cs, None)
  end.

(** ** Invariant *)

(** The free list starting at [head] visits exactly the slots [free], in this
    order. *)
Fixpoint free_path cs (head : Z) (free : list Z) : Prop :=
  match free with
  | [] => head = no_slot
  | index :: rest =>
      head = index /\ exists slot, slot_at cs index = Some slot /\
        slot_active slot = false /\ slot_generation slot < U64_MAX /\
        free_path cs (slot_next_free slot) rest
  end.

(** The free list is finite, without repetition, and holds inactive slots
    whose generation can still grow; generations are positive 64-bit
    numbers. *)
Record slots_ok cs : Prop := {
  slots_free : exists free, free_path cs (free_head cs) free /\ NoDup free;
  slots_size : size (slots_ cs) <= U64_MAX;
  slots_generation : forall index slot, slot_at cs index = Some slot -> 1 <= slot_generation slot <= U64_MAX;
}.

(** A handle the table has handed out: its generation is not ahead of its
    slot's. *)
Definition issued cs id : Prop :=
  exists slot, slot_at cs (id_slot id) = Some slot /\ 1 <= id_generation id <= slot_generation slot.

(** One operation of the table. *)
Inductive slots_step : CancellationSlots Task -> CancellationSlots Task -> Prop :=
  | step_acquire cs task : size (slots_ cs) < U64_MAX -> slots_step cs (fst (acquire cs task))
  | step_release cs id : slots_step cs (release cs id)
  | step_take cs id : slots_step cs (fst (take_slot cs id)).

(** ** Lemmas *)

Lemma slot_at_set cs index j slot :
  0 <= index -> is_Some (slot_at cs index) ->
  slot_at (mkCancellationSlots (set_slot cs index slot) (free_head cs)) j =
  if j =? index then Some slot else slot_at cs j.
Proof.
  intros Hi [old Ho]. unfold slot_at, set_slot in *. simpl.
  destruct (Z.ltb_spec index 0); [lia|].
  destruct (Z.ltb_spec j 0); [by destruct (Z.eqb_spec j index); [lia|]|].
  destruct (Z.eqb_spec j index) as [->|Hne].
  - apply list_lookup_insert_eq. by apply lookup_lt_Some in Ho.
  - rewrite list_lookup_insert_ne by lia. done.
Qed.

(** [slot_at] does not see the head of the free list. *)
Lemma slot_at_head ss h1 h2 j :
  slot_at (mkCancellationSlots ss h1) j = slot_at (mkCancellationSlots ss h2) j.
Proof. done. Qed.

Lemma slot_at_range cs j slot : slot_at cs j = Some slot -> 0 <= j < size (slots_ cs).
Proof.
  unfold slot_at, size. destruct (Z.ltb_spec j 0); [done|]. intros Hl%lookup_lt_Some. lia.
Qed.

Lemma slot_at_app cs slot j :
  slot_at (mkCancellationSlots (slots_ cs ++ [slot]) (free_head cs)) j =
  if j =? size (slots_ cs) then Some slot else slot_at cs j.
Proof.
  unfold slot_at, size. simpl. destruct (Z.ltb_spec j 0); [by destruct (Z.eqb_spec j (Z.of_nat (length (slots_ cs)))); [lia|]|].
  destruct (Z.eqb_spec j (Z.of_nat (length (slots_ cs)))) as [->|Hne].
  - rewrite Nat2Z.id, lookup_app_r by lia. by rewrite Nat.sub_diag.
  - destruct (decide (Z.to_nat j < length (slots_ cs))%nat) as [|Hge].
    + by rewrite lookup_app_l.
    + rewrite lookup_app_r by lia. rewrite (lookup_ge_None_2 (slots_ cs)) by lia.
      destruct (Z.to_nat j - length (slots_ cs))%nat eqn:E; [lia|done].
Qed.

(** The free list depends only on the slots it visits. *)
Lemma free_path_agree cs cs' free : forall head,
  (forall j, j ∈ free -> slot_at cs' j = slot_at cs j) ->
  free_path cs head free -> free_path cs' head free.
Proof.
  induction free as [|index rest IH]; intros head Hag; simpl; [done|].
  intros (-> & slot & Hs & Ha & Hg & Hp). split; [done|]. exists slot. rewrite Hag by set_solver.
  split_and!; try done. apply IH; [|done]. intros j Hj. apply Hag. set_solver.
Qed.

Lemma free_path_inactive cs free : forall head j,
  free_path cs head free -> j ∈ free ->
  exists slot, slot_at cs j = Some slot /\ slot_active slot = false /\ slot_generation slot < U64_MAX.
Proof.
  induction free as [|index rest IH]; intros head j; simpl; [set_solver|].
  intros (-> & slot & Hs & Ha & Hg & Hp) [->|Hj]%elem_of_cons; [by exists slot|by eapply IH].
Qed.

Lemma slot_live_inv cs id : slot_live cs id = true ->
  exists slot, slot_at cs (id_slot id) = Some slot /\ slot_generation slot = id_generation id /\
    slot_active slot = true.
Proof.
  unfold slot_live. destruct (slot_at cs (id_slot id)) as [slot|]; [|done].
  intros [?%Z.eqb_eq ?]%andb_true_iff. by exists slot.
Qed.

(** What an acquisition does, on either path. *)
Lemma acquire_cases cs task : slots_ok cs ->
  (exists slot rest,
     slot_at cs (free_head cs) = Some slot /\ slot_active slot = false /\
     (1 <= slot_generation slot < U64_MAX) /\ (free_head cs ∉ rest) /\ NoDup rest /\
     free_path cs (slot_next_free slot) rest /\
     acquire cs task = (mkCancellationSlots
       (set_slot cs (free_head cs) (mkCancelSlot (slot_generation slot + 1) true (slot_next_free slot) task))
       (slot_next_free slot), mkIdentity (free_head cs) (slot_generation slot + 1))) \/
  (free_head cs = no_slot /\
   acquire cs task = (mkCancellationSlots (slots_ cs ++ [mkCancelSlot 1 true no_slot task]) no_slot,
     mkIdentity (size (slots_ cs)) 1)).
Proof.
  intros [[free [Hp Hnd]] Hsz Hg]. unfold acquire. destruct free as [|index rest].
  - right. simpl in Hp. rewrite Hp, Z.eqb_refl. done.
  - left. destruct Hp as (E & slot & Hs & Ha & Hb & Hp). rewrite <- E in Hs. rewrite Hs.
    apply NoDup_cons in Hnd as [Hni Hnd]. pose proof (slot_at_range _ _ _ Hs).
    rewrite (proj2 (Z.eqb_neq _ _)) by (unfold no_slot; lia).
    pose proof (Hg _ _ Hs). exists slot, rest. rewrite E in *. split_and!; try done; [lia|].
    unfold wrap64. rewrite Z.mod_small by (unfold U64_MAX in *; lia). done.
Qed.

Lemma acquire_ok cs task : slots_ok cs -> size (slots_ cs) < U64_MAX -> slots_ok (fst (acquire cs task)).
Proof.
  intros Hok Hsz. destruct (acquire_cases cs task Hok) as
    [(slot & rest & Hs & Ha & Hb & Hni & Hnd & Hp & ->)|[Hh ->]]; simpl.
  - pose proof (slot_at_range _ _ _ Hs) as Hr.
    assert (forall j, slot_at (mkCancellationSlots (set_slot cs (free_head cs)
        (mkCancelSlot (slot_generation slot + 1) true (slot_next_free slot) task)) (slot_next_free slot)) j
      = if j =? free_head cs then Some (mkCancelSlot (slot_generation slot + 1) true (slot_next_free slot) task)
        else slot_at cs j) as Hat.
    { intros j. rewrite (slot_at_head _ _ (free_head cs)). apply slot_at_set; [lia|by eexists]. }
    split.
    + exists rest. split; [|done]. simpl. eapply free_path_agree; [|exact Hp].
      intros j Hj. rewrite Hat. destruct (Z.eqb_spec j (free_head cs)) as [->|]; done.
    + unfold set_slot, size in *. simpl. rewrite length_insert. lia.
    + intros j slot'. rewrite Hat. destruct (j =? free_head cs); [intros [= <-]; simpl; lia|apply Hok].
  - destruct Hok as [_ _ Hg]. split.
    + exists []. simpl. split; [done|constructor].
    + unfold size in *. simpl. rewrite length_app. simpl. lia.
    + intros j slot'. rewrite (slot_at_head _ _ (free_head cs)), slot_at_app.
      destruct (j =? size (slots_ cs)); [intros [= <-]; simpl; unfold U64_MAX; lia|apply Hg].
Qed.

(** Releasing a live handle puts its slot at the head of the free list, unless
    its generations are used up. *)
Lemma release_ok cs id : slots_ok cs -> slots_ok (release cs id).
Proof.
  intros Hok. unfold release. destruct (slot_live cs id) eqn:El; [|done]. simpl.
  destruct (slot_live_inv _ _ El) as (slot & Hs & Hgen & Hact). rewrite Hs.
  pose proof (slot_at_range _ _ _ Hs) as Hr. destruct Hok as [[free [Hp Hnd]] Hsz Hg].
  assert (id_slot id ∉ free) as Hni.
  { intros Hin. destruct (free_path_inactive _ _ _ _ Hp Hin) as (slot' & Hs' & Ha' & _). congruence. }
  assert (forall h new j, slot_at (mkCancellationSlots (set_slot cs (id_slot id) new) h) j
    = if j =? id_slot id then Some new else slot_at cs j) as Hat.
  { intros h new j. rewrite (slot_at_head _ _ (free_head cs)). apply slot_at_set; [lia|by eexists]. }
  assert (forall h new, free_path (mkCancellationSlots (set_slot cs (id_slot id) new) h) (free_head cs) free) as Hpath.
  { intros h new. eapply free_path_agree; [|exact Hp]. intros j Hj. rewrite Hat.
    destruct (Z.eqb_spec j (id_slot id)) as [->|]; done. }
  pose proof (Hg _ _ Hs) as Hgs.
  assert (forall h new, size (slots_ (mkCancellationSlots (set_slot cs (id_slot id) new) h)) <= U64_MAX) as Hsize.
  { intros h new. unfold set_slot, size in *. simpl. rewrite length_insert. lia. }
  destruct (Z.eqb_spec (slot_generation slot) U64_MAX) as [E|E]; simpl; split; try apply Hsize.
  - exists free. split; [apply Hpath|done].
  - intros j slot'. rewrite Hat. destruct (j =? id_slot id); [intros [= <-]; simpl; lia|apply Hg].
  - exists (id_slot id :: free). simpl. rewrite Hat, Z.eqb_refl. split; [|by constructor].
    split; [done|]. eexists. split_and!; [done|done|simpl; lia|apply Hpath].
  - intros j slot'. rewrite Hat. destruct (j =? id_slot id); [intros [= <-]; simpl; lia|apply Hg].
Qed.

(** Emptying the task of a slot changes no handle. *)
Definition emptied cs (index : Z) (slot : CancelSlot Task) : CancellationSlots Task :=
  mkCancellationSlots (set_slot cs index
    (mkCancelSlot (slot_generation slot) (slot_active slot) (slot_next_free slot) None)) (free_head cs).

Lemma emptied_at cs index slot j : slot_at cs index = Some slot ->
  slot_at (emptied cs index slot) j =
  if j =? index then Some (mkCancelSlot (slot_generation slot) (slot_active slot) (slot_next_free slot) None)
  else slot_at cs j.
Proof. intros Hs. pose proof (slot_at_range _ _ _ Hs). apply slot_at_set; [lia|by eexists]. Qed.

Lemma emptied_path cs index slot free : slot_at cs index = Some slot -> forall head,
  free_path cs head free -> free_path (emptied cs index slot) head free.
Proof.
  intros Hs. induction free as [|i rest IH]; intros head; simpl; [done|].
  intros (-> & slot' & Hs' & Ha & Hg & Hp). split; [done|]. rewrite emptied_at by done.
  destruct (Z.eqb_spec i index) as [->|]; [|exists slot'; by auto].
  assert (slot = slot') as <- by congruence. eexists. split_and!; [done|done|done|]. by apply IH.
Qed.

Lemma emptied_ok cs index slot : slot_at cs index = Some slot -> slots_ok cs -> slots_ok (emptied cs index slot).
Proof.
  intros Hs [[free [Hp Hnd]] Hsz Hg]. split.
  - exists free. split; [by apply emptied_path|done].
  - unfold emptied, set_slot, size in *. simpl. rewrite length_insert. lia.
  - intros j slot'. rewrite emptied_at by done.
    destruct (j =? index); [intros [= <-]; simpl; by apply (Hg _ _ Hs)|apply Hg].
Qed.

Lemma take_slot_ok cs id : slots_ok cs -> slots_ok (fst (take_slot cs id)).
Proof.
  intros Hok. unfold take_slot. destruct (slot_at cs (id_slot id)) as [slot|] eqn:Hs; [|done].
  apply release_ok. by apply emptied_ok.
Qed.

(** Every operation keeps the table well-formed. *)
Lemma slots_step_ok cs cs' : slots_step cs cs' -> slots_ok cs -> slots_ok cs'.
Proof. intros []; auto using acquire_ok, release_ok, take_slot_ok. Qed.

(** ** Handles *)

(** The generation of a slot never decreases and an inactive slot becomes
    active only with a larger one. *)
Definition slots_advance cs cs' : Prop :=
  forall j slot, slot_at cs j = Some slot -> exists slot', slot_at cs' j = Some slot' /\
    slot_generation slot <= slot_generation slot' /\
    (slot_active slot = false -> slot_active slot' = true -> slot_generation slot < slot_generation slot').

Lemma slots_advance_refl cs : slots_advance cs cs.
Proof. intros j slot Hs. exists slot. split_and!; [done|lia|congruence]. Qed.

Lemma slots_advance_trans c1 c2 c3 : slots_advance c1 c2 -> slots_advance c2 c3 -> slots_advance c1 c3.
Proof.
  intros H12 H23 j slot Hs. destruct (H12 _ _ Hs) as (s2 & Hs2 & Hg2 & Ha2).
  destruct (H23 _ _ Hs2) as (s3 & Hs3 & Hg3 & Ha3). exists s3. split_and!; [done|lia|].
  intros E1 E3. destruct (slot_active s2); [|specialize (Ha3 eq_refl E3)]; [|lia].
  specialize (Ha2 E1 eq_refl). lia.
Qed.

Lemma set_slot_advance cs index slot new h :
  slot_at cs index = Some slot -> slot_generation slot <= slot_generation new ->
  (slot_active slot = false -> slot_active new = true -> slot_generation slot < slot_generation new) ->
  slots_advance cs (mkCancellationSlots (set_slot cs index new) h).
Proof.
  intros Hs Hg Ha j slot' Hs'. pose proof (slot_at_range _ _ _ Hs).
  rewrite (slot_at_head _ _ (free_head cs)), slot_at_set by (lia || by eexists).
  destruct (Z.eqb_spec j index) as [->|].
  - replace slot' with slot by congruence. by exists new.
  - exists slot'. split_and!; [done|lia|congruence].
Qed.

Lemma release_advance cs id : slots_advance cs (release cs id).
Proof.
  unfold release. destruct (slot_live cs id) eqn:El; simpl; [|apply slots_advance_refl].
  destruct (slot_at cs (id_slot id)) as [slot|] eqn:Hs; [|apply slots_advance_refl].
  destruct (negb _); eapply set_slot_advance; simpl; done || lia.
Qed.

Lemma slots_step_advance cs cs' : slots_ok cs -> slots_step cs cs' -> slots_advance cs cs'.
Proof.
  intros Hok Hstep. destruct Hstep as [cs task Hsz|cs id|cs id].
  - destruct (acquire_cases cs task Hok) as [(slot & rest & Hs & Ha & Hb & _ & _ & _ & ->)|[Hh ->]]; simpl.
    + eapply set_slot_advance; [done|simpl; lia..].
    + intros j slot Hs. pose proof (slot_at_range _ _ _ Hs).
      rewrite (slot_at_head _ _ (free_head cs)), slot_at_app, (proj2 (Z.eqb_neq j _)) by lia.
      by apply slots_advance_refl.
  - apply release_advance.
  - unfold take_slot. destruct (slot_at cs (id_slot id)) as [slot|] eqn:Hs; [|apply slots_advance_refl].
    simpl. eapply slots_advance_trans; [|apply release_advance].
    eapply set_slot_advance; [done|simpl; lia|simpl; congruence].
Qed.

Lemma slots_steps cs cs' : rtc slots_step cs cs' -> slots_ok cs -> slots_ok cs' /\ slots_advance cs cs'.
Proof.
  induction 1 as [cs|c1 c2 c3 H1 _ IH]; intros Hok; [split; [done|apply slots_advance_refl]|].
  pose proof (slots_step_ok _ _ H1 Hok) as Hok2. destruct (IH Hok2) as [Hok3 Had]. split; [done|].
  eapply slots_advance_trans; [by apply slots_step_advance|done].
Qed.

(** A handle that was handed out and is no longer live never becomes live
    again, whatever is acquired, released or taken afterwards. *)
Lemma dead_forever cs cs' id :
  slots_ok cs -> issued cs id -> slot_live cs id = false -> rtc slots_step cs cs' ->
  slot_live cs' id = false.
Proof.
  intros Hok (slot & Hs & Hgen) Hd Hst. destruct (slots_steps _ _ Hst Hok) as [_ Had].
  destruct (Had _ _ Hs) as (slot' & Hs' & Hg & Ha). unfold slot_live in *. rewrite Hs in Hd. rewrite Hs'.
  destruct (Z.eqb_spec (slot_generation slot') (id_generation id)) as [E|]; [|done]. simpl.
  rewrite (proj2 (Z.eqb_eq _ _)) in Hd by lia. simpl in Hd.
  destruct (slot_active slot'); [specialize (Ha Hd eq_refl); lia|done].
Qed.

(** An acquisition hands out a handle never handed out before, which is live
    and holds the task; no other handle changes. *)
Lemma acquire_spec cs task : slots_ok cs ->
  let '(cs', id) := acquire cs task in
  ~ issued cs id /\ issued cs' id /\ slot_live cs' id = true /\
  (exists slot, slot_at cs' (id_slot id) = Some slot /\ slot_task slot = task) /\
  forall id', issued cs id' -> slot_live cs' id' = slot_live cs id'.
Proof.
  intros Hok. unfold issued, slot_live.
  destruct (acquire_cases cs task Hok) as [(slot & rest & Hs & Ha & Hb & _ & _ & _ & ->)|[Hh ->]]; simpl.
  - pose proof (slot_at_range _ _ _ Hs).
    assert (forall j, slot_at (mkCancellationSlots (set_slot cs (free_head cs)
        (mkCancelSlot (slot_generation slot + 1) true (slot_next_free slot) task)) (slot_next_free slot)) j
      = if j =? free_head cs then Some (mkCancelSlot (slot_generation slot + 1) true (slot_next_free slot) task)
        else slot_at cs j) as Hat.
    { intros j. rewrite (slot_at_head _ _ (free_head cs)). apply slot_at_set; [lia|by eexists]. }
    rewrite Hat, !Z.eqb_refl. split_and!.
    + intros (s' & Hs' & Hg). replace s' with slot in Hg by congruence. lia.
    + eexists. split; [done|simpl; lia].
    + simpl. by rewrite ?Z.eqb_refl.
    + eexists. by split.
    + intros id' (s' & Hs' & Hg). rewrite Hat. destruct (Z.eqb_spec (id_slot id') (free_head cs)) as [E|]; [|done].
      rewrite E in *. replace s' with slot in * by congruence. rewrite Hs, Ha, andb_false_r. simpl.
      by rewrite (proj2 (Z.eqb_neq _ _)) by lia.
  - assert (forall j, slot_at (mkCancellationSlots (slots_ cs ++ [mkCancelSlot 1 true no_slot task]) no_slot) j
      = if j =? size (slots_ cs) then Some (mkCancelSlot 1 true no_slot task) else slot_at cs j) as Hat.
    { intros j. rewrite (slot_at_head _ _ (free_head cs)). apply slot_at_app. }
    rewrite Hat, !Z.eqb_refl. split_and!.
    + intros (s' & Hs' & _). apply slot_at_range in Hs'. lia.
    + eexists. split; [done|simpl; lia].
    + done.
    + eexists. by split.
    + intros id' (s' & Hs' & _). apply slot_at_range in Hs' as Hr. rewrite Hat.
      by rewrite (proj2 (Z.eqb_neq _ _)) by lia.
Qed.

(** Releasing a handle kills it and no other. *)
Lemma release_spec cs id id' : slots_ok cs ->
  slot_live (release cs id) id' = slot_live cs id' && negb (bool_decide (id' = id)).
Proof.
  intros Hok. unfold release. destruct (slot_live cs id) eqn:El; simpl.
  2:{ case_bool_decide; subst; [by rewrite El|by rewrite andb_true_r]. }
  destruct (slot_live_inv _ _ El) as (slot & Hs & Hgen & Hact). rewrite Hs.
  pose proof (slot_at_range _ _ _ Hs).
  assert (forall h new, slot_generation new = slot_generation slot -> slot_active new = false ->
    slot_live (mkCancellationSlots (set_slot cs (id_slot id) new) h) id'
    = slot_live cs id' && negb (bool_decide (id' = id))) as Hnew.
  { intros h new Hg Ha. unfold slot_live. rewrite (slot_at_head _ _ (free_head cs)), slot_at_set by (lia || by eexists).
    destruct (Z.eqb_spec (id_slot id') (id_slot id)) as [E|E].
    - rewrite Ha, andb_false_r, E, Hs, Hact, andb_true_r.
      destruct (Z.eqb_spec (slot_generation slot) (id_generation id')) as [E2|]; [|done].
      rewrite bool_decide_true; [done|]. destruct id, id'; simpl in *; congruence.
    - rewrite bool_decide_false by congruence. by rewrite andb_true_r. }
  destruct (slot_generation slot =? U64_MAX); by apply Hnew.
Qed.

Lemma take_slot_spec cs id : slots_ok cs -> slot_live cs id = true ->
  (exists slot, slot_at cs (id_slot id) = Some slot /\ snd (take_slot cs id) = slot_task slot) /\
  forall id', slot_live (fst (take_slot cs id)) id' = slot_live cs id' && negb (bool_decide (id' = id)).
Proof.
  intros Hok El. destruct (slot_live_inv _ _ El) as (slot & Hs & Hgen & Hact).
  unfold take_slot. rewrite Hs. simpl. split; [by exists slot|]. intros id'.
  fold (emptied cs (id_slot id) slot). rewrite release_spec by by apply emptied_ok. f_equal.
  unfold slot_live. rewrite emptied_at by done.
  by destruct (Z.eqb_spec (id_slot id') (id_slot id)) as [->|]; [rewrite Hs|].
Qed.

(** ** Slots of other handles *)

Lemma set_slot_other cs index slot h j : 0 <= index -> is_Some (slot_at cs index) -> j <> index ->
  slot_at (mkCancellationSlots (set_slot cs index slot) h) j = slot_at cs j.
Proof.
  intros H1 H2 Hj. rewrite (slot_at_head _ _ (free_head cs)), slot_at_set by done.
  by rewrite (proj2 (Z.eqb_neq _ _)).
Qed.

Lemma release_other cs id j : j <> id_slot id -> slot_at (release cs id) j = slot_at cs j.
Proof.
  intros Hj. unfold release. destruct (slot_live cs id); [|done]. simpl.
  destruct (slot_at cs (id_slot id)) as [slot|] eqn:Hs; [|done]. pose proof (slot_at_range _ _ _ Hs).
  destruct (negb _); apply set_slot_other; done || lia || by rewrite Hs.
Qed.

Lemma take_slot_other cs id j : j <> id_slot id -> slot_at (fst (take_slot cs id)) j = slot_at cs j.
Proof.
  intros Hj. unfold take_slot. destruct (slot_at cs (id_slot id)) as [slot|] eqn:Hs; [|done].
  simpl. rewrite release_other by done. pose proof (slot_at_range _ _ _ Hs).
  apply set_slot_other; done || lia || by rewrite Hs.
Qed.

Lemma acquire_other cs task j : slots_ok cs -> j <> id_slot (snd (acquire cs task)) ->
  slot_at (fst (acquire cs task)) j = slot_at cs j.
Proof.
  intros Hok. destruct (acquire_cases cs task Hok) as [(slot & rest & Hs & _ & _ & _ & _ & _ & ->)|[Hh ->]];
    simpl; intros Hj.
  - pose proof (slot_at_range _ _ _ Hs). apply set_slot_other; done || lia || by rewrite Hs.
  - rewrite (slot_at_head _ _ (free_head cs)), slot_at_app. by rewrite (proj2 (Z.eqb_neq _ _)).
Qed.

(** Two live handles of one slot are the same handle. *)
Lemma slot_live_unique cs id id' :
  slot_live cs id = true -> slot_live cs id' = true -> id_slot id = id_slot id' -> id = id'.
Proof.
  intros (s1 & H1 & G1 & _)%slot_live_inv (s2 & H2 & G2 & _)%slot_live_inv E. rewrite E in H1.
  destruct id, id'; simpl in *. f_equal; congruence.
Qed.

End slots.
