(* ===== verification/WorkQueue.v ===== *)
(** * Work queues of the scheduler

    Model of [Entry] and [WorkQueue] of src/runtime/scheduler_internal.hpp for
    ordinary entries: tasks and task descriptors, cancelable or not.  A queue
    is a bulk vector, sorted when dispatch starts and read through a cursor,
    and a heap of the entries that arrive during dispatch.  Cancelled entries
    stay in place until they are skipped or compacted.

    The theorems show that, behind this layout, a queue is a priority queue of
    its live entries, ordered by (stable order, insertion sequence). *)
From stdpp Require Import sorting.
From S2P Require Import Prelude CancellationSlots.

(** The alternatives of [EntryTask] used by ordinary entries: a callback, an
    internal descriptor, or [std::monostate] when the callback lives in a
    cancellation slot. *)
Inductive EntryTask (Task : Type) :=
  | CallbackTask (task : Task)
  | DescriptorTask (task : Task)
  | SlotTask.
Arguments CallbackTask {Task}.
Arguments DescriptorTask {Task}.
Arguments SlotTask {Task}.

(** [entry_cancellation] is [None] when [cancel_slots] is null. *)
Record Entry (Task : Type) := mkEntry {
  entry_order : Z;
  entry_sequence : Z;
  entry_task : EntryTask Task;
  entry_cancellation : option Identity;
}.
Arguments mkEntry {Task}.
Arguments entry_order {Task}.
Arguments entry_sequence {Task}.
Arguments entry_task {Task}.
Arguments entry_cancellation {Task}.

Record WorkQueue (Task : Type) := mkWorkQueue {
  entries : list (Entry Task);
  current_insertions : list (Entry Task);
  queue_cursor : Z;
  pushes_since_compaction : Z;
  needs_sort : bool;
  prepared : bool;
  has_cancelable : bool;
}.
Arguments mkWorkQueue {Task}.
Arguments entries {Task}.
Arguments current_insertions {Task}.
Arguments queue_cursor {Task}.
Arguments pushes_since_compaction {Task}.
Arguments needs_sort {Task}.
Arguments prepared {Task}.
Arguments has_cancelable {Task}.

Section queue.
Context {Task : Type}.
Implicit Types (q : WorkQueue Task) (e : Entry Task) (cs : CancellationSlots Task).

Definition empty_queue : WorkQueue Task := mkWorkQueue [] [] 0 0 false false false.

Definition is_cancelled cs e : bool :=
  match entry_cancellation e with Some id => negb (slot_live cs id) | None => false end.
Definition is_cancelable e : bool :=
  match entry_cancellation e with Some _ => true | None => false end.

Definition key_less e1 e2 : bool :=
  (entry_order e1 <? entry_order e2)
  || ((entry_order e1 =? entry_order e2) && (entry_sequence e1 <? entry_sequence e2)).

(** The order [std::sort] and the heap algorithms establish: [e1] may stand
    before [e2]. *)
Definition key_le e1 e2 : Prop := key_less e2 e1 = false.
#[global] Instance key_le_dec e1 e2 : Decision (key_le e1 e2).
Proof. unfold key_le. apply _. Defined.

(** [std::push_heap] after [push_back].  The code looks at the front of the
    heap, which is the least entry, and scans it whole; the model keeps the
    heap as a sorted list. *)
Fixpoint push_heap e (heap : list (Entry Task)) : list (Entry Task) :=
  match heap with
  | [] => [e]
  | e' :: rest => if key_less e e' then e :: heap else e' :: push_heap e rest
  end.
(** [std::make_heap] *)
Definition make_heap (heap : list (Entry Task)) : list (Entry Task) := merge_sort key_le heap.

(** The entries from the cursor on. *)
Definition unread q : list (Entry Task) := drop (Z.to_nat (queue_cursor q)) (entries q).

Definition compact cs q : WorkQueue Task :=
  let kept := List.filter (fun e => negb (is_cancelled cs e)) (unread q) in
  let inserted := make_heap (List.filter (fun e => negb (is_cancelled cs e)) (current_insertions q)) in
  mkWorkQueue kept inserted 0 0
    (match kept with [] => false | _ => needs_sort q end)
    (prepared q)
    (existsb is_cancelable kept || existsb is_cancelable inserted).

Definition pending_empty cs q : bool :=
  forallb (is_cancelled cs) (unread q) && forallb (is_cancelled cs) (current_insertions q).

Definition queue_empty cs q : bool :=
  if (queue_cursor q >=? size (entries q)) && (size (current_insertions q) =? 0) then true
  else pending_empty cs q.

Definition push cs q e : WorkQueue Task :=
  let queued := size (entries q) - queue_cursor q + size (current_insertions q) in
  let q := if has_cancelable q && (queued >=? 64) && (pushes_since_compaction q >=? queued / 2)
           then compact cs q else q in
  let needs_sort_after_push :=
    if negb (prepared q) && negb (needs_sort q) && (queue_cursor q <? size (entries q))
    then match last (entries q) with Some back => key_less e back | None => false end
    else needs_sort q in
  let cancelable := has_cancelable q || is_cancelable e in
  if prepared q then
    mkWorkQueue (entries q) (push_heap e (current_insertions q)) (queue_cursor q)
      (wrap64 (pushes_since_compaction q + 1)) (needs_sort q) (prepared q) cancelable
  else
    mkWorkQueue (entries q ++ [e]) (current_insertions q) (queue_cursor q)
      (wrap64 (pushes_since_compaction q + 1)) needs_sort_after_push (prepared q) cancelable.

(** The two loops of [prepare] that pass over cancelled entries. *)
Fixpoint cancelled_prefix cs (l : list (Entry Task)) : Z :=
  match l with
  | e :: rest => if is_cancelled cs e then 1 + cancelled_prefix cs rest else 0
  | [] => 0
  end.
Definition discard_cancelled_insertions cs (heap : list (Entry Task)) : list (Entry Task) :=
  drop (Z.to_nat (cancelled_prefix cs heap)) heap.

Definition prepare cs q : WorkQueue Task :=
  let sorted :=
    if needs_sort q then take (Z.to_nat (queue_cursor q)) (entries q) ++ merge_sort key_le (unread q)
    else entries q in
  let rest := drop (Z.to_nat (queue_cursor q)) sorted in
  let cursor := queue_cursor q + cancelled_prefix cs rest in
  let q := mkWorkQueue sorted (discard_cancelled_insertions cs (current_insertions q)) cursor
             (pushes_since_compaction q) false true (has_cancelable q) in
  if has_cancelable q && (cursor >=? 64) && (cursor >=? size sorted / 2) then compact cs q else q.

(** [next] prepares the queue and returns the entry [pop] would remove. *)
Definition next cs q : WorkQueue Task * option (Entry Task) :=
  let q := prepare cs q in
  (q, match head (unread q), head (current_insertions q) with
      | None, inserted => inserted
      | bulk, None => bulk
      | Some bulk, Some inserted => if key_less inserted bulk then Some inserted else Some bulk
      end).

Definition bad_cursor : exception := out_of_range "vector::_M_range_check".

(** The two ways [pop] takes an entry: past the cursor, or off the heap. *)
Definition advance q : WorkQueue Task :=
  mkWorkQueue (entries q) (current_insertions q) (queue_cursor q + 1)
    (pushes_since_compaction q) (needs_sort q) (prepared q) (has_cancelable q).
Definition pop_heap q : WorkQueue Task :=
  mkWorkQueue (entries q) (tail (current_insertions q)) (queue_cursor q)
    (pushes_since_compaction q) (needs_sort q) (prepared q) (has_cancelable q).

Definition pop cs q : Outcome (WorkQueue Task * Entry Task) :=
  let q := prepare cs q in
  match head (unread q), head (current_insertions q) with
  | bulk, None => match bulk with Some e => Ok (advance q, e) | None => Throw bad_cursor end
  | None, Some front => Ok (pop_heap q, front)
  | Some e, Some front =>
      if negb (key_less front e) then Ok (advance q, e) else Ok (pop_heap q, front)
  end.

Definition clear_consumed cs q : WorkQueue Task :=
  if queue_empty cs q then empty_queue else q.
Definition clear_discarded q : WorkQueue Task := empty_queue.

(** [complete]: a discarded or finished entry releases its slot. *)
Definition complete cs e : CancellationSlots Task :=
  match entry_cancellation e with Some id => release cs id | None => cs end.
Definition cancel_pending cs q : CancellationSlots Task :=
  foldl complete cs (unread q ++ current_insertions q).

(** The bulk queue stays sorted by key, so the scan stops past the limit. *)
Fixpoint orders_within (limit : Z) (l : list (Entry Task)) : list (Entry Task) :=
  match l with
  | e :: rest => if entry_order e <=? limit then e :: orders_within limit rest else []
  | [] => []
  end.
Definition has_order_at_most cs q (limit excluded : Z) : bool :=
  let ahead e := negb (is_cancelled cs e)
                 && ((entry_order e <=? limit) && negb (entry_order e =? excluded)) in
  existsb ahead (orders_within limit (unread q)) || existsb ahead (current_insertions q).

Definition pending_orders cs q : list Z :=
  entry_order <$> List.filter (fun e => negb (is_cancelled cs e)) (unread q ++ current_insertions q).

(** ** Vocabulary *)

Definition live cs e : bool := negb (is_cancelled cs e).

(** All entries of a queue, cancelled ones included. *)
Definition held q : list (Entry Task) := unread q ++ current_insertions q.

(** The live entries of a queue: what it holds as a priority queue. *)
Definition pending cs q : list (Entry Task) :=
  List.filter (live cs) (unread q ++ current_insertions q).

(** The class invariant: the bulk part is sorted unless marked, the heap is a
    heap, and it is used only during dispatch. *)
Record queue_ok q : Prop := {
  queue_cursor_ok : 0 <= queue_cursor q <= size (entries q);
  queue_sorted : needs_sort q = false -> StronglySorted key_le (unread q);
  queue_heap : StronglySorted key_le (current_insertions q);
  queue_unprepared : prepared q = false -> current_insertions q = [];
  queue_prepared : prepared q = true -> needs_sort q = false;
}.

(** ** Keys *)

Lemma key_le_iff e1 e2 : key_le e1 e2 <->
  entry_order e1 < entry_order e2 \/
  entry_order e1 = entry_order e2 /\ entry_sequence e1 <= entry_sequence e2.
Proof.
  unfold key_le, key_less. rewrite orb_false_iff, andb_false_iff, !Z.ltb_ge, Z.eqb_neq. lia.
Qed.

#[global] Instance key_le_trans : Transitive key_le.
Proof. intros e1 e2 e3. rewrite !key_le_iff. lia. Qed.
#[global] Instance key_le_total : Total key_le.
Proof. intros e1 e2. rewrite !key_le_iff. lia. Qed.

Lemma key_less_le e1 e2 : key_less e1 e2 = true -> key_le e1 e2.
Proof.
  unfold key_less. rewrite orb_true_iff, andb_true_iff, !Z.ltb_lt, Z.eqb_eq, key_le_iff. lia.
Qed.

(** ** Lists of entries *)

Lemma filter_all {A} (f : A -> bool) l : forallb f l = true -> List.filter f l = l.
Proof. induction l as [|x l IH]; simpl; [done|]. intros [-> H]%andb_true_iff. by rewrite IH. Qed.

Lemma filter_none {A} (f : A -> bool) l : List.filter f l = [] <-> forallb (fun x => negb (f x)) l = true.
Proof. induction l as [|x l IH]; simpl; [done|]. destruct (f x); simpl; [done|]. apply IH. Qed.

Lemma filter_idemp {A} (f : A -> bool) l : List.filter f (List.filter f l) = List.filter f l.
Proof. induction l as [|x l IH]; simpl; [done|]. destruct (f x) eqn:E; simpl; rewrite ?E, ?IH; done. Qed.

Lemma filter_filter {A} (f g : A -> bool) l : List.filter f (List.filter g l) = List.filter (fun x => g x && f x) l.
Proof. induction l as [|x l IH]; simpl; [done|]. destruct (g x); simpl; [destruct (f x); by rewrite IH|done]. Qed.

Lemma filter_perm {A} (f : A -> bool) l1 l2 : l1 ≡ₚ l2 -> List.filter f l1 ≡ₚ List.filter f l2.
Proof.
  induction 1 as [|x l1 l2 H IH|x y l|l1 l2 l3 H1 IH1 H2 IH2]; simpl; try done.
  - destruct (f x); [by rewrite IH|done].
  - destruct (f x), (f y); try done. by apply Permutation_swap.
  - by transitivity (List.filter f l2).
Qed.

Lemma sorted_filter {A} (R : A -> A -> Prop) (f : A -> bool) l :
  StronglySorted R l -> StronglySorted R (List.filter f l).
Proof.
  induction 1 as [|x l H IH Hx]; simpl; [constructor|]. destruct (f x); [|done]. constructor; [done|].
  apply Forall_forall. intros y Hy%list_elem_of_In%filter_In. rewrite Forall_forall in Hx.
  apply Hx, list_elem_of_In, Hy.
Qed.

Lemma sorted_drop {A} (R : A -> A -> Prop) n l : StronglySorted R l -> StronglySorted R (drop n l).
Proof.
  revert l. induction n as [|n IH]; intros l H; [done|]. destruct l; [constructor|]. simpl.
  apply IH. by inversion H.
Qed.

Lemma push_heap_perm e heap : push_heap e heap ≡ₚ e :: heap.
Proof.
  induction heap as [|e' rest IH]; simpl; [done|]. destruct (key_less e e'); [done|].
  rewrite IH. apply Permutation_swap.
Qed.

Lemma push_heap_sorted e heap : StronglySorted key_le heap -> StronglySorted key_le (push_heap e heap).
Proof.
  induction 1 as [|e' rest H IH Hx]; simpl; [repeat constructor|].
  destruct (key_less e e') eqn:E.
  - apply key_less_le in E. repeat constructor; try done.
    eapply Forall_impl; [exact Hx|]. intros e3 H3. by etrans.
  - constructor; [done|]. rewrite push_heap_perm. constructor; done.
Qed.

Lemma make_heap_sorted heap : StronglySorted key_le (make_heap heap).
Proof. apply (StronglySorted_merge_sort key_le). Qed.

Lemma make_heap_perm heap : make_heap heap ≡ₚ heap.
Proof. apply merge_sort_Permutation. Qed.

Lemma sorted_snoc e l : StronglySorted key_le l ->
  (forall b, last l = Some b -> key_le b e) -> StronglySorted key_le (l ++ [e]).
Proof.
  intros Hl Hb. induction Hl as [|x l H IH Hx]; simpl; [repeat constructor|].
  constructor.
  - apply IH. intros b E. apply Hb. destruct l; [done|]. exact E.
  - apply Forall_app. split; [done|]. repeat constructor. destruct l as [|y l]; [by apply Hb|].
    destruct (last (y :: l)) as [b|] eqn:E; [|by apply last_None in E].
    trans b; [|apply Hb; by rewrite last_cons_cons].
    rewrite Forall_forall in Hx. apply Hx. by apply last_Some_elem_of.
Qed.

(** Passing over the cancelled front leaves the live entries. *)
Lemma cancelled_prefix_drop cs l :
  List.filter (live cs) (drop (Z.to_nat (cancelled_prefix cs l)) l) = List.filter (live cs) l.
Proof.
  induction l as [|e l IH]; simpl; [done|]. unfold live at 2. destruct (is_cancelled cs e) eqn:E; simpl.
  - assert (0 <= cancelled_prefix cs l) by (clear; induction l as [|e l IH]; simpl; [|destruct (is_cancelled cs e)]; lia).
    replace (Z.to_nat (1 + cancelled_prefix cs l)) with (S (Z.to_nat (cancelled_prefix cs l))) by lia. done.
  - unfold live at 1. by rewrite E.
Qed.

Lemma cancelled_prefix_bounds cs l : 0 <= cancelled_prefix cs l <= size l.
Proof.
  unfold size. induction l as [|e l IH]; simpl; [lia|]. destruct (is_cancelled cs e); simpl in *; lia.
Qed.

Lemma cancelled_prefix_head cs l e :
  head (drop (Z.to_nat (cancelled_prefix cs l)) l) = Some e -> live cs e = true.
Proof.
  induction l as [|e' l IH]; simpl; [done|]. destruct (is_cancelled cs e') eqn:E.
  - pose proof (cancelled_prefix_bounds cs l).
    replace (Z.to_nat (1 + cancelled_prefix cs l)) with (S (Z.to_nat (cancelled_prefix cs l))) by lia. done.
  - simpl. intros [= <-]. unfold live. by rewrite E.
Qed.

(** ** Operations *)

Lemma empty_queue_ok : queue_ok empty_queue.
Proof. split; simpl; try done; constructor. Qed.

Lemma pending_perm cs q l1 l2 : unread q ≡ₚ l1 -> current_insertions q ≡ₚ l2 ->
  pending cs q ≡ₚ List.filter (live cs) l1 ++ List.filter (live cs) l2.
Proof. intros H1 H2. unfold pending. rewrite List.filter_app. by rewrite (filter_perm _ _ _ H1), (filter_perm _ _ _ H2). Qed.

Lemma compact_unread cs q : unread (compact cs q) = List.filter (live cs) (unread q).
Proof. done. Qed.

Lemma compact_spec cs q : queue_ok q -> queue_ok (compact cs q) /\ pending cs (compact cs q) ≡ₚ pending cs q.
Proof.
  intros [H1 H2 H3 H4 H5]. split.
  - split; simpl.
    + unfold size. lia.
    + rewrite compact_unread. intros Hn. destruct (List.filter (live cs) (unread q)) as [|e l] eqn:E; [constructor|].
      rewrite <- E. apply sorted_filter, H2. revert Hn. unfold live in E. rewrite E. done.
    + apply make_heap_sorted.
    + intros E. rewrite H4 by done. done.
    + intros E. rewrite H5 by done. by destruct (List.filter _ _).
  - rewrite (pending_perm cs (compact cs q) (List.filter (live cs) (unread q))
      (List.filter (live cs) (current_insertions q))); [|done|apply make_heap_perm].
    unfold pending. by rewrite List.filter_app, !filter_idemp.
Qed.

Lemma queue_empty_spec cs q : queue_ok q -> queue_empty cs q = true <-> pending cs q = [].
Proof.
  intros [H1 _ _ _ _]. unfold queue_empty, pending, pending_empty. rewrite filter_none, forallb_app.
  assert (forall l, forallb (fun x => negb (live cs x)) l = forallb (is_cancelled cs) l) as E.
  { intros l. induction l as [|x l IH]; simpl; [done|]. unfold live at 1. by rewrite negb_involutive, IH. }
  rewrite !E. destruct ((queue_cursor q >=? size (entries q)) && (size (current_insertions q) =? 0)) eqn:Eg; [|done].
  apply andb_true_iff in Eg as [Hc Hz%Z.eqb_eq]. rewrite Z.geb_leb in Hc. apply Z.leb_le in Hc.
  unfold size in *. unfold unread. rewrite drop_ge by lia.
  destruct (current_insertions q); simpl in Hz; [done|lia].
Qed.

(** [push] adds one entry. *)
Lemma push_spec cs q e : queue_ok q ->
  queue_ok (push cs q e) /\
  pending cs (push cs q e) ≡ₚ (if live cs e then [e] else []) ++ pending cs q.
Proof.
  intros Hq. unfold push. cbv zeta.
  set (q1 := if _ && _ && _ then compact cs q else q).
  assert (queue_ok q1 /\ pending cs q1 ≡ₚ pending cs q) as [Hq1 <-].
  { unfold q1. destruct (_ && _ && _); [by apply compact_spec|done]. }
  clearbody q1. destruct Hq1 as [H1 H2 H3 H4 H5]. unfold size in H1.
  assert (forall c s n b, unread (mkWorkQueue (entries q1 ++ [e]) c (queue_cursor q1) s n (prepared q1) b)
    = unread q1 ++ [e]) as Hun.
  { intros. unfold unread. simpl. rewrite drop_app_le by lia. done. }
  assert (List.filter (live cs) [e] = if live cs e then [e] else []) as Ef by (simpl; by destruct (live cs e)).
  destruct (prepared q1) eqn:Ep; split.
  - split; simpl; try done. by apply push_heap_sorted.
  - rewrite (pending_perm cs _ (unread q1) (e :: current_insertions q1)); [|done|apply push_heap_perm].
    unfold pending. rewrite List.filter_app. cbn [List.filter]. destruct (live cs e); [|done].
    by rewrite <- Permutation_middle.
  - split; simpl; try done; [|rewrite Hun].
    + unfold size. rewrite length_app. simpl. lia.
    + intros Hn. destruct (needs_sort q1) eqn:En.
      { by simpl in Hn. }
      apply sorted_snoc; [by apply H2|]. intros b Hb. simpl in Hn.
      assert ((queue_cursor q1 <? size (entries q1)) = true) as Hc.
      { apply Z.ltb_lt. unfold size. destruct (decide (queue_cursor q1 < Z.of_nat (length (entries q1)))); [done|].
        unfold unread in Hb. by rewrite drop_ge in Hb by lia. }
      rewrite Hc in Hn. simpl in Hn. unfold unread in Hb.
      rewrite <- (take_drop (Z.to_nat (queue_cursor q1)) (entries q1)), last_app, Hb in Hn. exact Hn.
  - unfold pending. rewrite Hun, H4 by done. simpl. rewrite !app_nil_r, List.filter_app, Ef.
    apply Permutation_app_comm.
Qed.

(** A queue ready for dispatch: sorted, with live entries at both fronts. *)
Record ready cs q : Prop := {
  ready_ok : queue_ok q;
  ready_prepared : prepared q = true;
  ready_bulk : forall e, head (unread q) = Some e -> live cs e = true;
  ready_heap : forall e, head (current_insertions q) = Some e -> live cs e = true;
}.

Lemma filter_head cs l e : head (List.filter (live cs) l) = Some e -> live cs e = true.
Proof. induction l as [|x l IH]; simpl; [done|]. destruct (live cs x) eqn:E; [by intros [= <-]|done]. Qed.

Lemma perm_head_elem {A} (l1 l2 : list A) x : l1 ≡ₚ l2 -> head l1 = Some x -> x ∈ l2.
Proof. intros H. destruct l1; [done|]. intros [= ->]. rewrite <- H. set_solver. Qed.

Lemma compact_ready cs q : queue_ok q -> prepared q = true -> ready cs (compact cs q).
Proof.
  intros Hq Hp. split; [by apply compact_spec|done|..]; intros e He.
  - rewrite compact_unread in He. by eapply filter_head.
  - apply (perm_head_elem _ _ _ (make_heap_perm _)) in He.
    by apply list_elem_of_In, filter_In in He as [_ He].
Qed.

Lemma prepare_spec cs q : queue_ok q ->
  ready cs (prepare cs q) /\ pending cs (prepare cs q) ≡ₚ pending cs q.
Proof.
  intros [H1 H2 H3 H4 H5]. unfold prepare. cbv zeta. unfold size in H1.
  set (n := Z.to_nat (queue_cursor q)) in *.
  set (sorted := if needs_sort q then _ else _).
  assert (StronglySorted key_le (drop n sorted) /\ drop n sorted ≡ₚ unread q /\ length sorted = length (entries q))
    as (Hs & Hp & Hlen).
  { unfold sorted. destruct (needs_sort q) eqn:En; [|split_and!; [by apply H2|done|done]].
    rewrite drop_app_length' by (rewrite length_take; lia). split_and!.
    - apply (StronglySorted_merge_sort key_le).
    - apply merge_sort_Permutation.
    - rewrite length_app, merge_sort_Permutation. unfold unread. fold n.
      rewrite length_take, length_drop. lia. }
  clearbody sorted. set (k := cancelled_prefix cs (drop n sorted)).
  pose proof (cancelled_prefix_bounds cs (drop n sorted)) as Hk. fold k in Hk.
  unfold size in Hk. rewrite length_drop in Hk.
  set (q1 := mkWorkQueue sorted _ _ _ _ _ _).
  assert (unread q1 = drop (Z.to_nat k) (drop n sorted)) as Hun.
  { unfold unread, q1. simpl. rewrite drop_drop. f_equal. lia. }
  assert (queue_ok q1) as Hq1.
  { split.
    - unfold q1, size; simpl. lia.
    - intros _. rewrite Hun. by apply sorted_drop.
    - by apply sorted_drop.
    - done.
    - done. }
  assert (pending cs q1 ≡ₚ pending cs q) as Hpe.
  { unfold pending. rewrite !List.filter_app, Hun. unfold q1 at 1; simpl. unfold discard_cancelled_insertions.
    unfold k. rewrite !cancelled_prefix_drop. by rewrite (filter_perm _ _ _ Hp). }
  destruct (_ && _ && _).
  - split; [by apply compact_ready|]. rewrite <- Hpe. by apply compact_spec.
  - split; [|done]. split; [done|done|..]; intros e He.
    + rewrite Hun in He. by eapply cancelled_prefix_head.
    + exact (cancelled_prefix_head cs (current_insertions q) e He).
Qed.

Lemma sorted_front cs e l : StronglySorted key_le (e :: l) -> Forall (key_le e) (List.filter (live cs) l).
Proof.
  intros H. inversion H as [|? ? Hs Hf]; subst. apply Forall_forall. intros x Hx%list_elem_of_In%filter_In.
  rewrite Forall_forall in Hf. apply Hf, list_elem_of_In, Hx.
Qed.

(** What taking [e] out of [q] leaves. *)
Record popped cs q q' e : Prop := {
  popped_ok : queue_ok q';
  popped_live : live cs e = true;
  popped_pending : pending cs q ≡ₚ e :: pending cs q';
  popped_least : Forall (key_le e) (pending cs q');
}.

Lemma advance_spec cs q e rest : ready cs q -> unread q = e :: rest ->
  (forall f, head (current_insertions q) = Some f -> key_le e f) -> popped cs q (advance q) e.
Proof.
  intros [[H1 H2 H3 H4 H5] Hp Hb _] Eq Hf. specialize (H2 (H5 Hp)). unfold size in H1.
  rewrite Eq in H2, Hb. specialize (Hb e eq_refl).
  assert (unread (advance q) = rest /\ (Z.to_nat (queue_cursor q) < length (entries q))%nat) as [Eu Hl].
  { unfold unread in *. simpl. assert (length (drop (Z.to_nat (queue_cursor q)) (entries q)) = S (length rest)) as Hl
      by by rewrite Eq. rewrite length_drop in Hl. split; [|lia].
    replace (Z.to_nat (queue_cursor q + 1)) with (Z.to_nat (queue_cursor q) + 1)%nat by lia.
    by rewrite <- drop_drop, Eq. }
  assert (StronglySorted key_le rest) by by inversion H2.
  split; [|done|..].
  - split; [unfold size; simpl; lia|by rewrite Eu|done|done|done].
  - unfold pending. rewrite Eu, Eq. simpl. by rewrite Hb.
  - unfold pending. rewrite Eu, List.filter_app. apply Forall_app. split; [by apply sorted_front|].
    simpl. destruct (current_insertions q) as [|f heap]; [constructor|]. specialize (Hf f eq_refl).
    assert (Forall (key_le e) (List.filter (live cs) heap)) as Hh.
    { eapply Forall_impl; [by apply sorted_front|]. intros x Hx. by trans f. }
    simpl. destruct (live cs f); [by constructor|done].
Qed.

Lemma pop_heap_spec cs q f heap : ready cs q -> current_insertions q = f :: heap ->
  (forall e, head (unread q) = Some e -> key_le f e) -> popped cs q (pop_heap q) f.
Proof.
  intros [[H1 H2 H3 H4 H5] Hp _ Hh] Eq Hf. specialize (H2 (H5 Hp)).
  rewrite Eq in H3, Hh. specialize (Hh f eq_refl).
  assert (StronglySorted key_le heap) by by inversion H3.
  assert (pending cs (pop_heap q) = List.filter (live cs) (unread q) ++ List.filter (live cs) heap) as E.
  { unfold pending, unread. simpl. by rewrite Eq, List.filter_app. }
  split; [|done|..].
  - split; [done|done|..]; simpl; rewrite ?Eq; [done|congruence|done].
  - rewrite E. unfold pending. rewrite Eq, List.filter_app. simpl. rewrite Hh.
    by rewrite <- Permutation_middle.
  - rewrite E. apply Forall_app. split; [|by apply sorted_front].
    destruct (unread q) as [|e rest]; [constructor|]. specialize (Hf e eq_refl).
    assert (Forall (key_le f) (List.filter (live cs) rest)) as Hr.
    { eapply Forall_impl; [by apply sorted_front|]. intros x Hx. by trans e. }
    simpl. destruct (live cs e); [by constructor|done].
Qed.

Lemma popped_prepare cs q q' e : queue_ok q -> popped cs (prepare cs q) q' e -> popped cs q q' e.
Proof. intros Hq [H1 H2 H3 H4]. split; try done. by rewrite <- H3, (proj2 (prepare_spec cs q Hq)). Qed.

Lemma pending_nil cs q : unread q = [] -> current_insertions q = [] -> pending cs q = [].
Proof. unfold pending. by intros -> ->. Qed.

(** [pop] removes the least live entry, the one [next] announces; on a queue
    without live entries it throws. *)
Lemma pop_spec cs q : queue_ok q ->
  match pop cs q with
  | Ok (q', e) => popped cs q q' e /\ snd (next cs q) = Some e
  | Throw x => x = bad_cursor /\ pending cs q = [] /\ snd (next cs q) = None
  end.
Proof.
  intros Hq. destruct (prepare_spec cs q Hq) as [Hr Hp]. unfold pop, next.
  pose proof (popped_prepare cs q) as Hpop.
  set (p := prepare cs q) in *. clearbody p. cbv zeta. simpl snd.
  destruct (unread p) as [|e rest] eqn:Eu, (current_insertions p) as [|f heap] eqn:Ec; simpl head; cbv iota.
  - rewrite pending_nil in Hp by done. split_and!; try done. by apply Permutation_nil.
  - split; [|done]. apply Hpop; [done|]. eapply pop_heap_spec; [done|done|]. by rewrite Eu.
  - split; [|done]. apply Hpop; [done|]. eapply advance_spec; [done|done|]. by rewrite Ec.
  - simpl. destruct (key_less f e) eqn:Ek; simpl; (split; [|done]); (apply Hpop; [done|]).
    + eapply pop_heap_spec; [done|done|]. rewrite Eu. intros ? [= <-]. by apply key_less_le.
    + eapply advance_spec; [done|done|]. rewrite Ec. intros ? [= <-]. exact Ek.
Qed.

Lemma next_spec cs q : queue_ok q ->
  queue_ok (fst (next cs q)) /\ pending cs (fst (next cs q)) ≡ₚ pending cs q.
Proof. intros Hq. destruct (prepare_spec cs q Hq) as [[H _ _ _] Hp]. done. Qed.

Lemma clear_consumed_spec cs q : queue_ok q ->
  queue_ok (clear_consumed cs q) /\ pending cs (clear_consumed cs q) ≡ₚ pending cs q.
Proof.
  intros Hq. unfold clear_consumed. destruct (queue_empty cs q) eqn:E; [|done].
  apply queue_empty_spec in E; [|done]. rewrite E. split; [apply empty_queue_ok|done].
Qed.

(** ** Held entries: no operation but [push] adds any *)

Lemma forall_filter {A} (P : A -> Prop) (f : A -> bool) l : Forall P l -> Forall P (List.filter f l).
Proof. induction 1 as [|x l Hx Hl IH]; simpl; [constructor|]. destruct (f x); [by constructor|done]. Qed.

Lemma compact_held (P : Entry Task -> Prop) cs q : Forall P (held q) -> Forall P (held (compact cs q)).
Proof.
  unfold held. intros [H1 H2]%Forall_app. apply Forall_app. split.
  - rewrite compact_unread. by apply forall_filter.
  - simpl. rewrite make_heap_perm. by apply forall_filter.
Qed.

Lemma push_held (P : Entry Task -> Prop) cs q e :
  queue_ok q -> P e -> Forall P (held q) -> Forall P (held (push cs q e)).
Proof.
  intros Hq He H. unfold push. cbv zeta.
  set (q1 := if _ && _ && _ then compact cs q else q).
  assert (queue_ok q1 /\ Forall P (held q1)) as [Hq1 H1].
  { unfold q1. destruct (_ && _ && _); [split; [by apply compact_spec|by apply compact_held]|done]. }
  clearbody q1. destruct Hq1 as [Hc _ _ _ _]. unfold size in Hc. unfold held in *.
  apply Forall_app in H1 as [Ha Hb].
  destruct (prepared q1); apply Forall_app; split; simpl; try done.
  - rewrite push_heap_perm. by constructor.
  - unfold unread in *. simpl. rewrite drop_app_le by lia. apply Forall_app. split; [done|by repeat constructor].
Qed.

Lemma prepare_held (P : Entry Task -> Prop) cs q :
  queue_ok q -> Forall P (held q) -> Forall P (held (prepare cs q)).
Proof.
  intros [Hc _ _ _ _] H. unfold prepare. cbv zeta. unfold size in Hc.
  apply Forall_app in H as [Ha Hb].
  set (sorted := if needs_sort q then _ else _).
  assert (Forall P (drop (Z.to_nat (queue_cursor q)) sorted)) as Hs.
  { unfold sorted. destruct (needs_sort q); [|done].
    rewrite drop_app_length' by (rewrite length_take; lia). by rewrite merge_sort_Permutation. }
  clearbody sorted. set (k := cancelled_prefix cs _).
  assert (0 <= k) by (apply cancelled_prefix_bounds).
  match goal with |- context [if _ then compact cs ?q1 else _] => assert (Forall P (held q1)) as Hq end.
  { apply Forall_app. simpl. split; [|by apply Forall_drop]. unfold unread; simpl.
    replace (Z.to_nat (queue_cursor q + k)) with (Z.to_nat (queue_cursor q) + Z.to_nat k)%nat by lia.
    rewrite <- drop_drop. by apply Forall_drop. }
  destruct (_ && _ && _); [by apply compact_held|done].
Qed.

Lemma next_held (P : Entry Task -> Prop) cs q :
  queue_ok q -> Forall P (held q) -> Forall P (held (fst (next cs q))).
Proof. apply prepare_held. Qed.

Lemma pop_held (P : Entry Task -> Prop) cs q q' e : queue_ok q -> Forall P (held q) ->
  pop cs q = Ok (q', e) -> P e /\ Forall P (held q').
Proof.
  intros Hq Hh Hpop. pose proof (prepare_held P cs q Hq Hh) as Hp. unfold pop in Hpop. revert Hpop.
  destruct (proj1 (prepare_spec cs q Hq)) as [[Hc _ _ _ _] _ _ _]. set (p := prepare cs q) in *. clearbody p.
  unfold held in Hp. apply Forall_app in Hp as [Ha Hb]. unfold size in Hc.
  assert (forall x, head (unread p) = Some x -> P x /\ Forall P (held (advance p))) as Hadv.
  { intros x Hx. destruct (unread p) as [|y l] eqn:E; [done|]. injection Hx as ->.
    inversion Ha; subst. split; [done|]. unfold held. apply Forall_app. split; [|done].
    unfold unread in *. simpl. replace (Z.to_nat (queue_cursor p + 1)) with (Z.to_nat (queue_cursor p) + 1)%nat by lia.
    by rewrite <- drop_drop, E. }
  assert (forall x, head (current_insertions p) = Some x -> P x /\ Forall P (held (pop_heap p))) as Hheap.
  { intros x Hx. unfold held. simpl. destruct (current_insertions p) as [|y l]; [done|]. injection Hx as ->.
    inversion Hb; subst. split; [done|]. by apply Forall_app. }
  destruct (head (unread p)) as [b|], (head (current_insertions p)) as [f|]; try done.
  - destruct (negb _); intros [= <- <-]; auto.
  - intros [= <- <-]; auto.
  - intros [= <- <-]; auto.
Qed.

Lemma clear_consumed_held (P : Entry Task -> Prop) cs q :
  Forall P (held q) -> Forall P (held (clear_consumed cs q)).
Proof. unfold clear_consumed. destruct (queue_empty cs q); [constructor|done]. Qed.

(** The bulk scan of [has_order_at_most] misses no entry of a sorted queue. *)
Lemma existsb_orders_within f limit l :
  (forall e, f e = true -> entry_order e <= limit) -> StronglySorted key_le l ->
  existsb f (orders_within limit l) = existsb f l.
Proof.
  intros Hf. induction 1 as [|e l H IH Hx]; simpl; [done|].
  destruct (entry_order e <=? limit) eqn:E; simpl; [by rewrite IH|]. apply Z.leb_gt in E.
  symmetry. apply not_true_is_false. intros Ht.
  apply orb_true_iff in Ht as [Ht|(x & Hin & Ht)%existsb_exists]; apply Hf in Ht; [lia|].
  rewrite Forall_forall in Hx. apply list_elem_of_In in Hin. specialize (Hx x Hin).
  apply key_le_iff in Hx. lia.
Qed.

Lemma has_order_at_most_spec cs q limit excluded : queue_ok q -> needs_sort q = false ->
  has_order_at_most cs q limit excluded
  = existsb (fun e => (entry_order e <=? limit) && negb (entry_order e =? excluded)) (pending cs q).
Proof.
  intros Hq Hn. unfold has_order_at_most. rewrite existsb_orders_within; [|intros e|by apply Hq].
  - unfold pending. rewrite <- existsb_app. generalize (unread q ++ current_insertions q). intros l.
    induction l as [|e l IH]; simpl; [done|]. unfold live at 1. rewrite IH. by destruct (is_cancelled cs e).
  - rewrite !andb_true_iff, Z.leb_le. intuition.
Qed.

End queue.
