(* ===== verification/SchedulerState.v ===== *)
(** * State and scheduling interface of the event scheduler

    Model of [Scheduler::Impl] (src/runtime/scheduler_internal.hpp) and of the
    scheduling calls of src/runtime/scheduler.cpp and
    scheduler_systemverilog.cpp: the current time slot with its generic,
    next-delta, SystemVerilog and end-of-slot queues, the map of future slots,
    cancelable tasks and reserved order keys.

    Tasks are names: what a task does when it runs is a program over the
    calls of this interface (SchedulerRun.v).  Batch tickets, readiness
    tickets, ordered tickets and the recycling of vector storage are not
    modelled. *)
From S2P Require Import Prelude CancellationSlots WorkQueue.

(** [SchedulerPhase], an enumeration over [std::uint8_t]: a value outside the
    eight enumerators is possible and rejected by the code. *)
Definition active : Z := 0.
Definition inactive : Z := 1.
Definition update : Z := 2.
Definition observed : Z := 3.
Definition reactive : Z := 4.
Definition re_inactive : Z := 5.
Definition re_update : Z := 6.
Definition postponed : Z := 7.
Definition phase_count : Z := 8.

(** What a call may throw: a standard exception, [DeltaCycleLimitError], or an
    exception of a task. *)
Inductive failure :=
  | StdException (e : exception)
  | DeltaCycleLimitError (time limit : Z) (pending_orders recent_signals : list Z)
  | TaskException (id : Z).

(** [Bucket]: one queue per phase. *)
Abbreviation Bucket Task := (list (WorkQueue Task)).

Record FutureSlot (Task : Type) := mkFutureSlot {
  future_generic : Bucket Task;
  future_systemverilog : Bucket Task;
  future_end_of_slot : WorkQueue Task;
}.
Arguments mkFutureSlot {Task}.
Arguments future_generic {Task}.
Arguments future_systemverilog {Task}.
Arguments future_end_of_slot {Task}.

Record CurrentSlot (Task : Type) := mkCurrentSlot {
  slot_time : Z;
  slot_delta : Z;
  slot_phase : Z;
  slot_current : Bucket Task;
  slot_next_delta : Bucket Task;
  slot_systemverilog : Bucket Task;
  systemverilog_running : WorkQueue Task;
  systemverilog_phase : option Z;
  systemverilog_round : Z;
  last_systemverilog_phase : option Z;
  slot_end_of_slot : WorkQueue Task;
  executing_end_of_slot : bool;
}.
Arguments mkCurrentSlot {Task}.
Arguments slot_time {Task}.
Arguments slot_delta {Task}.
Arguments slot_phase {Task}.
Arguments slot_current {Task}.
Arguments slot_next_delta {Task}.
Arguments slot_systemverilog {Task}.
Arguments systemverilog_running {Task}.
Arguments systemverilog_phase {Task}.
Arguments systemverilog_round {Task}.
Arguments last_systemverilog_phase {Task}.
Arguments slot_end_of_slot {Task}.
Arguments executing_end_of_slot {Task}.

(** The observers: the single slot-start and safe-point hooks, the token lists
    of added ones with their next tokens, and the slot-quiet hook. *)
Record Hooks (Task : Type) := mkHooks {
  slot_start_hook : option Task;
  slot_start_hooks : list (Z * Task);
  next_slot_start_hook_token : Z;
  safe_point_hook : option Task;
  safe_point_hooks : list (Z * Task);
  next_safe_point_hook_token : Z;
  runtime_slot_quiet_hook : option Task;
}.
Arguments mkHooks {Task}.
Arguments slot_start_hook {Task}.
Arguments slot_start_hooks {Task}.
Arguments next_slot_start_hook_token {Task}.
Arguments safe_point_hook {Task}.
Arguments safe_point_hooks {Task}.
Arguments next_safe_point_hook_token {Task}.
Arguments runtime_slot_quiet_hook {Task}.

(** Counters and flags that no queue operation reads. *)
Record Status := mkStatus {
  cycles : Z;
  callbacks : Z;
  current_phase_revision : Z;
  in_run : bool;
  in_callback : bool;
  in_safe_point : bool;
  in_runtime_slot_quiet_point : bool;
  discarding : bool;
  stop : bool;
  recent_signals : list Z;
  recent_signal_cursor : Z;
}.

(** [std::map<SimulationTick, FutureSlot>] is an association list in
    increasing order of time. *)
Record Scheduler (Task : Type) := mkScheduler {
  max_delta_cycles : Z;
  recent_signal_capacity : Z;
  future : list (Z * FutureSlot Task);
  current : option (CurrentSlot Task);
  now : Z;
  next_sequence : Z;
  reservation_epoch : Z;
  cancel_slots : CancellationSlots Task;
  cancellations_since_compaction : Z;
  cancellation_compaction_threshold : Z;
  status : Status;
  hooks : Hooks Task;
}.
Arguments mkScheduler {Task}.
Arguments max_delta_cycles {Task}.
Arguments recent_signal_capacity {Task}.
Arguments future {Task}.
Arguments current {Task}.
Arguments now {Task}.
Arguments next_sequence {Task}.
Arguments reservation_epoch {Task}.
Arguments cancel_slots {Task}.
Arguments cancellations_since_compaction {Task}.
Arguments cancellation_compaction_threshold {Task}.
Arguments status {Task}.
Arguments hooks {Task}.

(** [SchedulerOrderKey]; [key_owner] says whether this scheduler issued it. *)
Record SchedulerOrderKey := mkSchedulerOrderKey {
  key_order : Z;
  key_sequence : Z;
  key_owner : bool;
  key_epoch : Z;
}.

(** [ScheduledTaskHandle]: empty, or an identity of this scheduler's table. *)
Definition ScheduledTaskHandle := option Identity.

Section state.
Context {Task : Type}.
Abbreviation Sched := (Scheduler Task).
Implicit Types (s : Sched) (c : CurrentSlot Task) (b : Bucket Task) (q : WorkQueue Task) (e : Entry Task).

(** ** Assignments to single members *)

Definition with_queues s (f : list (Z * FutureSlot Task)) (c : option (CurrentSlot Task)) : Sched :=
  mkScheduler (max_delta_cycles s) (recent_signal_capacity s) f c (now s)
    (next_sequence s) (reservation_epoch s) (cancel_slots s) (cancellations_since_compaction s)
    (cancellation_compaction_threshold s) (status s) (hooks s).
Definition with_now s (t : Z) : Sched :=
  mkScheduler (max_delta_cycles s) (recent_signal_capacity s) (future s) (current s) t
    (next_sequence s) (reservation_epoch s) (cancel_slots s) (cancellations_since_compaction s)
    (cancellation_compaction_threshold s) (status s) (hooks s).
Definition with_sequence s (n : Z) : Sched :=
  mkScheduler (max_delta_cycles s) (recent_signal_capacity s) (future s) (current s) (now s)
    n (reservation_epoch s) (cancel_slots s) (cancellations_since_compaction s)
    (cancellation_compaction_threshold s) (status s) (hooks s).
Definition with_epoch s (n : Z) : Sched :=
  mkScheduler (max_delta_cycles s) (recent_signal_capacity s) (future s) (current s) (now s)
    (next_sequence s) n (cancel_slots s) (cancellations_since_compaction s)
    (cancellation_compaction_threshold s) (status s) (hooks s).
Definition with_slots s (cs : CancellationSlots Task) : Sched :=
  mkScheduler (max_delta_cycles s) (recent_signal_capacity s) (future s) (current s) (now s)
    (next_sequence s) (reservation_epoch s) cs (cancellations_since_compaction s)
    (cancellation_compaction_threshold s) (status s) (hooks s).
Definition with_compaction s (since threshold : Z) : Sched :=
  mkScheduler (max_delta_cycles s) (recent_signal_capacity s) (future s) (current s) (now s)
    (next_sequence s) (reservation_epoch s) (cancel_slots s) since threshold (status s) (hooks s).
Definition with_status s (st : Status) : Sched :=
  mkScheduler (max_delta_cycles s) (recent_signal_capacity s) (future s) (current s) (now s)
    (next_sequence s) (reservation_epoch s) (cancel_slots s) (cancellations_since_compaction s)
    (cancellation_compaction_threshold s) st (hooks s).
Definition with_hooks s (h : Hooks Task) : Sched :=
  mkScheduler (max_delta_cycles s) (recent_signal_capacity s) (future s) (current s) (now s)
    (next_sequence s) (reservation_epoch s) (cancel_slots s) (cancellations_since_compaction s)
    (cancellation_compaction_threshold s) (status s) h.

Definition set_cycles (n : Z) (st : Status) : Status :=
  mkStatus n (callbacks st) (current_phase_revision st) (in_run st) (in_callback st)
    (in_safe_point st) (in_runtime_slot_quiet_point st) (discarding st) (stop st)
    (recent_signals st) (recent_signal_cursor st).
Definition set_callbacks (n : Z) (st : Status) : Status :=
  mkStatus (cycles st) n (current_phase_revision st) (in_run st) (in_callback st)
    (in_safe_point st) (in_runtime_slot_quiet_point st) (discarding st) (stop st)
    (recent_signals st) (recent_signal_cursor st).
Definition set_revision (n : Z) (st : Status) : Status :=
  mkStatus (cycles st) (callbacks st) n (in_run st) (in_callback st)
    (in_safe_point st) (in_runtime_slot_quiet_point st) (discarding st) (stop st)
    (recent_signals st) (recent_signal_cursor st).
Definition set_in_run (v : bool) (st : Status) : Status :=
  mkStatus (cycles st) (callbacks st) (current_phase_revision st) v (in_callback st)
    (in_safe_point st) (in_runtime_slot_quiet_point st) (discarding st) (stop st)
    (recent_signals st) (recent_signal_cursor st).
Definition set_in_callback (v : bool) (st : Status) : Status :=
  mkStatus (cycles st) (callbacks st) (current_phase_revision st) (in_run st) v
    (in_safe_point st) (in_runtime_slot_quiet_point st) (discarding st) (stop st)
    (recent_signals st) (recent_signal_cursor st).
Definition set_in_safe_point (v : bool) (st : Status) : Status :=
  mkStatus (cycles st) (callbacks st) (current_phase_revision st) (in_run st) (in_callback st)
    v (in_runtime_slot_quiet_point st) (discarding st) (stop st)
    (recent_signals st) (recent_signal_cursor st).
Definition set_in_quiet_point (v : bool) (st : Status) : Status :=
  mkStatus (cycles st) (callbacks st) (current_phase_revision st) (in_run st) (in_callback st)
    (in_safe_point st) v (discarding st) (stop st)
    (recent_signals st) (recent_signal_cursor st).
Definition set_stop (v : bool) (st : Status) : Status :=
  mkStatus (cycles st) (callbacks st) (current_phase_revision st) (in_run st) (in_callback st)
    (in_safe_point st) (in_runtime_slot_quiet_point st) (discarding st) v
    (recent_signals st) (recent_signal_cursor st).
Definition set_recent (l : list Z) (n : Z) (st : Status) : Status :=
  mkStatus (cycles st) (callbacks st) (current_phase_revision st) (in_run st) (in_callback st)
    (in_safe_point st) (in_runtime_slot_quiet_point st) (discarding st) (stop st) l n.

(** ** Queues *)

Definition empty_bucket : Bucket Task := replicate 8 empty_queue.
Definition empty_future_slot : FutureSlot Task := mkFutureSlot empty_bucket empty_bucket empty_queue.

(** [bucket.queues[index]]; the code checks or knows that the index is below
    [phase_count]. *)
Definition queue_at b (index : Z) : WorkQueue Task := default empty_queue (b !! Z.to_nat index).
Definition set_queue b (index : Z) q : Bucket Task := <[Z.to_nat index := q]> b.

Definition bucket_empty cs b : bool := forallb (queue_empty cs) b.
Definition future_slot_empty cs (f : FutureSlot Task) : bool :=
  bucket_empty cs (future_generic f) && bucket_empty cs (future_systemverilog f)
  && queue_empty cs (future_end_of_slot f).

(** A reference to one of the queues, as [push_entry] and the dispatch loop
    take it. *)
Inductive Target :=
  | AtCurrent (index : Z)
  | AtNextDelta (index : Z)
  | AtSystemVerilog (index : Z)
  | AtRunning
  | AtEndOfSlot
  | AtFuture (time index : Z)
  | AtFutureSystemVerilog (time index : Z)
  | AtFutureEnd (time : Z).

(** Assigning through a reference into the current slot. *)
Definition update_slot c (t : Target) (f : WorkQueue Task -> WorkQueue Task) : CurrentSlot Task :=
  let on b := match t with
              | AtCurrent i | AtNextDelta i | AtSystemVerilog i => set_queue b i (f (queue_at b i))
              | _ => b
              end in
  mkCurrentSlot (slot_time c) (slot_delta c) (slot_phase c)
    (match t with AtCurrent _ => on (slot_current c) | _ => slot_current c end)
    (match t with AtNextDelta _ => on (slot_next_delta c) | _ => slot_next_delta c end)
    (match t with AtSystemVerilog _ => on (slot_systemverilog c) | _ => slot_systemverilog c end)
    (match t with AtRunning => f (systemverilog_running c) | _ => systemverilog_running c end)
    (systemverilog_phase c) (systemverilog_round c) (last_systemverilog_phase c)
    (match t with AtEndOfSlot => f (slot_end_of_slot c) | _ => slot_end_of_slot c end)
    (executing_end_of_slot c).
(** Reading through one. *)
Definition slot_queue c (t : Target) : WorkQueue Task :=
  match t with
  | AtCurrent i => queue_at (slot_current c) i
  | AtNextDelta i => queue_at (slot_next_delta c) i
  | AtSystemVerilog i => queue_at (slot_systemverilog c) i
  | AtRunning => systemverilog_running c
  | AtEndOfSlot => slot_end_of_slot c
  | _ => empty_queue
  end.

Definition update_future_slot (fs : FutureSlot Task) (t : Target) (f : WorkQueue Task -> WorkQueue Task)
    : FutureSlot Task :=
  match t with
  | AtFuture _ i => mkFutureSlot (set_queue (future_generic fs) i (f (queue_at (future_generic fs) i)))
                      (future_systemverilog fs) (future_end_of_slot fs)
  | AtFutureSystemVerilog _ i =>
      mkFutureSlot (future_generic fs)
        (set_queue (future_systemverilog fs) i (f (queue_at (future_systemverilog fs) i)))
        (future_end_of_slot fs)
  | AtFutureEnd _ => mkFutureSlot (future_generic fs) (future_systemverilog fs) (f (future_end_of_slot fs))
  | _ => fs
  end.

(** [future_slot_at]: the slot of a time, created when it does not exist. *)
Fixpoint future_slot_at (time : Z) (f : FutureSlot Task -> FutureSlot Task)
    (l : list (Z * FutureSlot Task)) : list (Z * FutureSlot Task) :=
  match l with
  | [] => [(time, f empty_future_slot)]
  | (t, fs) :: rest =>
      if time <? t then (time, f empty_future_slot) :: l
      else if time =? t then (t, f fs) :: rest
      else (t, fs) :: future_slot_at time f rest
  end.

Definition update_target s (t : Target) (f : WorkQueue Task -> WorkQueue Task) : Sched :=
  match t with
  | AtFuture time _ | AtFutureSystemVerilog time _ | AtFutureEnd time =>
      with_queues s (future_slot_at time (fun fs => update_future_slot fs t f) (future s)) (current s)
  | _ => match current s with
         | Some c => with_queues s (future s) (Some (update_slot c t f))
         | None => s
         end
  end.

Definition push_entry s (t : Target) e : Sched :=
  update_target s t (fun q => push (cancel_slots s) q e).

(** ** The monad of calls: a call may throw, and keeps what it changed *)

Definition Act (A : Type) := Sched -> Sched * (A + failure).

#[global] Instance act_ret : MRet Act := fun A a s => (s, inl a).
#[global] Instance act_bind : MBind Act := fun A B f m s =>
  match m s with
  | (s', inl a) => f a s'
  | (s', inr x) => (s', inr x)
  end.

Definition get : Act Sched := fun s => (s, inl s).
Definition throw {A} (x : exception) : Act A := fun s => (s, inr (StdException x)).
Definition modify (f : Sched -> Sched) : Act () := fun s => (f s, inl ()).

(** ** Making and placing entries *)

Definition take_sequence : Act Z :=
  fun s =>
    if next_sequence s =? U64_MAX then throw (overflow_error "scheduler insertion sequence overflow") s
    else (with_sequence s (next_sequence s + 1), inl (next_sequence s)).

Definition make_entry (order : Z) (task : option Task) : Act (Entry Task) :=
  match task with
  | None => throw (invalid_argument "cannot schedule an empty task")
  | Some t =>
      sequence ← take_sequence;
      mret (mkEntry order sequence (CallbackTask t) None)
  end.

Definition make_internal_entry (order : Z) (task : option Task) : Act (Entry Task) :=
  match task with
  | None => throw (invalid_argument "cannot schedule an empty task descriptor")
  | Some t =>
      sequence ← take_sequence;
      mret (mkEntry order sequence (DescriptorTask t) None)
  end.

Definition is_reactive_region (phase : Z) : bool := (reactive <=? phase) && (phase <=? re_update).
Definition reactive_twin (phase : Z) : Z :=
  if phase =? inactive then re_inactive else if phase =? update then re_update else phase.

Definition at_current_time s (time : Z) : option (CurrentSlot Task) :=
  match current s with
  | Some c => if time =? slot_time c then Some c else None
  | None => None
  end.

Definition bump_revision s : Sched :=
  with_status s (set_revision (wrap64 (current_phase_revision (status s) + 1)) (status s)).

Definition enqueue_at (time phase : Z) e (adjust_reactive_regions : bool) : Act () :=
  fun s =>
    if time <? now s then throw (invalid_argument "cannot schedule an event in the past") s
    else
      let phase :=
        match at_current_time s time with
        | Some c => if adjust_reactive_regions && (slot_phase c <? phase_count)
                       && is_reactive_region (slot_phase c)
                    then reactive_twin phase else phase
        | None => phase
        end in
      if phase =? postponed then
        modify (fun s => push_entry s
          (match at_current_time s time with Some _ => AtEndOfSlot | None => AtFutureEnd time end) e) s
      else if phase >=? phase_count then throw (invalid_argument "invalid scheduler phase") s
      else
        match at_current_time s time with
        | Some c =>
            let phase_finished := phase <? slot_phase c in
            let s := push_entry s (if phase_finished then AtNextDelta phase else AtCurrent phase) e in
            (if negb phase_finished && (phase =? slot_phase c) then bump_revision s else s, inl ())
        | None => (push_entry s (AtFuture time phase) e, inl ())
        end.

Definition enqueue_next_delta (phase : Z) e : Act () :=
  fun s =>
    if phase =? postponed then
      modify (fun s => push_entry s
        (match current s with Some _ => AtEndOfSlot | None => AtFutureEnd (now s) end) e) s
    else if phase >=? phase_count then throw (invalid_argument "invalid scheduler phase") s
    else
      modify (fun s => push_entry s
        (match current s with Some _ => AtNextDelta phase | None => AtFuture (now s) phase end) e) s.

Definition enqueue_systemverilog_at (time phase : Z) e : Act () :=
  fun s =>
    if time <? now s then throw (invalid_argument "cannot schedule an event in the past") s
    else if phase >=? phase_count then throw (invalid_argument "invalid scheduler phase") s
    else
      match at_current_time s time with
      | Some c =>
          let phase :=
            match systemverilog_phase c with
            | Some executing => if is_reactive_region executing then reactive_twin phase else phase
            | None => phase
            end in
          let s := push_entry s (AtSystemVerilog phase) e in
          (match systemverilog_phase c with
           | Some executing => if phase =? executing then bump_revision s else s
           | None => s
           end, inl ())
      | None => (push_entry s (AtFutureSystemVerilog time phase) e, inl ())
      end.

(** [cancel_slots->acquire]: the table grows by [std::vector::push_back],
    which throws rather than exceed the index type. *)
Definition acquire_slot (task : Task) : Act Identity :=
  fun s =>
    if size (slots_ (cancel_slots s)) >=? U64_MAX then
      throw (length_error "vector::_M_realloc_insert") s
    else
      let '(cs, id) := acquire (cancel_slots s) (Some task) in
      (with_slots s cs, inl id).

(** [try { enqueue } catch (...) { release; throw; }] *)
Definition or_release (id : Identity) (m : Act ()) : Act () :=
  fun s =>
    match m s with
    | (s', inl r) => (s', inl r)
    | (s', inr x) => (with_slots s' (release (cancel_slots s') id), inr x)
    end.
End state.
Arguments Act : clear implicits.
