(* ===== verification/SchedulerApi.v ===== *)
(** * Calls of the scheduler

    The public and runtime-internal calls of src/runtime/scheduler.cpp and
    scheduler_systemverilog.cpp on the state of SchedulerState.v, and the
    programs a task is made of: sequences of these calls, each answered with
    its result or with the exception it threw. *)
From S2P Require Import Prelude CancellationSlots WorkQueue SchedulerState.

Section api.
Context {Task : Type}.
Abbreviation Sched := (Scheduler Task).
Abbreviation Act := (Act Task).
Implicit Types (s : Sched) (c : CurrentSlot Task) (b : Bucket Task) (q : WorkQueue Task) (e : Entry Task).

(** The constructor. *)
Definition new_scheduler (max_delta_cycles recent_signal_capacity : Z) : Outcome Sched :=
  if max_delta_cycles =? 0 then Throw (invalid_argument "max_delta_cycles must be greater than zero")
  else Ok (mkScheduler max_delta_cycles recent_signal_capacity [] None 0 0 0 no_slots 0 64
             (mkStatus 0 0 0 false false false false false false [] 0) (mkHooks None [] 1 None [] 1 None)).

(** [if (impl_->discarding) return result;] *)
Definition unless_discarding {A} (result : A) (m : Act A) : Act A :=
  fun s => if discarding (status s) then (s, inl result) else m s.

Definition past_limit (delay : Z) s : bool := delay >? U64_MAX - now s.
Definition time_overflow : exception := overflow_error "simulation time overflow while scheduling event".

Definition schedule_at (time phase order : Z) (task : option Task) : Act () :=
  unless_discarding () (fun s =>
    if time <? now s then throw (invalid_argument "cannot schedule an event in the past") s
    else (e ← make_entry order task; enqueue_at time phase e true) s).

Definition schedule_after (delay phase order : Z) (task : option Task) : Act () :=
  unless_discarding () (fun s =>
    if past_limit delay s then throw time_overflow s
    else schedule_at (now s + delay) phase order task s).

Definition schedule (phase order : Z) (task : option Task) : Act () :=
  fun s => schedule_at (now s) phase order task s.

(** The common part of the cancelable calls: the task goes to a slot, the
    entry that refers to it to a queue. *)
Definition place_cancelable (order sequence : Z) (task : Task) (enqueue : Entry Task -> Act ())
    : Act ScheduledTaskHandle :=
  cancellation ← acquire_slot task;
  _ ← or_release cancellation (enqueue (mkEntry order sequence SlotTask (Some cancellation)));
  mret (Some cancellation).

Definition schedule_after_cancelable (delay phase order : Z) (task : option Task) : Act ScheduledTaskHandle :=
  unless_discarding None (fun s =>
    if past_limit delay s then throw time_overflow s
    else
      let time := now s + delay in
      if phase >=? phase_count then throw (invalid_argument "invalid scheduler phase") s
      else
        match task with
        | None => throw (invalid_argument "cannot schedule an empty task") s
        | Some t =>
            (sequence ← take_sequence;
             place_cancelable order sequence t (fun e => enqueue_at time phase e false)) s
        end).

Definition schedule_next_delta (phase order : Z) (task : option Task) : Act () :=
  unless_discarding () (e ← make_entry order task; enqueue_next_delta phase e).

Definition reserve_order_key (order : Z) : Act SchedulerOrderKey :=
  s ← get;
  sequence ← take_sequence;
  mret (mkSchedulerOrderKey order sequence true (reservation_epoch s)).

Definition valid_key s (key : SchedulerOrderKey) : bool :=
  key_owner key && (key_epoch key =? reservation_epoch s) && (key_sequence key <? next_sequence s).
Definition invalid_reservation : exception := invalid_argument "invalid reserved scheduler task".

Definition schedule_reserved_next_delta (phase : Z) (key : SchedulerOrderKey) (task : option Task) : Act () :=
  unless_discarding () (fun s =>
    match task with
    | Some t =>
        if negb (valid_key s key) then throw invalid_reservation s
        else enqueue_next_delta phase (mkEntry (key_order key) (key_sequence key) (CallbackTask t) None) s
    | None => throw invalid_reservation s
    end).

Definition schedule_reserved_next_delta_cancelable (phase : Z) (key : SchedulerOrderKey)
    (task : option Task) : Act ScheduledTaskHandle :=
  unless_discarding None (fun s =>
    match task with
    | Some t =>
        if negb (valid_key s key) then throw invalid_reservation s
        else place_cancelable (key_order key) (key_sequence key) t (enqueue_next_delta phase) s
    | None => throw invalid_reservation s
    end).

(** The guard of the calls that need an ordinary callback of the generic
    queues to be running. *)
Definition in_ordinary_callback s : option (CurrentSlot Task) :=
  if negb (in_callback (status s)) then None
  else
    match current s with
    | None => None
    | Some c =>
        if bool_decide (is_Some (systemverilog_phase c)) || executing_end_of_slot c
           || (slot_phase c >=? phase_count)
        then None else Some c
    end.
Definition in_its_phase s (phase : Z) : bool :=
  match in_ordinary_callback s with Some c => phase =? slot_phase c | None => false end.
Definition not_in_phase : exception :=
  logic_error "reserved current task requires its ordinary callback phase".

Definition schedule_reserved_current (phase : Z) (key : SchedulerOrderKey) (task : option Task) : Act () :=
  unless_discarding () (fun s =>
    if negb (in_its_phase s phase) then throw not_in_phase s
    else
      match task with
      | Some t =>
          if negb (valid_key s key) then throw invalid_reservation s
          else enqueue_at (now s) phase
                 (mkEntry (key_order key) (key_sequence key) (CallbackTask t) None) true s
      | None => throw invalid_reservation s
      end).

Definition schedule_reserved_current_cancelable (phase : Z) (key : SchedulerOrderKey)
    (task : option Task) : Act ScheduledTaskHandle :=
  unless_discarding None (fun s =>
    if negb (in_its_phase s phase) then throw not_in_phase s
    else
      match task with
      | Some t =>
          if negb (valid_key s key) then throw invalid_reservation s
          else place_cancelable (key_order key) (key_sequence key) t
                 (fun e => enqueue_at (now s) phase e true) s
      | None => throw invalid_reservation s
      end).

(** The answer refers to the queue's next entry; finding it prepares the
    queue. *)
Definition next_current_order_key : Act (option SchedulerOrderKey) :=
  fun s =>
    match in_ordinary_callback s with
    | None => throw (logic_error "next current order key requires an ordinary scheduler callback") s
    | Some c =>
        let '(_, found) := next (cancel_slots s) (queue_at (slot_current c) (slot_phase c)) in
        (update_target s (AtCurrent (slot_phase c)) (fun q => fst (next (cancel_slots s) q)),
         inl ((fun e => mkSchedulerOrderKey (entry_order e) (entry_sequence e) true (reservation_epoch s))
              <$> found))
    end.

Definition schedule_internal_at (time phase order : Z) (task : option Task) : Act () :=
  unless_discarding () (fun s =>
    if time <? now s then throw (invalid_argument "cannot schedule an event in the past") s
    else (e ← make_internal_entry order task; enqueue_at time phase e true) s).

Definition schedule_internal (phase order : Z) (task : option Task) : Act () :=
  fun s => schedule_internal_at (now s) phase order task s.

Definition schedule_internal_next_delta (phase order : Z) (task : option Task) : Act () :=
  unless_discarding () (e ← make_internal_entry order task; enqueue_next_delta phase e).

Definition schedule_systemverilog_at (time phase order : Z) (task : option Task) : Act () :=
  unless_discarding () (e ← make_entry order task; enqueue_systemverilog_at time phase e).

Definition schedule_systemverilog (phase order : Z) (task : option Task) : Act () :=
  fun s => schedule_systemverilog_at (now s) phase order task s.

Definition schedule_systemverilog_next_delta (phase order : Z) (task : option Task) : Act () :=
  schedule_systemverilog phase order task.

Definition schedule_systemverilog_after (delay phase order : Z) (task : option Task) : Act () :=
  unless_discarding () (fun s =>
    if past_limit delay s then throw time_overflow s
    else schedule_systemverilog_at (now s + delay) phase order task s).

Definition schedule_systemverilog_after_cancelable (delay phase order : Z) (task : option Task)
    : Act ScheduledTaskHandle :=
  unless_discarding None (fun s =>
    if past_limit delay s then throw time_overflow s
    else if phase >=? phase_count then throw (invalid_argument "invalid scheduler phase") s
    else
      match task with
      | None => throw (invalid_argument "cannot schedule an empty task") s
      | Some t =>
          (sequence ← take_sequence;
           place_cancelable order sequence t
             (fun e s => enqueue_systemverilog_at (now s + delay) phase e s)) s
      end).

Definition schedule_internal_systemverilog_at (time phase order : Z) (task : option Task) : Act () :=
  unless_discarding () (e ← make_internal_entry order task; enqueue_systemverilog_at time phase e).

Definition schedule_internal_systemverilog (phase order : Z) (task : option Task) : Act () :=
  fun s => schedule_internal_systemverilog_at (now s) phase order task s.

(** The one call that adds to the frozen batch. *)
Definition schedule_internal_systemverilog_running_active (order : Z) (task : option Task) : Act () :=
  unless_discarding () (fun s =>
    match current s with
    | Some c =>
        if bool_decide (systemverilog_phase c = Some active) then
          (e ← make_internal_entry order task; modify (fun s => push_entry s AtRunning e)) s
        else schedule_internal_systemverilog active order task s
    | None => schedule_internal_systemverilog active order task s
    end).

Definition schedule_end_of_time_slot (order : Z) (task : option Task) : Act () :=
  unless_discarding () (
    e ← make_entry order task;
    modify (fun s => push_entry s
      (match current s with Some _ => AtEndOfSlot | None => AtFutureEnd (now s) end) e)).

(** ** Cancellation *)

Definition queue_length q : Z := size (entries q) + size (current_insertions q).
Definition bucket_compact cs b : Bucket Task := compact cs <$> b.
Definition bucket_retained b : Z := fold_right Z.add 0 (queue_length <$> b).

Definition slot_compact cs c : CurrentSlot Task :=
  mkCurrentSlot (slot_time c) (slot_delta c) (slot_phase c)
    (bucket_compact cs (slot_current c)) (bucket_compact cs (slot_next_delta c))
    (bucket_compact cs (slot_systemverilog c)) (compact cs (systemverilog_running c))
    (systemverilog_phase c) (systemverilog_round c) (last_systemverilog_phase c)
    (compact cs (slot_end_of_slot c)) (executing_end_of_slot c).
Definition slot_retained c : Z :=
  bucket_retained (slot_current c) + bucket_retained (slot_next_delta c)
  + bucket_retained (slot_systemverilog c)
  + queue_length (systemverilog_running c) + queue_length (slot_end_of_slot c).

Definition future_slot_compact cs (f : FutureSlot Task) : FutureSlot Task :=
  mkFutureSlot (bucket_compact cs (future_generic f)) (bucket_compact cs (future_systemverilog f))
    (compact cs (future_end_of_slot f)).
Definition future_slot_retained (f : FutureSlot Task) : Z :=
  bucket_retained (future_generic f) + bucket_retained (future_systemverilog f)
  + queue_length (future_end_of_slot f).

(** Enough cancellations make all queues drop their cancelled entries. *)
Definition note_cancellation s : Sched :=
  let since := wrap64 (cancellations_since_compaction s + 1) in
  if since <? cancellation_compaction_threshold s then
    with_compaction s since (cancellation_compaction_threshold s)
  else
    let cs := cancel_slots s in
    let current' := slot_compact cs <$> current s in
    let compacted := (fun '(t, f) => (t, future_slot_compact cs f)) <$> future s in
    let retained := match current' with Some c => slot_retained c | None => 0 end
                    + fold_right Z.add 0 ((fun '(_, f) => future_slot_retained f) <$> compacted) in
    let kept := List.filter (fun '(_, f) => negb (future_slot_empty cs f)) compacted in
    with_compaction (with_queues s kept current') 0 (Z.max 64 (retained / 2)).

Definition cancel (handle : ScheduledTaskHandle) s : Sched :=
  match handle with
  | Some id =>
      if slot_live (cancel_slots s) id then
        note_cancellation (with_slots s (release (cancel_slots s) id))
      else s
  | None => s
  end.

(** ** Signals, stopping, observers *)

Definition note_signal_change (signal : Z) s : Sched :=
  let st := status s in
  let capacity := recent_signal_capacity s in
  if capacity =? 0 then s
  else if size (recent_signals st) <? capacity then
    with_status s (set_recent (recent_signals st ++ [signal]) (recent_signal_cursor st) st)
  else
    with_status s (set_recent (<[Z.to_nat (recent_signal_cursor st) := signal]> (recent_signals st))
      ((recent_signal_cursor st + 1) mod size (recent_signals st)) st).

Definition request_stop s : Sched := with_status s (set_stop true (status s)).
Definition clear_stop s : Sched := with_status s (set_stop false (status s)).
Definition note_warped_cycles (count : Z) s : Sched :=
  with_status s (set_cycles (wrap64 (cycles (status s) + count)) (status s)).

Definition set_slot_start_hook (hook : option Task) s : Sched :=
  let h := hooks s in
  with_hooks s (mkHooks hook (slot_start_hooks h) (next_slot_start_hook_token h)
    (safe_point_hook h) (safe_point_hooks h) (next_safe_point_hook_token h) (runtime_slot_quiet_hook h)).
Definition add_slot_start_hook (hook : option Task) : Act Z :=
  fun s =>
    let h := hooks s in
    match hook with
    | None => throw (invalid_argument "slot-start observer cannot be empty") s
    | Some t =>
        if next_slot_start_hook_token h =? 0 then
          throw (overflow_error "slot-start observer token space exhausted") s
        else
          let token := next_slot_start_hook_token h in
          (with_hooks s (mkHooks (slot_start_hook h) (slot_start_hooks h ++ [(token, t)])
             (wrap64 (token + 1)) (safe_point_hook h) (safe_point_hooks h)
             (next_safe_point_hook_token h) (runtime_slot_quiet_hook h)), inl token)
    end.
(** [std::find_if] and [erase]: the first entry of the token goes. *)
Fixpoint remove_token (token : Z) (l : list (Z * Task)) : list (Z * Task) :=
  match l with
  | [] => []
  | (k, t) :: rest => if k =? token then rest else (k, t) :: remove_token token rest
  end.
Definition remove_slot_start_hook (token : Z) s : Sched :=
  let h := hooks s in
  if token =? 0 then s
  else with_hooks s (mkHooks (slot_start_hook h) (remove_token token (slot_start_hooks h))
         (next_slot_start_hook_token h) (safe_point_hook h) (safe_point_hooks h)
         (next_safe_point_hook_token h) (runtime_slot_quiet_hook h)).
Definition set_safe_point_hook (hook : option Task) s : Sched :=
  let h := hooks s in
  with_hooks s (mkHooks (slot_start_hook h) (slot_start_hooks h) (next_slot_start_hook_token h)
    hook (safe_point_hooks h) (next_safe_point_hook_token h) (runtime_slot_quiet_hook h)).
Definition add_safe_point_hook (hook : option Task) : Act Z :=
  fun s =>
    let h := hooks s in
    match hook with
    | None => throw (invalid_argument "safe-point observer cannot be empty") s
    | Some t =>
        if next_safe_point_hook_token h =? 0 then
          throw (overflow_error "safe-point observer token space exhausted") s
        else
          let token := next_safe_point_hook_token h in
          (with_hooks s (mkHooks (slot_start_hook h) (slot_start_hooks h) (next_slot_start_hook_token h)
             (safe_point_hook h) (safe_point_hooks h ++ [(token, t)])
             (wrap64 (token + 1)) (runtime_slot_quiet_hook h)), inl token)
    end.
Definition remove_safe_point_hook (token : Z) s : Sched :=
  let h := hooks s in
  if token =? 0 then s
  else with_hooks s (mkHooks (slot_start_hook h) (slot_start_hooks h) (next_slot_start_hook_token h)
         (safe_point_hook h) (remove_token token (safe_point_hooks h))
         (next_safe_point_hook_token h) (runtime_slot_quiet_hook h)).
(** Context and callback are one object here, so they are always paired. *)
Definition set_runtime_slot_quiet_hook (hook : option Task) : Act () :=
  fun s =>
    let h := hooks s in
    if in_run (status s) || in_callback (status s) then
      throw (logic_error "cannot replace the runtime slot-quiet hook while running") s
    else
      (with_hooks s (mkHooks (slot_start_hook h) (slot_start_hooks h) (next_slot_start_hook_token h)
         (safe_point_hook h) (safe_point_hooks h) (next_safe_point_hook_token h) hook), inl ()).

(** ** Discarding *)

Definition slot_queues c : list (WorkQueue Task) :=
  slot_current c ++ slot_next_delta c ++ slot_systemverilog c
  ++ [systemverilog_running c; slot_end_of_slot c].
Definition future_slot_queues (f : FutureSlot Task) : list (WorkQueue Task) :=
  future_generic f ++ future_systemverilog f ++ [future_end_of_slot f].

(** All queues with the time of their slot. *)
Definition all_queues s : list (Z * WorkQueue Task) :=
  match current s with Some c => (fun q => (slot_time c, q)) <$> slot_queues c | None => [] end
  ++ (future s ≫= fun '(t, f) => (fun q => (t, q)) <$> future_slot_queues f).

(** [discard_queued]: every queued entry is completed and dropped. *)
Definition discard_queued s : Sched :=
  let cs := foldl cancel_pending (cancel_slots s) (snd <$> all_queues s) in
  with_compaction (with_queues (with_slots s cs) [] None) 0 64.

Definition discard_pending : Act () :=
  unless_discarding () (fun s =>
    if in_run (status s) || in_callback (status s) then
      throw (logic_error "cannot discard scheduler work while it is running") s
    else (let s := discard_queued s in with_epoch s (wrap64 (reservation_epoch s + 1)), inl ())).

Definition reset : Act () :=
  unless_discarding () (
    _ ← discard_pending;
    modify (fun s =>
      with_status (with_sequence (with_now s 0) 0)
        (set_stop false (set_recent [] 0 (set_callbacks 0 (set_cycles 0 (status s))))))).

(** ** Queries *)

Definition has_pending s : bool :=
  match current s with
  | Some _ => true
  | None => existsb (fun '(_, f) => negb (future_slot_empty (cancel_slots s) f)) (future s)
  end.

(** Work of the current slot outside the postponed region. *)
Definition bucket_active cs b : bool :=
  existsb (fun i => negb (i =? postponed) && negb (queue_empty cs (queue_at b i))) (up 0 phase_count).
Definition has_pending_activity_now s : bool :=
  match current s with
  | None => false
  | Some c =>
      negb (queue_empty (cancel_slots s) (systemverilog_running c))
      || bucket_active (cancel_slots s) (slot_current c)
      || bucket_active (cancel_slots s) (slot_next_delta c)
      || bucket_active (cancel_slots s) (slot_systemverilog c)
  end.

Definition next_pending_time s : option Z :=
  fst <$> List.find (fun '(_, f) => negb (future_slot_empty (cancel_slots s) f)) (future s).

Definition executing_phase s : option Z :=
  match current s with
  | None => None
  | Some c =>
      match systemverilog_phase c with
      | Some p => Some p
      | None => if executing_end_of_slot c then Some postponed
                else if slot_phase c <? phase_count then Some (slot_phase c) else None
      end
  end.

Definition systemverilog_active_region_pending s : bool :=
  match current s with
  | None => false
  | Some c =>
      (bool_decide (systemverilog_phase c = Some active)
       && negb (queue_empty (cancel_slots s) (systemverilog_running c)))
      || negb (queue_empty (cancel_slots s) (queue_at (slot_systemverilog c) active))
  end.

Definition systemverilog_running_active_ahead s (order excluded : Z) : bool :=
  match current s with
  | None => false
  | Some c =>
      bool_decide (systemverilog_phase c = Some active)
      && has_order_at_most (cancel_slots s) (systemverilog_running c) order excluded
  end.

(** ** Programs *)

Inductive Command :=
  | ScheduleAt (time phase order : Z) (task : option Task)
  | ScheduleAfter (delay phase order : Z) (task : option Task)
  | ScheduleAfterCancelable (delay phase order : Z) (task : option Task)
  | Schedule (phase order : Z) (task : option Task)
  | ScheduleNextDelta (phase order : Z) (task : option Task)
  | ReserveOrderKey (order : Z)
  | ScheduleReservedNextDelta (phase : Z) (key : SchedulerOrderKey) (task : option Task)
  | ScheduleReservedNextDeltaCancelable (phase : Z) (key : SchedulerOrderKey) (task : option Task)
  | ScheduleReservedCurrent (phase : Z) (key : SchedulerOrderKey) (task : option Task)
  | ScheduleReservedCurrentCancelable (phase : Z) (key : SchedulerOrderKey) (task : option Task)
  | NextCurrentOrderKey
  | ScheduleInternalAt (time phase order : Z) (task : option Task)
  | ScheduleInternal (phase order : Z) (task : option Task)
  | ScheduleInternalNextDelta (phase order : Z) (task : option Task)
  | ScheduleSystemVerilogAt (time phase order : Z) (task : option Task)
  | ScheduleSystemVerilog (phase order : Z) (task : option Task)
  | ScheduleSystemVerilogAfter (delay phase order : Z) (task : option Task)
  | ScheduleSystemVerilogAfterCancelable (delay phase order : Z) (task : option Task)
  | ScheduleInternalSystemVerilogAt (time phase order : Z) (task : option Task)
  | ScheduleInternalSystemVerilogRunningActive (order : Z) (task : option Task)
  | ScheduleEndOfTimeSlot (order : Z) (task : option Task)
  | Cancel (handle : ScheduledTaskHandle)
  | NoteSignalChange (signal : Z)
  | RequestStop
  | ClearStop
  | NoteWarpedCycles (count : Z)
  | SetSlotStartHook (hook : option Task)
  | AddSlotStartHook (hook : option Task)
  | RemoveSlotStartHook (token : Z)
  | SetSafePointHook (hook : option Task)
  | AddSafePointHook (hook : option Task)
  | RemoveSafePointHook (token : Z)
  | SetRuntimeSlotQuietHook (hook : option Task)
  | Observe.

(** What a call answers; [Observed] stands for any query: it gives the whole
    state. *)
Inductive Response :=
  | Returned
  | Handle (handle : ScheduledTaskHandle)
  | Key (key : option SchedulerOrderKey)
  | Token (token : Z)
  | Observed (s : Sched)
  | Threw (f : failure).

Definition answer {A} (f : A -> Response) (m : Act A) : Act Response := a ← m; mret (f a).
Definition done_by (f : Sched -> Sched) : Act Response := answer (fun _ => Returned) (modify f).

Definition execute (command : Command) : Act Response :=
  let unit (m : Act ()) := answer (fun _ => Returned) m in
  match command with
  | ScheduleAt time phase order task => unit (schedule_at time phase order task)
  | ScheduleAfter delay phase order task => unit (schedule_after delay phase order task)
  | ScheduleAfterCancelable delay phase order task =>
      answer Handle (schedule_after_cancelable delay phase order task)
  | Schedule phase order task => unit (schedule phase order task)
  | ScheduleNextDelta phase order task => unit (schedule_next_delta phase order task)
  | ReserveOrderKey order => answer (fun k => Key (Some k)) (reserve_order_key order)
  | ScheduleReservedNextDelta phase key task => unit (schedule_reserved_next_delta phase key task)
  | ScheduleReservedNextDeltaCancelable phase key task =>
      answer Handle (schedule_reserved_next_delta_cancelable phase key task)
  | ScheduleReservedCurrent phase key task => unit (schedule_reserved_current phase key task)
  | ScheduleReservedCurrentCancelable phase key task =>
      answer Handle (schedule_reserved_current_cancelable phase key task)
  | NextCurrentOrderKey => answer Key next_current_order_key
  | ScheduleInternalAt time phase order task => unit (schedule_internal_at time phase order task)
  | ScheduleInternal phase order task => unit (schedule_internal phase order task)
  | ScheduleInternalNextDelta phase order task => unit (schedule_internal_next_delta phase order task)
  | ScheduleSystemVerilogAt time phase order task => unit (schedule_systemverilog_at time phase order task)
  | ScheduleSystemVerilog phase order task => unit (schedule_systemverilog phase order task)
  | ScheduleSystemVerilogAfter delay phase order task =>
      unit (schedule_systemverilog_after delay phase order task)
  | ScheduleSystemVerilogAfterCancelable delay phase order task =>
      answer Handle (schedule_systemverilog_after_cancelable delay phase order task)
  | ScheduleInternalSystemVerilogAt time phase order task =>
      unit (schedule_internal_systemverilog_at time phase order task)
  | ScheduleInternalSystemVerilogRunningActive order task =>
      unit (schedule_internal_systemverilog_running_active order task)
  | ScheduleEndOfTimeSlot order task => unit (schedule_end_of_time_slot order task)
  | Cancel handle => done_by (cancel handle)
  | NoteSignalChange signal => done_by (note_signal_change signal)
  | RequestStop => done_by request_stop
  | ClearStop => done_by clear_stop
  | NoteWarpedCycles count => done_by (note_warped_cycles count)
  | SetSlotStartHook hook => done_by (set_slot_start_hook hook)
  | AddSlotStartHook hook => answer Token (add_slot_start_hook hook)
  | RemoveSlotStartHook token => done_by (remove_slot_start_hook token)
  | SetSafePointHook hook => done_by (set_safe_point_hook hook)
  | AddSafePointHook hook => answer Token (add_safe_point_hook hook)
  | RemoveSafePointHook token => done_by (remove_safe_point_hook token)
  | SetRuntimeSlotQuietHook hook => unit (set_runtime_slot_quiet_hook hook)
  | Observe => answer Observed get
  end.

(** What a task does when it runs: it calls the scheduler, sees the answers,
    and ends by returning or throwing.  A program is finite. *)
Inductive Program :=
  | Return
  | Raise (f : failure)
  | Call (command : Command) (continue : Response -> Program).

Fixpoint run_program (p : Program) : Act () :=
  match p with
  | Return => mret ()
  | Raise f => fun s => (s, inr f)
  | Call command continue => fun s =>
      let '(s', r) := execute command s in
      run_program (continue (match r with inl a => a | inr f => Threw f end)) s'
  end.
End api.
Arguments Command : clear implicits.
Arguments Response : clear implicits.
Arguments Program : clear implicits.
