(* ===== verification/SchedulerInvariant.v ===== *)
(** * Invariant of the scheduler

    The agenda of a scheduler is the multiset of its live entries with the
    time of their slot.  This file states the class invariant and shows that
    every call of SchedulerApi.v keeps it, that a call adds at most the entry
    it was asked to schedule, and that cancelling removes exactly the entry of
    its handle. *)
From stdpp Require Import sorting.
From S2P Require Import Prelude CancellationSlots WorkQueue SchedulerState SchedulerApi.

Section invariant.
Context {Task : Type}.
Abbreviation Sched := (Scheduler Task).
Abbreviation Act := (Act Task).
Implicit Types (s : Sched) (c : CurrentSlot Task) (b : Bucket Task) (q : WorkQueue Task) (e : Entry Task).
Implicit Types (cs : CancellationSlots Task) (qs : list (Z * WorkQueue Task)) (l : list (Z * FutureSlot Task)).

(** ** The table of cancelable tasks and the entries that refer to it *)

Definition stored cs (id : Identity) : option Task := slot_at cs (id_slot id) ≫= slot_task.

(** An entry without a handle carries its task; an entry with one refers to a
    slot that was handed out and, while live, holds a task. *)
Definition entry_ok cs e : Prop :=
  match entry_cancellation e with
  | Some id => issued cs id /\ (slot_live cs id = true -> is_Some (stored cs id))
  | None => entry_task e <> SlotTask
  end.

(** [cs'] is [cs] after the handles in [gone] died and new ones may have been
    issued. *)
Definition table_step cs cs' (gone : Identity -> bool) : Prop :=
  forall id, issued cs id ->
    issued cs' id /\ slot_live cs' id = slot_live cs id && negb (gone id) /\
    (slot_live cs' id = true -> stored cs' id = stored cs id).

Definition spared (gone : Identity -> bool) e : bool :=
  match entry_cancellation e with Some id => negb (gone id) | None => true end.

Lemma table_step_entry cs cs' gone e : table_step cs cs' gone -> entry_ok cs e ->
  entry_ok cs' e /\ live cs' e = live cs e && spared gone e.
Proof.
  intros H. unfold entry_ok, live, is_cancelled, spared. destruct (entry_cancellation e) as [id|]; [|done].
  intros [Hi Ht]. destruct (H id Hi) as (Hi' & Hl & Hs). split.
  - split; [done|]. intros E. rewrite Hs by done. apply Ht. rewrite Hl in E. by apply andb_true_iff in E as [? _].
  - by rewrite !negb_involutive.
Qed.

Lemma table_step_pending cs cs' gone q : table_step cs cs' gone -> Forall (entry_ok cs) (held q) ->
  pending cs' q = List.filter (spared gone) (pending cs q).
Proof.
  intros H. unfold pending, held. generalize (unread q ++ current_insertions q). intros es Hes.
  induction Hes as [|e es He Hes IH]; simpl; [done|].
  rewrite (proj2 (table_step_entry _ _ _ e H He)), IH.
  destruct (live cs e); simpl; [|done]. by destruct (spared gone e).
Qed.
Lemma table_step_refl cs : table_step cs cs (fun _ => false).
Proof. intros id Hi. split_and!; [done|by rewrite andb_true_r|done]. Qed.

Lemma table_step_trans t1 t2 t3 g1 g2 : table_step t1 t2 g1 -> table_step t2 t3 g2 ->
  table_step t1 t3 (fun id => g1 id || g2 id).
Proof.
  intros H12 H23 id Hi. destruct (H12 id Hi) as (Hi2 & Hl2 & Hs2). destruct (H23 id Hi2) as (Hi3 & Hl3 & Hs3).
  split_and!; [done|by rewrite Hl3, Hl2, negb_orb, andb_assoc|].
  intros E. rewrite Hs3 by done. apply Hs2. rewrite Hl3 in E. by apply andb_true_iff in E as [? _].
Qed.

Definition just (id : Identity) : Identity -> bool := fun id' => bool_decide (id' = id).

Lemma advance_issued cs cs' id : slots_advance cs cs' -> issued cs id -> issued cs' id.
Proof. intros H (slot & Hs & Hg). destruct (H _ _ Hs) as (slot' & Hs' & Hle & _). exists slot'. split; [done|lia]. Qed.

Lemma table_step_release cs id : slots_ok cs -> table_step cs (release cs id) (just id).
Proof.
  intros Hok id' Hi. pose proof (release_spec cs id id' Hok) as Hl. split_and!; [|done|].
  - eapply advance_issued; [apply release_advance|done].
  - intros E. unfold stored. destruct (slot_live cs id) eqn:El.
    + rewrite release_other; [done|]. intros Hj. rewrite Hl in E. apply andb_true_iff in E as [E1 E2].
      rewrite (slot_live_unique cs id' id) in E2 by done. by rewrite bool_decide_true in E2.
    + unfold release. by rewrite El.
Qed.

Lemma table_step_take cs id : slots_ok cs -> slot_live cs id = true -> table_step cs (fst (take_slot cs id)) (just id).
Proof.
  intros Hok El id' Hi. destruct (take_slot_spec cs id Hok El) as [_ Hl]. split_and!; [|by apply Hl|].
  - eapply advance_issued; [apply (slots_step_advance cs); [done|constructor]|done].
  - intros E. unfold stored. rewrite take_slot_other; [done|]. intros Hj.
    rewrite Hl in E. apply andb_true_iff in E as [E1 E2].
    rewrite (slot_live_unique cs id' id) in E2 by done. by rewrite bool_decide_true in E2.
Qed.

Lemma table_step_acquire cs task : slots_ok cs -> size (slots_ cs) < U64_MAX ->
  table_step cs (fst (acquire cs (Some task))) (fun _ => false).
Proof.
  intros Hok Hsz id' Hi. pose proof (acquire_spec cs (Some task) Hok) as Hs.
  pose proof (acquire_other cs (Some task)) as Ho.
  pose proof (slots_step_advance cs _ Hok (step_acquire cs (Some task) Hsz)) as Had.
  destruct (acquire cs (Some task)) as [cs' id]. simpl in *. destruct Hs as (Hni & _ & Hl & _ & Hsame).
  split_and!; [by eapply advance_issued|by rewrite Hsame, andb_true_r|].
  intros E. unfold stored. rewrite Ho; [done|done|]. intros Hj. apply Hni.
  by rewrite <- (slot_live_unique cs' id' id).
Qed.

(** ** Queues reached through a reference *)

Definition bucket_shape b : Prop := length b = 8%nat.
Record slot_shape c : Prop := {
  shape_current : bucket_shape (slot_current c);
  shape_next_delta : bucket_shape (slot_next_delta c);
  shape_systemverilog : bucket_shape (slot_systemverilog c);
}.
Definition future_shape (f : FutureSlot Task) : Prop :=
  bucket_shape (future_generic f) /\ bucket_shape (future_systemverilog f).

Definition index_ok (i : Z) : Prop := (Z.to_nat i < 8)%nat.
Definition target_ok (t : Target) : Prop :=
  match t with
  | AtCurrent i => 0 <= i < phase_count
  | AtNextDelta i | AtSystemVerilog i | AtFuture _ i | AtFutureSystemVerilog _ i => index_ok i
  | _ => True
  end.
(** The time of a reference into a future slot. *)
Definition future_target (t : Target) : option Z :=
  match t with AtFuture time _ | AtFutureSystemVerilog time _ | AtFutureEnd time => Some time | _ => None end.
Lemma set_queue_perm b i q : bucket_shape b -> index_ok i ->
  exists rest, b ≡ₚ queue_at b i :: rest /\ set_queue b i q ≡ₚ q :: rest.
Proof.
  unfold bucket_shape, index_ok, queue_at, set_queue in *. intros Hb Hi.
  destruct (lookup_lt_is_Some_2 b (Z.to_nat i)) as [x Hx]; [lia|].
  exists (take (Z.to_nat i) b ++ drop (S (Z.to_nat i)) b). split.
  - rewrite <- (take_drop_middle b _ _ Hx) at 1. rewrite Hx. simpl. by rewrite Permutation_middle.
  - rewrite insert_take_drop by lia. by rewrite Permutation_middle.
Qed.

Lemma set_queue_shape b i q : bucket_shape (set_queue b i q) <-> bucket_shape b.
Proof. unfold bucket_shape, set_queue. by rewrite length_insert. Qed.

Lemma slot_update_perm c t f : slot_shape c -> target_ok t -> future_target t = None ->
  exists rest, slot_queues c ≡ₚ slot_queue c t :: rest /\
    slot_queues (update_slot c t f) ≡ₚ f (slot_queue c t) :: rest.
Proof.
  intros [H1 H2 H3] Ht Hf. destruct t as [i|i|i| | |? ?|? ?|?]; simpl in *; try done; unfold slot_queues; simpl.
  - assert (index_ok i) as Hi by (unfold index_ok, phase_count in *; lia).
    destruct (set_queue_perm (slot_current c) i (f (queue_at (slot_current c) i)) H1 Hi) as (r & E1 & E2).
    eexists. split; [rewrite E1 at 1|rewrite E2]; simpl; reflexivity.
  - destruct (set_queue_perm (slot_next_delta c) i (f (queue_at (slot_next_delta c) i)) H2 Ht) as (r & E1 & E2).
    exists (slot_current c ++ r ++ slot_systemverilog c ++ [systemverilog_running c; slot_end_of_slot c]).
    split; [rewrite E1 at 1|rewrite E2]; simpl; symmetry; apply Permutation_middle.
  - destruct (set_queue_perm (slot_systemverilog c) i (f (queue_at (slot_systemverilog c) i)) H3 Ht) as (r & E1 & E2).
    exists ((slot_current c ++ slot_next_delta c) ++ r ++ [systemverilog_running c; slot_end_of_slot c]).
    rewrite !(app_assoc (slot_current c)).
    split; [rewrite E1 at 1|rewrite E2]; simpl; symmetry; apply Permutation_middle.
  - exists ((slot_current c ++ slot_next_delta c ++ slot_systemverilog c) ++ [slot_end_of_slot c]).
    split; rewrite !app_assoc; symmetry; apply Permutation_middle.
  - exists (slot_current c ++ slot_next_delta c ++ slot_systemverilog c ++ [systemverilog_running c]).
    split; symmetry; rewrite Permutation_cons_append, <- !app_assoc; done.
Qed.

Lemma update_slot_shape c t f : slot_shape c -> slot_shape (update_slot c t f).
Proof. intros [H1 H2 H3]. split; destruct t; simpl; try done; by apply set_queue_shape. Qed.

Definition future_queue (fs : FutureSlot Task) (t : Target) : WorkQueue Task :=
  match t with
  | AtFuture _ i => queue_at (future_generic fs) i
  | AtFutureSystemVerilog _ i => queue_at (future_systemverilog fs) i
  | AtFutureEnd _ => future_end_of_slot fs
  | _ => empty_queue
  end.

Lemma future_update_perm fs t f : future_shape fs -> target_ok t -> is_Some (future_target t) ->
  exists rest, future_slot_queues fs ≡ₚ future_queue fs t :: rest /\
    future_slot_queues (update_future_slot fs t f) ≡ₚ f (future_queue fs t) :: rest.
Proof.
  intros [H1 H2] Ht Hf. unfold future_slot_queues.
  destruct t as [i|i|i| | |? i|? i|?]; simpl in *; try (by destruct Hf).
  - destruct (set_queue_perm (future_generic fs) i (f (queue_at (future_generic fs) i)) H1 Ht) as (r & E1 & E2).
    eexists. split; [rewrite E1 at 1|rewrite E2]; simpl; reflexivity.
  - destruct (set_queue_perm (future_systemverilog fs) i (f (queue_at (future_systemverilog fs) i)) H2 Ht)
      as (r & E1 & E2).
    exists (future_generic fs ++ r ++ [future_end_of_slot fs]).
    split; [rewrite E1 at 1|rewrite E2]; simpl; symmetry; apply Permutation_middle.
  - exists (future_generic fs ++ future_systemverilog fs).
    split; symmetry; rewrite Permutation_cons_append, <- app_assoc; done.
Qed.

Lemma update_future_shape fs t f : future_shape fs -> future_shape (update_future_slot fs t f).
Proof. intros [H1 H2]. split; destruct t; simpl; try done; by apply set_queue_shape. Qed.

(** The future slot of a time, empty when there is none. *)
Fixpoint future_lookup (time : Z) (l : list (Z * FutureSlot Task)) : FutureSlot Task :=
  match l with
  | [] => empty_future_slot
  | (t, fs) :: rest =>
      if time <? t then empty_future_slot else if time =? t then fs else future_lookup time rest
  end.

Definition target_queue s (t : Target) : WorkQueue Task :=
  match future_target t with
  | Some time => future_queue (future_lookup time (future s)) t
  | None => match current s with Some c => slot_queue c t | None => empty_queue end
  end.
Definition target_time s (t : Target) : Z := default (now s) (future_target t).

Definition queues_of (l : list (Z * FutureSlot Task)) : list (Z * WorkQueue Task) :=
  l ≫= fun '(t, f) => (fun q => (t, q)) <$> future_slot_queues f.

Definition all_empty qs : Prop := Forall (fun p => snd p = empty_queue) qs.

Lemma empty_slot_shape : future_shape empty_future_slot.
Proof. done. Qed.

Lemma future_slot_at_perm time t f l :
  Forall (fun p => future_shape (snd p)) l -> target_ok t -> future_target t = Some time ->
  exists rest pad, queues_of l ++ pad ≡ₚ (time, future_queue (future_lookup time l) t) :: rest /\
    queues_of (future_slot_at time (fun fs => update_future_slot fs t f) l)
      ≡ₚ (time, f (future_queue (future_lookup time l) t)) :: rest /\ all_empty pad.
Proof.
  intros Hl Ht Hf.
  assert (forall more, exists rest pad, more ++ pad ≡ₚ (time, future_queue empty_future_slot t) :: rest /\
    ((fun q => (time, q)) <$> future_slot_queues (update_future_slot empty_future_slot t f)) ++ more
      ≡ₚ (time, f (future_queue empty_future_slot t)) :: rest /\ all_empty pad) as Hnew.
  { intros more. destruct (future_update_perm _ t f empty_slot_shape Ht) as (r & E1 & E2); [by rewrite Hf|].
    exists (((fun q => (time, q)) <$> r) ++ more), ((fun q => (time, q)) <$> future_slot_queues empty_future_slot).
    split_and!.
    - rewrite E1. simpl. rewrite Permutation_app_comm. done.
    - rewrite E2. done.
    - unfold all_empty. rewrite Forall_fmap. repeat constructor. }
  induction Hl as [|[t' fs] l Hs Hl IH]; simpl.
  { destruct (Hnew []) as (r & p & H1 & H2 & H3). exists r, p. done. }
  destruct (time <? t') eqn:E1; [by apply Hnew|]. destruct (Z.eqb_spec time t') as [<-|Hne].
  - destruct (future_update_perm fs t f Hs Ht) as (r & E2 & E3); [by rewrite Hf|].
    exists (((fun q => (time, q)) <$> r) ++ queues_of l), []. split_and!; [| |constructor].
    + simpl. rewrite app_nil_r, E2. done.
    + unfold queues_of at 1. simpl. rewrite E3. done.
  - destruct IH as (r & p & H1 & H2 & H3).
    exists (((fun q => (t', q)) <$> future_slot_queues fs) ++ r), p. split_and!; [| |done].
    + unfold queues_of. simpl. fold (queues_of l). rewrite <- app_assoc, H1. symmetry. apply Permutation_middle.
    + unfold queues_of. simpl. rewrite H2. symmetry. apply Permutation_middle.
Qed.

Lemma future_slot_at_keys time f l t' :
  t' ∈ fst <$> future_slot_at time f l <-> t' = time \/ t' ∈ fst <$> l.
Proof.
  induction l as [|[t fs] l IH]; simpl; [set_solver|].
  destruct (time <? t); [simpl; set_solver|]. destruct (Z.eqb_spec time t) as [->|]; simpl; [set_solver|].
  rewrite !elem_of_cons, IH. set_solver.
Qed.

Lemma future_slot_at_sorted time f l :
  StronglySorted Z.lt (fst <$> l) -> StronglySorted Z.lt (fst <$> future_slot_at time f l).
Proof.
  induction l as [|[t fs] l IH]; simpl; intros H; [repeat constructor|].
  inversion H as [|? ? Hs Hx]; subst. destruct (Z.ltb_spec time t).
  - simpl. constructor; [done|]. constructor; [done|]. eapply Forall_impl; [exact Hx|]. simpl. lia.
  - destruct (Z.eqb_spec time t) as [->|]; simpl; [done|]. constructor; [by apply IH|].
    rewrite Forall_forall in *. intros t' [->|Ht]%future_slot_at_keys; [lia|by apply Hx].
Qed.

Lemma future_slot_at_shape time t f l : Forall (fun p => future_shape (snd p)) l ->
  Forall (fun p => future_shape (snd p)) (future_slot_at time (fun fs => update_future_slot fs t f) l).
Proof.
  assert (future_shape (update_future_slot empty_future_slot t f)) by by apply update_future_shape.
  induction 1 as [|[t' fs] l Hs Hl IH]; simpl; [by apply Forall_cons|].
  destruct (time <? t'); [|destruct (time =? t')]; rewrite ?Forall_cons; split_and!; try done.
  by apply update_future_shape.
Qed.

(** ** Agenda and invariant *)

Definition agenda_of cs qs : list (Z * Entry Task) :=
  qs ≫= fun p => (fun e => (fst p, e)) <$> pending cs (snd p).
Definition agenda s : list (Z * Entry Task) := agenda_of (cancel_slots s) (all_queues s).

(** The handles of the entries of an agenda. *)
Definition handles (a : list (Z * Entry Task)) : list Identity :=
  omap (fun p => entry_cancellation (snd p)) a.

Record contents_ok cs qs : Prop := {
  contents_queues : Forall (fun p => queue_ok (snd p)) qs;
  contents_entries : Forall (fun p => Forall (entry_ok cs) (held (snd p))) qs;
  contents_handles : NoDup (handles (agenda_of cs qs));
}.

(** The queues no entry may be in: generic phases of the delta cycle that are
    over, and the frozen batch between batches. *)
Definition closed c (t : Target) : Prop :=
  match t with
  | AtCurrent i => 0 <= i < slot_phase c
  | AtRunning => systemverilog_phase c = None
  | _ => False
  end.

Record slot_ok s c : Prop := {
  slot_ok_time : slot_time c = now s;
  slot_ok_delta : 0 <= slot_delta c < max_delta_cycles s;
  slot_ok_phase : 0 <= slot_phase c <= phase_count;
  slot_ok_round : 0 <= systemverilog_round c <= max_delta_cycles s;
  slot_ok_batch : forall p, systemverilog_phase c = Some p -> 0 <= p < phase_count;
  slot_ok_shape : slot_shape c;
  slot_ok_closed : forall t, closed c t -> pending (cancel_slots s) (slot_queue c t) = [];
}.

(** Future slots lie after the current one. *)
Definition later s (t : Z) : Prop :=
  match current s with Some _ => now s < t | None => now s <= t end.

Record sched_ok s : Prop := {
  ok_limit : 1 <= max_delta_cycles s;
  ok_sequence : 0 <= next_sequence s <= U64_MAX;
  ok_slots : slots_ok (cancel_slots s);
  ok_order : StronglySorted Z.lt (fst <$> future s);
  ok_time : Forall (later s) (fst <$> future s);
  ok_shape : Forall (fun p => future_shape (snd p)) (future s);
  ok_current : forall c, current s = Some c -> slot_ok s c;
  ok_contents : contents_ok (cancel_slots s) (all_queues s);
}.

#[global] Instance agenda_of_perm cs : Proper ((≡ₚ) ==> (≡ₚ)) (agenda_of cs).
Proof. intros qs1 qs2 H. unfold agenda_of. by rewrite H. Qed.
#[global] Instance handles_perm : Proper ((≡ₚ) ==> (≡ₚ)) handles.
Proof. intros a1 a2 H. unfold handles. by rewrite H. Qed.

Lemma agenda_of_app cs qs1 qs2 : agenda_of cs (qs1 ++ qs2) = agenda_of cs qs1 ++ agenda_of cs qs2.
Proof. apply bind_app. Qed.
Lemma handles_app a1 a2 : handles (a1 ++ a2) = handles a1 ++ handles a2.
Proof. apply omap_app. Qed.

Lemma agenda_of_empty cs qs : all_empty qs -> agenda_of cs qs = [].
Proof. induction 1 as [|[t q] qs Hq Hqs IH]; simpl in *; [done|]. by subst. Qed.

(** ** Changing one queue *)

Definition valid_ref s (t : Target) : Prop :=
  target_ok t /\ (future_target t = None -> is_Some (current s)).

Lemma all_queues_eq s : all_queues s =
  match current s with Some c => (fun q => (slot_time c, q)) <$> slot_queues c | None => [] end ++ queues_of (future s).
Proof. done. Qed.

Lemma update_target_queues s t f : sched_ok s -> valid_ref s t ->
  exists rest pad, all_queues s ++ pad ≡ₚ (target_time s t, target_queue s t) :: rest /\
    all_queues (update_target s t f) ≡ₚ (target_time s t, f (target_queue s t)) :: rest /\ all_empty pad.
Proof.
  intros [_ _ _ _ _ Hsh Hc _] [Ht Hv]. unfold target_time, target_queue.
  destruct (future_target t) as [time|] eqn:Ef; simpl.
  - destruct (future_slot_at_perm time t f (future s) Hsh Ht Ef) as (r & p & H1 & H2 & H3).
    set (cur := match current s with Some c => (fun q => (slot_time c, q)) <$> slot_queues c | None => [] end).
    exists (cur ++ r), p. split_and!; [| |done].
    + rewrite all_queues_eq. fold cur. rewrite <- app_assoc, H1. symmetry. apply Permutation_middle.
    + replace (all_queues (update_target s t f)) with
        (cur ++ queues_of (future_slot_at time (fun fs => update_future_slot fs t f) (future s))).
      { rewrite H2. symmetry. apply Permutation_middle. }
      destruct t; simplify_eq/=; done.
  - destruct (Hv eq_refl) as [c Ec]. rewrite Ec. destruct (Hc c Ec) as [Htime _ _ _ _ Hshape _].
    destruct (slot_update_perm c t f Hshape Ht Ef) as (r & E1 & E2).
    exists (((fun q => (now s, q)) <$> r) ++ queues_of (future s)), []. split_and!; [| |constructor].
    + rewrite app_nil_r, all_queues_eq, Ec, Htime, E1. done.
    + replace (update_target s t f) with (with_queues s (future s) (Some (update_slot c t f)))
        by (destruct t; simplify_eq/=; by rewrite Ec).
      rewrite all_queues_eq. simpl. rewrite E2, Htime. done.
Qed.

(** The agenda splits into the changed queue's part and the rest. *)
Lemma update_target_agenda s t f : sched_ok s -> valid_ref s t ->
  exists rest,
    agenda s ≡ₚ ((fun e => (target_time s t, e)) <$> pending (cancel_slots s) (target_queue s t)) ++ rest /\
    agenda (update_target s t f) ≡ₚ
      ((fun e => (target_time s t, e)) <$> pending (cancel_slots s) (f (target_queue s t))) ++ rest.
Proof.
  intros Hok Hv. destruct (update_target_queues s t f Hok Hv) as (rest & pad & H1 & H2 & H3).
  exists (agenda_of (cancel_slots s) rest). unfold agenda. split.
  - rewrite <- (app_nil_r (agenda_of _ (all_queues s))), <- (agenda_of_empty (cancel_slots s) pad H3).
    rewrite <- agenda_of_app, H1. done.
  - replace (cancel_slots (update_target s t f)) with (cancel_slots s)
      by (destruct t; simpl; try done; by destruct (current s)).
    rewrite H2. done.
Qed.

Lemma queue_at_set b i j q : bucket_shape b -> 0 <= i < phase_count -> 0 <= j ->
  queue_at (set_queue b i q) j = if j =? i then q else queue_at b j.
Proof.
  unfold bucket_shape, phase_count, queue_at, set_queue. intros Hb Hi Hj. destruct (Z.eqb_spec j i) as [->|].
  - by rewrite list_lookup_insert_eq by lia.
  - by rewrite list_lookup_insert_ne by lia.
Qed.

Lemma closed_update c t f cs : slot_shape c -> target_ok t -> future_target t = None ->
  (closed c t -> pending cs (f (slot_queue c t)) = []) ->
  (forall t, closed c t -> pending cs (slot_queue c t) = []) ->
  forall t', closed (update_slot c t f) t' -> pending cs (slot_queue (update_slot c t f) t') = [].
Proof.
  intros [Hs _ _] Ht Hf Hnew Hold t' Hc'.
  assert (closed c t') as Hc by by destruct t'.
  destruct t' as [j|j|j| | |? ?|? ?|?]; simpl in Hc'; try done; destruct t as [i|i|i| | |? ?|? ?|?];
    simpl in *; try done; try (by apply Hold); try (by apply Hnew).
  - rewrite queue_at_set by (done || lia). destruct (Z.eqb_spec j i) as [->|]; [by apply Hnew|by apply (Hold (AtCurrent j))].
  - by apply (Hold (AtCurrent j)).
  - by apply (Hold (AtCurrent j)).
  - by apply (Hold (AtCurrent j)).
  - by apply (Hold (AtCurrent j)).
  - by apply (Hold AtRunning).
  - by apply (Hold AtRunning).
  - by apply (Hold AtRunning).
  - by apply (Hold AtRunning).
Qed.

(** ** What a call may change *)

(** The part of a slot only the dispatch loop changes. *)
Definition slot_header c : Z * Z * Z * option Z * Z * option Z * bool :=
  (slot_time c, slot_delta c, slot_phase c, systemverilog_phase c, systemverilog_round c,
   last_systemverilog_phase c, executing_end_of_slot c).

(** From [s] to [s'] handles in [gone] died, their entries left the agenda, and
    [added] joined it, none of it in the past. *)
Record effect s s' (gone : Identity -> bool) (added : list (Z * Entry Task)) : Prop := {
  effect_table : table_step (cancel_slots s) (cancel_slots s') gone;
  effect_agenda : agenda s' ≡ₚ List.filter (fun p => spared gone (snd p)) (agenda s) ++ added;
  effect_added : Forall (fun p => now s <= fst p) added;
}.

Record frame s s' : Prop := {
  frame_now : now s' = now s;
  frame_limit : max_delta_cycles s' = max_delta_cycles s;
  frame_slot : slot_header <$> current s' = slot_header <$> current s;
  frame_run : in_run (status s') = in_run (status s);
  frame_callback : in_callback (status s') = in_callback (status s);
  frame_callbacks : callbacks (status s') = callbacks (status s);
  frame_sequence : next_sequence s <= next_sequence s';
  frame_effect : exists gone added, effect s s' gone added;
}.

Lemma spared_none (a : list (Z * Entry Task)) : List.filter (fun p => spared (fun _ => false) (snd p)) a = a.
Proof.
  apply filter_all. induction a as [|[t e] a IH]; simpl; [done|]. rewrite IH. unfold spared.
  by destruct (entry_cancellation e).
Qed.

Lemma effect_same s s' : cancel_slots s' = cancel_slots s -> agenda s' ≡ₚ agenda s ->
  effect s s' (fun _ => false) [].
Proof. intros E1 E2. split; [rewrite E1; apply table_step_refl|by rewrite spared_none, app_nil_r|constructor]. Qed.

Lemma effect_trans s1 s2 s3 g1 g2 a1 a2 : now s2 = now s1 ->
  effect s1 s2 g1 a1 -> effect s2 s3 g2 a2 ->
  effect s1 s3 (fun id => g1 id || g2 id) (List.filter (fun p => spared g2 (snd p)) a1 ++ a2).
Proof.
  intros En [T1 A1 F1] [T2 A2 F2]. split.
  - by eapply table_step_trans.
  - rewrite A2, (filter_perm _ _ _ A1), List.filter_app, app_assoc. f_equiv.
    rewrite filter_filter. apply reflexive_eq. f_equal. apply List.filter_ext. intros [t e]. unfold spared. simpl.
    destruct (entry_cancellation e); [by rewrite negb_orb|done].
  - apply Forall_app. split; [by apply forall_filter|]. by rewrite <- En.
Qed.

Lemma frame_refl s : frame s s.
Proof. split; try done. do 2 eexists. by apply effect_same. Qed.

Lemma frame_trans s1 s2 s3 : frame s1 s2 -> frame s2 s3 -> frame s1 s3.
Proof.
  intros [? ? ? ? ? ? ? (g1 & a1 & E1)] [? ? ? ? ? ? ? (g2 & a2 & E2)].
  split; try congruence; [lia|]. do 2 eexists. by eapply effect_trans.
Qed.

(** States that agree on what the invariant and the agenda read. *)
Record same_core s s' : Prop := {
  core_limit : max_delta_cycles s' = max_delta_cycles s;
  core_future : future s' = future s;
  core_current : current s' = current s;
  core_now : now s' = now s;
  core_sequence : next_sequence s' = next_sequence s;
  core_slots : cancel_slots s' = cancel_slots s;
}.

Lemma core_agenda s s' : same_core s s' -> agenda s' = agenda s.
Proof. intros [E1 E2 E3 E4 E5 E6]. unfold agenda, all_queues. by rewrite E2, E3, E6. Qed.

Lemma core_ok s s' : same_core s s' -> sched_ok s -> sched_ok s'.
Proof.
  intros [E1 E2 E3 E4 E5 E6] [H1 H2 H3 H4 H5 H6 H7 H8].
  split; unfold later, all_queues in *; rewrite ?E1, ?E2, ?E3, ?E4, ?E5, ?E6; try done.
  intros c Hc. destruct (H7 c Hc) as []. split; rewrite ?E1, ?E4, ?E6; done.
Qed.

Lemma core_frame s s' : same_core s s' ->
  in_run (status s') = in_run (status s) -> in_callback (status s') = in_callback (status s) ->
  callbacks (status s') = callbacks (status s) -> frame s s'.
Proof.
  intros Hc ? ? ?. pose proof (core_agenda _ _ Hc) as Ha. destruct Hc as [E1 E2 E3 E4 E5 E6].
  split; try congruence; [lia|]. do 2 eexists. apply effect_same; [done|by rewrite Ha].
Qed.

(** ** Updates of one queue *)

Lemma update_target_fields s t f :
  let s' := update_target s t f in
  max_delta_cycles s' = max_delta_cycles s /\ now s' = now s /\ next_sequence s' = next_sequence s /\
  cancel_slots s' = cancel_slots s /\ status s' = status s /\ hooks s' = hooks s /\
  slot_header <$> current s' = slot_header <$> current s.
Proof. destruct t; simpl; try done; destruct (current s) as [c|] eqn:E; simpl; rewrite ?E; done. Qed.

Lemma update_target_ok s t f :
  sched_ok s -> valid_ref s t ->
  (forall time, future_target t = Some time -> later s time) ->
  (forall c, current s = Some c -> closed c t -> pending (cancel_slots s) (f (target_queue s t)) = []) ->
  queue_ok (f (target_queue s t)) ->
  Forall (entry_ok (cancel_slots s)) (held (f (target_queue s t))) ->
  NoDup (handles (agenda (update_target s t f))) ->
  sched_ok (update_target s t f).
Proof.
  intros Hok Hv Hlater Hclosed Hq He Hnd.
  destruct (update_target_queues s t f Hok Hv) as (rest & pad & Hq1 & Hq2 & Hpad).
  destruct (update_target_fields s t f) as (F1 & F2 & F3 & F4 & _ & _ & F5).
  destruct Hok as [H1 H2 H3 H4 H5 H6 H7 [C1 C2 C3]]. destruct Hv as [Ht Hcur].
  assert (contents_ok (cancel_slots s) (all_queues (update_target s t f))) as HC.
  { assert (forall P : Z * WorkQueue Task -> Prop, (forall time, P (time, empty_queue)) ->
      Forall P (all_queues s) -> P (target_time s t, f (target_queue s t)) ->
      Forall P (all_queues (update_target s t f))) as Hall.
    { intros P Hp HP Hnew. rewrite Hq2. constructor; [done|].
      assert (Forall P (all_queues s ++ pad)) as HPp.
      { apply Forall_app. split; [done|]. eapply Forall_impl; [exact Hpad|]. intros [time q] E. simpl in E. by subst. }
      rewrite Hq1 in HPp. by inversion HPp. }
    split; [apply Hall; [intros; apply empty_queue_ok|done|done]|apply Hall; [intros; constructor|done|done]|].
    unfold agenda in Hnd. by rewrite F4 in Hnd. }
  destruct (future_target t) as [time|] eqn:Ef.
  - assert (current (update_target s t f) = current s /\
      future (update_target s t f) = future_slot_at time (fun fs => update_future_slot fs t f) (future s))
      as [Ec Efu] by (destruct t; simplify_eq/=; done).
    split; rewrite ?F1, ?F3, ?F4, ?Efu; try done.
    + by apply future_slot_at_sorted.
    + apply Forall_forall. intros t' [->|Ht']%future_slot_at_keys; unfold later in *; rewrite Ec, F2.
      * by apply Hlater.
      * rewrite Forall_forall in H5. by apply H5.
    + by apply future_slot_at_shape.
    + rewrite Ec. intros c Hc. destruct (H7 c Hc) as []. split; rewrite ?F1, ?F2, ?F4; done.
  - destruct (Hcur eq_refl) as [c Ec].
    assert (current (update_target s t f) = Some (update_slot c t f) /\ future (update_target s t f) = future s)
      as [Ec' Efu] by (destruct t; simplify_eq/=; rewrite Ec; done).
    destruct (H7 c Ec) as [S1 S2 S3 S4 S5 S6 S7].
    assert (target_queue s t = slot_queue c t) as Etq by (unfold target_queue; by rewrite Ef, Ec).
    rewrite Etq in *.
    split; rewrite ?F1, ?F3, ?F4, ?Efu; try done.
    + unfold later in *. rewrite Ec', F2. by rewrite Ec in H5.
    + rewrite Ec'. intros c' [= <-]. split; rewrite ?F1, ?F2, ?F4; try done; [by apply update_slot_shape|].
      apply closed_update; try done. by apply (Hclosed c).
Qed.

Lemma slot_queue_entries s c t : sched_ok s -> current s = Some c -> target_ok t -> future_target t = None ->
  queue_ok (slot_queue c t) /\ Forall (entry_ok (cancel_slots s)) (held (slot_queue c t)).
Proof.
  intros [_ _ _ _ _ _ Hc [C1 C2 _]] Ec Ht Hf. destruct (Hc c Ec) as [_ _ _ _ _ Hs _].
  destruct (slot_update_perm c t id Hs Ht Hf) as (r & Hp & _).
  assert ((slot_time c, slot_queue c t) ∈ all_queues s) as Hin.
  { rewrite all_queues_eq, Ec. apply elem_of_app. left. apply list_elem_of_fmap. eexists. split; [done|].
    rewrite Hp. set_solver. }
  rewrite Forall_forall in C1, C2. split; [apply (C1 _ Hin)|apply (C2 _ Hin)].
Qed.

Lemma target_queue_entries s t : sched_ok s -> valid_ref s t ->
  queue_ok (target_queue s t) /\ Forall (entry_ok (cancel_slots s)) (held (target_queue s t)).
Proof.
  intros Hok Hv. destruct (update_target_queues s t id Hok Hv) as (r & pad & Hp & _ & He).
  destruct Hok as [_ _ _ _ _ _ _ [C1 C2 _]].
  assert (forall P : Z * WorkQueue Task -> Prop, (forall time, P (time, empty_queue)) ->
    Forall P (all_queues s) -> P (target_time s t, target_queue s t)) as H.
  { intros P He' HP. assert (Forall P (all_queues s ++ pad)) as HPp.
    { apply Forall_app. split; [done|]. eapply Forall_impl; [exact He|]. intros [time q] E. simpl in E. by subst. }
    rewrite Hp in HPp. by inversion HPp. }
  split; [apply (H (fun p => queue_ok (snd p))); [intros; apply empty_queue_ok|done]|].
  apply (H (fun p => Forall _ (held (snd p)))); [intros; constructor|done].
Qed.

(** ** Changes of the table *)

Lemma table_step_agenda cs cs' gone qs : table_step cs cs' gone ->
  Forall (fun p => Forall (entry_ok cs) (held (snd p))) qs ->
  agenda_of cs' qs = List.filter (fun p => spared gone (snd p)) (agenda_of cs qs).
Proof.
  intros H. induction 1 as [|[t q] qs Hq Hqs IH]; simpl in *; [done|].
  rewrite List.filter_app, IH, (table_step_pending _ _ _ _ H Hq). f_equal.
  induction (pending cs q) as [|e es IHe]; simpl; [done|]. destruct (spared gone e); csimpl; by rewrite IHe.
Qed.

Lemma handles_filter (f : Z * Entry Task -> bool) a : NoDup (handles a) -> NoDup (handles (List.filter f a)).
Proof.
  intros Ha. eapply sublist_NoDup; [exact Ha|]. clear Ha. induction a as [|[t e] a IH]; simpl; [done|].
  destruct (f (t, e)); simpl; destruct (entry_cancellation e); first [done|by constructor].
Qed.

Lemma with_slots_ok s cs' gone : sched_ok s -> slots_ok cs' -> table_step (cancel_slots s) cs' gone ->
  sched_ok (with_slots s cs') /\ frame s (with_slots s cs') /\
  agenda (with_slots s cs') = List.filter (fun p => spared gone (snd p)) (agenda s).
Proof.
  intros Hok Hcs Hst.
  assert (agenda (with_slots s cs') = List.filter (fun p => spared gone (snd p)) (agenda s)) as Ha.
  { apply table_step_agenda; [done|]. apply (ok_contents s Hok). }
  split_and!; [|split; try done|done].
  - pose proof Hok as [H1 H2 H3 H4 H5 H6 H7 [C1 C2 C3]]. split; try done.
    + intros c Hc. pose proof (H7 c Hc) as [S1 S2 S3 S4 S5 S6 S7]. split; try done.
      intros t Ht. simpl. assert (target_ok t /\ future_target t = None) as [Ht1 Ht2].
      { destruct t; simpl in *; try done. split; [lia|done]. }
      rewrite (table_step_pending _ _ _ _ Hst (proj2 (slot_queue_entries s c t Hok Hc Ht1 Ht2))).
      by rewrite S7.
    + split; simpl; [done| |].
      * eapply Forall_impl; [exact C2|]. intros [t q] Hq. simpl in *. eapply Forall_impl; [exact Hq|].
        intros e He. by apply (table_step_entry (cancel_slots s) cs' gone e).
      * change (NoDup (handles (agenda (with_slots s cs')))). rewrite Ha. by apply handles_filter.
  - exists gone, []. split; simpl; [done| |constructor]. by rewrite Ha, app_nil_r.
Qed.

(** ** Adding an entry *)

(** [e] may join the agenda: it is well-formed and its handle is new there. *)
Definition fresh_entry s e : Prop :=
  entry_ok (cancel_slots s) e /\ forall id, entry_cancellation e = Some id -> id ∉ handles (agenda s).

(** The reference accepts entries. *)
Definition open_ref s (t : Target) : Prop :=
  valid_ref s t /\ (forall time, future_target t = Some time -> later s time) /\
  (forall c, current s = Some c -> ~ closed c t).

Definition placed cs e (t : Z) : list (Z * Entry Task) := if live cs e then [(t, e)] else [].

Lemma push_entry_ok s t e : sched_ok s -> open_ref s t -> fresh_entry s e ->
  sched_ok (push_entry s t e) /\ frame s (push_entry s t e) /\
  agenda (push_entry s t e) ≡ₚ placed (cancel_slots s) e (target_time s t) ++ agenda s.
Proof.
  intros Hok (Hv & Hl & Hc) [He Hf]. destruct (target_queue_entries s t Hok Hv) as [Hq Hh].
  destruct (push_spec (cancel_slots s) _ e Hq) as [Hq' Hp'].
  destruct (update_target_agenda s t (fun q => push (cancel_slots s) q e) Hok Hv) as (rest & A1 & A2).
  assert (agenda (push_entry s t e) ≡ₚ placed (cancel_slots s) e (target_time s t) ++ agenda s) as Ha.
  { unfold push_entry. rewrite A2, Hp', A1, fmap_app, <- app_assoc. unfold placed.
    by destruct (live (cancel_slots s) e). }
  split_and!; [| |done].
  - apply update_target_ok; try done.
    + intros c Ec Hcl. by destruct (Hc c Ec).
    + by apply push_held.
    + change (NoDup (handles (agenda (push_entry s t e)))). rewrite Ha, handles_app.
      apply NoDup_app. split_and!; [| |by apply Hok].
      * unfold placed. destruct (live _ e); [|constructor]. simpl.
        destruct (entry_cancellation e); repeat constructor; set_solver.
      * intros id Hid. apply Hf. unfold placed in Hid. destruct (live _ e); [|set_solver]. simpl in Hid.
        destruct (entry_cancellation e); set_solver.
  - destruct (update_target_fields s t (fun q => push (cancel_slots s) q e)) as (F1 & F2 & F3 & F4 & F5 & F6 & F7).
    fold (push_entry s t e) in *. split; try done; rewrite ?F5; try done; [lia|].
    exists (fun _ => false), (placed (cancel_slots s) e (target_time s t)). split.
    + rewrite F4. apply table_step_refl.
    + by rewrite spared_none, Ha, Permutation_app_comm.
    + unfold placed. destruct (live _ e); [|constructor]. repeat constructor. simpl. unfold target_time.
      destruct (future_target t) as [time|] eqn:Ef; simpl; [|lia]. specialize (Hl time eq_refl).
      unfold later in Hl. destruct (current s); lia.
Qed.

End invariant.
