(* ===== verification/SchedulerCalls.v ===== *)
(** * The scheduler's calls keep its invariant

    Specification of every call of SchedulerApi.v against the agenda of
    SchedulerInvariant.v: what it adds or removes, and that the invariant and
    the part of the state reserved to the dispatch loop are kept, whether the
    call returns or throws. *)
From stdpp Require Import sorting.
From S2P Require Import Prelude CancellationSlots WorkQueue SchedulerState SchedulerApi.
From S2P Require Import SchedulerInvariant.

Section calls.
Context {Task : Type}.
Abbreviation Sched := (Scheduler Task).
Abbreviation Act := (Act Task).
Implicit Types (s : Sched) (c : CurrentSlot Task) (b : Bucket Task) (q : WorkQueue Task) (e : Entry Task).
Implicit Types (cs : CancellationSlots Task).

(** [s'] is a good successor of [s] with [added] joining the agenda. *)
Record adds s s' (added : list (Z * Entry Task)) : Prop := {
  adds_ok : sched_ok s';
  adds_frame : frame s s';
  adds_agenda : agenda s' ≡ₚ added ++ agenda s;
}.

Lemma adds_refl s : sched_ok s -> adds s s [].
Proof. intros H. split; [done|apply frame_refl|done]. Qed.

Lemma adds_core s s' : sched_ok s -> same_core s s' ->
  in_run (status s') = in_run (status s) -> in_callback (status s') = in_callback (status s) ->
  callbacks (status s') = callbacks (status s) -> adds s s' [].
Proof.
  intros Hok Hc ? ? ?. split; [by eapply core_ok|by apply core_frame|]. by rewrite (core_agenda _ _ Hc).
Qed.

Lemma adds_trans s1 s2 s3 a1 a2 : adds s1 s2 a1 -> adds s2 s3 a2 -> adds s1 s3 (a2 ++ a1).
Proof.
  intros [O1 F1 A1] [O2 F2 A2]. split; [done|by eapply frame_trans|]. by rewrite A2, A1, app_assoc.
Qed.

Lemma push_entry_adds s t e : sched_ok s -> open_ref s t -> fresh_entry s e ->
  adds s (push_entry s t e) (placed (cancel_slots s) e (target_time s t)).
Proof. intros H1 H2 H3. destruct (push_entry_ok s t e H1 H2 H3) as (? & ? & ?). by split. Qed.

(** ** Where entries go *)

Lemma at_current_time_spec s time : sched_ok s ->
  match at_current_time s time with
  | Some c => current s = Some c /\ time = now s
  | None => now s <= time -> later s time
  end.
Proof.
  intros Hok. unfold at_current_time, later. destruct (current s) as [c|] eqn:Ec; [|done].
  pose proof (slot_ok_time s c (ok_current s Hok c Ec)) as Ht.
  destruct (Z.eqb_spec time (slot_time c)); [split; [done|lia]|lia].
Qed.

Lemma open_future s t time : future_target t = Some time -> target_ok t -> later s time -> open_ref s t.
Proof.
  intros Hf Ht Hl. split_and!; [split; [done|congruence]|congruence|]. intros c _. destruct t; simplify_eq/=; tauto.
Qed.

Lemma open_slot s t c : current s = Some c -> target_ok t -> future_target t = None -> ~ closed c t -> open_ref s t.
Proof.
  intros Hc Ht Hf Hn. split_and!; [split; [done|by rewrite Hc]|congruence|]. intros c' E.
  by replace c' with c by congruence.
Qed.

Lemma index_below i : i < phase_count -> index_ok i.
Proof. unfold phase_count, index_ok. lia. Qed.

Lemma reactive_twin_below phase : phase < phase_count -> reactive_twin phase < phase_count.
Proof.
  unfold reactive_twin, phase_count, re_inactive, re_update. repeat case_match; lia.
Qed.

Lemma bump_revision_adds s s' a : adds s s' a -> adds s (bump_revision s') a.
Proof.
  intros Ha. replace a with ([] ++ a) by done. eapply adds_trans; [exact Ha|].
  apply adds_core; try done. apply Ha.
Qed.

(** What a placement answers: the entry is on the agenda at its time, or the
    state is unchanged and an argument was invalid. *)
Definition enqueue_spec (time : Z) s e (m : Sched * (() + failure)) : Prop :=
  match m with
  | (s', inl _) => adds s s' (placed (cancel_slots s) e time)
  | (s', inr f) => s' = s
  end.

Lemma enqueue_at_spec time phase e adjust s : sched_ok s -> fresh_entry s e ->
  enqueue_spec time s e (enqueue_at time phase e adjust s).
Proof.
  intros Hok He. unfold enqueue_at. destruct (Z.ltb_spec time (now s)); [done|]. cbv zeta.
  set (p := match at_current_time s time with Some c => _ | None => _ end).
  pose proof (at_current_time_spec s time Hok) as Hat. unfold modify, throw. simpl.
  destruct (p =? postponed); [|destruct (Z.geb_spec p phase_count) as [|Hp]]; simpl.
  - destruct (at_current_time s time) as [c|]; [destruct Hat as [Hc ->]|].
    + apply push_entry_adds; [done|eapply open_slot; [done|done|done|simpl; tauto]|done].
    + apply (push_entry_adds s (AtFutureEnd time)); [done|by eapply open_future; [..|apply Hat]|done].
  - done.
  - destruct (at_current_time s time) as [c|]; [destruct Hat as [Hc ->]|]; simpl.
    + pose proof (slot_ok_phase s c (ok_current s Hok c Hc)) as Hph.
      destruct (Z.ltb_spec p (slot_phase c)); simpl.
      * apply (push_entry_adds s (AtNextDelta p)); [done| |done]. eapply open_slot; [done|by apply index_below|done|simpl; tauto].
      * assert (adds s (push_entry s (AtCurrent p) e) (placed (cancel_slots s) e (now s))) as Ha.
        { apply (push_entry_adds s (AtCurrent p)); [done| |done]. eapply open_slot; [done|simpl; lia|done|simpl; lia]. }
        destruct (p =? slot_phase c); [by apply bump_revision_adds|done].
    + apply (push_entry_adds s (AtFuture time p)); [done| |done].
      by eapply open_future; [|apply index_below|apply Hat].
Qed.

Lemma enqueue_next_delta_spec phase e s : sched_ok s -> fresh_entry s e ->
  enqueue_spec (now s) s e (enqueue_next_delta phase e s).
Proof.
  intros Hok He. unfold enqueue_next_delta, modify, throw.
  assert (current s = None -> later s (now s)) as Hl by (intros E; unfold later; rewrite E; lia).
  destruct (phase =? postponed); [|destruct (Z.geb_spec phase phase_count) as [|Hp]]; simpl; [|done|].
  - destruct (current s) as [c|] eqn:Hc.
    + apply push_entry_adds; [done|eapply open_slot; [done|done|done|simpl; tauto]|done].
    + apply (push_entry_adds s (AtFutureEnd (now s))); [done|by eapply open_future; [..|apply Hl]|done].
  - destruct (current s) as [c|] eqn:Hc.
    + apply (push_entry_adds s (AtNextDelta phase)); [done| |done].
      eapply open_slot; [done|by apply index_below|done|simpl; tauto].
    + apply (push_entry_adds s (AtFuture (now s) phase)); [done| |done].
      by eapply open_future; [|apply index_below|apply Hl].
Qed.

Lemma enqueue_systemverilog_at_spec time phase e s : sched_ok s -> fresh_entry s e ->
  enqueue_spec time s e (enqueue_systemverilog_at time phase e s).
Proof.
  intros Hok He. unfold enqueue_systemverilog_at, throw. destruct (Z.ltb_spec time (now s)); [done|].
  destruct (Z.geb_spec phase phase_count) as [|Hp]; [done|].
  pose proof (at_current_time_spec s time Hok) as Hat.
  destruct (at_current_time s time) as [c|]; [destruct Hat as [Hc ->]|]; cbv zeta.
  - set (p := match systemverilog_phase c with
              | Some x => if is_reactive_region x then reactive_twin phase else phase
              | None => phase end).
    assert (p < phase_count) as Hp'.
    { unfold p. destruct (systemverilog_phase c) as [x|]; [|lia].
      destruct (is_reactive_region x); [by apply reactive_twin_below|lia]. }
    assert (adds s (push_entry s (AtSystemVerilog p) e) (placed (cancel_slots s) e (now s))) as Ha.
    { apply (push_entry_adds s (AtSystemVerilog p)); [done| |done].
      eapply open_slot; [done|by apply index_below|done|simpl; tauto]. }
    destruct (systemverilog_phase c); [|done]. destruct (p =? _); [by apply bump_revision_adds|done].
  - apply (push_entry_adds s (AtFutureSystemVerilog time phase)); [done| |done].
    by eapply open_future; [|apply index_below|apply Hat].
Qed.
(** ** Making entries *)

Lemma fresh_plain s e : entry_cancellation e = None -> entry_task e <> SlotTask -> fresh_entry s e.
Proof. intros E Ht. split; [unfold entry_ok; by rewrite E|]. intros id. by rewrite E. Qed.

Lemma placed_plain cs e t : entry_cancellation e = None -> placed cs e t = [(t, e)].
Proof. intros E. unfold placed, live, is_cancelled. by rewrite E. Qed.

Lemma take_sequence_spec s : sched_ok s ->
  match take_sequence s with
  | (s', inl n) => n = next_sequence s /\ cancel_slots s' = cancel_slots s /\ now s' = now s /\ adds s s' []
  | (s', inr _) => s' = s
  end.
Proof.
  intros Hok. unfold take_sequence, throw. destruct (Z.eqb_spec (next_sequence s) U64_MAX); [done|].
  split_and!; try done. destruct Hok as [H1 H2 H3 H4 H5 H6 H7 H8].
  split; [|split; try done|done].
  - split; try done; simpl; [lia|]. intros c Hc. destruct (H7 c Hc) as []. by split.
  - simpl. lia.
  - do 2 eexists. by apply effect_same.
Qed.

(** An entry for a task, as [make_entry] and [make_internal_entry] build it. *)
Definition made s (K : Task -> EntryTask Task) (order : Z) (task : option Task) e : Prop :=
  exists t, task = Some t /\ e = mkEntry order (next_sequence s) (K t) None.

Lemma make_entry_spec s K order task x : sched_ok s -> (forall t, K t <> SlotTask) ->
  match (match task with
         | None => throw x
         | Some t => sequence ← take_sequence; mret (mkEntry order sequence (K t) None)
         end) s with
  | (s', inl e) => made s K order task e /\ cancel_slots s' = cancel_slots s /\ now s' = now s /\
      adds s s' [] /\ fresh_entry s' e
  | (s', inr _) => s' = s
  end.
Proof.
  intros Hok HK. destruct task as [t|]; [|done]. unfold mbind, act_bind, mret, act_ret.
  pose proof (take_sequence_spec s Hok) as Ht. destruct (take_sequence s) as [s' [n|]]; [|done].
  destruct Ht as (-> & E1 & E2 & Ha). split_and!; try done; [by exists t|]. apply fresh_plain; [done|apply HK].
Qed.

(** ** Outcomes of a call *)

Definition call_spec {A} s (m : Sched * (A + failure)) (Q : A -> Sched -> list (Z * Entry Task) -> Prop) : Prop :=
  match m with
  | (s', inl a) => exists added, adds s s' added /\ Q a s' added
  | (s', inr _) => adds s s' []
  end.

Lemma call_throw {A} s x (Q : A -> _ -> _ -> Prop) : sched_ok s -> call_spec s (throw x s) Q.
Proof. by apply adds_refl. Qed.

Lemma call_mono {A} s (m : Sched * (A + failure)) (P Q : A -> _ -> _ -> Prop) :
  (forall a s' l, P a s' l -> Q a s' l) -> call_spec s m P -> call_spec s m Q.
Proof. intros H. destruct m as [s' [a|]]; [|done]. intros (l & Ha & HP). exists l. auto. Qed.

(** A call on a scheduler that is being discarded does nothing. *)
Lemma call_unless_discarding {A} s (a : A) m (Q : A -> _ -> _ -> Prop) :
  sched_ok s -> (discarding (status s) = true -> Q a s []) ->
  (discarding (status s) = false -> call_spec s (m s) Q) ->
  call_spec s (unless_discarding a m s) Q.
Proof.
  intros Hok H1 H2. unfold unless_discarding. destruct (discarding (status s)); [|by apply H2].
  exists []. split; [by apply adds_refl|by apply H1].
Qed.

(** One entry joined, or none when the scheduler discards. *)
Definition joined {A} s K order (task : option Task) time : A -> Sched -> list (Z * Entry Task) -> Prop :=
  fun _ _ added =>
    if discarding (status s) then added = []
    else exists e, made s K order task e /\ added = [(time, e)].

Lemma make_then s K order task x (enqueue : Entry Task -> Act ()) time :
  sched_ok s -> discarding (status s) = false -> (forall t, K t <> SlotTask) ->
  (forall s' e, sched_ok s' -> frame s s' -> fresh_entry s' e -> enqueue_spec time s' e (enqueue e s')) ->
  call_spec s ((e ← match task with
                | None => throw x
                | Some t => sequence ← take_sequence; mret (mkEntry order sequence (K t) None)
                end; enqueue e) s) (joined s K order task time).
Proof.
  intros Hok Hd HK Henq. pose proof (make_entry_spec s K order task x Hok HK) as Hm.
  unfold mbind at 1. unfold act_bind at 1.
  destruct ((match task with None => throw x | Some t => _ end) s) as [s1 [e|]].
  - destruct Hm as ((t & -> & ->) & Ecs & En & Ha & Hf).
    specialize (Henq s1 _ (adds_ok _ _ _ Ha) (adds_frame _ _ _ Ha) Hf).
    destruct (enqueue _ s1) as [s2 [[]|]].
    + simpl in Henq. rewrite placed_plain in Henq by done. simpl. eexists. split; [by eapply adds_trans|].
      unfold joined. rewrite Hd. eexists. split; [by eexists|]. done.
    + simpl in Henq. subst. done.
  - subst. by apply adds_refl.
Qed.

Lemma callback_task (t : Task) : CallbackTask t <> SlotTask.
Proof. done. Qed.
Lemma descriptor_task (t : Task) : DescriptorTask t <> SlotTask.
Proof. done. Qed.

Lemma joined_discarding {A} s K order task time (a : A) s' :
  discarding (status s) = true -> joined s K order task time a s' [].
Proof. unfold joined. by intros ->. Qed.

Lemma schedule_at_spec s time phase order task : sched_ok s ->
  call_spec s (schedule_at time phase order task s) (joined s CallbackTask order task time).
Proof.
  intros Hok. apply call_unless_discarding; [done|apply joined_discarding|]. intros Hd.
  destruct (time <? now s); [by apply call_throw|]. apply make_then; auto using callback_task.
  intros s' e Hs' _ He. by apply enqueue_at_spec.
Qed.

Lemma schedule_internal_at_spec s time phase order task : sched_ok s ->
  call_spec s (schedule_internal_at time phase order task s) (joined s DescriptorTask order task time).
Proof.
  intros Hok. apply call_unless_discarding; [done|apply joined_discarding|]. intros Hd.
  destruct (time <? now s); [by apply call_throw|]. apply make_then; auto using descriptor_task.
  intros s' e Hs' _ He. by apply enqueue_at_spec.
Qed.

Lemma schedule_after_spec s delay phase order task : sched_ok s ->
  call_spec s (schedule_after delay phase order task s) (joined s CallbackTask order task (now s + delay)).
Proof.
  intros Hok. apply call_unless_discarding; [done|apply joined_discarding|]. intros Hd.
  destruct (past_limit delay s); [by apply call_throw|]. by apply schedule_at_spec.
Qed.

Lemma schedule_next_delta_spec s phase order task : sched_ok s ->
  call_spec s (schedule_next_delta phase order task s) (joined s CallbackTask order task (now s)).
Proof.
  intros Hok. apply call_unless_discarding; [done|apply joined_discarding|]. intros Hd.
  apply make_then; auto using callback_task.
  intros s' e Hs' Hf He. rewrite <- (frame_now _ _ Hf). by apply enqueue_next_delta_spec.
Qed.

Lemma schedule_internal_next_delta_spec s phase order task : sched_ok s ->
  call_spec s (schedule_internal_next_delta phase order task s) (joined s DescriptorTask order task (now s)).
Proof.
  intros Hok. apply call_unless_discarding; [done|apply joined_discarding|]. intros Hd.
  apply make_then; auto using descriptor_task.
  intros s' e Hs' Hf He. rewrite <- (frame_now _ _ Hf). by apply enqueue_next_delta_spec.
Qed.

Lemma schedule_systemverilog_at_spec s time phase order task : sched_ok s ->
  call_spec s (schedule_systemverilog_at time phase order task s) (joined s CallbackTask order task time).
Proof.
  intros Hok. apply call_unless_discarding; [done|apply joined_discarding|]. intros Hd.
  apply make_then; auto using callback_task. intros s' e Hs' _ He. by apply enqueue_systemverilog_at_spec.
Qed.

Lemma schedule_systemverilog_after_spec s delay phase order task : sched_ok s ->
  call_spec s (schedule_systemverilog_after delay phase order task s)
    (joined s CallbackTask order task (now s + delay)).
Proof.
  intros Hok. apply call_unless_discarding; [done|apply joined_discarding|]. intros Hd.
  destruct (past_limit delay s); [by apply call_throw|]. by apply schedule_systemverilog_at_spec.
Qed.

Lemma schedule_internal_systemverilog_at_spec s time phase order task : sched_ok s ->
  call_spec s (schedule_internal_systemverilog_at time phase order task s)
    (joined s DescriptorTask order task time).
Proof.
  intros Hok. apply call_unless_discarding; [done|apply joined_discarding|]. intros Hd.
  apply make_then; auto using descriptor_task. intros s' e Hs' _ He. by apply enqueue_systemverilog_at_spec.
Qed.

Lemma slot_ref_spec s t e c : sched_ok s -> fresh_entry s e -> current s = Some c ->
  target_ok t -> future_target t = None -> ~ closed c t ->
  enqueue_spec (now s) s e (modify (fun s => push_entry s t e) s).
Proof.
  intros Hok He Hc Ht Hf Hn. simpl. replace (now s) with (target_time s t) by (unfold target_time; by rewrite Hf).
  apply push_entry_adds; [done|by eapply open_slot|done].
Qed.

Lemma schedule_end_of_time_slot_spec s order task : sched_ok s ->
  call_spec s (schedule_end_of_time_slot order task s) (joined s CallbackTask order task (now s)).
Proof.
  intros Hok. apply call_unless_discarding; [done|apply joined_discarding|]. intros Hd.
  apply make_then; auto using callback_task. intros s' e Hs' Hf He. rewrite <- (frame_now _ _ Hf).
  destruct (current s') as [c|] eqn:Hc; unfold modify; rewrite Hc.
  - apply (slot_ref_spec s' AtEndOfSlot e c); try done. simpl. tauto.
  - apply (push_entry_adds s' (AtFutureEnd (now s'))); [done| |done].
    eapply open_future; [done|done|]. unfold later. rewrite Hc. lia.
Qed.

Lemma frame_current s s' c : frame s s' -> current s = Some c ->
  exists c', current s' = Some c' /\ slot_header c' = slot_header c.
Proof.
  intros Hf Hc. pose proof (frame_slot _ _ Hf) as E. rewrite Hc in E.
  destruct (current s') as [c'|]; [|done]. exists c'. split; [done|]. by apply (inj Some) in E.
Qed.

Lemma schedule_internal_systemverilog_running_active_spec s order task : sched_ok s ->
  call_spec s (schedule_internal_systemverilog_running_active order task s)
    (joined s DescriptorTask order task (now s)).
Proof.
  intros Hok. apply call_unless_discarding; [done|apply joined_discarding|]. intros Hd.
  destruct (current s) as [c|] eqn:Hc; [|by apply schedule_internal_systemverilog_at_spec].
  case_bool_decide as Hp; [|by apply schedule_internal_systemverilog_at_spec].
  apply make_then; auto using descriptor_task. intros s' e Hs' Hf He. rewrite <- (frame_now _ _ Hf).
  destruct (frame_current s s' c Hf Hc) as (c' & Hc' & Hh).
  apply (slot_ref_spec s' AtRunning e c'); try done. simpl. unfold slot_header in Hh. congruence.
Qed.

(** ** Reserved keys *)

Lemma reserve_order_key_spec s order : sched_ok s ->
  call_spec s (reserve_order_key order s) (fun key _ added =>
    added = [] /\ key = mkSchedulerOrderKey order (next_sequence s) true (reservation_epoch s)).
Proof.
  intros Hok. unfold reserve_order_key, mbind, act_bind, get, mret, act_ret.
  pose proof (take_sequence_spec s Hok) as Ht. destruct (take_sequence s) as [s' [n|]].
  - destruct Ht as (-> & _ & _ & Ha). by exists [].
  - subst. by apply adds_refl.
Qed.

(** The entry a reservation makes. *)
Definition reserved_entry (key : SchedulerOrderKey) (t : Task) : Entry Task :=
  mkEntry (key_order key) (key_sequence key) (CallbackTask t) None.

Definition joined_reserved {A} s (key : SchedulerOrderKey) (task : option Task)
    : A -> Sched -> list (Z * Entry Task) -> Prop :=
  fun _ _ added =>
    if discarding (status s) then added = []
    else exists t, task = Some t /\ valid_key s key = true /\ added = [(now s, reserved_entry key t)].

Lemma enqueue_reserved s key t m : sched_ok s -> discarding (status s) = false -> valid_key s key = true ->
  enqueue_spec (now s) s (reserved_entry key t) m -> call_spec s m (joined_reserved s key (Some t)).
Proof.
  intros Hok Hd Hk Hs. destruct m as [s' [[]|]]; simpl in *.
  - rewrite placed_plain in Hs by done. eexists. split; [done|]. unfold joined_reserved. rewrite Hd. by exists t.
  - subst. by apply adds_refl.
Qed.

Lemma schedule_reserved_next_delta_spec s phase key task : sched_ok s ->
  call_spec s (schedule_reserved_next_delta phase key task s) (joined_reserved s key task).
Proof.
  intros Hok. apply call_unless_discarding; [done|unfold joined_reserved; by intros ->|]. intros Hd.
  destruct task as [t|]; [|by apply call_throw].
  destruct (valid_key s key) eqn:Hk; cbn [negb]; [|by apply call_throw].
  apply enqueue_reserved; try done. apply enqueue_next_delta_spec; [done|by apply fresh_plain].
Qed.

Lemma schedule_reserved_current_spec s phase key task : sched_ok s ->
  call_spec s (schedule_reserved_current phase key task s) (joined_reserved s key task).
Proof.
  intros Hok. apply call_unless_discarding; [done|unfold joined_reserved; by intros ->|]. intros Hd.
  destruct (in_its_phase s phase); cbn [negb]; [|by apply call_throw].
  destruct task as [t|]; [|by apply call_throw].
  destruct (valid_key s key) eqn:Hk; cbn [negb]; [|by apply call_throw].
  apply enqueue_reserved; try done. apply enqueue_at_spec; [done|by apply fresh_plain].
Qed.

(** ** Cancelable tasks *)

Lemma issued_handles s id : sched_ok s -> id ∈ handles (agenda s) -> issued (cancel_slots s) id.
Proof.
  intros [_ _ _ _ _ _ _ [_ C2 _]] Hin. unfold handles in Hin.
  apply list_elem_of_omap in Hin as ([t e] & Hin & He). simpl in He.
  unfold agenda, agenda_of in Hin. apply list_elem_of_bind in Hin as ([t' q] & Hin & Hq).
  apply list_elem_of_fmap in Hin as (e' & [= <- <-] & Hin). simpl in Hin.
  rewrite Forall_forall in C2. specialize (C2 _ Hq). simpl in C2. rewrite Forall_forall in C2.
  apply list_elem_of_In, filter_In in Hin as [Hin _]. apply list_elem_of_In in Hin.
  specialize (C2 _ Hin). unfold entry_ok in C2. rewrite He in C2. apply C2.
Qed.

(** The task is stored under a new live handle. *)
Lemma acquire_slot_spec s task : sched_ok s ->
  match acquire_slot task s with
  | (s', inl id) => adds s s' [] /\ now s' = now s /\ ~ issued (cancel_slots s) id /\
      slot_live (cancel_slots s') id = true /\ stored (cancel_slots s') id = Some task /\
      forall order sequence, fresh_entry s' (mkEntry order sequence SlotTask (Some id))
  | (s', inr _) => s' = s
  end.
Proof.
  intros Hok. unfold acquire_slot, throw. destruct (Z.geb_spec (size (slots_ (cancel_slots s))) U64_MAX); [done|].
  pose proof (table_step_acquire (cancel_slots s) task (ok_slots s Hok) ltac:(done)) as Hst.
  pose proof (acquire_ok (cancel_slots s) (Some task) (ok_slots s Hok) ltac:(done)) as Hcs.
  pose proof (acquire_spec (cancel_slots s) (Some task) (ok_slots s Hok)) as Hsp.
  destruct (acquire (cancel_slots s) (Some task)) as [cs' id]. simpl in Hst, Hcs.
  destruct Hsp as (Hni & His & Hl & (slot & Hs & Ht) & _).
  destruct (with_slots_ok s cs' _ Hok Hcs Hst) as (O & F & A). rewrite spared_none in A.
  assert (stored cs' id = Some task) as Hstored by (unfold stored; by rewrite Hs).
  split_and!; try done; [split; [done|done|by rewrite A]|]. intros order sequence. split.
  - split; [done|]. intros _. simpl. by rewrite Hstored.
  - simpl. intros id' [= <-]. rewrite A. intros Hin. by apply Hni, issued_handles.
Qed.

Lemma release_new s id : sched_ok s -> id ∉ handles (agenda s) ->
  adds s (with_slots s (release (cancel_slots s) id)) [].
Proof.
  intros Hok Hid.
  destruct (with_slots_ok s _ _ Hok (release_ok _ id (ok_slots s Hok)) (table_step_release _ id (ok_slots s Hok)))
    as (O & F & A).
  split; [done|done|]. rewrite A. simpl. rewrite filter_all; [done|]. clear -Hid.
  induction (agenda s) as [|[t e] a IH]; simpl in *; [done|]. unfold spared at 1, just. simpl.
  destruct (entry_cancellation e) as [id'|]; simpl; [|by apply IH].
  rewrite bool_decide_false by set_solver. apply IH. set_solver.
Qed.

(** The entry of a handle joined at [time]. *)
Definition joined_cancelable s order sequence (task : Task) time
    : ScheduledTaskHandle -> Sched -> list (Z * Entry Task) -> Prop :=
  fun h s' added =>
    exists id, h = Some id /\ ~ issued (cancel_slots s) id /\
      slot_live (cancel_slots s') id = true /\ stored (cancel_slots s') id = Some task /\
      added = [(time, mkEntry order sequence SlotTask (Some id))].

Lemma place_cancelable_spec s order sequence task enqueue time : sched_ok s ->
  (forall s' e, sched_ok s' -> now s' = now s -> fresh_entry s' e -> enqueue_spec time s' e (enqueue e s')) ->
  call_spec s (place_cancelable order sequence task enqueue s) (joined_cancelable s order sequence task time).
Proof.
  intros Hok Henq. unfold place_cancelable. unfold mbind at 1. unfold act_bind at 1.
  pose proof (acquire_slot_spec s task Hok) as Hacq. destruct (acquire_slot task s) as [s1 [id|]];
    [|subst; by apply adds_refl].
  destruct Hacq as (Ha & En & Hni & Hl & Hst & Hf). specialize (Hf order sequence).
  specialize (Henq s1 _ (adds_ok _ _ _ Ha) En Hf).
  unfold mbind, act_bind, mret, act_ret, or_release. destruct (enqueue _ s1) as [s2 [[]|x]]; simpl in *.
  - assert (placed (cancel_slots s1) (mkEntry order sequence SlotTask (Some id)) time
      = [(time, mkEntry order sequence SlotTask (Some id))]) as E.
    { unfold placed, live, is_cancelled. simpl. by rewrite Hl. }
    rewrite E in Henq. eexists. split; [by eapply adds_trans|]. exists id.
    assert (issued (cancel_slots s1) id) as Hi by apply Hf.
    destruct (frame_effect _ _ (adds_frame _ _ _ Henq)) as (gone & added & [Htab Hag Had]).
    assert (slot_live (cancel_slots s2) id = true) as Hl2.
    { destruct Henq as [[_ _ _ _ _ _ _ [C1 C2 C3]] _ A2].
      assert ((time, mkEntry order sequence SlotTask (Some id)) ∈ agenda s2) as Hin by (rewrite A2; set_solver).
      unfold agenda, agenda_of in Hin. apply list_elem_of_bind in Hin as ([t' q] & Hin & Hq).
      apply list_elem_of_fmap in Hin as (e' & [= <- <-] & Hin).
      apply list_elem_of_In, filter_In in Hin as [_ Hin]. unfold live, is_cancelled in Hin. simpl in Hin.
      by rewrite negb_involutive in Hin. }
    split_and!; try done. by rewrite (proj2 (proj2 (Htab id Hi)) Hl2).
  - subst s2. change ([] : list (Z * Entry Task)) with ([] ++ [] : list (Z * Entry Task)).
    eapply adds_trans; [exact Ha|]. apply release_new; [apply Ha|]. by apply (proj2 Hf id).
Qed.

Definition no_handle {A} : ScheduledTaskHandle -> A -> list (Z * Entry Task) -> Prop :=
  fun h _ added => h = None /\ added = [].

(** The cancelable calls: nothing while discarding, else a new handle. *)
Definition joined_handle s order sequence (task : option Task) time
    : ScheduledTaskHandle -> Sched -> list (Z * Entry Task) -> Prop :=
  fun h s' added =>
    if discarding (status s) then no_handle h s' added
    else exists t, task = Some t /\ joined_cancelable s order sequence t time h s' added.

Lemma joined_handle_discarding s order sequence task time : discarding (status s) = true ->
  joined_handle s order sequence task time None s [].
Proof. unfold joined_handle. by intros ->. Qed.

Lemma joined_handle_place s order sequence t time h s' added : discarding (status s) = false ->
  joined_cancelable s order sequence t time h s' added ->
  joined_handle s order sequence (Some t) time h s' added.
Proof. intros Hd H. unfold joined_handle. rewrite Hd. by exists t. Qed.

(** A fresh sequence number, then the placement. *)
Lemma sequence_then_place s order t enqueue time : sched_ok s -> discarding (status s) = false ->
  (forall s' e, sched_ok s' -> now s' = now s -> fresh_entry s' e -> enqueue_spec time s' e (enqueue e s')) ->
  call_spec s ((sequence ← take_sequence; place_cancelable order sequence t enqueue) s)
    (joined_handle s order (next_sequence s) (Some t) time).
Proof.
  intros Hok Hd Henq. unfold mbind at 1. unfold act_bind at 1.
  pose proof (take_sequence_spec s Hok) as Ht. destruct (take_sequence s) as [s1 [n|]];
    [|subst; by apply adds_refl].
  destruct Ht as (-> & Ecs & En & Ha).
  pose proof (place_cancelable_spec s1 order (next_sequence s) t enqueue time (adds_ok _ _ _ Ha)) as Hp.
  specialize (Hp (fun s' e H1 H2 H3 => Henq s' e H1 (eq_trans H2 En) H3)).
  destruct (place_cancelable _ _ _ _ s1) as [s2 [h|]]; simpl in *.
  - destruct Hp as (added & Ha2 & Hj). exists added. split.
    + rewrite <- (app_nil_r added). by eapply adds_trans.
    + apply joined_handle_place; [done|]. unfold joined_cancelable in *. by rewrite <- Ecs.
  - replace ([] : list (Z * Entry Task)) with ([] ++ [] : list (Z * Entry Task)) by done. by eapply adds_trans.
Qed.

Lemma schedule_after_cancelable_spec s delay phase order task : sched_ok s ->
  call_spec s (schedule_after_cancelable delay phase order task s)
    (joined_handle s order (next_sequence s) task (now s + delay)).
Proof.
  intros Hok. apply call_unless_discarding; [done|apply joined_handle_discarding|]. intros Hd.
  destruct (past_limit delay s); [by apply call_throw|]. cbv zeta.
  destruct (phase >=? phase_count); [by apply call_throw|]. destruct task as [t|]; [|by apply call_throw].
  apply sequence_then_place; [done|done|]. intros s' e Hs' _ He. by apply enqueue_at_spec.
Qed.

Lemma schedule_systemverilog_after_cancelable_spec s delay phase order task : sched_ok s ->
  call_spec s (schedule_systemverilog_after_cancelable delay phase order task s)
    (joined_handle s order (next_sequence s) task (now s + delay)).
Proof.
  intros Hok. apply call_unless_discarding; [done|apply joined_handle_discarding|]. intros Hd.
  destruct (past_limit delay s); [by apply call_throw|].
  destruct (phase >=? phase_count); [by apply call_throw|]. destruct task as [t|]; [|by apply call_throw].
  apply sequence_then_place; [done|done|]. intros s' e Hs' <- He. by apply enqueue_systemverilog_at_spec.
Qed.

Lemma schedule_reserved_next_delta_cancelable_spec s phase key task : sched_ok s ->
  call_spec s (schedule_reserved_next_delta_cancelable phase key task s)
    (joined_handle s (key_order key) (key_sequence key) task (now s)).
Proof.
  intros Hok. apply call_unless_discarding; [done|apply joined_handle_discarding|]. intros Hd.
  destruct task as [t|]; [|by apply call_throw]. destruct (valid_key s key); cbn [negb]; [|by apply call_throw].
  eapply call_mono; [intros a s' l; by apply joined_handle_place|].
  apply place_cancelable_spec; [done|]. intros s' e Hs' <- He. by apply enqueue_next_delta_spec.
Qed.

Lemma schedule_reserved_current_cancelable_spec s phase key task : sched_ok s ->
  call_spec s (schedule_reserved_current_cancelable phase key task s)
    (joined_handle s (key_order key) (key_sequence key) task (now s)).
Proof.
  intros Hok. apply call_unless_discarding; [done|apply joined_handle_discarding|]. intros Hd.
  destruct (in_its_phase s phase); cbn [negb]; [|by apply call_throw].
  destruct task as [t|]; [|by apply call_throw]. destruct (valid_key s key); cbn [negb]; [|by apply call_throw].
  eapply call_mono; [intros a s' l; by apply joined_handle_place|].
  apply place_cancelable_spec; [done|]. intros s' e Hs' _ He. by apply enqueue_at_spec.
Qed.

(** ** Reordering a queue without changing what it holds *)

Lemma update_target_same s t f : sched_ok s -> valid_ref s t -> future_target t = None ->
  (forall q, queue_ok q -> queue_ok (f q) /\ pending (cancel_slots s) (f q) ≡ₚ pending (cancel_slots s) q) ->
  (forall P q, queue_ok q -> Forall P (held q) -> Forall P (held (f q))) ->
  adds s (update_target s t f) [].
Proof.
  intros Hok Hv Hft Hf Hh. destruct (target_queue_entries s t Hok Hv) as [Hq He].
  destruct (Hf _ Hq) as [Hq' Hp']. destruct (update_target_agenda s t f Hok Hv) as (rest & A1 & A2).
  assert (agenda (update_target s t f) ≡ₚ agenda s) as Ha by by rewrite A2, A1, Hp'.
  destruct (update_target_fields s t f) as (F1 & F2 & F3 & F4 & F5 & F6 & F7). split; [| |done].
  - apply update_target_ok; try done; [congruence| |by apply Hh|].
    + intros c Hc Hcl. apply Permutation_nil. rewrite Hp'. unfold target_queue. rewrite Hft, Hc.
      by rewrite (slot_ok_closed s c (ok_current s Hok c Hc)).
    + rewrite Ha. apply Hok.
  - split; try done; rewrite ?F5; try done; [lia|]. do 2 eexists. by apply effect_same.
Qed.

Lemma next_current_order_key_spec s : sched_ok s ->
  call_spec s (next_current_order_key s) (fun _ _ added => added = []).
Proof.
  intros Hok. unfold next_current_order_key, throw. destruct (in_ordinary_callback s) as [c|] eqn:Hc; [|by apply adds_refl].
  assert (current s = Some c /\ slot_phase c < phase_count) as [Ec Hp].
  { unfold in_ordinary_callback in Hc. destruct (negb _); [done|]. destruct (current s) as [c0|]; [|done].
    destruct (bool_decide _ || _ || (slot_phase c0 >=? phase_count)) eqn:E; [done|]. injection Hc as <-.
    apply orb_false_iff in E as [_ E]. destruct (Z.geb_spec (slot_phase c0) phase_count); [done|]. by split. }
  pose proof (slot_ok_phase s c (ok_current s Hok c Ec)).
  destruct (next _ _) as [q found]. exists []. split; [|done].
  apply (update_target_same s (AtCurrent (slot_phase c))); [done|split; [simpl; lia|by rewrite Ec]|done|..].
  - intros q' Hq'. by apply next_spec.
  - intros P q' Hq'. by apply next_held.
Qed.

(** ** Dropping cancelled entries everywhere *)

Lemma agenda_of_map cs f (qs : list (Z * WorkQueue Task)) :
  (forall q, queue_ok q -> pending cs (f q) ≡ₚ pending cs q) ->
  Forall (fun p => queue_ok (snd p)) qs ->
  agenda_of cs ((fun p => (fst p, f (snd p))) <$> qs) ≡ₚ agenda_of cs qs.
Proof.
  intros Hf. induction 1 as [|[t q] qs Hq Hqs IH]; simpl in *; [done|]. by rewrite IH, Hf.
Qed.

Lemma future_slot_empty_pending cs (f : FutureSlot Task) : Forall queue_ok (future_slot_queues f) ->
  future_slot_empty cs f = true -> Forall (fun q => pending cs q = []) (future_slot_queues f).
Proof.
  intros Hq He. unfold future_slot_queues, future_slot_empty, bucket_empty in *.
  rewrite !andb_true_iff in He. destruct He as [[H1 H2] H3]. rewrite !Forall_app in Hq |- *.
  destruct Hq as (Q1 & Q2 & Q3).
  assert (forall b, Forall queue_ok b -> forallb (queue_empty cs) b = true -> Forall (fun q => pending cs q = []) b) as H.
  { intros b. induction 1 as [|q b Hq Hb IH]; simpl; [constructor|]. intros [E1 E2]%andb_true_iff.
    constructor; [by apply queue_empty_spec|by apply IH]. }
  split_and!; [by apply H|by apply H|]. apply H; [done|]. simpl. by rewrite H3.
Qed.

Lemma agenda_of_pending_nil cs t (l : list (WorkQueue Task)) :
  Forall (fun q => pending cs q = []) l -> agenda_of cs ((fun q => (t, q)) <$> l) = [].
Proof.
  induction 1 as [|q l Hq Hl IH]; [done|]. unfold agenda_of in *. csimpl. by rewrite Hq, IH.
Qed.

Lemma queues_of_cons t f (l : list (Z * FutureSlot Task)) :
  queues_of ((t, f) :: l) = ((fun q => (t, q)) <$> future_slot_queues f) ++ queues_of l.
Proof. done. Qed.

(** Removing empty slots of the future leaves the agenda. *)
Lemma agenda_drop_slots cs (keep : Z * FutureSlot Task -> bool) l :
  Forall (fun p => queue_ok (snd p)) (queues_of l) ->
  (forall p, p ∈ l -> keep p = false -> future_slot_empty cs (snd p) = true) ->
  agenda_of cs (queues_of (List.filter keep l)) = agenda_of cs (queues_of l).
Proof.
  intros Hq Hk. induction l as [|[t f] l IH]; [done|].
  rewrite queues_of_cons in Hq. apply Forall_app in Hq as [Hq1 Hq2]. rewrite Forall_fmap in Hq1.
  specialize (IH Hq2 (fun p Hp => Hk p ltac:(set_solver))).
  cbn [List.filter]. destruct (keep (t, f)) eqn:Ek; rewrite ?queues_of_cons, ?agenda_of_app, IH; [done|].
  rewrite (agenda_of_pending_nil cs t); [done|]. apply future_slot_empty_pending; [done|].
  apply (Hk (t, f)); [set_solver|done].
Qed.

Lemma queues_of_filter (P : Z * WorkQueue Task -> Prop) keep l :
  Forall P (queues_of l) -> Forall P (queues_of (List.filter keep l)).
Proof.
  induction l as [|[t f] l IH]; [done|]. rewrite queues_of_cons. intros [H1 H2]%Forall_app. cbn [List.filter].
  destruct (keep (t, f)); rewrite ?queues_of_cons; [apply Forall_app; split; [done|]|]; by apply IH.
Qed.

Lemma keys_filter (P : Z -> Prop) (keep : Z * FutureSlot Task -> bool) l :
  Forall P (fst <$> l) -> Forall P (fst <$> List.filter keep l).
Proof.
  induction l as [|[t f] l IH]; [done|]. csimpl. intros H. inversion H; subst.
  destruct (keep (t, f)); csimpl; [constructor|]; auto.
Qed.

Lemma keys_sorted_filter (keep : Z * FutureSlot Task -> bool) l :
  StronglySorted Z.lt (fst <$> l) -> StronglySorted Z.lt (fst <$> List.filter keep l).
Proof.
  induction l as [|[t f] l IH]; [done|]. csimpl. intros H. inversion H; subst.
  destruct (keep (t, f)); csimpl; [constructor; [auto|by apply keys_filter]|auto].
Qed.

(** [s'] keeps the slots of [s] with [compact] applied to every queue, and
    may drop empty future slots. *)
Lemma queues_of_compact cs l :
  queues_of ((fun '(t, f) => (t, future_slot_compact cs f)) <$> l)
  = (fun p => (fst p, compact cs (snd p))) <$> queues_of l.
Proof.
  induction l as [|[t f] l IH]; [done|]. rewrite fmap_cons, !queues_of_cons, fmap_app, IH. f_equal.
  replace (future_slot_queues (future_slot_compact cs f)) with (compact cs <$> future_slot_queues f)
    by (unfold future_slot_queues; by rewrite !fmap_app).
  by rewrite <- !list_fmap_compose.
Qed.

Lemma slot_queues_compact cs c : slot_queues (slot_compact cs c) = compact cs <$> slot_queues c.
Proof. unfold slot_queues, bucket_compact. simpl. by rewrite !fmap_app. Qed.

Lemma slot_queue_compact cs c t : pending cs (slot_queue c t) = [] -> queue_ok (slot_queue c t) ->
  pending cs (slot_queue (slot_compact cs c) t) = [].
Proof.
  intros Hp Hq. assert (slot_queue (slot_compact cs c) t = compact cs (slot_queue c t) \/
    slot_queue (slot_compact cs c) t = empty_queue) as [->| ->]; [|apply Permutation_nil|done].
  - assert (forall b i, queue_at (bucket_compact cs b) i = compact cs (queue_at b i) \/
      queue_at (bucket_compact cs b) i = empty_queue) as Hb.
    { intros b i. unfold queue_at, bucket_compact. rewrite list_lookup_fmap. destruct (b !! _); simpl; auto. }
    destruct t; simpl; auto.
  - by rewrite (proj2 (compact_spec cs _ Hq)), Hp.
Qed.

Lemma bucket_compact_shape cs b : bucket_shape b -> bucket_shape (bucket_compact cs b).
Proof. unfold bucket_shape, bucket_compact. by rewrite length_fmap. Qed.

Lemma compact_everything s keep : sched_ok s ->
  (forall p, keep p = false -> future_slot_empty (cancel_slots s) (snd p) = true) ->
  let compacted := (fun '(t, f) => (t, future_slot_compact (cancel_slots s) f)) <$> future s in
  adds s (with_queues s (List.filter keep compacted) (slot_compact (cancel_slots s) <$> current s)) [].
Proof.
  intros Hok Hk compacted. pose proof Hok as [H1 H2 H3 H4 H5 H6 H7 [C1 C2 C3]]. set (cs := cancel_slots s) in *.
  set (s' := with_queues _ _ _).
  set (cur := match current s with Some c => (fun q => (slot_time c, q)) <$> slot_queues c | None => [] end).
  assert (match current s' with Some c => (fun q => (slot_time c, q)) <$> slot_queues c | None => [] end
    = (fun p => (fst p, compact cs (snd p))) <$> cur) as Ecur.
  { unfold s', cur. simpl. destruct (current s) as [c|]; simpl; [|done].
    rewrite slot_queues_compact, <- !list_fmap_compose. done. }
  assert (all_queues s = cur ++ queues_of (future s)) as Eall by done. rewrite Eall in C1, C2, C3.
  apply Forall_app in C1 as [Q1 Q2]. apply Forall_app in C2 as [E1 E2].
  assert (forall P : Z * WorkQueue Task -> Prop, Forall P ((fun p => (fst p, compact cs (snd p))) <$> cur) ->
    Forall P ((fun p => (fst p, compact cs (snd p))) <$> queues_of (future s)) -> Forall P (all_queues s')) as Hall.
  { intros P HP1 HP2. rewrite all_queues_eq, Ecur. apply Forall_app. split; [done|].
    unfold s'. simpl. apply queues_of_filter. unfold compacted. by rewrite queues_of_compact. }
  assert (Forall (fun p => queue_ok (snd p)) ((fun p => (fst p, compact cs (snd p))) <$> queues_of (future s))) as Q2'.
  { rewrite Forall_fmap. eapply Forall_impl; [exact Q2|]. intros p Hp. by apply compact_spec. }
  assert (agenda s' ≡ₚ agenda s) as Ha.
  { unfold agenda. rewrite (all_queues_eq s'), Ecur, Eall, !agenda_of_app. f_equiv.
    - apply agenda_of_map; [intros q Hq; by apply compact_spec|done].
    - unfold s'. simpl. fold cs. rewrite agenda_drop_slots; unfold compacted; rewrite ?queues_of_compact; [|done|by auto].
      apply agenda_of_map; [intros q Hq; by apply compact_spec|done]. }
  assert (fst <$> compacted = fst <$> future s) as Ekeys.
  { unfold compacted. rewrite <- list_fmap_compose. apply list_fmap_ext. by intros ? [? ?]. }
  split; [| |done].
  - split; try done.
    + unfold s'. simpl. apply keys_sorted_filter. by rewrite Ekeys.
    + unfold s'. simpl. apply keys_filter. rewrite Ekeys. eapply Forall_impl; [exact H5|].
      intros t. unfold later. simpl. by destruct (current s).
    + unfold s'. simpl. apply forall_filter. unfold compacted. rewrite Forall_fmap.
      eapply Forall_impl; [exact H6|]. intros [t f] [S1 S2]. by split; apply bucket_compact_shape.
    + unfold s'. simpl. intros c'. destruct (current s) as [c|] eqn:Ec; [|done]. simpl. intros [= <-].
      destruct (H7 c eq_refl) as [S1 S2 S3 S4 S5 [B1 B2 B3] S7]. split; try done.
      * by split; apply bucket_compact_shape.
      * intros t Ht. assert (closed c t) as Hcl by by destruct t. simpl.
        assert (target_ok t /\ future_target t = None) as [Ht1 Ht2].
        { destruct t; simpl in *; try done. split; [lia|done]. }
        apply slot_queue_compact; [by apply S7|]. by eapply (slot_queue_entries s c t).
    + split; [apply Hall|apply Hall|]; rewrite ?Forall_fmap.
      * eapply Forall_impl; [exact Q1|]. intros p Hp. by apply compact_spec.
      * eapply Forall_impl; [exact Q2|]. intros p Hp. by apply compact_spec.
      * eapply Forall_impl; [exact E1|]. intros p Hp. by apply compact_held.
      * eapply Forall_impl; [exact E2|]. intros p Hp. by apply compact_held.
      * change (NoDup (handles (agenda s'))). rewrite Ha. unfold agenda. by rewrite Eall.
  - split; try done; [unfold s'; simpl; by destruct (current s)|]. do 2 eexists. by apply effect_same.
Qed.

Lemma note_cancellation_spec s : sched_ok s -> adds s (note_cancellation s) [].
Proof.
  intros Hok. unfold note_cancellation. destruct (_ <? _); [by apply adds_core|].
  set (keep := fun p : Z * FutureSlot Task => let '(_, f) := p in negb (future_slot_empty (cancel_slots s) f)).
  pose proof (compact_everything s keep Hok) as H. cbv zeta in H |- *.
  assert (adds s (with_queues s (List.filter keep ((fun '(t, f) => (t, future_slot_compact (cancel_slots s) f)) <$> future s))
    (slot_compact (cancel_slots s) <$> current s)) []) as Ha.
  { apply H. intros [t f] E. unfold keep in E. by apply negb_false_iff in E. }
  change ([] : list (Z * Entry Task)) with ([] ++ [] : list (Z * Entry Task)).
  eapply adds_trans; [exact Ha|]. apply adds_core; try done. apply Ha.
Qed.

(** The entry a handle stands for. *)
Definition of_handle (h : ScheduledTaskHandle) e : bool :=
  match h with Some id => bool_decide (entry_cancellation e = Some id) | None => false end.

Lemma of_handle_spared id e : negb (of_handle (Some id) e) = spared (just id) e.
Proof.
  unfold of_handle, spared, just. destruct (entry_cancellation e) as [id'|].
  - f_equal. apply bool_decide_ext. split; [by intros [= ->]|by intros ->].
  - by rewrite bool_decide_false.
Qed.

(** [cancel] removes exactly the entry of its handle. *)
Lemma cancel_spec s h : sched_ok s ->
  sched_ok (cancel h s) /\ frame s (cancel h s) /\
  agenda (cancel h s) ≡ₚ List.filter (fun p => negb (of_handle h (snd p))) (agenda s).
Proof.
  intros Hok. destruct h as [id|].
  2:{ split_and!; [done|apply frame_refl|]. rewrite filter_all; [done|].
      induction (agenda s) as [|p a IH]; simpl; [done|apply IH]. }
  rewrite (List.filter_ext _ (fun p => spared (just id) (snd p))) by (intros; apply of_handle_spared).
  pose proof (ok_slots s Hok) as Hcs. simpl.
  destruct (with_slots_ok s _ _ Hok (release_ok _ id Hcs) (table_step_release _ id Hcs)) as (O & F & A).
  destruct (slot_live (cancel_slots s) id) eqn:El.
  - destruct (note_cancellation_spec _ O) as [O' F' A']. split_and!; [done|by eapply frame_trans|].
    by rewrite A', A.
  - split_and!; [done|apply frame_refl|]. rewrite <- A. unfold release. rewrite El. simpl.
    unfold agenda. destruct s; done.
Qed.

(** ** All calls *)

Definition keeps {A} (m : Act A) : Prop := forall s, sched_ok s -> sched_ok (fst (m s)) /\ frame s (fst (m s)).

Lemma call_keeps {A} (m : Act A) (Q : Sched -> A -> Sched -> list (Z * Entry Task) -> Prop) :
  (forall s, sched_ok s -> call_spec s (m s) (Q s)) -> keeps m.
Proof.
  intros H s Hok. specialize (H s Hok). destruct (m s) as [s' [a|]]; simpl in *.
  - by destruct H as (l & [? ? _] & _).
  - by destruct H as [? ? _].
Qed.

Lemma answer_keeps {A} (f : A -> Response Task) (m : Act A) : keeps m -> keeps (answer f m).
Proof. intros H s Hok. specialize (H s Hok). unfold answer, mbind, act_bind. by destruct (m s) as [s' [a|]]. Qed.

Lemma done_by_keeps (f : Sched -> Sched) :
  (forall s, sched_ok s -> sched_ok (f s) /\ frame s (f s)) -> keeps (done_by f).
Proof. intros H. by apply answer_keeps. Qed.

Lemma core_keeps s s' : sched_ok s -> same_core s s' ->
  in_run (status s') = in_run (status s) -> in_callback (status s') = in_callback (status s) ->
  callbacks (status s') = callbacks (status s) -> sched_ok s' /\ frame s s'.
Proof. intros Hok Hc ? ? ?. split; [by eapply core_ok|by apply core_frame]. Qed.

Lemma note_signal_change_keeps signal s : sched_ok s ->
  sched_ok (note_signal_change signal s) /\ frame s (note_signal_change signal s).
Proof. intros Hok. unfold note_signal_change. repeat case_match; by apply core_keeps. Qed.

Lemma hooks_keeps s h : sched_ok s -> sched_ok (with_hooks s h) /\ frame s (with_hooks s h).
Proof. intros Hok. by apply core_keeps. Qed.

(** Every call, whether it returns or throws, keeps the invariant and leaves
    the dispatch loop's part of the state. *)
Lemma execute_keeps command : keeps (execute (Task := Task) command).
Proof.
  destruct command; cbn [execute].
  - apply answer_keeps. eapply call_keeps. intros s Hok. by apply schedule_at_spec.
  - apply answer_keeps. eapply call_keeps. intros s Hok. by apply schedule_after_spec.
  - apply answer_keeps. eapply call_keeps. intros s Hok. by apply schedule_after_cancelable_spec.
  - apply answer_keeps. eapply call_keeps. intros s Hok. by apply schedule_at_spec.
  - apply answer_keeps. eapply call_keeps. intros s Hok. by apply schedule_next_delta_spec.
  - apply answer_keeps. eapply call_keeps. intros s Hok. by apply reserve_order_key_spec.
  - apply answer_keeps. eapply call_keeps. intros s Hok. by apply schedule_reserved_next_delta_spec.
  - apply answer_keeps. eapply call_keeps. intros s Hok. by apply schedule_reserved_next_delta_cancelable_spec.
  - apply answer_keeps. eapply call_keeps. intros s Hok. by apply schedule_reserved_current_spec.
  - apply answer_keeps. eapply call_keeps. intros s Hok. by apply schedule_reserved_current_cancelable_spec.
  - apply answer_keeps. eapply call_keeps. intros s Hok. by apply next_current_order_key_spec.
  - apply answer_keeps. eapply call_keeps. intros s Hok. by apply schedule_internal_at_spec.
  - apply answer_keeps. eapply call_keeps. intros s Hok. by apply schedule_internal_at_spec.
  - apply answer_keeps. eapply call_keeps. intros s Hok. by apply schedule_internal_next_delta_spec.
  - apply answer_keeps. eapply call_keeps. intros s Hok. by apply schedule_systemverilog_at_spec.
  - apply answer_keeps. eapply call_keeps. intros s Hok. by apply schedule_systemverilog_at_spec.
  - apply answer_keeps. eapply call_keeps. intros s Hok. by apply schedule_systemverilog_after_spec.
  - apply answer_keeps. eapply call_keeps. intros s Hok. by apply schedule_systemverilog_after_cancelable_spec.
  - apply answer_keeps. eapply call_keeps. intros s Hok. by apply schedule_internal_systemverilog_at_spec.
  - apply answer_keeps. eapply call_keeps. intros s Hok. by apply schedule_internal_systemverilog_running_active_spec.
  - apply answer_keeps. eapply call_keeps. intros s Hok. by apply schedule_end_of_time_slot_spec.
  - apply done_by_keeps. intros s Hok. destruct (cancel_spec s handle Hok) as (? & ? & _). done.
  - apply done_by_keeps. intros s Hok. by apply note_signal_change_keeps.
  - apply done_by_keeps. intros s Hok. by apply core_keeps.
  - apply done_by_keeps. intros s Hok. by apply core_keeps.
  - apply done_by_keeps. intros s Hok. by apply core_keeps.
  - apply done_by_keeps. intros s Hok. by apply hooks_keeps.
  - apply answer_keeps. intros s Hok. unfold add_slot_start_hook, throw.
    repeat case_match; simpl; first [by split; [|apply frame_refl]|by apply hooks_keeps].
  - apply done_by_keeps. intros s Hok. unfold remove_slot_start_hook. case_match; [by split; [|apply frame_refl]|by apply hooks_keeps].
  - apply done_by_keeps. intros s Hok. by apply hooks_keeps.
  - apply answer_keeps. intros s Hok. unfold add_safe_point_hook, throw.
    repeat case_match; simpl; first [by split; [|apply frame_refl]|by apply hooks_keeps].
  - apply done_by_keeps. intros s Hok. unfold remove_safe_point_hook. case_match; [by split; [|apply frame_refl]|by apply hooks_keeps].
  - apply answer_keeps. intros s Hok. unfold set_runtime_slot_quiet_hook, throw.
    case_match; simpl; first [by split; [|apply frame_refl]|by apply hooks_keeps].
  - apply answer_keeps. intros s Hok. split; [done|apply frame_refl].
Qed.

(** ** Construction, discarding and resetting *)

Lemma no_slots_ok : slots_ok (no_slots (Task := Task)).
Proof.
  split; [by exists []; split; [done|constructor]|simpl; unfold size, U64_MAX; simpl; lia|].
  intros index slot. unfold slot_at, no_slots. simpl. destruct (index <? 0); [done|]. by rewrite lookup_nil.
Qed.

Lemma new_scheduler_ok limit capacity : 1 <= limit ->
  returns (new_scheduler (Task := Task) limit capacity) (fun s => sched_ok s /\ agenda s = []).
Proof.
  intros Hl. unfold new_scheduler. destruct (Z.eqb_spec limit 0); [lia|]. split; [|done].
  split; simpl; [done|done|apply no_slots_ok|constructor|constructor|constructor|done|].
  split; [constructor|constructor|constructor].
Qed.

(** Completing queued entries kills their handles. *)
Lemma complete_step cs e : slots_ok cs ->
  slots_ok (complete cs e) /\ (exists gone, table_step cs (complete cs e) gone) /\
  forall id, entry_cancellation e = Some id -> slot_live (complete cs e) id = false.
Proof.
  intros Hcs. unfold complete. destruct (entry_cancellation e) as [id|].
  - split_and!; [by apply release_ok|eexists; by apply table_step_release|].
    intros id' [= <-]. by rewrite release_spec, bool_decide_true, andb_false_r by done.
  - split_and!; [done|eexists; apply table_step_refl|done].
Qed.

Lemma complete_all es cs : slots_ok cs ->
  slots_ok (foldl complete cs es) /\ (exists gone, table_step cs (foldl complete cs es) gone) /\
  (forall e id, e ∈ es -> entry_cancellation e = Some id -> issued cs id -> slot_live (foldl complete cs es) id = false).
Proof.
  revert cs. induction es as [|e es IH]; intros cs Hcs; simpl.
  { split_and!; [done|eexists; apply table_step_refl|set_solver]. }
  destruct (complete_step cs e Hcs) as (H1 & (g1 & T1) & D1). destruct (IH _ H1) as (H2 & (g2 & T2) & D2).
  split_and!; [done|eexists; by eapply table_step_trans|].
  intros e' id [->|Hin]%elem_of_cons Hid Hi.
  - destruct (T1 id Hi) as (Hi' & _). destruct (T2 id Hi') as (_ & -> & _). by rewrite D1.
  - destruct (T1 id Hi) as (Hi' & _). by apply (D2 e').
Qed.

Lemma cancel_pending_all (qs : list (WorkQueue Task)) cs :
  foldl cancel_pending cs qs = foldl complete cs (qs ≫= held).
Proof. revert cs. induction qs as [|q qs IH]; intros cs; simpl; [done|]. rewrite IH, foldl_app. done. Qed.

(** [discard_queued] empties the agenda and kills every handle on it. *)
Lemma discard_queued_spec s : sched_ok s ->
  sched_ok (discard_queued s) /\ agenda (discard_queued s) = [] /\
  forall id, id ∈ handles (agenda s) -> slot_live (cancel_slots (discard_queued s)) id = false.
Proof.
  intros Hok. pose proof Hok as [H1 H2 H3 H4 H5 H6 H7 H8]. unfold discard_queued. cbv zeta. rewrite cancel_pending_all.
  destruct (complete_all ((snd <$> all_queues s) ≫= held) (cancel_slots s) H3) as (Hcs & _ & Hdead).
  split_and!; [|done|].
  - split; simpl; try done; try constructor; try done; constructor.
  - intros id Hin. simpl. pose proof (issued_handles s id Hok Hin) as Hi.
    apply list_elem_of_omap in Hin as ([t e] & Hin & He). simpl in He.
    apply (Hdead e); [|done|done]. unfold agenda, agenda_of in Hin.
    apply list_elem_of_bind in Hin as ([t' q] & Hin & Hq). apply list_elem_of_fmap in Hin as (e' & [= <- <-] & Hin).
    apply list_elem_of_bind. exists q. split; [|apply list_elem_of_fmap; by eexists (_, q)].
    apply list_elem_of_In, filter_In in Hin as [Hin _]. by apply list_elem_of_In.
Qed.

Lemma with_epoch_ok s n : sched_ok s -> sched_ok (with_epoch s n) /\ agenda (with_epoch s n) ≡ₚ agenda s.
Proof. intros Hok. by destruct (adds_core s (with_epoch s n) Hok ltac:(done)). Qed.

(** Outside a run, [discard_pending] empties the agenda, kills its handles and
    invalidates the order keys reserved before. *)
Lemma discard_pending_spec s : sched_ok s ->
  discarding (status s) = false -> in_run (status s) = false -> in_callback (status s) = false ->
  exists s', discard_pending s = (s', inl ()) /\ sched_ok s' /\ agenda s' = [] /\
    reservation_epoch s' = wrap64 (reservation_epoch s + 1) /\ now s' = now s /\
    (forall id, id ∈ handles (agenda s) -> slot_live (cancel_slots s') id = false).
Proof.
  intros Hok Hd Hr Hc. unfold discard_pending, unless_discarding. rewrite Hd, Hr, Hc. cbn [orb]. cbv zeta.
  destruct (discard_queued_spec s Hok) as (O & A & D).
  destruct (with_epoch_ok (discard_queued s) (wrap64 (reservation_epoch (discard_queued s) + 1)) O) as [O' A'].
  eexists. split; [done|]. split_and!; [done| |done|done|done].
  apply Permutation_nil. by rewrite A', A.
Qed.

(** [reset] also restarts the clock and the sequence numbers. *)
Lemma reset_spec s : sched_ok s ->
  discarding (status s) = false -> in_run (status s) = false -> in_callback (status s) = false ->
  exists s', reset s = (s', inl ()) /\ sched_ok s' /\ agenda s' = [] /\ now s' = 0 /\ next_sequence s' = 0 /\
    reservation_epoch s' = wrap64 (reservation_epoch s + 1) /\ stop (status s') = false /\
    (forall id, id ∈ handles (agenda s) -> slot_live (cancel_slots s') id = false).
Proof.
  intros Hok Hd Hr Hc. unfold reset, unless_discarding. rewrite Hd. unfold mbind, act_bind.
  destruct (discard_pending_spec s Hok Hd Hr Hc) as (s1 & E1 & O1 & A1 & P1 & N1 & D1).
  assert (current s1 = None /\ future s1 = []) as [C1 F1].
  { revert E1. unfold discard_pending, unless_discarding. rewrite Hd, Hr, Hc. cbn [orb]. by intros [= <-]. }
  rewrite E1. unfold modify. eexists. split; [done|]. split_and!; try done.
  destruct O1 as [H1 H2 H3 H4 H5 H6 H7 H8]. split; simpl; try done; rewrite ?F1, ?C1; done.
Qed.

Lemma wrap64_succ_neq n : wrap64 (n + 1) <> n.
Proof.
  unfold wrap64. intros E. pose proof (Z.mod_pos_bound (n + 1) (2 ^ 64) ltac:(done)) as Hb. rewrite E in Hb.
  destruct (decide (n + 1 = 2 ^ 64)) as [H|H].
  - rewrite H, Z_mod_same_full in E. lia.
  - rewrite Z.mod_small in E by lia. lia.
Qed.

(** So does every program. *)
Lemma run_program_keeps (p : Program Task) : keeps (run_program p).
Proof.
  induction p as [|f|command continue IH]; intros s Hok; simpl.
  - split; [done|apply frame_refl].
  - split; [done|apply frame_refl].
  - pose proof (execute_keeps command s Hok) as H. destruct (execute command s) as [s1 r]. simpl in H.
    destruct H as [Hok1 Hf1]. destruct (IH (match r with inl a => a | inr f => Threw f end) s1 Hok1) as [Hok2 Hf2].
    split; [done|by eapply frame_trans].
Qed.

End calls.
