(* ===== verification/SchedulerRun.v ===== *)
(** * The dispatch loop of the scheduler

    Model of [Scheduler::run] (src/runtime/scheduler_dispatch.cpp) and of
    [begin_systemverilog_batch] for ordinary entries, as a machine: [run_step]
    executes one stretch of the loop, between the points where the code goes
    round a loop or calls out, and [run] iterates it.  [code] says what each
    task does, [hook_code] what an observer does at a safe point. *)
From stdpp Require Import sorting.
From S2P Require Import Prelude CancellationSlots WorkQueue SchedulerState SchedulerApi.

Inductive RunStatus := completed | stopped | time_limit.

(** [RunResult]; [simulator_status] is always empty here. *)
Record RunResult := mkRunResult {
  run_status : RunStatus;
  run_time : Z;
  run_delta : Z;
  callbacks_executed : Z;
}.

(** The locals of the dispatch part of an iteration. *)
Record Dispatch := mkDispatch {
  d_systemverilog : bool;
  d_end_of_slot : bool;
  d_phase : Z;
}.

(** Where the loop stands: at its head; past the choice of the slot; in the
    inner loop, with [executed_end_callback]; past the inner loop; or out. *)
Inductive Control :=
  | AtHead
  | InSlot
  | Dispatching (d : Dispatch) (executed_end_callback : bool)
  | Dispatched (d : Dispatch)
  | Done (r : RunResult)
  | Failed (f : failure).

Section run.
Context {Task : Type} (code : Task -> Program Task) (hook_code : Task -> Z -> Program Task).
Abbreviation Sched := (Scheduler Task).
Implicit Types (s : Sched) (c : CurrentSlot Task) (q : WorkQueue Task) (e : Entry Task).

Definition update_status (f : Status -> Status) s : Sched := with_status s (f (status s)).

(** ** Leaving [run] *)

(** The guard resets [in_run] on every way out. *)
Definition finish (initial_callbacks : Z) (r : RunStatus) s : Sched * Control :=
  let s := match current s, future s with None, [] => with_compaction s 0 64 | _, _ => s end in
  (update_status (set_in_run false) s,
   Done (mkRunResult r (now s) (match current s with Some c => slot_delta c | None => 0 end)
           (wrap64 (callbacks (status s) - initial_callbacks)))).
Definition fail (f : failure) s : Sched * Control := (update_status (set_in_run false) s, Failed f).

(** ** Observers *)

Fixpoint run_hooks (programs : list (Program Task)) : Act Task () :=
  match programs with
  | [] => mret ()
  | p :: rest => _ ← run_program p; run_hooks rest
  end.

(** The added observers are read after the single hook has run. *)
Definition run_slot_start_hooks : Act Task () :=
  s ← get;
  _ ← match slot_start_hook (hooks s) with Some t => run_program (code t) | None => mret () end;
  s ← get;
  run_hooks ((fun p => code (snd p)) <$> slot_start_hooks (hooks s)).

Definition run_safe_point_hooks (phase : Z) : Act Task () :=
  fun s =>
    let programs := (match safe_point_hook (hooks s) with Some t => [hook_code t phase] | None => [] end)
                    ++ ((fun p => hook_code (snd p) phase) <$> safe_point_hooks (hooks s)) in
    match programs with
    | [] => (s, inl ())
    | _ =>
        let '(s, r) := run_hooks programs (update_status (set_in_safe_point true) s) in
        (update_status (set_in_safe_point false) s, r)
    end.

(** The slot-quiet hook is [noexcept]: nothing it throws leaves it. *)
Definition run_quiet_hook (t : Task) s : Sched :=
  let s := update_status (fun st => set_in_callback true (set_in_quiet_point true st)) s in
  let s := fst (run_program (code t) s) in
  update_status (fun st => set_in_quiet_point false (set_in_callback false st)) s.

(** ** Slots *)

Fixpoint drop_empty_slots cs (l : list (Z * FutureSlot Task)) : list (Z * FutureSlot Task) :=
  match l with
  | (t, f) :: rest => if future_slot_empty cs f then drop_empty_slots cs rest else l
  | [] => []
  end.

Definition load_next_slot s : Sched :=
  match future s with
  | [] => s
  | (t, f) :: rest =>
      let c := mkCurrentSlot t 0 0 (future_generic f) empty_bucket (future_systemverilog f)
                 empty_queue None 0 None (future_end_of_slot f) false in
      update_status (fun st => set_cycles (wrap64 (cycles st + 1)) st)
        (with_now (with_queues s rest (Some c)) t)
  end.

Definition systemverilog_round_after_pending_phase s c (phase : Z) : option Z :=
  if phase >=? phase_count then None
  else
    let starts_new_round :=
      match last_systemverilog_phase c with Some last => phase <=? last | None => true end in
    if negb starts_new_round then Some (systemverilog_round c)
    else if systemverilog_round c >=? max_delta_cycles s then None
    else Some (systemverilog_round c + 1).

(** The queue becomes the frozen batch; the running queue, drained, takes its
    place. *)
Definition freeze_batch cs c (index round : Z) : CurrentSlot Task :=
  let pending := queue_at (slot_systemverilog c) index in
  let pending := if index =? active then prepare cs pending else pending in
  mkCurrentSlot (slot_time c) (slot_delta c) (slot_phase c) (slot_current c) (slot_next_delta c)
    (set_queue (slot_systemverilog c) index (systemverilog_running c)) pending
    (Some index) round (Some index) (slot_end_of_slot c) (executing_end_of_slot c).

Fixpoint begin_batch_at (indices : list Z) : Act Task bool :=
  match indices with
  | [] => mret false
  | index :: rest => fun s =>
      match current s with
      | None => (s, inl false)
      | Some c =>
          let cs := cancel_slots s in
          let pending := queue_at (slot_systemverilog c) index in
          if queue_empty cs pending then
            begin_batch_at rest (update_target s (AtSystemVerilog index) (clear_consumed cs))
          else
            match systemverilog_round_after_pending_phase s c index with
            | None =>
                (s, inr (DeltaCycleLimitError (slot_time c) (max_delta_cycles s)
                           (pending_orders cs pending) (recent_signals (status s))))
            | Some round => (with_queues s (future s) (Some (freeze_batch cs c index round)), inl true)
            end
      end
  end.
Definition begin_systemverilog_batch (include_postponed : bool) : Act Task bool :=
  begin_batch_at (up 0 (if include_postponed then phase_count else phase_count - 1)).

(** [std::sort] and [std::unique] *)
Definition pending_next_orders s : list Z :=
  match current s with
  | None => []
  | Some c => remove_dups (merge_sort Z.le (slot_next_delta c ≫= pending_orders (cancel_slots s)))
  end.

Definition with_slot s c : Sched := with_queues s (future s) (Some c).

(** The next delta cycle. *)
Definition advance_delta s c : Sched :=
  update_status (fun st => set_cycles (wrap64 (cycles st + 1)) st)
    (with_slot s (mkCurrentSlot (slot_time c) (slot_delta c + 1) 0 (slot_next_delta c) (slot_current c)
       (slot_systemverilog c) (systemverilog_running c) (systemverilog_phase c) (systemverilog_round c)
       (last_systemverilog_phase c) (slot_end_of_slot c) (executing_end_of_slot c))).

Definition set_executing_end (v : bool) c : CurrentSlot Task :=
  mkCurrentSlot (slot_time c) (slot_delta c) (slot_phase c) (slot_current c) (slot_next_delta c)
    (slot_systemverilog c) (systemverilog_running c) (systemverilog_phase c) (systemverilog_round c)
    (last_systemverilog_phase c) (slot_end_of_slot c) v.

Definition slot_idle cs c : bool :=
  bucket_empty cs (slot_next_delta c) && bucket_empty cs (slot_current c)
  && bucket_empty cs (slot_systemverilog c) && queue_empty cs (systemverilog_running c)
  && queue_empty cs (slot_end_of_slot c).

(** ** One iteration *)

(** The part before the slot is used. *)
Definition head_step (until : option Z) (initial : Z) s : Sched * Control :=
  match current s with
  | Some _ => (s, InSlot)
  | None =>
      if stop (status s) then finish initial stopped s
      else
        let s := with_queues s (drop_empty_slots (cancel_slots s) (future s)) (current s) in
        match future s with
        | [] =>
            match until with
            | Some limit => if now s <? limit then finish initial time_limit (with_now s limit)
                            else finish initial completed s
            | None => finish initial completed s
            end
        | (t, _) :: _ =>
            if (match until with Some limit => t >? limit | None => false end) then
              finish initial time_limit (with_now s (default 0 until))
            else
              match run_slot_start_hooks (load_next_slot s) with
              | (s, inl _) => (s, InSlot)
              | (s, inr f) => fail f s
              end
        end
  end.

Definition dispatch_target (d : Dispatch) : Target :=
  if d_systemverilog d then AtRunning
  else if d_end_of_slot d then AtEndOfSlot else AtCurrent (d_phase d).

(** The choice made, the inner loop is entered, unless the queue is empty and
    a stop was requested. *)
Definition enter_dispatch (initial : Z) s c (systemverilog end_of_slot : bool) : Sched * Control :=
  let c := set_executing_end end_of_slot c in
  let s := with_slot s c in
  let d := mkDispatch systemverilog end_of_slot
             (if systemverilog then default 0 (systemverilog_phase c)
              else if end_of_slot then postponed else slot_phase c) in
  if queue_empty (cancel_slots s) (slot_queue c (dispatch_target d)) && stop (status s)
  then finish initial stopped s
  else (s, Dispatching d false).

(** All phases of the delta cycle are over: next delta, postponed
    SystemVerilog work, end-of-slot work, or the end of the slot. *)
Definition finished_phases (initial : Z) s c : Sched * Control :=
  if stop (status s) then finish initial stopped s
  else if negb (bucket_empty (cancel_slots s) (slot_next_delta c)) then
    if slot_delta c + 1 >=? max_delta_cycles s then
      fail (DeltaCycleLimitError (slot_time c) (max_delta_cycles s)
              (pending_next_orders s) (recent_signals (status s))) s
    else (advance_delta s c, AtHead)
  else
    match begin_systemverilog_batch true s with
    | (s, inr f) => fail f s
    | (s, inl systemverilog) =>
        match current s with
        | None => (s, AtHead)
        | Some c =>
            if systemverilog then enter_dispatch initial s c true false
            else if queue_empty (cancel_slots s) (slot_end_of_slot c) then
              match runtime_slot_quiet_hook (hooks s) with
              | Some t =>
                  let s := run_quiet_hook t s in
                  match current s with
                  | Some c => if slot_idle (cancel_slots s) c
                              then (with_queues s (future s) None, AtHead) else (s, AtHead)
                  | None => (s, AtHead)
                  end
              | None => (with_queues s (future s) None, AtHead)
              end
            else enter_dispatch initial s c false true
        end
    end.

Definition slot_step (initial : Z) s : Sched * Control :=
  match current s with
  | None => (s, AtHead)
  | Some c =>
      if stop (status s) then finish initial stopped s
      else
        match (match systemverilog_phase c with
               | Some _ => (s, inl true)
               | None => begin_systemverilog_batch false s
               end) with
        | (s, inr f) => fail f s
        | (s, inl systemverilog) =>
            match current s with
            | None => (s, AtHead)
            | Some c =>
                if negb systemverilog && (slot_phase c =? phase_count) then finished_phases initial s c
                else enter_dispatch initial s c systemverilog false
            end
        end
  end.

(** [std::bad_function_call], from calling an empty [std::function]. *)
Definition bad_function_call : failure := StdException (logic_error "bad_function_call").

(** Running one entry: the task leaves its slot before it runs, a descriptor
    is completed after. *)
Definition run_entry e : Act Task () :=
  fun s =>
    match entry_task e with
    | DescriptorTask t =>
        let '(s, r) := run_program (code t) s in
        (with_slots s (complete (cancel_slots s) e), r)
    | task =>
        let '(cs, taken) :=
          match entry_cancellation e, task with
          | Some id, _ => take_slot (cancel_slots s) id
          | None, CallbackTask t => (cancel_slots s, Some t)
          | None, _ => (cancel_slots s, None)
          end in
        let s := with_slots s cs in
        let '(s, r) := match taken with
                       | Some t => run_program (code t) s
                       | None => (s, inr bad_function_call)
                       end in
        match r with
        | inl _ => (s, inl ())
        | inr f => (with_slots s (complete (cancel_slots s) e), inr f)
        end
    end.

(** One turn of the inner loop. *)
Definition dispatch_step (initial : Z) s (d : Dispatch) (executed : bool) : Sched * Control :=
  match current s with
  | None => (s, Dispatched d)
  | Some c =>
      let cs := cancel_slots s in
      let target := dispatch_target d in
      let q := slot_queue c target in
      if negb (queue_empty cs q) && negb (d_end_of_slot d && executed) then
        if stop (status s) then finish initial stopped s
        else
          let q := if negb (d_systemverilog d) && negb (d_end_of_slot d) && (d_phase d =? active)
                   then prepare cs q else q in
          let q := fst (next cs q) in
          match pop cs q with
          | Throw x => fail (StdException x) s
          | Ok (q', e) =>
              let s := update_status (set_in_callback true) (update_target s target (fun _ => q')) in
              let '(s, r) := run_entry e s in
              let s := update_status (set_in_callback false) s in
              match r with
              | inl _ => (update_status (fun st => set_callbacks (wrap64 (callbacks st + 1)) st) s,
                          Dispatching d (d_end_of_slot d))
              | inr f => fail f s
              end
          end
      else (s, Dispatched d)
  end.

(** The inner loop is over: the region ends, and observers see a safe point. *)
Definition leave_region (d : Dispatch) c : CurrentSlot Task :=
  mkCurrentSlot (slot_time c) (slot_delta c)
    (if negb (d_systemverilog d) && negb (d_end_of_slot d) then slot_phase c + 1 else slot_phase c)
    (slot_current c) (slot_next_delta c) (slot_systemverilog c) (systemverilog_running c)
    (if d_systemverilog d then None else systemverilog_phase c) (systemverilog_round c)
    (last_systemverilog_phase c) (slot_end_of_slot c) false.

Definition dispatched_step s (d : Dispatch) : Sched * Control :=
  let s := update_target s (dispatch_target d) (clear_consumed (cancel_slots s)) in
  let s := match current s with Some c => with_slot s (leave_region d c) | None => s end in
  match run_safe_point_hooks (d_phase d) s with
  | (s, inl _) => (s, AtHead)
  | (s, inr f) => fail f s
  end.

Definition run_step (until : option Z) (initial : Z) (m : Sched * Control) : Sched * Control :=
  let '(s, control) := m in
  match control with
  | AtHead => head_step until initial s
  | InSlot => slot_step initial s
  | Dispatching d executed => dispatch_step initial s d executed
  | Dispatched d => dispatched_step s d
  | Done _ | Failed _ => m
  end.

Fixpoint run_steps (fuel : nat) (until : option Z) (initial : Z) (m : Sched * Control) : Sched * Control :=
  match fuel with
  | O => m
  | S fuel => run_steps fuel until initial (run_step until initial m)
  end.

(** The checks before the loop. *)
Definition start_run (until : option Z) s : Sched * Control :=
  if in_run (status s) then (s, Failed (StdException (logic_error "Scheduler::run is not reentrant")))
  else if (match until with Some limit => limit <? now s | None => false end) then
    (s, Failed (StdException (invalid_argument "run time limit is before the current time")))
  else (update_status (set_in_run true) s, AtHead).

Definition run (fuel : nat) (until : option Z) s : Sched * Control :=
  run_steps fuel until (callbacks (status s)) (start_run until s).
End run.
