(* ===== verification/SchedulerDispatch.v ===== *)
(** * The dispatch loop refines an agenda

    Every step of the machine of SchedulerRun.v keeps the scheduler's
    invariant, and acts on the agenda as an abstract event scheduler: time
    advances only to the least pending time, an entry is executed at its own
    time and leaves the agenda, and only tasks add or cancel entries. *)
From stdpp Require Import sorting relations.
From S2P Require Import Prelude CancellationSlots WorkQueue SchedulerState SchedulerApi.
From S2P Require Import SchedulerInvariant SchedulerCalls SchedulerRun.

Section dispatch.
Context {Task : Type} (code : Task -> Program Task) (hook_code : Task -> Z -> Program Task).
Abbreviation Sched := (Scheduler Task).
Implicit Types (s : Sched) (c : CurrentSlot Task) (q : WorkQueue Task) (e : Entry Task).

(** ** Steps of the loop itself, which leave the agenda *)

Record moves s s' : Prop := {
  moves_ok : sched_ok s';
  moves_agenda : agenda s' ≡ₚ agenda s;
  moves_slots : cancel_slots s' = cancel_slots s;
  moves_now : now s' = now s;
  moves_limit : max_delta_cycles s' = max_delta_cycles s;
}.

Lemma moves_refl s : sched_ok s -> moves s s.
Proof. by split. Qed.

Lemma moves_trans s1 s2 s3 : moves s1 s2 -> moves s2 s3 -> moves s1 s3.
Proof. intros [? A1 ? ? ?] [? A2 ? ? ?]. split; try congruence. by rewrite A2, A1. Qed.

Lemma moves_core s s' : sched_ok s -> same_core s s' -> moves s s'.
Proof.
  intros Hok Hc. pose proof (core_agenda _ _ Hc) as Ha. split; [by eapply core_ok|by rewrite Ha|apply Hc..].
Qed.

Lemma moves_status f s : sched_ok s -> moves s (update_status f s).
Proof. intros Hok. by apply moves_core. Qed.

Lemma with_same_queues s : with_queues s (future s) (current s) = s.
Proof. by destruct s. Qed.

(** Replacing the slot by one with the same queues up to order. *)
Lemma with_slot_moves s c c' : sched_ok s -> current s = Some c -> slot_time c' = slot_time c ->
  slot_queues c' ≡ₚ slot_queues c -> slot_ok s c' -> moves s (with_slot s c').
Proof.
  intros Hok Hc Ht Hq Hs. destruct Hok as [H1 H2 H3 H4 H5 H6 H7 [C1 C2 C3]].
  assert (all_queues (with_slot s c') ≡ₚ all_queues s) as Hall.
  { rewrite !all_queues_eq, Hc. simpl. by rewrite Ht, Hq. }
  assert (agenda (with_slot s c') ≡ₚ agenda s) as Ha by (unfold agenda; by rewrite Hall).
  split; try done. split; try done.
  - unfold later in *. simpl. by rewrite Hc in H5.
  - intros c'' [= <-]. destruct Hs as []. by split.
  - split; simpl; rewrite ?Hall; done.
Qed.

(** ** Starting a SystemVerilog batch *)

Lemma queue_at_perm b i : bucket_shape b -> 0 <= i < phase_count ->
  forall q, set_queue b i q ++ [queue_at b i] ≡ₚ b ++ [q].
Proof.
  intros Hb Hi q. destruct (set_queue_perm (Task := Task) b i q Hb) as (r & E1 & E2);
    [apply index_below; lia|]. rewrite E2. rewrite E1 at 2. simpl. rewrite <- !Permutation_cons_append. apply Permutation_swap.
Qed.

Lemma round_after s c phase round : sched_ok s -> current s = Some c -> 0 <= phase ->
  systemverilog_round_after_pending_phase s c phase = Some round ->
  phase < phase_count /\ 0 <= round <= max_delta_cycles s.
Proof.
  intros Hok Hc Hp. pose proof (slot_ok_round s c (ok_current s Hok c Hc)).
  unfold systemverilog_round_after_pending_phase. destruct (Z.geb_spec phase phase_count); [done|].
  destruct (negb _); [intros [= <-]; lia|].
  destruct (Z.geb_spec (systemverilog_round c) (max_delta_cycles s)); [done|]. intros [= <-]. lia.
Qed.

Lemma freeze_batch_moves s c i round : sched_ok s -> current s = Some c -> systemverilog_phase c = None ->
  0 <= i < phase_count -> 0 <= round <= max_delta_cycles s ->
  moves s (with_slot s (freeze_batch (cancel_slots s) c i round)).
Proof.
  intros Hok Hc Hp Hi Hr. set (cs := cancel_slots s).
  pose proof (ok_current s Hok c Hc) as [S1 S2 S3 S4 S5 [B1 B2 B3] S7].
  set (f := fun q => if i =? active then prepare cs q else q).
  assert (adds s (update_target s (AtSystemVerilog i) f) []) as [O1 F1 A1].
  { apply update_target_same; [done|split; [apply index_below; lia|by rewrite Hc]|done|..]; unfold f.
    - intros q Hq. destruct (i =? active); [|done]. destruct (prepare_spec cs q Hq) as [[? _ _ _] ?]. done.
    - intros P q Hq Hh. destruct (i =? active); [by apply prepare_held|done]. }
  set (c1 := update_slot c (AtSystemVerilog i) f).
  assert (update_target s (AtSystemVerilog i) f = with_slot s c1) as E1 by (simpl; by rewrite Hc).
  rewrite E1 in O1, A1.
  pose proof (ok_current _ O1 c1 eq_refl) as [T1 T2 T3 T4 T5 [D1 D2 D3] T7].
  assert (queue_at (slot_systemverilog c1) i = f (queue_at (slot_systemverilog c) i)) as Eq.
  { unfold c1. simpl. rewrite queue_at_set by (done || lia). by rewrite Z.eqb_refl. }
  assert (moves (with_slot s c1) (with_slot (with_slot s c1) (freeze_batch cs c i round))) as Hm.
  { eapply with_slot_moves; [done|done|done| |].
    - unfold slot_queues. simpl. fold (f (queue_at (slot_systemverilog c) i)).
      assert (set_queue (slot_systemverilog c) i (systemverilog_running c)
        = set_queue (slot_systemverilog c1) i (systemverilog_running c)) as ->.
      { change (slot_systemverilog c1)
          with (set_queue (slot_systemverilog c) i (f (queue_at (slot_systemverilog c) i))).
        unfold set_queue. by rewrite list_insert_insert_eq. }
      rewrite <- Eq.
      change [queue_at (slot_systemverilog c1) i; slot_end_of_slot c]
        with ([queue_at (slot_systemverilog c1) i] ++ [slot_end_of_slot c]).
      change [systemverilog_running c; slot_end_of_slot c] with ([systemverilog_running c] ++ [slot_end_of_slot c]).
      rewrite !(app_assoc (set_queue _ _ _)), queue_at_perm by done. by rewrite Eq.
    - split; try done.
      + simpl. intros p [= <-]. done.
      + split; try done. simpl. by apply set_queue_shape.
      + intros t. simpl. destruct t; simpl; try done. intros Ht. by apply (T7 (AtCurrent index)). }
  assert (with_slot (with_slot s c1) (freeze_batch cs c i round) = with_slot s (freeze_batch cs c i round)) as <- by done.
  destruct Hm as [? A2 ? ? ?]. split; try done. rewrite A2, A1. done.
Qed.

Lemma update_target_moves s t f : sched_ok s -> valid_ref s t -> future_target t = None ->
  (forall q, queue_ok q -> queue_ok (f q) /\ pending (cancel_slots s) (f q) ≡ₚ pending (cancel_slots s) q) ->
  (forall P q, queue_ok q -> Forall P (held q) -> Forall P (held (f q))) ->
  moves s (update_target s t f).
Proof.
  intros Hok Hv Hft Hf Hh. destruct (update_target_same s t f Hok Hv Hft Hf Hh) as [O F A].
  destruct (update_target_fields s t f) as (F1 & F2 & F3 & F4 & _). by split.
Qed.

Lemma clear_consumed_moves s t c : sched_ok s -> current s = Some c -> target_ok t -> future_target t = None ->
  moves s (update_target s t (clear_consumed (cancel_slots s))).
Proof.
  intros Hok Hc Ht Hf. apply update_target_moves; [done|split; [done|by rewrite Hc]|done|..].
  - intros q Hq. by apply clear_consumed_spec.
  - intros P q Hq. by apply clear_consumed_held.
Qed.

(** What [begin_systemverilog_batch] leaves of the slot when it finds no work. *)
Record no_batch c c' : Prop := {
  nb_header : slot_header c' = slot_header c;
  nb_current : slot_current c' = slot_current c;
  nb_next_delta : slot_next_delta c' = slot_next_delta c;
  nb_running : systemverilog_running c' = systemverilog_running c;
  nb_end : slot_end_of_slot c' = slot_end_of_slot c;
}.

Definition batch_spec (indices : list Z) s c (m : Sched * (bool + failure)) : Prop :=
  let '(s', r) := m in
  moves s s' /\ status s' = status s /\ hooks s' = hooks s /\
  exists c', current s' = Some c' /\
    match r with
    | inl true => exists i, i ∈ indices /\ systemverilog_phase c' = Some i /\
        slot_phase c' = slot_phase c /\ slot_delta c' = slot_delta c /\
        pending (cancel_slots s) (systemverilog_running c') <> []
    | inl false => no_batch c c' /\
        (forall i, i ∈ indices -> pending (cancel_slots s) (queue_at (slot_systemverilog c') i) = []) /\
        (forall i, 0 <= i -> i ∉ indices -> queue_at (slot_systemverilog c') i = queue_at (slot_systemverilog c) i)
    | inr f => slot_header c' = slot_header c /\ exists i, i ∈ indices /\
        systemverilog_round c >= max_delta_cycles s /\
        f = DeltaCycleLimitError (slot_time c) (max_delta_cycles s)
              (pending_orders (cancel_slots s) (queue_at (slot_systemverilog c) i)) (recent_signals (status s))
    end.

Lemma round_refused s c i : i < phase_count -> systemverilog_round_after_pending_phase s c i = None ->
  systemverilog_round c >= max_delta_cycles s.
Proof.
  intros Hi. unfold systemverilog_round_after_pending_phase. destruct (Z.geb_spec i phase_count); [lia|].
  destruct (negb _); [done|]. destruct (Z.geb_spec (systemverilog_round c) (max_delta_cycles s)); [lia|done].
Qed.

Lemma prepare_pending cs q : queue_ok q -> pending cs (prepare cs q) ≡ₚ pending cs q.
Proof. intros Hq. by apply prepare_spec. Qed.

Lemma begin_batch_at_spec indices : NoDup indices -> Forall (fun i => 0 <= i < phase_count) indices ->
  forall s c, sched_ok s -> current s = Some c -> systemverilog_phase c = None ->
  batch_spec indices s c (begin_batch_at indices s).
Proof.
  induction indices as [|i rest IH]; intros Hnd Hin s c Hok Hc Hp; simpl.
  { split_and!; [by apply moves_refl|done|done|]. exists c. split_and!; [done|by split|set_solver|done]. }
  apply NoDup_cons in Hnd as [Hni Hnd]. inversion Hin as [|? ? Hi Hin']; subst. rewrite Hc. simpl.
  destruct (slot_queue_entries s c (AtSystemVerilog i) Hok Hc) as [Hq _]; [apply index_below; lia|done|].
  simpl in Hq. pose proof (slot_ok_shape s c (ok_current s Hok c Hc)) as [_ _ Hsh].
  destruct (queue_empty _ _) eqn:Ee.
  - apply queue_empty_spec in Ee; [|done].
    set (c1 := update_slot c (AtSystemVerilog i) (clear_consumed (cancel_slots s))).
    assert (moves s (with_slot s c1)) as Hm.
    { pose proof (clear_consumed_moves s (AtSystemVerilog i) c Hok Hc) as H. simpl in H. rewrite Hc in H.
      apply H; [apply index_below; lia|done]. }
    assert (forall j, 0 <= j -> queue_at (slot_systemverilog c1) j
      = if j =? i then clear_consumed (cancel_slots s) (queue_at (slot_systemverilog c) i)
        else queue_at (slot_systemverilog c) j) as Hset by (intros j Hj; by apply queue_at_set).
    specialize (IH Hnd Hin' (with_slot s c1) c1 (moves_ok _ _ Hm) eq_refl Hp).
    change (with_queues s (future s) (Some c1)) with (with_slot s c1).
    destruct (begin_batch_at rest (with_slot s c1)) as [s2 r]. simpl in IH |- *.
    destruct IH as (Hm2 & Hst & Hhk & c2 & Hc2 & Hr). split_and!; [by eapply moves_trans|done|done|].
    exists c2. split; [done|]. destruct r as [[|]|f].
    + destruct Hr as (j & Hj & H1 & H2 & H3 & H4). exists j. split_and!; try done. set_solver.
    + destruct Hr as ([N1 N2 N3 N4 N5] & He & Hk). split_and!; [by split|..].
      * intros j [->|Hj]%elem_of_cons; [|by apply He]. rewrite Hk, Hset, Z.eqb_refl by (done || lia).
        apply Permutation_nil. by rewrite (proj2 (clear_consumed_spec (cancel_slots s) _ Hq)), Ee.
      * intros j Hj0 Hj. rewrite Hk, Hset by set_solver. rewrite (proj2 (Z.eqb_neq j i)); set_solver.
    + destruct Hr as (H1 & j & Hj & H2 & H3). split; [done|]. exists j. split_and!; [set_solver|done|].
      rewrite Forall_forall in Hin'. destruct (Hin' j Hj) as [Hj0 _].
      rewrite H3, Hset by done. rewrite (proj2 (Z.eqb_neq j i)); [done|]. by intros ->.
  - destruct (systemverilog_round_after_pending_phase s c i) as [round|] eqn:Er.
    + destruct (round_after s c i round Hok Hc) as [_ Hr]; [lia|done|].
      split_and!; [by apply freeze_batch_moves|done|done|]. eexists. split; [done|]. exists i. split_and!; try done; [set_solver|].
      simpl. intros E. apply not_true_iff_false in Ee. apply Ee, queue_empty_spec; [done|].
      destruct (i =? active); [|done]. apply Permutation_nil. by rewrite <- E, prepare_pending.
    + split_and!; [by apply moves_refl|done|done|]. exists c. split; [done|]. split; [done|]. exists i.
      split_and!; [set_solver| |done]. apply (round_refused s c i); [lia|done].
Qed.

(** ** Slots *)

Lemma drop_empty_slots_drop cs (l : list (Z * FutureSlot Task)) :
  exists k, drop_empty_slots cs l = drop k l /\ Forall (fun p => future_slot_empty cs (snd p) = true) (take k l).
Proof.
  induction l as [|[t f] l IH]; simpl; [by exists 0%nat|]. destruct (future_slot_empty cs f) eqn:E.
  - destruct IH as (k & -> & Hk). exists (S k). split; [done|by constructor].
  - exists 0%nat. split; [done|constructor].
Qed.

Lemma queues_of_app (l1 l2 : list (Z * FutureSlot Task)) : queues_of (l1 ++ l2) = queues_of l1 ++ queues_of l2.
Proof. apply bind_app. Qed.

Lemma agenda_empty_slots cs (l : list (Z * FutureSlot Task)) :
  Forall (fun p => queue_ok (snd p)) (queues_of l) ->
  Forall (fun p => future_slot_empty cs (snd p) = true) l -> agenda_of cs (queues_of l) = [].
Proof.
  intros Hq. induction 1 as [|[t f] l He Hl IH]; [done|]. rewrite queues_of_cons in *. apply Forall_app in Hq as [H1 H2].
  rewrite agenda_of_app, IH by done. rewrite agenda_of_pending_nil; [done|].
  rewrite Forall_fmap in H1. by apply future_slot_empty_pending.
Qed.

Lemma drop_empty_slots_moves s : sched_ok s ->
  moves s (with_queues s (drop_empty_slots (cancel_slots s) (future s)) (current s)).
Proof.
  intros Hok. pose proof Hok as [H1 H2 H3 H4 H5 H6 H7 [C1 C2 C3]].
  destruct (drop_empty_slots_drop (cancel_slots s) (future s)) as (k & -> & Hk).
  set (cur := match current s with Some c => (fun q => (slot_time c, q)) <$> slot_queues c | None => [] end).
  assert (all_queues s = cur ++ queues_of (take k (future s)) ++ queues_of (drop k (future s))) as Eall.
  { rewrite all_queues_eq, <- queues_of_app, take_drop. done. }
  assert (forall P, Forall P (all_queues s) -> Forall P (cur ++ queues_of (drop k (future s)))) as Hall.
  { intros P HP. rewrite Eall, !Forall_app in HP. apply Forall_app. tauto. }
  assert (agenda (with_queues s (drop k (future s)) (current s)) = agenda s) as Ha.
  { unfold agenda. rewrite Eall, (all_queues_eq (with_queues s _ _)). simpl. fold cur.
    rewrite !agenda_of_app, (agenda_empty_slots _ (take k (future s))); [done| |done].
    rewrite Eall, !Forall_app in C1. tauto. }
  split; [|by rewrite Ha|done..]. split; try done; simpl.
  - rewrite fmap_drop. by apply sorted_drop.
  - rewrite fmap_drop. by apply Forall_drop.
  - by apply Forall_drop.
  - intros c Hc. destruct (H7 c Hc) as []. by split.
  - split; [by apply Hall|by apply Hall|].
    change (NoDup (handles (agenda (with_queues s (drop k (future s)) (current s))))). by rewrite Ha.
Qed.

(** Times on the agenda. *)
Lemma agenda_elem s t e : (t, e) ∈ agenda s ->
  (exists c, current s = Some c /\ t = slot_time c) \/ t ∈ fst <$> future s.
Proof.
  unfold agenda, agenda_of. intros Hin. apply list_elem_of_bind in Hin as ([t' q] & Hin & Hq).
  apply list_elem_of_fmap in Hin as (e' & [= <- <-] & _). unfold all_queues in Hq.
  apply elem_of_app in Hq as [Hq|Hq].
  - destruct (current s) as [c|]; [|set_solver]. apply list_elem_of_fmap in Hq as (q' & [= -> ->] & _).
    left. by exists c.
  - apply list_elem_of_bind in Hq as ([t1 f] & Hin & Hq). right. apply list_elem_of_fmap.
    exists (t1, f). split; [|done]. by apply list_elem_of_fmap in Hin as (q' & [= -> ->] & _).
Qed.

Lemma agenda_later s : sched_ok s -> Forall (fun p => now s <= fst p) (agenda s).
Proof.
  intros Hok. apply Forall_forall. intros [t e] Hin. simpl. apply agenda_elem in Hin as [(c & Hc & ->)|Hin].
  - rewrite (slot_ok_time s c (ok_current s Hok c Hc)). lia.
  - pose proof (ok_time s Hok) as Ht. rewrite Forall_forall in Ht. specialize (Ht t Hin).
    unfold later in Ht. destruct (current s); lia.
Qed.

Lemma loaded_perm {A} (l1 l2 l3 : list A) x y : l1 ++ l2 ++ l3 ++ [x; y] ≡ₚ (x :: l2) ++ l1 ++ l3 ++ [y].
Proof.
  rewrite Permutation_app_swap_app. simpl. rewrite !app_assoc. symmetry. apply Permutation_middle.
Qed.

(** Loading a slot moves time to the least key of the future. *)
Lemma load_next_slot_ok s t f rest : sched_ok s -> current s = None -> future s = (t, f) :: rest ->
  sched_ok (load_next_slot s) /\ agenda (load_next_slot s) ≡ₚ agenda s /\
  cancel_slots (load_next_slot s) = cancel_slots s /\ now (load_next_slot s) = t /\ now s <= t /\
  Forall (fun p => t <= fst p) (agenda s) /\ is_Some (current (load_next_slot s)).
Proof.
  intros Hok Hc Hf. pose proof Hok as [H1 H2 H3 H4 H5 H6 H7 [C1 C2 C3]].
  rewrite Hf in H4, H5, H6. csimpl in *. apply Forall_cons in H5 as [Ht H5]. apply Forall_cons in H6 as [[B1 B2] H6].
  unfold later in Ht, H5. rewrite Hc in Ht, H5. inversion H4 as [|? ? H4' Hlt]; subst.
  set (c1 := mkCurrentSlot t 0 0 (future_generic f) empty_bucket (future_systemverilog f)
               empty_queue None 0 None (future_end_of_slot f) false).
  set (s1 := load_next_slot s).
  assert (current s1 = Some c1 /\ future s1 = rest /\ now s1 = t /\ cancel_slots s1 = cancel_slots s /\
    max_delta_cycles s1 = max_delta_cycles s /\ next_sequence s1 = next_sequence s) as (E1 & E2 & E3 & E4 & E5 & E6)
    by (unfold s1, load_next_slot; by rewrite Hf).
  assert (all_queues s1 ≡ₚ ((fun q => (t, q)) <$> (empty_queue :: empty_bucket)) ++ all_queues s) as Hall.
  { rewrite !all_queues_eq, Hc, Hf, queues_of_cons, E1, E2. unfold slot_queues, future_slot_queues.
    cbn [slot_current slot_next_delta slot_systemverilog systemverilog_running slot_end_of_slot slot_time c1].
    rewrite loaded_perm, fmap_app, <- app_assoc. done. }
  assert (agenda s1 ≡ₚ agenda s) as Ha.
  { unfold agenda. rewrite Hall, agenda_of_app, E4. done. }
  clearbody s1. split_and!; try done.
  - split; rewrite ?E1, ?E2, ?E3, ?E4, ?E5, ?E6; try done.
    + unfold later. rewrite E1, E3. eapply Forall_impl; [exact Hlt|]. simpl. lia.
    + intros c [= <-]. split; rewrite ?E3, ?E4, ?E5; simpl; try done; unfold phase_count; try lia.
      intros t'. destruct t'; simpl; try done. lia.
    + split; rewrite ?Hall.
      * apply Forall_app. split; [|done]. apply Forall_fmap. simpl.
        repeat (constructor; [apply empty_queue_ok|]). constructor.
      * apply Forall_app. split; [|done]. apply Forall_fmap. repeat (constructor; [constructor|]). constructor.
      * rewrite <- E4, <- Hall. change (NoDup (handles (agenda s1))). by rewrite Ha.
  - apply Forall_forall. intros [t' e] Hin. simpl. apply agenda_elem in Hin as [(c & Hc' & _)|Hin]; [congruence|].
    rewrite Hf in Hin. csimpl in *. apply elem_of_cons in Hin as [->|Hin]; [lia|].
    rewrite Forall_forall in Hlt. specialize (Hlt t' Hin). lia.
Qed.

Lemma advance_delta_moves s c : sched_ok s -> current s = Some c ->
  slot_delta c + 1 < max_delta_cycles s -> moves s (advance_delta s c).
Proof.
  intros Hok Hc Hd. unfold advance_delta.
  pose proof (ok_current s Hok c Hc) as [S1 S2 S3 S4 S5 [B1 B2 B3] S7].
  match goal with |- moves s (update_status _ (with_slot s ?c')) => assert (moves s (with_slot s c')) as Hm end.
  { apply (with_slot_moves s c); try done.
    - unfold slot_queues. simpl. apply Permutation_app_swap_app.
    - split; simpl; try done; try lia. intros t. destruct t; simpl; try done; [lia|]. by apply (S7 AtRunning). }
  eapply moves_trans; [exact Hm|]. apply moves_status. apply Hm.
Qed.

Lemma set_executing_end_moves s c v : sched_ok s -> current s = Some c ->
  moves s (with_slot s (set_executing_end v c)).
Proof.
  intros Hok Hc. pose proof (ok_current s Hok c Hc) as [S1 S2 S3 S4 S5 S6 S7].
  apply (with_slot_moves s c); try done. split; try done. by destruct S6.
Qed.

(** A slot without pending work may go. *)
Lemma close_slot_moves s c : sched_ok s -> current s = Some c ->
  Forall (fun q => pending (cancel_slots s) q = []) (slot_queues c) ->
  moves s (with_queues s (future s) None).
Proof.
  intros Hok Hc He. pose proof Hok as [H1 H2 H3 H4 H5 H6 H7 [C1 C2 C3]].
  assert (all_queues s = ((fun q => (slot_time c, q)) <$> slot_queues c) ++ queues_of (future s)) as Eall
    by (rewrite all_queues_eq; by rewrite Hc).
  assert (agenda (with_queues s (future s) None) = agenda s) as Ha.
  { unfold agenda. rewrite Eall, agenda_of_app, (agenda_of_pending_nil _ (slot_time c)) by done. done. }
  split; [|by rewrite Ha|done..]. rewrite Eall, Forall_app in C1, C2. split; try done.
  - unfold later in *. rewrite Hc in H5. simpl. eapply Forall_impl; [exact H5|]. simpl. lia.
  - split; [apply C1|apply C2|].
    change (NoDup (handles (agenda (with_queues s (future s) None)))). by rewrite Ha.
Qed.

Lemma slot_idle_pending s c : sched_ok s -> current s = Some c -> slot_idle (cancel_slots s) c = true ->
  Forall (fun q => pending (cancel_slots s) q = []) (slot_queues c).
Proof.
  intros Hok Hc Hi. destruct Hok as [_ _ _ _ _ _ _ [C1 _ _]].
  rewrite all_queues_eq, Hc in C1. apply Forall_app in C1 as [C1 _]. rewrite Forall_fmap in C1.
  unfold slot_idle, bucket_empty in Hi. rewrite !andb_true_iff in Hi. destruct Hi as [[[[I1 I2] I3] I4] I5].
  assert (forallb (queue_empty (cancel_slots s)) (slot_queues c) = true) as Hall.
  { unfold slot_queues. rewrite !forallb_app, I1, I2, I3. simpl. by rewrite I4, I5. }
  apply Forall_forall. intros q Hq. rewrite Forall_forall in C1. rewrite forallb_forall in Hall.
  apply queue_empty_spec; [by apply C1|]. apply Hall. by apply list_elem_of_In.
Qed.

(** The queues of a slot whose phases are over and that has no batch. *)
Lemma finished_slot_pending s c : sched_ok s -> current s = Some c -> systemverilog_phase c = None ->
  slot_phase c = phase_count -> bucket_empty (cancel_slots s) (slot_next_delta c) = true ->
  (forall i, i ∈ up 0 phase_count -> pending (cancel_slots s) (queue_at (slot_systemverilog c) i) = []) ->
  Forall (fun q => pending (cancel_slots s) q = [])
    (slot_current c ++ slot_next_delta c ++ slot_systemverilog c ++ [systemverilog_running c]).
Proof.
  intros Hok Hc Hp Hph Hn Hsv. pose proof (ok_current s Hok c Hc) as [S1 S2 S3 S4 S5 [B1 B2 B3] S7].
  assert (forall b, bucket_shape b -> (forall i, 0 <= i < phase_count -> pending (cancel_slots s) (queue_at b i) = []) ->
    Forall (fun q => pending (cancel_slots s) q = []) b) as Hb.
  { intros b Hb He. apply Forall_lookup. intros j q Hj. pose proof (lookup_lt_Some _ _ _ Hj) as Hlt.
    unfold bucket_shape in Hb. specialize (He (Z.of_nat j)). unfold queue_at, phase_count in He.
    rewrite Nat2Z.id, Hj in He. apply He. lia. }
  rewrite !Forall_app. split_and!.
  - apply Hb; [done|]. intros i Hi. apply (S7 (AtCurrent i)). simpl. lia.
  - apply Hb; [done|]. intros i Hi.
    destruct (slot_queue_entries s c (AtNextDelta i) Hok Hc) as [Hq _]; [apply index_below; lia|done|].
    apply queue_empty_spec; [done|]. unfold bucket_empty in Hn. rewrite forallb_forall in Hn.
    unfold queue_at. destruct (slot_next_delta c !! Z.to_nat i) as [q|] eqn:E; [|done]. simpl.
    apply Hn, list_elem_of_In. by eapply list_elem_of_lookup_2.
  - apply Hb; [done|]. intros i Hi. apply Hsv. apply elem_of_up. lia.
  - constructor; [|constructor]. apply (S7 AtRunning). done.
Qed.

(** ** Steps in which tasks or observers run *)

Record runs s s' : Prop := {
  runs_ok : sched_ok s';
  runs_now : now s' = now s;
  runs_limit : max_delta_cycles s' = max_delta_cycles s;
  runs_slot : slot_header <$> current s' = slot_header <$> current s;
  runs_effect : exists gone added, effect s s' gone added;
}.

Lemma runs_trans s1 s2 s3 : runs s1 s2 -> runs s2 s3 -> runs s1 s3.
Proof.
  intros [? ? ? ? (g1 & a1 & E1)] [? ? ? ? (g2 & a2 & E2)].
  split; try congruence. do 2 eexists. by eapply effect_trans.
Qed.

Lemma runs_core s s' : sched_ok s -> same_core s s' -> runs s s'.
Proof.
  intros Hok Hc. pose proof (core_agenda _ _ Hc) as Ha. split; [by eapply core_ok|apply Hc..| |].
  - by rewrite (core_current _ _ Hc).
  - do 2 eexists. apply effect_same; [apply Hc|by rewrite Ha].
Qed.

Lemma runs_frame s s' : sched_ok s' -> frame s s' -> runs s s'.
Proof. intros Hok []. by split. Qed.

Lemma runs_status f s : sched_ok s -> runs s (update_status f s).
Proof. intros Hok. by apply runs_core. Qed.

Lemma runs_program p s : sched_ok s -> runs s (fst (run_program p s)).
Proof. intros Hok. destruct (run_program_keeps p s Hok). by apply runs_frame. Qed.

Lemma runs_hooks ps s : sched_ok s -> runs s (fst (run_hooks ps s)).
Proof.
  revert s. induction ps as [|p ps IH]; intros s Hok; simpl; [by apply runs_core|].
  unfold mbind, act_bind. pose proof (runs_program p s Hok) as Hp. destruct (run_program p s) as [s1 [[]|]]; simpl in *; [|done].
  eapply runs_trans; [exact Hp|]. apply IH, Hp.
Qed.

Lemma runs_slot_start_hooks s : sched_ok s -> runs s (fst (run_slot_start_hooks code s)).
Proof.
  intros Hok. unfold run_slot_start_hooks, mbind, act_bind, get. simpl.
  set (m := match slot_start_hook (hooks s) with Some t => run_program (code t) | None => mret () end).
  assert (runs s (fst (m s))) as Hp.
  { unfold m. destruct (slot_start_hook _); [by apply runs_program|by apply runs_core]. }
  destruct (m s) as [s1 [[]|]]; simpl in *; [|done].
  eapply runs_trans; [exact Hp|]. apply runs_hooks, Hp.
Qed.

Lemma runs_safe_point_hooks phase s : sched_ok s -> runs s (fst (run_safe_point_hooks hook_code phase s)).
Proof.
  intros Hok. unfold run_safe_point_hooks. cbv zeta. set (ps := _ ++ _). destruct ps as [|p ps'] eqn:E; [by apply runs_core|].
  rewrite <- E. pose proof (runs_status (set_in_safe_point true) s Hok) as H1.
  pose proof (runs_hooks ps _ (runs_ok _ _ H1)) as H2. destruct (run_hooks ps _) as [s2 r]. simpl in *.
  eapply runs_trans; [exact H1|]. eapply runs_trans; [exact H2|]. apply runs_status, H2.
Qed.

Lemma runs_quiet_hook t s : sched_ok s -> runs s (run_quiet_hook code t s).
Proof.
  intros Hok. unfold run_quiet_hook. cbv zeta.
  eapply runs_trans; [by apply runs_status|]. eapply runs_trans; [apply runs_program; by apply moves_status|].
  apply runs_status. apply runs_program. by apply moves_status.
Qed.

Lemma runs_table s cs' gone : sched_ok s -> slots_ok cs' -> table_step (cancel_slots s) cs' gone ->
  runs s (with_slots s cs').
Proof. intros H1 H2 H3. destruct (with_slots_ok s cs' gone H1 H2 H3) as (? & ? & _). by apply runs_frame. Qed.

Lemma runs_complete s e : sched_ok s -> runs s (with_slots s (complete (cancel_slots s) e)).
Proof.
  intros Hok. pose proof (ok_slots s Hok) as Hcs. unfold complete. destruct (entry_cancellation e) as [id|].
  - eapply runs_table; [done|by apply release_ok|by apply table_step_release].
  - eapply runs_table; [done|done|apply table_step_refl].
Qed.

(** The task a live entry stands for. *)
Definition task_of s e : option Task :=
  match entry_task e with
  | DescriptorTask t => Some t
  | task => match entry_cancellation e with
            | Some id => stored (cancel_slots s) id
            | None => match task with CallbackTask t => Some t | _ => None end
            end
  end.

Lemma task_of_live s e : entry_ok (cancel_slots s) e -> live (cancel_slots s) e = true -> is_Some (task_of s e).
Proof.
  unfold entry_ok, live, is_cancelled, task_of. destruct (entry_task e); [| by eexists |];
    (destruct (entry_cancellation e); [intros [_ H]; rewrite negb_involutive; auto|]); [by eexists|done].
Qed.

Lemma runs_entry s e : sched_ok s -> entry_ok (cancel_slots s) e -> live (cancel_slots s) e = true ->
  runs s (fst (run_entry code e s)).
Proof.
  intros Hok He Hl. unfold run_entry.
  assert (forall s1 (taken : option Task), runs s s1 -> runs s (fst (let '(s, r) := match taken with
     | Some t => run_program (code t) s1 | None => (s1, inr bad_function_call) end in
     match r with inl _ => (s, inl ()) | inr f => (with_slots s (complete (cancel_slots s) e), inr f) end))) as Hrun.
  { intros s1 taken H1. set (m := match taken with Some t => _ | None => _ end).
    assert (runs s1 (fst m)) as Hm.
    { unfold m. destruct taken; [apply runs_program, H1|apply runs_core; [apply H1|done]]. }
    destruct m as [s2 [[]|f]]; simpl in *; [by eapply runs_trans|].
    eapply runs_trans; [exact H1|]. eapply runs_trans; [exact Hm|]. apply runs_complete, Hm. }
  assert (runs s (with_slots s (cancel_slots s))) as Hsame.
  { eapply runs_table; [done|apply Hok|apply table_step_refl]. }
  assert (forall id, entry_cancellation e = Some id -> runs s (with_slots s (fst (take_slot (cancel_slots s) id)))) as Htake.
  { intros id E. unfold live, is_cancelled in Hl. rewrite E, negb_involutive in Hl.
    eapply runs_table; [done|apply take_slot_ok, Hok|apply table_step_take; [apply Hok|done]]. }
  destruct (entry_task e) as [t|t|] eqn:Et.
  - destruct (entry_cancellation e) as [id|]; [|by apply (Hrun _ (Some t))].
    specialize (Htake id eq_refl). destruct (take_slot _ id) as [cs taken]. by apply Hrun.
  - pose proof (runs_program (code t) s Hok) as H1. destruct (run_program (code t) s) as [s1 r]. simpl in *.
    eapply runs_trans; [exact H1|]. apply runs_complete, H1.
  - destruct (entry_cancellation e) as [id|]; [|by apply (Hrun _ None)].
    specialize (Htake id eq_refl). destruct (take_slot _ id) as [cs taken]. by apply Hrun.
Qed.

(** ** The abstract scheduler *)

(** A clock and an agenda.  [log] lists the executed entries. *)
Inductive abstract_run : Z * list (Z * Entry Task) -> list (Z * Entry Task) ->
    Z * list (Z * Entry Task) -> Prop :=
  | abs_done n a a' : a ≡ₚ a' -> abstract_run (n, a) [] (n, a')
  | abs_tasks n a gone added log v :
      Forall (fun p => n <= fst p) added ->
      abstract_run (n, List.filter (fun p => spared gone (snd p)) a ++ added) log v ->
      abstract_run (n, a) log v
  | abs_execute n a e rest log v :
      a ≡ₚ (n, e) :: rest -> abstract_run (n, rest) log v -> abstract_run (n, a) ((n, e) :: log) v
  | abs_advance n t a log v :
      n <= t -> Forall (fun p => t <= fst p) a -> abstract_run (t, a) log v -> abstract_run (n, a) log v.

Lemma abstract_run_perm n a a' log v : abstract_run (n, a) log v -> a ≡ₚ a' -> abstract_run (n, a') log v.
Proof.
  intros H. remember (n, a) as v0 eqn:E. revert n a a' E.
  induction H as [m b b' Hb|m b gone added log v Hf H IH|m b e rest log v Hb H IH|m t b log v Hle Hf H IH];
    intros n a a' [= -> ->] Hp.
  - constructor. by rewrite <- Hp.
  - eapply abs_tasks; [exact Hf|]. eapply IH; [done|]. by rewrite (filter_perm _ _ _ Hp).
  - eapply abs_execute; [|exact H]. by rewrite <- Hp.
  - eapply abs_advance; [exact Hle| |by eapply IH]. by rewrite <- Hp.
Qed.

Lemma abstract_run_app v1 l1 v2 l2 v3 :
  abstract_run v1 l1 v2 -> abstract_run v2 l2 v3 -> abstract_run v1 (l1 ++ l2) v3.
Proof.
  intros H1 H2. induction H1 as [m b b' Hb|m b gone added log v Hf H IH|m b e rest log v Hb H IH|m t b log v Hle Hf H IH].
  - eapply abstract_run_perm; [exact H2|by symmetry].
  - eapply abs_tasks; [exact Hf|by apply IH].
  - eapply abs_execute; [exact Hb|by apply IH].
  - eapply abs_advance; [exact Hle|exact Hf|by apply IH].
Qed.

(** Executed entries come in order of time, none before the clock. *)
Lemma abstract_run_times v1 log v2 : abstract_run v1 log v2 ->
  fst v1 <= fst v2 /\ Forall (fun p => fst v1 <= fst p <= fst v2) log /\ StronglySorted Z.le (fst <$> log).
Proof.
  induction 1 as [m b b' Hb|m b gone added log v Hf H IH|m b e rest log v Hb H IH|m t b log v Hle Hf H IH]; simpl in *.
  - split_and!; [lia|constructor|constructor].
  - done.
  - destruct IH as (I1 & I2 & I3). split_and!; [done|constructor; [simpl; lia|done]|].
    csimpl. constructor; [done|]. apply Forall_fmap. eapply Forall_impl; [exact I2|]. simpl. lia.
  - destruct IH as (I1 & I2 & I3). split_and!; [lia| |done]. eapply Forall_impl; [exact I2|]. simpl. lia.
Qed.

Definition view s : Z * list (Z * Entry Task) := (now s, agenda s).

Lemma moves_view s s' : moves s s' -> abstract_run (view s) [] (view s').
Proof. intros [_ A _ N _]. unfold view. rewrite N. by constructor. Qed.

Lemma runs_view s s' : runs s s' -> abstract_run (view s) [] (view s').
Proof.
  intros [_ N _ _ (gone & added & [_ A F])]. unfold view. rewrite N. eapply abs_tasks; [exact F|]. constructor. by symmetry.
Qed.

(** ** Machine invariant *)

(** The locals of the dispatch part agree with the slot. *)
Definition dispatch_ok c (d : Dispatch) : Prop :=
  if d_systemverilog d then d_end_of_slot d = false /\ systemverilog_phase c = Some (d_phase d)
  else systemverilog_phase c = None /\
    (if d_end_of_slot d then slot_phase c = phase_count
     else slot_phase c = d_phase d /\ d_phase d < phase_count).

(** No work but the end-of-slot queue's is left in the slot. *)
Definition slot_quiet cs c : Prop :=
  Forall (fun q => pending cs q = [])
    (slot_current c ++ slot_next_delta c ++ slot_systemverilog c ++ [systemverilog_running c]).

Definition control_ok s (control : Control) : Prop :=
  match control with
  | AtHead | Done _ | Failed _ => True
  | InSlot => is_Some (current s)
  | Dispatching d executed =>
      exists c, current s = Some c /\ dispatch_ok c d /\
        (d_end_of_slot d = true -> executed = false -> slot_quiet (cancel_slots s) c)
  | Dispatched d =>
      exists c, current s = Some c /\ dispatch_ok c d /\
        (d_end_of_slot d = false -> pending (cancel_slots s) (slot_queue c (dispatch_target d)) = [])
  end.

Record machine_ok (until : option Z) (m : Sched * Control) : Prop := {
  machine_sched : sched_ok (fst m);
  machine_until : forall u, until = Some u -> now (fst m) <= u;
  machine_control : control_ok (fst m) (snd m);
}.

Lemma dispatch_target_ok s c d : sched_ok s -> current s = Some c -> dispatch_ok c d ->
  target_ok (dispatch_target d) /\ future_target (dispatch_target d) = None /\ ~ closed c (dispatch_target d).
Proof.
  intros Hok Hc. pose proof (slot_ok_phase s c (ok_current s Hok c Hc)). unfold dispatch_ok, dispatch_target.
  destruct (d_systemverilog d).
  - intros [_ E]. split_and!; try done. simpl. congruence.
  - destruct (d_end_of_slot d); [intros _; split_and!; simpl; tauto|]. intros (_ & E & Hlt).
    split_and!; [simpl; lia|done|simpl; lia].
Qed.

Lemma header_dispatch c c' d : slot_header c' = slot_header c -> dispatch_ok c d -> dispatch_ok c' d.
Proof. unfold slot_header, dispatch_ok. intros [= E1 E2 E3 E4 E5 E6 E7]. by rewrite E3, E4. Qed.

(** ** Steps *)

Definition within (until : option Z) (t : Z) : Prop := forall u, until = Some u -> t <= u.

(** A step from [s] to [m] that executed [log]. *)
Record reaches until s (log : list (Z * Entry Task)) (m : Sched * Control) : Prop := {
  reaches_ok : machine_ok until m;
  reaches_run : abstract_run (view s) log (view (fst m));
  reaches_limit : max_delta_cycles (fst m) = max_delta_cycles s;
}.

Lemma reaches_moves until s s' log m : moves s s' -> reaches until s' log m -> reaches until s log m.
Proof.
  intros Hm [H1 H2 H3]. split; [done| |rewrite H3; apply Hm].
  change log with ([] ++ log). eapply abstract_run_app; [by apply moves_view|done].
Qed.

Lemma reaches_runs until s s' log m : runs s s' -> reaches until s' log m -> reaches until s log m.
Proof.
  intros Hm [H1 H2 H3]. split; [done| |rewrite H3; apply Hm].
  change log with ([] ++ log). eapply abstract_run_app; [by apply runs_view|done].
Qed.

Lemma reaches_stay until s control : sched_ok s -> within until (now s) -> control_ok s control ->
  reaches until s [] (s, control).
Proof. intros H1 H2 H3. split; [by split|by constructor|done]. Qed.

Lemma reaches_finish until initial r s : sched_ok s -> within until (now s) -> reaches until s [] (finish initial r s).
Proof.
  intros Hok Hu. unfold finish. set (s1 := match current s, future s with None, [] => _ | _, _ => _ end).
  assert (moves s s1) as Hm.
  { unfold s1. destruct (current s); [by apply moves_refl|]. destruct (future s); [by apply moves_core|by apply moves_refl]. }
  eapply reaches_moves; [exact Hm|]. eapply reaches_moves; [apply moves_status, Hm|].
  apply reaches_stay; [apply moves_status, Hm| |done]. simpl. by rewrite (moves_now _ _ Hm).
Qed.

Lemma reaches_fail until f s : sched_ok s -> within until (now s) -> reaches until s [] (fail f s).
Proof.
  intros Hok Hu. eapply reaches_moves; [by apply (moves_status (set_in_run false))|].
  apply reaches_stay; [by apply moves_status|done|done].
Qed.

(** Moving the clock when nothing is pending up to [t]. *)
Lemma reaches_advance until s t log m : sched_ok s -> current s = None -> now s <= t ->
  Forall (fun p => t <= p) (fst <$> future s) ->
  (sched_ok (with_now s t) -> reaches until (with_now s t) log m) -> reaches until s log m.
Proof.
  intros Hok Hc Hle Hf Hk.
  assert (sched_ok (with_now s t)) as Hok'.
  { destruct Hok as [H1 H2 H3 H4 H5 H6 H7 H8]. split; try done.
    - unfold later. simpl. by rewrite Hc.
    - simpl. rewrite Hc. done. }
  destruct (Hk Hok') as [R1 R2 R3]. split; [done| |done].
  eapply abs_advance; [exact Hle| |exact R2]. apply Forall_forall. intros [t' e] Hin. simpl.
  apply agenda_elem in Hin as [(c & Hc' & _)|Hin]; [congruence|]. rewrite Forall_forall in Hf. by apply Hf.
Qed.

Lemma head_step_ok until initial s : sched_ok s -> within until (now s) ->
  reaches until s [] (head_step code until initial s).
Proof.
  intros Hok Hu. unfold head_step. destruct (current s) as [c|] eqn:Hc.
  { apply reaches_stay; [done|done|]. simpl. by rewrite Hc. }
  destruct (stop (status s)); [by apply reaches_finish|]. cbv zeta.
  pose proof (drop_empty_slots_moves s Hok) as Hm. rewrite Hc in Hm.
  eapply reaches_moves; [exact Hm|]. set (s1 := with_queues s _ None) in *.
  assert (sched_ok s1) as Hok1 by apply Hm. assert (within until (now s1)) as Hu1 by done.
  assert (current s1 = None) as Hc1 by done. clearbody s1.
  destruct (future s1) as [|[t f] rest] eqn:Hf.
  - destruct until as [limit|]; [|by apply reaches_finish].
    destruct (Z.ltb_spec (now s1) limit); [|by apply reaches_finish].
    apply (reaches_advance _ s1 limit); [done|done|lia|rewrite Hf; constructor|]. intros Hok2.
    apply reaches_finish; [done|]. intros u [= <-]. simpl. lia.
  - pose proof (ok_order s1 Hok1) as Hord. pose proof (ok_time s1 Hok1) as Htime.
    rewrite Hf in Hord, Htime. csimpl in *. inversion Hord as [|? ? Hord' Hlt]; subst.
    destruct (match until with Some limit => t >? limit | None => false end) eqn:El.
    + destruct until as [limit|]; [|done]. simpl. rewrite Z.gtb_ltb in El. apply Z.ltb_lt in El.
      specialize (Hu1 limit eq_refl). apply (reaches_advance _ s1 limit); [done|done|lia| |].
      * rewrite Hf. csimpl. constructor; [lia|]. eapply Forall_impl; [exact Hlt|]. simpl. lia.
      * intros Hok2. apply reaches_finish; [done|]. intros u [= <-]. simpl. lia.
    + destruct (load_next_slot_ok s1 t f rest Hok1 Hc1 Hf) as (O & A & Ecs & En & Hle & Hall & Hcur).
      assert (within until t) as Hut.
      { intros u ->. rewrite Z.gtb_ltb in El. apply Z.ltb_ge in El. done. }
      pose proof (runs_slot_start_hooks _ O) as Hr.
      assert (reaches until s1 [] (load_next_slot s1, InSlot)) as Hload.
      { split; [split; cbn [fst snd]; [done|by rewrite En|done]| |].
        - unfold view. cbn [fst]. rewrite En. eapply abs_advance; [exact Hle|exact Hall|]. constructor. by symmetry.
        - simpl. unfold load_next_slot. by rewrite Hf. }
      destruct (run_slot_start_hooks code (load_next_slot s1)) as [s2 r]. simpl in Hr.
      assert (reaches until s1 [] (s2, InSlot)) as Hin.
      { pose proof (runs_view _ _ Hr) as Hv. destruct Hload as [L1 L2 L3]. split.
        - split; simpl; [apply Hr|rewrite (runs_now _ _ Hr), En; done|].
          pose proof (runs_slot _ _ Hr) as Hs. destruct Hcur as [c Ec]. rewrite Ec in Hs. by destruct (current s2).
        - change ([] : list (Z * Entry Task)) with ([] ++ [] : list (Z * Entry Task)). by eapply abstract_run_app.
        - simpl. rewrite (runs_limit _ _ Hr). apply L3. }
      destruct r as [[]|f']; [done|]. destruct Hin as [[I1 I2 _] I3 I4].
      pose proof (reaches_fail until f' s2 I1 I2) as [F1 F2 F3]. split; [done| |by rewrite F3].
      change ([] : list (Z * Entry Task)) with ([] ++ [] : list (Z * Entry Task)). by eapply abstract_run_app.
Qed.

Lemma enter_dispatch_ok until initial s c (sv eos : bool) : sched_ok s -> within until (now s) -> current s = Some c ->
  (if sv then eos = false /\ is_Some (systemverilog_phase c)
   else systemverilog_phase c = None /\
     if eos then slot_phase c = phase_count /\ slot_quiet (cancel_slots s) c else slot_phase c < phase_count) ->
  reaches until s [] (enter_dispatch initial s c sv eos).
Proof.
  intros Hok Hu Hc Hd. unfold enter_dispatch. cbv zeta.
  pose proof (set_executing_end_moves s c eos Hok Hc) as Hm.
  eapply reaches_moves; [exact Hm|].
  set (s1 := with_slot s (set_executing_end eos c)) in *. set (d := mkDispatch _ _ _).
  destruct (queue_empty _ _ && _); [by apply reaches_finish; [apply Hm|]|].
  apply reaches_stay; [apply Hm|done|]. eexists. split; [done|]. split.
  - unfold dispatch_ok, d. simpl. destruct sv.
    + destruct Hd as [-> [p Hp]]. by rewrite Hp.
    + destruct Hd as [Hp Hd]. split; [done|]. destruct eos; [apply Hd|done].
  - intros He _. unfold d in He. simpl in He. subst eos. destruct sv; [by destruct Hd|]. apply Hd.
Qed.

Lemma batch_indices n : n <= phase_count -> Forall (fun i => 0 <= i < phase_count) (up 0 n).
Proof. intros Hn. apply Forall_forall. intros i Hi%elem_of_up. lia. Qed.

Lemma begin_systemverilog_batch_spec (b : bool) s c : sched_ok s -> current s = Some c -> systemverilog_phase c = None ->
  batch_spec (up 0 (if b then phase_count else phase_count - 1)) s c (begin_systemverilog_batch b s).
Proof.
  intros Hok Hc Hp. apply begin_batch_at_spec; [apply NoDup_seqZ|apply batch_indices; destruct b; lia|done..].
Qed.

Lemma finished_phases_ok until initial s c : sched_ok s -> within until (now s) -> current s = Some c ->
  systemverilog_phase c = None -> slot_phase c = phase_count ->
  reaches until s [] (finished_phases code initial s c).
Proof.
  intros Hok Hu Hc Hp Hph. unfold finished_phases. destruct (stop _); [by apply reaches_finish|].
  destruct (bucket_empty _ (slot_next_delta c)) eqn:Hn; cbn [negb].
  2:{ destruct (Z.geb_spec (slot_delta c + 1) (max_delta_cycles s)); [by apply reaches_fail|].
      eapply reaches_moves; [by apply (advance_delta_moves s c)|].
      apply reaches_stay; [by apply advance_delta_moves|done|done]. }
  pose proof (begin_systemverilog_batch_spec true s c Hok Hc Hp) as Hb.
  destruct (begin_systemverilog_batch true s) as [s1 r]. destruct Hb as (Hm & Hst & Hhk & c1 & Hc1 & Hr).
  eapply reaches_moves; [exact Hm|]. assert (sched_ok s1) as Hok1 by apply Hm.
  assert (within until (now s1)) as Hu1 by by rewrite (moves_now _ _ Hm).
  destruct r as [[|]|f]; [..|by apply reaches_fail]; rewrite Hc1.
  - destruct Hr as (i & _ & Hi & _). apply enter_dispatch_ok; [done|done|done|]. by rewrite Hi.
  - destruct Hr as ([N1 N2 N3 N4 N5] & He & _). unfold slot_header in N1. injection N1 as _ _ E3 E4 _ _ _.
    rewrite <- (moves_slots _ _ Hm) in *.
    assert (slot_quiet (cancel_slots s1) c1) as Hquiet.
    { apply finished_slot_pending; [done|done|congruence|congruence|by rewrite N3|done]. }
    destruct (queue_empty _ (slot_end_of_slot c1)) eqn:Ee.
    + assert (moves s1 (with_queues s1 (future s1) None)) as Hclose.
      { apply (close_slot_moves s1 c1 Hok1 Hc1). unfold slot_quiet in Hquiet. unfold slot_queues.
        rewrite !Forall_app in Hquiet |- *. destruct Hquiet as (Q1 & Q2 & Q3 & Q4). split_and!; try done.
        inversion Q4; subst. constructor; [done|]. constructor; [|constructor].
        apply queue_empty_spec; [|done]. by apply (slot_queue_entries s1 c1 AtEndOfSlot). }
      destruct (runtime_slot_quiet_hook (hooks s1)) as [t|].
      * cbv zeta. pose proof (runs_quiet_hook t s1 Hok1) as Hq. eapply reaches_runs; [exact Hq|].
        assert (sched_ok (run_quiet_hook code t s1)) as Hok2 by apply Hq.
        assert (within until (now (run_quiet_hook code t s1))) as Hu2 by by rewrite (runs_now _ _ Hq).
        set (s2 := run_quiet_hook code t s1) in *. clearbody s2.
        destruct (current s2) as [c2|] eqn:Hc2; [|by apply reaches_stay].
        destruct (slot_idle (cancel_slots s2) c2) eqn:Ei; [|by apply reaches_stay].
        assert (moves s2 (with_queues s2 (future s2) None)) as Hclose2.
        { apply (close_slot_moves s2 c2 Hok2 Hc2). by apply slot_idle_pending. }
        eapply reaches_moves; [exact Hclose2|]. apply reaches_stay; [apply Hclose2|done|done].
      * eapply reaches_moves; [exact Hclose|]. apply reaches_stay; [apply Hclose|done|done].
    + apply enter_dispatch_ok; [done|done|done|]. split; [congruence|]. split; [congruence|done].
Qed.

Lemma slot_step_ok until initial s : sched_ok s -> within until (now s) ->
  reaches until s [] (slot_step code initial s).
Proof.
  intros Hok Hu. unfold slot_step. destruct (current s) as [c|] eqn:Hc; [|by apply reaches_stay].
  destruct (stop _); [by apply reaches_finish|].
  destruct (systemverilog_phase c) as [p|] eqn:Hp.
  - rewrite Hc. cbn [negb andb]. apply enter_dispatch_ok; [done|done|done|]. by rewrite Hp.
  - pose proof (begin_systemverilog_batch_spec false s c Hok Hc Hp) as Hb.
    destruct (begin_systemverilog_batch false s) as [s1 r]. destruct Hb as (Hm & _ & _ & c1 & Hc1 & Hr).
    eapply reaches_moves; [exact Hm|]. assert (sched_ok s1) as Hok1 by apply Hm.
    assert (within until (now s1)) as Hu1 by by rewrite (moves_now _ _ Hm).
    destruct r as [[|]|f]; [..|by apply reaches_fail]; rewrite Hc1; cbn [negb andb].
    + destruct Hr as (i & _ & Hi & _). apply enter_dispatch_ok; [done|done|done|]. by rewrite Hi.
    + destruct Hr as ([N1 _ _ _ _] & _ & _). unfold slot_header in N1. injection N1 as _ _ E3 E4 _ _ _.
      assert (systemverilog_phase c1 = None) as Hp1 by congruence.
      destruct (Z.eqb_spec (slot_phase c1) phase_count); [by apply finished_phases_ok|].
      apply enter_dispatch_ok; [done|done|done|]. split; [done|].
      pose proof (slot_ok_phase s1 c1 (ok_current s1 Hok1 c1 Hc1)). lia.
Qed.

(** The queue as [pop] sees it. *)
Definition ready_queue s (d : Dispatch) q : WorkQueue Task :=
  let cs := cancel_slots s in
  fst (next cs (if negb (d_systemverilog d) && negb (d_end_of_slot d) && (d_phase d =? active)
                then prepare cs q else q)).

Lemma ready_queue_spec s d q : queue_ok q ->
  queue_ok (ready_queue s d q) /\ pending (cancel_slots s) (ready_queue s d q) ≡ₚ pending (cancel_slots s) q /\
  forall P, Forall P (held q) -> Forall P (held (ready_queue s d q)).
Proof.
  intros Hq. unfold ready_queue. set (b := _ && _ && _). destruct b.
  - destruct (prepare_spec (cancel_slots s) q Hq) as [[Hp _ _ _] Hpp].
    destruct (next_spec (cancel_slots s) _ Hp) as [H1 H2]. split_and!; [done|by rewrite H2|].
    intros P HP. apply next_held; [done|]. by apply prepare_held.
  - destruct (next_spec (cancel_slots s) _ Hq) as [H1 H2]. split_and!; [done|done|]. intros P HP. by apply next_held.
Qed.

(** The entry a step executes. *)
Definition chosen s (d : Dispatch) (executed : bool) : option (Entry Task) :=
  match current s with
  | None => None
  | Some c =>
      let q := slot_queue c (dispatch_target d) in
      if negb (queue_empty (cancel_slots s) q) && negb (d_end_of_slot d && executed) && negb (stop (status s)) then
        match pop (cancel_slots s) (ready_queue s d q) with Ok (_, e) => Some e | Throw _ => None end
      else None
  end.
Definition log_of (m : Sched * Control) : list (Z * Entry Task) :=
  match snd m with
  | Dispatching d executed =>
      match chosen (fst m) d executed with Some e => [(now (fst m), e)] | None => [] end
  | _ => []
  end.

(** Taking an entry from the dispatched queue: it is live, it is the least of
    its queue, and the agenda loses exactly it. *)
Lemma take_entry s c d : sched_ok s -> current s = Some c -> dispatch_ok c d ->
  let q := slot_queue c (dispatch_target d) in
  pending (cancel_slots s) q <> [] ->
  exists q' e, pop (cancel_slots s) (ready_queue s d q) = Ok (q', e) /\
    entry_ok (cancel_slots s) e /\ live (cancel_slots s) e = true /\
    pending (cancel_slots s) q ≡ₚ e :: pending (cancel_slots s) q' /\
    Forall (key_le e) (pending (cancel_slots s) q') /\
    let s' := update_target s (dispatch_target d) (fun _ => q') in
    sched_ok s' /\ agenda s ≡ₚ (now s, e) :: agenda s'.
Proof.
  intros Hok Hc Hd q Hne. destruct (dispatch_target_ok s c d Hok Hc Hd) as (Ht & Hf & Hcl).
  destruct (slot_queue_entries s c _ Hok Hc Ht Hf) as [Hq He]. fold q in Hq, He.
  destruct (ready_queue_spec s d q Hq) as (Hrq & Hrp & Hrh).
  pose proof (pop_spec (cancel_slots s) _ Hrq) as Hpop. 
  pose proof (pop_held (entry_ok (cancel_slots s)) (cancel_slots s) (ready_queue s d q)) as Hph.
  destruct (pop (cancel_slots s) (ready_queue s d q)) as [[q' e]|x].
  2:{ destruct Hpop as (_ & E & _). rewrite E in Hrp. by apply Permutation_nil in Hrp. }
  destruct Hpop as [[P1 P2 P3 P4] _]. destruct (Hph q' e Hrq (Hrh _ He) eq_refl) as [Hee Heq].
  exists q', e. split_and!; try done; [by rewrite <- Hrp|].
  assert (valid_ref s (dispatch_target d)) as Hv by (split; [done|by rewrite Hc]).
  assert (target_queue s (dispatch_target d) = q) as Etq by (unfold target_queue; by rewrite Hf, Hc).
  assert (target_time s (dispatch_target d) = now s) as Ett by (unfold target_time; by rewrite Hf).
  destruct (update_target_agenda s (dispatch_target d) (fun _ => q') Hok Hv) as (rest & A1 & A2).
  rewrite Etq, Ett in A1. rewrite Ett in A2. rewrite <- Hrp, P3 in A1.
  assert (agenda s ≡ₚ (now s, e) :: agenda (update_target s (dispatch_target d) (fun _ => q'))) as Ha.
  { by rewrite A1, A2. }
  split; [|done]. apply update_target_ok; try done; [congruence|intros c' Ec'; by replace c' with c by congruence|].
  pose proof (contents_handles _ _ (ok_contents s Hok)) as Hnd. change (NoDup (handles (agenda s))) in Hnd.
  rewrite Ha in Hnd. simpl in Hnd. destruct (entry_cancellation e); [by inversion Hnd|done].
Qed.

Lemma dispatch_step_ok until initial s d executed : sched_ok s -> within until (now s) ->
  control_ok s (Dispatching d executed) ->
  reaches until s (log_of (s, Dispatching d executed)) (dispatch_step code initial s d executed).
Proof.
  intros Hok Hu (c & Hc & Hd & _). unfold dispatch_step, log_of, chosen. cbn [fst snd]. rewrite Hc. cbv zeta.
  set (q := slot_queue c (dispatch_target d)). destruct (dispatch_target_ok s c d Hok Hc Hd) as (Ht & Hf & _).
  destruct (slot_queue_entries s c _ Hok Hc Ht Hf) as [Hq _]. fold q in Hq.
  destruct (negb (queue_empty (cancel_slots s) q) && negb (d_end_of_slot d && executed)) eqn:Econd; cbn [andb].
  2:{ apply reaches_stay; [done|done|]. exists c. split_and!; [done|done|]. intros E. rewrite E in Econd. simpl in Econd.
      rewrite andb_true_r in Econd. apply negb_false_iff in Econd. by apply queue_empty_spec. }
  destruct (stop (status s)); cbn [negb]; [by apply reaches_finish|].
  apply andb_true_iff in Econd as [Ene _]. apply negb_true_iff in Ene.
  destruct (take_entry s c d Hok Hc Hd) as (q' & e & Hpop & He & Hl & _ & _ & Hok1 & Ha).
  { fold q. intros E. apply (queue_empty_spec (cancel_slots s) q Hq) in E. congruence. }
  fold q in Hpop. fold (ready_queue s d q). rewrite Hpop.
  set (s1 := update_target s (dispatch_target d) (fun _ => q')) in *.
  destruct (update_target_fields s (dispatch_target d) (fun _ => q')) as (F1 & F2 & F3 & F4 & F5 & F6 & F7). fold s1 in F1, F2, F3, F4, F5, F6, F7.
  pose proof (runs_status (set_in_callback true) s1 Hok1) as R1. set (s2 := update_status (set_in_callback true) s1) in *.
  assert (runs s2 (fst (run_entry code e s2))) as R2.
  { apply runs_entry; [apply R1| |]; unfold s2; simpl; by rewrite F4. }
  destruct (run_entry code e s2) as [s3 r]. cbn [fst] in R2.
  assert (runs s3 (update_status (set_in_callback false) s3)) as R3 by apply runs_status, R2.
  set (s4 := update_status (set_in_callback false) s3) in *.
  pose proof (runs_trans _ _ _ R1 (runs_trans _ _ _ R2 R3)) as R.
  assert (forall m, reaches until s4 [] m -> reaches until s [(now s, e)] m) as Hlast.
  { intros m Hm. destruct (reaches_runs until s1 s4 [] m R Hm) as [M1 M2 M3]. split; [done| |by rewrite M3].
    unfold view at 1. eapply abs_execute; [exact Ha|]. unfold view at 1 in M2. by rewrite F2 in M2. }
  apply Hlast. assert (sched_ok s4) as Hok4 by apply R.
  assert (within until (now s4)) as Hu4 by (rewrite (runs_now _ _ R), F2; done).
  destruct r as [[]|f]; [|by apply reaches_fail].
  match goal with |- reaches _ _ _ (?s5, _) => assert (moves s4 s5) as M5 by by apply moves_status end.
  eapply reaches_moves; [exact M5|]. apply reaches_stay; [apply M5|done|].
  pose proof (runs_slot _ _ R) as Hs. rewrite F7, Hc in Hs.
  destruct (current s4) as [c4|] eqn:Hc4; [|done]. apply (inj Some) in Hs.
  exists c4. split_and!; [exact Hc4|by eapply header_dispatch|congruence].
Qed.

(** Leaving the region moves nothing. *)
Lemma leave_moves s d c : sched_ok s -> control_ok s (Dispatched d) -> current s = Some c ->
  let s1 := update_target s (dispatch_target d) (clear_consumed (cancel_slots s)) in
  let c1 := update_slot c (dispatch_target d) (clear_consumed (cancel_slots s)) in
  moves s (with_slot s1 (leave_region d c1)).
Proof.
  intros Hok (c0 & Hc0 & Hd & He) Hc. replace c0 with c in * by congruence. clear c0 Hc0. cbv zeta.
  destruct (dispatch_target_ok s c d Hok Hc Hd) as (Ht & Hf & _).
  pose proof (clear_consumed_moves s _ c Hok Hc Ht Hf) as M1.
  set (s1 := update_target s (dispatch_target d) (clear_consumed (cancel_slots s))) in *.
  assert (current s1 = Some (update_slot c (dispatch_target d) (clear_consumed (cancel_slots s)))) as Hc1.
  { unfold s1, update_target. destruct (dispatch_target d); simplify_eq/=; by rewrite Hc. }
  set (c1 := update_slot c (dispatch_target d) (clear_consumed (cancel_slots s))) in *.
  pose proof (ok_current s1 (moves_ok _ _ M1) c1 Hc1) as [S1 S2 S3 S4 S5 S6 S7].
  assert (d_end_of_slot d = false -> pending (cancel_slots s1) (slot_queue c1 (dispatch_target d)) = []) as He1.
  { intros E. specialize (He E). rewrite (moves_slots _ _ M1).
    destruct (slot_queue_entries s c _ Hok Hc Ht Hf) as [Hq _].
    replace (slot_queue c1 (dispatch_target d)) with (clear_consumed (cancel_slots s) (slot_queue c (dispatch_target d))).
    - apply Permutation_nil. by rewrite (proj2 (clear_consumed_spec (cancel_slots s) _ Hq)), He.
    - pose proof (slot_ok_shape s c (ok_current s Hok c Hc)) as [B1 B2 B3]. unfold c1, dispatch_target in *.
      destruct (d_systemverilog d); [done|]. rewrite E in *. simpl in *.
      rewrite queue_at_set by (done || lia). by rewrite Z.eqb_refl. }
  assert (moves s1 (with_slot s1 (leave_region d c1))) as M2.
  { apply (with_slot_moves s1 c1); [apply M1|done|done|done|].
    unfold dispatch_ok in Hd. unfold dispatch_target in *.
    assert (slot_phase c1 = slot_phase c /\ systemverilog_phase c1 = systemverilog_phase c) as [Ep Esv] by done.
    split; simpl; try done.
    - destruct (d_systemverilog d); [done|]. destruct (d_end_of_slot d); [done|]. simpl. lia.
    - intros p. by destruct (d_systemverilog d); [|apply S5].
    - by destruct S6.
    - intros t Hcl. destruct t as [i|?|?| | |? ?|? ?|?]; simpl in Hcl; try done; simpl.
      + destruct (d_systemverilog d); [by apply (S7 (AtCurrent i))|]. destruct (d_end_of_slot d); [by apply (S7 (AtCurrent i))|].
        simpl in Hcl. destruct (decide (i = slot_phase c1)) as [->|]; [|apply (S7 (AtCurrent i)); simpl; lia].
        specialize (He1 eq_refl). simpl in He1. destruct Hd as (_ & Hph & _). rewrite Ep, Hph. exact He1.
      + destruct (d_systemverilog d); [|by apply (S7 AtRunning)]. destruct Hd as [E _]. rewrite E in He1. by apply He1. }
  exact (moves_trans _ _ _ M1 M2).
Qed.

Lemma dispatched_step_ok until s d : sched_ok s -> within until (now s) -> control_ok s (Dispatched d) ->
  reaches until s [] (dispatched_step hook_code s d).
Proof.
  intros Hok Hu Hco. pose proof Hco as (c & Hc & Hd & _). pose proof (leave_moves s d c Hok Hco Hc) as M.
  unfold dispatched_step. cbv zeta. destruct (dispatch_target_ok s c d Hok Hc Hd) as (_ & Hf & _).
  set (s1 := update_target s (dispatch_target d) (clear_consumed (cancel_slots s))) in *.
  set (c1 := update_slot c (dispatch_target d) (clear_consumed (cancel_slots s))) in *.
  assert (current s1 = Some c1) as ->.
  { unfold s1, update_target. destruct (dispatch_target d); simplify_eq/=; by rewrite Hc. }
  eapply reaches_moves; [exact M|]. pose proof (runs_safe_point_hooks (d_phase d) _ (moves_ok _ _ M)) as R.
  destruct (run_safe_point_hooks hook_code (d_phase d) _) as [s3 r]. cbn [fst] in R.
  eapply reaches_runs; [exact R|]. assert (within until (now s3)) as Hu3.
  { rewrite (runs_now _ _ R), (moves_now _ _ M). done. }
  destruct r as [[]|f]; [apply reaches_stay; [apply R|done|done]|apply reaches_fail; [apply R|done]].
Qed.

(** Every step of the machine is a run of the abstract scheduler that executes
    what the step executes, and keeps the invariant. *)
Lemma run_step_ok until initial m : machine_ok until m ->
  reaches until (fst m) (log_of m) (run_step code hook_code until initial m).
Proof.
  destruct m as [s control]. intros [Hok Hu Hc]. cbn [fst snd] in *. destruct control as [| |d ex|d|r|f]; cbn [run_step].
  - by apply head_step_ok.
  - by apply slot_step_ok.
  - by apply dispatch_step_ok.
  - by apply dispatched_step_ok.
  - by apply reaches_stay.
  - by apply reaches_stay.
Qed.

(** ** Whole runs *)

(** The entries executed by the first [fuel] steps, oldest first. *)
Fixpoint run_log (fuel : nat) (until : option Z) (initial : Z) (m : Sched * Control) : list (Z * Entry Task) :=
  match fuel with
  | O => []
  | S fuel => log_of m ++ run_log fuel until initial (run_step code hook_code until initial m)
  end.

Lemma run_steps_ok fuel until initial m : machine_ok until m ->
  reaches until (fst m) (run_log fuel until initial m) (run_steps code hook_code fuel until initial m).
Proof.
  revert m. induction fuel as [|fuel IH]; intros [s control] Hm; cbn [run_steps run_log fst].
  - destruct Hm. by apply reaches_stay.
  - destruct (run_step_ok until initial _ Hm) as [R1 R2 R3]. destruct (IH _ R1) as [R4 R5 R6].
    split; [done|by eapply abstract_run_app|by rewrite R6].
Qed.

Lemma start_run_ok until s : sched_ok s ->
  moves s (fst (start_run until s)) /\
  match snd (start_run until s) with
  | AtHead => in_run (status s) = false /\ machine_ok until (start_run until s)
  | Failed _ => fst (start_run until s) = s
  | _ => False
  end.
Proof.
  intros Hok. unfold start_run. destruct (in_run (status s)); [split; [by apply moves_refl|done]|].
  destruct (match until with Some limit => limit <? now s | None => false end) eqn:E;
    [split; [by apply moves_refl|done]|].
  split; [by apply moves_status|]. split; [done|]. split; [by apply moves_status| |done].
  intros u ->. apply Z.ltb_ge in E. done.
Qed.

(** The log of a call of [run]. *)
Definition executed_by (fuel : nat) (until : option Z) s : list (Z * Entry Task) :=
  match snd (start_run until s) with
  | AtHead => run_log fuel until (callbacks (status s)) (start_run until s)
  | _ => []
  end.

Lemma run_failed fuel until initial s f : run_steps code hook_code fuel until initial (s, Failed f) = (s, Failed f).
Proof. induction fuel as [|fuel IH]; [done|apply IH]. Qed.

Lemma run_refines fuel until s : sched_ok s ->
  let s' := fst (run code hook_code fuel until s) in
  sched_ok s' /\ abstract_run (view s) (executed_by fuel until s) (view s') /\
  max_delta_cycles s' = max_delta_cycles s.
Proof.
  intros Hok. unfold run, executed_by. destruct (start_run_ok until s Hok) as [Hm Hc].
  destruct (start_run until s) as [s1 control]. cbn [fst snd] in *.
  destruct control as [| |? ?|?|?|f]; try done.
  - destruct Hc as [_ Hmo]. destruct (run_steps_ok fuel until (callbacks (status s)) _ Hmo) as [R1 R2 R3].
    split_and!; [apply R1| |rewrite R3; apply Hm].
    change (run_log fuel until ?x ?y) with ([] ++ run_log fuel until x y).
    eapply abstract_run_app; [by apply moves_view|exact R2].
  - subst. rewrite run_failed. split_and!; [done|by constructor|done].
Qed.

(** ** Entries that no task cancels are executed or still pending *)

Lemma abstract_run_conserves v1 log v2 : abstract_run v1 log v2 ->
  forall p, p ∈ snd v1 -> entry_cancellation (snd p) = None -> p ∈ log \/ p ∈ snd v2.
Proof.
  induction 1 as [m b b' Hb|m b gone added log v Hf H IH|m b e rest log v Hb H IH|m t b log v Hle Hf H IH];
    simpl; intros p Hp Hn.
  - right. by rewrite <- Hb.
  - apply IH; [|done]. apply elem_of_app. left. apply list_elem_of_In, filter_In. split; [by apply list_elem_of_In|].
    unfold spared. by rewrite Hn.
  - rewrite Hb in Hp. apply elem_of_cons in Hp as [->|Hp]; [left; set_solver|].
    destruct (IH p Hp Hn); [left; set_solver|by right].
  - by apply IH.
Qed.

End dispatch.

(** ** Outcomes of scheduler calls and runs

    When a scheduling call is accepted and what its errors leave, cancelling a
    task that was just scheduled, what the diagnostic of the delta-cycle limit
    lists, and what the status a run ends with says about the agenda. *)

Section outcomes.
Context {Task : Type}.
Abbreviation Sched := (Scheduler Task).
Implicit Types (s : Sched) (c : CurrentSlot Task) (e : Entry Task).

(** ** Acceptance *)

(** [enqueue_at] refuses a time in the past and a phase out of range, and
    nothing else. *)
Lemma enqueue_at_accepts time phase e adjust s : now s <= time -> phase < phase_count ->
  exists s', enqueue_at time phase e adjust s = (s', inl ()).
Proof.
  intros Ht Hp. unfold enqueue_at. destruct (Z.ltb_spec time (now s)); [lia|]. cbv zeta.
  set (p := match at_current_time s time with Some c => _ | None => _ end).
  assert (p < phase_count) as Hp'.
  { unfold p. destruct (at_current_time s time) as [c|]; [|done].
    destruct (adjust && (slot_phase c <? phase_count) && is_reactive_region (slot_phase c)); [|done].
    by apply reactive_twin_below. }
  destruct (p =? postponed); [by eexists|]. destruct (Z.geb_spec p phase_count); [lia|].
  destruct (at_current_time s time) as [c|]; by eexists.
Qed.

Lemma schedule_at_accepts s time phase order t : discarding (status s) = false -> now s <= time ->
  phase < phase_count -> next_sequence s <> U64_MAX ->
  exists s', schedule_at time phase order (Some t) s = (s', inl ()).
Proof.
  intros Hd Ht Hp Hn. unfold schedule_at, unless_discarding. rewrite Hd.
  destruct (Z.ltb_spec time (now s)); [lia|]. unfold mbind, act_bind, make_entry. simpl.
  unfold mbind, act_bind, take_sequence. destruct (Z.eqb_spec (next_sequence s) U64_MAX); [done|].
  cbn [mret act_ret]. by apply enqueue_at_accepts.
Qed.

(** The reasons [schedule_at] may throw. *)
Lemma schedule_at_refuses s time phase order task s' f : schedule_at time phase order task s = (s', inr f) ->
  discarding (status s) = false /\
  (time < now s \/ task = None \/ phase_count <= phase \/ next_sequence s = U64_MAX).
Proof.
  intros E. assert (discarding (status s) = false) as Hd.
  { unfold schedule_at, unless_discarding in E. by destruct (discarding (status s)). }
  split; [done|]. destruct task as [t|]; [|tauto].
  destruct (decide (now s <= time)), (decide (phase < phase_count)), (decide (next_sequence s = U64_MAX)); try lia.
  destruct (schedule_at_accepts s time phase order t) as [s2 E2]; [done..|congruence].
Qed.

(** ** Scheduling and cancelling *)

Lemma handle_filter_none id (a : list (Z * Entry Task)) : id ∉ handles a ->
  List.filter (fun p => negb (of_handle (Some id) (snd p))) a = a.
Proof.
  intros Hni. apply filter_all. apply forallb_forall. intros [t e] Hin%list_elem_of_In. simpl.
  apply negb_true_iff, bool_decide_eq_false. intros E. apply Hni. apply list_elem_of_omap. by exists (t, e).
Qed.

(** Cancelling the handle a call returned takes back what the call did to the
    agenda. *)
Lemma cancel_undoes s m order sequence task time s' id : sched_ok s ->
  call_spec s m (joined_handle s order sequence task time) -> m = (s', inl (Some id)) ->
  agenda (cancel (Some id) s') ≡ₚ agenda s.
Proof.
  intros Hok Hm ->. destruct Hm as (added & [O F A] & Hj). unfold joined_handle in Hj.
  destruct (discarding (status s)); [by destruct Hj|].
  destruct Hj as (t & _ & id' & [= <-] & Hni & _ & _ & ->).
  destruct (cancel_spec s' (Some id) O) as (_ & _ & ->). rewrite (filter_perm _ _ _ A), List.filter_app.
  rewrite (handle_filter_none id (agenda s)); [simpl; by rewrite bool_decide_true|].
  intros Hin. by apply Hni, issued_handles.
Qed.

(** ** The diagnostic of the delta-cycle limit *)

Lemma pending_orders_elem cs q (o : Z) :
  o ∈ pending_orders (Task := Task) cs q <-> exists e, e ∈ pending cs q /\ entry_order e = o.
Proof.
  unfold pending_orders, pending. rewrite list_elem_of_fmap. fold (live cs). split; intros (e & H1 & H2); exists e; auto.
Qed.

(** It names the order of every task waiting for the next delta cycle, once. *)
Lemma pending_next_orders_spec s c : current s = Some c ->
  NoDup (pending_next_orders s) /\
  forall o, o ∈ pending_next_orders s <->
    exists q e, q ∈ slot_next_delta c /\ e ∈ pending (cancel_slots s) q /\ entry_order e = o.
Proof.
  intros Hc. unfold pending_next_orders. rewrite Hc. split; [apply NoDup_remove_dups|]. intros o.
  rewrite elem_of_remove_dups, merge_sort_Permutation, list_elem_of_bind.
  setoid_rewrite pending_orders_elem. naive_solver.
Qed.

(** ** How a run ends *)

Context (code : Task -> Program Task) (hook_code : Task -> Z -> Program Task).

(** A completed run leaves no work; one that met its time limit stands at the
    limit, and what is left lies beyond it. *)
Definition done_ok (until : option Z) (m : Sched * Control) : Prop :=
  match snd m with
  | Done r =>
      match run_status r with
      | completed => agenda (fst m) = []
      | time_limit => until = Some (now (fst m)) /\ Forall (fun p => now (fst m) < fst p) (agenda (fst m))
      | stopped => True
      end
  | _ => True
  end.

Lemma finish_agenda initial r s : agenda (fst (finish initial r s)) = agenda s /\ now (fst (finish initial r s)) = now s.
Proof. unfold finish. destruct (current s) eqn:E, (future s) eqn:E'; by rewrite ?E, ?E'. Qed.

Lemma finish_done until initial r s :
  match r with
  | completed => agenda s = []
  | time_limit => until = Some (now s) /\ Forall (fun p => now s < fst p) (agenda s)
  | stopped => True
  end -> done_ok until (finish initial r s).
Proof. intros H. destruct (finish_agenda initial r s) as [E1 E2]. unfold done_ok. rewrite E1, E2. by destruct r. Qed.

Lemma agenda_no_slots s : current s = None -> future s = [] -> agenda s = [].
Proof. intros E1 E2. unfold agenda, all_queues. by rewrite E1, E2. Qed.

Lemma head_step_done until initial s : sched_ok s -> done_ok until (head_step code until initial s).
Proof.
  intros Hok. unfold head_step. destruct (current s) as [c|] eqn:Hc; [done|].
  destruct (stop (status s)); [by apply finish_done|]. cbv zeta.
  pose proof (drop_empty_slots_moves s Hok) as Hm. rewrite Hc in Hm.
  set (s1 := with_queues s _ None) in *. assert (sched_ok s1) as Hok1 by apply Hm.
  assert (current s1 = None) as Hc1 by done. clearbody s1.
  destruct (future s1) as [|[t f] rest] eqn:Hf.
  - pose proof (agenda_no_slots s1 Hc1 Hf) as Ha.
    destruct until as [limit|]; [|by apply finish_done].
    destruct (now s1 <? limit); apply finish_done; [|done]. split; [done|].
    change (agenda (with_now s1 limit)) with (agenda s1). by rewrite Ha.
  - destruct (match until with Some limit => t >? limit | None => false end) eqn:El.
    + destruct until as [limit|]; [|done]. rewrite Z.gtb_ltb in El. apply Z.ltb_lt in El. simpl.
      apply finish_done. split; [done|]. change (agenda (with_now s1 limit)) with (agenda s1). simpl.
      pose proof (ok_order s1 Hok1) as Hord. rewrite Hf in Hord. csimpl in Hord.
      inversion Hord as [|? ? _ Hlt]; subst. apply Forall_forall. intros [t' e] Hin. simpl.
      apply agenda_elem in Hin as [(c & Hc' & _)|Hin]; [congruence|]. rewrite Hf in Hin. csimpl in Hin.
      apply elem_of_cons in Hin as [->|Hin]; [done|]. rewrite Forall_forall in Hlt. specialize (Hlt t' Hin). lia.
    + by destruct (run_slot_start_hooks code (load_next_slot s1)) as [s2 [[]|f']].
Qed.

(** Only the loop's head ends a run as completed or at its limit. *)
Definition not_over (m : Sched * Control) : Prop :=
  match snd m with Done r => run_status r = stopped | _ => True end.

Lemma not_over_done until m : not_over m -> done_ok until m.
Proof. unfold not_over, done_ok. destruct (snd m); try done. by intros ->. Qed.

Lemma enter_dispatch_over initial s c sv eos : not_over (enter_dispatch initial s c sv eos).
Proof. unfold enter_dispatch. cbv zeta. by destruct (_ && stop _). Qed.

Lemma finished_phases_over initial s c : not_over (finished_phases code initial s c).
Proof.
  unfold finished_phases. destruct (stop _); [done|]. destruct (negb _); [by destruct (_ >=? _)|].
  destruct (begin_systemverilog_batch true s) as [s1 [[]|]]; [| |done]; destruct (current s1); try done;
    [apply enter_dispatch_over|].
  destruct (queue_empty _ _); [|apply enter_dispatch_over]. destruct (runtime_slot_quiet_hook _); [|done].
  cbv zeta. destruct (current _); [|done]. by destruct (slot_idle _ _).
Qed.

Lemma slot_step_over initial s : not_over (slot_step code initial s).
Proof.
  unfold slot_step. destruct (current s) as [c|]; [|done]. destruct (stop _); [done|].
  destruct (match systemverilog_phase c with Some _ => _ | None => _ end) as [s1 [b|]]; [|done].
  destruct (current s1); [|done]. destruct (_ && _); [apply finished_phases_over|apply enter_dispatch_over].
Qed.

Lemma dispatch_step_over initial s d executed : not_over (dispatch_step code initial s d executed).
Proof.
  unfold dispatch_step. destruct (current s) as [c|]; [|done]. cbv zeta. destruct (_ && _); [|done].
  destruct (stop _); [done|]. destruct (pop _ _) as [[q e]|]; [|done].
  destruct (run_entry _ _ _) as [s1 [[]|]]; done.
Qed.

Lemma dispatched_step_over s d : not_over (dispatched_step hook_code s d).
Proof. unfold dispatched_step. cbv zeta. by destruct (run_safe_point_hooks _ _ _) as [s1 [[]|]]. Qed.

Lemma run_step_done until initial m : machine_ok until m -> done_ok until m ->
  done_ok until (run_step code hook_code until initial m).
Proof.
  destruct m as [s control]. intros Hm Hd. destruct control; simpl.
  - apply head_step_done, Hm.
  - apply not_over_done, slot_step_over.
  - apply not_over_done, dispatch_step_over.
  - apply not_over_done, dispatched_step_over.
  - done.
  - done.
Qed.

Lemma run_steps_done fuel until initial m : machine_ok until m -> done_ok until m ->
  done_ok until (run_steps code hook_code fuel until initial m).
Proof.
  revert m. induction fuel as [|fuel IH]; intros m Hm Hd; [done|]. simpl. apply IH.
  - by apply run_step_ok.
  - by apply run_step_done.
Qed.

Lemma run_done fuel until s : sched_ok s -> done_ok until (run code hook_code fuel until s).
Proof.
  intros Hok. unfold run. destruct (start_run_ok until s Hok) as [_ Hc].
  destruct (start_run until s) as [s1 [| |? ?|?|?|f]]; try done.
  - apply run_steps_done; [apply Hc|done].
  - by rewrite run_failed.
Qed.

(** Nothing runs beyond the time limit. *)
Lemma run_within fuel u s : sched_ok s -> now s <= u -> now (fst (run code hook_code fuel (Some u) s)) <= u.
Proof.
  intros Hok Hu. unfold run. destruct (start_run_ok (Some u) s Hok) as [Hm Hc].
  destruct (start_run (Some u) s) as [s1 [| |? ?|?|?|f]]; try done.
  - eapply machine_until; [apply run_steps_ok, Hc|done].
  - rewrite run_failed. cbn [fst snd] in *. by subst.
Qed.
End outcomes.
