(* ===== verification/SchedulerProgress.v ===== *)
(** * The dispatch loop makes progress

    A run with a time limit never goes round in circles: between two executed
    entries every step of the machine of SchedulerRun.v decreases a measure, made
    of the time left, the delta cycles, rounds and phases left in the slot and
    the place in the loop.  Tasks and observers may do what they like: they
    cannot turn back the slot's counters, and the delta limit bounds what they
    can make the loop repeat. *)
From stdpp Require Import sorting.
From S2P Require Import Prelude CancellationSlots WorkQueue SchedulerState SchedulerApi.
From S2P Require Import SchedulerInvariant SchedulerCalls SchedulerRun SchedulerDispatch.

(** ** Lexicographic order on measures *)

Inductive shorter : list nat -> list nat -> Prop :=
  | shorter_head a b l m : (a < b)%nat -> length l = length m -> shorter (a :: l) (b :: m)
  | shorter_tail a l m : shorter l m -> shorter (a :: l) (a :: m).

Lemma shorter_length l m : shorter l m -> length l = length m.
Proof. induction 1; simpl; congruence. Qed.

Lemma shorter_le a b l m : (a <= b)%nat -> shorter l m -> shorter (a :: l) (b :: m).
Proof.
  intros Hab H. destruct (decide (a = b)) as [->|]; [by apply shorter_tail|].
  apply shorter_head; [lia|by apply shorter_length].
Qed.

Lemma shorter_wf : well_founded shorter.
Proof.
  assert (forall n l, length l = n -> Acc shorter l) as H; [|intros l; by eapply H].
  induction n as [|n IH]; intros [|a l] E; [constructor; intros m Hm; inversion Hm|discriminate E|discriminate E|].
  injection E as E. revert l E. induction a as [a IHa] using lt_wf_ind. intros l E.
  pose proof (IH l E) as Hl. induction Hl as [l _ IHl]. constructor. intros m Hm.
  inversion Hm as [a' ? l' ? Hlt Hlen|? l' ? Ht]; subst.
  - apply IHa; [exact Hlt|congruence].
  - apply IHl; [exact Ht|]. by rewrite (shorter_length _ _ Ht).
Qed.

Ltac shorten := first [apply shorter_head; [lia|done] | apply shorter_le; [lia|shorten]].

Section progress.
Context {Task : Type} (code : Task -> Program Task) (hook_code : Task -> Z -> Program Task).
Abbreviation Sched := (Scheduler Task).
Implicit Types (s : Sched) (c : CurrentSlot Task) (q : WorkQueue Task) (e : Entry Task).

(** ** The measure *)

(** The machine is past the one end-of-slot entry it may execute in a turn. *)
Definition after_end (control : Control) : bool :=
  match control with
  | Dispatching d executed => d_end_of_slot d && executed
  | Dispatched d => d_end_of_slot d
  | _ => false
  end.

(** How much of the turn of the loop is left. *)
Definition turn_left (control : Control) : nat :=
  match control with
  | Dispatching d executed => if d_end_of_slot d && executed then 6 else 2
  | Dispatched d => if d_end_of_slot d then 5 else 1
  | AtHead => 4
  | InSlot => 3
  | Done _ | Failed _ => 0
  end.

(** Work is due now. *)
Definition due (n : Z) (a : list (Z * Entry Task)) : bool := existsb (fun p => fst p =? n) a.

Definition slot_left (limit : Z) c : list nat :=
  [Z.to_nat (limit - slot_delta c); Z.to_nat (limit - systemverilog_round c);
   Z.to_nat (match last_systemverilog_phase c with Some l => phase_count - l | None => phase_count + 1 end);
   (match systemverilog_phase c with Some _ => 1%nat | None => 0%nat end); Z.to_nat (phase_count - slot_phase c)].

Definition left_over (limit : Z) (m : Sched * Control) : list nat :=
  let '(s, control) := m in
  match current s with
  | None =>
      [Z.to_nat (match future s with (t, _) :: _ => limit + 1 - t | [] => 0 end); 0; 0; 0; 0; 0; 0; 0;
       turn_left control]%nat
  | Some c =>
      Z.to_nat (limit - now s) :: 1%nat :: slot_left (max_delta_cycles s) c ++
      [if negb (after_end control) && due (now s) (agenda s) then 0%nat else 1%nat; turn_left control]
  end.

Lemma due_perm n a a' : a ≡ₚ a' -> due n a = due n a'.
Proof.
  intros H. apply eq_true_iff_eq. unfold due. rewrite !existsb_exists.
  split; intros (x & Hx & E); exists x; (split; [|done]); by eapply Permutation_in.
Qed.

(** The part of the slot the measure looks at. *)
Definition same_place c c' : Prop :=
  slot_delta c' = slot_delta c /\ systemverilog_round c' = systemverilog_round c /\
  last_systemverilog_phase c' = last_systemverilog_phase c /\ systemverilog_phase c' = systemverilog_phase c /\
  slot_phase c' = slot_phase c.

Lemma header_place c c' : slot_header c' = slot_header c -> same_place c c'.
Proof. unfold slot_header. by intros [= E1 E2 E3 E4 E5 E6 E7]. Qed.

Lemma place_left limit c c' : same_place c c' -> slot_left limit c' = slot_left limit c.
Proof. unfold slot_left. by intros (-> & -> & -> & -> & ->). Qed.

(** Moving within the slot leaves everything but the place in the loop. *)
Lemma moves_left limit s s' c c' control : moves s s' -> current s = Some c -> current s' = Some c' ->
  same_place c c' -> left_over limit (s', control) = left_over limit (s, control).
Proof.
  intros [_ A _ N L] Hc Hc' Hp. unfold left_over. rewrite Hc, Hc', N, L, (place_left _ _ _ Hp).
  by rewrite (due_perm _ _ _ A).
Qed.

Lemma turn_shorter limit s control control' : after_end control' = after_end control ->
  (turn_left control' < turn_left control)%nat -> shorter (left_over limit (s, control')) (left_over limit (s, control)).
Proof. intros Ha Ht. unfold left_over. destruct (current s); [rewrite Ha|]; simpl; shorten. Qed.

(** ** Progress of the steps *)

Definition over (m : Sched * Control) : Prop := match snd m with Done _ | Failed _ => True | _ => False end.

(** An end-of-slot turn is entered only with an entry to execute. *)
Definition poised (m : Sched * Control) : Prop :=
  match snd m with
  | Dispatching d false =>
      d_end_of_slot d = true -> d_systemverilog d = false /\
      exists c, current (fst m) = Some c /\ queue_empty (cancel_slots (fst m)) (slot_end_of_slot c) = false
  | _ => True
  end.

Definition advances limit (m m' : Sched * Control) : Prop :=
  over m' \/ (shorter (left_over limit m') (left_over limit m) /\ poised m').

Lemma finish_over initial r s : over (finish initial r s).
Proof. done. Qed.
Lemma fail_over f s : over (fail f s).
Proof. done. Qed.

(** A batch is a new round, or a later phase of the same round. *)
Lemma begin_batch_progress indices s s' c : begin_batch_at indices s = (s', inl true) -> current s = Some c ->
  exists c', current s' = Some c' /\ slot_delta c' = slot_delta c /\ slot_phase c' = slot_phase c /\
    ((systemverilog_round c < max_delta_cycles s /\ systemverilog_round c' = systemverilog_round c + 1) \/
     (systemverilog_round c' = systemverilog_round c /\
      exists l p, last_systemverilog_phase c = Some l /\ last_systemverilog_phase c' = Some p /\ l < p < phase_count)).
Proof.
  revert s c. induction indices as [|i indices IH]; intros s c E Hc; [done|]. cbn [begin_batch_at] in E. rewrite Hc in E.
  cbv zeta in E. destruct (queue_empty _ _).
  - set (s1 := update_target _ _ _) in E. set (c1 := update_slot c (AtSystemVerilog i) (clear_consumed (cancel_slots s))).
    assert (current s1 = Some c1 /\ max_delta_cycles s1 = max_delta_cycles s) as [Hc1 Hm]
      by (unfold s1, update_target; by rewrite Hc).
    destruct (IH s1 c1 E Hc1) as (c' & H). rewrite Hm in H. exists c'. exact H.
  - unfold systemverilog_round_after_pending_phase in E. destruct (Z.geb_spec i phase_count); [done|].
    destruct (last_systemverilog_phase c) as [l|] eqn:El.
    + destruct (Z.leb_spec i l); cbn [negb] in E.
      * destruct (Z.geb_spec (systemverilog_round c) (max_delta_cycles s)); [done|]. injection E as <-.
        eexists. split; [done|]. split_and!; [done|done|]. left. split; [lia|done].
      * injection E as <-. eexists. split; [done|]. split_and!; [done|done|]. right. split; [done|].
        exists l, i. done.
    + cbn [negb] in E. destruct (Z.geb_spec (systemverilog_round c) (max_delta_cycles s)); [done|]. injection E as <-.
      eexists. split; [done|]. split_and!; [done|done|]. left. split; [lia|done].
Qed.

Lemma begin_batch_left limit indices s s' c control control' : begin_batch_at indices s = (s', inl true) ->
  current s = Some c -> moves s s' -> shorter (left_over limit (s', control')) (left_over limit (s, control)).
Proof.
  intros E Hc [_ _ _ N L]. destruct (begin_batch_progress indices s s' c E Hc) as (c' & Hc' & H1 & H2 & H).
  unfold left_over, slot_left. rewrite Hc, Hc', N, L, H1, H2. simpl.
  destruct H as [[Hlt ->]|(-> & l & p & -> & -> & Hlp)]; shorten.
Qed.

Lemma enter_dispatch_advances limit initial s c (sv eos : bool) : sched_ok s -> current s = Some c ->
  (eos = true -> sv = false /\ queue_empty (cancel_slots s) (slot_end_of_slot c) = false) ->
  over (enter_dispatch initial s c sv eos) \/
  exists d s', enter_dispatch initial s c sv eos = (s', Dispatching d false) /\
    left_over limit (s', Dispatching d false) = left_over limit (s, Dispatching d false) /\
    poised (s', Dispatching d false).
Proof.
  intros Hok Hc He. unfold enter_dispatch. cbv zeta. set (d := mkDispatch _ _ _). destruct (_ && _); [by left|right].
  do 2 eexists. split; [done|]. split.
  - eapply moves_left; [by apply set_executing_end_moves|done|done|done].
  - intros E. destruct (He E) as [-> Hq]. split; [done|]. eexists. split; [done|]. exact Hq.
Qed.

(** Entering the dispatch part is progress from any state the measure ranks
    no lower. *)
Lemma enter_advances limit initial s0 control0 s c (sv eos : bool) : sched_ok s -> current s = Some c ->
  (eos = true -> sv = false /\ queue_empty (cancel_slots s) (slot_end_of_slot c) = false) ->
  (forall d, shorter (left_over limit (s, Dispatching d false)) (left_over limit (s0, control0))) ->
  advances limit (s0, control0) (enter_dispatch initial s c sv eos).
Proof.
  intros Hok Hc He Hs. destruct (enter_dispatch_advances limit initial s c sv eos Hok Hc He) as [?|(d & s' & -> & E & Hp)];
    [by left|right]. split; [|done]. rewrite E. apply Hs.
Qed.

(** Closing the slot: the future lies later. *)
Lemma close_left limit s c control control' : sched_ok s -> current s = Some c ->
  shorter (left_over limit (with_queues s (future s) None, control')) (left_over limit (s, control)).
Proof.
  intros Hok Hc. pose proof (ok_time s Hok) as Ht. unfold left_over, later in *. simpl. rewrite Hc in *.
  destruct (future s) as [|[t f] rest]; simpl; [shorten|]. csimpl in *. apply Forall_cons in Ht as [Ht _]. shorten.
Qed.

Lemma head_step_advances limit initial s : sched_ok s -> advances limit (s, AtHead) (head_step code (Some limit) initial s).
Proof.
  intros Hok. unfold head_step. destruct (current s) as [c|] eqn:Hc; [right; split; [by apply turn_shorter; simpl; lia|done]|].
  destruct (stop (status s)); [by left|]. cbv zeta.
  pose proof (drop_empty_slots_moves s Hok) as Hm. rewrite Hc in Hm.
  destruct (drop_empty_slots_drop (cancel_slots s) (future s)) as (k & Ek & _).
  set (s1 := with_queues s _ None) in *. assert (sched_ok s1) as Hok1 by apply Hm.
  assert (current s1 = None /\ future s1 = drop k (future s)) as [Hc1 Hf1] by done. clearbody s1.
  destruct (future s1) as [|[t f] rest] eqn:Hf; [destruct (_ <? _); by left|].
  rewrite Z.gtb_ltb. destruct (Z.ltb_spec limit t); [by left|].
  destruct (load_next_slot_ok s1 t f rest Hok1 Hc1 Hf) as (O & _ & _ & En & _ & _ & [c Hcur]).
  pose proof (runs_slot_start_hooks code _ O) as Hr. destruct (run_slot_start_hooks code (load_next_slot s1)) as [s2 r].
  cbn [fst] in Hr. destruct r as [[]|f']; [right; split; [|done]|by left].
  pose proof (runs_slot _ _ Hr) as Hs. rewrite Hcur in Hs. destruct (current s2) as [c2|] eqn:Hc2; [|done].
  unfold left_over. rewrite Hc, Hc2, (runs_now _ _ Hr), En.
  assert (exists t0 f0 rest0, future s = (t0, f0) :: rest0 /\ t0 <= t) as (t0 & f0 & rest0 & -> & Hle).
  { pose proof (ok_order s Hok) as Hord. destruct (future s) as [|[t0 f0] rest0] eqn:E0; [by rewrite drop_nil in Hf1|].
    exists t0, f0, rest0. split; [done|]. assert ((t, f) ∈ (t0, f0) :: rest0) as Hin.
    { rewrite <- (take_drop k ((t0, f0) :: rest0)), <- Hf1. apply elem_of_app. right. left. }
    csimpl in *. inversion Hord as [|? ? _ Hall]; subst. apply elem_of_cons in Hin as [[= ? ?]|Hin]; [lia|].
    rewrite Forall_forall in Hall. pose proof (Hall _ (list_elem_of_fmap_2 fst _ _ Hin)). simpl in *. lia. }
  simpl. shorten.
Qed.

(** Nothing is due in an idle slot, and something is in any other. *)
Lemma slot_idle_due s c : sched_ok s -> current s = Some c ->
  due (now s) (agenda s) = negb (bool_decide (Forall (fun q => pending (cancel_slots s) q = []) (slot_queues c))).
Proof.
  intros Hok Hc. pose proof (slot_ok_time s c (ok_current s Hok c Hc)) as Et. unfold due.
  case_bool_decide as Hall; simpl.
  - apply not_true_iff_false. rewrite existsb_exists. intros ([t e] & Hin%list_elem_of_In & E%Z.eqb_eq). simpl in E. subst t.
    unfold agenda in Hin. rewrite all_queues_eq, Hc, agenda_of_app, agenda_of_pending_nil in Hin by done.
    simpl in Hin. unfold agenda_of, queues_of in Hin. apply list_elem_of_bind in Hin as ([t q] & Hin & Hq).
    apply list_elem_of_fmap in Hin as (e' & [= <- <-] & _). apply list_elem_of_bind in Hq as ([t1 f] & Hin & Hq).
    apply list_elem_of_fmap in Hin as (q' & [= <- <-] & _). pose proof (ok_time s Hok) as Ht.
    unfold later in Ht. rewrite Hc, Forall_forall in Ht. pose proof (Ht _ (list_elem_of_fmap_2 fst _ _ Hq)). simpl in *. lia.
  - apply existsb_exists. apply not_Forall_Exists in Hall; [|apply _]. apply Exists_exists in Hall as (q & Hq & Hne).
    destruct (pending (cancel_slots s) q) as [|e rest] eqn:Ep; [done|]. exists (slot_time c, e).
    split; [|simpl; apply Z.eqb_eq; congruence]. apply list_elem_of_In. unfold agenda. rewrite all_queues_eq, Hc, agenda_of_app.
    apply elem_of_app. left. unfold agenda_of. apply list_elem_of_bind. exists (slot_time c, q). simpl. rewrite Ep.
    split; [left|]. by apply (list_elem_of_fmap_2 (fun q => (slot_time c, q))).
Qed.
Lemma not_idle_due s c : sched_ok s -> current s = Some c -> slot_idle (cancel_slots s) c = false ->
  due (now s) (agenda s) = true.
Proof.
  intros Hok Hc Hi. rewrite (slot_idle_due s c Hok Hc). case_bool_decide as Hall; [|done]. exfalso.
  destruct Hok as [_ _ _ _ _ _ _ [C1 _ _]]. rewrite all_queues_eq, Hc in C1. apply Forall_app in C1 as [C1 _].
  rewrite Forall_fmap in C1. apply not_true_iff_false in Hi. apply Hi.
  assert (forallb (queue_empty (cancel_slots s)) (slot_queues c) = true) as H.
  { apply forallb_forall. intros q Hq%list_elem_of_In. rewrite Forall_forall in C1, Hall.
    apply queue_empty_spec; [by apply C1|by apply Hall]. }
  unfold slot_queues in H. rewrite !forallb_app in H. simpl in H. unfold slot_idle, bucket_empty.
  rewrite !andb_true_iff in *. tauto.
Qed.

(** All phases over: a delta cycle, a round, an entry to execute or the end of
    the slot; a quiet hook that leaves work makes the slot busy. *)
Lemma finished_phases_advances limit initial s c : sched_ok s -> current s = Some c -> systemverilog_phase c = None ->
  slot_phase c = phase_count -> advances limit (s, InSlot) (finished_phases code initial s c).
Proof.
  intros Hok Hc Hp Hph. unfold finished_phases. destruct (stop _); [by left|].
  destruct (bucket_empty _ (slot_next_delta c)) eqn:Hn; cbn [negb].
  2:{ destruct (Z.geb_spec (slot_delta c + 1) (max_delta_cycles s)); [by left|]. right. split; [|done].
      unfold left_over, slot_left. rewrite Hc. simpl. shorten. }
  pose proof (begin_systemverilog_batch_spec true s c Hok Hc Hp) as Hb. unfold begin_systemverilog_batch in *.
  pose proof (fun s' => begin_batch_left limit (up 0 phase_count) s s' c) as Hbl.
  destruct (begin_batch_at _ s) as [s1 r]. destruct Hb as (Hm & _ & _ & c1 & Hc1 & Hr).
  assert (sched_ok s1) as Hok1 by apply Hm. destruct r as [[|]|f]; [..|by left]; rewrite Hc1.
  - apply enter_advances; [done|done|done|]. intros d. by apply Hbl.
  - destruct Hr as ([N1 N2 N3 N4 N5] & He & _). pose proof (header_place _ _ N1) as Hpl. pose proof Hpl as (_ & _ & _ & E4 & E3).
    rewrite <- (moves_slots _ _ Hm) in *. pose proof (fun control => moves_left limit s s1 c c1 control Hm Hc Hc1 Hpl) as Hl.
    assert (slot_quiet (cancel_slots s1) c1) as Hquiet.
    { apply finished_slot_pending; [done|done|congruence|congruence|by rewrite N3|done]. }
    destruct (queue_empty _ (slot_end_of_slot c1)) eqn:Ee.
    + destruct (runtime_slot_quiet_hook (hooks s1)) as [t|]; [|right; split; [rewrite <- Hl; by apply (close_left _ s1 c1)|done]].
      cbv zeta. pose proof (runs_quiet_hook code t s1 Hok1) as Hq. set (s2 := run_quiet_hook code t s1) in *. clearbody s2.
      pose proof (runs_slot _ _ Hq) as Hs. rewrite Hc1 in Hs. destruct (current s2) as [c2|] eqn:Hc2; [|done].
      apply (inj Some) in Hs. apply header_place in Hs. pose proof (runs_ok _ _ Hq) as Hok2.
      assert (shorter (left_over limit (s2, AtHead)) (left_over limit (s1, InSlot)) \/
              slot_idle (cancel_slots s2) c2 = true) as Hs2.
      { destruct (slot_idle _ c2) eqn:Ei; [by right|left]. unfold left_over. rewrite Hc1, Hc2.
        rewrite (place_left _ _ _ Hs), (runs_now _ _ Hq), (runs_limit _ _ Hq).
        rewrite <- (runs_now _ _ Hq), (not_idle_due s2 c2 Hok2 Hc2 Ei), (runs_now _ _ Hq), (slot_idle_due s1 c1 Hok1 Hc1).
        rewrite bool_decide_true; [simpl; shorten|]. unfold slot_quiet in Hquiet. unfold slot_queues.
        rewrite !Forall_app in Hquiet |- *. destruct Hquiet as (Q1 & Q2 & Q3 & Q4). split_and!; try done.
        inversion Q4; subst. constructor; [done|]. constructor; [|constructor].
        apply queue_empty_spec; [|done]. by apply (slot_queue_entries s1 c1 AtEndOfSlot). }
      right. destruct (slot_idle (cancel_slots s2) c2) eqn:Ei; (split; [|done]); rewrite <- Hl.
      * pose proof (close_left limit s2 c2 InSlot AtHead Hok2 Hc2) as Hcl. revert Hcl. unfold left_over.
        simpl. rewrite Hc1, Hc2, (runs_now _ _ Hq). intros Hcl. inversion Hcl as [? ? ? ? Hlt ?|? ? ? Htl]; subst.
        -- by apply shorter_head.
        -- apply shorter_tail. simpl. shorten.
      * by destruct Hs2.
    + apply enter_advances; [done|done|done|]. intros d. rewrite <- Hl. apply turn_shorter; [|simpl].
      * simpl. by rewrite andb_false_r.
      * rewrite andb_false_r. lia.
Qed.

Lemma slot_step_advances limit initial s : sched_ok s -> is_Some (current s) ->
  advances limit (s, InSlot) (slot_step code initial s).
Proof.
  intros Hok [c Hc]. unfold slot_step. rewrite Hc. destruct (stop _); [by left|].
  assert (forall d, shorter (left_over limit (s, Dispatching d false)) (left_over limit (s, InSlot))) as Hturn.
  { intros d. apply turn_shorter; simpl; rewrite andb_false_r; [done|lia]. }
  destruct (systemverilog_phase c) as [p|] eqn:Hp; [rewrite Hc; cbn [negb andb]; by apply enter_advances|].
  pose proof (begin_systemverilog_batch_spec false s c Hok Hc Hp) as Hb. unfold begin_systemverilog_batch in *.
  pose proof (fun s' => begin_batch_left limit (up 0 (phase_count - 1)) s s' c) as Hbl.
  destruct (begin_batch_at _ s) as [s1 r]. destruct Hb as (Hm & _ & _ & c1 & Hc1 & Hr).
  assert (sched_ok s1) as Hok1 by apply Hm. destruct r as [[|]|f]; [..|by left]; rewrite Hc1; cbn [negb andb].
  - apply enter_advances; [done|done|done|]. intros d. by apply Hbl.
  - destruct Hr as ([N1 _ _ _ _] & _ & _). pose proof (header_place _ _ N1) as Hpl. pose proof Hpl as (_ & _ & _ & E4 & E3).
    pose proof (fun control => moves_left limit s s1 c c1 control Hm Hc Hc1 Hpl) as Hl.
    destruct (Z.eqb_spec (slot_phase c1) phase_count).
    + destruct (finished_phases_advances limit initial s1 c1 Hok1 Hc1) as [?|[H1 H2]]; [congruence|done|by left|right].
      split; [|done]. by rewrite <- Hl.
    + apply enter_advances; [done|done|done|]. intros d. rewrite Hl. apply Hturn.
Qed.
(** A turn of the inner loop executes an entry or leaves the loop. *)
Lemma dispatch_step_advances limit initial s d executed : sched_ok s -> control_ok s (Dispatching d executed) ->
  poised (s, Dispatching d executed) ->
  let m' := dispatch_step code initial s d executed in
  advances limit (s, Dispatching d executed) m' \/ (log_of (s, Dispatching d executed) <> [] /\ poised m').
Proof.
  intros Hok (c & Hc & Hd & _) Hp. unfold dispatch_step, log_of, chosen. cbn [fst snd]. rewrite Hc. cbv zeta.
  set (q := slot_queue c (dispatch_target d)). destruct (dispatch_target_ok s c d Hok Hc Hd) as (Ht & Hf & _).
  destruct (slot_queue_entries s c _ Hok Hc Ht Hf) as [Hq _]. fold q in Hq.
  destruct (negb (queue_empty (cancel_slots s) q) && negb (d_end_of_slot d && executed)) eqn:Econd; cbn [andb].
  - destruct (stop (status s)); cbn [negb]; [by left; left|].
    apply andb_true_iff in Econd as [Ene _]. apply negb_true_iff in Ene.
    destruct (take_entry s c d Hok Hc Hd) as (q' & e & Hpop & _).
    { fold q. intros E. apply (queue_empty_spec (cancel_slots s) q Hq) in E. congruence. }
    fold q in Hpop. fold (ready_queue s d q). rewrite Hpop. destruct (run_entry code e _) as [s3 [[]|f]]; [|by left; left].
    right. split; [done|]. unfold poised. simpl. by destruct (d_end_of_slot d).
  - left. right. split; [|done]. apply turn_shorter; simpl.
    all: destruct (d_end_of_slot d) eqn:Eeos, executed; simpl; try done; try lia.
    all: exfalso; destruct (Hp Eeos) as [Esv (c' & Hc' & Hqe)]; cbn [fst] in *.
    all: rewrite andb_true_r in Econd; apply negb_false_iff in Econd; unfold q, dispatch_target in Econd.
    all: rewrite Esv, Eeos in Econd; simpl in Econd; congruence.
Qed.

(** Leaving a region: a phase further, the batch over, or the end-of-slot turn
    over. *)
Lemma dispatched_step_advances limit s d : sched_ok s -> control_ok s (Dispatched d) ->
  advances limit (s, Dispatched d) (dispatched_step hook_code s d).
Proof.
  intros Hok Hco. pose proof Hco as (c & Hc & Hd & _). pose proof (ok_current s Hok c Hc) as [S1 S2 S3 S4 S5 S6 S7].
  pose proof (leave_moves s d c Hok Hco Hc) as M. unfold dispatched_step. cbv zeta.
  set (s1 := update_target s (dispatch_target d) (clear_consumed (cancel_slots s))) in *.
  set (c1 := update_slot c (dispatch_target d) (clear_consumed (cancel_slots s))) in *.
  assert (current s1 = Some c1) as ->.
  { destruct (dispatch_target_ok s c d Hok Hc Hd) as (_ & Hf & _).
    unfold s1, update_target. destruct (dispatch_target d); simplify_eq/=; by rewrite Hc. }
  pose proof (runs_safe_point_hooks hook_code (d_phase d) _ (moves_ok _ _ M)) as R.
  destruct (run_safe_point_hooks hook_code (d_phase d) _) as [s3 [[]|f]]; [right; split; [|done]|by left].
  cbn [fst] in R. pose proof (runs_slot _ _ R) as Hs. simpl in Hs. destruct (current s3) as [c3|] eqn:Hc3; [|done].
  apply (inj Some), header_place in Hs. unfold left_over.
  rewrite Hc, Hc3, (place_left _ _ _ Hs), (runs_now _ _ R), (runs_limit _ _ R), (moves_now _ _ M), (moves_limit _ _ M).
  unfold slot_left, dispatch_ok, leave_region in *. simpl. destruct (d_systemverilog d); simpl.
  - destruct Hd as [_ ->]. shorten.
  - destruct Hd as [_ Hd]. destruct (d_end_of_slot d); simpl.
    + destruct (due _ _); shorten.
    + destruct Hd as [E Hlt]. shorten.
Qed.
Lemma run_step_advances limit initial m : machine_ok (Some limit) m -> poised m ->
  let m' := run_step code hook_code (Some limit) initial m in
  advances limit m m' \/ (log_of m <> [] /\ poised m').
Proof.
  destruct m as [s control]. intros [Hok _ Hc] Hp. cbn [fst snd] in *. destruct control as [| |d ex|d|r|f]; cbn [run_step].
  - left. by apply head_step_advances.
  - left. by apply slot_step_advances.
  - by apply dispatch_step_advances.
  - left. by apply dispatched_step_advances.
  - by left; left.
  - by left; left.
Qed.

(** ** Whole runs *)

Lemma over_stays fuel until initial m : over m ->
  run_steps code hook_code fuel until initial m = m /\ run_log code hook_code fuel until initial m = [].
Proof.
  destruct m as [s control]. intros H. assert (run_step code hook_code until initial (s, control) = (s, control)) as E
    by by destruct control.
  assert (log_of (s, control) = []) as El by by destruct control.
  induction fuel as [|fuel [IH1 IH2]]; [done|]. cbn [run_steps run_log]. rewrite E, El. done.
Qed.

Lemma run_steps_app n k until initial m :
  run_steps code hook_code (n + k) until initial m =
    run_steps code hook_code k until initial (run_steps code hook_code n until initial m).
Proof. revert m. induction n as [|n IH]; intros m; [done|]. apply IH. Qed.

Lemma run_log_app n k until initial m :
  run_log code hook_code (n + k) until initial m =
    run_log code hook_code n until initial m ++
    run_log code hook_code k until initial (run_steps code hook_code n until initial m).
Proof.
  revert m. induction n as [|n IH]; intros m; [done|]. cbn [Nat.add run_log run_steps]. by rewrite IH, app_assoc.
Qed.

(** A machine that executes at most [k] entries more comes to its end. *)
Lemma finite_log_over limit initial k m : machine_ok (Some limit) m -> poised m ->
  (forall fuel, (length (run_log code hook_code fuel (Some limit) initial m) <= k)%nat) ->
  exists fuel, over (run_steps code hook_code fuel (Some limit) initial m).
Proof.
  revert m. induction k as [k IHk] using lt_wf_ind. intros m.
  remember (left_over limit m) as l eqn:El. revert m El.
  induction l as [l IHl] using (well_founded_induction shorter_wf). intros m -> Hm Hp Hk.
  set (m' := run_step code hook_code (Some limit) initial m).
  pose proof (reaches_ok _ _ _ _ (run_step_ok code hook_code (Some limit) initial m Hm)) as Hm'.
  assert (forall fuel, over (run_steps code hook_code fuel (Some limit) initial m') ->
    exists fuel, over (run_steps code hook_code fuel (Some limit) initial m)) as Hs by (intros fuel Ho; by exists (S fuel)).
  assert (forall fuel, (length (log_of m) + length (run_log code hook_code fuel (Some limit) initial m') <= k)%nat) as Hk'.
  { intros fuel. specialize (Hk (S fuel)). cbn [run_log] in Hk. by rewrite length_app in Hk. }
  destruct (run_step_advances limit initial m Hm Hp) as [[Ho|[Hsh Hp']]|[Hl Hp']].
  - apply (Hs 0%nat). exact Ho.
  - destruct (IHl _ Hsh m' eq_refl Hm' Hp') as [fuel Ho]; [|by eapply Hs].
    intros fuel. specialize (Hk' fuel). lia.
  - assert (0 < length (log_of m))%nat as Hpos by (destruct (log_of m); [done|simpl; lia]).
    pose proof (Hk' 0%nat) as H0. simpl in H0.
    destruct (IHk (k - length (log_of m))%nat ltac:(lia) m' Hm' Hp') as [fuel Ho]; [|by eapply Hs].
    intros fuel. specialize (Hk' fuel). lia.
Qed.

Lemma run_stable fuel fuel' until s : over (run code hook_code fuel until s) -> (fuel <= fuel')%nat ->
  run code hook_code fuel' until s = run code hook_code fuel until s.
Proof.
  intros Ho Hle. unfold run in *. replace fuel' with (fuel + (fuel' - fuel))%nat by lia.
  rewrite run_steps_app. by apply over_stays.
Qed.

(** A run with a limit returns exactly when it executes finitely many entries. *)
Lemma run_returns limit s : sched_ok s ->
  (exists fuel, over (run code hook_code fuel (Some limit) s)) <->
  exists bound, forall fuel, (length (executed_by code hook_code fuel (Some limit) s) <= bound)%nat.
Proof.
  intros Hok. destruct (start_run_ok (Some limit) s Hok) as [_ Hst]. unfold run, executed_by.
  destruct (start_run (Some limit) s) as [s1 control] eqn:E. cbn [fst snd] in *.
  destruct control as [| |? ?|?|?|f]; try done.
  - destruct Hst as [_ Hm]. split.
    + intros [fuel Ho]. exists (length (run_log code hook_code fuel (Some limit) (callbacks (status s)) (s1, AtHead))).
      intros fuel'. destruct (le_ge_dec fuel fuel') as [H|H].
      * replace fuel' with (fuel + (fuel' - fuel))%nat by lia. rewrite run_log_app, (proj2 (over_stays _ _ _ _ Ho)).
        rewrite app_nil_r. lia.
      * replace fuel with (fuel' + (fuel - fuel'))%nat by lia. rewrite run_log_app, length_app. lia.
    + intros [bound Hb]. by apply (finite_log_over limit _ bound).
  - split; [intros _; by exists 0%nat|]. intros _. exists 0%nat. done.
Qed.
End progress.

(** ** Programs that do not add work

    Tasks and observers that leave no more entries pending than they found
    execute at most the entries there are. *)
Section thrifty.
Context {Task : Type} (code : Task -> Program Task) (hook_code : Task -> Z -> Program Task).
Abbreviation Sched := (Scheduler Task).
Implicit Types (s : Sched) (c : CurrentSlot Task) (q : WorkQueue Task) (e : Entry Task).

Definition workload s : nat := length (agenda s).
Definition thrifty (p : Program Task) : Prop :=
  forall s, sched_ok s -> (workload (fst (run_program p s)) <= workload s)%nat.

Hypothesis code_thrifty : forall t, thrifty (code t).
Hypothesis hook_code_thrifty : forall t phase, thrifty (hook_code t phase).

Lemma workload_moves s s' : moves s s' -> workload s' = workload s.
Proof. intros [_ A _ _ _]. unfold workload. by rewrite A. Qed.
Lemma workload_status f s : workload (update_status f s) = workload s.
Proof. done. Qed.
Lemma workload_finish initial r s : workload (fst (finish initial r s)) = workload s.
Proof. unfold workload. by rewrite (proj1 (finish_agenda initial r s)). Qed.

Lemma workload_table s cs' gone : sched_ok s -> slots_ok cs' -> table_step (cancel_slots s) cs' gone ->
  (workload (with_slots s cs') <= workload s)%nat.
Proof.
  intros H1 H2 H3. unfold workload. destruct (with_slots_ok s cs' gone H1 H2 H3) as (_ & _ & ->).
  induction (agenda s) as [|p a IH]; simpl; [lia|]. destruct (spared gone (snd p)); simpl; lia.
Qed.
Lemma workload_complete s e : sched_ok s -> (workload (with_slots s (complete (cancel_slots s) e)) <= workload s)%nat.
Proof.
  intros Hok. unfold complete. destruct (entry_cancellation e) as [id|].
  - eapply workload_table; [done|apply release_ok, Hok|apply table_step_release, Hok].
  - eapply workload_table; [done|apply Hok|apply table_step_refl].
Qed.

Lemma workload_hooks ps s : Forall thrifty ps -> sched_ok s -> (workload (fst (run_hooks ps s)) <= workload s)%nat.
Proof.
  intros Hps. revert s. induction Hps as [|p ps Hp _ IH]; intros s Hok; simpl; [lia|].
  unfold mbind, act_bind. pose proof (Hp s Hok). pose proof (runs_ok _ _ (runs_program p s Hok)) as Hok1.
  destruct (run_program p s) as [s1 [[]|]]; simpl in *; [|done]. etrans; [by apply IH|done].
Qed.
Lemma workload_slot_start s : sched_ok s -> (workload (fst (run_slot_start_hooks code s)) <= workload s)%nat.
Proof.
  intros Hok. unfold run_slot_start_hooks, mbind, act_bind, get. simpl.
  set (m := match slot_start_hook (hooks s) with Some t => run_program (code t) | None => mret () end).
  assert (sched_ok (fst (m s)) /\ (workload (fst (m s)) <= workload s)%nat) as [Hok1 H1].
  { unfold m. destruct (slot_start_hook _) as [t|]; [|split; [done|simpl; lia]].
    split; [apply (runs_program (code t) s Hok)|by apply code_thrifty]. }
  destruct (m s) as [s1 [[]|]]; simpl in *; [|done]. etrans; [apply workload_hooks|done]; [|done].
  apply Forall_fmap, Forall_forall. intros p _. apply code_thrifty.
Qed.
Lemma workload_safe_point phase s : sched_ok s ->
  (workload (fst (run_safe_point_hooks hook_code phase s)) <= workload s)%nat.
Proof.
  intros Hok. unfold run_safe_point_hooks. cbv zeta.
  assert (Forall thrifty ((match safe_point_hook (hooks s) with Some t => [hook_code t phase] | None => [] end)
    ++ ((fun p => hook_code (snd p) phase) <$> safe_point_hooks (hooks s)))) as Hps.
  { apply Forall_app. split; [destruct (safe_point_hook _); auto|]. apply Forall_fmap, Forall_forall. intros p _. apply hook_code_thrifty. }
  revert Hps. set (ps := _ ++ _). destruct ps as [|p ps'] eqn:E; [intros _; simpl; lia|]. rewrite <- E. intros Hps.
  pose proof (workload_hooks ps _ Hps (moves_ok _ _ (moves_status (set_in_safe_point true) s Hok))) as H.
  destruct (run_hooks ps _) as [s2 r]. simpl in *. done.
Qed.
Lemma workload_quiet t s : sched_ok s -> (workload (run_quiet_hook code t s) <= workload s)%nat.
Proof.
  intros Hok. unfold run_quiet_hook. cbv zeta. rewrite workload_status.
  etrans; [apply (code_thrifty t); by apply moves_status|done].
Qed.

Lemma workload_entry s e : sched_ok s -> live (cancel_slots s) e = true ->
  (workload (fst (run_entry code e s)) <= workload s)%nat.
Proof.
  intros Hok Hl. unfold run_entry.
  assert (forall s1 (taken : option Task), sched_ok s1 -> (workload s1 <= workload s)%nat ->
    (workload (fst (let '(s, r) := match taken with
       | Some t => run_program (code t) s1 | None => (s1, inr bad_function_call) end in
       match r with inl _ => (s, inl ()) | inr f => (with_slots s (complete (cancel_slots s) e), inr f) end))
     <= workload s)%nat) as Hrun.
  { intros s1 taken Hok1 H1. set (m := match taken with Some t => _ | None => _ end).
    assert (sched_ok (fst m) /\ (workload (fst m) <= workload s)%nat) as [Hok2 H2].
    { unfold m. destruct taken as [t|]; [|done]. pose proof (code_thrifty t s1 Hok1).
      split; [apply (runs_program (code t) s1 Hok1)|lia]. }
    destruct m as [s2 [[]|f]]; simpl in *; [done|]. etrans; [by apply workload_complete|done]. }
  assert (forall id, entry_cancellation e = Some id ->
    sched_ok (with_slots s (fst (take_slot (cancel_slots s) id))) /\
    (workload (with_slots s (fst (take_slot (cancel_slots s) id))) <= workload s)%nat) as Htake.
  { intros id E. unfold live, is_cancelled in Hl. rewrite E, negb_involutive in Hl.
    split; [eapply with_slots_ok|eapply workload_table]; try done; first [apply take_slot_ok, Hok|apply table_step_take; [apply Hok|done]]. }
  destruct (entry_task e) as [t|t|] eqn:Et.
  - destruct (entry_cancellation e) as [id|]; [|by apply (Hrun _ (Some t)); destruct s].
    destruct (Htake id eq_refl). destruct (take_slot _ id) as [cs taken]. by apply Hrun.
  - pose proof (code_thrifty t s Hok). pose proof (runs_ok _ _ (runs_program (code t) s Hok)).
    destruct (run_program (code t) s) as [s1 r]. simpl in *. etrans; [by apply workload_complete|done].
  - destruct (entry_cancellation e) as [id|]; [|by apply (Hrun _ None); destruct s].
    destruct (Htake id eq_refl). destruct (take_slot _ id) as [cs taken]. by apply Hrun.
Qed.

(** What a step executes and leaves is no more than it found. *)
Lemma head_step_workload until initial s : sched_ok s -> (workload (fst (head_step code until initial s)) <= workload s)%nat.
Proof.
  intros Hok. unfold head_step. destruct (current s) as [c|] eqn:Hc; [simpl; lia|].
  destruct (stop (status s)); [by rewrite workload_finish|]. cbv zeta.
  pose proof (drop_empty_slots_moves s Hok) as Hm. rewrite Hc in Hm. rewrite <- (workload_moves _ _ Hm).
  set (s1 := with_queues s _ None) in *. assert (sched_ok s1) as Hok1 by apply Hm. assert (current s1 = None) as Hc1 by done.
  clearbody s1. destruct (future s1) as [|[t f] rest] eqn:Hf.
  - destruct until as [limit|]; [destruct (_ <? _)|]; by rewrite workload_finish.
  - destruct (match until with Some limit => t >? limit | None => false end); [by rewrite workload_finish|].
    destruct (load_next_slot_ok s1 t f rest Hok1 Hc1 Hf) as (O & A & _).
    assert (workload (load_next_slot s1) = workload s1) as <- by (unfold workload; by rewrite A).
    pose proof (workload_slot_start _ O). by destruct (run_slot_start_hooks code _) as [s2 [[]|f']].
Qed.

Lemma enter_dispatch_workload initial s c (sv eos : bool) : sched_ok s -> current s = Some c ->
  (workload (fst (enter_dispatch initial s c sv eos)) <= workload s)%nat.
Proof.
  intros Hok Hc. unfold enter_dispatch. cbv zeta.
  rewrite <- (workload_moves _ _ (set_executing_end_moves s c eos Hok Hc)).
  destruct (_ && _); [by rewrite workload_finish|done].
Qed.

Lemma finished_phases_workload initial s c : sched_ok s -> current s = Some c -> systemverilog_phase c = None ->
  (workload (fst (finished_phases code initial s c)) <= workload s)%nat.
Proof.
  intros Hok Hc Hp. unfold finished_phases. destruct (stop _); [by rewrite workload_finish|].
  destruct (bucket_empty _ (slot_next_delta c)) eqn:Hn; cbn [negb].
  2:{ destruct (Z.geb_spec (slot_delta c + 1) (max_delta_cycles s)); [done|]. cbn [fst].
      rewrite (workload_moves s); [done|]. by apply (advance_delta_moves s c). }
  pose proof (begin_systemverilog_batch_spec true s c Hok Hc Hp) as Hb.
  destruct (begin_systemverilog_batch true s) as [s1 r]. destruct Hb as (Hm & _ & _ & c1 & Hc1 & _).
  assert (sched_ok s1) as Hok1 by apply Hm. rewrite <- (workload_moves _ _ Hm).
  assert (forall s2, (workload (with_queues s2 (future s2) None) <= workload s2)%nat) as Hclose.
  { intros s2. unfold workload, agenda. rewrite !all_queues_eq, !agenda_of_app, !length_app. simpl. lia. }
  destruct r as [[|]|f]; [..|done]; rewrite Hc1; [by apply enter_dispatch_workload|].
  destruct (queue_empty _ (slot_end_of_slot c1)); [|by apply enter_dispatch_workload].
  destruct (runtime_slot_quiet_hook (hooks s1)) as [t|]; [|apply Hclose].
  cbv zeta. pose proof (workload_quiet t s1 Hok1) as Hq. set (s2 := run_quiet_hook code t s1) in *. clearbody s2.
  destruct (current s2) as [c2|]; [|done]. destruct (slot_idle _ c2); [|done]. cbn [fst]. etrans; [apply Hclose|done].
Qed.

Lemma slot_step_workload initial s : sched_ok s -> (workload (fst (slot_step code initial s)) <= workload s)%nat.
Proof.
  intros Hok. unfold slot_step. destruct (current s) as [c|] eqn:Hc; [|done].
  destruct (stop _); [by rewrite workload_finish|].
  destruct (systemverilog_phase c) as [p|] eqn:Hp; [rewrite Hc; by apply enter_dispatch_workload|].
  pose proof (begin_systemverilog_batch_spec false s c Hok Hc Hp) as Hb.
  destruct (begin_systemverilog_batch false s) as [s1 r]. destruct Hb as (Hm & _ & _ & c1 & Hc1 & Hr).
  assert (sched_ok s1) as Hok1 by apply Hm. rewrite <- (workload_moves _ _ Hm).
  destruct r as [[|]|f]; [..|done]; rewrite Hc1; cbn [negb andb]; [by apply enter_dispatch_workload|].
  destruct (_ =? _); [|by apply enter_dispatch_workload]. apply finished_phases_workload; [done|done|].
  destruct Hr as ([N1 _ _ _ _] & _ & _). apply header_place in N1 as (_ & _ & _ & -> & _). done.
Qed.

Lemma dispatch_step_workload initial s d executed : sched_ok s -> control_ok s (Dispatching d executed) ->
  (length (log_of (s, Dispatching d executed)) + workload (fst (dispatch_step code initial s d executed)) <= workload s)%nat.
Proof.
  intros Hok (c & Hc & Hd & _). unfold dispatch_step, log_of, chosen. cbn [fst snd]. rewrite Hc. cbv zeta.
  set (q := slot_queue c (dispatch_target d)). destruct (dispatch_target_ok s c d Hok Hc Hd) as (Ht & Hf & _).
  destruct (slot_queue_entries s c _ Hok Hc Ht Hf) as [Hq _]. fold q in Hq.
  destruct (negb (queue_empty (cancel_slots s) q) && negb (d_end_of_slot d && executed)) eqn:Econd; cbn [andb]; [|done].
  destruct (stop (status s)); cbn [negb]; [by rewrite workload_finish|].
  apply andb_true_iff in Econd as [Ene _]. apply negb_true_iff in Ene.
  destruct (take_entry s c d Hok Hc Hd) as (q' & e & Hpop & _ & Hl & _ & _ & Hok1 & Ha).
  { fold q. intros E. apply (queue_empty_spec (cancel_slots s) q Hq) in E. congruence. }
  fold q in Hpop. fold (ready_queue s d q). rewrite Hpop. set (s1 := update_target s _ (fun _ => q')) in *.
  assert (workload s = S (workload s1)) as -> by (unfold workload; by rewrite Ha).
  destruct (update_target_fields s (dispatch_target d) (fun _ => q')) as (_ & _ & _ & F4 & _). fold s1 in F4.
  pose proof (workload_entry (update_status (set_in_callback true) s1) e) as He. rewrite workload_status in He.
  specialize (He (moves_ok _ _ (moves_status _ s1 Hok1))). simpl in He. rewrite F4 in He. specialize (He Hl).
  destruct (run_entry code e _) as [s3 [[]|f]]; cbn [fst] in *; cbn [length]; rewrite ?workload_status; unfold fail; simpl; rewrite ?workload_status; lia.
Qed.

Lemma dispatched_step_workload s d : sched_ok s -> control_ok s (Dispatched d) ->
  (workload (fst (dispatched_step hook_code s d)) <= workload s)%nat.
Proof.
  intros Hok Hco. pose proof Hco as (c & Hc & Hd & _). pose proof (leave_moves s d c Hok Hco Hc) as M.
  unfold dispatched_step. cbv zeta. destruct (dispatch_target_ok s c d Hok Hc Hd) as (_ & Hf & _).
  set (s1 := update_target s (dispatch_target d) (clear_consumed (cancel_slots s))) in *.
  set (c1 := update_slot c (dispatch_target d) (clear_consumed (cancel_slots s))) in *.
  assert (current s1 = Some c1) as ->.
  { unfold s1, update_target. destruct (dispatch_target d); simplify_eq/=; by rewrite Hc. }
  pose proof (workload_safe_point (d_phase d) _ (moves_ok _ _ M)) as H. rewrite <- (workload_moves _ _ M).
  by destruct (run_safe_point_hooks hook_code (d_phase d) _) as [s3 [[]|f]].
Qed.

Lemma run_step_workload until initial m : machine_ok until m ->
  (length (log_of m) + workload (fst (run_step code hook_code until initial m)) <= workload (fst m))%nat.
Proof.
  destruct m as [s control]. intros [Hok _ Hc]. cbn [fst snd] in *. destruct control as [| |d ex|d|r|f]; cbn [run_step].
  - by apply head_step_workload.
  - by apply slot_step_workload.
  - by apply dispatch_step_workload.
  - by apply dispatched_step_workload.
  - done.
  - done.
Qed.

Lemma run_log_workload fuel until initial m : machine_ok until m ->
  (length (run_log code hook_code fuel until initial m) <= workload (fst m))%nat.
Proof.
  revert m. induction fuel as [|fuel IH]; intros m Hm; cbn [run_log]; [simpl; lia|].
  pose proof (run_step_workload until initial m Hm). rewrite length_app.
  pose proof (IH _ (reaches_ok _ _ _ _ (run_step_ok code hook_code until initial m Hm))). lia.
Qed.

Lemma thrifty_returns limit s : sched_ok s -> exists fuel, over (run code hook_code fuel (Some limit) s).
Proof.
  intros Hok. apply run_returns; [done|]. exists (workload s). intros fuel. unfold executed_by.
  destruct (start_run_ok (Some limit) s Hok) as [Hmv Hst]. destruct (start_run (Some limit) s) as [s1 control].
  cbn [fst snd] in *. destruct control; try done; try (simpl; lia). destruct Hst as [_ Hm].
  rewrite <- (workload_moves _ _ Hmv). by apply run_log_workload.
Qed.
End thrifty.
