(* ===== verification/FstCompression.v ===== *)
(** * FST block compression

    Model of src/runtime/fst_compression.cpp: the two block encoders of the
    FST writer.  [gzip_store] stores hierarchy bytes in a gzip container of
    uncompressed DEFLATE blocks; [zlib_fixed] encodes initial values as zlib
    with the fixed Huffman code and byte runs.  Outputs are bounded by a
    byte limit. *)
From S2P Require Import Prelude StreamHash Sha256.

(** [FstCompressionLimits] *)
Record FstCompressionLimits := mkFstCompressionLimits {
  maximum_input_bytes : Z;
  maximum_output_bytes : Z;
}.

Inductive FstCompressionKind := HierarchyGzipStoreV1 | InitialValueZlibFixedV1.

(** The members of [FstCompressionProfile] that vary; both profiles have
    schema 1, algorithm version 1 and a window of 15 bits. *)
Record FstCompressionProfile := mkFstCompressionProfile {
  block_bytes : Z;
  maximum_match_bytes : Z;
  minimum_input_bytes : Z;
  profile_identity : string;
}.
Definition hierarchy_profile : FstCompressionProfile :=
  mkFstCompressionProfile 65535 0 0 "fst-gzip-store-v1".
Definition initial_value_profile : FstCompressionProfile :=
  mkFstCompressionProfile 65535 258 128 "fst-zlib-fixed-rle-v1".
Definition fst_compression_profile (kind : FstCompressionKind) : FstCompressionProfile :=
  match kind with
  | HierarchyGzipStoreV1 => hierarchy_profile
  | InitialValueZlibFixedV1 => initial_value_profile
  end.

(** ** Bounded appends *)

Definition output_limit : exception := length_error "FST compressed output exceeds its byte limit".

Definition require_space (output : bytes) (count maximum : Z) : Outcome () :=
  if (count >? maximum) || (size output >? maximum - count) then Throw output_limit else Ok ().

(** [static_cast<std::uint8_t>(value)] *)
Definition low_byte (value : Z) : Z := Z.land value 255.

Definition append_u8 (output : bytes) (value maximum : Z) : Outcome bytes :=
  _ ← require_space output 1 maximum;
  mret (output ++ [value]).

Definition append_be32 (output : bytes) (value maximum : Z) : Outcome bytes :=
  _ ← require_space output 4 maximum;
  mret (output ++ [low_byte (Z.shiftr value 24); low_byte (Z.shiftr value 16);
                   low_byte (Z.shiftr value 8); low_byte (Z.shiftr value 0)]).

Definition append_le16 (output : bytes) (value maximum : Z) : Outcome bytes :=
  _ ← require_space output 2 maximum;
  mret (output ++ [low_byte value; low_byte (Z.shiftr value 8)]).

Definition append_le32 (output : bytes) (value maximum : Z) : Outcome bytes :=
  _ ← require_space output 4 maximum;
  mret (output ++ [low_byte (Z.shiftr value 0); low_byte (Z.shiftr value 8);
                   low_byte (Z.shiftr value 16); low_byte (Z.shiftr value 24)]).

(** ** Checksums *)

(** The inner step: [mask] is all ones when the low bit is set. *)
Definition crc32_bit (result : Z) : Z :=
  let mask := if Z.land result 1 =? 0 then 0 else U32_MAX in
  Z.lxor (Z.shiftr result 1) (Z.land 0xedb88320 mask).
Definition crc32_byte (result byte : Z) : Z :=
  Nat.iter 8 crc32_bit (Z.lxor result byte).
Definition crc32 (input : bytes) : Z := not32 (foldl crc32_byte U32_MAX input).

Definition adler_modulus : Z := 65521.
Definition adler32_step (state : Z * Z) (byte : Z) : Z * Z :=
  let first := (fst state + byte) mod adler_modulus in
  (first, (snd state + first) mod adler_modulus).
Definition adler32 (input : bytes) : Z :=
  let '(first, second) := foldl adler32_step (1, 0) input in
  Z.lor (wrap32 (Z.shiftl second 16)) first.

Fixpoint reverse_bits_loop (count : nat) (value result : Z) : Z :=
  match count with
  | O => result
  | S count => reverse_bits_loop count (Z.shiftr value 1)
                 (Z.lor (wrap32 (Z.shiftl result 1)) (Z.land value 1))
  end.
Definition reverse_bits (value : Z) (count : nat) : Z := reverse_bits_loop count value 0.

(** ** Bit writer *)

Record DeflateBitWriter := mkDeflateBitWriter {
  writer_output : bytes;
  writer_current : Z;
  writer_bit_count : Z;
}.

(** [append]: at most eight bits leave [value] in a turn.  [turns] bounds the
    number of turns; each takes at least one bit. *)
Fixpoint append_turns (turns : nat) (maximum : Z) (w : DeflateBitWriter) (value count : Z)
    : Outcome DeflateBitWriter :=
  match turns with
  | O => Ok w
  | S turns =>
      if count =? 0 then Ok w
      else
        let available := 8 - writer_bit_count w in
        let consumed := Z.min count available in
        let mask := Z.shiftl 1 consumed - 1 in
        let current := Z.lor (writer_current w)
                         (low_byte (Z.shiftl (Z.land value mask) (writer_bit_count w))) in
        let bit_count := writer_bit_count w + consumed in
        let value := Z.shiftr value consumed in
        let count := count - consumed in
        if bit_count =? 8 then
          output ← append_u8 (writer_output w) current maximum;
          append_turns turns maximum (mkDeflateBitWriter output 0 0) value count
        else append_turns turns maximum (mkDeflateBitWriter (writer_output w) current bit_count) value count
  end.
Definition writer_append (maximum : Z) (w : DeflateBitWriter) (value count : Z) : Outcome DeflateBitWriter :=
  append_turns (Z.to_nat count) maximum w value count.

Definition writer_finish (maximum : Z) (w : DeflateBitWriter) : Outcome DeflateBitWriter :=
  if writer_bit_count w =? 0 then Ok w
  else
    output ← append_u8 (writer_output w) (writer_current w) maximum;
    mret (mkDeflateBitWriter output 0 0).

(** ** Fixed Huffman code *)

(** The code of a symbol and its length. *)
Definition fixed_code (symbol : Z) : Z * Z :=
  if symbol <=? 143 then (0x30 + symbol, 8)
  else if symbol <=? 255 then (0x190 + symbol - 144, 9)
  else if symbol <=? 279 then (symbol - 256, 7)
  else (0xc0 + symbol - 280, 8).

Definition append_fixed_symbol (maximum : Z) (w : DeflateBitWriter) (symbol : Z) : Outcome DeflateBitWriter :=
  let '(code, bits) := fixed_code symbol in
  writer_append maximum w (reverse_bits code (Z.to_nat bits)) bits.

Definition length_bases : list Z :=
  [3; 4; 5; 6; 7; 8; 9; 10; 11; 13; 15; 17; 19; 23; 27; 31; 35; 43; 51; 59; 67; 83; 99; 115; 131; 163;
   195; 227; 258].
Definition length_extras : list Z :=
  [0; 0; 0; 0; 0; 0; 0; 0; 1; 1; 1; 1; 2; 2; 2; 2; 3; 3; 3; 3; 4; 4; 4; 4; 5; 5; 5; 5; 0].

(** The [while] loop that finds the last base not above the length. *)
Fixpoint run_index (steps : nat) (index length : Z) : Z :=
  match steps with
  | O => index
  | S steps =>
      if (index + 1 <? size length_bases) && (word_at length_bases (index + 1) <=? length)
      then run_index steps (index + 1) length else index
  end.

Definition append_fixed_run (maximum : Z) (w : DeflateBitWriter) (length : Z) : Outcome DeflateBitWriter :=
  let index := run_index 29 0 length in
  w ← append_fixed_symbol maximum w (257 + index);
  w ← (if negb (word_at length_extras index =? 0)
       then writer_append maximum w (length - word_at length_bases index) (word_at length_extras index)
       else Ok w);
  writer_append maximum w 0 5.

(** ** Containers *)

Definition gzip_header : bytes := [0x1f; 0x8b; 0x08; 0x00; 0x00; 0x00; 0x00; 0x00; 0x00; 0xff].
Definition slice (input : bytes) (offset count : Z) : bytes :=
  take (Z.to_nat count) (drop (Z.to_nat offset) input).

(** [static_cast<std::uint16_t>(~value)] *)
Definition not16 (value : Z) : Z := Z.land (Z.lnot value) 0xffff.

(** The [do ... while] loop over blocks.  A turn takes a full block or reaches
    the end, so one turn more than there are bytes is enough. *)
Fixpoint gzip_blocks (turns : nat) (maximum : Z) (input result : bytes) (offset : Z) : Outcome bytes :=
  match turns with
  | O => Ok result
  | S turns =>
      let remaining := size input - offset in
      let block_size := Z.min remaining (block_bytes hierarchy_profile) in
      let final := offset + block_size =? size input in
      result ← append_u8 result (if final then 1 else 0) maximum;
      result ← append_le16 result block_size maximum;
      result ← append_le16 result (not16 block_size) maximum;
      _ ← require_space result block_size maximum;
      let result := result ++ slice input offset block_size in
      let offset := offset + block_size in
      if offset <? size input then gzip_blocks turns maximum input result offset else Ok result
  end.

Definition gzip_store (input : bytes) (limits : FstCompressionLimits) : Outcome bytes :=
  let maximum := maximum_output_bytes limits in
  if size input >? U32_MAX then Throw (length_error "FST gzip input exceeds its portable size field")
  else
    _ ← require_space [] 10 maximum;
    result ← gzip_blocks (S (length input)) maximum input gzip_header 0;
    result ← append_le32 result (crc32 input) maximum;
    append_le32 result (wrap32 (size input)) maximum.

(** How many bytes from [offset + run] on repeat the byte before [offset]. *)
Fixpoint extend_run (turns : nat) (input : bytes) (offset block_end run : Z) : Z :=
  match turns with
  | O => run
  | S turns =>
      if (run <? maximum_match_bytes initial_value_profile) && (offset + run <? block_end)
         && (word_at input (offset + run) =? word_at input (offset - 1))
      then extend_run turns input offset block_end (run + 1) else run
  end.
Definition run_at (input : bytes) (block_begin block_end offset : Z) : Z :=
  if negb (offset =? block_begin) && (word_at input offset =? word_at input (offset - 1))
  then extend_run 258 input offset block_end 1 else 0.

(** The [for] loop over one block. *)
Fixpoint zlib_block (turns : nat) (maximum : Z) (input : bytes) (block_begin block_end : Z)
    (w : DeflateBitWriter) (offset : Z) : Outcome DeflateBitWriter :=
  match turns with
  | O => Ok w
  | S turns =>
      if offset <? block_end then
        let run := run_at input block_begin block_end offset in
        if run >=? 3 then
          w ← append_fixed_run maximum w run;
          zlib_block turns maximum input block_begin block_end w (offset + run)
        else
          w ← append_fixed_symbol maximum w (word_at input offset);
          zlib_block turns maximum input block_begin block_end w (offset + 1)
      else Ok w
  end.

Fixpoint zlib_blocks (turns : nat) (maximum : Z) (input : bytes) (w : DeflateBitWriter) (block_begin : Z)
    : Outcome DeflateBitWriter :=
  match turns with
  | O => Ok w
  | S turns =>
      let block_end := Z.min (size input) (block_begin + block_bytes initial_value_profile) in
      w ← writer_append maximum w (if block_end =? size input then 1 else 0) 1;
      w ← writer_append maximum w 1 2;
      w ← zlib_block (length input) maximum input block_begin block_end w block_begin;
      w ← append_fixed_symbol maximum w 256;
      if block_end <? size input then zlib_blocks turns maximum input w block_end else Ok w
  end.

Definition zlib_fixed (input : bytes) (limits : FstCompressionLimits) : Outcome bytes :=
  let maximum := maximum_output_bytes limits in
  _ ← require_space [] 2 maximum;
  w ← zlib_blocks (S (length input)) maximum input (mkDeflateBitWriter [0x78; 0x01] 0 0) 0;
  w ← writer_finish maximum w;
  append_be32 (writer_output w) (adler32 input) maximum.

(** ** The block encoder *)

(** [FstCompressionResult]; the digests are hexadecimal SHA-256. *)
Record FstCompressionResult := mkFstCompressionResult {
  result_bytes : bytes;
  result_identity : string;
  semantic_digest : list ascii;
  byte_digest : list ascii;
}.

Definition compress_fst_block (input : bytes) (kind : FstCompressionKind) (limits : FstCompressionLimits)
    : Outcome FstCompressionResult :=
  if (maximum_input_bytes limits =? 0) || (maximum_output_bytes limits =? 0)
     || (size input >? maximum_input_bytes limits)
  then Throw (length_error "FST compression exceeds its resource limits")
  else
    compressed ← match kind with
                 | HierarchyGzipStoreV1 => gzip_store input limits
                 | InitialValueZlibFixedV1 => zlib_fixed input limits
                 end;
    mret (mkFstCompressionResult compressed (profile_identity (fst_compression_profile kind))
            (sha_hex (sha_digest input)) (sha_hex (sha_digest compressed))).
