(* ===== verification/FstReader.v ===== *)
(** * FST reader: cursors and inflation

    Model of the byte cursor, the bit cursor and the two inflaters of
    src/runtime/fst_reader.cpp.  A read returns a value and the moved cursor
    or fails with the reader's error code, its message and the offset. *)
From S2P Require Import Prelude StreamHash FstCompression.

(** [ReadFailure] *)
Inductive ReadResult (A : Type) :=
  | Read (a : A)
  | ReadFailed (code message : string) (offset : Z).
Arguments Read {A} _.
Arguments ReadFailed {A} _ _ _.

#[global] Instance read_ret : MRet ReadResult := fun A a => Read a.
#[global] Instance read_bind : MBind ReadResult := fun A B f m =>
  match m with Read a => f a | ReadFailed code message offset => ReadFailed code message offset end.

Definition malformed {A} (message : string) (offset : Z) : ReadResult A :=
  ReadFailed "FSIM-FST-READ-001" message offset.
Definition exhausted {A} (message : string) (offset : Z) : ReadResult A :=
  ReadFailed "FSIM-FST-READ-003" message offset.
Definition corrupt {A} (message : string) (offset : Z) : ReadResult A :=
  ReadFailed "FSIM-FST-READ-004" message offset.

(** ** Byte cursor *)

Record Cursor := mkCursor {
  cursor_bytes : bytes;
  cursor_base : Z;
  cursor_offset : Z;
}.
Definition open_cursor (input : bytes) (base : Z) : Cursor := mkCursor input base 0.
Definition offset_of (c : Cursor) : Z := cursor_base c + cursor_offset c.
Definition remaining (c : Cursor) : Z := size (cursor_bytes c) - cursor_offset c.
Definition cursor_empty (c : Cursor) : bool := cursor_offset c =? size (cursor_bytes c).
Definition move (c : Cursor) (count : Z) : Cursor :=
  mkCursor (cursor_bytes c) (cursor_base c) (cursor_offset c + count).

Definition read_u8 (c : Cursor) : ReadResult (Z * Cursor) :=
  if cursor_empty c then malformed "FST input is truncated" (offset_of c)
  else Read (word_at (cursor_bytes c) (cursor_offset c), move c 1).

Definition read_raw (count : Z) (c : Cursor) : ReadResult (bytes * Cursor) :=
  if count >? remaining c then malformed "FST input is truncated" (offset_of c)
  else Read (slice (cursor_bytes c) (cursor_offset c) count, move c count).

(** [result |= byte << shift] over the bytes, and [result = result << 8 | byte]. *)
Definition assemble_le (data : bytes) : Z :=
  foldl (fun result k => Z.lor result (Z.shiftl (word_at data k) (8 * k))) 0 (up 0 (size data)).
Definition assemble_be (width : Z) (data : bytes) : Z :=
  foldl (fun result byte => Z.lor (Z.land (Z.shiftl result 8) (Z.ones width)) byte) 0 data.

Definition read_le16 (c : Cursor) : ReadResult (Z * Cursor) :=
  '(data, c) ← read_raw 2 c; mret (assemble_le data, c).
Definition read_le32 (c : Cursor) : ReadResult (Z * Cursor) :=
  '(data, c) ← read_raw 4 c; mret (assemble_le data, c).
Definition read_le64 (c : Cursor) : ReadResult (Z * Cursor) :=
  '(data, c) ← read_raw 8 c; mret (assemble_le data, c).
Definition read_be32 (c : Cursor) : ReadResult (Z * Cursor) :=
  '(data, c) ← read_raw 4 c; mret (assemble_be 32 data, c).
Definition read_be64 (c : Cursor) : ReadResult (Z * Cursor) :=
  '(data, c) ← read_raw 8 c; mret (assemble_be 64 data, c).

(** [varint]: seven bits a byte, least significant first.  The shift reaches
    63 at the tenth byte, which always ends the loop. *)
Fixpoint varint_loop (turns : nat) (start : Z) (c : Cursor) (result shift count : Z) : ReadResult (Z * Cursor) :=
  match turns with
  | O => malformed "FST varint is unterminated" start
  | S turns =>
      '(byte, c) ← read_u8 c;
      let count := count + 1 in
      if (shift =? 63) && negb (Z.land byte 0xfe =? 0) then malformed "FST varint overflows" start
      else
        let result := Z.lor result (shl64 (Z.land byte 0x7f) shift) in
        if Z.land byte 0x80 =? 0 then
          if negb (count =? 1) && (byte =? 0) then malformed "FST varint is not canonical" start
          else mret (result, c)
        else if shift >=? 63 then malformed "FST varint is unterminated" start
        else varint_loop turns start c result (shift + 7) count
  end.
Definition read_varint (c : Cursor) : ReadResult (Z * Cursor) :=
  varint_loop 10 (offset_of c) c 0 0 0.

(** The bytes before the first zero. *)
Fixpoint find_zero (data : bytes) : option Z :=
  match data with
  | [] => None
  | b :: rest => if b =? 0 then Some 0 else (fun n => n + 1) <$> find_zero rest
  end.
Definition read_c_string (limit : Z) (c : Cursor) : ReadResult (bytes * Cursor) :=
  match find_zero (drop (Z.to_nat (cursor_offset c)) (cursor_bytes c)) with
  | None => malformed "FST text is unterminated" (offset_of c)
  | Some count =>
      if count >? limit then exhausted "FST text exceeds its byte limit" (offset_of c)
      else Read (slice (cursor_bytes c) (cursor_offset c) count, move c (count + 1))
  end.

(** ** Stored gzip *)

Definition inflate_block (expected_size : Z) (result : bytes) (c : Cursor)
    : ReadResult (bool * bytes * Cursor) :=
  let block_offset := offset_of c in
  '(control, c) ← read_u8 c;
  if negb (Z.land control 0xfe =? 0) then
    corrupt "FST hierarchy uses an unsupported DEFLATE block" block_offset
  else
    let final := negb (Z.land control 1 =? 0) in
    '(count, c) ← read_le16 c;
    '(complement, c) ← read_le16 c;
    if negb (not16 count =? complement) then
      corrupt "FST hierarchy block length checksum failed" block_offset
    else if count >? expected_size - size result then
      corrupt "FST hierarchy expands beyond its declared size" block_offset
    else
      '(data, c) ← read_raw count c;
      mret (final, result ++ data, c).

(** A block takes at least five bytes, so there are fewer than bytes. *)
Fixpoint inflate_stored_blocks (turns : nat) (expected_size : Z) (result : bytes) (c : Cursor)
    : ReadResult (bytes * Cursor) :=
  match turns with
  | O => malformed "FST input is truncated" (offset_of c)
  | S turns =>
      '(final, result, c) ← inflate_block expected_size result c;
      if (final : bool) then mret (result, c) else inflate_stored_blocks turns expected_size result c
  end.

Definition inflate_stored_gzip (input : bytes) (expected_size maximum_hierarchy_bytes base : Z)
    : ReadResult bytes :=
  if expected_size >? maximum_hierarchy_bytes then exhausted "FST hierarchy exceeds its byte limit" base
  else
    '(found_header, c) ← read_raw 10 (open_cursor input base);
    if negb (bool_decide (found_header = gzip_header)) then
      corrupt "FST hierarchy GZip header is not canonical" base
    else
      '(result, c) ← inflate_stored_blocks (length input) expected_size [] c;
      if negb (remaining c =? 8) then
        corrupt "FST hierarchy GZip stream is trailing or truncated" (offset_of c)
      else
        '(expected_crc, c) ← read_le32 c;
        '(input_size, c) ← read_le32 c;
        if negb (size result =? expected_size) || negb (input_size =? wrap32 (size result))
           || negb (expected_crc =? crc32 result)
        then corrupt "FST hierarchy GZip checksum or size failed" (offset_of c)
        else mret result.

(** ** Bit cursor *)

Record BitCursor := mkBitCursor {
  bit_bytes : bytes;
  bit_base : Z;
  bit_offset : Z;
}.
Definition bit_position (c : BitCursor) : Z := bit_base c + bit_offset c / 8.

Definition read_bit (c : BitCursor) : ReadResult (Z * BitCursor) :=
  if bit_offset c >=? size (bit_bytes c) * 8 then
    malformed "FST zlib bitstream is truncated" (bit_position c)
  else
    Read (Z.land (Z.shiftr (word_at (bit_bytes c) (bit_offset c / 8)) (bit_offset c mod 8)) 1,
          mkBitCursor (bit_bytes c) (bit_base c) (bit_offset c + 1)).

Fixpoint read_bits_loop (count : nat) (index result : Z) (c : BitCursor) : ReadResult (Z * BitCursor) :=
  match count with
  | O => Read (result, c)
  | S count =>
      '(b, c) ← read_bit c;
      read_bits_loop count (index + 1) (Z.lor result (wrap32 (Z.shiftl b index))) c
  end.
Definition read_bits (count : nat) (c : BitCursor) : ReadResult (Z * BitCursor) := read_bits_loop count 0 0 c.

Fixpoint huffman_loop (count : nat) (result : Z) (c : BitCursor) : ReadResult (Z * BitCursor) :=
  match count with
  | O => Read (result, c)
  | S count =>
      '(b, c) ← read_bit c;
      huffman_loop count (Z.lor (wrap32 (Z.shiftl result 1)) b) c
  end.
Definition huffman_bits (count : nat) (c : BitCursor) : ReadResult (Z * BitCursor) := huffman_loop count 0 c.

(** At most seven bits of padding. *)
Fixpoint zero_padding_loop (turns : nat) (c : BitCursor) : ReadResult BitCursor :=
  match turns with
  | O => Read c
  | S turns =>
      if Z.land (bit_offset c) 7 =? 0 then Read c
      else
        '(b, c) ← read_bit c;
        if negb (b =? 0) then corrupt "FST zlib padding is nonzero" (bit_position c)
        else zero_padding_loop turns c
  end.
Definition require_zero_padding (c : BitCursor) : ReadResult BitCursor :=
  c ← zero_padding_loop 7 c;
  if negb (bit_offset c =? size (bit_bytes c) * 8) then
    corrupt "FST zlib stream has trailing bytes" (bit_position c)
  else mret c.

Definition fixed_symbol (c : BitCursor) : ReadResult (Z * BitCursor) :=
  '(code, c) ← huffman_bits 7 c;
  if code <=? 23 then Read (256 + code, c)
  else
    '(b, c) ← read_bit c;
    let code := Z.lor (wrap32 (Z.shiftl code 1)) b in
    if (code >=? 0x30) && (code <=? 0xbf) then Read (code - 0x30, c)
    else if (code >=? 0xc0) && (code <=? 0xc7) then Read (280 + code - 0xc0, c)
    else
      '(b, c) ← read_bit c;
      let code := Z.lor (wrap32 (Z.shiftl code 1)) b in
      if (code >=? 0x190) && (code <=? 0x1ff) then Read (144 + code - 0x190, c)
      else corrupt "FST zlib fixed-Huffman symbol is invalid" (bit_position c).

Definition distance_bases : list Z :=
  [1; 2; 3; 4; 5; 7; 9; 13; 17; 25; 33; 49; 65; 97; 129; 193; 257; 385; 513; 769; 1025; 1537; 2049; 3073;
   4097; 6145; 8193; 12289; 16385; 24577].
Definition distance_extras : list Z :=
  [0; 0; 0; 0; 1; 1; 2; 2; 3; 3; 4; 4; 5; 5; 6; 6; 7; 7; 8; 8; 9; 9; 10; 10; 11; 11; 12; 12; 13; 13].

(** [base + bits(extra)] when there are extra bits. *)
Definition read_extra (base extra : Z) (c : BitCursor) : ReadResult (Z * BitCursor) :=
  if extra =? 0 then Read (base, c)
  else '(more, c) ← read_bits (Z.to_nat extra) c; Read (base + more, c).

(** [output.push_back(output[output.size() - distance])], [length] times. *)
Fixpoint copy_match (length : nat) (distance : Z) (output : bytes) : bytes :=
  match length with
  | O => output
  | S length => copy_match length distance (output ++ [word_at output (size output - distance)])
  end.

Definition append_fixed_match (symbol : Z) (output : bytes) (limit : Z) (c : BitCursor)
    : ReadResult (bytes * BitCursor) :=
  if (symbol <? 257) || (symbol >? 285) then
    corrupt "FST zlib length symbol is reserved" (bit_position c)
  else
    let length_index := symbol - 257 in
    '(length, c) ← read_extra (word_at length_bases length_index) (word_at length_extras length_index) c;
    '(reversed, c) ← read_bits 5 c;
    let distance_code := reverse_bits reversed 5 in
    if distance_code >=? size distance_bases then
      corrupt "FST zlib distance symbol is reserved" (bit_position c)
    else
      '(distance, c) ← read_extra (word_at distance_bases distance_code) (word_at distance_extras distance_code) c;
      if (distance =? 0) || (distance >? size output) || (length >? sub64 limit (size output)) then
        corrupt "FST zlib match exceeds its history or output limit" (bit_position c)
      else Read (copy_match (Z.to_nat length) distance output, c).

(** The symbols of one block.  A symbol takes at least seven bits. *)
Fixpoint inflate_symbols (turns : nat) (limit : Z) (result : bytes) (c : BitCursor)
    : ReadResult (bytes * BitCursor) :=
  match turns with
  | O => malformed "FST zlib bitstream is truncated" (bit_position c)
  | S turns =>
      '(symbol, c) ← fixed_symbol c;
      if symbol <? 256 then
        if size result =? limit then exhausted "FST zlib output exceeds its reader limit" (bit_position c)
        else inflate_symbols turns limit (result ++ [symbol]) c
      else if symbol =? 256 then Read (result, c)
      else
        '(result, c) ← append_fixed_match symbol result limit c;
        inflate_symbols turns limit result c
  end.

Fixpoint inflate_fixed_blocks (turns : nat) (limit : Z) (result : bytes) (c : BitCursor)
    : ReadResult (bytes * BitCursor) :=
  match turns with
  | O => malformed "FST zlib bitstream is truncated" (bit_position c)
  | S turns =>
      '(final, c) ← read_bit c;
      '(kind, c) ← read_bits 2 c;
      if negb (kind =? 1) then corrupt "FST zlib block is not fixed-Huffman" (bit_position c)
      else
        '(result, c) ← inflate_symbols (8 * length (bit_bytes c)) limit result c;
        if negb (final =? 0) then Read (result, c) else inflate_fixed_blocks turns limit result c
  end.

Definition inflate_fixed_zlib (input : bytes) (expected_size limit base : Z) : ReadResult bytes :=
  if (size input <? 8) || (expected_size >? limit) then
    exhausted "FST zlib input exceeds its reader limit" base
  else if negb (word_at input 0 =? 0x78) || negb (word_at input 1 =? 0x01) then
    corrupt "FST zlib header is not canonical" base
  else
    let deflate := slice input 2 (size input - 6) in
    '(result, c) ← inflate_fixed_blocks (8 * length input) limit [] (mkBitCursor deflate (base + 2) 0);
    _ ← require_zero_padding c;
    '(checksum, _) ← read_be32 (open_cursor (drop (length input - 4) input) (base + size input - 4));
    if negb (size result =? expected_size) || negb (checksum =? adler32 result) then
      corrupt "FST zlib checksum or size failed" (base + size input - 4)
    else mret result.
