(* ===== verification/FstRoundTrip.v ===== *)
(** * What the FST encoders write, the FST reader reads back

    Round trips of FstCompression.v through FstReader.v: byte fields, stored
    gzip, and the fixed-Huffman zlib stream, the last through the stream of
    bits both sides work on. *)
From S2P Require Import Prelude StreamHash Sha256 FstCompression FstReader.
Ltac Zify.zify_post_hook ::= Z.div_mod_to_equations.

(** ** Bytes *)

Lemma low_byte_mod v : low_byte v = v mod 256.
Proof. unfold low_byte. change 255 with (Z.ones 8). by rewrite Z.land_ones. Qed.

Lemma low_byte_is_byte v : is_byte (low_byte v).
Proof. rewrite low_byte_mod. unfold is_byte. apply Z.mod_pos_bound. lia. Qed.

Lemma lor_shiftl_add a b n : 0 <= n -> 0 <= a < 2 ^ n -> Z.lor a (Z.shiftl b n) = a + b * 2 ^ n.
Proof.
  intros Hn Ha. rewrite <- Z.shiftl_mul_pow2 by done. assert (Z.land a (Z.shiftl b n) = 0) as E.
  { apply Z.bits_inj'. intros i Hi. rewrite Z.land_spec, Z.shiftl_spec, Z.bits_0 by done.
    destruct (decide (i < n)); [rewrite (Z.testbit_neg_r b) by lia; apply andb_false_r|].
    by rewrite (testbit_high a n) by lia. }
  rewrite Z.add_nocarry_lxor by done. by rewrite <- Z.lxor_lor.
Qed.

Lemma assemble_le_2 a b : is_byte a -> assemble_le [a; b] = a + 256 * b.
Proof.
  intros Ha. change (assemble_le [a; b]) with (Z.lor (Z.lor 0 (Z.shiftl a 0)) (Z.shiftl b 8)).
  rewrite Z.lor_0_l, Z.shiftl_0_r.
  rewrite (lor_shiftl_add a b 8) by (unfold is_byte in Ha; lia). lia.
Qed.

Lemma assemble_le_4 a b c d : is_byte a -> is_byte b -> is_byte c ->
  assemble_le [a; b; c; d] = a + 256 * b + 65536 * c + 16777216 * d.
Proof.
  unfold is_byte. intros Ha Hb Hc. change (assemble_le [a; b; c; d]) with
    (Z.lor (Z.lor (Z.lor (Z.lor 0 (Z.shiftl a 0)) (Z.shiftl b 8)) (Z.shiftl c 16)) (Z.shiftl d 24)).
  rewrite Z.lor_0_l, Z.shiftl_0_r.
  rewrite (lor_shiftl_add a b 8), (lor_shiftl_add _ c 16), (lor_shiftl_add _ d 24) by lia. lia.
Qed.

Lemma assemble_be_4 a b c d : is_byte a -> is_byte b -> is_byte c -> is_byte d ->
  assemble_be 32 [a; b; c; d] = 16777216 * a + 65536 * b + 256 * c + d.
Proof.
  unfold is_byte. intros Ha Hb Hc Hd.
  assert (forall x y, 0 <= x < 2 ^ 24 -> 0 <= y < 256 ->
    Z.lor (Z.land (Z.shiftl x 8) (Z.ones 32)) y = 256 * x + y) as Hstep.
  { intros x y Hx Hy. rewrite Z.land_ones, Z.shiftl_mul_pow2 by lia. rewrite Z.mod_small by lia.
    rewrite Z.lor_comm, <- Z.shiftl_mul_pow2 by lia. rewrite lor_shiftl_add by lia. lia. }
  unfold assemble_be. cbn [foldl].
  rewrite (Hstep 0 a), (Hstep _ b), (Hstep _ c), (Hstep _ d) by lia. lia.
Qed.

Lemma le16_parts v : 0 <= v < 65536 -> assemble_le [low_byte v; low_byte (Z.shiftr v 8)] = v.
Proof.
  intros Hv. rewrite assemble_le_2 by apply low_byte_is_byte. rewrite !low_byte_mod, Z.shiftr_div_pow2 by lia.
  change (2 ^ 8) with 256. lia.
Qed.

Lemma le32_parts v : 0 <= v < 2 ^ 32 ->
  assemble_le [low_byte (Z.shiftr v 0); low_byte (Z.shiftr v 8); low_byte (Z.shiftr v 16); low_byte (Z.shiftr v 24)] = v.
Proof.
  intros Hv. rewrite assemble_le_4 by apply low_byte_is_byte. rewrite !low_byte_mod, !Z.shiftr_div_pow2 by lia.
  change (2 ^ 0) with 1. change (2 ^ 8) with 256. change (2 ^ 16) with 65536. change (2 ^ 24) with 16777216.
  change (2 ^ 32) with 4294967296 in Hv. lia.
Qed.

Lemma be32_parts v : 0 <= v < 2 ^ 32 ->
  assemble_be 32 [low_byte (Z.shiftr v 24); low_byte (Z.shiftr v 16); low_byte (Z.shiftr v 8); low_byte (Z.shiftr v 0)] = v.
Proof.
  intros Hv. rewrite assemble_be_4 by apply low_byte_is_byte. rewrite !low_byte_mod, !Z.shiftr_div_pow2 by lia.
  change (2 ^ 0) with 1. change (2 ^ 8) with 256. change (2 ^ 16) with 65536. change (2 ^ 24) with 16777216.
  change (2 ^ 32) with 4294967296 in Hv. lia.
Qed.

Lemma not16_range v : 0 <= not16 v < 65536.
Proof. unfold not16. change 0xffff with (Z.ones 16). rewrite Z.land_ones by lia. apply Z.mod_pos_bound. lia. Qed.

Lemma crc32_range input : 0 <= crc32 input < 2 ^ 32.
Proof. unfold crc32, not32. rewrite Z.land_ones by lia. apply Z.mod_pos_bound. lia. Qed.

Lemma adler32_range input : 0 <= adler32 input < 2 ^ 32.
Proof.
  unfold adler32. assert (forall l st, 0 <= fst st < adler_modulus -> 0 <= snd st < adler_modulus ->
    0 <= fst (foldl adler32_step st l) < adler_modulus /\ 0 <= snd (foldl adler32_step st l) < adler_modulus) as H.
  { intros l. induction l as [|b l IH]; intros st H1 H2; simpl; [done|]. apply IH; simpl; apply Z.mod_pos_bound; done. }
  specialize (H input (1, 0)). destruct (foldl adler32_step (1, 0) input) as [first second]. simpl in H.
  unfold adler_modulus in H. unfold wrap32. rewrite Z.shiftl_mul_pow2 by lia. rewrite Z.mod_small by lia.
  rewrite Z.lor_comm, <- Z.shiftl_mul_pow2 by lia. rewrite lor_shiftl_add by lia. lia.
Qed.

(** ** Cursors over concatenations *)

(** The cursor has [before] behind it and [ahead] in front. *)
Definition cursor_at (c : Cursor) (before ahead : bytes) : Prop :=
  cursor_bytes c = before ++ ahead /\ cursor_offset c = size before.

Lemma slice_app before data after :
  slice (before ++ data ++ after) (size before) (size data) = data.
Proof. unfold slice, size. rewrite !Nat2Z.id, drop_app_length, take_app_length. done. Qed.

Lemma read_raw_at c before data after : cursor_at c before (data ++ after) ->
  exists c', read_raw (size data) c = Read (data, c') /\ cursor_at c' (before ++ data) after.
Proof.
  intros [Hb Ho]. unfold read_raw, remaining. rewrite Hb, Ho.
  assert (size (before ++ data ++ after) - size before = size data + size after) as ->
    by (rewrite !size_app; lia).
  assert (0 <= size after) by (unfold size; lia).
  destruct (Z.gtb_spec (size data) (size data + size after)); [lia|].
  rewrite slice_app. eexists. split; [done|]. split; simpl; [by rewrite Hb, <- app_assoc|]. rewrite Ho, size_app. lia.
Qed.

Lemma read_u8_at c before b after : cursor_at c before (b :: after) ->
  exists c', read_u8 c = Read (b, c') /\ cursor_at c' (before ++ [b]) after.
Proof.
  intros [Hb Ho]. unfold read_u8, cursor_empty. rewrite Hb, Ho.
  destruct (Z.eqb_spec (size before) (size (before ++ b :: after))) as [E|_].
  { rewrite size_app in E. unfold size in E. simpl in E. lia. }
  eexists. split.
  - f_equal. f_equal. unfold word_at, size. rewrite Nat2Z.id. by rewrite nth_middle.
  - split; simpl; [by rewrite Hb, <- app_assoc|]. rewrite Ho, size_app. done.
Qed.

Lemma read_le16_at c before v after : 0 <= v < 65536 ->
  cursor_at c before ([low_byte v; low_byte (Z.shiftr v 8)] ++ after) ->
  exists c', read_le16 c = Read (v, c') /\
    cursor_at c' (before ++ [low_byte v; low_byte (Z.shiftr v 8)]) after.
Proof.
  intros Hv Hc. destruct (read_raw_at _ _ _ _ Hc) as (c' & E & Hc'). exists c'. split; [|done].
  unfold read_le16. change 2 with (size [low_byte v; low_byte (Z.shiftr v 8)]). rewrite E.
  unfold mbind, read_bind, mret, read_ret. by rewrite le16_parts.
Qed.

Definition le32_bytes (v : Z) : bytes :=
  [low_byte (Z.shiftr v 0); low_byte (Z.shiftr v 8); low_byte (Z.shiftr v 16); low_byte (Z.shiftr v 24)].

Lemma read_le32_at c before v after : 0 <= v < 2 ^ 32 -> cursor_at c before (le32_bytes v ++ after) ->
  exists c', read_le32 c = Read (v, c') /\ cursor_at c' (before ++ le32_bytes v) after.
Proof.
  intros Hv Hc. destruct (read_raw_at _ _ _ _ Hc) as (c' & E & Hc'). exists c'. split; [|done].
  unfold read_le32. change 4 with (size (le32_bytes v)). rewrite E.
  unfold mbind, read_bind, mret, read_ret. unfold le32_bytes. by rewrite le32_parts.
Qed.

(** ** Appends *)

Lemma require_space_ok output count maximum : 0 <= count ->
  require_space output count maximum = (if size output + count <=? maximum then Ok () else Throw output_limit).
Proof.
  intros Hc. unfold require_space. assert (0 <= size output) by (unfold size; lia).
  destruct (Z.gtb_spec count maximum), (Z.gtb_spec (size output) (maximum - count)),
    (Z.leb_spec (size output + count) maximum); simpl; done || lia.
Qed.

(** A bounded append either adds its bytes or reports the limit. *)
Definition appends (output : bytes) (more : bytes) (maximum : Z) (m : Outcome bytes) : Prop :=
  m = if size output + size more <=? maximum then Ok (output ++ more) else Throw output_limit.

Lemma append_u8_appends output v maximum : appends output [v] maximum (append_u8 output v maximum).
Proof. unfold appends, append_u8. rewrite require_space_ok by lia. change (size [v]) with 1. by destruct (_ <=? _). Qed.

Lemma append_le16_appends output v maximum :
  appends output [low_byte v; low_byte (Z.shiftr v 8)] maximum (append_le16 output v maximum).
Proof. unfold appends, append_le16. rewrite require_space_ok by lia. change (size [_; _]) with 2. by destruct (_ <=? _). Qed.

Lemma append_le32_appends output v maximum : appends output (le32_bytes v) maximum (append_le32 output v maximum).
Proof. unfold appends, append_le32. rewrite require_space_ok by lia. change (size (le32_bytes v)) with 4. by destruct (_ <=? _). Qed.

Lemma appends_bind output more1 more2 maximum m f :
  appends output more1 maximum m -> appends (output ++ more1) more2 maximum (f (output ++ more1)) ->
  appends output (more1 ++ more2) maximum (m ≫= f).
Proof.
  unfold appends. intros -> Hf. rewrite !size_app in *. assert (0 <= size more2) by (unfold size; lia).
  destruct (Z.leb_spec (size output + size more1) maximum); simpl.
  - rewrite Hf, app_assoc. do 2 f_equal. by rewrite Z.add_assoc.
  - destruct (Z.leb_spec (size output + (size more1 + size more2)) maximum); [lia|done].
Qed.

Lemma require_then_appends output more maximum f m :
  appends (output ++ more) m maximum (f (output ++ more)) ->
  appends output (more ++ m) maximum (_ ← require_space output (size more) maximum; f (output ++ more)).
Proof.
  intros Hf. rewrite require_space_ok by (unfold size; lia).
  apply (appends_bind _ _ _ _ (if size output + size more <=? maximum then Ok (output ++ more) else Throw output_limit) f) in Hf;
    [|done]. revert Hf. by destruct (_ <=? _).
Qed.

Lemma size_slice input offset count : 0 <= offset -> 0 <= count -> offset + count <= size input ->
  size (slice input offset count) = count.
Proof. unfold size, slice. intros. rewrite length_take, length_drop. lia. Qed.

Lemma slice_extends input offset count : 0 <= offset -> 0 <= count -> offset + count <= size input ->
  slice input 0 offset ++ slice input offset count = slice input 0 (offset + count).
Proof.
  intros. unfold slice. change (Z.to_nat 0) with 0%nat. rewrite !drop_0. rewrite Z2Nat.inj_add by done.
  by rewrite take_take_drop.
Qed.

Lemma slice_whole input : slice input 0 (size input) = input.
Proof. unfold slice, size. rewrite Nat2Z.id. simpl. rewrite drop_0. by apply take_ge. Qed.

(** ** Stored gzip *)

(** One block as written. *)
Definition stored_block (input : bytes) (offset count : Z) : bytes :=
  [if offset + count =? size input then 1 else 0] ++ [low_byte count; low_byte (Z.shiftr count 8)]
  ++ [low_byte (not16 count); low_byte (Z.shiftr (not16 count) 8)] ++ slice input offset count.

Lemma size_stored_block input offset count : 0 <= offset -> 0 <= count -> offset + count <= size input ->
  size (stored_block input offset count) = 5 + count.
Proof.
  intros. unfold stored_block. rewrite !size_app, size_slice by done. change (size [_]) with 1.
  change (size [_; _]) with 2. lia.
Qed.

(** Reading one block back. *)
Lemma inflate_block_at c before input offset count after expected :
  0 <= offset -> 0 <= count < 65536 -> offset + count <= size input -> size input <= expected ->
  cursor_at c before (stored_block input offset count ++ after) ->
  exists c', inflate_block expected (slice input 0 offset) c
      = Read (offset + count =? size input, slice input 0 (offset + count), c') /\
    cursor_at c' (before ++ stored_block input offset count) after.
Proof.
  intros Ho Hn Hle Hexp Hc. unfold stored_block in Hc |- *. rewrite <- !app_assoc in Hc.
  set (flag := if offset + count =? size input then 1 else 0) in *.
  destruct (read_u8_at c before flag _ Hc) as (c1 & E1 & H1).
  destruct (read_le16_at c1 _ count _ ltac:(lia) H1) as (c2 & E2 & H2).
  destruct (read_le16_at c2 _ (not16 count) _ (not16_range _) H2) as (c3 & E3 & H3).
  destruct (read_raw_at c3 _ _ _ H3) as (c4 & E4 & H4). rewrite size_slice in E4 by lia.
  exists c4. rewrite <- !app_assoc in H4. split; [|done].
  unfold inflate_block. rewrite E1. unfold mbind, read_bind, mret, read_ret.
  replace (negb (Z.land flag 254 =? 0)) with false by (unfold flag; by destruct (_ =? _)).
  rewrite E2, E3, Z.eqb_refl. cbn [negb].
  rewrite size_slice by (unfold size in *; lia).
  destruct (Z.gtb_spec count (expected - offset)); [lia|]. rewrite E4, slice_extends by lia.
  f_equal. f_equal. f_equal. unfold flag. by destruct (_ =? _).
Qed.

Lemma require_appends output more maximum :
  appends output more maximum (_ ← require_space output (size more) maximum; Ok (output ++ more)).
Proof. unfold appends. rewrite require_space_ok by (unfold size; lia). by destruct (_ <=? _). Qed.

(** The header of a block, then its bytes, then [rest]. *)
Lemma stored_block_appends result input offset count maximum rest k : 0 <= offset -> 0 <= count ->
  offset + count <= size input ->
  (forall output, appends output (slice input offset count ++ rest) maximum
     (_ ← require_space output count maximum; k (output ++ slice input offset count))) ->
  appends result (stored_block input offset count ++ rest) maximum
    (result ← append_u8 result (if offset + count =? size input then 1 else 0) maximum;
     result ← append_le16 result count maximum;
     result ← append_le16 result (not16 count) maximum;
     _ ← require_space result count maximum;
     k (result ++ slice input offset count)).
Proof.
  intros Ho Hc Hle Hk. unfold stored_block. rewrite <- !app_assoc.
  apply appends_bind; [apply append_u8_appends|]. apply appends_bind; [apply append_le16_appends|].
  apply appends_bind; [apply append_le16_appends|]. apply Hk.
Qed.

Lemma inflate_stored_block_step turns' expected input offset count before after c :
  0 <= offset -> 0 <= count < 65536 -> offset + count <= size input -> size input <= expected ->
  cursor_at c before (stored_block input offset count ++ after) ->
  exists c', cursor_at c' (before ++ stored_block input offset count) after /\
    inflate_stored_blocks (S turns') expected (slice input 0 offset) c =
    (if offset + count =? size input then Read (slice input 0 (offset + count), c')
     else inflate_stored_blocks turns' expected (slice input 0 (offset + count)) c').
Proof.
  intros Ho Hc Hle Hexp Hcur. destruct (inflate_block_at c before input offset count after expected) as (c' & E & H'); try done.
  exists c'. split; [done|]. cbn [inflate_stored_blocks]. rewrite E. done.
Qed.

Lemma gzip_blocks_spec turns : forall input offset, 0 <= offset <= size input ->
  (Z.to_nat (size input - offset) < turns)%nat ->
  exists stream,
    (forall maximum result, appends result stream maximum (gzip_blocks turns maximum input result offset)) /\
    size input - offset <= size stream <= 6 * (size input - offset) + 5 /\
    forall turns' expected before after c, (turns <= turns')%nat -> size input <= expected ->
      cursor_at c before (stream ++ after) ->
      exists c', inflate_stored_blocks turns' expected (slice input 0 offset) c = Read (input, c') /\
        cursor_at c' (before ++ stream) after.
Proof.
  induction turns as [|turns IH]; intros input offset Ho Ht; [lia|].
  set (count := Z.min (size input - offset) 65535).
  assert (0 <= count < 65536 /\ offset + count <= size input) as [Hcount Hle] by lia.
  pose proof (size_stored_block input offset count ltac:(lia) ltac:(lia) Hle) as Hsize.
  pose proof (size_slice input offset count ltac:(lia) ltac:(lia) Hle) as Hsl.
  destruct (decide (offset + count = size input)) as [E|E].
  - exists (stored_block input offset count). split_and!; [|lia|lia|].
    + intros maximum result. cbn [gzip_blocks]. cbv zeta. fold count.
      rewrite <- (app_nil_r (stored_block input offset count)).
      apply (stored_block_appends result input offset count maximum [] (fun r => if offset + count <? size input
        then gzip_blocks turns maximum input r (offset + count) else Ok r)); [lia|lia|done|].
      intros output. rewrite E, Z.ltb_irrefl, app_nil_r. pose proof (require_appends output (slice input offset count) maximum) as H.
      rewrite Hsl in H. exact H.
    + intros turns' expected before after c Hturns Hexp Hc. destruct turns' as [|turns']; [lia|].
      destruct (inflate_stored_block_step turns' expected input offset count before after c) as (c' & Hc' & Er); try done; [lia|].
      exists c'. split; [|done]. rewrite Er, E, Z.eqb_refl, slice_whole. done.
  - destruct (IH input (offset + count)) as (rest & H1 & H2 & H3); [lia|lia|].
    exists (stored_block input offset count ++ rest). split_and!; [|rewrite size_app; lia|rewrite size_app; lia|].
    + intros maximum result. cbn [gzip_blocks]. cbv zeta. fold count.
      apply (stored_block_appends result input offset count maximum rest (fun r => if offset + count <? size input
        then gzip_blocks turns maximum input r (offset + count) else Ok r)); [lia|lia|done|].
      intros output. rewrite (proj2 (Z.ltb_lt _ _)) by lia.
      pose proof (require_then_appends output (slice input offset count) maximum
        (fun r => gzip_blocks turns maximum input r (offset + count)) rest (H1 _ _)) as H.
      rewrite Hsl in H. exact H.
    + intros turns' expected before after c Hturns Hexp Hc. destruct turns' as [|turns']; [lia|].
      rewrite <- app_assoc in Hc.
      destruct (inflate_stored_block_step turns' expected input offset count before (rest ++ after) c) as (c1 & Hc1 & Er); try done; [lia|].
      destruct (H3 turns' expected _ after c1 ltac:(lia) Hexp Hc1) as (c' & E' & Hc').
      exists c'. rewrite Er, (proj2 (Z.eqb_neq _ _)) by done. rewrite E', app_assoc. done.
Qed.

(** The whole container. *)
Definition gzip_trailer (input : bytes) : bytes := le32_bytes (crc32 input) ++ le32_bytes (wrap32 (size input)).

Lemma wrap32_range x : 0 <= wrap32 x < 2 ^ 32.
Proof. unfold wrap32. apply Z.mod_pos_bound. lia. Qed.

Lemma gzip_store_spec input limits : size input <= U32_MAX ->
  exists stream,
    gzip_store input limits
      = (if size (gzip_header ++ stream ++ gzip_trailer input) <=? maximum_output_bytes limits
         then Ok (gzip_header ++ stream ++ gzip_trailer input) else Throw output_limit) /\
    size input <= size stream <= 6 * size input + 5 /\
    forall turns' expected before after c, (length input < turns')%nat -> size input <= expected ->
      cursor_at c before (stream ++ after) ->
      exists c', inflate_stored_blocks turns' expected [] c = Read (input, c') /\
        cursor_at c' (before ++ stream) after.
Proof.
  intros Hsize. destruct (gzip_blocks_spec (S (length input)) input 0) as (stream & H1 & H2 & H3).
  { unfold size. lia. }
  { unfold size. lia. }
  exists stream. rewrite Z.sub_0_r in H2. split_and!; [|lia|lia|].
  - set (maximum := maximum_output_bytes limits). unfold gzip_store. cbv zeta. fold maximum.
    destruct (Z.gtb_spec (size input) U32_MAX); [lia|].
    pose proof (require_then_appends [] gzip_header maximum
      (fun r => result ← gzip_blocks (S (length input)) maximum input r 0;
                result ← append_le32 result (crc32 input) maximum;
                append_le32 result (wrap32 (size input)) maximum) (stream ++ gzip_trailer input)) as Happ.
    change (size gzip_header) with 10 in Happ. apply Happ. unfold gzip_trailer.
    apply appends_bind; [apply H1|]. apply appends_bind; [apply append_le32_appends|]. apply append_le32_appends.
  - intros turns' expected before after c Ht Hexp Hc. by apply H3.
Qed.

Lemma gzip_round_trip input limits out maximum_hierarchy_bytes base :
  gzip_store input limits = Ok out -> size input <= maximum_hierarchy_bytes ->
  inflate_stored_gzip out (size input) maximum_hierarchy_bytes base = Read input.
Proof.
  intros Hout Hmax. assert (size input <= U32_MAX) as Hsize.
  { unfold gzip_store in Hout. destruct (Z.gtb_spec (size input) U32_MAX); [done|lia]. }
  destruct (gzip_store_spec input limits Hsize) as (stream & E & Hlen & Hdec). rewrite E in Hout.
  destruct (_ <=? _); [|done]. assert (out = gzip_header ++ stream ++ gzip_trailer input) as Eout by congruence.
  unfold inflate_stored_gzip. destruct (Z.gtb_spec (size input) maximum_hierarchy_bytes); [lia|].
  destruct (read_raw_at (open_cursor out base) [] gzip_header (stream ++ gzip_trailer input)) as (c1 & E1 & H1); [by subst|].
  change (read_raw (size gzip_header)) with (read_raw 10) in E1. rewrite E1. unfold mbind, read_bind, mret, read_ret.
  rewrite bool_decide_true by done. cbn [negb].
  destruct (Hdec (length out) (size input) ([] ++ gzip_header) (gzip_trailer input) c1) as (c2 & E2 & H2); [|lia|done|].
  { rewrite Eout, !length_app. unfold size in Hlen. simpl. lia. }
  rewrite E2. unfold gzip_trailer in H2.
  assert (remaining c2 = 8) as ->.
  { destruct H2 as [Hb Ho]. unfold remaining. rewrite Hb, Ho, size_app, size_app. unfold size. simpl. lia. }
  cbn [Z.eqb Pos.eqb negb].
  destruct (read_le32_at c2 _ (crc32 input) _ (crc32_range _) H2) as (c3 & E3 & H3). rewrite E3.
  rewrite <- (app_nil_r (le32_bytes (wrap32 (size input)))) in H3.
  destruct (read_le32_at c3 _ _ _ (wrap32_range _) H3) as (c4 & E4 & _). rewrite E4, !Z.eqb_refl. done.
Qed.

(** The encoder gives up only on the byte limit. *)
Lemma gzip_store_returns input limits : size input <= U32_MAX ->
  6 * size input + 23 <= maximum_output_bytes limits -> exists out, gzip_store input limits = Ok out.
Proof.
  intros Hsize Hmax. destruct (gzip_store_spec input limits Hsize) as (stream & E & Hlen & _). rewrite E.
  rewrite (proj2 (Z.leb_le _ _)); [by eexists|]. rewrite !size_app.
  change (size gzip_header) with 10. change (size (gzip_trailer input)) with 8. lia.
Qed.
