(* ===== verification/FstBitStream.v ===== *)
(** * The bit stream between the FST encoder and its reader

    Both sides of the fixed-Huffman stream work on bits, least significant
    first within a byte.  This file relates the bit writer of FstCompression.v
    and the bit cursor of FstReader.v to lists of bits, and shows that the
    encoder's symbols and runs decode to themselves. *)
From S2P Require Import Prelude StreamHash Sha256 FstCompression FstReader FstRoundTrip.
Ltac Zify.zify_post_hook ::= Z.div_mod_to_equations.

(** ** Bits *)

Definition bits_le (v : Z) (n : nat) : list bool := (fun i => Z.testbit v (Z.of_nat i)) <$> seq 0 n.
Definition stream_bits (data : bytes) : list bool := data ≫= fun b => bits_le b 8.

Lemma length_bits_le v n : length (bits_le v n) = n.
Proof. unfold bits_le. by rewrite length_fmap, length_seq. Qed.

Lemma lookup_bits_le v n i : (i < n)%nat -> bits_le v n !! i = Some (Z.testbit v (Z.of_nat i)).
Proof. intros Hi. unfold bits_le. rewrite list_lookup_fmap, lookup_seq_lt by done. done. Qed.

Lemma bits_le_ext v v' n : (forall i, 0 <= i < Z.of_nat n -> Z.testbit v i = Z.testbit v' i) ->
  bits_le v n = bits_le v' n.
Proof. intros H. apply list_fmap_ext. intros k i Hi%lookup_seq. apply H. lia. Qed.

Lemma bits_le_app v n m : bits_le v (n + m) = bits_le v n ++ bits_le (Z.shiftr v (Z.of_nat n)) m.
Proof.
  unfold bits_le. rewrite seq_app, fmap_app. f_equal. rewrite <- (Nat.add_0_r n) at 1. rewrite Nat.add_comm.
  rewrite <- fmap_add_seq, <- list_fmap_compose. apply list_fmap_ext. intros k i Hi. simpl.
  rewrite Z.shiftr_spec by lia. f_equal. lia.
Qed.

Lemma stream_bits_app d1 d2 : stream_bits (d1 ++ d2) = stream_bits d1 ++ stream_bits d2.
Proof. apply bind_app. Qed.

Lemma length_stream_bits data : length (stream_bits data) = (8 * length data)%nat.
Proof.
  induction data as [|b data IH]; [done|]. change (stream_bits (b :: data)) with (bits_le b 8 ++ stream_bits data).
  rewrite length_app, IH, length_bits_le. simpl. lia.
Qed.

Lemma lookup_stream_bits data k j : (k < length data)%nat -> (j < 8)%nat ->
  stream_bits data !! (8 * k + j)%nat = Some (Z.testbit (nth k data 0) (Z.of_nat j)).
Proof.
  revert k. induction data as [|b data IH]; intros k Hk Hj; [simpl in Hk; lia|].
  change (stream_bits (b :: data)) with (bits_le b 8 ++ stream_bits data). destruct k as [|k].
  - rewrite lookup_app_l by (rewrite length_bits_le; lia). rewrite Nat.mul_0_r. by apply lookup_bits_le.
  - rewrite lookup_app_r by (rewrite length_bits_le; lia). rewrite length_bits_le.
    replace (8 * S k + j - 8)%nat with (8 * k + j)%nat by lia. apply IH; [simpl in Hk; lia|done].
Qed.

(** ** The writer *)

Definition writer_bits (w : DeflateBitWriter) : list bool :=
  stream_bits (writer_output w) ++ bits_le (writer_current w) (Z.to_nat (writer_bit_count w)).

Record writer_ok (w : DeflateBitWriter) : Prop := {
  writer_count_ok : 0 <= writer_bit_count w < 8;
  writer_current_ok : 0 <= writer_current w < 2 ^ writer_bit_count w;
  writer_bytes_ok : Forall is_byte (writer_output w);
}.

Lemma length_writer_bits w : writer_ok w ->
  Z.of_nat (length (writer_bits w)) = 8 * size (writer_output w) + writer_bit_count w.
Proof.
  intros [Hc _ _]. unfold writer_bits. rewrite length_app, length_stream_bits, length_bits_le. unfold size. lia.
Qed.

(** [m] appends [bits], or runs into the byte limit. *)
Definition writes (m : Z -> DeflateBitWriter -> Outcome DeflateBitWriter) (bits : list bool) : Prop :=
  forall maximum w, writer_ok w ->
    match m maximum w with
    | Ok w' => writer_ok w' /\ writer_bits w' = writer_bits w ++ bits
    | Throw x => x = output_limit /\ 8 * maximum + 7 < Z.of_nat (length (writer_bits w ++ bits))
    end.

Lemma writes_nil : writes (fun _ w => Ok w) [].
Proof. intros maximum w Hw. by rewrite app_nil_r. Qed.

Lemma writes_bind m1 m2 b1 b2 : writes m1 b1 -> writes m2 b2 ->
  writes (fun maximum w => w ← m1 maximum w; m2 maximum w) (b1 ++ b2).
Proof.
  intros H1 H2 maximum w Hw. specialize (H1 maximum w Hw). destruct (m1 maximum w) as [w1|x]; simpl.
  - destruct H1 as [Hw1 E1]. specialize (H2 maximum w1 Hw1). destruct (m2 maximum w1) as [w2|x].
    + destruct H2 as [Hw2 E2]. split; [done|]. by rewrite E2, E1, app_assoc.
    + rewrite E1, <- app_assoc in H2. done.
  - destruct H1 as [-> Hlt]. split; [done|]. rewrite app_assoc, length_app. lia.
Qed.

(** One turn moves the low bits of [value] into the current byte. *)
Lemma turn_bits current value bc n : 0 <= bc -> 0 <= n -> bc + n <= 8 -> 0 <= current < 2 ^ bc ->
  let current' := Z.lor current (low_byte (Z.shiftl (Z.land value (Z.shiftl 1 n - 1)) bc)) in
  0 <= current' < 2 ^ (bc + n) /\
  bits_le current' (Z.to_nat (bc + n)) = bits_le current (Z.to_nat bc) ++ bits_le value (Z.to_nat n).
Proof.
  intros Hbc Hn H8 Hcur. cbv zeta. rewrite Z.shiftl_1_l.
  replace (2 ^ n - 1) with (Z.ones n) by (rewrite Z.ones_equiv; lia). rewrite Z.land_ones by lia.
  pose proof (Z.mod_pos_bound value (2 ^ n) ltac:(apply Z.pow_pos_nonneg; lia)) as Hm.
  assert (2 ^ (bc + n) = 2 ^ bc * 2 ^ n) as Epow by (apply Z.pow_add_r; lia).
  assert (2 ^ (bc + n) <= 2 ^ 8) by (apply Z.pow_le_mono_r; lia).
  assert (0 < 2 ^ bc) by (apply Z.pow_pos_nonneg; lia).
  rewrite low_byte_mod, Z.shiftl_mul_pow2 by lia. rewrite Z.mod_small by (change (2 ^ 8) with 256 in *; nia).
  rewrite <- Z.shiftl_mul_pow2, lor_shiftl_add by lia. split; [nia|].
  rewrite Z2Nat.inj_add, bits_le_app by lia. rewrite Z2Nat.id by lia. f_equal.
  - apply bits_le_ext. intros i Hi. rewrite Z2Nat.id in Hi by lia. rewrite <- lor_shiftl_add by lia.
    rewrite Z.lor_spec, Z.shiftl_spec_low by lia. apply orb_false_r.
  - rewrite Z.shiftr_div_pow2, Z.div_add, Z.div_small by lia. rewrite Z.add_0_l.
    apply bits_le_ext. intros i Hi. rewrite Z2Nat.id in Hi by lia. by rewrite Z.mod_pow2_bits_low by lia.
Qed.

Lemma append_turns_writes turns : forall value count, 0 <= count -> (Z.to_nat count <= turns)%nat ->
  writes (fun maximum w => append_turns turns maximum w value count) (bits_le value (Z.to_nat count)).
Proof.
  induction turns as [|turns IH]; intros value count Hc Ht maximum w Hw.
  { replace (Z.to_nat count) with 0%nat by lia. simpl. by rewrite app_nil_r. }
  cbn [append_turns]. destruct (Z.eqb_spec count 0) as [->|Hne]; [simpl; by rewrite app_nil_r|].
  pose proof Hw as [H1 H2 H3]. cbv zeta. set (n := Z.min count (8 - writer_bit_count w)).
  assert (1 <= n <= count /\ writer_bit_count w + n <= 8) as [Hn H8] by lia.
  destruct (turn_bits (writer_current w) value (writer_bit_count w) n) as [Hcur Hbits]; [lia..|].
  set (current' := Z.lor _ _) in *.
  assert (bits_le value (Z.to_nat count) = bits_le value (Z.to_nat n) ++ bits_le (Z.shiftr value n) (Z.to_nat (count - n))) as Esplit.
  { replace (Z.to_nat count) with (Z.to_nat n + Z.to_nat (count - n))%nat by lia. rewrite bits_le_app.
    by rewrite Z2Nat.id by lia. }
  destruct (Z.eqb_spec (writer_bit_count w + n) 8) as [E8|E8].
  - rewrite E8 in *. change (Z.to_nat 8) with 8%nat in Hbits.
    assert (stream_bits (writer_output w ++ [current']) = writer_bits w ++ bits_le value (Z.to_nat n)) as Ebits.
    { rewrite stream_bits_app. unfold writer_bits. rewrite <- app_assoc, <- Hbits.
      change (stream_bits [current']) with (bits_le current' 8 ++ []). by rewrite app_nil_r. }
    rewrite append_u8_appends. change (size [current']) with 1.
    destruct (Z.leb_spec (size (writer_output w) + 1) maximum) as [Hle|Hgt]; simpl.
    + specialize (IH (Z.shiftr value n) (count - n) ltac:(lia) ltac:(lia) maximum
        (mkDeflateBitWriter (writer_output w ++ [current']) 0 0)).
      rewrite Esplit, app_assoc, <- Ebits.
      replace (stream_bits (writer_output w ++ [current'])) with
        (writer_bits (mkDeflateBitWriter (writer_output w ++ [current']) 0 0))
        by (unfold writer_bits; simpl; apply app_nil_r).
      apply IH. split; simpl; [lia|lia|]. apply Forall_app. split; [done|]. constructor; [|constructor].
      unfold is_byte. change 256 with (2 ^ 8). done.
    + split; [done|]. rewrite length_app, length_bits_le. pose proof (length_writer_bits w Hw). lia.
  - specialize (IH (Z.shiftr value n) (count - n) ltac:(lia) ltac:(lia) maximum
      (mkDeflateBitWriter (writer_output w) current' (writer_bit_count w + n))).
    assert (writer_bits (mkDeflateBitWriter (writer_output w) current' (writer_bit_count w + n))
      = writer_bits w ++ bits_le value (Z.to_nat n)) as Ebits.
    { unfold writer_bits. simpl. by rewrite Hbits, app_assoc. }
    rewrite Esplit, app_assoc, <- Ebits. apply IH. split; simpl; [lia|done|done].
Qed.

Lemma writer_append_writes value count : 0 <= count ->
  writes (fun maximum w => writer_append maximum w value count) (bits_le value (Z.to_nat count)).
Proof. intros Hc. by apply append_turns_writes. Qed.

(** ** The bit cursor *)

Definition advance_bits (c : BitCursor) (count : nat) : BitCursor :=
  mkBitCursor (bit_bytes c) (bit_base c) (bit_offset c + Z.of_nat count).

(** The cursor stands before [ahead]. *)
Definition at_bits (c : BitCursor) (ahead : list bool) : Prop :=
  0 <= bit_offset c /\ drop (Z.to_nat (bit_offset c)) (stream_bits (bit_bytes c)) = ahead.

(** [m] consumes exactly [bits] and returns [a]. *)
Definition reads {A} (m : BitCursor -> ReadResult (A * BitCursor)) (bits : list bool) (a : A) : Prop :=
  forall c rest, at_bits c (bits ++ rest) -> m c = Read (a, advance_bits c (length bits)).

Lemma advance_bits_add c n m : advance_bits (advance_bits c n) m = advance_bits c (n + m).
Proof. unfold advance_bits. simpl. f_equal. lia. Qed.

Lemma advance_bits_0 c : advance_bits c 0 = c.
Proof. destruct c. unfold advance_bits. simpl. f_equal. lia. Qed.

Lemma at_bits_advance c bits rest : at_bits c (bits ++ rest) -> at_bits (advance_bits c (length bits)) rest.
Proof.
  intros [H0 H]. split; simpl; [lia|]. rewrite Z2Nat.inj_add, Nat2Z.id by lia.
  rewrite <- drop_drop, H. apply drop_app_length.
Qed.

Lemma at_bits_length c ahead : at_bits c ahead -> (length ahead <= 8 * length (bit_bytes c))%nat.
Proof. intros [_ <-]. rewrite length_drop, length_stream_bits. lia. Qed.

Lemma reads_ret {A} (a : A) : reads (fun c => Read (a, c)) [] a.
Proof. intros c rest _. by rewrite advance_bits_0. Qed.

Lemma reads_bind {A B} (m : BitCursor -> ReadResult (A * BitCursor)) (f : A -> BitCursor -> ReadResult (B * BitCursor))
    b1 b2 a b :
  reads m b1 a -> reads (f a) b2 b -> reads (fun c => '(a, c) ← m c; f a c) (b1 ++ b2) b.
Proof.
  intros H1 H2 c rest Hc. rewrite <- app_assoc in Hc. rewrite (H1 _ _ Hc). unfold mbind, read_bind.
  rewrite (H2 _ rest) by (by apply at_bits_advance). by rewrite advance_bits_add, length_app.
Qed.

Lemma read_bit_reads b : reads read_bit [b] (Z.b2z b).
Proof.
  intros c rest [H0 H]. unfold read_bit. set (k := Z.to_nat (bit_offset c)) in *.
  assert (stream_bits (bit_bytes c) !! k = Some b) as Hk.
  { rewrite <- (Nat.add_0_r k), <- lookup_drop, H. done. }
  pose proof (lookup_lt_Some _ _ _ Hk) as Hlt. rewrite length_stream_bits in Hlt.
  destruct (Z.geb_spec (bit_offset c) (size (bit_bytes c) * 8)); [unfold size in *; lia|].
  do 3 f_equal. rewrite (Nat.div_mod_eq k 8) in Hk.
  rewrite lookup_stream_bits in Hk by (apply Nat.Div0.div_lt_upper_bound || apply Nat.mod_upper_bound; lia).
  apply (inj Some) in Hk. change 1 with (Z.ones 1). rewrite Z.land_ones by lia. change (2 ^ 1) with 2.
  rewrite <- Z.bit0_mod, Z.shiftr_spec by lia. f_equal. rewrite <- Hk. unfold word_at, k. f_equal; [f_equal|].
  - rewrite Z2Nat.inj_div by lia. done.
  - rewrite Nat2Z.inj_mod, Z2Nat.id by lia. lia.
Qed.

(** What [read_bits] and [huffman_bits] make of the bits. *)
Fixpoint bits_value (index result : Z) (bits : list bool) : Z :=
  match bits with
  | [] => result
  | b :: bits => bits_value (index + 1) (Z.lor result (wrap32 (Z.shiftl (Z.b2z b) index))) bits
  end.
Definition huffman_step (result : Z) (b : bool) : Z := Z.lor (wrap32 (Z.shiftl result 1)) (Z.b2z b).
Definition huffman_value (bits : list bool) : Z := foldl huffman_step 0 bits.

Lemma read_bits_loop_reads bits : forall index result,
  reads (read_bits_loop (length bits) index result) bits (bits_value index result bits).
Proof.
  induction bits as [|b bits IH]; intros index result; [apply reads_ret|].
  apply (reads_bind read_bit (fun v => read_bits_loop (length bits) (index + 1)
    (Z.lor result (wrap32 (Z.shiftl v index)))) [b] bits (Z.b2z b)); [apply read_bit_reads|apply IH].
Qed.

Lemma read_bits_reads bits n : length bits = n -> reads (read_bits n) bits (bits_value 0 0 bits).
Proof. intros <-. apply read_bits_loop_reads. Qed.

Lemma huffman_bits_reads bits n : length bits = n -> reads (huffman_bits n) bits (huffman_value bits).
Proof.
  intros <-. unfold huffman_bits, huffman_value. generalize 0 as result.
  induction bits as [|b bits IH]; intros result; [apply reads_ret|].
  apply (reads_bind read_bit (fun v => huffman_loop (length bits) (Z.lor (wrap32 (Z.shiftl result 1)) v))
    [b] bits (Z.b2z b)); [apply read_bit_reads|apply IH].
Qed.

(** ** The fixed Huffman code *)

(** The bits of a symbol, in the order they are written. *)
Definition code_bits (symbol : Z) : list bool :=
  let '(code, bits) := fixed_code symbol in bits_le (reverse_bits code (Z.to_nat bits)) (Z.to_nat bits).

Definition code_length_ok (symbol : Z) : bool :=
  (7 <=? length (code_bits symbol))%nat && (length (code_bits symbol) <=? 9)%nat.

(** What the decoder's comparisons come to on the bits of a symbol. *)
Definition code_decodes (symbol : Z) : bool :=
  match code_bits symbol with
  | a :: b :: c :: d :: e :: f :: g :: more =>
      let v7 := huffman_value [a; b; c; d; e; f; g] in
      match more with
      | [] => (v7 <=? 23) && (256 + v7 =? symbol)
      | h :: more =>
          let v8 := huffman_step v7 h in
          negb (v7 <=? 23) &&
          match more with
          | [] => if (v8 >=? 0x30) && (v8 <=? 0xbf) then v8 - 0x30 =? symbol
                  else (v8 >=? 0xc0) && (v8 <=? 0xc7) && (280 + v8 - 0xc0 =? symbol)
          | [i] => let v9 := huffman_step v8 i in
                   negb ((v8 >=? 0x30) && (v8 <=? 0xbf)) && negb ((v8 >=? 0xc0) && (v8 <=? 0xc7))
                   && (v9 >=? 0x190) && (v9 <=? 0x1ff) && (144 + v9 - 0x190 =? symbol)
          | _ => false
          end
      end
  | _ => false
  end.

(** All symbols at once: the code is a table of 288 entries. *)
Lemma codes_checked : forallb (fun s => code_length_ok s && code_decodes s) (up 0 288) = true.
Proof. vm_compute. reflexivity. Qed.

Lemma code_checked symbol : 0 <= symbol < 288 ->
  (7 <= length (code_bits symbol) <= 9)%nat /\ code_decodes symbol = true.
Proof.
  intros Hs. pose proof codes_checked as H. rewrite forallb_forall in H. specialize (H symbol).
  rewrite <- list_elem_of_In, elem_of_up in H. apply H in Hs. apply andb_true_iff in Hs as [Hl Hd].
  apply andb_true_iff in Hl as [H7%Nat.leb_le H9%Nat.leb_le]. done.
Qed.

Lemma huffman_step_fold v b : Z.lor (wrap32 (Z.shiftl v 1)) (Z.b2z b) = huffman_step v b.
Proof. reflexivity. Qed.

Lemma fixed_symbol_reads symbol : 0 <= symbol < 288 -> reads fixed_symbol (code_bits symbol) symbol.
Proof.
  intros Hs. destruct (code_checked symbol Hs) as [_ H]. unfold code_decodes in H. unfold fixed_symbol.
  destruct (code_bits symbol) as [|a [|b [|c [|d [|e [|f [|g more]]]]]]]; try done.
  change (a :: b :: c :: d :: e :: f :: g :: more) with ([a; b; c; d; e; f; g] ++ more).
  eapply reads_bind; [by apply huffman_bits_reads|]. cbv zeta in H. destruct more as [|h more].
  { apply andb_true_iff in H as [H7 ->%Z.eqb_eq]. rewrite H7. apply reads_ret. }
  apply andb_true_iff in H as [H7%negb_true_iff H]. rewrite H7. change (h :: more) with ([h] ++ more).
  eapply reads_bind; [apply read_bit_reads|]. cbv zeta.
  rewrite huffman_step_fold.
  set (v8 := huffman_step _ h) in *. destruct more as [|i [|? ?]]; [| |done].
  - destruct (_ && _); [apply Z.eqb_eq in H as ->; apply reads_ret|].
    apply andb_true_iff in H as [-> ->%Z.eqb_eq]. apply reads_ret.
  - rewrite !andb_true_iff, !negb_true_iff in H. destruct H as [[[[H1 H2] H3] H4] H5%Z.eqb_eq]. rewrite H1, H2.
    rewrite <- (app_nil_r [i]). eapply reads_bind; [apply read_bit_reads|]. cbv zeta.
    rewrite huffman_step_fold.
    rewrite H3, H4. cbn [andb]. rewrite H5. apply reads_ret.
Qed.

Lemma append_fixed_symbol_writes symbol : 0 <= symbol < 288 ->
  writes (fun maximum w => append_fixed_symbol maximum w symbol) (code_bits symbol).
Proof.
  intros Hs. unfold append_fixed_symbol, code_bits. destruct (fixed_code symbol) as [code bits] eqn:E.
  assert (0 <= bits) by (unfold fixed_code in E; repeat case_match; simplify_eq; lia).
  by apply writer_append_writes.
Qed.

(** ** Runs *)

Definition run_extra (length : Z) : list bool :=
  let index := run_index 29 0 length in
  bits_le (length - word_at length_bases index) (Z.to_nat (word_at length_extras index)).
Definition run_bits (length : Z) : list bool :=
  code_bits (257 + run_index 29 0 length) ++ run_extra length ++ replicate 5 false.

Definition run_decodes (length : Z) : bool :=
  let index := run_index 29 0 length in
  (0 <=? index) && (index <=? 28) && (0 <=? word_at length_extras index)
  && (word_at length_extras index <=? 5)
  && ((if word_at length_extras index =? 0 then 0 else bits_value 0 0 (run_extra length))
      =? length - word_at length_bases index).

Lemma runs_checked : forallb run_decodes (up 3 259) = true.
Proof. vm_compute. reflexivity. Qed.

Lemma run_checked length : 3 <= length <= 258 -> let index := run_index 29 0 length in
  0 <= index <= 28 /\ 0 <= word_at length_extras index <= 5 /\
  word_at length_bases index + (if word_at length_extras index =? 0 then 0 else bits_value 0 0 (run_extra length)) = length.
Proof.
  intros Hl. pose proof runs_checked as H. rewrite forallb_forall in H. specialize (H length).
  rewrite <- list_elem_of_In, elem_of_up in H. specialize (H ltac:(lia)). unfold run_decodes in H. cbv zeta in *.
  rewrite !andb_true_iff, !Z.leb_le, Z.eqb_eq in H. lia.
Qed.

Lemma length_run_bits length : 3 <= length <= 258 ->
  (12 <= base.length (run_bits length) <= 19)%nat.
Proof.
  intros Hl. destruct (run_checked length Hl) as (Hi & He & _). unfold run_bits.
  destruct (code_checked (257 + run_index 29 0 length) ltac:(lia)) as [Hc _].
  rewrite !length_app, length_replicate. unfold run_extra. rewrite length_bits_le. lia.
Qed.

Lemma append_fixed_run_writes length : 3 <= length <= 258 ->
  writes (fun maximum w => append_fixed_run maximum w length) (run_bits length).
Proof.
  intros Hl. destruct (run_checked length Hl) as (Hi & He & _). unfold append_fixed_run, run_bits. cbv zeta.
  apply (writes_bind (fun maximum w => append_fixed_symbol maximum w (257 + run_index 29 0 length))
    (fun maximum w => w ← (if negb (word_at length_extras (run_index 29 0 length) =? 0) then writer_append maximum w _ _ else Ok w);
       writer_append maximum w 0 5)); [apply append_fixed_symbol_writes; lia|].
  apply (writes_bind (fun maximum w => if negb (word_at length_extras (run_index 29 0 length) =? 0) then _ else _)
    (fun maximum w => writer_append maximum w 0 5)); [|by apply (writer_append_writes 0 5)].
  unfold run_extra. destruct (Z.eqb_spec (word_at length_extras (run_index 29 0 length)) 0) as [E|E]; cbn [negb].
  - rewrite E. apply writes_nil.
  - apply writer_append_writes; lia.
Qed.

Lemma read_extra_reads base extra bits : 0 <= extra -> length bits = Z.to_nat extra ->
  reads (read_extra base extra) bits (base + (if extra =? 0 then 0 else bits_value 0 0 bits)).
Proof.
  intros H0 Hl. unfold read_extra. destruct (Z.eqb_spec extra 0) as [->|E].
  - destruct bits; [|done]. rewrite Z.add_0_r. apply reads_ret.
  - rewrite <- (app_nil_r bits) at 1. eapply reads_bind; [by apply read_bits_reads|]. apply reads_ret.
Qed.

(** A match at distance one repeats the last byte. *)
Lemma copy_match_last n : forall output b, copy_match n 1 (output ++ [b]) = output ++ [b] ++ replicate n b.
Proof.
  induction n as [|n IH]; intros output b; simpl; [done|].
  assert (word_at (output ++ [b]) (size (output ++ [b]) - 1) = b) as ->.
  { rewrite size_app. change (size [b]) with 1. unfold word_at, size. replace (Z.to_nat _) with (length output) by lia.
    apply nth_middle. }
  rewrite IH, <- app_assoc. done.
Qed.

Lemma append_fixed_match_reads length output b limit : 3 <= length <= 258 -> 0 <= limit < 2 ^ 64 ->
  size (output ++ [b]) + length <= limit ->
  reads (append_fixed_match (257 + run_index 29 0 length) (output ++ [b]) limit)
    (run_extra length ++ replicate 5 false) (output ++ [b] ++ replicate (Z.to_nat length) b).
Proof.
  intros Hl Hlim Hfit. destruct (run_checked length Hl) as (Hi & He & Hval). cbv zeta in *.
  unfold append_fixed_match. set (index := run_index 29 0 length) in *.
  destruct (Z.ltb_spec (257 + index) 257); [lia|]. destruct (Z.gtb_spec (257 + index) 285); [lia|]. cbv zeta.
  cbn [orb]. replace (257 + index - 257) with index by lia.
  eapply reads_bind.
  { apply read_extra_reads; [lia|]. unfold run_extra. fold index. apply length_bits_le. }
  rewrite Hval. rewrite <- (app_nil_r (replicate 5 false)). eapply reads_bind; [by apply read_bits_reads|].
  cbv zeta. change (reverse_bits (bits_value 0 0 (replicate 5 false)) 5) with 0.
  change (0 >=? size distance_bases) with false. change (word_at distance_bases 0) with 1.
  change (word_at distance_extras 0) with 0. cbv beta iota.
  change (read_extra 1 0) with (fun c : BitCursor => Read (1, c)). cbn -[copy_match sub64 size app replicate].
  assert (1 <= size (output ++ [b])) by (rewrite size_app; change (size [b]) with 1; unfold size; lia).
  unfold sub64, wrap64. rewrite Z.mod_small by lia.
  destruct (Z.gtb_spec 1 (size (output ++ [b]))); [lia|].
  destruct (Z.gtb_spec length (limit - size (output ++ [b]))); [lia|]. simpl. rewrite copy_match_last. apply reads_ret.
Qed.
