(* ===== verification/FstZlibRoundTrip.v ===== *)
(** * The fixed-Huffman zlib stream reads back

    [zlib_fixed] of FstCompression.v followed by [inflate_fixed_zlib] of
    FstReader.v is the identity: by induction over the symbols of a block and
    over the blocks, with what is written given as a list of bits that does
    not depend on the writer, and the reader shown to consume exactly it. *)
From S2P Require Import Prelude StreamHash Sha256 FstCompression FstReader FstRoundTrip FstBitStream.
Ltac Zify.zify_post_hook ::= Z.div_mod_to_equations.

(** ** Runs of the input *)

(** The bytes from [offset] on that repeat the one before. *)
Definition repeats (input : bytes) (offset run : Z) : Prop :=
  forall k, 0 <= k < run -> word_at input (offset + k) = word_at input (offset - 1).

Lemma extend_run_spec turns : forall input offset block_end run,
  repeats input offset run -> 0 <= run <= 258 -> offset + run <= block_end ->
  let r := extend_run turns input offset block_end run in
  repeats input offset r /\ run <= r <= 258 /\ offset + r <= block_end.
Proof.
  induction turns as [|turns IH]; intros input offset block_end run Hrep Hrun Hend; cbv zeta; cbn [extend_run];
    [split_and!; done || lia|].
  destruct (_ && _) eqn:E; [|split_and!; done || lia].
  rewrite !andb_true_iff, !Z.ltb_lt, Z.eqb_eq in E. destruct E as [[Hmax Hin] E].
  change (maximum_match_bytes initial_value_profile) with 258 in Hmax.
  destruct (IH input offset block_end (run + 1)) as (H1 & H2 & H3); [|lia|lia|split_and!; done || lia].
  intros k Hk. destruct (decide (k = run)) as [->|]; [done|]. apply Hrep. lia.
Qed.

Lemma run_at_spec input block_begin block_end offset : block_begin <= offset < block_end ->
  let r := run_at input block_begin block_end offset in
  3 <= r -> block_begin < offset /\ repeats input offset r /\ r <= 258 /\ offset + r <= block_end.
Proof.
  intros Ho r. unfold r, run_at. clear r. destruct (_ && _) eqn:E; [|lia].
  rewrite andb_true_iff, negb_true_iff, Z.eqb_neq, Z.eqb_eq in E. destruct E as [Hne E].
  destruct (extend_run_spec 258 input offset block_end 1) as (H1 & H2 & H3); [|lia|lia|].
  - intros k Hk. replace k with 0 by lia. by rewrite Z.add_0_r.
  - revert H1 H2 H3. generalize (extend_run 258 input offset block_end 1). intros r H1 H2 H3 _. split_and!; done || lia.
Qed.

Lemma slice_snoc input offset : 0 <= offset < size input ->
  slice input 0 offset ++ [word_at input offset] = slice input 0 (offset + 1).
Proof.
  intros Ho. rewrite <- slice_extends by lia. f_equal. unfold slice, word_at. change (Z.to_nat 1) with 1%nat.
  unfold size in Ho. set (k := Z.to_nat offset). assert (k < length input)%nat as Hk by lia.
  destruct (lookup_lt_is_Some_2 _ _ Hk) as [x Hx]. rewrite (drop_S _ _ _ Hx). simpl. f_equal.
  apply nth_lookup_Some with (d := 0) in Hx. done.
Qed.

Lemma slice_repeats input offset run : repeats input offset run -> 0 < offset -> 0 <= run ->
  offset + run <= size input ->
  slice input 0 offset ++ replicate (Z.to_nat run) (word_at input (offset - 1)) = slice input 0 (offset + run).
Proof.
  intros Hrep Ho Hrun. revert Hrep. pattern run. revert run Hrun. apply natlike_ind; cbv beta.
  - intros _ _. simpl. by rewrite app_nil_r, Z.add_0_r.
  - intros run Hrun IH Hrep Hend. rewrite Z2Nat.inj_succ, replicate_S_end, app_assoc by done.
    rewrite IH by (lia || (intros k Hk; apply Hrep; lia)). rewrite <- (Hrep run) by lia.
    rewrite slice_snoc by lia. f_equal. lia.
Qed.

Lemma word_at_byte input k : Forall is_byte input -> is_byte (word_at input k).
Proof.
  intros H. unfold word_at. destruct (nth_in_or_default (Z.to_nat k) input 0) as [Hin| ->].
  - rewrite Forall_forall in H. by apply H, list_elem_of_In.
  - unfold is_byte. lia.
Qed.

(** ** One block *)

(** [stream] is what a block loop from [offset] writes, and what makes the
    reader's symbol loop append the bytes up to [block_end]. *)
Record block_stream (turns : nat) (input : bytes) (block_begin block_end offset : Z) (stream : list bool) : Prop := {
  block_written : writes (fun maximum w => zlib_block turns maximum input block_begin block_end w offset) stream;
  block_length : Z.of_nat (length stream) <= 9 * (block_end - offset);
  block_read : forall turns' limit, (length stream < turns')%nat -> size input <= limit < 2 ^ 64 ->
    reads (inflate_symbols turns' limit (slice input 0 offset)) (stream ++ code_bits 256) (slice input 0 block_end);
}.

Lemma block_stream_end turns input block_begin offset : block_stream turns input block_begin offset offset [].
Proof.
  split.
  - destruct turns as [|turns]; [apply writes_nil|]. cbn [zlib_block]. rewrite Z.ltb_irrefl. apply writes_nil.
  - simpl. lia.
  - intros turns' limit Ht Hlim. destruct turns' as [|turns']; [simpl in Ht; lia|]. cbn [inflate_symbols].
    rewrite app_nil_l, <- (app_nil_r (code_bits 256)). eapply reads_bind; [by apply fixed_symbol_reads|]. apply reads_ret.
Qed.

Lemma block_stream_byte turns input block_begin block_end offset stream :
  0 <= offset < block_end -> block_end <= size input -> is_byte (word_at input offset) ->
  run_at input block_begin block_end offset < 3 ->
  block_stream turns input block_begin block_end (offset + 1) stream ->
  block_stream (S turns) input block_begin block_end offset (code_bits (word_at input offset) ++ stream).
Proof.
  intros Ho Hend Hbyte Hrun [H1 H2 H3]. unfold is_byte in Hbyte.
  destruct (code_checked (word_at input offset) ltac:(lia)) as [Hlen _]. split.
  - cbn [zlib_block]. rewrite (proj2 (Z.ltb_lt _ _)) by lia. cbv zeta.
    destruct (Z.geb_spec (run_at input block_begin block_end offset) 3); [lia|].
    apply (writes_bind (fun maximum w => append_fixed_symbol maximum w (word_at input offset))
      (fun maximum w => zlib_block turns maximum input block_begin block_end w (offset + 1))); [|done].
    apply append_fixed_symbol_writes. lia.
  - rewrite length_app. lia.
  - intros turns' limit Ht Hlim. rewrite length_app in Ht. destruct turns' as [|turns']; [lia|]. cbn [inflate_symbols].
    rewrite <- app_assoc. eapply reads_bind; [apply fixed_symbol_reads; lia|]. cbv beta.
    rewrite (proj2 (Z.ltb_lt (word_at input offset) 256)), size_slice, slice_snoc by lia.
    rewrite (proj2 (Z.eqb_neq offset limit)) by lia. apply H3; lia.
Qed.

Lemma block_stream_run turns input block_begin block_end offset stream :
  let run := run_at input block_begin block_end offset in
  0 <= block_begin <= offset -> offset < block_end -> block_end <= size input -> 3 <= run ->
  block_stream turns input block_begin block_end (offset + run) stream ->
  block_stream (S turns) input block_begin block_end offset (run_bits run ++ stream).
Proof.
  intros run Hb Ho Hend Hrun [H1 H2 H3].
  destruct (run_at_spec input block_begin block_end offset) as (Hbegin & Hrep & Hmax & Hfit); [lia|done|].
  fold run in Hrep, Hmax, Hfit. pose proof (length_run_bits run ltac:(lia)) as Hlen. split.
  - cbn [zlib_block]. rewrite (proj2 (Z.ltb_lt _ _)) by lia. cbv zeta. fold run.
    destruct (Z.geb_spec run 3); [|lia].
    apply (writes_bind (fun maximum w => append_fixed_run maximum w run)
      (fun maximum w => zlib_block turns maximum input block_begin block_end w (offset + run))); [|done].
    apply append_fixed_run_writes. lia.
  - rewrite length_app. lia.
  - intros turns' limit Ht Hlim. rewrite length_app in Ht. destruct turns' as [|turns']; [lia|]. cbn [inflate_symbols].
    unfold run_bits. rewrite <- !app_assoc. pose proof (run_checked run ltac:(lia)) as (Hi & _). cbv zeta in Hi.
    eapply reads_bind; [apply fixed_symbol_reads; lia|]. cbv beta.
    destruct (Z.ltb_spec (257 + run_index 29 0 run) 256); [lia|].
    destruct (Z.eqb_spec (257 + run_index 29 0 run) 256); [lia|].
    rewrite (app_assoc (run_extra run)).
    pose proof (slice_snoc input (offset - 1) ltac:(lia)) as Esnoc. rewrite Z.sub_add in Esnoc. rewrite <- Esnoc.
    eapply reads_bind.
    { apply append_fixed_match_reads; [lia|lia|]. rewrite Esnoc, size_slice by lia. lia. }
    cbv beta. rewrite app_assoc, Esnoc, slice_repeats by (done || lia). apply H3; lia.
Qed.

Lemma zlib_block_spec turns : forall input block_begin block_end offset,
  Forall is_byte input -> 0 <= block_begin <= offset -> offset <= block_end -> block_end <= size input ->
  (Z.to_nat (block_end - offset) <= turns)%nat ->
  exists stream, block_stream turns input block_begin block_end offset stream.
Proof.
  induction turns as [|turns IH]; intros input block_begin block_end offset Hin Hb Ho Hend Ht.
  { replace offset with block_end by lia. eexists. apply block_stream_end. }
  destruct (decide (offset = block_end)) as [->|Hne]; [eexists; apply block_stream_end|].
  destruct (decide (3 <= run_at input block_begin block_end offset)) as [Hrun|Hrun].
  - destruct (run_at_spec input block_begin block_end offset) as (_ & _ & _ & Hfit); [lia|done|].
    destruct (IH input block_begin block_end (offset + run_at input block_begin block_end offset)) as [stream Hs];
      [done|lia..|]. eexists. apply block_stream_run; [lia..|exact Hs].
  - destruct (IH input block_begin block_end (offset + 1)) as [stream Hs]; [done|lia..|].
    eexists. apply block_stream_byte; [lia..| |lia|exact Hs]. by apply word_at_byte.
Qed.

(** ** The blocks *)

(** The reader bounds its symbol loop by the bits there are. *)
Lemma reads_bounded {A} (m : nat -> BitCursor -> ReadResult (A * BitCursor)) bits a :
  (forall turns, (length bits <= turns)%nat -> reads (m turns) bits a) ->
  reads (fun c => m (8 * length (bit_bytes c))%nat c) bits a.
Proof.
  intros H c rest Hc. pose proof (at_bits_length _ _ Hc) as Hlen. rewrite length_app in Hlen.
  apply (H (8 * length (bit_bytes c))%nat ltac:(lia) c rest Hc).
Qed.

Record blocks_stream (turns : nat) (input : bytes) (block_begin : Z) (stream : list bool) : Prop := {
  blocks_written : writes (fun maximum w => zlib_blocks turns maximum input w block_begin) stream;
  blocks_length : 10 <= Z.of_nat (length stream) <= 19 * (size input - block_begin) + 10;
  blocks_read : forall turns' limit, (length stream <= turns')%nat -> size input <= limit < 2 ^ 64 ->
    reads (inflate_fixed_blocks turns' limit (slice input 0 block_begin)) stream input;
}.

(** A block's header, its symbols and the end mark, then [more]. *)
Definition block_bits (final : bool) (stream more : list bool) : list bool :=
  [final] ++ bits_le 1 2 ++ (stream ++ code_bits 256) ++ more.

Lemma length_end_mark : length (code_bits 256) = 7%nat.
Proof. reflexivity. Qed.

Lemma zlib_blocks_written turns input block_begin block_end stream more :
  block_end = Z.min (size input) (block_begin + 65535) ->
  writes (fun maximum w => zlib_block (length input) maximum input block_begin block_end w block_begin) stream ->
  writes (fun maximum w => if block_end <? size input then zlib_blocks turns maximum input w block_end else Ok w) more ->
  writes (fun maximum w => zlib_blocks (S turns) maximum input w block_begin)
    (block_bits (block_end =? size input) stream more).
Proof.
  intros Eend Hs Hm. cbn [zlib_blocks]. cbv zeta. change (block_bytes initial_value_profile) with 65535. rewrite <- Eend.
  unfold block_bits. rewrite <- (app_assoc stream).
  apply (writes_bind (fun maximum w => writer_append maximum w (if block_end =? size input then 1 else 0) 1)
    (fun maximum w => w ← writer_append maximum w 1 2; _)).
  { assert ([block_end =? size input] = bits_le (if block_end =? size input then 1 else 0) 1) as ->
      by (by destruct (_ =? _)). by apply (writer_append_writes _ 1). }
  apply (writes_bind (fun maximum w => writer_append maximum w 1 2) (fun maximum w => w ← zlib_block _ _ _ _ _ w _; _)).
  { by apply (writer_append_writes _ 2). }
  apply (writes_bind (fun maximum w => zlib_block (length input) maximum input block_begin block_end w block_begin)
    (fun maximum w => w ← append_fixed_symbol maximum w 256; _)); [done|].
  apply (writes_bind (fun maximum w => append_fixed_symbol maximum w 256)
    (fun maximum w => if block_end <? size input then _ else _)); [|done]. by apply append_fixed_symbol_writes.
Qed.

Lemma zlib_blocks_read turns' limit input block_begin block_end stream more :
  (forall turns, (length stream < turns)%nat -> 
    reads (inflate_symbols turns limit (slice input 0 block_begin)) (stream ++ code_bits 256) (slice input 0 block_end)) ->
  reads (fun c => if block_end =? size input then Read (slice input 0 block_end, c)
                  else inflate_fixed_blocks turns' limit (slice input 0 block_end) c) more input ->
  reads (inflate_fixed_blocks (S turns') limit (slice input 0 block_begin))
    (block_bits (block_end =? size input) stream more) input.
Proof.
  intros Hs Hm. cbn [inflate_fixed_blocks]. unfold block_bits.
  eapply reads_bind; [apply read_bit_reads|]. eapply reads_bind; [apply read_bits_reads, length_bits_le|].
  change (bits_value 0 0 (bits_le 1 2)) with 1. cbv beta. cbn [Z.eqb Pos.eqb negb].
  eapply reads_bind;
    [apply (reads_bounded (fun turns => inflate_symbols turns limit (slice input 0 block_begin)))|].
  - intros turns Ht. apply Hs. rewrite length_app, length_end_mark in Ht. lia.
  - revert Hm. by destruct (_ =? _).
Qed.

Lemma zlib_blocks_spec turns : forall input block_begin, Forall is_byte input -> 0 <= block_begin <= size input ->
  (Z.to_nat (size input - block_begin) < turns)%nat ->
  exists stream, blocks_stream turns input block_begin stream.
Proof.
  induction turns as [|turns IH]; intros input block_begin Hin Hb Ht; [lia|].
  set (block_end := Z.min (size input) (block_begin + 65535)).
  destruct (zlib_block_spec (length input) input block_begin block_end block_begin) as (stream & [H1 H2 H3]);
    [done|lia|lia|lia|unfold size in *; lia|].
  assert (forall more, length (block_bits (block_end =? size input) stream more) = (10 + length stream + length more)%nat)
    as Hlen by (intros more; unfold block_bits; rewrite !length_app, length_bits_le, length_end_mark; simpl; lia).
  destruct (decide (block_end = size input)) as [E|E].
  - exists (block_bits (block_end =? size input) stream []). specialize (Hlen []). change (length (@nil bool)) with 0%nat in Hlen. split; [|lia|].
    + apply (zlib_blocks_written _ _ _ block_end); [done..|]. rewrite E, Z.ltb_irrefl. apply writes_nil.
    + intros turns' limit Ht' Hlim. destruct turns' as [|turns']; [lia|].
      apply zlib_blocks_read; [intros; by apply H3|]. rewrite E, Z.eqb_refl, slice_whole. apply reads_ret.
  - destruct (IH input block_end) as (more & [M1 M2 M3]); [done|lia|lia|].
    exists (block_bits (block_end =? size input) stream more). specialize (Hlen more). split; [|lia|].
    + apply (zlib_blocks_written _ _ _ block_end); [done..|]. rewrite (proj2 (Z.ltb_lt _ _)) by lia. done.
    + intros turns' limit Ht' Hlim. destruct turns' as [|turns']; [lia|].
      apply zlib_blocks_read; [intros; by apply H3|]. rewrite (proj2 (Z.eqb_neq _ _)) by done. apply M3; lia.
Qed.

(** ** The container *)

Lemma bits_le_inj a b : is_byte a -> is_byte b -> bits_le a 8 = bits_le b 8 -> a = b.
Proof.
  unfold is_byte. intros Ha Hb E. apply Z.bits_inj'. intros i Hi. destruct (decide (i < 8)) as [Hlt|].
  - assert (bits_le a 8 !! Z.to_nat i = bits_le b 8 !! Z.to_nat i) as Hl by (by rewrite E).
    rewrite !lookup_bits_le, Z2Nat.id in Hl by lia. by apply (inj Some) in Hl.
  - rewrite !(testbit_high _ 8) by lia. done.
Qed.

Lemma stream_bits_prefix d1 : forall d2 more, Forall is_byte d1 -> Forall is_byte d2 ->
  stream_bits d2 = stream_bits d1 ++ more -> exists d, d2 = d1 ++ d /\ stream_bits d = more.
Proof.
  induction d1 as [|b d1 IH]; intros d2 more H1 H2 E; [by exists d2|].
  change (stream_bits (b :: d1)) with (bits_le b 8 ++ stream_bits d1) in E. rewrite <- app_assoc in E.
  destruct d2 as [|b' d2]; [apply (f_equal length) in E; rewrite length_app, length_bits_le in E; discriminate|].
  change (stream_bits (b' :: d2)) with (bits_le b' 8 ++ stream_bits d2) in E.
  apply app_inj_1 in E as [Eb E]; [|by rewrite !length_bits_le].
  apply Forall_cons in H1 as [Hb H1]. apply Forall_cons in H2 as [Hb' H2].
  destruct (IH d2 more H1 H2 E) as (d & -> & Hd). exists d. split; [|done]. by rewrite (bits_le_inj b' b).
Qed.

(** Finishing pads the last byte with zeros. *)
Lemma writer_finish_spec maximum w : writer_ok w ->
  exists k, (k < 8)%nat /\ (Z.of_nat (length (writer_bits w) + k)) mod 8 = 0 /\
  match writer_finish maximum w with
  | Ok w' => Forall is_byte (writer_output w') /\ stream_bits (writer_output w') = writer_bits w ++ replicate k false
  | Throw x => x = output_limit /\ 8 * maximum < Z.of_nat (length (writer_bits w))
  end.
Proof.
  intros Hw. pose proof (length_writer_bits w Hw) as Hlen. pose proof Hw as [Hc Hcur Hb]. unfold writer_finish.
  destruct (Z.eqb_spec (writer_bit_count w) 0) as [E|E].
  - exists 0%nat. split; [lia|]. split; [lia|]. split; [done|]. unfold writer_bits. rewrite E. simpl. by rewrite !app_nil_r.
  - exists (Z.to_nat (8 - writer_bit_count w)). split; [lia|]. split; [lia|]. rewrite append_u8_appends.
    change (size [_]) with 1. destruct (Z.leb_spec (size (writer_output w) + 1) maximum); simpl; [|split; [done|lia]].
    assert (2 ^ writer_bit_count w <= 2 ^ 8) by (apply Z.pow_le_mono_r; lia). split.
    + apply Forall_app. split; [done|]. constructor; [|constructor]. unfold is_byte. change 256 with (2 ^ 8). lia.
    + rewrite stream_bits_app. unfold writer_bits. rewrite <- app_assoc. f_equal.
      change (stream_bits [writer_current w]) with (bits_le (writer_current w) 8 ++ []). rewrite app_nil_r.
      replace 8%nat with (Z.to_nat (writer_bit_count w) + Z.to_nat (8 - writer_bit_count w))%nat at 1 by lia.
      rewrite bits_le_app. f_equal. rewrite Z.shiftr_div_pow2, Z2Nat.id, Z.div_small by lia.
      apply list_eq_same_length with (Z.to_nat (8 - writer_bit_count w));
        [by rewrite length_replicate|by rewrite length_bits_le|].
      intros i x y Hi. rewrite lookup_bits_le, Z.bits_0 by done. rewrite lookup_replicate_2 by done. congruence.
Qed.

Lemma zero_padding_reads turns : forall c k, at_bits c (replicate k false) -> (k <= turns)%nat -> (k < 8)%nat ->
  (bit_offset c + Z.of_nat k) mod 8 = 0 -> zero_padding_loop turns c = Read (advance_bits c k).
Proof.
  induction turns as [|turns IH]; intros c k Hc Hk H8 Hmod; cbn [zero_padding_loop].
  { replace k with 0%nat by lia. by rewrite advance_bits_0. }
  change 7 with (Z.ones 3). rewrite Z.land_ones by lia. change (2 ^ 3) with 8.
  destruct k as [|k]; [rewrite Z.add_0_r in Hmod; rewrite Hmod, advance_bits_0; done|].
  destruct (Z.eqb_spec (bit_offset c mod 8) 0); [lia|]. change (replicate (S k) false) with ([false] ++ replicate k false) in Hc.
  rewrite (read_bit_reads _ _ _ Hc). unfold mbind, read_bind. cbn [Z.b2z Z.eqb negb]. apply at_bits_advance in Hc.
  rewrite (IH _ k) by (done || (simpl; lia)). by rewrite advance_bits_add.
Qed.

Definition be32_bytes (v : Z) : bytes :=
  [low_byte (Z.shiftr v 24); low_byte (Z.shiftr v 16); low_byte (Z.shiftr v 8); low_byte (Z.shiftr v 0)].

Lemma append_be32_appends output v maximum : appends output (be32_bytes v) maximum (append_be32 output v maximum).
Proof. unfold appends, append_be32. rewrite require_space_ok by lia. change (size (be32_bytes v)) with 4. by destruct (_ <=? _). Qed.

(** The deflate bytes between the header and the checksum. *)
Record deflated (input : bytes) (deflate : bytes) : Prop := {
  deflated_size : 2 <= size deflate /\ 8 * size deflate <= 19 * size input + 17;
  deflated_reads : forall turns limit base, (8 * length deflate <= turns)%nat -> size input <= limit < 2 ^ 64 ->
    exists c, inflate_fixed_blocks turns limit [] (mkBitCursor deflate base 0) = Read (input, c) /\
      exists c', require_zero_padding c = Read c';
}.

Lemma deflated_stream input stream deflate k : blocks_stream (S (length input)) input 0 stream ->
  stream_bits deflate = stream ++ replicate k false -> (k < 8)%nat -> deflated input deflate.
Proof.
  intros [_ Hlen Hread] Ebits Hk. rewrite Z.sub_0_r in Hlen.
  pose proof (f_equal length Ebits) as El. rewrite length_stream_bits, length_app, length_replicate in El.
  split; [unfold size in *; lia|]. intros turns limit base Ht Hlim.
  assert (at_bits (mkBitCursor deflate base 0) (stream ++ replicate k false)) as Hc by (split; [done|exact Ebits]).
  eexists. split; [exact (Hread turns limit ltac:(lia) Hlim _ _ Hc)|]. apply at_bits_advance in Hc.
  exists (advance_bits (advance_bits (mkBitCursor deflate base 0) (length stream)) k).
  unfold require_zero_padding. rewrite (zero_padding_reads _ _ k); [|done|lia|done|simpl; lia].
  unfold mbind, read_bind, mret, read_ret. simpl. unfold size. rewrite (proj2 (Z.eqb_eq _ _)) by lia. done.
Qed.

(** What [zlib_fixed] produces. *)
Lemma zlib_fixed_spec input limits : Forall is_byte input ->
  match zlib_fixed input limits with
  | Ok out => exists deflate, deflated input deflate /\ out = [0x78; 0x01] ++ deflate ++ be32_bytes (adler32 input)
  | Throw x => x = output_limit /\ 8 * maximum_output_bytes limits < 19 * size input + 66
  end.
Proof.
  intros Hin. set (maximum := maximum_output_bytes limits). unfold zlib_fixed. cbv zeta. fold maximum.
  assert (0 <= size input) as Hsize by (unfold size; lia).
  rewrite require_space_ok by lia. change (size [] + 2) with 2.
  destruct (Z.leb_spec 2 maximum); cbn [mbind outcome_bind]; [|split; [done|lia]].
  destruct (zlib_blocks_spec (S (length input)) input 0 Hin ltac:(lia) ltac:(unfold size; lia)) as (stream & Hs).
  pose proof Hs as [Hw Hlen _]. rewrite Z.sub_0_r in Hlen. set (w0 := mkDeflateBitWriter [0x78; 0x01] 0 0).
  assert (writer_ok w0) as Hw0 by (split; simpl; [lia|lia|repeat constructor; unfold is_byte; lia]).
  specialize (Hw maximum w0 Hw0). assert (writer_bits w0 = stream_bits [0x78; 0x01]) as E0 by reflexivity.
  destruct (zlib_blocks (S (length input)) maximum input w0 0) as [w|x]; simpl.
  2: { destruct Hw as [-> Hover]. split; [done|]. rewrite length_app in Hover. change (length (writer_bits w0)) with 16%nat in Hover. lia. }
  destruct Hw as [Hw Ebits]. destruct (writer_finish_spec maximum w Hw) as (k & Hk & _ & Hf).
  assert (Z.of_nat (length (writer_bits w)) <= 19 * size input + 26) as Hbits
    by (rewrite Ebits, length_app; change (length (writer_bits w0)) with 16%nat; lia).
  destruct (writer_finish maximum w) as [w'|x]; simpl; [|destruct Hf as [-> ?]; split; [done|lia]].
  destruct Hf as [Hb' Ef]. rewrite Ebits, E0, <- app_assoc in Ef.
  destruct (stream_bits_prefix [0x78; 0x01] (writer_output w') _ (writer_bytes_ok _ Hw0) Hb' Ef) as (deflate & Eout & Ed).
  pose proof (deflated_stream input stream deflate k Hs Ed Hk) as Hd. rewrite append_be32_appends, Eout, <- app_assoc.
  destruct (Z.leb_spec (size ([120; 1] ++ deflate) + size (be32_bytes (adler32 input))) maximum) as [|Hover].
  - by exists deflate.
  - split; [done|]. rewrite size_app in Hover. change (size [120; 1]) with 2 in Hover.
    change (size (be32_bytes _)) with 4 in Hover. pose proof (deflated_size _ _ Hd). lia.
Qed.

Lemma zlib_round_trip input limits out limit base : Forall is_byte input -> zlib_fixed input limits = Ok out ->
  size input <= limit < 2 ^ 64 -> inflate_fixed_zlib out (size input) limit base = Read input.
Proof.
  intros Hin Hout Hlim. pose proof (zlib_fixed_spec input limits Hin) as H. rewrite Hout in H.
  destruct H as (deflate & [Hsize Hread] & ->). set (out := [0x78; 0x01] ++ deflate ++ be32_bytes (adler32 input)).
  assert (size out = size deflate + 6) as Eout.
  { unfold out. rewrite !size_app. change (size [120; 1]) with 2. change (size (be32_bytes _)) with 4. lia. }
  assert (length out = length deflate + 6)%nat as Elen by (unfold size in Eout; lia).
  unfold inflate_fixed_zlib. destruct (Z.ltb_spec (size out) 8); [lia|]. destruct (Z.gtb_spec (size input) limit); [lia|].
  cbn [orb]. change (word_at out 0) with 0x78. change (word_at out 1) with 0x01. cbn [Z.eqb Pos.eqb negb orb]. cbv zeta.
  assert (slice out 2 (size out - 6) = deflate) as ->.
  { rewrite Eout, Z.add_simpl_r. apply (slice_app [0x78; 0x01]). }
  destruct (Hread (8 * length out)%nat limit (base + 2)) as (c & E & c' & E'); [lia|done|]. rewrite E.
  unfold mbind, read_bind, mret, read_ret. rewrite E'.
  assert (drop (length out - 4) out = be32_bytes (adler32 input)) as ->.
  { unfold out. rewrite app_assoc. apply drop_app_length'. rewrite !length_app. simpl. lia. }
  unfold read_be32. destruct (read_raw_at (open_cursor (be32_bytes (adler32 input)) (base + size out - 4)) []
    (be32_bytes (adler32 input)) []) as (c2 & E2 & _); [by rewrite !app_nil_r|].
  change (read_raw (size (be32_bytes (adler32 input)))) with (read_raw 4) in E2. rewrite E2.
  unfold mbind, read_bind, mret, read_ret. unfold be32_bytes. rewrite be32_parts by apply adler32_range.
  rewrite !Z.eqb_refl. done.
Qed.

(** ** The block encoder *)

(** The reader's side of [compress_fst_block]: which inflater each kind of
    block goes to. *)
Definition inflate_fst_block (kind : FstCompressionKind) (data : bytes) (expected_size limit base : Z) : ReadResult bytes :=
  match kind with
  | HierarchyGzipStoreV1 => inflate_stored_gzip data expected_size limit base
  | InitialValueZlibFixedV1 => inflate_fixed_zlib data expected_size limit base
  end.

Lemma compress_round_trip input kind limits result limit base : Forall is_byte input ->
  compress_fst_block input kind limits = Ok result -> size input <= limit < 2 ^ 64 ->
  inflate_fst_block kind (result_bytes result) (size input) limit base = Read input.
Proof.
  intros Hin Hc Hlim. unfold compress_fst_block in Hc. destruct (_ || _); [done|].
  destruct kind; simpl in *.
  - destruct (gzip_store input limits) as [out|] eqn:E; simpl in Hc; [|done].
    unfold mret, outcome_ret in Hc. simplify_eq. simpl.
    apply (gzip_round_trip _ _ _ _ _ E). lia.
  - destruct (zlib_fixed input limits) as [out|] eqn:E; simpl in Hc; [|done].
    unfold mret, outcome_ret in Hc. simplify_eq. simpl.
    by apply (zlib_round_trip _ _ _ _ _ Hin E).
Qed.

(** The encoder succeeds on every input its limits have room for. *)
Lemma compress_returns input kind limits : Forall is_byte input -> size input <= U32_MAX ->
  1 <= maximum_input_bytes limits -> size input <= maximum_input_bytes limits ->
  6 * size input + 23 <= maximum_output_bytes limits ->
  exists result, compress_fst_block input kind limits = Ok result.
Proof.
  intros Hin Hu H1 Hmax Hout. assert (0 <= size input) by (unfold size; lia). unfold compress_fst_block.
  destruct (Z.eqb_spec (maximum_input_bytes limits) 0); [lia|]. destruct (Z.eqb_spec (maximum_output_bytes limits) 0); [lia|].
  destruct (Z.gtb_spec (size input) (maximum_input_bytes limits)); [lia|]. cbn [orb]. destruct kind.
  - destruct (gzip_store_returns input limits Hu Hout) as [out ->]. by eexists.
  - pose proof (zlib_fixed_spec input limits Hin) as H'. destruct (zlib_fixed input limits); [by eexists|lia].
Qed.
