(* ===== verification/GlobMatch.v ===== *)
(** * Wildcard matching

    Model of [glob_match] of include/fsim/support/glob_match.hpp, the matcher
    behind factory overrides, resource scopes, report controls and trace
    selections: greedy, with one star to come back to.  The callback [step] is
    modelled by the number of times it is called.

    The matcher decides the declarative relation [Matches] on values without
    a literal star, within a quadratic number of steps; a star in the value is
    taken for the pattern's star, so there the two differ. *)
From S2P Require Import Prelude.

Definition star_char : ascii := "*"%char.
Definition any_char : ascii := "?"%char.

(** ** The matcher *)

(** The locals of the function; [npos] is [None]. *)
Record GlobState := mkGlobState {
  pattern_index : nat;
  value_index : nat;
  star : option nat;
  retry : nat;
}.
Definition glob_start : GlobState := mkGlobState 0 0 None 0.

(** [index < text.size() && test(text[index])] *)
Definition char_is (text : list ascii) (index : nat) (test : ascii -> bool) : bool :=
  match text !! index with Some c => test c | None => false end.

(** One turn of the first loop; [None] is [return false]. *)
Definition glob_turn (pattern value : list ascii) (st : GlobState) : option GlobState :=
  if char_is pattern (pattern_index st) (fun p =>
       Ascii.eqb p any_char || char_is value (value_index st) (Ascii.eqb p))
  then Some (mkGlobState (pattern_index st + 1) (value_index st + 1) (star st) (retry st))
  else if char_is pattern (pattern_index st) (Ascii.eqb star_char)
  then Some (mkGlobState (pattern_index st + 1) (value_index st) (Some (pattern_index st)) (value_index st))
  else match star st with
       | Some s => Some (mkGlobState (s + 1) (retry st + 1) (Some s) (retry st + 1))
       | None => None
       end.

(** The first loop: the state it leaves with, or [None] for [return false],
    and the calls of [step]; no result when [fuel] runs out. *)
Fixpoint glob_scan (fuel : nat) (pattern value : list ascii) (st : GlobState) (steps : nat)
    : option (option GlobState * nat) :=
  if (value_index st <? length value)%nat then
    match fuel with
    | O => None
    | S fuel =>
        match glob_turn pattern value st with
        | Some st => glob_scan fuel pattern value st (steps + 1)
        | None => Some (None, (steps + 1)%nat)
        end
    end
  else Some (Some st, steps).

(** The second loop skips stars at the end of the pattern. *)
Fixpoint skip_stars (fuel : nat) (pattern : list ascii) (index steps : nat) : option (nat * nat) :=
  if char_is pattern index (Ascii.eqb star_char) then
    match fuel with
    | O => None
    | S fuel => skip_stars fuel pattern (index + 1) (steps + 1)
    end
  else Some (index, steps).

(** Whether the value matches, and the calls of [step]. *)
Definition glob_match_steps (fuel : nat) (pattern value : list ascii) : option (bool * nat) :=
  match glob_scan fuel pattern value glob_start 0 with
  | None => None
  | Some (None, steps) => Some (false, steps)
  | Some (Some st, steps) =>
      '(index, steps) ← skip_stars fuel pattern (pattern_index st) steps;
      mret ((index =? length pattern)%nat, steps)
  end.

(** A turn either moves on in the pattern or moves the retry on in the value. *)
Definition glob_bound (pattern value : list ascii) : nat :=
  length value * (length pattern + 1) + length pattern.

Definition glob_match (pattern value : list ascii) : bool :=
  match glob_match_steps (glob_bound pattern value) pattern value with
  | Some (result, _) => result
  | None => false
  end.

(** ** What matching means *)

Inductive Matches : list ascii -> list ascii -> Prop :=
  | matches_nil : Matches [] []
  | matches_any p c v : Matches p v -> Matches (any_char :: p) (c :: v)
  | matches_char p c v : c <> star_char -> Matches p v -> Matches (c :: p) (c :: v)
  | matches_star p v1 v2 : Matches p v2 -> Matches (star_char :: p) (v1 ++ v2).

(** The pattern from [i] on matches the value from [j] on. *)
Definition matches_from (pattern value : list ascii) (i j : nat) : Prop :=
  Matches (drop i pattern) (drop j value).

(** The star at [s] may still take the value up to some position after [retry]. *)
Definition matches_later (pattern value : list ascii) (s r : nat) : Prop :=
  exists j, (r < j <= length value)%nat /\ matches_from pattern value (s + 1) j.

(** What the remaining search can find. *)
Definition open_matches (pattern value : list ascii) (st : GlobState) : Prop :=
  matches_from pattern value (pattern_index st) (value_index st) \/
  exists s, star st = Some s /\ matches_later pattern value s (retry st).

Record glob_bounds (pattern value : list ascii) (st : GlobState) : Prop := {
  glob_pattern_bound : (pattern_index st <= length pattern)%nat;
  glob_value_bound : (value_index st <= length value)%nat;
  glob_retry_bound : (retry st <= value_index st)%nat;
  glob_star_bound : forall s, star st = Some s -> (s < pattern_index st)%nat;
}.

(** What was matched since the last star has no star of its own, so it spans
    as many characters of the value as of the pattern. *)
Definition glob_segment (pattern : list ascii) (st : GlobState) : Prop :=
  forall s, star st = Some s ->
    (pattern_index st - (s + 1) = value_index st - retry st)%nat /\
    forall i c, (s < i < pattern_index st)%nat -> pattern !! i = Some c -> c <> star_char.

Lemma char_is_true text i test : char_is text i test = true -> exists c, text !! i = Some c /\ test c = true.
Proof. unfold char_is. destruct (text !! i) as [c|]; [by eexists|done]. Qed.

(** The three ways a turn goes on. *)
Inductive turn_case (pattern value : list ascii) (st : GlobState) : option GlobState -> Prop :=
  | turn_take p c : pattern !! pattern_index st = Some p -> value !! value_index st = Some c ->
      p = any_char \/ p = c ->
      turn_case pattern value st
        (Some (mkGlobState (pattern_index st + 1) (value_index st + 1) (star st) (retry st)))
  | turn_star c : pattern !! pattern_index st = Some star_char -> value !! value_index st = Some c ->
      c <> star_char ->
      turn_case pattern value st
        (Some (mkGlobState (pattern_index st + 1) (value_index st) (Some (pattern_index st)) (value_index st)))
  | turn_back s c : value !! value_index st = Some c -> star st = Some s ->
      (forall p, pattern !! pattern_index st = Some p -> p <> any_char /\ p <> c /\ p <> star_char) ->
      turn_case pattern value st (Some (mkGlobState (s + 1) (retry st + 1) (Some s) (retry st + 1)))
  | turn_fail c : value !! value_index st = Some c -> star st = None ->
      (forall p, pattern !! pattern_index st = Some p -> p <> any_char /\ p <> c /\ p <> star_char) ->
      turn_case pattern value st None.

Lemma glob_turn_case pattern value st : (value_index st < length value)%nat ->
  turn_case pattern value st (glob_turn pattern value st).
Proof.
  intros Hlt. destruct (lookup_lt_is_Some_2 _ _ Hlt) as [c Hc]. unfold glob_turn, char_is. rewrite Hc.
  destruct (pattern !! pattern_index st) as [p|] eqn:Hp.
  - destruct (Ascii.eqb_spec p any_char); [by apply (turn_take _ _ _ p c); auto|].
    destruct (Ascii.eqb_spec p c); [by apply (turn_take _ _ _ p c); auto|]. cbn [orb].
    destruct (Ascii.eqb_spec star_char p) as [<-|]; [apply (turn_star _ _ _ c); congruence|].
    destruct (star st) as [s|] eqn:Es; [eapply turn_back|eapply turn_fail]; try done; naive_solver.
  - destruct (star st) as [s|] eqn:Es; [eapply turn_back|eapply turn_fail]; try done; naive_solver.
Qed.

(** ** Termination *)

Definition glob_measure (pattern value : list ascii) (st : GlobState) : nat :=
  (length value - retry st) * (length pattern + 1) + (length pattern - pattern_index st).

Lemma glob_turn_measure pattern value st st' : glob_bounds pattern value st -> (value_index st < length value)%nat ->
  glob_turn pattern value st = Some st' ->
  glob_bounds pattern value st' /\ (glob_measure pattern value st' < glob_measure pattern value st)%nat.
Proof.
  intros [Hp Hv Hr Hs] Hlt E. pose proof (glob_turn_case pattern value st Hlt) as Hcase. rewrite E in Hcase.
  unfold glob_measure. inversion Hcase as [p c Hp' Hc Ht|c Hp' Hc Ht|s c Hc Es Ht|]; subst; simpl;
    try (pose proof (lookup_lt_Some _ _ _ Hp')).
  - split; [split; simpl; [lia..|]|lia]. intros s Es. specialize (Hs s Es). lia.
  - split; [split; simpl; [lia..|]|nia]. intros s [= <-]. lia.
  - specialize (Hs s Es). split; [split; simpl; [lia..|]|nia]. intros s' [= <-]. lia.
Qed.

Lemma glob_scan_returns pattern value fuel : forall st steps, glob_bounds pattern value st ->
  (glob_measure pattern value st <= fuel)%nat ->
  exists out n, glob_scan fuel pattern value st steps = Some (out, n) /\
    match out with
    | Some st' => glob_bounds pattern value st' /\ value_index st' = length value /\
        (n + glob_measure pattern value st' <= steps + glob_measure pattern value st)%nat
    | None => (n <= steps + glob_measure pattern value st)%nat
    end.
Proof.
  induction fuel as [|fuel IH]; intros st steps Hb Hm; simpl; destruct (Nat.ltb_spec (value_index st) (length value)) as [Hlt|Hge].
  - exfalso. destruct Hb. unfold glob_measure in Hm. nia.
  - do 2 eexists. split; [done|]. destruct Hb. split_and!; [done|lia|lia].
  - destruct (glob_turn pattern value st) as [st'|] eqn:E.
    + destruct (glob_turn_measure _ _ _ _ Hb Hlt E) as [Hb' Hm'].
      destruct (IH st' (steps + 1)%nat Hb' ltac:(lia)) as (out & n & E' & Hout). exists out, n. split; [done|].
      destruct out; [destruct Hout as (? & ? & ?); split_and!; [done..|lia]|lia].
    + do 2 eexists. split; [done|]. destruct Hb. unfold glob_measure. nia.
  - do 2 eexists. split; [done|]. destruct Hb. split_and!; [done|lia|lia].
Qed.

Lemma skip_stars_returns pattern fuel : forall index steps, (index <= length pattern)%nat ->
  (length pattern - index <= fuel)%nat ->
  exists i n, skip_stars fuel pattern index steps = Some (i, n) /\ (index <= i <= length pattern)%nat /\
    n = (steps + (i - index))%nat /\ (forall k, (index <= k < i)%nat -> pattern !! k = Some star_char) /\
    pattern !! i <> Some star_char.
Proof.
  induction fuel as [|fuel IH]; intros index steps Hi Hf; simpl.
  - replace index with (length pattern) by lia. unfold char_is. rewrite lookup_ge_None_2 by lia.
    do 2 eexists. split; [done|]. split_and!; [lia..| |]; [intros; lia|]. by rewrite lookup_ge_None_2.
  - destruct (char_is pattern index _) eqn:E.
    + apply char_is_true in E as (c & Hc & <-%Ascii.eqb_eq). pose proof (lookup_lt_Some _ _ _ Hc).
      destruct (IH (index + 1)%nat (steps + 1)%nat) as (i & n & E & Hi' & Hn & Hstars & Hend); [lia..|].
      exists i, n. split_and!; [done|lia..| |done]. intros k Hk. destruct (decide (k = index)) as [->|]; [done|].
      apply Hstars. lia.
    + exists index, steps. split_and!; [done|lia..| |]; [intros; lia|].
      unfold char_is in E. intros Hs. rewrite Hs in E. vm_compute in E. done.
Qed.

(** The matcher always returns, within [glob_bound] calls of [step]. *)
Lemma glob_match_returns pattern value fuel : (glob_bound pattern value <= fuel)%nat ->
  exists result n, glob_match_steps fuel pattern value = Some (result, n) /\ (n <= glob_bound pattern value)%nat.
Proof.
  intros Hf. unfold glob_match_steps.
  assert (glob_bounds pattern value glob_start) as Hb by (split; simpl; [lia..|done]).
  assert (glob_measure pattern value glob_start = glob_bound pattern value) as Em
    by (unfold glob_measure, glob_bound; simpl; lia).
  destruct (glob_scan_returns pattern value fuel glob_start 0 Hb ltac:(lia)) as (out & n & E & Hout). rewrite E.
  destruct out as [st|]; [|do 2 eexists; split; [done|lia]]. destruct Hout as ([Hp _ _ _] & _ & Hn).
  destruct (skip_stars_returns pattern fuel (pattern_index st) n Hp) as (i & n' & E' & Hi & Hn' & _).
  { unfold glob_bound in Hf. lia. }
  rewrite E'. simpl. do 2 eexists. split; [done|].
  assert (length pattern - pattern_index st <= glob_measure pattern value st)%nat by apply Nat.le_add_l. lia.
Qed.

(** More fuel does not change an answer. *)
Lemma glob_scan_fuel pattern value fuel : forall more st steps r,
  glob_scan fuel pattern value st steps = Some r -> glob_scan (fuel + more) pattern value st steps = Some r.
Proof.
  induction fuel as [|fuel IH]; intros more st steps r; simpl.
  - destruct more; simpl; by destruct (_ <? _)%nat.
  - destruct (_ <? _)%nat; [|done]. destruct (glob_turn pattern value st); [apply IH|done].
Qed.

Lemma skip_stars_fuel pattern fuel : forall more index steps r,
  skip_stars fuel pattern index steps = Some r -> skip_stars (fuel + more) pattern index steps = Some r.
Proof.
  induction fuel as [|fuel IH]; intros more index steps r; simpl.
  - destruct more; simpl; by destruct (char_is _ _ _).
  - destruct (char_is _ _ _); [apply IH|done].
Qed.

Lemma glob_match_fuel pattern value fuel more r :
  glob_match_steps fuel pattern value = Some r -> glob_match_steps (fuel + more) pattern value = Some r.
Proof.
  unfold glob_match_steps. destruct (glob_scan fuel pattern value glob_start 0) as [[[st|] n]|] eqn:E; [| |done];
    rewrite (glob_scan_fuel _ _ _ _ _ _ _ E); [|done].
  intros H. destruct (skip_stars fuel pattern (pattern_index st) n) as [[i k]|] eqn:Es; [|done].
  by rewrite (skip_stars_fuel _ _ _ _ _ _ Es).
Qed.

(** ** Correctness *)

Lemma matches_star_inv p v : Matches (star_char :: p) v ->
  exists j, (j <= length v)%nat /\ Matches p (drop j v).
Proof.
  inversion 1 as [|p' c v' Hm|p' c v' Hc Hm|p' v1 v2 Hm]; subst; [done|].
  exists (length v1). rewrite length_app, drop_app_length. split; [lia|done].
Qed.

Lemma matches_star_skip p v j : Matches p (drop j v) -> Matches (star_char :: p) v.
Proof. intros H. rewrite <- (take_drop j v). by apply matches_star. Qed.

Lemma matches_from_cons pattern value i j p c : pattern !! i = Some p -> value !! j = Some c ->
  p <> star_char -> p = any_char \/ p = c ->
  matches_from pattern value i j <-> matches_from pattern value (i + 1) (j + 1).
Proof.
  intros Hp Hc Hns Heq. unfold matches_from. rewrite (drop_S _ _ _ Hp), (drop_S _ _ _ Hc), !Nat.add_1_r. split.
  - inversion 1; subst; done.
  - intros H. destruct Heq as [->| ->]; [by apply matches_any|by apply matches_char].
Qed.

Lemma matches_from_mismatch pattern value i j c : value !! j = Some c ->
  (forall p, pattern !! i = Some p -> p <> any_char /\ p <> c /\ p <> star_char) ->
  ~ matches_from pattern value i j.
Proof.
  intros Hc Hp. unfold matches_from. rewrite (drop_S _ _ _ Hc). destruct (pattern !! i) as [p|] eqn:E.
  - rewrite (drop_S _ _ _ E). destruct (Hp p eq_refl) as (H1 & H2 & H3). inversion 1; congruence.
  - apply lookup_ge_None in E. rewrite drop_ge by done. inversion 1.
Qed.

Lemma matches_from_star pattern value i j : pattern !! i = Some star_char -> (j <= length value)%nat ->
  matches_from pattern value i j <->
  matches_from pattern value (i + 1) j \/ matches_later pattern value i j.
Proof.
  intros Hp Hj. unfold matches_later, matches_from. rewrite (drop_S _ _ _ Hp), Nat.add_1_r. split.
  - intros (k & Hk & Hm)%matches_star_inv. rewrite length_drop in Hk. rewrite drop_drop in Hm.
    destruct (decide (k = 0%nat)) as [->|]; [left; by rewrite Nat.add_0_r in Hm|]. right.
    exists (j + k)%nat. split; [lia|done].
  - intros [H|(k & Hk & Hm)]; [by apply (matches_star_skip _ _ 0)|]. apply (matches_star_skip _ _ (k - j)).
    rewrite drop_drop. by replace (j + (k - j))%nat with k by lia.
Qed.

(** A reported match is one, whatever the value. *)
Lemma glob_turn_sound pattern value st st' : glob_bounds pattern value st -> (value_index st < length value)%nat ->
  glob_turn pattern value st = Some st' -> open_matches pattern value st' -> open_matches pattern value st.
Proof.
  intros Hb Hlt E. pose proof (glob_turn_case pattern value st Hlt) as Hcase. rewrite E in Hcase.
  inversion Hcase as [p c Hp Hc Heq|c Hp Hc _|s c Hc Es Hne|]; subst; unfold open_matches; simpl.
  - intros [H|H]; [|by right]. left. destruct (decide (p = star_char)) as [->|Hps].
    + unfold matches_from in *. rewrite (drop_S _ _ _ Hp). apply (matches_star_skip _ _ 1).
      rewrite Nat.add_1_r in H. rewrite drop_drop. done.
    + by apply (matches_from_cons _ _ _ _ _ _ Hp Hc Hps Heq).
  - pose proof (matches_from_star pattern value _ (value_index st) Hp ltac:(lia)) as Hiff.
    intros [H|(s & [= <-] & H)]; left; apply Hiff; auto.
  - intros [H|(s' & [= <-] & j & Hj & H)]; right; exists s; (split; [done|]).
    + exists (retry st + 1)%nat. split; [destruct Hb; lia|done].
    + exists j. split; [lia|done].
Qed.

Lemma glob_scan_sound pattern value fuel : forall st steps st' n, glob_bounds pattern value st ->
  glob_scan fuel pattern value st steps = Some (Some st', n) ->
  value_index st' = length value /\ (open_matches pattern value st' -> open_matches pattern value st).
Proof.
  induction fuel as [|fuel IH]; intros st steps st' n Hb E; simpl in E;
    destruct (Nat.ltb_spec (value_index st) (length value)) as [Hlt|Hge]; try done;
    [simplify_eq; destruct Hb; split; done || lia| |simplify_eq; destruct Hb; split; done || lia].
  destruct (glob_turn pattern value st) as [st1|] eqn:Et; [|by simplify_eq].
  destruct (glob_turn_measure _ _ _ _ Hb Hlt Et) as [Hb' _]. destruct (IH _ _ _ _ Hb' E) as [Ev H].
  split; [done|]. intros Ho. by apply (glob_turn_sound _ _ _ _ Hb Hlt Et), H.
Qed.

(** At the end of the value only stars may be left. *)
Lemma matches_end p : Matches p [] <-> Forall (eq star_char) p.
Proof.
  split.
  - intros H. remember [] as v eqn:Ev. induction H as [| | |p v1 v2 H IH]; try done.
    apply app_nil in Ev as [-> ->]. constructor; [done|auto].
  - induction 1 as [|c p <- Hp IH]; [constructor|]. by apply (matches_star p [] []).
Qed.

(** The second loop reaches the end of the pattern exactly on stars. *)
Lemma skip_stars_all pattern fuel index steps i n : (index <= length pattern)%nat ->
  (length pattern - index <= fuel)%nat -> skip_stars fuel pattern index steps = Some (i, n) ->
  i = length pattern <-> Forall (eq star_char) (drop index pattern).
Proof.
  intros Hle Hf E. destruct (skip_stars_returns pattern fuel index steps Hle Hf) as (i' & k & Es & Hi & _ & Hstars & Hend).
  rewrite Es in E. simplify_eq. split.
  - intros ->. apply Forall_forall. intros c (k' & Hk)%list_elem_of_lookup. rewrite lookup_drop in Hk.
    pose proof (lookup_lt_Some _ _ _ Hk). rewrite Hstars in Hk by lia. congruence.
  - intros Hall. destruct (decide (i = length pattern)) as [|Hne]; [done|]. exfalso.
    destruct (lookup_lt_is_Some_2 pattern i ltac:(lia)) as [c Hc]. apply Hend. rewrite Hc. f_equal.
    rewrite Forall_lookup in Hall. symmetry. apply (Hall (i - index)%nat). rewrite lookup_drop.
    by replace (index + (i - index))%nat with i by lia.
Qed.

Lemma glob_match_sound pattern value : glob_match pattern value = true -> Matches pattern value.
Proof.
  unfold glob_match, glob_match_steps. intros H.
  assert (glob_bounds pattern value glob_start) as Hb by (split; simpl; [lia..|done]).
  destruct (glob_scan_returns pattern value (glob_bound pattern value) glob_start 0 Hb) as (out & n & E & Hout).
  { unfold glob_measure, glob_bound. simpl. lia. }
  rewrite E in H. destruct out as [st|]; [|done]. destruct Hout as (Hb' & _).
  destruct (glob_scan_sound _ _ _ _ _ _ _ Hb E) as [Ev Hsound].
  destruct (skip_stars _ pattern (pattern_index st) n) as [[i k]|] eqn:Es; simpl in H; [|done].
  apply Nat.eqb_eq in H. apply (skip_stars_all pattern _ _ _ _ _ (glob_pattern_bound _ _ _ Hb')) in Es;
    [|unfold glob_bound; lia].
  apply Es, matches_end in H. destruct Hsound as [Hm|(s & Es' & _)].
  - left. unfold matches_from. by rewrite (drop_ge value) by lia.
  - unfold matches_from in Hm. simpl in Hm. by rewrite !drop_0 in Hm.
  - done.
Qed.

(** Without a star in between, the pattern from [i] to [i + n] takes exactly
    [n] characters. *)
Lemma matches_from_span pattern value n : forall i j,
  (forall k c, (i <= k < i + n)%nat -> pattern !! k = Some c -> c <> star_char) -> (i + n <= length pattern)%nat ->
  matches_from pattern value i j ->
  (n <= length (drop j value))%nat /\ matches_from pattern value (i + n) (j + n).
Proof.
  induction n as [|n IH]; intros i j Hns Hlen Hm; [rewrite !Nat.add_0_r; split; [lia|done]|].
  destruct (lookup_lt_is_Some_2 pattern i ltac:(lia)) as [p Hp].
  assert (p <> star_char) as Hp' by (apply (Hns i); [lia|done]).
  assert (exists c, value !! j = Some c /\ (p = any_char \/ p = c)) as (c & Hc & Heq).
  { unfold matches_from in Hm. rewrite (drop_S _ _ _ Hp) in Hm.
    assert (forall d v, drop j value = d :: v -> value !! j = Some d) as Hhead.
    { intros d v E. rewrite <- (Nat.add_0_r j), <- lookup_drop, E. done. }
    inversion Hm as [|p' d v Hm' E1 E2|p' d v Hd Hm' E1 E2|p' v1 v2 Hm' E1 E2]; subst; [| |done];
      (eexists; split; [eapply Hhead; by rewrite <- E2|auto]). }
  apply (matches_from_cons _ _ _ _ _ _ Hp Hc Hp' Heq) in Hm.
  destruct (IH (i + 1)%nat (j + 1)%nat) as [Hl Hm']; [|lia|done|].
  { intros k d Hk. apply Hns. lia. }
  rewrite length_drop in *. pose proof (lookup_lt_Some _ _ _ Hc).
  split; [lia|]. by replace (i + S n)%nat with (i + 1 + n)%nat by lia; replace (j + S n)%nat with (j + 1 + n)%nat by lia.
Qed.

Section search.
Context (pattern value : list ascii).
Hypothesis no_star : star_char ∉ value.

Lemma no_star_at j c : value !! j = Some c -> c <> star_char.
Proof. intros Hc ->. apply no_star. by eapply list_elem_of_lookup_2. Qed.

(** A match through an older star goes through the next one as well. *)
Lemma later_through_star st : glob_bounds pattern value st -> glob_segment pattern st ->
  pattern !! pattern_index st = Some star_char -> open_matches pattern value st ->
  matches_from pattern value (pattern_index st) (value_index st).
Proof.
  intros [Hp Hv Hr Hs] Hseg Hstar [H|(s & Es & j & Hj & Hm)]; [done|].
  destruct (Hseg s Es) as [Hlen Hns]. specialize (Hs s Es).
  destruct (matches_from_span pattern value (pattern_index st - (s + 1)) (s + 1) j) as [Hl Hm']; [|lia|done|].
  { intros k c Hk. apply Hns. lia. }
  rewrite length_drop in Hl. replace (s + 1 + (pattern_index st - (s + 1)))%nat with (pattern_index st) in Hm' by lia.
  unfold matches_from in *. rewrite (drop_S _ _ _ Hstar) in *. apply matches_star_inv in Hm' as (k & Hk & Hm').
  rewrite drop_drop in Hm'. set (e := (j + (pattern_index st - (s + 1)) + k)%nat) in *.
  apply (matches_star_skip _ _ (e - value_index st)). rewrite drop_drop.
  by replace (value_index st + (e - value_index st))%nat with e by lia.
Qed.

Lemma glob_turn_ok st : glob_bounds pattern value st -> glob_segment pattern st ->
  (value_index st < length value)%nat ->
  match glob_turn pattern value st with
  | Some st' => glob_segment pattern st' /\ (open_matches pattern value st <-> open_matches pattern value st')
  | None => ~ open_matches pattern value st
  end.
Proof.
  intros Hb Hseg Hlt. destruct (glob_turn_case pattern value st Hlt) as [p c Hp Hc Heq|c Hp Hc _|s c Hc Es Hne|c Hc Es Hne].
  - pose proof (no_star_at _ _ Hc) as Hcs. assert (p <> star_char) as Hps by (destruct Heq as [->| ->]; done).
    split.
    + intros s Es. destruct (Hseg s Es) as [Hlen Hns]. destruct Hb as [? ? ? Hs]. specialize (Hs s Es). simpl in *.
      split; [lia|]. intros i d Hi Hd. destruct (decide (i = pattern_index st)) as [->|]; [congruence|].
      apply (Hns i); [lia|done].
    + unfold open_matches. simpl. by rewrite (matches_from_cons _ _ _ _ _ _ Hp Hc Hps Heq).
  - split.
    + intros s [= <-]. simpl. split; [lia|]. intros i d Hi. lia.
    + pose proof (matches_from_star pattern value _ (value_index st) Hp ltac:(lia)) as Hiff. split.
      * intros H%(later_through_star st Hb Hseg Hp). apply Hiff in H. destruct H; [by left|right; by eexists].
      * intros [H|(s & [= <-] & H)]; left; apply Hiff; auto.
  - pose proof (matches_from_mismatch _ _ _ _ _ Hc Hne) as Hmis. split.
    + intros s' [= <-]. simpl. split; [lia|]. intros i d Hi. lia.
    + unfold open_matches. simpl. split.
      * intros [H|(s' & Es' & j & Hj & H)]; [done|]. simplify_eq. destruct (decide (j = retry st + 1)%nat) as [->|]; [by left|].
        right. eexists. split; [done|]. exists j. split; [lia|done].
      * intros [H|(s' & [= <-] & j & Hj & H)]; right; exists s; (split; [done|]).
        -- exists (retry st + 1)%nat. split; [destruct Hb; lia|done].
        -- exists j. split; [lia|done].
  - intros [H|(s & Es' & _)]; [by eapply matches_from_mismatch|congruence].
Qed.

Lemma glob_scan_ok fuel : forall st steps out n, glob_bounds pattern value st -> glob_segment pattern st ->
  glob_scan fuel pattern value st steps = Some (out, n) ->
  match out with
  | Some st' => glob_bounds pattern value st' /\ glob_segment pattern st' /\ value_index st' = length value /\
      (open_matches pattern value st <-> open_matches pattern value st')
  | None => ~ open_matches pattern value st
  end.
Proof.
  induction fuel as [|fuel IH]; intros st steps out n Hb Hseg E; simpl in E;
    destruct (Nat.ltb_spec (value_index st) (length value)) as [Hlt|Hge]; try done;
    [simplify_eq; destruct Hb; split_and!; done || lia| |simplify_eq; destruct Hb; split_and!; done || lia].
  pose proof (glob_turn_ok st Hb Hseg Hlt) as Hturn. pose proof (glob_turn_measure pattern value st) as Hmeas.
  destruct (glob_turn pattern value st) as [st'|] eqn:Et; [|by simplify_eq].
  destruct (Hmeas st' Hb Hlt eq_refl) as [Hb' _]. destruct Hturn as [Hseg' Hiff].
  specialize (IH st' _ out n Hb' Hseg' E). destruct out; [|tauto]. destruct IH as (? & ? & ? & ?). split_and!; done || tauto.
Qed.

Lemma open_matches_end st : glob_bounds pattern value st -> glob_segment pattern st -> value_index st = length value ->
  open_matches pattern value st <-> Forall (eq star_char) (drop (pattern_index st) pattern).
Proof.
  intros Hb Hseg Ev. rewrite <- matches_end, <- (drop_ge value (value_index st)) by lia. split; [|by left].
  intros [H|(s & Es & j & Hj & H)]; [done|]. exfalso. destruct (Hseg s Es) as [Hlen Hns]. destruct Hb as [Hp Hv Hr Hs].
  specialize (Hs s Es).
  destruct (matches_from_span pattern value (pattern_index st - (s + 1)) (s + 1) j) as [Hl _]; [|lia|done|].
  { intros k c Hk. apply Hns. lia. }
  rewrite length_drop in Hl. lia.
Qed.

Lemma glob_match_correct : glob_match pattern value = true <-> Matches pattern value.
Proof.
  destruct (glob_match_returns pattern value (glob_bound pattern value) ltac:(lia)) as (result & n & E & _).
  unfold glob_match. rewrite E. unfold glob_match_steps in E.
  assert (glob_bounds pattern value glob_start) as Hb by (split; simpl; [lia..|done]).
  assert (glob_segment pattern glob_start) as Hseg by done.
  assert (open_matches pattern value glob_start <-> Matches pattern value) as Hopen.
  { unfold open_matches, matches_from. simpl. rewrite !drop_0. split; [intros [H|(? & ? & _)]; done|by left]. }
  destruct (glob_scan _ pattern value glob_start 0) as [[[st|] n']|] eqn:Escan; [| |done];
    pose proof (glob_scan_ok _ _ _ _ _ Hb Hseg Escan) as Hscan; simpl in Hscan; [|simplify_eq; rewrite <- Hopen; done].
  destruct Hscan as (Hb' & Hseg' & Ev & Hiff). rewrite <- Hopen, Hiff, (open_matches_end _ Hb' Hseg' Ev).
  destruct (skip_stars _ pattern (pattern_index st) n') as [[i k]|] eqn:Es; [|done].
  simpl in E. unfold mret, option_ret in E. simplify_eq. rewrite Nat.eqb_eq.
  eapply skip_stars_all; [by destruct Hb'| |exact Es]. unfold glob_bound. lia.
Qed.
End search.

(** ** Budgets *)

(** [wildcard_match] of src/runtime/uvm_command_line.cpp: [step] counts the
    work, which the caller keeps, and throws its error once the work exceeds
    its limit. *)
Definition wildcard_match (pattern value : list ascii) (work maximum_work : nat) : (bool + string) * nat :=
  match glob_match_steps (glob_bound pattern value) pattern value with
  | Some (result, steps) =>
      if (1 <=? steps)%nat && (maximum_work <? work + steps)%nat
      then (inr "UVM report-control wildcard work exceeds its limit"%string, (Nat.max work maximum_work + 1)%nat)
      else (inl result, (work + steps)%nat)
  | None => (inl false, work)
  end.

(** [glob_match] of src/elaboration/coverage_external_exclusions.cpp: the same
    loops, which give up with [false] when the count of operations, kept by
    the caller, exceeds its limit. *)
Fixpoint budget_scan (fuel : nat) (pattern value : list ascii) (st : GlobState) (operations maximum : nat)
    : option GlobState * nat :=
  if (value_index st <? length value)%nat then
    match fuel with
    | O => (None, operations)
    | S fuel =>
        if (maximum <? operations + 1)%nat then (None, (operations + 1)%nat)
        else
          match glob_turn pattern value st with
          | Some st => budget_scan fuel pattern value st (operations + 1) maximum
          | None => (None, (operations + 1)%nat)
          end
    end
  else (Some st, operations).

Fixpoint budget_skip (fuel : nat) (pattern : list ascii) (index operations maximum : nat) : option nat * nat :=
  if char_is pattern index (Ascii.eqb star_char) then
    match fuel with
    | O => (None, operations)
    | S fuel =>
        if (maximum <? operations + 1)%nat then (None, (operations + 1)%nat)
        else budget_skip fuel pattern (index + 1) (operations + 1) maximum
    end
  else (Some index, operations).

Definition budget_glob_match (pattern value : list ascii) (operations maximum : nat) : bool * nat :=
  let fuel := glob_bound pattern value in
  match budget_scan fuel pattern value glob_start operations maximum with
  | (None, operations) => (false, operations)
  | (Some st, operations) =>
      match budget_skip fuel pattern (pattern_index st) operations maximum with
      | (None, operations) => (false, operations)
      | (Some index, operations) => ((index =? length pattern)%nat, operations)
      end
  end.

(** The budget either is never reached or stops the search one past it. *)
Definition budgeted {A} (maximum : nat) (run : option A * nat) (out : option A) (n : nat) : Prop :=
  run = if (maximum <? n)%nat then (None, (maximum + 1)%nat) else (out, n).

Lemma glob_scan_steps fuel pattern value : forall st steps out n,
  glob_scan fuel pattern value st steps = Some (out, n) -> (steps <= n)%nat.
Proof.
  induction fuel as [|fuel IH]; intros st steps out n E; simpl in E; destruct (_ <? _)%nat; simplify_eq; [lia| |lia].
  destruct (glob_turn pattern value st); [apply IH in E; lia|simplify_eq; lia].
Qed.

Lemma skip_stars_steps fuel pattern : forall index steps i n,
  skip_stars fuel pattern index steps = Some (i, n) -> (steps <= n)%nat.
Proof.
  induction fuel as [|fuel IH]; intros index steps i n E; simpl in E; destruct (char_is _ _ _); simplify_eq; [lia| |lia].
  apply IH in E. lia.
Qed.

Lemma budget_scan_budgeted maximum pattern value fuel : forall st operations out n,
  (operations <= maximum)%nat -> glob_scan fuel pattern value st operations = Some (out, n) ->
  budgeted maximum (budget_scan fuel pattern value st operations maximum) out n.
Proof.
  unfold budgeted. induction fuel as [|fuel IH]; intros st operations out n Hle E; simpl in *;
    (destruct (value_index st <? length value)%nat; [|simplify_eq; by destruct (Nat.ltb_spec maximum n); [lia|]]); [done|].
  destruct (glob_turn pattern value st) as [st'|] eqn:Et.
  - destruct (Nat.ltb_spec maximum (operations + 1)) as [Hlt|]; [|by apply IH].
    apply glob_scan_steps in E. destruct (Nat.ltb_spec maximum n); [|lia]. f_equal. lia.
  - simplify_eq. destruct (Nat.ltb_spec maximum (operations + 1)); [f_equal; lia|done].
Qed.

Lemma budget_skip_budgeted maximum pattern fuel : forall index operations i n,
  (operations <= maximum)%nat -> skip_stars fuel pattern index operations = Some (i, n) ->
  budgeted maximum (budget_skip fuel pattern index operations maximum) (Some i) n.
Proof.
  unfold budgeted. induction fuel as [|fuel IH]; intros index operations i n Hle E; simpl in *;
    (destruct (char_is pattern index _); [|simplify_eq; by destruct (Nat.ltb_spec maximum n); [lia|]]); [done|].
  destruct (Nat.ltb_spec maximum (operations + 1)) as [Hlt|]; [|by apply IH].
  apply skip_stars_steps in E. destruct (Nat.ltb_spec maximum n); [|lia]. f_equal. lia.
Qed.

Lemma glob_scan_shift fuel pattern value k : forall st steps,
  glob_scan fuel pattern value st (k + steps) = (fun r => (fst r, (k + snd r)%nat)) <$> glob_scan fuel pattern value st steps.
Proof.
  induction fuel as [|fuel IH]; intros st steps; simpl; destruct (_ <? _)%nat; try done.
  destruct (glob_turn pattern value st); [|simpl; do 2 f_equal; lia]. rewrite <- IH. f_equal. lia.
Qed.

Lemma skip_stars_shift fuel pattern k : forall index steps,
  skip_stars fuel pattern index (k + steps) = (fun r => (fst r, (k + snd r)%nat)) <$> skip_stars fuel pattern index steps.
Proof.
  induction fuel as [|fuel IH]; intros index steps; simpl; destruct (char_is _ _ _); try done.
  rewrite <- IH. f_equal. lia.
Qed.

(** The exclusion matcher finds what [glob_match] finds, unless the search
    takes more than the operations left: then it reports no match and leaves
    the count one past the limit. *)
Lemma budget_glob_match_spec pattern value operations maximum : (operations <= maximum)%nat ->
  exists steps, (steps <= glob_bound pattern value)%nat /\
  glob_match_steps (glob_bound pattern value) pattern value = Some (glob_match pattern value, steps) /\
  budget_glob_match pattern value operations maximum =
    if (maximum <? operations + steps)%nat then (false, (maximum + 1)%nat)
    else (glob_match pattern value, (operations + steps)%nat).
Proof.
  intros Hle. destruct (glob_match_returns pattern value (glob_bound pattern value) ltac:(lia)) as (result & n & E & Hn).
  exists n. unfold glob_match. rewrite E. split_and!; [done..|]. unfold budget_glob_match. cbv zeta.
  set (fuel := glob_bound pattern value) in *. unfold glob_match_steps in E.
  pose proof (glob_scan_shift fuel pattern value operations glob_start 0) as Hshift. rewrite Nat.add_0_r in Hshift.
  destruct (glob_scan fuel pattern value glob_start 0) as [[out n1]|] eqn:Escan; [|done]. simpl in Hshift.
  rewrite (budget_scan_budgeted maximum _ _ _ _ _ _ _ Hle Hshift).
  destruct out as [st|]; [|simplify_eq; by destruct (maximum <? operations + n)%nat].
  pose proof (skip_stars_shift fuel pattern operations (pattern_index st) n1) as Hshift2.
  destruct (skip_stars fuel pattern (pattern_index st) n1) as [[i n2]|] eqn:Eskip; [|done]. simpl in Hshift2.
  simpl in E. unfold mret, option_ret in E. simplify_eq. pose proof (skip_stars_steps _ _ _ _ _ _ Eskip).
  destruct (Nat.ltb_spec maximum (operations + n1)) as [|Hle1].
  - destruct (Nat.ltb_spec maximum (operations + n)); [done|lia].
  - rewrite (budget_skip_budgeted maximum _ _ _ _ _ _ Hle1 Hshift2). by destruct (maximum <? operations + n)%nat.
Qed.

(** A star in the value is taken for the pattern's star: the comment says a
    star of the pattern matches any run of characters, the code says it does
    not match this one. *)
Lemma glob_match_star_in_value :
  glob_match [star_char] [star_char; "a"%char] = false /\ Matches [star_char] [star_char; "a"%char].
Proof. split; [reflexivity|]. apply (matches_star [] [star_char; "a"%char] []). constructor. Qed.
