(* ===== verification/UvmPacker.v ===== *)
(** * UVM packer

    Model of src/runtime/uvm_packer.cpp: packing a tree of items (bit vectors,
    byte and integer arrays, strings, reals, object handles, arrays) into a
    bounded byte payload, in either byte order and with or without names, and
    unpacking it.  A double is its 64-bit pattern, as [bit_cast] gives it. *)
From S2P Require Import Prelude Logic WordSpan LogicWord PackedLogic4 PackedText.

(** ** Data *)

Inductive PackerEndian := Big | Little.
Inductive PackItemKind := Bits | Bytes | Integers | String | Real | Object | Array.

#[global] Instance packer_endian_eq_dec : EqDecision PackerEndian.
Proof. solve_decision. Defined.

(** The enumerators' values. *)
Definition endian_tag (e : PackerEndian) : Z := match e with Big => 0 | Little => 1 end.
Definition kind_tag (k : PackItemKind) : Z :=
  match k with Bits => 0 | Bytes => 1 | Integers => 2 | String => 3 | Real => 4 | Object => 5 | Array => 6 end.

(** [static_cast<SystemVerilogUvmPackItemKind>(tag)] when [valid_kind] holds. *)
Definition valid_kind (tag : Z) : option PackItemKind :=
  if tag =? 0 then Some Bits else if tag =? 1 then Some Bytes else if tag =? 2 then Some Integers
  else if tag =? 3 then Some String else if tag =? 4 then Some Real else if tag =? 5 then Some Object
  else if tag =? 6 then Some Array else None.

#[warnings="-register-all"]
Inductive PackItem := mkPackItem {
  item_name : list ascii;
  item_type_name : list ascii;
  item_kind : PackItemKind;
  item_bits : PackedLogic4;
  item_bytes : list Z;
  item_integers : list Z;
  item_string_value : list ascii;
  item_real_value : Z;
  item_object_identity : Z;
  item_elements : list PackItem;
}.

Record PackerPolicy := mkPackerPolicy { policy_endian : PackerEndian; use_metadata : bool }.
Record PackerLimits := mkPackerLimits {
  maximum_depth : Z;
  maximum_items : Z;
  maximum_bits : Z;
  maximum_payload_bytes : Z;
  maximum_text_bytes : Z;
}.
Record Packer := mkPacker { packer_policy : PackerPolicy; packer_limits : PackerLimits }.

Record PackedPayload := mkPackedPayload {
  payload_bytes : list Z;
  payload_item_count : Z;
  payload_bit_count : Z;
}.

(** ** Errors *)

(** [SystemVerilogUvmPackerError] with its code, or an exception of a callee. *)
Inductive PackResult (A : Type) :=
  | Packed (a : A)
  | PackFailed (code message : string)
  | PackThrow (e : exception).
Arguments Packed {A} _.
Arguments PackFailed {A} _ _.
Arguments PackThrow {A} _.

#[global] Instance pack_ret : MRet PackResult := fun A a => Packed a.
#[global] Instance pack_bind : MBind PackResult := fun A B f m =>
  match m with Packed a => f a | PackFailed c s => PackFailed c s | PackThrow e => PackThrow e end.

Definition pack_malformed {A} (message : string) : PackResult A := PackFailed "FSIM-UVM-PACK-001" message.
Definition pack_resource {A} (message : string) : PackResult A := PackFailed "FSIM-UVM-PACK-002" message.
Definition of_outcome {A} (m : Outcome A) : PackResult A :=
  match m with Ok a => Packed a | Throw e => PackThrow e end.

Definition make_packer (policy : PackerPolicy) (limits : PackerLimits) : PackResult Packer :=
  if (maximum_depth limits =? 0) || (maximum_items limits =? 0) || (maximum_bits limits =? 0)
     || (maximum_payload_bytes limits =? 0) || (maximum_text_bytes limits =? 0)
  then pack_resource "UVM packer limits must all be positive"
  else mret (mkPacker policy limits).

(** ** Packing *)

Definition char_byte (c : ascii) : Z := Z.of_N (N_of_ascii c).
Definition byte_char (b : Z) : ascii := ascii_of_N (Z.to_N b).
Definition bytes_of (text : list ascii) : list Z := char_byte <$> text.
Definition text_of (data : list Z) : list ascii := byte_char <$> data.

Section packing.
Context (packer : Packer).
Let policy := packer_policy packer.
Let limits := packer_limits packer.

Definition add_bytes (result : PackedPayload) (more : list Z) : PackedPayload :=
  mkPackedPayload (payload_bytes result ++ more) (payload_item_count result) (payload_bit_count result).

Definition append_byte (result : PackedPayload) (value : Z) : PackResult PackedPayload :=
  if size (payload_bytes result) >=? maximum_payload_bytes limits
  then pack_resource "UVM packer payload byte ceiling exceeded"
  else mret (add_bytes result [value]).

Definition append_bytes (result : PackedPayload) (values : list Z) : PackResult PackedPayload :=
  if size values >? maximum_payload_bytes limits - size (payload_bytes result)
  then pack_resource "UVM packer payload byte ceiling exceeded"
  else mret (add_bytes result values).

(** A loop of [append_byte]. *)
Fixpoint append_each (result : PackedPayload) (values : list Z) : PackResult PackedPayload :=
  match values with
  | [] => mret result
  | value :: values => result ← append_byte result value; append_each result values
  end.

(** The shift of byte [byte] of a word. *)
Definition byte_shift (byte : Z) : Z :=
  match policy_endian policy with Big => (7 - byte) * 8 | Little => byte * 8 end.

Definition append_u64 (result : PackedPayload) (value : Z) : PackResult PackedPayload :=
  append_each result ((fun byte => Z.land (Z.shiftr value (byte_shift byte)) 255) <$> up 0 8).

Definition append_string (result : PackedPayload) (value : list ascii) : PackResult PackedPayload :=
  if size value >? maximum_text_bytes limits then pack_resource "UVM packer text ceiling exceeded"
  else
    result ← append_u64 result (size value);
    append_bytes result (bytes_of value).

Fixpoint append_integers (result : PackedPayload) (values : list Z) : PackResult PackedPayload :=
  match values with
  | [] => mret result
  | value :: values => result ← append_u64 result value; append_integers result values
  end.

(** The text of a bit vector in the policy's order. *)
Definition ordered {A} (l : list A) : list A :=
  match policy_endian policy with Big => l | Little => reverse l end.

(** The item's own bytes; [elements] packs the elements of an array. *)
Definition append_value (elements : PackedPayload -> list PackItem -> PackResult PackedPayload)
    (result : PackedPayload) (item : PackItem) : PackResult PackedPayload :=
  match item_kind item with
  | Bits =>
      let w := width (item_bits item) in
      if w >? maximum_bits limits - payload_bit_count result
      then pack_resource "UVM packer bit ceiling exceeded"
      else
        let result := mkPackedPayload (payload_bytes result) (payload_item_count result)
                        (payload_bit_count result + w) in
        result ← append_byte result (if is_logic9 (item_bits item) then 1 else 0);
        result ← append_u64 result w;
        append_string result (ordered (to_msb_string (item_bits item)))
  | Bytes =>
      result ← append_u64 result (size (item_bytes item));
      match policy_endian policy with
      | Big => append_bytes result (item_bytes item)
      | Little => append_each result (reverse (item_bytes item))
      end
  | Integers =>
      result ← append_u64 result (size (item_integers item));
      append_integers result (item_integers item)
  | String => append_string result (item_string_value item)
  | Real => append_u64 result (item_real_value item)
  | Object => append_u64 result (item_object_identity item)
  | Array =>
      result ← append_u64 result (size (item_elements item));
      elements result (item_elements item)
  end.

(** [append_item] with [levels] more levels of nesting allowed: none left is
    [depth >= maximum_depth]. *)
Fixpoint append_item (levels : nat) (result : PackedPayload) (item : PackItem) : PackResult PackedPayload :=
  match levels with
  | O => pack_resource "UVM packer nesting depth ceiling exceeded"
  | S levels =>
      let result := mkPackedPayload (payload_bytes result) (payload_item_count result + 1)
                      (payload_bit_count result) in
      if payload_item_count result >? maximum_items limits
      then pack_resource "UVM packer item ceiling exceeded"
      else
        result ← append_byte result (kind_tag (item_kind item));
        result ← (if use_metadata policy then
                    result ← append_string result (item_name item);
                    append_string result (item_type_name item)
                  else mret result);
        append_value
          (fix append_items result items :=
             match items with
             | [] => mret result
             | item :: items => result ← append_item levels result item; append_items result items
             end)
          result item
  end.

Fixpoint append_items (levels : nat) (result : PackedPayload) (items : list PackItem) : PackResult PackedPayload :=
  match items with
  | [] => mret result
  | item :: items => result ← append_item levels result item; append_items levels result items
  end.

Definition pack_header : list Z :=
  [70; 85; 80; 1; endian_tag (policy_endian policy); if use_metadata policy then 1 else 0].

Definition pack (items : list PackItem) : PackResult PackedPayload :=
  result ← append_each (mkPackedPayload [] 0 0) pack_header;
  result ← append_u64 result (size items);
  append_items (Z.to_nat (maximum_depth limits)) result items.

(** ** Unpacking *)

(** The locals of [unpack]. *)
Record UnpackState := mkUnpackState {
  unpack_offset : Z;
  unpack_item_count : Z;
  unpack_bit_count : Z;
}.

Section unpacking.
Context (payload : list Z).

Definition skip_bytes (st : UnpackState) (count : Z) : UnpackState :=
  mkUnpackState (unpack_offset st + count) (unpack_item_count st) (unpack_bit_count st).

Definition read_byte (st : UnpackState) : PackResult (Z * UnpackState) :=
  if unpack_offset st >=? size payload then pack_malformed "truncated UVM pack payload"
  else mret (word_at payload (unpack_offset st), skip_bytes st 1).

Definition read_u64 (st : UnpackState) : PackResult (Z * UnpackState) :=
  if size payload - unpack_offset st <? 8 then pack_malformed "truncated UVM pack integer"
  else mret (foldl (fun value byte =>
               Z.lor value (shl64 (word_at payload (unpack_offset st + byte)) (byte_shift byte))) 0 (up 0 8),
             skip_bytes st 8).

Definition read_size (maximum : Z) (st : UnpackState) : PackResult (Z * UnpackState) :=
  '(value, st) ← read_u64 st;
  if value >? maximum then pack_resource "UVM unpack length exceeds ceiling" else mret (value, st).

(** [count] bytes from the offset. *)
Definition read_span (count : Z) (message : string) (st : UnpackState) : PackResult (list Z * UnpackState) :=
  if count >? size payload - unpack_offset st then pack_malformed message
  else mret (take (Z.to_nat count) (drop (Z.to_nat (unpack_offset st)) payload), skip_bytes st count).

Definition read_string (st : UnpackState) : PackResult (list ascii * UnpackState) :=
  '(count, st) ← read_size (maximum_text_bytes limits) st;
  '(data, st) ← read_span count "truncated UVM pack text" st;
  mret (text_of data, st).

(** A [for] loop that pushes what [read] returns. *)
Fixpoint read_many {A} (read : UnpackState -> PackResult (A * UnpackState)) (count : nat) (st : UnpackState)
    : PackResult (list A * UnpackState) :=
  match count with
  | O => mret ([], st)
  | S count =>
      '(a, st) ← read st;
      '(rest, st) ← read_many read count st;
      mret (a :: rest, st)
  end.

Definition empty_bits : PackedLogic4 :=
  {| width := 0; is_logic9 := false; aval_words := []; bval_words := [];
     logic9_plane2 := []; logic9_plane3 := []; has_live_plane_backing := false |}.
Definition blank_item (name type_name : list ascii) (kind : PackItemKind) : PackItem :=
  mkPackItem name type_name kind empty_bits [] [] [] 0 0 [].

Definition with_bits (item : PackItem) (v : PackedLogic4) : PackItem :=
  mkPackItem (item_name item) (item_type_name item) (item_kind item) v (item_bytes item) (item_integers item)
    (item_string_value item) (item_real_value item) (item_object_identity item) (item_elements item).
Definition with_bytes (item : PackItem) (v : list Z) : PackItem :=
  mkPackItem (item_name item) (item_type_name item) (item_kind item) (item_bits item) v (item_integers item)
    (item_string_value item) (item_real_value item) (item_object_identity item) (item_elements item).
Definition with_integers (item : PackItem) (v : list Z) : PackItem :=
  mkPackItem (item_name item) (item_type_name item) (item_kind item) (item_bits item) (item_bytes item) v
    (item_string_value item) (item_real_value item) (item_object_identity item) (item_elements item).
Definition with_string (item : PackItem) (v : list ascii) : PackItem :=
  mkPackItem (item_name item) (item_type_name item) (item_kind item) (item_bits item) (item_bytes item)
    (item_integers item) v (item_real_value item) (item_object_identity item) (item_elements item).
Definition with_real (item : PackItem) (v : Z) : PackItem :=
  mkPackItem (item_name item) (item_type_name item) (item_kind item) (item_bits item) (item_bytes item)
    (item_integers item) (item_string_value item) v (item_object_identity item) (item_elements item).
Definition with_object (item : PackItem) (v : Z) : PackItem :=
  mkPackItem (item_name item) (item_type_name item) (item_kind item) (item_bits item) (item_bytes item)
    (item_integers item) (item_string_value item) (item_real_value item) v (item_elements item).
Definition with_elements (item : PackItem) (v : list PackItem) : PackItem :=
  mkPackItem (item_name item) (item_type_name item) (item_kind item) (item_bits item) (item_bytes item)
    (item_integers item) (item_string_value item) (item_real_value item) (item_object_identity item) v.

(** The [switch] of [read_item]; [element] reads an element of an array. *)
Definition read_value (element : UnpackState -> PackResult (PackItem * UnpackState)) (item : PackItem)
    (st : UnpackState) : PackResult (PackItem * UnpackState) :=
  match item_kind item with
  | Bits =>
      '(logic9, st) ← read_byte st;
      if logic9 >? 1 then pack_malformed "invalid UVM packed logic domain"
      else
        '(w, st) ← read_size (maximum_bits limits) st;
        if w >? maximum_bits limits - unpack_bit_count st then pack_resource "UVM unpack bit ceiling exceeded"
        else
          let st := mkUnpackState (unpack_offset st) (unpack_item_count st) (unpack_bit_count st + w) in
          '(text, st) ← read_string st;
          if negb (size text =? w) then pack_malformed "UVM packed width mismatch"
          else
            bits ← of_outcome (if negb (logic9 =? 0) then from_logic9_msb_string (ordered text)
                               else from_msb_string (ordered text));
            mret (with_bits item bits, st)
  | Bytes =>
      '(count, st) ← read_size (maximum_payload_bytes limits) st;
      '(data, st) ← read_span count "truncated UVM packed byte array" st;
      mret (with_bytes item (ordered data), st)
  | Integers =>
      '(count, st) ← read_size (maximum_items limits) st;
      '(values, st) ← read_many read_u64 (Z.to_nat count) st;
      mret (with_integers item values, st)
  | String => '(text, st) ← read_string st; mret (with_string item text, st)
  | Real => '(value, st) ← read_u64 st; mret (with_real item value, st)
  | Object => '(value, st) ← read_u64 st; mret (with_object item value, st)
  | Array =>
      '(count, st) ← read_size (maximum_items limits) st;
      '(items, st) ← read_many element (Z.to_nat count) st;
      mret (with_elements item items, st)
  end.

Fixpoint read_item (levels : nat) (st : UnpackState) : PackResult (PackItem * UnpackState) :=
  match levels with
  | O => pack_resource "UVM unpack nesting depth ceiling exceeded"
  | S levels =>
      let st := mkUnpackState (unpack_offset st) (unpack_item_count st + 1) (unpack_bit_count st) in
      if unpack_item_count st >? maximum_items limits then pack_resource "UVM unpack item ceiling exceeded"
      else
        '(tag, st) ← read_byte st;
        match valid_kind tag with
        | None => pack_malformed "unknown UVM pack item tag"
        | Some kind =>
            '(name, type_name, st) ←
              (if use_metadata policy then
                 '(name, st) ← read_string st;
                 '(type_name, st) ← read_string st;
                 mret (name, type_name, st)
               else mret ([], [], st));
            read_value (read_item levels) (blank_item name type_name kind) st
        end
  end.

(** Reads the header byte by byte and stops at the first difference. *)
Fixpoint read_expected (expected : list Z) (message : string) (st : UnpackState) : PackResult UnpackState :=
  match expected with
  | [] => mret st
  | b :: expected =>
      '(found, st) ← read_byte st;
      if negb (found =? b) then pack_malformed message else read_expected expected message st
  end.

Definition unpack : PackResult (list PackItem) :=
  if size payload >? maximum_payload_bytes limits then pack_resource "UVM unpack payload byte ceiling exceeded"
  else
    st ← read_expected [70; 85; 80; 1] "invalid UVM pack header or schema" (mkUnpackState 0 0 0);
    st ← read_expected [endian_tag (policy_endian policy); if use_metadata policy then 1 else 0]
           "UVM pack payload policy does not match the unpacker" st;
    '(root_count, st) ← read_size (maximum_items limits) st;
    '(result, st) ← read_many (read_item (Z.to_nat (maximum_depth limits))) (Z.to_nat root_count) st;
    if negb (unpack_offset st =? size payload) then pack_malformed "trailing UVM pack payload"
    else mret result.
End unpacking.
End packing.
