(* ===== verification/UvmPackerRoundTrip.v ===== *)
(** * What the UVM packer packs, it unpacks

    Packing and unpacking count items and bits alike, so one induction over
    the levels of nesting shows that the bytes an item adds are read back as
    the item, with the counters where packing left them. *)
From S2P Require Import Prelude Logic WordSpan LogicWord PackedLogic4 PackedText UvmPacker.
Ltac Zify.zify_post_hook ::= Z.div_mod_to_equations.

(** ** Words *)

Lemma byte_char_of c : byte_char (char_byte c) = c.
Proof. unfold byte_char, char_byte. rewrite N2Z.id. apply ascii_N_embedding. Qed.

Lemma text_of_bytes text : text_of (bytes_of text) = text.
Proof.
  unfold text_of, bytes_of. rewrite <- list_fmap_compose. rewrite <- (list_fmap_id text) at 2.
  apply list_fmap_ext. intros _ c _. apply byte_char_of.
Qed.

(** A byte of [v] put back where it came from. *)
Lemma byte_back v s i : 0 <= s -> s + 8 <= 64 -> 0 <= i ->
  Z.testbit (shl64 (Z.land (Z.shiftr v s) 255) s) i = (s <=? i) && (i <? s + 8) && Z.testbit v i.
Proof.
  intros Hs H64 Hi. rewrite testbit_shl64 by done. destruct (Z.leb_spec s i); cbn [andb].
  - change 255 with (Z.ones 8). rewrite Z.land_spec, Z.shiftr_spec, Z.testbit_ones by lia.
    replace (i - s + s) with i by lia. rewrite (proj2 (Z.leb_le 0 (i - s))) by lia. cbn [andb].
    destruct (Z.ltb_spec i 64), (Z.ltb_spec i (s + 8)), (Z.ltb_spec (i - s) 8); try lia;
      by rewrite ?andb_true_r, ?andb_false_r.
  - rewrite Z.testbit_neg_r by lia. apply andb_false_r.
Qed.

Lemma fold_bytes_back v shifts acc i : Forall (fun s => 0 <= s /\ s + 8 <= 64) shifts -> 0 <= i ->
  Z.testbit (foldl (fun value s => Z.lor value (shl64 (Z.land (Z.shiftr v s) 255) s)) acc shifts) i
  = Z.testbit acc i || existsb (fun s => (s <=? i) && (i <? s + 8)) shifts && Z.testbit v i.
Proof.
  intros H Hi. revert acc. induction H as [|s shifts [Hs H64] H IH]; intros acc; simpl; [by rewrite orb_false_r|].
  rewrite IH, Z.lor_spec, byte_back by lia. rewrite andb_orb_distrib_l, orb_assoc. done.
Qed.

Lemma foldl_ext_elem {A B} (f g : A -> B -> A) l : forall a,
  (forall b a, b ∈ l -> f a b = g a b) -> foldl f a l = foldl g a l.
Proof.
  induction l as [|b l IH]; intros a H; simpl; [done|]. rewrite H by left. apply IH. intros b' a' Hb. apply H. by right.
Qed.

Section packer.
Context (packer : Packer).

Definition u64_bytes (v : Z) : list Z := (fun byte => Z.land (Z.shiftr v (byte_shift packer byte)) 255) <$> up 0 8.

Lemma size_u64_bytes v : size (u64_bytes v) = 8.
Proof. reflexivity. Qed.

(** Reassembling a 64-bit word, in either order. *)
Lemma u64_assembles v : 0 <= v < 2 ^ 64 ->
  foldl (fun value byte => Z.lor value (shl64 (word_at (u64_bytes v) byte) (byte_shift packer byte))) 0 (up 0 8) = v.
Proof.
  intros Hv. transitivity (foldl (fun value s => Z.lor value (shl64 (Z.land (Z.shiftr v s) 255) s)) 0
    (byte_shift packer <$> up 0 8)); [reflexivity|].
  apply Z.bits_inj'. intros i Hi. rewrite fold_bytes_back, Z.bits_0 by (done || (unfold byte_shift; repeat constructor; case_match; lia)).
  cbn [orb]. destruct (decide (i < 64)) as [Hlt|Hge]; [|by rewrite (testbit_high v 64), andb_false_r by lia].
  replace (existsb _ _) with true; [done|]. symmetry. apply existsb_exists. exists (8 * (i / 8)). split; [|lia].
  apply list_elem_of_In, list_elem_of_fmap. unfold byte_shift. destruct (policy_endian (packer_policy packer)).
  - exists (7 - i / 8). split; [lia|]. apply elem_of_up. lia.
  - exists (i / 8). split; [lia|]. apply elem_of_up. lia.
Qed.

(** ** A run of the packer and the read that undoes it *)

Hypothesis limits_u64 : maximum_items (packer_limits packer) < 2 ^ 64 /\ maximum_bits (packer_limits packer) < 2 ^ 64 /\
  maximum_payload_bytes (packer_limits packer) < 2 ^ 64 /\ maximum_text_bytes (packer_limits packer) < 2 ^ 64.

Definition grow (r : PackedPayload) (more : list Z) (n b : Z) : PackedPayload :=
  mkPackedPayload (payload_bytes r ++ more) (payload_item_count r + n) (payload_bit_count r + b).
Definition advance (st : UnpackState) (count n b : Z) : UnpackState :=
  mkUnpackState (unpack_offset st + count) (unpack_item_count st + n) (unpack_bit_count st + b).

Record payload_ok (r : PackedPayload) : Prop := {
  payload_size_ok : size (payload_bytes r) <= maximum_payload_bytes (packer_limits packer);
  payload_items_ok : 0 <= payload_item_count r <= maximum_items (packer_limits packer);
  payload_bits_ok : 0 <= payload_bit_count r <= maximum_bits (packer_limits packer);
}.

(** Reading [enc], wherever it stands, gives [a] and counts [n] items and [b] bits. *)
Definition takes {A} (read : list Z -> UnpackState -> PackResult (A * UnpackState)) (enc : list Z) (n b : Z) (a : A) : Prop :=
  forall before after st, unpack_offset st = size before ->
    unpack_item_count st + n <= maximum_items (packer_limits packer) ->
    unpack_bit_count st + b <= maximum_bits (packer_limits packer) ->
    read (before ++ enc ++ after) st = Packed (a, advance st (size enc) n b).

(** The packer went from [r] to [r'], adding what [read] reads back as [a]. *)
Definition round {A} (r r' : PackedPayload) (read : list Z -> UnpackState -> PackResult (A * UnpackState)) (a : A) : Prop :=
  exists enc n b, 0 <= n /\ 0 <= b /\ r' = grow r enc n b /\ payload_ok r' /\ takes read enc n b a.

Lemma grow_grow r m1 n1 b1 m2 n2 b2 : grow (grow r m1 n1 b1) m2 n2 b2 = grow r (m1 ++ m2) (n1 + n2) (b1 + b2).
Proof. unfold grow. simpl. rewrite app_assoc. f_equal; lia. Qed.

Lemma grow_nil r : grow r [] 0 0 = r.
Proof. destruct r. unfold grow. simpl. rewrite app_nil_r. f_equal; lia. Qed.

Lemma add_bytes_grow r more : add_bytes r more = grow r more 0 0.
Proof. unfold add_bytes, grow. f_equal; lia. Qed.

Lemma advance_advance st c1 n1 b1 c2 n2 b2 :
  advance (advance st c1 n1 b1) c2 n2 b2 = advance st (c1 + c2) (n1 + n2) (b1 + b2).
Proof. unfold advance. simpl. f_equal; lia. Qed.

Lemma skip_bytes_advance st count : skip_bytes st count = advance st count 0 0.
Proof. unfold skip_bytes, advance. f_equal; lia. Qed.

Lemma round_ret {A} r (a : A) : payload_ok r -> round r r (fun _ st => Packed (a, st)) a.
Proof.
  intros Hr. exists [], 0, 0. rewrite grow_nil. split_and!; try done. intros before after st _ _ _.
  do 2 f_equal. destruct st. unfold advance. change (size []) with 0. simpl. f_equal; lia.
Qed.

Lemma round_bind {A B} r r1 r2 (m1 : list Z -> UnpackState -> PackResult (A * UnpackState))
    (m2 : A -> list Z -> UnpackState -> PackResult (B * UnpackState)) a b :
  round r r1 m1 a -> round r1 r2 (m2 a) b ->
  round r r2 (fun payload st => '(a, st) ← m1 payload st; m2 a payload st) b.
Proof.
  intros (e1 & n1 & b1 & Hn1 & Hb1 & -> & Hok1 & T1) (e2 & n2 & b2 & Hn2 & Hb2 & -> & Hok2 & T2).
  exists (e1 ++ e2), (n1 + n2), (b1 + b2). rewrite grow_grow in *. split_and!; [lia|lia|done|done|].
  intros before after st Ho Hi Hbits. rewrite <- app_assoc, (T1 before (e2 ++ after) st) by (done || lia).
  unfold mbind, pack_bind. rewrite app_assoc, (T2 (before ++ e1) after) by (simpl; rewrite ?size_app; lia).
  by rewrite advance_advance, size_app.
Qed.

Lemma round_ext {A} r r' (m m' : list Z -> UnpackState -> PackResult (A * UnpackState)) a :
  (forall payload st, m payload st = m' payload st) -> round r r' m a -> round r r' m' a.
Proof.
  intros E (e & n & b & Hn & Hb & Er & Hok & T). exists e, n, b. split_and!; try done.
  intros before after st H1 H2 H3. rewrite <- E. by apply T.
Qed.

(** ** Fields *)

Lemma read_byte_takes v : takes read_byte [v] 0 0 v.
Proof.
  intros before after st Ho _ _. unfold read_byte. rewrite Ho.
  destruct (Z.geb_spec (size before) (size (before ++ [v] ++ after))) as [H|_].
  { rewrite !size_app in H. change (size [v]) with 1 in H. pose proof (size_nonneg after). lia. }
  rewrite skip_bytes_advance. do 3 f_equal. unfold word_at, size. rewrite Nat2Z.id. apply nth_middle.
Qed.

Lemma append_byte_grows r r' v : payload_ok r -> append_byte packer r v = Packed r' ->
  r' = grow r [v] 0 0 /\ payload_ok r'.
Proof.
  intros [H1 H2 H3] E. unfold append_byte in E.
  destruct (Z.geb_spec (size (payload_bytes r)) (maximum_payload_bytes (packer_limits packer))); [done|].
  unfold mret, pack_ret in E. simplify_eq. rewrite add_bytes_grow. split; [done|].
  split; simpl; rewrite ?Z.add_0_r; [|done..]. rewrite size_app. change (size [v]) with 1. lia.
Qed.

Lemma append_bytes_grows r r' vs : payload_ok r -> append_bytes packer r vs = Packed r' ->
  r' = grow r vs 0 0 /\ payload_ok r'.
Proof.
  intros [H1 H2 H3] E. unfold append_bytes in E.
  destruct (Z.gtb_spec (size vs) (maximum_payload_bytes (packer_limits packer) - size (payload_bytes r))); [done|].
  unfold mret, pack_ret in E. simplify_eq. rewrite add_bytes_grow. split; [done|].
  split; simpl; rewrite ?Z.add_0_r; [|done..]. rewrite size_app. lia.
Qed.

Lemma append_each_grows vs : forall r r', payload_ok r -> append_each packer r vs = Packed r' ->
  r' = grow r vs 0 0 /\ payload_ok r'.
Proof.
  induction vs as [|v vs IH]; intros r r' Hr E; simpl in E.
  { unfold mret, pack_ret in E. simplify_eq. by rewrite grow_nil. }
  destruct (append_byte packer r v) as [r1| |] eqn:E1; simpl in E; [|done..].
  destruct (append_byte_grows _ _ _ Hr E1) as [-> Hr1]. destruct (IH _ _ Hr1 E) as [-> Hr2].
  rewrite grow_grow in *. done.
Qed.

Lemma round_byte r r' v : payload_ok r -> append_byte packer r v = Packed r' -> round r r' read_byte v.
Proof.
  intros Hr E. destruct (append_byte_grows _ _ _ Hr E) as [-> Hr']. exists [v], 0, 0.
  split_and!; [done..|apply read_byte_takes].
Qed.

Lemma word_at_middle before data after k : 0 <= k < size data ->
  word_at (before ++ data ++ after) (size before + k) = word_at data k.
Proof.
  intros Hk. unfold word_at, size in *. rewrite Z2Nat.inj_add, Nat2Z.id by lia.
  rewrite app_nth2_plus, app_nth1 by lia. done.
Qed.

Lemma read_u64_takes v : 0 <= v < 2 ^ 64 -> takes (read_u64 packer) (u64_bytes v) 0 0 v.
Proof.
  intros Hv before after st Ho _ _. unfold read_u64.
  destruct (Z.ltb_spec (size (before ++ u64_bytes v ++ after) - unpack_offset st) 8) as [H|_].
  { rewrite !size_app, size_u64_bytes in H. pose proof (size_nonneg after). lia. }
  rewrite skip_bytes_advance, size_u64_bytes. unfold mret, pack_ret. do 2 f_equal.
  etrans; [|by apply u64_assembles]. rewrite Ho. apply foldl_ext_elem. intros byte value Hb%elem_of_up.
  by rewrite word_at_middle by (rewrite size_u64_bytes; lia).
Qed.

Lemma round_u64 r r' v : payload_ok r -> 0 <= v < 2 ^ 64 -> append_u64 packer r v = Packed r' ->
  round r r' (read_u64 packer) v.
Proof.
  intros Hr Hv E. destruct (append_each_grows _ _ _ Hr E) as [-> Hr']. exists (u64_bytes v), 0, 0.
  split_and!; [done..|by apply read_u64_takes].
Qed.

Lemma round_size r r' v maximum : payload_ok r -> 0 <= v < 2 ^ 64 -> v <= maximum ->
  append_u64 packer r v = Packed r' -> round r r' (fun payload => read_size packer payload maximum) v.
Proof.
  intros Hr Hv Hm E. unfold read_size. eapply round_ext; [intros; symmetry; reflexivity|].
  eapply (round_bind _ _ _ (read_u64 packer)); [by apply round_u64|]. cbv beta.
  destruct (Z.gtb_spec v maximum); [lia|]. apply round_ret.
  by destruct (append_each_grows _ _ _ Hr E).
Qed.

Lemma read_span_takes vs message : takes (fun payload => read_span payload (size vs) message) vs 0 0 vs.
Proof.
  intros before after st Ho _ _. unfold read_span. rewrite Ho.
  destruct (Z.gtb_spec (size vs) (size (before ++ vs ++ after) - size before)) as [H|_].
  { rewrite !size_app in H. pose proof (size_nonneg after). lia. }
  rewrite skip_bytes_advance. unfold size. rewrite !Nat2Z.id, drop_app_length, take_app_length. done.
Qed.

Lemma round_span r r' vs message : payload_ok r' -> r' = grow r vs 0 0 ->
  round r r' (fun payload => read_span payload (size vs) message) vs.
Proof. intros Hr' ->. exists vs, 0, 0. split_and!; [done..|apply read_span_takes]. Qed.

Lemma round_string r r' text : payload_ok r -> append_string packer r text = Packed r' ->
  round r r' (read_string packer) text /\ payload_ok r'.
Proof.
  intros Hr E. unfold append_string in E.
  destruct (Z.gtb_spec (size text) (maximum_text_bytes (packer_limits packer))) as [|Hmax]; [done|].
  destruct (append_u64 packer r (size text)) as [r1| |] eqn:E1; simpl in E; [|done..].
  destruct (append_each_grows _ _ _ Hr E1) as [Er1 Hr1]. destruct (append_bytes_grows _ _ _ Hr1 E) as [-> Hr'].
  split; [|done]. unfold read_string. pose proof (size_nonneg text).
  eapply (round_bind _ _ _ (fun payload => read_size packer payload (maximum_text_bytes (packer_limits packer))));
    [apply (round_size _ _ (size text)); [done|lia|lia|done]|]. cbv beta.
  assert (size text = size (bytes_of text)) as -> by (unfold size, bytes_of; by rewrite length_fmap).
  eapply (round_bind _ _ _ (fun payload => read_span payload _ _)); [by apply round_span|].
  cbv beta. rewrite text_of_bytes. by apply round_ret.
Qed.

Lemma round_many {A B} (append : PackedPayload -> B -> PackResult PackedPayload)
    (appends : PackedPayload -> list B -> PackResult PackedPayload)
    (read : list Z -> UnpackState -> PackResult (A * UnpackState)) (f : B -> A) items :
  (forall r, appends r [] = Packed r) ->
  (forall r item items, appends r (item :: items) = (r ← append r item; appends r items)) ->
  (forall r r' item, item ∈ items -> payload_ok r -> append r item = Packed r' -> round r r' read (f item)) ->
  forall r r', payload_ok r -> appends r items = Packed r' ->
    round r r' (fun payload => read_many (read payload) (length items)) (f <$> items).
Proof.
  intros Hnil Hcons. induction items as [|item items IH]; intros Hread r r' Hr E.
  - rewrite Hnil in E. simplify_eq. by apply round_ret.
  - rewrite Hcons in E. destruct (append r item) as [r1| |] eqn:E1; simpl in E; [|done..].
    assert (round r r1 read (f item)) as H1 by (apply Hread; [left|done..]).
    assert (payload_ok r1) as Hr1 by (by destruct H1 as (? & ? & ? & _ & _ & _ & ? & _)).
    assert (round r1 r' (fun payload => read_many (read payload) (length items)) (f <$> items)) as H2
      by (apply IH; [intros; apply Hread; [by right|done..]|done..]).
    eapply (round_bind _ _ _ read); [exact H1|]. cbv beta.
    eapply (round_bind _ _ _ (fun payload => read_many (read payload) (length items))); [exact H2|]. cbv beta.
    apply round_ret. by destruct H2 as (? & ? & ? & _ & _ & _ & ? & _).
Qed.

(** ** Items *)

(** What unpacking gives back: the fields of the item's kind, a detached copy
    of its bits, and its names if they are packed. *)
Fixpoint unpacked (item : PackItem) : PackItem :=
  match item with
  | mkPackItem name type_name kind bits bytes integers text real object elements =>
      let blank := if use_metadata (packer_policy packer) then blank_item name type_name kind else blank_item [] [] kind in
      match kind with
      | Bits => with_bits blank (copy bits)
      | Bytes => with_bytes blank bytes
      | Integers => with_integers blank integers
      | String => with_string blank text
      | Real => with_real blank real
      | Object => with_object blank object
      | Array => with_elements blank (map unpacked elements)
      end
  end.

(** Values a C++ item can hold, and integer arrays the unpacker accepts. *)
Definition value_fits (item : PackItem) : Prop :=
  match item_kind item with
  | Bits => wf (item_bits item)
  | Integers => Forall is_u64 (item_integers item) /\ size (item_integers item) <= maximum_items (packer_limits packer)
  | Real => is_u64 (item_real_value item)
  | Object => is_u64 (item_object_identity item)
  | _ => True
  end.
#[warnings="-register-all"]
Inductive item_fits : PackItem -> Prop :=
  | item_fits_intro item : value_fits item ->
      (item_kind item = Array -> Forall item_fits (item_elements item)) -> item_fits item.

Lemma kind_tag_valid kind : valid_kind (kind_tag kind) = Some kind.
Proof. by destruct kind. Qed.

Lemma ordered_ordered {A} (l : list A) : ordered packer (ordered packer l) = l.
Proof. unfold ordered. destruct (policy_endian _); [done|apply reverse_involutive]. Qed.

Lemma size_ordered {A} (l : list A) : size (ordered packer l) = size l.
Proof. unfold ordered, size. destruct (policy_endian _); [done|]. by rewrite length_reverse. Qed.

Lemma read_printed v : wf v ->
  (if negb ((if is_logic9 v then 1 else 0) =? 0) then from_logic9_msb_string (to_msb_string v)
   else from_msb_string (to_msb_string v)) = Ok (copy v).
Proof. intros Hv. destruct (is_logic9 v) eqn:E; simpl; [by apply read_printed9|by apply read_printed4]. Qed.

Lemma round_ok {A} r r' (read : list Z -> UnpackState -> PackResult (A * UnpackState)) a : round r r' read a -> payload_ok r'.
Proof. by intros (? & ? & ? & _ & _ & _ & ? & _). Qed.

(** Counting the bits of a vector, and an item, on both sides. *)
Lemma round_count_bits {A} r r' w message (read : list Z -> UnpackState -> PackResult (A * UnpackState)) a : 0 <= w ->
  round (mkPackedPayload (payload_bytes r) (payload_item_count r) (payload_bit_count r + w)) r' read a ->
  round r r' (fun payload st =>
    if w >? maximum_bits (packer_limits packer) - unpack_bit_count st then pack_resource message
    else read payload (mkUnpackState (unpack_offset st) (unpack_item_count st) (unpack_bit_count st + w))) a.
Proof.
  intros Hw (e & n & b & Hn & Hb & -> & Hok & T). exists e, n, (b + w). split_and!; [lia|lia| |done|].
  { unfold grow. simpl. f_equal. lia. }
  intros before after st Ho Hi Hbits.
  destruct (Z.gtb_spec w (maximum_bits (packer_limits packer) - unpack_bit_count st)); [lia|].
  rewrite T by (done || (simpl; lia)). unfold advance. simpl. do 3 f_equal. lia.
Qed.

Lemma round_count_item {A} r r' message (read : list Z -> UnpackState -> PackResult (A * UnpackState)) a :
  round (mkPackedPayload (payload_bytes r) (payload_item_count r + 1) (payload_bit_count r)) r' read a ->
  round r r' (fun payload st =>
    let st := mkUnpackState (unpack_offset st) (unpack_item_count st + 1) (unpack_bit_count st) in
    if unpack_item_count st >? maximum_items (packer_limits packer) then pack_resource message
    else read payload st) a.
Proof.
  intros (e & n & b & Hn & Hb & -> & Hok & T). exists e, (n + 1), b. split_and!; [lia|lia| |done|].
  { unfold grow. simpl. f_equal. lia. }
  intros before after st Ho Hi Hbits. cbv zeta. cbn [unpack_item_count].
  destruct (Z.gtb_spec (unpack_item_count st + 1) (maximum_items (packer_limits packer))); [lia|].
  rewrite T by (done || (simpl; lia)). unfold advance. simpl. do 3 f_equal. lia.
Qed.

Lemma round_takes {A} r e (read : list Z -> UnpackState -> PackResult (A * UnpackState)) a :
  payload_ok (grow r e 0 0) -> takes read e 0 0 a -> round r (grow r e 0 0) read a.
Proof. intros H T. exists e, 0, 0. split_and!; done. Qed.

Lemma round_value_bits r r' item blank elements element : payload_ok r -> item_kind item = Bits -> wf (item_bits item) ->
  append_value packer elements r item = Packed r' -> item_kind blank = Bits ->
  round r r' (fun payload => read_value packer payload (element payload) blank) (with_bits blank (copy (item_bits item))).
Proof.
  intros Hr Ek Hv E Eb. unfold append_value in E. rewrite Ek in E. cbv zeta in E.
  set (v := item_bits item) in *. pose proof (wf_width _ Hv) as Hw. pose proof Hr as [R1 R2 R3].
  destruct (Z.gtb_spec (width v) (maximum_bits (packer_limits packer) - payload_bit_count r)) as [|Hbits]; [done|].
  set (r0 := mkPackedPayload (payload_bytes r) (payload_item_count r) (payload_bit_count r + width v)) in *.
  destruct (append_byte packer r0 _) as [r1| |] eqn:E1; simpl in E; [|done..].
  destruct (append_u64 packer r1 (width v)) as [r2| |] eqn:E2; simpl in E; [|done..].
  assert (payload_ok r0) as Hr0 by (split; simpl; lia).
  destruct (append_byte_grows _ _ _ Hr0 E1) as [-> Hr1]. destruct (append_each_grows _ _ _ Hr1 E2) as [-> Hr2].
  destruct (round_string _ _ _ Hr2 E) as [Rs Hr']. fold (u64_bytes (width v)) in *.
  (* the unpacker counts the bits after it has read the width *)
  set (flag := if is_logic9 v then 1 else 0) in *.
  assert (payload_ok (grow (grow r [flag] 0 0) (u64_bytes (width v)) 0 0)) as Hr2'
    by (destruct Hr2; split; simpl in *; lia).
  assert (payload_ok (grow r [flag] 0 0)) as Hr1' by (destruct Hr1; split; simpl in *; lia).
  unfold read_value. rewrite Eb.
  eapply (round_bind _ _ _ read_byte); [by apply round_takes, read_byte_takes|]. cbv beta.
  replace (flag >? 1) with false by (unfold flag; by destruct (is_logic9 v)).
  eapply (round_bind _ _ _ (fun payload => read_size packer payload (maximum_bits (packer_limits packer)))).
  { apply (round_takes _ (u64_bytes (width v))); [done|]. intros before after st H1 H2 H3. unfold read_size.
    rewrite (read_u64_takes (width v) ltac:(lia)) by done. unfold mbind, pack_bind.
    destruct (Z.gtb_spec (width v) (maximum_bits (packer_limits packer))); [lia|done]. }
  cbv beta. apply (round_count_bits _ _ (width v) _ (fun payload st =>
    '(text, st) ← read_string packer payload st;
    if negb (size text =? width v) then pack_malformed "UVM packed width mismatch"
    else
      bits ← of_outcome (if negb (flag =? 0) then from_logic9_msb_string (ordered packer text)
                         else from_msb_string (ordered packer text));
      mret (with_bits blank bits, st))); [lia|].
  assert (mkPackedPayload (payload_bytes (grow (grow r [flag] 0 0) (u64_bytes (width v)) 0 0))
    (payload_item_count (grow (grow r [flag] 0 0) (u64_bytes (width v)) 0 0))
    (payload_bit_count (grow (grow r [flag] 0 0) (u64_bytes (width v)) 0 0) + width v)
    = grow (grow r0 [flag] 0 0) (u64_bytes (width v)) 0 0) as ->
    by (unfold grow, r0; simpl; f_equal; lia).
  eapply (round_bind _ _ _ (read_string packer)); [exact Rs|]. cbv beta.
  rewrite size_ordered, size_to_msb_string, Z.eqb_refl by done. cbn [negb]. rewrite ordered_ordered.
  unfold flag. rewrite read_printed by done. by apply round_ret.
Qed.

(** The other kinds, given that the elements of an array read back. *)
Lemma round_value_bytes r r' item blank elements element : payload_ok r -> item_kind item = Bytes ->
  append_value packer elements r item = Packed r' -> item_kind blank = Bytes ->
  round r r' (fun payload => read_value packer payload (element payload) blank) (with_bytes blank (item_bytes item)).
Proof.
  intros Hr Ek E Eb. unfold append_value in E. rewrite Ek in E.
  destruct (append_u64 packer r _) as [r1| |] eqn:E1; simpl in E; [|done..].
  destruct (append_each_grows _ _ _ Hr E1) as [_ Hr1].
  assert (r' = grow r1 (ordered packer (item_bytes item)) 0 0 /\ payload_ok r') as [Er' Hr'].
  { unfold ordered. destruct (policy_endian (packer_policy packer)).
    - by apply append_bytes_grows.
    - by apply append_each_grows. }
  assert (size (item_bytes item) <= maximum_payload_bytes (packer_limits packer)) as Hsize.
  { destruct Hr' as [Hs _ _]. rewrite Er' in Hs. simpl in Hs. rewrite size_app, size_ordered in Hs.
    pose proof (size_nonneg (payload_bytes r1)). lia. }
  unfold read_value. rewrite Eb. pose proof (size_nonneg (item_bytes item)).
  eapply (round_bind _ _ _ (fun payload => read_size packer payload _));
    [apply (round_size _ _ (size (item_bytes item))); [done|lia|exact Hsize|done]|]. cbv beta.
  rewrite <- size_ordered. eapply (round_bind _ _ _ (fun payload => read_span payload _ _)); [by apply round_span|].
  cbv beta. rewrite ordered_ordered. by apply round_ret.
Qed.

Lemma round_value_integers r r' item blank elements element : payload_ok r -> item_kind item = Integers ->
  value_fits item -> append_value packer elements r item = Packed r' -> item_kind blank = Integers ->
  round r r' (fun payload => read_value packer payload (element payload) blank) (with_integers blank (item_integers item)).
Proof.
  intros Hr Ek Hf E Eb. unfold append_value in E. unfold value_fits in Hf. rewrite Ek in E, Hf. destruct Hf as [Hu Hmax].
  destruct (append_u64 packer r _) as [r1| |] eqn:E1; simpl in E; [|done..].
  destruct (append_each_grows _ _ _ Hr E1) as [_ Hr1]. unfold read_value. rewrite Eb.
  pose proof (size_nonneg (item_integers item)).
  eapply (round_bind _ _ _ (fun payload => read_size packer payload _));
    [apply (round_size _ _ (size (item_integers item))); [done|lia|exact Hmax|done]|]. cbv beta.
  assert (round r1 r' (fun payload => read_many (read_u64 packer payload) (length (item_integers item)))
    (id <$> item_integers item)) as Hmany.
  { apply (round_many (append_u64 packer) (append_integers packer)); try done.
    intros s s' v Hin Hs Es. rewrite Forall_forall in Hu. specialize (Hu v Hin). unfold is_u64 in Hu.
    by apply (round_u64 _ _ v). }
  rewrite list_fmap_id in Hmany. unfold size. rewrite Nat2Z.id.
  eapply (round_bind _ _ _ (fun payload => read_many _ _)); [exact Hmany|]. cbv beta. by eapply round_ret, round_ok.
Qed.

Lemma round_value_array r r' item blank elements element : payload_ok r -> item_kind item = Array ->
  append_value packer elements r item = Packed r' -> item_kind blank = Array ->
  (forall r r', payload_ok r -> elements r (item_elements item) = Packed r' ->
     payload_item_count r + size (item_elements item) <= payload_item_count r' /\
     round r r' (fun payload => read_many (element payload) (length (item_elements item))) (unpacked <$> item_elements item)) ->
  round r r' (fun payload => read_value packer payload (element payload) blank)
    (with_elements blank (unpacked <$> item_elements item)).
Proof.
  intros Hr Ek E Eb Hel. unfold append_value in E. rewrite Ek in E.
  destruct (append_u64 packer r _) as [r1| |] eqn:E1; simpl in E; [|done..].
  destruct (append_each_grows _ _ _ Hr E1) as [_ Hr1]. destruct (Hel _ _ Hr1 E) as [Hcount Hround].
  pose proof (round_ok _ _ _ _ Hround) as Hr'. pose proof (size_nonneg (item_elements item)).
  unfold read_value. rewrite Eb. destruct Hr1 as [_ Hi1 _], Hr' as [Hr1' Hi' Hr3'].
  eapply (round_bind _ _ _ (fun payload => read_size packer payload _));
    [apply (round_size _ _ (size (item_elements item))); [done|lia| |done]; lia|]. cbv beta.
  unfold size. rewrite Nat2Z.id. eapply (round_bind _ _ _ (fun payload => read_many _ _)); [exact Hround|]. cbv beta.
  by apply round_ret.
Qed.

(** The names, when the policy packs them. *)
Definition read_names (payload : list Z) (st : UnpackState) : PackResult (list ascii * list ascii * UnpackState) :=
  if use_metadata (packer_policy packer) then
    '(name, st) ← read_string packer payload st;
    '(type_name, st) ← read_string packer payload st;
    mret (name, type_name, st)
  else mret ([], [], st).

Lemma round_names r r' item : payload_ok r ->
  (if use_metadata (packer_policy packer) then
     result ← append_string packer r (item_name item); append_string packer result (item_type_name item)
   else mret r) = Packed r' ->
  round r r' read_names
    (if use_metadata (packer_policy packer) then (item_name item, item_type_name item) else ([], [])).
Proof.
  intros Hr E. unfold read_names. destruct (use_metadata (packer_policy packer)).
  - destruct (append_string packer r _) as [r1| |] eqn:E1; simpl in E; [|done..].
    destruct (round_string _ _ _ Hr E1) as [R1 Hr1]. destruct (round_string _ _ _ Hr1 E) as [R2 Hr2].
    eapply (round_bind _ _ _ (read_string packer)); [exact R1|]. cbv beta.
    eapply (round_bind _ _ _ (read_string packer)); [exact R2|]. cbv beta. by apply round_ret.
  - unfold mret, pack_ret in E. simplify_eq. by apply round_ret.
Qed.

Lemma unpacked_eq item : unpacked item =
  let names := if use_metadata (packer_policy packer) then (item_name item, item_type_name item) else ([], []) in
  let blank := blank_item (fst names) (snd names) (item_kind item) in
  match item_kind item with
  | Bits => with_bits blank (copy (item_bits item))
  | Bytes => with_bytes blank (item_bytes item)
  | Integers => with_integers blank (item_integers item)
  | String => with_string blank (item_string_value item)
  | Real => with_real blank (item_real_value item)
  | Object => with_object blank (item_object_identity item)
  | Array => with_elements blank (unpacked <$> item_elements item)
  end.
Proof. destruct item. simpl. by destruct (use_metadata _), item_kind. Qed.

(** Every item counts itself. *)
Lemma round_grows {A} r r' (read : list Z -> UnpackState -> PackResult (A * UnpackState)) a :
  round r r' read a -> payload_item_count r <= payload_item_count r'.
Proof. intros (e & n & b & Hn & Hb & -> & _). simpl. lia. Qed.

Definition append_elements (levels : nat) :=
  fix append_items (result : PackedPayload) (items : list PackItem) : PackResult PackedPayload :=
    match items with
    | [] => mret result
    | item :: items => result ← append_item packer levels result item; append_items result items
    end.

Lemma elements_count levels items : forall r r', 
  (forall r r' item, item ∈ items -> payload_ok r -> append_item packer levels r item = Packed r' ->
     payload_ok r' /\ payload_item_count r + 1 <= payload_item_count r') ->
  payload_ok r -> append_elements levels r items = Packed r' ->
  payload_item_count r + size items <= payload_item_count r'.
Proof.
  induction items as [|item items IH]; intros r r' H Hr E; simpl in E.
  - unfold mret, pack_ret in E. simplify_eq. change (size []) with 0. lia.
  - destruct (append_item packer levels r item) as [r1| |] eqn:E1; simpl in E; [|done..].
    destruct (H r r1 item) as [Hr1 Hc]; [left|done..|].
    assert (payload_item_count r1 + size items <= payload_item_count r') as Hrest
      by (apply IH; [intros; eapply H; [by right|done..]|done..]).
    unfold size in *. simpl length. lia.
Qed.

Lemma round_value levels r r' item blank :
  payload_ok r -> item_fits item -> item_kind blank = item_kind item ->
  (forall r r' item, item_fits item -> payload_ok r -> append_item packer levels r item = Packed r' ->
     payload_item_count r + 1 <= payload_item_count r' /\
     round r r' (fun payload => read_item packer payload levels) (unpacked item)) ->
  append_value packer (append_elements levels) r item = Packed r' ->
  round r r' (fun payload => read_value packer payload (read_item packer payload levels) blank)
    match item_kind item with
    | Bits => with_bits blank (copy (item_bits item))
    | Bytes => with_bytes blank (item_bytes item)
    | Integers => with_integers blank (item_integers item)
    | String => with_string blank (item_string_value item)
    | Real => with_real blank (item_real_value item)
    | Object => with_object blank (item_object_identity item)
    | Array => with_elements blank (unpacked <$> item_elements item)
    end.
Proof.
  intros Hr Hf Eb IH E. inversion Hf as [i Hv Hel Ei]; subst i.
  destruct (item_kind item) eqn:Ek; rewrite ?Ek in *.
  - eapply round_value_bits; try done. unfold value_fits in Hv. by rewrite Ek in Hv.
  - by eapply round_value_bytes.
  - by eapply round_value_integers.
  - unfold append_value in E. rewrite Ek in E. unfold read_value. rewrite Eb.
    destruct (round_string _ _ _ Hr E) as [R Hr']. eapply (round_bind _ _ _ (read_string packer)); [exact R|].
    by apply round_ret.
  - unfold append_value in E. unfold value_fits in Hv. rewrite Ek in E, Hv. unfold read_value. rewrite Eb.
    destruct (append_each_grows _ _ _ Hr E) as [_ Hr'].
    eapply (round_bind _ _ _ (read_u64 packer)); [by apply round_u64|]. by apply round_ret.
  - unfold append_value in E. unfold value_fits in Hv. rewrite Ek in E, Hv. unfold read_value. rewrite Eb.
    destruct (append_each_grows _ _ _ Hr E) as [_ Hr'].
    eapply (round_bind _ _ _ (read_u64 packer)); [by apply round_u64|]. by apply round_ret.
  - eapply round_value_array; try done. intros s s' Hs Es. specialize (Hel eq_refl). rewrite Forall_forall in Hel. split.
    + eapply elements_count; [|done..]. intros t t' e He Ht Et. destruct (IH t t' e (Hel e He) Ht Et) as [Hc R].
      split; [by eapply round_ok|done].
    + apply (round_many (append_item packer levels) (append_elements levels)); try done.
      intros t t' e He Ht Et. by apply IH; [apply Hel| |].
Qed.

Lemma round_item levels : forall r r' item, item_fits item -> payload_ok r ->
  append_item packer levels r item = Packed r' ->
  payload_item_count r + 1 <= payload_item_count r' /\
  round r r' (fun payload => read_item packer payload levels) (unpacked item).
Proof.
  induction levels as [|levels IH]; intros r r' item Hf Hr E; [done|].
  cbn [append_item] in E. cbv zeta in E. fold (append_elements levels) in E.
  set (r0 := mkPackedPayload (payload_bytes r) (payload_item_count r + 1) (payload_bit_count r)) in *.
  change (payload_item_count r0) with (payload_item_count r + 1) in E.
  destruct (Z.gtb_spec (payload_item_count r + 1) (maximum_items (packer_limits packer))) as [|Hmax]; [done|].
  assert (payload_ok r0) as Hr0 by (destruct Hr; split; simpl; lia).
  destruct (append_byte packer r0 (kind_tag (item_kind item))) as [r1| |] eqn:E1; simpl in E; [|done..].
  destruct (append_byte_grows _ _ _ Hr0 E1) as [_ Hr1].
  destruct (if use_metadata (packer_policy packer) then _ else _) as [r2| |] eqn:E2 in E; simpl in E; [|done..].
  pose proof (round_names _ _ _ Hr1 E2) as Rn. pose proof (round_ok _ _ _ _ Rn) as Hr2.
  rewrite unpacked_eq. cbv zeta.
  set (names := if use_metadata (packer_policy packer) then (item_name item, item_type_name item) else ([], [])) in *.
  pose proof (round_value levels r2 r' item (blank_item (fst names) (snd names) (item_kind item)) Hr2 Hf eq_refl IH E) as Rv.
  assert (round r0 r' (fun payload st =>
    '(tag, st) ← read_byte payload st;
    match valid_kind tag with
    | None => pack_malformed "unknown UVM pack item tag"
    | Some kind =>
        '(name, type_name, st) ← read_names payload st;
        read_value packer payload (read_item packer payload levels) (blank_item name type_name kind) st
    end) (unpacked item)) as R0.
  { eapply (round_bind _ _ _ read_byte); [by apply round_byte|]. cbv beta. rewrite kind_tag_valid.
    rewrite unpacked_eq. cbv zeta. fold names.
    eapply round_ext; [|eapply (round_bind _ _ _ read_names (fun ns payload =>
      read_value packer payload (read_item packer payload levels) (blank_item (fst ns) (snd ns) (item_kind item)))
      names); [exact Rn|exact Rv]].
    intros payload st. unfold mbind, pack_bind. destruct (read_names payload st) as [[[? ?] ?]| |]; done. }
  split; [apply round_grows in R0; exact R0|]. rewrite unpacked_eq in R0.
  exact (round_count_item r r' _ _ _ R0).
Qed.

(** ** The payload *)

Lemma read_expected_takes expected message : takes (fun payload st => st ← read_expected payload expected message st; mret ((), st)) expected 0 0 ().
Proof.
  induction expected as [|b expected IH]; intros before after st Ho Hi Hb.
  { simpl. unfold mret, pack_ret. do 2 f_equal. destruct st. unfold advance. change (size []) with 0. simpl. f_equal; lia. }
  cbn [read_expected]. change ((b :: expected) ++ after) with ([b] ++ expected ++ after).
  rewrite (read_byte_takes b) by done. unfold mbind at 2. unfold pack_bind at 2. rewrite Z.eqb_refl. cbn [negb].
  specialize (IH (before ++ [b]) after (advance st (size [b]) 0 0)). rewrite <- app_assoc in IH. rewrite IH.
  - rewrite advance_advance. do 3 f_equal. unfold size. simpl length. lia.
  - simpl. rewrite size_app. lia.
  - simpl. lia.
  - simpl. lia.
Qed.

Lemma append_items_elements levels items : forall r, append_items packer levels r items = append_elements levels r items.
Proof.
  induction items as [|item items IH]; intros r; simpl; [done|].
  destruct (append_item packer levels r item); simpl; [apply IH|done..].
Qed.

(** What [unpack] reads before it checks for trailing bytes. *)
Definition read_payload (payload : list Z) (st : UnpackState) : PackResult (list PackItem * UnpackState) :=
  '(_, st) ← (st ← read_expected payload [70; 85; 80; 1] "invalid UVM pack header or schema" st; mret ((), st));
  '(_, st) ← (st ← read_expected payload
                     [endian_tag (policy_endian (packer_policy packer)); if use_metadata (packer_policy packer) then 1 else 0]
                     "UVM pack payload policy does not match the unpacker" st; mret ((), st));
  '(root_count, st) ← read_size packer payload (maximum_items (packer_limits packer)) st;
  read_many (read_item packer payload (Z.to_nat (maximum_depth (packer_limits packer)))) (Z.to_nat root_count) st.

Lemma unpack_reads payload items st : size payload <= maximum_payload_bytes (packer_limits packer) ->
  read_payload payload (mkUnpackState 0 0 0) = Packed (items, st) -> unpack_offset st = size payload ->
  unpack packer payload = Packed items.
Proof.
  intros Hs E Ho. unfold unpack. destruct (Z.gtb_spec (size payload) (maximum_payload_bytes (packer_limits packer))); [lia|].
  unfold read_payload, mbind, pack_bind, mret, pack_ret in *.
  destruct (read_expected payload [70; 85; 80; 1] _ _) as [st1| |]; [|done..].
  destruct (read_expected payload [_; _] _ _) as [st2| |]; [|done..].
  destruct (read_size packer payload _ st2) as [[n st3]| |]; [|done..].
  destruct (read_many _ _ st3) as [[found st4]| |]; [|done..]. simplify_eq. by rewrite Ho, Z.eqb_refl.
Qed.

Lemma pack_round items result : Forall item_fits items -> pack packer items = Packed result ->
  0 <= maximum_items (packer_limits packer) -> 0 <= maximum_bits (packer_limits packer) ->
  0 <= maximum_payload_bytes (packer_limits packer) ->
  payload_ok result /\ round (mkPackedPayload [] 0 0) result read_payload (unpacked <$> items).
Proof.
  intros Hf E H1 H2 H3. set (levels := Z.to_nat (maximum_depth (packer_limits packer))).
  assert (payload_ok (mkPackedPayload [] 0 0)) as Hr0 by (split; simpl; [done|lia..]).
  unfold pack in E. fold levels in E.
  destruct (append_each packer _ (pack_header packer)) as [r1| |] eqn:E1; simpl in E; [|done..].
  destruct (append_u64 packer r1 (size items)) as [r2| |] eqn:E2; simpl in E; [|done..].
  destruct (append_each_grows _ _ _ Hr0 E1) as [Er1 Hr1]. destruct (append_each_grows _ _ _ Hr1 E2) as [_ Hr2].
  rewrite append_items_elements in E. rewrite Forall_forall in Hf.
  assert (round r2 result (fun payload => read_many (read_item packer payload levels) (length items)) (unpacked <$> items)) as Rm.
  { apply (round_many (append_item packer levels) (append_elements levels)); try done.
    intros t t' e He Ht Et. by apply round_item; [apply Hf| |]. }
  assert (payload_item_count r2 + size items <= payload_item_count result) as Hcount.
  { eapply elements_count; [|done..]. intros t t' e He Ht Et. destruct (round_item levels t t' e (Hf e He) Ht Et) as [Hc R].
    split; [by eapply round_ok|done]. }
  pose proof (round_ok _ _ _ _ Rm) as Hres. split; [done|]. pose proof (size_nonneg items).
  set (h1 := [70; 85; 80; 1]).
  set (h2 := [endian_tag (policy_endian (packer_policy packer)); if use_metadata (packer_policy packer) then 1 else 0]).
  assert (r1 = grow (grow (mkPackedPayload [] 0 0) h1 0 0) h2 0 0) as Er1' by (rewrite grow_grow; exact Er1).
  assert (payload_ok (grow (mkPackedPayload [] 0 0) h1 0 0)) as Hh1.
  { destruct Hr1 as [Hs _ _]. rewrite Er1' in Hs. unfold size in Hs. simpl in Hs. split; unfold size; simpl; lia. }
  unfold read_payload. fold h1 h2.
  eapply (round_bind _ _ _ (fun payload st => st ← read_expected payload h1 _ st; mret ((), st)));
    [apply round_takes; [exact Hh1|apply read_expected_takes]|]. cbv beta.
  eapply (round_bind _ _ _ (fun payload st => st ← read_expected payload h2 _ st; mret ((), st)));
    [apply round_takes; [by rewrite <- Er1'|apply read_expected_takes]|]. cbv beta. rewrite <- Er1'.
  eapply (round_bind _ _ _ (fun payload => read_size packer payload _));
    [apply (round_size _ _ (size items)); [done| | |done]; destruct Hr2, Hres; lia|]. cbv beta.
  unfold size. by rewrite Nat2Z.id.
Qed.

(** Unpacking a packed payload gives the items back. *)
Lemma pack_unpack items result : Forall item_fits items -> pack packer items = Packed result ->
  0 <= maximum_items (packer_limits packer) -> 0 <= maximum_bits (packer_limits packer) ->
  0 <= maximum_payload_bytes (packer_limits packer) ->
  unpack packer (payload_bytes result) = Packed (unpacked <$> items).
Proof.
  intros Hf E H1 H2 H3. destruct (pack_round items result Hf E H1 H2 H3) as [[Hs Hi Hb] (e & n & b & Hn & Hbn & Er & _ & T)].
  specialize (T [] [] (mkUnpackState 0 0 0)). rewrite app_nil_r in T. simpl in T.
  rewrite Er in *. simpl in *. apply (unpack_reads _ _ _ Hs (T eq_refl ltac:(lia) ltac:(lia))). done.
Qed.

End packer.

(** The unpacker refuses integer arrays longer than its item ceiling, which
    the packer does not check: it can write a payload it cannot read. *)
Definition long_integers : list PackItem := [with_integers (blank_item [] [] Integers) [1; 2; 3]].
Definition two_items : Packer := mkPacker (mkPackerPolicy Big false) (mkPackerLimits 8 2 64 64 64).

Lemma pack_unreadable :
  (exists result, pack two_items long_integers = Packed result) /\
  (result ← pack two_items long_integers; unpack two_items (payload_bytes result))
    = pack_resource "UVM unpack length exceeds ceiling".
Proof. split; [|vm_compute; reflexivity]. vm_compute. eexists. reflexivity. Qed.

(** ** Packing succeeds within its limits

    What an item costs of the packer's byte, item, bit and text ceilings, and
    that packing succeeds on every tree of items whose cost and depth the
    limits allow. *)

Section limits.
Context (packer : Packer).

(** There is room for [k] more of everything. *)
Definition room (r : PackedPayload) (k : Z) : Prop :=
  size (payload_bytes r) + k <= maximum_payload_bytes (packer_limits packer) /\
  payload_item_count r + k <= maximum_items (packer_limits packer) /\
  payload_bit_count r + k <= maximum_bits (packer_limits packer) /\
  k <= maximum_text_bytes (packer_limits packer).

(** With room for [k], [m] succeeds and uses up at most [k]. *)
Definition spends (m : PackedPayload -> PackResult PackedPayload) (k : Z) : Prop :=
  0 <= k /\ forall r, room r k -> exists r', m r = Packed r' /\ forall k', 0 <= k' -> room r (k + k') -> room r' k'.

Lemma room_le r k k' : k' <= k -> room r k -> room r k'.
Proof. unfold room. lia. Qed.

Lemma spends_ret : spends (fun r => Packed r) 0.
Proof. split; [lia|]. intros r _. eexists. split; [done|]. intros k' Hk'. by rewrite Z.add_0_l. Qed.

Lemma spends_bind m1 m2 k1 k2 : spends m1 k1 -> spends m2 k2 -> spends (fun r => r ← m1 r; m2 r) (k1 + k2).
Proof.
  intros [H1 S1] [H2 S2]. split; [lia|]. intros r Hr.
  destruct (S1 r ltac:(eapply room_le; [|exact Hr]; lia)) as (r1 & E1 & R1). rewrite E1. simpl.
  destruct (S2 r1 (R1 k2 H2 Hr)) as (r2 & E2 & R2). exists r2. split; [done|]. intros k' Hk' Hroom.
  apply R2; [done|]. apply R1; [lia|]. by rewrite Z.add_assoc.
Qed.

Lemma spends_le m k k' : k <= k' -> spends m k -> spends m k'.
Proof.
  intros Hle [H S]. split; [lia|]. intros r Hr. destruct (S r (room_le _ _ _ Hle Hr)) as (r' & E & R).
  exists r'. split; [done|]. intros j Hj Hroom. apply R; [done|]. eapply room_le; [|exact Hroom]. lia.
Qed.

Lemma append_byte_spends v : spends (fun r => append_byte packer r v) 1.
Proof.
  split; [lia|]. intros r Hr. unfold append_byte.
  destruct (Z.geb_spec (size (payload_bytes r)) (maximum_payload_bytes (packer_limits packer))); [unfold room in Hr; lia|].
  eexists. split; [done|]. unfold room. simpl. rewrite size_app. change (size [v]) with 1. lia.
Qed.

Lemma append_bytes_spends vs : spends (fun r => append_bytes packer r vs) (size vs).
Proof.
  pose proof (size_nonneg vs). split; [lia|]. intros r Hr. unfold append_bytes.
  destruct (Z.gtb_spec (size vs) (maximum_payload_bytes (packer_limits packer) - size (payload_bytes r))); [unfold room in Hr; lia|].
  eexists. split; [done|]. unfold room. simpl. rewrite size_app. lia.
Qed.

Lemma append_each_spends vs : spends (fun r => append_each packer r vs) (size vs).
Proof.
  induction vs as [|v vs IH]; [apply spends_ret|]. replace (size (v :: vs)) with (1 + size vs) by (unfold size; simpl; lia).
  apply (spends_bind (fun r => append_byte packer r v) (fun r => append_each packer r vs)); [apply append_byte_spends|done].
Qed.

Lemma append_u64_spends v : spends (fun r => append_u64 packer r v) 8.
Proof. apply (append_each_spends (u64_bytes packer v)). Qed.

Lemma append_string_spends text : spends (fun r => append_string packer r text) (8 + size text).
Proof.
  pose proof (size_nonneg text). unfold append_string. split; [lia|]. intros r Hr.
  destruct (Z.gtb_spec (size text) (maximum_text_bytes (packer_limits packer))); [unfold room in Hr; lia|].
  assert (size text = size (bytes_of text)) as Es by (unfold size, bytes_of; by rewrite length_fmap).
  pose proof (append_bytes_spends (bytes_of text)) as Hb. rewrite <- Es in Hb.
  destruct (spends_bind (fun r => append_u64 packer r (size text)) _ _ _ (append_u64_spends _) Hb) as [_ S]. by apply S.
Qed.

Lemma append_integers_spends vs : spends (fun r => append_integers packer r vs) (8 * size vs).
Proof.
  induction vs as [|v vs IH]; [apply spends_ret|]. replace (8 * size (v :: vs)) with (8 + 8 * size vs) by (unfold size; simpl length; lia).
  apply (spends_bind (fun r => append_u64 packer r v) (fun r => append_integers packer r vs)); [apply append_u64_spends|done].
Qed.

(** ** Items *)

(** A bound on what an item uses of any ceiling, and how deep it nests. *)
Fixpoint item_cost (item : PackItem) : Z :=
  match item with
  | mkPackItem name type_name kind bits bytes integers text real object elements =>
      64 + size name + size type_name + 2 * Z.abs (width bits) + size bytes + 8 * size integers + size text
      + fold_right (fun e total => item_cost e + total) 0 elements
  end.
Definition items_cost (items : list PackItem) : Z := fold_right (fun e total => item_cost e + total) 0 items.

Fixpoint item_depth (item : PackItem) : nat :=
  match item with
  | mkPackItem _ _ _ _ _ _ _ _ _ elements => S (fold_right (fun e deepest => item_depth e `max` deepest)%nat 0%nat elements)
  end.
Definition items_depth (items : list PackItem) : nat := fold_right (fun e deepest => item_depth e `max` deepest)%nat 0%nat items.

Lemma item_cost_eq item : item_cost item =
  64 + size (item_name item) + size (item_type_name item) + 2 * Z.abs (width (item_bits item)) + size (item_bytes item)
  + 8 * size (item_integers item) + size (item_string_value item) + items_cost (item_elements item).
Proof. by destruct item. Qed.
Lemma item_depth_eq item : item_depth item = S (items_depth (item_elements item)).
Proof. by destruct item. Qed.

Lemma append_value_spends elements item : wf (item_bits item) ->
  spends (fun r => elements r (item_elements item)) (items_cost (item_elements item)) ->
  spends (fun r => append_value packer elements r item)
    (32 + 2 * width (item_bits item) + size (item_bytes item) + 8 * size (item_integers item)
     + size (item_string_value item) + items_cost (item_elements item)).
Proof.
  intros Hv Hel. pose proof Hel as [Hel0 _]. pose proof (wf_width _ Hv) as Hw. unfold append_value.
  pose proof (size_nonneg (item_bytes item)). pose proof (size_nonneg (item_integers item)).
  pose proof (size_nonneg (item_string_value item)).
  destruct (item_kind item).
  - eapply (spends_le _ (17 + 2 * width (item_bits item))); [lia|]. split; [lia|]. intros r Hr. cbv zeta.
    set (v := item_bits item) in *. unfold room in Hr.
    destruct (Z.gtb_spec (width v) (maximum_bits (packer_limits packer) - payload_bit_count r)); [lia|].
    set (r0 := mkPackedPayload (payload_bytes r) (payload_item_count r) (payload_bit_count r + width v)).
    pose proof (spends_bind (fun r => append_byte packer r (if is_logic9 v then 1 else 0)) _ _ _ (append_byte_spends _)
      (spends_bind (fun r => append_u64 packer r (width v)) (fun r => append_string packer r (ordered packer (to_msb_string v)))
        _ _ (append_u64_spends _) (append_string_spends _))) as [_ S].
    rewrite size_ordered, size_to_msb_string in S by done.
    destruct (S r0) as (r' & E & R); [unfold room, r0; simpl; lia|]. exists r'. split; [exact E|].
    intros k' Hk' Hroom. apply R; [done|]. unfold room, r0 in *. simpl. lia.
  - eapply (spends_le _ (8 + size (item_bytes item))); [lia|].
    apply (spends_bind (fun r => append_u64 packer r _) (fun r => match policy_endian _ with Big => _ | Little => _ end));
      [apply append_u64_spends|]. destruct (policy_endian (packer_policy packer)); [apply append_bytes_spends|].
    replace (size (item_bytes item)) with (size (reverse (item_bytes item))) by (unfold size; by rewrite length_reverse).
    apply append_each_spends.
  - eapply (spends_le _ (8 + 8 * size (item_integers item))); [lia|].
    apply (spends_bind (fun r => append_u64 packer r _) (fun r => append_integers packer r _));
      [apply append_u64_spends|apply append_integers_spends].
  - eapply spends_le; [|apply append_string_spends]. lia.
  - eapply spends_le; [|apply append_u64_spends]. lia.
  - eapply spends_le; [|apply append_u64_spends]. lia.
  - eapply (spends_le _ (8 + items_cost (item_elements item))); [lia|].
    apply (spends_bind (fun r => append_u64 packer r _) (fun r => elements r _)); [apply append_u64_spends|done].
Qed.

(** Every bit vector of the tree is well formed. *)
#[warnings="-register-all"]
Inductive bits_wf : PackItem -> Prop :=
  | bits_wf_intro item : wf (item_bits item) -> Forall bits_wf (item_elements item) -> bits_wf item.

Lemma elements_spend levels items : (forall item, item ∈ items -> spends (fun r => append_item packer levels r item) (item_cost item)) ->
  spends (fun r => append_elements packer levels r items) (items_cost items).
Proof.
  induction items as [|item items IH]; intros H; [apply spends_ret|].
  apply (spends_bind (fun r => append_item packer levels r item) (fun r => append_elements packer levels r items));
    [apply H; left|apply IH; intros; apply H; by right].
Qed.

Lemma elements_depth item items : item ∈ items -> (item_depth item <= items_depth items)%nat.
Proof. induction 1; simpl; lia. Qed.

Lemma append_item_spends levels : forall item, bits_wf item -> (item_depth item <= levels)%nat ->
  spends (fun r => append_item packer levels r item) (item_cost item).
Proof.
  induction levels as [|levels IH]; intros item Hwf Hd; rewrite item_depth_eq in Hd; [lia|].
  inversion Hwf as [i Hv Hel Ei]; subst i. rewrite Forall_forall in Hel.
  assert (spends (fun r => append_elements packer levels r (item_elements item)) (items_cost (item_elements item))) as Hspend.
  { apply elements_spend. intros e He. apply IH; [by apply Hel|]. pose proof (elements_depth _ _ He). lia. }
  pose proof (append_value_spends (append_elements packer levels) item Hv Hspend) as Hvalue.
  pose proof (size_nonneg (item_name item)). pose proof (size_nonneg (item_type_name item)).
  assert (spends (fun r => if use_metadata (packer_policy packer) then
      result ← append_string packer r (item_name item); append_string packer result (item_type_name item) else mret r)
      (16 + size (item_name item) + size (item_type_name item))) as Hnames.
  { destruct (use_metadata (packer_policy packer)).
    - eapply spends_le; [|apply (spends_bind (fun r => append_string packer r (item_name item))
        (fun r => append_string packer r (item_type_name item))); apply append_string_spends]. lia.
    - eapply spends_le; [|apply spends_ret]. lia. }
  pose proof (spends_bind _ _ _ _ (append_byte_spends (kind_tag (item_kind item))) (spends_bind _ _ _ _ Hnames Hvalue)) as [Hnonneg S].
  pose proof (wf_width _ Hv). rewrite item_cost_eq. split; [lia|]. intros r Hr. cbn [append_item]. cbv zeta.
  fold (append_elements packer levels).
  set (r0 := mkPackedPayload (payload_bytes r) (payload_item_count r + 1) (payload_bit_count r)).
  change (payload_item_count r0) with (payload_item_count r + 1). unfold room in Hr.
  destruct (Z.gtb_spec (payload_item_count r + 1) (maximum_items (packer_limits packer))); [lia|].
  destruct (S r0) as (r' & E & R); [unfold room, r0; simpl; lia|]. exists r'. split; [exact E|].
  intros k' Hk' Hroom. apply R; [done|]. unfold room, r0 in *. simpl. lia.
Qed.

Lemma pack_returns items : Forall bits_wf items -> (items_depth items <= Z.to_nat (maximum_depth (packer_limits packer)))%nat ->
  (let cost := 14 + items_cost items in
   cost <= maximum_payload_bytes (packer_limits packer) /\ cost <= maximum_items (packer_limits packer) /\
   cost <= maximum_bits (packer_limits packer) /\ cost <= maximum_text_bytes (packer_limits packer)) ->
  exists result, pack packer items = Packed result.
Proof.
  intros Hwf Hd Hcost. cbv zeta in Hcost. unfold pack. rewrite Forall_forall in Hwf.
  set (levels := Z.to_nat (maximum_depth (packer_limits packer))) in *.
  assert (spends (fun r => append_elements packer levels r items) (items_cost items)) as Hel.
  { apply elements_spend. intros e He. apply append_item_spends; [by apply Hwf|]. pose proof (elements_depth _ _ He). lia. }
  pose proof (spends_bind _ _ _ _ (append_each_spends (pack_header packer))
    (spends_bind _ _ _ _ (append_u64_spends (size items)) Hel)) as [_ S].
  change (size (pack_header packer)) with 6 in S.
  destruct (S (mkPackedPayload [] 0 0)) as (r' & E & _).
  { unfold room. simpl. change (size []) with 0. lia. }
  exists r'. rewrite <- E. destruct (append_each packer _ _) as [r1| |]; simpl; [|done..].
  destruct (append_u64 packer r1 _) as [r2| |]; simpl; [|done..]. apply append_items_elements.
Qed.
End limits.
