(* ===== verification/ConfigPattern.v ===== *)
(** * Patterns of the UVM configuration database

    Model of the regular expressions of src/runtime/uvm_config_db.cpp: a linear
    expression of characters and dots with quantifiers, parsed by
    [parse_safe_regex] and matched by [safe_regex_matches], which keeps one row
    of reachable positions per atom.  [regex_escape] quotes a context's name
    for use in an expression. *)
From S2P Require Import Prelude GlobMatch.

Inductive Quantifier := One | ZeroOrOne | ZeroOrMore | OneOrMore.
Record RegexAtom := mkRegexAtom { atom_value : ascii; atom_any : bool; atom_quantifier : Quantifier }.

#[global] Instance quantifier_eq_dec : EqDecision Quantifier.
Proof. solve_decision. Defined.
#[global] Instance regex_atom_eq_dec : EqDecision RegexAtom.
Proof. solve_decision. Defined.

(** ** Parsing *)

Definition backslash : ascii := "\"%char.
Definition slash : ascii := "/"%char.
Definition is_quantifier (c : ascii) : bool :=
  Ascii.eqb c "*" || Ascii.eqb c "+" || Ascii.eqb c "?".
Definition is_unsupported (c : ascii) : bool :=
  Ascii.eqb c "[" || Ascii.eqb c "]" || Ascii.eqb c "(" || Ascii.eqb c ")" || Ascii.eqb c "|"
  || Ascii.eqb c "{" || Ascii.eqb c "}".

(** [pattern.size() >= 2 && pattern.front() == '/' && pattern.back() == '/'] *)
Definition is_regex (pattern : list ascii) : bool :=
  (2 <=? length pattern)%nat
  && bool_decide (head pattern = Some slash) && bool_decide (last pattern = Some slash).

(** The body between the delimiters, without its anchors. *)
Definition strip_anchors (body : list ascii) : list ascii :=
  let body := match body with c :: rest => if Ascii.eqb c "^" then rest else body | [] => [] end in
  match last body with
  | Some c => if Ascii.eqb c "$" then removelast body else body
  | None => body
  end.
Definition regex_body (pattern : list ascii) : list ascii := removelast (tail pattern).

Definition quantifier_of (c : ascii) : Quantifier :=
  if Ascii.eqb c "*" then ZeroOrMore else if Ascii.eqb c "+" then OneOrMore else ZeroOrOne.

(** The loop body: the atoms so far and whether the last character was a
    backslash. *)
Definition regex_char (atoms : list RegexAtom) (escaped : bool) (c : ascii) : Outcome (list RegexAtom * bool) :=
  if escaped then Ok (atoms ++ [mkRegexAtom c false One], false)
  else if Ascii.eqb c backslash then Ok (atoms, true)
  else if is_quantifier c then
    match last atoms with
    | Some atom =>
        if bool_decide (atom_quantifier atom = One)
        then Ok (removelast atoms ++ [mkRegexAtom (atom_value atom) (atom_any atom) (quantifier_of c)], false)
        else Throw (invalid_argument "invalid UVM config regex quantifier")
    | None => Throw (invalid_argument "invalid UVM config regex quantifier")
    end
  else if Ascii.eqb c "." then Ok (atoms ++ [mkRegexAtom zero true One], false)
  else if is_unsupported c then Throw (invalid_argument "unsupported non-linear UVM config regex construct")
  else Ok (atoms ++ [mkRegexAtom c false One], false).

Fixpoint regex_chars (maximum_states : Z) (body : list ascii) (atoms : list RegexAtom) (escaped : bool)
    : Outcome (list RegexAtom * bool) :=
  match body with
  | [] => Ok (atoms, escaped)
  | c :: body =>
      '(atoms, escaped) ← regex_char atoms escaped c;
      if size atoms >? maximum_states then Throw (length_error "UVM config regex state budget exceeded")
      else regex_chars maximum_states body atoms escaped
  end.

Definition parse_safe_regex (pattern : list ascii) (maximum_states : Z) : Outcome (list RegexAtom) :=
  if negb (is_regex pattern) then Throw (invalid_argument "UVM config regex must use /.../ delimiters")
  else
    '(atoms, escaped) ← regex_chars maximum_states (strip_anchors (regex_body pattern)) [] false;
    if (escaped : bool) then Throw (invalid_argument "dangling escape in UVM config regex") else mret atoms.

(** ** Matching *)

Definition bit_at (row : list bool) (i : nat) : bool := nth i row false.

Definition atom_matches (atom : RegexAtom) (c : ascii) : bool := atom_any atom || Ascii.eqb (atom_value atom) c.
Definition matches_at (atom : RegexAtom) (value : list ascii) (i : nat) : bool :=
  atom_matches atom (nth i value zero).

(** [current[index]] for [index >= 1], from the previous row and what the loop
    has written of the current one. *)
Definition cell (atom : RegexAtom) (value : list ascii) (previous current : list bool) (index : nat) : bool :=
  match atom_quantifier atom with
  | One => bit_at previous (index - 1) && matches_at atom value (index - 1)
  | ZeroOrOne => bit_at previous index || (bit_at previous (index - 1) && matches_at atom value (index - 1))
  | ZeroOrMore => bit_at previous index || (bit_at current (index - 1) && matches_at atom value (index - 1))
  | OneOrMore => (bit_at previous (index - 1) || bit_at current (index - 1)) && matches_at atom value (index - 1)
  end.

Definition next_row (value : list ascii) (previous : list bool) (atom : RegexAtom) : list bool :=
  let current := replicate (length value + 1) false in
  let current := match atom_quantifier atom with
                 | ZeroOrOne | ZeroOrMore => <[0%nat := bit_at previous 0]> current
                 | One | OneOrMore => current
                 end in
  foldl (fun current index => <[index := cell atom value previous current index]> current) current (seq 1 (length value)).

Definition regex_matches (atoms : list RegexAtom) (value : list ascii) : bool :=
  bit_at (foldl (next_row value) (<[0%nat := true]> (replicate (length value + 1) false)) atoms) (length value).

Definition regex_over_budget (atoms : list RegexAtom) (value : list ascii) (maximum_states : Z) : bool :=
  (size value >? maximum_states) || (size atoms >? maximum_states)
  || (size atoms + 1 >? maximum_states / (size value + 1)).

Definition safe_regex_matches (pattern value : list ascii) (maximum_states : Z) : Outcome bool :=
  atoms ← parse_safe_regex pattern maximum_states;
  if regex_over_budget atoms value maximum_states
  then Throw (length_error "UVM config regex work budget exceeded")
  else mret (regex_matches atoms value).

Definition is_escaped (c : ascii) : bool :=
  Ascii.eqb c "." || Ascii.eqb c "*" || Ascii.eqb c "+" || Ascii.eqb c "?" || Ascii.eqb c "^" || Ascii.eqb c "$"
  || Ascii.eqb c backslash.
Definition regex_escape (value : list ascii) : list ascii :=
  value ≫= fun c => if is_escaped c then [backslash; c] else [c].

(** [pattern_matches]: a pattern between slashes is an expression, any other
    one has wildcards.  The wildcard matcher of this file is the one of
    GlobMatch.v without its callback. *)
Definition pattern_matches (maximum_states : Z) (pattern value : list ascii) : Outcome bool :=
  if is_regex pattern then safe_regex_matches pattern value maximum_states
  else Ok (glob_match pattern value).

(** ** What an expression means *)

Definition atom_lang (atom : RegexAtom) (w : list ascii) : Prop :=
  Forall (fun c => atom_matches atom c = true) w /\
  match atom_quantifier atom with
  | One => length w = 1%nat
  | ZeroOrOne => (length w <= 1)%nat
  | ZeroOrMore => True
  | OneOrMore => (1 <= length w)%nat
  end.

Fixpoint regex_lang (atoms : list RegexAtom) (w : list ascii) : Prop :=
  match atoms with
  | [] => w = []
  | atom :: atoms => exists w1 w2, w = w1 ++ w2 /\ atom_lang atom w1 /\ regex_lang atoms w2
  end.

Lemma regex_lang_snoc atoms atom w :
  regex_lang (atoms ++ [atom]) w <-> exists w1 w2, w = w1 ++ w2 /\ regex_lang atoms w1 /\ atom_lang atom w2.
Proof.
  revert w. induction atoms as [|a atoms IH]; intros w; simpl.
  - split.
    + intros (w1 & w2 & -> & Ha & ->). rewrite app_nil_r. by exists [], w1.
    + intros (w1 & w2 & -> & -> & Ha). exists w2, []. by rewrite app_nil_r.
  - split.
    + intros (w1 & w2 & -> & Ha & (v1 & v2 & -> & Hl & Hb)%IH). exists (w1 ++ v1), v2.
      split; [by rewrite app_assoc|]. split; [by exists w1, v1|done].
    + intros (w1 & w2 & -> & (v1 & v2 & -> & Ha & Hl) & Hb). exists v1, (v2 ++ w2).
      split; [by rewrite app_assoc|]. split; [done|]. apply IH. by exists v2, w2.
Qed.

(** ** Rows *)

(** [row] marks the prefixes of [value] that [P] holds of. *)
Definition row_of (value : list ascii) (P : list ascii -> Prop) (row : list bool) : Prop :=
  length row = (length value + 1)%nat /\
  forall i, (i <= length value)%nat -> bit_at row i = true <-> P (take i value).

Lemma bit_at_insert row i j b : (j < length row)%nat -> bit_at (<[j := b]> row) i = if decide (i = j) then b else bit_at row i.
Proof. apply nth_insert. Qed.

Lemma bit_at_replicate n i : bit_at (replicate n false) i = false.
Proof.
  unfold bit_at. rewrite nth_lookup. destruct (replicate n false !! i) as [b|] eqn:E; [|done].
  by apply lookup_replicate in E as [-> _].
Qed.

(** ** One atom *)

Section atom.
Context (value : list ascii) (P : list ascii -> Prop) (atom : RegexAtom).

Definition extends_with (w : list ascii) : Prop := exists w1 w2, w = w1 ++ w2 /\ P w1 /\ atom_lang atom w2.

Definition segment (k i : nat) : list ascii := drop k (take i value).
Definition all_match (k i : nat) : Prop := Forall (fun c => atom_matches atom c = true) (segment k i).

Lemma length_segment k i : (i <= length value)%nat -> length (segment k i) = (i - k)%nat.
Proof. intros Hi. unfold segment. rewrite length_drop, length_take. lia. Qed.

Lemma extends_with_split i : (i <= length value)%nat ->
  extends_with (take i value) <-> exists k, (k <= i)%nat /\ P (take k value) /\ atom_lang atom (segment k i).
Proof.
  intros Hi. unfold extends_with, segment. split.
  - intros (w1 & w2 & E & Hp & Ha). exists (length w1).
    pose proof (f_equal length E) as El. rewrite length_take, length_app in El.
    assert (take (length w1) value = w1) as E1.
    { transitivity (take (length w1) (w1 ++ w2)); [|apply take_app_length]. rewrite <- E, take_take. f_equal. lia. }
    split; [lia|]. rewrite E1. split; [done|]. rewrite E, drop_app_length. done.
  - intros (k & Hk & Hp & Ha). exists (take k value), (drop k (take i value)). split; [|done].
    rewrite <- (take_drop k (take i value)) at 1. by rewrite take_take, Nat.min_l by lia.
Qed.

Lemma all_match_self i : all_match i i.
Proof. unfold all_match, segment. rewrite drop_ge; [done|]. rewrite length_take. lia. Qed.

Lemma all_match_step k i : (k < i <= length value)%nat ->
  all_match k i <-> all_match k (i - 1) /\ matches_at atom value (i - 1) = true.
Proof.
  intros Hi. destruct (lookup_lt_is_Some_2 value (i - 1) ltac:(lia)) as [c Hc]. unfold all_match, segment, matches_at.
  replace i with (S (i - 1)) at 1 by lia. rewrite (take_S_r _ _ _ Hc), drop_app_le by (rewrite length_take; lia).
  rewrite Forall_app, Forall_singleton. by rewrite (nth_lookup_Some _ _ _ _ Hc).
Qed.

(** The four recurrences of the matcher. *)
Lemma extends_zero : atom_quantifier atom = One \/ atom_quantifier atom = OneOrMore -> ~ extends_with (take 0 value).
Proof.
  intros Hq H. apply (extends_with_split 0) in H as (k & Hk & _ & _ & Hlen); [|lia].
  rewrite length_segment in Hlen by lia. destruct Hq as [E|E]; rewrite E in Hlen; lia.
Qed.

Lemma extends_empty : atom_quantifier atom = ZeroOrOne \/ atom_quantifier atom = ZeroOrMore ->
  extends_with (take 0 value) <-> P (take 0 value).
Proof.
  intros Hq. rewrite extends_with_split by lia. split.
  - intros (k & Hk & Hp & _). by replace k with 0%nat in Hp by lia.
  - intros Hp. exists 0%nat. split; [lia|]. split; [done|]. split; [apply all_match_self|].
    rewrite length_segment by lia. destruct Hq as [-> | ->]; [lia|done].
Qed.

Lemma extends_one i : atom_quantifier atom = One -> (1 <= i <= length value)%nat ->
  extends_with (take i value) <-> P (take (i - 1) value) /\ matches_at atom value (i - 1) = true.
Proof.
  intros Hq Hi. rewrite extends_with_split by lia. unfold atom_lang. rewrite Hq. setoid_rewrite length_segment; [|lia..]. split.
  - intros (k & Hk & Hp & Ha & Hlen). replace k with (i - 1)%nat in * by lia. split; [done|].
    by apply (all_match_step (i - 1) i); [lia|].
  - intros [Hp Hm]. exists (i - 1)%nat. split; [lia|]. split; [done|]. split; [|lia].
    apply (all_match_step (i - 1) i); [lia|]. split; [apply all_match_self|done].
Qed.

Lemma extends_optional i : atom_quantifier atom = ZeroOrOne -> (1 <= i <= length value)%nat ->
  extends_with (take i value) <->
  P (take i value) \/ (P (take (i - 1) value) /\ matches_at atom value (i - 1) = true).
Proof.
  intros Hq Hi. rewrite extends_with_split by lia. unfold atom_lang. rewrite Hq. setoid_rewrite length_segment; [|lia..]. split.
  - intros (k & Hk & Hp & Ha & Hlen). destruct (decide (k = i)) as [->|]; [by left|]. right.
    replace k with (i - 1)%nat in * by lia. split; [done|]. by apply (all_match_step (i - 1) i); [lia|].
  - intros [Hp|[Hp Hm]].
    + exists i. split_and!; [lia|done|apply all_match_self|lia].
    + exists (i - 1)%nat. split_and!; [lia|done| |lia].
      apply (all_match_step (i - 1) i); [lia|]. split; [apply all_match_self|done].
Qed.

Lemma extends_star i : atom_quantifier atom = ZeroOrMore -> (1 <= i <= length value)%nat ->
  extends_with (take i value) <->
  P (take i value) \/ (extends_with (take (i - 1) value) /\ matches_at atom value (i - 1) = true).
Proof.
  intros Hq Hi. rewrite !extends_with_split by lia. unfold atom_lang. rewrite Hq. split.
  - intros (k & Hk & Hp & Ha & _). destruct (decide (k = i)) as [->|]; [by left|]. right.
    apply (all_match_step k i) in Ha as [Ha Hm]; [|lia]. split; [|done]. exists k. split_and!; [lia|done..].
  - intros [Hp|[(k & Hk & Hp & Ha & _) Hm]].
    + exists i. split_and!; [lia|done|apply all_match_self|done].
    + exists k. split_and!; [lia|done| |done]. apply (all_match_step k i); [lia|done].
Qed.

Lemma extends_plus i : atom_quantifier atom = OneOrMore -> (1 <= i <= length value)%nat ->
  extends_with (take i value) <->
  (P (take (i - 1) value) \/ extends_with (take (i - 1) value)) /\ matches_at atom value (i - 1) = true.
Proof.
  intros Hq Hi. rewrite !extends_with_split by lia. unfold atom_lang. rewrite Hq. setoid_rewrite length_segment; [|lia..]. split.
  - intros (k & Hk & Hp & Ha & Hlen). apply (all_match_step k i) in Ha as [Ha Hm]; [|lia]. split; [|done].
    destruct (decide (k = i - 1)%nat) as [->|]; [by left|]. right. exists k. split_and!; [lia|done..|lia].
  - intros [[Hp|(k & Hk & Hp & Ha & Hlen)] Hm].
    + exists (i - 1)%nat. split_and!; [lia|done| |lia].
      apply (all_match_step (i - 1) i); [lia|]. split; [apply all_match_self|done].
    + exists k. split_and!; [lia|done| |lia]. apply (all_match_step k i); [lia|done].
Qed.

Lemma next_row_ok previous : row_of value P previous -> row_of value extends_with (next_row value previous atom).
Proof.
  intros [Hlen Hp]. unfold next_row. set (start := match atom_quantifier atom with One => _ | _ => _ end).
  assert (length start = (length value + 1)%nat) as Hstart.
  { unfold start. destruct (atom_quantifier atom); by rewrite ?length_insert, length_replicate. }
  destruct (fill_row false (cell atom value previous) start (length value)) as (Hl & H0 & Hcells); [lia| |].
  { intros r1 r2 i Hi E. unfold cell, bit_at. by rewrite E. }
  set (row := foldl _ start _) in *. cbv zeta in *. split; [congruence|].
  change (nth 0 ?r false) with (bit_at r 0) in H0. change (forall i, (1 <= i <= length value)%nat -> bit_at row i = cell atom value previous row i) in Hcells.
  assert (bit_at row 0 = true <-> extends_with (take 0 value)) as Hzero.
  { rewrite H0. unfold start. destruct (atom_quantifier atom) eqn:Eq.
    - rewrite bit_at_replicate. split; [done|]. intros H. exfalso. apply extends_zero in H; auto.
    - rewrite bit_at_insert, decide_True, Hp by (rewrite ?length_replicate; lia). symmetry. by apply extends_empty; auto.
    - rewrite bit_at_insert, decide_True, Hp by (rewrite ?length_replicate; lia). symmetry. by apply extends_empty; auto.
    - rewrite bit_at_replicate. split; [done|]. intros H. exfalso. apply extends_zero in H; auto. }
  intros i. induction i as [|i IH]; intros Hi; [done|]. specialize (IH ltac:(lia)). rewrite Hcells by lia. unfold cell.
  replace (S i - 1)%nat with i by lia. pose proof (Hp i ltac:(lia)) as Hpi. pose proof (Hp (S i) Hi) as HpS.
  destruct (atom_quantifier atom) eqn:Eq.
  - rewrite andb_true_iff, extends_one by (done || lia). replace (S i - 1)%nat with i by lia. tauto.
  - rewrite orb_true_iff, andb_true_iff, extends_optional by (done || lia). replace (S i - 1)%nat with i by lia. tauto.
  - rewrite orb_true_iff, andb_true_iff, extends_star by (done || lia). replace (S i - 1)%nat with i by lia. tauto.
  - rewrite andb_true_iff, orb_true_iff, extends_plus by (done || lia). replace (S i - 1)%nat with i by lia. tauto.
Qed.
End atom.

(** ** The matcher *)

Lemma row_of_ext value P Q row : (forall w, P w <-> Q w) -> row_of value P row -> row_of value Q row.
Proof. intros H [Hl Hr]. split; [done|]. intros i Hi. by rewrite Hr, H. Qed.

Lemma rows_ok value atoms : forall before row, row_of value (regex_lang before) row ->
  row_of value (regex_lang (before ++ atoms)) (foldl (next_row value) row atoms).
Proof.
  induction atoms as [|atom atoms IH]; intros before row Hrow; [by rewrite app_nil_r|].
  simpl. replace (before ++ atom :: atoms) with ((before ++ [atom]) ++ atoms) by (by rewrite <- app_assoc).
  apply IH. eapply row_of_ext; [|by apply next_row_ok]. intros w. symmetry. apply regex_lang_snoc.
Qed.

Lemma regex_matches_correct atoms value : regex_matches atoms value = true <-> regex_lang atoms value.
Proof.
  unfold regex_matches. destruct (rows_ok value atoms [] (<[0%nat := true]> (replicate (length value + 1) false))) as [_ H].
  { split; [by rewrite length_insert, length_replicate|]. intros i Hi.
    rewrite bit_at_insert by (rewrite length_replicate; lia). destruct (decide (i = 0%nat)) as [->|].
    - by rewrite take_0.
    - rewrite bit_at_replicate. simpl. split; [done|]. intros E%(f_equal length). rewrite length_take in E. simpl in E. lia. }
  rewrite H by lia. by rewrite take_ge by lia.
Qed.

(** ** Expressions relative to a context *)

(** [full_instance_name]: an instance name below a context; an expression is
    prefixed with the context's name, quoted. *)
Definition full_instance_name (context instance_name : list ascii) : list ascii :=
  match instance_name, context with
  | [], _ => context
  | _, [] => instance_name
  | _, _ =>
      if is_regex instance_name then
        [slash; "^"%char] ++ regex_escape context ++ [backslash; "."%char]
        ++ strip_anchors (regex_body instance_name) ++ ["$"%char; slash]
      else context ++ ["."%char] ++ instance_name
  end.

Definition literals (text : list ascii) : list RegexAtom := (fun c => mkRegexAtom c false One) <$> text.

Lemma regex_lang_literals text atoms w :
  regex_lang (literals text ++ atoms) w <-> exists w2, w = text ++ w2 /\ regex_lang atoms w2.
Proof.
  revert w. induction text as [|c text IH]; intros w; simpl.
  { split; [intros H; by exists w|by intros (w2 & -> & H)]. }
  split.
  - intros (w1 & w2 & -> & [Hall Hlen] & (w3 & -> & H)%IH). destruct w1 as [|d [|? ?]]; try done.
    apply Forall_cons in Hall as [Hd _]. apply Ascii.eqb_eq in Hd. simpl in Hd. subst d. by exists w3.
  - intros (w2 & -> & H). exists [c], (text ++ w2). split; [done|]. split; [|apply IH; by exists w2].
    split; [|done]. apply Forall_singleton, Ascii.eqb_refl.
Qed.

Lemma literals_app t1 t2 : literals (t1 ++ t2) = literals t1 ++ literals t2.
Proof. apply fmap_app. Qed.

(** A quoted character becomes a literal atom, if the quoting covers it. *)
Lemma regex_chars_escape maximum text : forall atoms rest,
  Forall (fun c => is_unsupported c = false) text -> size atoms + size text <= maximum ->
  regex_chars maximum (regex_escape text ++ rest) atoms false
  = regex_chars maximum rest (atoms ++ literals text) false.
Proof.
  induction text as [|c text IH]; intros atoms rest Hsup Hsize.
  { change (literals []) with (@nil RegexAtom). by rewrite app_nil_r. }
  apply Forall_cons in Hsup as [Hc Hsup].
  assert (size (c :: text) = 1 + size text) as Es by (unfold size; simpl length; lia). pose proof (size_nonneg text).
  assert (forall k : Outcome (list RegexAtom * bool), (if size (atoms ++ [mkRegexAtom c false One]) >? maximum
    then Throw (length_error "UVM config regex state budget exceeded") else k) = k) as Hbudget.
  { intros k. rewrite size_app. change (size [_]) with 1.
    destruct (Z.gtb_spec (size atoms + 1) maximum); [lia|done]. }
  change (regex_escape (c :: text)) with ((if is_escaped c then [backslash; c] else [c]) ++ regex_escape text).
  replace (atoms ++ literals (c :: text)) with ((atoms ++ [mkRegexAtom c false One]) ++ literals text)
    by (by rewrite <- app_assoc).
  rewrite <- IH by (done || (rewrite size_app; change (size [_]) with 1; lia)).
  destruct (is_escaped c) eqn:Ee; cbn [app regex_chars].
  - change (regex_char atoms false backslash) with (Ok (atoms, true)). cbn [mbind outcome_bind].
    destruct (Z.gtb_spec (size atoms) maximum); [lia|].
    change (regex_char atoms true c) with (Ok (atoms ++ [mkRegexAtom c false One], false)).
    cbn [mbind outcome_bind]. apply Hbudget.
  - assert (regex_char atoms false c = Ok (atoms ++ [mkRegexAtom c false One], false)) as ->.
    { unfold is_escaped in Ee. rewrite !orb_false_iff in Ee.
      destruct Ee as [[[[[[E1 E2] E3] E4] _] _] E7]. unfold regex_char, is_quantifier. by rewrite E7, E2, E3, E4, E1, Hc. }
    cbn [mbind outcome_bind]. apply Hbudget.
Qed.

Lemma last_app_some {A} (l1 l2 : list A) x : last l2 = Some x -> last (l1 ++ l2) = Some x.
Proof. intros H. by rewrite last_app, H. Qed.

Lemma regex_char_prefix before atoms escaped c atoms' escaped' :
  regex_char atoms escaped c = Ok (atoms', escaped') ->
  regex_char (before ++ atoms) escaped c = Ok (before ++ atoms', escaped').
Proof.
  unfold regex_char. intros H. destruct escaped; [simplify_eq; by rewrite app_assoc|].
  destruct (Ascii.eqb c backslash); [by simplify_eq|]. destruct (is_quantifier c).
  - destruct (last atoms) as [a|] eqn:El; [|done]. rewrite (last_app_some _ _ _ El).
    destruct (bool_decide _); [|done]. simplify_eq. rewrite app_assoc. do 3 f_equal.
    apply removelast_app. by intros ->.
  - destruct (Ascii.eqb c "."); [simplify_eq; by rewrite app_assoc|]. destruct (is_unsupported c); [done|].
    simplify_eq. by rewrite app_assoc.
Qed.

Lemma regex_char_grows atoms escaped c atoms' escaped' :
  regex_char atoms escaped c = Ok (atoms', escaped') -> size atoms <= size atoms'.
Proof.
  unfold regex_char. intros H. assert (forall a, size atoms <= size (atoms ++ [a])) as Hs
    by (intros a; rewrite size_app; change (size [a]) with 1; lia).
  destruct escaped; [by simplify_eq|]. destruct (Ascii.eqb c backslash); [simplify_eq; lia|]. destruct (is_quantifier c).
  - destruct (last atoms) as [a|] eqn:El; [|done]. destruct (bool_decide _); [|done]. simplify_eq.
    assert (atoms <> []) as Hne by (intros ->; done). unfold size.
    rewrite (app_removelast_last a Hne) at 1. rewrite !length_app. simpl. lia.
  - destruct (Ascii.eqb c "."); [by simplify_eq|]. destruct (is_unsupported c); [done|by simplify_eq].
Qed.

Lemma regex_chars_prefix maximum before body : forall atoms escaped atoms' escaped' small,
  regex_chars small body atoms escaped = Ok (atoms', escaped') -> size before + size atoms' <= maximum ->
  size atoms <= size atoms' /\
  regex_chars maximum body (before ++ atoms) escaped = Ok (before ++ atoms', escaped').
Proof.
  induction body as [|c body IH]; intros atoms escaped atoms' escaped' small E Hmax; simpl in *; [simplify_eq; split; done || lia|].
  destruct (regex_char atoms escaped c) as [[a1 e1]|] eqn:E1; simpl in E; [|done].
  destruct (size a1 >? small); [done|]. destruct (IH _ _ _ _ _ E Hmax) as [Hle IH'].
  pose proof (regex_char_grows _ _ _ _ _ E1). split; [lia|].
  rewrite (regex_char_prefix before _ _ _ _ _ E1). cbn [mbind outcome_bind].
  rewrite size_app. destruct (Z.gtb_spec (size before + size a1) maximum); [lia|done].
Qed.

Lemma strip_anchors_wrapped text : strip_anchors (["^"%char] ++ text ++ ["$"%char]) = text.
Proof.
  unfold strip_anchors. cbn [app]. rewrite (Ascii.eqb_refl "^"%char), last_snoc, (Ascii.eqb_refl "$"%char).
  apply removelast_last.
Qed.

Lemma is_regex_wrapped body : is_regex ([slash] ++ body ++ [slash]) = true.
Proof.
  unfold is_regex. rewrite !andb_true_iff. split_and!.
  - rewrite !length_app. apply Nat.leb_le. simpl. lia.
  - by apply bool_decide_eq_true.
  - apply bool_decide_eq_true. by rewrite app_assoc, last_snoc.
Qed.

Lemma regex_body_wrapped body : regex_body ([slash] ++ body ++ [slash]) = body.
Proof. unfold regex_body. simpl. apply removelast_last. Qed.

(** An expression below a context means the context's name, a dot, and what
    the expression means by itself. *)
Lemma context_regex_parses context instance_name maximum atoms :
  context <> [] -> is_regex instance_name = true -> parse_safe_regex instance_name maximum = Ok atoms ->
  Forall (fun c => is_unsupported c = false) context -> size context + 1 + size atoms <= maximum ->
  let full := full_instance_name context instance_name in
  is_regex full = true /\ parse_safe_regex full maximum = Ok (literals (context ++ ["."%char]) ++ atoms).
Proof.
  intros Hc Hr Hp Hsup Hmax. cbv zeta. unfold full_instance_name.
  destruct instance_name as [|i0 irest]; [done|]. destruct context as [|c0 crest]; [done|]. rewrite Hr.
  set (instance_name := i0 :: irest) in *. set (context := c0 :: crest) in *.
  set (expr := strip_anchors (regex_body instance_name)) in *.
  replace ([slash; "^"%char] ++ regex_escape context ++ [backslash; "."%char] ++ expr ++ ["$"%char; slash])
    with ([slash] ++ (["^"%char] ++ (regex_escape (context ++ ["."%char]) ++ expr) ++ ["$"%char]) ++ [slash])
    by (unfold regex_escape; rewrite bind_app; simpl; rewrite <- !app_assoc; done).
  rewrite is_regex_wrapped. split; [done|]. unfold parse_safe_regex in *. rewrite is_regex_wrapped, regex_body_wrapped, strip_anchors_wrapped.
  rewrite Hr in Hp. cbn [negb] in *. fold expr in Hp.
  destruct (regex_chars maximum expr [] false) as [[as' esc]|] eqn:E; simpl in Hp; [|done].
  destruct esc; [done|]. unfold mret, outcome_ret in Hp. simplify_eq.
  rewrite regex_chars_escape.
  - rewrite app_nil_l. destruct (regex_chars_prefix maximum (literals (context ++ ["."%char])) expr [] false atoms false maximum E) as [_ E'].
    { unfold literals, size. rewrite length_fmap, length_app. unfold size in Hmax. simpl length. simpl length in Hmax. lia. }
    rewrite app_nil_r in E'. by rewrite E'.
  - apply Forall_app. split; [done|]. by constructor.
  - rewrite size_app. change (size [_]) with 1. change (size []) with 0. pose proof (size_nonneg atoms). lia.
Qed.

(** ** Where the quoting falls short *)

Definition text (s : string) : list ascii := list_ascii_of_string s.

(** Names of array elements contain brackets, which [regex_escape] leaves as
    they are and the parser refuses. *)
Lemma indexed_context_refused :
  pattern_matches 16384 (full_instance_name (text "top.env[0]") (text "/.*/")) (text "top.env[0].agent")
  = Throw (invalid_argument "unsupported non-linear UVM config regex construct").
Proof. reflexivity. Qed.

(** An escaped dollar at the end is taken for the anchor, which leaves the
    escape dangling. *)
Lemma escaped_dollar_refused :
  pattern_matches 16384 (text "/cost\$/") (text "cost$")
  = Throw (invalid_argument "dangling escape in UVM config regex").
Proof. reflexivity. Qed.
