(* ===== verification/UvmResource.v ===== *)
(** * UVM resource pool

    Model of src/runtime/uvm_resource.cpp: the pool of named, typed and scoped
    values behind [uvm_resource_db] and [uvm_config_db].  A resource has a
    handle that is never reused, a value of its declared type, and a place in
    the lookup order: precedence, then priority, then age.  Reads and writes
    are audited and traced in bounded logs and announced to callbacks.

    The class heap and the callbacks are parameters: which class handles are
    live, and on which announcements a callback throws.  A callback is taken
    not to call the pool back. *)
From stdpp Require Import gmap sorting.
From S2P Require Import Prelude Logic WordSpan LogicWord PackedLogic4 GlobMatch.

(** ** Spelling distance

    Model of [edit_distance] of src/runtime/uvm_resource.cpp, the distance
    behind the spelling suggestions of the resource pool: one row of the table
    at a time, over two buffers.  It is the least cost of turning one text
    into the other by keeping, substituting, deleting and inserting
    characters. *)

(** *** The two-row table *)

Definition count_at (row : list nat) (i : nat) : nat := nth i row 0%nat.
Definition differ (left right : list ascii) (i j : nat) : nat :=
  if Ascii.eqb (nth i left zero) (nth j right zero) then 0 else 1.

(** [current[index]] for [index >= 1]. *)
Definition distance_cell (left right : list ascii) (left_index : nat) (previous current : list nat) (index : nat) : nat :=
  let substitution := (count_at previous (index - 1) + differ left right left_index (index - 1))%nat in
  Nat.min (Nat.min (count_at previous index + 1) (count_at current (index - 1) + 1)) substitution.

(** The rows are swapped, so what the loop overwrites is the row before the
    previous one, [spare]. *)
Definition distance_row (left right : list ascii) (rows : list nat * list nat) (left_index : nat) : list nat * list nat :=
  let '(previous, spare) := rows in
  let current := <[0%nat := (left_index + 1)%nat]> spare in
  let current := foldl (fun current index => <[index := distance_cell left right left_index previous current index]> current)
                   current (seq 1 (length right)) in
  (current, previous).

Definition edit_distance (left right : list ascii) : nat :=
  let previous := seq 0 (length right + 1) in
  let rows := foldl (distance_row left right) (previous, replicate (length right + 1) 0%nat) (seq 0 (length left)) in
  count_at (fst rows) (length right).

(** *** Edit scripts *)

Inductive edit := Keep (c : ascii) | Substitute (a b : ascii) | Delete (a : ascii) | Insert (b : ascii).

Definition edit_source (e : edit) : list ascii :=
  match e with Keep c => [c] | Substitute a _ => [a] | Delete a => [a] | Insert _ => [] end.
Definition edit_target (e : edit) : list ascii :=
  match e with Keep c => [c] | Substitute _ b => [b] | Delete _ => [] | Insert b => [b] end.
Definition edit_cost (e : edit) : nat := match e with Keep _ => 0 | _ => 1 end.

Definition source_of (script : list edit) : list ascii := script ≫= edit_source.
Definition target_of (script : list edit) : list ascii := script ≫= edit_target.
Definition script_cost (script : list edit) : nat := sum_list_with edit_cost script.

(** *** The table *)

Section table.
Context (left right : list ascii).

Fixpoint distance (i : nat) : nat -> nat :=
  fix row (j : nat) : nat :=
    match i with
    | O => j
    | S i' =>
        match j with
        | O => S i'
        | S j' => Nat.min (Nat.min (distance i' (S j') + 1) (row j' + 1)) (distance i' j' + differ left right i' j')
        end
    end.

Lemma distance_0_l j : distance 0 j = j.
Proof. by destruct j. Qed.
Lemma distance_0_r i : distance i 0 = i.
Proof. by destruct i. Qed.
Lemma distance_S i j : distance (S i) (S j) =
  Nat.min (Nat.min (distance i (S j) + 1) (distance (S i) j + 1)) (distance i j + differ left right i j).
Proof. done. Qed.

Definition is_row (i : nat) (row : list nat) : Prop :=
  length row = (length right + 1)%nat /\ forall j, (j <= length right)%nat -> count_at row j = distance i j.

Lemma distance_row_ok i previous spare : is_row i previous -> length spare = (length right + 1)%nat ->
  is_row (S i) (fst (distance_row left right (previous, spare) i)) /\
  snd (distance_row left right (previous, spare) i) = previous.
Proof.
  intros [Hl Hp] Hs. split; [|done]. unfold distance_row. cbn [fst]. set (start := <[0%nat := (i + 1)%nat]> spare).
  assert (length start = (length right + 1)%nat) as Hstart by (unfold start; by rewrite length_insert).
  destruct (fill_row 0%nat (distance_cell left right i previous) start (length right)) as (Hlen & H0 & Hcells); [lia| |].
  { intros r1 r2 j Hj E. unfold distance_cell, count_at. by rewrite E. }
  cbv zeta in *. set (row := foldl _ start _) in *. split; [congruence|]. intros j. induction j as [|j IH]; intros Hj.
  - unfold count_at. rewrite H0. unfold start. rewrite nth_insert, decide_True by lia. rewrite distance_0_r. lia.
  - unfold count_at. rewrite Hcells by lia. unfold distance_cell. replace (S j - 1)%nat with j by lia.
    rewrite distance_S, !Hp by lia. by rewrite IH by lia.
Qed.

Lemma rows_of_distance n : forall i previous spare, is_row i previous -> length spare = (length right + 1)%nat ->
  is_row (i + n) (fst (foldl (distance_row left right) (previous, spare) (seq i n))).
Proof.
  induction n as [|n IH]; intros i previous spare Hp Hs; [by rewrite Nat.add_0_r|].
  destruct (distance_row_ok i previous spare Hp Hs) as [Hrow Hsnd]. cbn [seq foldl].
  destruct (distance_row left right (previous, spare) i) as [current spare'] eqn:E. cbn [fst snd] in *. subst spare'.
  replace (i + S n)%nat with (S i + n)%nat by lia. apply IH; [exact Hrow|by destruct Hp].
Qed.

Lemma edit_distance_table : edit_distance left right = distance (length left) (length right).
Proof.
  unfold edit_distance. cbv zeta.
  destruct (rows_of_distance (length left) 0 (seq 0 (length right + 1)) (replicate (length right + 1) 0%nat)) as [_ H].
  - split; [by rewrite length_seq|]. intros j Hj. unfold count_at. rewrite seq_nth by lia. by rewrite distance_0_l.
  - by rewrite length_replicate.
  - by apply H.
Qed.

(** *** Least cost *)

Lemma take_snoc_inv (text w : list ascii) c i : w ++ [c] = take i text -> (i <= length text)%nat ->
  exists i', i = S i' /\ w = take i' text /\ nth i' text zero = c.
Proof.
  intros E Hi. pose proof (f_equal length E) as El. rewrite length_app, length_take in El. simpl in El.
  destruct i as [|i']; [lia|]. exists i'. split; [done|]. destruct (lookup_lt_is_Some_2 text i' ltac:(lia)) as [d Hd].
  rewrite (take_S_r _ _ _ Hd) in E. apply app_inj_tail in E as [-> ->]. split; [done|]. by apply nth_lookup_Some.
Qed.

(** No script is cheaper than the table says. *)
Lemma distance_least script : forall i j, (i <= length left)%nat -> (j <= length right)%nat ->
  source_of script = take i left -> target_of script = take j right -> (distance i j <= script_cost script)%nat.
Proof.
  induction script as [|e script IH] using rev_ind; intros i j Hi Hj Es Et.
  - apply (f_equal length) in Es, Et. rewrite length_take in Es, Et. simpl in Es, Et.
    replace i with 0%nat by lia. rewrite distance_0_l. simpl. lia.
  - unfold source_of, target_of in Es, Et. rewrite bind_app in Es, Et.
    assert (script_cost (script ++ [e]) = script_cost script + edit_cost e)%nat as ->.
    { unfold script_cost. rewrite sum_list_with_app. simpl. lia. }
    destruct e as [c|a b|a|b]; simpl in Es, Et; rewrite ?app_nil_r in Es; rewrite ?app_nil_r in Et.
    + apply take_snoc_inv in Es as (i' & -> & Es & Hi'), Et as (j' & -> & Et & Hj'); [|lia..].
      specialize (IH i' j' ltac:(lia) ltac:(lia) Es Et). rewrite distance_S. unfold differ. rewrite Hi', Hj', Ascii.eqb_refl. simpl. lia.
    + apply take_snoc_inv in Es as (i' & -> & Es & Hi'), Et as (j' & -> & Et & Hj'); [|lia..].
      specialize (IH i' j' ltac:(lia) ltac:(lia) Es Et). rewrite distance_S. unfold differ. destruct (Ascii.eqb _ _); simpl; lia.
    + apply take_snoc_inv in Es as (i' & -> & Es & _); [|lia]. specialize (IH i' j ltac:(lia) ltac:(lia) Es Et).
      destruct j as [|j]; [rewrite distance_0_r; rewrite distance_0_r in IH; simpl; lia|]. rewrite distance_S. cbn [edit_cost]. lia.
    + apply take_snoc_inv in Et as (j' & -> & Et & _); [|lia]. specialize (IH i j' ltac:(lia) ltac:(lia) Es Et).
      destruct i as [|i]; [rewrite distance_0_l; rewrite distance_0_l in IH; simpl; lia|]. rewrite distance_S. cbn [edit_cost]. lia.
Qed.

(** And some script costs just that. *)
Definition achieves (i j n : nat) : Prop :=
  exists script, source_of script = take i left /\ target_of script = take j right /\ script_cost script = n.

Lemma achieves_snoc i j n i' j' e : achieves i j n ->
  take i' left = take i left ++ edit_source e -> take j' right = take j right ++ edit_target e ->
  achieves i' j' (n + edit_cost e).
Proof.
  intros (script & Es & Et & <-) Hs Ht. exists (script ++ [e]). unfold source_of, target_of, script_cost in *.
  rewrite !bind_app, sum_list_with_app, Es, Et. simpl. rewrite !app_nil_r. split_and!; [done|done|lia].
Qed.

Lemma take_S_nth (text : list ascii) i : (i < length text)%nat -> take (S i) text = take i text ++ [nth i text zero].
Proof.
  intros Hi. destruct (lookup_lt_is_Some_2 text i Hi) as [c Hc]. rewrite (take_S_r _ _ _ Hc). by rewrite (nth_lookup_Some _ _ _ _ Hc).
Qed.

Lemma distance_achieved i : forall j, (i <= length left)%nat -> (j <= length right)%nat -> achieves i j (distance i j).
Proof.
  induction i as [|i IHi]; intros j Hi Hj.
  - rewrite distance_0_l. induction j as [|j IHj]; [by exists []|].
    replace (S j) with (j + edit_cost (Insert (nth j right zero)))%nat at 2 by (simpl; lia).
    eapply achieves_snoc; [apply IHj; lia|by rewrite app_nil_r|]. by rewrite take_S_nth by lia.
  - induction j as [|j IHj].
    + rewrite distance_0_r. specialize (IHi 0%nat ltac:(lia) ltac:(lia)). rewrite distance_0_r in IHi.
      replace (S i) with (i + edit_cost (Delete (nth i left zero)))%nat at 2 by (simpl; lia).
      eapply achieves_snoc; [exact IHi| |by rewrite app_nil_r]. by rewrite take_S_nth by lia.
    + rewrite distance_S. specialize (IHj ltac:(lia)).
      destruct (Nat.min_spec (Nat.min (distance i (S j) + 1) (distance (S i) j + 1)) (distance i j + differ left right i j)) as [[_ ->]|[_ ->]].
      * destruct (Nat.min_spec (distance i (S j) + 1) (distance (S i) j + 1)) as [[_ ->]|[_ ->]].
        -- eapply (achieves_snoc i (S j) _ _ _ (Delete (nth i left zero))); [apply IHi; lia| |by rewrite app_nil_r]. by rewrite take_S_nth by lia.
        -- eapply (achieves_snoc (S i) j _ _ _ (Insert (nth j right zero))); [exact IHj|by rewrite app_nil_r|]. by rewrite take_S_nth by lia.
      * unfold differ. destruct (Ascii.eqb_spec (nth i left zero) (nth j right zero)) as [E|E].
        -- eapply (achieves_snoc i j _ _ _ (Keep (nth i left zero))); [apply IHi; lia|by rewrite take_S_nth by lia|].
           rewrite take_S_nth by lia. by rewrite E.
        -- eapply (achieves_snoc i j _ _ _ (Substitute (nth i left zero) (nth j right zero))); [apply IHi; lia|..];
             by rewrite take_S_nth by lia.
Qed.

Lemma edit_distance_least :
  (exists script, source_of script = left /\ target_of script = right /\ script_cost script = edit_distance left right) /\
  (forall script, source_of script = left -> target_of script = right -> (edit_distance left right <= script_cost script)%nat).
Proof.
  rewrite edit_distance_table. split.
  - destruct (distance_achieved (length left) (length right)) as (script & Es & Et & Ec); [lia..|].
    exists script. rewrite !take_ge in Es, Et by lia. done.
  - intros script Es Et. apply distance_least; [lia|lia|..]; by rewrite take_ge by lia.
Qed.
End table.

(** ** Data *)

Inductive ResourceValueKind := KindPacked | KindReal | KindString | KindObject.
Inductive ResourcePriority := High | Low.
Inductive CallbackEvent := PreRead | PostRead | PreWrite | PostWrite.
Inductive AuditAction := AuditRead | AuditWrite | AuditRejectedWrite | AuditCallbackFailure.
Inductive TraceAction := TraceLookupName | TraceLookupType | TraceRead | TraceWrite.

(** The variant; a double is its 64-bit pattern. *)
Inductive ResourceValue :=
  | PackedValue (v : PackedLogic4)
  | RealValue (pattern : Z)
  | StringValue (s : list ascii)
  | ObjectValue (handle : Z).

Record ResourceType := mkResourceType { type_identity : list ascii; type_kind : ResourceValueKind; packed_width : Z }.

Record ResourceDescriptor := mkResourceDescriptor {
  descriptor_name : list ascii;
  descriptor_scope : list ascii;
  descriptor_type : ResourceType;
  descriptor_value : ResourceValue;
  descriptor_precedence : Z;
  descriptor_read_only : bool;
  descriptor_auditing : bool;
}.

Record Resource := mkResource {
  resource_handle : Z;
  resource_name : list ascii;
  scope_pattern : list ascii;
  resource_type : ResourceType;
  resource_value : ResourceValue;
  precedence : Z;
  priority_order : Z;
  read_only : bool;
  auditing : bool;
  registration_order : Z;
  revision : Z;
  read_count : Z;
  write_count : Z;
}.

Record AuditRecord := mkAuditRecord {
  audit_sequence : Z;
  audit_resource : Z;
  audit_action : AuditAction;
  audit_accessor : list ascii;
  audit_success : bool;
  audit_revision : Z;
}.
Record TraceRecord := mkTraceRecord {
  trace_sequence : Z;
  trace_action : TraceAction;
  trace_scope : list ascii;
  trace_name : list ascii;
  trace_type : list ascii;
  trace_accessor : list ascii;
  trace_selected : Z;
  trace_match_count : Z;
  trace_success : bool;
}.

Record ResourceLimits := mkResourceLimits {
  max_resources : Z;
  max_type_identity_bytes : Z;
  max_name_bytes : Z;
  max_scope_bytes : Z;
  max_string_value_bytes : Z;
  max_packed_width : Z;
  max_lookup_results : Z;
  max_audit_records : Z;
  max_callbacks_per_resource : Z;
  max_spell_candidates : Z;
  max_spell_distance : Z;
  max_accessor_bytes : Z;
  max_trace_records : Z;
  max_trace_bytes : Z;
}.

(** The members of the service.  [resources_] is keyed by handle; a resource
    carries its callbacks and their tokens.  An installed trace callback is the
    set of records on which it throws. *)
Record ResourcePool (callback : Type) := mkResourcePool {
  resources : gmap Z (Resource * list (Z * callback));
  next_handle : Z;
  next_registration_order : Z;
  next_high_priority : Z;
  next_low_priority : Z;
  next_callback_token : Z;
  audit_records : list AuditRecord;
  next_audit_sequence : Z;
  dropped_audit_records : Z;
  trace_enabled : bool;
  trace_records : list TraceRecord;
  next_trace_sequence : Z;
  dropped_trace_records : Z;
  trace_callback : option (TraceRecord -> bool);
  trace_callback_failures : Z;
}.
Arguments mkResourcePool {callback}.
Arguments resources {callback} _.
Arguments next_handle {callback} _.
Arguments next_registration_order {callback} _.
Arguments next_high_priority {callback} _.
Arguments next_low_priority {callback} _.
Arguments next_callback_token {callback} _.
Arguments audit_records {callback} _.
Arguments next_audit_sequence {callback} _.
Arguments dropped_audit_records {callback} _.
Arguments trace_enabled {callback} _.
Arguments trace_records {callback} _.
Arguments next_trace_sequence {callback} _.
Arguments dropped_trace_records {callback} _.
Arguments trace_callback {callback} _.
Arguments trace_callback_failures {callback} _.

Definition U63_MAX : Z := 2 ^ 63 - 1.
Definition I64_MIN : Z := - 2 ^ 63.

Section pool.
Context {callback : Type}.
Implicit Types pool : ResourcePool callback.

(** [heap_]: absent, or the class handles it holds. *)
Context (limits : ResourceLimits) (heap : option (Z -> bool)).
(** Whether a callback throws when it is told of an event. *)
Context (throws : callback -> CallbackEvent -> Resource -> bool).

Definition empty_pool : ResourcePool callback :=
  mkResourcePool ∅ 1 0 0 0 1 [] 0 0 false [] 0 0 None 0.

(** The constructor. *)
Definition make_pool : Outcome (ResourcePool callback) :=
  if (max_trace_records limits =? 0) || (max_trace_bytes limits =? 0)
  then Throw (invalid_argument "UVM resource trace limits must be nonzero") else Ok empty_pool.

Definition with_resources pool (m : gmap Z (Resource * list (Z * callback))) : ResourcePool callback :=
  mkResourcePool m (next_handle pool) (next_registration_order pool) (next_high_priority pool)
    (next_low_priority pool) (next_callback_token pool) (audit_records pool) (next_audit_sequence pool)
    (dropped_audit_records pool) (trace_enabled pool) (trace_records pool) (next_trace_sequence pool)
    (dropped_trace_records pool) (trace_callback pool) (trace_callback_failures pool).
Definition with_audit pool (records : list AuditRecord) (next dropped : Z) : ResourcePool callback :=
  mkResourcePool (resources pool) (next_handle pool) (next_registration_order pool) (next_high_priority pool)
    (next_low_priority pool) (next_callback_token pool) records next dropped (trace_enabled pool)
    (trace_records pool) (next_trace_sequence pool) (dropped_trace_records pool) (trace_callback pool) (trace_callback_failures pool).
Definition with_trace pool (enabled : bool) (records : list TraceRecord) (next dropped : Z)
    (installed : option (TraceRecord -> bool)) (failures : Z) : ResourcePool callback :=
  mkResourcePool (resources pool) (next_handle pool) (next_registration_order pool) (next_high_priority pool)
    (next_low_priority pool) (next_callback_token pool) (audit_records pool) (next_audit_sequence pool)
    (dropped_audit_records pool) enabled records next dropped installed failures.

Definition stored pool (handle : Z) : Outcome (Resource * list (Z * callback)) :=
  match resources pool !! handle with
  | Some s => Ok s
  | None => Throw (invalid_argument "unknown UVM resource handle")
  end.

Definition update pool (handle : Z) (f : Resource -> Resource) : ResourcePool callback :=
  with_resources pool (alter (fun s => (f (fst s), snd s)) handle (resources pool)).

(** ** Validation *)

Definition validate_value (type : ResourceType) (value : ResourceValue) : Outcome () :=
  match type_kind type with
  | KindPacked =>
      match value with
      | PackedValue v => if width v =? packed_width type then Ok ()
                         else Throw (invalid_argument "UVM packed resource value does not match its declared width")
      | _ => Throw (invalid_argument "UVM packed resource value does not match its declared width")
      end
  | KindReal =>
      match value with RealValue _ => Ok () | _ => Throw (invalid_argument "UVM real resource requires a real value") end
  | KindString =>
      match value with
      | StringValue s => if size s >? max_string_value_bytes limits
                         then Throw (length_error "UVM resource string exceeds its byte budget") else Ok ()
      | _ => Throw (invalid_argument "UVM string resource requires a string value")
      end
  | KindObject =>
      match heap with
      | None => Throw (invalid_argument "UVM object resource requires a class heap")
      | Some contains =>
          match value with
          | ObjectValue h => if (h =? 0) || contains h then Ok ()
                             else Throw (invalid_argument "UVM object resource requires a null or live class handle")
          | _ => Throw (invalid_argument "UVM object resource requires a null or live class handle")
          end
      end
  end.

Definition validate_descriptor (d : ResourceDescriptor) : Outcome () :=
  if size (descriptor_name d) >? max_name_bytes limits
  then Throw (length_error "UVM resource name exceeds its byte budget")
  else if size (descriptor_scope d) >? max_scope_bytes limits
  then Throw (length_error "UVM resource scope exceeds its byte budget")
  else if bool_decide (type_identity (descriptor_type d) = [])
  then Throw (invalid_argument "UVM resource type identity must not be empty")
  else if size (type_identity (descriptor_type d)) >? max_type_identity_bytes limits
  then Throw (length_error "UVM resource type identity exceeds its budget")
  else if packed_width (descriptor_type d) >? max_packed_width limits
  then Throw (length_error "UVM resource packed width exceeds its budget")
  else validate_value (descriptor_type d) (descriptor_value d).

Definition validate_lookup (scope name : list ascii) : Outcome () :=
  if size scope >? max_scope_bytes limits then Throw (length_error "UVM resource lookup scope exceeds its budget")
  else if size name >? max_name_bytes limits then Throw (length_error "UVM resource lookup name exceeds its budget")
  else Ok ().

(** ** Logs *)

(** The oldest record makes room for a new one. *)
Definition append_audit pool (r : Resource) (action : AuditAction) (accessor : list ascii) (success : bool)
    : ResourcePool callback :=
  if max_audit_records limits =? 0
  then with_audit pool (audit_records pool) (next_audit_sequence pool) (wrap64 (dropped_audit_records pool + 1))
  else
    let full := size (audit_records pool) =? max_audit_records limits in
    let records := if full then tail (audit_records pool) else audit_records pool in
    let dropped := if full then wrap64 (dropped_audit_records pool + 1) else dropped_audit_records pool in
    let record := mkAuditRecord (next_audit_sequence pool) (resource_handle r) action accessor success (revision r) in
    with_audit pool (records ++ [record]) (wrap64 (next_audit_sequence pool + 1)) dropped.

Definition append_trace pool (make : Z -> TraceRecord) : ResourcePool callback :=
  if negb (trace_enabled pool) then pool
  else
    let full := size (trace_records pool) =? max_trace_records limits in
    let records := if full then tail (trace_records pool) else trace_records pool in
    let dropped := if full then wrap64 (dropped_trace_records pool + 1) else dropped_trace_records pool in
    let record := make (next_trace_sequence pool) in
    let failed := match trace_callback pool with Some cb => cb record | None => false end in
    with_trace pool (trace_enabled pool) (records ++ [record]) (wrap64 (next_trace_sequence pool + 1)) dropped
      (trace_callback pool)
      (if failed then wrap64 (trace_callback_failures pool + 1) else trace_callback_failures pool).

Definition set_trace_enabled pool (enabled : bool) : ResourcePool callback :=
  with_trace pool enabled (trace_records pool) (next_trace_sequence pool) (dropped_trace_records pool)
    (trace_callback pool) (trace_callback_failures pool).
Definition set_trace_callback pool (cb : option (TraceRecord -> bool)) : ResourcePool callback :=
  with_trace pool (trace_enabled pool) (trace_records pool) (next_trace_sequence pool) (dropped_trace_records pool)
    cb (trace_callback_failures pool).

(** Announces an event to the resource's callbacks; a throwing one leaves an
    audit record. *)
Definition notify_one (event : CallbackEvent) (accessor : list ascii) (r : Resource) pool (entry : Z * callback)
    : ResourcePool callback :=
  if throws (snd entry) event r then append_audit pool r AuditCallbackFailure accessor false else pool.
Definition notify pool (handle : Z) (event : CallbackEvent) (accessor : list ascii) : Outcome (ResourcePool callback) :=
  '(r, callbacks) ← stored pool handle;
  mret (foldl (notify_one event accessor r) pool callbacks).

(** ** Insertion and attributes *)

Definition insert pool (d : ResourceDescriptor) : Outcome (Z * ResourcePool callback) :=
  _ ← validate_descriptor d;
  if Z.of_nat (base.size (resources pool)) >=? max_resources limits
  then Throw (length_error "UVM resource pool capacity exceeded")
  else if (next_handle pool =? 0) || (next_handle pool =? U64_MAX)
  then Throw (overflow_error "UVM resource handles exhausted")
  else
    let handle := next_handle pool in
    let r := mkResource handle (descriptor_name d) (descriptor_scope d) (descriptor_type d) (descriptor_value d)
               (descriptor_precedence d) 0 (descriptor_read_only d) (descriptor_auditing d)
               (next_registration_order pool) 0 0 0 in
    mret (handle,
      mkResourcePool (<[handle := (r, [])]> (resources pool)) (handle + 1)
        (wrap64 (next_registration_order pool + 1)) (next_high_priority pool) (next_low_priority pool)
        (next_callback_token pool) (audit_records pool) (next_audit_sequence pool) (dropped_audit_records pool)
        (trace_enabled pool) (trace_records pool) (next_trace_sequence pool) (dropped_trace_records pool) (trace_callback pool) (trace_callback_failures pool)).

Definition erase pool (handle : Z) : bool * ResourcePool callback :=
  (bool_decide (is_Some (resources pool !! handle)), with_resources pool (delete handle (resources pool))).

Definition contains pool (handle : Z) : bool := bool_decide (is_Some (resources pool !! handle)).
Definition snapshot pool (handle : Z) : Outcome Resource := fst <$> stored pool handle.

Definition set_scope pool (handle : Z) (scope : list ascii) : Outcome (ResourcePool callback) :=
  if size scope >? max_scope_bytes limits then Throw (length_error "UVM resource scope exceeds its byte budget")
  else
    _ ← stored pool handle;
    mret (update pool handle (fun r => mkResource (resource_handle r) (resource_name r) scope (resource_type r)
      (resource_value r) (precedence r) (priority_order r) (read_only r) (auditing r) (registration_order r)
      (revision r) (read_count r) (write_count r))).

Definition with_precedence (p : Z) (r : Resource) : Resource :=
  mkResource (resource_handle r) (resource_name r) (scope_pattern r) (resource_type r)
    (resource_value r) p (priority_order r) (read_only r) (auditing r) (registration_order r)
    (revision r) (read_count r) (write_count r).
Definition set_precedence pool (handle p : Z) : Outcome (ResourcePool callback) :=
  _ ← stored pool handle;
  mret (update pool handle (with_precedence p)).

Definition with_priority (p : Z) (r : Resource) : Resource :=
  mkResource (resource_handle r) (resource_name r) (scope_pattern r) (resource_type r)
    (resource_value r) (precedence r) p (read_only r) (auditing r) (registration_order r)
    (revision r) (read_count r) (write_count r).
Definition with_priorities pool (high low : Z) : ResourcePool callback :=
  mkResourcePool (resources pool) (next_handle pool) (next_registration_order pool) high low
    (next_callback_token pool) (audit_records pool) (next_audit_sequence pool) (dropped_audit_records pool)
    (trace_enabled pool) (trace_records pool) (next_trace_sequence pool) (dropped_trace_records pool) (trace_callback pool) (trace_callback_failures pool).

Definition set_priority pool (handle : Z) (priority : ResourcePriority) : Outcome (ResourcePool callback) :=
  _ ← stored pool handle;
  match priority with
  | High =>
      if next_high_priority pool =? U63_MAX
      then Throw (overflow_error "UVM resource high-priority order exhausted")
      else mret (update (with_priorities pool (next_high_priority pool + 1) (next_low_priority pool)) handle
                   (with_priority (next_high_priority pool + 1)))
  | Low =>
      if next_low_priority pool =? I64_MIN
      then Throw (overflow_error "UVM resource low-priority order exhausted")
      else mret (update (with_priorities pool (next_high_priority pool) (next_low_priority pool - 1)) handle
                   (with_priority (next_low_priority pool - 1)))
  end.

Definition set_read_only pool (handle : Z) (b : bool) : Outcome (ResourcePool callback) :=
  _ ← stored pool handle;
  mret (update pool handle (fun r => mkResource (resource_handle r) (resource_name r) (scope_pattern r) (resource_type r)
    (resource_value r) (precedence r) (priority_order r) b (auditing r) (registration_order r)
    (revision r) (read_count r) (write_count r))).
Definition set_auditing pool (handle : Z) (b : bool) : Outcome (ResourcePool callback) :=
  _ ← stored pool handle;
  mret (update pool handle (fun r => mkResource (resource_handle r) (resource_name r) (scope_pattern r) (resource_type r)
    (resource_value r) (precedence r) (priority_order r) (read_only r) b (registration_order r)
    (revision r) (read_count r) (write_count r))).

(** ** Lookup *)

(** The handles in the order of the map. *)
Definition handles_of pool : list Z := merge_sort Z.le (elements (dom (resources pool))).

(** [resources_.at(handle).resource] *)
Definition resource_at pool (handle : Z) : option Resource := fst <$> resources pool !! handle.

(** The comparison of the sort: [left] goes no later than [right]. *)
Definition rank (r : Resource) : Z * Z * Z := (- precedence r, - priority_order r, registration_order r).
Definition rank_le (x y : Z * Z * Z) : Prop :=
  let '(p1, q1, r1) := x in let '(p2, q2, r2) := y in
  p1 < p2 \/ (p1 = p2 /\ (q1 < q2 \/ (q1 = q2 /\ r1 <= r2))).
#[global] Instance rank_le_dec x y : Decision (rank_le x y).
Proof. destruct x as [[p1 q1] r1], y as [[p2 q2] r2]. unfold rank_le. solve_decision. Defined.

Definition ranked_before (x y : Resource) : Prop := rank_le (rank x) (rank y).
#[global] Instance ranked_before_dec x y : Decision (ranked_before x y).
Proof. unfold ranked_before. apply _. Defined.

(** The matching resources in the order of the map, sorted by rank. *)
Definition select pool (matching : Resource -> bool) : list Resource :=
  filter (fun r => matching r = true) (omap (resource_at pool) (handles_of pool)).
Definition ordered_select pool (matching : Resource -> bool) : Outcome (list Resource) :=
  if size (select pool matching) >? max_lookup_results limits
  then Throw (length_error "UVM resource lookup result budget exceeded")
  else Ok (merge_sort ranked_before (select pool matching)).

Definition front_handle (result : list Z) : Z := match result with h :: _ => h | [] => 0 end.

Definition matches_name (scope name : list ascii) (type : option (list ascii)) (r : Resource) : bool :=
  bool_decide (resource_name r = name) && glob_match (scope_pattern r) scope
  && match type with Some t => bool_decide (type_identity (resource_type r) = t) | None => true end.

Definition lookup_name pool (scope name : list ascii) (type : option (list ascii))
    : Outcome (list Z * ResourcePool callback) :=
  _ ← validate_lookup scope name;
  if match type with Some t => size t >? max_type_identity_bytes limits | None => false end
  then Throw (length_error "UVM resource type identity exceeds its budget")
  else
    found ← ordered_select pool (matches_name scope name type);
    let result := resource_handle <$> found in
    mret (result, append_trace pool (fun sequence =>
      mkTraceRecord sequence TraceLookupName scope name (default [] type) [] (front_handle result) (size result)
        (negb (bool_decide (result = []))))).

Definition get_by_name pool (scope name : list ascii) (type : option (list ascii))
    : Outcome (Z * ResourcePool callback) :=
  '(result, pool) ← lookup_name pool scope name type; mret (front_handle result, pool).

Definition matches_type (scope type : list ascii) (r : Resource) : bool :=
  bool_decide (type_identity (resource_type r) = type) && glob_match (scope_pattern r) scope.

Definition lookup_type pool (scope type : list ascii) : Outcome (list Z * ResourcePool callback) :=
  _ ← validate_lookup scope [];
  if size type >? max_type_identity_bytes limits
  then Throw (length_error "UVM resource type identity exceeds its budget")
  else
    found ← ordered_select pool (matches_type scope type);
    let result := resource_handle <$> found in
    mret (result, append_trace pool (fun sequence =>
      mkTraceRecord sequence TraceLookupType scope [] type [] (front_handle result) (size result)
        (negb (bool_decide (result = []))))).

Definition get_by_type pool (scope type : list ascii) : Outcome (Z * ResourcePool callback) :=
  '(result, pool) ← lookup_type pool scope type; mret (front_handle result, pool).

(** ** Reading and writing *)

Definition count_read (r : Resource) : Resource :=
  mkResource (resource_handle r) (resource_name r) (scope_pattern r) (resource_type r)
    (resource_value r) (precedence r) (priority_order r) (read_only r) (auditing r) (registration_order r)
    (revision r) (wrap64 (read_count r + 1)) (write_count r).

Definition read pool (handle : Z) (accessor : list ascii) : Outcome (ResourceValue * ResourcePool callback) :=
  if size accessor >? max_accessor_bytes limits then Throw (length_error "UVM resource accessor exceeds its byte budget")
  else
    '(r, _) ← stored pool handle;
    _ ← validate_value (resource_type r) (resource_value r);
    pool ← notify pool handle PreRead accessor;
    '(r, _) ← stored pool handle;
    let value := resource_value r in
    let pool := update pool handle count_read in
    let r := count_read r in
    let pool := if auditing r then append_audit pool r AuditRead accessor true else pool in
    pool ← notify pool handle PostRead accessor;
    mret (value, append_trace pool (fun sequence =>
      mkTraceRecord sequence TraceRead (scope_pattern r) (resource_name r) (type_identity (resource_type r)) accessor
        handle 1 true)).

Definition write_trace (r : Resource) (accessor : list ascii) (handle : Z) (success : bool) (sequence : Z) : TraceRecord :=
  mkTraceRecord sequence TraceWrite (scope_pattern r) (resource_name r) (type_identity (resource_type r)) accessor
    handle 1 success.

(** A write to a read-only resource is audited, traced and refused. *)
Definition reject_write pool (r : Resource) (handle : Z) (accessor : list ascii) : ResourcePool callback :=
  let pool := if auditing r then append_audit pool r AuditRejectedWrite accessor false else pool in
  append_trace pool (write_trace r accessor handle false).

Definition store_value (value : ResourceValue) (r : Resource) : Resource :=
  mkResource (resource_handle r) (resource_name r) (scope_pattern r) (resource_type r)
    value (precedence r) (priority_order r) (read_only r) (auditing r) (registration_order r)
    (wrap64 (revision r + 1)) (read_count r) (wrap64 (write_count r + 1)).

Definition write pool (handle : Z) (value : ResourceValue) (accessor : list ascii)
    : Outcome (bool * ResourcePool callback) :=
  if size accessor >? max_accessor_bytes limits then Throw (length_error "UVM resource accessor exceeds its byte budget")
  else
    '(initial, _) ← stored pool handle;
    _ ← validate_value (resource_type initial) value;
    if read_only initial then mret (false, reject_write pool initial handle accessor)
    else
      pool ← notify pool handle PreWrite accessor;
      '(r, _) ← stored pool handle;
      if read_only r then mret (false, reject_write pool r handle accessor)
      else
        _ ← validate_value (resource_type r) value;
        let pool := update pool handle (store_value value) in
        let r := store_value value r in
        let pool := if auditing r then append_audit pool r AuditWrite accessor true else pool in
        pool ← notify pool handle PostWrite accessor;
        mret (true, append_trace pool (write_trace r accessor handle true)).

(** ** Callbacks *)

Definition add_callback pool (handle : Z) (cb : callback) : Outcome (Z * ResourcePool callback) :=
  '(r, callbacks) ← stored pool handle;
  if size callbacks >=? max_callbacks_per_resource limits
  then Throw (length_error "UVM resource callback budget exceeded")
  else if (next_callback_token pool =? 0) || (next_callback_token pool =? U64_MAX)
  then Throw (overflow_error "UVM resource callback tokens exhausted")
  else
    let token := next_callback_token pool in
    mret (token,
      mkResourcePool (<[handle := (r, callbacks ++ [(token, cb)])]> (resources pool)) (next_handle pool)
        (next_registration_order pool) (next_high_priority pool) (next_low_priority pool) (token + 1)
        (audit_records pool) (next_audit_sequence pool) (dropped_audit_records pool) (trace_enabled pool)
        (trace_records pool) (next_trace_sequence pool) (dropped_trace_records pool) (trace_callback pool) (trace_callback_failures pool)).

(** Erases the first callback with the token. *)
Fixpoint drop_token (token : Z) (callbacks : list (Z * callback)) : option (list (Z * callback)) :=
  match callbacks with
  | [] => None
  | entry :: rest => if fst entry =? token then Some rest else (cons entry) <$> drop_token token rest
  end.
Definition remove_callback pool (handle token : Z) : bool * ResourcePool callback :=
  match resources pool !! handle with
  | None => (false, pool)
  | Some (r, callbacks) =>
      match drop_token token callbacks with
      | None => (false, pool)
      | Some rest => (true, with_resources pool (<[handle := (r, rest)]> (resources pool)))
      end
  end.

(** ** Spelling suggestions *)

(** [std::string] order. *)
Fixpoint text_leb (x y : list ascii) : bool :=
  match x, y with
  | [], _ => true
  | _ :: _, [] => false
  | a :: x, b :: y =>
      if (N_of_ascii a <? N_of_ascii b)%N then true
      else if (N_of_ascii b <? N_of_ascii a)%N then false else text_leb x y
  end.
Definition spell_le (x y : nat * list ascii) : Prop :=
  (fst x < fst y)%nat \/ (fst x = fst y /\ text_leb (snd x) (snd y) = true).
#[global] Instance spell_le_dec x y : Decision (spell_le x y).
Proof. unfold spell_le. apply _. Defined.

Definition spell_check pool (name : list ascii) (maximum_distance : Z) : Outcome (list (list ascii)) :=
  if size name >? max_name_bytes limits then Throw (length_error "UVM resource spelling input exceeds its budget")
  else if maximum_distance >? max_spell_distance limits
  then Throw (length_error "UVM resource spelling distance exceeds its budget")
  else
    let names := remove_dups (resource_name <$> omap (resource_at pool) (handles_of pool)) in
    let near := filter (fun n => Z.of_nat (edit_distance name n) <= maximum_distance) names in
    let ordered := merge_sort spell_le ((fun n => (edit_distance name n, n)) <$> near) in
    Ok (snd <$> take (Z.to_nat (max_spell_candidates limits)) ordered).
End pool.
