(* ===== verification/UvmResourceTheorems.v ===== *)
(** * What the UVM resource pool promises

    The invariant of the pool and that every operation keeps it; the lookup
    order; reads after writes; handles that are never reused. *)
From stdpp Require Import gmap sorting.
From S2P Require Import Prelude Logic WordSpan LogicWord PackedLogic4 GlobMatch UvmResource.

(** ** Invariant *)

(** The value is of the declared type. *)
Definition value_matches (type : ResourceType) (value : ResourceValue) : Prop :=
  match type_kind type, value with
  | KindPacked, PackedValue v => width v = packed_width type
  | KindReal, RealValue _ => True
  | KindString, StringValue _ => True
  | KindObject, ObjectValue _ => True
  | _, _ => False
  end.

Section pool.
Context {callback : Type} (limits : ResourceLimits) (heap : option (Z -> bool)).
Context (throws : callback -> CallbackEvent -> Resource -> bool).
Implicit Types pool : ResourcePool callback.

Record resource_ok (pool : ResourcePool callback) (h : Z) (r : Resource) : Prop := {
  resource_handle_ok : resource_handle r = h;
  resource_handle_range : 1 <= h < next_handle pool;
  resource_order_ok : registration_order r = h - 1;
  resource_value_ok : value_matches (resource_type r) (resource_value r);
}.

Record pool_ok (pool : ResourcePool callback) : Prop := {
  pool_resources_ok : forall h r cbs, resources pool !! h = Some (r, cbs) -> resource_ok pool h r;
  pool_next_handle : 1 <= next_handle pool <= U64_MAX;
  pool_next_order : next_registration_order pool = next_handle pool - 1;
  pool_audit_bound : size (audit_records pool) <= max_audit_records limits;
  pool_trace_bound : size (trace_records pool) <= max_trace_records limits;
}.

Lemma validate_value_matches type value : validate_value limits heap type value = Ok () -> value_matches type value.
Proof.
  unfold validate_value, value_matches. destruct (type_kind type), value; try done;
    [destruct (Z.eqb_spec (width v) (packed_width type)); done|destruct heap; done..].
Qed.

(** What the logs do to the rest of the pool: nothing. *)
Definition logged (pool pool' : ResourcePool callback) : Prop :=
  resources pool' = resources pool /\ next_handle pool' = next_handle pool /\
  next_registration_order pool' = next_registration_order pool /\
  next_high_priority pool' = next_high_priority pool /\ next_low_priority pool' = next_low_priority pool /\
  (size (audit_records pool) <= max_audit_records limits -> size (audit_records pool') <= max_audit_records limits) /\
  (size (trace_records pool) <= max_trace_records limits -> size (trace_records pool') <= max_trace_records limits).

Lemma logged_refl pool : logged pool pool.
Proof. by unfold logged. Qed.
Lemma logged_trans p1 p2 p3 : logged p1 p2 -> logged p2 p3 -> logged p1 p3.
Proof.
  intros (A1 & A2 & A3 & A4 & A5 & A6 & A7) (B1 & B2 & B3 & B4 & B5 & B6 & B7).
  unfold logged. split_and!; [congruence..|tauto|tauto].
Qed.

Lemma size_push_bounded {A} (l : list A) (x : A) (bound : Z) : bound <> 0 -> size l <= bound ->
  size ((if size l =? bound then tail l else l) ++ [x]) <= bound.
Proof.
  intros Hb Hl. pose proof (size_nonneg l). rewrite size_app. change (size [x]) with 1.
  destruct (Z.eqb_spec (size l) bound); [|lia]. destruct l; unfold size in *; simpl in *; lia.
Qed.

Lemma append_audit_logged pool r action accessor success : logged pool (append_audit limits pool r action accessor success).
Proof.
  unfold append_audit. destruct (Z.eqb_spec (max_audit_records limits) 0); cbv zeta; unfold logged; simpl; [done|].
  split_and!; try done. intros H. by apply size_push_bounded.
Qed.

Lemma append_trace_logged pool make : max_trace_records limits <> 0 -> logged pool (append_trace limits pool make).
Proof.
  intros H0. unfold append_trace. destruct (trace_enabled pool); simpl; [|apply logged_refl]. unfold logged; simpl.
  split_and!; try done. intros H. by apply size_push_bounded.
Qed.

Lemma notify_one_logged event accessor r pool entry : logged pool (notify_one limits throws event accessor r pool entry).
Proof. unfold notify_one. destruct (throws _ _ _); [apply append_audit_logged|apply logged_refl]. Qed.

Lemma notify_all_logged event accessor r cbs : forall pool, logged pool (foldl (notify_one limits throws event accessor r) pool cbs).
Proof.
  induction cbs as [|cb cbs IH]; intros pool; simpl; [apply logged_refl|].
  eapply logged_trans; [apply notify_one_logged|apply IH].
Qed.

Lemma stored_Some pool handle s : stored pool handle = Ok s <-> resources pool !! handle = Some s.
Proof. unfold stored. destruct (resources pool !! handle); split; intros H; simplify_eq; done. Qed.

Lemma notify_spec pool handle event accessor r cbs : resources pool !! handle = Some (r, cbs) ->
  exists pool', notify limits throws pool handle event accessor = Ok pool' /\ logged pool pool'.
Proof.
  intros H%stored_Some. unfold notify. rewrite H. simpl. eexists. split; [done|]. apply notify_all_logged.
Qed.

Lemma logged_ok pool pool' : pool_ok pool -> logged pool pool' -> pool_ok pool'.
Proof.
  intros [H1 H2 H3 H4 H5] (E1 & E2 & E3 & _ & _ & E6 & E7). split; rewrite ?E2, ?E3; try tauto.
  intros h r cbs. rewrite E1. intros [A B C D]%H1. split; try done. by rewrite E2.
Qed.

(** Changing a resource without its handle and age, to a value of its type. *)
Lemma update_ok pool handle f r cbs : pool_ok pool -> resources pool !! handle = Some (r, cbs) ->
  resource_handle (f r) = resource_handle r -> registration_order (f r) = registration_order r ->
  value_matches (resource_type (f r)) (resource_value (f r)) -> pool_ok (update pool handle f).
Proof.
  intros Hok Hr Eh Eo Hv. pose proof (pool_resources_ok _ Hok _ _ _ Hr) as [A B C D]. destruct Hok as [H1 H2 H3 H4 H5].
  split; simpl; try done. intros h r' cbs' E. destruct (decide (h = handle)) as [->|Hne].
  - rewrite lookup_alter_eq, Hr in E. simpl in E. simplify_eq. split; simpl; try done; congruence.
  - rewrite lookup_alter_ne in E by done. apply H1 in E as [? ? ? ?]. by split.
Qed.

Lemma update_lookup pool handle f r cbs : resources pool !! handle = Some (r, cbs) ->
  resources (update pool handle f) !! handle = Some (f r, cbs).
Proof. intros H. simpl. by rewrite lookup_alter_eq, H. Qed.

Lemma update_resources pool handle f r cbs : resources pool !! handle = Some (r, cbs) ->
  resources (update pool handle f) = <[handle := (f r, cbs)]> (resources pool).
Proof.
  intros Es. simpl. apply map_eq. intros h.
  destruct (decide (h = handle)) as [->|Hne]; [by rewrite lookup_alter_eq, Es, lookup_insert_eq|].
  by rewrite lookup_alter_ne, lookup_insert_ne.
Qed.

Lemma update_lookup_ne pool handle f h : h <> handle -> resources (update pool handle f) !! h = resources pool !! h.
Proof. intros H. simpl. by rewrite lookup_alter_ne. Qed.

Hypothesis trace_room : max_trace_records limits <> 0.

Lemma insert_spec pool d h pool' : pool_ok pool -> insert limits heap pool d = Ok (h, pool') ->
  pool_ok pool' /\ h = next_handle pool /\ next_handle pool' = h + 1 /\ resources pool !! h = None /\
  exists r, resources pool' = <[h := (r, [])]> (resources pool) /\
    resource_name r = descriptor_name d /\ scope_pattern r = descriptor_scope d /\ resource_type r = descriptor_type d /\
    resource_value r = descriptor_value d /\ precedence r = descriptor_precedence d /\ priority_order r = 0 /\
    read_only r = descriptor_read_only d /\ validate_value limits heap (resource_type r) (resource_value r) = Ok ().
Proof.
  intros Hok E. unfold insert in E.
  destruct (validate_descriptor limits heap d) as [[]|] eqn:Ed; simpl in E; [|done].
  assert (validate_value limits heap (descriptor_type d) (descriptor_value d) = Ok ()) as Hval.
  { unfold validate_descriptor in Ed. repeat (destruct (_ >? _); [done|]). by repeat case_match. }
  pose proof (validate_value_matches _ _ Hval) as Hm. destruct (_ >=? _); [done|].
  destruct (Z.eqb_spec (next_handle pool) 0); [done|]. destruct (Z.eqb_spec (next_handle pool) U64_MAX) as [|Hmax]; [done|].
  simpl in E. unfold mret, outcome_ret in E. injection E as <- <-. pose proof Hok as [H1 H2 H3 H4 H5].
  assert (resources pool !! next_handle pool = None) as Hfresh.
  { destruct (resources pool !! next_handle pool) as [[r cbs]|] eqn:E; [|done]. apply H1 in E as [? ? ? ?]. lia. }
  split.
  - split; simpl; [|lia| |done|done].
    + intros h r cbs Eh. destruct (decide (h = next_handle pool)) as [->|Hne].
      * rewrite lookup_insert_eq in Eh. simplify_eq. split; simpl; try done; lia.
      * rewrite lookup_insert_ne in Eh by done. apply H1 in Eh as [? ? ? ?]. split; simpl; try done; lia.
    + unfold wrap64. unfold U64_MAX in *. rewrite Z.mod_small by lia. lia.
  - split_and!; [done..|]. eexists. split; [done|]. split_and!; done.
Qed.

Lemma read_spec pool handle accessor value pool' : pool_ok pool -> read limits heap throws pool handle accessor = Ok (value, pool') ->
  exists r cbs, resources pool !! handle = Some (r, cbs) /\ value = resource_value r /\
    pool_ok pool' /\ next_handle pool' = next_handle pool /\
    resources pool' = <[handle := (count_read r, cbs)]> (resources pool).
Proof.
  intros Hok E. unfold read in E. destruct (_ >? _); [done|].
  destruct (stored pool handle) as [[r cbs]|] eqn:Es; simpl in E; [|done]. apply stored_Some in Es.
  destruct (validate_value limits heap (resource_type r) (resource_value r)) as [[]|]; simpl in E; [|done].
  destruct (notify_spec pool handle PreRead accessor r cbs Es) as (p1 & E1 & L1). rewrite E1 in E. simpl in E.
  pose proof L1 as (R1 & _). assert (resources p1 !! handle = Some (r, cbs)) as Es1 by (by rewrite R1).
  apply stored_Some in Es1 as Es1'. rewrite Es1' in E. simpl in E.
  set (p2 := update p1 handle count_read) in *.
  assert (resources p2 !! handle = Some (count_read r, cbs)) as Es2 by (by apply update_lookup).
  set (p3 := if auditing r then _ else _) in E.
  assert (logged p2 p3) as L3 by (unfold p3; destruct (auditing r); [apply append_audit_logged|apply logged_refl]).
  pose proof L3 as (R3 & N3 & _). assert (resources p3 !! handle = Some (count_read r, cbs)) as Es3 by (by rewrite R3).
  destruct (notify_spec p3 handle PostRead accessor _ _ Es3) as (p4 & E4 & L4). rewrite E4 in E. simpl in E.
  unfold mret, outcome_ret in E. injection E as <- <-. exists r, cbs. split_and!; [done|done| | |].
  - pose proof (pool_resources_ok _ Hok _ _ _ Es) as [? ? ? Hv].
    apply (logged_ok p4); [|by apply append_trace_logged]. apply (logged_ok p3); [|done]. apply (logged_ok p2); [|done].
    apply (update_ok p1 handle count_read r cbs); [by apply (logged_ok pool)|done..].
  - destruct L1 as (_ & N1 & _), L4 as (_ & N4 & _), (append_trace_logged p4 (fun sequence =>
      mkTraceRecord sequence TraceRead (scope_pattern r) (resource_name r) (type_identity (resource_type r)) accessor handle 1 true) trace_room)
      as (_ & N5 & _). rewrite N5, N4, N3. exact N1.
  - destruct L4 as (R4 & _), (append_trace_logged p4 (fun sequence =>
      mkTraceRecord sequence TraceRead (scope_pattern r) (resource_name r) (type_identity (resource_type r)) accessor handle 1 true) trace_room)
      as (R5 & _). rewrite R5, R4, R3. unfold p2. by rewrite (update_resources _ _ _ r cbs), R1.
Qed.

(** A read succeeds when the value is valid and the accessor fits. *)
Lemma read_returns pool handle accessor r cbs : resources pool !! handle = Some (r, cbs) ->
  size accessor <= max_accessor_bytes limits -> validate_value limits heap (resource_type r) (resource_value r) = Ok () ->
  exists pool', read limits heap throws pool handle accessor = Ok (resource_value r, pool').
Proof.
  intros Es Hacc Hval. unfold read. destruct (Z.gtb_spec (size accessor) (max_accessor_bytes limits)); [lia|].
  apply stored_Some in Es as Es'. rewrite Es'. cbn [mbind outcome_bind]. rewrite Hval. cbn [mbind outcome_bind].
  destruct (notify_spec pool handle PreRead accessor r cbs Es) as (p1 & E1 & (R1 & _)). rewrite E1. cbn [mbind outcome_bind].
  assert (resources p1 !! handle = Some (r, cbs)) as Es1 by (by rewrite R1).
  apply stored_Some in Es1 as Es1'. rewrite Es1'. cbn [mbind outcome_bind]. cbv zeta.
  set (p3 := if auditing (count_read r) then _ else _).
  assert (logged (update p1 handle count_read) p3) as (R3 & _)
    by (unfold p3; destruct (auditing _); [apply append_audit_logged|apply logged_refl]).
  assert (resources p3 !! handle = Some (count_read r, cbs)) as Es3 by (rewrite R3; by apply update_lookup).
  destruct (notify_spec p3 handle PostRead accessor _ _ Es3) as (p4 & E4 & _). rewrite E4. by eexists.
Qed.

(** A write to a writable resource stores the value and nothing else; to a
    read-only one it changes only the logs. *)
Lemma reject_write_logged pool r handle accessor : logged pool (reject_write limits pool r handle accessor).
Proof.
  unfold reject_write. eapply logged_trans; [|by apply append_trace_logged].
  destruct (auditing r); [apply append_audit_logged|apply logged_refl].
Qed.

Lemma write_spec pool handle value accessor b pool' : pool_ok pool ->
  write limits heap throws pool handle value accessor = Ok (b, pool') ->
  exists r cbs, resources pool !! handle = Some (r, cbs) /\ b = negb (read_only r) /\ pool_ok pool' /\
    next_handle pool' = next_handle pool /\ validate_value limits heap (resource_type r) value = Ok () /\
    resources pool' = if read_only r then resources pool else <[handle := (store_value value r, cbs)]> (resources pool).
Proof.
  intros Hok E. unfold write in E. destruct (_ >? _); [done|].
  destruct (stored pool handle) as [[r cbs]|] eqn:Es; simpl in E; [|done]. apply stored_Some in Es.
  destruct (validate_value limits heap (resource_type r) value) as [[]|] eqn:Ev; simpl in E; [|done].
  pose proof (validate_value_matches _ _ Ev) as Hm. exists r, cbs. destruct (read_only r) eqn:Ero.
  { unfold mret, outcome_ret in E. injection E as <- <-. pose proof (reject_write_logged pool r handle accessor) as L.
    pose proof L as (R & N & _). split_and!; try done. by apply (logged_ok pool). }
  destruct (notify_spec pool handle PreWrite accessor r cbs Es) as (p1 & E1 & L1). rewrite E1 in E. simpl in E.
  pose proof L1 as (R1 & N1 & _). assert (resources p1 !! handle = Some (r, cbs)) as Es1 by (by rewrite R1).
  apply stored_Some in Es1 as Es1'. rewrite Es1' in E. simpl in E. rewrite Ero, Ev in E. simpl in E.
  set (p2 := update p1 handle (store_value value)) in *.
  assert (resources p2 !! handle = Some (store_value value r, cbs)) as Es2 by (by apply update_lookup).
  set (p3 := if auditing r then _ else _) in E.
  assert (logged p2 p3) as L3 by (unfold p3; destruct (auditing r); [apply append_audit_logged|apply logged_refl]).
  pose proof L3 as (R3 & N3 & _). assert (resources p3 !! handle = Some (store_value value r, cbs)) as Es3 by (by rewrite R3).
  destruct (notify_spec p3 handle PostWrite accessor _ _ Es3) as (p4 & E4 & L4). rewrite E4 in E. simpl in E.
  unfold mret, outcome_ret in E. injection E as <- <-.
  pose proof (append_trace_logged p4 (write_trace (store_value value r) accessor handle true) trace_room) as L5.
  pose proof L4 as (R4 & N4 & _). pose proof L5 as (R5 & N5 & _). split_and!; [done|done| | |done|].
  - apply (logged_ok p4); [|done]. apply (logged_ok p3); [|done]. apply (logged_ok p2); [|done].
    apply (update_ok p1 handle (store_value value) r cbs); [by apply (logged_ok pool)|done..].
  - rewrite N5, N4, N3. exact N1.
  - rewrite R5, R4, R3. unfold p2. by rewrite (update_resources _ _ _ r cbs), R1.
Qed.

(** The attribute setters. *)
Lemma set_precedence_spec pool handle p pool' : pool_ok pool -> set_precedence pool handle p = Ok pool' ->
  pool_ok pool' /\ next_handle pool' = next_handle pool /\ exists r cbs, resources pool !! handle = Some (r, cbs) /\
    resources pool' = <[handle := (with_precedence p r, cbs)]> (resources pool).
Proof.
  intros Hok E. unfold set_precedence in E. destruct (stored pool handle) as [[r cbs]|] eqn:Es; simpl in E; [|done].
  apply stored_Some in Es. injection E as <-. pose proof (pool_resources_ok _ Hok _ _ _ Es) as [? ? ? Hv]. split.
  - by apply (update_ok pool handle _ r cbs).
  - split; [done|]. exists r, cbs. split; [done|]. by apply update_resources.
Qed.

Lemma set_priority_spec pool handle priority pool' : pool_ok pool -> set_priority pool handle priority = Ok pool' ->
  pool_ok pool' /\ next_handle pool' = next_handle pool /\ exists r cbs, resources pool !! handle = Some (r, cbs) /\
    resources pool' = <[handle := (with_priority
      (match priority with High => next_high_priority pool + 1 | Low => next_low_priority pool - 1 end) r, cbs)]> (resources pool).
Proof.
  intros Hok E. unfold set_priority in E. destruct (stored pool handle) as [[r cbs]|] eqn:Es; simpl in E; [|done].
  apply stored_Some in Es. pose proof (pool_resources_ok _ Hok _ _ _ Es) as [? ? ? Hv].
  assert (forall p high low, pool_ok (update (with_priorities pool high low) handle (with_priority p))) as Hu.
  { intros p high low. apply (update_ok _ handle _ r cbs); [|done..]. destruct Hok as [H1 H2 H3 H4 H5].
    split; simpl; try done. intros h' r' cbs' [? ? ? ?]%H1. by split. }
  assert (forall p high low, resources (update (with_priorities pool high low) handle (with_priority p))
    = <[handle := (with_priority p r, cbs)]> (resources pool)) as Hr.
  { intros p high low. by apply (update_resources (with_priorities pool high low)). }
  destruct priority; (destruct (_ =? _); [done|]); injection E as <-; (split; [apply Hu|split; [done|]]);
    exists r, cbs; split; try done; apply Hr.
Qed.

Lemma erase_spec pool handle b pool' : pool_ok pool -> erase pool handle = (b, pool') ->
  pool_ok pool' /\ resources pool' = delete handle (resources pool) /\ next_handle pool' = next_handle pool.
Proof.
  intros [H1 H2 H3 H4 H5] E. injection E as <- <-. split; [|done]. split; simpl; try done.
  intros h r cbs [_ [? ? ? ?]%H1]%lookup_delete_Some. by split.
Qed.

(** ** Every operation *)

Inductive pool_step (pool : ResourcePool callback) : ResourcePool callback -> Prop :=
  | step_insert d h p : insert limits heap pool d = Ok (h, p) -> pool_step pool p
  | step_erase h b p : erase pool h = (b, p) -> pool_step pool p
  | step_set_scope h s p : set_scope limits pool h s = Ok p -> pool_step pool p
  | step_set_precedence h n p : set_precedence pool h n = Ok p -> pool_step pool p
  | step_set_priority h n p : set_priority pool h n = Ok p -> pool_step pool p
  | step_set_read_only h b p : set_read_only pool h b = Ok p -> pool_step pool p
  | step_set_auditing h b p : set_auditing pool h b = Ok p -> pool_step pool p
  | step_lookup_name s n t l p : lookup_name limits pool s n t = Ok (l, p) -> pool_step pool p
  | step_lookup_type s t l p : lookup_type limits pool s t = Ok (l, p) -> pool_step pool p
  | step_read h a v p : read limits heap throws pool h a = Ok (v, p) -> pool_step pool p
  | step_write h v a b p : write limits heap throws pool h v a = Ok (b, p) -> pool_step pool p
  | step_add_callback h cb t p : add_callback limits pool h cb = Ok (t, p) -> pool_step pool p
  | step_remove_callback h t b p : remove_callback pool h t = (b, p) -> pool_step pool p
  | step_set_trace b : pool_step pool (set_trace_enabled pool b)
  | step_set_trace_callback cb : pool_step pool (set_trace_callback pool cb).

(** Which handles a step may bring to life: only the next one. *)
Definition keeps_handles (pool pool' : ResourcePool callback) : Prop :=
  next_handle pool <= next_handle pool' /\
  forall h, h < next_handle pool -> resources pool !! h = None -> resources pool' !! h = None.

Lemma keeps_handles_same pool pool' : next_handle pool' = next_handle pool ->
  (forall h, resources pool !! h = None -> resources pool' !! h = None) -> keeps_handles pool pool'.
Proof. intros E H. split; [lia|]. intros h _. apply H. Qed.

Lemma setter_ok pool handle f p : pool_ok pool ->
  (forall r, resource_handle (f r) = resource_handle r /\ registration_order (f r) = registration_order r /\
     resource_type (f r) = resource_type r /\ resource_value (f r) = resource_value r) ->
  (_ ← stored pool handle; Ok (update pool handle f)) = Ok p -> pool_ok p /\ keeps_handles pool p.
Proof.
  intros Hok Hf E. destruct (stored pool handle) as [[r cbs]|] eqn:Es; simpl in E; [|done]. apply stored_Some in Es.
  injection E as <-. destruct (Hf r) as (E1 & E2 & E3 & E4). split.
  - apply (update_ok _ handle f r cbs); try done. rewrite E3, E4. apply (pool_resources_ok _ Hok _ _ _ Es).
  - apply keeps_handles_same; [done|]. intros h Hh. simpl. destruct (decide (h = handle)) as [->|]; [congruence|].
    by rewrite lookup_alter_ne.
Qed.

Lemma keeps_handles_insert pool p handle s s' : resources pool !! handle = Some s -> next_handle p = next_handle pool ->
  resources p = <[handle := s']> (resources pool) -> keeps_handles pool p.
Proof.
  intros Hs En Er. apply keeps_handles_same; [done|]. intros h Hh. rewrite Er.
  rewrite lookup_insert_ne; [done|]. intros ->. congruence.
Qed.

Lemma lookup_name_logged pool s n t l p : lookup_name limits pool s n t = Ok (l, p) -> logged pool p.
Proof.
  unfold lookup_name. destruct (validate_lookup limits s n); simpl; [|done]. destruct (match t with Some _ => _ | None => _ end); [done|].
  destruct (ordered_select limits pool (matches_name s n t)); simpl; [|done]. intros E. injection E as <- <-.
  by apply append_trace_logged.
Qed.
Lemma lookup_type_logged pool s t l p : lookup_type limits pool s t = Ok (l, p) -> logged pool p.
Proof.
  unfold lookup_type. destruct (validate_lookup limits s []); simpl; [|done]. destruct (_ >? _); [done|].
  destruct (ordered_select limits pool (matches_type s t)); simpl; [|done]. intros E. injection E as <- <-.
  by apply append_trace_logged.
Qed.

Lemma logged_keeps pool p : pool_ok pool -> logged pool p -> pool_ok p /\ keeps_handles pool p.
Proof.
  intros Hok L. split; [by apply (logged_ok pool)|]. destruct L as (R & N & _). apply keeps_handles_same; [done|].
  intros h. by rewrite R.
Qed.

(** Replacing a resource's callbacks. *)
Lemma callbacks_ok pool p handle r cbs cbs' : pool_ok pool -> resources pool !! handle = Some (r, cbs) ->
  resources p = <[handle := (r, cbs')]> (resources pool) -> next_handle p = next_handle pool ->
  next_registration_order p = next_registration_order pool -> audit_records p = audit_records pool ->
  trace_records p = trace_records pool -> pool_ok p /\ keeps_handles pool p.
Proof.
  intros Hok Hr Er En Eo Ea Et. split; [|by eapply keeps_handles_insert].
  pose proof (pool_resources_ok _ Hok _ _ _ Hr) as [? ? ? ?]. destruct Hok as [H1 H2 H3 H4 H5].
  split; rewrite ?En, ?Eo, ?Ea, ?Et; try done. intros h r' c'. rewrite Er. intros E.
  destruct (decide (h = handle)) as [->|Hne].
  - rewrite lookup_insert_eq in E. simplify_eq. split; try done. by rewrite En.
  - rewrite lookup_insert_ne in E by done. apply H1 in E as [? ? ? ?]. split; try done. by rewrite En.
Qed.

Lemma pool_step_ok pool p : pool_ok pool -> pool_step pool p -> pool_ok p /\ keeps_handles pool p.
Proof.
  intros Hok Hstep. destruct Hstep as [d h p E|h b p E|h s p E|h n p E|h n p E|h b p E|h b p E|s n t l p E|s t l p E
    |h a v p E|h v a b p E|h cb t p E|h t b p E|b|cb].
  - destruct (insert_spec _ _ _ _ Hok E) as (Hp & -> & En & Hf & r & Er & _). split; [done|]. split; [lia|].
    intros h Hh Hn. rewrite Er, lookup_insert_ne by lia. done.
  - destruct (erase_spec _ _ _ _ Hok E) as (Hp & Er & En). split; [done|]. apply keeps_handles_same; [done|].
    intros h' Hh'. rewrite Er. by apply lookup_delete_None; right.
  - unfold set_scope in E. destruct (_ >? _); [done|]. eapply setter_ok; [done| |exact E]; done.
  - eapply setter_ok; [done| |exact E]; done.
  - destruct (set_priority_spec _ _ _ _ Hok E) as (Hp & En & r & cbs & Hs & Er). split; [done|]. by eapply keeps_handles_insert.
  - eapply setter_ok; [done| |exact E]; done.
  - eapply setter_ok; [done| |exact E]; done.
  - by eapply logged_keeps, lookup_name_logged.
  - by eapply logged_keeps, lookup_type_logged.
  - destruct (read_spec _ _ _ _ _ Hok E) as (r & cbs & Hs & _ & Hp & En & Er). split; [done|]. by eapply keeps_handles_insert.
  - destruct (write_spec _ _ _ _ _ _ Hok E) as (r & cbs & Hs & _ & Hp & En & _ & Er). split; [done|].
    destruct (read_only r); [|by eapply keeps_handles_insert]. apply keeps_handles_same; [done|]. intros h'. by rewrite Er.
  - unfold add_callback in E. destruct (stored pool h) as [[r cbs]|] eqn:Es; simpl in E; [|done]. apply stored_Some in Es.
    destruct (_ >=? _); [done|]. destruct (_ || _); [done|]. injection E as <- <-. by eapply callbacks_ok.
  - unfold remove_callback in E. destruct (resources pool !! h) as [[r cbs]|] eqn:Es; [|simplify_eq; by apply logged_keeps, logged_refl].
    destruct (drop_token t cbs); [|simplify_eq; by apply logged_keeps, logged_refl]. injection E as <- <-. by eapply callbacks_ok.
  - apply logged_keeps; [done|]. by unfold logged.
  - apply logged_keeps; [done|]. by unfold logged.
Qed.

(** A resource keeps its type as long as it exists. *)
Definition keeps_types (pool pool' : ResourcePool callback) : Prop :=
  forall h r cbs r' cbs', resources pool !! h = Some (r, cbs) -> resources pool' !! h = Some (r', cbs') ->
    resource_type r' = resource_type r.

Lemma keeps_types_insert pool p handle r cbs r' cbs' : resources pool !! handle = Some (r, cbs) ->
  resources p = <[handle := (r', cbs')]> (resources pool) -> resource_type r' = resource_type r -> keeps_types pool p.
Proof.
  intros Hr Er Et h r1 c1 r2 c2 H1 H2. rewrite Er in H2. destruct (decide (h = handle)) as [->|].
  - rewrite lookup_insert_eq in H2. congruence.
  - rewrite lookup_insert_ne in H2 by done. congruence.
Qed.

Lemma setter_types pool handle f p : (forall r, resource_type (f r) = resource_type r) ->
  (_ ← stored pool handle; Ok (update pool handle f)) = Ok p -> keeps_types pool p.
Proof.
  intros Hf E. destruct (stored pool handle) as [[r cbs]|] eqn:Es; simpl in E; [|done]. apply stored_Some in Es.
  injection E as <-. eapply keeps_types_insert; [exact Es|by apply update_resources|done].
Qed.

Lemma logged_types pool p : logged pool p -> keeps_types pool p.
Proof. intros (R & _) h r c r' c' H1 H2. rewrite R in H2. congruence. Qed.

Lemma pool_step_types pool p : pool_ok pool -> pool_step pool p -> keeps_types pool p.
Proof.
  intros Hok Hstep. destruct Hstep as [d h p E|h b p E|h s p E|h n p E|h n p E|h b p E|h b p E|s n t l p E|s t l p E
    |h a v p E|h v a b p E|h cb t p E|h t b p E|b|cb].
  - destruct (insert_spec _ _ _ _ Hok E) as (_ & -> & _ & Hf & r & Er & _). intros h r1 c1 r2 c2 H1 H2.
    rewrite Er, lookup_insert_ne in H2 by congruence. congruence.
  - destruct (erase_spec _ _ _ _ Hok E) as (_ & Er & _). intros h' r1 c1 r2 c2 H1 H2.
    rewrite Er in H2. apply lookup_delete_Some in H2 as [_ H2]. congruence.
  - unfold set_scope in E. destruct (_ >? _); [done|]. by eapply setter_types; [|exact E].
  - by eapply setter_types; [|exact E].
  - destruct (set_priority_spec _ _ _ _ Hok E) as (_ & _ & r & cbs & Hs & Er). by eapply keeps_types_insert.
  - by eapply setter_types; [|exact E].
  - by eapply setter_types; [|exact E].
  - by eapply logged_types, lookup_name_logged.
  - by eapply logged_types, lookup_type_logged.
  - destruct (read_spec _ _ _ _ _ Hok E) as (r & cbs & Hs & _ & _ & _ & Er). by eapply keeps_types_insert.
  - destruct (write_spec _ _ _ _ _ _ Hok E) as (r & cbs & Hs & _ & _ & _ & _ & Er).
    destruct (read_only r); [|by eapply keeps_types_insert]. intros h' r1 c1 r2 c2 H1 H2. rewrite Er in H2. congruence.
  - unfold add_callback in E. destruct (stored pool h) as [[r cbs]|] eqn:Es; simpl in E; [|done]. apply stored_Some in Es.
    destruct (_ >=? _); [done|]. destruct (_ || _); [done|]. injection E as <- <-. by eapply keeps_types_insert.
  - unfold remove_callback in E. destruct (resources pool !! h) as [[r cbs]|] eqn:Es; [|simplify_eq; by apply logged_types, logged_refl].
    destruct (drop_token t cbs); [|simplify_eq; by apply logged_types, logged_refl]. injection E as <- <-.
    by eapply keeps_types_insert.
  - apply logged_types. by unfold logged.
  - apply logged_types. by unfold logged.
Qed.

Lemma empty_pool_ok : 0 <= max_audit_records limits -> 0 <= max_trace_records limits -> pool_ok empty_pool.
Proof. intros Ha Ht. split; simpl; [|unfold U64_MAX; lia|done|done|done]. intros h r cbs E. by rewrite lookup_empty in E. Qed.

(** ** Lookup *)

#[local] Instance ranked_before_total : Total ranked_before.
Proof. intros x y. unfold ranked_before, rank, rank_le. lia. Qed.
#[local] Instance ranked_before_trans : Transitive ranked_before.
Proof. intros x y z. unfold ranked_before, rank, rank_le. lia. Qed.

Lemma elem_of_select pool matching r : r ∈ select pool matching <->
  matching r = true /\ exists h, resource_at pool h = Some r.
Proof.
  unfold select. rewrite list_elem_of_filter, list_elem_of_omap. f_equiv. split.
  - intros (h & _ & E). by exists h.
  - intros (h & E). exists h. split; [|done]. unfold handles_of. rewrite merge_sort_Permutation, elem_of_elements, elem_of_dom.
    unfold resource_at in E. destruct (resources pool !! h); [by eexists|done].
Qed.

Lemma resource_at_handle pool h r : pool_ok pool -> resource_at pool h = Some r -> resource_handle r = h.
Proof.
  intros Hok E. unfold resource_at in E. destruct (resources pool !! h) as [[r' cbs]|] eqn:Es; [|done].
  simpl in E. simplify_eq. by apply (pool_resources_ok _ Hok) in Es as [? ? ? ?].
Qed.

Lemma NoDup_select pool matching : pool_ok pool -> NoDup (resource_handle <$> select pool matching).
Proof.
  intros Hok. assert (forall hs, NoDup hs -> NoDup (resource_handle <$> filter (fun r => matching r = true) (omap (resource_at pool) hs)) /\
    forall h, h ∈ resource_handle <$> filter (fun r => matching r = true) (omap (resource_at pool) hs) -> h ∈ hs) as H.
  { intros hs. induction hs as [|h hs IH]; intros Hnd; [split; [constructor|by intros ? ?%not_elem_of_nil]|].
    apply NoDup_cons in Hnd as [Hh Hnd]. destruct (IH Hnd) as [IH1 IH2]. csimpl.
    destruct (resource_at pool h) as [r|] eqn:Er; csimpl; [|split; [done|intros; right; auto]].
    rewrite filter_cons. destruct (decide (matching r = true)); csimpl; [|split; [done|intros; right; auto]].
    rewrite (resource_at_handle _ _ _ Hok Er). split; [constructor; [by intros ?%IH2|done]|].
    intros h' [->|H]%elem_of_cons; [left|right; auto]. }
  unfold select. apply H. unfold handles_of. rewrite merge_sort_Permutation. apply NoDup_elements.
Qed.

(** The handles a lookup reports: exactly the matching resources, each once,
    best first. *)
Record lookup_result (pool : ResourcePool callback) (matching : Resource -> bool) (l : list Z) : Prop := {
  lookup_exact : forall h, h ∈ l <-> exists r, resource_at pool h = Some r /\ matching r = true;
  lookup_nodup : NoDup l;
  lookup_sorted : forall i j h1 h2 r1 r2, (i < j)%nat -> l !! i = Some h1 -> l !! j = Some h2 ->
    resource_at pool h1 = Some r1 -> resource_at pool h2 = Some r2 -> ranked_before r1 r2;
}.

Lemma StronglySorted_lookup {A} (R : A -> A -> Prop) l i j x y : StronglySorted R l -> (i < j)%nat ->
  l !! i = Some x -> l !! j = Some y -> R x y.
Proof.
  intros Hs. revert i j. induction Hs as [|a l Hs IH Hall]; intros i j Hij Hi Hj; [done|].
  destruct j as [|j]; [lia|]. destruct i as [|i]; simpl in *; [|by apply (IH i j); [lia|..]].
  simplify_eq. rewrite Forall_forall in Hall. apply Hall. by eapply list_elem_of_lookup_2.
Qed.

Lemma ordered_select_spec pool matching : pool_ok pool -> size (select pool matching) <= max_lookup_results limits ->
  exists found, ordered_select limits pool matching = Ok found /\ lookup_result pool matching (resource_handle <$> found).
Proof.
  intros Hok Hmax. unfold ordered_select. destruct (Z.gtb_spec (size (select pool matching)) (max_lookup_results limits)); [lia|].
  eexists. split; [done|]. set (found := merge_sort ranked_before (select pool matching)).
  assert (found ≡ₚ select pool matching) as Hp by apply merge_sort_Permutation.
  assert (StronglySorted ranked_before found) as Hs by (apply StronglySorted_merge_sort; apply _). split.
  - intros h. rewrite list_elem_of_fmap. split.
    + intros (r & -> & Hr). rewrite Hp, elem_of_select in Hr. destruct Hr as (Hm & h & Hr).
      rewrite (resource_at_handle _ _ _ Hok Hr). by exists r.
    + intros (r & Hr & Hm). exists r. split; [by rewrite (resource_at_handle _ _ _ Hok Hr)|].
      rewrite Hp. apply elem_of_select. split; [done|by exists h].
  - rewrite Hp. by apply NoDup_select.
  - intros i j h1 h2 r1 r2 Hij Hi Hj Hr1 Hr2. rewrite list_lookup_fmap in Hi, Hj.
    destruct (found !! i) as [x|] eqn:Ex; [|done]. destruct (found !! j) as [y|] eqn:Ey; [|done]. simpl in Hi, Hj. simplify_eq.
    assert (forall z, z ∈ found -> resource_at pool (resource_handle z) = Some z) as Hself.
    { intros z Hz. rewrite Hp, elem_of_select in Hz. destruct Hz as (_ & h & Hz). by rewrite (resource_at_handle _ _ _ Hok Hz). }
    rewrite (Hself x) in Hr1 by (by eapply list_elem_of_lookup_2). rewrite (Hself y) in Hr2 by (by eapply list_elem_of_lookup_2).
    simplify_eq. by apply (StronglySorted_lookup _ found i j).
Qed.

Lemma lookup_name_spec pool scope name type : pool_ok pool ->
  size scope <= max_scope_bytes limits -> size name <= max_name_bytes limits ->
  (forall t, type = Some t -> size t <= max_type_identity_bytes limits) ->
  size (select pool (matches_name scope name type)) <= max_lookup_results limits ->
  exists l pool', lookup_name limits pool scope name type = Ok (l, pool') /\
    lookup_result pool (matches_name scope name type) l /\ logged pool pool'.
Proof.
  intros Hok Hs Hn Ht Hmax. destruct (ordered_select_spec _ _ Hok Hmax) as (found & E & Hres).
  assert (lookup_name limits pool scope name type = Ok (resource_handle <$> found, append_trace limits pool (fun sequence =>
    mkTraceRecord sequence TraceLookupName scope name (default [] type) [] (front_handle (resource_handle <$> found))
      (size (resource_handle <$> found)) (negb (bool_decide (resource_handle <$> found = [])))))) as El.
  { unfold lookup_name, validate_lookup. destruct (Z.gtb_spec (size scope) (max_scope_bytes limits)); [lia|].
    destruct (Z.gtb_spec (size name) (max_name_bytes limits)); [lia|]. cbn [mbind outcome_bind].
    destruct type as [t|]; [specialize (Ht t eq_refl); destruct (Z.gtb_spec (size t) (max_type_identity_bytes limits)); [lia|]|];
      by rewrite E. }
  do 2 eexists. split; [exact El|]. split; [done|]. by apply append_trace_logged.
Qed.

(** [get_by_name] returns the best match, and 0 exactly when there is none. *)
Lemma front_best pool matching l : pool_ok pool -> lookup_result pool matching l ->
  (front_handle l = 0 <-> forall h r, resource_at pool h = Some r -> matching r = false) /\
  forall r, resource_at pool (front_handle l) = Some r ->
    matching r = true /\ forall h' r', resource_at pool h' = Some r' -> matching r' = true -> ranked_before r r'.
Proof.
  intros Hok [H1 H2 H3]. assert (resource_at pool 0 = None) as Hzero.
  { unfold resource_at. destruct (resources pool !! 0) as [[r cbs]|] eqn:E; [|done].
    apply (pool_resources_ok _ Hok) in E as [? ? ? ?]. lia. }
  destruct l as [|h0 l]; cbn [front_handle].
  - split; [|intros r E; by rewrite Hzero in E]. split; [|done]. intros _ h r Hr. destruct (matching r) eqn:Em; [|done].
    assert (h ∈ @nil Z) as H%not_elem_of_nil; [|done]. apply H1. by exists r.
  - destruct (proj1 (H1 h0) ltac:(left)) as (r0 & Hr0 & Hm0). split.
    + split; [intros ->; congruence|]. intros H. by rewrite (H h0 r0 Hr0) in Hm0.
    + intros r Hr. rewrite Hr0 in Hr. simplify_eq. split; [done|]. intros h' r' Hr' Hm'.
      assert (h' ∈ h0 :: l) as (j & Hj)%list_elem_of_lookup by (apply H1; by exists r').
      destruct j as [|j]; [simpl in Hj; simplify_eq; unfold ranked_before, rank, rank_le; lia|].
      by apply (H3 0%nat (S j) h0 h'); [lia|done..].
Qed.

(** ** Spelling *)

Lemma text_leb_total x : forall y, text_leb x y = true \/ text_leb y x = true.
Proof.
  induction x as [|a x IH]; intros [|b y]; simpl; try auto.
  destruct (N.ltb_spec (N_of_ascii a) (N_of_ascii b)), (N.ltb_spec (N_of_ascii b) (N_of_ascii a)); auto.
Qed.
Lemma text_leb_trans x : forall y z, text_leb x y = true -> text_leb y z = true -> text_leb x z = true.
Proof.
  induction x as [|a x IH]; intros [|b y] [|c z]; simpl; try done. intros H1 H2.
  destruct (N.ltb_spec (N_of_ascii a) (N_of_ascii b)), (N.ltb_spec (N_of_ascii b) (N_of_ascii c)),
    (N.ltb_spec (N_of_ascii b) (N_of_ascii a)), (N.ltb_spec (N_of_ascii c) (N_of_ascii b)),
    (N.ltb_spec (N_of_ascii a) (N_of_ascii c)), (N.ltb_spec (N_of_ascii c) (N_of_ascii a)); try done; try lia.
  by apply (IH y z).
Qed.
#[local] Instance spell_le_total : Total spell_le.
Proof.
  intros [d1 n1] [d2 n2]. unfold spell_le. simpl. destruct (text_leb_total n1 n2); destruct (Nat.lt_total d1 d2) as [|[|]]; auto.
Qed.
#[local] Instance spell_le_trans : Transitive spell_le.
Proof.
  intros [d1 n1] [d2 n2] [d3 n3]. unfold spell_le. simpl. intros [H1|[H1 T1]] [H2|[H2 T2]]; [left; lia..|].
  right. split; [lia|]. by apply (text_leb_trans n1 n2).
Qed.

(** A suggestion is the name of a resource within the distance, suggestions
    are distinct, nearest first, and every near name is suggested while there
    is room. *)
Lemma spell_check_spec pool name maximum suggestions : pool_ok pool ->
  spell_check limits pool name maximum = Ok suggestions ->
  NoDup suggestions /\
  (forall n, n ∈ suggestions -> Z.of_nat (edit_distance name n) <= maximum /\
     exists h r, resource_at pool h = Some r /\ resource_name r = n) /\
  (forall i j n1 n2, (i < j)%nat -> suggestions !! i = Some n1 -> suggestions !! j = Some n2 ->
     (edit_distance name n1 <= edit_distance name n2)%nat) /\
  (forall h r, resource_at pool h = Some r -> Z.of_nat (edit_distance name (resource_name r)) <= maximum ->
     resource_name r ∈ suggestions \/ Z.of_nat (length suggestions) = max_spell_candidates limits \/ max_spell_candidates limits < 0).
Proof.
  intros Hok E. unfold spell_check in E. destruct (_ >? _); [done|]. destruct (_ >? _); [done|]. cbv zeta in E. injection E as <-.
  set (names := remove_dups _). set (near := filter _ names).
  set (pairs := (fun n => (edit_distance name n, n)) <$> near). set (k := Z.to_nat (max_spell_candidates limits)).
  assert (merge_sort spell_le pairs ≡ₚ pairs) as Hp by apply merge_sort_Permutation.
  assert (StronglySorted spell_le (merge_sort spell_le pairs)) as Hs by (apply StronglySorted_merge_sort; apply _).
  assert (forall p, p ∈ merge_sort spell_le pairs -> fst p = edit_distance name (snd p) /\ snd p ∈ near) as Hpair.
  { intros p Hin. rewrite Hp in Hin. apply list_elem_of_fmap in Hin as (n & -> & Hn). done. }
  assert (snd <$> pairs = near) as Hsnd by (unfold pairs; rewrite <- list_fmap_compose; apply list_fmap_id).
  assert (forall n, n ∈ near <-> Z.of_nat (edit_distance name n) <= maximum /\ exists h r, resource_at pool h = Some r /\ resource_name r = n) as Hnear.
  { intros n. unfold near, names. rewrite list_elem_of_filter, elem_of_remove_dups, list_elem_of_fmap. f_equiv. split.
    - intros (r & -> & (h & _ & Hr)%list_elem_of_omap). by exists h, r.
    - intros (h & r & Hr & <-). exists r. split; [done|]. apply list_elem_of_omap. exists h. split; [|done].
      unfold handles_of. rewrite merge_sort_Permutation, elem_of_elements, elem_of_dom.
      unfold resource_at in Hr. destruct (resources pool !! h); [by eexists|done]. }
  split_and!.
  - rewrite fmap_take. apply (sublist_NoDup _ (snd <$> merge_sort spell_le pairs)); [|apply sublist_take].
    rewrite Hp, Hsnd. apply NoDup_filter, NoDup_remove_dups.
  - intros n (p & -> & Hin%elem_of_take)%list_elem_of_fmap. apply Hnear.
    destruct Hin as (i & Hi & _). apply list_elem_of_lookup_2 in Hi. by apply Hpair in Hi as [_ ?].
  - intros i j n1 n2 Hij Hi Hj. rewrite list_lookup_fmap in Hi, Hj.
    destruct (take k (merge_sort spell_le pairs) !! i) as [p1|] eqn:E1; [|done].
    destruct (take k (merge_sort spell_le pairs) !! j) as [p2|] eqn:E2; [|done]. simpl in Hi, Hj. simplify_eq.
    apply lookup_take_Some in E1 as [E1 _], E2 as [E2 _].
    pose proof (StronglySorted_lookup _ _ _ _ _ _ Hs Hij E1 E2) as Hle.
    apply list_elem_of_lookup_2, Hpair in E1 as [F1 _], E2 as [F2 _]. unfold spell_le in Hle. lia.
  - intros h r Hr Hd. assert (resource_name r ∈ near) as Hn by (apply Hnear; split; [done|by exists h, r]).
    destruct (decide (length (merge_sort spell_le pairs) <= k)%nat) as [Hle|Hgt].
    + left. rewrite take_ge by done. rewrite Hp, Hsnd. done.
    + right. rewrite length_fmap, length_take. unfold k in *. lia.
Qed.
End pool.
