(* ===== verification/UvmConfigDb.v ===== *)
(** * UVM configuration database

    Model of src/runtime/uvm_config_db.cpp on top of the resource pool
    (UvmResource.v) and the patterns (ConfigPattern.v): [set] publishes a value
    under an instance and a field pattern, [get] resolves an instance and a
    field to the matching entry of highest precedence, the latest among equals,
    and [wait_modified] registers a one-shot waiter that the next matching
    [set] wakes.

    Waiter callbacks are parameters, as those of the pool: whether one throws.
    The state after an exception is not modelled. *)
From stdpp Require Import gmap sorting.
From S2P Require Import Prelude Logic WordSpan LogicWord PackedLogic4 GlobMatch ConfigPattern.
From S2P Require Import UvmResource.

(** ** Data *)

Inductive ConfigPhase := BuildPhase | RuntimePhase.
Inductive ConfigTraceAction := ConfigSet | ConfigGet | ConfigExists.

Record ConfigContext := mkConfigContext { context_full_name : list ascii; context_depth : Z }.

Record ConfigEntry := mkConfigEntry {
  entry_resource : Z;
  entry_context : list ascii;
  instance_pattern : list ascii;
  field_pattern : list ascii;
  entry_type : list ascii;
  entry_precedence : Z;
  creation_order : Z;
  update_order : Z;
  entry_phase : ConfigPhase;
}.

Record ConfigTraceRecord := mkConfigTraceRecord {
  config_sequence : Z;
  config_action : ConfigTraceAction;
  config_context : list ascii;
  config_instance : list ascii;
  config_field : list ascii;
  config_type : list ascii;
  config_resource : Z;
  config_success : bool;
}.

Record ConfigLimits := mkConfigLimits {
  max_entries : Z;
  max_waiters : Z;
  max_context_bytes : Z;
  max_instance_pattern_bytes : Z;
  max_field_pattern_bytes : Z;
  max_context_depth : Z;
  max_regex_states : Z;
  max_wake_callbacks_per_set : Z;
  max_report_bytes : Z;
  max_config_trace_records : Z;
  max_config_trace_bytes : Z;
  default_precedence : Z;
}.

Record Waiter (waiter_callback : Type) := mkWaiter {
  waiter_token : Z;
  waiter_instance : list ascii;
  waiter_field : list ascii;
  waiter_order : Z;
  waiter_call : waiter_callback;
}.
Arguments mkWaiter {waiter_callback}.
Arguments waiter_token {waiter_callback} _.
Arguments waiter_instance {waiter_callback} _.
Arguments waiter_field {waiter_callback} _.
Arguments waiter_order {waiter_callback} _.
Arguments waiter_call {waiter_callback} _.

(** The members of the service, with the pool it refers to.  The two maps are
    lists in the order of their keys. *)
Record ConfigDb (callback waiter_callback : Type) := mkConfigDb {
  db_pool : ResourcePool callback;
  db_entries : list (list ascii * ConfigEntry);
  db_waiters : list (Waiter waiter_callback);
  next_waiter_token : Z;
  next_entry_order : Z;
  next_update_order : Z;
  next_waiter_order : Z;
  callback_failures : Z;
  config_trace_enabled : bool;
  config_trace : list ConfigTraceRecord;
  next_config_sequence : Z;
  dropped_config_records : Z;
  config_trace_callback : option (ConfigTraceRecord -> bool);
  config_trace_callback_failures : Z;
}.
Arguments mkConfigDb {callback waiter_callback}.
Arguments db_pool {callback waiter_callback} _.
Arguments db_entries {callback waiter_callback} _.
Arguments db_waiters {callback waiter_callback} _.
Arguments next_waiter_token {callback waiter_callback} _.
Arguments next_entry_order {callback waiter_callback} _.
Arguments next_update_order {callback waiter_callback} _.
Arguments next_waiter_order {callback waiter_callback} _.
Arguments callback_failures {callback waiter_callback} _.
Arguments config_trace_enabled {callback waiter_callback} _.
Arguments config_trace {callback waiter_callback} _.
Arguments next_config_sequence {callback waiter_callback} _.
Arguments dropped_config_records {callback waiter_callback} _.
Arguments config_trace_callback {callback waiter_callback} _.
Arguments config_trace_callback_failures {callback waiter_callback} _.

Section db.
Context {callback waiter_callback : Type}.
Implicit Types db : ConfigDb callback waiter_callback.
Context (limits : ConfigLimits) (resource_limits : ResourceLimits) (heap : option (Z -> bool)).
Context (throws : callback -> CallbackEvent -> Resource -> bool).
(** Whether a waiter's callback throws when it is given the entry. *)
Context (waiter_throws : waiter_callback -> Z -> ConfigEntry -> bool).

Definition with_pool db (pool : ResourcePool callback) : ConfigDb callback waiter_callback :=
  mkConfigDb pool (db_entries db) (db_waiters db) (next_waiter_token db) (next_entry_order db) (next_update_order db)
    (next_waiter_order db) (callback_failures db) (config_trace_enabled db) (config_trace db) (next_config_sequence db)
    (dropped_config_records db) (config_trace_callback db) (config_trace_callback_failures db).
Definition with_entries db (entries : list (list ascii * ConfigEntry)) (entry_order update_order : Z)
    : ConfigDb callback waiter_callback :=
  mkConfigDb (db_pool db) entries (db_waiters db) (next_waiter_token db) entry_order update_order
    (next_waiter_order db) (callback_failures db) (config_trace_enabled db) (config_trace db) (next_config_sequence db)
    (dropped_config_records db) (config_trace_callback db) (config_trace_callback_failures db).
Definition with_waiters db (waiters : list (Waiter waiter_callback)) (token order failures : Z)
    : ConfigDb callback waiter_callback :=
  mkConfigDb (db_pool db) (db_entries db) waiters token (next_entry_order db) (next_update_order db)
    order failures (config_trace_enabled db) (config_trace db) (next_config_sequence db) (dropped_config_records db) (config_trace_callback db) (config_trace_callback_failures db).
Definition with_config_trace db (enabled : bool) (records : list ConfigTraceRecord) (next dropped : Z)
    (installed : option (ConfigTraceRecord -> bool)) (failures : Z) : ConfigDb callback waiter_callback :=
  mkConfigDb (db_pool db) (db_entries db) (db_waiters db) (next_waiter_token db) (next_entry_order db)
    (next_update_order db) (next_waiter_order db) (callback_failures db) enabled records next dropped installed failures.

(** The constructor. *)
Definition make_config_db (pool : ResourcePool callback) : Outcome (ConfigDb callback waiter_callback) :=
  if (default_precedence limits <? 0) || (default_precedence limits <? max_context_depth limits)
     || (max_report_bytes limits =? 0) || (max_config_trace_records limits =? 0) || (max_config_trace_bytes limits =? 0)
  then Throw (invalid_argument "UVM config default precedence must cover the context-depth budget")
  else mret (mkConfigDb pool [] [] 1 0 0 0 0 false [] 0 0 None 0).

(** ** Validation and keys *)

Definition validate_context (context : ConfigContext) : Outcome () :=
  if size (context_full_name context) >? max_context_bytes limits
  then Throw (length_error "UVM config context exceeds its byte budget")
  else if context_depth context >? max_context_depth limits
  then Throw (length_error "UVM config context depth exceeds its budget")
  else if bool_decide (context_full_name context = []) && negb (context_depth context =? 0)
  then Throw (invalid_argument "UVM config root context must have depth zero")
  else Ok ().

Definition validate_pattern (pattern : list ascii) (byte_limit : Z) : Outcome () :=
  if size pattern >? byte_limit then Throw (length_error "UVM config pattern exceeds its byte budget")
  else if is_regex pattern then _ ← parse_safe_regex pattern (max_regex_states limits); mret ()
  else Ok ().

Definition unit_separator : ascii := "031"%char.
Definition entry_key (context instance field type : list ascii) : list ascii :=
  context ++ [unit_separator] ++ instance ++ [unit_separator] ++ field ++ [unit_separator] ++ type.

Definition matches (pattern value : list ascii) : Outcome bool := pattern_matches (max_regex_states limits) pattern value.

(** [pattern_matches(a, x) && pattern_matches(b, y)] *)
Definition both_match (instance_p instance field_p field : list ascii) : Outcome bool :=
  b ← matches instance_p instance;
  if (b : bool) then matches field_p field else mret false.

(** ** Resolution *)

(** The new candidate wins over the best so far. *)
Definition outranks (entry best : ConfigEntry) : bool :=
  (entry_precedence entry >? entry_precedence best)
  || ((entry_precedence entry =? entry_precedence best) && (update_order entry >? update_order best)).

Definition resolve_entry (instance field type : list ascii) (best : option ConfigEntry) (entry : ConfigEntry)
    : Outcome (option ConfigEntry) :=
  if negb (bool_decide (entry_type entry = type)) then mret best
  else
    b ← both_match (instance_pattern entry) instance (field_pattern entry) field;
    mret (if negb b then best
          else match best with
               | None => Some entry
               | Some r => if outranks entry r then Some entry else best
               end).

Fixpoint resolve_loop (instance field type : list ascii) (best : option ConfigEntry) (entries : list ConfigEntry)
    : Outcome (option ConfigEntry) :=
  match entries with
  | [] => mret best
  | entry :: entries =>
      best ← resolve_entry instance field type best entry;
      resolve_loop instance field type best entries
  end.

Definition resolve db (instance field type : list ascii) : Outcome (option ConfigEntry) :=
  _ ← validate_pattern instance (max_instance_pattern_bytes limits);
  _ ← validate_pattern field (max_field_pattern_bytes limits);
  resolve_loop instance field type None (snd <$> db_entries db).

(** ** Tracing and waiters *)

Definition append_config_trace db (make : Z -> ConfigTraceRecord) : ConfigDb callback waiter_callback :=
  if negb (config_trace_enabled db) then db
  else
    let full := size (config_trace db) =? max_config_trace_records limits in
    let records := if full then tail (config_trace db) else config_trace db in
    let dropped := if full then wrap64 (dropped_config_records db + 1) else dropped_config_records db in
    let record := make (next_config_sequence db) in
    let failed := match config_trace_callback db with Some cb => cb record | None => false end in
    with_config_trace db (config_trace_enabled db) (records ++ [record]) (wrap64 (next_config_sequence db + 1)) dropped
      (config_trace_callback db)
      (if failed then wrap64 (config_trace_callback_failures db + 1) else config_trace_callback_failures db).

Definition set_config_trace_enabled db (enabled : bool) : ConfigDb callback waiter_callback :=
  with_config_trace db enabled (config_trace db) (next_config_sequence db) (dropped_config_records db)
    (config_trace_callback db) (config_trace_callback_failures db).
Definition set_config_trace_callback db (cb : option (ConfigTraceRecord -> bool)) : ConfigDb callback waiter_callback :=
  with_config_trace db (config_trace_enabled db) (config_trace db) (next_config_sequence db) (dropped_config_records db)
    cb (config_trace_callback_failures db).

Definition over_wake_budget {A} : Outcome A := Throw (length_error "UVM config wake callback budget exceeded").

(** The waiters a pattern wakes, in the order of their tokens, within the
    budget; [found] are those already found. *)
Fixpoint matching_waiters (instance_p field_p : list ascii) (found waiters : list (Waiter waiter_callback))
    : Outcome (list (Waiter waiter_callback)) :=
  match waiters with
  | [] => mret found
  | w :: waiters =>
      b ← both_match instance_p (waiter_instance w) field_p (waiter_field w);
      if (b : bool) then
        if size found >=? max_wake_callbacks_per_set limits then over_wake_budget
        else matching_waiters instance_p field_p (found ++ [w]) waiters
      else matching_waiters instance_p field_p found waiters
  end.

(** [validate_wake_budget] *)
Definition validate_wake_budget db (instance_p field_p : list ascii) : Outcome () :=
  _ ← matching_waiters instance_p field_p [] (db_waiters db); mret ().

Definition by_registration (x y : Waiter waiter_callback) : Prop := waiter_order x <= waiter_order y.
#[global] Instance by_registration_dec x y : Decision (by_registration x y).
Proof. unfold by_registration. apply _. Defined.

(** [trigger_waiters]: wakes the matching waiters in the order they
    registered and forgets them; the woken tokens are the result. *)
Definition trigger_waiters db (entry : ConfigEntry) : Outcome (list Z * ConfigDb callback waiter_callback) :=
  wake ← matching_waiters (instance_pattern entry) (field_pattern entry) [] (db_waiters db);
  let wake := merge_sort by_registration wake in
  let tokens := waiter_token <$> wake in
  let failures := length (filter (fun w => waiter_throws (waiter_call w) (waiter_token w) entry = true) wake) in
  mret (tokens,
    with_waiters db (filter (fun w => waiter_token w ∉ tokens) (db_waiters db)) (next_waiter_token db)
      (next_waiter_order db) (wrap64 (callback_failures db + Z.of_nat failures))).

(** ** Publishing *)

(** [entries_.find(key)], an assignment through it, and [entries_.emplace] of a
    key that is not there. *)
Fixpoint find_entry (key : list ascii) (entries : list (list ascii * ConfigEntry)) : option ConfigEntry :=
  match entries with
  | [] => None
  | (k, e) :: rest => if bool_decide (k = key) then Some e else find_entry key rest
  end.
Definition replace_entry (key : list ascii) (entry : ConfigEntry) (entries : list (list ascii * ConfigEntry))
    : list (list ascii * ConfigEntry) :=
  (fun ke => if bool_decide (fst ke = key) then (key, entry) else ke) <$> entries.
Fixpoint insert_entry (key : list ascii) (entry : ConfigEntry) (entries : list (list ascii * ConfigEntry))
    : list (list ascii * ConfigEntry) :=
  match entries with
  | [] => [(key, entry)]
  | (k, e) :: rest => if text_leb key k then (key, entry) :: (k, e) :: rest else (k, e) :: insert_entry key entry rest
  end.

Definition set_precedence_for (context : ConfigContext) (phase : ConfigPhase) : Z :=
  match phase with
  | BuildPhase => default_precedence limits - context_depth context
  | RuntimePhase => default_precedence limits
  end.

(** What [set] returns: the handle, and the tokens of the woken waiters. *)
Record SetResult := mkSetResult { set_handle : Z; set_woken : list Z }.

Definition set_trace (context : ConfigContext) (instance field type : list ascii) (handle sequence : Z) : ConfigTraceRecord :=
  mkConfigTraceRecord sequence ConfigSet (context_full_name context) instance field type handle true.

(** [set] on a key that has an entry. *)
Definition set_existing db (context : ConfigContext) (key instance field : list ascii) (value : ResourceValue)
    (phase : ConfigPhase) (found : ConfigEntry) : Outcome (SetResult * ConfigDb callback waiter_callback) :=
  let p := set_precedence_for context phase in
  '(written, pool) ← write resource_limits heap throws (db_pool db) (entry_resource found) value (context_full_name context);
  if negb written then Throw (logic_error "UVM config resource unexpectedly became read-only")
  else
    pool ← set_precedence pool (entry_resource found) p;
    pool ← set_priority pool (entry_resource found) High;
    let entry := mkConfigEntry (entry_resource found) (entry_context found) (instance_pattern found)
                   (field_pattern found) (entry_type found) p (creation_order found) (next_update_order db) phase in
    let db := with_entries (with_pool db pool) (replace_entry key entry (db_entries db)) (next_entry_order db)
                (wrap64 (next_update_order db + 1)) in
    '(woken, db) ← trigger_waiters db entry;
    mret (mkSetResult (entry_resource found) woken,
          append_config_trace db (set_trace context instance field (entry_type found) (entry_resource found))).

(** [set] on a new key. *)
Definition set_new db (context : ConfigContext) (key instance field : list ascii) (type : ResourceType)
    (value : ResourceValue) (phase : ConfigPhase) : Outcome (SetResult * ConfigDb callback waiter_callback) :=
  let p := set_precedence_for context phase in
  if size (db_entries db) >=? max_entries limits then Throw (length_error "UVM config entry capacity exceeded")
  else
    '(handle, pool) ← insert resource_limits heap (db_pool db)
      (mkResourceDescriptor field [star_char] type value p false true);
    r ← snapshot pool handle;
    let entry := mkConfigEntry handle (context_full_name context) instance field (type_identity (resource_type r)) p
                   (next_entry_order db) (next_update_order db) phase in
    let db := with_entries (with_pool db pool) (insert_entry key entry (db_entries db)) (wrap64 (next_entry_order db + 1))
                (wrap64 (next_update_order db + 1)) in
    pool ← set_priority pool handle High;
    '(woken, db) ← trigger_waiters (with_pool db pool) entry;
    mret (mkSetResult handle woken,
          append_config_trace db (set_trace context instance field (entry_type entry) handle)).

Definition set db (context : ConfigContext) (instance_name field : list ascii) (type : ResourceType)
    (value : ResourceValue) (phase : ConfigPhase) : Outcome (SetResult * ConfigDb callback waiter_callback) :=
  _ ← validate_context context;
  _ ← validate_pattern instance_name (max_instance_pattern_bytes limits);
  _ ← validate_pattern field (max_field_pattern_bytes limits);
  let instance := full_instance_name (context_full_name context) instance_name in
  _ ← validate_pattern instance (max_instance_pattern_bytes limits);
  if bool_decide (type_identity type = []) || (size (type_identity type) >? max_type_identity_bytes resource_limits)
  then Throw (length_error "UVM config type identity exceeds its budget")
  else
    _ ← validate_wake_budget db instance field;
    let key := entry_key (context_full_name context) instance field (type_identity type) in
    match find_entry key (db_entries db) with
    | Some found => set_existing db context key instance field value phase found
    | None => set_new db context key instance field type value phase
    end.

(** ** Reading *)

Definition get db (context : ConfigContext) (instance_name field type accessor : list ascii)
    : Outcome (option ResourceValue * ConfigDb callback waiter_callback) :=
  _ ← validate_context context;
  let instance := full_instance_name (context_full_name context) instance_name in
  entry ← resolve db instance field type;
  let trace handle success sequence :=
    mkConfigTraceRecord sequence ConfigGet (context_full_name context) instance field type handle success in
  match entry with
  | None => mret (None, append_config_trace db (trace 0 false))
  | Some entry =>
      '(value, pool) ← read resource_limits heap throws (db_pool db) (entry_resource entry) accessor;
      mret (Some value, append_config_trace (with_pool db pool) (trace (entry_resource entry) true))
  end.

Definition exists_entry db (context : ConfigContext) (instance_name field type : list ascii) (spelling : bool)
    : Outcome (bool * list (list ascii) * ConfigDb callback waiter_callback) :=
  _ ← validate_context context;
  let instance := full_instance_name (context_full_name context) instance_name in
  entry ← resolve db instance field type;
  suggestions ← (if bool_decide (entry = None) && spelling
                 then spell_check resource_limits (db_pool db) field (max_spell_distance resource_limits)
                 else mret []);
  let found := negb (bool_decide (entry = None)) in
  mret (found, suggestions, append_config_trace db (fun sequence =>
    mkConfigTraceRecord sequence ConfigExists (context_full_name context) instance field type
      (match entry with Some e => entry_resource e | None => 0 end) found)).

(** ** Waiting *)

Definition wait_modified db (context : ConfigContext) (instance_name field : list ascii) (cb : waiter_callback)
    : Outcome (Z * ConfigDb callback waiter_callback) :=
  _ ← validate_context context;
  if size (db_waiters db) >=? max_waiters limits then Throw (length_error "UVM config waiter capacity exceeded")
  else
    let instance := full_instance_name (context_full_name context) instance_name in
    _ ← validate_pattern instance (max_instance_pattern_bytes limits);
    _ ← validate_pattern field (max_field_pattern_bytes limits);
    if (next_waiter_token db =? 0) || (next_waiter_token db =? U64_MAX)
    then Throw (overflow_error "UVM config waiter tokens exhausted")
    else
      let token := next_waiter_token db in
      mret (token,
        with_waiters db (db_waiters db ++ [mkWaiter token instance field (next_waiter_order db) cb]) (token + 1)
          (wrap64 (next_waiter_order db + 1)) (callback_failures db)).

Definition cancel_waiter db (token : Z) : bool * ConfigDb callback waiter_callback :=
  (bool_decide (token ∈ waiter_token <$> db_waiters db),
   with_waiters db (filter (fun w => waiter_token w <> token) (db_waiters db)) (next_waiter_token db)
     (next_waiter_order db) (callback_failures db)).

(** [entries()]: in the order of creation. *)
Definition created_before (x y : ConfigEntry) : Prop := creation_order x <= creation_order y.
#[global] Instance created_before_dec x y : Decision (created_before x y).
Proof. unfold created_before. apply _. Defined.
Definition list_entries db : list ConfigEntry := merge_sort created_before (snd <$> db_entries db).
End db.
