(* ===== verification/UvmConfigDbTheorems.v ===== *)
(** * What the UVM configuration database promises

    Resolution picks the matching entry of highest precedence and, among
    equals, the latest; what is set at the highest precedence is what a get
    returns; the database's invariant is kept by every operation; waiters are
    woken once, in the order they registered. *)
From stdpp Require Import gmap sorting.
From S2P Require Import Prelude Logic WordSpan LogicWord PackedLogic4 GlobMatch ConfigPattern.
From S2P Require Import UvmResource UvmResourceTheorems UvmConfigDb.

(** ** Keys *)

Definition clean (text : list ascii) : Prop := unit_separator ∉ text.

Lemma separated_inj a1 a2 (b1 b2 : list ascii) : clean a1 -> clean a2 ->
  a1 ++ [unit_separator] ++ b1 = a2 ++ [unit_separator] ++ b2 -> a1 = a2 /\ b1 = b2.
Proof.
  unfold clean. revert a2. induction a1 as [|x a1 IH]; intros [|y a2] H1 H2 E; simpl in *.
  - by simplify_eq.
  - simplify_eq. exfalso. apply H2. left.
  - simplify_eq. exfalso. apply H1. left.
  - injection E as -> E. apply not_elem_of_cons in H1 as [_ H1]. apply not_elem_of_cons in H2 as [_ H2].
    destruct (IH a2 H1 H2 E) as [-> ->]. done.
Qed.

(** Names without the separator give different keys. *)
Lemma entry_key_inj c1 i1 f1 t1 c2 i2 f2 t2 : clean c1 -> clean i1 -> clean f1 -> clean c2 -> clean i2 -> clean f2 ->
  entry_key c1 i1 f1 t1 = entry_key c2 i2 f2 t2 -> c1 = c2 /\ i1 = i2 /\ f1 = f2 /\ t1 = t2.
Proof.
  intros H1 H2 H3 H4 H5 H6 E. unfold entry_key in E.
  apply separated_inj in E as [-> E]; [|done..]. apply separated_inj in E as [-> E]; [|done..].
  apply separated_inj in E as [-> ->]; done.
Qed.

Lemma filter_ext_elem {A} (P Q : A -> Prop) `{!forall x, Decision (P x)} `{!forall x, Decision (Q x)} (l : list A) :
  (forall x, x ∈ l -> P x <-> Q x) -> filter P l = filter Q l.
Proof.
  induction l as [|x l IH]; intros Hiff; [done|]. rewrite !filter_cons.
  rewrite IH by (intros y Hy; apply Hiff; by right). pose proof (Hiff x ltac:(left)).
  destruct (decide (P x)), (decide (Q x)); tauto || done.
Qed.

Lemma NoDup_fmap_eq {A B} (f : A -> B) l x y : NoDup (f <$> l) -> x ∈ l -> y ∈ l -> f x = f y -> x = y.
Proof.
  induction l as [|z l IH]; csimpl; [by intros _ ?%not_elem_of_nil|]. intros [Hz Hnd]%NoDup_cons Hx Hy E.
  apply elem_of_cons in Hx as [->|Hx], Hy as [->|Hy]; [done| | |auto].
  - exfalso. apply Hz. rewrite E. by apply list_elem_of_fmap_2.
  - exfalso. apply Hz. rewrite <- E. by apply list_elem_of_fmap_2.
Qed.

(** ** Resolution *)

Section db.
Context {callback waiter_callback : Type}.
Implicit Types db : ConfigDb callback waiter_callback.
Context (limits : ConfigLimits) (resource_limits : ResourceLimits) (heap : option (Z -> bool)).
Context (throws : callback -> CallbackEvent -> Resource -> bool).
Context (waiter_throws : waiter_callback -> Z -> ConfigEntry -> bool).

(** The entry is of the type and its patterns match. *)
Definition candidate (instance field type : list ascii) (e : ConfigEntry) : Prop :=
  entry_type e = type /\ both_match limits (instance_pattern e) instance (field_pattern e) field = Ok true.

(** [e] is at least as good as [e']. *)
Definition no_worse (e e' : ConfigEntry) : Prop :=
  entry_precedence e' < entry_precedence e \/
  (entry_precedence e' = entry_precedence e /\ update_order e' <= update_order e).

Lemma no_worse_trans e1 e2 e3 : no_worse e1 e2 -> no_worse e2 e3 -> no_worse e1 e3.
Proof. unfold no_worse. lia. Qed.

(** The best of [best] and the candidates of [entries]. *)
Definition best_of (instance field type : list ascii) (best : option ConfigEntry) (entries : list ConfigEntry)
    (r : option ConfigEntry) : Prop :=
  match r with
  | None => best = None /\ forall e, e ∈ entries -> ~ candidate instance field type e
  | Some e => (best = Some e \/ (e ∈ entries /\ candidate instance field type e)) /\
      (forall b, best = Some b -> no_worse e b) /\
      forall e', e' ∈ entries -> candidate instance field type e' -> no_worse e e'
  end.

Lemma resolve_loop_best instance field type entries : forall best r,
  resolve_loop limits instance field type best entries = Ok r -> best_of instance field type best entries r.
Proof.
  induction entries as [|e entries IH]; intros best r E; simpl in E.
  { unfold mret, outcome_ret in E. simplify_eq. destruct r as [e|]; simpl.
    - split; [by left|]. split; [|by intros ? ?%not_elem_of_nil]. intros b [= <-]. unfold no_worse. lia.
    - split; [done|]. by intros ? ?%not_elem_of_nil. }
  destruct (resolve_entry limits instance field type best e) as [best'|] eqn:Ee; simpl in E; [|done].
  specialize (IH best' r E). unfold resolve_entry in Ee.
  assert (~ candidate instance field type e /\ best' = best \/
    candidate instance field type e /\ (best' = Some e /\ (forall b, best = Some b -> no_worse e b) \/
      exists b, best = Some b /\ best' = best /\ no_worse b e)) as Hcase.
  { unfold candidate. destruct (decide (entry_type e = type)) as [Et|Et].
    2: { rewrite bool_decide_false in Ee by done. simpl in Ee. unfold mret, outcome_ret in Ee. simplify_eq. left. by split; [intros [? _]|]. }
    rewrite bool_decide_true in Ee by done. simpl in Ee.
    destruct (both_match limits (instance_pattern e) instance (field_pattern e) field) as [[|]|] eqn:Em; simpl in Ee; [| |done];
      unfold mret, outcome_ret in Ee; simplify_eq.
    - right. split; [done|]. destruct best as [b|]; [|left; done]. unfold outranks.
      destruct (Z.gtb_spec (entry_precedence e) (entry_precedence b)); simpl.
      { left. split; [done|]. intros b' [= <-]. left. lia. }
      destruct (Z.eqb_spec (entry_precedence e) (entry_precedence b)) as [Ep|]; simpl.
      2: { right. exists b. split_and!; [done..|]. left. lia. }
      destruct (Z.gtb_spec (update_order e) (update_order b)).
      + left. split; [done|]. intros b' [= <-]. right. lia.
      + right. exists b. split_and!; [done..|]. right. lia.
    - left. by split; [intros [_ ?]|]. }
  destruct Hcase as [[Hno ->]|[Hyes [[-> Hb]|(b & Eb & -> & Hb)]]]; destruct r as [x|]; simpl in *.
  - destruct IH as (H1 & H2 & H3). split_and!; [|done|].
    + destruct H1 as [?|[? ?]]; [by left|right; split; [by right|done]].
    + intros e' [->|He']%elem_of_cons Hc; [done|auto].
  - destruct IH as [H1 H2]. split; [done|]. intros e' [->|He']%elem_of_cons; [done|auto].
  - destruct IH as (H1 & H2 & H3). specialize (H2 e eq_refl). split_and!.
    + right. destruct H1 as [[= ->]|[? ?]]; [split; [left|done]|split; [by right|done]].
    + intros b' Eb'. eapply no_worse_trans; [exact H2|by apply Hb].
    + intros e' [->|He']%elem_of_cons Hc; [done|auto].
  - by destruct IH.
  - destruct IH as (H1 & H2 & H3). split_and!; [|done|].
    + destruct H1 as [?|[? ?]]; [by left|right; split; [by right|done]].
    + intros e' [->|He']%elem_of_cons Hc; [eapply no_worse_trans; [by apply H2|done]|auto].
  - destruct IH as [-> _]. done.
Qed.

Lemma resolve_best db instance field type r : resolve limits db instance field type = Ok r ->
  match r with
  | None => forall e, e ∈ snd <$> db_entries db -> ~ candidate instance field type e
  | Some e => e ∈ snd <$> db_entries db /\ candidate instance field type e /\
      forall e', e' ∈ snd <$> db_entries db -> candidate instance field type e' -> no_worse e e'
  end.
Proof.
  intros E. unfold resolve in E. destruct (validate_pattern limits instance _); simpl in E; [|done].
  destruct (validate_pattern limits field _); simpl in E; [|done].
  apply resolve_loop_best in E as H. destruct r as [e|]; simpl in H; [|by destruct H].
  destruct H as ([H1|[H1 H2]] & _ & H3); [done|]. done.
Qed.

(** ** The entry map *)

Lemma find_entry_elem key entries e : find_entry key entries = Some e -> (key, e) ∈ entries.
Proof.
  induction entries as [|[k e'] entries IH]; simpl; [done|]. case_bool_decide as Ek.
  - intros [= ->]. subst. left.
  - intros H. right. auto.
Qed.
Lemma find_entry_None key entries : find_entry key entries = None -> key ∉ fst <$> entries.
Proof.
  induction entries as [|[k e'] entries IH]; simpl; [intros _; by apply not_elem_of_nil|]. case_bool_decide as Ek; [done|].
  intros H%IH. csimpl. by apply not_elem_of_cons.
Qed.

Lemma replace_entry_elem key entry entries k e : (k, e) ∈ replace_entry key entry entries ->
  (k = key /\ e = entry) \/ (k <> key /\ (k, e) ∈ entries).
Proof.
  intros ([k' e'] & E & Hin)%list_elem_of_fmap. simpl in E. case_bool_decide; simplify_eq; auto.
Qed.
Lemma replace_entry_there key entry entries : key ∈ fst <$> entries -> (key, entry) ∈ replace_entry key entry entries.
Proof.
  intros ([k e] & -> & Hin)%list_elem_of_fmap. apply list_elem_of_fmap. exists (k, e). simpl. by rewrite bool_decide_true.
Qed.
Lemma replace_entry_keys key entry entries : fst <$> replace_entry key entry entries = fst <$> entries.
Proof.
  unfold replace_entry. rewrite <- list_fmap_compose. apply list_fmap_ext. intros _ [k e] _. simpl. by case_bool_decide.
Qed.
Lemma replace_entry_handles key entry entries : (forall e, (key, e) ∈ entries -> entry_resource e = entry_resource entry) ->
  (entry_resource ∘ snd) <$> replace_entry key entry entries = (entry_resource ∘ snd) <$> entries.
Proof.
  intros H. unfold replace_entry. rewrite <- list_fmap_compose. apply list_fmap_ext. intros i [k e] Hi%list_elem_of_lookup_2.
  simpl. case_bool_decide; subst; [|done]. simpl. symmetry. by apply H.
Qed.

Lemma insert_entry_perm key entry entries : insert_entry key entry entries ≡ₚ (key, entry) :: entries.
Proof.
  induction entries as [|[k e] entries IH]; simpl; [done|]. destruct (text_leb key k); [done|]. rewrite IH. apply Permutation_swap.
Qed.

(** ** Invariant *)

Record entry_ok (db : ConfigDb callback waiter_callback) (key : list ascii) (e : ConfigEntry) : Prop := {
  entry_key_ok : key = entry_key (entry_context e) (instance_pattern e) (field_pattern e) (entry_type e);
  entry_resource_ok : exists r cbs, resources (db_pool db) !! entry_resource e = Some (r, cbs) /\
    type_identity (resource_type r) = entry_type e;
  entry_precedence_ok : entry_precedence e <= default_precedence limits;
  entry_order_ok : 0 <= update_order e < next_update_order db;
}.

(** The names of the entries are free of the separator of keys. *)
Definition entries_clean (db : ConfigDb callback waiter_callback) : Prop :=
  forall e, e ∈ snd <$> db_entries db -> clean (entry_context e) /\ clean (instance_pattern e) /\ clean (field_pattern e).

Record db_ok (db : ConfigDb callback waiter_callback) : Prop := {
  db_pool_ok : pool_ok resource_limits (db_pool db);
  db_entries_ok : forall key e, (key, e) ∈ db_entries db -> entry_ok db key e;
  db_keys_ok : NoDup (fst <$> db_entries db);
  db_handles_ok : NoDup ((entry_resource ∘ snd) <$> db_entries db);
  db_order_ok : 0 <= next_update_order db;
  db_waiters_ok : NoDup (waiter_token <$> db_waiters db) /\
    Forall (fun w => waiter_token w < next_waiter_token db) (db_waiters db);
}.

(** Operations that leave the entries and the pool's resources alone. *)
Definition same_entries (db db' : ConfigDb callback waiter_callback) : Prop :=
  db_pool db' = db_pool db /\ db_entries db' = db_entries db /\ next_update_order db' = next_update_order db.

Lemma trace_same db make : let db' := append_config_trace limits db make in
  same_entries db db' /\ db_waiters db' = db_waiters db /\ next_waiter_token db' = next_waiter_token db.
Proof. cbv zeta. unfold append_config_trace. by destruct (config_trace_enabled db). Qed.

Lemma same_entries_ok db db' : db_ok db -> same_entries db db' ->
  (NoDup (waiter_token <$> db_waiters db') /\ Forall (fun w => waiter_token w < next_waiter_token db') (db_waiters db')) ->
  db_ok db'.
Proof.
  intros [H1 H2 H3 H4 H5 H6] (Ep & Ee & Eo) Hw. split; rewrite ?Ep, ?Ee, ?Eo; try done.
  intros key e [A B C D]%H2. split; rewrite ?Ep, ?Eo; done.
Qed.

Lemma trace_ok db make : db_ok db -> db_ok (append_config_trace limits db make).
Proof.
  intros Hok. destruct (trace_same db make) as (Hs & Hw & Ht). apply (same_entries_ok db); [done..|].
  rewrite Hw, Ht. apply Hok.
Qed.

(** ** Waiters *)

Definition woken_by (instance_p field_p : list ascii) (w : Waiter waiter_callback) : Prop :=
  both_match limits instance_p (waiter_instance w) field_p (waiter_field w) = Ok true.
#[local] Instance woken_by_dec i f w : Decision (woken_by i f w).
Proof. unfold woken_by. apply _. Qed.

Lemma matching_waiters_spec instance_p field_p waiters : forall found wake,
  matching_waiters limits instance_p field_p found waiters = Ok wake ->
  wake = found ++ filter (woken_by instance_p field_p) waiters.
Proof.
  induction waiters as [|w waiters IH]; intros found wake E; simpl in E.
  { unfold mret, outcome_ret in E. simplify_eq. by rewrite app_nil_r. }
  destruct (both_match _ _ _ _ _) as [b|] eqn:Eb; simpl in E; [|done]. rewrite filter_cons. unfold woken_by at 1. destruct b.
  - destruct (_ >=? _); [done|]. apply IH in E. rewrite decide_True by done. by rewrite E, <- app_assoc.
  - apply IH in E. rewrite decide_False by congruence. done.
Qed.

#[local] Instance by_registration_total : Total (@by_registration waiter_callback).
Proof. intros x y. unfold by_registration. lia. Qed.
#[local] Instance by_registration_trans : Transitive (@by_registration waiter_callback).
Proof. intros x y z. unfold by_registration. lia. Qed.

(** The matching waiters are woken in registration order and forgotten, the
    others stay. *)
Lemma trigger_waiters_spec db entry woken db' : NoDup (waiter_token <$> db_waiters db) ->
  trigger_waiters limits waiter_throws db entry = Ok (woken, db') ->
  same_entries db db' /\ next_waiter_token db' = next_waiter_token db /\
  db_waiters db' = filter (fun w => ~ woken_by (instance_pattern entry) (field_pattern entry) w) (db_waiters db) /\
  exists wake, woken = waiter_token <$> wake /\ StronglySorted by_registration wake /\
    wake ≡ₚ filter (woken_by (instance_pattern entry) (field_pattern entry)) (db_waiters db).
Proof.
  intros Hnd E. unfold trigger_waiters in E.
  destruct (matching_waiters limits _ _ [] (db_waiters db)) as [wake|] eqn:Em; simpl in E; [|done].
  apply matching_waiters_spec in Em. simpl in Em. subst wake. unfold mret, outcome_ret in E. injection E as <- <-.
  set (wake := filter (woken_by (instance_pattern entry) (field_pattern entry)) (db_waiters db)).
  assert (merge_sort by_registration wake ≡ₚ wake) as Hp by apply merge_sort_Permutation.
  split_and!; [done..| |].
  - simpl. apply filter_ext_elem. intros w Hw. rewrite Hp. unfold wake. rewrite list_elem_of_fmap. split.
    + intros Hn Hm. apply Hn. exists w. split; [done|]. by apply list_elem_of_filter.
    + intros Hn (w' & Et & Hw'). apply list_elem_of_filter in Hw' as [Hm Hw'].
      assert (w = w') as ->; [|done]. by apply (NoDup_fmap_eq waiter_token (db_waiters db)).
  - exists (merge_sort by_registration wake). split_and!; [done| |done]. apply StronglySorted_merge_sort; apply _.
Qed.

(** ** Publishing *)

Hypothesis trace_room : max_trace_records resource_limits <> 0.

(** The entry a set leaves, in a database that is otherwise as before. *)
Record published (db db' : ConfigDb callback waiter_callback) (context : ConfigContext) (instance field : list ascii)
    (type : ResourceType) (value : ResourceValue) (phase : ConfigPhase) (e : ConfigEntry) : Prop := {
  published_patterns : instance_pattern e = instance /\ field_pattern e = field /\ entry_type e = type_identity type;
  published_rank : entry_precedence e = set_precedence_for limits context phase /\ update_order e = next_update_order db;
  published_entry : e ∈ snd <$> db_entries db';
  published_others : forall e', e' ∈ snd <$> db_entries db' -> e' = e \/ e' ∈ snd <$> db_entries db;
  published_value : exists r cbs, resources (db_pool db') !! entry_resource e = Some (r, cbs) /\
    resource_value r = value /\ validate_value resource_limits heap (resource_type r) value = Ok ();
  published_frame : forall h, h <> entry_resource e -> resources (db_pool db') !! h = resources (db_pool db) !! h;
}.

Lemma publish_ok db p key entry es entry_order : db_ok db -> pool_ok resource_limits p ->
  next_update_order db + 1 < 2 ^ 64 ->
  (forall h r cbs, resources (db_pool db) !! h = Some (r, cbs) ->
     exists r' cbs', resources p !! h = Some (r', cbs') /\ resource_type r' = resource_type r) ->
  (forall k e, (k, e) ∈ es -> (k = key /\ e = entry) \/ (k, e) ∈ db_entries db) ->
  NoDup (fst <$> es) -> NoDup ((entry_resource ∘ snd) <$> es) ->
  key = entry_key (entry_context entry) (instance_pattern entry) (field_pattern entry) (entry_type entry) ->
  (exists r cbs, resources p !! entry_resource entry = Some (r, cbs) /\ type_identity (resource_type r) = entry_type entry) ->
  entry_precedence entry <= default_precedence limits -> update_order entry = next_update_order db ->
  db_ok (with_entries (with_pool db p) es entry_order (wrap64 (next_update_order db + 1))).
Proof.
  intros Hok Hp Hwrap Hkeep Hes Hk Hh Ekey Hres Hprec Hord. pose proof (db_order_ok _ Hok) as Ho.
  assert (wrap64 (next_update_order db + 1) = next_update_order db + 1) as Ew by (unfold wrap64; by rewrite Z.mod_small by lia).
  split; simpl; rewrite ?Ew; try done; [|lia|apply Hok].
  intros k e [[-> ->]|Hold]%Hes.
  - split; simpl; try done. lia.
  - apply (db_entries_ok _ Hok) in Hold as [A (r & cbs & Hr & Ht) D E]. split; simpl; try done.
    + destruct (Hkeep _ _ _ Hr) as (r' & cbs' & Hr' & Et). exists r', cbs'. by rewrite Et.
    + lia.
Qed.

(** Waking and tracing keep what was published. *)
Lemma wake_ok db entry woken db' make : db_ok db -> trigger_waiters limits waiter_throws db entry = Ok (woken, db') ->
  db_ok (append_config_trace limits db' make) /\ same_entries db (append_config_trace limits db' make).
Proof.
  intros Hok E. destruct (trigger_waiters_spec _ _ _ _ (proj1 (db_waiters_ok _ Hok)) E) as (Hs & Et & Ew & _).
  assert (db_ok db') as Hok'.
  { apply (same_entries_ok db); [done..|]. rewrite Ew, Et. destruct (db_waiters_ok _ Hok) as [Hnd Hall]. split.
    - eapply sublist_NoDup; [exact Hnd|]. apply fmap_sublist, sublist_filter.
    - rewrite Forall_forall in Hall |- *. intros w [_ Hw]%list_elem_of_filter. auto. }
  split; [by apply trace_ok|]. destruct (trace_same db' make) as ((A & B & C) & _). destruct Hs as (A' & B' & C').
  split_and!; congruence.
Qed.

Lemma set_existing_spec db context key instance field type value phase found res db' : db_ok db ->
  next_update_order db + 1 < 2 ^ 64 -> 0 <= context_depth context ->
  (key, found) ∈ db_entries db ->
  set_existing limits resource_limits heap throws waiter_throws db context key instance field value phase found = Ok (res, db') ->
  db_ok db' /\
  (instance_pattern found = instance -> field_pattern found = field -> entry_type found = type_identity type ->
   exists e, entry_resource e = set_handle res /\ published db db' context instance field type value phase e).
Proof.
  intros Hok Hwrap Hdepth Hin E. unfold set_existing in E. cbv zeta in E.
  destruct (write _ _ _ _ _ _ _) as [[written p1]|] eqn:E1; simpl in E; [|done].
  destruct (write_spec _ _ _ trace_room _ _ _ _ _ _ (db_pool_ok _ Hok) E1) as (r & cbs & Hr & Ew & Hp1 & N1 & Hval & R1).
  destruct written; simpl in E; [|done]. destruct (read_only r) eqn:Ero; [done|].
  set (h := entry_resource found) in *. set (prec := set_precedence_for limits context phase) in *.
  destruct (set_precedence p1 h prec) as [p2|] eqn:E2; simpl in E; [|done].
  destruct (set_precedence_spec _ _ _ _ _ Hp1 E2) as (Hp2 & N2 & r1 & cbs1 & Hr1 & R2).
  destruct (set_priority p2 h High) as [p3|] eqn:E3; simpl in E; [|done].
  destruct (set_priority_spec _ _ _ _ _ Hp2 E3) as (Hp3 & N3 & r2 & cbs2 & Hr2 & R3).
  assert (r1 = store_value value r /\ cbs1 = cbs) as [-> ->] by (rewrite R1, lookup_insert_eq in Hr1; by simplify_eq).
  assert (r2 = with_precedence prec (store_value value r) /\ cbs2 = cbs) as [-> ->]
    by (rewrite R2, lookup_insert_eq in Hr2; by simplify_eq).
  rewrite R2, R1, !insert_insert_eq in R3. set (r' := with_priority _ _) in R3.
  set (entry := mkConfigEntry h (entry_context found) (instance_pattern found) (field_pattern found) (entry_type found)
    prec (creation_order found) (next_update_order db) phase) in *.
  pose proof (db_entries_ok _ Hok _ _ Hin) as [K1 (rf & cf & Hrf & Tf) K4 K5]. assert (rf = r /\ cf = cbs) as [-> ->].
  { fold h in Hrf. rewrite Hr in Hrf. by simplify_eq. }
  destruct (trigger_waiters limits waiter_throws _ entry) as [[woken db2]|] eqn:E4; simpl in E; [|done].
  unfold mret, outcome_ret in E. injection E as <- <-.
  assert (db_ok (with_entries (with_pool db p3) (replace_entry key entry (db_entries db)) (next_entry_order db)
    (wrap64 (next_update_order db + 1)))) as Hok1.
  { apply (publish_ok db p3 key entry); try done.
    - intros h' r0 c0 H0. rewrite R3. destruct (decide (h' = h)) as [->|].
      + rewrite lookup_insert_eq. rewrite Hr in H0. simplify_eq. by do 2 eexists.
      + rewrite lookup_insert_ne by done. by do 2 eexists.
    - intros k e [[-> ->]|[_ ?]]%replace_entry_elem; auto.
    - rewrite replace_entry_keys. apply Hok.
    - rewrite replace_entry_handles; [apply Hok|]. intros e He.
      assert ((key, e) = (key, found)) as [= ->] by (by apply (NoDup_fmap_eq fst (db_entries db)); [apply Hok|..]). done.
    - exists r', cbs. split; [simpl; fold h; by rewrite R3, lookup_insert_eq|]. simpl. exact Tf.
    - simpl. unfold prec, set_precedence_for. destruct phase; lia. }
  destruct (wake_ok _ _ _ _ (set_trace context instance field (entry_type found) h) Hok1 E4) as [Hok2 (Sp & Se & So)].
  split; [exact Hok2|]. intros Ei Ef Et. exists entry. split; [done|]. simpl in Sp, Se. split.
  - by split_and!.
  - done.
  - rewrite Se. apply list_elem_of_fmap. exists (key, entry). split; [done|]. apply replace_entry_there.
    apply list_elem_of_fmap. by exists (key, found).
  - intros e' He'. rewrite Se in He'. apply list_elem_of_fmap in He' as ([k e2] & -> & [[_ ->]|[_ H]]%replace_entry_elem); [by left|].
    right. apply list_elem_of_fmap. by exists (k, e2).
  - exists r', cbs. rewrite Sp, R3. simpl. fold h. split; [apply lookup_insert_eq|]. done.
  - intros h' Hh'. rewrite Sp, R3. simpl in Hh'. fold h in Hh'. by rewrite lookup_insert_ne.
Qed.

Lemma set_new_spec db context key instance field type value phase res db' : db_ok db ->
  next_update_order db + 1 < 2 ^ 64 -> 0 <= context_depth context ->
  key = entry_key (context_full_name context) instance field (type_identity type) ->
  key ∉ fst <$> db_entries db ->
  set_new limits resource_limits heap waiter_throws db context key instance field type value phase = Ok (res, db') ->
  db_ok db' /\ exists e, entry_resource e = set_handle res /\ published db db' context instance field type value phase e.
Proof.
  intros Hok Hwrap Hdepth Ekey Hnew E. unfold set_new in E. cbv zeta in E. destruct (_ >=? _); [done|].
  set (prec := set_precedence_for limits context phase) in *.
  destruct (insert _ _ _ _) as [[h p1]|] eqn:E1; simpl in E; [|done].
  destruct (insert_spec _ _ _ _ _ _ (db_pool_ok _ Hok) E1) as (Hp1 & Eh & N1 & Hfresh & r & R1 & _ & _ & Tr & Vr & _ & _ & _ & Hval).
  simpl in Tr, Vr.
  assert (snapshot p1 h = Ok r) as Esnap by (unfold snapshot, stored; by rewrite R1, lookup_insert_eq).
  rewrite Esnap in E. simpl in E. rewrite Tr in E.
  set (entry := mkConfigEntry h (context_full_name context) instance field (type_identity type) prec (next_entry_order db)
    (next_update_order db) phase) in *.
  destruct (set_priority p1 h High) as [p2|] eqn:E2; simpl in E; [|done].
  destruct (set_priority_spec _ _ _ _ _ Hp1 E2) as (Hp2 & N2 & r1 & cbs1 & Hr1 & R2).
  assert (r1 = r /\ cbs1 = []) as [-> ->] by (rewrite R1, lookup_insert_eq in Hr1; by simplify_eq).
  rewrite R1, insert_insert_eq in R2. set (r' := with_priority _ r) in R2.
  destruct (trigger_waiters limits waiter_throws _ entry) as [[woken db2]|] eqn:E4; simpl in E; [|done].
  unfold mret, outcome_ret in E. injection E as <- <-.
  assert (forall k e, (k, e) ∈ db_entries db -> entry_resource e <> h) as Hother.
  { intros k e He. apply (db_entries_ok _ Hok) in He as [_ (r0 & c0 & H0 & _) _ _]. congruence. }
  assert (db_ok (with_entries (with_pool db p2) (insert_entry key entry (db_entries db)) (wrap64 (next_entry_order db + 1))
    (wrap64 (next_update_order db + 1)))) as Hok1.
  { apply (publish_ok db p2 key entry); try done.
    - intros h' r0 c0 H0. rewrite R2. rewrite lookup_insert_ne by congruence. by do 2 eexists.
    - intros k e. rewrite insert_entry_perm, elem_of_cons. intros [[= -> ->]|?]; auto.
    - rewrite insert_entry_perm. csimpl. constructor; [done|apply Hok].
    - rewrite insert_entry_perm. csimpl. constructor; [|apply Hok].
      intros ([k e] & Ee & He)%list_elem_of_fmap. by apply (Hother k e).
    - exists r', []. simpl. split; [by rewrite R2, lookup_insert_eq|]. by rewrite Tr.
    - simpl. unfold prec, set_precedence_for. destruct phase; lia. }
  destruct (wake_ok _ _ _ _ (set_trace context instance field (type_identity type) h) Hok1 E4) as [Hok2 (Sp & Se & So)].
  split; [exact Hok2|]. exists entry. split; [done|]. simpl in Sp, Se. split.
  - done.
  - done.
  - rewrite Se. apply list_elem_of_fmap. exists (key, entry). split; [done|]. rewrite insert_entry_perm. left.
  - intros e' He'. rewrite Se, insert_entry_perm in He'. csimpl in He'. by apply elem_of_cons in He'.
  - exists r', []. rewrite Sp, R2. simpl. split; [apply lookup_insert_eq|]. by rewrite <- Vr.
  - intros h' Hh'. rewrite Sp, R2. simpl in Hh'. by rewrite lookup_insert_ne.
Qed.

Lemma db_set_spec db context instance_name field type value phase res db' : db_ok db ->
  next_update_order db + 1 < 2 ^ 64 -> 0 <= context_depth context ->
  let instance := full_instance_name (context_full_name context) instance_name in
  set limits resource_limits heap throws waiter_throws db context instance_name field type value phase = Ok (res, db') ->
  db_ok db' /\
  (clean (context_full_name context) /\ clean instance /\ clean field -> entries_clean db ->
   exists e, entry_resource e = set_handle res /\ published db db' context instance field type value phase e).
Proof.
  intros Hok Hwrap Hdepth instance E. unfold set in E. fold instance in E. cbv zeta in E.
  destruct (validate_context _ _); simpl in E; [|done].
  destruct (validate_pattern limits instance_name _); simpl in E; [|done].
  destruct (validate_pattern limits field _); simpl in E; [|done].
  destruct (validate_pattern limits instance _); simpl in E; [|done].
  destruct (_ || _); [done|]. destruct (validate_wake_budget _ _ _ _); simpl in E; [|done].
  destruct (find_entry _ _) as [found|] eqn:Ef.
  - apply find_entry_elem in Ef. pose proof (db_entries_ok _ Hok _ _ Ef) as [K1 _ _ _].
    destruct (set_existing_spec db context _ instance field type value phase found res db' Hok Hwrap Hdepth Ef E) as [Hok' He].
    split; [done|]. intros (D1 & D2 & D3) HC. destruct (HC found) as (C1 & C2 & C3).
    { apply list_elem_of_fmap. eexists. split; [|exact Ef]. done. }
    apply entry_key_inj in K1 as (_ & Ei & Efp & Et); [|done..]. by apply He.
  - apply find_entry_None in Ef. destruct (set_new_spec _ _ _ _ _ _ _ _ _ _ Hok Hwrap Hdepth eq_refl Ef E) as [Hok' He].
    by split.
Qed.

(** ** Reading back *)

(** The entries and the values they refer to are the same. *)
Definition same_settings (db db' : ConfigDb callback waiter_callback) : Prop :=
  db_entries db' = db_entries db /\
  forall h r cbs, resources (db_pool db) !! h = Some (r, cbs) ->
    exists r', resources (db_pool db') !! h = Some (r', cbs) /\
      resource_type r' = resource_type r /\ resource_value r' = resource_value r.

Lemma same_settings_trans db1 db2 db3 : same_settings db1 db2 -> same_settings db2 db3 -> same_settings db1 db3.
Proof.
  intros [E1 V1] [E2 V2]. split; [congruence|]. intros h r cbs Hr. destruct (V1 h r cbs Hr) as (r1 & H1 & T1 & W1).
  destruct (V2 h r1 cbs H1) as (r2 & H2 & T2 & W2). exists r2. split; [done|]. split; congruence.
Qed.

(** What is set at the highest precedence is what a matching get returns, as long
    as the settings stay the same. *)
Lemma set_then_get db context instance_name field type value phase res db' db1 context' instance_name' field' accessor r :
  db_ok db -> next_update_order db + 1 < 2 ^ 64 -> 0 <= context_depth context ->
  let instance := full_instance_name (context_full_name context) instance_name in
  let instance' := full_instance_name (context_full_name context') instance_name' in
  clean (context_full_name context) /\ clean instance /\ clean field -> entries_clean db ->
  set limits resource_limits heap throws waiter_throws db context instance_name field type value phase = Ok (res, db') ->
  same_settings db' db1 -> set_precedence_for limits context phase = default_precedence limits ->
  both_match limits instance instance' field field' = Ok true ->
  validate_context limits context' = Ok () -> size accessor <= max_accessor_bytes resource_limits ->
  resolve limits db1 instance' field' (type_identity type) = Ok r ->
  exists db'', get limits resource_limits heap throws db1 context' instance_name' field' (type_identity type) accessor
    = Ok (Some value, db'').
Proof.
  intros Hok Hwrap Hdepth instance instance' Hclean HC E [Ee Ev] Htop Hmatch Hctx Hacc Hres.
  destruct (db_set_spec _ _ _ _ _ _ _ _ _ Hok Hwrap Hdepth E) as (Hok' & Hpub).
  destruct (Hpub Hclean HC) as (e & _ & [(Pi & Pf & Pt) (Pp & Po) Pin Pothers (r0 & cbs & Hr0 & Vr0 & Hval0) _]).
  destruct (Ev _ _ _ Hr0) as (ru & Hr & Tr & Vr). rewrite Vr0 in Vr. assert (Hval := Hval0). rewrite <- Tr in Hval.
  pose proof (resolve_best _ _ _ _ _ Hres) as Hbest. rewrite Ee in Hbest.
  assert (candidate instance' field' (type_identity type) e) as Hc by (split; [done|]; by rewrite Pi, Pf).
  destruct r as [w|]; [|exfalso; by apply (Hbest e)]. destruct Hbest as (Win & Wc & Wbest).
  assert (w = e) as ->.
  { destruct (Pothers w Win) as [|Hold]; [done|]. specialize (Wbest e Pin Hc).
    apply list_elem_of_fmap in Hold as ([k w'] & -> & Hold). apply (db_entries_ok _ Hok) in Hold as [_ _ Hp Ho].
    unfold no_worse in Wbest. simpl in *. lia. }
  unfold get. rewrite Hctx. cbn [mbind outcome_bind]. cbv zeta. fold instance'. rewrite Hres. cbn [mbind outcome_bind].
  pose proof (read_returns resource_limits heap throws (db_pool db1) (entry_resource e) accessor ru cbs Hr Hacc) as Hread.
  rewrite Vr in Hread. destruct (Hread Hval) as (p & ->). cbn [mbind outcome_bind]. by eexists.
Qed.

(** ** Every operation *)

Lemma with_pool_ok db p : db_ok db -> pool_ok resource_limits p ->
  (forall h r cbs, resources (db_pool db) !! h = Some (r, cbs) ->
     exists r' cbs', resources p !! h = Some (r', cbs') /\ resource_type r' = resource_type r) -> db_ok (with_pool db p).
Proof.
  intros [H1 H2 H3 H4 H5 H6] Hp Hkeep. split; simpl; try done. intros key e [A (r & cbs & Hr & Ht) D E]%H2.
  split; simpl; try done. destruct (Hkeep _ _ _ Hr) as (r' & cbs' & Hr' & Et). exists r', cbs'. by rewrite Et.
Qed.

(** Operations that set nothing. *)
Inductive lookup_step (db : ConfigDb callback waiter_callback) : ConfigDb callback waiter_callback -> Prop :=
  | db_step_get context instance_name field type accessor v db' :
      get limits resource_limits heap throws db context instance_name field type accessor = Ok (v, db') -> lookup_step db db'
  | db_step_exists context instance_name field type spelling b l db' :
      exists_entry limits resource_limits db context instance_name field type spelling = Ok (b, l, db') -> lookup_step db db'
  | db_step_wait context instance_name field cb token db' :
      wait_modified limits db context instance_name field cb = Ok (token, db') -> lookup_step db db'
  | db_step_cancel token b db' : cancel_waiter db token = (b, db') -> lookup_step db db'
  | db_step_trace enabled : lookup_step db (set_config_trace_enabled db enabled)
  | db_step_trace_callback cb : lookup_step db (set_config_trace_callback db cb).

(** What can happen to a database: a set (the counter of updates is below its
    limit), an operation that sets nothing, or an operation of another user of the
    pool that does not erase the resource of an entry. *)
Inductive db_step (db : ConfigDb callback waiter_callback) : ConfigDb callback waiter_callback -> Prop :=
  | db_step_set context instance_name field type value phase res db' :
      next_update_order db + 1 < 2 ^ 64 -> 0 <= context_depth context ->
      set limits resource_limits heap throws waiter_throws db context instance_name field type value phase = Ok (res, db') ->
      db_step db db'
  | db_step_lookup db' : lookup_step db db' -> db_step db db'
  | db_step_pool p :
      pool_step resource_limits heap throws (db_pool db) p ->
      (forall e, e ∈ snd <$> db_entries db -> is_Some (resources p !! entry_resource e)) ->
      db_step db (with_pool db p).

Lemma db_get_ok db context instance_name field type accessor v db' : db_ok db ->
  get limits resource_limits heap throws db context instance_name field type accessor = Ok (v, db') -> db_ok db'.
Proof.
  intros Hok E. unfold get in E. destruct (validate_context _ _); simpl in E; [|done]. cbv zeta in E.
  destruct (resolve _ _ _ _ _) as [[e|]|]; simpl in E; [| |done].
  - destruct (read _ _ _ _ _ _) as [[value p]|] eqn:Er; simpl in E; [|done]. unfold mret, outcome_ret in E. injection E as <- <-.
    destruct (read_spec _ _ _ trace_room _ _ _ _ _ (db_pool_ok _ Hok) Er) as (r & cbs & Hr & _ & Hp & _ & R).
    apply trace_ok, with_pool_ok; [done..|]. intros h r0 c0 H0. rewrite R. destruct (decide (h = entry_resource e)) as [->|].
    + rewrite lookup_insert_eq. rewrite Hr in H0. simplify_eq. by do 2 eexists.
    + rewrite lookup_insert_ne by done. by do 2 eexists.
  - unfold mret, outcome_ret in E. injection E as <- <-. by apply trace_ok.
Qed.

Lemma exists_ok db context instance_name field type spelling b l db' : db_ok db ->
  exists_entry limits resource_limits db context instance_name field type spelling = Ok (b, l, db') ->
  db_ok db' /\ (b = true <-> exists e, resolve limits db (full_instance_name (context_full_name context) instance_name) field type = Ok (Some e)).
Proof.
  intros Hok E. unfold exists_entry in E. destruct (validate_context _ _); simpl in E; [|done]. cbv zeta in E.
  destruct (resolve _ _ _ _ _) as [entry|]; simpl in E; [|done].
  destruct (if _ && _ then _ else _) as [suggestions|]; simpl in E; [|done]. unfold mret, outcome_ret in E. injection E as <- <- <-.
  split; [by apply trace_ok|]. destruct entry as [e|]; simpl.
  - split; [intros _; by exists e|done].
  - split; [done|by intros (e & ?)].
Qed.

Lemma wait_ok db context instance_name field cb token db' : db_ok db ->
  wait_modified limits db context instance_name field cb = Ok (token, db') ->
  db_ok db' /\ (token ∉ waiter_token <$> db_waiters db) /\ (token ∈ waiter_token <$> db_waiters db').
Proof.
  intros Hok E. unfold wait_modified in E. destruct (validate_context _ _); simpl in E; [|done]. destruct (_ >=? _); [done|].
  cbv zeta in E. set (instance := full_instance_name _ _) in *.
  destruct (validate_pattern limits instance _); simpl in E; [|done]. destruct (validate_pattern limits field _); simpl in E; [|done].
  destruct (_ || _); [done|]. unfold mret, outcome_ret in E. injection E as <- <-.
  destruct (db_waiters_ok _ Hok) as [Hnd Hall].
  assert (next_waiter_token db ∉ waiter_token <$> db_waiters db) as Hfresh.
  { intros (w & Ew & Hw)%list_elem_of_fmap. rewrite Forall_forall in Hall. specialize (Hall w Hw). lia. }
  split_and!; [|done|].
  - apply (same_entries_ok db); [done..|]. simpl. rewrite fmap_app. csimpl. split.
    + apply NoDup_app. split_and!; [done| |apply NoDup_singleton]. intros x Hx ->%list_elem_of_singleton. done.
    + apply Forall_app. split; [|apply Forall_singleton; simpl; lia].
      eapply Forall_impl; [exact Hall|]. simpl. intros w Hw. lia.
  - simpl. rewrite fmap_app. csimpl. apply elem_of_app. right. left.
Qed.

Lemma cancel_ok db token b db' : db_ok db -> cancel_waiter db token = (b, db') ->
  db_ok db' /\ (token ∉ waiter_token <$> db_waiters db') /\
  (forall w, w ∈ db_waiters db' <-> w ∈ db_waiters db /\ waiter_token w <> token).
Proof.
  intros Hok E. injection E as <- <-. simpl. split_and!.
  - apply (same_entries_ok db); [done..|]. simpl. destruct (db_waiters_ok _ Hok) as [Hnd Hall]. split.
    + eapply sublist_NoDup; [exact Hnd|]. apply fmap_sublist, sublist_filter.
    + rewrite Forall_forall in Hall |- *. intros w [_ Hw]%list_elem_of_filter. auto.
  - intros (w & -> & [? _]%list_elem_of_filter)%list_elem_of_fmap. done.
  - intros w. rewrite list_elem_of_filter. tauto.
Qed.

Lemma same_settings_entries db db' : same_entries db db' -> same_settings db db'.
Proof. intros (Ep & Ee & _). split; [done|]. intros h r cbs Hr. rewrite Ep. eauto. Qed.

Lemma get_same db context instance_name field type accessor v db' : db_ok db ->
  get limits resource_limits heap throws db context instance_name field type accessor = Ok (v, db') -> same_settings db db'.
Proof.
  intros Hok E. unfold get in E. destruct (validate_context _ _); simpl in E; [|done]. cbv zeta in E.
  destruct (resolve _ _ _ _ _) as [[e|]|]; simpl in E; [| |done].
  - destruct (read _ _ _ _ _ _) as [[value p]|] eqn:Er; simpl in E; [|done]. unfold mret, outcome_ret in E. injection E as <- <-.
    destruct (read_spec _ _ _ trace_room _ _ _ _ _ (db_pool_ok _ Hok) Er) as (r & cbs & Hr & _ & _ & _ & R).
    eapply same_settings_trans; [|apply same_settings_entries, trace_same]. split; [done|]. simpl.
    intros h r0 c0 H0. rewrite R. destruct (decide (h = entry_resource e)) as [->|].
    + rewrite lookup_insert_eq. rewrite Hr in H0. simplify_eq. by eexists.
    + rewrite lookup_insert_ne by done. by eexists.
  - unfold mret, outcome_ret in E. injection E as <- <-. by apply same_settings_entries, trace_same.
Qed.

Lemma lookup_step_ok db db' : db_ok db -> lookup_step db db' -> db_ok db'.
Proof.
  intros Hok [context instance_name field type accessor v d E
    |context instance_name field type spelling b l d E|context instance_name field cb token d E|token b d E|enabled|cb].
  - by eapply db_get_ok.
  - by destruct (exists_ok _ _ _ _ _ _ _ _ _ Hok E).
  - by destruct (wait_ok _ _ _ _ _ _ _ Hok E).
  - by destruct (cancel_ok _ _ _ _ Hok E).
  - apply (same_entries_ok db); [done|done|apply Hok].
  - apply (same_entries_ok db); [done|done|apply Hok].
Qed.

Lemma lookup_step_same db db' : db_ok db -> lookup_step db db' -> same_settings db db'.
Proof.
  intros Hok [context instance_name field type accessor v d E
    |context instance_name field type spelling b l d E|context instance_name field cb token d E|token b d E|enabled|cb].
  - by eapply get_same.
  - unfold exists_entry in E. destruct (validate_context _ _); simpl in E; [|done]. cbv zeta in E.
    destruct (resolve _ _ _ _ _); simpl in E; [|done]. destruct (if _ && _ then _ else _); simpl in E; [|done].
    unfold mret, outcome_ret in E. injection E as <- <- <-. by apply same_settings_entries, trace_same.
  - unfold wait_modified in E. destruct (validate_context _ _); simpl in E; [|done]. destruct (_ >=? _); [done|].
    cbv zeta in E. set (instance := full_instance_name _ _) in *.
    destruct (validate_pattern limits instance _); simpl in E; [|done].
    destruct (validate_pattern limits field _); simpl in E; [|done]. destruct (_ || _); [done|].
    unfold mret, outcome_ret in E. injection E as <- <-. by apply same_settings_entries.
  - injection E as <- <-. by apply same_settings_entries.
  - by apply same_settings_entries.
  - by apply same_settings_entries.
Qed.

Lemma lookups_same db db' : db_ok db -> rtc lookup_step db db' -> same_settings db db'.
Proof.
  intros Hok H. induction H as [d|d1 d2 d3 H1 _ IH]; [by apply same_settings_entries|].
  eapply same_settings_trans; [by apply lookup_step_same|]. by eapply IH, lookup_step_ok.
Qed.

Lemma pool_change_ok db p : db_ok db -> pool_step resource_limits heap throws (db_pool db) p ->
  (forall e, e ∈ snd <$> db_entries db -> is_Some (resources p !! entry_resource e)) -> db_ok (with_pool db p).
Proof.
  intros Hok Hst Hlive. pose proof (db_pool_ok _ Hok) as Hp.
  destruct (pool_step_ok _ _ _ trace_room _ _ Hp Hst) as [Hp' _].
  pose proof (pool_step_types _ _ _ trace_room _ _ Hp Hst) as Ht.
  destruct Hok as [H1 H2 H3 H4 H5 H6]. split; simpl; try done. intros key e He.
  destruct (H2 key e He) as [A (r & cbs & Hr & Et) D E]. split; simpl; try done.
  destruct (Hlive e) as [[r' cbs'] Hr']; [apply list_elem_of_fmap; by exists (key, e)|].
  exists r', cbs'. split; [done|]. by rewrite (Ht _ _ _ _ _ Hr Hr').
Qed.

Lemma db_step_ok db db' : db_ok db -> db_step db db' -> db_ok db'.
Proof.
  intros Hok [context instance_name field type value phase res d Hw Hd E|d E|p Hst Hlive].
  - by destruct (db_set_spec _ _ _ _ _ _ _ _ _ Hok Hw Hd E).
  - by eapply lookup_step_ok.
  - by apply pool_change_ok.
Qed.

Lemma make_config_db_ok pool db : pool_ok resource_limits pool -> make_config_db limits pool = Ok db -> db_ok db.
Proof.
  intros Hp E. unfold make_config_db in E. destruct (_ || _); [done|]. unfold mret, outcome_ret in E. injection E as <-.
  split; simpl; try done; [by intros ? ? ?%not_elem_of_nil|constructor|constructor|split; constructor].
Qed.
End db.
