(* ===== verification/SchedulerProperties.v ===== *)
(** * Properties of the event scheduler

    One theorem per claim about the scheduler, with a witness on a concrete
    scheduler.  The proofs are applications of the scheduler library; nothing
    depends on this file. *)
From stdpp Require Import sorting relations.
From S2P Require Import Prelude CancellationSlots WorkQueue SchedulerState SchedulerApi SchedulerInvariant.
From S2P Require Import SchedulerCalls SchedulerRun SchedulerDispatch SchedulerProgress.

(** ** A concrete scheduler *)

(** Task 0 schedules task 1 five time units later, task 2 throws, every other
    task returns. *)
Definition demo_code (t : nat) : Program nat :=
  match t with
  | 0%nat => Call (ScheduleAfter 5 active 1 (Some 1%nat)) (fun _ => Return)
  | 2%nat => Raise (StdException (logic_error "task"))
  | _ => Return
  end.
Definition demo_hooks (t : nat) (phase : Z) : Program nat := Return.

Definition demo_empty : Scheduler nat :=
  mkScheduler 4 8 [] None 0 0 0 no_slots 0 64
    (mkStatus 0 0 0 false false false false false false [] 0) (mkHooks None [] 1 None [] 1 None).

Lemma demo_empty_made : new_scheduler 4 8 = Ok demo_empty.
Proof. reflexivity. Qed.
Lemma demo_empty_ok : sched_ok demo_empty.
Proof. exact (proj1 (new_scheduler_ok (Task := nat) 4 8 ltac:(done))). Qed.

(** Task 0 at time 3, and a cancelable task 3 at time 10. *)
Definition demo_filled : Scheduler nat :=
  fst (run_program
    (Call (ScheduleAt 3 active 0 (Some 0%nat)) (fun _ =>
     Call (ScheduleAfterCancelable 10 update 7 (Some 3%nat)) (fun _ => Return))) demo_empty).
Definition demo_handle : Identity := mkIdentity 0 1.

Lemma demo_filled_ok : sched_ok demo_filled.
Proof. exact (proj1 (run_program_keeps _ demo_empty demo_empty_ok)). Qed.

(** ** Runs *)

(** C1: a run of the event loop refines the abstract scheduler: a clock and a
    multiset of timed entries, where executing takes an entry due now, tasks
    and observers may add entries that are not in the past and remove
    cancelable ones, and the clock moves only to a time no pending entry
    precedes.  So executed entries come in order of time, an entry without a
    cancellation handle is executed or still pending, a completed run leaves no
    work, a run that met its limit stands at the limit with only later work
    left, and the clock never passes the limit.  The tasks are arbitrary
    programs. *)
Theorem run_refines_agenda {Task : Type} code hook_code fuel until (s : Scheduler Task) :
  sched_ok s ->
  let '(s', control) := run code hook_code fuel until s in
  let log := executed_by code hook_code fuel until s in
  sched_ok s' /\
  abstract_run (view s) log (view s') /\
  StronglySorted Z.le (fst <$> log) /\ Forall (fun p => now s <= fst p <= now s') log /\
  (forall p, p ∈ agenda s -> entry_cancellation (snd p) = None -> p ∈ log \/ p ∈ agenda s') /\
  (forall limit, until = Some limit -> now s <= limit -> now s' <= limit) /\
  done_ok until (s', control).
Proof.
  intros Hok. destruct (run_refines code hook_code fuel until s Hok) as (H1 & H2 & _).
  pose proof (run_done code hook_code fuel until s Hok) as Hd.
  pose proof (fun u => run_within code hook_code fuel u s Hok) as Hw.
  destruct (abstract_run_times _ _ _ H2) as (_ & H3 & H4).
  pose proof (abstract_run_conserves _ _ _ H2) as H5.
  destruct (run code hook_code fuel until s) as [s' control] eqn:E. simpl in *.
  split_and!; try done. intros u -> Hu. specialize (Hw u Hu). by rewrite E in Hw.
Qed.

Lemma run_refines_agenda_witness :
  let '(s', control) := run demo_code demo_hooks 200 (Some 9) demo_filled in
  fst <$> executed_by demo_code demo_hooks 200 (Some 9) demo_filled = [3; 8] /\
  control = Done (mkRunResult time_limit 9 0 2) /\ Forall (fun p => 9 < fst p) (agenda s').
Proof.
  pose proof (run_refines_agenda demo_code demo_hooks 200 (Some 9) demo_filled demo_filled_ok) as H.
  assert (snd (run demo_code demo_hooks 200 (Some 9) demo_filled) = Done (mkRunResult time_limit 9 0 2)) as E
    by (vm_compute; reflexivity).
  assert (now (fst (run demo_code demo_hooks 200 (Some 9) demo_filled)) = 9) as En by (vm_compute; reflexivity).
  destruct (run demo_code demo_hooks 200 (Some 9) demo_filled) as [s' control]. simpl in E, En. subst control.
  split; [vm_compute; reflexivity|]. split; [reflexivity|].
  destruct H as (_ & _ & _ & _ & _ & _ & _ & H). simpl in H. rewrite En in H. exact H.
Defined.

(** ** Queues *)

Definition demo_entry (order sequence : Z) : Entry nat := mkEntry order sequence (CallbackTask 1%nat) None.
(** A queue that was prepared for dispatch and then received an entry: one
    waits in the sorted bulk, one in the heap of insertions. *)
Definition demo_queue : WorkQueue nat :=
  push no_slots (fst (next no_slots (push no_slots empty_queue (demo_entry 5 0)))) (demo_entry 2 1).

Lemma demo_queue_ok : queue_ok demo_queue.
Proof. apply push_spec, next_spec, push_spec, empty_queue_ok. Qed.

(** C2: a work queue, whatever mix of sorted bulk, unsorted bulk and heap its
    entries are in, is a priority queue of its live entries: [push] adds the
    entry, [next] announces and [pop] removes a least live entry by order and
    sequence, [pop] throws exactly when no live entry is left, [empty] tells
    that case, and looking changes nothing. *)
Theorem queue_is_priority_queue {Task : Type} (cs : CancellationSlots Task) (q : WorkQueue Task) e :
  queue_ok q ->
  (queue_ok (push cs q e) /\ pending cs (push cs q e) ≡ₚ (if live cs e then [e] else []) ++ pending cs q) /\
  (queue_ok (fst (next cs q)) /\ pending cs (fst (next cs q)) ≡ₚ pending cs q) /\
  (queue_empty cs q = true <-> pending cs q = []) /\
  match pop cs q with
  | Ok (q', least) =>
      queue_ok q' /\ live cs least = true /\ pending cs q ≡ₚ least :: pending cs q' /\
      Forall (key_le least) (pending cs q') /\ snd (next cs q) = Some least
  | Throw x => x = bad_cursor /\ pending cs q = [] /\ snd (next cs q) = None
  end.
Proof.
  intros Hq. split; [by apply push_spec|]. split; [by apply next_spec|]. split; [by apply queue_empty_spec|].
  pose proof (pop_spec cs q Hq) as Hp. destruct (pop cs q) as [[q' least]|]; [|done].
  destruct Hp as [[P1 P2 P3 P4] P5]. done.
Qed.

Lemma queue_is_priority_queue_witness :
  snd (next no_slots demo_queue) = Some (demo_entry 2 1) /\
  match pop no_slots demo_queue with
  | Ok (q', least) => least = demo_entry 2 1 /\ Forall (key_le least) (pending no_slots q')
  | Throw _ => False
  end.
Proof.
  destruct (queue_is_priority_queue no_slots demo_queue (demo_entry 0 0) demo_queue_ok) as (_ & _ & _ & H).
  assert (snd (next no_slots demo_queue) = Some (demo_entry 2 1)) as E by (vm_compute; reflexivity).
  rewrite E in H. destruct (pop no_slots demo_queue) as [[q' least]|x].
  - destruct H as (_ & _ & _ & H & E2). injection E2 as <-. exact (conj E (conj eq_refl H)).
  - destruct H as (_ & _ & E2). discriminate E2.
Defined.

(** ** Calls *)

(** C8: a task is a program that calls the scheduler and reacts to the
    answers, errors included.  Whatever it does, the class invariant is kept:
    slots in order of time, none in the past, no live entry in a finished phase
    or a frozen batch, at most one entry per handle, every live entry with a
    task; and the parts only the dispatch loop may change are unchanged.  A new
    scheduler satisfies the invariant. *)
Theorem programs_keep_invariant {Task : Type} (p : Program Task) (s : Scheduler Task) limit capacity :
  sched_ok s ->
  (sched_ok (fst (run_program p s)) /\ frame s (fst (run_program p s))) /\
  (1 <= limit -> returns (new_scheduler (Task := Task) limit capacity) (fun s => sched_ok s /\ agenda s = [])).
Proof. intros Hok. split; [by apply run_program_keeps|apply new_scheduler_ok]. Qed.

Lemma programs_keep_invariant_witness :
  sched_ok (fst (run_program (demo_code 0) demo_empty)) /\
  fst <$> agenda (fst (run_program (demo_code 0) demo_empty)) = [5].
Proof.
  split; [|vm_compute; reflexivity].
  exact (proj1 (proj1 (programs_keep_invariant (demo_code 0) demo_empty 1 0 demo_empty_ok))).
Defined.

(** [schedule_at] with a task, a time that is not past, a valid phase and
    a free sequence number returns, and adds exactly one entry, for that task,
    at that time, with the given order and the next sequence number; it throws
    only if one of these fails, and an error leaves the agenda as it was. *)
Theorem schedule_at_exact {Task : Type} (s : Scheduler Task) time phase order task :
  sched_ok s -> discarding (status s) = false ->
  let '(s', r) := schedule_at time phase order task s in
  sched_ok s' /\ frame s s' /\
  match r with
  | inl _ => exists t, task = Some t /\
      agenda s' ≡ₚ (time, mkEntry order (next_sequence s) (CallbackTask t) None) :: agenda s
  | inr _ => agenda s' ≡ₚ agenda s /\
      (time < now s \/ task = None \/ phase_count <= phase \/ next_sequence s = U64_MAX)
  end /\
  (now s <= time -> is_Some task -> phase < phase_count -> next_sequence s <> U64_MAX -> r = inl ()).
Proof.
  intros Hok Hd. pose proof (schedule_at_spec s time phase order task Hok) as Hs.
  pose proof (schedule_at_refuses s time phase order task) as Hr.
  pose proof (schedule_at_accepts s time phase order) as Ha.
  destruct (schedule_at time phase order task s) as [s' [[]|f]].
  - destruct Hs as (added & [O F A] & Hj). unfold joined in Hj. rewrite Hd in Hj.
    destruct Hj as (e & (t & -> & ->) & ->). split_and!; try done. by exists t.
  - destruct Hs as [O F A]. split_and!; try done; [by apply (Hr s' f)|]. intros H1 [t ->] H3 H4.
    destruct (Hr s' f eq_refl) as [_ [H|[H|[H|H]]]]; [lia|done|lia|done].
Qed.

Lemma schedule_at_exact_witness :
  let '(s', r) := schedule_at 4 update 9 (Some 1%nat) demo_filled in
  r = inl () /\ agenda s' ≡ₚ (4, mkEntry 9 2 (CallbackTask 1%nat) None) :: agenda demo_filled.
Proof.
  pose proof (schedule_at_exact demo_filled 4 update 9 (Some 1%nat) demo_filled_ok) as H.
  assert (snd (schedule_at 4 update 9 (Some 1%nat) demo_filled) = inl ()) as E by (vm_compute; reflexivity).
  destruct (schedule_at 4 update 9 (Some 1%nat) demo_filled) as [s' r]. simpl in E. subst r.
  destruct H as (_ & _ & (t & [= <-] & H) & _); [reflexivity|].
  split; [reflexivity|]. assert (next_sequence demo_filled = 2) as E by (vm_compute; reflexivity).
  rewrite E in H. exact H.
Defined.

(** C18: [cancel] removes exactly the entry of its handle, if it is still
    pending, and nothing else; cancelling the handle a cancelable call just
    returned undoes what the call did to the agenda.  The handle is new, and
    until then its slot holds the task. *)
Theorem cancel_exact {Task : Type} (s : Scheduler Task) h delay phase order task :
  sched_ok s ->
  (sched_ok (cancel h s) /\ frame s (cancel h s) /\
   agenda (cancel h s) ≡ₚ List.filter (fun p => negb (of_handle h (snd p))) (agenda s)) /\
  match schedule_after_cancelable delay phase order task s with
  | (s', inl (Some id)) =>
      ~ issued (cancel_slots s) id /\ slot_live (cancel_slots s') id = true /\
      stored (cancel_slots s') id = task /\
      agenda s' ≡ₚ (now s + delay, mkEntry order (next_sequence s) SlotTask (Some id)) :: agenda s /\
      agenda (cancel (Some id) s') ≡ₚ agenda s
  | (s', _) => agenda s' ≡ₚ agenda s
  end.
Proof.
  intros Hok. split; [by apply cancel_spec|].
  pose proof (schedule_after_cancelable_spec s delay phase order task Hok) as Hs.
  pose proof (fun s' id => cancel_undoes s _ _ _ _ _ s' id Hok Hs) as Hu.
  destruct (schedule_after_cancelable delay phase order task s) as [s' [[id|]|f]].
  - destruct Hs as (added & [O F A] & Hj). unfold joined_handle in Hj.
    destruct (discarding (status s)); [by destruct Hj|].
    destruct Hj as (t & -> & id' & [= <-] & H1 & H2 & H3 & ->). split_and!; try done. by apply Hu.
  - destruct Hs as (added & [O F A] & Hj). unfold joined_handle in Hj.
    destruct (discarding (status s)); [by destruct Hj as [_ ->]|].
    destruct Hj as (t & _ & id & E & _). discriminate E.
  - by destruct Hs as [_ _ A].
Qed.

Lemma cancel_exact_witness :
  agenda (cancel (Some demo_handle) demo_filled)
  ≡ₚ List.filter (fun p => negb (of_handle (Some demo_handle) (snd p))) (agenda demo_filled) /\
  length (agenda demo_filled) = 2%nat /\ length (agenda (cancel (Some demo_handle) demo_filled)) = 1%nat.
Proof.
  split; [|split; vm_compute; reflexivity].
  exact (proj2 (proj2 (proj1 (cancel_exact demo_filled (Some demo_handle) 0 0 0 None demo_filled_ok)))).
Defined.

(** C19: a cancellation handle that was handed out and is no longer live never
    becomes live again, whatever slots are acquired, released or taken
    afterwards: the generation of a reused slot tells its occupants apart, and
    a slot whose 64-bit generation is used up is never reused.  A newly
    acquired handle was never handed out before, is live, and leaves every
    other handle as it was. *)
Theorem stale_handles_stay_dead {Task : Type} (cs cs' : CancellationSlots Task) id task :
  slots_ok cs -> rtc slots_step cs cs' ->
  slots_ok cs' /\
  (issued cs id -> slot_live cs id = false -> slot_live cs' id = false) /\
  ~ issued cs' (snd (acquire cs' task)) /\
  slot_live (fst (acquire cs' task)) (snd (acquire cs' task)) = true /\
  (issued cs' id -> slot_live (fst (acquire cs' task)) id = slot_live cs' id).
Proof.
  intros Hok Hst. destruct (slots_steps _ _ Hst Hok) as [Hok' _]. split; [done|].
  split; [intros Hi Hd; exact (dead_forever cs cs' id Hok Hi Hd Hst)|].
  pose proof (acquire_spec cs' task Hok') as Ha. destruct (acquire cs' task) as [cs2 id2].
  destruct Ha as (H1 & _ & H2 & _ & H3). split_and!; [done|done|apply H3].
Qed.

(** Slot 0 is acquired, released and acquired again. *)
Definition demo_slots : CancellationSlots nat := release (fst (acquire no_slots (Some 1%nat))) demo_handle.

Lemma stale_handles_stay_dead_witness :
  slot_live (fst (acquire demo_slots (Some 2%nat))) demo_handle = false /\
  slot_live (fst (acquire demo_slots (Some 2%nat))) (mkIdentity 0 2) = true.
Proof.
  assert (slots_ok demo_slots) as Hok.
  { apply release_ok, acquire_ok; [apply no_slots_ok|vm_compute; reflexivity]. }
  assert (rtc slots_step demo_slots (fst (acquire demo_slots (Some 2%nat)))) as Hst.
  { eapply rtc_l; [|apply rtc_refl]. apply step_acquire. vm_compute. reflexivity. }
  destruct (stale_handles_stay_dead _ _ demo_handle None Hok Hst) as (_ & H & _).
  split; [|vm_compute; reflexivity]. apply H; [|vm_compute; reflexivity].
  eexists. split; [vm_compute; reflexivity|]. vm_compute. split; discriminate.
Defined.

(** ** Delta cycles *)

(** Every task of a chain waits for the next delta: the state in which delta
    cycle 3 of at most 4 is over. *)
Definition delta_code (t : nat) : Program nat :=
  Call (ScheduleNextDelta active (Z.of_nat t) (Some (S t))) (fun _ => Return).
Definition chain_program : Program nat := Call (ScheduleAt 0 active 0 (Some 0%nat)) (fun _ => Return).
Definition chain_start : Scheduler nat := fst (run_program chain_program demo_empty).
Definition chain_end : Scheduler nat := fst (run delta_code demo_hooks 139 None chain_start).
Definition chain_slot : CurrentSlot nat :=
  default (mkCurrentSlot 0 0 0 [] [] [] empty_queue None 0 None empty_queue false) (current chain_end).

Lemma chain_end_ok : sched_ok chain_end.
Proof.
  refine (proj1 (run_refines delta_code demo_hooks 139 None chain_start _)).
  exact (proj1 (run_program_keeps chain_program demo_empty demo_empty_ok)).
Qed.
Lemma chain_slot_current : current chain_end = Some chain_slot.
Proof. vm_compute. reflexivity. Qed.

(** C20: when all phases of a delta cycle are over and tasks wait for the
    next one, the loop starts delta [n + 1] with exactly these tasks as long
    as [n + 1] is below the limit; at the limit it fails with
    DeltaCycleLimitError, which names the time, the limit and, once each, the
    orders of the waiting tasks.  The delta count therefore stays below the
    limit. *)
Theorem delta_limit_exact {Task : Type} code initial (s : Scheduler Task) c :
  sched_ok s -> current s = Some c -> stop (status s) = false ->
  bucket_empty (cancel_slots s) (slot_next_delta c) = false ->
  let '(s', control) := finished_phases code initial s c in
  sched_ok s' /\ agenda s' ≡ₚ agenda s /\
  if slot_delta c + 1 <? max_delta_cycles s then
    control = AtHead /\
    exists c', current s' = Some c' /\ slot_delta c' = slot_delta c + 1 /\ slot_phase c' = 0 /\
      slot_current c' = slot_next_delta c /\ slot_delta c' < max_delta_cycles s'
  else
    exists orders, control = Failed (DeltaCycleLimitError (now s) (max_delta_cycles s) orders
                                       (recent_signals (status s))) /\
      NoDup orders /\
      forall o, o ∈ orders <->
        exists q e, q ∈ slot_next_delta c /\ e ∈ pending (cancel_slots s) q /\ entry_order e = o.
Proof.
  intros Hok Hc Hst Hne. unfold finished_phases. rewrite Hst, Hne. cbn [negb].
  destruct (Z.geb_spec (slot_delta c + 1) (max_delta_cycles s)), (Z.ltb_spec (slot_delta c + 1) (max_delta_cycles s));
    try lia.
  - split; [by apply moves_status|]. split; [done|]. exists (pending_next_orders s).
    rewrite (slot_ok_time s c (ok_current s Hok c Hc)). split; [done|]. by apply pending_next_orders_spec.
  - destruct (advance_delta_moves s c Hok Hc ltac:(lia)) as [O A _ _ _]. split; [done|]. split; [done|].
    split; [done|]. eexists. split_and!; try done.
Qed.

Lemma delta_limit_exact_witness :
  let '(s', control) := finished_phases delta_code 0 chain_end chain_slot in
  control = Failed (DeltaCycleLimitError 0 4 [3] []) /\ sched_ok s' /\ agenda s' ≡ₚ agenda chain_end.
Proof.
  pose proof (delta_limit_exact delta_code 0 chain_end chain_slot chain_end_ok chain_slot_current) as H.
  assert (snd (finished_phases delta_code 0 chain_end chain_slot) = Failed (DeltaCycleLimitError 0 4 [3] [])) as E
    by (vm_compute; reflexivity).
  destruct (finished_phases delta_code 0 chain_end chain_slot) as [s' control].
  destruct H as (H1 & H2 & _); [vm_compute; reflexivity..|]. exact (conj E (conj H1 H2)).
Defined.

(** ** Resetting *)

(** Outside a run, [reset] empties the agenda, kills every pending
    handle, invalidates the order keys reserved before, restarts the clock and
    the sequence numbers and withdraws a stop request; during a run or a task
    it throws and changes nothing. *)
Theorem reset_exact {Task : Type} (s : Scheduler Task) (key : SchedulerOrderKey) :
  sched_ok s -> discarding (status s) = false ->
  let '(s', r) := reset s in
  if in_run (status s) || in_callback (status s) then s' = s /\ exists x, r = inr (StdException x)
  else
    r = inl () /\ sched_ok s' /\ agenda s' = [] /\ now s' = 0 /\ next_sequence s' = 0 /\ stop (status s') = false /\
    (forall id, id ∈ handles (agenda s) -> slot_live (cancel_slots s') id = false) /\
    (key_epoch key = reservation_epoch s -> valid_key s' key = false).
Proof.
  intros Hok Hd. destruct (in_run (status s) || in_callback (status s)) eqn:E.
  - unfold reset, discard_pending, unless_discarding. rewrite Hd. unfold mbind, act_bind. rewrite Hd, E.
    split; [done|by eexists].
  - apply orb_false_iff in E as [E1 E2].
    destruct (reset_spec s Hok Hd E1 E2) as (s' & -> & H1 & H2 & H3 & H4 & H5 & H6 & H7).
    split_and!; try done. intros Hk. unfold valid_key. rewrite Hk, H5, (proj2 (Z.eqb_neq _ _)); [by destruct (key_owner key)|].
    apply not_eq_sym, wrap64_succ_neq.
Qed.

Lemma reset_exact_witness :
  let '(s', r) := reset demo_filled in
  r = inl () /\ agenda s' = [] /\ slot_live (cancel_slots s') demo_handle = false /\
  valid_key s' (mkSchedulerOrderKey 0 0 true 0) = false.
Proof.
  pose proof (reset_exact demo_filled (mkSchedulerOrderKey 0 0 true 0) demo_filled_ok) as H.
  destruct (reset demo_filled) as [s' r].
  destruct H as (H1 & _ & H2 & _ & _ & _ & H3 & H4); [reflexivity|].
  split; [exact H1|]. split; [exact H2|]. split; [|apply H4; vm_compute; reflexivity].
  apply H3. apply list_elem_of_In. vm_compute. intuition.
Defined.

(** ** Progress *)

(** C34: the loop always makes progress, whatever tasks and observers do: a run
    with a time limit returns, with a result or an error, exactly when it
    executes finitely many entries, so a run that never returns executes
    entries forever and the loop never spins on its own.  In particular, when
    tasks and observers leave no more work pending than they found, every run
    with a limit returns; once it has, more fuel changes nothing. *)
Theorem run_makes_progress {Task : Type} code hook_code limit (s : Scheduler Task) :
  sched_ok s ->
  ((exists fuel, over (run code hook_code fuel (Some limit) s)) <->
   exists bound, forall fuel, (length (executed_by code hook_code fuel (Some limit) s) <= bound)%nat) /\
  ((forall t, thrifty (code t)) -> (forall t phase, thrifty (hook_code t phase)) ->
   exists fuel, over (run code hook_code fuel (Some limit) s)) /\
  (forall fuel fuel', over (run code hook_code fuel (Some limit) s) -> (fuel <= fuel')%nat ->
     run code hook_code fuel' (Some limit) s = run code hook_code fuel (Some limit) s).
Proof.
  intros Hok. split; [by apply run_returns|]. split; [|intros; by apply run_stable].
  intros Hc Hh. by apply thrifty_returns.
Qed.

(** Tasks that only return. *)
Definition idle_code (t : nat) : Program nat := Return.
Lemma return_thrifty : thrifty (Return : Program nat).
Proof. intros s _. simpl. lia. Qed.

Lemma run_makes_progress_witness :
  (exists bound, forall fuel, (length (executed_by demo_code demo_hooks fuel (Some 9%Z) demo_filled) <= bound)%nat) /\
  exists fuel, over (run idle_code demo_hooks fuel (Some 9) demo_filled).
Proof.
  split.
  - apply (proj1 (run_makes_progress demo_code demo_hooks 9 demo_filled demo_filled_ok)). exists 200%nat.
    vm_compute. exact I.
  - apply (proj1 (proj2 (run_makes_progress idle_code demo_hooks 9 demo_filled demo_filled_ok))); intros; apply return_thrifty.
Defined.
