(* ===== verification/ServiceProperties.v ===== *)
(** * Properties of encodings and patterns

    The block encoders of the waveform writer against the inflaters of the
    reader; round trip and success of the UVM packer; wildcard patterns, the
    configuration database's regular expressions and the edit distance behind
    spelling suggestions.  Nothing depends on this file. *)
From S2P Require Import Prelude StreamHash Sha256 FstCompression FstReader.
From S2P Require Import FstRoundTrip FstBitStream FstZlibRoundTrip.
From S2P Require Import GlobMatch ConfigPattern.
From S2P Require Import Logic WordSpan LogicWord PackedLogic4 PackedRange PackedConvert.
From S2P Require Import UvmPacker UvmPackerRoundTrip.

(** ** FST blocks *)

Definition sample_block : bytes := as_bytes "0000000000000000000000xxz1".
Definition sample_limits : FstCompressionLimits := mkFstCompressionLimits 1024 4096.
Definition encoded (kind : FstCompressionKind) : bytes :=
  match compress_fst_block sample_block kind sample_limits with Ok r => result_bytes r | Throw _ => [] end.

Lemma sample_block_bytes : Forall is_byte sample_block.
Proof. repeat (apply Forall_cons_2; [vm_compute; split; congruence|]). apply Forall_nil_2. Qed.

(** C10: whatever block the FST writer encodes, with the stored gzip container
    or with zlib runs in the fixed Huffman code, the FST reader's inflater for
    that kind of block, checksums and trailers verified, returns the original
    bytes; the result is labelled with the profile of its kind. *)
Theorem fst_block_round_trip input kind limits result limit base :
  Forall is_byte input -> compress_fst_block input kind limits = Ok result -> size input <= limit < 2 ^ 64 ->
  inflate_fst_block kind (result_bytes result) (size input) limit base = Read input /\
  result_identity result = profile_identity (fst_compression_profile kind).
Proof.
  intros Hin E Hl. split; [by eapply compress_round_trip|].
  unfold compress_fst_block in E. destruct (_ || _); [done|].
  destruct (match kind with HierarchyGzipStoreV1 => _ | InitialValueZlibFixedV1 => _ end); [|done].
  by injection E as <-.
Qed.

Lemma fst_block_round_trip_witness :
  inflate_fst_block HierarchyGzipStoreV1 (encoded HierarchyGzipStoreV1) 26 1024 0 = Read sample_block /\
  inflate_fst_block InitialValueZlibFixedV1 (encoded InitialValueZlibFixedV1) 26 1024 0 = Read sample_block /\
  size (encoded InitialValueZlibFixedV1) = 14.
Proof.
  split; [|split; [|vm_compute; reflexivity]].
  - destruct (compress_fst_block sample_block HierarchyGzipStoreV1 sample_limits) as [r|] eqn:E;
      [|vm_compute in E; discriminate E].
    pose proof (fst_block_round_trip _ _ _ _ 1024 0 sample_block_bytes E) as H. unfold encoded. rewrite E.
    apply H. vm_compute. split; congruence.
  - destruct (compress_fst_block sample_block InitialValueZlibFixedV1 sample_limits) as [r|] eqn:E;
      [|vm_compute in E; discriminate E].
    pose proof (fst_block_round_trip _ _ _ _ 1024 0 sample_block_bytes E) as H. unfold encoded. rewrite E.
    apply H. vm_compute. split; congruence.
Defined.

(** Both encoders succeed on every input whose size is a 32-bit number
    within the input limit, as soon as the output limit is six times the size
    plus 23 bytes: block headers, stored lengths and Huffman codes never exceed
    that. *)
Theorem fst_block_encodes input kind limits :
  Forall is_byte input -> size input <= U32_MAX ->
  1 <= maximum_input_bytes limits -> size input <= maximum_input_bytes limits ->
  6 * size input + 23 <= maximum_output_bytes limits ->
  exists result, compress_fst_block input kind limits = Ok result.
Proof. apply compress_returns. Qed.

Lemma fst_block_encodes_witness :
  exists result, compress_fst_block sample_block InitialValueZlibFixedV1 sample_limits = Ok result.
Proof. apply fst_block_encodes; [exact sample_block_bytes|vm_compute; congruence..]. Defined.

(** ** Patterns and spellings *)

(** C13: the iterative wildcard matcher, with its one remembered star, decides
    the declarative meaning of a pattern ([*] stands for any text, [?] for any
    character, every other character for itself) for values without a star; a
    match it reports is one for every value.  It returns on every pattern and
    value, after at most [length value * (length pattern + 1) + length pattern]
    turns, although a mismatch sends it back to its last star: any fuel from
    there on gives the same answer. *)
Theorem glob_match_decides pattern value :
  (glob_match pattern value = true -> Matches pattern value) /\
  (star_char ∉ value -> Matches pattern value -> glob_match pattern value = true) /\
  exists n, (n <= length value * (length pattern + 1) + length pattern)%nat /\
    forall fuel, (glob_bound pattern value <= fuel)%nat ->
      glob_match_steps fuel pattern value = Some (glob_match pattern value, n).
Proof.
  split; [apply glob_match_sound|]. split; [intros Hn; by apply glob_match_correct|].
  destruct (glob_match_returns pattern value (glob_bound pattern value) ltac:(lia)) as (r & n & E & Hn).
  exists n. split; [done|]. intros fuel Hf. unfold glob_match. rewrite E.
  replace fuel with (glob_bound pattern value + (fuel - glob_bound pattern value))%nat by lia.
  by apply glob_match_fuel.
Qed.

Lemma glob_match_decides_witness :
  Matches (text "top.*.agent?") (text "top.env.x.agent0") /\ ~ Matches (text "top.*.agent?") (text "top.env.agent").
Proof.
  split; [apply (proj1 (glob_match_decides _ _)); vm_compute; reflexivity|].
  intros H. apply (proj1 (proj2 (glob_match_decides _ _))) in H; [vm_compute in H; discriminate H|].
  rewrite list_elem_of_In. vm_compute. intuition discriminate.
Defined.

(** The coverage exclusions' matcher with a budget of operations shared
    between calls answers as the plain one while the budget lasts, and counts
    exactly the turns made; when the turns needed pass the budget it answers
    false and leaves the count one past the limit, which its caller reports. *)
Theorem budgeted_match_exact pattern value operations maximum :
  (operations <= maximum)%nat ->
  exists steps, (steps <= glob_bound pattern value)%nat /\
    glob_match_steps (glob_bound pattern value) pattern value = Some (glob_match pattern value, steps) /\
    budget_glob_match pattern value operations maximum =
      if (maximum <? operations + steps)%nat then (false, (maximum + 1)%nat)
      else (glob_match pattern value, (operations + steps)%nat).
Proof. apply budget_glob_match_spec. Qed.

Lemma budgeted_match_exact_witness :
  budget_glob_match (text "a*c") (text "abbc") 0 3 = (false, 4%nat) /\
  budget_glob_match (text "a*c") (text "abbc") 0 9 = (true, 5%nat).
Proof.
  destruct (budgeted_match_exact (text "a*c") (text "abbc") 0 3) as (steps & _ & E & H); [repeat constructor|].
  vm_compute in E. injection E as <-. rewrite H. split; vm_compute; reflexivity.
Defined.

(** C14: a pattern between slashes that parses to a sequence of quantified
    characters matches exactly the texts that split into one piece per atom,
    each repeated as its quantifier allows; the row-by-row matcher is used only
    within its budget and refuses otherwise; one that does not parse throws the
    parser's error.  Any other pattern is a wildcard pattern: a reported match
    is one ([*] any text, [?] any character), and for values without a star
    every match is reported. *)
Theorem config_pattern_decides maximum pattern value :
  if is_regex pattern then
    match parse_safe_regex pattern maximum with
    | Ok atoms =>
        if regex_over_budget atoms value maximum
        then pattern_matches maximum pattern value = Throw (length_error "UVM config regex work budget exceeded")
        else exists b, pattern_matches maximum pattern value = Ok b /\ (b = true <-> regex_lang atoms value)
    | Throw x => pattern_matches maximum pattern value = Throw x
    end
  else exists b, pattern_matches maximum pattern value = Ok b /\ (b = true -> Matches pattern value) /\
         (star_char ∉ value -> Matches pattern value -> b = true).
Proof.
  unfold pattern_matches, safe_regex_matches. destruct (is_regex pattern).
  - destruct (parse_safe_regex pattern maximum) as [atoms|x]; cbn [mbind outcome_bind]; [|done].
    destruct (regex_over_budget atoms value maximum); [done|]. eexists. split; [done|apply regex_matches_correct].
  - eexists. split; [done|]. split; [apply glob_match_sound|]. intros Hn. by apply glob_match_correct.
Qed.

Definition agent_atoms : list RegexAtom :=
  [mkRegexAtom "a" false OneOrMore; mkRegexAtom zero true ZeroOrMore; mkRegexAtom "1" false ZeroOrOne].

Lemma config_pattern_decides_witness :
  regex_lang agent_atoms (text "aaxyz1") /\ ~ regex_lang agent_atoms (text "xa1").
Proof.
  pose proof (config_pattern_decides 1024 (text "/^a+.*1?$/")) as H.
  change (parse_safe_regex (text "/^a+.*1?$/") 1024) with (Ok agent_atoms) in H.
  change (is_regex (text "/^a+.*1?$/")) with true in H. cbv iota in H.
  split.
  - destruct (H (text "aaxyz1")) as (b & E & Hb). apply Hb. vm_compute in E. congruence.
  - destruct (H (text "xa1")) as (b & E & Hb). intros Hl. apply Hb in Hl. subst b. vm_compute in E. discriminate E.
Defined.

(** An expression set below a context is matched against full names: it
    accepts exactly the context's name, a dot, and a text the expression
    accepts by itself.  The characters of the context have no special meaning.
    Contexts with brackets, parentheses, braces or bars are left out: the
    parser refuses them. *)
Theorem context_pattern_meaning context instance_name maximum atoms value :
  context <> [] -> is_regex instance_name = true -> parse_safe_regex instance_name maximum = Ok atoms ->
  Forall (fun c => is_unsupported c = false) context -> size context + 1 + size atoms <= maximum ->
  regex_over_budget (literals (context ++ ["."%char]) ++ atoms) value maximum = false ->
  exists b, pattern_matches maximum (full_instance_name context instance_name) value = Ok b /\
    (b = true <-> exists rest, value = (context ++ ["."%char]) ++ rest /\ regex_lang atoms rest).
Proof.
  intros Hc Hr Hp Hs Hm Hb. destruct (context_regex_parses context instance_name maximum atoms) as [Hr' Hp']; [done..|].
  unfold pattern_matches, safe_regex_matches. rewrite Hr', Hp'. cbn [mbind outcome_bind]. rewrite Hb.
  eexists. split; [done|]. rewrite regex_matches_correct. apply regex_lang_literals.
Qed.

Lemma context_pattern_meaning_witness :
  exists b, pattern_matches 1024 (full_instance_name (text "top.env") (text "/a+.*1?/")) (text "top.env.aa") = Ok b /\
    (b = true <-> exists rest, text "top.env.aa" = (text "top.env" ++ ["."%char]) ++ rest /\ regex_lang agent_atoms rest).
Proof.
  apply context_pattern_meaning.
  - discriminate.
  - reflexivity.
  - reflexivity.
  - repeat (apply Forall_cons_2; [reflexivity|]). apply Forall_nil_2.
  - vm_compute. congruence.
  - reflexivity.
Defined.

(** ** The UVM packer *)

(** A little-endian packer with names, and an object with a nested array. *)
Definition sample_packer : Packer := mkPacker (mkPackerPolicy Little true) (mkPackerLimits 4 4096 4096 4096 4096).
Definition sample_array : PackItem :=
  mkPackItem ["a"%char] [] Array empty_bits [] [] [] 0 0
    [with_real (blank_item [] [] Real) 4614253070214989087; with_bytes (blank_item [] [] Bytes) [1; 2; 255]].
Definition sample_items : list PackItem :=
  [with_integers (blank_item ["i"%char] [] Integers) [7; 18446744073709551615]; sample_array;
   with_string (blank_item [] ["t"%char] String) ["h"%char; "i"%char]].

Lemma sample_fits : Forall (item_fits sample_packer) sample_items.
Proof.
  repeat apply Forall_cons_2; [| | |apply Forall_nil_2].
  - apply item_fits_intro; [|discriminate]. split; [|discriminate].
    apply Forall_cons_2; [split; [discriminate|reflexivity]|].
    apply Forall_cons_2; [split; [discriminate|reflexivity]|]. apply Forall_nil_2.
  - apply item_fits_intro; [exact I|]. intros _. repeat apply Forall_cons_2; [| |apply Forall_nil_2].
    + apply item_fits_intro; [split; [discriminate|reflexivity]|discriminate].
    + apply item_fits_intro; [exact I|discriminate].
  - apply item_fits_intro; [exact I|discriminate].
Qed.

Lemma empty_plane : plane_ok 0 [].
Proof.
  split; [split; [done|constructor]|]. intros i Hi. unfold read_bit. replace (word_at [] _) with 0.
  - by rewrite Z.shiftr_0_l.
  - unfold word_at. by destruct (Z.to_nat _).
Qed.
Lemma empty_bits_wf : wf empty_bits.
Proof. split; [by split|apply empty_plane..|done|done|done]. Qed.

(** C9: what [pack] writes, in either byte order, with or without names, and
    nested arrays included, [unpack] reads back as the same list of items;
    without metadata the names are blank, and members that are not of an
    item's kind are not carried.  Integer arrays longer than the item limit
    are left out: they pack but do not unpack. *)
Theorem unpack_pack packer items result :
  maximum_items (packer_limits packer) < 2 ^ 64 /\ maximum_bits (packer_limits packer) < 2 ^ 64 /\
  maximum_payload_bytes (packer_limits packer) < 2 ^ 64 /\ maximum_text_bytes (packer_limits packer) < 2 ^ 64 ->
  0 <= maximum_items (packer_limits packer) -> 0 <= maximum_bits (packer_limits packer) ->
  0 <= maximum_payload_bytes (packer_limits packer) ->
  Forall (item_fits packer) items -> pack packer items = Packed result ->
  unpack packer (payload_bytes result) = Packed (unpacked packer <$> items).
Proof. intros Hl H1 H2 H3 Hf E. by apply pack_unpack. Qed.

Lemma unpack_pack_witness :
  exists result, pack sample_packer sample_items = Packed result /\
    unpack sample_packer (payload_bytes result) = Packed sample_items.
Proof.
  destruct (pack sample_packer sample_items) as [result|c m|x] eqn:E; [|vm_compute in E; discriminate E..].
  exists result. split; [reflexivity|].
  assert (Packed sample_items = Packed (unpacked sample_packer <$> sample_items)) as -> by (vm_compute; reflexivity).
  apply (unpack_pack sample_packer sample_items result).
  - vm_compute. repeat split.
  - vm_compute. congruence.
  - vm_compute. congruence.
  - vm_compute. congruence.
  - exact sample_fits.
  - exact E.
Defined.

(** [pack] succeeds on every list of items with well-formed vectors whose
    nesting is within the depth limit and whose total cost, a bound on the
    bytes, bits, items and text it uses, is within the other limits. *)
Theorem pack_succeeds packer items :
  Forall bits_wf items -> (items_depth items <= Z.to_nat (maximum_depth (packer_limits packer)))%nat ->
  (let cost := 14 + items_cost items in
   cost <= maximum_payload_bytes (packer_limits packer) /\ cost <= maximum_items (packer_limits packer) /\
   cost <= maximum_bits (packer_limits packer) /\ cost <= maximum_text_bytes (packer_limits packer)) ->
  exists result, pack packer items = Packed result.
Proof. apply pack_returns. Qed.

Lemma pack_succeeds_witness : exists result, pack sample_packer [blank_item [] [] Real] = Packed result.
Proof.
  apply pack_succeeds.
  - apply Forall_cons_2; [|apply Forall_nil_2]. apply bits_wf_intro; [|apply Forall_nil_2].
    exact empty_bits_wf.
  - vm_compute. repeat constructor.
  - vm_compute. repeat split; congruence.
Defined.
