(* ===== verification/ConfigProperties.v ===== *)
(** * Properties of the UVM resource pool and the configuration database

    The theorems hold for every set of callbacks, waiters and object heap;
    the witnesses use a pool and a database with a few resources.  Nothing
    depends on this file. *)
From stdpp Require Import relations sorting.
From S2P Require Import Prelude PackedLogic4 GlobMatch ConfigPattern UvmResource.
From S2P Require Import UvmResourceTheorems UvmConfigDb UvmConfigDbTheorems.

(** ** Concrete services *)

Definition some_limits : ResourceLimits := mkResourceLimits 8 64 64 64 64 64 8 4 4 2 3 64 8 1000.
Definition quiet (cb : nat) (event : CallbackEvent) (r : Resource) : bool := false.
Definition string_type : ResourceType := mkResourceType (text "string") KindString 0.
Definition describe (name scope : string) (p : Z) : ResourceDescriptor :=
  mkResourceDescriptor (text name) (text scope) string_type (StringValue (text name)) p false true.

Definition pool_after (m : Outcome (Z * ResourcePool nat)) : ResourcePool nat :=
  match m with Ok (_, p) => p | Throw _ => empty_pool end.
Definition pool_one : ResourcePool nat := pool_after (insert some_limits None empty_pool (describe "speed" "top.*" 5)).
Definition pool_two : ResourcePool nat := pool_after (insert some_limits None pool_one (describe "speed" "*" 7)).

Lemma empty_pool_good : pool_ok some_limits (empty_pool (callback := nat)).
Proof. apply empty_pool_ok; vm_compute; congruence. Qed.
Lemma pool_step_one : pool_step some_limits None quiet empty_pool pool_one.
Proof. apply (step_insert _ _ _ _ (describe "speed" "top.*" 5) 1). vm_compute. reflexivity. Qed.
Lemma pool_step_two : pool_step some_limits None quiet pool_one pool_two.
Proof. apply (step_insert _ _ _ _ (describe "speed" "*" 7) 2). vm_compute. reflexivity. Qed.
Lemma pool_two_good : pool_ok some_limits pool_two.
Proof.
  refine (proj1 (pool_step_ok some_limits None quiet _ pool_one pool_two _ pool_step_two)); [discriminate|].
  refine (proj1 (pool_step_ok some_limits None quiet _ empty_pool pool_one empty_pool_good pool_step_one)). discriminate.
Qed.

(** ** The resource pool *)

(** C27: every sequence of successful operations keeps the pool well typed:
    each resource holds a value of its declared type (and width), is stored
    under its own handle, and the audit and trace logs stay within their
    limits; and a handle that is not in use stays so unless it is the next new
    one, so an erased resource's handle is never given to another. *)
Theorem pool_stays_typed {callback : Type} limits heap (throws : callback -> CallbackEvent -> Resource -> bool) pool pool' :
  max_trace_records limits <> 0 -> pool_ok limits pool -> rtc (pool_step limits heap throws) pool pool' ->
  pool_ok limits pool' /\ keeps_handles pool pool' /\
  forall h r cbs, resources pool' !! h = Some (r, cbs) ->
    value_matches (resource_type r) (resource_value r) /\ resource_handle r = h.
Proof.
  intros Ht Hok Hst. assert (pool_ok limits pool' /\ keeps_handles pool pool') as [Hok' Hk].
  { induction Hst as [p|p1 p2 p3 H1 _ IH]; [split; [done|by split]|].
    destruct (pool_step_ok limits heap throws Ht p1 p2 Hok H1) as [Hok2 [K1 K2]]. destruct (IH Hok2) as [Hok3 [K3 K4]].
    split; [done|]. split; [lia|]. intros h Hh Hn. apply K4; [lia|]. by apply K2. }
  split; [done|]. split; [done|]. intros h r cbs E. by destruct (pool_resources_ok _ _ Hok' h r cbs E).
Qed.

Lemma pool_stays_typed_witness :
  pool_ok some_limits pool_two /\ keeps_handles (callback := nat) empty_pool pool_two.
Proof.
  destruct (pool_stays_typed some_limits None quiet empty_pool pool_two) as (H1 & H2 & _).
  - discriminate.
  - exact empty_pool_good.
  - eapply rtc_l; [exact pool_step_one|]. eapply rtc_l; [exact pool_step_two|]. apply rtc_refl.
  - exact (conj H1 H2).
Defined.

(** A lookup by name within its limits returns, and lists exactly the
    handles of the resources whose name, scope pattern and, if given, type
    match, each once, ordered by precedence, then priority, then age; its front
    is the best match, 0 exactly when nothing matches, and the lookup changes
    nothing but the log. *)
Theorem lookup_finds_best {callback : Type} limits (pool : ResourcePool callback) scope name type :
  max_trace_records limits <> 0 -> pool_ok limits pool ->
  size scope <= max_scope_bytes limits -> size name <= max_name_bytes limits ->
  (forall t, type = Some t -> size t <= max_type_identity_bytes limits) ->
  size (select pool (matches_name scope name type)) <= max_lookup_results limits ->
  exists l pool', lookup_name limits pool scope name type = Ok (l, pool') /\
    lookup_result pool (matches_name scope name type) l /\ logged limits pool pool' /\
    (front_handle l = 0 <-> forall h r, resource_at pool h = Some r -> matches_name scope name type r = false) /\
    forall r, resource_at pool (front_handle l) = Some r ->
      matches_name scope name type r = true /\
      forall h' r', resource_at pool h' = Some r' -> matches_name scope name type r' = true -> ranked_before r r'.
Proof.
  intros Ht Hok H1 H2 H3 H4. destruct (lookup_name_spec limits Ht pool scope name type Hok H1 H2 H3 H4) as (l & p & E & Hl & Hg).
  exists l, p. destruct (front_best limits pool _ l Hok Hl). done.
Qed.

Lemma lookup_finds_best_witness :
  exists l pool', lookup_name some_limits pool_two (text "top.env") (text "speed") None = Ok (l, pool') /\
    front_handle l = 2 /\ size l = 2.
Proof.
  destruct (lookup_finds_best some_limits pool_two (text "top.env") (text "speed") None) as (l & p & E & _).
  - discriminate.
  - exact pool_two_good.
  - vm_compute. congruence.
  - vm_compute. congruence.
  - discriminate.
  - vm_compute. congruence.
  - exists l, p. split; [exact E|]. vm_compute in E. injection E as <- _. split; vm_compute; reflexivity.
Defined.

(** Spelling suggestions are distinct names of existing resources within
    the requested distance, nearest first, and none is left out while there is
    room; the distance is the least number of substitutions, deletions and
    insertions that turns one name into the other. *)
Theorem spelling_suggestions_nearest {callback : Type} limits (pool : ResourcePool callback) name maximum suggestions :
  pool_ok limits pool -> spell_check limits pool name maximum = Ok suggestions ->
  NoDup suggestions /\
  (forall n, n ∈ suggestions ->
     (exists script, source_of script = name /\ target_of script = n /\ Z.of_nat (script_cost script) <= maximum) /\
     exists h r, resource_at pool h = Some r /\ resource_name r = n) /\
  (forall i j n1 n2 script, (i < j)%nat -> suggestions !! i = Some n1 -> suggestions !! j = Some n2 ->
     source_of script = name -> target_of script = n2 -> (edit_distance name n1 <= script_cost script)%nat) /\
  (forall h r, resource_at pool h = Some r -> Z.of_nat (edit_distance name (resource_name r)) <= maximum ->
     resource_name r ∈ suggestions \/ Z.of_nat (length suggestions) = max_spell_candidates limits \/
     max_spell_candidates limits < 0).
Proof.
  intros Hok E. destruct (spell_check_spec limits pool name maximum suggestions Hok E) as (H1 & H2 & H3 & H4).
  split_and!; [done| | |done].
  - intros n Hn. destruct (H2 n Hn) as [Hd Hr]. split; [|done].
    destruct (edit_distance_least name n) as [(script & S1 & S2 & S3) _]. exists script. rewrite S3. done.
  - intros i j n1 n2 script Hij E1 E2 S1 S2. etrans; [by eapply H3|]. by apply (edit_distance_least name n2).
Qed.

Lemma spelling_suggestions_nearest_witness :
  spell_check some_limits pool_two (text "spede") 2 = Ok [text "speed"] /\
  exists script, source_of script = text "spede" /\ target_of script = text "speed" /\ Z.of_nat (script_cost script) <= 2.
Proof.
  assert (spell_check some_limits pool_two (text "spede") 2 = Ok [text "speed"]) as E by (vm_compute; reflexivity).
  split; [exact E|].
  destruct (spelling_suggestions_nearest some_limits pool_two _ _ _ pool_two_good E) as (_ & H & _).
  apply (H (text "speed")). left.
Defined.

(** ** The configuration database *)

Definition db_limits : ConfigLimits := mkConfigLimits 8 8 64 64 64 9 1024 8 1024 8 1024 100.
Definition calm (cb : nat) (token : Z) (e : ConfigEntry) : bool := false.
Definition some_db : Type := ConfigDb nat nat.
Definition db_empty : some_db := match make_config_db db_limits empty_pool with Ok db => db | Throw _ =>
  mkConfigDb empty_pool [] [] 1 0 0 0 0 false [] 0 0 None 0 end.
Definition root : ConfigContext := mkConfigContext [] 0.
Definition top : ConfigContext := mkConfigContext (text "top") 1.

Definition speed_set (db : some_db) (context : ConfigContext) (instance : string) (value : string) (phase : ConfigPhase) :=
  set db_limits some_limits None quiet calm db context (text instance) (text "speed") string_type
    (StringValue (text value)) phase.
Definition db_after {A} (m : Outcome (A * some_db)) : some_db := match m with Ok (_, db) => db | Throw _ => db_empty end.

(** A waiter on [top.env.speed], then two values published by [top]. *)
Definition db_waiting : some_db :=
  db_after (wait_modified db_limits db_empty top (text "env") (text "speed") 7%nat).
Definition db_set : some_db := db_after (speed_set db_waiting top "*" "fast" RuntimePhase).

Lemma clean_check (l : list ascii) : forallb (fun c => negb (Ascii.eqb c unit_separator)) l = true -> clean l.
Proof.
  intros H Hin. rewrite forallb_forall in H. specialize (H _ (proj1 (list_elem_of_In _ _) Hin)). vm_compute in H. done.
Qed.
Lemma db_empty_good : db_ok db_limits some_limits db_empty.
Proof. apply (make_config_db_ok db_limits some_limits empty_pool); [exact empty_pool_good|reflexivity]. Qed.
Lemma db_waiting_good : db_ok db_limits some_limits db_waiting.
Proof.
  refine (proj1 (wait_ok db_limits some_limits calm db_empty top (text "env") (text "speed") 7%nat 1 _ db_empty_good _)).
  vm_compute. reflexivity.
Qed.
Lemma top_clean : clean (context_full_name top) /\ clean (full_instance_name (context_full_name top) (text "*")) /\ clean (text "speed").
Proof. split; [|split]; apply clean_check; vm_compute; reflexivity. Qed.
Lemma db_set_step : db_step db_limits some_limits None quiet calm db_waiting db_set.
Proof.
  eapply (db_step_set db_limits some_limits None quiet calm db_waiting top (text "*") (text "speed") string_type
    (StringValue (text "fast")) RuntimePhase).
  - vm_compute. reflexivity.
  - vm_compute. congruence.
  - vm_compute. reflexivity.
Qed.
Lemma db_set_good : db_ok db_limits some_limits db_set.
Proof. apply (db_step_ok db_limits some_limits None quiet calm ltac:(discriminate) db_waiting); [exact db_waiting_good|exact db_set_step]. Qed.

(** C29: resolution picks, among the entries of the requested type whose
    instance and field patterns match, one of highest precedence and, among
    those, the latest set; it finds none exactly when no entry matches. *)
Theorem resolution_is_best {callback waiter_callback : Type} limits (db : ConfigDb callback waiter_callback)
    instance field type r :
  resolve limits db instance field type = Ok r ->
  match r with
  | None => forall e, e ∈ snd <$> db_entries db -> ~ candidate limits instance field type e
  | Some e => e ∈ snd <$> db_entries db /\ candidate limits instance field type e /\
      forall e', e' ∈ snd <$> db_entries db -> candidate limits instance field type e' ->
        entry_precedence e' < entry_precedence e \/
        (entry_precedence e' = entry_precedence e /\ update_order e' <= update_order e)
  end.
Proof. apply resolve_best. Qed.

Lemma resolution_is_best_witness :
  exists e, resolve db_limits db_set (text "top.env") (text "speed") (text "string") = Ok (Some e) /\
    candidate db_limits (text "top.env") (text "speed") (text "string") e.
Proof.
  destruct (resolve db_limits db_set (text "top.env") (text "speed") (text "string")) as [[e|]|x] eqn:E;
    [|vm_compute in E; discriminate E..].
  exists e. split; [reflexivity|]. exact (proj1 (proj2 (resolution_is_best _ _ _ _ _ _ E))).
Defined.

(** C30: a value set in a consistent database at the highest precedence (at run
    time, or by the root while building) is read back: after the set returns and any number of gets,
    existence checks, waits, cancellations and trace settings, but no other set
    and no use of the shared pool by others, a get of the same type whose instance and field
    the set's patterns match returns the value, or throws what resolution throws (a
    pattern of some entry that is too expensive to match).  The names of the set
    and of the entries so far contain no unit separator 0x1f, the counter of
    updates is below its limit of 2^64, and the get's context and accessor are
    valid. *)
Theorem set_is_read_back {callback waiter_callback : Type} limits resource_limits heap throws waiter_throws
    (db : ConfigDb callback waiter_callback) context instance_name field type value phase res db1 db2
    context' instance_name' field' accessor :
  max_trace_records resource_limits <> 0 -> db_ok limits resource_limits db -> entries_clean db ->
  next_update_order db + 1 < 2 ^ 64 -> 0 <= context_depth context ->
  let instance := full_instance_name (context_full_name context) instance_name in
  let instance' := full_instance_name (context_full_name context') instance_name' in
  clean (context_full_name context) /\ clean instance /\ clean field ->
  set limits resource_limits heap throws waiter_throws db context instance_name field type value phase = Ok (res, db1) ->
  rtc (lookup_step limits resource_limits heap throws) db1 db2 ->
  (phase = RuntimePhase \/ context_depth context = 0) ->
  both_match limits instance instance' field field' = Ok true ->
  validate_context limits context' = Ok () -> size accessor <= max_accessor_bytes resource_limits ->
  match resolve limits db2 instance' field' (type_identity type) with
  | Ok _ => exists db3, get limits resource_limits heap throws db2 context' instance_name' field' (type_identity type) accessor
      = Ok (Some value, db3)
  | Throw x => get limits resource_limits heap throws db2 context' instance_name' field' (type_identity type) accessor = Throw x
  end.
Proof.
  intros Ht Hok HC Hw Hd instance instance' Hc Hs Hst Hp Hm Hv Ha.
  destruct (resolve limits db2 instance' field' (type_identity type)) as [r|x] eqn:Hr.
  - destruct (db_set_spec limits resource_limits heap throws waiter_throws Ht db _ _ _ _ _ _ _ _ Hok Hw Hd Hs) as [Hok1 _].
    refine (set_then_get limits resource_limits heap throws waiter_throws Ht db context instance_name field type value phase
      res db1 db2 context' instance_name' field' accessor r Hok Hw Hd Hc HC Hs _ _ Hm Hv Ha Hr).
    + by eapply lookups_same.
    + unfold set_precedence_for. destruct phase; [|done]. destruct Hp as [?| ->]; [done|lia].
  - unfold get. rewrite Hv. cbn [mbind outcome_bind]. cbv zeta. fold instance'. by rewrite Hr.
Qed.

(** A get by the root in between. *)
Definition db_got : some_db :=
  db_after (get db_limits some_limits None quiet db_set root (text "top.env") (text "speed") (text "string") (text "test")).

Lemma set_is_read_back_witness :
  exists db3, get db_limits some_limits None quiet db_got root (text "top.env") (text "speed") (text "string") (text "test")
    = Ok (Some (StringValue (text "fast")), db3).
Proof.
  assert (match resolve db_limits db_got (text "top.env") (text "speed") (text "string") with
    | Ok _ => exists db3, get db_limits some_limits None quiet db_got root (text "top.env") (text "speed") (text "string") (text "test")
        = Ok (Some (StringValue (text "fast")), db3)
    | Throw x => get db_limits some_limits None quiet db_got root (text "top.env") (text "speed") (text "string") (text "test") = Throw x
    end) as H.
  - eapply (set_is_read_back db_limits some_limits None quiet calm db_waiting top (text "*") (text "speed") string_type
      (StringValue (text "fast")) RuntimePhase (mkSetResult 1 [1]) db_set db_got root (text "top.env") (text "speed") (text "test")).
    + discriminate.
    + exact db_waiting_good.
    + intros e He. vm_compute in He. by apply not_elem_of_nil in He.
    + vm_compute. reflexivity.
    + vm_compute. congruence.
    + exact top_clean.
    + vm_compute. reflexivity.
    + eapply rtc_l; [|apply rtc_refl].
      eapply (db_step_get _ _ _ _ db_set root (text "top.env") (text "speed") (text "string") (text "test")). vm_compute. reflexivity.
    + left. reflexivity.
    + vm_compute. reflexivity.
    + reflexivity.
    + vm_compute. congruence.
  - destruct (resolve db_limits db_got (text "top.env") (text "speed") (text "string")) as [r|x] eqn:E;
      [exact H|vm_compute in E; discriminate E].
Defined.

(** A set wakes exactly the waiters whose instance and field its patterns
    match, in the order they registered, and forgets them, so each is woken at
    most once; the other waiters stay, and entries and values are left alone. *)
Theorem waiters_are_one_shot {callback waiter_callback : Type} limits waiter_throws
    (db : ConfigDb callback waiter_callback) entry woken db' :
  NoDup (waiter_token <$> db_waiters db) ->
  trigger_waiters limits waiter_throws db entry = Ok (woken, db') ->
  db_pool db' = db_pool db /\ db_entries db' = db_entries db /\
  (forall w, w ∈ db_waiters db' <->
     w ∈ db_waiters db /\ ~ woken_by limits (instance_pattern entry) (field_pattern entry) w) /\
  exists wake, woken = waiter_token <$> wake /\ NoDup wake /\ StronglySorted by_registration wake /\
    (forall w, w ∈ wake <-> w ∈ db_waiters db /\ woken_by limits (instance_pattern entry) (field_pattern entry) w) /\
    forall w, w ∈ wake -> waiter_token w ∉ waiter_token <$> db_waiters db'.
Proof.
  intros Hnd E. destruct (trigger_waiters_spec limits waiter_throws db entry woken db' Hnd E) as ((H1 & H2 & _) & _ & Ew & wake & -> & Hs & Hp).
  assert (forall w, w ∈ db_waiters db' <-> w ∈ db_waiters db /\
    ~ woken_by limits (instance_pattern entry) (field_pattern entry) w) as Hstay.
  { intros w. rewrite Ew, list_elem_of_filter. tauto. }
  assert (forall w, w ∈ wake <-> w ∈ db_waiters db /\
    woken_by limits (instance_pattern entry) (field_pattern entry) w) as Hwake.
  { intros w. rewrite Hp, list_elem_of_filter. tauto. }
  split_and!; [done|done|done|]. exists wake. split_and!; [done| |done|done|].
  - rewrite Hp. apply NoDup_filter. by apply (NoDup_fmap_1 waiter_token).
  - intros w [Hin Hw]%Hwake (w' & Et & [Hin' Hn]%Hstay)%list_elem_of_fmap.
    apply Hn. by rewrite <- (NoDup_fmap_eq waiter_token (db_waiters db) w w').
Qed.

Lemma waiters_are_one_shot_witness :
  exists entry db', trigger_waiters db_limits calm db_waiting entry = Ok ([1], db') /\ db_waiters db' = [].
Proof.
  pose (entry := mkConfigEntry 1 (text "top") (text "top.*") (text "speed") (text "string") 100 0 0 RuntimePhase).
  destruct (trigger_waiters db_limits calm db_waiting entry) as [[woken db']|x] eqn:E; [|vm_compute in E; discriminate E].
  destruct (waiters_are_one_shot db_limits calm db_waiting entry woken db') as (_ & _ & _ & wake & E2 & _).
  - apply (db_waiters_ok _ _ _ db_waiting_good).
  - exact E.
  - exists entry, db'. rewrite E. vm_compute in E. injection E as <- <-. split; reflexivity.
Defined.

(** C32: every sequence of successful operations of the database, also with
    successful operations of other users on the shared pool in between that do
    not erase the resource of an entry, keeps the database consistent as long as
    fewer than 2^64 - 1 updates are made: entries have distinct keys, each the key of its context,
    patterns and type, and refer to distinct live resources of that type;
    update times stay below the clock; waiter tokens are distinct and below
    the next one; and the pool stays well typed.  A new database over a good
    pool is consistent. *)
Theorem database_stays_consistent {callback waiter_callback : Type} limits resource_limits heap throws waiter_throws
    (db db' : ConfigDb callback waiter_callback) :
  max_trace_records resource_limits <> 0 -> db_ok limits resource_limits db ->
  rtc (db_step limits resource_limits heap throws waiter_throws) db db' ->
  db_ok limits resource_limits db' /\
  forall pool new, pool_ok resource_limits pool -> make_config_db (waiter_callback := waiter_callback) limits pool = Ok new ->
    db_ok (callback := callback) limits resource_limits new.
Proof.
  intros Ht Hok Hst. split; [|intros pool new; apply make_config_db_ok].
  induction Hst as [d|d1 d2 d3 H1 _ IH]; [done|]. by eapply IH, db_step_ok.
Qed.

Lemma database_stays_consistent_witness :
  db_ok db_limits some_limits db_set /\ length (db_entries db_set) = 1%nat.
Proof.
  split; [|vm_compute; reflexivity].
  refine (proj1 (database_stays_consistent db_limits some_limits None quiet calm db_waiting db_set _ db_waiting_good _)).
  - discriminate.
  - eapply rtc_l; [exact db_set_step|apply rtc_refl].
Defined.

(** ** Names with the unit separator *)

(** The entry keys separate names by the character 0x1f, which names may contain:
    the second set, of field c below a<1f>b, is taken for the first, of field b<1f>c
    below a, whose value it replaces; its own name is not found. *)
Definition shared_key_read : Outcome (option ResourceValue * option ResourceValue * Z) :=
  let us := [unit_separator] in
  let put db instance field value :=
    set db_limits some_limits None quiet calm db root instance field string_type (StringValue (text value)) RuntimePhase in
  let look db instance field := get db_limits some_limits None quiet db root instance field (text "string") (text "test") in
  '(_, db) ← put db_empty (text "a") (text "b" ++ us ++ text "c") "one";
  '(_, db) ← put db (text "a" ++ us ++ text "b") (text "c") "two";
  '(v1, db) ← look db (text "a") (text "b" ++ us ++ text "c");
  '(v2, db) ← look db (text "a" ++ us ++ text "b") (text "c");
  Ok (v1, v2, size (db_entries db)).

Lemma separator_shares_entry : shared_key_read = Ok (Some (StringValue (text "two")), None, 1).
Proof. vm_compute. reflexivity. Qed.
