(* ===== verification/Properties.v ===== *)
(** * Properties of packed values, read pins and hashes

    The theorems with a claim number are the properties of the development
    about these components, each with a witness that applies it to concrete
    values; the unnumbered ones are the parts they are put together from and
    further facts.  The proofs are applications of the component libraries;
    nothing depends on this file. *)
From stdpp Require Import relations.
From S2P Require Import Prelude Logic WordSpan LogicWord PackedLogic4 PackedRange PackedConvert.
From S2P Require Import PackedText PackedNumeric PackedBit2 PackedLogic9 Resolve KernelWord.
From S2P Require Import SimirArithmetic IntegerArithmetic RippleArithmetic BinaryEquivalence.
From S2P Require Import KernelEquivalence SimirLogic LogicEquivalence ShiftEquivalence.
From S2P Require Import SelectEquivalence ReaderPins StreamHash Sha256 PayloadChecksum.

(** ** Concrete values for the witnesses *)

Definition nothing : PackedLogic4 := mkPackedLogic4 0 false [] [] [] [] false.
Definition value_of (m : Outcome PackedLogic4) : PackedLogic4 :=
  match m with Ok v => v | Throw _ => nothing end.

(** The four-state and the nine-state vector a text spells. *)
Definition vec4 (text : string) : PackedLogic4 := value_of (from_msb_string (list_ascii_of_string text)).
Definition vec9 (text : string) : PackedLogic4 := value_of (from_logic9_msb_string (list_ascii_of_string text)).

Definition digits (p : ascii -> bool) (text : string) : bool :=
  (size (list_ascii_of_string text) <=? SIZE_MAX / 4) && forallb p (list_ascii_of_string text).

Lemma digits_inv (P : ascii -> Prop) p text : (forall c, p c = true -> P c) -> digits p text = true ->
  size (list_ascii_of_string text) <= SIZE_MAX / 4 /\ Forall P (list_ascii_of_string text).
Proof.
  intros HP (Hs%Z.leb_le & Hd)%andb_true_iff. split; [done|]. apply Forall_forall. intros c Hc.
  apply HP. rewrite forallb_forall in Hd. by apply Hd, list_elem_of_In.
Qed.

Definition digits4 : string -> bool := digits (fun c => match parse_logic4 c with Some _ => true | None => false end).
Definition digits9 : string -> bool := digits (fun c => match parse_logic9 c with Some _ => true | None => false end).

Lemma vec4_rep text : digits4 text = true ->
  wf (vec4 text) /\ is_logic9 (vec4 text) = false /\ has_live_plane_backing (vec4 text) = false.
Proof.
  intros [Hs Hd]%(digits_inv (fun c => is_Some (parse_logic4 c)));
    [|intros c Hc; by destruct (parse_logic4 c)].
  destruct (returns_inv _ _ (from_msb_string_spec _ Hs Hd)) as (v & Ev & [R1 R2 R3 R4 R5]).
  unfold vec4. by rewrite Ev.
Qed.

Lemma vec9_rep text : digits9 text = true ->
  wf (vec9 text) /\ is_logic9 (vec9 text) = true /\ has_live_plane_backing (vec9 text) = false.
Proof.
  intros [Hs Hd]%(digits_inv (fun c => is_Some (parse_logic9 c)));
    [|intros c Hc; by destruct (parse_logic9 c)].
  destruct (returns_inv _ _ (from_logic9_msb_string_spec _ Hs Hd)) as (v & Ev & [R1 R2 R3 R4 R5]).
  unfold vec9. by rewrite Ev.
Qed.

Lemma all_known_check v : forallb (known_at v) (up 0 (width v)) = true -> all_known v.
Proof. intros H i Hi. by apply (proj1 (forallb_up 0 (width v) (known_at v)) H). Qed.

(** Discharge a side condition on a concrete value. *)
Ltac concrete :=
  lazymatch goal with
  | |- wf (vec4 _) => refine (proj1 (vec4_rep _ _)); vm_compute; reflexivity
  | |- wf (vec9 _) => refine (proj1 (vec9_rep _ _)); vm_compute; reflexivity
  | |- all_known _ => apply all_known_check; vm_compute; reflexivity
  | |- _ = _ => vm_compute; reflexivity
  | |- _ <> _ => vm_compute; discriminate
  | |- _ => vm_compute; intuition discriminate
  end.

Ltac concrete_net :=
  unfold net_of; repeat (apply Forall_cons_2; [split; concrete|]); apply Forall_nil_2.

(** ** Binary operators *)

(** C3: [binary_value] answers narrow operands with machine-word code and
    falls back to element-by-element code; for every operator and every pair
    of well-formed operands of one nonzero width the two agree exactly, value
    and representation.  Signed power of a nine-state base is left out. *)
Theorem binary_dispatch_equivalence operation lhs rhs :
  wf lhs -> wf rhs -> width rhs = width lhs -> 0 < width lhs ->
  (operation = power_signed -> is_logic9 lhs = false) ->
  binary_value operation lhs rhs = reference_value operation lhs rhs.
Proof. intros. by apply binary_value_reference. Qed.

Lemma binary_dispatch_equivalence_witness :
  binary_value modulo_signed (vec4 "1001") (vec4 "0011")
  = reference_value modulo_signed (vec4 "1001") (vec4 "0011") /\
  binary_value modulo_signed (vec4 "1001") (vec4 "0011") = Ok (vec4 "0010").
Proof. split; [apply binary_dispatch_equivalence; concrete|vm_compute; reflexivity]. Defined.

(** C4: every arithmetic operator on known operands of one nonzero width returns
    the four-state vector of the mathematical result modulo 2^width (two's
    complement for the signed ones), all X for a division by zero, and all X when
    an operand element is unknown.  Signed power of a nine-state base is left
    out: there the result of the code can be a nine-state vector. *)
Theorem binary_arithmetic_meaning operation lhs rhs :
  wf lhs -> wf rhs -> width rhs = width lhs -> 0 < width lhs -> is_arithmetic operation = true ->
  (operation = power_signed -> is_logic9 lhs = false) ->
  returns (binary_value operation lhs rhs) (fun r => Rep r (width lhs) false (fun i =>
    if some_unknown lhs || some_unknown rhs then to_logic9 Logic4_x
    else meaning_element (arithmetic_meaning operation (width lhs) (uvalue lhs) (uvalue rhs)) i)).
Proof.
  intros Hl Hr Wr Hw Ha Hp. rewrite binary_value_reference by done.
  assert (reference_value operation lhs rhs = vector_reference operation lhs rhs) as ->
    by by destruct operation.
  eapply returns_mono; [by apply vector_reference_spec|]. intros r HR.
  unfold vector_nine, vector_element in HR. rewrite Ha in HR. eapply Rep_ext; [exact HR|].
  intros i Hi. cbv beta. rewrite some_pair_unknown by done. done.
Qed.

Lemma binary_arithmetic_meaning_witness :
  returns (binary_value divide_signed (vec4 "11111000") (vec4 "00000011"))
    (fun r => at9 r 0 = Logic9_zero /\ at9 r 1 = Logic9_one).
Proof.
  eapply returns_mono; [apply (binary_arithmetic_meaning divide_signed); concrete|].
  intros r [R1 R2 R3 R4 R5]. split; rewrite R5 by (vm_compute; intuition discriminate); vm_compute; reflexivity.
Defined.

(** C7: every comparison of four-state operands of one nonzero width is the
    one-bit vector of its meaning: three-valued equality and inequality, the
    case, casez, casex and wildcard matches on elements, the orderings on
    numbers, X where unknown elements decide.  VHDL matching equality is included
    only for operands whose elements are all known; with unknown elements the
    code answers X although its declaration promises a known result
    ([matching_equality_unknown]). *)
Theorem binary_comparison_meaning operation lhs rhs :
  wf lhs -> wf rhs -> width rhs = width lhs -> 0 < width lhs ->
  is_comparison operation = true \/
    operation = vhdl_match_equal /\ some_unknown lhs = false /\ some_unknown rhs = false ->
  is_logic9 lhs = false -> is_logic9 rhs = false ->
  binary_value operation lhs rhs =
  make 1 (relation_meaning operation (width lhs) (at4 lhs) (at4 rhs) (uvalue lhs) (uvalue rhs)).
Proof.
  intros Hl Hr Wr Hw Ho Nl Nr.
  assert (relational operation = true) as Hrel by (unfold relational; destruct Ho as [->|(-> & _)]; done).
  rewrite binary_value_reference by (done || by destruct operation). by apply reference_relation.
Qed.

Lemma binary_comparison_meaning_witness :
  binary_value wildcard_equal (vec4 "1010") (vec4 "1X1X") =
  make 1 (relation_meaning wildcard_equal 4 (at4 (vec4 "1010")) (at4 (vec4 "1X1X"))
            (uvalue (vec4 "1010")) (uvalue (vec4 "1X1X"))) /\
  binary_value wildcard_equal (vec4 "1010") (vec4 "1X1X") = Ok (vec4 "1").
Proof.
  split; [|vm_compute; reflexivity].
  apply (binary_comparison_meaning wildcard_equal); concrete.
Defined.

(** ** Resolution of drivers *)

(** A net with well-formed drivers of one nonzero width resolves, element
    by element, to the IEEE 1164 resolution of the drivers' elements, whichever
    of the four-state, narrow and wide nine-state algorithms is chosen; the
    result is nine-state exactly when a driver is. *)
Theorem resolve_by_element w drivers :
  0 < w -> drivers <> [] -> net_of w drivers ->
  returns (resolve drivers) (fun r => Rep r w (existsb is_logic9 drivers)
    (fun i => resolve9_span (column drivers i))).
Proof. intros. by apply resolve_elementwise. Qed.

Lemma resolve_by_element_witness :
  returns (resolve [vec4 "01Z1"; vec9 "0LHZ"]) (fun r => at9 r 0 = Logic9_one /\ at9 r 1 = Logic9_h).
Proof.
  eapply returns_mono; [apply (resolve_by_element 4 [vec4 "01Z1"; vec9 "0LHZ"])|].
  - reflexivity.
  - discriminate.
  - concrete_net.
  - intros r [R1 R2 R3 R4 R5]. split; rewrite R5 by (vm_compute; intuition discriminate); vm_compute; reflexivity.
Defined.

(** The order in which drivers reach a net does not change its value. *)
Theorem resolve_order_independent w ds1 ds2 :
  0 < w -> ds1 <> [] -> net_of w ds1 -> ds1 ≡ₚ ds2 -> resolve ds1 = resolve ds2.
Proof. intros. by apply (resolve_permuted w). Qed.

Lemma resolve_order_independent_witness :
  resolve [vec4 "01Z1"; vec9 "0LHZ"; vec4 "ZZZZ"] = resolve [vec9 "0LHZ"; vec4 "01Z1"; vec4 "ZZZZ"].
Proof.
  apply (resolve_order_independent 4).
  - reflexivity.
  - discriminate.
  - concrete_net.
  - apply Permutation_swap.
Defined.

(** C11: a net with well-formed drivers of one nonzero width resolves, element
    by element, to the IEEE 1164 resolution of the drivers' elements, whichever
    of the four-state, narrow and wide nine-state algorithms is chosen; the
    result is nine-state exactly when a driver is, and the order of the
    drivers does not matter. *)
Theorem net_resolution w drivers others :
  0 < w -> drivers <> [] -> net_of w drivers ->
  returns (resolve drivers) (fun r => Rep r w (existsb is_logic9 drivers)
    (fun i => resolve9_span (column drivers i))) /\
  (drivers ≡ₚ others -> resolve drivers = resolve others).
Proof. intros. split; [by apply resolve_by_element|by apply (resolve_order_independent w)]. Qed.

Lemma net_resolution_witness :
  returns (resolve [vec4 "01Z1"; vec9 "0LHZ"]) (fun r => at9 r 0 = Logic9_one /\ at9 r 1 = Logic9_h) /\
  resolve [vec4 "01Z1"; vec9 "0LHZ"] = resolve [vec9 "0LHZ"; vec4 "01Z1"].
Proof.
  pose proof (net_resolution 4 [vec4 "01Z1"; vec9 "0LHZ"] [vec9 "0LHZ"; vec4 "01Z1"]) as H.
  destruct H as [H1 H2]; [reflexivity|discriminate|concrete_net|].
  split; [|apply H2, Permutation_swap]. eapply returns_mono; [exact H1|].
  intros r [R1 R2 R3 R4 R5]. split; rewrite R5 by (vm_compute; intuition discriminate); vm_compute; reflexivity.
Defined.

(** C12: resolving packed values and widening the result to the exact
    nine-state vector type is the same as widening every driver and resolving
    there: the packed algorithms refine the plain nine-state one. *)
Theorem resolve_refines_nine_state w drivers :
  0 < w -> drivers <> [] -> net_of w drivers ->
  (r ← resolve drivers; expand_to_logic9 r) =
  (nines ← mapM expand_to_logic9 drivers; resolve_packed9 nines).
Proof. intros. by apply (expand_resolve w). Qed.

Lemma resolve_refines_nine_state_witness :
  (r ← resolve [vec4 "0Z"; vec4 "1Z"]; expand_to_logic9 r) =
  (nines ← mapM expand_to_logic9 [vec4 "0Z"; vec4 "1Z"]; resolve_packed9 nines).
Proof.
  apply (resolve_refines_nine_state 2).
  - reflexivity.
  - discriminate.
  - concrete_net.
Defined.

(** ** Arithmetic of any width *)

(** Signed restoring division truncates towards zero and the remainder
    takes the sign of the dividend, for known operands of any width. *)
Theorem divide_signed_truncates dividend divisor :
  wf dividend -> wf divisor -> width divisor = width dividend -> 0 < width dividend ->
  all_known dividend -> all_known divisor -> uvalue divisor <> 0 ->
  returns (divide_known_signed dividend divisor) (fun d =>
    Num (quotient d) (width dividend) (Z.quot (svalue dividend) (svalue divisor)) /\
    Num (remainder d) (width dividend) (Z.rem (svalue dividend) (svalue divisor))).
Proof. intros. by apply divide_known_signed_spec. Qed.

Lemma divide_signed_truncates_witness :
  returns (divide_known_signed (vec4 "11111001") (vec4 "00000010")) (fun d =>
    Num (quotient d) 8 (-3) /\ Num (remainder d) 8 (-1)).
Proof. apply (divide_signed_truncates (vec4 "11111001") (vec4 "00000010")); concrete. Defined.

(** Unsigned restoring division returns the quotient and the remainder of
    known operands of any width. *)
Theorem divide_unsigned_exact dividend divisor :
  wf dividend -> wf divisor -> width divisor = width dividend -> 0 < width dividend ->
  all_known dividend -> all_known divisor -> 0 < uvalue divisor ->
  returns (divide_known dividend divisor) (fun d =>
    Num (quotient d) (width dividend) (uvalue dividend / uvalue divisor) /\
    Num (remainder d) (width dividend) (uvalue dividend mod uvalue divisor)).
Proof. intros. by apply divide_known_spec. Qed.

Lemma divide_unsigned_exact_witness :
  returns (divide_known (vec4 "11001000") (vec4 "00000111")) (fun d =>
    Num (quotient d) 8 28 /\ Num (remainder d) 8 4).
Proof. apply (divide_unsigned_exact (vec4 "11001000") (vec4 "00000111")); concrete. Defined.

(** Restoring division of known operands of any width by a nonzero
    divisor: the unsigned form returns the quotient and the remainder, the
    signed form truncates towards zero and its remainder takes the sign of the
    dividend. *)
Theorem division_exact dividend divisor :
  wf dividend -> wf divisor -> width divisor = width dividend -> 0 < width dividend ->
  all_known dividend -> all_known divisor -> 0 < uvalue divisor ->
  returns (divide_known dividend divisor) (fun d =>
    Num (quotient d) (width dividend) (uvalue dividend / uvalue divisor) /\
    Num (remainder d) (width dividend) (uvalue dividend mod uvalue divisor)) /\
  returns (divide_known_signed dividend divisor) (fun d =>
    Num (quotient d) (width dividend) (Z.quot (svalue dividend) (svalue divisor)) /\
    Num (remainder d) (width dividend) (Z.rem (svalue dividend) (svalue divisor))).
Proof. intros. split; [by apply divide_unsigned_exact|apply divide_signed_truncates; try done; lia]. Qed.

Lemma division_exact_witness :
  returns (divide_known (vec4 "11111001") (vec4 "00000010")) (fun d =>
    Num (quotient d) 8 124 /\ Num (remainder d) 8 1) /\
  returns (divide_known_signed (vec4 "11111001") (vec4 "00000010")) (fun d =>
    Num (quotient d) 8 (-3) /\ Num (remainder d) 8 (-1)).
Proof. apply (division_exact (vec4 "11111001") (vec4 "00000010")); concrete. Defined.

(** The shift-and-add product is the product modulo 2^width. *)
Theorem multiply_modular lhs rhs :
  wf lhs -> wf rhs -> width rhs = width lhs ->
  returns (multiply_known lhs rhs) (fun r => Num r (width lhs) (uvalue lhs * uvalue rhs)).
Proof. intros. by apply multiply_known_spec. Qed.

Lemma multiply_modular_witness :
  returns (multiply_known (vec4 "1101") (vec4 "0110")) (fun r => Num r 4 78).
Proof. apply (multiply_modular (vec4 "1101") (vec4 "0110")); concrete. Defined.

(** The ripple adder and subtractor compute the sum and the difference
    modulo 2^width. *)
Theorem ripple_adders_modular lhs rhs :
  wf lhs -> wf rhs -> width rhs = width lhs ->
  returns (add_known lhs rhs) (fun r => Num r (width lhs) (uvalue lhs + uvalue rhs)) /\
  returns (subtract_known lhs rhs) (fun r => Num r (width lhs) (uvalue lhs - uvalue rhs)).
Proof. intros. split; [by apply add_known_spec|by apply subtract_known_spec]. Qed.

Lemma ripple_adders_modular_witness :
  returns (add_known (vec4 "1101") (vec4 "0110")) (fun r => Num r 4 19) /\
  returns (subtract_known (vec4 "1101") (vec4 "0110")) (fun r => Num r 4 7).
Proof. apply (ripple_adders_modular (vec4 "1101") (vec4 "0110")); concrete. Defined.

(** Square-and-multiply returns the power modulo 2^width for every
    unsigned exponent. *)
Theorem power_modular base exponent :
  wf base -> wf exponent -> 0 < width base ->
  returns (power_known base exponent false)
    (fun r => Num r (width base) (uvalue base ^ uvalue exponent)).
Proof. intros. by apply power_known_unsigned. Qed.

Lemma power_modular_witness :
  returns (power_known (vec4 "00000011") (vec4 "101") false) (fun r => Num r 8 243).
Proof. apply (power_modular (vec4 "00000011") (vec4 "101")); concrete. Defined.

(** The ripple adder and subtractor, the shift-and-add multiplier and
    square-and-multiply compute the sum, the difference, the product and the
    power modulo 2^width. *)
Theorem arithmetic_modular lhs rhs :
  wf lhs -> wf rhs -> width rhs = width lhs -> 0 < width lhs ->
  returns (add_known lhs rhs) (fun r => Num r (width lhs) (uvalue lhs + uvalue rhs)) /\
  returns (subtract_known lhs rhs) (fun r => Num r (width lhs) (uvalue lhs - uvalue rhs)) /\
  returns (multiply_known lhs rhs) (fun r => Num r (width lhs) (uvalue lhs * uvalue rhs)) /\
  returns (power_known lhs rhs false) (fun r => Num r (width lhs) (uvalue lhs ^ uvalue rhs)).
Proof.
  intros. destruct (ripple_adders_modular lhs rhs) as [Ha Hs]; [done..|].
  split_and!; [done|done|by apply multiply_modular|by apply power_modular].
Qed.

Lemma arithmetic_modular_witness :
  returns (add_known (vec4 "1101") (vec4 "0110")) (fun r => Num r 4 19) /\
  returns (subtract_known (vec4 "1101") (vec4 "0110")) (fun r => Num r 4 7) /\
  returns (multiply_known (vec4 "1101") (vec4 "0110")) (fun r => Num r 4 78) /\
  returns (power_known (vec4 "1101") (vec4 "0110") false) (fun r => Num r 4 4826809).
Proof. apply (arithmetic_modular (vec4 "1101") (vec4 "0110")); concrete. Defined.

(** ** Shifts *)

(** For well-formed operands of any width and representation, the word
    shortcut of [shift_value] returns exactly what its element code returns. *)
Theorem shift_dispatch_equivalence operation value amount signed_amount :
  wf value -> wf amount ->
  shift_value operation value amount signed_amount
  = shift_reference operation value amount signed_amount.
Proof. intros. by apply shift_value_equals_reference. Qed.

Lemma shift_dispatch_equivalence_witness :
  shift_value rotate_left (vec4 "1X00Z") (vec4 "0111") false
  = shift_reference rotate_left (vec4 "1X00Z") (vec4 "0111") false /\
  shift_value rotate_left (vec4 "1X00Z") (vec4 "0111") false = Ok (vec4 "00Z1X").
Proof. split; [apply shift_dispatch_equivalence; concrete|vm_compute; reflexivity]. Defined.

(** A shift by a known amount moves every element by that number of
    places, filling with zero or the boundary element and rotating modulo the
    width; a negative signed amount moves the other way, and amounts far
    beyond the width are handled.  An unknown amount gives all X. *)
Theorem shift_meaning operation value amount signed_amount :
  wf value -> wf amount -> 0 < width value -> 0 < width amount ->
  (some_unknown amount = true ->
   shift_value operation value amount signed_amount = make (width value) Logic4_x) /\
  (some_unknown amount = false ->
   returns (shift_value operation value amount signed_amount)
    (fun r => Rep r (width value) (is_logic9 value)
       (shift_by operation (width value) (shift_amount signed_amount amount) (at9 value)))).
Proof.
  intros Hv Ha Hw Hn. rewrite shift_value_equals_reference by done. split; intros E.
  - by apply shift_reference_unknown.
  - apply shift_reference_spec; try done. by apply some_unknown_false.
Qed.

Lemma shift_meaning_witness :
  returns (shift_value arithmetic_right (vec9 "HL01") (vec4 "11") true)
    (fun r => Rep r 4 true (shift_by arithmetic_right 4 (-1) (at9 (vec9 "HL01")))) /\
  shift_value logical_left (vec4 "0110") (vec4 "X1") false = make 4 Logic4_x.
Proof.
  split.
  - refine (proj2 (shift_meaning arithmetic_right (vec9 "HL01") (vec4 "11") true _ _ _ _) _); concrete.
  - refine (proj1 (shift_meaning logical_left (vec4 "0110") (vec4 "X1") false _ _ _ _) _); concrete.
Defined.

(** C23: a shift takes the word shortcut and the element code to the same
    value.  A known amount moves every element by that number of places,
    filling with zero or the boundary element and rotating modulo the width; a
    negative signed amount moves the other way, and amounts far beyond the
    width are handled.  An unknown amount gives all X. *)
Theorem shift_correct operation value amount signed_amount :
  wf value -> wf amount -> 0 < width value -> 0 < width amount ->
  shift_value operation value amount signed_amount = shift_reference operation value amount signed_amount /\
  (some_unknown amount = true ->
   shift_value operation value amount signed_amount = make (width value) Logic4_x) /\
  (some_unknown amount = false ->
   returns (shift_value operation value amount signed_amount)
    (fun r => Rep r (width value) (is_logic9 value)
       (shift_by operation (width value) (shift_amount signed_amount amount) (at9 value)))).
Proof. intros. split; [by apply shift_dispatch_equivalence|by apply shift_meaning]. Qed.

Lemma shift_correct_witness :
  shift_value rotate_left (vec4 "1X00Z") (vec4 "0111") false
  = shift_reference rotate_left (vec4 "1X00Z") (vec4 "0111") false /\
  returns (shift_value rotate_left (vec4 "1X00Z") (vec4 "0111") false)
    (fun r => Rep r 5 false (shift_by rotate_left 5 7 (at9 (vec4 "1X00Z")))).
Proof.
  destruct (shift_correct rotate_left (vec4 "1X00Z") (vec4 "0111") false) as (H1 & _ & H2); [concrete..|].
  split; [exact H1|]. apply H2. vm_compute. reflexivity.
Defined.

(** ** VHDL integers *)

Lemma integer_check text w n :
  digits4 text = true -> width (vec4 text) = w ->
  forallb (known_at (vec4 text)) (up 0 w) = true -> svalue (vec4 text) = n -> Integer (vec4 text) w n.
Proof.
  intros Hd Hw Hk Hs. destruct (vec4_rep text Hd) as (H1 & H2 & H3). split; try done.
  apply all_known_check. by rewrite Hw.
Qed.

Definition int32 (text : string) : string := ("00000000000000000000000000" ++ text)%string.

Ltac concrete_integer := apply integer_check; vm_compute; reflexivity.

(** An integer operation on known 32- or 64-bit operands returns the
    exact mathematical result when it is representable, reports overflow when
    it is not, and rejects a zero divisor, a negative exponent and the
    minimum divided by minus one; no operation wraps around. *)
Theorem integer_operation_exact operation w l r lhs rhs :
  integer_width w -> Integer lhs w l -> Integer rhs w r ->
  integer_outcome operation w l r (integer_binary_value operation lhs rhs).
Proof. intros. by apply integer_binary_correct. Qed.

Lemma integer_operation_exact_witness :
  integer_outcome integer_power 32 3 5
    (integer_binary_value integer_power (vec4 (int32 "000011")) (vec4 (int32 "000101"))) /\
  integer_outcome integer_power 32 3 21
    (integer_binary_value integer_power (vec4 (int32 "000011")) (vec4 (int32 "010101"))).
Proof. split; apply integer_operation_exact; first [left; reflexivity | concrete_integer]. Defined.

(** Negation and absolute value are exact except at the minimum, which
    overflows. *)
Theorem integer_unary_exact operation w n source :
  integer_width w -> Integer source w n ->
  let result := match operation with negate => - n | absolute => Z.abs n end in
  if n =? integer_minimum w then integer_unary_value operation source = Throw integer_overflow
  else returns (integer_unary_value operation source) (fun v => Integer v w result).
Proof. intros. by apply integer_unary_correct. Qed.

Lemma integer_unary_exact_witness :
  if 5 =? integer_minimum 32 then integer_unary_value negate (vec4 (int32 "000101")) = Throw integer_overflow
  else returns (integer_unary_value negate (vec4 (int32 "000101"))) (fun v => Integer v 32 (-5)).
Proof. apply (integer_unary_exact negate 32 5); first [left; reflexivity | concrete_integer]. Defined.

(** An integer operation refuses operands with unknown elements. *)
Theorem integer_operation_unknown operation lhs rhs w :
  integer_width w -> wf lhs -> wf rhs -> is_logic9 lhs = false -> is_logic9 rhs = false ->
  width lhs = w -> width rhs = w -> some_unknown lhs || some_unknown rhs = true ->
  integer_binary_value operation lhs rhs = Throw unknown_operand.
Proof.
  intros Hw Hl Hr Nl Nr El Er Hu. apply (integer_binary_unknown operation lhs rhs w); try done.
  intros [Kl%some_unknown_false Kr%some_unknown_false]. by rewrite Kl, Kr in Hu.
Qed.

Lemma integer_operation_unknown_witness :
  integer_binary_value integer_add (vec4 (int32 "000101")) (vec4 (int32 "00X101")) = Throw unknown_operand.
Proof.
  apply (integer_operation_unknown integer_add _ _ 32);
    first [left; reflexivity | concrete].
Defined.

(** C24: an integer operation on known 32- or 64-bit operands returns the
    exact mathematical result when it is representable, reports overflow when
    it is not, and rejects a zero divisor, a negative exponent and the minimum
    divided by minus one; negation and absolute value are exact except at the
    minimum, which overflows.  No operation wraps around. *)
Theorem integer_operations_exact operation unary w l r lhs rhs :
  integer_width w -> Integer lhs w l -> Integer rhs w r ->
  integer_outcome operation w l r (integer_binary_value operation lhs rhs) /\
  let result := match unary with negate => - l | absolute => Z.abs l end in
  if l =? integer_minimum w then integer_unary_value unary lhs = Throw integer_overflow
  else returns (integer_unary_value unary lhs) (fun v => Integer v w result).
Proof. intros. split; [by apply integer_operation_exact|by apply integer_unary_exact]. Qed.

Lemma integer_operations_exact_witness :
  integer_outcome integer_power 32 3 21
    (integer_binary_value integer_power (vec4 (int32 "000011")) (vec4 (int32 "010101"))) /\
  returns (integer_unary_value negate (vec4 (int32 "000011"))) (fun v => Integer v 32 (-3)).
Proof.
  apply (integer_operations_exact integer_power negate 32 3 21); first [left; reflexivity | concrete_integer].
Defined.

(** The subtype range check passes exactly for known values inside the
    bounds, in the signed or unsigned reading the bounds and the width
    choose. *)
Theorem range_check_exact source lower upper :
  wf source -> is_logic9 source = false -> 0 < width source <= 64 ->
  check_integer_range source lower upper = Ok tt <->
  all_known source /\ lower <= checked_reading source lower <= upper.
Proof. intros. by apply range_check_correct. Qed.

Lemma range_check_exact_witness :
  check_integer_range (vec4 "11111011") (-8) 7 = Ok tt <->
  all_known (vec4 "11111011") /\ -8 <= checked_reading (vec4 "11111011") (-8) <= 7.
Proof. apply range_check_exact; concrete. Defined.

(** ** Text, elements and ranges *)

(** The text a four-state value is written as reads back as the value. *)
Theorem text_round_trip v : wf v -> is_logic9 v = false -> from_msb_string (to_msb_string v) = Ok (copy v).
Proof. apply read_printed4. Qed.

Lemma text_round_trip_witness :
  from_msb_string (to_msb_string (vec4 "10XZ1")) = Ok (vec4 "10XZ1") /\
  string_of_list_ascii (to_msb_string (vec4 "10xz1")) = "10XZ1"%string.
Proof. split; [apply (text_round_trip (vec4 "10XZ1")); concrete|vm_compute; reflexivity]. Defined.

(** The text a nine-state value is written as reads back as the value,
    through the nine-state parser. *)
Theorem nine_text_round_trip v :
  wf v -> is_logic9 v = true -> from_logic9_msb_string (to_msb_string v) = Ok (copy v).
Proof. apply read_printed9. Qed.

Lemma nine_text_round_trip_witness :
  from_logic9_msb_string (to_msb_string (vec9 "UX01ZWLH-")) = Ok (vec9 "UX01ZWLH-").
Proof. apply (nine_text_round_trip (vec9 "UX01ZWLH-")); concrete. Defined.

(** A text with a character that is no digit of the value type is
    rejected by both parsers, wherever the character stands. *)
Theorem text_invalid_digit value c :
  size value <= SIZE_MAX / 4 -> c ∈ value ->
  (parse_logic4 c = None ->
   from_msb_string value = Throw (invalid_argument "four-state vector contains an invalid digit")) /\
  (parse_logic9 c = None ->
   from_logic9_msb_string value = Throw (invalid_argument "nine-state vector contains an invalid digit")).
Proof.
  intros Hs Hc. split; intros Hp.
  - by apply (from_msb_string_invalid value c).
  - by apply (from_logic9_msb_string_invalid value c).
Qed.

Lemma text_invalid_digit_witness :
  from_msb_string (list_ascii_of_string "01W1")
  = Throw (invalid_argument "four-state vector contains an invalid digit").
Proof.
  refine (proj1 (text_invalid_digit (list_ascii_of_string "01W1") "W"%char _ _) _).
  - concrete.
  - apply list_elem_of_In. vm_compute. intuition.
  - reflexivity.
Defined.

(** The text a value is written as reads back as the value, through the
    parser of its number of states. *)
Theorem printed_text_reads_back v : wf v ->
  (if is_logic9 v then from_logic9_msb_string (to_msb_string v) else from_msb_string (to_msb_string v))
  = Ok (copy v).
Proof.
  intros Hv. destruct (is_logic9 v) eqn:E.
  - by apply nine_text_round_trip.
  - by apply text_round_trip.
Qed.

Lemma printed_text_reads_back_witness :
  from_msb_string (to_msb_string (vec4 "10XZ1")) = Ok (vec4 "10XZ1") /\
  from_logic9_msb_string (to_msb_string (vec9 "UX01ZWLH-")) = Ok (vec9 "UX01ZWLH-").
Proof.
  split; [apply (printed_text_reads_back (vec4 "10XZ1"))|apply (printed_text_reads_back (vec9 "UX01ZWLH-"))]; concrete.
Defined.

(** [set] changes the addressed element only and keeps the
    representation; reading it back gives the value written, and an index
    beyond the width is rejected. *)
Theorem set_get_element v i x :
  wf v ->
  (0 <= i < width v -> returns (set v i x) (fun r =>
     wf r /\ width r = width v /\ is_logic9 r = is_logic9 v /\ get r i = Ok x /\
     forall j, 0 <= j < width v -> j <> i -> get_logic9 r j = get_logic9 v j)) /\
  (width v <= i -> set v i x = Throw (out_of_range "packed value bit index is out of range")).
Proof.
  intros Hv. split; intros Hi.
  - eapply returns_mono; [by apply set_spec|]. intros r (S1 & S2 & S3 & S4 & S5). split_and!; try done.
    + rewrite get_ok by lia. unfold at4. rewrite S5, Z.eqb_refl by lia. by rewrite to_logic4_to_logic9.
    + intros j Hj Hne. rewrite !get_logic9_ok by lia. by rewrite S5, (proj2 (Z.eqb_neq j i)) by lia.
  - unfold set, check_index. by rewrite Z.geb_leb, (proj2 (Z.leb_le _ _)) by done.
Qed.

Lemma set_get_element_witness :
  set (vec4 "0000") 4 Logic4_x = Throw (out_of_range "packed value bit index is out of range") /\
  returns (set (vec4 "0000") 2 Logic4_x) (fun r => get r 2 = Ok Logic4_x).
Proof.
  split.
  - refine (proj2 (set_get_element (vec4 "0000") 4 Logic4_x _) _); concrete.
  - eapply returns_mono; [refine (proj1 (set_get_element (vec4 "0000") 2 Logic4_x _) _); concrete|].
    intros r H. apply H.
Defined.

(** After [insert_bits] the inserted range extracts to the elements of
    the source, every other element is kept, and the target is promoted to
    nine states when the source needs it. *)
Theorem insert_extract_round_trip v source offset :
  wf v -> wf source -> 0 < width source -> 0 <= offset -> offset + width source <= width v ->
  has_live_plane_backing v = false ->
  returns (insert_bits v source offset) (fun r =>
    is_logic9 r = is_logic9 v || is_logic9 source /\
    returns (extract_bits r offset (width source))
      (fun part => Rep part (width source) (is_logic9 r) (at9 source)) /\
    forall j, 0 <= j < width v -> j < offset \/ offset + width source <= j -> at9 r j = at9 v j).
Proof.
  intros Hv Hs Hw Ho Hle Hl. eapply returns_mono; [apply insert_bits_spec; auto|].
  intros r (U1 & U2 & U3 & U4 & U5). split_and!; [done| |].
  - eapply returns_mono; [apply extract_bits_spec; done || lia|]. intros part HR.
    eapply Rep_ext; [exact HR|]. intros i Hi. cbv beta. rewrite U5 by lia.
    rewrite (proj2 (in_range_true _ _ _)) by lia. f_equal. lia.
  - intros j Hj Hout. rewrite U5 by done. unfold in_range. by cases_ltb; try lia.
Qed.

Lemma insert_extract_round_trip_witness :
  returns (insert_bits (vec4 "000000") (vec4 "1X") 3) (fun r => at9 r 0 = Logic9_zero).
Proof.
  eapply returns_mono; [apply (insert_extract_round_trip (vec4 "000000") (vec4 "1X") 3); concrete|].
  intros r (_ & _ & H). rewrite H by (vm_compute; intuition discriminate). vm_compute. reflexivity.
Defined.

(** [operator==] decides equality of width, representation and every
    element; storage does not matter. *)
Theorem equality_decides v1 v2 :
  wf v1 -> wf v2 ->
  packed_eq v1 v2 = true <->
  width v1 = width v2 /\ is_logic9 v1 = is_logic9 v2 /\
  forall i, 0 <= i < width v1 -> at9 v1 i = at9 v2 i.
Proof. apply packed_eq_spec. Qed.

Lemma equality_decides_witness :
  packed_eq (vec4 "01XZ") (vec9 "01XZ") = true <->
  width (vec4 "01XZ") = width (vec9 "01XZ") /\ is_logic9 (vec4 "01XZ") = is_logic9 (vec9 "01XZ") /\
  forall i, 0 <= i < width (vec4 "01XZ") -> at9 (vec4 "01XZ") i = at9 (vec9 "01XZ") i.
Proof. apply equality_decides; concrete. Defined.

(** [known_signed_value] returns a number exactly when every element is
    known and the two's complement reading of the vector, however wide, fits
    64 bits; the number is that reading. *)
Theorem known_signed_exact v n :
  wf v -> is_logic9 v = false -> 0 < width v ->
  known_signed_value v = Some n <-> all_known v /\ svalue v = n /\ - 2 ^ 63 <= n < 2 ^ 63.
Proof. apply known_signed_value_spec. Qed.

Lemma known_signed_exact_witness :
  known_signed_value (vec4 "1011") = Some (-5) <->
  all_known (vec4 "1011") /\ svalue (vec4 "1011") = -5 /\ - 2 ^ 63 <= -5 < 2 ^ 63.
Proof. apply known_signed_exact; concrete. Defined.

(** ** Logic operators *)

(** The packed value of a word result. *)
Definition pack (w : Z) (x : Word) : Outcome PackedLogic4 := from_aval_bval w (word_a x) (word_b x).

(** Negation negates every element in its own value system, through the
    word shortcut or the element loop; the kernel's word negation packs to the
    same value. *)
Theorem negation_by_element v :
  wf v ->
  returns (unary_not v) (fun r => Rep r (width v) (is_logic9 v) (not_element v)) /\
  (is_logic9 v = false -> 0 < width v <= 64 ->
   pack (width v) (kw_unary_not (word_of v) (width v)) = unary_not v).
Proof.
  intros Hv. split; [by apply unary_not_spec|]. intros Hn Hw.
  pose proof (unary_not_spec v Hv) as Hs. rewrite Hn in Hs. eapply returns_Rep_eq; [|exact Hs].
  eapply returns_mono; [by apply kw_unary_not_spec|]. intros r HR. eapply Rep_ext; [exact HR|].
  intros i Hi. unfold not_element. by rewrite Hn.
Qed.

Lemma negation_by_element_witness :
  returns (unary_not (vec9 "LH-U")) (fun r => Rep r 4 true (not_element (vec9 "LH-U"))) /\
  pack 4 (kw_unary_not (word_of (vec4 "01XZ")) 4) = unary_not (vec4 "01XZ").
Proof.
  split.
  - refine (proj1 (negation_by_element (vec9 "LH-U") _)); concrete.
  - refine (proj2 (negation_by_element (vec4 "01XZ") _) _ _); concrete.
Defined.

(** Every reduction of a narrow four-state value (and, or, xor, one-hot,
    one-hot-or-zero) gives the scalar its elements determine, and the
    kernel's word reduction packs to the same value. *)
Theorem reduction_equivalence operation v :
  wf v -> is_logic9 v = false -> 0 < width v <= 64 ->
  reduce_value operation v = make 1 (reduction_of operation (width v) (at4 v)) /\
  pack 1 (kw_reduce operation (word_of v) (width v)) = reduce_value operation v.
Proof.
  intros Hv Hn Hw. pose proof (reduce_value_spec operation v Hv) as E. split; [done|]. unfold pack.
  rewrite E, (kw_reduce_spec operation (word_of v) (width v) (at4 v)) by (done || by apply word_of_rep).
  apply pack_scalar.
Qed.

Lemma reduction_equivalence_witness :
  reduce_value reduce_xor (vec4 "10110") = make 1 (reduction_of reduce_xor 5 (at4 (vec4 "10110"))) /\
  pack 1 (kw_reduce reduce_xor (word_of (vec4 "10110")) 5) = reduce_value reduce_xor (vec4 "10110").
Proof. apply (reduction_equivalence reduce_xor (vec4 "10110")); concrete. Defined.

(** Logical negation, conjunction and disjunction are the three-valued
    operators on truth values (one if an element is one, else unknown if an
    element is unknown, else zero), and the kernel agrees with them. *)
Theorem logical_equivalence operation lhs rhs :
  wf lhs -> wf rhs -> is_logic9 lhs = false -> is_logic9 rhs = false ->
  0 < width lhs <= 64 -> 0 < width rhs <= 64 ->
  truth_value lhs = Ok (truth_of (width lhs) (at4 lhs)) /\
  pack 1 (kw_logical_not (word_of lhs)) = logical_not lhs /\
  pack 1 (kw_logical_binary operation (word_of lhs) (word_of rhs)) = logical_binary operation lhs rhs.
Proof.
  intros Hl Hr Nl Nr Wl Wr. pose proof (truth_value_spec lhs Hl) as El.
  pose proof (truth_value_spec rhs Hr) as Er. split; [done|].
  unfold pack, kw_logical_not, kw_logical_binary, logical_not, logical_binary.
  rewrite (kw_truth_spec (word_of lhs) (width lhs) (at4 lhs)) by (done || by apply word_of_rep).
  rewrite (kw_truth_spec (word_of rhs) (width rhs) (at4 rhs)) by (done || by apply word_of_rep).
  rewrite El, Er, !pack_scalar. done.
Qed.

Lemma logical_equivalence_witness :
  truth_value (vec4 "0X0") = Ok (truth_of 3 (at4 (vec4 "0X0"))) /\
  pack 1 (kw_logical_not (word_of (vec4 "0X0"))) = logical_not (vec4 "0X0") /\
  pack 1 (kw_logical_binary logical_or (word_of (vec4 "0X0")) (word_of (vec4 "10")))
  = logical_binary logical_or (vec4 "0X0") (vec4 "10").
Proof. apply (logical_equivalence logical_or (vec4 "0X0") (vec4 "10")); concrete. Defined.

(** [$countones] and [$countbits] return, as 32-bit two-state vectors,
    the number of ones and the number of elements in the selected states. *)
Theorem counts_exact v state_mask :
  wf v ->
  returns (count_ones_value v) (fun r => Num r 32 (count_up (one_at v) (width v))) /\
  returns (count_bits_value v state_mask)
    (fun r => Num r 32 (count_up (fun i => Z.testbit state_mask (logic4_code (at4 v i))) (width v))).
Proof. intros Hv. split; [by apply count_ones_value_spec|by apply count_bits_value_spec]. Qed.

Lemma counts_exact_witness :
  returns (count_ones_value (vec4 "1X01Z1")) (fun r => Num r 32 3) /\
  returns (count_bits_value (vec4 "1X01Z1") 12) (fun r => Num r 32 2).
Proof. apply (counts_exact (vec4 "1X01Z1") 12); concrete. Defined.

(** The conditional operator selects a branch on a known condition and
    merges the branches element by element on an unknown one; the kernel's
    word version packs to the same value. *)
Theorem conditional_equivalence condition t e :
  wf condition -> width condition = 1 -> is_logic9 condition = false ->
  wf t -> wf e -> width e = width t -> 0 < width t <= 64 -> is_logic9 t = false -> is_logic9 e = false ->
  pack (width t) (kw_conditional (word_of condition) (word_of t) (word_of e) (width t))
  = conditional_value condition t e /\
  (is_unknown (at4 condition 0) = true -> returns (conditional_value condition t e)
    (fun r => Rep r (width t) false (fun i => to_logic9 (merged (at4 t i) (at4 e i))))) /\
  (is_unknown (at4 condition 0) = false ->
   conditional_value condition t e = Ok (if one_at condition 0 then copy t else copy e)).
Proof.
  intros. split_and!; [by apply kw_conditional_reference| |]; intros.
  - by apply conditional_unknown.
  - by apply conditional_known.
Qed.

Lemma conditional_equivalence_witness :
  pack 4 (kw_conditional (word_of (vec4 "X")) (word_of (vec4 "0110")) (word_of (vec4 "01XX")) 4)
  = conditional_value (vec4 "X") (vec4 "0110") (vec4 "01XX").
Proof.
  refine (proj1 (conditional_equivalence (vec4 "X") (vec4 "0110") (vec4 "01XX") _ _ _ _ _ _ _ _ _));
    concrete.
Defined.

(** C36: on four-state operands of at most 64 bits the kernel's word
    operators, negation, the reductions, the logical operators and the
    conditional, pack to exactly what the packed functions return. *)
Theorem word_operators_equivalence reduction logical condition lhs rhs :
  wf condition -> width condition = 1 -> is_logic9 condition = false ->
  wf lhs -> wf rhs -> width rhs = width lhs -> 0 < width lhs <= 64 ->
  is_logic9 lhs = false -> is_logic9 rhs = false ->
  pack (width lhs) (kw_unary_not (word_of lhs) (width lhs)) = unary_not lhs /\
  pack 1 (kw_reduce reduction (word_of lhs) (width lhs)) = reduce_value reduction lhs /\
  pack 1 (kw_logical_not (word_of lhs)) = logical_not lhs /\
  pack 1 (kw_logical_binary logical (word_of lhs) (word_of rhs)) = logical_binary logical lhs rhs /\
  pack (width lhs) (kw_conditional (word_of condition) (word_of lhs) (word_of rhs) (width lhs))
  = conditional_value condition lhs rhs.
Proof.
  intros Hc Wc Nc Hl Hr Wr Hw Nl Nr.
  destruct (logical_equivalence logical lhs rhs) as (_ & H1 & H2); [done..|by rewrite Wr|].
  split_and!; [by apply negation_by_element|by apply reduction_equivalence|done|done|].
  by apply conditional_equivalence.
Qed.

Lemma word_operators_equivalence_witness :
  pack 4 (kw_unary_not (word_of (vec4 "01XZ")) 4) = unary_not (vec4 "01XZ") /\
  pack 1 (kw_reduce reduce_xor (word_of (vec4 "01XZ")) 4) = reduce_value reduce_xor (vec4 "01XZ") /\
  pack 1 (kw_logical_not (word_of (vec4 "01XZ"))) = logical_not (vec4 "01XZ") /\
  pack 1 (kw_logical_binary logical_or (word_of (vec4 "01XZ")) (word_of (vec4 "0110")))
  = logical_binary logical_or (vec4 "01XZ") (vec4 "0110") /\
  pack 4 (kw_conditional (word_of (vec4 "X")) (word_of (vec4 "01XZ")) (word_of (vec4 "0110")) 4)
  = conditional_value (vec4 "X") (vec4 "01XZ") (vec4 "0110").
Proof. apply (word_operators_equivalence reduce_xor logical_or (vec4 "X") (vec4 "01XZ") (vec4 "0110")); concrete. Defined.

(** ** Selects *)

(** A runtime index of a packed range is turned into its distance from
    the right bound; the kernel yields an offset exactly when the reference
    does not throw, and the same one. *)
Theorem dynamic_index_equivalence index selection :
  wf index -> width index = 32 -> is_logic9 index = false ->
  is_i64 (di_left selection) -> is_i64 (di_right selection) ->
  kw_dynamic_index (word_of index) selection =
  match dynamic_index_offset index selection with Ok offset => Some offset | Throw _ => None end /\
  kw_dynamic_index (word_of index) selection =
  (if some_unknown index then None
   else index_offset (svalue index) (di_left selection) (di_right selection) (di_base_offset selection)).
Proof.
  intros Hv Hw Hn Hl Hr. rewrite kw_dynamic_index_spec, dynamic_index_offset_spec by done. split; [|done].
  destruct (some_unknown index); [done|]. destruct (index_offset _ _ _ _); [done|]. by destruct (_ && _).
Qed.

Lemma dynamic_index_equivalence_witness :
  kw_dynamic_index (word_of (vec4 (int32 "000101"))) (mkDynamicIndex 7 2 10)
  = match dynamic_index_offset (vec4 (int32 "000101")) (mkDynamicIndex 7 2 10) with
    | Ok offset => Some offset | Throw _ => None end /\
  kw_dynamic_index (word_of (vec4 (int32 "000101"))) (mkDynamicIndex 7 2 10) = Some 13.
Proof.
  split; [|vm_compute; reflexivity].
  refine (proj1 (dynamic_index_equivalence (vec4 (int32 "000101")) (mkDynamicIndex 7 2 10) _ _ _ _ _)); concrete.
Defined.

(** C26: an indexed part select reads, bit by bit, the elements inside both
    the declared range and the source and yields X (zero for two-state
    sources) for the rest; for narrow four-state values the kernel packs to
    the same result. *)
Theorem part_select_equivalence source base left right base_offset w increasing descending two_state :
  wf source -> wf base -> width base = 32 -> is_i64 left -> is_i64 right ->
  0 <= base_offset <= U32_MAX -> 0 < w <= U32_MAX ->
  returns (dynamic_part_select_value source base left right base_offset w increasing descending two_state)
    (fun r => Rep r w (is_logic9 source)
       (part_element source base left right base_offset w increasing descending two_state)) /\
  (is_logic9 source = false -> is_logic9 base = false -> 0 < width source <= 64 -> w <= 64 ->
   pack w (kw_dynamic_part_select (word_of source) (width source) (word_of base) left right base_offset w
             increasing descending two_state)
   = dynamic_part_select_value source base left right base_offset w increasing descending two_state).
Proof.
  intros. split; [by apply dynamic_part_select_spec|]. intros. by apply kw_dynamic_part_select_reference.
Qed.

Lemma part_select_equivalence_witness :
  pack 4 (kw_dynamic_part_select (word_of (vec4 "01100101")) 8 (word_of (vec4 (int32 "000110"))) 7 0 0 4
            true true false)
  = dynamic_part_select_value (vec4 "01100101") (vec4 (int32 "000110")) 7 0 0 4 true true false.
Proof.
  refine (proj2 (part_select_equivalence (vec4 "01100101") (vec4 (int32 "000110")) 7 0 0 4 true true false
    _ _ _ _ _ _ _) _ _ _ _); concrete.
Defined.

(** An indexed part write stores bit [i] of the source at its position in
    the target when that position lies in the declared range, drops the bits
    that fall outside, keeps every other element, and writes nothing for an
    unknown base. *)
Theorem part_write_by_element target source base selection :
  selection_ok selection -> wf source -> width source = dpi_width selection -> wf base -> width base = 32 ->
  wf target -> has_live_plane_backing target = false ->
  dpi_base_offset selection + Z.abs (dpi_left selection - dpi_right selection) < width target ->
  returns (dynamic_part_insert_value target source base selection) (fun r =>
    wf r /\ width r = width target /\
    forall j, 0 <= j < width target ->
      at9 r j = if part_written base selection j then at9 source (j - part_origin base selection)
                else at9 target j).
Proof. intros. by apply dynamic_part_insert_spec. Qed.

Definition byte_part : DynamicPartIndex := mkDynamicPartIndex 7 0 0 4 true true.

Lemma part_write_by_element_witness :
  returns (dynamic_part_insert_value (vec4 "00000000") (vec4 "1011") (vec4 (int32 "000110")) byte_part)
    (fun r => at9 r 7 = Logic9_one /\ at9 r 6 = Logic9_one /\ at9 r 5 = Logic9_zero).
Proof.
  eapply returns_mono;
    [apply (part_write_by_element (vec4 "00000000") (vec4 "1011") (vec4 (int32 "000110")) byte_part)|].
  1: split; concrete.
  1-7: concrete.
  intros r (_ & _ & H). split_and!; rewrite H by (vm_compute; intuition discriminate); vm_compute; reflexivity.
Defined.

(** Within 32-bit offsets the kernel's part write computes the same
    slice, offset and width as the reference, and writes nothing when the
    reference writes nothing. *)
Theorem part_write_equivalence source base selection :
  selection_ok selection -> wf source -> width source = dpi_width selection -> wf base -> width base = 32 ->
  is_logic9 source = false -> is_logic9 base = false -> dpi_width selection <= 64 ->
  returns (dynamic_part_write_value source base selection) (fun o =>
    match o with
    | None => kw_dynamic_part_write (word_of source) (word_of base) selection = Some None
    | Some written => exists p,
        kw_dynamic_part_write (word_of source) (word_of base) selection = Some (Some p) /\
        pw_offset p = dpw_offset written /\ pw_width p = width (dpw_value written) /\
        pack (pw_width p) (pw_value p) = Ok (dpw_value written)
    end).
Proof. intros. by apply kw_dynamic_part_write_reference. Qed.

Lemma part_write_equivalence_witness :
  returns (dynamic_part_write_value (vec4 "1011") (vec4 (int32 "000110")) byte_part) (fun o =>
    match o with
    | None => kw_dynamic_part_write (word_of (vec4 "1011")) (word_of (vec4 (int32 "000110"))) byte_part = Some None
    | Some written => exists p,
        kw_dynamic_part_write (word_of (vec4 "1011")) (word_of (vec4 (int32 "000110"))) byte_part = Some (Some p) /\
        pw_offset p = dpw_offset written /\ pw_width p = width (dpw_value written) /\
        pack (pw_width p) (pw_value p) = Ok (dpw_value written)
    end).
Proof.
  apply part_write_equivalence.
  1: split; concrete.
  all: concrete.
Defined.

(** Concatenation lays its operands side by side, the last one least
    significant, without losing or mixing an element; the result is
    nine-state exactly when an operand is. *)
Theorem concatenation_layout operands :
  Forall wf operands -> 0 < total_width operands <= SIZE_MAX / 4 ->
  returns (concatenate_values operands (total_width operands)) (fun r =>
    wf r /\ width r = total_width operands /\ is_logic9 r = existsb is_logic9 operands /\
    has_live_plane_backing r = false /\
    forall pre v post, operands = pre ++ v :: post ->
      forall i, 0 <= i < width v -> at9 r (total_width post + i) = at9 v i).
Proof. intros. by apply concatenate_values_spec. Qed.

Lemma concatenation_layout_witness :
  returns (concatenate_values [vec4 "10"; vec9 "H"; vec4 "Z"] 4) (fun r => at9 r 1 = Logic9_h /\ at9 r 2 = Logic9_zero).
Proof.
  eapply returns_mono; [apply (concatenation_layout [vec4 "10"; vec9 "H"; vec4 "Z"])|].
  - repeat (apply Forall_cons_2; [concrete|]); apply Forall_nil_2.
  - concrete.
  - intros r (_ & _ & _ & _ & H). split.
    + pose proof (H [vec4 "10"] (vec9 "H") [vec4 "Z"] eq_refl 0 ltac:(concrete)) as E. exact E.
    + pose proof (H [] (vec4 "10") [vec9 "H"; vec4 "Z"] eq_refl 0 ltac:(concrete)) as E. exact E.
Defined.

(** ** Read pins *)

(** A run of two actors: the first pins the block, the second tries to write
    and is refused. *)
Definition one_pinned : PinState := mkPinState 1 [Pinned; Idle].

Lemma one_pinned_reachable : pin_reachable 2 one_pinned.
Proof.
  eapply rtc_l; [exact (step_load (pin_initial 2) 0 eq_refl)|].
  eapply rtc_l; [exact (step_attempt (mkPinState 0 [Acquiring 0; Idle]) 0 0 false eq_refl)|].
  apply rtc_refl.
Qed.

(** C37: in every state any interleaving of readers and writers reaches, no
    pin is held while a writer holds the block, there is at most one writer,
    and the assertions of [release_read_pin] and [end_write] hold. *)
Theorem pins_mutual_exclusion n st i j :
  pin_reachable n st ->
  ~ (threads st !! i = Some Pinned /\ threads st !! j = Some Writing) /\
  (threads st !! i = Some Writing -> threads st !! j = Some Writing -> i = j) /\
  (threads st !! i = Some Pinned -> release_asserts (reader_state st) = true) /\
  (threads st !! i = Some Writing -> end_write_asserts (reader_state st) = true).
Proof.
  intros H. split_and!.
  - intros [Hi Hj]. by eapply pins_exclude_writers.
  - by apply (one_writer n).
  - by apply (pin_assertions n st i).
  - by apply (pin_assertions n st i).
Qed.

Lemma pins_mutual_exclusion_witness :
  ~ (threads one_pinned !! 0%nat = Some Pinned /\ threads one_pinned !! 1%nat = Some Writing) /\
  release_asserts (reader_state one_pinned) = true.
Proof.
  destruct (pins_mutual_exclusion 2 one_pinned 0 1 one_pinned_reachable) as (H1 & _ & H2 & _).
  split; [exact H1|apply H2; reflexivity].
Defined.

(** A reader that runs alone gets its pin in two atomic steps whenever no
    writer holds the block and the counter is not exhausted. *)
Theorem pin_obstruction_free n st i :
  pin_reachable n st -> threads st !! i = Some Idle ->
  count Writing (threads st) = 0 -> count Pinned (threads st) < writer_bit - 1 ->
  exists st1 st2, pin_step st st1 /\ pin_step st1 st2 /\ threads st2 !! i = Some Pinned.
Proof. apply pin_progress. Qed.

Lemma pin_obstruction_free_witness :
  exists st1 st2, pin_step one_pinned st1 /\ pin_step st1 st2 /\ threads st2 !! 1%nat = Some Pinned.
Proof. apply (pin_obstruction_free 2 one_pinned 1); [exact one_pinned_reachable|reflexivity..]. Defined.

(** ** Hashes and checksums *)

(** SHA-256 of a message fed in pieces of any sizes is the compression of
    the padded message (a one bit, zeros, the 64-bit length), and finishing
    twice, or feeding bytes after finishing, changes nothing. *)
Theorem sha256_incremental pieces more :
  let h := foldl sha_update sha_new pieces in
  snd (sha_finish h) = sha256_of (mjoin pieces) /\
  sha_finish (sha_update (fst (sha_finish h)) more) = sha_finish h.
Proof.
  intros h. split.
  - exact (stream_pieces (result := fun h => snd (sha_finish h)) pieces).
  - destruct (sha_finish_closed h more) as [-> ->]. done.
Qed.

(** A digest of 32 bytes spelled in hexadecimal reads back as the digest,
    and a text is read only if it is the spelling of the digest it gives. *)
Theorem sha256_hex_round_trip d text :
  (length d = 32%nat -> Forall is_byte d -> sha_from_hex (sha_hex d) = Some d) /\
  (sha_from_hex text = Some d -> sha_hex d = text).
Proof.
  split; intros.
  - by apply sha_from_hex_round.
  - by apply sha_hex_round.
Qed.

Lemma sha256_hex_round_trip_witness :
  sha_from_hex (sha_hex (sha_digest (as_bytes "abc"))) = Some (sha_digest (as_bytes "abc")).
Proof.
  refine (proj1 (sha256_hex_round_trip (sha_digest (as_bytes "abc")) []) _ _).
  - vm_compute. reflexivity.
  - assert (sha_digest (as_bytes "abc") = sha256_of (mjoin [as_bytes "abc"])) as -> by (vm_compute; reflexivity).
    exact (proj2 (sha256_of_ok _)).
Defined.

(** Bytes verified in pieces match a recorded checksum exactly when the
    checksum of the whole payload, XXH64 for a tagged record and SHA-256
    otherwise, equals it; the checksum written for a payload is a valid
    spelling and verifies, and two payloads share a checksum only if their
    64-bit hashes are equal. *)
Theorem checksum_verification expected pieces other :
  let m := mjoin pieces in
  snd (verifier_matches (foldl verifier_update (verifier expected) pieces))
    = bool_decide (checksum_like expected m = expected) /\
  payload_checksum_spelling (payload_checksum m) = true /\
  payload_checksum_matches m (payload_checksum m) = true /\
  payload_checksum_matches m (sha_hex (sha256_of m)) = true /\
  (payload_checksum m = payload_checksum other <-> xxh64_of m = xxh64_of other).
Proof.
  intros m. destruct (payload_checksum_accepted m) as [H1 H2]. split_and!; try done.
  - apply verifier_pieces.
  - apply sha_checksum_accepted.
  - apply payload_checksum_inj.
Qed.

(** ** Narrow resolution and forcing *)

(** The allocation-free accumulator resolves narrow four-state drivers
    element by element, and a force overlays exactly the masked elements. *)
Theorem narrow_resolution_and_force w drivers forced mask :
  0 < w <= 64 -> Forall (fun d => l4w_width d = w) drivers -> l4w_width forced = w ->
  returns (accumulate w drivers) (fun driven =>
    (forall i, 0 <= i < w ->
       logic4_word_bit driven i = resolve4_span ((fun d => logic4_word_bit d i) <$> drivers)) /\
    returns (apply_force_word driven forced mask) (fun r => forall i, 0 <= i < w ->
      logic4_word_bit r i =
        if Z.testbit mask i then logic4_word_bit forced i else logic4_word_bit driven i)).
Proof.
  intros Hw Hd Hf. eapply returns_mono; [by apply accumulate_resolves|]. intros driven [Ed Hr]. split; [done|].
  eapply returns_mono; [apply apply_force_word_spec; congruence || lia|]. intros r [_ H]. by rewrite Ed in H.
Qed.

Lemma narrow_resolution_and_force_witness :
  returns (accumulate 4 [mkLogic4Word 4 5 0; mkLogic4Word 4 1 12]) (fun driven =>
    logic4_word_bit driven 0 = Logic4_one /\
    returns (apply_force_word driven (mkLogic4Word 4 0 0) 1) (fun r => logic4_word_bit r 0 = Logic4_zero)).
Proof.
  eapply returns_mono; [apply (narrow_resolution_and_force 4 [mkLogic4Word 4 5 0; mkLogic4Word 4 1 12] (mkLogic4Word 4 0 0) 1)|].
  - concrete.
  - repeat (apply Forall_cons_2; [reflexivity|]); apply Forall_nil_2.
  - reflexivity.
  - intros driven [H1 H2]. split.
    + rewrite H1 by (vm_compute; intuition discriminate). vm_compute. reflexivity.
    + eapply returns_mono; [exact H2|]. intros r H. rewrite H by (vm_compute; intuition discriminate).
      vm_compute. reflexivity.
Defined.

(** ** Findings *)

(** A negative odd power of an all-ones nine-state base keeps the nine-state
    representation above 64 bits and loses it at 64 bits and below. *)
Definition ones_text (n : nat) : list ascii := replicate n "1"%char.
Definition ones9 (n : nat) : PackedLogic4 := value_of (from_logic9_msb_string (ones_text n)).
Definition ones4 (n : nat) : PackedLogic4 := value_of (from_msb_string (ones_text n)).

Example signed_power_representation :
  (r ← binary_value power_signed (ones9 64) (ones4 64); Ok (is_logic9 r)) = Ok false /\
  (r ← binary_value power_signed (ones9 65) (ones4 65); Ok (is_logic9 r)) = Ok true.
Proof. split; vm_compute; reflexivity. Qed.

(** Past the 32-bit offsets the two part writes part ways: the reference
    compares wrapped 32-bit targets and throws, the kernel accepts. *)
Definition edge_part : DynamicPartIndex := mkDynamicPartIndex 3 0 (2 ^ 32 - 2) 4 true true.

Example part_write_wraps :
  dynamic_part_write_value (vec4 "1011") (vec4 (int32 "000000")) edge_part = Throw part_not_contiguous /\
  kw_dynamic_part_write (word_of (vec4 "1011")) (word_of (vec4 (int32 "000000"))) edge_part <> None.
Proof. split; vm_compute; [reflexivity|discriminate]. Qed.

(** VHDL matching equality returns X, not a known value, when an element of
    an operand is unknown. *)
Example matching_equality_unknown :
  binary_value vhdl_match_equal (vec4 "1X") (vec4 "11") = Ok (vec4 "X").
Proof. vm_compute. reflexivity. Qed.
