(* ===== verification/SvaPlan.v ===== *)
(** * Evaluation plans of concurrent properties

    src/semantic/sva_plan.cpp and include/fsim/semantic/sva_plan.hpp: the plan
    of one SystemVerilog concurrent property (matcher programs for its
    sequences and a tree of property operators) and the text in which it
    travels from the front end to the runtime.  The text is a list of
    characters; [Reader] is the class of that name, a function from the
    characters not read yet to a value and the rest. *)
From S2P Require Import Prelude.
From stdpp Require Import options.

(** ** The plan *)

(** [Bound::Mode] and [Bound]. *)
Inductive BoundMode := literal | slot | unbounded_mode.

Record Bound := MkBound {
  mode : BoundMode;
  value : Z;
  offset : Z;
}.

(** [Op]. *)
Inductive Op :=
  | op_check | op_delay | op_fork | op_jump
  | op_counter_set | op_counter_branch | op_counter_increment
  | op_throughout_begin | op_throughout_end
  | op_first_match_begin | op_first_match_end
  | op_join_begin | op_join_end | op_match | op_clock.

Record Instruction := MkInstruction {
  ins_op : Op;
  ins_a : Z;
  ins_b : Z;
  ins_c : Z;
  ins_lo : Bound;
  ins_hi : Bound;
}.

Record Sequence := MkSequence {
  seq_code : list Instruction;
  seq_counters : Z;
}.

(** [PropertyKind]. *)
Inductive PropertyKind :=
  | k_sequence | k_negation | k_conjunction | k_disjunction | k_equivalence
  | k_implies | k_implication | k_followed_by | k_conditional | k_nexttime
  | k_always | k_eventually | k_until | k_accept | k_reject | k_vacuous.

Record Property_ := MkProperty {
  kind : PropertyKind;
  strong : bool;
  overlapped : bool;
  synchronous : bool;
  prop_sequence : Z;
  prop_guard : Z;
  children : list Z;
  prop_lo : Bound;
  prop_hi : Bound;
}.

Record Plan := MkPlan {
  sequences : list Sequence;
  properties : list Property_;
  root : Z;
  guards : Z;
  bounds : Z;
  every_match : bool;
  clock_guards : list Z;
}.

#[global] Instance bound_mode_eq_dec : EqDecision BoundMode.
Proof. solve_decision. Defined.
#[global] Instance bound_eq_dec : EqDecision Bound.
Proof. solve_decision. Defined.
#[global] Instance op_eq_dec : EqDecision Op.
Proof. solve_decision. Defined.
#[global] Instance property_kind_eq_dec : EqDecision PropertyKind.
Proof. solve_decision. Defined.

(** The numbers of the enumerators. *)
Definition mode_index (m : BoundMode) : Z :=
  match m with literal => 0 | slot => 1 | unbounded_mode => 2 end.

Definition mode_of (k : Z) : option BoundMode := [literal; slot; unbounded_mode] !! Z.to_nat k.

Definition all_ops : list Op :=
  [op_check; op_delay; op_fork; op_jump; op_counter_set; op_counter_branch;
   op_counter_increment; op_throughout_begin; op_throughout_end; op_first_match_begin;
   op_first_match_end; op_join_begin; op_join_end; op_match; op_clock].

Definition op_index (o : Op) : Z :=
  match o with
  | op_check => 0 | op_delay => 1 | op_fork => 2 | op_jump => 3
  | op_counter_set => 4 | op_counter_branch => 5 | op_counter_increment => 6
  | op_throughout_begin => 7 | op_throughout_end => 8
  | op_first_match_begin => 9 | op_first_match_end => 10
  | op_join_begin => 11 | op_join_end => 12 | op_match => 13 | op_clock => 14
  end.

Definition op_of (k : Z) : option Op := all_ops !! Z.to_nat k.

Definition all_kinds : list PropertyKind :=
  [k_sequence; k_negation; k_conjunction; k_disjunction; k_equivalence; k_implies;
   k_implication; k_followed_by; k_conditional; k_nexttime; k_always; k_eventually;
   k_until; k_accept; k_reject; k_vacuous].

Definition kind_index (k : PropertyKind) : Z :=
  match k with
  | k_sequence => 0 | k_negation => 1 | k_conjunction => 2 | k_disjunction => 3
  | k_equivalence => 4 | k_implies => 5 | k_implication => 6 | k_followed_by => 7
  | k_conditional => 8 | k_nexttime => 9 | k_always => 10 | k_eventually => 11
  | k_until => 12 | k_accept => 13 | k_reject => 14 | k_vacuous => 15
  end.

Definition kind_of (k : Z) : option PropertyKind := all_kinds !! Z.to_nat k.

(** ** Decimal text: [std::to_string] and [std::from_chars] on 64-bit integers *)

Definition Text := list ascii.

Definition I64_MIN : Z := - 2 ^ 63.
Definition I64_MAX : Z := 2 ^ 63 - 1.
Definition is_i64 (x : Z) : bool := (I64_MIN <=? x) && (x <=? I64_MAX).

Definition digit_char (d : Z) : ascii := ascii_of_nat (48 + Z.to_nat d).
Definition char_digit (c : ascii) : Z := Z.of_nat (nat_of_ascii c) - 48.
Definition is_digit (c : ascii) : bool := (0 <=? char_digit c) && (char_digit c <=? 9).

(** The digits of [n], most significant first, before those in [tail]. *)
Fixpoint digits (fuel : nat) (n : Z) (tail : Text) : Text :=
  match fuel with
  | O => tail
  | S fuel =>
      let text := digit_char (n mod 10) :: tail in
      if n <? 10 then text else digits fuel (n / 10) text
  end.

Definition decimal (n : Z) : Text := digits (S (Z.to_nat (Z.log2 n))) n [].

Definition to_string (n : Z) : Text :=
  if n <? 0 then "-"%char :: decimal (- n) else decimal n.

(** The longest run of digits at the front, and what follows it. *)
Fixpoint take_digits (text : Text) : Text * Text :=
  match text with
  | c :: rest =>
      if is_digit c then let '(ds, tail) := take_digits rest in (c :: ds, tail)
      else ([], text)
  | [] => ([], [])
  end.

Definition digits_value (ds : Text) : Z :=
  fold_left (fun acc c => acc * 10 + char_digit c) ds 0.

(** [std::from_chars]: the value and the rest of the text, [None] on an error
    (no digits, or a value outside the type). *)
Definition from_chars (text : Text) : option (Z * Text) :=
  let '(negative, body) :=
    match text with
    | c :: rest => if decide (c = "-"%char) then (true, rest) else (false, text)
    | [] => (false, text)
    end in
  let '(ds, rest) := take_digits body in
  match ds with
  | [] => None
  | _ =>
      let v := if negative then - digits_value ds else digits_value ds in
      if is_i64 v then Some (v, rest) else None
  end.

(** ** [class Writer] *)

Definition version : Text := ["s"; "v"; "a"; "1"]%char.

Definition put (v : Z) (text : Text) : Text := text ++ " "%char :: to_string v.

Definition put_bound (b : Bound) (text : Text) : Text :=
  put (offset b) (put (value b) (put (mode_index (mode b)) text)).

Definition put_instruction (i : Instruction) (text : Text) : Text :=
  put_bound (ins_hi i) (put_bound (ins_lo i)
    (put (ins_c i) (put (ins_b i) (put (ins_a i) (put (op_index (ins_op i)) text))))).

Definition put_each {A} (f : A -> Text -> Text) (l : list A) (text : Text) : Text :=
  foreach_pure l f text.

Definition put_sequence (s : Sequence) (text : Text) : Text :=
  put_each put_instruction (seq_code s) (put (size (seq_code s)) (put (seq_counters s) text)).

Definition flags_of (p : Property_) : Z :=
  Z.lor (Z.lor (if strong p then 1 else 0) (if overlapped p then 2 else 0))
        (if synchronous p then 4 else 0).

Definition put_property (p : Property_) (text : Text) : Text :=
  put_each put (children p) (put (size (children p))
    (put_bound (prop_hi p) (put_bound (prop_lo p)
      (put (prop_guard p) (put (prop_sequence p)
        (put (flags_of p) (put (kind_index (kind p)) text))))))).

Definition encode (plan : Plan) : Text :=
  let text := put (root plan) (put (if every_match plan then 1 else 0)
                (put (bounds plan) (put (guards plan) []))) in
  let text := put_each put_sequence (sequences plan) (put (size (sequences plan)) text) in
  let text := put_each put_property (properties plan) (put (size (properties plan)) text) in
  let text := match clock_guards plan with
              | [] => text
              | _ => put_each put (clock_guards plan) (put (size (clock_guards plan)) text)
              end in
  version ++ text.

(** ** [class Reader] *)

Definition Reader (A : Type) := Text -> option (A * Text).

Definition read_ret {A} (a : A) : Reader A := fun text => Some (a, text).
Definition read_bind {A B} (m : Reader A) (f : A -> Reader B) : Reader B := fun text =>
  match m text with Some (a, rest) => f a rest | None => None end.
Definition read_guard (b : bool) : Reader unit := fun text =>
  if b then Some (tt, text) else None.
Definition read_some {A} (o : option A) : Reader A := fun text =>
  match o with Some a => Some (a, text) | None => None end.

Declare Scope reader_scope.
Delimit Scope reader_scope with reader.
Notation "x <- m ; k" := (read_bind m (fun x => k))
  (at level 100, m at next level, k at level 200, right associativity) : reader_scope.

Fixpoint skip_spaces (text : Text) : Text :=
  match text with
  | c :: rest => if decide (c = " "%char) then skip_spaces rest else text
  | [] => []
  end.

Definition get : Reader Z := fun text => from_chars (skip_spaces text).

Definition get_unsigned (limit : Z) : Reader Z :=
  (raw <- get; _ <- read_guard ((0 <=? raw) && (raw <=? limit)); read_ret raw)%reader.

Definition get_bound : Reader Bound :=
  (m <- get; _ <- read_guard ((0 <=? m) && (m <=? mode_index unbounded_mode));
   md <- read_some (mode_of m); v <- get; o <- get; read_ret (MkBound md v o))%reader.

Definition done (text : Text) : bool := match text with [] => true | _ => false end.

(** ** [decode] *)

Definition maximum_count : Z := 1000000.

Fixpoint get_each {A} (n : nat) (f : Reader A) : Reader (list A) :=
  match n with
  | O => read_ret []
  | S n => (a <- f; l <- get_each n f; read_ret (a :: l))%reader
  end.

Definition get_list {A} (n : Z) (f : Reader A) : Reader (list A) := get_each (Z.to_nat n) f.

Definition get_instruction : Reader Instruction :=
  (o <- get_unsigned (op_index op_clock); op <- read_some (op_of o);
   a <- get_unsigned maximum_count; b <- get_unsigned maximum_count;
   c <- get_unsigned maximum_count; lo <- get_bound; hi <- get_bound;
   read_ret (MkInstruction op a b c lo hi))%reader.

Definition get_sequence : Reader Sequence :=
  (counters <- get_unsigned maximum_count; n <- get_unsigned maximum_count;
   code <- get_list n get_instruction; read_ret (MkSequence code counters))%reader.

Definition get_property : Reader Property_ :=
  (k <- get_unsigned (kind_index k_vacuous); kd <- read_some (kind_of k);
   flags <- get; s <- get_unsigned maximum_count; g <- get_unsigned maximum_count;
   lo <- get_bound; hi <- get_bound; n <- get_unsigned maximum_count;
   cs <- get_list n (get_unsigned maximum_count);
   read_ret (MkProperty kd (negb (Z.land flags 1 =? 0)) (negb (Z.land flags 2 =? 0))
               (negb (Z.land flags 4 =? 0)) s g cs lo hi))%reader.

Definition get_clock_guards (plan_guards : Z) : Reader (list Z) := fun text =>
  if done text then read_ret [] text
  else (n <- get_unsigned maximum_count; _ <- read_guard (negb (n <? 2));
        get_list n (g <- get_unsigned maximum_count;
                    _ <- read_guard (g <? plan_guards); read_ret g))%reader text.

Definition get_plan : Reader Plan :=
  (gs <- get_unsigned maximum_count; bs <- get_unsigned maximum_count;
   em <- get; rt <- get_unsigned maximum_count; ns <- get_unsigned maximum_count;
   ss <- get_list ns get_sequence;
   np <- get_unsigned maximum_count; ps <- get_list np get_property;
   cg <- get_clock_guards gs;
   read_ret (MkPlan ss ps rt gs bs (negb (em =? 0)) cg))%reader.

(** "Every reference stays inside the plan." *)
Definition property_in_plan (plan : Plan) (p : Property_) : bool :=
  negb ((guards plan <=? prop_guard p) && negb (prop_guard p =? 0))
  && negb ((bool_decide (kind p = k_sequence) || bool_decide (kind p = k_implication)
            || bool_decide (kind p = k_followed_by))
           && (size (sequences plan) <=? prop_sequence p))
  && forallb (fun c => c <? size (properties plan)) (children p).

Definition instruction_in_plan (plan : Plan) (s : Sequence) (i : Instruction) : bool :=
  let n := size (seq_code s) in
  let guarded := bool_decide (ins_op i = op_check) || bool_decide (ins_op i = op_throughout_begin) in
  let counted := bool_decide (ins_op i = op_counter_set)
    || bool_decide (ins_op i = op_counter_branch)
    || bool_decide (ins_op i = op_counter_increment) in
  let sum := value (ins_lo i) + offset (ins_lo i) in
  negb ((guarded && (guards plan <=? ins_a i))
    || (counted && (seq_counters s <=? ins_a i))
    || ((bool_decide (ins_op i = op_fork) || bool_decide (ins_op i = op_jump))
        && (n <? ins_a i))
    || (bool_decide (ins_op i = op_counter_branch) && (n <? ins_b i))
    || (bool_decide (ins_op i = op_join_begin) && ((n <? ins_b i) || (n <? ins_c i)))
    || (bool_decide (ins_op i = op_clock)
        && ((size (clock_guards plan) <=? ins_a i)
            || negb (bool_decide (mode (ins_lo i) = literal))
            || (sum <? 0) || (1 <? sum)))).

Definition references_ok (plan : Plan) : bool :=
  forallb (property_in_plan plan) (properties plan)
  && forallb (fun s => forallb (instruction_in_plan plan s) (seq_code s)) (sequences plan).

Fixpoint starts_with (prefix text : Text) : option Text :=
  match prefix, text with
  | [], _ => Some text
  | c :: prefix, d :: text => if decide (c = d) then starts_with prefix text else None
  | _ :: _, [] => None
  end.

Definition decode (text : Text) : option Plan :=
  body ← starts_with version text;
  '(plan, rest) ← get_plan body;
  if negb (done rest) || (size (properties plan) <=? root plan) then None
  else if references_ok plan then Some plan else None.
