(* ===== verification/SvaPlanRoundTrip.v ===== *)
(** * The text of a plan is read back

    [SvaPlan.encode] and [SvaPlan.decode]: decimal numbers, then every part of
    a plan, then the plan; and [decode] only ever returns plans whose
    references stay inside them. *)
From S2P Require Import Prelude SvaPlan.
From stdpp Require Import options.

(** ** Decimal numbers *)

(** A text after which a number ends: it does not start with a digit. *)
Definition stops (rest : Text) : Prop :=
  match rest with c :: _ => is_digit c = false | [] => True end.

Lemma char_digit_char d : 0 <= d <= 9 -> char_digit (digit_char d) = d.
Proof. intros. unfold char_digit, digit_char. rewrite nat_ascii_embedding; lia. Qed.

Lemma is_digit_char d : 0 <= d <= 9 -> is_digit (digit_char d) = true.
Proof. intros. unfold is_digit. rewrite char_digit_char by lia. lia. Qed.

Lemma digits_value_app ds1 ds2 :
  digits_value (ds1 ++ ds2) = fold_left (fun acc c => acc * 10 + char_digit c) ds2 (digits_value ds1).
Proof. unfold digits_value. by rewrite fold_left_app. Qed.

(** The digits of [n] before [tail] are digits, and reading on from them is
    reading [tail] from [n]. *)
Lemma digits_spec fuel n tail :
  0 <= n < 2 ^ Z.of_nat fuel ->
  exists ds, digits fuel n tail = ds ++ tail /\ (0 < n -> ds <> []) /\
    Forall (fun c => is_digit c = true) ds /\ digits_value ds = n /\ (0 < Z.of_nat fuel -> ds <> []).
Proof.
  revert n tail. induction fuel as [|fuel IH]; intros n tail Hn.
  { exists []. cbn in *. repeat split; try done; lia. }
  assert (Hd : 0 <= n mod 10 <= 9) by (pose proof (Z.mod_pos_bound n 10); lia).
  cbn [digits]. destruct (n <? 10) eqn:E.
  - exists [digit_char (n mod 10)]. repeat split; try done.
    + constructor; [by apply is_digit_char|constructor].
    + cbn. rewrite char_digit_char by lia. rewrite Z.mod_small; lia.
  - assert (Hq : 0 <= n / 10 < 2 ^ Z.of_nat fuel).
    { split; [apply Z.div_pos; lia|]. apply Z.div_lt_upper_bound; [lia|].
      rewrite Nat2Z.inj_succ, Z.pow_succ_r in Hn by lia. lia. }
    destruct (IH _ (digit_char (n mod 10) :: tail) Hq) as (ds & -> & Hne & Hall & Hv & _).
    exists (ds ++ [digit_char (n mod 10)]). repeat split.
    + by rewrite <- app_assoc.
    + by destruct ds.
    + apply Forall_app. split; [done|]. constructor; [by apply is_digit_char|constructor].
    + rewrite digits_value_app, Hv. cbn. rewrite char_digit_char by lia.
      pose proof (Z.div_mod n 10). lia.
    + by destruct ds.
Qed.

Lemma decimal_spec n :
  0 <= n ->
  decimal n <> [] /\ Forall (fun c => is_digit c = true) (decimal n) /\ digits_value (decimal n) = n.
Proof.
  intros Hn. unfold decimal.
  destruct (digits_spec (S (Z.to_nat (Z.log2 n))) n []) as (ds & -> & _ & Hall & Hv & Hne).
  { split; [done|]. rewrite Nat2Z.inj_succ, Z2Nat.id by apply Z.log2_nonneg.
    destruct (decide (n = 0)) as [->|]; [cbn; lia|]. apply Z.log2_spec. lia. }
  rewrite app_nil_r. repeat split; auto. apply Hne. lia.
Qed.

Lemma take_digits_app ds rest :
  Forall (fun c => is_digit c = true) ds -> stops rest -> take_digits (ds ++ rest) = (ds, rest).
Proof.
  intros Hds Hrest. induction Hds as [|c ds Hc _ IH]; cbn.
  - destruct rest as [|c rest]; [done|]. cbn in *. by rewrite Hrest.
  - by rewrite Hc, IH.
Qed.

(** What [std::to_string] writes, [std::from_chars] reads. *)
Lemma from_chars_to_string n rest :
  is_i64 n = true -> stops rest -> from_chars (to_string n ++ rest) = Some (n, rest).
Proof.
  intros Hn Hrest. unfold to_string, from_chars. destruct (n <? 0) eqn:E.
  - destruct (decimal_spec (- n)) as (Hne & Hall & Hv); [lia|].
    cbn [app]. rewrite decide_True by done. rewrite take_digits_app by done.
    destruct (decimal (- n)) eqn:Ed; [done|]. by rewrite Hv, Z.opp_involutive, Hn.
  - destruct (decimal_spec n) as (Hne & Hall & Hv); [lia|].
    destruct (decimal n) as [|c ds] eqn:Ed; [done|]. cbn [app].
    apply Forall_cons in Hall as Hall'. destruct Hall' as [Hc Hds].
    destruct (decide (c = "-"%char)) as [->|]; [done|].
    change (c :: ds ++ rest) with ((c :: ds) ++ rest). rewrite take_digits_app by done.
    by rewrite Hv, Hn.
Qed.

(** ** Readers that read back a text *)

(** What may follow the text being read: nothing, for the last part of a plan
    ([last]), or a text after which a number ends. *)
Definition follows (last : bool) (rest : Text) : Prop :=
  if last then rest = [] else stops rest.

(** [reads_at last f t a]: from [t] and any such continuation, [f] reads [a] and
    leaves the continuation. *)
Definition reads_at {A} (last : bool) (f : Reader A) (t : Text) (a : A) : Prop :=
  forall rest, follows last rest -> f (t ++ rest) = Some (a, rest).

Abbreviation reads := (reads_at false).

(** A text that may follow a number. *)
Definition opens (t : Text) : Prop := forall rest, stops rest -> stops (t ++ rest).

Definition spell (v : Z) : Text := " "%char :: to_string v.
Arguments spell : simpl never.

Lemma follows_stops last rest : follows last rest -> stops rest.
Proof. destruct last; [by intros ->|done]. Qed.

Lemma reads_any {A} last (f : Reader A) t a : reads f t a -> reads_at last f t a.
Proof. intros H rest Hr. apply H. by eapply follows_stops. Qed.

Lemma opens_nil : opens [].
Proof. by intros rest. Qed.

Lemma opens_spell v t : opens (spell v ++ t).
Proof. by intros rest _. Qed.

Lemma opens_app t1 t2 : opens t1 -> opens t2 -> opens (t1 ++ t2).
Proof. intros H1 H2 rest Hr. rewrite <- app_assoc. auto. Qed.

Lemma reads_value {A} last (a : A) : reads_at last (read_ret a) [] a.
Proof. by intros rest. Qed.

Lemma reads_then {A B} last (m : Reader A) (f : A -> Reader B) t1 t2 a b :
  reads m t1 a -> opens t2 -> reads_at last (f a) t2 b -> reads_at last (read_bind m f) (t1 ++ t2) b.
Proof.
  intros Hm Ho Hf rest Hr. unfold read_bind. rewrite <- app_assoc, Hm; [by apply Hf|].
  apply Ho. by eapply follows_stops.
Qed.

Lemma reads_guard {B} last (c : bool) (f : unit -> Reader B) t b :
  c = true -> reads_at last (f tt) t b -> reads_at last (read_bind (read_guard c) f) t b.
Proof. intros -> Hf rest Hr. unfold read_bind, read_guard. by apply Hf. Qed.

Lemma reads_some {A B} last (o : option A) (f : A -> Reader B) a t b :
  o = Some a -> reads_at last (f a) t b -> reads_at last (read_bind (read_some o) f) t b.
Proof. intros -> Hf rest Hr. unfold read_bind, read_some. by apply Hf. Qed.

Lemma reads_last {A B} last (m : Reader A) (g : A -> B) t a b :
  reads_at last m t a -> g a = b -> reads_at last (read_bind m (fun a => read_ret (g a))) t b.
Proof. intros Hm <- rest Hr. unfold read_bind. by rewrite Hm. Qed.

Lemma get_reads v : is_i64 v = true -> reads get (spell v) v.
Proof.
  intros Hv rest Hr. unfold get, spell. cbn.
  assert (Hs : skip_spaces (to_string v ++ rest) = to_string v ++ rest).
  { unfold to_string. destruct (v <? 0) eqn:E; [done|].
    destruct (decimal_spec v) as (Hne & Hall & _); [lia|].
    destruct (decimal v) as [|c ds]; [done|]. cbn. inversion Hall; subst.
    by destruct (decide (c = " "%char)) as [->|]. }
  rewrite Hs. by apply from_chars_to_string.
Qed.

Definition within (limit v : Z) : bool := (0 <=? v) && (v <=? limit).

Lemma get_unsigned_reads limit v :
  limit <= I64_MAX -> within limit v = true -> reads (get_unsigned limit) (spell v) v.
Proof.
  unfold within, I64_MAX. intros Hl Hv. unfold get_unsigned. rewrite <- (app_nil_r (spell v)).
  eapply reads_then; [apply get_reads| apply opens_nil |].
  - unfold is_i64, I64_MIN, I64_MAX. lia.
  - eapply reads_guard; [lia|]. apply reads_value.
Qed.

Lemma get_each_reads {A} (f : Reader A) (enc : A -> Text) l :
  (forall a, a ∈ l -> reads f (enc a) a) -> (forall a t, opens (enc a ++ t)) ->
  reads (get_each (length l) f) (concat (map enc l)) l.
Proof.
  intros Hf Ho. induction l as [|a l IH]; cbn; [apply reads_value|].
  eapply reads_then; [apply Hf; by left| |].
  - destruct l; [apply opens_nil|]. apply Ho.
  - eapply reads_last; [apply IH; intros; apply Hf; by right|]. done.
Qed.

(** ** What the writer appends *)

Definition bound_text (b : Bound) : Text :=
  spell (mode_index (mode b)) ++ spell (value b) ++ spell (offset b).

Definition instruction_text (i : Instruction) : Text :=
  spell (op_index (ins_op i)) ++ spell (ins_a i) ++ spell (ins_b i) ++ spell (ins_c i)
  ++ bound_text (ins_lo i) ++ bound_text (ins_hi i).

Definition list_text {A} (enc : A -> Text) (l : list A) : Text :=
  spell (size l) ++ concat (map enc l).

Definition sequence_text (s : Sequence) : Text :=
  spell (seq_counters s) ++ list_text instruction_text (seq_code s).

Definition property_text (p : Property_) : Text :=
  spell (kind_index (kind p)) ++ spell (flags_of p) ++ spell (prop_sequence p)
  ++ spell (prop_guard p) ++ bound_text (prop_lo p) ++ bound_text (prop_hi p)
  ++ list_text spell (children p).

Definition clocks_text (l : list Z) : Text :=
  match l with [] => [] | _ => list_text spell l end.

Definition plan_text (p : Plan) : Text :=
  spell (guards p) ++ spell (bounds p) ++ spell (if every_match p then 1 else 0)
  ++ spell (root p) ++ list_text sequence_text (sequences p)
  ++ list_text property_text (properties p) ++ clocks_text (clock_guards p).

Lemma put_each_text {A} (f : A -> Text -> Text) enc l text :
  (forall a t, f a t = t ++ enc a) -> put_each f l text = text ++ concat (map enc l).
Proof.
  intros Hf. revert text. unfold put_each.
  induction l as [|a l IH]; intros text; cbn; [by rewrite app_nil_r|].
  by rewrite IH, Hf, <- app_assoc.
Qed.

Lemma put_instruction_text i t : put_instruction i t = t ++ instruction_text i.
Proof. unfold put_instruction, put_bound, put, instruction_text, bound_text, spell. by rewrite <- !app_assoc. Qed.

Lemma put_sequence_text s t : put_sequence s t = t ++ sequence_text s.
Proof.
  unfold put_sequence. rewrite (put_each_text _ instruction_text) by apply put_instruction_text.
  unfold put, sequence_text, list_text, spell. by rewrite <- !app_assoc.
Qed.

Lemma put_property_text p t : put_property p t = t ++ property_text p.
Proof.
  unfold put_property. rewrite (put_each_text _ spell) by done.
  unfold put_bound, put, property_text, bound_text, list_text, spell. by rewrite <- !app_assoc.
Qed.

Lemma encode_text p : encode p = version ++ plan_text p.
Proof.
  unfold encode. f_equal.
  rewrite (put_each_text _ sequence_text) by apply put_sequence_text.
  rewrite (put_each_text _ property_text) by apply put_property_text.
  unfold plan_text, clocks_text. destruct (clock_guards p) as [|c cs].
  - rewrite app_nil_r. unfold put, list_text, spell. by rewrite <- !app_assoc.
  - rewrite (put_each_text _ spell) by done.
    unfold put, list_text, spell. by rewrite <- !app_assoc.
Qed.

(** ** Plans that can be read back *)

Definition bound_valid (b : Bound) : bool := is_i64 (value b) && is_i64 (offset b).

Definition instruction_valid (i : Instruction) : bool :=
  within maximum_count (ins_a i) && within maximum_count (ins_b i)
  && within maximum_count (ins_c i) && bound_valid (ins_lo i) && bound_valid (ins_hi i).

Definition sequence_valid (s : Sequence) : bool :=
  within maximum_count (seq_counters s) && within maximum_count (size (seq_code s))
  && forallb instruction_valid (seq_code s).

Definition property_valid (p : Property_) : bool :=
  within maximum_count (prop_sequence p) && within maximum_count (prop_guard p)
  && bound_valid (prop_lo p) && bound_valid (prop_hi p)
  && within maximum_count (size (children p)) && forallb (within maximum_count) (children p).

Definition clocks_valid (plan_guards : Z) (l : list Z) : bool :=
  match l with
  | [] => true
  | _ => within maximum_count (size l) && (2 <=? size l)
         && forallb (fun g => within maximum_count g && (g <? plan_guards)) l
  end.

(** Numbers and tables within the limits of [decode], a clock table of none or
    at least two clocks, and every reference inside the plan. *)
Definition plan_valid (p : Plan) : bool :=
  within maximum_count (guards p) && within maximum_count (bounds p)
  && within maximum_count (root p)
  && within maximum_count (size (sequences p)) && forallb sequence_valid (sequences p)
  && within maximum_count (size (properties p)) && forallb property_valid (properties p)
  && clocks_valid (guards p) (clock_guards p)
  && (root p <? size (properties p)) && references_ok p.

Ltac split_bools :=
  repeat match goal with
  | H : _ && _ = true |- _ => apply andb_prop in H as [? ?]
  end.

Lemma forallb_elem {A} (f : A -> bool) l a : forallb f l = true -> a ∈ l -> f a = true.
Proof. intros H Ha. rewrite forallb_forall in H. apply H. by apply list_elem_of_In. Qed.

Lemma get_bound_reads b : bound_valid b = true -> reads get_bound (bound_text b) b.
Proof.
  destruct b as [m v o]. unfold bound_valid, get_bound, bound_text. cbn. intros H. split_bools.
  eapply reads_then; [apply get_reads; by destruct m | apply opens_spell |].
  eapply reads_guard; [by destruct m|]. eapply reads_some; [by destruct m|].
  eapply reads_then; [by apply get_reads | rewrite <- app_nil_r; apply opens_spell |].
  eapply reads_last; [by apply get_reads | done].
Qed.

Lemma opens_bound_text b t : opens (bound_text b ++ t).
Proof. unfold bound_text. rewrite <- app_assoc. apply opens_spell. Qed.

Lemma opens_list_text {A} (enc : A -> Text) l t : opens (list_text enc l ++ t).
Proof. unfold list_text. rewrite <- app_assoc. apply opens_spell. Qed.

Lemma get_list_reads {A B} last (f : Reader A) (enc : A -> Text) l (k : list A -> Reader B) t b :
  within maximum_count (size l) = true ->
  (forall a, a ∈ l -> reads f (enc a) a) -> (forall a t, opens (enc a ++ t)) ->
  opens t -> reads_at last (k l) t b ->
  reads_at last (read_bind (get_unsigned maximum_count) (fun n => read_bind (get_list n f) k))
    (list_text enc l ++ t) b.
Proof.
  intros Hn Hf Ho Ht Hk. unfold list_text. rewrite <- app_assoc.
  eapply reads_then; [by apply get_unsigned_reads| |].
  - apply opens_app; [|done]. destruct l; [apply opens_nil|apply Ho].
  - eapply reads_then; [| done | done].
    unfold get_list, size. rewrite Nat2Z.id. by apply get_each_reads.
Qed.

Ltac open_text :=
  match goal with
  | |- opens (_ ++ _) => first [ apply opens_spell | apply opens_bound_text | apply opens_list_text ]
  | |- opens [] => apply opens_nil
  | |- opens ?t => rewrite <- (app_nil_r t); open_text
  end.

(** One field: its text is read, the rest follows. *)
Ltac read_field :=
  eapply reads_then;
    [ first [ apply get_unsigned_reads; [done|done] | by apply get_bound_reads ] | open_text |].

Lemma get_instruction_reads i :
  instruction_valid i = true -> reads get_instruction (instruction_text i) i.
Proof.
  destruct i as [o a b c lo hi]. unfold instruction_valid, get_instruction, instruction_text.
  cbn [ins_op ins_a ins_b ins_c ins_lo ins_hi]. intros H. split_bools.
  eapply reads_then; [apply get_unsigned_reads; [done|by destruct o] | open_text |].
  eapply reads_some; [by destruct o|]. do 4 read_field.
  eapply reads_last; [by apply get_bound_reads | done].
Qed.

Lemma get_sequence_reads s :
  sequence_valid s = true -> reads get_sequence (sequence_text s) s.
Proof.
  destruct s as [code n]. unfold sequence_valid, get_sequence, sequence_text.
  cbn [seq_code seq_counters]. intros H. split_bools.
  read_field.
  match goal with |- reads_at _ _ ?t _ => rewrite <- (app_nil_r t) end.
  eapply get_list_reads; [done | | | open_text | apply reads_value].
  - intros i Hi. apply get_instruction_reads. by eapply forallb_elem.
  - intros i t. unfold instruction_text. rewrite <- app_assoc. open_text.
Qed.

Lemma flags_of_bits p :
  is_i64 (flags_of p) = true /\ negb (Z.land (flags_of p) 1 =? 0) = strong p
  /\ negb (Z.land (flags_of p) 2 =? 0) = overlapped p
  /\ negb (Z.land (flags_of p) 4 =? 0) = synchronous p.
Proof. unfold flags_of. by destruct (strong p), (overlapped p), (synchronous p). Qed.

Lemma get_property_reads p :
  property_valid p = true -> reads get_property (property_text p) p.
Proof.
  pose proof (flags_of_bits p) as (Hf & H1 & H2 & H4). revert Hf H1 H2 H4.
  unfold property_valid, get_property, property_text.
  generalize (flags_of p) as f. destruct p as [k st ov sy s g cs lo hi]. cbn. intros f Hf H1 H2 H4 H.
  split_bools.
  eapply reads_then; [apply get_unsigned_reads; [done|by destruct k] | open_text |].
  eapply reads_some; [by destruct k|].
  eapply reads_then; [by apply get_reads | open_text |].
  do 3 read_field. eapply reads_then; [by apply get_bound_reads | open_text |].
  match goal with |- reads_at _ _ ?t _ => rewrite <- (app_nil_r t) end.
  eapply get_list_reads; [done | | | open_text |].
  - intros c Hc. apply get_unsigned_reads; [done|]. by eapply forallb_elem.
  - intros c t. open_text.
  - rewrite H1, H2, H4. apply reads_value.
Qed.

(** The clock table ends the text: a plan without one ends before it. *)
Lemma get_clock_guards_reads gs l :
  clocks_valid gs l = true -> reads_at true (get_clock_guards gs) (clocks_text l) l.
Proof.
  unfold clocks_valid, clocks_text, get_clock_guards.
  destruct l as [|c cs]; [by intros _ rest Hr; cbn in Hr; subst|].
  set (l := c :: cs). intros H. split_bools. intros rest Hrest. cbn in Hrest. subst rest.
  assert (Hd : done (list_text spell l ++ []) = false) by reflexivity. rewrite Hd.
  assert (Hr : reads (read_bind (get_unsigned maximum_count) (fun n =>
      read_bind (read_guard (negb (n <? 2))) (fun _ => get_list n
        (read_bind (get_unsigned maximum_count) (fun g =>
           read_bind (read_guard (g <? gs)) (fun _ => read_ret g))))))
      (list_text spell l) l).
  { unfold list_text. eapply reads_then; [by apply get_unsigned_reads| |].
    - subst l. cbn [map concat]. open_text.
    - eapply reads_guard; [lia|]. unfold get_list, size. rewrite Nat2Z.id.
      apply get_each_reads; [|intros; open_text]. intros g Hg.
      pose proof (forallb_elem _ _ _ H0 Hg) as Hv. cbn in Hv. split_bools.
      rewrite <- (app_nil_r (spell g)). eapply reads_then; [by apply get_unsigned_reads|open_text|].
      eapply reads_guard; [done|]. apply reads_value. }
  exact (Hr [] I).
Qed.

Lemma opens_clocks_text l : opens (clocks_text l).
Proof. destruct l; [apply opens_nil|]. rewrite <- app_nil_r. apply opens_list_text. Qed.

Lemma get_plan_reads p : plan_valid p = true -> reads_at true get_plan (plan_text p) p.
Proof.
  destruct p as [ss ps rt gs bs em cg]. unfold plan_valid, plan_text, get_plan.
  cbn [sequences properties root guards bounds every_match clock_guards].
  intros H. split_bools. do 2 read_field.
  eapply reads_then; [apply get_reads; by destruct em | open_text |].
  read_field. eapply get_list_reads; [done | | | open_text |].
  { intros s Hs. apply get_sequence_reads. by eapply forallb_elem. }
  { intros s t. unfold sequence_text. rewrite <- app_assoc. open_text. }
  eapply get_list_reads; [done | | | apply opens_clocks_text |].
  { intros q Hq. apply get_property_reads. by eapply forallb_elem. }
  { intros q t. unfold property_text. rewrite <- app_assoc. open_text. }
  eapply reads_last; [by apply get_clock_guards_reads|]. by destruct em.
Qed.

Lemma starts_with_app prefix text : starts_with prefix (prefix ++ text) = Some text.
Proof. induction prefix as [|c l IH]; cbn; [done|]. by rewrite decide_True. Qed.

Lemma decode_encode p : plan_valid p = true -> decode (encode p) = Some p.
Proof.
  intros H. rewrite encode_text. unfold decode. rewrite starts_with_app. cbn [mbind option_bind].
  rewrite <- (app_nil_r (plan_text p)), (get_plan_reads _ H) by done.
  unfold plan_valid in H. split_bools. cbn [mbind option_bind done negb].
  rewrite H0. destruct (size (properties p) <=? root p) eqn:E; [lia|done].
Qed.

(** ** Only valid plans are read *)

(** [yields f P]: whatever the text, what [f] reads satisfies [P]. *)
Definition yields {A} (f : Reader A) (P : A -> Prop) : Prop :=
  forall text a rest, f text = Some (a, rest) -> P a.

Lemma yields_ret {A} (a : A) (P : A -> Prop) : P a -> yields (read_ret a) P.
Proof. intros Ha text b rest [= <- <-]. done. Qed.

Lemma yields_bind {A B} (m : Reader A) (f : A -> Reader B) P Q :
  yields m P -> (forall a, P a -> yields (f a) Q) -> yields (read_bind m f) Q.
Proof.
  intros Hm Hf text b rest. unfold read_bind. destruct (m text) as [[a t]|] eqn:E; [|done].
  apply Hf. by eapply Hm.
Qed.

Lemma yields_guard (c : bool) : yields (read_guard c) (fun _ => c = true).
Proof. intros text a rest. unfold read_guard. by destruct c. Qed.

Lemma yields_some {A} (o : option A) : yields (read_some o) (fun a => o = Some a).
Proof. intros text a rest. unfold read_some. destruct o; [|done]. by intros [= <- <-]. Qed.

Lemma get_yields : yields get (fun v => is_i64 v = true).
Proof.
  intros text v rest. unfold get, from_chars.
  destruct (match skip_spaces text with [] => _ | _ => _ end) as [negative body].
  destruct (take_digits body) as [[|c ds] t]; [done|].
  destruct (is_i64 _) eqn:E; [|done]. by intros [= <- <-].
Qed.

Lemma get_unsigned_yields limit : yields (get_unsigned limit) (fun v => within limit v = true).
Proof.
  eapply yields_bind; [apply get_yields|]. intros v _.
  eapply yields_bind; [apply yields_guard|]. intros u Hv. by apply yields_ret.
Qed.

Lemma get_bound_yields : yields get_bound (fun b => bound_valid b = true).
Proof.
  eapply yields_bind; [apply get_yields|]. intros m _.
  eapply yields_bind; [apply yields_guard|]. intros u _.
  eapply yields_bind; [apply yields_some|]. intros md _.
  eapply yields_bind; [apply get_yields|]. intros v Hv.
  eapply yields_bind; [apply get_yields|]. intros o Ho.
  apply yields_ret. unfold bound_valid. cbn. by rewrite Hv, Ho.
Qed.

Lemma get_list_yields {A} n (f : Reader A) (P : A -> bool) :
  within maximum_count n = true -> yields f (fun a => P a = true) ->
  yields (get_list n f) (fun l => size l = n /\ forallb P l = true).
Proof.
  intros Hn Hf. assert (Hm : yields (get_list n f)
      (fun l => length l = Z.to_nat n /\ forallb P l = true)).
  { unfold get_list. generalize (Z.to_nat n) as m. intros m. clear Hn n. induction m as [|m IH]; cbn [get_each].
    - by apply yields_ret.
    - eapply yields_bind; [apply Hf|]. intros a Ha. eapply yields_bind; [apply IH|].
      intros l [Hl Hall]. apply yields_ret. cbn. by rewrite Hl, Ha, Hall. }
  intros text l rest E. destruct (Hm _ _ _ E) as [Hl Hall]. split; [|done].
  unfold size. rewrite Hl. unfold within in Hn. lia.
Qed.

Ltac yield_field a H :=
  eapply yields_bind;
    [ first [ apply get_unsigned_yields | apply get_bound_yields | apply yields_some
            | apply get_yields ] | intros a H ].

Lemma get_instruction_yields : yields get_instruction (fun i => instruction_valid i = true).
Proof.
  unfold get_instruction. yield_field o Ho. yield_field op Hop. yield_field a Ha.
  yield_field b Hb. yield_field c Hc. yield_field lo Hlo. yield_field hi Hhi.
  apply yields_ret. unfold instruction_valid. cbn. by rewrite Ha, Hb, Hc, Hlo, Hhi.
Qed.

Lemma get_sequence_yields : yields get_sequence (fun s => sequence_valid s = true).
Proof.
  unfold get_sequence. yield_field k Hk. yield_field n Hn.
  eapply yields_bind; [eapply get_list_yields; [done|apply get_instruction_yields]|].
  intros code [Hl Hall]. apply yields_ret. unfold sequence_valid. cbn [seq_code seq_counters].
  by rewrite Hl, Hk, Hn, Hall.
Qed.

Lemma get_property_yields : yields get_property (fun p => property_valid p = true).
Proof.
  unfold get_property. yield_field k Hk. yield_field kd Hkd. yield_field f Hf.
  yield_field s Hs. yield_field g Hg. yield_field lo Hlo. yield_field hi Hhi.
  yield_field n Hn.
  eapply yields_bind; [eapply get_list_yields; [done|apply get_unsigned_yields]|].
  intros cs [Hl Hall]. apply yields_ret. unfold property_valid.
  cbn [prop_sequence prop_guard prop_lo prop_hi children]. by rewrite Hl, Hs, Hg, Hlo, Hhi, Hn, Hall.
Qed.

Lemma get_clock_guards_yields gs :
  yields (get_clock_guards gs) (fun l => clocks_valid gs l = true).
Proof.
  unfold get_clock_guards. intros text l rest. destruct (done text); [by intros [= <- <-]|].
  revert text l rest. yield_field n Hn. eapply yields_bind; [apply yields_guard|].
  intros u2 H2. intros text l rest E.
  eapply (get_list_yields _ _ (fun g => within maximum_count g && (g <? gs))) in E as [Hl Hall].
  - destruct l as [|c cs]; [done|]. unfold clocks_valid. rewrite Hall, Hl, Hn. rewrite andb_true_r. cbn. apply negb_true_iff in H2. lia.
  - done.
  - yield_field g Hg. eapply yields_bind; [apply yields_guard|]. intros u3 Hlt.
    apply yields_ret. by rewrite Hg, Hlt.
Qed.

(** [decode] returns valid plans only. *)
Lemma decode_valid text p : decode text = Some p -> plan_valid p = true.
Proof.
  unfold decode. destruct (starts_with version text) as [body|]; [|done]. cbn [mbind option_bind].
  destruct (get_plan body) as [[q rest]|] eqn:E; [|done]. cbn [mbind option_bind].
  destruct (negb (done rest)); [done|]. cbn [orb].
  destruct (size (properties q) <=? root q) eqn:Er; [done|].
  destruct (references_ok q) eqn:Eo; [|done]. intros [= <-]. revert E Er Eo.
  assert (Hy : yields get_plan (fun q => (size (properties q) <=? root q) = false ->
      references_ok q = true -> plan_valid q = true)); [|by intros E; eapply Hy].
  unfold get_plan. yield_field gs Hgs. yield_field bs Hbs. yield_field em Hem.
  yield_field rt Hrt. yield_field ns Hns.
  eapply yields_bind; [eapply get_list_yields; [done|apply get_sequence_yields]|]. intros ss [Hss Hsv].
  yield_field np Hnp.
  eapply yields_bind; [eapply get_list_yields; [done|apply get_property_yields]|]. intros ps [Hps Hpv].
  eapply yields_bind; [apply get_clock_guards_yields|]. intros cg Hcg.
  apply yields_ret. unfold plan_valid. cbn [sequences properties root guards bounds every_match clock_guards].
  intros Hr Ho. rewrite Hss, Hps in *. rewrite Hgs, Hbs, Hrt, Hns, Hnp, Hsv, Hpv, Hcg, Ho.
  cbn. rewrite andb_true_r. lia.
Qed.

(** A plan is read back exactly when it is valid. *)
Lemma decode_encode_iff p : decode (encode p) = Some p <-> plan_valid p = true.
Proof. split; [apply decode_valid | apply decode_encode]. Qed.
