(* ===== verification/SvaMatcher.v ===== *)
(** * Sequence matcher of the assertion engine

    src/runtime/sva_engine.cpp, lines 1-519: compiled plans, threads and the
    class [Matcher], which runs the program of one sequence from one start tick.
    A thread waits for its next boolean in a window of ticks.

    Ticks are integers.  The sentinel [unbounded] of the code (the largest
    64-bit integer) is [None], so the upper end of a window and a resolved
    bound are [option Z]; ticks themselves are assumed to stay below it.  Loops
    of the code that a plan can make run forever take fuel, and [Exhausted]
    says that it did not suffice. *)
From stdpp Require Import gmap.
From S2P Require Import Prelude SvaPlan.
From stdpp Require Import options.

(** ** Results: a value, an exception, or no answer within the fuel *)

Inductive Result (A : Type) :=
  | Returns (a : A)
  | Throws (e : exception)
  | Exhausted.
Arguments Returns {A} _.
Arguments Throws {A} _.
Arguments Exhausted {A}.

#[global] Instance result_ret : MRet Result := fun A a => Returns a.
#[global] Instance result_bind : MBind Result := fun A B f m =>
  match m with Returns a => f a | Throws e => Throws e | Exhausted => Exhausted end.

Definition of_outcome {A} (m : Outcome A) : Result A :=
  match m with Ok a => Returns a | Throw e => Throws e end.

(** ** Compiled plans *)

Definition unbounded : option Z := None.

(** [unbounded] where a number is needed. *)
Definition number (b : option Z) : Z := default I64_MAX b.

Definition maximum_threads : Z := 2 ^ 16.

Record Step := MkStep {
  step_op : Op;
  step_a : Z;
  step_b : Z;
  step_c : Z;
  step_lo : option Z;
  step_hi : option Z;
}.

Record CompiledSequence := MkCompiledSequence {
  code : list Step;
  counter_count : Z;
}.

Record CompiledProperty := MkCompiledProperty {
  cp_kind : PropertyKind;
  cp_strong : bool;
  cp_overlapped : bool;
  cp_sequence : Z;
  cp_guard : Z;
  cp_children : list Z;
  cp_lo : option Z;
  cp_hi : option Z;
}.

Definition resolve (b : Bound) (bs : list Z) : Outcome (option Z) :=
  match mode b with
  | literal => Ok (Some (value b + offset b))
  | slot =>
      if (value b <? 0) || (size bs <=? value b)
      then Throw (runtime_error "concurrent property bound slot is out of range")
      else Ok (Some (word_at bs (value b) + offset b))
  | unbounded_mode => Ok unbounded
  end.

(** [add]; its base is never [unbounded] where the code calls it. *)
Definition add (base : Z) (off : option Z) : option Z :=
  match off with None => unbounded | Some o => Some (base + o) end.

Record CompiledPlan := MkCompiledPlan {
  plan_sequences : list CompiledSequence;
  plan_properties : list CompiledProperty;
  plan_root : Z;
  plan_guards : Z;
  plan_every_match : bool;
  values : list bool;
  plan_now : Z;
  plan_clock_guards : list Z;
  clock_ticks : list Z;
  clock_times : list Z;
  ticked : list bool;
  time : Z;
}.

Definition guard (p : CompiledPlan) (index : Z) : bool :=
  (index <? size (values p)) && nth (Z.to_nat index) (values p) false.

Definition multiclocked (p : CompiledPlan) : bool :=
  negb (bool_decide (plan_clock_guards p = [])).

(** ** Threads *)

Record Throughout := MkThroughout {
  th_guard : Z;
  from : Z;
}.

Record JoinReference := MkJoinReference {
  ref_join : Z;
  ref_side : Z;
}.

Record Thread := MkThread {
  pc : Z;
  clock : Z;
  switching : bool;
  switch_inclusive : bool;
  switch_time : Z;
  due_lo : Z;
  due_hi : option Z;
  counters : list Z;
  throughout : list Throughout;
  groups : list Z;
  joins : list JoinReference;
}.

#[global] Instance throughout_eq_dec : EqDecision Throughout.
Proof. solve_decision. Defined.
#[global] Instance join_reference_eq_dec : EqDecision JoinReference.
Proof. solve_decision. Defined.
#[global] Instance thread_eq_dec : EqDecision Thread.
Proof. solve_decision. Defined.

(** Assignments to one field. *)
Definition with_pc (t : Thread) (x : Z) : Thread :=
  MkThread x (clock t) (switching t) (switch_inclusive t) (switch_time t) (due_lo t) (due_hi t)
    (counters t) (throughout t) (groups t) (joins t).
Definition with_window (t : Thread) (lo : Z) (hi : option Z) : Thread :=
  MkThread (pc t) (clock t) (switching t) (switch_inclusive t) (switch_time t) lo hi
    (counters t) (throughout t) (groups t) (joins t).
Definition with_counters (t : Thread) (x : list Z) : Thread :=
  MkThread (pc t) (clock t) (switching t) (switch_inclusive t) (switch_time t) (due_lo t) (due_hi t)
    x (throughout t) (groups t) (joins t).
Definition with_throughout (t : Thread) (x : list Throughout) : Thread :=
  MkThread (pc t) (clock t) (switching t) (switch_inclusive t) (switch_time t) (due_lo t) (due_hi t)
    (counters t) x (groups t) (joins t).
Definition with_groups (t : Thread) (x : list Z) : Thread :=
  MkThread (pc t) (clock t) (switching t) (switch_inclusive t) (switch_time t) (due_lo t) (due_hi t)
    (counters t) (throughout t) x (joins t).
Definition with_joins (t : Thread) (x : list JoinReference) : Thread :=
  MkThread (pc t) (clock t) (switching t) (switch_inclusive t) (switch_time t) (due_lo t) (due_hi t)
    (counters t) (throughout t) (groups t) x.
Definition with_clock (t : Thread) (c : Z) (sw incl : bool) (at_time : Z) : Thread :=
  MkThread (pc t) c sw incl at_time (due_lo t) (due_hi t)
    (counters t) (throughout t) (groups t) (joins t).

(** [++thread.pc]. *)
Definition advance (t : Thread) : Thread := with_pc t (pc t + 1).

Definition Key := list (option Z).

(** [Thread::key]. *)
Definition key (t : Thread) : Key :=
  [Some (pc t); Some (clock t);
   Some (Z.lor (if switching t then 1 else 0) (if switch_inclusive t then 2 else 0));
   Some (switch_time t); Some (due_lo t); due_hi t; Some (size (counters t))]
  ++ map Some (counters t)
  ++ [Some (size (throughout t))]
  ++ concat (map (fun e => [Some (th_guard e); Some (from e)]) (throughout t))
  ++ [Some (size (groups t))]
  ++ map Some (groups t)
  ++ concat (map (fun r => [Some (ref_join r); Some (ref_side r)]) (joins t)).

(** ** The matcher *)

Record Join := MkJoin {
  join_kind : Z;
  continuation : Thread;
  ends : gset Z * gset Z;
}.

Record Matcher := MkMatcher {
  sequence_ : CompiledSequence;
  threads : list Thread;
  joins_ : gmap Z Join;
  kept : gset Key;
  visited : gset Key;
  matched_groups : gset Z;
  next_join : Z;
  next_group : Z;
  now : Z;
  matched : bool;
}.

Definition set_threads (m : Matcher) (ts : list Thread) : Matcher :=
  MkMatcher (sequence_ m) ts (joins_ m) (kept m) (visited m) (matched_groups m)
    (next_join m) (next_group m) (now m) (matched m).
Definition set_joins (m : Matcher) (js : gmap Z Join) (next : Z) : Matcher :=
  MkMatcher (sequence_ m) (threads m) js (kept m) (visited m) (matched_groups m)
    next (next_group m) (now m) (matched m).
Definition set_kept (m : Matcher) (ks : gset Key) : Matcher :=
  MkMatcher (sequence_ m) (threads m) (joins_ m) ks (visited m) (matched_groups m)
    (next_join m) (next_group m) (now m) (matched m).
Definition set_visited (m : Matcher) (ks : gset Key) : Matcher :=
  MkMatcher (sequence_ m) (threads m) (joins_ m) (kept m) ks (matched_groups m)
    (next_join m) (next_group m) (now m) (matched m).
Definition set_groups (m : Matcher) (gs : gset Z) (next : Z) : Matcher :=
  MkMatcher (sequence_ m) (threads m) (joins_ m) (kept m) (visited m) gs
    (next_join m) next (now m) (matched m).
Definition set_now (m : Matcher) (n : Z) : Matcher :=
  MkMatcher (sequence_ m) (threads m) (joins_ m) (kept m) (visited m) (matched_groups m)
    (next_join m) (next_group m) n (matched m).
Definition set_matched (m : Matcher) : Matcher :=
  MkMatcher (sequence_ m) (threads m) (joins_ m) (kept m) (visited m) (matched_groups m)
    (next_join m) (next_group m) (now m) true.

(** The constructor: one thread, due at the start tick. *)
Definition matcher_new (s : CompiledSequence) (start : Z) : Matcher :=
  MkMatcher s
    [MkThread 0 0 false false 0 start (Some start)
       (replicate (Z.to_nat (counter_count s)) 0) [] [] []]
    ∅ ∅ ∅ ∅ 1 1 0 false.

Definition dead (m : Matcher) : bool := bool_decide (threads m = []).

Definition thread_now (p : CompiledPlan) (m : Matcher) (t : Thread) : Z :=
  if multiclocked p then word_at (clock_ticks p) (clock t) else now m.

Definition keep (m : Matcher) (t : Thread) : Outcome Matcher :=
  if decide (key t ∈ kept m) then Ok m
  else if maximum_threads <=? size (threads m)
       then Throw (runtime_error "concurrent property evaluation exceeded its thread limit")
       else Ok (set_threads (set_kept m ({[ key t ]} ∪ kept m)) (threads m ++ [t])).

(** [due_hi < n] and [due_hi > n] with the sentinel. *)
Definition ends_before (hi : option Z) (n : Z) : bool :=
  match hi with None => false | Some h => h <? n end.
Definition ends_after (hi : option Z) (n : Z) : bool :=
  match hi with None => true | Some h => n <? h end.

(** [settle]: whether the operand ends at this tick, and the thread then. *)
Definition settle (m : Matcher) (t : Thread) : Outcome (option Thread * Matcher) :=
  let end_lo := due_lo t - 1 in
  let end_hi := option_map (fun h => h - 1) (due_hi t) in
  if ends_before end_hi (now m) then Ok (None, m)
  else if now m <? end_lo then m ← keep m t; Ok (None, m)
  else
    m ← (if ends_after end_hi (now m)
         then keep m (with_window t (now m + 2) (due_hi t)) else Ok m);
    Ok (Some (with_window t (now m + 1) (Some (now m + 1))), m).

(** What one instruction does with the running thread: it goes on, or it is
    done with ([return] in [run]). *)
Inductive Flow :=
  | Goes (m : Matcher) (t : Thread) (queue : list Thread)
  | Stops (m : Matcher) (queue : list Thread).

Definition counter (t : Thread) (k : Z) : Z := word_at (counters t) k.
Definition set_counter (t : Thread) (k v : Z) : Thread := with_counters t (set_word (counters t) k v).

Definition run_check (p : CompiledPlan) (m : Matcher) (t : Thread) (queue : list Thread)
    (s : Step) : Outcome Flow :=
  if ends_before (due_hi t) (now m) then Ok (Stops m queue)
  else if now m <? due_lo t then m ← keep m t; Ok (Stops m queue)
  else
    m ← (if ends_after (due_hi t) (now m)
         then keep m (with_window t (now m + 1) (due_hi t)) else Ok m);
    if negb (guard p (step_a s)) then Ok (Stops m queue)
    else
      let fresh := List.filter (fun e => from e <? 0) (throughout t) in
      if negb (forallb (fun e => guard p (th_guard e)) fresh) then Ok (Stops m queue)
      else
        let t := with_throughout t
          (map (fun e => if from e <? 0 then MkThroughout (th_guard e) (now m) else e)
             (throughout t)) in
        Ok (Goes m (advance (with_window t (now m + 1) (Some (now m + 1)))) queue).

Definition run_delay (m : Matcher) (t : Thread) (queue : list Thread) (s : Step) : Flow :=
  let lo := due_lo t + number (step_lo s) - 1 in
  let hi := match step_hi s, due_hi t with
            | Some sh, Some dh => Some (dh + sh - 1)
            | _, _ => unbounded
            end in
  Goes m (advance (with_window t lo hi)) queue.

Definition run_branch (m : Matcher) (t : Thread) (queue : list Thread) (s : Step) : Flow :=
  if decide (key t ∈ visited m) then Stops m queue
  else
    let m := set_visited m ({[ key t ]} ∪ visited m) in
    let count := counter t (step_a s) in
    let leave := number (step_lo s) <=? count in
    let repeat := ends_after (step_hi s) count in
    if leave && repeat then Goes m (advance t) (queue ++ [with_pc t (step_b s)])
    else if leave then Goes m (with_pc t (step_b s)) queue
    else if repeat then Goes m (advance t) queue
    else Stops m queue.

Definition run_increment (m : Matcher) (t : Thread) (queue : list Thread) (s : Step) : Flow :=
  let count := counter t (step_a s) + 1 in
  let count := match step_hi s with
               | None => Z.min count (Z.max (number (step_lo s)) 1)
               | Some _ => count
               end in
  Goes m (advance (set_counter t (step_a s) count)) queue.

Definition run_throughout_end (m : Matcher) (t : Thread) (queue : list Thread) : Outcome Flow :=
  '(o, m) ← settle m t;
  match o with
  | None => Ok (Stops m queue)
  | Some t =>
      Ok (Goes m (advance (with_throughout t (take (length (throughout t) - 1) (throughout t)))) queue)
  end.

Definition run_first_match_end (m : Matcher) (t : Thread) (queue : list Thread) : Outcome Flow :=
  '(o, m) ← settle m t;
  match o with
  | None => Ok (Stops m queue)
  | Some t =>
      match last (groups t) with
      | None => Ok (Goes m (advance t) queue)
      | Some g =>
          Ok (Goes (set_groups m ({[ g ]} ∪ matched_groups m) (next_group m))
                (advance (with_groups t (take (length (groups t) - 1) (groups t)))) queue)
      end
  end.

Definition run_join_begin (m : Matcher) (t : Thread) (queue : list Thread) (s : Step) : Flow :=
  let id := next_join m in
  let join := MkJoin (step_a s) (with_pc t (step_c s)) (∅, ∅) in
  let m := set_joins m (match joins_ m !! id with
                        | None => <[id := join]> (joins_ m)
                        | Some _ => joins_ m
                        end) (wrap32 (id + 1)) in
  let right := with_pc (with_joins t (joins t ++ [MkJoinReference id 1])) (step_b s) in
  Goes m (advance (with_joins t (joins t ++ [MkJoinReference id 0]))) (queue ++ [right]).

Definition run_join_end (m : Matcher) (t : Thread) (queue : list Thread) : Outcome Flow :=
  '(o, m) ← settle m t;
  match o ≫= (fun t => last (joins t)) with
  | None => Ok (Stops m queue)
  | Some r =>
      match joins_ m !! ref_join r with
      | None => Ok (Stops m queue)
      | Some j =>
          let (e0, e1) := ends j in
          let j := MkJoin (join_kind j) (continuation j)
                     (if ref_side r =? 0 then ({[ now m ]} ∪ e0, e1) else (e0, {[ now m ]} ∪ e1)) in
          let other := if ref_side r =? 0 then e1 else e0 in
          let m := set_joins m (<[ref_join r := j]> (joins_ m)) (next_join m) in
          let paired := if join_kind j =? 0
                        then existsb (fun e => e <=? now m) (elements other)
                        else bool_decide (now m ∈ other) in
          if paired
          then Ok (Stops m (queue ++ [with_window (continuation j) (now m + 1) (Some (now m + 1))]))
          else Ok (Stops m queue)
      end
  end.

Definition run_match (m : Matcher) (t : Thread) (queue : list Thread) : Outcome Flow :=
  '(o, m) ← settle m t;
  Ok (Stops (match o with Some _ => set_matched m | None => m end) queue).

Definition run_clock (p : CompiledPlan) (m : Matcher) (t : Thread) (queue : list Thread)
    (s : Step) : Outcome Flow :=
  let target := step_a s in
  let inclusive := bool_decide (step_lo s = Some 0) in
  let t := advance t in
  if inclusive && (word_at (clock_times p) target =? time p) then
    let tick := word_at (clock_ticks p) target in
    Ok (Goes (set_now m tick)
          (with_window (with_clock t target (switching t) (switch_inclusive t) (switch_time t))
             tick (Some tick)) queue)
  else
    m ← keep m (with_clock t target true inclusive (time p));
    Ok (Stops m queue).

(** One instruction of [Matcher::run]. *)
Definition run_op (p : CompiledPlan) (m : Matcher) (t : Thread) (queue : list Thread)
    (s : Step) : Outcome Flow :=
  match step_op s with
  | op_check => run_check p m t queue s
  | op_delay => Ok (run_delay m t queue s)
  | op_fork => Ok (Goes m (advance t) (queue ++ [with_pc t (step_a s)]))
  | op_jump => Ok (Goes m (with_pc t (step_a s)) queue)
  | op_counter_set => Ok (Goes m (advance (set_counter t (step_a s) 0)) queue)
  | op_counter_branch => Ok (run_branch m t queue s)
  | op_counter_increment => Ok (run_increment m t queue s)
  | op_throughout_begin =>
      Ok (Goes m (advance (with_throughout t (throughout t ++ [MkThroughout (step_a s) (-1)]))) queue)
  | op_throughout_end => run_throughout_end m t queue
  | op_first_match_begin =>
      Ok (Goes (set_groups m (matched_groups m) (wrap32 (next_group m + 1)))
            (advance (with_groups t (groups t ++ [next_group m]))) queue)
  | op_first_match_end => run_first_match_end m t queue
  | op_join_begin => Ok (run_join_begin m t queue s)
  | op_join_end => run_join_end m t queue
  | op_match => run_match m t queue
  | op_clock => run_clock p m t queue s
  end.

Fixpoint run_loop (fuel : nat) (p : CompiledPlan) (m : Matcher) (t : Thread)
    (queue : list Thread) : Result (Matcher * list Thread) :=
  match fuel with
  | O => Exhausted
  | S fuel =>
      match code (sequence_ m) !! Z.to_nat (pc t) with
      | None => Returns (m, queue)
      | Some s =>
          match run_op p m t queue s with
          | Ok (Goes m t queue) => run_loop fuel p m t queue
          | Ok (Stops m queue) => Returns (m, queue)
          | Throw e => Throws e
          end
      end
  end.

(** [Matcher::run]. *)
Definition run (fuel : nat) (p : CompiledPlan) (m : Matcher) (t : Thread)
    (queue : list Thread) : Result (Matcher * list Thread) :=
  run_loop fuel p (set_now m (thread_now p m t)) t queue.

(** The loop of [step] that empties the queue. *)
Fixpoint drain (fuel : nat) (p : CompiledPlan) (m : Matcher) (queue : list Thread)
    : Result Matcher :=
  match queue with
  | [] => Returns m
  | t :: queue =>
      match fuel with
      | O => Exhausted
      | S fuel => '(m, queue) ← run fuel p m t queue; drain fuel p m queue
      end
  end.

(** ** [collect_joins] *)

Definition side_live (live : gset (Z * Z)) (id side : Z) : bool := bool_decide ((id, side) ∈ live).

(** [mark]: the sides a thread keeps live. *)
Definition references (t : Thread) : gset (Z * Z) :=
  list_to_set (map (fun r => (ref_join r, ref_side r)) (joins t)).

Definition productive (live : gset (Z * Z)) (id : Z) (j : Join) : bool :=
  if negb (join_kind j =? 0) then side_live live id 0 && side_live live id 1
  else (side_live live id 0 || side_live live id 1)
       && (side_live live id 0 || negb (bool_decide ((ends j).1 = ∅)))
       && (side_live live id 1 || negb (bool_decide ((ends j).2 = ∅))).

(** One pass over the joins: a productive join marks its continuation. *)
Definition mark_pass (js : list (Z * Join)) (live : gset (Z * Z)) : gset (Z * Z) :=
  foreach_pure js (fun '(id, j) live =>
    if productive live id j then live ∪ references (continuation j) else live) live.

Fixpoint mark_loop (fuel : nat) (js : list (Z * Join)) (live : gset (Z * Z))
    : Result (gset (Z * Z)) :=
  match fuel with
  | O => Exhausted
  | S fuel =>
      let live' := mark_pass js live in
      if decide (live' = live) then Returns live else mark_loop fuel js live'
  end.

Definition collect_joins (fuel : nat) (m : Matcher) : Result Matcher :=
  if decide (joins_ m = ∅) then Returns m
  else
    let live := foreach_pure (threads m) (fun t live => live ∪ references t) ∅ in
    live ← mark_loop fuel (map_to_list (joins_ m)) live;
    let js := list_to_map (List.filter (fun '(id, j) => productive live id j) (map_to_list (joins_ m)))
                : gmap Z Join in
    let ts := List.filter (fun t => forallb (fun r => bool_decide (is_Some (js !! ref_join r))) (joins t))
                (threads m) in
    Returns (set_threads (set_joins m js (next_join m)) ts).

(** ** [step] *)

(** The first loop of [step]: the threads that run now, and those that wait for
    a tick of their clock. *)
Definition admit_thread (p : CompiledPlan) (m : Matcher) (t : Thread)
    (acc : list Thread * list Thread) : list Thread * list Thread :=
  let '(queue, waiting) := acc in
  let wait :=
    multiclocked p
    && (negb (nth (Z.to_nat (clock t)) (ticked p) false)
        || (switching t
            && ((time p <? switch_time t)
                || ((time p =? switch_time t) && negb (switch_inclusive t))))) in
  if wait then (queue, waiting ++ [t])
  else
    let t := if multiclocked p && switching t
             then let tick := word_at (clock_ticks p) (clock t) in
                  with_window (with_clock t (clock t) false (switch_inclusive t) (switch_time t))
                    tick (Some tick)
             else t in
    let tick := thread_now p m t in
    let holds := forallb (fun e => (from e <? 0) || (tick <? from e) || guard p (th_guard e))
                   (throughout t) in
    if holds then (queue ++ [t], waiting) else (queue, waiting).

Definition begin_step (m : Matcher) (n : Z) : Matcher :=
  MkMatcher (sequence_ m) [] (joins_ m) ∅ ∅ ∅ (next_join m) (next_group m) n false.

(** Threads of a [first_match] that matched are dropped. *)
Definition drop_matched (m : Matcher) : Matcher :=
  set_threads m (List.filter (fun t => negb (existsb (fun g => bool_decide (g ∈ matched_groups m)) (groups t)))
                   (threads m)).

(** [Matcher::step]. *)
Definition matcher_step (fuel : nat) (p : CompiledPlan) (m : Matcher) (n : Z)
    : Result (bool * Matcher) :=
  let ts := threads m in
  let m := begin_step m n in
  let '(queue, waiting) := foreach_pure ts (admit_thread p m) ([], []) in
  m ← of_outcome (foreach waiting (fun t m => keep m t) m);
  m ← drain fuel p m queue;
  let m := drop_matched m in
  m ← collect_joins fuel m;
  Returns (matched m, m).
