(* ===== verification/SvaEngine.v ===== *)
(** * Property instances and the monitor of the assertion engine

    src/runtime/sva_engine.cpp, lines 521-1241, and
    include/fsim/runtime/sva_engine.hpp: the class [Instance], one evaluation of
    a property operator from one start tick, and the class [Monitor], which
    starts an attempt per clock tick and reports outcomes.

    An instance holds its operands as values.  [step], [finish] and
    [empty_trace] recurse over the operator tree of the plan and take the depth
    as fuel. *)
From stdpp Require Import gmap.
From S2P Require Import Prelude SvaPlan SvaMatcher.
From stdpp Require Import options.

Inductive Verdict := pending | holding | failing.

#[global] Instance verdict_eq_dec : EqDecision Verdict.
Proof. solve_decision. Defined.

(** ** [class Instance] *)

#[warnings="-register-all"]
Inductive Instance_ := MkInstance {
  node : Z;
  start : Z;
  verdict : Verdict;
  vacuous_ : bool;
  matched_once : bool;
  matcher : option Matcher;
  antecedent_done : bool;
  satisfied : bool;
  consequents : Z;
  chosen : option Z;
  until_stopped : bool;
  operands : list (Z * Instance_);
  started : list Instance_;
  until_ : list (Instance_ * Instance_);
}.

Definition instance_new (n s : Z) : Instance_ :=
  MkInstance n s pending false false None false false 0 None false [] [] [].

Definition decided (i : Instance_) : bool := negb (bool_decide (verdict i = pending)).
Definition holds (i : Instance_) : bool := bool_decide (verdict i = holding).
Definition vacuous (i : Instance_) : bool := vacuous_ i.

(** Assignments. *)
Definition set_verdict (i : Instance_) (v : Verdict) : Instance_ :=
  MkInstance (node i) (start i) v (vacuous_ i) (matched_once i) (matcher i) (antecedent_done i)
    (satisfied i) (consequents i) (chosen i) (until_stopped i) (operands i) (started i) (until_ i).
Definition set_matcher (i : Instance_) (m : option Matcher) : Instance_ :=
  MkInstance (node i) (start i) (verdict i) (vacuous_ i) (matched_once i) m (antecedent_done i)
    (satisfied i) (consequents i) (chosen i) (until_stopped i) (operands i) (started i) (until_ i).
Definition set_matched_once (i : Instance_) (b : bool) : Instance_ :=
  MkInstance (node i) (start i) (verdict i) (vacuous_ i) b (matcher i) (antecedent_done i)
    (satisfied i) (consequents i) (chosen i) (until_stopped i) (operands i) (started i) (until_ i).
Definition set_antecedent (i : Instance_) (m : option Matcher) (d : bool) (c : Z)
    (st : list Instance_) : Instance_ :=
  MkInstance (node i) (start i) (verdict i) (vacuous_ i) (matched_once i) m d
    (satisfied i) c (chosen i) (until_stopped i) (operands i) st (until_ i).
Definition set_started (i : Instance_) (sat : bool) (st : list Instance_) : Instance_ :=
  MkInstance (node i) (start i) (verdict i) (vacuous_ i) (matched_once i) (matcher i)
    (antecedent_done i) sat (consequents i) (chosen i) (until_stopped i) (operands i) st (until_ i).
Definition set_chosen (i : Instance_) (c : Z) : Instance_ :=
  MkInstance (node i) (start i) (verdict i) (vacuous_ i) (matched_once i) (matcher i)
    (antecedent_done i) (satisfied i) (consequents i) (Some c) (until_stopped i)
    (operands i) (started i) (until_ i).
Definition set_operands (i : Instance_) (os : list (Z * Instance_)) : Instance_ :=
  MkInstance (node i) (start i) (verdict i) (vacuous_ i) (matched_once i) (matcher i)
    (antecedent_done i) (satisfied i) (consequents i) (chosen i) (until_stopped i)
    os (started i) (until_ i).
Definition set_until (i : Instance_) (stopped : bool) (us : list (Instance_ * Instance_)) : Instance_ :=
  MkInstance (node i) (start i) (verdict i) (vacuous_ i) (matched_once i) (matcher i)
    (antecedent_done i) (satisfied i) (consequents i) (chosen i) stopped
    (operands i) (started i) us.

(** [Instance::resolve]. *)
Definition resolve_to (i : Instance_) (h v : bool) : Instance_ :=
  MkInstance (node i) (start i) (if h then holding else failing) (h && v) (matched_once i) None
    (antecedent_done i) (satisfied i) (consequents i) (chosen i) (until_stopped i) [] [] [].

(** The plan's tables; a reference outside them is undefined in the code. *)
Definition vacuous_property : CompiledProperty :=
  MkCompiledProperty k_vacuous false false 0 0 [] None None.
Definition property_at (p : CompiledPlan) (n : Z) : CompiledProperty :=
  default vacuous_property (plan_properties p !! Z.to_nat n).
Definition sequence_at (p : CompiledPlan) (n : Z) : CompiledSequence :=
  default (MkCompiledSequence [] 0) (plan_sequences p !! Z.to_nat n).
Definition child_node (q : CompiledProperty) (k : Z) : Z := word_at (cp_children q) k.

(** [Instance::child] finds operand [k] or creates it. *)
Definition find_operand (i : Instance_) (k : Z) : option Instance_ :=
  snd <$> List.find (fun o => fst o =? k) (operands i).

Definition ensure_child (p : CompiledPlan) (i : Instance_) (k s : Z) : Instance_ :=
  match find_operand i k with
  | Some _ => i
  | None => set_operands i
              (operands i ++ [(k, instance_new (child_node (property_at p (node i)) k) s)])
  end.

Definition put_operand (i : Instance_) (k : Z) (c : Instance_) : Instance_ :=
  set_operands i (map (fun o => if fst o =? k then (k, c) else o) (operands i)).

Definition operand_at (i : Instance_) (k : Z) : Instance_ :=
  default (instance_new 0 0) (find_operand i k).

(** [combine]. *)
Definition combine (k : PropertyKind) (i left right : Instance_) : Instance_ :=
  match k with
  | k_conjunction =>
      if (decided left && negb (holds left)) || (decided right && negb (holds right))
      then resolve_to i false false
      else if decided left && decided right
      then resolve_to i true (vacuous left && vacuous right) else i
  | k_disjunction =>
      if (decided left && holds left) || (decided right && holds right)
      then resolve_to i true (negb (decided left && holds left && negb (vacuous left))
                              && negb (decided right && holds right && negb (vacuous right)))
      else if decided left && decided right then resolve_to i false false else i
  | k_implies =>
      if decided left && negb (holds left) then resolve_to i true true
      else if decided right && holds right then resolve_to i true (vacuous right)
      else if decided left && decided right then resolve_to i false false else i
  | k_equivalence =>
      if decided left && decided right
      then resolve_to i (Bool.eqb (holds left) (holds right)) false else i
  | _ => i
  end.

(** The matcher of the instance, created at its start tick. *)
Definition own_matcher (p : CompiledPlan) (i : Instance_) : Matcher :=
  match matcher i with
  | Some m => m
  | None => matcher_new (sequence_at p (cp_sequence (property_at p (node i)))) (start i)
  end.

Definition step_every_match (fuel : nat) (p : CompiledPlan) (i : Instance_) (n : Z)
    : Result (bool * Instance_) :=
  '(hit, m) ← matcher_step fuel p (own_matcher p i) n;
  let i := set_matched_once (set_matcher i (Some m)) (matched_once i || hit) in
  Returns (hit, if dead m then set_verdict i failing else i).

Section Step.
(** [rec] steps an operand, [fuel] bounds the matchers. *)
Context (fuel : nat) (p : CompiledPlan) (rec : Instance_ -> Z -> Result Instance_).

Definition step_sequence (i : Instance_) (n : Z) : Result Instance_ :=
  '(hit, m) ← matcher_step fuel p (own_matcher p i) n;
  let i := set_matcher i (Some m) in
  Returns (if (hit : bool) then resolve_to i true false
           else if dead m then resolve_to i false false else i).

(** Steps operand [k], creating it with start tick [s] first. *)
Definition step_child (i : Instance_) (k s n : Z) : Result (Instance_ * Instance_) :=
  let i := ensure_child p i k s in
  c ← rec (operand_at i k) n;
  Returns (put_operand i k c, c).

(** An operator that takes the verdict of its one operand. *)
Definition step_through (i : Instance_) (k s n : Z) (negate : bool) : Result Instance_ :=
  '(i, c) ← step_child i k s n;
  Returns (if decided c then resolve_to i (xorb negate (holds c)) (vacuous c) else i).

Definition step_both (kd : PropertyKind) (i : Instance_) (n : Z) : Result Instance_ :=
  let i := ensure_child p (ensure_child p i 0 (start i)) 1 (start i) in
  '(i, l) ← step_child i 0 (start i) n;
  '(i, r) ← step_child i 1 (start i) n;
  Returns (combine kd i l r).

(** Steps instances in order until one is decided and [stop]s the loop. *)
Fixpoint step_each (n : Z) (stop : Instance_ -> bool) (l : list Instance_)
    : Result (list Instance_ * option Instance_) :=
  match l with
  | [] => Returns ([], None)
  | c :: l =>
      c ← rec c n;
      if decided c && stop c then Returns (c :: l, Some c)
      else '(l, o) ← step_each n stop l; Returns (c :: l, o)
  end.

(** The first part of [step_consequents]: the antecedent. *)
Definition step_antecedent (q : CompiledProperty) (i : Instance_) (n : Z) : Result Instance_ :=
  if (match matcher i with None => antecedent_done i | Some _ => false end)
  then Returns i
  else
    '(hit, m) ← matcher_step fuel p (own_matcher p i) n;
    let st := if (hit : bool)
              then started i ++ [instance_new (child_node q 0)
                                   (if cp_overlapped q then n else n + 1)]
              else started i in
    let c := if (hit : bool) then consequents i + 1 else consequents i in
    Returns (if dead m then set_antecedent i None true c st
             else set_antecedent i (Some m) (antecedent_done i) c st).

Definition step_consequents (q : CompiledProperty) (i : Instance_) (n : Z) : Result Instance_ :=
  i ← step_antecedent q i n;
  let implication := bool_decide (cp_kind q = k_implication) in
  '(st, o) ← step_each n (fun c => if implication then negb (holds c) else holds c) (started i);
  Returns
    match o with
    | Some c => if implication then resolve_to i false false else resolve_to i true (vacuous c)
    | None =>
        let sat := satisfied i || existsb (fun c => decided c && negb (vacuous c)) st in
        let st := List.filter (fun c => negb (decided c)) st in
        let i := set_started i sat st in
        if antecedent_done i && bool_decide (st = [])
        then if implication
             then resolve_to i true ((consequents i =? 0) || negb sat)
             else resolve_to i false false
        else i
    end.

Definition step_window (q : CompiledProperty) (i : Instance_) (n : Z) : Result Instance_ :=
  let first := number (add (start i) (cp_lo q)) in
  let last := add (start i) (cp_hi q) in
  let always := bool_decide (cp_kind q = k_always) in
  let st := if (first <=? n) && negb (ends_before last n)
            then started i ++ [instance_new (child_node q 0) n] else started i in
  '(st, o) ← step_each n (fun c => if always then negb (holds c) else holds c) st;
  Returns
    match o with
    | Some c => if always then resolve_to i false false else resolve_to i true (vacuous c)
    | None =>
        let st := List.filter (fun c => negb (decided c)) st in
        let i := set_started i (satisfied i) st in
        if match last with Some l => (l <=? n) && bool_decide (st = []) | None => false end
        then resolve_to i always false else i
    end.

(** The first loop of [step_until]. *)
Fixpoint step_pairs (n : Z) (l : list (Instance_ * Instance_))
    : Result (list (Instance_ * Instance_)) :=
  match l with
  | [] => Returns []
  | (a, b) :: l =>
      a ← rec a n; b ← rec b n; l ← step_pairs n l; Returns ((a, b) :: l)
  end.

(** The second loop: what it decides, and whether it stops the operator from
    starting further operands. *)
Inductive UntilScan :=
  | Decides (h : bool)      (** [resolve(h, false)] and return *)
  | Leaves                  (** return without a verdict *)
  | Finishes.               (** the loop ran to its end *)

Fixpoint until_scan (l : list (Instance_ * Instance_)) (earlier right_pending stopped : bool)
    : UntilScan * bool :=
  match l with
  | [] => (Finishes, stopped)
  | (a, b) :: l =>
      let right_holds := decided b && holds b in
      let stopped := stopped || right_holds in
      if right_holds && earlier then (Decides true, stopped)
      else
        let right_pending := right_pending || negb (decided b) in
        if decided a && negb (holds a) then
          (if right_pending then Leaves else Decides false, true)
        else until_scan l (earlier && decided a) right_pending stopped
  end.

(** The last loop: leading entries that decide nothing further. *)
Fixpoint drop_settled (l : list (Instance_ * Instance_)) : list (Instance_ * Instance_) :=
  match l with
  | (a, b) :: l' =>
      if decided a && holds a && decided b && negb (holds b) then drop_settled l' else l
  | [] => []
  end.

Definition step_until (i : Instance_) (n : Z) : Result Instance_ :=
  let q := property_at p (node i) in
  let us := if until_stopped i then until_ i
            else until_ i ++ [(instance_new (child_node q 0) n, instance_new (child_node q 1) n)] in
  us ← step_pairs n us;
  let '(scan, stopped) := until_scan us true false (until_stopped i) in
  Returns
    match scan with
    | Decides h => resolve_to (set_until i stopped us) h false
    | Leaves => set_until i stopped us
    | Finishes => set_until i stopped (drop_settled us)
    end.

Definition step_conditional (q : CompiledProperty) (i : Instance_) (n : Z) : Result Instance_ :=
  let pick := match chosen i with
              | Some c => Some c
              | None =>
                  let branch := if guard p (cp_guard q) then 0 else 1 in
                  if size (cp_children q) <=? branch then None else Some branch
              end in
  match pick with
  | None => Returns (resolve_to i true true)
  | Some c => step_through (set_chosen i c) c (start i) n false
  end.

Definition step_abort (q : CompiledProperty) (i : Instance_) (n : Z) : Result Instance_ :=
  if guard p (cp_guard q)
  then let accept := bool_decide (cp_kind q = k_accept) in Returns (resolve_to i accept accept)
  else step_through i 0 (start i) n false.

(** The body of [Instance::step]. *)
Definition step_body (i : Instance_) (n : Z) : Result Instance_ :=
  if decided i || (n <? start i) then Returns i
  else
    let q := property_at p (node i) in
    match cp_kind q with
    | k_sequence => step_sequence i n
    | k_negation => step_through i 0 (start i) n true
    | k_conjunction | k_disjunction | k_implies | k_equivalence => step_both (cp_kind q) i n
    | k_implication | k_followed_by => step_consequents q i n
    | k_conditional => step_conditional q i n
    | k_nexttime => step_through i 0 (number (add (start i) (cp_lo q))) n false
    | k_always | k_eventually => step_window q i n
    | k_until => step_until i n
    | k_accept | k_reject => step_abort q i n
    | k_vacuous => Returns (resolve_to i true true)
    end.
End Step.

(** [Instance::step]: [depth] bounds the nesting of operators. *)
Fixpoint instance_step (depth fuel : nat) (p : CompiledPlan) (i : Instance_) (n : Z)
    : Result Instance_ :=
  match depth with
  | O => Exhausted
  | S depth => step_body fuel p (instance_step depth fuel p) i n
  end.

(** ** The end of simulation *)

(** [Instance::empty_trace]; [None] when [depth] is too small. *)
Fixpoint empty_trace (depth : nat) (p : CompiledPlan) (n : Z) : option bool :=
  match depth with
  | O => None
  | S depth =>
      let q := property_at p n in
      let operand k := match cp_children q !! Z.to_nat k with
                       | None => Some false
                       | Some c => empty_trace depth p c
                       end in
      match cp_kind q with
      | k_sequence | k_nexttime | k_always | k_eventually | k_until => Some (negb (cp_strong q))
      | k_negation => a ← operand 0; Some (negb a)
      | k_conjunction => a ← operand 0; b ← operand 1; Some (a && b)
      | k_disjunction => a ← operand 0; b ← operand 1; Some (a || b)
      | k_implies => a ← operand 0; b ← operand 1; Some (negb a || b)
      | k_equivalence => a ← operand 0; b ← operand 1; Some (Bool.eqb a b)
      | k_implication | k_conditional | k_vacuous => Some true
      | k_followed_by => Some false
      | k_accept | k_reject => operand 0
      end
  end.

(** The loop of [finish] over the operands of [until]. *)
Fixpoint until_finish (fin : Instance_ -> option bool) (strong_ : bool)
    (l : list (Instance_ * Instance_)) (earlier : bool) : option bool :=
  match l with
  | [] => Some (negb strong_)
  | (a, b) :: l =>
      right ← fin b;
      if earlier && right then Some true
      else left ← fin a;
           if (left : bool) then until_finish fin strong_ l earlier else Some false
  end.

Fixpoint finish_all (fin : Instance_ -> option bool) (l : list Instance_) : option bool :=
  match l with [] => Some true | c :: l => a ← fin c; b ← finish_all fin l; Some (a && b) end.
Fixpoint finish_any (fin : Instance_ -> option bool) (l : list Instance_) : option bool :=
  match l with [] => Some false | c :: l => a ← fin c; b ← finish_any fin l; Some (a || b) end.

(** [Instance::finish]. *)
Fixpoint instance_finish (depth : nat) (p : CompiledPlan) (i : Instance_) (n : Z) : option bool :=
  match depth with
  | O => None
  | S depth =>
      if decided i then Some (holds i)
      else if n <? start i then empty_trace depth p (node i)
      else
        let q := property_at p (node i) in
        let fin c := instance_finish depth p c n in
        let child k := match find_operand i k with
                       | None => empty_trace depth p (child_node q k)
                       | Some c => fin c
                       end in
        let complete := match cp_hi q with
                        | None => false
                        | Some _ => negb (ends_after (add (start i) (cp_hi q)) n)
                        end in
        match cp_kind q with
        | k_sequence => Some (negb (cp_strong q))
        | k_negation => a ← child 0; Some (negb a)
        | k_conjunction => a ← child 0; b ← child 1; Some (a && b)
        | k_disjunction => a ← child 0; b ← child 1; Some (a || b)
        | k_implies => a ← child 0; b ← child 1; Some (negb a || b)
        | k_equivalence => a ← child 0; b ← child 1; Some (Bool.eqb a b)
        | k_implication => finish_all fin (started i)
        | k_followed_by => finish_any fin (started i)
        | k_conditional => match chosen i with None => Some true | Some c => child c end
        | k_nexttime =>
            if ends_after (add (start i) (cp_lo q)) n then Some (negb (cp_strong q)) else child 0
        | k_always => a ← finish_all fin (started i); Some (a && (complete || negb (cp_strong q)))
        | k_eventually => a ← finish_any fin (started i); Some (a || (negb complete && negb (cp_strong q)))
        | k_until => until_finish fin (cp_strong q) (until_ i) true
        | k_accept | k_reject => child 0
        | k_vacuous => Some true
        end
  end.

(** ** [class Monitor] *)

(** [enum class Outcome]. *)
Inductive SvaOutcome := no_outcome | success | failure | vacuous_success | disabled_outcome.

#[global] Instance sva_outcome_eq_dec : EqDecision SvaOutcome.
Proof. solve_decision. Defined.

(** [Running] and [Resolved]. *)
Record Running := MkRunning { run_instance : Instance_; run_started : Z }.
Record Resolved := MkResolved { res_outcome : SvaOutcome; res_started : Z }.

Record Monitor := MkMonitor {
  plan_ : CompiledPlan;
  attempts : list Running;
  outcomes : list Resolved;
  mon_started : list Z;
  last_start : Z;
  tick_ : Z;
}.

Definition compile_instruction (bs : list Z) (i : Instruction) : Outcome Step :=
  lo ← resolve (ins_lo i) bs;
  hi ← resolve (ins_hi i) bs;
  Ok (MkStep (ins_op i) (ins_a i) (ins_b i) (ins_c i) lo hi).

Fixpoint collect {A B} (f : A -> Outcome B) (l : list A) : Outcome (list B) :=
  match l with [] => Ok [] | a :: l => b ← f a; l ← collect f l; Ok (b :: l) end.

Definition compile_sequence (bs : list Z) (s : Sequence) : Outcome CompiledSequence :=
  c ← collect (compile_instruction bs) (seq_code s);
  Ok (MkCompiledSequence c (seq_counters s)).

Definition compile_property (bs : list Z) (q : Property_) : Outcome CompiledProperty :=
  lo ← resolve (prop_lo q) bs;
  hi ← resolve (prop_hi q) bs;
  Ok (MkCompiledProperty (kind q) (strong q) (overlapped q) (prop_sequence q) (prop_guard q)
        (children q) lo hi).

(** [Monitor::Monitor]. *)
Definition monitor_new (plan : Plan) (bs : list Z) : Outcome Monitor :=
  match properties plan !! Z.to_nat (root plan) with
  | None => Throw (runtime_error "concurrent property plan has no root")
  | Some q =>
      ss ← collect (compile_sequence bs) (sequences plan);
      ps ← collect (compile_property bs) (properties plan);
      let is_sequence := bool_decide (kind q = k_sequence) in
      let many := 1 <? size (clock_guards plan) in
      if many && negb is_sequence
      then Throw (runtime_error "a multiclocked concurrent property must be a sequence")
      else
        let clocks := if many then clock_guards plan else [] in
        Ok (MkMonitor
              (MkCompiledPlan ss ps (root plan) (guards plan)
                 (every_match plan && is_sequence) [] 0 clocks
                 (replicate (length clocks) (-1)) (replicate (length clocks) I64_MIN)
                 (replicate (length clocks) false) 0)
              [] [] [] 0 (-1))
  end.

(** The clocks of a multiclocked plan at one evaluation. *)
Definition tick_clock (p : CompiledPlan) (at_time : Z) (k : Z)
    (acc : list Z * list Z * list bool * bool) : list Z * list Z * list bool * bool :=
  let '(ticks, times, marks, any) := acc in
  let hit := guard p (word_at (plan_clock_guards p) k) && negb (word_at times k =? at_time) in
  let marks := <[Z.to_nat k := hit]> marks in
  if hit then (set_word ticks k (word_at ticks k + 1), set_word times k at_time, marks, true)
  else (ticks, times, marks, any).

Definition set_values (p : CompiledPlan) (gs : list bool) : CompiledPlan :=
  MkCompiledPlan (plan_sequences p) (plan_properties p) (plan_root p) (plan_guards p)
    (plan_every_match p) gs (plan_now p) (plan_clock_guards p) (clock_ticks p) (clock_times p)
    (ticked p) (time p).

Definition set_plan_now (p : CompiledPlan) (n : Z) : CompiledPlan :=
  MkCompiledPlan (plan_sequences p) (plan_properties p) (plan_root p) (plan_guards p)
    (plan_every_match p) (values p) n (plan_clock_guards p) (clock_ticks p) (clock_times p)
    (ticked p) (time p).

Definition set_clocks (p : CompiledPlan) (ticks times : list Z) (marks : list bool) (t : Z)
    : CompiledPlan :=
  MkCompiledPlan (plan_sequences p) (plan_properties p) (plan_root p) (plan_guards p)
    (plan_every_match p) (values p) (plan_now p) (plan_clock_guards p) ticks times marks t.

Definition with_plan (m : Monitor) (p : CompiledPlan) (tick : Z) : Monitor :=
  MkMonitor p (attempts m) (outcomes m) (mon_started m) (last_start m) tick.

(** The first part of [tick]: the plan's clocks, the tick, whether the leading
    clock ticked, and whether there is anything to evaluate. *)
Definition advance_clocks (m : Monitor) (gs : list bool) (disabled : bool) (at_time : Z)
    : Monitor * bool * bool :=
  let p := set_values (plan_ m) gs in
  if multiclocked p then
    let '(ticks, times, marks, any) :=
      foreach_pure (up 0 (size (plan_clock_guards p))) (tick_clock p at_time)
        (clock_ticks p, clock_times p, ticked p, false) in
    let p := set_clocks p ticks times marks at_time in
    let leading := nth 0 marks false in
    if negb any && negb disabled then (with_plan m p (tick_ m), leading, false)
    else
      let tick := word_at ticks 0 in
      (with_plan m (set_plan_now p tick) tick, leading, true)
  else
    let tick := tick_ m + 1 in
    (with_plan m (set_plan_now p tick) tick, true, true).

(** One running attempt of [tick]: whether it goes on, and what it reports. *)
Definition step_attempt (depth fuel : nat) (p : CompiledPlan) (n : Z) (r : Running)
    : Result (option Running * list Resolved) :=
  if plan_every_match p then
    '(hit, i) ← step_every_match fuel p (run_instance r) n;
    let out1 := if (hit : bool) then [MkResolved success (run_started r)] else [] in
    let out2 := if decided i && negb (matched_once i)
                then [MkResolved failure (run_started r)] else [] in
    Returns (if decided i then None else Some (MkRunning i (run_started r)), out1 ++ out2)
  else
    i ← instance_step depth fuel p (run_instance r) n;
    let out := if decided i
               then [MkResolved (if negb (holds i) then failure
                                 else if vacuous i then vacuous_success else success)
                       (run_started r)]
               else [] in
    Returns (if decided i then None else Some (MkRunning i (run_started r)), out).

Fixpoint step_attempts (depth fuel : nat) (p : CompiledPlan) (n : Z) (l : list Running)
    : Result (list Running * list Resolved) :=
  match l with
  | [] => Returns ([], [])
  | r :: l =>
      '(o, out) ← step_attempt depth fuel p n r;
      '(l, outs) ← step_attempts depth fuel p n l;
      Returns (match o with Some r => r :: l | None => l end, out ++ outs)
  end.

(** [Monitor::tick]. *)
Definition tick (depth fuel : nat) (m : Monitor) (gs : list bool) (start_ disabled : bool)
    (at_time : Z) : Result Monitor :=
  let '(m, leading, evaluate) := advance_clocks m gs disabled at_time in
  if negb evaluate then Returns m
  else
    let st := if start_ && leading then mon_started m ++ [at_time] else mon_started m in
    if disabled then
      let outs := if start_ || negb (bool_decide (attempts m = []))
                  then outcomes m ++
                       [MkResolved disabled_outcome
                          (match attempts m with [] => at_time | r :: _ => run_started r end)]
                  else outcomes m in
      Returns (MkMonitor (plan_ m) [] outs st (last_start m) (tick_ m))
    else
      let running := if start_ && leading
                     then attempts m ++ [MkRunning (instance_new (plan_root (plan_ m)) (tick_ m)) at_time]
                     else attempts m in
      '(l, outs) ← step_attempts depth fuel (plan_ m) (tick_ m) running;
      Returns (MkMonitor (plan_ m) l (outcomes m ++ outs) st (last_start m) (tick_ m)).

Definition pending_outcomes (m : Monitor) : Z := size (outcomes m).

Definition next_outcome (m : Monitor) : SvaOutcome * Monitor :=
  match outcomes m with
  | [] => (no_outcome, m)
  | r :: l => (res_outcome r, MkMonitor (plan_ m) (attempts m) l (mon_started m) (res_started r) (tick_ m))
  end.

Definition last_outcome_start (m : Monitor) : Z := last_start m.

Definition take_started (m : Monitor) : list Z * Monitor :=
  (mon_started m, MkMonitor (plan_ m) (attempts m) (outcomes m) [] (last_start m) (tick_ m)).

(** [Monitor::Finished]. *)
Record Finished := MkFinished { fin_failures : Z; fin_holds : Z }.

(** [Monitor::finish]; [None] when [depth] is too small. *)
Fixpoint finish_attempts (depth : nat) (p : CompiledPlan) (n : Z) (l : list Running)
    (r : Finished) : option Finished :=
  match l with
  | [] => Some r
  | a :: l =>
      h ← instance_finish depth p (run_instance a) n;
      finish_attempts depth p n l
        (if (h : bool) then MkFinished (fin_failures r) (fin_holds r + 1)
         else MkFinished (fin_failures r + 1) (fin_holds r))
  end.

Definition with_attempts (m : Monitor) (l : list Running) : Monitor :=
  MkMonitor (plan_ m) l (outcomes m) (mon_started m) (last_start m) (tick_ m).

Definition finish (depth : nat) (m : Monitor) : option (Finished * Monitor) :=
  r ← (if plan_every_match (plan_ m) then Some (MkFinished 0 0)
       else finish_attempts depth (plan_ m) (tick_ m) (attempts m) (MkFinished 0 0));
  Some (r, with_attempts m []).

Definition kill (m : Monitor) : Monitor :=
  MkMonitor (plan_ m) [] [] (mon_started m) (last_start m) (tick_ m).

Definition kill_attempt (m : Monitor) (start_time : Z) : Z * Monitor :=
  let l := List.filter (fun r => negb (run_started r =? start_time)) (attempts m) in
  (size (attempts m) - size l, with_attempts m l).

Definition running_attempts (m : Monitor) : Z := size (attempts m).
