(* ===== verification/SvaCompile.v ===== *)
(** * Compiling properties into plans

    src/frontend/verilog_parser_sva.cpp, lines 30-131 and 1247-1638: the property
    tree and the class [PlanCompiler], which turns it into a plan and the list of
    expressions (guards and bounds) the assertion's process evaluates.

    A token is its text.  The code keeps nodes in one vector and refers to them
    by index; here a node holds its operands. *)
From stdpp Require Import gmap.
From S2P Require Import Prelude SvaPlan.
From stdpp Require Import options.

Definition Tokens := list string.

(** [spelling]. *)
Definition spelling (tokens : Tokens) : string :=
  foreach_pure tokens (fun t result =>
    String.append (if decide (result = EmptyString) then result
                   else String.append result " ") t) EmptyString.

(** [BoundSpec]. *)
Inductive BoundSpec :=
  | b_literal (v : Z)
  | b_expression (tokens : Tokens)
  | b_unbounded.

(** [NodeKind] and [Node], each kind with the members it uses. *)
Inductive Node :=
  | n_boolean (expression : Tokens)
  | n_delay (lo hi : BoundSpec) (left right : Node)
  | n_leading_delay (lo hi : BoundSpec) (right : Node)
  | n_repeat (lo hi : BoundSpec) (operand : Node)
  | n_goto_repeat (lo hi : BoundSpec) (operand : Node)
  | n_nonconsecutive_repeat (lo hi : BoundSpec) (operand : Node)
  | n_sequence_or (left right : Node)
  | n_sequence_and (left right : Node)
  | n_intersect (left right : Node)
  | n_within (left right : Node)
  | n_throughout (expression : Tokens) (operand : Node)
  | n_first_match (operand : Node)
  | n_clocked (clock : Z) (operand : Node)
  | n_strong (operand : Node)
  | n_weak (operand : Node)
  | n_negation (operand : Node)
  | n_conjunction (left right : Node)
  | n_disjunction (left right : Node)
  | n_equivalence (left right : Node)
  | n_implies (left right : Node)
  | n_implication (overlapped : bool) (antecedent consequent : Node)
  | n_followed_by (overlapped : bool) (antecedent consequent : Node)
  | n_if (expression : Tokens) (left : Node)
  | n_if_else (expression : Tokens) (left right : Node)
  | n_nexttime (strong : bool) (lo : BoundSpec) (operand : Node)
  | n_always (strong : bool) (lo hi : BoundSpec) (operand : Node)
  | n_eventually (strong : bool) (lo hi : BoundSpec) (operand : Node)
  | n_until (strong with_ : bool) (left right : Node)
  | n_accept (synchronous : bool) (expression : Tokens) (operand : Node)
  | n_reject (synchronous : bool) (expression : Tokens) (operand : Node).

Definition sequence_kind (n : Node) : bool :=
  match n with
  | n_boolean _ | n_delay _ _ _ _ | n_leading_delay _ _ _ | n_repeat _ _ _
  | n_goto_repeat _ _ _ | n_nonconsecutive_repeat _ _ _ | n_sequence_or _ _
  | n_sequence_and _ _ | n_intersect _ _ | n_within _ _ | n_throughout _ _
  | n_first_match _ | n_clocked _ _ => true
  | _ => false
  end.

(** The member [expression] of a node. *)
Definition expression (n : Node) : Tokens :=
  match n with
  | n_boolean e | n_throughout e _ | n_if e _ | n_if_else e _ _ | n_accept _ e _ | n_reject _ e _ => e
  | _ => []
  end.

(** ** [class PlanCompiler] *)

Record Compiler := MkCompiler {
  truth : Tokens;
  c_sequences : list Sequence;
  c_properties : list Property_;
  c_guards : list Tokens;
  c_bounds : list Tokens;
  guard_index : gmap string Z;
  bound_index : gmap string Z;
  clock_ : Z;
  nested : Z;
  failure_ : string;
}.

Definition compiler_new (truth_ : Tokens) : Compiler :=
  MkCompiler truth_ [] [] [] [] ∅ ∅ 0 0 EmptyString.

(** The compiler and the sequence being emitted. *)
Definition Emitter := (Compiler * Sequence)%type.

(** [guard], [negated_guard]. *)
Definition compile_guard (tokens : Tokens) (c : Compiler) : Z * Compiler :=
  let text := spelling tokens in
  match guard_index c !! text with
  | Some k => (k, c)
  | None =>
      let k := size (c_guards c) in
      (k, MkCompiler (truth c) (c_sequences c) (c_properties c) (c_guards c ++ [tokens]) (c_bounds c)
            (<[text := k]> (guard_index c)) (bound_index c) (clock_ c) (nested c) (failure_ c))
  end.

Definition negated (tokens : Tokens) : Tokens := ["!"; "("]%string ++ tokens ++ [")"]%string.

Definition negated_guard (tokens : Tokens) (c : Compiler) : Z * Compiler :=
  compile_guard (negated tokens) c.

(** [bound]. *)
Definition compile_bound (spec : BoundSpec) (off : Z) (c : Compiler) : Bound * Compiler :=
  match spec with
  | b_literal v => (MkBound literal v off, c)
  | b_unbounded => (MkBound unbounded_mode 0 off, c)
  | b_expression tokens =>
      let text := spelling tokens in
      match bound_index c !! text with
      | Some k => (MkBound slot k off, c)
      | None =>
          let k := size (c_bounds c) in
          (MkBound slot k off,
           MkCompiler (truth c) (c_sequences c) (c_properties c) (c_guards c)
             (c_bounds c ++ [tokens]) (guard_index c) (<[text := k]> (bound_index c))
             (clock_ c) (nested c) (failure_ c))
      end
  end.

Definition zero_bound : Bound := MkBound literal 0 0.
Definition forever_bound : Bound := MkBound unbounded_mode 0 0.

Definition instruction (o : Op) (a b c : Z) : Instruction :=
  MkInstruction o a b c zero_bound zero_bound.
Definition ranged (o : Op) (a : Z) (lo hi : Bound) : Instruction := MkInstruction o a 0 0 lo hi.

(** [code.push_back], [here], and writing a target into an earlier instruction. *)
Definition push (i : Instruction) (e : Emitter) : Emitter :=
  (e.1, MkSequence (seq_code e.2 ++ [i]) (seq_counters e.2)).
Definition here (e : Emitter) : Z := size (seq_code e.2).
Definition edit (k : Z) (f : Instruction -> Instruction) (e : Emitter) : Emitter :=
  (e.1, MkSequence (alter f (Z.to_nat k) (seq_code e.2)) (seq_counters e.2)).
Definition set_a (v : Z) (i : Instruction) : Instruction :=
  MkInstruction (ins_op i) v (ins_b i) (ins_c i) (ins_lo i) (ins_hi i).
Definition set_b (v : Z) (i : Instruction) : Instruction :=
  MkInstruction (ins_op i) (ins_a i) v (ins_c i) (ins_lo i) (ins_hi i).
Definition set_c (v : Z) (i : Instruction) : Instruction :=
  MkInstruction (ins_op i) (ins_a i) (ins_b i) v (ins_lo i) (ins_hi i).

Definition set_clock_nested (k n : Z) (c : Compiler) : Compiler :=
  MkCompiler (truth c) (c_sequences c) (c_properties c) (c_guards c) (c_bounds c)
    (guard_index c) (bound_index c) k n (failure_ c).

Definition fail_ (reason : string) (c : Compiler) : Compiler :=
  if decide (failure_ c = EmptyString)
  then MkCompiler (truth c) (c_sequences c) (c_properties c) (c_guards c) (c_bounds c)
         (guard_index c) (bound_index c) (clock_ c) (nested c) reason
  else c.

(** Emitting a guard check, and a bound. *)
Definition push_guard (o : Op) (tokens : Tokens) (e : Emitter) : Emitter :=
  let '(k, c) := compile_guard tokens e.1 in push (instruction o k 0 0) (c, e.2).

Definition push_check (k : Z) (e : Emitter) : Emitter := push (instruction op_check k 0 0) e.

(** [repeat]. *)
Definition emit_repeat (lo hi : Bound) (body : Emitter -> Emitter) (e : Emitter) : Emitter :=
  let counter := seq_counters e.2 in
  let e := (e.1, MkSequence (seq_code e.2) (counter + 1)) in
  let e := push (instruction op_counter_set counter 0 0) e in
  let head := here e in
  let e := push (ranged op_counter_branch counter lo hi) e in
  let e := body e in
  let e := push (ranged op_counter_increment counter lo hi) e in
  let e := push (instruction op_jump head 0 0) e in
  edit head (set_b (here e)) e.

(** The bounds of a node.  The code passes them as two arguments of one call,
    whose order of evaluation C++ leaves open; it only decides the numbering of
    new slots. *)
Definition with_bounds (lo hi : BoundSpec) (off : Z) (k : Bound -> Bound -> Emitter -> Emitter)
    (e : Emitter) : Emitter :=
  let '(l, c) := compile_bound lo off e.1 in
  let '(h, c) := compile_bound hi off c in
  k l h (c, e.2).

(** b[->n] and b[=n]. *)
Definition emit_goto (lo hi : BoundSpec) (condition : Tokens) (tail : bool) (e : Emitter) : Emitter :=
  let '(hit, c) := compile_guard condition e.1 in
  let '(miss, c) := negated_guard condition c in
  let skip := emit_repeat zero_bound forever_bound (push_check miss) in
  let e := with_bounds lo hi 0 (fun l h =>
             emit_repeat l h (fun e => push_check hit (skip e))) (c, e.2) in
  if tail then skip e else e.

(** The region of [Nested]: operators other than concatenation. *)
Definition in_region (f : Emitter -> Emitter) (e : Emitter) : Emitter :=
  let e := f (set_clock_nested (clock_ e.1) (nested e.1 + 1) e.1, e.2) in
  (set_clock_nested (clock_ e.1) (nested e.1 - 1) e.1, e.2).

(** [and], [intersect] and [within]: both operands between a begin and ends. *)
Definition emit_join (kind_ : Z) (left right : Emitter -> Emitter) (e : Emitter) : Emitter :=
  let begin := here e in
  let e := push (instruction op_join_begin kind_ 0 0) e in
  let e := push (instruction op_join_end 0 0 0) (left e) in
  let e := edit begin (set_b (here e)) e in
  let e := push (instruction op_join_end 1 0 0) (right e) in
  edit begin (set_c (here e)) e.

(** A clock change after an operand (16.13.1): allowed for [##0] and [##1]
    outside other operators. *)
Definition clock_change_ok (lo hi : BoundSpec) (c : Compiler) : bool :=
  (nested c =? 0)
  && match lo, hi with
     | b_literal l, b_literal h => (l =? h) && (0 <=? l) && (l <=? 1)
     | _, _ => false
     end.

(** [BoundSpec::value], 0 unless the bound is a literal. *)
Definition spec_value (b : BoundSpec) : Z := match b with b_literal v => v | _ => 0 end.

(** [emit]. *)
Fixpoint emit (n : Node) (e : Emitter) : Emitter :=
  let after_left lo hi off r e :=
    match r with
    | n_clocked k operand =>
        if k =? clock_ e.1 then
          emit r (with_bounds lo hi off (fun bl bh => push (ranged op_delay 0 bl bh)) e)
        else
          let c := if clock_change_ok lo hi e.1 then e.1
                   else fail_ "a clock change other than ##0 or ##1 between singly clocked sequences" e.1 in
          let at_ := MkBound literal (spec_value lo) 0 in
          let e := push (ranged op_clock k at_ at_) (c, e.2) in
          emit operand (set_clock_nested k (nested e.1) e.1, e.2)
    | _ => emit r (with_bounds lo hi off (fun bl bh => push (ranged op_delay 0 bl bh)) e)
    end in
  match n with
  | n_boolean t => push_guard op_check t e
  | n_clocked k operand =>
      let c := if k =? clock_ e.1 then e.1
               else fail_ "a clocking event that does not follow ##0 or ##1" e.1 in
      emit operand (c, e.2)
  | n_delay lo hi l r => after_left lo hi 0 r (emit l e)
  | n_leading_delay lo hi r => after_left lo hi 1 r e
  | n_repeat lo hi operand =>
      in_region (with_bounds lo hi 0 (fun bl bh => emit_repeat bl bh (emit operand))) e
  | n_goto_repeat lo hi operand => in_region (emit_goto lo hi (expression operand) false) e
  | n_nonconsecutive_repeat lo hi operand => in_region (emit_goto lo hi (expression operand) true) e
  | n_sequence_or l r =>
      in_region (fun e =>
        let fork := here e in
        let e := emit l (push (instruction op_fork 0 0 0) e) in
        let jump := here e in
        let e := push (instruction op_jump 0 0 0) e in
        let e := edit fork (set_a (here e)) e in
        let e := emit r e in
        edit jump (set_a (here e)) e) e
  | n_sequence_and l r => in_region (emit_join 0 (emit l) (emit r)) e
  | n_intersect l r => in_region (emit_join 1 (emit l) (emit r)) e
  | n_within l r =>
      in_region (fun e =>
        let begin := here e in
        let e := push (instruction op_join_begin 1 0 0) e in
        let '(k, c) := compile_guard (truth e.1) e.1 in
        let pad := emit_repeat zero_bound forever_bound (push_check k) in
        let e := pad (emit l (pad (c, e.2))) in
        let e := push (instruction op_join_end 0 0 0) e in
        let e := edit begin (set_b (here e)) e in
        let e := push (instruction op_join_end 1 0 0) (emit r e) in
        edit begin (set_c (here e)) e) e
  | n_throughout t operand =>
      in_region (fun e =>
        push (instruction op_throughout_end 0 0 0) (emit operand (push_guard op_throughout_begin t e))) e
  | n_first_match operand =>
      in_region (fun e =>
        push (instruction op_first_match_end 0 0 0)
          (emit operand (push (instruction op_first_match_begin 0 0 0) e))) e
  | _ => e
  end.

Definition add_sequence (s : Sequence) (c : Compiler) : Z * Compiler :=
  (size (c_sequences c),
   MkCompiler (truth c) (c_sequences c ++ [s]) (c_properties c) (c_guards c) (c_bounds c)
     (guard_index c) (bound_index c) (clock_ c) (nested c) (failure_ c)).

(** [sequence]. *)
Definition compile_sequence_node (n : Node) (c : Compiler) : Z * Compiler :=
  let e := emit n (set_clock_nested 0 (nested c) c, MkSequence [] 0) in
  let e := push (instruction op_match 0 0 0) e in
  add_sequence e.2 e.1.

(** [add]. *)
Definition add_property (p : Property_) (c : Compiler) : Z * Compiler :=
  (size (c_properties c),
   MkCompiler (truth c) (c_sequences c) (c_properties c ++ [p]) (c_guards c) (c_bounds c)
     (guard_index c) (bound_index c) (clock_ c) (nested c) (failure_ c)).

(** A property with its defaults. *)
Definition make_property (k : PropertyKind) (st ov sy : bool) (s g : Z) (cs : list Z)
    (lo hi : Bound) : Property_ := MkProperty k st ov sy s g cs lo hi.

Definition sequence_property (st : bool) (n : Node) (c : Compiler) : Z * Compiler :=
  let '(s, c) := compile_sequence_node n c in
  add_property (make_property k_sequence st false false s 0 [] zero_bound zero_bound) c.

(** [property]. *)
Fixpoint compile_property_node (n : Node) (c : Compiler) : Z * Compiler :=
  let simple k st cs c := add_property (make_property k st false false 0 0 cs zero_bound zero_bound) c in
  let both k l r c :=
    let '(a, c) := compile_property_node l c in
    let '(b, c) := compile_property_node r c in
    simple k false [a; b] c in
  let after k ov s r c :=
    let '(q, c) := compile_sequence_node s c in
    let '(b, c) := compile_property_node r c in
    add_property (make_property k false ov false q 0 [b] zero_bound zero_bound) c in
  let window k st lo hi p c :=
    let '(l, c) := compile_bound lo 0 c in
    let '(h, c) := compile_bound hi 0 c in
    let '(a, c) := compile_property_node p c in
    add_property (make_property k st false false 0 0 [a] l h) c in
  let abort k sy t p c :=
    let '(g, c) := compile_guard t c in
    let '(a, c) := compile_property_node p c in
    add_property (make_property k false false sy 0 g [a] zero_bound zero_bound) c in
  match n with
  | n_strong s => sequence_property true s c
  | n_weak s => sequence_property false s c
  | n_negation p =>
      let '(a, c) := compile_property_node p c in simple k_negation false [a] c
  | n_conjunction l r => both k_conjunction l r c
  | n_disjunction l r => both k_disjunction l r c
  | n_equivalence l r => both k_equivalence l r c
  | n_implies l r => both k_implies l r c
  | n_implication ov s r => after k_implication ov s r c
  | n_followed_by ov s r => after k_followed_by ov s r c
  | n_if t l =>
      let '(g, c) := compile_guard t c in
      let '(a, c) := compile_property_node l c in
      add_property (make_property k_conditional false false false 0 g [a] zero_bound zero_bound) c
  | n_if_else t l r =>
      let '(g, c) := compile_guard t c in
      let '(a, c) := compile_property_node l c in
      let '(b, c) := compile_property_node r c in
      add_property (make_property k_conditional false false false 0 g [a; b] zero_bound zero_bound) c
  | n_nexttime st lo p =>
      let '(l, c) := compile_bound lo 0 c in
      let '(a, c) := compile_property_node p c in
      add_property (make_property k_nexttime st false false 0 0 [a] l zero_bound) c
  | n_always st lo hi p => window k_always st lo hi p c
  | n_eventually st lo hi p => window k_eventually st lo hi p c
  | n_until st wth l r =>
      let '(a, c) := compile_property_node l c in
      let '(b, c) := compile_property_node r c in
      if (wth : bool) then
        let '(a2, c) := compile_property_node l c in
        let '(b2, c) := simple k_conjunction false [a2; b] c in
        simple k_until st [a; b2] c
      else simple k_until st [a; b] c
  | n_accept sy t p => abort k_accept sy t p c
  | n_reject sy t p => abort k_reject sy t p c
  | _ => sequence_property false n c
  end.

(** [compile] and [clock_ticks]: the plan, with its guards and bounds. *)
Definition plan_of (c : Compiler) (root_ : Z) (every : bool) (clocks : list Z) : Plan :=
  MkPlan (c_sequences c) (c_properties c) root_ (size (c_guards c)) (size (c_bounds c)) every clocks.

Definition compile (n : Node) (every : bool) (c : Compiler) : Plan * Compiler :=
  let '(r, c) := compile_property_node n c in (plan_of c r every [], c).

Fixpoint compile_ticks (ticks : list Tokens) (c : Compiler) : list Z * Compiler :=
  match ticks with
  | [] => ([], c)
  | t :: ticks =>
      let '(k, c) := compile_guard t c in
      let '(ks, c) := compile_ticks ticks c in (k :: ks, c)
  end.

Definition compile_clocked (n : Node) (every : bool) (ticks : list Tokens) (c : Compiler)
    : Plan * Compiler :=
  let '(r, c) := compile_property_node n c in
  let '(ks, c) := compile_ticks ticks c in (plan_of c r every ks, c).
