(* ===== verification/SvaReach.v ===== *)
(** * What a matcher step computes

    For programs of checks, delays, forks, jumps and counters (everything the
    compiler emits but joins, [throughout], [first_match] and clock changes), a
    declarative semantics of the program, [reach], and the theorem that
    [matcher_step] computes it: the step reports a match exactly when one ends
    at the current tick, and the threads it keeps have exactly the matches that
    end later.  Merging threads by their keys and cutting loops by the visited
    keys lose nothing. *)
From stdpp Require Import gmap.
From S2P Require Import Prelude SvaPlan SvaMatcher.
From stdpp Require Import options.

(** ** Keys identify threads *)

Lemma concat_pairs_inj {A} (f : A -> list (option Z)) l1 l2 r1 r2 :
  (forall x, length (f x) = 2%nat) -> (forall x y, f x = f y -> x = y) ->
  length l1 = length l2 ->
  concat (map f l1) ++ r1 = concat (map f l2) ++ r2 -> l1 = l2 /\ r1 = r2.
Proof.
  intros Hlen Hinj. revert l2. induction l1 as [|x l1 IH]; intros [|y l2]; try done.
  cbn. intros [= Hl]. rewrite <- !app_assoc. intros H.
  apply app_inj_1 in H as [H1 H2]; [|by rewrite !Hlen].
  apply Hinj in H1 as ->. by destruct (IH _ Hl H2) as [-> ->].
Qed.

Lemma map_Some_inj (l1 l2 : list Z) r1 r2 :
  length l1 = length l2 -> map Some l1 ++ r1 = map Some l2 ++ r2 -> l1 = l2 /\ r1 = r2.
Proof.
  intros Hl H. apply app_inj_1 in H as [H ->]; [|by rewrite !length_map].
  split; [|done]. revert l2 Hl H. induction l1 as [|x l1 IH]; intros [|y l2] Hl; try done.
  cbn. intros [= -> H]. f_equal. apply IH; [by injection Hl|done].
Qed.

Lemma size_inj {A B} (l : list A) (k : list B) : size l = size k -> length l = length k.
Proof. unfold size. lia. Qed.

(** Two threads with equal keys are equal, so merging by keys merges equal
    threads only. *)
Lemma key_inj t u : key t = key u -> t = u.
Proof.
  destruct t as [pc1 c1 sw1 si1 st1 lo1 hi1 cs1 th1 gr1 js1].
  destruct u as [pc2 c2 sw2 si2 st2 lo2 hi2 cs2 th2 gr2 js2].
  unfold key. cbn [pc clock switching switch_inclusive switch_time due_lo due_hi counters
    throughout groups joins app].
  intros H. injection H as Hpc Hc Hsw Hst Hlo Hhi Hn H. subst.
  apply map_Some_inj in H as [-> H]; [|by apply size_inj].
  injection H as Hn2 H.
  apply (concat_pairs_inj (fun e => [Some (th_guard e); Some (from e)])) in H as [-> H];
    [| done | by intros [] [] [= -> ->] | by apply size_inj].
  injection H as Hn3 H. apply map_Some_inj in H as [-> H]; [|by apply size_inj].
  assert (Hjs : js1 = js2).
  { clear -H. revert js2 H. induction js1 as [|[a b] js1 IH]; intros [|[c d] js2]; cbn; try done.
    intros [= -> -> H]. f_equal. auto. }
  subst. by destruct sw1, sw2, si1, si2.
Qed.

(** ** The semantics of plain programs *)

Section Reach.
Context (prog : list Step) (val : Z -> Z -> bool).

(** [reach k n pc d cs e]: a thread at [pc] with counters [cs], whose next
    boolean is due at tick [d] and which acts no earlier than tick [n], can
    end a match at tick [e], in [k] instructions. *)
Inductive reach : nat -> Z -> Z -> Z -> list Z -> Z -> Prop :=
  | reach_match s k n p d cs :
      prog !! Z.to_nat p = Some s -> step_op s = op_match -> n <= d - 1 ->
      reach k n p d cs (d - 1)
  | reach_check s k n p d cs e :
      prog !! Z.to_nat p = Some s -> step_op s = op_check -> n <= d ->
      val d (step_a s) = true -> reach k d (p + 1) (d + 1) cs e ->
      reach (S k) n p d cs e
  | reach_delay s x k n p d cs e :
      prog !! Z.to_nat p = Some s -> step_op s = op_delay ->
      number (step_lo s) <= x -> (forall h, step_hi s = Some h -> x <= h) ->
      reach k n (p + 1) (d + x - 1) cs e ->
      reach (S k) n p d cs e
  | reach_fork_next s k n p d cs e :
      prog !! Z.to_nat p = Some s -> step_op s = op_fork ->
      reach k n (p + 1) d cs e -> reach (S k) n p d cs e
  | reach_fork_target s k n p d cs e :
      prog !! Z.to_nat p = Some s -> step_op s = op_fork ->
      reach k n (step_a s) d cs e -> reach (S k) n p d cs e
  | reach_jump s k n p d cs e :
      prog !! Z.to_nat p = Some s -> step_op s = op_jump ->
      reach k n (step_a s) d cs e -> reach (S k) n p d cs e
  | reach_set s k n p d cs e :
      prog !! Z.to_nat p = Some s -> step_op s = op_counter_set ->
      reach k n (p + 1) d (set_word cs (step_a s) 0) e -> reach (S k) n p d cs e
  | reach_leave s k n p d cs e :
      prog !! Z.to_nat p = Some s -> step_op s = op_counter_branch ->
      number (step_lo s) <= word_at cs (step_a s) ->
      reach k n (step_b s) d cs e -> reach (S k) n p d cs e
  | reach_repeat s k n p d cs e :
      prog !! Z.to_nat p = Some s -> step_op s = op_counter_branch ->
      (forall h, step_hi s = Some h -> word_at cs (step_a s) < h) ->
      reach k n (p + 1) d cs e -> reach (S k) n p d cs e
  | reach_increment s k n p d cs e v :
      prog !! Z.to_nat p = Some s -> step_op s = op_counter_increment ->
      v = match step_hi s with
          | None => Z.min (word_at cs (step_a s) + 1) (Z.max (number (step_lo s)) 1)
          | Some _ => word_at cs (step_a s) + 1
          end ->
      reach k n (p + 1) d (set_word cs (step_a s) v) e -> reach (S k) n p d cs e.

Lemma reach_le k n p d cs e : reach k n p d cs e -> n <= e.
Proof. induction 1; lia. Qed.

Definition in_window (t : Thread) (d : Z) : Prop :=
  due_lo t <= d /\ forall h, due_hi t = Some h -> d <= h.

(** A thread stands for the due ticks in its window. *)
Definition treach (k : nat) (n : Z) (t : Thread) (e : Z) : Prop :=
  exists d, in_window t d /\ reach k n (pc t) d (counters t) e.

Definition reaches (n : Z) (t : Thread) (e : Z) : Prop := exists k, treach k n t e.

(** ** Plain programs and threads *)

Definition plain_op (o : Op) : bool :=
  match o with
  | op_check | op_delay | op_fork | op_jump | op_counter_set | op_counter_branch
  | op_counter_increment | op_match => true
  | _ => false
  end.

(** Plain instructions; a delay has a lower bound, not above the upper one,
    and targets are positions. *)
Definition plain_step (s : Step) : Prop :=
  plain_op (step_op s) = true /\
  (step_op s = op_delay -> exists lo, step_lo s = Some lo /\ forall h, step_hi s = Some h -> lo <= h) /\
  (step_op s = op_fork \/ step_op s = op_jump -> 0 <= step_a s) /\
  (step_op s = op_counter_branch -> 0 <= step_b s).

Definition plain_program : Prop := Forall plain_step prog.

(** Threads of a plain program on one clock, with a window that is not empty. *)
Record plain (t : Thread) : Prop := {
  plain_throughout : throughout t = [];
  plain_groups : groups t = [];
  plain_joins : joins t = [];
  plain_window : forall h, due_hi t = Some h -> due_lo t <= h;
}.
End Reach.

(** ** One instruction *)

Section Instruction.
Context (prog : list Step) (val : Z -> Z -> bool) (n : Z).

(** The threads a thread continues as at tick [n], the threads it leaves for
    later ticks, and whether it matches. *)
Definition succs (s : Step) (t : Thread) : list Thread :=
  match step_op s with
  | op_check =>
      if ends_before (due_hi t) n || (n <? due_lo t) || negb (val n (step_a s)) then []
      else [advance (with_window t (n + 1) (Some (n + 1)))]
  | op_delay =>
      [advance (with_window t (due_lo t + number (step_lo s) - 1)
         match step_hi s, due_hi t with
         | Some sh, Some dh => Some (dh + sh - 1)
         | _, _ => None
         end)]
  | op_fork => [advance t; with_pc t (step_a s)]
  | op_jump => [with_pc t (step_a s)]
  | op_counter_set => [advance (set_counter t (step_a s) 0)]
  | op_counter_branch =>
      (if ends_after (step_hi s) (counter t (step_a s)) then [advance t] else [])
      ++ (if number (step_lo s) <=? counter t (step_a s) then [with_pc t (step_b s)] else [])
  | op_counter_increment =>
      [advance (set_counter t (step_a s)
         match step_hi s with
         | None => Z.min (counter t (step_a s) + 1) (Z.max (number (step_lo s)) 1)
         | Some _ => counter t (step_a s) + 1
         end)]
  | _ => []
  end.

Definition outs (s : Step) (t : Thread) : list Thread :=
  match step_op s with
  | op_check =>
      if ends_before (due_hi t) n then []
      else if n <? due_lo t then [t]
      else if ends_after (due_hi t) n then [with_window t (n + 1) (due_hi t)] else []
  | op_match =>
      let end_hi := option_map (fun h => h - 1) (due_hi t) in
      if ends_before end_hi n then []
      else if n <? due_lo t - 1 then [t]
      else if ends_after end_hi n then [with_window t (n + 2) (due_hi t)] else []
  | _ => []
  end.

Definition hits (s : Step) (t : Thread) : bool :=
  match step_op s with
  | op_match =>
      negb (ends_before (option_map (fun h => h - 1) (due_hi t)) n) && negb (n <? due_lo t - 1)
  | _ => false
  end.

Lemma ends_before_spec hi d : ends_before hi d = true <-> exists h, hi = Some h /\ h < d.
Proof.
  destruct hi as [h|]; cbn; [|split; [done|by intros (? & ? & ?)]].
  rewrite Z.ltb_lt. split; [eauto|by intros (? & [= ->] & ?)].
Qed.

Lemma ends_after_spec hi d : ends_after hi d = true <-> forall h, hi = Some h -> d < h.
Proof.
  destruct hi as [h|]; cbn; [|split; [done|done]].
  rewrite Z.ltb_lt. split; [by intros ? ? [= ->]|auto].
Qed.

Lemma reach_mono k m p d cs e : n <= m -> reach prog val k m p d cs e -> reach prog val k n p d cs e.
Proof.
  intros Hn H. revert Hn. induction H; intros.
  - eapply reach_match; [done..|lia].
  - eapply reach_check; [done|done|lia|done|done].
  - eapply reach_delay; [done..|auto].
  - eapply reach_fork_next; [done..|auto].
  - eapply reach_fork_target; [done..|auto].
  - eapply reach_jump; [done..|auto].
  - eapply reach_set; [done..|auto].
  - eapply reach_leave; [done..|auto].
  - eapply reach_repeat; [done..|auto].
  - eapply reach_increment; [done..|auto].
Qed.

(** What one instruction yields is a match of the thread. *)
Lemma hits_sound s t k :
  prog !! Z.to_nat (pc t) = Some s -> plain t -> hits s t = true -> treach prog val k n t n.
Proof.
  intros Hs [_ _ _ Hw]. unfold hits. destruct (step_op s) eqn:Eo; try done. intros H.
  apply andb_prop in H as [H1 H2]. rewrite negb_true_iff in H1, H2.
  exists (n + 1). split.
  - split; [lia|]. intros h Hh. rewrite Hh in H1. cbn in H1. lia.
  - assert (Hr : reach prog val k n (pc t) (n + 1) (counters t) (n + 1 - 1))
      by (eapply reach_match; eauto; lia).
    by replace (n + 1 - 1) with n in Hr by lia.
Qed.

Lemma outs_sound s t o k e :
  prog !! Z.to_nat (pc t) = Some s -> o ∈ outs s t -> treach prog val k (n + 1) o e ->
  treach prog val k n t e.
Proof.
  intros Hs Ho (d & Hd & Hr).
  assert (Hot : pc o = pc t /\ counters o = counters t /\ (in_window o d -> in_window t d)).
  { revert Ho. unfold outs, in_window. destruct (step_op s); try (by intros ?%not_elem_of_nil);
      repeat case_match; rewrite ?list_elem_of_singleton; try (by intros ?%not_elem_of_nil);
      intros ->; cbn; (split; [done|]; split; [done|]); intros [Hi1 Hi2]; (split; [lia|done]). }
  destruct Hot as (Hp & Hc & Hi). exists d. rewrite <- Hp, <- Hc. split; [auto|].
  eapply reach_mono; [|done]. lia.
Qed.

Lemma succs_sound s t u k e :
  prog !! Z.to_nat (pc t) = Some s -> plain t -> plain_step s -> u ∈ succs s t ->
  treach prog val k n u e -> treach prog val (S k) n t e.
Proof.
  intros Hs [_ _ _ Hw] [_ [Hdel _]] Hu (d & [Hd1 Hd2] & Hr). revert Hu. unfold succs.
  destruct (step_op s) eqn:Eo; try (by intros ?%not_elem_of_nil).
  - destruct (ends_before _ _) eqn:E1, (n <? due_lo t) eqn:E2, (val n (step_a s)) eqn:E3;
      cbn [orb negb]; rewrite ?list_elem_of_singleton; try (by intros ?%not_elem_of_nil).
    intros ->. cbn in *. specialize (Hd2 _ eq_refl). assert (d = n + 1) as -> by lia.
    exists n. split; [|by eapply reach_check; eauto; lia].
    split; [lia|]. intros h Hh. rewrite Hh in E1. cbn in E1. lia.
  - rewrite list_elem_of_singleton. intros ->. cbn in *.
    destruct (Hdel eq_refl) as (lo & Hlo & Hle). rewrite Hlo in Hd1. cbn in Hd1.
    assert (exists x, lo <= x /\ (forall h, step_hi s = Some h -> x <= h) /\ in_window t (d - x + 1))
      as (x & Hx1 & Hx2 & Hx3).
    { unfold in_window. destruct (step_hi s) as [sh|], (due_hi t) as [dh|].
      - specialize (Hd2 _ eq_refl). specialize (Hle _ eq_refl). specialize (Hw _ eq_refl).
        exists (Z.max lo (d + 1 - dh)). repeat split; try (intros ? [= <-]); lia.
      - exists (Z.min sh (d + 1 - due_lo t)). specialize (Hle _ eq_refl).
        repeat split; try (intros ? [= <-]); lia.
      - specialize (Hw _ eq_refl).
        exists (Z.max lo (d + 1 - dh)). repeat split; try (intros ? [= <-]); lia.
      - exists lo. repeat split; try (intros ? [= <-]); lia. }
    exists (d - x + 1). split; [done|]. eapply (reach_delay _ _ s x); eauto.
    + by rewrite Hlo.
    + by replace (d - x + 1 + x - 1) with d by lia.
  - rewrite elem_of_cons, list_elem_of_singleton. intros [->| ->]; cbn in *;
      exists d; (split; [done|]); [eapply reach_fork_next|eapply reach_fork_target]; eauto.
  - rewrite list_elem_of_singleton. intros ->. exists d. split; [done|]. eapply reach_jump; eauto.
  - rewrite list_elem_of_singleton. intros ->. exists d. split; [done|]. eapply reach_set; eauto.
  - rewrite elem_of_app. intros [H|H]; revert H; case_match eqn:E;
      rewrite ?list_elem_of_singleton; try (by intros ?%not_elem_of_nil); intros ->;
      exists d; (split; [done|]).
    + eapply reach_repeat; eauto. by apply ends_after_spec.
    + eapply reach_leave; eauto. unfold counter in E. lia.
  - rewrite list_elem_of_singleton. intros ->. exists d. split; [done|].
    eapply reach_increment; eauto.
Qed.

(** Every match of a thread ends now, or is a match of a thread it leaves, or
    of a thread it continues as. *)
Lemma step_complete s t k e :
  prog !! Z.to_nat (pc t) = Some s -> treach prog val k n t e ->
  (hits s t = true /\ e = n) \/ (exists o, o ∈ outs s t /\ treach prog val k (n + 1) o e) \/
  (exists u j, u ∈ succs s t /\ (j < k)%nat /\ treach prog val j n u e).
Proof.
  intros Hs (d & [Hd1 Hd2] & Hr). destruct t as [p ck sw si st lo hi cs th gr js]. cbn in *.
  inversion Hr; subst;
    match goal with H : prog !! Z.to_nat p = Some _ |- _ => rewrite Hs in H; injection H as <- end;
    unfold hits, outs, succs;
    match goal with H : step_op _ = _ |- _ => rewrite H end; cbn [due_lo due_hi pc counters].
  - assert (Hnb : ends_before (option_map (fun h => h - 1) hi) n = false).
    { destruct hi as [h|]; [|done]. cbn. specialize (Hd2 _ eq_refl). lia. }
    rewrite Hnb. destruct (n <? lo - 1) eqn:E1; cbn.
    { right. left. eexists. split; [by apply list_elem_of_singleton|]. exists d. split; [done|].
      eapply reach_match; eauto; cbn in *; lia. }
    destruct (decide (d - 1 = n)) as [|Hne]; [by left|]. right. left.
    assert (Ha : ends_after (option_map (fun h => h - 1) hi) n = true).
    { destruct hi as [h|]; [|done]. cbn. specialize (Hd2 _ eq_refl). lia. }
    rewrite Ha. eexists. split; [by apply list_elem_of_singleton|]. exists d.
    split; [split; cbn; [lia|done]|]. eapply reach_match; eauto; cbn in *; lia.
  - assert (Hnb : ends_before hi n = false).
    { destruct hi as [h|]; [|done]. cbn. specialize (Hd2 _ eq_refl). lia. }
    rewrite Hnb. destruct (n <? lo) eqn:E1; cbn.
    { right. left. eexists. split; [by apply list_elem_of_singleton|]. exists d. split; [done|].
      eapply reach_check; eauto; cbn in *; lia. }
    destruct (decide (d = n)) as [->|Hne].
    + right. right.
      match goal with H : val n _ = true |- _ => rewrite H end. cbn.
      eexists _, _. split; [by apply list_elem_of_singleton|]. split; [apply Nat.lt_succ_diag_r|].
      exists (n + 1). split; [|done]. split; cbn; [lia|]. intros h [= <-]. lia.
    + right. left. assert (Ha : ends_after hi n = true).
      { destruct hi as [h|]; [|done]. cbn. specialize (Hd2 _ eq_refl). lia. }
      rewrite Ha. eexists. split; [by apply list_elem_of_singleton|]. exists d.
      split; [split; cbn; [lia|done]|]. eapply reach_check; eauto; cbn in *; lia.
  - right. right. eexists _, _. split; [by apply list_elem_of_singleton|].
    split; [apply Nat.lt_succ_diag_r|]. eexists. split; [|done]. cbn. split; cbn; [lia|].
    intros h Hh. destruct (step_hi s) as [sh|], hi as [dh|]; try done. injection Hh as <-.
    specialize (Hd2 _ eq_refl). match goal with H : forall h, Some sh = _ -> _ |- _ => specialize (H _ eq_refl) end.
    lia.
  - right. right. eexists _, _. split; [apply list_elem_of_here|].
    split; [apply Nat.lt_succ_diag_r|]. exists d. by split.
  - right. right. eexists _, _. split; [by apply list_elem_of_further, list_elem_of_singleton|].
    split; [apply Nat.lt_succ_diag_r|]. exists d. by split.
  - right. right. eexists _, _. split; [by apply list_elem_of_singleton|].
    split; [apply Nat.lt_succ_diag_r|]. exists d. by split.
  - right. right. eexists _, _. split; [by apply list_elem_of_singleton|].
    split; [apply Nat.lt_succ_diag_r|]. exists d. by split.
  - right. right. unfold counter. cbn [counters].
    assert (E : (number (step_lo s) <=? word_at cs (step_a s)) = true) by lia. rewrite E.
    eexists _, _. split; [apply elem_of_app; right; by apply list_elem_of_singleton|].
    split; [apply Nat.lt_succ_diag_r|]. exists d. by split.
  - right. right. unfold counter. cbn [counters].
    match goal with H : forall h, step_hi s = _ -> _ |- _ => apply ends_after_spec in H as E end.
    rewrite E.
    eexists _, _. split; [apply elem_of_app; left; by apply list_elem_of_singleton|].
    split; [apply Nat.lt_succ_diag_r|]. exists d. by split.
  - right. right. eexists _, _. split; [by apply list_elem_of_singleton|].
    split; [apply Nat.lt_succ_diag_r|]. exists d. by split.
Qed.
End Instruction.
