(* ===== verification/SvaStep.v ===== *)
(** * A matcher step is exact

    The work list of [matcher_step] on a plain program (see [SvaReach]): threads
    taken from the queue, threads kept for later ticks, the visited keys that cut
    loops.  The invariant says that nothing the queue held is lost and nothing
    is invented; at the end of the step it is [step_exact]. *)
From stdpp Require Import gmap.
From S2P Require Import Prelude SvaPlan SvaMatcher SvaReach.
From stdpp Require Import options.

Definition thread_limit : exception :=
  runtime_error "concurrent property evaluation exceeded its thread limit".

Lemma multiclocked_now p m t : multiclocked p = false -> thread_now p m t = now m.
Proof. intros H. unfold thread_now. by rewrite H. Qed.

Lemma set_now_id m : set_now m (now m) = m.
Proof. by destruct m. Qed.

Section Keep.
Context (prog : list Step) (n : Z).

(** ** The state of a step *)

Record state_ok (m : Matcher) : Prop := {
  ok_code : code (sequence_ m) = prog;
  ok_now : now m = n;
  ok_kept : forall t, key t ∈ kept m -> t ∈ threads m;
  ok_plain : forall t, t ∈ threads m -> plain t;
  ok_groups : matched_groups m = ∅;
  ok_joins : joins_ m = ∅;
}.

(** [m'] is [m] with the threads [os] kept. *)
Record keeps (m m' : Matcher) (os : list Thread) : Prop := {
  keeps_ok : state_ok m';
  keeps_threads : forall x, x ∈ threads m' <-> x ∈ threads m \/ x ∈ os;
  keeps_visited : visited m' = visited m;
  keeps_matched : matched m' = matched m;
}.

Lemma keeps_nil m : state_ok m -> keeps m m [].
Proof. intros H. split; [done| |done|done]. set_solver. Qed.

Lemma keep_keeps m t m' : state_ok m -> plain t -> keep m t = Ok m' -> keeps m m' [t].
Proof.
  intros H Ht. unfold keep. destruct (decide _) as [Hk|Hk].
  - intros [= <-]. split; [done| |done|done]. apply (ok_kept _ H) in Hk. set_solver.
  - destruct (_ <=? _); [done|]. intros [= <-]. destruct H as [H1 H2 H3 H4 H5 H6].
    split; cbn; [|set_solver|done|done]. split; cbn; [done|done| | |done|done].
    + intros u Hu. apply elem_of_union in Hu as [Hu|Hu]; [|set_solver].
      apply elem_of_singleton, key_inj in Hu as ->. set_solver.
    + intros u Hu. apply elem_of_app in Hu as [Hu|Hu]; [by apply H4|].
      by apply list_elem_of_singleton in Hu as ->.
Qed.

Lemma keep_throws m t e : keep m t = Throw e -> e = thread_limit.
Proof. unfold keep. repeat case_match; [done| |done]. by intros [= <-]. Qed.

End Keep.

Section Worklist.
Context (prog : list Step) (val : Z -> Z -> bool) (n : Z).

(** ** One instruction *)

Definition flow_pair (f : Flow) : Matcher * list Thread :=
  match f with Goes m t q => (m, t :: q) | Stops m q => (m, q) end.

(** What [run_op] does to the state and the queue. *)
Inductive op_effect (m : Matcher) (t : Thread) (q : list Thread) (s : Step)
    : Matcher * list Thread -> Prop :=
  | effect_seen :
      step_op s = op_counter_branch -> key t ∈ visited m -> op_effect m t q s (m, q)
  | effect_done m' q' :
      state_ok prog n m' ->
      (forall x, x ∈ threads m' <-> x ∈ threads m \/ x ∈ outs n s t) ->
      matched m' = matched m || hits n s t ->
      visited m ⊆ visited m' ->
      (forall k, k ∈ visited m' -> k ∈ visited m \/ k = key t /\ step_op s = op_counter_branch) ->
      (step_op s = op_counter_branch -> key t ∈ visited m') ->
      q' ≡ₚ succs val n s t ++ q ->
      op_effect m t q s (m', q').

Lemma window_late (t : Thread) lo : plain t -> (forall h, due_hi t = Some h -> lo <= h) ->
  plain (with_window t lo (due_hi t)).
Proof. intros [H1 H2 H3 H4] H. by split. Qed.

Lemma succs_plain s t u : plain t -> plain_step s -> u ∈ succs val n s t -> plain u.
Proof.
  intros [H1 H2 H3 H4] [_ [Hd _]]. unfold succs.
  destruct (step_op s) eqn:Eo; try (by intros ?%not_elem_of_nil);
    rewrite ?elem_of_app; repeat case_match; rewrite ?elem_of_cons, ?elem_of_nil;
    intros Hu; destruct_or?; try done; subst; split; cbn; try done.
  - intros h [= <-]. lia.
  - intros h [= <-]. destruct (Hd eq_refl) as (lo & Hlo & Hle). rewrite Hlo. cbn.
    specialize (Hle _ eq_refl). specialize (H4 _ ltac:(done)). lia.
Qed.

Lemma outs_plain s t o : plain t -> o ∈ outs n s t -> plain o.
Proof.
  intros Ht. unfold outs.
  destruct (step_op s) eqn:Eo; try (by intros ?%not_elem_of_nil); repeat case_match;
    rewrite ?list_elem_of_singleton; try (by intros ?%not_elem_of_nil); intros ->; try done;
    apply window_late; try done; intros h Hh;
    match goal with H : ends_after _ _ = true |- _ => rewrite Hh in H; cbn in H end; lia.
Qed.

Lemma effect_goes m t q s u q' :
  state_ok prog n m -> step_op s <> op_counter_branch -> outs n s t = [] -> hits n s t = false ->
  succs val n s t = u :: q' -> op_effect m t q s (m, u :: q ++ q').
Proof.
  intros Hm Hb Ho Hh Hs. apply effect_done; try done.
  - intros x. rewrite Ho, elem_of_nil. tauto.
  - by rewrite Hh, orb_false_r.
  - tauto.
  - rewrite Hs. cbn. by rewrite (Permutation_app_comm q q').
Qed.

Context (p : CompiledPlan).
Context (Hclock : multiclocked p = false) (Hval : forall k, guard p k = val n k).

#[local] Set Default Proof Using "All".

Lemma run_check_effect m t q s f :
  state_ok prog n m -> plain t -> step_op s = op_check -> run_check p m t q s = Ok f ->
  op_effect m t q s (flow_pair f).
Proof.
  intros Hm Ht Hs. unfold run_check. rewrite (ok_now _ _ _ Hm), (plain_throughout _ Ht), Hval.
  cbn [List.filter forallb map].
  assert (Hth : with_throughout t [] = t) by (destruct Ht as [Hth _ _ _]; by destruct t; cbn in *; subst).
  rewrite Hth. clear Hth.
  assert (Hfin : forall m' q', keeps prog n m m' (outs n s t) -> q' = succs val n s t ++ q ->
    op_effect m t q s (m', q')).
  { intros m' q' [K1 K2 K3 K4] ->. apply effect_done; try done.
    - unfold hits. rewrite Hs, orb_false_r. done.
    - by rewrite K3.
    - rewrite K3. tauto.
    - by rewrite Hs. }
  unfold outs, succs in Hfin. rewrite Hs in Hfin.
  destruct (ends_before (due_hi t) n) eqn:E1.
  { intros [= <-]. apply Hfin; [by apply keeps_nil|done]. }
  destruct (n <? due_lo t) eqn:E2.
  { destruct (keep m t) as [m'|] eqn:Ek; [|done]. intros [= <-].
    apply Hfin; [by apply keep_keeps|done]. }
  assert (Hlate : ends_after (due_hi t) n = true -> plain (with_window t (n + 1) (due_hi t))).
  { intros E. apply window_late; [done|]. intros h Hh. rewrite Hh in E. cbn in E. lia. }
  cbn [orb] in Hfin.
  destruct (ends_after (due_hi t) n) eqn:E3.
  - destruct (keep m _) as [m'|] eqn:Ek; [|done]. apply (keep_keeps prog n) in Ek; auto.
    cbn [mbind outcome_bind]. rewrite (ok_now _ _ _ (keeps_ok _ _ _ _ _ Ek)).
    destruct (val n (step_a s)); cbn [negb]; intros [= <-]; by apply Hfin.
  - cbn [mbind outcome_bind]. rewrite (ok_now _ _ _ Hm).
    destruct (val n (step_a s)); cbn [negb]; intros [= <-]; (apply Hfin; [by apply keeps_nil|done]).
Qed.

Lemma run_match_effect m t q s f :
  state_ok prog n m -> plain t -> step_op s = op_match -> run_match m t q = Ok f ->
  op_effect m t q s (flow_pair f).
Proof.
  intros Hm Ht Hs. unfold run_match, settle. rewrite (ok_now _ _ _ Hm).
  assert (Hfin : forall m', keeps prog n m m' (outs n s t) ->
    op_effect m t q s (if hits n s t then set_matched m' else m', q)).
  { intros m' [K1 K2 K3 K4]. apply effect_done.
    - destruct (hits n s t); [|done]. destruct K1. by split.
    - intros x. rewrite <- K2. by destruct (hits n s t).
    - destruct (hits n s t); cbn; [by rewrite orb_true_r|]. by rewrite orb_false_r.
    - destruct (hits n s t); cbn; by rewrite K3.
    - destruct (hits n s t); cbn; rewrite K3; tauto.
    - by rewrite Hs.
    - unfold succs. by rewrite Hs. }
  unfold outs, hits in Hfin. rewrite Hs in Hfin. cbn zeta in Hfin |- *.
  destruct (ends_before _ n) eqn:E1.
  { intros [= <-]. apply Hfin. by apply keeps_nil. }
  destruct (n <? due_lo t - 1) eqn:E2.
  { destruct (keep m t) as [m'|] eqn:Ek; [|done]. intros [= <-].
    apply Hfin. by apply keep_keeps. }
  assert (Hlate : ends_after (option_map (fun h => h - 1) (due_hi t)) n = true ->
    plain (with_window t (n + 2) (due_hi t))).
  { intros E. apply window_late; [done|]. intros h Hh. rewrite Hh in E. cbn in E. lia. }
  cbn [negb andb] in Hfin. destruct (ends_after _ n) eqn:E3.
  - destruct (keep m _) as [m'|] eqn:Ek; [|done]. apply (keep_keeps prog n) in Ek; auto.
    cbn. intros [= <-]. by apply Hfin.
  - cbn. intros [= <-]. apply Hfin. by apply keeps_nil.
Qed.

Lemma run_branch_effect m t q s :
  state_ok prog n m -> step_op s = op_counter_branch ->
  op_effect m t q s (flow_pair (run_branch m t q s)).
Proof.
  intros Hm Hs. unfold run_branch. destruct (decide _) as [Hk|Hk]; [by apply effect_seen|].
  set (m' := set_visited m _).
  assert (Hfin : forall q', q' ≡ₚ succs val n s t ++ q -> op_effect m t q s (m', q')).
  { intros q' Hq. apply effect_done; try done.
    - destruct Hm. by split.
    - intros x. unfold outs. rewrite Hs, elem_of_nil. tauto.
    - unfold hits. by rewrite Hs, orb_false_r.
    - cbn. set_solver.
    - cbn. intros k Hin. apply elem_of_union in Hin as [Hin|Hin]; [|by left].
      right. by apply elem_of_singleton in Hin.
    - intros _. cbn. set_solver. }
  unfold succs in Hfin. rewrite Hs in Hfin.
  destruct (number (step_lo s) <=? _), (ends_after _ _); cbn [andb flow_pair app] in *; apply Hfin; try done.
  by rewrite (Permutation_app_comm q).
Qed.

(** Every instruction of a plain program has the effect its semantics says. *)
Lemma run_op_effect m t q s f :
  state_ok prog n m -> plain t -> plain_step s -> run_op p m t q s = Ok f ->
  op_effect m t q s (flow_pair f).
Proof.
  intros Hm Ht [Hop _]. unfold run_op. destruct (step_op s) eqn:Hs; try done.
  - by apply run_check_effect.
  - intros [= <-]. rewrite <- (app_nil_r q) at 2. apply effect_goes; unfold outs, hits, succs; by rewrite ?Hs.
  - intros [= <-]. apply effect_goes; unfold outs, hits, succs; by rewrite ?Hs.
  - intros [= <-]. rewrite <- (app_nil_r q) at 2. apply effect_goes; unfold outs, hits, succs; by rewrite ?Hs.
  - intros [= <-]. rewrite <- (app_nil_r q) at 2. apply effect_goes; unfold outs, hits, succs; by rewrite ?Hs.
  - intros [= <-]. by apply run_branch_effect.
  - intros [= <-]. rewrite <- (app_nil_r q) at 2. apply effect_goes; unfold outs, hits, succs; by rewrite ?Hs.
  - by apply run_match_effect.
Qed.

(** The only exception is the thread limit. *)
Lemma run_op_throws m t q s e :
  plain_step s -> run_op p m t q s = Throw e -> e = thread_limit.
Proof.
  intros [Hop _]. unfold run_op. destruct (step_op s); try done.
  - unfold run_check. repeat case_match; try done;
      destruct (keep _ _) eqn:Ek; cbn; repeat case_match; try done; intros [= <-]; by eapply keep_throws.
  - unfold run_match, settle. repeat case_match; try done;
      destruct (keep _ _) eqn:Ek; cbn; repeat case_match; try done; intros [= <-]; by eapply keep_throws.
Qed.

(** ** The invariant of the work list *)

Context (Hprog : plain_program prog).

(** [settled m q t]: every match of [t] is accounted for, by the queue, by the
    visited keys, or by what its instruction left behind. *)
Inductive settled (m : Matcher) (q : list Thread) : Thread -> Prop :=
  | settled_queued t : t ∈ q -> settled m q t
  | settled_off t : prog !! Z.to_nat (pc t) = None -> settled m q t
  | settled_seen t s :
      prog !! Z.to_nat (pc t) = Some s -> step_op s = op_counter_branch ->
      key t ∈ visited m -> settled m q t
  | settled_done t s :
      prog !! Z.to_nat (pc t) = Some s ->
      (hits n s t = true -> matched m = true) ->
      (forall o, o ∈ outs n s t -> o ∈ threads m) ->
      (forall u, u ∈ succs val n s t -> settled m q u) -> settled m q t.

(** [grown m q m' q']: from [m] with queue [q] to [m'] with [q'] nothing was
    dropped but threads that are settled. *)
Record grown (m : Matcher) (q : list Thread) (m' : Matcher) (q' : list Thread) : Prop := {
  grown_queue : forall x, x ∈ q -> settled m' q' x;
  grown_threads : forall x, x ∈ threads m -> x ∈ threads m';
  grown_matched : matched m = true -> matched m' = true;
  grown_visited : visited m ⊆ visited m';
}.

Lemma settled_grown m q m' q' x : grown m q m' q' -> settled m q x -> settled m' q' x.
Proof.
  intros [G1 G2 G3 G4]. induction 1 as [t Ht|t Ht|t s Hs Hb Hk|t s Hs Hh Ho _ IH].
  - by apply G1.
  - by apply settled_off.
  - eapply settled_seen; eauto.
  - eapply settled_done; eauto.
Qed.

(** [Inv T m q]: after some instructions of a step that began with the threads
    [T], with matcher [m] and queue [q]. *)
Record Inv (T : list Thread) (m : Matcher) (q : list Thread) : Prop := {
  inv_ok : state_ok prog n m;
  inv_plain : forall t, t ∈ q -> plain t;
  inv_base : forall t, t ∈ T -> settled m q t;
  inv_closed : forall t s u, prog !! Z.to_nat (pc t) = Some s -> step_op s = op_counter_branch ->
    key t ∈ visited m -> u ∈ succs val n s t -> settled m q u;
  inv_queue : forall t e, t ∈ q -> reaches prog val n t e ->
    exists t0, t0 ∈ T /\ reaches prog val n t0 e;
  inv_threads : forall t e, t ∈ threads m -> reaches prog val (n + 1) t e ->
    exists t0, t0 ∈ T /\ reaches prog val n t0 e;
  inv_matched : matched m = true -> exists t0, t0 ∈ T /\ reaches prog val n t0 n;
}.

Lemma prog_plain k s : prog !! k = Some s -> plain_step s.
Proof. intros H. eapply Forall_lookup_1; [apply Hprog|done]. Qed.

Lemma inv_off T m t q :
  Inv T m (t :: q) -> prog !! Z.to_nat (pc t) = None -> Inv T m q.
Proof.
  intros [I1 I2 I3 I4 I5 I6 I7] Hoff.
  assert (G : grown m (t :: q) m q).
  { split; try done. intros x [->|Hx]%elem_of_cons; [by apply settled_off|by apply settled_queued]. }
  split; auto.
  - intros x Hx. apply I2. by right.
  - intros x Hx. eapply settled_grown; eauto.
  - intros x s u H1 H2 H3 H4. eapply settled_grown; eauto.
  - intros x e Hx. apply I5. by right.
Qed.

Lemma inv_step T m t q s m' q' :
  Inv T m (t :: q) -> prog !! Z.to_nat (pc t) = Some s -> op_effect m t q s (m', q') ->
  Inv T m' q'.
Proof.
  intros [I1 I2 I3 I4 I5 I6 I7] Hs Hf.
  assert (Ht : plain t) by (apply I2; by left).
  assert (Hp : plain_step s) by (by eapply prog_plain).
  inversion Hf as [Hb Hk|? ? F1 F2 F3 F4 F5 F6 F7]; subst.
  - assert (G : grown m' (t :: q') m' q').
    { split; try done. intros x [->|Hx]%elem_of_cons; [|by apply settled_queued].
      by eapply settled_seen. }
    split; auto.
    + intros x Hx. apply I2. by right.
    + intros x Hx. eapply settled_grown; eauto.
    + intros x s' u H1 H2 H3 H4. eapply settled_grown; eauto.
    + intros x e Hx. apply I5. by right.
  - assert (Hq : forall x, x ∈ q' <-> x ∈ succs val n s t \/ x ∈ q)
      by (intros x; by rewrite F7, elem_of_app).
    assert (G : grown m (t :: q) m' q').
    { split; try done.
      - intros x [->|Hx]%elem_of_cons; [|by apply settled_queued, Hq; right].
        eapply settled_done; [done| | |].
        + intros Hh. by rewrite F3, Hh, orb_true_r.
        + intros o Ho. apply F2. by right.
        + intros u Hu. apply settled_queued, Hq. by left.
      - intros x Hx. apply F2. by left.
      - intros Hm. by rewrite F3, Hm. }
    split; auto.
    + intros x [Hx|Hx]%Hq; [by eapply succs_plain|]. apply I2. by right.
    + intros x Hx. eapply settled_grown; eauto.
    + intros x s' u H1 H2 H3 H4. apply F5 in H3 as [H3|[H3 Hb]].
      * eapply settled_grown; eauto.
      * apply key_inj in H3 as ->. rewrite H1 in Hs. injection Hs as ->.
        apply settled_queued, Hq. by left.
    + intros x e [Hx|Hx]%Hq [k Hr].
      * apply (I5 t); [by left|]. exists (S k). by eapply succs_sound.
      * apply (I5 x); [by right|]. by exists k.
    + intros x e [Hx|Hx]%F2 [k Hr]; [apply (I6 x); [done|by exists k]|].
      apply (I5 t); [by left|]. exists k. by eapply outs_sound.
    + intros Hm. rewrite F3 in Hm. apply orb_prop in Hm as [Hm|Hm]; [auto|].
      apply (I5 t); [by left|]. exists O. by eapply hits_sound.
Qed.

Lemma inv_run_loop fuel T m t q m' q' :
  Inv T m (t :: q) -> run_loop fuel p m t q = Returns (m', q') -> Inv T m' q'.
Proof.
  revert m t q. induction fuel as [|fuel IH]; intros m t q HI; cbn [run_loop]; [done|].
  rewrite (ok_code _ _ _ (inv_ok _ _ _ HI)).
  destruct (prog !! Z.to_nat (pc t)) as [s|] eqn:Hs.
  - destruct (run_op p m t q s) as [f|] eqn:Ef; [|done].
    assert (Hf : op_effect m t q s (flow_pair f)).
    { apply run_op_effect; [apply HI| | |done]; [apply (inv_plain _ _ _ HI); by left|by eapply prog_plain]. }
    destruct f as [m1 t1 q1|m1 q1]; cbn in Hf.
    + apply IH. by eapply inv_step.
    + intros [= <- <-]. by eapply inv_step.
  - intros [= <- <-]. by eapply inv_off.
Qed.

Lemma inv_drain fuel T m q m' :
  Inv T m q -> drain fuel p m q = Returns m' -> Inv T m' [].
Proof.
  revert m q. induction fuel as [|fuel IH]; intros m [|t q] HI; cbn [drain];
    try done; try (by intros [= <-]).
  unfold run. rewrite multiclocked_now, set_now_id by done.
  destruct (run_loop fuel p m t q) as [[m1 q1]| |] eqn:E; try done. cbn.
  apply IH. by eapply inv_run_loop.
Qed.

(** ** At the end of a step *)

Lemma settled_complete T m k t e :
  Inv T m [] -> settled m [] t -> treach prog val k n t e ->
  (matched m = true /\ e = n) \/ exists o, o ∈ threads m /\ reaches prog val (n + 1) o e.
Proof.
  intros HI. revert t. induction (lt_wf k) as [k _ IH]. intros t Hset Hr.
  assert (Hcase : forall s, prog !! Z.to_nat (pc t) = Some s ->
      (hits n s t = true -> matched m = true) ->
      (forall o, o ∈ outs n s t -> o ∈ threads m) ->
      (forall u, u ∈ succs val n s t -> settled m [] u) ->
      (matched m = true /\ e = n) \/ exists o, o ∈ threads m /\ reaches prog val (n + 1) o e).
  { intros s Hs Hh Ho Hu. destruct (step_complete _ _ _ _ _ _ _ Hs Hr) as [[H1 H2]|[(o & H1 & H2)|(u & j & H1 & H2 & H3)]].
    - left. auto.
    - right. exists o. split; [auto|by exists k].
    - exact (IH j H2 u (Hu u H1) H3). }
  destruct Hset as [t Ht|t Ht|t s Hs Hb Hk|t s Hs Hh Ho Hu].
  - by apply not_elem_of_nil in Ht.
  - exfalso. destruct Hr as (d & _ & Hr). inversion Hr; congruence.
  - apply (Hcase s Hs).
    + unfold hits. by rewrite Hb.
    + unfold outs. rewrite Hb. intros o Ho. by apply not_elem_of_nil in Ho.
    + intros u Hu. by eapply (inv_closed _ _ _ HI).
  - by apply (Hcase s).
Qed.

(** Matches now and later, before and after the step. *)
Lemma inv_exact T m :
  Inv T m [] ->
  (matched m = true <-> exists t, t ∈ T /\ reaches prog val n t n) /\
  (forall e, n < e -> (exists t, t ∈ T /\ reaches prog val n t e) <->
                      exists t, t ∈ threads m /\ reaches prog val (n + 1) t e).
Proof.
  intros HI. split; [split|intros e He; split].
  - apply HI.
  - intros (t & Ht & k & Hr).
    destruct (settled_complete T m k t n HI (inv_base _ _ _ HI t Ht) Hr) as [[H _]|(o & Ho & j & Hj)]; [done|].
    destruct Hj as (d & _ & Hj). apply reach_le in Hj. lia.
  - intros (t & Ht & k & Hr).
    destruct (settled_complete T m k t e HI (inv_base _ _ _ HI t Ht) Hr) as [[_ ->]|H]; [lia|done].
  - intros (t & Ht & Hr). by eapply (inv_threads _ _ _ HI).
Qed.
End Worklist.

(** ** [matcher_step] *)

(** A matcher of a plain program between two steps. *)
Record matcher_ok (prog : list Step) (m : Matcher) : Prop := {
  mo_code : code (sequence_ m) = prog;
  mo_plain : forall t, t ∈ threads m -> plain t;
  mo_joins : joins_ m = ∅;
}.

Lemma matcher_new_ok s start : matcher_ok (code s) (matcher_new s start).
Proof.
  split; [done| |done]. intros t [->|Ht]%elem_of_cons; [|by apply not_elem_of_nil in Ht].
  split; cbn; try done. intros h [= <-]. lia.
Qed.

(** On one clock every thread of a plain program is stepped. *)
Lemma admit_plain p m ts q :
  multiclocked p = false -> (forall t, t ∈ ts -> plain t) ->
  foreach_pure ts (admit_thread p m) (q, []) = (q ++ ts, []).
Proof.
  intros Hc. revert q. induction ts as [|t ts IH]; intros q Hts; cbn [foreach_pure]; [by rewrite app_nil_r|].
  assert (Ha : admit_thread p m t (q, []) = (q ++ [t], [])).
  { unfold admit_thread. rewrite Hc. cbn [andb].
    by rewrite (plain_throughout t) by (apply Hts; by left). }
  rewrite Ha, IH by (intros u Hu; apply Hts; by right). by rewrite <- app_assoc.
Qed.

Lemma drop_matched_none m : matched_groups m = ∅ -> drop_matched m = m.
Proof.
  intros Hg. unfold drop_matched. rewrite Hg.
  replace (List.filter _ (threads m)) with (threads m); [by destruct m|].
  assert (Hf : forall t, negb (existsb (fun g => bool_decide (g ∈ (∅ : gset Z))) (groups t)) = true).
  { intros t. apply negb_true_iff, not_true_iff_false. rewrite existsb_exists.
    intros (g & _ & Hb). apply bool_decide_eq_true in Hb. set_solver. }
  induction (threads m) as [|t ts IH]; cbn; [done|]. by rewrite Hf, <- IH.
Qed.

Lemma collect_joins_none fuel m : joins_ m = ∅ -> collect_joins fuel m = Returns m.
Proof. intros H. unfold collect_joins. by rewrite decide_True. Qed.

Lemma begin_inv prog val n m :
  matcher_ok prog m -> Inv prog val n (threads m) (begin_step m n) (threads m).
Proof.
  intros [H1 H2 H3]. split; cbn; try done.
  - split; cbn; try done; set_solver.
  - intros t Ht. by apply settled_queued.
  - intros t e Ht Hr. by exists t.
  - set_solver.
Qed.

(** The step of a plain matcher, without the parts it does not use. *)
Lemma matcher_step_plain fuel prog p m n :
  multiclocked p = false -> matcher_ok prog m ->
  matcher_step fuel p m n =
    (m' ← drain fuel p (begin_step m n) (threads m);
     let m' := drop_matched m' in m' ← collect_joins fuel m'; Returns (matched m', m')).
Proof.
  intros Hc Hm. unfold matcher_step. rewrite admit_plain by (done || apply Hm). done.
Qed.

(** A step reports a match exactly when one ends at its tick, and keeps exactly
    the matches that end later. *)
Lemma step_exact fuel prog val p m n hit m' :
  multiclocked p = false -> (forall k, guard p k = val n k) -> plain_program prog ->
  matcher_ok prog m -> matcher_step fuel p m n = Returns (hit, m') ->
  matcher_ok prog m' /\
  (hit = true <-> exists t, t ∈ threads m /\ reaches prog val n t n) /\
  (forall e, n < e -> (exists t, t ∈ threads m /\ reaches prog val n t e) <->
                      exists t, t ∈ threads m' /\ reaches prog val (n + 1) t e).
Proof.
  intros Hc Hv Hp Hm. rewrite (matcher_step_plain _ prog) by done.
  destruct (drain fuel p (begin_step m n) (threads m)) as [m1| |] eqn:Ed; try done.
  assert (HI : Inv prog val n (threads m) m1 []).
  { eapply inv_drain; [apply Hc|apply Hv|apply Hp| |apply Ed]. by apply begin_inv. }
  destruct (inv_ok _ _ _ _ _ _ HI) as [O1 O2 O3 O4 O5 O6].
  cbn [mbind result_bind]. rewrite drop_matched_none, collect_joins_none by done.
  cbn [mbind result_bind]. intros [= <- <-]. split; [by split|]. by apply (inv_exact prog val n p Hc Hv Hp).
Qed.
