(* ===== verification/SvaSequence.v ===== *)
(** * Sequences: meaning and code

    The meaning of a sequence expression in the style of IEEE 1800 Annex F
    ([tight r i j]: the sequence matches the ticks [i .. j - 1]), the meaning its
    code gives to due ticks ([passes]), the layout of the code in a program
    ([laid]), and the theorem that the program at the layout reaches exactly what
    the sequence passes. *)
From stdpp Require Import gmap.
From S2P Require Import Prelude SvaPlan SvaMatcher SvaReach.
From stdpp Require Import options.

(** ** Sequence expressions *)

(** The forms of sequences this file covers, with their bounds resolved, over
    atoms: expression texts, or guard numbers once compiled.  [s_then] is
    concatenation ([##1]) without an instruction. *)
Inductive Seq (A : Type) :=
  | s_bool (g : A)
  | s_then (r1 r2 : Seq A)
  | s_delay (lo : Z) (hi : option Z) (r1 r2 : Seq A)
  | s_lead (lo : Z) (hi : option Z) (r : Seq A)
  | s_repeat (lo : Z) (hi : option Z) (r : Seq A)
  | s_or (r1 r2 : Seq A).
Arguments s_bool {A} _.
Arguments s_then {A} _ _.
Arguments s_delay {A} _ _ _ _.
Arguments s_lead {A} _ _ _.
Arguments s_repeat {A} _ _ _.
Arguments s_or {A} _ _.

Fixpoint seq_map {A B} (f : A -> B) (r : Seq A) : Seq B :=
  match r with
  | s_bool g => s_bool (f g)
  | s_then r1 r2 => s_then (seq_map f r1) (seq_map f r2)
  | s_delay lo hi r1 r2 => s_delay lo hi (seq_map f r1) (seq_map f r2)
  | s_lead lo hi r => s_lead lo hi (seq_map f r)
  | s_repeat lo hi r => s_repeat lo hi (seq_map f r)
  | s_or r1 r2 => s_or (seq_map f r1) (seq_map f r2)
  end.

(** The expressions of a sequence. *)
Fixpoint atoms {A} (r : Seq A) : list A :=
  match r with
  | s_bool g => [g]
  | s_lead _ _ r | s_repeat _ _ r => atoms r
  | s_then r1 r2 | s_delay _ _ r1 r2 | s_or r1 r2 => atoms r1 ++ atoms r2
  end.

Definition upto (x : Z) (hi : option Z) : Prop := forall h, hi = Some h -> x <= h.

Section Meaning.
Context {A : Type} (val : Z -> A -> bool).

(** [k] consecutive repetitions. *)
Fixpoint times (R : Z -> Z -> Prop) (k : nat) (i j : Z) : Prop :=
  match k with
  | O => i = j
  | S k => exists x, R i x /\ times R k x j
  end.

(** Tight satisfaction (Annex F.4): [##0] fuses the last tick of a match with
    the first of the next, so neither may be empty. *)
Fixpoint tight (r : Seq A) (i j : Z) : Prop :=
  match r with
  | s_bool g => val i g = true /\ j = i + 1
  | s_then r1 r2 => exists k, tight r1 i k /\ tight r2 k j
  | s_delay lo hi r1 r2 =>
      exists x k, lo <= x /\ upto x hi /\ tight r1 i k /\ tight r2 (k + x - 1) j /\
        (x = 0 -> i < k /\ k - 1 < j)
  | s_lead lo hi r => exists x, lo <= x /\ upto x hi /\ tight r (i + x) j
  | s_repeat lo hi r =>
      exists k, lo <= Z.of_nat k /\ upto (Z.of_nat k) hi /\ times (tight r) k i j
  | s_or r1 r2 => tight r1 i j \/ tight r2 i j
  end.

(** A point of execution: no action before tick [fst], next boolean due at
    tick [snd]. *)
Fixpoint iterate (R : Z * Z -> Z * Z -> Prop) (k : nat) (x y : Z * Z) : Prop :=
  match k with
  | O => x = y
  | S k => exists z, R x z /\ iterate R k z y
  end.

(** What the code of a sequence does to such a point. *)
Fixpoint passes (r : Seq A) (x y : Z * Z) : Prop :=
  match r with
  | s_bool g => x.1 <= x.2 /\ val x.2 g = true /\ y = (x.2, x.2 + 1)
  | s_then r1 r2 => exists z, passes r1 x z /\ passes r2 z y
  | s_delay lo hi r1 r2 =>
      exists k z, lo <= k /\ upto k hi /\ passes r1 x z /\ passes r2 (z.1, z.2 + k - 1) y
  | s_lead lo hi r => exists k, lo <= k /\ upto k hi /\ passes r (x.1, x.2 + k) y
  | s_repeat lo hi r =>
      exists k, lo <= Z.of_nat k /\ upto (Z.of_nat k) hi /\ iterate (passes r) k x y
  | s_or r1 r2 => passes r1 x y \/ passes r2 x y
  end.
End Meaning.

(** ** Well-formed sequences *)

(** No match of the sequence is empty. *)
Fixpoint nonempty {A} (r : Seq A) : bool :=
  match r with
  | s_bool _ => true
  | s_then r1 r2 => nonempty r1 || nonempty r2
  | s_delay lo _ r1 r2 => nonempty r1 || nonempty r2 || (2 <=? lo)
  | s_lead lo _ r => nonempty r || (1 <=? lo)
  | s_repeat lo _ r => (1 <=? lo) && nonempty r
  | s_or r1 r2 => nonempty r1 && nonempty r2
  end.

(** Every match of the sequence evaluates a boolean. *)
Fixpoint checks {A} (r : Seq A) : bool :=
  match r with
  | s_bool _ => true
  | s_then r1 r2 | s_delay _ _ r1 r2 => checks r1 || checks r2
  | s_lead _ _ r => checks r
  | s_repeat lo _ r => (1 <=? lo) && checks r
  | s_or r1 r2 => checks r1 && checks r2
  end.

(** Bounds are ranges of natural numbers; [##0] joins sequences without empty
    matches; what repeats without bound evaluates a boolean each time. *)
Definition range_ok (lo : Z) (hi : option Z) : bool :=
  (0 <=? lo) && match hi with None => true | Some h => lo <=? h end.

Fixpoint regular {A} (r : Seq A) : bool :=
  match r with
  | s_bool _ => true
  | s_then r1 r2 => regular r1 && regular r2
  | s_delay lo hi r1 r2 =>
      range_ok lo hi && regular r1 && regular r2 && ((1 <=? lo) || (nonempty r1 && nonempty r2))
  | s_lead lo hi r => range_ok lo hi && regular r
  | s_repeat lo hi r => range_ok lo hi && regular r && (checks r || bool_decide (hi <> None))
  | s_or r1 r2 => regular r1 && regular r2
  end.

(** ** Renaming atoms *)

Section Map.
Context {A B : Type} (f : A -> B).

Lemma nonempty_map r : nonempty (seq_map f r) = nonempty r.
Proof. induction r; cbn; congruence. Qed.

Lemma checks_map r : checks (seq_map f r) = checks r.
Proof. induction r; cbn; congruence. Qed.

Lemma regular_map r : regular (seq_map f r) = regular r.
Proof. induction r; cbn; rewrite ?nonempty_map, ?checks_map; congruence. Qed.

Lemma times_iff (R S_ : Z -> Z -> Prop) k i j :
  (forall i j, R i j <-> S_ i j) -> times R k i j <-> times S_ k i j.
Proof.
  intros H. revert i. induction k as [|k IH]; intros i; cbn; [done|].
  split; intros (x & H1 & H2); exists x; (split; [by apply H|by apply IH]).
Qed.

Lemma tight_map val r i j : tight val (seq_map f r) i j <-> tight (fun n a => val n (f a)) r i j.
Proof.
  revert i j. induction r as [g|r1 IH1 r2 IH2|lo hi r1 IH1 r2 IH2|lo hi r IH|lo hi r IH|r1 IH1 r2 IH2];
    intros i j; cbn; [done| | | | |].
  - setoid_rewrite IH1. by setoid_rewrite IH2.
  - setoid_rewrite IH1. by setoid_rewrite IH2.
  - by setoid_rewrite IH.
  - setoid_rewrite (times_iff _ (tight (fun n a => val n (f a)) r)); [done|apply IH].
  - by rewrite IH1, IH2.
Qed.
End Map.

(** ** The two meanings agree *)

(** Points move forward: never before the first due tick, and the clock never
    passes the tick before the next one due. *)
Definition moves (strict : bool) (x y : Z * Z) : Prop :=
  x.2 + Z.b2z strict <= y.2 /\ x.1 <= y.1 /\ y.1 <= Z.max x.1 (y.2 - 1).

(** Arithmetic on points. *)
Ltac mv := unfold moves in *; cbn [Z.b2z orb andb fst snd] in *; lia.

Section Agree.
Context (val : Z -> Z -> bool).

Lemma moves_join b c x y z : moves b x y -> moves c y z -> moves (b || c) x z.
Proof. destruct b, c; mv. Qed.

Lemma moves_le b x y : moves b x y -> x.1 <= x.2 -> y.1 <= y.2.
Proof. destruct b; mv. Qed.

Lemma iterate_moves (R : Z * Z -> Z * Z -> Prop) b k x y :
  (forall x y, x.1 <= x.2 -> R x y -> moves b x y) -> x.1 <= x.2 ->
  iterate R k x y -> moves ((1 <=? Z.of_nat k) && b) x y.
Proof.
  intros HR. revert x. induction k as [|k IH]; intros x Hx.
  - intros <-. change (1 <=? Z.of_nat 0) with false. mv.
  - intros (z & Hz & Hy). apply HR in Hz; [|done].
    apply IH in Hy; [|by eapply moves_le].
    assert (E : (1 <=? Z.of_nat (S k)) = true) by (apply Z.leb_le; lia). rewrite E.
    pose proof (moves_join _ _ _ _ _ Hz Hy) as H. by destruct b, (1 <=? Z.of_nat k).
Qed.

Lemma passes_moves r x y : regular r = true -> x.1 <= x.2 -> passes val r x y -> moves (nonempty r) x y.
Proof.
  revert x y. induction r as [g|r1 IH1 r2 IH2|lo hi r1 IH1 r2 IH2|lo hi r IH|lo hi r IH|r1 IH1 r2 IH2];
    cbn [regular passes nonempty]; intros x y Hr Hx.
  - intros (_ & _ & ->). mv.
  - apply andb_prop in Hr as [Hr1 Hr2]. intros (z & Hz & Hy).
    apply IH1 in Hz; [|done|done]. apply IH2 in Hy; [|done|by eapply moves_le].
    by eapply moves_join.
  - apply andb_prop in Hr as [[[Hb Hr1]%andb_prop Hr2]%andb_prop Hz0].
    intros (k & z & Hk1 & Hk2 & Hz & Hy). apply IH1 in Hz; [|done|done].
    unfold range_ok in Hb. apply andb_prop in Hb as [Hlo _].
    assert (Hd : 1 <= lo \/ nonempty r1 = true /\ nonempty r2 = true).
    { apply orb_prop in Hz0 as [H|H]; [left; lia|right]. by apply andb_prop in H. }
    apply IH2 in Hy; [|done|].
    + destruct Hd as [Hd|[Hd1 Hd2]].
      * destruct (nonempty r1), (nonempty r2), (2 <=? lo) eqn:E; mv.
      * rewrite Hd1, Hd2 in *. mv.
    + destruct Hd as [Hd|[Hd1 _]]; [destruct (nonempty r1); mv|].
      rewrite Hd1 in Hz. mv.
  - apply andb_prop in Hr as [Hb Hr]. intros (k & Hk1 & Hk2 & Hy).
    unfold range_ok in Hb. apply andb_prop in Hb as [Hlo _].
    apply IH in Hy; [|done|cbn; lia]. destruct (nonempty r), (1 <=? lo) eqn:E; mv.
  - apply andb_prop in Hr as [[Hb Hr]%andb_prop _]. intros (k & Hk1 & Hk2 & Hy).
    apply (iterate_moves _ (nonempty r)) in Hy; [| |done].
    + destruct (nonempty r), (1 <=? lo) eqn:E1, (1 <=? Z.of_nat k) eqn:E2; mv.
    + intros a b Ha. by apply IH.
  - apply andb_prop in Hr as [Hr1 Hr2]. intros [Hy|Hy].
    + apply IH1 in Hy; [|done|done]. destruct (nonempty r1), (nonempty r2); mv.
    + apply IH2 in Hy; [|done|done]. destruct (nonempty r1), (nonempty r2); mv.
Qed.

Lemma passes_le r x y : regular r = true -> x.1 <= x.2 -> passes val r x y -> y.1 <= y.2.
Proof. intros Hr Hx Hp. eapply moves_le; [|done]. by eapply passes_moves. Qed.

Lemma times_iterate (R : Z -> Z -> Prop) (S_ : Z * Z -> Z * Z -> Prop) k i j n :
  (forall i j n, n <= i -> R i j -> exists n', S_ (n, i) (n', j) /\ n' <= j) ->
  n <= i -> times R k i j -> exists n', iterate S_ k (n, i) (n', j) /\ n' <= j.
Proof.
  intros HR. revert i n. induction k as [|k IH]; intros i n Hn; cbn [times iterate].
  - intros <-. eauto.
  - intros (x & Hx & Hj). destruct (HR _ _ _ Hn Hx) as (n1 & H1 & H2).
    destruct (IH _ _ H2 Hj) as (n' & H3 & H4). eauto 10.
Qed.

Lemma iterate_times (R : Z -> Z -> Prop) (S_ : Z * Z -> Z * Z -> Prop) k x y :
  (forall x y, x.1 <= x.2 -> S_ x y -> R x.2 y.2 /\ y.1 <= y.2) ->
  x.1 <= x.2 -> iterate S_ k x y -> times R k x.2 y.2.
Proof.
  intros HR. revert x. induction k as [|k IH]; intros x Hx; cbn [times iterate].
  - by intros <-.
  - intros (z & Hz & Hy). apply HR in Hz as [H1 H2]; [|done]. exists z.2. auto.
Qed.

(** The code passes a point from one due tick to another exactly when the
    sequence matches the ticks between. *)
Lemma passes_tight r x y : regular r = true -> x.1 <= x.2 -> passes val r x y -> tight val r x.2 y.2.
Proof.
  revert x y. induction r as [g|r1 IH1 r2 IH2|lo hi r1 IH1 r2 IH2|lo hi r IH|lo hi r IH|r1 IH1 r2 IH2];
    cbn [regular passes tight]; intros x y Hr Hx.
  - by intros (_ & Hv & ->).
  - apply andb_prop in Hr as [Hr1 Hr2]. intros (z & Hz & Hy). exists z.2.
    split; [by apply IH1|]. apply IH2; [done| |done].
    by eapply (passes_le r1).
  - pose proof Hr as Hr'. apply andb_prop in Hr as [[[Hb Hr1]%andb_prop Hr2]%andb_prop Hz0].
    intros (k & z & Hk1 & Hk2 & Hz & Hy). exists k, z.2.
    pose proof (passes_moves _ _ _ Hr1 Hx Hz) as Hm.
    unfold range_ok in Hb. apply andb_prop in Hb as [Hlo _].
    assert (Hd : 1 <= lo \/ nonempty r1 = true /\ nonempty r2 = true).
    { apply orb_prop in Hz0 as [H|H]; [left; lia|right]. by apply andb_prop in H. }
    assert (Hzz : z.1 <= z.2 + k - 1).
    { destruct Hd as [Hd|[Hd1 _]]; [apply moves_le in Hm; lia|].
      rewrite Hd1 in Hm. mv. }
    split; [done|]. split; [done|]. split; [by apply IH1|].
    split; [by apply (IH2 (z.1, z.2 + k - 1))|]. intros ->.
    destruct Hd as [Hd|[Hd1 Hd2]]; [lia|].
    apply passes_moves in Hy; [|done|done]. rewrite Hd1 in Hm. rewrite Hd2 in Hy.
    mv.
  - apply andb_prop in Hr as [Hb Hr]. intros (k & Hk1 & Hk2 & Hy). exists k.
    unfold range_ok in Hb. apply andb_prop in Hb as [Hlo _].
    split; [done|]. split; [done|]. apply (IH (x.1, x.2 + k)); [done|cbn; lia|done].
  - apply andb_prop in Hr as [[Hb Hr]%andb_prop _]. intros (k & Hk1 & Hk2 & Hy). exists k.
    split; [done|]. split; [done|]. eapply iterate_times; [|done|done].
    intros a b Ha Hab. split; [by apply IH|]. by eapply (passes_le r).
  - apply andb_prop in Hr as [Hr1 Hr2]. intros [Hy|Hy]; [left|right]; auto.
Qed.

Lemma tight_passes r i j n :
  regular r = true -> n <= i -> tight val r i j ->
  exists n', passes val r (n, i) (n', j) /\ n' <= Z.max n (j - 1) /\ i <= j.
Proof.
  intros Hr Hn Ht.
  cut (exists n', passes val r (n, i) (n', j)).
  { intros (n' & Hp). exists n'. split; [done|].
    apply passes_moves in Hp; [|done|done]. destruct (nonempty r); mv. }
  revert i j n Hr Hn Ht.
  induction r as [g|r1 IH1 r2 IH2|lo hi r1 IH1 r2 IH2|lo hi r IH|lo hi r IH|r1 IH1 r2 IH2];
    cbn [regular passes tight]; intros i j n Hr Hn.
  - intros [Hv ->]. exists i. done.
  - apply andb_prop in Hr as [Hr1 Hr2]. intros (k & H1 & H2).
    destruct (IH1 _ _ _ Hr1 Hn H1) as [n1 P1].
    assert (n1 <= k) by (by eapply (passes_le r1) in P1).
    destruct (IH2 _ _ n1 Hr2 ltac:(done) H2) as [n2 P2]. exists n2, (n1, k). done.
  - apply andb_prop in Hr as [[[Hb Hr1]%andb_prop Hr2]%andb_prop Hz0].
    intros (x & k & Hx1 & Hx2 & H1 & H2 & H0).
    unfold range_ok in Hb. apply andb_prop in Hb as [Hlo _].
    destruct (IH1 _ _ _ Hr1 Hn H1) as [n1 P1].
    pose proof (passes_moves _ _ _ Hr1 (Hn : (n, i).1 <= (n, i).2) P1) as Hm.
    assert (n1 <= k + x - 1).
    { destruct (decide (x = 0)) as [->|];
        [specialize (H0 eq_refl)|]; destruct (nonempty r1); mv. }
    destruct (IH2 _ _ n1 Hr2 ltac:(done) H2) as [n2 P2]. exists n2, x, (n1, k). done.
  - apply andb_prop in Hr as [Hb Hr]. intros (x & Hx1 & Hx2 & H1).
    unfold range_ok in Hb. apply andb_prop in Hb as [Hlo _].
    destruct (IH (i + x) j n Hr ltac:(lia) H1) as [n1 P1]. exists n1, x. done.
  - apply andb_prop in Hr as [[Hb Hr]%andb_prop _]. intros (k & Hk1 & Hk2 & Hy).
    apply (times_iterate _ (passes val r) k i j n) in Hy as (n' & Hp & _); [eauto| |done].
    intros a b m Hm Hab. destruct (IH _ _ _ Hr Hm Hab) as [m' P]. exists m'. split; [done|].
    by eapply (passes_le r) in P.
  - apply andb_prop in Hr as [Hr1 Hr2]. intros [Hy|Hy].
    + destruct (IH1 _ _ _ Hr1 Hn Hy) as [n' P]. eauto.
    + destruct (IH2 _ _ _ Hr2 Hn Hy) as [n' P]. eauto.
Qed.
End Agree.

(** ** The code of a sequence *)

Definition plus (k : Z) (hi : option Z) : option Z := option_map (fun h => h + k) hi.

Section Code.
Context (prog : list Step).

Definition at_ (p : Z) (s : Step) : Prop := prog !! Z.to_nat p = Some s.

(** [laid r p q c d]: the instructions [p .. q - 1] are the code of [r], with
    counters [c .. d - 1]. *)
Fixpoint laid (r : Seq Z) (p q c d : Z) : Prop :=
  match r with
  | s_bool g => at_ p (MkStep op_check g 0 0 (Some 0) (Some 0)) /\ q = p + 1 /\ d = c
  | s_then r1 r2 => exists m c1, laid r1 p m c c1 /\ laid r2 m q c1 d
  | s_delay lo hi r1 r2 =>
      exists m c1, laid r1 p m c c1 /\ at_ m (MkStep op_delay 0 0 0 (Some lo) hi)
        /\ laid r2 (m + 1) q c1 d
  | s_lead lo hi r =>
      at_ p (MkStep op_delay 0 0 0 (Some (lo + 1)) (plus 1 hi)) /\ laid r (p + 1) q c d
  | s_repeat lo hi r =>
      exists m, at_ p (MkStep op_counter_set c 0 0 (Some 0) (Some 0))
        /\ at_ (p + 1) (MkStep op_counter_branch c q 0 (Some lo) hi)
        /\ laid r (p + 2) m (c + 1) d
        /\ at_ m (MkStep op_counter_increment c 0 0 (Some lo) hi)
        /\ at_ (m + 1) (MkStep op_jump (p + 1) 0 0 (Some 0) (Some 0))
        /\ q = m + 2
  | s_or r1 r2 =>
      exists m c1, at_ p (MkStep op_fork (m + 1) 0 0 (Some 0) (Some 0))
        /\ laid r1 (p + 1) m c c1
        /\ at_ m (MkStep op_jump q 0 0 (Some 0) (Some 0))
        /\ laid r2 (m + 1) q c1 d
  end.

Lemma laid_counters r p q c d : laid r p q c d -> c <= d /\ p < q.
Proof.
  revert p q c d. induction r as [g|r1 IH1 r2 IH2|lo hi r1 IH1 r2 IH2|lo hi r IH|lo hi r IH|r1 IH1 r2 IH2];
    cbn [laid]; intros p q c d.
  - intros (_ & -> & ->). lia.
  - intros (m & c1 & H1%IH1 & H2%IH2). lia.
  - intros (m & c1 & H1%IH1 & _ & H2%IH2). lia.
  - intros (_ & H%IH). lia.
  - intros (m & _ & _ & H%IH & _ & _ & ->). lia.
  - intros (m & c1 & _ & H1%IH1 & _ & H2%IH2). lia.
Qed.

(** Counters that differ at most in [c .. d - 1]. *)
Definition same_outside (c d : Z) (cs cs' : list Z) : Prop :=
  length cs' = length cs /\ forall i, 0 <= i -> ~ (c <= i < d) -> word_at cs' i = word_at cs i.

Lemma same_outside_refl c d cs : same_outside c d cs cs.
Proof. done. Qed.

Lemma same_outside_trans c1 d1 c2 d2 c d cs1 cs2 cs3 :
  c <= c1 -> d1 <= d -> c <= c2 -> d2 <= d ->
  same_outside c1 d1 cs1 cs2 -> same_outside c2 d2 cs2 cs3 -> same_outside c d cs1 cs3.
Proof.
  intros ? ? ? ? [L1 H1] [L2 H2]. split; [congruence|]. intros i Hi Hn.
  rewrite H2, H1; [done|done|lia|done|lia].
Qed.

Lemma same_outside_set c d k v cs :
  0 <= c <= k -> k < d -> same_outside c d cs (set_word cs k v).
Proof.
  intros Hc Hk. split; [unfold set_word; by rewrite length_insert|].
  intros i Hi Hn. unfold word_at, set_word.
  rewrite !nth_lookup, list_lookup_insert_ne by lia. done.
Qed.

Lemma counter_set_same cs k v : 0 <= k < size cs -> word_at (set_word cs k v) k = v.
Proof.
  unfold size. intros Hk. unfold word_at, set_word.
  rewrite nth_lookup, list_lookup_insert_eq by lia. done.
Qed.
End Code.

Section Correct.
Context (prog : list Step) (val : Z -> Z -> bool).

(** A run of the code of [r] passes the point to the end of the code. *)
Definition forward (r : Seq Z) : Prop :=
  forall p q c d k n due cs e,
    laid prog r p q c d -> 0 <= c -> d <= size cs -> reach prog val k n p due cs e ->
    exists n' due' cs' j, (j <= k)%nat /\ passes val r (n, due) (n', due') /\
      same_outside c d cs cs' /\ reach prog val j n' q due' cs' e.

Definition backward (r : Seq Z) : Prop :=
  forall p q c d n due n' due' cs e,
    laid prog r p q c d -> 0 <= c -> d <= size cs -> passes val r (n, due) (n', due') ->
    (forall cs', same_outside c d cs cs' -> exists j, reach prog val j n' q due' cs' e) ->
    exists j, reach prog val j n p due cs e.

Lemma same_outside_size c d cs cs' : same_outside c d cs cs' -> size cs' = size cs.
Proof. intros [H _]. unfold size. by rewrite H. Qed.

(** The instruction at a known position decides how a run goes on. *)
Ltac at_instruction H :=
  match goal with
  | R : reach prog val _ _ ?p _ _ _, A : at_ prog ?p _ |- _ =>
      unfold at_ in A; inversion R; clear R;
      repeat match goal with
      | L : prog !! Z.to_nat p = Some ?s |- _ =>
          lazymatch s with
          | MkStep _ _ _ _ _ _ => fail
          | _ => rewrite A in L; injection L as <-
          end
      end; cbn [step_op step_a step_b step_lo step_hi number from_option id] in *; try discriminate
  end.

Lemma forward_then r1 r2 : forward r1 -> forward r2 -> forward (s_then r1 r2).
Proof.
  intros F1 F2 p q c d k n due cs e (m & c1 & L1 & L2) Hc Hd R.
  destruct (laid_counters _ _ _ _ _ _ L1) as [? _]. destruct (laid_counters _ _ _ _ _ _ L2) as [? _].
  destruct (F1 p m c c1 k n due cs e L1 Hc ltac:(lia) R) as (n1 & d1 & cs1 & j1 & J1 & P1 & S1 & R1).
  destruct (F2 m q c1 d j1 n1 d1 cs1 e L2 ltac:(lia) ltac:(rewrite (same_outside_size _ _ _ _ S1); lia) R1)
    as (n2 & d2 & cs2 & j2 & J2 & P2 & S2 & R2).
  exists n2, d2, cs2, j2. split; [lia|]. split; [by exists (n1, d1)|]. split; [|done].
  by eapply (same_outside_trans c c1 c1 d); [lia..| |].
Qed.

Lemma backward_then r1 r2 : backward r1 -> backward r2 -> backward (s_then r1 r2).
Proof.
  intros B1 B2 p q c d n due n' due' cs e (m & c1 & L1 & L2) Hc Hd ([n1 d1] & P1 & P2) K.
  destruct (laid_counters _ _ _ _ _ _ L1) as [? _]. destruct (laid_counters _ _ _ _ _ _ L2) as [? _].
  eapply (B1 _ _ _ _ _ _ _ _ _ _ L1); [done|lia|done|]. intros cs1 S1.
  eapply (B2 _ _ _ _ _ _ _ _ _ _ L2); [lia|rewrite (same_outside_size _ _ _ _ S1); lia|done|].
  intros cs2 S2. apply K. by eapply (same_outside_trans c c1 c1 d); [lia..| |].
Qed.

Lemma forward_bool g : forward (s_bool g).
Proof.
  intros p q c d k n due cs e (A & -> & ->) Hc Hd R. at_instruction A. subst.
  eexists _, _, cs, _. split; [apply Nat.le_succ_diag_r|]. split; [|split; [done|done]]. done.
Qed.

Lemma backward_bool g : backward (s_bool g).
Proof.
  intros p q c d n due n' due' cs e (A & -> & ->) Hc Hd (P1 & P2 & P3) K. cbn in *.
  injection P3 as -> ->. destruct (K cs) as [j R]; [done|]. exists (S j).
  eapply reach_check; [apply A|done|done|done|done].
Qed.

Lemma forward_delay lo hi r1 r2 : forward r1 -> forward r2 -> forward (s_delay lo hi r1 r2).
Proof.
  intros F1 F2 p q c d k n due cs e (m & c1 & L1 & A & L2) Hc Hd R.
  destruct (laid_counters _ _ _ _ _ _ L1) as [? _]. destruct (laid_counters _ _ _ _ _ _ L2) as [? _].
  destruct (F1 p m c c1 k n due cs e L1 Hc ltac:(lia) R) as (n1 & d1 & cs1 & j1 & J1 & P1 & S1 & R1).
  at_instruction A. subst.
  match goal with R2 : reach _ _ ?j _ _ _ _ _ |- _ =>
    destruct (F2 (m + 1) q c1 d j n1 (d1 + x - 1) cs1 e L2 ltac:(lia)
      ltac:(rewrite (same_outside_size _ _ _ _ S1); lia) R2) as (n2 & d2 & cs2 & j2 & J2 & P2 & S2 & R2') end.
  exists n2, d2, cs2, j2. split; [lia|]. split; [|split; [|done]].
  - exists x, (n1, d1). done.
  - by eapply (same_outside_trans c c1 c1 d); [lia..| |].
Qed.

Lemma backward_delay lo hi r1 r2 : backward r1 -> backward r2 -> backward (s_delay lo hi r1 r2).
Proof.
  intros B1 B2 p q c d n due n' due' cs e (m & c1 & L1 & A & L2) Hc Hd
    (x & [n1 d1] & X1 & X2 & P1 & P2) K.
  destruct (laid_counters _ _ _ _ _ _ L1) as [? _]. destruct (laid_counters _ _ _ _ _ _ L2) as [? _].
  eapply (B1 _ _ _ _ _ _ _ _ _ _ L1); [done|lia|done|]. intros cs1 S1.
  destruct (B2 _ _ _ _ n1 (d1 + x - 1) n' due' cs1 e L2) as [j R]; [lia|rewrite (same_outside_size _ _ _ _ S1); lia|done| |].
  { intros cs2 S2. apply K. by eapply (same_outside_trans c c1 c1 d); [lia..| |]. }
  exists (S j). by eapply reach_delay; [apply A|..].
Qed.

Lemma forward_lead lo hi r : forward r -> forward (s_lead lo hi r).
Proof.
  intros F p q c d k n due cs e (A & L) Hc Hd R. at_instruction A. subst.
  match goal with R2 : reach _ _ ?j _ _ _ _ _ |- _ =>
    destruct (F (p + 1) q c d j n (due + x - 1) cs e L Hc Hd R2) as (n2 & d2 & cs2 & j2 & J2 & P2 & S2 & R2') end.
  exists n2, d2, cs2, j2. split; [lia|]. split; [|done].
  exists (x - 1). split; [lia|]. split.
  - intros h ->. cbn in *. match goal with H : forall h, Some _ = _ -> _ |- _ => specialize (H _ eq_refl) end. lia.
  - cbn. by replace (due + (x - 1)) with (due + x - 1) by lia.
Qed.

Lemma backward_lead lo hi r : backward r -> backward (s_lead lo hi r).
Proof.
  intros B p q c d n due n' due' cs e (A & L) Hc Hd (x & X1 & X2 & P) K.
  destruct (B _ _ _ _ n (due + x) n' due' cs e L Hc Hd P K) as [j R]. exists (S j). cbn in R.
  eapply (reach_delay _ _ _ (x + 1)); [apply A|done|cbn; lia| |].
  - intros h Hh. cbn in Hh. destruct hi as [h0|]; [|done]. injection Hh as <-. specialize (X2 _ eq_refl). lia.
  - by replace (due + (x + 1) - 1) with (due + x) by lia.
Qed.

Lemma forward_or r1 r2 : forward r1 -> forward r2 -> forward (s_or r1 r2).
Proof.
  intros F1 F2 p q c d k n due cs e (m & c1 & A & L1 & A2 & L2) Hc Hd R.
  destruct (laid_counters _ _ _ _ _ _ L1) as [? _]. destruct (laid_counters _ _ _ _ _ _ L2) as [? _].
  at_instruction A; subst.
  - match goal with R2 : reach _ _ ?j _ _ _ _ _ |- _ =>
      destruct (F1 (p + 1) m c c1 j n due cs e L1 Hc ltac:(lia) R2) as (n1 & d1 & cs1 & j1 & J1 & P1 & S1 & R1);
      clear R2 end.
    at_instruction A2. subst.
    eexists n1, d1, cs1, _. split; [|split; [by left|split; [|done]]]; [lia|].
    by eapply (same_outside_trans c c1 c c1); [lia..| |].
  - match goal with R2 : reach _ _ ?j _ _ _ _ _ |- _ =>
      destruct (F2 (m + 1) q c1 d j n due cs e L2 ltac:(lia) Hd R2) as (n1 & d1 & cs1 & j1 & J1 & P1 & S1 & R1);
      clear R2 end.
    exists n1, d1, cs1, j1. split; [|split; [by right|split; [|done]]]; [lia|].
    by eapply (same_outside_trans c1 d c1 d); [lia..| |].
Qed.

Lemma backward_or r1 r2 : backward r1 -> backward r2 -> backward (s_or r1 r2).
Proof.
  intros B1 B2 p q c d n due n' due' cs e (m & c1 & A & L1 & A2 & L2) Hc Hd P K.
  destruct (laid_counters _ _ _ _ _ _ L1) as [? _]. destruct (laid_counters _ _ _ _ _ _ L2) as [? _].
  destruct P as [P|P].
  - destruct (B1 _ _ _ _ n due n' due' cs e L1) as [j R]; [done|lia|done| |].
    { intros cs1 S1. destruct (K cs1) as [j R]; [by eapply (same_outside_trans c c1 c c1); [lia..| |]|].
      exists (S j). by eapply reach_jump; [apply A2|..]. }
    exists (S j). by eapply reach_fork_next; [apply A|..].
  - destruct (B2 _ _ _ _ n due n' due' cs e L2) as [j R]; [lia|done|done| |].
    { intros cs1 S1. apply K. by eapply (same_outside_trans c1 d c1 d); [lia..| |]. }
    exists (S j). by eapply reach_fork_target; [apply A|..].
Qed.

(** ** Repetition *)

(** The counter after one more repetition. *)
Definition counted (lo : Z) (hi : option Z) (v : Z) : Z :=
  match hi with None => Z.min (v + 1) (Z.max lo 1) | Some _ => v + 1 end.

(** Counter values the loop can have. *)
Definition counter_ok (lo : Z) (hi : option Z) (v : Z) : Prop :=
  0 <= v /\ upto v hi /\ (hi = None -> v <= Z.max lo 1).

Section Repeat.
Context (lo : Z) (hi : option Z) (r : Seq Z) (p m c d : Z).
Context (A0 : at_ prog (p + 1) (MkStep op_counter_branch c (m + 2) 0 (Some lo) hi)).
Context (L : laid prog r (p + 2) m (c + 1) d).
Context (A1 : at_ prog m (MkStep op_counter_increment c 0 0 (Some lo) hi)).
Context (A2 : at_ prog (m + 1) (MkStep op_jump (p + 1) 0 0 (Some 0) (Some 0))).
Context (Hc : 0 <= c).

#[local] Set Default Proof Using "All".

Lemma counted_ok v : counter_ok lo hi v -> (forall h, hi = Some h -> v < h) -> counter_ok lo hi (counted lo hi v).
Proof.
  intros (H1 & H2 & H3) Hlt. unfold counter_ok, counted, upto. destruct hi as [h|].
  - specialize (Hlt _ eq_refl). repeat split; [lia| |done]. intros ? [= <-]. lia.
  - specialize (H3 eq_refl). repeat split; [lia|done|lia].
Qed.

(** From the head of the loop, with the counter at [v]. *)
Lemma forward_head k n due cs e :
  forward r -> d <= size cs -> counter_ok lo hi (word_at cs c) ->
  reach prog val k n (p + 1) due cs e ->
  exists i n' due' cs' j, (j <= k)%nat /\ lo <= word_at cs c + Z.of_nat i /\
    upto (word_at cs c + Z.of_nat i) hi /\
    iterate (passes val r) i (n, due) (n', due') /\ same_outside c d cs cs' /\
    reach prog val j n' (m + 2) due' cs' e.
Proof.
  intros F. destruct (laid_counters _ _ _ _ _ _ L) as [Hcd _].
  revert n due cs. induction (lt_wf k) as [k _ IH]. intros n due cs Hd Hv R.
  at_instruction A0; subst.
  - eexists O, n, due, cs, _. repeat split; [apply Nat.le_succ_diag_r|cbn; lia| |done].
    rewrite Z.add_0_r. apply Hv.
  - match goal with R2 : reach _ _ ?j _ _ _ _ _ |- _ =>
      replace (p + 1 + 1) with (p + 2) in R2 by lia;
      destruct (F _ _ _ _ j n due cs e L ltac:(lia) Hd R2) as (n1 & d1 & cs1 & j1 & J1 & P1 & S1 & R1);
      clear R2 end.
    assert (Hw : word_at cs1 c = word_at cs c) by (apply S1; lia).
    pose proof (same_outside_size _ _ _ _ S1) as Hs.
    at_instruction A1. subst. rewrite Hw in *.
    match goal with R2 : reach _ _ _ _ _ _ (set_word cs1 c ?v) _ |- _ => set (w := v) in * end.
    at_instruction A2. subst.
    match goal with R2 : reach _ _ ?j _ _ _ _ _ |- _ =>
      destruct (IH j ltac:(lia) n1 d1 (set_word cs1 c w)) as (i & n' & due' & cs' & j2 & J2 & V1 & V2 & I & S2 & R3) end.
    { unfold size, set_word. rewrite length_insert. unfold size in Hs, Hd. lia. }
    { rewrite counter_set_same by (rewrite Hs; lia). by apply counted_ok. }
    { done. }
    rewrite counter_set_same in V1, V2 by (rewrite Hs; lia).
    assert (Hle : w <= word_at cs c + 1) by (subst w; destruct hi; lia).
    exists (S i), n', due', cs', j2. split; [lia|]. split; [lia|]. split.
    + intros h Hh. specialize (V2 _ Hh). subst w. rewrite Hh in V2. lia.
    + split; [by exists (n1, d1)|]. split; [|done].
      eapply (same_outside_trans c d c d c d cs (set_word cs1 c w)); [lia..| |done].
      eapply (same_outside_trans (c + 1) d c (c + 1)); [lia..|done|]. apply same_outside_set; lia.
Qed.

Lemma backward_head i n due n' due' cs e :
  backward r -> d <= size cs -> counter_ok lo hi (word_at cs c) ->
  lo <= word_at cs c + Z.of_nat i -> upto (word_at cs c + Z.of_nat i) hi ->
  iterate (passes val r) i (n, due) (n', due') ->
  (forall cs', same_outside c d cs cs' -> exists j, reach prog val j n' (m + 2) due' cs' e) ->
  exists j, reach prog val j n (p + 1) due cs e.
Proof.
  intros B. destruct (laid_counters _ _ _ _ _ _ L) as [Hcd _].
  revert n due cs. induction i as [|i IH]; intros n due cs Hd Hv V1 V2 I K.
  - cbn in I. injection I as -> ->. destruct (K cs) as [j R]; [done|].
    exists (S j). eapply reach_leave; [apply A0|done|cbn; lia|done].
  - destruct I as ([n1 d1] & P1 & I).
    destruct (B _ _ _ _ n due n1 d1 cs e L) as [j R]; [lia|done|done| |].
    + intros cs1 S1. assert (Hw : word_at cs1 c = word_at cs c) by (apply S1; lia).
      pose proof (same_outside_size _ _ _ _ S1) as Hs.
      destruct (IH n1 d1 (set_word cs1 c (counted lo hi (word_at cs1 c)))) as [j R].
      * unfold size, set_word. rewrite length_insert. unfold size in Hs, Hd. lia.
      * rewrite counter_set_same, Hw by (rewrite Hs; lia). apply counted_ok; [done|].
        intros h Hh. specialize (V2 _ Hh). lia.
      * rewrite counter_set_same, Hw by (rewrite Hs; lia). unfold counted. destruct hi; lia.
      * rewrite counter_set_same, Hw by (rewrite Hs; lia). intros h Hh. specialize (V2 _ Hh).
        unfold counted. rewrite Hh. lia.
      * done.
      * intros cs2 S2. apply K.
        eapply (same_outside_trans c d c d c d cs (set_word cs1 c (counted lo hi (word_at cs1 c)))); [lia..| |done].
        eapply (same_outside_trans (c + 1) d c (c + 1)); [lia..|done|]. apply same_outside_set; lia.
      * exists (S (S j)). eapply reach_increment; [apply A1|done|done|].
        eapply reach_jump; [apply A2|done|done].
    + exists (S j). eapply reach_repeat; [apply A0|done| |].
      * intros h Hh. cbn in *. specialize (V2 _ Hh). lia.
      * by replace (p + 1 + 1) with (p + 2) by lia.
Qed.
End Repeat.

Lemma forward_repeat lo hi r :
  range_ok lo hi = true -> forward r -> forward (s_repeat lo hi r).
Proof.
  intros Hb F p q c d k n due cs e (m & A & A0 & L & A1 & A2 & ->) Hc Hd R.
  apply andb_prop in Hb as [Hlo Hhi]. destruct (laid_counters _ _ _ _ _ _ L) as [Hcd _].
  at_instruction A. subst.
  assert (Hz : word_at (set_word cs c 0) c = 0) by (apply counter_set_same; lia).
  match goal with R2 : reach _ _ ?j _ _ _ _ _ |- _ =>
    destruct (forward_head lo hi r p m c d A0 L A1 A2 Hc j n due (set_word cs c 0) e F)
      as (i & n' & due' & cs' & j2 & J2 & V1 & V2 & I & S2 & R3); [| |exact R2|] end.
  { unfold size, set_word. rewrite length_insert. unfold size in Hd. lia. }
  { rewrite Hz. repeat split; [lia| |lia]. intros h ->. lia. }
  rewrite Hz in V1, V2. exists n', due', cs', j2. split; [lia|]. split.
  - exists i. repeat split; [lia|done|done].
  - split; [|done]. eapply (same_outside_trans c (c + 1) c d); [lia..| |done].
    apply same_outside_set; lia.
Qed.

Lemma backward_repeat lo hi r :
  range_ok lo hi = true -> backward r -> backward (s_repeat lo hi r).
Proof.
  intros Hb B p q c d n due n' due' cs e (m & A & A0 & L & A1 & A2 & ->) Hc Hd (i & V1 & V2 & I) K.
  apply andb_prop in Hb as [Hlo Hhi]. destruct (laid_counters _ _ _ _ _ _ L) as [Hcd _].
  assert (Hz : word_at (set_word cs c 0) c = 0) by (apply counter_set_same; lia).
  destruct (backward_head lo hi r p m c d A0 L A1 A2 Hc i n due n' due' (set_word cs c 0) e B) as [j R].
  - unfold size, set_word. rewrite length_insert. unfold size in Hd. lia.
  - rewrite Hz. repeat split; [lia| |lia]. intros h ->. lia.
  - rewrite Hz. lia.
  - by rewrite Hz.
  - done.
  - intros cs' S. apply K. eapply (same_outside_trans c (c + 1) c d); [lia..| |done].
    apply same_outside_set; lia.
  - exists (S j). eapply reach_set; [apply A|done|done].
Qed.

Lemma code_correct r : regular r = true -> forward r /\ backward r.
Proof.
  induction r as [g|r1 IH1 r2 IH2|lo hi r1 IH1 r2 IH2|lo hi r IH|lo hi r IH|r1 IH1 r2 IH2];
    cbn [regular]; intros Hr; repeat match goal with H : _ && _ = true |- _ => apply andb_prop in H as [? ?] end;
    repeat match goal with H : ?a = true -> _ /\ _, H' : ?a = true |- _ => destruct (H H'); clear H end.
  - split; [apply forward_bool|apply backward_bool].
  - split; [by apply forward_then|by apply backward_then].
  - split; [by apply forward_delay|by apply backward_delay].
  - split; [by apply forward_lead|by apply backward_lead].
  - split; [by apply forward_repeat|by apply backward_repeat].
  - split; [by apply forward_or|by apply backward_or].
Qed.

(** ** A whole program: the code of a sequence, then [match] *)

Definition program_of (r : Seq Z) (counters_ : Z) : Prop :=
  exists q, laid prog r 0 q 0 counters_ /\ at_ prog q (MkStep op_match 0 0 0 (Some 0) (Some 0)).

(** Started at tick [s], the program ends a match at tick [e] exactly when the
    sequence matches the ticks [s .. e]. *)
Theorem program_correct r counters_ s e :
  regular r = true -> program_of r counters_ ->
  (exists k, reach prog val k s 0 s (replicate (Z.to_nat counters_) 0) e) <->
  (s <= e /\ tight val r s (e + 1)).
Proof.
  intros Hr (q & L & A). destruct (code_correct r Hr) as [F B].
  destruct (laid_counters _ _ _ _ _ _ L) as [Hn _].
  assert (Hs : size (replicate (Z.to_nat counters_) 0) = counters_)
    by (unfold size; rewrite length_replicate; lia).
  split.
  - intros [k R]. pose proof (reach_le _ _ _ _ _ _ _ _ R). split; [done|].
    destruct (F 0 q 0 counters_ k s s (replicate (Z.to_nat counters_) 0) e L ltac:(lia) ltac:(lia) R)
      as (n' & due' & cs' & j & _ & P & _ & R').
    apply passes_tight in P; [|done|done]. cbn in P. at_instruction A. subst.
    by replace (due' - 1 + 1) with due' by lia.
  - intros [He Ht]. destruct (tight_passes val r s (e + 1) s Hr ltac:(lia) Ht) as (n' & P & Hn' & _).
    eapply (B 0 q 0 counters_); [done|lia|lia|done|]. intros cs' _. exists O.
    replace e with (e + 1 - 1) by lia. replace (e + 1 - 1 + 1) with (e + 1) by lia.
    eapply reach_match; [apply A|done|lia].
Qed.
End Correct.
