(* ===== verification/SvaEmit.v ===== *)
(** * The compiler lays out the code of a sequence

    [SvaCompile.emit] on the sequence forms of [SvaSequence]: the instructions it
    appends, resolved with the values of the bound expressions, are the layout
    [laid] of the sequence the node denotes. *)
From stdpp Require Import gmap.
From S2P Require Import Prelude SvaPlan SvaMatcher SvaEngine SvaCompile SvaReach SvaStep SvaSequence.
From stdpp Require Import options.

(** ** What a node denotes *)

(** The value of a bound, given the values [bv] of bound expressions. *)
Definition bound_value (bv : string -> Z) (b : BoundSpec) : option Z :=
  match b with
  | b_literal v => Some v
  | b_expression t => Some (bv (spelling t))
  | b_unbounded => None
  end.

(** b[->n] is (!b[*0:$] ##1 b)[*n] (IEEE 1800 16.9.2). *)
Definition skip_until (miss : string) : Seq string := s_repeat 0 None (s_bool miss).
Definition goto (lo : Z) (hi : option Z) (t : Tokens) : Seq string :=
  s_repeat lo hi (s_then (skip_until (spelling (negated t))) (s_bool (spelling t))).

(** The sequence of a node, over the spellings of its expressions; [None] for
    the forms [SvaSequence] does not cover, and for a lower bound [$]. *)
Fixpoint denote (bv : string -> Z) (n : Node) : option (Seq string) :=
  match n with
  | n_boolean t => Some (s_bool (spelling t))
  | n_delay lo hi l r =>
      lo ← bound_value bv lo; l ← denote bv l; r ← denote bv r;
      Some (s_delay lo (bound_value bv hi) l r)
  | n_leading_delay lo hi r =>
      lo ← bound_value bv lo; r ← denote bv r; Some (s_lead lo (bound_value bv hi) r)
  | n_repeat lo hi r =>
      lo ← bound_value bv lo; r ← denote bv r; Some (s_repeat lo (bound_value bv hi) r)
  | n_goto_repeat lo hi b =>
      lo ← bound_value bv lo; Some (goto lo (bound_value bv hi) (expression b))
  | n_nonconsecutive_repeat lo hi b =>
      lo ← bound_value bv lo;
      Some (s_then (goto lo (bound_value bv hi) (expression b))
              (skip_until (spelling (negated (expression b)))))
  | n_sequence_or l r => l ← denote bv l; r ← denote bv r; Some (s_or l r)
  | _ => None
  end.

(** ** The tables of the compiler *)

(** Every index refers to an expression with that spelling. *)
Record tables_ok (c : Compiler) : Prop := {
  guards_ok : forall text k, guard_index c !! text = Some k ->
    0 <= k /\ exists t, c_guards c !! Z.to_nat k = Some t /\ spelling t = text;
  bounds_ok : forall text k, bound_index c !! text = Some k ->
    0 <= k /\ exists t, c_bounds c !! Z.to_nat k = Some t /\ spelling t = text;
}.

(** [c'] has the tables of [c] and maybe more. *)
Record grows (c c' : Compiler) : Prop := {
  grows_guards : c_guards c `prefix_of` c_guards c';
  grows_bounds : c_bounds c `prefix_of` c_bounds c';
  grows_guard_index : guard_index c ⊆ guard_index c';
  grows_bound_index : bound_index c ⊆ bound_index c';
}.

Lemma grows_refl c : grows c c.
Proof. by split. Qed.

Lemma grows_trans c1 c2 c3 : grows c1 c2 -> grows c2 c3 -> grows c1 c3.
Proof.
  intros [] []. split; by etrans.
Qed.

Lemma grows_region c k n : grows c (set_clock_nested k n c).
Proof. by split. Qed.

Lemma tables_region c k n : tables_ok c -> tables_ok (set_clock_nested k n c).
Proof. intros [H1 H2]. by split. Qed.

Lemma size_snoc_lookup {A} (l : list A) x : (l ++ [x]) !! Z.to_nat (size l) = Some x.
Proof. unfold size. rewrite Nat2Z.id. by apply list_lookup_middle. Qed.

Lemma compile_guard_spec t c k c' :
  tables_ok c -> compile_guard t c = (k, c') ->
  tables_ok c' /\ grows c c' /\ guard_index c' !! spelling t = Some k.
Proof.
  intros [H1 H2]. unfold compile_guard. destruct (guard_index c !! spelling t) as [j|] eqn:E.
  - intros [= <- <-]. split; [by split|]. split; [apply grows_refl|done].
  - intros [= <- <-]. split; [|split].
    + split; cbn; [|done]. intros text k [[<- <-]|[Hne Hk]]%lookup_insert_Some.
      * split; [unfold size; lia|]. exists t. split; [apply size_snoc_lookup|done].
      * destruct (H1 _ _ Hk) as (? & u & Hu & ?). split; [done|]. exists u.
        split; [by apply lookup_app_l_Some|done].
    + split; cbn; try done; [by apply prefix_app_r|by apply insert_subseteq].
    + cbn. by rewrite lookup_insert_eq.
Qed.

Definition shifted (off : Z) (v : option Z) : option Z := option_map (fun x => x + off) v.

(** The values of the slots: [bs] holds, at the slot of an expression, its value. *)
Definition slots (bv : string -> Z) (c : Compiler) (bs : list Z) : Prop :=
  forall text k, bound_index c !! text = Some k -> bs !! Z.to_nat k = Some (bv text) /\ 0 <= k.

Lemma slots_grow bv c c' bs : grows c c' -> slots bv c' bs -> slots bv c bs.
Proof. intros G H text k Hk. apply H. by eapply lookup_weaken; [|apply G]. Qed.

Lemma compile_bound_spec bv b off c x c' :
  tables_ok c -> compile_bound b off c = (x, c') ->
  tables_ok c' /\ grows c c' /\
  (forall bs, slots bv c' bs -> resolve x bs = Ok (shifted off (bound_value bv b))).
Proof.
  intros [H1 H2]. unfold compile_bound. destruct b as [v|t|].
  - intros [= <- <-]. split; [by split|]. by split; [apply grows_refl|].
  - assert (Hr : forall bs k, bs !! Z.to_nat k = Some (bv (spelling t)) /\ 0 <= k ->
        resolve (MkBound slot k off) bs = Ok (shifted off (bound_value bv (b_expression t)))).
    { intros bs k [Hk Hp]. unfold resolve. cbn. apply lookup_lt_Some in Hk as Hlt.
      replace (k <? 0) with false by lia. replace (size bs <=? k) with false by (unfold size; lia).
      cbn. unfold word_at. erewrite nth_lookup, Hk. done. }
    destruct (bound_index c !! spelling t) as [j|] eqn:E.
    + intros [= <- <-]. split; [by split|]. split; [apply grows_refl|]. intros bs Hs. auto.
    + intros [= <- <-]. split; [|split].
      * split; cbn; [done|]. intros text k [[<- <-]|[Hne Hk]]%lookup_insert_Some.
        -- split; [unfold size; lia|]. exists t. split; [apply size_snoc_lookup|done].
        -- destruct (H2 _ _ Hk) as (? & u & Hu & ?). split; [done|]. exists u.
           split; [by apply lookup_app_l_Some|done].
      * split; cbn; try done; [by apply prefix_app_r|by apply insert_subseteq].
      * intros bs Hs. apply Hr, Hs. cbn. by rewrite lookup_insert_eq.
  - intros [= <- <-]. split; [by split|]. by split; [apply grows_refl|].
Qed.

(** ** Emitted code *)

(** The instructions [seg] are in the program from [p] on, with their bounds
    resolved. *)
Definition placed (prog : list Step) (bs : list Z) (p : Z) (seg : list Instruction) : Prop :=
  forall i x, seg !! i = Some x ->
    exists s, compile_instruction bs x = Ok s /\ prog !! (Z.to_nat p + i)%nat = Some s.

Lemma placed_app prog bs p s1 s2 :
  0 <= p -> placed prog bs p (s1 ++ s2) <-> placed prog bs p s1 /\ placed prog bs (p + size s1) s2.
Proof.
  intros Hp. unfold placed, size. split.
  - intros H. split; intros i x Hi.
    + apply H. by apply lookup_app_l_Some.
    + destruct (H (length s1 + i)%nat x) as (s & Hs & Hl).
      { by rewrite lookup_app_r, Nat.add_comm, Nat.add_sub by lia. }
      exists s. split; [done|]. by replace (Z.to_nat (p + Z.of_nat (length s1)) + i)%nat
        with (Z.to_nat p + (length s1 + i))%nat by lia.
  - intros [H1 H2] i x [Hi|[Hle Hi]]%lookup_app_Some; [auto|].
    destruct (H2 _ _ Hi) as (s & Hs & Hl). exists s. split; [done|].
    by replace (Z.to_nat p + i)%nat
      with (Z.to_nat (p + Z.of_nat (length s1)) + (i - length s1))%nat by lia.
Qed.

Lemma placed_cons prog bs p x seg :
  0 <= p -> placed prog bs p (x :: seg) <->
  (exists s, compile_instruction bs x = Ok s /\ at_ prog p s) /\ placed prog bs (p + 1) seg.
Proof.
  intros Hp. change (x :: seg) with ([x] ++ seg). rewrite placed_app by done.
  change (size [x]) with 1. apply and_iff_compat_r. unfold at_. split.
  - intros H. destruct (H O x eq_refl) as (s & Hs & Hl). exists s. by rewrite Nat.add_0_r in Hl.
  - intros (s & Hs & Hl) [|i] y Hi; [|done]. injection Hi as <-. exists s. by rewrite Nat.add_0_r.
Qed.

(** The guard number of an expression. *)
Definition index (c : Compiler) (text : string) : Z := default 0 (guard_index c !! text).

Definition same_plan (c c' : Compiler) : Prop :=
  c_sequences c' = c_sequences c /\ c_properties c' = c_properties c.

(** The expressions are in the table of guards. *)
Definition known (c : Compiler) (l : list string) : Prop := Forall (fun a => is_Some (guard_index c !! a)) l.

Lemma known_grows c c' l : grows c c' -> known c l -> known c' l.
Proof.
  intros G H. eapply Forall_impl; [exact H|]. intros a [k Hk]. exists k.
  eapply lookup_weaken; [exact Hk|apply G].
Qed.

Lemma known_app c l k : known c l -> known c k -> known c (l ++ k).
Proof. intros. by apply Forall_app. Qed.

(** What an emitter leaves alone, and the guards it adds. *)
Record extends (c c' : Compiler) (r : Seq string) : Prop := {
  ext_plan : same_plan c c';
  ext_known : known c' (atoms r);
}.

(** [emits bv f r e]: from [e], [f] appends the code of [r]. *)
Definition emits (bv : string -> Z) (f : Emitter -> Emitter) (r : Seq string) (e : Emitter) : Prop :=
  tables_ok e.1 -> 0 <= seq_counters e.2 ->
  exists seg d,
    tables_ok (f e).1 /\ grows e.1 (f e).1 /\ extends e.1 (f e).1 r /\
    (f e).2 = MkSequence (seq_code e.2 ++ seg) d /\ seq_counters e.2 <= d /\
    forall prog bs c, slots bv c bs -> grows (f e).1 c -> placed prog bs (here e) seg ->
      laid prog (seq_map (index c) r) (here e) (here e + size seg) (seq_counters e.2) d.

Lemma emits_then bv f1 f2 r1 r2 e :
  emits bv f1 r1 e -> emits bv f2 r2 (f1 e) -> emits bv (fun e => f2 (f1 e)) (s_then r1 r2) e.
Proof.
  intros E1 E2 Ht Hc. destruct (E1 Ht Hc) as (s1 & d1 & T1 & G1 & P1 & C1 & D1 & L1).
  destruct (E2 T1) as (s2 & d2 & T2 & G2 & P2 & C2 & D2 & L2); [by rewrite C1; cbn; lia|].
  rewrite C1 in C2, D2, L2. cbn [seq_code seq_counters] in *.
  exists (s1 ++ s2), d2. split; [done|]. split; [by eapply grows_trans|]. split.
  { destruct P1 as [[] K1], P2 as [[] K2]. split; [split; congruence|].
    apply known_app; [by eapply known_grows|done]. }
  split; [by rewrite C2, app_assoc|]. split; [lia|].
  intros prog bs c Hs G P. apply placed_app in P as [Pa Pb]; [|apply size_nonneg].
  assert (Hh : here (f1 e) = here e + size s1) by (unfold here; rewrite C1; cbn; apply size_app).
  cbn [laid seq_map]. exists (here e + size s1), d1. split.
  - apply (L1 prog bs); [done|by eapply grows_trans|done].
  - rewrite size_app, Z.add_assoc, <- Hh. apply (L2 prog bs); [done|done|by rewrite Hh].
Qed.

(** A check of a guard that is in the table. *)
Lemma emits_check bv text k e :
  guard_index e.1 !! text = Some k -> emits bv (push_check k) (s_bool text) e.
Proof.
  intros Hk Ht Hc. exists [instruction op_check k 0 0], (seq_counters e.2).
  split; [done|]. split; [apply grows_refl|]. split; [split; [done|]; by repeat constructor|].
  split; [done|]. split; [lia|].
  intros prog bs c Hs G P. apply placed_cons in P as [(s & Es & A) _]; [|apply size_nonneg].
  cbn in Es. injection Es as <-. cbn [laid seq_map]. unfold index.
  rewrite (lookup_weaken _ _ _ _ Hk (grows_guard_index _ _ G)). done.
Qed.

Lemma emits_boolean bv t e : emits bv (push_guard op_check t) (s_bool (spelling t)) e.
Proof.
  intros Ht Hc. unfold push_guard. destruct (compile_guard t e.1) as [k c'] eqn:E.
  destruct (compile_guard_spec _ _ _ _ Ht E) as (T & G & Hk).
  destruct (emits_check bv (spelling t) k (c', e.2) Hk T Hc) as (seg & d & T' & G' & P' & C' & D' & L').
  exists seg, d. split; [done|]. split; [by eapply grows_trans|]. split.
  { destruct P' as [_ K']. split; [|done].
    unfold compile_guard in E. by destruct (guard_index e.1 !! spelling t); injection E as <- <-. }
  done.
Qed.

(** Resolved bounds at the emitter. *)
Definition bounds_are (bv : string -> Z) (c : Compiler) (bl bh : Bound) (lo : Z) (hi : option Z) : Prop :=
  forall bs c', slots bv c' bs -> grows c c' -> resolve bl bs = Ok (Some lo) /\ resolve bh bs = Ok hi.

Lemma compile_ranged bs o a bl bh lo hi :
  resolve bl bs = Ok (Some lo) -> resolve bh bs = Ok hi ->
  compile_instruction bs (ranged o a bl bh) = Ok (MkStep o a 0 0 (Some lo) hi).
Proof. intros H1 H2. unfold compile_instruction. cbn. by rewrite H1, H2. Qed.

Lemma alter_middle {A} (f : A -> A) (l k : list A) x : alter f (length l) (l ++ x :: k) = l ++ f x :: k.
Proof. induction l as [|y l IH]; cbn; [done|]. by f_equal. Qed.

(** The code of a repetition around the code [seg] of its body. *)
Definition repeat_code (k head exit_ : Z) (bl bh : Bound) (seg : list Instruction) : list Instruction :=
  instruction op_counter_set k 0 0 :: set_b exit_ (ranged op_counter_branch k bl bh)
  :: seg ++ [ranged op_counter_increment k bl bh; instruction op_jump head 0 0].

Lemma emit_repeat_code bl bh body e seg d c' :
  let k := seq_counters e.2 in
  let eb := (e.1, MkSequence (seq_code e.2 ++ [instruction op_counter_set k 0 0; ranged op_counter_branch k bl bh]) (k + 1)) in
  body eb = (c', MkSequence (seq_code eb.2 ++ seg) d) ->
  emit_repeat bl bh body e =
    (c', MkSequence (seq_code e.2 ++ repeat_code k (here e + 1) (here e + 4 + size seg) bl bh seg) d).
Proof.
  cbn zeta. intros Hb. unfold emit_repeat, push, here in *. cbn [fst snd seq_code seq_counters] in *.
  assert (Happ : forall l x y, (l ++ [x]) ++ [y] = l ++ [x; y] :> list Instruction)
    by (intros; by rewrite <- app_assoc).
  rewrite (Happ (seq_code e.2) (instruction op_counter_set (seq_counters e.2) 0 0) (ranged op_counter_branch (seq_counters e.2) bl bh)), Hb. cbn [fst snd seq_code seq_counters].
  unfold edit. cbn [fst snd seq_code seq_counters]. f_equal. f_equal.
  replace (Z.to_nat (size (seq_code e.2 ++ [instruction op_counter_set (seq_counters e.2) 0 0])))
    with (length (seq_code e.2 ++ [instruction op_counter_set (seq_counters e.2) 0 0]))
    by (unfold size; lia).
  match goal with |- alter _ _ ?l = _ =>
    replace l with ((seq_code e.2 ++ [instruction op_counter_set (seq_counters e.2) 0 0])
      ++ ranged op_counter_branch (seq_counters e.2) bl bh ::
         seg ++ [ranged op_counter_increment (seq_counters e.2) bl bh;
                 instruction op_jump (size (seq_code e.2 ++ [instruction op_counter_set (seq_counters e.2) 0 0])) 0 0])
      by (by rewrite <- !app_assoc) end.
  rewrite alter_middle, <- app_assoc. unfold repeat_code. cbn [app].
  match goal with |- _ ++ _ :: set_b ?a _ :: _ ++ [_; instruction _ ?j _ _] =
                     _ ++ _ :: set_b ?b _ :: _ ++ [_; instruction _ ?i _ _] =>
    replace a with b; [replace j with i; [done|]|] end;
    rewrite <- ?app_assoc; unfold size; rewrite ?length_app; cbn [length]; rewrite ?length_app; cbn [length]; lia.
Qed.

Lemma emits_repeat bv bl bh lo hi body r e :
  bounds_are bv e.1 bl bh lo hi ->
  (forall eb, eb.1 = e.1 -> emits bv body r eb) ->
  emits bv (emit_repeat bl bh body) (s_repeat lo hi r) e.
Proof.
  intros Hb Hbody Ht Hc. set (k := seq_counters e.2).
  set (eb := (e.1, MkSequence (seq_code e.2 ++ [instruction op_counter_set k 0 0;
                                                 ranged op_counter_branch k bl bh]) (k + 1))).
  destruct (Hbody eb eq_refl Ht) as (seg & d & T & G & P & C & D & L); [cbn; lia|].
  destruct (body eb) as [c' sq] eqn:Eb. cbn [fst snd] in *. subst sq.
  rewrite (emit_repeat_code _ _ _ _ seg d c') by done. fold k. cbn [fst snd].
  exists (repeat_code k (here e + 1) (here e + 4 + size seg) bl bh seg), d.
  split; [done|]. split; [done|]. split; [by destruct P|]. split; [done|].
  split; [cbn in D; lia|]. intros prog bs c Hs Gc Hp.
  destruct (Hb bs c Hs) as [Hl Hh]; [by eapply grows_trans|].
  assert (Hn : 0 <= here e) by apply size_nonneg.
  unfold repeat_code in Hp. apply placed_cons in Hp as [(s1 & E1 & A1) Hp]; [|done].
  apply placed_cons in Hp as [(s2 & E2 & A2) Hp]; [|lia].
  apply placed_app in Hp as [Hseg Hp]; [|lia].
  apply placed_cons in Hp as [(s3 & E3 & A3) Hp]; [|pose proof (size_nonneg seg); lia].
  apply placed_cons in Hp as [(s4 & E4 & A4) _]; [|pose proof (size_nonneg seg); lia].
  cbn in E1, E4. injection E1 as <-. injection E4 as <-.
  rewrite (compile_ranged _ _ _ _ _ lo hi) in E3 by done. injection E3 as <-.
  unfold compile_instruction in E2. cbn in E2. rewrite Hl, Hh in E2. injection E2 as <-.
  assert (Heb : here eb = here e + 2) by (unfold here; cbn; rewrite size_app; done).
  unfold repeat_code. cbn [laid seq_map]. exists (here e + 2 + size seg).
  replace (here e + 1 + 1) with (here e + 2) in * by lia.
  assert (Hsz : forall x y, here e + size (x :: y :: seg ++ [ranged op_counter_increment k bl bh;
      instruction op_jump (here e + 1) 0 0]) = here e + 4 + size seg).
  { intros x y. unfold size. cbn [length]. rewrite length_app. cbn [length]. lia. }
  rewrite Hsz. split; [done|]. split; [done|]. split.
  - specialize (L prog bs c Hs Gc). rewrite Heb in L. cbn in L. by apply L.
  - split; [done|]. split; [done|]. lia.
Qed.

Lemma emits_weaken bv f r r' e :
  atoms r' = atoms r ->
  (forall prog g p q c d, laid prog (seq_map g r) p q c d -> laid prog (seq_map g r') p q c d) ->
  emits bv f r e -> emits bv f r' e.
Proof.
  intros Ha Hl E Ht Hc. destruct (E Ht Hc) as (seg & d & T & G & P & C & D & L).
  exists seg, d. split; [done|]. split; [done|]. split; [destruct P; split; [done|by rewrite Ha]|].
  repeat (split; [done|]). intros. by apply Hl, (L prog bs).
Qed.

(** Code emitted with tables that already grew. *)
Lemma emits_grown bv f r e c' :
  tables_ok c' -> grows e.1 c' -> same_plan e.1 c' -> emits bv f r (c', e.2) ->
  emits bv (fun e => f (c', e.2)) r e.
Proof.
  intros T' G' P' E Ht Hc. destruct (E T' Hc) as (seg & d & T & G & P & C & D & L).
  exists seg, d. split; [done|]. split; [by eapply grows_trans|]. split; [|done].
  destruct P as [[] K], P'. split; [split; cbn in *; congruence|done].
Qed.

Lemma compile_bound_plan b off c x c' : compile_bound b off c = (x, c') -> same_plan c c'.
Proof. unfold compile_bound. repeat case_match; by intros [= <- <-]. Qed.

Lemma compile_guard_plan t c k c' : compile_guard t c = (k, c') -> same_plan c c'.
Proof. unfold compile_guard. case_match; by intros [= <- <-]. Qed.

Lemma emits_ext bv f g r e : f e = g e -> emits bv g r e -> emits bv f r e.
Proof. intros H E Ht Hc. rewrite H. by apply E. Qed.

Lemma emits_bounds bv lo hi off l k r e :
  bound_value bv lo = Some l ->
  (forall bl bh c', tables_ok c' -> grows e.1 c' ->
     bounds_are bv c' bl bh (l + off) (shifted off (bound_value bv hi)) -> emits bv (k bl bh) r (c', e.2)) ->
  emits bv (with_bounds lo hi off k) r e.
Proof.
  intros Hlo Hk Ht Hc. unfold with_bounds.
  destruct (compile_bound lo off e.1) as [bl c1] eqn:E1.
  destruct (compile_bound hi off c1) as [bh c2] eqn:E2.
  destruct (compile_bound_spec bv _ _ _ _ _ Ht E1) as (T1 & G1 & R1).
  destruct (compile_bound_spec bv _ _ _ _ _ T1 E2) as (T2 & G2 & R2).
  assert (Hb : bounds_are bv c2 bl bh (l + off) (shifted off (bound_value bv hi))).
  { intros bs c' Hs G. split.
    - rewrite R1, Hlo; [done|]. eapply slots_grow; [|done]. by eapply grows_trans.
    - apply R2. by eapply slots_grow. }
  apply (emits_grown bv (k bl bh) r e c2); [done|by eapply grows_trans| | |done|done].
  - destruct (compile_bound_plan _ _ _ _ _ E1), (compile_bound_plan _ _ _ _ _ E2). split; congruence.
  - apply Hk; [done|by eapply grows_trans|done].
Qed.

Lemma plus_shifted hi : plus 1 (shifted (-1) hi) = hi.
Proof. destruct hi as [h|]; cbn; [|done]. f_equal. lia. Qed.

Lemma shifted_0 hi : shifted 0 hi = hi.
Proof. destruct hi as [h|]; cbn; [|done]. f_equal. lia. Qed.

(** A delay instruction before the code of [r]. *)
Lemma emits_lead bv bl bh lo hi f r e :
  bounds_are bv e.1 bl bh lo hi -> (forall eb, eb.1 = e.1 -> emits bv f r eb) ->
  emits bv (fun e => f (push (ranged op_delay 0 bl bh) e)) (s_lead (lo - 1) (shifted (-1) hi) r) e.
Proof.
  intros Hb Hf Ht Hc. set (eb := push (ranged op_delay 0 bl bh) e).
  destruct (Hf eb eq_refl Ht Hc) as (seg & d & T & G & P & C & D & L).
  exists (ranged op_delay 0 bl bh :: seg), d. split; [done|]. split; [done|]. split; [by destruct P|].
  split; [by rewrite C; cbn; rewrite <- app_assoc|]. split; [done|].
  intros prog bs c Hs Gc Hp. destruct (Hb bs c Hs) as [Hl Hh]; [by eapply grows_trans|].
  apply placed_cons in Hp as [(s1 & E1 & A1) Hp]; [|apply size_nonneg].
  rewrite (compile_ranged _ _ _ _ _ lo hi) in E1 by done. injection E1 as <-.
  cbn [laid seq_map]. rewrite plus_shifted. replace (lo - 1 + 1) with lo by lia. split; [done|].
  assert (Heb : here eb = here e + 1) by (unfold here, eb; cbn; by rewrite size_app).
  specialize (L prog bs c Hs Gc). rewrite Heb in L.
  replace (here e + size (_ :: seg)) with (here e + 1 + size seg) by (unfold size; cbn; lia).
  by apply L.
Qed.

(** Regions only count nesting. *)
Lemma emits_region bv f r e :
  (forall c', tables_ok c' -> emits bv f r (c', e.2)) -> emits bv (in_region f) r e.
Proof.
  intros E Ht Hc. unfold in_region. cbn [fst snd].
  set (c1 := set_clock_nested (clock_ e.1) (nested e.1 + 1) e.1).
  assert (T1 : tables_ok c1) by by apply tables_region.
  destruct (E c1 T1 T1 Hc) as (seg & d & T & G & P & C & D & L). cbn [fst snd] in *.
  exists seg, d. split; [by apply tables_region|]. split.
  { eapply grows_trans; [|apply grows_region]. eapply grows_trans; [apply grows_region|apply G]. }
  split; [by destruct P as [[] ?]|]. split; [done|]. split; [done|].
  intros prog bs c Hs Gc Hp. apply (L prog bs); [done| |done].
  eapply grows_trans; [|apply Gc]. apply grows_region.
Qed.

(** b[->n]: the loops around two checks. *)
Lemma emits_skip bv text k e :
  guard_index e.1 !! text = Some k ->
  emits bv (emit_repeat zero_bound forever_bound (push_check k)) (skip_until text) e.
Proof.
  intros Hk. apply emits_repeat; [by intros bs c' _ _|].
  intros eb Heb. apply emits_check. by rewrite Heb.
Qed.

Lemma emits_goto bv lo hi l t tail e :
  bound_value bv lo = Some l ->
  emits bv (emit_goto lo hi t tail)
    (if tail then s_then (goto l (bound_value bv hi) t) (skip_until (spelling (negated t)))
     else goto l (bound_value bv hi) t) e.
Proof.
  intros Hlo Ht Hc. unfold emit_goto.
  destruct (compile_guard t e.1) as [hit c1] eqn:E1.
  destruct (negated_guard t c1) as [miss c2] eqn:E2.
  destruct (compile_guard_spec _ _ _ _ Ht E1) as (T1 & G1 & K1).
  destruct (compile_guard_spec _ _ _ _ T1 E2) as (T2 & G2 & K2).
  assert (K1' : guard_index c2 !! spelling t = Some hit) by (eapply lookup_weaken; [done|apply G2]).
  set (skip := emit_repeat zero_bound forever_bound (push_check miss)).
  set (loop := with_bounds lo hi 0 (fun bl bh => emit_repeat bl bh (fun e => push_check hit (skip e)))).
  assert (Hloop : emits bv loop (goto l (bound_value bv hi) t) (c2, e.2)).
  { eapply emits_bounds; [done|]. intros bl bh c3 T3 G3 Hb.
    rewrite Z.add_0_r, shifted_0 in Hb. apply emits_repeat; [done|]. intros eb Heb. cbn in Heb.
    apply emits_then.
    - apply emits_skip. rewrite Heb. eapply lookup_weaken; [done|apply G3].
    - apply emits_check. apply (lookup_weaken (guard_index eb.1)).
      + rewrite Heb. eapply lookup_weaken; [done|apply G3].
      + unfold skip, emit_repeat, push, push_check, edit. done. }
  assert (Hall : emits bv (fun e => if tail then skip (loop e) else loop e)
    (if tail then s_then (goto l (bound_value bv hi) t) (skip_until (spelling (negated t)))
     else goto l (bound_value bv hi) t) (c2, e.2)).
  { destruct tail; [|done]. apply emits_then; [done|]. intros Tl Cl. apply emits_skip; [|done|done].
    destruct (Hloop T2 Hc) as (seg & d & _ & G & _). eapply lookup_weaken; [apply K2|apply G]. }
  assert (Hp : same_plan e.1 c2).
  { destruct (compile_guard_plan _ _ _ _ E1), (compile_guard_plan _ _ _ _ E2). split; congruence. }
  exact (emits_grown bv _ _ e c2 T2 (grows_trans _ _ _ G1 G2) Hp Hall Ht Hc).
Qed.

(** [or]: a fork around both operands, with a jump over the second. *)
Definition emit_or (f1 f2 : Emitter -> Emitter) (e : Emitter) : Emitter :=
  let fork := here e in
  let e := f1 (push (instruction op_fork 0 0 0) e) in
  let jump := here e in
  let e := push (instruction op_jump 0 0 0) e in
  let e := edit fork (set_a (here e)) e in
  let e := f2 e in
  edit jump (set_a (here e)) e.

Lemma edit_middle k f c pre x post d :
  k = size pre ->
  edit k f (c, MkSequence (pre ++ x :: post) d) = (c, MkSequence (pre ++ f x :: post) d).
Proof.
  intros ->. unfold edit. cbn [fst snd seq_code seq_counters].
  replace (Z.to_nat (size pre)) with (length pre) by (unfold size; lia). by rewrite alter_middle.
Qed.

Lemma emits_or bv f1 f2 r1 r2 e :
  (forall eb, emits bv f1 r1 eb) -> (forall eb, emits bv f2 r2 eb) ->
  emits bv (emit_or f1 f2) (s_or r1 r2) e.
Proof.
  intros F1 F2 Ht Hc. unfold emit_or.
  set (e1 := push (instruction op_fork 0 0 0) e).
  destruct (F1 e1 Ht Hc) as (s1 & d1 & T1 & G1 & P1 & C1 & D1 & L1).
  destruct (f1 e1) as [c1 q1] eqn:Ef1. cbn [fst snd] in *. subst q1.
  assert (Hn : 0 <= here e) by apply size_nonneg.
  assert (H1 : here e1 = here e + 1) by (unfold here, e1; cbn; by rewrite size_app).
  set (j := here (c1, MkSequence (seq_code e1.2 ++ s1) d1)).
  assert (Hj : j = here e + 1 + size s1)
    by (unfold j, here, e1; cbn; rewrite !size_app; unfold size; cbn [length]; lia).
  set (e2 := push (instruction op_jump 0 0 0) (c1, MkSequence (seq_code e1.2 ++ s1) d1)).
  assert (H2 : here e2 = j + 1)
    by (rewrite Hj; unfold here, e2, e1; cbn; rewrite !size_app; unfold size; cbn [length]; lia).
  rewrite H2.
  assert (E3 : edit (here e) (set_a (j + 1)) e2 =
    (c1, MkSequence (seq_code e.2 ++ instruction op_fork (j + 1) 0 0 :: s1 ++ [instruction op_jump 0 0 0]) d1)).
  { unfold e2, e1, push. cbn [fst snd seq_code seq_counters].
    rewrite <- !app_assoc. cbn [app]. by rewrite (edit_middle (here e)). }
  rewrite E3. set (e3 := (c1, MkSequence _ d1)).
  assert (H3 : here e3 = j + 1).
  { rewrite Hj. unfold here, e3. cbn. rewrite size_app. unfold size. cbn [length].
    rewrite length_app. cbn [length]. lia. }
  destruct (F2 e3 T1) as (s2 & d2 & T2 & G2 & P2 & C2 & D2 & L2); [cbn in D1 |- *; lia|].
  destruct (f2 e3) as [c2 q2] eqn:Ef2. cbn [fst snd] in *. subst q2.
  set (x := here (c2, MkSequence (seq_code e3.2 ++ s2) d2)).
  assert (Hx : x = j + 1 + size s2).
  { unfold x, here. cbn [snd seq_code]. rewrite size_app. unfold here in H3. lia. }
  assert (E4 : edit j (set_a x) (c2, MkSequence (seq_code e3.2 ++ s2) d2) =
    (c2, MkSequence (seq_code e.2 ++ (instruction op_fork (j + 1) 0 0 :: s1) ++ instruction op_jump x 0 0 :: s2) d2)).
  { unfold e3. cbn [fst snd seq_code seq_counters].
    replace ((seq_code e.2 ++ instruction op_fork (j + 1) 0 0 :: s1 ++ [instruction op_jump 0 0 0]) ++ s2)
      with ((seq_code e.2 ++ instruction op_fork (j + 1) 0 0 :: s1) ++ instruction op_jump 0 0 0 :: s2)
      by (rewrite <- !app_assoc; cbn; by rewrite <- app_assoc).
    rewrite edit_middle; [by rewrite <- app_assoc|].
    rewrite Hj, size_app. unfold here, size. cbn [length]. lia. }
  rewrite E4. cbn [fst snd]. eexists _, d2. split; [done|]. split; [by eapply grows_trans|].
  split.
  { destruct P1 as [[] K1], P2 as [[] K2]. split; [split; cbn in *; congruence|].
    apply known_app; [by eapply known_grows|done]. }
  split; [done|]. split; [cbn in D1, D2; lia|]. intros prog bs c Hs Gc Hp.
  apply placed_app in Hp as [Hp1 Hp2]; [|done].
  apply placed_cons in Hp1 as [(sa & Ea & A1) Hp1]; [|done]. cbn in Ea. injection Ea as <-.
  replace (here e + size (instruction op_fork (j + 1) 0 0 :: s1)) with j in Hp2
    by (rewrite Hj; unfold size; cbn [length]; lia).
  apply placed_cons in Hp2 as [(sb & Eb & A2) Hp2]; [|pose proof (size_nonneg s1); lia].
  cbn in Eb. injection Eb as <-. cbn [laid seq_map].
  replace (here e + size ((instruction op_fork (j + 1) 0 0 :: s1) ++ instruction op_jump x 0 0 :: s2)) with x
    by (rewrite Hx, Hj, size_app; unfold size; cbn [length]; lia).
  exists j, d1. split; [done|]. split; [|split; [done|]].
  - rewrite <- H1. replace j with (here e1 + size s1) by lia.
    apply (L1 prog bs); [done|by eapply grows_trans|by rewrite H1].
  - rewrite <- H3, Hx, <- H3. apply (L2 prog bs); [done|done|by rewrite H3].
Qed.

(** The emitter appends the code of the sequence a node denotes. *)
Lemma emit_correct bv n : forall r e, denote bv n = Some r -> emits bv (emit n) r e.
Proof.
  assert (Hdelay : forall off lo hi l f r e,
    bound_value bv lo = Some l -> (forall eb, emits bv f r eb) ->
    emits bv (fun e => f (with_bounds lo hi off (fun bl bh => push (ranged op_delay 0 bl bh)) e))
      (s_lead (l + off - 1) (shifted (-1) (shifted off (bound_value bv hi))) r) e).
  { intros off lo hi l f r e Hlo Hf.
    apply (emits_ext _ _ (with_bounds lo hi off (fun bl bh e => f (push (ranged op_delay 0 bl bh) e)))).
    { unfold with_bounds. repeat case_match. done. }
    eapply emits_bounds; [done|]. intros bl bh c' T G Hb. apply emits_lead; [done|]. intros. apply Hf. }
  induction n; intros r e Hd; cbn [denote] in Hd; try discriminate.
  - injection Hd as <-. apply emits_boolean.
  - destruct (bound_value bv lo) as [l|] eqn:El; [|done].
    destruct (denote bv n1) as [r1|] eqn:E1; [|done]. destruct (denote bv n2) as [r2|] eqn:E2; [|done].
    injection Hd as <-.
    apply (emits_weaken _ _ (s_then r1 (s_lead (l + 0 - 1) (shifted (-1) (shifted 0 (bound_value bv hi))) r2))); [done| |].
    { intros prog g p q c d. cbn [laid seq_map]. rewrite shifted_0, plus_shifted, Z.add_0_r.
      by replace (l - 1 + 1) with l by lia. }
    apply (emits_ext _ _ (fun e => emit n2 (with_bounds lo hi 0 (fun bl bh => push (ranged op_delay 0 bl bh)) (emit n1 e)))).
    { cbn [emit]. by destruct n2. }
    apply (emits_then bv (emit n1)
      (fun e => emit n2 (with_bounds lo hi 0 (fun bl bh => push (ranged op_delay 0 bl bh)) e)));
      [by apply IHn1|]. apply Hdelay; [done|]. intros. by apply IHn2.
  - destruct (bound_value bv lo) as [l|] eqn:El; [|done].
    destruct (denote bv n) as [r2|] eqn:E2; [|done]. injection Hd as <-.
    apply (emits_weaken _ _ (s_lead (l + 1 - 1) (shifted (-1) (shifted 1 (bound_value bv hi))) r2)); [done| |].
    { intros prog g p q c d. cbn [laid seq_map]. rewrite plus_shifted.
      by replace (l + 1 - 1 + 1) with (l + 1) by lia. }
    apply (emits_ext _ _ (fun e => emit n (with_bounds lo hi 1 (fun bl bh => push (ranged op_delay 0 bl bh)) e))).
    { cbn [emit]. by destruct n. }
    apply Hdelay; [done|]. intros. by apply IHn.
  - destruct (bound_value bv lo) as [l|] eqn:El; [|done].
    destruct (denote bv n) as [r2|] eqn:E2; [|done]. injection Hd as <-.
    apply emits_region. intros c1 T1. eapply emits_bounds; [done|]. intros bl bh c' T G Hb.
    rewrite Z.add_0_r, shifted_0 in Hb. apply emits_repeat; [done|]. intros. by apply IHn.
  - destruct (bound_value bv lo) as [l|] eqn:El; [|done]. injection Hd as <-.
    apply emits_region. intros c1 T1. by apply (emits_goto bv lo hi l _ false).
  - destruct (bound_value bv lo) as [l|] eqn:El; [|done]. injection Hd as <-.
    apply emits_region. intros c1 T1. by apply (emits_goto bv lo hi l _ true).
  - destruct (denote bv n1) as [r1|] eqn:E1; [|done]. destruct (denote bv n2) as [r2|] eqn:E2; [|done].
    injection Hd as <-. apply emits_region. intros c1 T1.
    apply emits_or; intros; [by apply IHn1|by apply IHn2].
Qed.

(** ** Matchers of compiled sequences

    From the code the compiler emits to the ticks at which a matcher reports a
    match: the resolved program of a compiled sequence is the layout of the
    sequence ([sequence_program]), and a matcher stepped once per tick reports
    exactly the matches of the sequence ([tracks_step], [tracks_hit]). *)

(** ** The program of a compiled sequence *)

Lemma collect_lookup {A B} (f : A -> Outcome B) l k i :
  collect f l = Ok k ->
  match l !! i with
  | Some a => exists b, f a = Ok b /\ k !! i = Some b
  | None => k !! i = None
  end.
Proof.
  revert k i. induction l as [|a l IH]; intros k i; cbn.
  - by intros [= <-].
  - destruct (f a) as [b|] eqn:Ef; [|done]. cbn.
    destruct (collect f l) as [k'|] eqn:Ec; [|done]. cbn. intros [= <-].
    destruct i as [|i]; cbn; [eauto|]. by apply IH.
Qed.

Lemma collect_length {A B} (f : A -> Outcome B) l k : collect f l = Ok k -> length k = length l.
Proof.
  revert k. induction l as [|a l IH]; intros k; cbn; [by intros [= <-]|].
  destruct (f a); [|done]. cbn. destruct (collect f l); [|done]. cbn. intros [= <-].
  cbn. f_equal. by apply IH.
Qed.

Lemma collect_placed bs l prog : collect (compile_instruction bs) l = Ok prog -> placed prog bs 0 l.
Proof.
  intros H i x Hi. pose proof (collect_lookup _ _ _ i H) as Hl. rewrite Hi in Hl.
  destruct Hl as (s & Hs & Hk). eauto.
Qed.

(** Every instruction of a layout is plain. *)
Lemma laid_plain prog r p q c d k :
  regular r = true -> laid prog r p q c d -> 0 <= p -> p <= k < q ->
  exists s, at_ prog k s /\ plain_step s.
Proof.
  assert (Hsimple : forall s, at_ prog k s -> plain_op (step_op s) = true -> step_op s <> op_delay ->
      (step_op s = op_fork \/ step_op s = op_jump -> 0 <= step_a s) ->
      (step_op s = op_counter_branch -> 0 <= step_b s) -> exists s, at_ prog k s /\ plain_step s).
  { intros s A H1 H2 H3 H4. exists s. split; [done|]. by split. }
  revert p q c d. induction r as [g|r1 IH1 r2 IH2|lo hi r1 IH1 r2 IH2|lo hi r IH|lo hi r IH|r1 IH1 r2 IH2];
    cbn [regular laid]; intros p q c d Hr;
    repeat match goal with H : _ && _ = true |- _ => apply andb_prop in H as [? ?] end.
  - intros (A & -> & ->) Hp Hk. assert (k = p) as -> by lia. eapply Hsimple; [done..| |]; cbn; naive_solver.
  - intros (m & c1 & L1 & L2) Hp Hk. destruct (laid_counters _ _ _ _ _ _ L1).
    destruct (decide (k < m)); [eapply IH1|eapply IH2]; eauto; lia.
  - intros (m & c1 & L1 & A & L2) Hp Hk. destruct (laid_counters _ _ _ _ _ _ L1).
    destruct (decide (k < m)); [eapply IH1; eauto; lia|].
    destruct (decide (k = m)) as [->|]; [|eapply IH2; eauto; lia].
    eexists. split; [done|]. split; [done|]. split; [|cbn; naive_solver].
    intros _. exists lo. split; [done|]. cbn.
    match goal with H : range_ok _ _ = true |- _ => apply andb_prop in H as [_ ?] end.
    intros h ->. lia.
  - intros (A & L) Hp Hk.
    destruct (decide (k = p)) as [->|]; [|eapply IH; eauto; lia].
    eexists. split; [done|]. split; [done|]. split; [|cbn; naive_solver].
    intros _. exists (lo + 1). split; [done|]. cbn.
    match goal with H : range_ok _ _ = true |- _ => apply andb_prop in H as [_ ?] end.
    intros h Hh. destruct hi as [h0|]; [|done]. injection Hh as <-. lia.
  - intros (m & A & A0 & L & A1 & A2 & ->) Hp Hk. destruct (laid_counters _ _ _ _ _ _ L).
    destruct (decide (k = p)) as [->|]; [by eapply Hsimple; [done..| |]; cbn; naive_solver|].
    destruct (decide (k = p + 1)) as [->|]; [eapply Hsimple; [done..| |]; cbn; [naive_solver|lia]|].
    destruct (decide (k = m)) as [->|]; [by eapply Hsimple; [done..| |]; cbn; naive_solver|].
    destruct (decide (k = m + 1)) as [->|]; [eapply Hsimple; [done..| |]; cbn; [lia|naive_solver]|].
    eapply IH; eauto; lia.
  - intros (m & c1 & A & L1 & A1 & L2) Hp Hk. destruct (laid_counters _ _ _ _ _ _ L1).
    destruct (laid_counters _ _ _ _ _ _ L2).
    destruct (decide (k = p)) as [->|]; [eapply Hsimple; [done..| |]; cbn; [lia|naive_solver]|].
    destruct (decide (k = m)) as [->|]; [eapply Hsimple; [done..| |]; cbn; [lia|naive_solver]|].
    destruct (decide (k < m)); [eapply IH1|eapply IH2]; eauto; lia.
Qed.

(** A program that is the code of a sequence and [match], and nothing else. *)
Definition runs (prog : list Step) (r : Seq Z) (counters_ : Z) : Prop :=
  exists q, size prog = q + 1 /\ laid prog r 0 q 0 counters_ /\
    at_ prog q (MkStep op_match 0 0 0 (Some 0) (Some 0)).

Lemma runs_plain prog r n : regular r = true -> runs prog r n -> plain_program prog.
Proof.
  intros Hr (q & Hq & L & A). apply Forall_lookup. intros i s Hi.
  apply lookup_lt_Some in Hi as Hlt. unfold size in Hq.
  destruct (decide (Z.of_nat i = q)) as [<-|].
  - unfold at_ in A. rewrite Nat2Z.id, Hi in A. injection A as ->. split; cbn; naive_solver.
  - destruct (laid_plain prog r 0 q 0 n (Z.of_nat i) Hr L) as (s' & A' & P); [lia|lia|].
    unfold at_ in A'. rewrite Nat2Z.id, Hi in A'. by injection A' as ->.
Qed.

(** [slots] of a compiler says that [bs] holds the values of its bounds. *)
Definition bound_values (bv : string -> Z) (c : Compiler) : list Z :=
  map (fun t => bv (spelling t)) (c_bounds c).

Lemma bound_values_slots bv c : tables_ok c -> slots bv c (bound_values bv c).
Proof.
  intros [_ H] text k Hk. destruct (H _ _ Hk) as (Hp & t & Ht & <-). split; [|done].
  unfold bound_values. by rewrite list_lookup_fmap, Ht.
Qed.

(** The compiled code of a node, resolved, runs the sequence it denotes. *)
Lemma sequence_program bv n r c0 k c1 :
  denote bv n = Some r -> tables_ok c0 -> compile_sequence_node n c0 = (k, c1) ->
  tables_ok c1 /\ grows c0 c1 /\ known c1 (atoms r) /\
  k = size (c_sequences c0) /\ c_properties c1 = c_properties c0 /\
  exists sq, c_sequences c1 = c_sequences c0 ++ [sq] /\
    forall c bs cs, grows c1 c -> slots bv c bs -> compile_sequence bs sq = Ok cs ->
      runs (code cs) (seq_map (index c) r) (counter_count cs).
Proof.
  intros Hd T. unfold compile_sequence_node.
  set (e0 := (set_clock_nested 0 (nested c0) c0, MkSequence [] 0)).
  destruct (emit_correct bv n r e0 Hd) as (seg & d & T1 & G1 & P1 & C1 & D1 & L1);
    [by apply tables_region|done|].
  destruct (emit n e0) as [c' q'] eqn:Ee. cbn [fst snd] in *. subst q'.
  unfold push, add_sequence. cbn [fst snd seq_code seq_counters]. intros [= <- <-].
  destruct P1 as [[Ps Pp] Pk]. cbn in Ps, Pp.
  split; [destruct T1; by split|]. split.
  { destruct G1. by split. }
  split; [done|]. split; [by rewrite Ps|]. split; [done|].
  eexists. split; [by cbn; rewrite Ps|]. intros c bs cs Gc Hs Hcs.
  unfold compile_sequence, e0 in Hcs. cbn [seq_code seq_counters snd app] in Hcs.
  destruct (collect (compile_instruction bs) (seg ++ [instruction op_match 0 0 0])) as [prog|] eqn:Ec; [|done].
  cbn in Hcs. injection Hcs as <-. cbn [code counter_count].
  pose proof (collect_length _ _ _ Ec) as Hlen. apply collect_placed in Ec.
  apply placed_app in Ec as [Ec Em]; [|done].
  apply placed_cons in Em as [(s & Es & A) _]; [|pose proof (size_nonneg seg); lia].
  cbn in Es. injection Es as <-. exists (size seg). split; [|split].
  - unfold size. rewrite Hlen, length_app. cbn. lia.
  - apply (L1 prog bs c Hs); [|done]. destruct Gc. by split.
  - done.
Qed.

(** ** Tracking the matches of a sequence *)

(** The matcher [m], ready for tick [n], has exactly the matches from [s] on that
    end at [n] or later. *)
Definition tracks (prog : list Step) (val : Z -> Z -> bool) (counters_ s : Z) (m : Matcher) (n : Z) : Prop :=
  matcher_ok prog m /\
  forall e, n <= e ->
    (exists t, t ∈ threads m /\ reaches prog val n t e) <->
    (exists k, reach prog val k s 0 s (replicate (Z.to_nat counters_) 0) e).

Lemma tracks_new cs val s : tracks (code cs) val (counter_count cs) s (matcher_new cs s) s.
Proof.
  split; [apply matcher_new_ok|]. intros e He. split.
  - intros (t & Ht & k & d & [H1 H2] & R). apply list_elem_of_singleton in Ht as ->.
    cbn in *. specialize (H2 _ eq_refl). assert (d = s) as -> by lia. eauto.
  - intros [k R]. eexists. split; [by apply list_elem_of_singleton|].
    exists k, s. split; [|done]. split; cbn; [lia|]. intros h [= <-]. lia.
Qed.

Section Track.
Context (prog : list Step) (val : Z -> Z -> bool) (r : Seq Z) (counters_ s : Z).
Context (Hr : regular r = true) (Hrun : runs prog r counters_).

#[local] Set Default Proof Using "All".

Lemma tracks_step fuel p m n hit m' :
  multiclocked p = false -> (forall k, guard p k = val n k) ->
  tracks prog val counters_ s m n -> matcher_step fuel p m n = Returns (hit, m') ->
  tracks prog val counters_ s m' (n + 1).
Proof.
  intros Hc Hv [Hm Ht] Hs.
  destruct (step_exact fuel prog val p m n hit m' Hc Hv (runs_plain _ _ _ Hr Hrun) Hm Hs) as (H1 & _ & H3).
  split; [done|]. intros e He. rewrite <- H3 by lia. apply Ht. lia.
Qed.

Lemma reach_tight e :
  (exists k, reach prog val k s 0 s (replicate (Z.to_nat counters_) 0) e) <->
  (s <= e /\ tight val r s (e + 1)).
Proof.
  destruct Hrun as (q & _ & L & A). apply program_correct; [done|]. by exists q.
Qed.

(** A step at tick [n] reports a match exactly when the sequence matches the
    ticks [s .. n]. *)
Lemma tracks_hit fuel p m n hit m' :
  multiclocked p = false -> (forall k, guard p k = val n k) -> s <= n ->
  tracks prog val counters_ s m n -> matcher_step fuel p m n = Returns (hit, m') ->
  hit = true <-> tight val r s (n + 1).
Proof.
  intros Hc Hv Hn [Hm Ht] Hs.
  destruct (step_exact fuel prog val p m n hit m' Hc Hv (runs_plain _ _ _ Hr Hrun) Hm Hs) as (_ & H2 & _).
  rewrite H2, Ht, reach_tight by lia. tauto.
Qed.

(** A matcher without threads has no match left. *)
Lemma tracks_dead m n e :
  s <= n <= e -> tracks prog val counters_ s m n -> dead m = true -> ~ tight val r s (e + 1).
Proof.
  intros Hn [_ Ht] Hd Hti. unfold dead in Hd. apply bool_decide_eq_true in Hd.
  destruct (proj2 (Ht e ltac:(lia))) as (t & Hin & _).
  - apply reach_tight. split; [lia|done].
  - rewrite Hd in Hin. by apply not_elem_of_nil in Hin.
Qed.
End Track.
