(* ===== verification/SvaTermination.v ===== *)
(** * A matcher step ends

    On the code of a [regular] sequence the threads a step explores form a finite
    tree: a thread that checked a boolean at the current tick is due later, and a
    later thread stops at the next boolean, which every unbounded repetition
    passes.  So with enough fuel [matcher_step] returns, or throws because of
    the limit on threads. *)
From stdpp Require Import gmap.
From S2P Require Import Prelude SvaPlan SvaMatcher SvaReach SvaStep SvaSequence SvaEmit.
From stdpp Require Import options.

Lemma checks_or_bounded (r : Seq Z) (hi : option Z) :
  checks r || bool_decide (hi <> None) = true -> checks r = true \/ hi <> None.
Proof. intros [H|H]%orb_prop; [by left|right]. by apply bool_decide_eq_true in H. Qed.

Lemma delay_ok (r1 r2 : Seq Z) lo :
  (1 <=? lo) || nonempty r1 && nonempty r2 = true ->
  1 <= lo \/ nonempty r1 = true /\ nonempty r2 = true.
Proof. intros [H|H]%orb_prop; [left; lia|right]. by apply andb_prop. Qed.

Section Finite.
Context (prog : list Step) (val : Z -> Z -> bool) (n : Z).

(** ** Threads with a finite exploration *)

Inductive fin : Thread -> Prop :=
  | fin_intro t :
      (forall s u, prog !! Z.to_nat (pc t) = Some s -> u ∈ succs val n s t -> fin u) -> fin t.

Lemma fin_at t s : at_ prog (pc t) s -> (forall u, u ∈ succs val n s t -> fin u) -> fin t.
Proof.
  intros A H. constructor. intros s' u Hs. unfold at_ in A. rewrite A in Hs.
  injection Hs as <-. apply H.
Qed.

(** How the first due tick moves through the code of a sequence: a boolean was
    checked now, or none was and the tick moved by the delays passed. *)
Definition exits (r : Seq Z) (x y : Z) : Prop :=
  (x <= n /\ n < y) \/ (checks r = false /\ x + Z.b2z (nonempty r) <= y).

(** Threads at the start of the code, provided those that leave it are finite. *)
Definition through (r : Seq Z) : Prop :=
  forall p q c d t, laid prog r p q c d -> 0 <= c -> d <= size (counters t) -> pc t = p ->
    (forall u, pc u = q -> same_outside c d (counters t) (counters u) ->
       exits r (due_lo t) (due_lo u) -> fin u) -> fin t.

(** Threads anywhere in the code. *)
Definition inside (r : Seq Z) : Prop :=
  forall p q c d t, laid prog r p q c d -> 0 <= p -> 0 <= c -> d <= size (counters t) ->
    p <= pc t < q ->
    (forall u, pc u = q -> size (counters u) = size (counters t) -> fin u) -> fin t.

(** One instruction of a thread whose position is known. *)
Ltac fin_step A :=
  eapply fin_at;
  [ first [ match goal with H : pc ?t = _ |- at_ _ (pc ?t) _ => rewrite H; exact A end | exact A ]
  | let u := fresh "u" in let Hu := fresh "Hu" in intros u Hu; unfold succs in Hu;
    cbn [step_op step_a step_b step_c step_lo step_hi] in Hu ].
Ltac sole Hu := apply list_elem_of_singleton in Hu as ->.

Lemma through_bool g : through (s_bool g).
Proof.
  intros p q c d t (A & -> & ->) Hc Hd Hp K. fin_step A.
  destruct (ends_before (due_hi t) n), (n <? due_lo t) eqn:E, (val n g); cbn in Hu;
    rewrite ?list_elem_of_singleton in Hu; try (by apply not_elem_of_nil in Hu). subst u.
  apply K; cbn; [lia|done|]. left. lia.
Qed.

Lemma through_then r1 r2 : through r1 -> through r2 -> through (s_then r1 r2).
Proof.
  intros T1 T2 p q c d t (m & c1 & L1 & L2) Hc Hd Hp K.
  destruct (laid_counters _ _ _ _ _ _ L1) as [? _]. destruct (laid_counters _ _ _ _ _ _ L2) as [? _].
  eapply (T1 _ _ _ _ t L1); [done|lia|done|]. intros u1 Hu1 S1 X1.
  eapply (T2 _ _ _ _ u1 L2); [lia|rewrite (same_outside_size _ _ _ _ S1); lia|done|]. intros u2 Hu2 S2 X2.
  apply K; [done|by eapply (same_outside_trans c c1 c1 d); [lia..| |]|].
  revert X1 X2. unfold exits. cbn [checks nonempty].
  destruct (checks r1), (checks r2), (nonempty r1), (nonempty r2); cbn [orb Z.b2z]; lia.
Qed.

Lemma through_delay lo hi r1 r2 :
  0 <= lo -> 1 <= lo \/ nonempty r1 = true /\ nonempty r2 = true ->
  through r1 -> through r2 -> through (s_delay lo hi r1 r2).
Proof.
  intros Hlo Hz T1 T2 p q c d t (m & c1 & L1 & A & L2) Hc Hd Hp K.
  destruct (laid_counters _ _ _ _ _ _ L1) as [? _]. destruct (laid_counters _ _ _ _ _ _ L2) as [? _].
  eapply (T1 _ _ _ _ t L1); [done|lia|done|]. intros u1 Hu1 S1 X1. fin_step A. sole Hu.
  eapply (T2 _ _ _ _ _ L2); [lia| |cbn; lia|].
  { cbn. rewrite (same_outside_size _ _ _ _ S1). lia. }
  intros u2 Hu2 S2 X2. cbn in S2, X2.
  apply K; [done|by eapply (same_outside_trans c c1 c1 d); [lia..| |]|].
  revert X1 X2. unfold exits. cbn [checks nonempty].
  destruct Hz as [Hz|[-> ->]], (2 <=? lo) eqn:E;
    try destruct (nonempty r1); try destruct (nonempty r2);
    destruct (checks r1), (checks r2); cbn [orb Z.b2z]; lia.
Qed.

Lemma through_lead lo hi r : 0 <= lo -> through r -> through (s_lead lo hi r).
Proof.
  intros Hlo T p q c d t (A & L) Hc Hd Hp K. fin_step A. sole Hu.
  eapply (T _ _ _ _ _ L); [done|done|cbn; lia|]. intros u Hu S X. cbn in S, X.
  apply K; [done|done|]. revert X. unfold exits. cbn [checks nonempty].
  destruct (checks r), (nonempty r), (1 <=? lo) eqn:E; cbn [orb Z.b2z]; lia.
Qed.

Lemma through_or r1 r2 : through r1 -> through r2 -> through (s_or r1 r2).
Proof.
  intros T1 T2 p q c d t (m & c1 & A & L1 & A2 & L2) Hc Hd Hp K.
  destruct (laid_counters _ _ _ _ _ _ L1) as [? _]. destruct (laid_counters _ _ _ _ _ _ L2) as [? _].
  fin_step A. apply elem_of_cons in Hu as [->|Hu]; [|sole Hu].
  - eapply (T1 _ _ _ _ _ L1); [done|cbn; lia|cbn; lia|]. intros u1 Hu1 S1 X1. cbn in S1, X1.
    fin_step A2. sole Hu. apply K; [done|cbn; by eapply (same_outside_trans c c1 c c1); [lia..| |]|].
    revert X1. unfold exits. cbn [checks nonempty due_lo with_pc].
    destruct (checks r1), (checks r2), (nonempty r1), (nonempty r2); cbn [andb Z.b2z]; lia.
  - eapply (T2 _ _ _ _ _ L2); [lia|done|done|]. intros u1 Hu1 S1 X1. cbn in S1, X1.
    apply K; [done|by eapply (same_outside_trans c1 d c1 d); [lia..| |]|].
    revert X1. unfold exits. cbn [checks nonempty].
    destruct (checks r1), (checks r2), (nonempty r1), (nonempty r2); cbn [andb Z.b2z]; lia.
Qed.

(** ** Repetition *)

Section Loop.
Context (lo : Z) (hi : option Z) (r : Seq Z) (p m c d : Z).
Context (A0 : at_ prog (p + 1) (MkStep op_counter_branch c (m + 2) 0 (Some lo) hi)).
Context (L : laid prog r (p + 2) m (c + 1) d).
Context (A1 : at_ prog m (MkStep op_counter_increment c 0 0 (Some lo) hi)).
Context (A2 : at_ prog (m + 1) (MkStep op_jump (p + 1) 0 0 (Some 0) (Some 0))).
Context (Hc : 0 <= c) (T : through r) (cs : list Z) (Hd : d <= size cs).

(** [I v x]: an invariant of the counter and the first due tick at the head. *)
Context (I : Z -> Z -> Prop).
Context (Hkeep : forall v x y, I v x -> exits r x y -> I (counted lo hi v) y).
Context (Hleave : forall u v, pc u = m + 2 -> same_outside c d cs (counters u) ->
  lo <= v -> I v (due_lo u) -> fin u).

#[local] Set Default Proof Using "All".

(** The head, when the threads that come back from the body are finite. *)
Lemma head_fin t :
  pc t = p + 1 -> same_outside c d cs (counters t) -> I (word_at (counters t) c) (due_lo t) ->
  (forall u, (forall h, hi = Some h -> word_at (counters t) c < h) ->
     pc u = p + 1 -> same_outside c d cs (counters u) ->
     word_at (counters u) c = counted lo hi (word_at (counters t) c) ->
     I (word_at (counters u) c) (due_lo u) -> exits r (due_lo t) (due_lo u) -> fin u) ->
  fin t.
Proof.
  intros Hp S HI K. destruct (laid_counters _ _ _ _ _ _ L) as [Hcd _].
  fin_step A0. apply elem_of_app in Hu as [Hu|Hu].
  - destruct (ends_after hi (counter t c)) eqn:E; [sole Hu|by apply not_elem_of_nil in Hu].
    pose proof (proj1 (ends_after_spec _ _) E) as Hlt. unfold counter in Hlt. clear E.
    eapply (T _ _ _ _ _ L); [lia| |cbn; lia|].
    { cbn. rewrite (same_outside_size _ _ _ _ S). done. }
    intros u1 Hu1 S1 X1. cbn in S1, X1.
    assert (Hw : word_at (counters u1) c = word_at (counters t) c) by (apply S1; lia).
    pose proof (same_outside_size _ _ _ _ S) as Hs. pose proof (same_outside_size _ _ _ _ S1) as Hs1.
    fin_step A1. sole Hu. unfold set_counter, counter. rewrite Hw. cbn [number from_option id].
    fold (counted lo hi (word_at (counters t) c)).
    eapply fin_at; [cbn; rewrite Hu1; exact A2|]. intros u Hu. unfold succs in Hu. cbn in Hu. sole Hu.
    apply K; cbn [pc counters due_lo advance with_pc with_counters].
    + done.
    + done.
    + eapply (same_outside_trans c d c d c d cs (counters u1)); [lia..| |].
      * eapply (same_outside_trans c d (c + 1) d); [lia..|done|done].
      * apply same_outside_set; lia.
    + apply counter_set_same. lia.
    + rewrite counter_set_same by lia. by eapply Hkeep.
    + done.
  - destruct (number (Some lo) <=? counter t c) eqn:E; [sole Hu|by apply not_elem_of_nil in Hu].
    apply (Hleave _ (word_at (counters t) c)); [done|done| |done].
    unfold counter in E. cbn in E. lia.
Qed.

Lemma loop_fin t :
  checks r = true \/ hi <> None ->
  pc t = p + 1 -> same_outside c d cs (counters t) -> I (word_at (counters t) c) (due_lo t) -> fin t.
Proof.
  intros [Hch|Hhi].
  - assert (Hlate : forall t, n < due_lo t -> pc t = p + 1 -> same_outside c d cs (counters t) ->
        I (word_at (counters t) c) (due_lo t) -> fin t).
    { intros t' Hn Hp S HI. apply head_fin; [done|done|done|].
      intros u _ _ _ _ _ X. unfold exits in X. rewrite Hch in X. exfalso.
        destruct X as [X|[X _]]; [lia|done]. }
    intros Hp S HI. apply head_fin; [done|done|done|].
    intros u _ Hp' S' _ HI' X. apply Hlate; [|done|done|done].
      unfold exits in X. rewrite Hch in X. destruct X as [X|[X _]]; [lia|done].
  - assert (exists h, hi = Some h) as [h Eh] by (destruct hi; [eauto|done]).
    remember (Z.to_nat (h - word_at (counters t) c)) as k eqn:Ek.
    revert t Ek. induction (lt_wf k) as [k _ IH]. intros t Ek Hp S HI.
    apply head_fin; [done|done|done|].
    intros u Hlt Hp' S' Hw HI' _. specialize (Hlt _ Eh). unfold counted in Hw. rewrite Eh in Hw.
    eapply (IH (Z.to_nat (h - word_at (counters u) c))); [|done|done|done|done].
    rewrite Hw. lia.
Qed.
End Loop.

Lemma through_repeat lo hi r :
  range_ok lo hi = true -> checks r = true \/ hi <> None -> through r -> through (s_repeat lo hi r).
Proof.
  intros Hb Hch T p q c d t (m & A & A0 & L & A1 & A2 & ->) Hc Hd Hp K.
  apply andb_prop in Hb as [Hlo _]. destruct (laid_counters _ _ _ _ _ _ L) as [Hcd _].
  fin_step A. sole Hu.
  set (x := due_lo t).
  apply (loop_fin lo hi r p m c d A0 L A1 A2 Hc T (counters t) Hd
    (fun v y => (v <= 0 /\ y = x) \/ (x <= n /\ n < y) \/
                (checks r = false /\ x + Z.b2z (nonempty r) <= y))).
  - intros v y z HI X. revert HI X. unfold exits. destruct (checks r), (nonempty r); cbn [Z.b2z]; lia.
  - intros u v Hu S Hv HI. apply K; [done|done|]. revert HI. unfold exits. cbn [checks nonempty].
    fold x. destruct (checks r), (nonempty r), (1 <=? lo) eqn:E; cbn [andb Z.b2z]; lia.
  - done.
  - cbn. lia.
  - cbn. apply same_outside_set; lia.
  - left. cbn [pc counters due_lo advance with_pc with_counters set_counter].
    rewrite counter_set_same by lia. done.
Qed.

Lemma code_through r : regular r = true -> through r.
Proof.
  induction r as [g|r1 IH1 r2 IH2|lo hi r1 IH1 r2 IH2|lo hi r IH|lo hi r IH|r1 IH1 r2 IH2];
    cbn [regular]; intros Hr; repeat match goal with H : _ && _ = true |- _ => apply andb_prop in H as [? ?] end.
  - apply through_bool.
  - apply through_then; auto.
  - apply through_delay; auto using delay_ok. unfold range_ok in *. lia.
  - apply through_lead; auto. unfold range_ok in *. lia.
  - apply through_repeat; auto using checks_or_bounded.
  - apply through_or; auto.
Qed.

(** ** Threads anywhere in the code *)

Lemma code_inside r : regular r = true -> inside r.
Proof.
  induction r as [g|r1 IH1 r2 IH2|lo hi r1 IH1 r2 IH2|lo hi r IH|lo hi r IH|r1 IH1 r2 IH2];
    intros Hr; pose proof (code_through _ Hr) as T; cbn [regular] in *;
    repeat match goal with H : _ && _ = true |- _ => apply andb_prop in H as [? ?] end;
    intros p q c d t Lr Hp0 Hc Hd Hp K;
    destruct (decide (pc t = p)) as [Ep|Ep];
    try (eapply (T _ _ _ _ _ Lr); [done|done|done|]; intros u Hu S _; apply K; [done|];
         by eapply same_outside_size).
  - destruct Lr as (A & -> & ->). lia.
  - destruct Lr as (m & c1 & L1 & L2).
    destruct (laid_counters _ _ _ _ _ _ L1) as [? ?]. destruct (laid_counters _ _ _ _ _ _ L2) as [? ?].
    assert (Hright : forall u, m <= pc u < q -> size (counters u) = size (counters t) -> fin u).
    { intros u Hu Hs. eapply (IH2 ltac:(done) _ _ _ _ u L2); [lia|lia|lia|lia|].
      intros v Hv Hsv. apply K; [done|lia]. }
    destruct (decide (pc t < m)); [|apply Hright; [lia|done]].
    eapply (IH1 ltac:(done) _ _ _ _ t L1); [lia|lia|lia|lia|]. intros u Hu Hs. apply Hright; [lia|done].
  - destruct Lr as (m & c1 & L1 & A & L2).
    destruct (laid_counters _ _ _ _ _ _ L1) as [? ?]. destruct (laid_counters _ _ _ _ _ _ L2) as [? ?].
    assert (Hright : forall u, m + 1 <= pc u < q -> size (counters u) = size (counters t) -> fin u).
    { intros u Hu Hs. eapply (IH2 ltac:(done) _ _ _ _ u L2); [lia|lia|lia|lia|].
      intros v Hv Hsv. apply K; [done|lia]. }
    assert (Hmid : forall u, pc u = m -> size (counters u) = size (counters t) -> fin u).
    { intros u Hu Hs. fin_step A. sole Hu0. apply Hright; [cbn; lia|done]. }
    destruct (decide (pc t < m)).
    + eapply (IH1 ltac:(done) _ _ _ _ t L1); [lia|lia|lia|lia|]. intros u Hu Hs. by apply Hmid.
    + destruct (decide (pc t = m)); [by apply Hmid|]. apply Hright; [lia|done].
  - destruct Lr as (A & L). eapply (IH ltac:(done) _ _ _ _ t L); [lia|lia|lia|lia|done].
  - destruct Lr as (m & A & A0 & L & A1 & A2 & ->). destruct (laid_counters _ _ _ _ _ _ L) as [? ?].
    assert (Hh : forall u, pc u = p + 1 -> size (counters u) = size (counters t) -> fin u).
    { intros u Hu Hs.
      apply (loop_fin lo hi r p m c d A0 L A1 A2 Hc (code_through r ltac:(done)) (counters u)
               ltac:(lia) (fun _ _ => True)); [done| | |done|done|done].
      - intros v w Hv S _ _. apply K; [done|]. rewrite <- Hs. by eapply same_outside_size.
      - by apply checks_or_bounded. }
    assert (Hj : forall u, pc u = m + 1 -> size (counters u) = size (counters t) -> fin u).
    { intros u Hu Hs. fin_step A2. sole Hu0. by apply Hh. }
    assert (Hm : forall u, pc u = m -> size (counters u) = size (counters t) -> fin u).
    { intros u Hu Hs. fin_step A1. sole Hu0. apply Hj; cbn; [lia|].
      unfold set_word, size. rewrite length_insert. done. }
    destruct (decide (pc t = p + 1)); [by apply Hh|]. destruct (decide (pc t = m)); [by apply Hm|].
    destruct (decide (pc t = m + 1)); [by apply Hj|].
    eapply (IH ltac:(done) _ _ _ _ t L); [lia|lia|lia|lia|done].
  - destruct Lr as (m & c1 & A & L1 & A2 & L2).
    destruct (laid_counters _ _ _ _ _ _ L1) as [? ?]. destruct (laid_counters _ _ _ _ _ _ L2) as [? ?].
    destruct (decide (pc t < m)).
    + eapply (IH1 ltac:(done) _ _ _ _ t L1); [lia|lia|lia|lia|]. intros u Hu Hs.
      fin_step A2. sole Hu0. by apply K.
    + destruct (decide (pc t = m)) as [Em|].
      * fin_step A2. sole Hu. by apply K.
      * eapply (IH2 ltac:(done) _ _ _ _ t L2); [lia|lia|lia|lia|done].
Qed.

(** Every thread of a running program has a finite exploration. *)
Lemma runs_fin r counters_ t :
  regular r = true -> runs prog r counters_ -> 0 <= pc t -> counters_ <= size (counters t) -> fin t.
Proof.
  intros Hr (q & Hq & L & A) Hp Hs.
  assert (Hend : forall u, pc u = q -> fin u).
  { intros u Hu. fin_step A. by apply not_elem_of_nil in Hu0. }
  destruct (decide (pc t < q)).
  - eapply (code_inside r Hr _ _ _ _ t L); [lia|lia|lia|lia|]. intros u Hu _. by apply Hend.
  - destruct (decide (pc t = q)); [by apply Hend|]. constructor. intros s u Hs'.
    apply lookup_lt_Some in Hs'. unfold size in Hq. lia.
Qed.
End Finite.

(** ** Properties of threads that instructions keep *)

Section Preserve.
Context (prog : list Step) (val : Z -> Z -> bool) (n : Z) (p : CompiledPlan).
Context (Hclock : multiclocked p = false) (Hval : forall k, guard p k = val n k).
Context (Hprog : plain_program prog).
Context (Q : Thread -> Prop).
Context (Qsuccs : forall t s u, Q t -> prog !! Z.to_nat (pc t) = Some s -> u ∈ succs val n s t -> Q u).
Context (Qouts : forall t s u, Q t -> prog !! Z.to_nat (pc t) = Some s -> u ∈ outs n s t -> Q u).

#[local] Set Default Proof Using "All".

(** The state of a step with [Q] for every thread. *)
Record all_ok (m : Matcher) (q : list Thread) : Prop := {
  all_state : state_ok prog n m;
  all_plain : forall t, t ∈ q -> plain t;
  all_threads : forall t, t ∈ threads m -> Q t;
  all_queue : forall t, t ∈ q -> Q t;
}.

Lemma all_ok_op m t q s f :
  all_ok m (t :: q) -> prog !! Z.to_nat (pc t) = Some s -> run_op p m t q s = Ok f ->
  op_effect prog val n m t q s (flow_pair f) /\ all_ok (flow_pair f).1 (flow_pair f).2.
Proof.
  intros [H1 H2 H3 H4] Hs Hf.
  assert (Hp : plain_step s) by (eapply Forall_lookup_1; [apply Hprog|done]).
  assert (Ht : plain t) by (apply H2; by left).
  assert (He : op_effect prog val n m t q s (flow_pair f))
    by (eapply run_op_effect; [apply Hclock|apply Hval|done|done|done|done]).
  split; [done|]. destruct (flow_pair f) as [m' q']. cbn.
  inversion He as [Hb Hk|? ? F1 F2 F3 F4 F5 F6 F7]; subst.
  - split; [done| |done|]; intros x Hx; [apply H2|apply H4]; by right.
  - assert (Hq : forall x, x ∈ q' <-> x ∈ succs val n s t \/ x ∈ q)
      by (intros x; by rewrite F7, elem_of_app).
    split; [done| | |].
    + intros x [Hx|Hx]%Hq; [by eapply succs_plain|]. apply H2. by right.
    + intros x [Hx|Hx]%F2; [auto|]. eapply Qouts; [|done|done]. apply H4. by left.
    + intros x [Hx|Hx]%Hq; [|apply H4; by right]. eapply Qsuccs; [|done|done]. apply H4. by left.
Qed.

Lemma all_ok_tail m t q : all_ok m (t :: q) -> all_ok m q.
Proof. intros [H1 H2 H3 H4]. split; [done| |done|]; intros x Hx; [apply H2|apply H4]; by right. Qed.

(** ** Fuel *)

(** [work t w]: the exploration of [t] has at most [w] instructions. *)
#[warnings="-register-all"]
Inductive work : Thread -> nat -> Prop :=
  | work_off t : prog !! Z.to_nat (pc t) = None -> work t 1
  | work_op t s ws :
      prog !! Z.to_nat (pc t) = Some s -> Forall2 work (succs val n s t) ws -> work t (S (sum_list ws)).

Lemma fin_work t : fin prog val n t -> exists w, work t w.
Proof.
  induction 1 as [t _ IH]. destruct (prog !! Z.to_nat (pc t)) as [s|] eqn:Hs; [|by exists 1%nat; constructor].
  assert (Hall : exists ws, Forall2 work (succs val n s t) ws).
  { specialize (IH s). revert IH. generalize (succs val n s t) as l.
    induction l as [|u l IHl]; intros IH; [by exists []|].
    destruct (IH u eq_refl) as [w Hw]; [by left|].
    destruct IHl as [ws Hws]; [intros v Hl Hv; apply IH; [done|by right]|]. exists (w :: ws). by constructor. }
  destruct Hall as [ws Hws]. exists (S (sum_list ws)). by econstructor.
Qed.

(** The work of a queue. *)
Definition works (q : list Thread) (w : nat) : Prop :=
  exists ws, Forall2 work q ws /\ sum_list ws = w.

Lemma works_perm q q' w : q ≡ₚ q' -> works q w -> works q' w.
Proof.
  intros Hp. revert w. induction Hp as [|x q q' _ IH|x y q|q1 q2 q3 _ IH1 _ IH2]; intros w.
  - done.
  - intros (ws & H & <-). inversion H as [|? v ? vs H1 H2]; subst.
    destruct (IH (sum_list vs)) as (us & H3 & H4); [by exists vs|].
    exists (v :: us). split; [by constructor|]. cbn. by rewrite H4.
  - intros (ws & H & <-). inversion H as [|? v ? vs H1 H2]; subst. inversion H2 as [|? u ? us H3 H4]; subst.
    exists (u :: v :: us). split; [by repeat constructor|]. cbn. lia.
  - intros Hw. by apply IH2, IH1.
Qed.

Lemma works_app q q' w w' : works q w -> works q' w' -> works (q ++ q') (w + w').
Proof.
  intros (ws & H & <-) (us & H' & <-). exists (ws ++ us). split; [by apply Forall2_app|].
  by rewrite sum_list_with_app || (clear; induction ws; cbn; lia).
Qed.

Lemma run_loop_total fuel m t q w :
  all_ok m (t :: q) -> works (t :: q) w -> (w <= fuel)%nat ->
  match run_loop fuel p m t q with
  | Returns (m', q') => all_ok m' q' /\ exists w', works q' w' /\ (w' < w)%nat
  | Throws e => e = thread_limit
  | Exhausted => False
  end.
Proof.
  revert m t q w. induction fuel as [|fuel IH]; intros m t q w HI HW Hle.
  { destruct HW as (ws & H & <-). inversion H as [|? v ? vs H1 H2]; subst. inversion H1; subst; cbn in Hle; lia. }
  destruct HW as (ws & H & <-). inversion H as [|? v ? vs H1 H2]; subst. clear H. cbn in Hle.
  cbn [run_loop]. rewrite (ok_code _ _ _ (all_state _ _ HI)).
  destruct (prog !! Z.to_nat (pc t)) as [s|] eqn:Hs.
  - inversion H1 as [|? s' us Hs' Hus]; subst; [congruence|]. rewrite Hs in Hs'. injection Hs' as <-.
    destruct (run_op p m t q s) as [f|e] eqn:Ef.
    + destruct (all_ok_op _ _ _ _ _ HI Hs Ef) as [He HI'].
      assert (HW' : exists w', works (flow_pair f).2 w' /\ (w' < S (sum_list us) + sum_list vs)%nat).
      { destruct (flow_pair f) as [m' q']. cbn.
        inversion He as [Hb Hk|? ? F1 F2 F3 F4 F5 F6 F7]; subst.
        - exists (sum_list vs). split; [by exists vs|lia].
        - exists (sum_list us + sum_list vs)%nat. split; [|lia].
          eapply works_perm; [by symmetry|]. apply works_app; [by exists us|by exists vs]. }
      destruct HW' as (w' & HW' & Hlt). destruct f as [m1 t1 q1|m1 q1]; cbn [flow_pair fst snd] in *.
      * specialize (IH m1 t1 q1 w' HI' HW' ltac:(lia)).
        destruct (run_loop fuel p m1 t1 q1) as [[m2 q2]| |]; [|done|done].
        destruct IH as (HI2 & w2 & HW2 & Hlt2). split; [done|]. exists w2. split; [done|]. cbn. lia.
      * split; [done|]. exists w'. split; [done|]. cbn. lia.
    + eapply (run_op_throws prog val n p Hclock Hval); [|exact Ef].
      eapply Forall_lookup_1; [apply Hprog|done].
  - split; [by eapply all_ok_tail|]. exists (sum_list vs). split; [by exists vs|].
    inversion H1; subst; cbn; [lia|congruence].
Qed.

Lemma drain_total fuel m q w :
  all_ok m q -> works q w -> (w < fuel)%nat ->
  match drain fuel p m q with
  | Returns m' => all_ok m' []
  | Throws e => e = thread_limit
  | Exhausted => False
  end.
Proof.
  revert m q w. induction fuel as [|fuel IH]; intros m q w HI HW Hle; [lia|].
  destruct q as [|t q]; cbn [drain]; [done|].
  unfold run. rewrite multiclocked_now, set_now_id by done.
  pose proof (run_loop_total fuel m t q w HI HW ltac:(lia)) as HR.
  destruct (run_loop fuel p m t q) as [[m' q']| |]; [|done|done]. cbn.
  destruct HR as (HI' & w' & HW' & Hlt). apply (IH _ _ w'); [done|done|lia].
Qed.

Lemma drain_all fuel m q m' : all_ok m q -> drain fuel p m q = Returns m' -> all_ok m' [].
Proof.
  assert (Hrun : forall fuel m t q m' q', all_ok m (t :: q) -> run_loop fuel p m t q = Returns (m', q') -> all_ok m' q').
  { clear fuel m q m'. induction fuel as [|fuel IH]; intros m t q m' q' HI; cbn [run_loop]; [done|].
    rewrite (ok_code _ _ _ (all_state _ _ HI)). destruct (prog !! Z.to_nat (pc t)) as [s|] eqn:Hs.
    - destruct (run_op p m t q s) as [f|e] eqn:Ef; [|done].
      destruct (all_ok_op _ _ _ _ _ HI Hs Ef) as [_ HI']. destruct f as [m1 t1 q1|m1 q1]; cbn in HI'.
      + by apply IH.
      + by intros [= <- <-].
    - intros [= <- <-]. by eapply all_ok_tail. }
  revert m q. induction fuel as [|fuel IH]; intros m [|t q] HI; cbn [drain]; try done; try (by intros [= <-]).
  unfold run. rewrite multiclocked_now, set_now_id by done.
  destruct (run_loop fuel p m t q) as [[m1 q1]| |] eqn:E; try done. cbn. apply IH. by eapply Hrun.
Qed.
End Preserve.

(** ** Steps of matchers *)

(** Threads at a position, with [k] counters. *)
Definition sized (k : Z) (t : Thread) : Prop := 0 <= pc t /\ size (counters t) = k.

Lemma succs_sized prog val n k t s u :
  plain_program prog -> sized k t -> prog !! Z.to_nat (pc t) = Some s -> u ∈ succs val n s t -> sized k u.
Proof.
  intros Hprog [H1 H2] Hs. assert (Hp : plain_step s) by (eapply Forall_lookup_1; [apply Hprog|done]).
  destruct Hp as (_ & _ & Ha & Hb). unfold succs, sized.
  destruct (step_op s) eqn:Eo; try (by intros ?%not_elem_of_nil);
    rewrite ?elem_of_app; repeat case_match; rewrite ?elem_of_cons, ?elem_of_nil;
    intros Hu; destruct_or?; try done; subst;
    cbn [pc counters advance with_pc with_window with_counters set_counter];
    rewrite ?size_set_word; try (split; [lia|done]); try (split; [by auto|done]).
Qed.

Lemma outs_sized n k t s u : sized k t -> u ∈ outs n s t -> sized k u.
Proof.
  intros Ht. unfold outs. destruct (step_op s); try (by intros ?%not_elem_of_nil);
    repeat case_match; rewrite ?list_elem_of_singleton; try (by intros ?%not_elem_of_nil); by intros ->.
Qed.

(** A matcher of a running program, ready for a step. *)
Record steppable (prog : list Step) (k : Z) (m : Matcher) : Prop := {
  st_ok : matcher_ok prog m;
  st_sized : forall t, t ∈ threads m -> sized k t;
}.

Lemma steppable_new cs s :
  0 <= counter_count cs -> steppable (code cs) (counter_count cs) (matcher_new cs s).
Proof.
  intros Hn. split; [apply matcher_new_ok|]. intros t [->|Ht]%elem_of_cons; [|by apply not_elem_of_nil in Ht].
  split; cbn; [lia|]. unfold size. rewrite length_replicate. lia.
Qed.

Section Steps.
Context (prog : list Step) (val : Z -> Z -> bool) (r : Seq Z) (k n : Z) (p : CompiledPlan).
Context (Hr : regular r = true) (Hrun : runs prog r k).
Context (Hclock : multiclocked p = false) (Hval : forall g, guard p g = val n g).

#[local] Set Default Proof Using "All".

Lemma begin_all m : steppable prog k m -> all_ok prog n (sized k) (begin_step m n) (threads m).
Proof.
  intros [[H1 H2 H3] Hs]. split; [|done| |done].
  - split; cbn; try done; set_solver.
  - cbn. intros t Ht. by apply not_elem_of_nil in Ht.
Qed.

Lemma step_steppable fuel m hit m' :
  steppable prog k m -> matcher_step fuel p m n = Returns (hit, m') -> steppable prog k m'.
Proof.
  intros Hm Hs. pose proof (runs_plain _ _ _ Hr Hrun) as Hp.
  destruct (step_exact fuel prog val p m n hit m' Hclock Hval Hp (st_ok _ _ _ Hm) Hs) as (H1 & _ & _).
  split; [done|]. rewrite (matcher_step_plain _ prog) in Hs by (done || apply Hm).
  destruct (drain fuel p (begin_step m n) (threads m)) as [m1| |] eqn:Ed; try done.
  assert (HA : all_ok prog n (sized k) m1 []).
  { eapply (drain_all prog val n p Hclock Hval Hp); [..|exact Ed].
    - intros t s u Ht Hl Hu. by eapply succs_sized.
    - intros t s u Ht _ Hu. by eapply outs_sized.
    - by apply begin_all. }
  destruct HA as [[O1 O2 O3 O4 O5 O6] _ HT _].
  cbn [mbind result_bind] in Hs. rewrite drop_matched_none, collect_joins_none in Hs by done.
  cbn in Hs. by injection Hs as <- <-.
Qed.

(** With enough fuel a step returns, or throws at the thread limit. *)
Lemma step_total m :
  steppable prog k m ->
  exists enough, forall fuel, (enough <= fuel)%nat ->
    (exists hit m', matcher_step fuel p m n = Returns (hit, m')) \/
    matcher_step fuel p m n = Throws thread_limit.
Proof.
  intros Hm. pose proof (runs_plain _ _ _ Hr Hrun) as Hp.
  assert (HW : exists w, works prog val n (threads m) w).
  { assert (Hall : forall t, t ∈ threads m -> exists w, work prog val n t w).
    { intros t Ht. apply (fin_work prog val n p Hclock Hval Hp (sized k)).
      - intros t0 s u H0 Hl Hu. by eapply succs_sized.
      - intros t0 s u H0 _ Hu. by eapply outs_sized.
      - destruct (st_sized _ _ _ Hm t Ht). eapply runs_fin; [done|done|done|lia]. }
    revert Hall. generalize (threads m) as l. induction l as [|t l IH]; intros Hall; [by exists O, []|].
    destruct IH as (w & ws & H1 & H2); [intros u Hu; apply Hall; by right|].
    destruct (Hall t) as [v Hv]; [by left|]. exists (v + w)%nat, (v :: ws).
    split; [by constructor|]. cbn. lia. }
  destruct HW as [w HW]. exists (S w). intros fuel Hfuel.
  rewrite (matcher_step_plain _ prog) by (done || apply Hm).
  pose proof (drain_total prog val n p Hclock Hval Hp (sized k)) as HD.
  specialize (HD ltac:(intros t s u H0 Hl Hu; by eapply succs_sized)
                 ltac:(intros t s u H0 _ Hu; by eapply outs_sized)
                 fuel (begin_step m n) (threads m) w (begin_all m Hm) HW ltac:(lia)).
  destruct (drain fuel p (begin_step m n) (threads m)) as [m1|e|]; [|right; by subst|done].
  left. destruct HD as [[O1 O2 O3 O4 O5 O6] _ _ _].
  cbn [mbind result_bind]. rewrite drop_matched_none, collect_joins_none by done. cbn. eauto.
Qed.
End Steps.
