(* ===== verification/SvaSemantics.v ===== *)
(** * The meaning of concurrent properties

    Satisfaction of a property on an infinite trace from a start tick
    ([satisfies]), after IEEE 1800 Annex F: strong and weak sequences, the
    Boolean operators, implication and followed-by, conditionals, nexttime,
    always, eventually and until.  A trace gives each tick the values of the
    atoms. *)
From stdpp Require Import gmap.
From S2P Require Import Prelude SvaPlan SvaMatcher SvaReach SvaSequence.
From stdpp Require Import options.

Inductive Prp (A : Type) :=
  | p_seq (strong_ : bool) (r : Seq A)
  | p_not (p : Prp A)
  | p_and (p q : Prp A)
  | p_or (p q : Prp A)
  | p_iff (p q : Prp A)
  | p_implies (p q : Prp A)
  | p_after (universal ov : bool) (r : Seq A) (p : Prp A)
  | p_if (g : A) (p : Prp A)
  | p_if_else (g : A) (p q : Prp A)
  | p_next (strong_ : bool) (k : Z) (p : Prp A)
  | p_window (universal strong_ : bool) (lo : Z) (hi : option Z) (p : Prp A)
  | p_until (strong_ : bool) (p q : Prp A).
Arguments p_seq {A} _ _.
Arguments p_not {A} _.
Arguments p_and {A} _ _.
Arguments p_or {A} _ _.
Arguments p_iff {A} _ _.
Arguments p_implies {A} _ _.
Arguments p_after {A} _ _ _ _.
Arguments p_if {A} _ _.
Arguments p_if_else {A} _ _ _.
Arguments p_next {A} _ _ _.
Arguments p_window {A} _ _ _ _ _.
Arguments p_until {A} _ _ _.

Fixpoint prp_map {A B} (f : A -> B) (P : Prp A) : Prp B :=
  match P with
  | p_seq st r => p_seq st (seq_map f r)
  | p_not p => p_not (prp_map f p)
  | p_and p q => p_and (prp_map f p) (prp_map f q)
  | p_or p q => p_or (prp_map f p) (prp_map f q)
  | p_iff p q => p_iff (prp_map f p) (prp_map f q)
  | p_implies p q => p_implies (prp_map f p) (prp_map f q)
  | p_after un ov r p => p_after un ov (seq_map f r) (prp_map f p)
  | p_if g p => p_if (f g) (prp_map f p)
  | p_if_else g p q => p_if_else (f g) (prp_map f p) (prp_map f q)
  | p_next st k p => p_next st k (prp_map f p)
  | p_window un st lo hi p => p_window un st lo hi (prp_map f p)
  | p_until st p q => p_until st (prp_map f p) (prp_map f q)
  end.

(** The trace up to tick [n], then the letter that satisfies every atom. *)
Definition topped {A} (n : Z) (val : Z -> A -> bool) (t : Z) (a : A) : bool :=
  if t <? n then val t a else true.

(** The start tick of the consequent of a match that ends at tick [e]. *)
Definition consequent (ov : bool) (e : Z) : Z := if ov then e else e + 1.

(** [satisfies val P i]: on the trace [val], [P] holds from tick [i].
    [p_after true] is [|->] and [|=>], [p_after false] [#-#] and [#=#];
    [p_window true] is [always], [p_window false] [eventually].  A weak sequence
    holds unless some prefix of the trace can no longer match (F.5.3.1). *)
Fixpoint satisfies {A} (val : Z -> A -> bool) (P : Prp A) (i : Z) : Prop :=
  match P with
  | p_seq true r => exists e, i <= e /\ tight val r i (e + 1)
  | p_seq false r => forall n, exists e, i <= e /\ tight (topped n val) r i (e + 1)
  | p_not p => ~ satisfies val p i
  | p_and p q => satisfies val p i /\ satisfies val q i
  | p_or p q => satisfies val p i \/ satisfies val q i
  | p_iff p q => satisfies val p i <-> satisfies val q i
  | p_implies p q => satisfies val p i -> satisfies val q i
  | p_after true ov r p =>
      forall e, i <= e -> tight val r i (e + 1) -> satisfies val p (consequent ov e)
  | p_after false ov r p =>
      exists e, i <= e /\ tight val r i (e + 1) /\ satisfies val p (consequent ov e)
  | p_if g p => val i g = true -> satisfies val p i
  | p_if_else g p q => if val i g then satisfies val p i else satisfies val q i
  | p_next _ k p => satisfies val p (i + k)
  | p_window true _ lo hi p => forall k, lo <= k -> upto k hi -> satisfies val p (i + k)
  | p_window false _ lo hi p => exists k, lo <= k /\ upto k hi /\ satisfies val p (i + k)
  | p_until st p q =>
      (exists k, i <= k /\ satisfies val q k /\ forall j, i <= j < k -> satisfies val p j) \/
      (st = false /\ forall j, i <= j -> satisfies val p j)
  end.

(** ** Prefixes decide *)

(** Two traces with the same ticks before [n]. *)
Definition agree {A} (n : Z) (val val' : Z -> A -> bool) : Prop :=
  forall t a, t < n -> val' t a = val t a.

Section Prefix.
Context {A : Type}.
Implicit Types val : Z -> A -> bool.

Lemma agree_refl n val : agree n val val.
Proof. done. Qed.

Lemma agree_sym n val val' : agree n val val' -> agree n val' val.
Proof. intros H t a Ht. by rewrite H. Qed.

Lemma agree_trans n val1 val2 val3 : agree n val1 val2 -> agree n val2 val3 -> agree n val1 val3.
Proof. intros H1 H2 t a Ht. by rewrite H2, H1. Qed.

Lemma agree_le n m val val' : n <= m -> agree m val val' -> agree n val val'.
Proof. intros Hn H t a Ht. apply H. lia. Qed.

Lemma agree_topped n val : agree n val (topped n val).
Proof. intros t a Ht. unfold topped. destruct (t <? n) eqn:E; [done|lia]. Qed.

Lemma times_le (R : Z -> Z -> Prop) k i j : (forall i j, R i j -> i <= j) -> times R k i j -> i <= j.
Proof.
  intros HR. revert i. induction k as [|k IH]; intros i; cbn; [lia|].
  intros (x & H1%HR & H2%IH). lia.
Qed.

Lemma tight_le val (r : Seq A) i j : regular r = true -> tight val r i j -> i <= j.
Proof.
  revert i j. induction r as [g|r1 IH1 r2 IH2|lo hi r1 IH1 r2 IH2|lo hi r IH|lo hi r IH|r1 IH1 r2 IH2];
    cbn [regular tight]; intros i j Hr;
    repeat match goal with H : _ && _ = true |- _ => apply andb_prop in H as [? ?] end.
  - lia.
  - intros (k & M1 & M2). apply IH1 in M1; [|done]. apply IH2 in M2; [|done]. lia.
  - intros (x & k & Hx & _ & M1 & M2 & M0). apply IH1 in M1; [|done]. apply IH2 in M2; [|done].
    unfold range_ok in *. destruct (decide (x = 0)); lia.
  - intros (x & Hx & _ & M1). apply IH in M1; [|done]. unfold range_ok in *. lia.
  - intros (k & _ & _ & M1). eapply times_le; [|done]. intros. by apply IH.
  - intros [M1|M1]; [by apply IH1|by apply IH2].
Qed.

Lemma times_impl (R S_ : Z -> Z -> Prop) k i j :
  (forall x y, i <= x -> x <= y -> y <= j -> R x y -> S_ x y) ->
  (forall x y, R x y -> x <= y) -> times R k i j -> times S_ k i j.
Proof.
  intros H Hle. revert i H. induction k as [|k IH]; intros i H; cbn; [done|].
  intros (x & H1 & H2). pose proof (Hle _ _ H1). pose proof (times_le _ _ _ _ Hle H2).
  exists x. split; [apply H; [lia|lia|lia|done]|]. apply IH; [|done].
  intros y z Hy Hyz Hz. apply H; lia.
Qed.

(** A match depends on the ticks it covers only, and only positively. *)
Lemma tight_impl val val' (r : Seq A) i j :
  regular r = true -> (forall t a, i <= t < j -> val t a = true -> val' t a = true) ->
  tight val r i j -> tight val' r i j.
Proof.
  revert i j. induction r as [g|r1 IH1 r2 IH2|lo hi r1 IH1 r2 IH2|lo hi r IH|lo hi r IH|r1 IH1 r2 IH2];
    cbn [regular tight]; intros i j Hr Hv;
    repeat match goal with H : _ && _ = true |- _ => apply andb_prop in H as [? ?] end.
  - intros [M1 ->]. split; [|done]. apply Hv; [lia|done].
  - intros (k & M1 & M2). pose proof (tight_le _ r1 _ _ ltac:(done) M1).
    pose proof (tight_le _ r2 _ _ ltac:(done) M2). exists k. split.
    + apply IH1; [done| |done]. intros. apply Hv; [lia|done].
    + apply IH2; [done| |done]. intros. apply Hv; [lia|done].
  - intros (x & k & Hx & Hx2 & M1 & M2 & M0). exists x, k.
    pose proof (tight_le _ r1 _ _ ltac:(done) M1). pose proof (tight_le _ r2 _ _ ltac:(done) M2).
    assert (k <= j /\ i <= k + x - 1)
      by (unfold range_ok in *; destruct (decide (x = 0)); [specialize (M0 ltac:(done))|]; lia).
    split; [done|]. split; [done|]. split; [|split; [|done]].
    + apply IH1; [done| |done]. intros. apply Hv; [lia|done].
    + apply IH2; [done| |done]. intros. apply Hv; [lia|done].
  - intros (x & Hx & Hx2 & M1). exists x. split; [done|]. split; [done|].
    pose proof (tight_le _ r _ _ ltac:(done) M1). apply IH; [done| |done].
    intros. apply Hv; [unfold range_ok in *; lia|done].
  - intros (k & Hk & Hk2 & M1). exists k. split; [done|]. split; [done|].
    eapply times_impl; [| |done].
    + intros x y Hx Hxy Hy. apply IH; [done|]. intros. apply Hv; [lia|done].
    + intros x y Hxy. by eapply tight_le.
  - intros [M1|M1]; [left; by apply IH1|right; by apply IH2].
Qed.

Lemma tight_agree val val' (r : Seq A) n i j :
  regular r = true -> agree n val val' -> j <= n -> tight val r i j <-> tight val' r i j.
Proof.
  intros Hr Ha Hj. split; apply tight_impl; try done; intros t a Ht; rewrite Ha by lia; done.
Qed.

(** A match satisfies the sequence, strong or weak; no match in any
    continuation of a prefix violates it. *)
Lemma sequence_holds val st (r : Seq A) i e :
  regular r = true -> i <= e -> tight val r i (e + 1) -> satisfies val (p_seq st r) i.
Proof.
  intros Hr He Ht. destruct st; cbn; [by exists e|]. intros n. exists e. split; [done|].
  eapply tight_impl; [done| |done]. intros t a _ Hv. unfold topped. by destruct (t <? n).
Qed.

Lemma sequence_fails val st (r : Seq A) i n :
  (forall val', agree n val val' -> forall e, i <= e -> ~ tight val' r i (e + 1)) ->
  forall val', agree n val val' -> ~ satisfies val' (p_seq st r) i.
Proof.
  intros H val' Ha. destruct st; cbn.
  - intros (e & He & Ht). by eapply H.
  - intros Hs. destruct (Hs n) as (e & He & Ht). eapply (H (topped n val')); [|done|done].
    eapply agree_trans; [done|apply agree_topped].
Qed.
End Prefix.

(** ** Renaming atoms *)

Lemma satisfies_map {A B} (f : A -> B) val P i :
  satisfies val (prp_map f P) i <-> satisfies (fun n a => val n (f a)) P i.
Proof.
  revert i. induction P as [st r|p IH|p IHp q IHq|p IHp q IHq|p IHp q IHq|p IHp q IHq
    |un ov r p IH|g p IH|g p IHp q IHq|st k p IH|un st lo hi p IH|st p IHp q IHq]; intros i; cbn.
  - destruct st; setoid_rewrite tight_map; [done|]. done.
  - by rewrite IH.
  - by rewrite IHp, IHq.
  - by rewrite IHp, IHq.
  - by rewrite IHp, IHq.
  - by rewrite IHp, IHq.
  - destruct un; setoid_rewrite tight_map; by setoid_rewrite IH.
  - by rewrite IH.
  - destruct (val i (f g)); [by rewrite IHp|by rewrite IHq].
  - by rewrite IH.
  - destruct un; by setoid_rewrite IH.
  - setoid_rewrite IHp. by setoid_rewrite IHq.
Qed.
