(* ===== verification/SvaVerdict.v ===== *)
(** * Verdicts are right

    An instance of the engine ([SvaEngine]) for a node of the plan that
    represents a property: whenever it decides, every trace that continues the
    ticks seen so far satisfies the property (verdict holds) or violates it
    (verdict fails).  The invariant [good] describes the instances in between;
    [step_good] shows that every step keeps it. *)
From stdpp Require Import gmap.
From S2P Require Import Prelude SvaPlan SvaMatcher SvaEngine SvaReach SvaStep SvaSequence SvaEmit.
From S2P Require Import SvaTermination SvaSemantics.
From stdpp Require Import options.

(** ** Properties in the tables of a plan *)

(** Properties decided at the tick they start at. *)
Fixpoint immediate {A} (P : Prp A) : bool :=
  match P with
  | p_seq _ (s_bool _) => true
  | p_not p | p_if _ p => immediate p
  | p_and p q | p_or p q | p_iff p q | p_implies p q | p_if_else _ p q => immediate p && immediate q
  | _ => false
  end.

Section Represents.
Context (T : CompiledPlan).

(** Sequence [k] of the plan runs [r]. *)
Definition runs_seq (k : Z) (r : Seq Z) : Prop :=
  regular r = true /\ runs (code (sequence_at T k)) r (counter_count (sequence_at T k)).

(** Node [k] of the plan represents [P].  The left operand of [until] is
    decided at once. *)
Fixpoint represents (k : Z) (P : Prp Z) : Prop :=
  let q := property_at T k in
  match P with
  | p_seq st r => cp_kind q = k_sequence /\ cp_strong q = st /\ runs_seq (cp_sequence q) r
  | p_not p => cp_kind q = k_negation /\ exists c, cp_children q = [c] /\ represents c p
  | p_and p1 p2 => cp_kind q = k_conjunction /\
      exists c d, cp_children q = [c; d] /\ represents c p1 /\ represents d p2
  | p_or p1 p2 => cp_kind q = k_disjunction /\
      exists c d, cp_children q = [c; d] /\ represents c p1 /\ represents d p2
  | p_iff p1 p2 => cp_kind q = k_equivalence /\
      exists c d, cp_children q = [c; d] /\ represents c p1 /\ represents d p2
  | p_implies p1 p2 => cp_kind q = k_implies /\
      exists c d, cp_children q = [c; d] /\ represents c p1 /\ represents d p2
  | p_after un ov r p =>
      cp_kind q = (if un then k_implication else k_followed_by) /\ cp_overlapped q = ov /\
      runs_seq (cp_sequence q) r /\ exists c, cp_children q = [c] /\ represents c p
  | p_if g p => cp_kind q = k_conditional /\ cp_guard q = g /\
      exists c, cp_children q = [c] /\ represents c p
  | p_if_else g p1 p2 => cp_kind q = k_conditional /\ cp_guard q = g /\
      exists c d, cp_children q = [c; d] /\ represents c p1 /\ represents d p2
  | p_next st j p => cp_kind q = k_nexttime /\ cp_strong q = st /\ cp_lo q = Some j /\ 0 <= j /\
      exists c, cp_children q = [c] /\ represents c p
  | p_window un st lo hi p =>
      cp_kind q = (if un then k_always else k_eventually) /\ cp_strong q = st /\
      cp_lo q = Some lo /\ cp_hi q = hi /\ range_ok lo hi = true /\
      exists c, cp_children q = [c] /\ represents c p
  | p_until st p1 p2 => cp_kind q = k_until /\ cp_strong q = st /\ immediate p1 = true /\
      exists c d, cp_children q = [c; d] /\ represents c p1 /\ represents d p2
  end.

(** ** Instances *)

Context (val : Z -> Z -> bool).

(** Decided by the ticks before [n]. *)
Definition Sat (n : Z) (P : Prp Z) (t : Z) : Prop :=
  forall val', agree n val val' -> satisfies val' P t.
Definition Unsat (n : Z) (P : Prp Z) (t : Z) : Prop :=
  forall val', agree n val val' -> ~ satisfies val' P t.
Definition Decided (universal : bool) : Z -> Prp Z -> Z -> Prop := if universal then Sat else Unsat.

Definition settled_as (P : Prp Z) (n : Z) (i : Instance_) : Prop :=
  (verdict i = holding /\ Sat n P (start i)) \/ (verdict i = failing /\ Unsat n P (start i)).

(** The matcher [m] has the matches of sequence [k] from tick [s], and its next
    step ends. *)
Definition follows_seq (k s n : Z) (m : Matcher) : Prop :=
  steppable (code (sequence_at T k)) (counter_count (sequence_at T k)) m /\
  forall val', agree n val val' ->
    tracks (code (sequence_at T k)) val' (counter_count (sequence_at T k)) s m n.

(** The antecedent of [|->] or [#-#]: still running, or without matches left. *)
Definition antecedent_ok (r : Seq Z) (n : Z) (i : Instance_) : Prop :=
  (antecedent_done i = false /\
   exists m, matcher i = Some m /\ follows_seq (cp_sequence (property_at T (node i))) (start i) n m) \/
  (antecedent_done i = true /\ matcher i = None /\
   forall val', agree n val val' -> forall e, n <= e -> ~ tight val' r (start i) (e + 1)).

(** [covered sub n X us]: every tick of [X] has an instance in [us] or is
    decided already, and [us] has no others. *)
Definition covered (sub : Z -> Instance_ -> Prop) (universal : bool) (P : Prp Z) (n : Z)
    (X : Z -> Prop) (us : list Instance_) : Prop :=
  (forall c, c ∈ us -> sub n c /\ X (start c)) /\
  (forall t, X t -> (exists c, c ∈ us /\ start c = t) \/ Decided universal n P t).

(** The running operands of [until]: consecutive start ticks from [f] on; all
    left operands hold, but for the last one once the operator stopped. *)
Record until_ok (subp subq : Z -> Instance_ -> Prop) (P Q : Prp Z) (n s : Z) (stopped : bool)
    (us : list (Instance_ * Instance_)) (f : Z) : Prop := {
  un_first : s <= f;
  un_before : forall t, s <= t < f -> Sat n P t /\ Unsat n Q t;
  un_entries : forall k a b, us !! k = Some (a, b) ->
    subp n a /\ subq n b /\ start a = f + Z.of_nat k /\ start b = f + Z.of_nat k;
  un_left : forall k a b, us !! k = Some (a, b) ->
    decided a = true /\ (holds a = true \/ stopped = true /\ S k = length us);
  un_length : stopped = false -> f + size us = n;
  un_end : f + size us <= n;
}.

(** The invariant of an instance before tick [n]. *)
Fixpoint good (P : Prp Z) (n : Z) (i : Instance_) : Prop :=
  represents (node i) P /\
  ((n <= start i /\ i = instance_new (node i) (start i)) \/
   (start i < n /\ settled_as P n i) \/
   (start i < n /\ verdict i = pending /\
    match P with
    | p_seq _ r => exists m, matcher i = Some m /\
        follows_seq (cp_sequence (property_at T (node i))) (start i) n m /\
        forall e, start i <= e < n -> ~ tight val r (start i) (e + 1)
    | p_not p => exists c, operands i = [(0, c)] /\ start c = start i /\ good p n c
    | p_and p q | p_or p q | p_iff p q | p_implies p q =>
        exists l r, operands i = [(0, l); (1, r)] /\ start l = start i /\ start r = start i /\
          good p n l /\ good q n r
    | p_after un ov r p =>
        antecedent_ok r n i /\
        covered (good p) un p n
          (fun t => exists e, start i <= e < n /\ tight val r (start i) (e + 1) /\ t = consequent ov e)
          (started i)
    | p_if g p => chosen i = Some 0 /\ val (start i) g = true /\
        exists c, operands i = [(0, c)] /\ start c = start i /\ good p n c
    | p_if_else g p q =>
        if val (start i) g
        then chosen i = Some 0 /\ exists c, operands i = [(0, c)] /\ start c = start i /\ good p n c
        else chosen i = Some 1 /\ exists c, operands i = [(1, c)] /\ start c = start i /\ good q n c
    | p_next _ k p => exists c, operands i = [(0, c)] /\ start c = start i + k /\ good p n c
    | p_window un _ lo hi p =>
        covered (good p) un p n
          (fun t => start i + lo <= t /\ upto (t - start i) hi /\ t < n) (started i)
    | p_until _ p q =>
        exists f, until_ok (good p) (good q) p q n (start i) (until_stopped i) (until_ i) f
    end)).
End Represents.

#[global] Arguments good : simpl never.
#[global] Arguments represents : simpl never.
#[local] Arguments satisfies : simpl never.

(** ** One step *)

Section Decide.
Context (T : CompiledPlan) (val : Z -> Z -> bool).

Lemma Sat_mono n m P t : n <= m -> Sat val n P t -> Sat val m P t.
Proof. intros Hn H val' Ha. apply H. by eapply agree_le. Qed.

Lemma Unsat_mono n m P t : n <= m -> Unsat val n P t -> Unsat val m P t.
Proof. intros Hn H val' Ha. apply H. by eapply agree_le. Qed.

Lemma Decided_mono un n m P t : n <= m -> Decided val un n P t -> Decided val un m P t.
Proof. destruct un; [apply Sat_mono|apply Unsat_mono]. Qed.

Lemma good_represents P n i : good T val P n i -> represents T (node i) P.
Proof. by destruct P; intros [H _]. Qed.

(** A decided instance is right. *)
Lemma good_decided P n i :
  good T val P n i -> decided i = true ->
  (holds i = true /\ Sat val n P (start i)) \/ (holds i = false /\ Unsat val n P (start i)).
Proof.
  intros Hg Hd. assert (Hs : settled_as val P n i).
  { unfold decided in Hd. destruct P; destruct Hg as [_ [[_ Hv]|[[_ H]|(_ & Hv & _)]]]; try done;
      by rewrite Hv in Hd. }
  unfold holds. destruct Hs as [[Hv H]|[Hv H]]; rewrite Hv; [by left|by right].
Qed.

Lemma good_resolved P n i (h v : bool) :
  represents T (node i) P -> start i < n ->
  (if h then Sat val n P (start i) else Unsat val n P (start i)) ->
  good T val P n (resolve_to i h v).
Proof.
  intros Hr Hs H. assert (Hset : settled_as val P n (resolve_to i h v)).
  { destruct h; [by left|by right]. }
  destruct P; (split; [done|]); right; left; by split.
Qed.

Lemma good_fresh P n k s : represents T k P -> n <= s -> good T val P n (instance_new k s).
Proof. intros Hr Hs. destruct P; (split; [done|]); left; by split. Qed.

(** What a step must do: keep the invariant and the start tick. *)
Definition steps_ok (P : Prp Z) (n : Z) (rec : Instance_ -> Z -> Result Instance_) : Prop :=
  forall c c', good T val P n c -> rec c n = Returns c' -> good T val P (n + 1) c' /\ start c' = start c.

(** A decided instance and one that has not started are left alone. *)
Lemma good_idle P n i :
  good T val P n i -> decided i || (n <? start i) = true -> good T val P (n + 1) i.
Proof.
  intros Hg Hi. pose proof (good_represents _ _ _ Hg) as Hr.
  apply orb_prop in Hi as [Hd|Hlt].
  - assert (Hs : start i < n /\ settled_as val P n i).
    { unfold decided in Hd. destruct P; destruct Hg as [_ [[_ Hv]|[H|(_ & Hv & _)]]]; try done;
        by rewrite Hv in Hd. }
    assert (Hs' : start i < n + 1 /\ settled_as val P (n + 1) i).
    { split; [lia|]. destruct Hs as [_ [[Hv H]|[Hv H]]]; [left|right]; (split; [done|]);
        [by apply (Sat_mono n); [lia|]|by apply (Unsat_mono n); [lia|]]. }
    destruct P; (split; [done|]); right; left; done.
  - assert (Hf : i = instance_new (node i) (start i)).
    { destruct P; destruct Hg as [_ [[_ H]|[[H _]|(H & _)]]]; try done; lia. }
    rewrite Hf. apply good_fresh; [done|lia].
Qed.

(** An instance that starts now or is running: [P]'s own state [B] before the
    tick. *)
Lemma good_running P n i (B : Prop) :
  good T val P n i -> decided i || (n <? start i) = false ->
  (start i = n -> i = instance_new (node i) n -> B) ->
  (start i < n -> verdict i = pending -> good T val P n i -> B) -> B.
Proof.
  intros Hg Hi HA HB. apply orb_false_iff in Hi as [Hd Hlt].
  destruct (decide (start i = n)) as [Es|Es].
  - apply HA; [done|]. destruct P; destruct Hg as [_ [[_ H]|[[H _]|(H & _)]]]; try lia; by rewrite <- Es.
  - apply HB; [lia| |done]. unfold decided in Hd. by apply negb_false_iff, bool_decide_eq_true in Hd.
Qed.
End Decide.

Section Children.
Context (p : CompiledPlan) (rec : Instance_ -> Z -> Result Instance_).

Lemma set_operands_twice i x y : set_operands (set_operands i x) y = set_operands i y.
Proof. done. Qed.

(** The one operand of an operator, found or created. *)
Lemma step_child_one i k s n c :
  (operands i = [] /\ c = instance_new (child_node (property_at p (node i)) k) s) \/ operands i = [(k, c)] ->
  step_child p rec i k s n = (c' ← rec c n; Returns (set_operands i [(k, c')], c')).
Proof.
  intros H. unfold step_child, ensure_child, operand_at, put_operand, find_operand.
  destruct H as [[Ho ->]|Ho]; rewrite Ho; cbn.
  - rewrite ?Z.eqb_refl. cbn. destruct (rec _ n); cbn; rewrite ?Z.eqb_refl; done.
  - rewrite Z.eqb_refl. cbn. rewrite Ho. cbn. rewrite Z.eqb_refl. cbn.
    destruct (rec c n); cbn; rewrite ?Ho; cbn; rewrite ?Z.eqb_refl; done.
Qed.

(** The two operands of an operator. *)
Lemma step_both_two kd i n l r :
  (operands i = [] /\ l = instance_new (child_node (property_at p (node i)) 0) (start i)
     /\ r = instance_new (child_node (property_at p (node i)) 1) (start i)) \/
  operands i = [(0, l); (1, r)] ->
  step_both p rec kd i n =
    (l' ← rec l n; r' ← rec r n; Returns (combine kd (set_operands i [(0, l'); (1, r')]) l' r')).
Proof.
  intros H. unfold step_both, step_child, ensure_child, operand_at, put_operand, find_operand.
  destruct H as [(Ho & -> & ->)|Ho]; rewrite Ho; cbn.
  - destruct (rec _ n) as [l'| |]; cbn; [|done|done]. destruct (rec _ n) as [r'| |]; cbn; done.
  - repeat (rewrite Ho; cbn). destruct (rec l n) as [l'| |]; cbn; [|done|done].
    repeat (rewrite Ho; cbn). by destruct (rec r n).
Qed.

(** The loop over running operands. *)
Lemma step_each_spec n stop l l' o :
  step_each rec n stop l = Returns (l', o) ->
  match o with
  | Some c' => exists c, c ∈ l /\ rec c n = Returns c' /\ decided c' = true /\ stop c' = true
  | None => Forall2 (fun c c' => rec c n = Returns c' /\ decided c' && stop c' = false) l l'
  end.
Proof.
  revert l' o. induction l as [|c l IH]; intros l' o; cbn; [by intros [= <- <-]|].
  destruct (rec c n) as [c'| |] eqn:Ec; cbn; [|done|done].
  destruct (decided c' && stop c') eqn:Es.
  - intros [= <- <-]. apply andb_prop in Es as [? ?]. exists c. split; [by left|]. done.
  - destruct (step_each rec n stop l) as [[l2 o2]| |] eqn:El; cbn; [|done|done].
    intros [= <- <-]. specialize (IH _ _ eq_refl). destruct o2 as [c2|].
    + destruct IH as (c0 & Hc & H). exists c0. split; [by right|done].
    + by constructor.
Qed.
End Children.

(** The operators with two operands. *)
Definition connective {A} (kd : PropertyKind) (p1 p2 : Prp A) : Prp A :=
  match kd with
  | k_conjunction => p_and p1 p2
  | k_disjunction => p_or p1 p2
  | k_equivalence => p_iff p1 p2
  | _ => p_implies p1 p2
  end.

Definition two_operands (kd : PropertyKind) : bool :=
  match kd with k_conjunction | k_disjunction | k_equivalence | k_implies => true | _ => false end.

Section Operators.
Context (T : CompiledPlan) (val : Z -> Z -> bool) (n : Z) (fuel : nat) (p : CompiledPlan).
Context (Hclock : multiclocked p = false) (Hval : forall k, guard p k = val n k).
Context (Hprops : plan_properties p = plan_properties T) (Hseqs : plan_sequences p = plan_sequences T).

#[local] Set Default Proof Using "All".

Lemma property_same k : property_at p k = property_at T k.
Proof. unfold property_at. by rewrite Hprops. Qed.

Lemma sequence_same k : sequence_at p k = sequence_at T k.
Proof. unfold sequence_at. by rewrite Hseqs. Qed.

Lemma guard_agree val' k : agree (n + 1) val val' -> guard p k = val' n k.
Proof. intros Ha. rewrite Hval. symmetry. apply Ha. lia. Qed.

Abbreviation goodn P := (good T val P n).
Abbreviation good1 P := (good T val P (n + 1)).

(** ** Matchers *)

(** A step of a matcher that follows a sequence. *)
Lemma follows_step r k s m hit m' :
  runs_seq T k r -> s <= n -> follows_seq T val k s n m -> matcher_step fuel p m n = Returns (hit, m') ->
  follows_seq T val k s (n + 1) m' /\
  (forall val', agree (n + 1) val val' -> hit = true <-> tight val' r s (n + 1)) /\
  (dead m' = true -> forall val', agree (n + 1) val val' -> forall e, n + 1 <= e -> ~ tight val' r s (e + 1)).
Proof.
  intros [Hr Hrun] Hs [Hst Hf] Hstep.
  assert (Ht : forall val', agree (n + 1) val val' ->
    tracks (code (sequence_at T k)) val' (counter_count (sequence_at T k)) s m' (n + 1)).
  { intros val' Ha. eapply (tracks_step _ val' r _ s Hr Hrun fuel p m n hit); [done| | |done].
    - intros g. by apply guard_agree.
    - apply Hf. eapply agree_le; [|done]. lia. }
  split; [split; [by eapply (step_steppable _ val)|exact Ht]|]. split.
  - intros val' Ha. eapply (tracks_hit _ val' r _ s Hr Hrun fuel p m n hit m'); [done| |done| |done].
    + intros g. by apply guard_agree.
    + apply Hf. eapply agree_le; [|done]. lia.
  - intros Hd val' Ha e He.
    eapply (tracks_dead _ val' r _ s Hr Hrun m' (n + 1) e); [lia|by apply Ht|done].
Qed.

(** The matcher of an instance that starts now or has one. *)
Lemma own_follows i k r :
  runs_seq T k r -> cp_sequence (property_at T (node i)) = k ->
  (start i = n /\ matcher i = None) \/ (exists m, matcher i = Some m /\ follows_seq T val k (start i) n m) ->
  follows_seq T val k (start i) n (own_matcher p i).
Proof.
  intros [_ (q & _ & L & _)] Hk H. unfold own_matcher. rewrite property_same, sequence_same, Hk.
  destruct H as [[Hs ->]|(m & -> & Hf)]; [|done]. split.
  - apply steppable_new. apply (laid_counters _ _ _ _ _ _ L).
  - intros val' _. rewrite Hs. apply tracks_new.
Qed.

(** ** Sequences *)

Lemma sequence_ok st r i i' :
  goodn (p_seq st r) i -> decided i || (n <? start i) = false ->
  step_sequence fuel p i n = Returns i' -> good1 (p_seq st r) i' /\ start i' = start i.
Proof.
  intros Hg Hi. pose proof (good_represents _ _ _ _ _ Hg) as Hrep.
  destruct Hrep as (_ & _ & Hseq). pose proof (proj1 Hseq) as Hr.
  assert (Hs : start i <= n) by (apply orb_false_iff in Hi as [_ ?]; lia).
  assert (Hold : follows_seq T val (cp_sequence (property_at T (node i))) (start i) n (own_matcher p i) /\
    forall e, start i <= e < n -> ~ tight val r (start i) (e + 1)).
  { apply (good_running _ _ _ _ _ _ Hg Hi).
    - intros Es Hn. split; [|lia]. eapply own_follows; [done|done|]. left. by rewrite Hn.
    - intros Hlt _ [_ [[? _]|[[_ H]|(_ & _ & m & Hm & Hf & Hno)]]]; [lia| |].
      + apply orb_false_iff in Hi as [Hd _]. unfold decided in Hd.
        by destruct H as [[Hv _]|[Hv _]]; rewrite Hv in Hd.
      + split; [|done]. eapply own_follows; [done|done|]. right. by exists m. }
  destruct Hold as [Hf Hno]. unfold step_sequence.
  destruct (matcher_step fuel p (own_matcher p i) n) as [[hit m']| |] eqn:Em; cbn; [|done|done].
  destruct (follows_step r _ _ _ _ _ Hseq Hs Hf Em) as (Hf' & Hhit & Hdead).
  intros [= <-].
  assert (Hnone : hit = false -> forall e, start i <= e < n + 1 -> ~ tight val r (start i) (e + 1)).
  { intros Hh e He. destruct (decide (e = n)) as [->|]; [|apply Hno; lia].
    rewrite <- (Hhit val); [by rewrite Hh|apply agree_refl]. }
  destruct hit.
  - split; [|done]. apply good_resolved; [apply Hg|cbn; lia|]. cbn. intros val' Ha.
    apply (sequence_holds val' st r (start i) n Hr Hs). by apply (Hhit val' Ha).
  - destruct (dead m') eqn:Ed.
    + split; [|done]. apply good_resolved; [apply Hg|cbn; lia|]. cbn.
      intros val0 Ha0. refine (sequence_fails val st r (start i) (n + 1) _ val0 Ha0).
      intros val' Ha e He Ht. destruct (decide (n + 1 <= e)).
      * by eapply Hdead.
      * eapply (Hnone eq_refl e); [lia|].
        by apply (tight_agree val val' r (n + 1) (start i) (e + 1) Hr Ha ltac:(lia)).
    + split; [|done]. split; [apply Hg|]. right. right. cbn. split; [lia|]. split.
      * apply orb_false_iff in Hi as [Hd _]. unfold decided in Hd.
        by apply negb_false_iff, bool_decide_eq_true in Hd.
      * exists m'. split; [done|]. split; [done|]. auto.
Qed.

(** ** Operators with operands that start with them *)

Lemma running_pending i : decided i || (n <? start i) = false -> verdict i = pending /\ start i <= n.
Proof.
  intros [Hd Hlt]%orb_false_iff. unfold decided in Hd.
  apply negb_false_iff, bool_decide_eq_true in Hd. split; [done|lia].
Qed.

Lemma pending_unsettled P i : verdict i = pending -> ~ settled_as val P n i.
Proof. intros Hv [[H _]|[H _]]; by rewrite Hv in H. Qed.

Lemma through_ok rec P i i' k s neg c :
  steps_ok T val P n rec -> goodn P c ->
  (operands i = [] /\ c = instance_new (child_node (property_at T (node i)) k) s) \/ operands i = [(k, c)] ->
  step_through p rec i k s n neg = Returns i' ->
  exists c', good1 P c' /\ start c' = start c /\
    ((decided c' = true /\ i' = resolve_to (set_operands i [(k, c')]) (xorb neg (holds c')) (vacuous c')) \/
     (decided c' = false /\ i' = set_operands i [(k, c')])).
Proof.
  intros Hrec Hc Ho. rewrite <- property_same in Ho. unfold step_through.
  rewrite (step_child_one p rec i k s n c Ho).
  destruct (rec c n) as [c'| |] eqn:Ec; cbn; [|done|done].
  destruct (Hrec _ _ Hc Ec) as [Hg' Hs']. intros [= <-]. exists c'. split; [done|]. split; [done|].
  destruct (decided c'); [by left|by right].
Qed.

Lemma child_node_0 T' j c l : cp_children (property_at T' j) = c :: l -> child_node (property_at T' j) 0 = c.
Proof. intros H. unfold child_node. by rewrite H. Qed.

Lemma child_node_1 T' j c d l : cp_children (property_at T' j) = c :: d :: l -> child_node (property_at T' j) 1 = d.
Proof. intros H. unfold child_node. by rewrite H. Qed.

Lemma not_ok rec q i i' :
  steps_ok T val q n rec -> goodn (p_not q) i -> decided i || (n <? start i) = false ->
  step_through p rec i 0 (start i) n true = Returns i' -> good1 (p_not q) i' /\ start i' = start i.
Proof.
  intros Hrec Hg Hi Hstep. pose proof (good_represents _ _ _ _ _ Hg) as Hrep.
  destruct (running_pending _ Hi) as [Hv Hs].
  assert (Hrep' := Hrep). destruct Hrep' as (_ & c0 & Hch & Hc0).
  assert (Hold : exists c, goodn q c /\ start c = start i /\
    ((operands i = [] /\ c = instance_new (child_node (property_at T (node i)) 0) (start i)) \/ operands i = [(0, c)])).
  { apply (good_running _ _ _ _ _ _ Hg Hi).
    - intros Es Hn. eexists. split; [|split; [|left; split; [by rewrite Hn|done]]]; [|done].
      rewrite (child_node_0 _ _ _ _ Hch). apply good_fresh; [done|lia].
    - intros Hlt _ [_ [[? _]|[[_ H]|(_ & _ & c & Ho & Hsc & Hc)]]]; [lia|by apply pending_unsettled in H|].
      exists c. auto. }
  destruct Hold as (c & Hc & Hsc & Ho).
  destruct (through_ok rec q i i' 0 (start i) true c Hrec Hc Ho Hstep) as (c' & Hc' & Hsc' & [[Hd ->]|[Hd ->]]).
  - split; [|done]. apply good_resolved; [done|cbn; lia|]. cbn.
    destruct (good_decided _ _ _ _ _ Hc' Hd) as [[-> HS]|[-> HS]]; cbn; rewrite Hsc', Hsc in HS;
      intros val' Ha Hsat; [by apply Hsat, HS|by apply (HS val' Ha)].
  - split; [|done]. split; [done|]. right. right. cbn. split; [lia|]. split; [done|].
    exists c'. split; [done|]. split; [congruence|done].
Qed.

(** The Boolean function of a two-operand operator. *)
(** What [combine] decides follows from the operands. *)
Lemma combine_ok kd p1 p2 i l r :
  two_operands kd = true -> represents T (node i) (connective kd p1 p2) -> start i < n + 1 ->
  operands i = [(0, l); (1, r)] -> verdict i = pending ->
  good1 p1 l -> good1 p2 r -> start l = start i -> start r = start i ->
  good1 (connective kd p1 p2) (combine kd i l r) /\ start (combine kd i l r) = start i.
Proof.
  intros Hkd Hrep Hs Ho Hv Hl Hr Sl Sr.
  assert (Hpend : good1 (connective kd p1 p2) i).
  { destruct kd; try done; (split; [done|]); right; right; (split; [done|]); (split; [done|]);
      exists l, r; done. }
  assert (Dl := good_decided _ _ _ _ _ Hl). assert (Dr := good_decided _ _ _ _ _ Hr).
  rewrite Sl in Dl. rewrite Sr in Dr.
  assert (Hres : forall (h v : bool), (forall val', agree (n + 1) val val' ->
      if h then satisfies val' (connective kd p1 p2) (start i) else ~ satisfies val' (connective kd p1 p2) (start i)) ->
    good1 (connective kd p1 p2) (resolve_to i h v) /\ start (resolve_to i h v) = start i).
  { intros h v H. split; [|done]. apply good_resolved; [done|done|]. destruct h; exact H. }
  destruct kd; try done; cbn [combine connective] in *;
    destruct (decided l) eqn:El, (decided r) eqn:Er; cbn [andb orb];
    try (specialize (Dl eq_refl); destruct Dl as [[Hhl Sl']|[Hhl Sl']]; rewrite ?Hhl);
    try (specialize (Dr eq_refl); destruct Dr as [[Hhr Sr']|[Hhr Sr']]; rewrite ?Hhr);
    cbn [andb orb negb Bool.eqb]; try done;
    apply Hres; intros val' Ha;
    try specialize (Sl' val' Ha); try specialize (Sr' val' Ha); unfold satisfies; fold (@satisfies Z); tauto.
Qed.

Lemma both_ok kd p1 p2 rec i i' :
  two_operands kd = true -> steps_ok T val p1 n rec -> steps_ok T val p2 n rec ->
  goodn (connective kd p1 p2) i -> decided i || (n <? start i) = false ->
  step_both p rec kd i n = Returns i' -> good1 (connective kd p1 p2) i' /\ start i' = start i.
Proof.
  intros Hkd Hrec1 Hrec2 Hg Hi Hstep. pose proof (good_represents _ _ _ _ _ Hg) as Hrep.
  destruct (running_pending _ Hi) as [Hv Hs].
  assert (Hch : exists c d, cp_children (property_at T (node i)) = [c; d] /\
    represents T c p1 /\ represents T d p2) by (destruct kd; try done; by destruct Hrep as [_ H]).
  destruct Hch as (c & d & Hch & Hc & Hd).
  assert (Hold : exists l r, goodn p1 l /\ goodn p2 r /\ start l = start i /\ start r = start i /\
    ((operands i = [] /\ l = instance_new (child_node (property_at p (node i)) 0) (start i)
       /\ r = instance_new (child_node (property_at p (node i)) 1) (start i)) \/ operands i = [(0, l); (1, r)])).
  { rewrite property_same. apply (good_running _ _ _ _ _ _ Hg Hi).
    - intros Es Hn. eexists _, _. split; [|split; [|split; [|split; [|left; split; [by rewrite Hn|split; done]]]]];
        [| |done|done].
      + rewrite (child_node_0 _ _ _ _ Hch). apply good_fresh; [done|lia].
      + rewrite (child_node_1 _ _ _ _ _ Hch). apply good_fresh; [done|lia].
    - intros Hlt _ Hg'. clear Hg Hstep Hrep. destruct kd; try done;
        destruct Hg' as [_ [[? _]|[[_ H]|(_ & _ & l & r & Ho & H1 & H2 & H3 & H4)]]];
        try lia; try (by apply pending_unsettled in H); exists l, r; auto 10. }
  destruct Hold as (l & r & Hl & Hr & Sl & Sr & Ho). rewrite (step_both_two p rec kd i n l r Ho) in Hstep.
  destruct (rec l n) as [l'| |] eqn:El; cbn in Hstep; [|done|done].
  destruct (rec r n) as [r'| |] eqn:Er; cbn in Hstep; [|done|done]. injection Hstep as <-.
  destruct (Hrec1 _ _ Hl El) as [Hl' Sl']. destruct (Hrec2 _ _ Hr Er) as [Hr' Sr'].
  apply (combine_ok kd p1 p2 (set_operands i [(0, l'); (1, r')])); try done; cbn; [lia|congruence|congruence].
Qed.

(** ** Conditionals and [nexttime] *)

(** The chosen operand decides; [X] is what the operator means by it. *)
Lemma chosen_ok rec P q i i' j k s c :
  steps_ok T val q n rec -> represents T (node j) P -> start j < n + 1 -> verdict j = pending ->
  node i = node j -> start i = start j -> goodn q c -> start c = s ->
  (operands i = [] /\ c = instance_new (child_node (property_at T (node i)) k) s) \/ operands i = [(k, c)] ->
  (forall val', agree (n + 1) val val' -> satisfies val' P (start j) <-> satisfies val' q s) ->
  (forall c', good1 q c' -> start c' = s -> good1 P (set_operands i [(k, c')])) ->
  step_through p rec i k s n false = Returns i' -> good1 P i' /\ start i' = start j.
Proof.
  intros Hrec Hrep Hs Hv En Es Hc Hsc Ho HX Hpend Hstep.
  destruct (through_ok rec q i i' k s false c Hrec Hc Ho Hstep) as (c' & Hc' & Hsc' & [[Hd ->]|[Hd ->]]).
  - split; [|done]. apply good_resolved; [by rewrite <- En in Hrep|cbn; lia|]. cbn. rewrite Es.
    destruct (good_decided _ _ _ _ _ Hc' Hd) as [[-> HS]|[-> HS]]; cbn; rewrite Hsc', Hsc in HS;
      intros val' Ha; rewrite (HX val' Ha); by apply HS.
  - split; [|done]. apply Hpend; [done|congruence].
Qed.

Lemma next_ok rec st k q i i' :
  steps_ok T val q n rec -> goodn (p_next st k q) i -> decided i || (n <? start i) = false ->
  step_through p rec i 0 (number (add (start i) (cp_lo (property_at p (node i))))) n false = Returns i' ->
  good1 (p_next st k q) i' /\ start i' = start i.
Proof.
  intros Hrec Hg Hi Hstep. pose proof (good_represents _ _ _ _ _ Hg) as Hrep.
  destruct (running_pending _ Hi) as [Hv Hs].
  assert (Hrep' := Hrep). destruct Hrep' as (_ & _ & Hlo & Hk & c0 & Hch & Hc0).
  rewrite property_same, Hlo in Hstep. cbn in Hstep.
  assert (Hold : exists c, goodn q c /\ start c = start i + k /\
    ((operands i = [] /\ c = instance_new (child_node (property_at T (node i)) 0) (start i + k)) \/ operands i = [(0, c)])).
  { apply (good_running _ _ _ _ _ _ Hg Hi).
    - intros Es Hn. eexists. split; [|split; [|left; split; [by rewrite Hn|done]]]; [|done].
      rewrite (child_node_0 _ _ _ _ Hch). apply good_fresh; [done|lia].
    - intros Hlt _ [_ [[? _]|[[_ H]|(_ & _ & c & Ho & Hsc & Hc)]]]; [lia|by apply pending_unsettled in H|].
      exists c. auto. }
  destruct Hold as (c & Hc & Hsc & Ho).
  eapply (chosen_ok rec _ q i i' i 0 _ c Hrec Hrep); [lia|done|done|done|done|done|done|done| |exact Hstep].
  intros c' Hc' Hsc'. split; [done|]. right. right. cbn. split; [lia|]. split; [done|]. exists c'. done.
Qed.

Lemma if_ok rec g q i i' :
  steps_ok T val q n rec -> goodn (p_if g q) i -> decided i || (n <? start i) = false ->
  step_conditional p rec (property_at p (node i)) i n = Returns i' -> good1 (p_if g q) i' /\ start i' = start i.
Proof.
  intros Hrec Hg Hi Hstep. pose proof (good_represents _ _ _ _ _ Hg) as Hrep.
  destruct (running_pending _ Hi) as [Hv Hs].
  assert (Hrep' := Hrep). destruct Hrep' as (_ & Hgd & c0 & Hch & Hc0).
  unfold step_conditional in Hstep. rewrite property_same, Hgd, Hch, Hval in Hstep.
  assert (Hgo : forall c, val (start i) g = true -> goodn q c -> start c = start i ->
    (operands i = [] /\ c = instance_new (child_node (property_at T (node i)) 0) (start i)) \/ operands i = [(0, c)] ->
    step_through p rec (set_chosen i 0) 0 (start i) n false = Returns i' -> good1 (p_if g q) i' /\ start i' = start i).
  { intros c Hvg Hc Hsc Ho Hst.
    eapply (chosen_ok rec _ q (set_chosen i 0) i' i 0 _ c Hrec Hrep); [lia|done|done|done|done|done|done| | |exact Hst].
    - intros val' Ha. unfold satisfies at 1; fold (@satisfies Z). rewrite Ha, Hvg by lia. naive_solver.
    - intros c' Hc' Hsc'. split; [done|]. right. right. cbn. split; [lia|]. split; [done|].
      split; [done|]. split; [done|]. exists c'. done. }
  apply (good_running _ _ _ _ _ _ Hg Hi).
  - intros Es Hn. rewrite Hn in Hstep at 1. cbn [chosen instance_new] in Hstep.
    destruct (val n g) eqn:Evg; cbn [size length] in Hstep.
    + replace (size [c0] <=? 0) with false in Hstep by done.
      eapply (Hgo (instance_new (child_node (property_at T (node i)) 0) (start i))); [by rewrite Es| |done| |exact Hstep].
      * rewrite (child_node_0 _ _ _ _ Hch). apply good_fresh; [done|lia].
      * left. split; [by rewrite Hn|done].
    + replace (size [c0] <=? 1) with true in Hstep by done. injection Hstep as <-.
      split; [|done]. apply good_resolved; [done|lia|]. cbn. intros val' Ha.
      unfold satisfies; fold (@satisfies Z). rewrite Ha, Es, Evg by lia. done.
  - intros Hlt _ [_ [[? _]|[[_ H]|(_ & _ & Hch' & Hvg & c & Ho & Hsc & Hc)]]]; [lia|by apply pending_unsettled in H|].
    rewrite Hch' in Hstep. eapply Hgo; [done|exact Hc|done| |exact Hstep]. by right.
Qed.

Lemma if_else_ok rec g q1 q2 i i' :
  steps_ok T val q1 n rec -> steps_ok T val q2 n rec ->
  goodn (p_if_else g q1 q2) i -> decided i || (n <? start i) = false ->
  step_conditional p rec (property_at p (node i)) i n = Returns i' ->
  good1 (p_if_else g q1 q2) i' /\ start i' = start i.
Proof.
  intros Hrec1 Hrec2 Hg Hi Hstep. pose proof (good_represents _ _ _ _ _ Hg) as Hrep.
  destruct (running_pending _ Hi) as [Hv Hs].
  assert (Hrep' := Hrep). destruct Hrep' as (_ & Hgd & c0 & d0 & Hch & Hc0 & Hd0).
  unfold step_conditional in Hstep. rewrite property_same, Hgd, Hch, Hval in Hstep.
  assert (Hgo : forall (b : bool) c, val (start i) g = b ->
    goodn (if b then q1 else q2) c -> start c = start i ->
    (operands i = [] /\ c = instance_new (child_node (property_at T (node i)) (if b then 0 else 1)) (start i))
      \/ operands i = [(if b then 0 else 1, c)] ->
    step_through p rec (set_chosen i (if b then 0 else 1)) (if b then 0 else 1) (start i) n false = Returns i' ->
    good1 (p_if_else g q1 q2) i' /\ start i' = start i).
  { intros b c Hvg Hc Hsc Ho Hst.
    eapply (chosen_ok rec _ (if b then q1 else q2) (set_chosen i (if b then 0 else 1)) i' i _ _ c);
      [by destruct b|done|lia|done|done|done|done|done|done| | |exact Hst].
    - intros val' Ha. unfold satisfies at 1; fold (@satisfies Z). rewrite Ha, Hvg by lia. by destruct b.
    - intros c' Hc' Hsc'. split; [done|]. right. right. cbn. split; [lia|]. split; [done|].
      rewrite Hvg. destruct b; (split; [done|]); exists c'; done. }
  apply (good_running _ _ _ _ _ _ Hg Hi).
  - intros Es Hn. rewrite Hn in Hstep at 1. cbn [chosen instance_new] in Hstep.
    destruct (val n g) eqn:Evg.
    + replace (size [c0; d0] <=? 0) with false in Hstep by done.
      apply (Hgo true (instance_new (child_node (property_at T (node i)) 0) (start i))); [by rewrite Es| |done| |exact Hstep].
      * rewrite (child_node_0 _ _ _ _ Hch). apply good_fresh; [done|lia].
      * left. split; [by rewrite Hn|done].
    + replace (size [c0; d0] <=? 1) with false in Hstep by done.
      apply (Hgo false (instance_new (child_node (property_at T (node i)) 1) (start i))); [by rewrite Es| |done| |exact Hstep].
      * rewrite (child_node_1 _ _ _ _ _ Hch). apply good_fresh; [done|lia].
      * left. split; [by rewrite Hn|done].
  - intros Hlt _ [_ [[? _]|[[_ H]|(_ & _ & H)]]]; [lia|by apply pending_unsettled in H|].
    destruct (val (start i) g) eqn:Evg; destruct H as (Hch' & c & Ho & Hsc & Hc); rewrite Hch' in Hstep.
    + apply (Hgo true c); [done|done|done|by right|exact Hstep].
    + apply (Hgo false c); [done|done|done|by right|exact Hstep].
Qed.

(** ** Operators with one operand per tick *)

(** The operand of tick [t] whose verdict stops the operator. *)
Lemma stopped_operand rec (un : bool) P X us us' c' :
  steps_ok T val P n rec -> (forall c, c ∈ us -> goodn P c /\ X (start c)) ->
  step_each rec n (fun c => if un then negb (holds c) else holds c) us = Returns (us', Some c') ->
  exists t, X t /\ if un then Unsat val (n + 1) P t else Sat val (n + 1) P t.
Proof.
  intros Hrec Hus Hst. apply step_each_spec in Hst as (c & Hc & Ec & Hd & Hstop).
  destruct (Hus c Hc) as [Hg HX]. destruct (Hrec _ _ Hg Ec) as [Hg' Hs'].
  exists (start c). split; [done|].
  destruct (good_decided _ _ _ _ _ Hg' Hd) as [[Hh HS]|[Hh HS]]; rewrite Hh in Hstop; rewrite Hs' in HS;
    by destruct un.
Qed.

(** Otherwise the operands left are those still running. *)
Lemma running_operands rec (un : bool) P X us us' :
  steps_ok T val P n rec -> covered val (good T val P) un P n X us ->
  step_each rec n (fun c => if un then negb (holds c) else holds c) us = Returns (us', None) ->
  covered val (good T val P) un P (n + 1) X (List.filter (fun c => negb (decided c)) us').
Proof.
  intros Hrec [H1 H2] Hst. apply step_each_spec in Hst. split.
  - intros c' Hc'. apply list_elem_of_In, filter_In in Hc' as [Hc' _]. apply list_elem_of_In in Hc'.
    apply list_elem_of_lookup in Hc' as [k Hk].
    destruct (Forall2_lookup_r _ _ _ _ _ Hst Hk) as (c & Hc & Ec & _).
    destruct (H1 c) as [Hg HX]; [by eapply list_elem_of_lookup_2|].
    destruct (Hrec _ _ Hg Ec) as [Hg' ->]. done.
  - intros t Ht. destruct (H2 t Ht) as [(c & Hc & Hs)|HD]; [|right; eapply Decided_mono; [|done]; lia].
    apply list_elem_of_lookup in Hc as [k Hk].
    destruct (Forall2_lookup_l _ _ _ _ _ Hst Hk) as (c' & Hc' & Ec & Hstop).
    destruct (H1 c) as [Hg _]; [by eapply list_elem_of_lookup_2|].
    destruct (Hrec _ _ Hg Ec) as [Hg' Hs']. destruct (decided c') eqn:Ed.
    + right. cbn in Hstop. rewrite <- Hs, <- Hs'.
      destruct (good_decided _ _ _ _ _ Hg' Ed) as [[Hh HS]|[Hh HS]]; rewrite Hh in Hstop; by destruct un.
    + left. exists c'. split; [|congruence]. apply list_elem_of_In, filter_In.
      split; [apply list_elem_of_In; by eapply list_elem_of_lookup_2|by rewrite Ed].
Qed.

Definition matched_at (r : Seq Z) (ov : bool) (s m : Z) (t : Z) : Prop :=
  exists e, s <= e < m /\ tight val r s (e + 1) /\ t = consequent ov e.

(** The antecedent's step: it may start one more consequent. *)
Lemma antecedent_step un ov r P i i1 :
  goodn (p_after un ov r P) i -> decided i || (n <? start i) = false ->
  step_antecedent fuel p (property_at p (node i)) i n = Returns i1 ->
  node i1 = node i /\ start i1 = start i /\ verdict i1 = verdict i /\
  antecedent_ok T val r (n + 1) i1 /\
  covered val (good T val P) un P n (matched_at r ov (start i) (n + 1)) (started i1).
Proof.
  intros Hg Hi. pose proof (good_represents _ _ _ _ _ Hg) as Hrep.
  destruct (running_pending _ Hi) as [Hv Hs].
  destruct Hrep as (_ & Hov & Hseq & c0 & Hch & Hc0). pose proof (proj1 Hseq) as Hr.
  assert (Hold : ((start i = n /\ matcher i = None /\ antecedent_done i = false) \/ antecedent_ok T val r n i) /\
    covered val (good T val P) un P n (matched_at r ov (start i) n) (started i)).
  { apply (good_running _ _ _ _ _ _ Hg Hi).
    - intros Es Hn. split; [left; by rewrite Hn|]. split.
      + rewrite Hn. intros c Hc. by apply not_elem_of_nil in Hc.
      + intros t (e & He & _). lia.
    - intros Hlt _ [_ [[? _]|[[_ H]|(_ & _ & Ha & Hc)]]]; [lia|by apply pending_unsettled in H|].
      split; [by right|done]. }
  destruct Hold as [Hant [Hc1 Hc2]]. unfold step_antecedent.
  destruct (match matcher i with Some _ => false | None => antecedent_done i end) eqn:Eskip.
  - intros [= <-]. destruct (matcher i) as [m|] eqn:Em; [done|].
    destruct Hant as [(_ & _ & H)|[[H _]|(_ & _ & Hno)]]; [congruence|congruence|].
    repeat (split; [done|]). split; [|split].
    + right. split; [done|]. split; [done|]. intros val' Ha e He. apply Hno; [|lia].
      eapply agree_le; [|done]. lia.
    + intros c Hc. destruct (Hc1 c Hc) as [Hgc (e & He & H)]. split; [done|]. exists e. split; [lia|done].
    + intros t (e & He & Ht & ->). apply Hc2. exists e. split; [|done].
      destruct (decide (e = n)) as [->|]; [|lia]. exfalso. apply (Hno val (agree_refl _ _) n); [lia|done].
  - assert (Hf : follows_seq T val (cp_sequence (property_at T (node i))) (start i) n (own_matcher p i)).
    { eapply own_follows; [done|done|]. destruct Hant as [(H1 & H2 & H3)|[(H1 & H2)|(H1 & H2 & _)]].
      - by left.
      - by right.
      - by rewrite H1, H2 in Eskip. }
    assert (Hdone : antecedent_done i = false).
    { destruct Hant as [(_ & _ & H)|[(H & _)|(H1 & H2 & _)]]; [done|done|]. by rewrite H1, H2 in Eskip. }
    destruct (matcher_step fuel p (own_matcher p i) n) as [[hit m']| |] eqn:Em; cbn; [|done|done].
    destruct (follows_step r _ _ _ _ _ Hseq Hs Hf Em) as (Hf' & Hhit & Hdead).
    rewrite property_same, (child_node_0 _ _ _ _ Hch), Hov.
    set (st := if hit then started i ++ [instance_new c0 (if ov then n else n + 1)] else started i).
    assert (Hst : covered val (good T val P) un P n (matched_at r ov (start i) (n + 1)) st).
    { unfold st. split.
      - intros c Hc. assert (Hcc : c ∈ started i \/ hit = true /\ c = instance_new c0 (consequent ov n)).
        { destruct hit; [|by left]. apply elem_of_app in Hc as [Hc|Hc]; [by left|right].
          by apply list_elem_of_singleton in Hc. }
        destruct Hcc as [Hcc|[Hh ->]].
        + destruct (Hc1 c Hcc) as [Hgc (e & He & H)]. split; [done|]. exists e. split; [lia|done].
        + split; [apply good_fresh; [done|unfold consequent; destruct ov; lia]|].
          exists n. split; [lia|]. split; [|done]. by apply (Hhit val (agree_refl _ _)).
      - intros t (e & He & Ht & ->). destruct (decide (e = n)) as [->|].
        + left. assert (hit = true) as -> by (by apply (Hhit val (agree_refl _ _))).
          exists (instance_new c0 (consequent ov n)). split; [|done].
          apply elem_of_app. right. by apply list_elem_of_singleton.
        + destruct (Hc2 (consequent ov e)) as [(c & Hc & Hsc)|HD]; [exists e; split; [lia|done]| |by right].
          left. exists c. split; [|done]. destruct hit; [apply elem_of_app; by left|done]. }
    intros [= <-]. destruct (dead m') eqn:Ed; cbn.
    + repeat (split; [done|]). split; [|done]. right. split; [done|]. split; [done|]. intros val' Ha e He. by apply Hdead.
    + repeat (split; [done|]). split; [|done]. left. split; [done|]. exists m'. by split.
Qed.

Lemma filter_nil_covered un P X us :
  covered val (good T val P) un P (n + 1) X us -> us = [] -> forall t, X t -> Decided val un (n + 1) P t.
Proof.
  intros [_ H] -> t Ht. destruct (H t Ht) as [(c & Hc & _)|HD]; [by apply not_elem_of_nil in Hc|done].
Qed.

Lemma after_ok rec un ov r P i i' :
  steps_ok T val P n rec -> goodn (p_after un ov r P) i -> decided i || (n <? start i) = false ->
  step_consequents fuel p rec (property_at p (node i)) i n = Returns i' ->
  good1 (p_after un ov r P) i' /\ start i' = start i.
Proof.
  intros Hrec Hg Hi. pose proof (good_represents _ _ _ _ _ Hg) as Hrep.
  destruct (running_pending _ Hi) as [Hv Hs].
  assert (Hrep' := Hrep). destruct Hrep' as (Hkind & Hov & Hseq & _). pose proof (proj1 Hseq) as Hr.
  unfold step_consequents.
  destruct (step_antecedent fuel p (property_at p (node i)) i n) as [i1| |] eqn:Ea; cbn [mbind result_bind]; [|done|done].
  destruct (antecedent_step _ _ _ _ _ _ Hg Hi Ea) as (En & Es & Ev & Hant & Hcov).
  rewrite property_same.
  assert (Eun : bool_decide (cp_kind (property_at T (node i)) = k_implication) = un)
    by (rewrite Hkind; by destruct un).
  rewrite Eun.
  destruct (step_each rec n _ (started i1)) as [[st o]| |] eqn:Est; cbn [mbind result_bind]; [|done|done].
  assert (Htight : forall val' e, agree (n + 1) val val' -> e < n + 1 ->
    tight val r (start i) (e + 1) <-> tight val' r (start i) (e + 1)).
  { intros val' e Ha He. apply (tight_agree val val' r (n + 1)); [done|done|lia]. }
  destruct o as [c'|].
  - intros [= <-]. destruct (stopped_operand rec un P _ _ _ _ Hrec (proj1 Hcov) Est) as (t & (e & He & Ht & ->) & HD).
    destruct un; (split; [|by cbn]); (apply good_resolved; [by rewrite En|rewrite Es; lia|rewrite Es]).
    + intros val' Ha Hsat. apply (HD val' Ha). apply Hsat; [lia|]. by apply (Htight val' e Ha ltac:(lia)).
    + intros val' Ha. exists e. split; [lia|]. split; [by apply (Htight val' e Ha ltac:(lia))|by apply HD].
  - pose proof (running_operands rec un P _ _ _ Hrec Hcov Est) as Hcov'.
    set (us := List.filter _ st) in *. intros [= <-].
    destruct (antecedent_done _ && bool_decide (us = [])) eqn:Edone.
    + apply andb_prop in Edone as [Hdn Hnil]. apply bool_decide_eq_true in Hnil. cbn in Hdn.
      pose proof (filter_nil_covered _ _ _ _ Hcov' Hnil) as Hall.
      destruct Hant as [[H _]|(_ & _ & Hno)]; [congruence|]. rewrite Es in Hno.
      destruct un; (split; [|by cbn]); (apply good_resolved; cbn; [by rewrite En|rewrite Es; lia|rewrite Es]).
      * intros val' Ha e He Ht. destruct (decide (n + 1 <= e)).
        -- exfalso. by eapply Hno.
        -- apply (Hall (consequent ov e)); [|done]. exists e. split; [lia|]. split; [|done].
           by apply (Htight val' e Ha ltac:(lia)).
      * intros val' Ha (e & He & Ht & Hsat). destruct (decide (n + 1 <= e)).
        -- by eapply Hno.
        -- apply (Hall (consequent ov e)) in Hsat; [done| |done]. exists e. split; [lia|]. split; [|done].
           by apply (Htight val' e Ha ltac:(lia)).
    + split; [|by cbn]. split; [cbn; by rewrite En|]. right. right. cbn. rewrite Es. split; [lia|].
      split; [by rewrite Ev|]. split; [|exact Hcov'].
      unfold antecedent_ok in *. cbn. rewrite Es in *. exact Hant.
Qed.

Lemma window_ok rec un st lo hi P i i' :
  steps_ok T val P n rec -> goodn (p_window un st lo hi P) i -> decided i || (n <? start i) = false ->
  step_window rec (property_at p (node i)) i n = Returns i' ->
  good1 (p_window un st lo hi P) i' /\ start i' = start i.
Proof.
  intros Hrec Hg Hi. pose proof (good_represents _ _ _ _ _ Hg) as Hrep.
  destruct (running_pending _ Hi) as [Hv Hs].
  assert (Hrep' := Hrep). destruct Hrep' as (Hkind & _ & Hlo & Hhi & Hrange & c0 & Hch & Hc0).
  set (X := fun m t => start i + lo <= t /\ upto (t - start i) hi /\ t < m).
  assert (Hcov : covered val (good T val P) un P n (X n) (started i)).
  { apply (good_running _ _ _ _ _ _ Hg Hi).
    - intros Es Hn. split; [rewrite Hn; intros c Hc; by apply not_elem_of_nil in Hc|].
      intros t (H1 & _ & H2). unfold range_ok in Hrange. lia.
    - intros Hlt _ [_ [[? _]|[[_ H]|(_ & _ & Hc)]]]; [lia|by apply pending_unsettled in H|done]. }
  unfold step_window. rewrite property_same, Hlo, Hhi, (child_node_0 _ _ _ _ Hch). change (number (add (start i) (Some lo))) with (start i + lo).
  assert (Eun : bool_decide (cp_kind (property_at T (node i)) = k_always) = un)
    by (rewrite Hkind; by destruct un).
  rewrite Eun. set (in_now := (start i + lo <=? n) && negb (ends_before (add (start i) hi) n)).
  assert (Hnow : in_now = true <-> X (n + 1) n).
  { unfold in_now, X, upto. destruct hi as [h|]; cbn; [|naive_solver lia].
    rewrite andb_true_iff, negb_true_iff, Z.ltb_ge, Z.leb_le. split; [intros; split; [lia|split; [|lia]]|].
    - intros ? [= <-]. lia.
    - intros (? & H & _). specialize (H _ eq_refl). lia. }
  set (us := if in_now then started i ++ _ else started i).
  assert (Hus : covered val (good T val P) un P n (X (n + 1)) us).
  { destruct Hcov as [H1 H2]. split.
    - intros c Hc. assert (Hcc : c ∈ started i \/ in_now = true /\ c = instance_new c0 n).
      { subst us. destruct in_now; [|by left]. apply elem_of_app in Hc as [Hc|Hc]; [by left|right].
        by apply list_elem_of_singleton in Hc. }
      destruct Hcc as [Hcc|[Hh ->]].
      + destruct (H1 c Hcc) as [Hgc (Ha & Hb & Hcx)]. split; [done|]. split; [done|]. split; [done|lia].
      + split; [apply good_fresh; [done|lia]|by apply Hnow].
    - intros t Ht. destruct (decide (t = n)) as [->|].
      + left. exists (instance_new c0 n). split; [|done]. apply Hnow in Ht. subst us. rewrite Ht.
        apply elem_of_app. right. by apply list_elem_of_singleton.
      + destruct (H2 t) as [(c & Hc & Hsc)|HD]; [destruct Ht as (?&?&?); split; [done|]; split; [done|lia]| |by right].
        left. exists c. split; [|done]. subst us. destruct in_now; [apply elem_of_app; by left|done]. }
  clearbody us. destruct (step_each rec n _ us) as [[us' o]| |] eqn:Est; cbn [mbind result_bind]; [|done|done].
  destruct o as [c'|].
  - intros [= <-]. destruct (stopped_operand rec un P _ _ _ _ Hrec (proj1 Hus) Est) as (t & (Ht1 & Ht2 & Ht3) & HD).
    destruct un; (split; [|by cbn]); (apply good_resolved; [done|lia|]).
    + intros val' Ha Hsat. apply (HD val' Ha). replace t with (start i + (t - start i)) by lia.
      apply Hsat; [lia|done].
    + intros val' Ha. exists (t - start i). split; [lia|]. split; [done|].
      replace (start i + (t - start i)) with t by lia. by apply HD.
  - pose proof (running_operands rec un P _ _ _ Hrec Hus Est) as Hcov'.
    set (vs := List.filter _ us') in *. intros [= <-].
    destruct (match add (start i) hi with Some l => _ | None => _ end) eqn:Edone.
    + destruct hi as [h|]; [|done]. cbn in Edone. apply andb_prop in Edone as [Hlast Hnil].
      apply bool_decide_eq_true in Hnil.
      pose proof (filter_nil_covered _ _ _ _ Hcov' Hnil) as Hall.
      assert (HX : forall k, lo <= k -> upto k (Some h) -> X (n + 1) (start i + k)).
      { intros k Hk Hu. specialize (Hu _ eq_refl) as Hu'. split; [lia|]. split; [|lia].
        by replace (start i + k - start i) with k by lia. }
      split; [|by destruct un]. apply good_resolved; [done|cbn; lia|]. destruct un.
      * intros val' Ha k Hk Hu. by apply (Hall (start i + k)); [apply HX|].
      * intros val' Ha (k & Hk & Hu & Hsat). by apply (Hall (start i + k)) in Hsat; [|apply HX|].
    + split; [|done]. split; [done|]. right. right. cbn. split; [lia|]. split; [done|exact Hcov'].
Qed.

(** ** Properties decided at their first tick *)

Definition decides_now (P : Prp Z) (rec : Instance_ -> Z -> Result Instance_) : Prop :=
  forall k c', represents T k P -> rec (instance_new k n) n = Returns c' -> decided c' = true.

Definition keeps_decided (rec : Instance_ -> Z -> Result Instance_) : Prop :=
  forall c c', decided c = true -> rec c n = Returns c' -> c' = c.

Lemma bool_dead k g hit m' :
  runs_seq T k (s_bool g) -> matcher_step fuel p (matcher_new (sequence_at T k) n) n = Returns (hit, m') ->
  hit = true \/ dead m' = true.
Proof.
  intros [_ (q & _ & (A & -> & _) & B)]. pose proof (matcher_new_ok (sequence_at T k) n) as Hm.
  rewrite (matcher_step_plain _ _ _ _ _ Hclock Hm). cbn [threads matcher_new].
  destruct fuel as [|f]; [done|]. cbn [drain]. unfold run.
  rewrite multiclocked_now by done. destruct f as [|f]; [done|].
  cbn -[matched drop_matched]. unfold at_ in A. cbn in A. rewrite A. cbn -[drop_matched].
  unfold run_check. cbn -[drop_matched]. rewrite Z.ltb_irrefl, Hval. cbn -[drop_matched].
  destruct (val n g); cbn -[drop_matched].
  - destruct f as [|f]; [done|]. cbn -[drop_matched]. unfold at_ in B. cbn in B. rewrite B.
    unfold run_op, run_match, settle. cbn -[drop_matched].
    replace (n + 1 - 1) with n by lia. rewrite Z.ltb_irrefl. cbn -[drop_matched].
    rewrite drop_matched_none by done. cbn. intros [= <- <-]. by left.
  - rewrite drop_matched_none by done. cbn. intros [= <- <-]. by right.
Qed.

Lemma sequence_decides st g : decides_now (p_seq st (s_bool g)) (fun i n => step_sequence fuel p i n).
Proof.
  intros k c' (_ & _ & Hseq). unfold step_sequence, own_matcher. cbn [matcher node start instance_new].
  rewrite property_same, sequence_same.
  destruct (matcher_step fuel p _ n) as [[hit m']| |] eqn:Em; cbn; [|done|done].
  intros [= <-]. destruct (bool_dead _ _ _ _ Hseq Em) as [->| ->]; [done|]. by destruct hit.
Qed.

Lemma through_decides rec P k j i i' neg c0 :
  decides_now P rec -> operands i = [] -> node i = k -> start i = n ->
  child_node (property_at T k) j = c0 -> represents T c0 P ->
  step_through p rec i j n n neg = Returns i' -> decided i' = true.
Proof.
  intros Hd Ho <- Hs Hc Hrep. unfold step_through.
  rewrite (step_child_one p rec i j n n (instance_new c0 n)) by (left; by rewrite property_same, Hc).
  destruct (rec (instance_new c0 n) n) as [c'| |] eqn:Ec; cbn; [|done|done].
  rewrite (Hd _ _ Hrep Ec). intros [= <-]. by destruct neg, (holds c').
Qed.

Lemma both_decides rec kd P Q k i' c0 d0 :
  decides_now P rec -> decides_now Q rec -> cp_children (property_at T k) = [c0; d0] ->
  represents T c0 P -> represents T d0 Q ->
  kd ∈ [k_conjunction; k_disjunction; k_equivalence; k_implies] ->
  step_both p rec kd (instance_new k n) n = Returns i' -> decided i' = true.
Proof.
  intros Hp Hq Hch Hc0 Hd0 Hkd.
  erewrite step_both_two; [|left; split; [done|]; by split].
  cbn [node start instance_new]. rewrite property_same, (child_node_0 _ _ _ _ Hch), (child_node_1 _ _ _ _ _ Hch).
  destruct (rec (instance_new c0 n) n) as [l'| |] eqn:El; cbn [mbind result_bind]; [|done|done].
  destruct (rec (instance_new d0 n) n) as [r'| |] eqn:Er; cbn [mbind result_bind]; [|done|done].
  intros [= <-]. unfold combine. rewrite (Hp _ _ Hc0 El), (Hq _ _ Hd0 Er).
  rewrite !elem_of_cons, elem_of_nil in Hkd.
  destruct Hkd as [->|[->|[->|[->|[]]]]]; by destruct (holds l'), (holds r').
Qed.

Lemma immediate_decides P depth : immediate P = true -> decides_now P (instance_step depth fuel p).
Proof.
  revert depth. induction P as [st r|q IH|q1 IH1 q2 IH2|q1 IH1 q2 IH2|q1 IH1 q2 IH2|q1 IH1 q2 IH2
    |un ov r q IH|g q IH|g q1 IH1 q2 IH2|st j q IH|un st lo hi q IH|st q1 IH1 q2 IH2];
    cbn [immediate]; intros depth Him k c' Hrep; try done; (destruct depth as [|depth]; [done|]);
    cbn [instance_step]; unfold step_body; cbn [decided verdict start instance_new node];
    rewrite Z.ltb_irrefl; cbn [orb]; rewrite property_same;
    repeat match goal with H : _ && _ = true |- _ => apply andb_prop in H as [? ?] end.
  - destruct r; try done. rewrite (proj1 Hrep). by eapply sequence_decides.
  - destruct Hrep as (-> & c0 & Hch & Hc0).
    eapply through_decides; [by apply (IH depth)|done..| |done]. by eapply child_node_0.
  - destruct Hrep as (Hk & c0 & d0 & Hch & Hc0 & Hd0). rewrite !Hk.
    eapply both_decides; [by apply (IH1 depth)|by apply (IH2 depth)|done..|set_solver].
  - destruct Hrep as (Hk & c0 & d0 & Hch & Hc0 & Hd0). rewrite !Hk.
    eapply both_decides; [by apply (IH1 depth)|by apply (IH2 depth)|done..|set_solver].
  - destruct Hrep as (Hk & c0 & d0 & Hch & Hc0 & Hd0). rewrite !Hk.
    eapply both_decides; [by apply (IH1 depth)|by apply (IH2 depth)|done..|set_solver].
  - destruct Hrep as (Hk & c0 & d0 & Hch & Hc0 & Hd0). rewrite !Hk.
    eapply both_decides; [by apply (IH1 depth)|by apply (IH2 depth)|done..|set_solver].
  - destruct Hrep as (-> & _ & c0 & Hch & Hc0). unfold step_conditional. cbn [chosen instance_new].
    rewrite Hch. destruct (guard p _).
    + change (size [c0] <=? 0) with false. cbn iota.
      eapply (through_decides _ q k); [by apply (IH depth)|done..| |done]. by eapply child_node_0.
    + change (size [c0] <=? 1) with true. by intros [= <-].
  - destruct Hrep as (-> & _ & c0 & d0 & Hch & Hc0 & Hd0). unfold step_conditional. cbn [chosen instance_new].
    rewrite Hch. destruct (guard p _).
    + change (size [c0; d0] <=? 0) with false. cbn iota.
      eapply (through_decides _ q1 k); [by apply (IH1 depth)|done..| |done]. by eapply child_node_0.
    + change (size [c0; d0] <=? 1) with false. cbn iota.
      eapply (through_decides _ q2 k); [by apply (IH2 depth)|done..| |done]. by eapply child_node_1.
Qed.

Lemma step_keeps_decided depth : keeps_decided (instance_step depth fuel p).
Proof.
  intros c c' Hd. destruct depth as [|depth]; [done|]. cbn [instance_step]. unfold step_body. rewrite Hd. cbn.
  by intros [= <-].
Qed.

(** ** Until *)

(** Operands with consecutive start ticks from [f] on, after the step. *)
Definition entries (P Q : Prp Z) (f : Z) (us : list (Instance_ * Instance_)) : Prop :=
  forall k a b, us !! k = Some (a, b) ->
    good1 P a /\ good1 Q b /\ start a = f + Z.of_nat k /\ start b = f + Z.of_nat k /\ decided a = true.

Lemma entries_tail P Q f x us : entries P Q f (x :: us) -> entries P Q (f + 1) us.
Proof.
  intros H k a b Hk. destruct (H (S k) a b Hk) as (H1 & H2 & H3 & H4 & H5).
  split_and!; [done..|lia|lia|done].
Qed.

Lemma entries_head P Q f a b us : entries P Q f ((a, b) :: us) ->
  (decided b = false \/ (decided b = true /\ holds b = true /\ Sat val (n + 1) Q f)
     \/ (decided b = true /\ holds b = false /\ Unsat val (n + 1) Q f)) /\
  ((decided a = true /\ holds a = true /\ Sat val (n + 1) P f)
     \/ (decided a = true /\ holds a = false /\ Unsat val (n + 1) P f)).
Proof.
  intros H. destruct (H 0%nat a b eq_refl) as (H1 & H2 & H3 & H4 & H5).
  replace (f + Z.of_nat 0) with f in * by lia. rewrite <- H3 at 3 4. rewrite <- H4 at 1 2. split.
  - destruct (decided b) eqn:Eb; [right|by left].
    destruct (good_decided _ _ _ _ _ H2 Eb) as [[? ?]|[? ?]]; [by left|by right].
  - destruct (good_decided _ _ _ _ _ H1 H5) as [[? ?]|[? ?]]; [by left|by right].
Qed.

(** The second loop: why it decides. *)
Lemma scan_ok P Q us f rp stopped scan st :
  entries P Q f us -> until_scan us true rp stopped = (scan, st) ->
  match scan with
  | Decides true => exists t, f <= t /\ Sat val (n + 1) Q t /\ forall j, f <= j < t -> Sat val (n + 1) P j
  | Decides false => rp = false /\ exists t, f <= t /\ Unsat val (n + 1) P t /\
      forall j, f <= j <= t -> Unsat val (n + 1) Q j
  | Leaves => st = true
  | Finishes => st = stopped /\ Forall (fun x => holds x.1 = true) us
  end.
Proof.
  revert f rp stopped. induction us as [|[a b] us IH]; intros f rp stopped He; cbn.
  - by intros [= <- <-].
  - destruct (entries_head _ _ _ _ _ _ He) as [Hb Ha]. specialize (IH _ rp stopped (entries_tail _ _ _ _ _ He)) as IH1.
    specialize (IH _ true stopped (entries_tail _ _ _ _ _ He)).
    destruct Hb as [Eb|[(Eb & Hb & Sb)|(Eb & Hb & Sb)]]; rewrite ?Eb, ?Hb; cbn [andb negb orb].
    + rewrite orb_true_r, orb_false_r. destruct Ha as [(Ea & Hh & Sa)|(Ea & Hh & Sa)]; rewrite Ea, Hh; cbn [andb negb].
      * intros Hu. specialize (IH Hu). destruct scan as [[]| |]; [|by destruct IH| |].
        -- destruct IH as (t & Ht & St & Hj). exists t. split; [lia|]. split; [done|]. intros j Hj'.
           destruct (decide (j = f)) as [->|]; [done|]. apply Hj. lia.
        -- done.
        -- destruct IH as [-> Hf]. split; [done|]. by constructor.
      * by intros [= <- <-].
    + intros [= <- <-]. exists f. split; [lia|]. split; [done|lia].
    + rewrite !orb_false_r. destruct Ha as [(Ea & Hh & Sa)|(Ea & Hh & Sa)]; rewrite Ea, Hh; cbn [andb negb].
      * intros Hu. specialize (IH1 Hu). destruct scan as [[]| |].
        -- destruct IH1 as (t & Ht & St & Hj). exists t. split; [lia|]. split; [done|]. intros j Hj'.
           destruct (decide (j = f)) as [->|]; [done|]. apply Hj. lia.
        -- destruct IH1 as (-> & t & Ht & St & Hj). split; [done|]. exists t. split; [lia|]. split; [done|].
           intros j Hj'. destruct (decide (j = f)) as [->|]; [done|]. apply Hj. lia.
        -- done.
        -- destruct IH1 as [-> Hf]. split; [done|]. by constructor.
      * destruct rp; intros [= <- <-]; [done|]. split; [done|]. exists f. split; [lia|]. split; [done|].
        intros j Hj. by replace j with f by lia.
Qed.

(** The last loop drops ticks that hold on the left and fail on the right. *)
Lemma drop_ok P Q us f :
  entries P Q f us -> exists j, drop_settled us = drop j us /\ (j <= length us)%nat /\
    forall t, f <= t < f + Z.of_nat j -> Sat val (n + 1) P t /\ Unsat val (n + 1) Q t.
Proof.
  revert f. induction us as [|[a b] us IH]; intros f He; cbn [drop_settled].
  - exists 0%nat. split; [done|]. split; [done|lia].
  - destruct (decided a && holds a && decided b && negb (holds b)) eqn:Ed.
    + destruct (IH _ (entries_tail _ _ _ _ _ He)) as (j & -> & Hj & Ht). exists (S j). split; [done|].
      split; [cbn; lia|]. intros t Hlt. destruct (decide (t = f)) as [->|]; [|apply Ht; lia].
      destruct (entries_head _ _ _ _ _ _ He) as [Hb Ha].
      destruct Ha as [(Ea & Hh & Sa)|(Ea & Hh & Sa)]; rewrite Ea, Hh in Ed; [|done].
      destruct Hb as [Eb|[(Eb & Hb & Sb)|(Eb & Hb & Sb)]]; rewrite Eb in Ed; [done| |done]. by rewrite Hb in Ed.
    + exists 0%nat. split; [done|]. split; [lia|lia].
Qed.

Lemma step_pairs_spec rec us us' :
  step_pairs rec n us = Returns us' ->
  Forall2 (fun x x' => rec x.1 n = Returns x'.1 /\ rec x.2 n = Returns x'.2) us us'.
Proof.
  revert us'. induction us as [|[a b] us IH]; intros us'; cbn; [by intros [= <-]|].
  destruct (rec a n) as [a'| |] eqn:Ea; cbn; [|done|done].
  destruct (rec b n) as [b'| |] eqn:Eb; cbn; [|done|done].
  destruct (step_pairs rec n us) as [us1| |] eqn:Eu; cbn; [|done|done].
  intros [= <-]. constructor; [done|]. by apply IH.
Qed.

(** The operands of tick [n], the new ones included. *)
Record before_ok (P Q : Prp Z) (s : Z) (stopped : bool) (us : list (Instance_ * Instance_)) (f : Z) : Prop := {
  be_first : s <= f;
  be_before : forall t, s <= t < f -> Sat val n P t /\ Unsat val n Q t;
  be_entries : forall k a b, us !! k = Some (a, b) ->
    goodn P a /\ goodn Q b /\ start a = f + Z.of_nat k /\ start b = f + Z.of_nat k;
  be_left : forall k a b, us !! k = Some (a, b) ->
    (decided a = true /\ (holds a = true \/ S k = length us)) \/
    (exists c, a = instance_new c n /\ represents T c P /\ S k = length us);
  be_length : stopped = false -> f + size us = n + 1;
  be_end : f + size us <= n + 1;
}.

Lemma until_before P Q s stopped us f c0 d0 :
  until_ok val (good T val P) (good T val Q) P Q n s stopped us f -> represents T c0 P -> represents T d0 Q ->
  before_ok P Q s stopped (if stopped then us else us ++ [(instance_new c0 n, instance_new d0 n)]) f.
Proof.
  intros [U1 U2 U3 U4 U5 U6] Hc Hd. destruct stopped.
  - split; [done..| |done|lia]. intros k a b Hk. destruct (U4 k a b Hk) as [H1 H2]. left. split; [done|tauto].
  - specialize (U5 eq_refl).
    assert (Hcase : forall k a b, (us ++ [(instance_new c0 n, instance_new d0 n)]) !! k = Some (a, b) ->
      us !! k = Some (a, b) \/ (k = length us /\ a = instance_new c0 n /\ b = instance_new d0 n)).
    { intros k a b [Hk|[Hk Hk']]%lookup_app_Some; [by left|right].
      apply list_lookup_singleton_Some in Hk' as [? [= <- <-]]. split; [lia|done]. }
    split; [done|done| | | |].
    + intros k a b [Hk|(-> & -> & ->)]%Hcase; [by apply U3|].
      split; [by apply good_fresh|]. split; [by apply good_fresh|]. cbn. unfold size in U5. lia.
    + intros k a b [Hk|(-> & -> & ->)]%Hcase.
      * left. destruct (U4 k a b Hk) as [H1 [H2|[H2 _]]]; [|done]. auto.
      * right. exists c0. rewrite length_app. cbn. split; [done|]. split; [done|lia].
    + intros _. unfold size in *. rewrite length_app. cbn. lia.
    + unfold size in *. rewrite length_app. cbn. lia.
Qed.

Lemma until_after rec P Q s stopped us us' f :
  steps_ok T val P n rec -> steps_ok T val Q n rec -> decides_now P rec -> keeps_decided rec ->
  before_ok P Q s stopped us f -> step_pairs rec n us = Returns us' ->
  entries P Q f us' /\ length us' = length us /\
  forall k a b, us' !! k = Some (a, b) -> holds a = true \/ S k = length us'.
Proof.
  intros HP HQ Hnow Hkeep [B1 B2 B3 B4 B5 B6] Hst. apply step_pairs_spec in Hst.
  pose proof (Forall2_length _ _ _ Hst) as Hlen.
  assert (H : forall k a b, us' !! k = Some (a, b) ->
    (good1 P a /\ good1 Q b /\ start a = f + Z.of_nat k /\ start b = f + Z.of_nat k /\ decided a = true) /\
    (holds a = true \/ S k = length us)).
  { intros k a b Hk. destruct (Forall2_lookup_r _ _ _ _ _ Hst Hk) as ([a0 b0] & Hk0 & Ea & Eb). cbn in Ea, Eb.
    destruct (B3 _ _ _ Hk0) as (Ga & Gb & Sa & Sb).
    destruct (HP _ _ Ga Ea) as [Ga' Sa']. destruct (HQ _ _ Gb Eb) as [Gb' Sb'].
    destruct (B4 _ _ _ Hk0) as [[Hd Hh]|(c & -> & Hc & Hl)].
    - rewrite (Hkeep _ _ Hd Ea) in *. split; [|done]. split_and!; [done..|congruence|congruence|done].
    - split; [|by right]. split_and!; [done..|congruence|congruence|]. by eapply Hnow. }
  split; [|split; [lia|]].
  - intros k a b Hk. by apply H.
  - intros k a b Hk. rewrite <- Hlen. by eapply H.
Qed.

Lemma until_step rec st P Q i i' :
  steps_ok T val P n rec -> steps_ok T val Q n rec -> decides_now P rec -> keeps_decided rec ->
  goodn (p_until st P Q) i -> decided i || (n <? start i) = false ->
  step_until p rec i n = Returns i' -> good1 (p_until st P Q) i' /\ start i' = start i.
Proof.
  intros HP HQ Hnow Hkeep Hg Hi. pose proof (good_represents _ _ _ _ _ Hg) as Hrep.
  destruct (running_pending _ Hi) as [Hv Hs].
  assert (Hrep' := Hrep). destruct Hrep' as (_ & _ & _ & c0 & d0 & Hch & Hc0 & Hd0).
  assert (Hold : exists f, until_ok val (good T val P) (good T val Q) P Q n (start i) (until_stopped i) (until_ i) f).
  { apply (good_running _ _ _ _ _ _ Hg Hi).
    - intros Es Hn. exists n. rewrite Hn. cbn. split; [done|intros; lia|intros; done|intros; done|unfold size; cbn; lia|unfold size; cbn; lia].
    - intros Hlt _ [_ [[? _]|[[_ H]|(_ & _ & Hu)]]]; [lia|by apply pending_unsettled in H|done]. }
  destruct Hold as (f & Hu). unfold step_until.
  rewrite property_same, (child_node_0 _ _ _ _ Hch), (child_node_1 _ _ _ _ _ Hch).
  pose proof (until_before _ _ _ _ _ _ _ _ Hu Hc0 Hd0) as HB.
  destruct (step_pairs rec n _) as [us| |] eqn:Est; cbn [mbind result_bind]; [|done|done].
  destruct (until_after _ _ _ _ _ _ _ _ HP HQ Hnow Hkeep HB Est) as (He & Hlen & Hleft).
  destruct HB as [B1 B2 _ _ B5 B6]. unfold size in B5, B6. rewrite <- Hlen in B5, B6.
  destruct (until_scan us true false (until_stopped i)) as [scan stopped] eqn:Esc.
  pose proof (scan_ok _ _ _ _ _ _ _ _ He Esc) as Hscan.
  assert (Hbefore : forall t, start i <= t < f -> Sat val (n + 1) P t /\ Unsat val (n + 1) Q t).
  { intros t Ht. destruct (B2 t Ht) as [H1 H2]. split; [eapply Sat_mono; [|done]|eapply Unsat_mono; [|done]]; lia. }
  intros [= <-]. destruct scan as [[]| |].
  - destruct Hscan as (t & Ht & St & Hj). split; [|done]. apply good_resolved; [done|cbn; lia|].
    intros val' Ha. left. exists t. cbn. split; [lia|]. split; [by apply St|]. intros j Hj'.
    destruct (decide (j < f)); [apply (Hbefore j); [lia|done]|apply (Hj j); [lia|done]].
  - destruct Hscan as (_ & t & Ht & St & Hj). split; [|done]. apply good_resolved; [done|cbn; lia|].
    intros val' Ha [(k & Hk & Sk & Hp)|[_ Hp]]; cbn in *; [|apply (St val' Ha), Hp; lia].
    destruct (decide (k <= t)).
    + destruct (decide (k < f)); [by apply (Hbefore k ltac:(lia)) in Sk|]. by apply (Hj k ltac:(lia)) in Sk.
    + apply (St val' Ha), Hp. lia.
  - subst stopped. split; [|done]. split; [done|]. right. right. cbn. split; [lia|]. split; [done|].
    exists f. split; [done|done| | |done|unfold size; lia].
    + intros k a b Hk. destruct (He k a b Hk) as (?&?&?&?&?). done.
    + intros k a b Hk. destruct (He k a b Hk) as (?&?&?&?&?). split; [done|].
      destruct (Hleft k a b Hk); [by left|right; done].
  - destruct Hscan as [-> Hall]. split; [|done]. split; [done|]. right. right. cbn. split; [lia|]. split; [done|].
    destruct (drop_ok _ _ _ _ He) as (j & -> & Hj & Hdrop). exists (f + Z.of_nat j).
    split; [lia| | | | |].
    + intros t Ht. destruct (decide (t < f)); [apply Hbefore; lia|apply Hdrop; lia].
    + intros k a b Hk. rewrite lookup_drop in Hk. destruct (He _ a b Hk) as (?&?&?&?&?).
      split_and!; [done|done|lia|lia].
    + intros k a b Hk. rewrite lookup_drop in Hk. destruct (He _ a b Hk) as (?&?&?&?&?). split; [done|].
      left. by apply (Forall_lookup_1 _ _ _ _ Hall Hk).
    + intros Hst. specialize (B5 Hst). unfold size. rewrite length_drop. lia.
    + unfold size. rewrite length_drop. lia.
Qed.

(** ** A step of an instance *)

Lemma step_good P depth : steps_ok T val P n (instance_step depth fuel p).
Proof.
  revert depth. induction P as [st r|q IH|q1 IH1 q2 IH2|q1 IH1 q2 IH2|q1 IH1 q2 IH2|q1 IH1 q2 IH2
    |un ov r q IH|g q IH|g q1 IH1 q2 IH2|st j q IH|un st lo hi q IH|st q1 IH1 q2 IH2];
    intros [|depth] i i' Hg; try done; cbn [instance_step]; unfold step_body;
    (destruct (decided i || (n <? start i)) eqn:Hi; [intros [= <-]; by split; [apply good_idle|]|]);
    pose proof (good_represents _ _ _ _ _ Hg) as Hrep; rewrite !property_same;
    pose proof (proj1 Hrep) as Hk; rewrite ?Hk.
  - by apply sequence_ok.
  - by apply (not_ok _ q).
  - intros Hst. by apply (both_ok k_conjunction q1 q2 (instance_step depth fuel p) i i').
  - intros Hst. by apply (both_ok k_disjunction q1 q2 (instance_step depth fuel p) i i').
  - intros Hst. by apply (both_ok k_equivalence q1 q2 (instance_step depth fuel p) i i').
  - intros Hst. by apply (both_ok k_implies q1 q2 (instance_step depth fuel p) i i').
  - destruct un; intros Hst; (eapply after_ok; [apply (IH depth)|done|done|]); by rewrite property_same.
  - intros Hst. eapply if_ok; [apply (IH depth)|done|done|]. by rewrite property_same.
  - intros Hst. eapply if_else_ok; [apply (IH1 depth)|apply (IH2 depth)|done|done|]. by rewrite property_same.
  - intros Hst. eapply next_ok; [apply (IH depth)|done|done|]. by rewrite property_same.
  - destruct un; intros Hst; (eapply window_ok; [apply (IH depth)|done|done|]); by rewrite property_same.
  - intros Hst. eapply until_step; [apply (IH1 depth)|apply (IH2 depth)| |apply step_keeps_decided|done|done|done].
    apply immediate_decides. apply Hrep.
Qed.
End Operators.
