(* ===== verification/SvaProperty.v ===== *)
(** * The compiler lays out the nodes of a property

    [SvaCompile.compile_property_node] on the property forms of [SvaSemantics]:
    in the tables a monitor builds from the plan, the node of a property
    represents it ([property_program]). *)
From stdpp Require Import gmap.
From S2P Require Import Prelude SvaPlan SvaMatcher SvaEngine SvaCompile SvaReach SvaStep SvaSequence SvaEmit.
From S2P Require Import SvaSemantics SvaVerdict.
From stdpp Require Import options.

(** ** What a node denotes *)

(** The property of a node, over the spellings of its expressions; [None] for
    [accept_on] and [reject_on] and for sequences outside [SvaEmit.denote]. *)
Fixpoint denote_property (bv : string -> Z) (n : Node) : option (Prp string) :=
  let two (f : Prp string -> Prp string -> Prp string) l r :=
    l ← denote_property bv l; r ← denote_property bv r; Some (f l r) in
  match n with
  | n_strong s => r ← denote bv s; Some (p_seq true r)
  | n_weak s => r ← denote bv s; Some (p_seq false r)
  | n_negation p => p ← denote_property bv p; Some (p_not p)
  | n_conjunction l r => two p_and l r
  | n_disjunction l r => two p_or l r
  | n_equivalence l r => two p_iff l r
  | n_implies l r => two p_implies l r
  | n_implication ov s r => s ← denote bv s; r ← denote_property bv r; Some (p_after true ov s r)
  | n_followed_by ov s r => s ← denote bv s; r ← denote_property bv r; Some (p_after false ov s r)
  | n_if t l => l ← denote_property bv l; Some (p_if (spelling t) l)
  | n_if_else t l r => two (p_if_else (spelling t)) l r
  | n_nexttime st lo p => k ← bound_value bv lo; p ← denote_property bv p; Some (p_next st k p)
  | n_always st lo hi p =>
      l ← bound_value bv lo; p ← denote_property bv p; Some (p_window true st l (bound_value bv hi) p)
  | n_eventually st lo hi p =>
      l ← bound_value bv lo; p ← denote_property bv p; Some (p_window false st l (bound_value bv hi) p)
  | n_until st wth l r =>
      two (fun l r => p_until st l (if (wth : bool) then p_and l r else r)) l r
  | n_accept _ _ _ | n_reject _ _ _ => None
  | _ => r ← denote bv n; Some (p_seq false r)
  end.

(** Regular sequences, ranges in order, and left operands of [until] that are
    decided at once. *)
Fixpoint well_formed {A} (P : Prp A) : bool :=
  match P with
  | p_seq _ r => regular r
  | p_not p | p_if _ p => well_formed p
  | p_and p q | p_or p q | p_iff p q | p_implies p q | p_if_else _ p q => well_formed p && well_formed q
  | p_after _ _ r p => regular r && well_formed p
  | p_next _ k p => (0 <=? k) && well_formed p
  | p_window _ _ lo hi p => range_ok lo hi && well_formed p
  | p_until _ p q => immediate p && well_formed p && well_formed q
  end.

(** The expressions of a property. *)
Fixpoint prp_atoms {A} (P : Prp A) : list A :=
  match P with
  | p_seq _ r => atoms r
  | p_not p | p_next _ _ p | p_window _ _ _ _ p => prp_atoms p
  | p_and p q | p_or p q | p_iff p q | p_implies p q | p_until _ p q => prp_atoms p ++ prp_atoms q
  | p_after _ _ r p => atoms r ++ prp_atoms p
  | p_if g p => g :: prp_atoms p
  | p_if_else g p q => g :: prp_atoms p ++ prp_atoms q
  end.

Lemma immediate_map {A B} (f : A -> B) P : immediate (prp_map f P) = immediate P.
Proof. induction P as [st []| | | | | | | | | | |]; cbn; congruence. Qed.

(** ** Values of the expressions that occur *)

Section Atoms.
Context {A : Type}.

Lemma tight_atoms (v w : Z -> A -> bool) r i j :
  (forall n a, a ∈ atoms r -> v n a = w n a) -> tight v r i j <-> tight w r i j.
Proof.
  revert i j. induction r as [g|r1 IH1 r2 IH2|lo hi r1 IH1 r2 IH2|lo hi r IH|lo hi r IH|r1 IH1 r2 IH2];
    cbn [atoms tight]; intros i j H.
  - rewrite H; [done|set_solver].
  - setoid_rewrite IH1; [|set_solver]. setoid_rewrite IH2; [done|set_solver].
  - setoid_rewrite IH1; [|set_solver]. setoid_rewrite IH2; [done|set_solver].
  - setoid_rewrite IH; [done|set_solver].
  - assert (Ht : forall k i, times (tight v r) k i j <-> times (tight w r) k i j).
    { induction k as [|k IHk]; intros i'; cbn; [done|]. setoid_rewrite IHk. setoid_rewrite IH; [done|set_solver]. }
    by setoid_rewrite Ht.
  - rewrite IH1, IH2; [done|set_solver..].
Qed.

Lemma satisfies_atoms (v w : Z -> A -> bool) P i :
  (forall n a, a ∈ prp_atoms P -> v n a = w n a) -> satisfies v P i <-> satisfies w P i.
Proof.
  revert i. induction P as [st r|p IH|p IHp q IHq|p IHp q IHq|p IHp q IHq|p IHp q IHq
    |un ov r p IH|g p IH|g p IHp q IHq|st k p IH|un st lo hi p IH|st p IHp q IHq]; intros i; cbn; intros H.
  - assert (Ht : forall n j, tight (topped n v) r i j <-> tight (topped n w) r i j).
    { intros n j. apply tight_atoms. intros m a Ha. unfold topped. by rewrite H. }
    assert (Hs : forall j, tight v r i j <-> tight w r i j) by (intros; by apply tight_atoms).
    destruct st; [by setoid_rewrite Hs|by setoid_rewrite Ht].
  - rewrite IH; [done|set_solver].
  - rewrite IHp, IHq; [done|set_solver..].
  - rewrite IHp, IHq; [done|set_solver..].
  - rewrite IHp, IHq; [done|set_solver..].
  - rewrite IHp, IHq; [done|set_solver..].
  - assert (Ht : forall i j, tight v r i j <-> tight w r i j) by (intros; apply tight_atoms; set_solver).
    assert (Hp : forall i, satisfies v p i <-> satisfies w p i) by (intros; apply IH; set_solver).
    destruct un; setoid_rewrite Ht; by setoid_rewrite Hp.
  - rewrite IH, H; [done|set_solver..].
  - rewrite H by set_solver. destruct (w i g); [apply IHp|apply IHq]; set_solver.
  - apply IH. set_solver.
  - assert (Hp : forall i, satisfies v p i <-> satisfies w p i) by (intros; apply IH; set_solver).
    destruct un; by setoid_rewrite Hp.
  - assert (Hp : forall i, satisfies v p i <-> satisfies w p i) by (intros; apply IHp; set_solver).
    assert (Hq : forall i, satisfies v q i <-> satisfies w q i) by (intros; apply IHq; set_solver).
    setoid_rewrite Hp. by setoid_rewrite Hq.
Qed.
End Atoms.

(** ** The tables of the plan *)

(** [c'] comes after [c] in the compilation. *)
Record later (c c' : Compiler) : Prop := {
  later_grows : grows c c';
  later_sequences : c_sequences c `prefix_of` c_sequences c';
  later_properties : c_properties c `prefix_of` c_properties c';
}.

Lemma later_refl c : later c c.
Proof. split; [apply grows_refl|done|done]. Qed.

Lemma later_trans c1 c2 c3 : later c1 c2 -> later c2 c3 -> later c1 c3.
Proof. intros [] []. split; [by eapply grows_trans|by etrans|by etrans]. Qed.

Create HintDb later.
#[local] Hint Resolve later_refl later_trans : later.

Lemma later_same c c' : grows c c' -> same_plan c c' -> later c c'.
Proof. intros G [H1 H2]. split; [done|by rewrite H1|by rewrite H2]. Qed.

(** [T] holds the tables of [c], resolved with [bs]. *)
Record compiled (T : CompiledPlan) (bs : list Z) (c : Compiler) : Prop := {
  compiled_sequences : forall j s, c_sequences c !! j = Some s ->
    exists s', compile_sequence bs s = Ok s' /\ plan_sequences T !! j = Some s';
  compiled_properties : forall j q, c_properties c !! j = Some q ->
    exists q', compile_property bs q = Ok q' /\ plan_properties T !! j = Some q';
}.

Lemma sequence_compiled T bs c0 c s k :
  compiled T bs c -> c_sequences c0 ++ [s] `prefix_of` c_sequences c -> k = size (c_sequences c0) ->
  exists s', compile_sequence bs s = Ok s' /\ sequence_at T k = s'.
Proof.
  intros [H _] [l Hl] ->. destruct (H (Z.to_nat (size (c_sequences c0))) s) as (s' & Hs & Hk).
  { rewrite Hl. apply lookup_app_l_Some. apply size_snoc_lookup. }
  exists s'. split; [done|]. unfold sequence_at. by rewrite Hk.
Qed.

Lemma property_compiled T bs c q k c1 c2 :
  compiled T bs c -> add_property q c1 = (k, c2) -> later c2 c ->
  exists q', compile_property bs q = Ok q' /\ property_at T k = q'.
Proof.
  intros [_ H] [= <- <-] [_ _ [l Hl]]. cbn in Hl.
  destruct (H (Z.to_nat (size (c_properties c1))) q) as (q' & Hq & Hk).
  { rewrite Hl. apply lookup_app_l_Some. apply size_snoc_lookup. }
  exists q'. split; [done|]. unfold property_at. by rewrite Hk.
Qed.

Lemma add_property_later q c k c' :
  tables_ok c -> add_property q c = (k, c') ->
  tables_ok c' /\ later c c' /\ forall l, known c l -> known c' l.
Proof.
  intros [H1 H2] [= _ <-]. split; [by split|]. split; [|done]. split; [by split|done|by apply prefix_app_r].
Qed.

(** A property without bounds. *)
Lemma unbounded_property T bs c kd st ov sy s g cs k c1 c2 :
  compiled T bs c -> add_property (make_property kd st ov sy s g cs zero_bound zero_bound) c1 = (k, c2) ->
  later c2 c -> property_at T k = MkCompiledProperty kd st ov s g cs (Some 0) (Some 0).
Proof.
  intros HT Ha Hl. destruct (property_compiled _ _ _ _ _ _ _ HT Ha Hl) as (q' & Hq & ->).
  by injection Hq as <-.
Qed.

(** ** Compiling a node *)

Section Compile.
Context (bv : string -> Z).

(** [f] compiles the sequence [r] or the property [P]. *)
Definition compiles_seq (f : Compiler -> Z * Compiler) (r : Seq string) : Prop :=
  forall c0 k c1, tables_ok c0 -> f c0 = (k, c1) ->
    tables_ok c1 /\ later c0 c1 /\ known c1 (atoms r) /\
    forall c bs T, later c1 c -> slots bv c bs -> compiled T bs c -> runs_seq T k (seq_map (index c) r).

Definition compiles (f : Compiler -> Z * Compiler) (P : Prp string) : Prop :=
  forall c0 k c1, tables_ok c0 -> f c0 = (k, c1) ->
    tables_ok c1 /\ later c0 c1 /\ known c1 (prp_atoms P) /\
    forall c bs T, later c1 c -> slots bv c bs -> compiled T bs c -> represents T k (prp_map (index c) P).

Lemma compiles_sequence n r :
  denote bv n = Some r -> regular r = true -> compiles_seq (compile_sequence_node n) r.
Proof.
  intros Hd Hr c0 k c1 Ht Hc.
  destruct (sequence_program bv n r c0 k c1 Hd Ht Hc) as (T1 & G1 & K1 & Hk & Hp & sq & Hs & Hrun).
  split; [done|]. split; [split; [done|rewrite Hs; by apply prefix_app_r|by rewrite Hp]|].
  split; [done|]. intros c bs T Hl Hslots HT.
  assert (Hpre : c_sequences c0 ++ [sq] `prefix_of` c_sequences c) by (rewrite <- Hs; apply Hl).
  destruct (sequence_compiled _ _ _ _ _ _ HT Hpre Hk) as (s' & Hs' & Es).
  split; [by rewrite regular_map|]. rewrite Es. apply (Hrun c bs s'); [apply Hl|done|done].
Qed.

Lemma compiles_weak_strong st n r :
  denote bv n = Some r -> regular r = true -> compiles (sequence_property st n) (p_seq st r).
Proof.
  intros Hd Hr c0 k c2 Ht. unfold sequence_property.
  destruct (compile_sequence_node n c0) as [s c1] eqn:E1. intros E2.
  destruct (compiles_sequence _ _ Hd Hr _ _ _ Ht E1) as (T1 & L1 & K1 & H1).
  destruct (add_property_later _ _ _ _ T1 E2) as (T2 & L2 & K2).
  split; [done|]. split; [eauto with later|]. split; [by apply K2|]. intros c bs T Hl Hs HT.
  pose proof (unbounded_property _ _ _ _ _ _ _ _ _ _ _ _ _ HT E2 Hl) as Hq.
  cbn [represents prp_map]. unfold represents. rewrite Hq. cbn. split; [done|]. split; [done|].
  apply (H1 c bs); [eauto with later|done|done].
Qed.

Lemma compiles_not f P :
  compiles f P ->
  compiles (fun c => let '(a, c) := f c in
    add_property (make_property k_negation false false false 0 0 [a] zero_bound zero_bound) c) (p_not P).
Proof.
  intros Hf c0 k c2 Ht. destruct (f c0) as [a c1] eqn:E1. intros E2.
  destruct (Hf _ _ _ Ht E1) as (T1 & L1 & K1 & H1).
  destruct (add_property_later _ _ _ _ T1 E2) as (T2 & L2 & K2).
  split; [done|]. split; [eauto with later|]. split; [by apply K2|]. intros c bs T Hl Hs HT.
  pose proof (unbounded_property _ _ _ _ _ _ _ _ _ _ _ _ _ HT E2 Hl) as Hq.
  split; [by rewrite Hq|]. exists a. split; [by rewrite Hq|]. apply (H1 c bs); [eauto with later|done|done].
Qed.

(** Two operands compiled one after the other. *)
Lemma compiles_pair f g P Q c0 a b c1 c2 :
  compiles f P -> compiles g Q -> tables_ok c0 -> f c0 = (a, c1) -> g c1 = (b, c2) ->
  tables_ok c2 /\ later c0 c2 /\ known c2 (prp_atoms P ++ prp_atoms Q) /\
  forall c bs T, later c2 c -> slots bv c bs -> compiled T bs c ->
    represents T a (prp_map (index c) P) /\ represents T b (prp_map (index c) Q).
Proof.
  intros Hf Hg Ht E1 E2. destruct (Hf _ _ _ Ht E1) as (T1 & L1 & K1 & H1).
  destruct (Hg _ _ _ T1 E2) as (T2 & L2 & K2 & H2). split; [done|]. split; [eauto with later|].
  split; [apply known_app; [by eapply known_grows; [apply L2|]|done]|].
  intros c bs T Hl Hs HT. split; [apply (H1 c bs)|apply (H2 c bs)]; eauto with later.
Qed.

Lemma compiles_both kd f g P Q :
  two_operands kd = true -> compiles f P -> compiles g Q ->
  compiles (fun c => let '(a, c) := f c in let '(b, c) := g c in
    add_property (make_property kd false false false 0 0 [a; b] zero_bound zero_bound) c) (connective kd P Q).
Proof.
  intros Hkd Hf Hg c0 k c3 Ht. destruct (f c0) as [a c1] eqn:E1. destruct (g c1) as [b c2] eqn:E2. intros E3.
  destruct (compiles_pair _ _ _ _ _ _ _ _ _ Hf Hg Ht E1 E2) as (T2 & L2 & K2 & H2).
  destruct (add_property_later _ _ _ _ T2 E3) as (T3 & L3 & K3).
  split; [done|]. split; [eauto with later|]. split; [destruct kd; try done; by apply K3|].
  intros c bs T Hl Hs HT. pose proof (unbounded_property _ _ _ _ _ _ _ _ _ _ _ _ _ HT E3 Hl) as Hq.
  destruct (H2 c bs T) as [R1 R2]; [eauto with later|done|done|].
  destruct kd; try done; (split; [by rewrite Hq|]); exists a, b; (split; [by rewrite Hq|]); done.
Qed.

Lemma compiles_after (un ov : bool) n r g P :
  denote bv n = Some r -> regular r = true -> compiles g P ->
  compiles (fun c => let '(s, c) := compile_sequence_node n c in let '(b, c) := g c in
    add_property (make_property (if un then k_implication else k_followed_by) false ov false s 0 [b] zero_bound zero_bound) c)
    (p_after un ov r P).
Proof.
  intros Hd Hr Hg c0 k c3 Ht. destruct (compile_sequence_node n c0) as [s c1] eqn:E1.
  destruct (g c1) as [b c2] eqn:E2. intros E3.
  destruct (compiles_sequence _ _ Hd Hr _ _ _ Ht E1) as (T1 & L1 & K1 & H1).
  destruct (Hg _ _ _ T1 E2) as (T2 & L2 & K2 & H2).
  destruct (add_property_later _ _ _ _ T2 E3) as (T3 & L3 & K3).
  split; [done|]. split; [eauto with later|]. split.
  { apply K3. apply known_app; [by eapply known_grows; [apply L2|]|done]. }
  intros c bs T Hl Hs HT. pose proof (unbounded_property _ _ _ _ _ _ _ _ _ _ _ _ _ HT E3 Hl) as Hq.
  split; [by rewrite Hq|]. split; [by rewrite Hq|]. split.
  - rewrite Hq. apply (H1 c bs); eauto with later.
  - exists b. split; [by rewrite Hq|]. apply (H2 c bs); eauto with later.
Qed.

Lemma guard_known t c g c' :
  tables_ok c -> compile_guard t c = (g, c') ->
  tables_ok c' /\ later c c' /\ known c' [spelling t] /\ forall d, later c' d -> index d (spelling t) = g.
Proof.
  intros Ht E. destruct (compile_guard_spec _ _ _ _ Ht E) as (T1 & G1 & Hi).
  split; [done|]. split; [apply later_same; [done|by eapply compile_guard_plan]|].
  split; [by repeat constructor|]. intros d [G _ _]. unfold index.
  by rewrite (lookup_weaken _ _ _ _ Hi (grows_guard_index _ _ G)).
Qed.

Lemma compiles_if t f P :
  compiles f P ->
  compiles (fun c => let '(g, c) := compile_guard t c in let '(a, c) := f c in
    add_property (make_property k_conditional false false false 0 g [a] zero_bound zero_bound) c)
    (p_if (spelling t) P).
Proof.
  intros Hf c0 k c3 Ht. destruct (compile_guard t c0) as [g c1] eqn:E1. destruct (f c1) as [a c2] eqn:E2.
  intros E3. destruct (guard_known _ _ _ _ Ht E1) as (T1 & L1 & K1 & I1).
  destruct (Hf _ _ _ T1 E2) as (T2 & L2 & K2 & H2).
  destruct (add_property_later _ _ _ _ T2 E3) as (T3 & L3 & K3).
  split; [done|]. split; [eauto with later|]. split.
  { apply K3. apply (known_app _ [_]); [by eapply known_grows; [apply L2|]|done]. }
  intros c bs T Hl Hs HT. pose proof (unbounded_property _ _ _ _ _ _ _ _ _ _ _ _ _ HT E3 Hl) as Hq.
  split; [by rewrite Hq|]. split; [rewrite Hq; cbn; rewrite I1; eauto with later|].
  exists a. split; [by rewrite Hq|]. apply (H2 c bs); eauto with later.
Qed.

Lemma compiles_if_else t f h P Q :
  compiles f P -> compiles h Q ->
  compiles (fun c => let '(g, c) := compile_guard t c in let '(a, c) := f c in let '(b, c) := h c in
    add_property (make_property k_conditional false false false 0 g [a; b] zero_bound zero_bound) c)
    (p_if_else (spelling t) P Q).
Proof.
  intros Hf Hh c0 k c4 Ht. destruct (compile_guard t c0) as [g c1] eqn:E1. destruct (f c1) as [a c2] eqn:E2.
  destruct (h c2) as [b c3] eqn:E3. intros E4.
  destruct (guard_known _ _ _ _ Ht E1) as (T1 & L1 & K1 & I1).
  destruct (compiles_pair _ _ _ _ _ _ _ _ _ Hf Hh T1 E2 E3) as (T3 & L3 & K3 & H3).
  destruct (add_property_later _ _ _ _ T3 E4) as (T4 & L4 & K4).
  split; [done|]. split; [eauto with later|]. split.
  { apply K4. apply (known_app _ [_]); [by eapply known_grows; [apply L3|]|done]. }
  intros c bs T Hl Hs HT. pose proof (unbounded_property _ _ _ _ _ _ _ _ _ _ _ _ _ HT E4 Hl) as Hq.
  split; [by rewrite Hq|]. split; [rewrite Hq; cbn; rewrite I1; eauto with later|].
  exists a, b. split; [by rewrite Hq|]. apply (H3 c bs); eauto with later.
Qed.

Lemma bound_later b c x c' :
  tables_ok c -> compile_bound b 0 c = (x, c') ->
  tables_ok c' /\ later c c' /\
  forall d bs, later c' d -> slots bv d bs -> resolve x bs = Ok (bound_value bv b).
Proof.
  intros Ht E. destruct (compile_bound_spec bv _ _ _ _ _ Ht E) as (T1 & G1 & R1).
  split; [done|]. split; [apply later_same; [done|by eapply compile_bound_plan]|].
  intros d bs [G _ _] Hs. rewrite (R1 bs), shifted_0; [done|]. by eapply slots_grow.
Qed.

Lemma bounded_property T bs c kd st cs l h lo hi k c1 c2 :
  compiled T bs c -> add_property (make_property kd st false false 0 0 cs l h) c1 = (k, c2) -> later c2 c ->
  resolve l bs = Ok lo -> resolve h bs = Ok hi ->
  property_at T k = MkCompiledProperty kd st false 0 0 cs lo hi.
Proof.
  intros HT Ha Hl H1 H2. destruct (property_compiled _ _ _ _ _ _ _ HT Ha Hl) as (q' & Hq & ->).
  unfold compile_property in Hq. cbn in Hq. rewrite H1, H2 in Hq. by injection Hq as <-.
Qed.

Lemma compiles_next st lo j f P :
  bound_value bv lo = Some j -> 0 <= j -> compiles f P ->
  compiles (fun c => let '(l, c) := compile_bound lo 0 c in let '(a, c) := f c in
    add_property (make_property k_nexttime st false false 0 0 [a] l zero_bound) c) (p_next st j P).
Proof.
  intros Hlo Hj Hf c0 k c3 Ht. destruct (compile_bound lo 0 c0) as [l c1] eqn:E1.
  destruct (f c1) as [a c2] eqn:E2. intros E3.
  destruct (bound_later _ _ _ _ Ht E1) as (T1 & L1 & R1).
  destruct (Hf _ _ _ T1 E2) as (T2 & L2 & K2 & H2).
  destruct (add_property_later _ _ _ _ T2 E3) as (T3 & L3 & K3).
  split; [done|]. split; [eauto with later|]. split; [by apply K3|]. intros c bs T Hl Hs HT.
  assert (Hr : resolve l bs = Ok (Some j)) by (rewrite <- Hlo; apply (R1 c bs); eauto with later).
  pose proof (bounded_property _ _ _ _ _ _ _ _ _ _ _ _ _ HT E3 Hl Hr eq_refl) as Hq.
  repeat (split; [by rewrite ?Hq|]). exists a. split; [by rewrite Hq|]. apply (H2 c bs); eauto with later.
Qed.

Lemma compiles_window (un st : bool) lo hi j f P :
  bound_value bv lo = Some j -> range_ok j (bound_value bv hi) = true -> compiles f P ->
  compiles (fun c => let '(l, c) := compile_bound lo 0 c in let '(h, c) := compile_bound hi 0 c in
    let '(a, c) := f c in
    add_property (make_property (if un then k_always else k_eventually) st false false 0 0 [a] l h) c)
    (p_window un st j (bound_value bv hi) P).
Proof.
  intros Hlo Hrange Hf c0 k c4 Ht. destruct (compile_bound lo 0 c0) as [l c1] eqn:E1.
  destruct (compile_bound hi 0 c1) as [h c2] eqn:E2. destruct (f c2) as [a c3] eqn:E3. intros E4.
  destruct (bound_later _ _ _ _ Ht E1) as (T1 & L1 & R1).
  destruct (bound_later _ _ _ _ T1 E2) as (T2 & L2 & R2).
  destruct (Hf _ _ _ T2 E3) as (T3 & L3 & K3 & H3).
  destruct (add_property_later _ _ _ _ T3 E4) as (T4 & L4 & K4).
  split; [done|]. split; [eauto with later|]. split; [by apply K4|]. intros c bs T Hl Hs HT.
  assert (Hr1 : resolve l bs = Ok (Some j)) by (rewrite <- Hlo; apply (R1 c bs); eauto with later).
  assert (Hr2 : resolve h bs = Ok (bound_value bv hi)) by (apply (R2 c bs); eauto with later).
  pose proof (bounded_property _ _ _ _ _ _ _ _ _ _ _ _ _ HT E4 Hl Hr1 Hr2) as Hq.
  repeat (split; [by rewrite ?Hq|]). exists a. split; [by rewrite Hq|]. apply (H3 c bs); eauto with later.
Qed.

Lemma compiles_until st f g P Q :
  compiles f P -> compiles g Q -> immediate P = true ->
  compiles (fun c => let '(a, c) := f c in let '(b, c) := g c in
    add_property (make_property k_until st false false 0 0 [a; b] zero_bound zero_bound) c) (p_until st P Q).
Proof.
  intros Hf Hg Him c0 k c3 Ht. destruct (f c0) as [a c1] eqn:E1. destruct (g c1) as [b c2] eqn:E2. intros E3.
  destruct (compiles_pair _ _ _ _ _ _ _ _ _ Hf Hg Ht E1 E2) as (T2 & L2 & K2 & H2).
  destruct (add_property_later _ _ _ _ T2 E3) as (T3 & L3 & K3).
  split; [done|]. split; [eauto with later|]. split; [by apply K3|].
  intros c bs T Hl Hs HT. pose proof (unbounded_property _ _ _ _ _ _ _ _ _ _ _ _ _ HT E3 Hl) as Hq.
  split; [by rewrite Hq|]. split; [by rewrite Hq|]. split; [by rewrite immediate_map|].
  exists a, b. split; [by rewrite Hq|]. apply (H2 c bs); eauto with later.
Qed.

(** The right operand of [until_with] holds together with the left one. *)
Lemma compiles_with f g P Q :
  compiles f P -> compiles g Q ->
  compiles (fun c => let '(b, c) := g c in let '(a2, c) := f c in
    add_property (make_property k_conjunction false false false 0 0 [a2; b] zero_bound zero_bound) c) (p_and P Q).
Proof.
  intros Hf Hg c0 k c3 Ht. destruct (g c0) as [b c1] eqn:E1. destruct (f c1) as [a c2] eqn:E2. intros E3.
  destruct (compiles_pair _ _ _ _ _ _ _ _ _ Hg Hf Ht E1 E2) as (T2 & L2 & K2 & H2).
  destruct (add_property_later _ _ _ _ T2 E3) as (T3 & L3 & K3).
  split; [done|]. split; [eauto with later|]. split.
  { apply K3. apply Forall_app in K2 as [? ?]. by apply known_app. }
  intros c bs T Hl Hs HT. pose proof (unbounded_property _ _ _ _ _ _ _ _ _ _ _ _ _ HT E3 Hl) as Hq.
  destruct (H2 c bs T) as [R1 R2]; [eauto with later|done|done|].
  split; [by rewrite Hq|]. exists a, b. by rewrite Hq.
Qed.

Lemma compiles_ext f g P : (forall c, f c = g c) -> compiles g P -> compiles f P.
Proof. intros H Hg c0 k c1. rewrite H. apply Hg. Qed.

(** The compiler translates a property node into the property it denotes. *)
Lemma property_program n P :
  denote_property bv n = Some P -> well_formed P = true -> compiles (compile_property_node n) P.
Proof.
  assert (Hseq : forall n P, (r ← denote bv n; Some (p_seq false r)) = Some P -> well_formed P = true ->
    compiles (sequence_property false n) P).
  { intros m Q Hd Hw. destruct (denote bv m) as [r|] eqn:E; [|done]. injection Hd as <-.
    by apply compiles_weak_strong. }
  revert P. induction n; intros P Hd Hw; try (by apply Hseq); cbn [denote_property] in Hd; try done.
  all: repeat match type of Hd with
    | context [denote_property bv ?m] => destruct (denote_property bv m) as [?P|] eqn:?; [|done]
    | context [denote bv ?m] => destruct (denote bv m) as [?r|] eqn:?; [|done]
    | (bound_value bv ?m ≫= _) = _ => destruct (bound_value bv m) as [?j|] eqn:?; [|done]
    end; cbn in Hd; injection Hd as <-; cbn [well_formed] in Hw;
    repeat match goal with H : _ && _ = true |- _ => apply andb_prop in H as [? ?] end.
  - by apply compiles_weak_strong.
  - apply compiles_not. by apply IHn.
  - apply (compiles_both k_conjunction); [done|by apply IHn1|by apply IHn2].
  - apply (compiles_both k_disjunction); [done|by apply IHn1|by apply IHn2].
  - apply (compiles_both k_equivalence); [done|by apply IHn1|by apply IHn2].
  - apply (compiles_both k_implies); [done|by apply IHn1|by apply IHn2].
  - eapply (compiles_after true); [done|done|by apply IHn2].
  - eapply (compiles_after false); [done|done|by apply IHn2].
  - apply compiles_if. by apply IHn.
  - apply compiles_if_else; [by apply IHn1|by apply IHn2].
  - apply compiles_next; [done|lia|by apply IHn].
  - eapply (compiles_window true); [done|done|by apply IHn].
  - eapply (compiles_window false); [done|done|by apply IHn].
  - destruct with_.
    + match goal with H : well_formed (p_and _ _) = true |- _ => cbn in H; apply andb_prop in H as [? ?] end.
      eapply compiles_ext; [|eapply (compiles_until _ (compile_property_node n1));
        [by apply IHn1|apply (compiles_with (compile_property_node n1) (compile_property_node n2));
          [by apply IHn1|by apply IHn2]|done]].
      intros c. cbn [compile_property_node]. destruct (compile_property_node n1 c) as [a c1].
      destruct (compile_property_node n2 c1) as [b c2]. by destruct (compile_property_node n1 c2).
    + apply compiles_until; [by apply IHn1|by apply IHn2|done].
Qed.
End Compile.
