(* ===== verification/SvaProgress.v ===== *)
(** * A step of a property ends

    With enough fuel, and a depth that covers the nesting of the property, the
    step of an instance in the invariant [SvaVerdict.good] returns, or throws
    because of the limit on threads ([step_ends]). *)
From stdpp Require Import gmap.
From S2P Require Import Prelude SvaPlan SvaMatcher SvaEngine SvaReach SvaStep SvaSequence SvaEmit.
From S2P Require Import SvaTermination SvaSemantics SvaVerdict.
From stdpp Require Import options.

Definition ends_well {X} (r : Result X) : Prop := (exists x, r = Returns x) \/ r = Throws thread_limit.

Lemma ends_bind {X Y} (r : Result X) (f : X -> Result Y) :
  ends_well r -> (forall x, r = Returns x -> ends_well (f x)) -> ends_well (x ← r; f x).
Proof. intros [[x ->]| ->] H; [by apply H|by right]. Qed.

Lemma ends_returns {X} (x : X) : ends_well (Returns x).
Proof. left. by exists x. Qed.

Create HintDb ends.
#[export] Hint Resolve ends_returns : ends.

(** With enough depth and fuel. *)
Definition enough {X} (f : nat -> nat -> Result X) : Prop :=
  exists k, forall depth fuel, (k <= depth)%nat -> (k <= fuel)%nat -> ends_well (f depth fuel).

Lemma enough_list {A X} (f : nat -> nat -> A -> Result X) (l : list A) :
  (forall a, a ∈ l -> enough (fun d k => f d k a)) ->
  exists k, forall depth fuel, (k <= depth)%nat -> (k <= fuel)%nat -> forall a, a ∈ l -> ends_well (f depth fuel a).
Proof.
  induction l as [|a l IH]; intros H.
  - exists O. intros ? ? _ _ a Ha. by apply not_elem_of_nil in Ha.
  - destruct IH as [k1 H1]; [intros b Hb; apply H; by right|]. destruct (H a) as [k2 H2]; [by left|].
    exists (k1 `max` k2)%nat. intros d k Hd Hk b [->|Hb]%elem_of_cons; [apply H2; lia|apply H1; [lia..|done]].
Qed.

Section Loops.
Context (rec : Instance_ -> Z -> Result Instance_) (n : Z).

Lemma each_ends stop l : (forall c, c ∈ l -> ends_well (rec c n)) -> ends_well (step_each rec n stop l).
Proof.
  induction l as [|c l IH]; intros H; cbn [step_each]; [auto with ends|].
  apply ends_bind; [apply H; by left|]. intros c' _. destruct (decided c' && stop c'); [auto with ends|].
  apply ends_bind; [apply IH; intros d Hd; apply H; by right|]. intros [l' o] _. auto with ends.
Qed.

Lemma pairs_ends l :
  (forall x, x ∈ l -> ends_well (rec x.1 n) /\ ends_well (rec x.2 n)) -> ends_well (step_pairs rec n l).
Proof.
  induction l as [|[a b] l IH]; intros H; cbn [step_pairs]; [auto with ends|].
  destruct (H (a, b)) as [Ha Hb]; [by left|].
  apply ends_bind; [done|]. intros a' _. apply ends_bind; [done|]. intros b' _.
  apply ends_bind; [apply IH; intros d Hd; apply H; by right|]. intros l' _. auto with ends.
Qed.
End Loops.

Section Progress.
Context (T : CompiledPlan) (val : Z -> Z -> bool) (n : Z) (p : CompiledPlan).
Context (Hclock : multiclocked p = false) (Hval : forall k, guard p k = val n k).
Context (Hprops : plan_properties p = plan_properties T) (Hseqs : plan_sequences p = plan_sequences T).

#[local] Set Default Proof Using "All".

Abbreviation goodn P := (good T val P n).

Lemma same_property k : property_at p k = property_at T k.
Proof. exact (property_same T val n 0 p Hclock Hval Hprops Hseqs k). Qed.

Lemma running i : decided i || (n <? start i) = false -> verdict i = pending /\ start i <= n.
Proof. exact (running_pending T val n 0 p Hclock Hval Hprops Hseqs i). Qed.

Lemma unsettled P i : verdict i = pending -> ~ settled_as val P n i.
Proof. exact (pending_unsettled T val n 0 p Hclock Hval Hprops Hseqs P i). Qed.

Lemma matcher_ends r k s m :
  runs_seq T k r -> follows_seq T val k s n m ->
  exists e, forall fuel, (e <= fuel)%nat -> ends_well (matcher_step fuel p m n).
Proof.
  intros [Hr Hrun] [Hst _].
  destruct (step_total _ val r _ n p Hr Hrun Hclock Hval m Hst) as [e He]. exists e. intros fuel Hf.
  destruct (He fuel Hf) as [(hit & m' & ->)| ->]; [apply ends_returns|by right].
Qed.

(** The operands of an operator end, so it does. *)
Lemma through_ends rec i k s neg c :
  (operands i = [] /\ c = instance_new (child_node (property_at T (node i)) k) s) \/ operands i = [(k, c)] ->
  ends_well (rec c n) -> ends_well (step_through p rec i k s n neg).
Proof.
  intros Ho Hc. unfold step_through. rewrite <- same_property in Ho.
  rewrite (step_child_one p rec i k s n c Ho). apply ends_bind; [|intros [? ?] _; auto with ends].
  apply ends_bind; [done|]. auto with ends.
Qed.

Lemma both_ends rec kd i l r :
  (operands i = [] /\ l = instance_new (child_node (property_at T (node i)) 0) (start i)
     /\ r = instance_new (child_node (property_at T (node i)) 1) (start i)) \/
  operands i = [(0, l); (1, r)] ->
  ends_well (rec l n) -> ends_well (rec r n) -> ends_well (step_both p rec kd i n).
Proof.
  intros Ho Hl Hr. rewrite <- same_property in Ho. rewrite (step_both_two p rec kd i n l r Ho).
  apply ends_bind; [done|]. intros ? _. apply ends_bind; [done|]. auto with ends.
Qed.

Abbreviation steps i := (enough (fun depth fuel => instance_step depth fuel p i n)).
Abbreviation bodies i := (enough (fun depth fuel => step_body fuel p (instance_step depth fuel p) i n)).
Abbreviation all_steps P := (forall i, goodn P i -> steps i).

Lemma steps_bodies i : bodies i -> steps i.
Proof.
  intros [k H]. exists (S k). intros [|depth] fuel Hd Hf; [lia|]. cbn [instance_step]. apply H; lia.
Qed.

(** Operands with invariants, an operator whose body steps only them. *)
Lemma bodies_list P (l : list Instance_) i :
  all_steps P -> (forall c, c ∈ l -> goodn P c) ->
  (exists k, forall depth fuel, (k <= fuel)%nat -> (forall c, c ∈ l -> ends_well (instance_step depth fuel p c n)) ->
     ends_well (step_body fuel p (instance_step depth fuel p) i n)) -> bodies i.
Proof.
  intros HP Hl [k Hk].
  destruct (enough_list (fun d f c => instance_step d f p c n) l) as [j Hj]; [intros c Hc; by apply HP, Hl|].
  exists (j `max` k)%nat. intros depth fuel Hd Hf. apply Hk; [lia|]. apply Hj; lia.
Qed.

Lemma step_body_runs i fuel rec :
  decided i || (n <? start i) = false ->
  step_body fuel p rec i n =
    let q := property_at T (node i) in
    match cp_kind q with
    | k_sequence => step_sequence fuel p i n
    | k_negation => step_through p rec i 0 (start i) n true
    | k_conjunction | k_disjunction | k_implies | k_equivalence => step_both p rec (cp_kind q) i n
    | k_implication | k_followed_by => step_consequents fuel p rec q i n
    | k_conditional => step_conditional p rec q i n
    | k_nexttime => step_through p rec i 0 (number (add (start i) (cp_lo q))) n false
    | k_always | k_eventually => step_window rec q i n
    | k_until => step_until p rec i n
    | k_accept | k_reject => step_abort p rec q i n
    | k_vacuous => Returns (resolve_to i true true)
    end.
Proof. intros Hi. unfold step_body. rewrite Hi. by rewrite !same_property. Qed.

Lemma sequence_bodies st r i : goodn (p_seq st r) i -> decided i || (n <? start i) = false -> bodies i.
Proof.
  intros Hg Hi. pose proof (good_represents _ _ _ _ _ Hg) as (Hk & _ & Hseq).
  destruct (matcher_ends r _ (start i) (own_matcher p i) Hseq) as [e He].
  { eapply (own_follows T val n 0 p Hclock Hval Hprops Hseqs); [done|done|].
    apply (good_running _ _ _ _ _ _ Hg Hi).
    - intros Es Hn. left. by rewrite Hn.
    - intros Hlt _ [_ [[? _]|[[_ H]|(_ & _ & m & Hm & Hf & _)]]]; [lia| |right; by exists m].
      destruct (running i Hi) as [Hv _]. by apply unsettled in H. }
  exists e. intros depth fuel _ Hf. rewrite step_body_runs by done. cbn zeta. rewrite Hk.
  unfold step_sequence. apply ends_bind; [by apply He|]. intros [hit m'] _. auto with ends.
Qed.

(** The own state of a running instance of [P], or a new one. *)
Ltac own_state Hg Hi Hn Hown :=
  apply (good_running _ _ _ _ _ _ Hg Hi);
  [ intros ? Hn
  | intros ? ? [_ [[? _]|[[_ Hown]|(_ & _ & Hown)]]]; [lia|by apply unsettled in Hown|] ].

Lemma child_0 q c l : cp_children q = c :: l -> child_node q 0 = c.
Proof. intros H. unfold child_node. by rewrite H. Qed.

Lemma child_1 q c d l : cp_children q = c :: d :: l -> child_node q 1 = d.
Proof. intros H. unfold child_node. by rewrite H. Qed.

Lemma not_bodies q i :
  all_steps q -> goodn (p_not q) i -> decided i || (n <? start i) = false -> bodies i.
Proof.
  intros IH Hg Hi. pose proof (good_represents _ _ _ _ _ Hg) as (Hk & c0 & Hch & Hc0).
  assert (Hold : exists c, goodn q c /\
    ((operands i = [] /\ c = instance_new (child_node (property_at T (node i)) 0) (start i)) \/ operands i = [(0, c)])).
  { own_state Hg Hi Hn Hown.
    - eexists. split; [|left; split; [by rewrite Hn|done]].
      rewrite (child_0 _ _ _ Hch). apply good_fresh; [done|lia].
    - destruct Hown as (c & Ho & _ & Hc). eauto. }
  destruct Hold as (c & Hc & Ho). apply (bodies_list q [c]); [done|intros ? ->%list_elem_of_singleton; done|].
  exists O. intros depth fuel _ Hrec. rewrite step_body_runs by done. cbn zeta. rewrite Hk.
  eapply through_ends; [exact Ho|]. apply Hrec. by left.
Qed.

Lemma next_bodies st j q i :
  all_steps q -> goodn (p_next st j q) i -> decided i || (n <? start i) = false -> bodies i.
Proof.
  intros IH Hg Hi. pose proof (good_represents _ _ _ _ _ Hg) as (Hk & _ & Hlo & Hj & c0 & Hch & Hc0).
  destruct (running i Hi) as [_ Hs].
  assert (Hold : exists c, goodn q c /\
    ((operands i = [] /\ c = instance_new (child_node (property_at T (node i)) 0) (start i + j)) \/ operands i = [(0, c)])).
  { own_state Hg Hi Hn Hown.
    - eexists. split; [|left; split; [by rewrite Hn|done]].
      rewrite (child_0 _ _ _ Hch). apply good_fresh; [done|lia].
    - destruct Hown as (c & Ho & _ & Hc). eauto. }
  destruct Hold as (c & Hc & Ho). apply (bodies_list q [c]); [done|intros ? ->%list_elem_of_singleton; done|].
  exists O. intros depth fuel _ Hrec. rewrite step_body_runs by done. cbn zeta. rewrite Hk, Hlo.
  eapply through_ends; [exact Ho|]. apply Hrec. by left.
Qed.

Lemma both_bodies kd q1 q2 i :
  two_operands kd = true -> all_steps q1 -> all_steps q2 -> goodn (connective kd q1 q2) i ->
  decided i || (n <? start i) = false -> bodies i.
Proof.
  intros Hkd IH1 IH2 Hg Hi. pose proof (good_represents _ _ _ _ _ Hg) as Hrep.
  assert (Hch : cp_kind (property_at T (node i)) = kd /\ exists c d, cp_children (property_at T (node i)) = [c; d] /\
    represents T c q1 /\ represents T d q2) by (destruct kd; try done; by destruct Hrep as [? ?]).
  destruct Hch as (Hk & c0 & d0 & Hch & Hc0 & Hd0).
  assert (Hold : exists l r, goodn q1 l /\ goodn q2 r /\
    ((operands i = [] /\ l = instance_new (child_node (property_at T (node i)) 0) (start i)
       /\ r = instance_new (child_node (property_at T (node i)) 1) (start i)) \/ operands i = [(0, l); (1, r)])).
  { apply (good_running _ _ _ _ _ _ Hg Hi).
    - intros Es Hn. eexists _, _. split; [|split; [|left; split; [by rewrite Hn|done]]].
      + rewrite (child_0 _ _ _ Hch). apply good_fresh; [done|lia].
      + rewrite (child_1 _ _ _ _ Hch). apply good_fresh; [done|lia].
    - intros Hlt Hv H. destruct kd; try done;
        (destruct H as [_ [[? _]|[[_ H]|(_ & _ & l & r & Ho & _ & _ & Hl & Hr)]]]; [lia|by apply unsettled in H|]);
        exists l, r; auto. }
  destruct Hold as (l & r & Hl & Hr & Ho). destruct (IH1 l Hl) as [k1 E1]. destruct (IH2 r Hr) as [k2 E2].
  exists (k1 `max` k2)%nat. intros depth fuel Hd Hf. rewrite step_body_runs by done. cbn zeta. rewrite !Hk.
  assert (He : ends_well (step_both p (instance_step depth fuel p) kd i n)).
  { eapply both_ends; [exact Ho|apply E1; lia|apply E2; lia]. }
  by destruct kd.
Qed.

Lemma if_bodies g q i :
  all_steps q -> goodn (p_if g q) i -> decided i || (n <? start i) = false -> bodies i.
Proof.
  intros IH Hg Hi. pose proof (good_represents _ _ _ _ _ Hg) as (Hk & Hgd & c0 & Hch & Hc0).
  assert (Hold : exists c, goodn q c /\
    ((operands i = [] /\ c = instance_new (child_node (property_at T (node i)) 0) (start i) /\ chosen i = None)
     \/ (operands i = [(0, c)] /\ chosen i = Some 0))).
  { own_state Hg Hi Hn Hown.
    - eexists. split; [|left; split; [by rewrite Hn|split; [done|by rewrite Hn]]].
      rewrite (child_0 _ _ _ Hch). apply good_fresh; [done|lia].
    - destruct Hown as (Hc' & _ & c & Ho & _ & Hc). exists c. auto. }
  destruct Hold as (c & Hc & Ho). apply (bodies_list q [c]); [done|intros ? ->%list_elem_of_singleton; done|].
  exists O. intros depth fuel _ Hrec. rewrite step_body_runs by done. cbn zeta. rewrite Hk.
  specialize (Hrec c ltac:(by left)). unfold step_conditional. rewrite Hch.
  destruct Ho as [(Ho & Ec & ->)|[Ho ->]].
  - destruct (guard p _); [|apply ends_returns]. change (size [c0] <=? 0) with false. cbn iota.
    eapply through_ends; [by left|done].
  - eapply through_ends; [by right|done].
Qed.

Lemma if_else_bodies g q1 q2 i :
  all_steps q1 -> all_steps q2 -> goodn (p_if_else g q1 q2) i -> decided i || (n <? start i) = false -> bodies i.
Proof.
  intros IH1 IH2 Hg Hi. pose proof (good_represents _ _ _ _ _ Hg) as (Hk & Hgd & c0 & d0 & Hch & Hc0 & Hd0).
  assert (Hold : exists b c, goodn (if b : bool then q1 else q2) c /\
    ((operands i = [] /\ c = instance_new (child_node (property_at T (node i)) (if b then 0 else 1)) (start i)
        /\ chosen i = None /\ guard p g = b)
     \/ (operands i = [(if b then 0 else 1, c)] /\ chosen i = Some (if b then 0 else 1)))).
  { own_state Hg Hi Hn Hown.
    - exists (guard p g). eexists. split; [|left; split; [by rewrite Hn|split; [done|by rewrite Hn]]].
      destruct (guard p g); [rewrite (child_0 _ _ _ Hch)|rewrite (child_1 _ _ _ _ Hch)]; apply good_fresh; (done || lia).
    - destruct (val (start i) g); destruct Hown as (Hc' & c & Ho & _ & Hc); [exists true, c|exists false, c]; auto. }
  destruct Hold as (b & c & Hc & Ho).
  apply (bodies_list (if b then q1 else q2) [c]); [by destruct b|intros ? ->%list_elem_of_singleton; done|].
  exists O. intros depth fuel _ Hrec. rewrite step_body_runs by done. cbn zeta. rewrite Hk.
  specialize (Hrec c ltac:(by left)). unfold step_conditional. rewrite Hch, Hgd.
  destruct Ho as [(Ho & Ec & -> & ->)|[Ho ->]].
  - replace (size [c0; d0] <=? (if b then 0 else 1)) with false by (by destruct b).
    eapply through_ends; [by left|done].
  - eapply through_ends; [by right|done].
Qed.

Lemma after_bodies un ov r q i :
  all_steps q -> goodn (p_after un ov r q) i -> decided i || (n <? start i) = false -> bodies i.
Proof.
  intros IH Hg Hi. pose proof (good_represents _ _ _ _ _ Hg) as (Hk & Hov & Hseq & c0 & Hch & Hc0).
  set (new := instance_new c0 (if ov then n else n + 1)).
  assert (Hold : (exists e, forall fuel, (e <= fuel)%nat ->
      match matcher i with None => antecedent_done i | Some _ => false end = true \/
      ends_well (matcher_step fuel p (own_matcher p i) n)) /\
    forall c, c ∈ started i -> goodn q c).
  { own_state Hg Hi Hn Hown.
    - split; [|rewrite Hn; intros c Hc; by apply not_elem_of_nil in Hc].
      destruct (matcher_ends r _ (start i) (own_matcher p i) Hseq) as [e He]; [|exists e; auto].
      eapply (own_follows T val n 0 p Hclock Hval Hprops Hseqs); [done|done|]. left. by rewrite Hn.
    - destruct Hown as [[(_ & m & Hm & Hf)|(Hd & Hm & _)] [Hc _]]; (split; [|intros c Hin; by apply Hc]).
      + destruct (matcher_ends r _ (start i) (own_matcher p i) Hseq) as [e He]; [|exists e; auto].
        unfold own_matcher. by rewrite Hm.
      + exists O. rewrite Hm. auto. }
  destruct Hold as [[e He] Hst]. apply (bodies_list q (started i ++ [new])); [done| |].
  { intros c [Hc|Hc]%elem_of_app; [by apply Hst|]. apply list_elem_of_singleton in Hc as ->.
    apply good_fresh; [done|destruct ov; lia]. }
  exists e. intros depth fuel Hf Hrec. rewrite step_body_runs by done. cbn zeta.
  assert (Hgo : ends_well (step_consequents fuel p (instance_step depth fuel p) (property_at T (node i)) i n)).
  { unfold step_consequents. apply ends_bind.
    - unfold step_antecedent. destruct (He fuel Hf) as [->|Hm]; [auto with ends|].
      destruct (match matcher i with Some _ => false | None => antecedent_done i end); [auto with ends|].
      apply ends_bind; [done|]. intros [hit m] _. auto with ends.
    - intros i1 Hi1. apply ends_bind; [|intros [st o] _; auto with ends].
      apply each_ends. intros c Hc. apply Hrec. revert Hi1. unfold step_antecedent.
      destruct (match matcher i with Some _ => false | None => antecedent_done i end).
      { intros [= <-]. apply elem_of_app. by left. }
      destruct (matcher_step fuel p (own_matcher p i) n) as [[hit m]| |]; cbn; [|done|done].
      rewrite (child_0 _ _ _ Hch), Hov. intros [= <-].
      destruct (dead m), hit; cbn in Hc; first [exact Hc | apply elem_of_app; by left]. }
  rewrite Hk. by destruct un.
Qed.

Lemma window_bodies un st lo hi q i :
  all_steps q -> goodn (p_window un st lo hi q) i -> decided i || (n <? start i) = false -> bodies i.
Proof.
  intros IH Hg Hi. pose proof (good_represents _ _ _ _ _ Hg) as (Hk & _ & Hlo & Hhi & _ & c0 & Hch & Hc0).
  assert (Hst : forall c, c ∈ started i -> goodn q c).
  { own_state Hg Hi Hn Hown; [rewrite Hn; intros c Hc; by apply not_elem_of_nil in Hc|].
    intros c Hc. by apply (proj1 Hown). }
  apply (bodies_list q (started i ++ [instance_new c0 n])); [done| |].
  { intros c [Hc|Hc]%elem_of_app; [by apply Hst|]. apply list_elem_of_singleton in Hc as ->. by apply good_fresh. }
  exists O. intros depth fuel _ Hrec. rewrite step_body_runs by done. cbn zeta.
  assert (Hgo : ends_well (step_window (instance_step depth fuel p) (property_at T (node i)) i n)).
  { unfold step_window. apply ends_bind; [|intros [us o] _; auto with ends].
    apply each_ends. intros c Hc. apply Hrec. rewrite (child_0 _ _ _ Hch) in Hc.
    destruct (_ && _); [done|]. apply elem_of_app. by left. }
  rewrite Hk. by destruct un.
Qed.

Lemma until_bodies st q1 q2 i :
  all_steps q1 -> all_steps q2 -> goodn (p_until st q1 q2) i -> decided i || (n <? start i) = false -> bodies i.
Proof.
  intros IH1 IH2 Hg Hi. pose proof (good_represents _ _ _ _ _ Hg) as (Hk & _ & _ & c0 & d0 & Hch & Hc0 & Hd0).
  set (us := until_ i ++ [(instance_new c0 n, instance_new d0 n)]).
  assert (Hus : forall x, x ∈ us -> goodn q1 x.1 /\ goodn q2 x.2).
  { assert (Hold : forall x, x ∈ until_ i -> goodn q1 x.1 /\ goodn q2 x.2).
    { own_state Hg Hi Hn Hown; [rewrite Hn; intros c Hc; by apply not_elem_of_nil in Hc|].
      destruct Hown as [f [_ _ U _ _ _]]. intros [a b] [k Hx]%list_elem_of_lookup.
      destruct (U k a b Hx) as (?&?&_). done. }
    intros x [Hx|Hx]%elem_of_app; [by apply Hold|]. apply list_elem_of_singleton in Hx as ->.
    split; by apply good_fresh. }
  destruct (enough_list (fun d f x => instance_step d f p x n) (map fst us)) as [k1 E1].
  { intros a ([x y] & -> & Hx)%list_elem_of_fmap. apply IH1. by apply Hus in Hx as [? _]. }
  destruct (enough_list (fun d f x => instance_step d f p x n) (map snd us)) as [k2 E2].
  { intros a ([x y] & -> & Hx)%list_elem_of_fmap. apply IH2. by apply Hus in Hx as [_ ?]. }
  exists (k1 `max` k2)%nat. intros depth fuel Hd Hf. rewrite step_body_runs by done. cbn zeta. rewrite Hk.
  unfold step_until. rewrite same_property, (child_0 _ _ _ Hch), (child_1 _ _ _ _ Hch). apply ends_bind.
  - apply pairs_ends. intros x Hx. assert (Hin : x ∈ us).
    { destruct (until_stopped i); [|done]. apply elem_of_app. by left. }
    split; [apply E1; [lia..|]|apply E2; [lia..|]]; by apply list_elem_of_fmap_2.
  - intros vs _. destruct (until_scan vs true false (until_stopped i)) as [[]]; auto with ends.
Qed.

(** With enough fuel, a step of an instance returns or exceeds the limit. *)
Lemma step_ends P i : goodn P i -> steps i.
Proof.
  revert i. induction P as [st r|q IH|q1 IH1 q2 IH2|q1 IH1 q2 IH2|q1 IH1 q2 IH2|q1 IH1 q2 IH2
    |un ov r q IH|g q IH|g q1 IH1 q2 IH2|st j q IH|un st lo hi q IH|st q1 IH1 q2 IH2]; intros i Hg;
    apply steps_bodies; (destruct (decided i || (n <? start i)) eqn:Hi;
      [exists O; intros depth fuel _ _; unfold step_body; rewrite Hi; auto with ends|]).
  - by eapply sequence_bodies.
  - by apply (not_bodies q).
  - by apply (both_bodies k_conjunction q1 q2).
  - by apply (both_bodies k_disjunction q1 q2).
  - by apply (both_bodies k_equivalence q1 q2).
  - by apply (both_bodies k_implies q1 q2).
  - by apply (after_bodies un ov r q).
  - by apply (if_bodies g q).
  - by apply (if_else_bodies g q1 q2).
  - by apply (next_bodies st j q).
  - by apply (window_bodies un st lo hi q).
  - by apply (until_bodies st q1 q2).
Qed.
End Progress.
