(* ===== verification/SvaMonitor.v ===== *)
(** * Monitors of compiled properties

    From the compiler to the outcomes a monitor reports.  A run of a monitor is
    a list of the calls the simulator makes ([Call], [performs]); the guard
    values of each tick are those of a trace.  [outcomes_right]: every outcome
    that is queued reports a start that happened, and a verdict that every
    continuation of the trace agrees with.  [tick_ends]: a tick returns or
    exceeds the limit on threads.  [cover_exact]: a monitor that counts every
    match of a sequence reports exactly the matches. *)
From stdpp Require Import gmap.
From S2P Require Import Prelude SvaPlan SvaMatcher SvaEngine SvaCompile SvaReach SvaStep SvaSequence SvaEmit.
From S2P Require Import SvaTermination SvaSemantics SvaVerdict SvaProperty SvaProgress.
From stdpp Require Import options.

(** ** Runs *)

(** The public operations of [Monitor] that change it, but for [finish]. *)
Inductive Call :=
  | c_tick (start_ disabled : bool) (at_time : Z)
  | c_next
  | c_take
  | c_kill
  | c_kill_attempt (start_time : Z).

(** A trace gives each tick the values of the expressions, by spelling. *)
Definition Trace := Z -> string -> bool.

(** The guard values the simulator samples for a tick. *)
Definition sampled (ev : Trace) (gs : list Tokens) (n : Z) : list bool := map (fun t => ev n (spelling t)) gs.

Definition perform (depth fuel : nat) (ev : Trace) (gs : list Tokens) (m : Monitor) (x : Call) : Result Monitor :=
  match x with
  | c_tick st dis t => tick depth fuel m (sampled ev gs (tick_ m + 1)) st dis t
  | c_next => Returns (next_outcome m).2
  | c_take => Returns (take_started m).2
  | c_kill => Returns (kill m)
  | c_kill_attempt t => Returns (kill_attempt m t).2
  end.

Fixpoint performs (depth fuel : nat) (ev : Trace) (gs : list Tokens) (m : Monitor) (l : list Call) : Result Monitor :=
  match l with
  | [] => Returns m
  | x :: l => m ← perform depth fuel ev gs m x; performs depth fuel ev gs m l
  end.

(** How many ticks the calls make, and the attempts they start. *)
Definition is_tick (x : Call) : bool := match x with c_tick _ _ _ => true | _ => false end.
Definition ticks (l : list Call) : Z := size (List.filter is_tick l).

Definition started_at (l : list Call) (s t : Z) : Prop :=
  exists l1 l2, l = l1 ++ c_tick true false t :: l2 /\ ticks l1 = s.

Lemma ticks_app l1 l2 : ticks (l1 ++ l2) = ticks l1 + ticks l2.
Proof. unfold ticks. rewrite List.filter_app. apply size_app. Qed.

Lemma ticks_snoc l x : ticks (l ++ [x]) = ticks l + if is_tick x then 1 else 0.
Proof. rewrite ticks_app. by destruct x. Qed.

Lemma ticks_nonneg l : 0 <= ticks l.
Proof. apply size_nonneg. Qed.

Lemma started_app l x s t : started_at l s t -> started_at (l ++ x) s t.
Proof. intros (l1 & l2 & -> & Hs). exists l1, (l2 ++ x). by rewrite <- app_assoc. Qed.

Lemma performs_app depth fuel ev gs m l1 l2 :
  performs depth fuel ev gs m (l1 ++ l2) =
    (m ← performs depth fuel ev gs m l1; performs depth fuel ev gs m l2).
Proof.
  revert m. induction l1 as [|x l1 IH]; intros m; cbn; [done|].
  destruct (perform depth fuel ev gs m x); cbn; [by apply IH|done|done].
Qed.

(** ** The values of guards *)

Definition guard_value (ev : Trace) (gs : list Tokens) (n k : Z) : bool := nth (Z.to_nat k) (sampled ev gs n) false.

Lemma guard_value_index ev c n a :
  tables_ok c -> is_Some (guard_index c !! a) -> guard_value ev (c_guards c) n (index c a) = ev n a.
Proof.
  intros [H _] [k Hk]. unfold guard_value, index. rewrite Hk. cbn.
  destruct (H _ _ Hk) as (_ & t & Ht & Hs). unfold sampled. erewrite nth_lookup.
  rewrite list_lookup_fmap, Ht. cbn. by rewrite Hs.
Qed.

Lemma guard_value_agree ev ev' gs n :
  agree n ev ev' -> agree n (guard_value ev gs) (guard_value ev' gs).
Proof.
  intros H t k Ht. unfold guard_value, sampled. do 2 erewrite nth_lookup. rewrite !list_lookup_fmap.
  destruct (gs !! Z.to_nat k); cbn; [|done]. by apply H.
Qed.

(** A property holds on a trace as its translation does on the guard values. *)
Lemma satisfies_sampled ev c P s :
  tables_ok c -> known c (prp_atoms P) ->
  satisfies (guard_value ev (c_guards c)) (prp_map (index c) P) s <-> satisfies ev P s.
Proof.
  intros Ht Hk. rewrite satisfies_map. apply satisfies_atoms. intros n a Ha.
  apply guard_value_index; [done|]. by eapply (proj1 (list.Forall_forall _ _)) in Hk.
Qed.

Lemma guard_nth p k : guard p k = nth (Z.to_nat k) (values p) false.
Proof.
  unfold guard. destruct (k <? size (values p)) eqn:E; [done|]. rewrite nth_overflow; [done|].
  unfold size in E. lia.
Qed.

(** ** Compiled monitors *)

(** Monitor [m] has the tables of the compiler [c], with one clock. *)
Record monitors (c : Compiler) (bs : list Z) (root_ : Z) (every : bool) (m : Monitor) : Prop := {
  mon_tables : compiled (plan_ m) bs c;
  mon_root : plan_root (plan_ m) = root_;
  mon_every : plan_every_match (plan_ m) = every;
  mon_clocks : plan_clock_guards (plan_ m) = [];
}.

Lemma monitor_new_tables c bs root_ every m :
  monitor_new (plan_of c root_ every []) bs = Ok m ->
  exists q, c_properties c !! Z.to_nat root_ = Some q /\
  monitors c bs root_ (every && bool_decide (kind q = k_sequence)) m /\
  attempts m = [] /\ outcomes m = [] /\ tick_ m = -1.
Proof.
  unfold monitor_new, plan_of. cbn [properties root sequences clock_guards every_match].
  destruct (c_properties c !! Z.to_nat root_) as [q|] eqn:Eq; [|done].
  destruct (collect (compile_sequence bs) (c_sequences c)) as [ss|] eqn:Es; [|done]. cbn [mbind outcome_bind].
  destruct (collect (compile_property bs) (c_properties c)) as [ps|] eqn:Ep; [|done]. cbn.
  intros [= <-]. exists q. split; [done|]. split; [|done]. split; [|done..]. split; cbn; intros j x Hx.
  - pose proof (collect_lookup _ _ _ j Es) as H. by rewrite Hx in H.
  - pose proof (collect_lookup _ _ _ j Ep) as H. by rewrite Hx in H.
Qed.

(** The plan during the next tick. *)
Definition ticking (m : Monitor) (gs : list bool) : CompiledPlan :=
  set_plan_now (set_values (plan_ m) gs) (tick_ m + 1).

(** [tick] on one clock. *)
Lemma tick_plain depth fuel m gs st dis t :
  plan_clock_guards (plan_ m) = [] ->
  tick depth fuel m gs st dis t =
    let p := ticking m gs in let n := tick_ m + 1 in
    let sts := if st then mon_started m ++ [t] else mon_started m in
    if dis then
      Returns (MkMonitor p []
        (if st || negb (bool_decide (attempts m = []))
         then outcomes m ++ [MkResolved disabled_outcome
                               (match attempts m with [] => t | r :: _ => run_started r end)]
         else outcomes m) sts (last_start m) n)
    else
      '(l, outs) ← step_attempts depth fuel p n
                     (if st then attempts m ++ [MkRunning (instance_new (plan_root p) n) t] else attempts m);
      Returns (MkMonitor p l (outcomes m ++ outs) sts (last_start m) n).
Proof.
  intros H. unfold tick, advance_clocks. unfold multiclocked. cbn [set_values plan_clock_guards].
  rewrite H. cbn. rewrite andb_true_r. by destruct dis.
Qed.

Section Run.
Context (T : CompiledPlan) (P : Prp Z) (gs : list Tokens) (ev : Trace).
Context (Hroot : represents T (plan_root T) P).
Context (depth fuel : nat).

#[local] Set Default Proof Using "All".

Abbreviation val := (guard_value ev gs).

(** An outcome of the calls [l] is right. *)
Definition right_outcome (l : list Call) (o : Resolved) : Prop :=
  match res_outcome o with
  | success | vacuous_success => exists s, started_at l s (res_started o) /\ Sat val (ticks l) P s
  | failure => exists s, started_at l s (res_started o) /\ Unsat val (ticks l) P s
  | disabled_outcome => exists l1 l2 st t, l = l1 ++ c_tick st true t :: l2
  | no_outcome => False
  end.

Definition right_attempt (l : list Call) (n : Z) (r : Running) : Prop :=
  good T val P n (run_instance r) /\ started_at l (start (run_instance r)) (run_started r).

(** The invariant of a monitor after the calls [l]. *)
Record monitor_ok (l : list Call) (m : Monitor) : Prop := {
  mo_sequences : plan_sequences (plan_ m) = plan_sequences T;
  mo_properties : plan_properties (plan_ m) = plan_properties T;
  mo_root : plan_root (plan_ m) = plan_root T;
  mo_clocks : plan_clock_guards (plan_ m) = [];
  mo_every : plan_every_match (plan_ m) = false;
  mo_tick : tick_ m = ticks l - 1;
  mo_attempts : forall r, r ∈ attempts m -> right_attempt l (ticks l) r;
  mo_outcomes : forall o, o ∈ outcomes m -> right_outcome l o;
}.

Lemma right_outcome_app l x o : right_outcome l o -> right_outcome (l ++ x) o.
Proof.
  assert (Hle : ticks l <= ticks (l ++ x)) by (rewrite ticks_app; pose proof (ticks_nonneg x); lia).
  unfold right_outcome. destruct (res_outcome o).
  - done.
  - intros (s & Hs & H). exists s. split; [by apply started_app|by eapply Sat_mono].
  - intros (s & Hs & H). exists s. split; [by apply started_app|by eapply Unsat_mono].
  - intros (s & Hs & H). exists s. split; [by apply started_app|by eapply Sat_mono].
  - intros (l1 & l2 & st & t & ->). exists l1, (l2 ++ x), st, t. by rewrite <- app_assoc.
Qed.

(** The step of the running attempts at tick [n]. *)
Lemma attempts_ok l n p rs rs' outs :
  multiclocked p = false -> plan_every_match p = false -> (forall k, guard p k = val n k) ->
  plan_properties p = plan_properties T -> plan_sequences p = plan_sequences T -> ticks l = n + 1 ->
  (forall r, r ∈ rs -> right_attempt l n r) -> step_attempts depth fuel p n rs = Returns (rs', outs) ->
  (forall r, r ∈ rs' -> right_attempt l (n + 1) r) /\ (forall o, o ∈ outs -> right_outcome l o).
Proof.
  intros Hc He Hv Hp Hs Hn. revert rs' outs. induction rs as [|r rs IH]; intros rs' outs Hr; cbn [step_attempts].
  - intros [= <- <-]. split; intros x Hx; by apply not_elem_of_nil in Hx.
  - unfold step_attempt. rewrite He.
    destruct (instance_step depth fuel p (run_instance r) n) as [i| |] eqn:Ei; cbn [mbind result_bind]; [|done|done].
    destruct (step_attempts depth fuel p n rs) as [[rs1 outs1]| |]; cbn [mbind result_bind]; [|done|done].
    intros [= <- <-]. destruct (IH rs1 outs1) as [H1 H2]; [intros x Hx; apply Hr; by right|done|].
    destruct (Hr r) as [Hg Hst]; [by left|].
    destruct (step_good T val n fuel p Hc Hv Hp Hs P depth _ _ Hg Ei) as [Hg' Hs'].
    destruct (decided i) eqn:Ed; cbn [app].
    + split; [done|]. intros o [->|Ho]%elem_of_cons; [|by apply H2]. unfold right_outcome. cbn. rewrite Hn.
      destruct (good_decided _ _ _ _ _ Hg' Ed) as [[-> HS]|[-> HS]]; rewrite Hs' in HS; cbn; [|eauto].
      destruct (vacuous i); eauto.
    + split; [|done]. intros x [->|Hx]%elem_of_cons; [|by apply H1]. split; [done|]. cbn. by rewrite Hs'.
Qed.

Lemma performs_snoc l m m' x :
  monitor_ok l m -> perform depth fuel ev gs m x = Returns m' -> monitor_ok (l ++ [x]) m'.
Proof.
  intros [M1 M2 M3 M4 M5 M6 M7 M8].
  assert (Hout : forall o, o ∈ outcomes m -> right_outcome (l ++ [x]) o)
    by (intros o Ho; by apply right_outcome_app, M8).
  destruct x as [st dis t| | | |t]; cbn [perform].
  - assert (Hn : ticks (l ++ [c_tick st dis t]) = ticks l + 1) by (by rewrite ticks_app).
    rewrite tick_plain by done. cbn zeta. set (n := tick_ m + 1).
    assert (En : n = ticks l) by lia.
    set (p := ticking m (sampled ev gs n)). destruct dis.
    + intros [= <-]. split; try done; cbn; [lia|intros r Hr; by apply not_elem_of_nil in Hr|].
      intros o. destruct (st || negb (bool_decide (attempts m = []))); [|by apply Hout].
      intros [Ho|Ho]%elem_of_app; [by apply Hout|]. apply list_elem_of_singleton in Ho as ->.
      by exists l, [], st, t.
    + set (rs := if st then attempts m ++ _ else attempts m).
      destruct (step_attempts depth fuel p n rs) as [[rs' outs]| |] eqn:Es; cbn [mbind result_bind]; [|done|done].
      intros [= <-]. destruct (attempts_ok (l ++ [c_tick st false t]) n p rs rs' outs) as [H1 H2]; try done.
      * unfold multiclocked, p. cbn. by rewrite M4.
      * intros k. rewrite guard_nth. done.
      * lia.
      * assert (Hold : forall r, r ∈ attempts m -> right_attempt (l ++ [c_tick st false t]) n r).
        { intros r Hr. destruct (M7 r Hr) as [Hg Hs]. rewrite En. split; [done|by apply started_app]. }
        intros r Hr. subst rs. destruct st; [|by apply Hold].
        apply elem_of_app in Hr as [Hr|Hr]; [by apply Hold|]. apply list_elem_of_singleton in Hr as ->.
        split; cbn; [apply good_fresh; [by rewrite M3|lia]|]. exists l, []. by split.
      * split; try done; cbn; [lia| |].
        -- rewrite Hn, <- En. done.
        -- intros o [Ho|Ho]%elem_of_app; [by apply Hout|by apply H2].
  - intros [= <-]. assert (Hn : ticks (l ++ [c_next]) = ticks l) by (rewrite ticks_snoc; cbn [is_tick]; lia).
    unfold next_outcome. destruct (outcomes m) as [|o os] eqn:Eo; cbn; split; cbn; try done; rewrite ?Hn, ?Eo; try done.
    + intros r Hr. destruct (M7 r Hr). split; [done|by apply started_app].
    + intros r Hr. destruct (M7 r Hr). split; [done|by apply started_app].
    + intros o' Ho. apply Hout. by right.
  - intros [= <-]. assert (Hn : ticks (l ++ [c_take]) = ticks l) by (rewrite ticks_snoc; cbn [is_tick]; lia).
    split; cbn; try done; rewrite ?Hn; try done.
    intros r Hr. destruct (M7 r Hr). split; [done|by apply started_app].
  - intros [= <-]. assert (Hn : ticks (l ++ [c_kill]) = ticks l) by (rewrite ticks_snoc; cbn [is_tick]; lia).
    split; cbn; try done; rewrite ?Hn; try done; intros x Hx; by apply not_elem_of_nil in Hx.
  - intros [= <-]. assert (Hn : ticks (l ++ [c_kill_attempt t]) = ticks l) by (rewrite ticks_snoc; cbn [is_tick]; lia).
    split; cbn; try done; rewrite ?Hn; try done.
    intros r Hr. apply list_elem_of_In, filter_In in Hr as [Hr _]. apply list_elem_of_In in Hr.
    destruct (M7 r Hr). split; [done|by apply started_app].
Qed.

Lemma performs_ok l1 l m m' :
  monitor_ok l1 m -> performs depth fuel ev gs m l = Returns m' -> monitor_ok (l1 ++ l) m'.
Proof.
  revert l1 m. induction l as [|x l IH]; intros l1 m Hm; cbn [performs].
  - intros [= <-]. by rewrite app_nil_r.
  - destruct (perform depth fuel ev gs m x) as [m1| |] eqn:E; cbn [mbind result_bind]; [|done|done].
    intros H. rewrite cons_middle, app_assoc. apply (IH _ m1); [by eapply performs_snoc|done].
Qed.

(** Every call returns or exceeds the limit on threads. *)
Lemma attempts_end n p rs :
  multiclocked p = false -> plan_every_match p = false -> (forall k, guard p k = val n k) ->
  plan_properties p = plan_properties T -> plan_sequences p = plan_sequences T ->
  (forall r, r ∈ rs -> good T val P n (run_instance r)) -> enough (fun d f => step_attempts d f p n rs).
Proof.
  intros Hc He Hv Hp Hs. induction rs as [|r rs IH]; intros Hr.
  - exists O. intros d f _ _. apply ends_returns.
  - destruct IH as [k1 H1]; [intros x Hx; apply Hr; by right|]. pose proof (Hr r ltac:(by left)) as Hg.
    destruct (step_ends T val n p Hc Hv Hp Hs P _ Hg) as [k2 H2].
    exists (k1 `max` k2)%nat. intros d f Hd Hf. cbn [step_attempts]. unfold step_attempt. rewrite He.
    apply ends_bind.
    + apply ends_bind; [apply H2; lia|]. intros i _. apply ends_returns.
    + intros [o out] _. apply ends_bind; [apply H1; lia|]. intros [l' outs] _. apply ends_returns.
Qed.

Lemma perform_ends l m x : monitor_ok l m -> enough (fun d f => perform d f ev gs m x).
Proof.
  intros [M1 M2 M3 M4 M5 M6 M7 M8].
  destruct x as [st dis t| | | |t]; cbn [perform]; try (exists O; intros; apply ends_returns).
  set (n := tick_ m + 1). set (p := ticking m (sampled ev gs n)).
  destruct (attempts_end n p
    (if st then attempts m ++ [MkRunning (instance_new (plan_root p) n) t] else attempts m)) as [k Hk]; try done.
  - unfold multiclocked, p. cbn. by rewrite M4.
  - intros k. by rewrite guard_nth.
  - assert (Hold : forall r, r ∈ attempts m -> good T val P n (run_instance r)).
    { intros r Hr. destruct (M7 r Hr) as [Hg _]. by replace n with (ticks l) by lia. }
    intros r Hr. destruct st; [|by apply Hold]. apply elem_of_app in Hr as [Hr|Hr]; [by apply Hold|].
    apply list_elem_of_singleton in Hr as ->. cbn. apply good_fresh; [by rewrite M3|done].
  - exists k. intros d f Hd Hf. rewrite tick_plain by done. cbn zeta. destruct dis; [apply ends_returns|].
    apply ends_bind; [by apply Hk|]. intros [rs outs] _. apply ends_returns.
Qed.
End Run.

(** ** Compiled properties *)

(** What the compiler and the constructor give the monitor. *)
Lemma compiled_new bv n every truth_ c pl P m :
  compile n every (compiler_new truth_) = (pl, c) -> denote_property bv n = Some P -> well_formed P = true ->
  monitor_new pl (bound_values bv c) = Ok m ->
  tables_ok c /\ known c (prp_atoms P) /\
  represents (plan_ m) (plan_root (plan_ m)) (prp_map (index c) P) /\
  plan_clock_guards (plan_ m) = [] /\
  plan_every_match (plan_ m) = every && bool_decide (cp_kind (property_at (plan_ m) (plan_root (plan_ m))) = k_sequence) /\
  attempts m = [] /\ outcomes m = [] /\ tick_ m = -1.
Proof.
  intros Hc Hd Hw Hm. unfold compile in Hc.
  destruct (compile_property_node n (compiler_new truth_)) as [r c'] eqn:Er. injection Hc as <- <-.
  assert (T0 : tables_ok (compiler_new truth_)) by (split; cbn; intros text k Hk; by rewrite lookup_empty in Hk).
  destruct (property_program bv n P Hd Hw _ _ _ T0 Er) as (T1 & _ & K1 & H1).
  destruct (monitor_new_tables _ _ _ _ _ Hm) as (q & Hq & [Ht Hr He Hcl] & Ha & Ho & Hk).
  split; [done|]. split; [done|]. split.
  { rewrite Hr. apply (H1 c' (bound_values bv c')); [apply later_refl|by apply bound_values_slots|done]. }
  split; [done|]. split; [|done]. rewrite He, Hr.
  destruct (compiled_properties _ _ _ Ht _ _ Hq) as (q' & Hq' & Hl). unfold property_at. rewrite Hl. cbn.
  unfold compile_property in Hq'.
  destruct (resolve (prop_lo q) _) as [lo|]; [|done]. destruct (resolve (prop_hi q) _) as [hi|]; [|done].
  by injection Hq' as <-.
Qed.

(** The monitor of a compiled property starts in the invariant. *)
Lemma compiled_monitor bv n truth_ c pl P m ev :
  compile n false (compiler_new truth_) = (pl, c) -> denote_property bv n = Some P -> well_formed P = true ->
  monitor_new pl (bound_values bv c) = Ok m ->
  tables_ok c /\ known c (prp_atoms P) /\
  represents (plan_ m) (plan_root (plan_ m)) (prp_map (index c) P) /\
  monitor_ok (plan_ m) (prp_map (index c) P) (c_guards c) ev [] m.
Proof.
  intros Hc Hd Hw Hm. destruct (compiled_new _ _ _ _ _ _ _ _ Hc Hd Hw Hm) as (T1 & K1 & R1 & Hcl & He & Ha & Ho & Hk).
  split; [done|]. split; [done|]. split; [done|]. split; try done.
  - intros x Hx. rewrite Ha in Hx. by apply not_elem_of_nil in Hx.
  - intros x Hx. rewrite Ho in Hx. by apply not_elem_of_nil in Hx.
Qed.

(** ** Counting every match *)

Section Cover.
Context (T : CompiledPlan) (r : Seq Z) (gs : list Tokens) (ev : Trace).
Context (Hkind : runs_seq T (cp_sequence (property_at T (plan_root T))) r).
Context (depth fuel : nat).

#[local] Set Default Proof Using "All".

Abbreviation val := (guard_value ev gs).
Abbreviation seq_ := (cp_sequence (property_at T (plan_root T))).

(** No match from [s] ends at [n] or later, whatever follows. *)
Definition exhausted (s n : Z) : Prop :=
  forall val', agree n val val' -> forall e, n <= e -> ~ tight val' r s (e + 1).

(** A running attempt from tick [s], before tick [n]. *)
Record counting (s n : Z) (i : Instance_) : Prop := {
  co_node : node i = plan_root T;
  co_start : start i = s;
  co_verdict : verdict i = pending;
  co_matcher : (s = n /\ matcher i = None) \/ exists m, matcher i = Some m /\ follows_seq T val seq_ s n m;
  co_missed : matched_once i = false -> forall e, s <= e < n -> ~ tight val r s (e + 1);
}.

Lemma every_step p s n i hit i' :
  multiclocked p = false -> (forall k, guard p k = val n k) ->
  plan_properties p = plan_properties T -> plan_sequences p = plan_sequences T -> s <= n ->
  counting s n i -> step_every_match fuel p i n = Returns (hit, i') ->
  (hit = true <-> tight val r s (n + 1)) /\
  (decided i' = false -> counting s (n + 1) i') /\
  (decided i' = true -> exhausted s (n + 1)) /\
  (matched_once i' = false -> forall e, s <= e < n + 1 -> ~ tight val r s (e + 1)).
Proof.
  intros Hc Hv Hp Hs Hn [C1 C2 C3 C4 C5]. unfold step_every_match.
  assert (Hf : follows_seq T val seq_ s n (own_matcher p i)).
  { rewrite <- C2. eapply (own_follows T val n fuel p Hc Hv Hp Hs); [done|by rewrite C1|]. by rewrite C2. }
  destruct (matcher_step fuel p (own_matcher p i) n) as [[h m']| |] eqn:Em; cbn [mbind result_bind]; [|done|done].
  destruct (follows_step T val n fuel p Hc Hv Hp Hs r _ _ _ _ _ Hkind Hn Hf Em) as (Hf' & Hhit & Hdead).
  specialize (Hhit val (agree_refl _ _)).
  assert (Hmiss : matched_once i || h = false -> forall e, s <= e < n + 1 -> ~ tight val r s (e + 1)).
  { intros [Hmo Hh]%orb_false_iff e He. destruct (decide (e = n)) as [->|].
    - rewrite <- Hhit. by rewrite Hh.
    - apply C5; [done|lia]. }
  intros [= <- <-]. split; [done|].
  destruct (dead m') eqn:Ed.
  - split; [done|]. split; [exact (fun _ => Hdead eq_refl)|done].
  - split; [|split; [|done]].
    + intros _. split; cbn; try done. right. by exists m'.
    + unfold decided. cbn. by rewrite C3.
Qed.

(** The attempts a list of ticks [l] started: [l] gives each tick whether it
    starts an attempt, and its time. *)
Definition begun (l : list (bool * Z)) (s t : Z) : Prop := 0 <= s /\ l !! Z.to_nat s = Some (true, t).

(** An attempt that runs before tick [n], and the tick it started at. *)
Definition runs_from (l : list (bool * Z)) (n : Z) (a : Running) (s : Z) : Prop :=
  begun l s (run_started a) /\ counting s n (run_instance a).

(** The running attempts started at different ticks, and an attempt that does
    not run any more has no match left. *)
Definition in_progress (l : list (bool * Z)) (n : Z) (rs : list Running) (ss : list Z) : Prop :=
  Forall2 (runs_from l n) rs ss /\ NoDup ss /\
  forall s t, begun l s t -> s ∈ ss \/ exhausted s n.

Record cover_ok (l : list (bool * Z)) (m : Monitor) : Prop := {
  cv_sequences : plan_sequences (plan_ m) = plan_sequences T;
  cv_properties : plan_properties (plan_ m) = plan_properties T;
  cv_root : plan_root (plan_ m) = plan_root T;
  cv_clocks : plan_clock_guards (plan_ m) = [];
  cv_every : plan_every_match (plan_ m) = true;
  cv_tick : tick_ m = size l - 1;
  cv_attempts : exists ss, in_progress l (size l) (attempts m) ss;
}.

(** What an outcome of tick [n] says about the attempt that started at [s]. *)
Definition reports (l : list (bool * Z)) (n : Z) (s : Z) (o : Resolved) : Prop :=
  begun l s (res_started o) /\
  match res_outcome o with
  | success => tight val r s (n + 1)
  | failure => forall val', agree (n + 1) val val' -> forall e, s <= e -> ~ tight val' r s (e + 1)
  | _ => False
  end.

Lemma begun_le l s t : begun l s t -> 0 <= s < size l.
Proof using. intros [H1 H2]. apply lookup_lt_Some in H2. unfold size. lia. Qed.

(** One attempt: at most one outcome, and it runs on unless no match is left. *)
Lemma cover_attempt p l n a s o outs :
  multiclocked p = false -> plan_every_match p = true -> (forall k, guard p k = val n k) ->
  plan_properties p = plan_properties T -> plan_sequences p = plan_sequences T ->
  s <= n -> runs_from l n a s -> step_attempt depth fuel p n a = Returns (o, outs) ->
  match o with Some a' => runs_from l (n + 1) a' s | None => exhausted s (n + 1) end /\
  ((outs = [] /\ ~ tight val r s (n + 1)) \/ exists x, outs = [x] /\ reports l n s x).
Proof.
  intros Hc He Hv Hp Hs Hsn [Hb Hco]. unfold step_attempt. rewrite He.
  destruct (step_every_match fuel p (run_instance a) n) as [[hit i]| |] eqn:Ei; cbn [mbind result_bind]; [|done|done].
  intros [= <- <-]. destruct (every_step p s n _ hit i Hc Hv Hp Hs Hsn Hco Ei) as (Hhit & Hrun & Hex & Hmiss). split.
  - destruct (decided i); [by apply Hex|]. split; [done|by apply Hrun].
  - destruct hit.
    + assert (Ht : tight val r s (n + 1)) by (by apply Hhit). right. eexists.
      assert (matched_once i = true) as ->.
      { destruct (matched_once i) eqn:Em; [done|]. exfalso. apply (Hmiss eq_refl n); [lia|done]. }
      rewrite andb_false_r. by split.
    + assert (Ht : ~ tight val r s (n + 1)) by (by rewrite <- Hhit).
      destruct (decided i && negb (matched_once i)) eqn:Ed; [right|by left].
      apply andb_prop in Ed as [Ed Em%negb_true_iff]. eexists. split; [done|]. split; [done|]. cbn.
      intros val' Ha e Hse Hm. destruct (decide (n + 1 <= e)); [by eapply Hex|].
      eapply (Hmiss Em e); [lia|]. apply (tight_agree val val' r (n + 1)); [apply Hkind|done|lia|done].
Qed.

(** The outcomes of a tick of the running attempts. *)
Lemma cover_attempts p l n rs ss rs' outs :
  multiclocked p = false -> plan_every_match p = true -> (forall k, guard p k = val n k) ->
  plan_properties p = plan_properties T -> plan_sequences p = plan_sequences T ->
  Forall (fun s => s <= n) ss -> Forall2 (runs_from l n) rs ss ->
  step_attempts depth fuel p n rs = Returns (rs', outs) ->
  exists ss' starts,
    (Forall2 (runs_from l (n + 1)) rs' ss' /\ ss' `sublist_of` ss /\
     forall s, s ∈ ss -> s ∈ ss' \/ exhausted s (n + 1)) /\
    Forall2 (reports l n) starts outs /\ starts `sublist_of` ss /\
    forall s, s ∈ ss -> tight val r s (n + 1) -> s ∈ starts.
Proof.
  intros Hc He Hv Hp Hs Hle Hrs. revert rs' outs. induction Hrs as [|a s rs ss Ha Hrs IH]; intros rs' outs; cbn [step_attempts].
  { intros [= <- <-]. exists [], []. split_and!; try constructor; set_solver. }
  apply Forall_cons in Hle as [Hsn Hle].
  destruct (step_attempt depth fuel p n a) as [[o out]| |] eqn:Ea; cbn [mbind result_bind]; [|done|done].
  destruct (step_attempts depth fuel p n rs) as [[rs1 outs1]| |]; cbn [mbind result_bind]; [|done|done].
  intros [= <- <-]. destruct (IH Hle _ _ eq_refl) as (ss' & starts & (F1 & S1 & X1) & F2 & S2 & X2).
  destruct (cover_attempt p l n a s o out Hc He Hv Hp Hs Hsn Ha Ea) as [Ho Hout].
  exists (match o with Some _ => s :: ss' | None => ss' end), (match out with [] => starts | _ => s :: starts end). split; [|split; [|split]].
  - destruct o as [a'|].
    + split; [by constructor|]. split; [by apply sublist_skip|]. intros x [->|Hx]%elem_of_cons; [left; by left|].
      destruct (X1 x Hx); [left; by right|by right].
    + split; [done|]. split; [by apply sublist_cons|]. intros x [->|Hx]%elem_of_cons; [by right|by apply X1].
  - destruct Hout as [[-> _]|(x & -> & Hx)]; [done|]. by constructor.
  - destruct out; [by apply sublist_cons|by apply sublist_skip].
  - intros x [->|Hx]%elem_of_cons Ht; destruct Hout as [[-> Hn]|(y & -> & _)]; [done|by left|by apply X2|right; by apply X2].
Qed.

Definition tick_calls (l : list (bool * Z)) : list Call := map (fun x => c_tick x.1 false x.2) l.

Lemma begun_snoc l st t s u :
  begun (l ++ [(st, t)]) s u <-> begun l s u \/ (s = size l /\ st = true /\ u = t).
Proof.
  unfold begun, size. split.
  - intros [H1 [H2|[H2 H3]]%lookup_app_Some]; [by left|right].
    apply list_lookup_singleton_Some in H3 as [H3 [= <- <-]]. split; [lia|done].
  - intros [[H1 H2]|(-> & -> & ->)]; (split; [lia|]).
    + by apply lookup_app_l_Some.
    + rewrite lookup_app_r by lia. by replace (Z.to_nat (Z.of_nat (length l)) - length l)%nat with 0%nat by lia.
Qed.

(** The attempts of a tick: those that ran before, and the one it starts. *)
Definition with_start (m : Monitor) (p : CompiledPlan) (n : Z) (st : bool) (t : Z) : list Running :=
  if st then attempts m ++ [MkRunning (instance_new (plan_root p) n) t] else attempts m.

Lemma runs_from_snoc l st t n a s : runs_from l n a s -> runs_from (l ++ [(st, t)]) n a s.
Proof. intros [Hb Hco]. split; [apply begun_snoc; by left|done]. Qed.

Lemma started_in_progress l m p st t :
  plan_root p = plan_root T -> (exists ss, in_progress l (size l) (attempts m) ss) ->
  exists ss, in_progress (l ++ [(st, t)]) (size l) (with_start m p (size l) st t) ss.
Proof.
  intros Hp (ss & F & N & X). unfold with_start. exists (if st then ss ++ [size l] else ss).
  assert (F' : Forall2 (runs_from (l ++ [(st, t)]) (size l)) (attempts m) ss)
    by (eapply Forall2_impl; [exact F|intros; by apply runs_from_snoc]).
  assert (Hnew : forall s, s ∈ ss -> s < size l).
  { intros s [i Hi]%list_elem_of_lookup. destruct (Forall2_lookup_r _ _ _ _ _ F Hi) as (a & _ & Hb & _).
    apply begun_le in Hb. lia. }
  split; [|split].
  - destruct st; [|done]. apply Forall2_app; [done|]. constructor; [|done]. split.
    + apply begun_snoc. by right.
    + split; try done; cbn; [by left|lia].
  - destruct st; [|done]. apply NoDup_app. split; [done|]. split; [|apply NoDup_singleton].
    intros s Hs ->%list_elem_of_singleton. apply Hnew in Hs. lia.
  - intros s u [Hb|(-> & -> & ->)]%begun_snoc.
    + destruct (X s u Hb); [left|by right]. destruct st; [apply elem_of_app; by left|done].
    + left. apply elem_of_app. right. by left.
Qed.

(** One tick reports the matches that end at it. *)
Lemma cover_tick l m m' st t :
  cover_ok l m -> perform depth fuel ev gs m (c_tick st false t) = Returns m' ->
  cover_ok (l ++ [(st, t)]) m' /\
  exists outs starts, outcomes m' = outcomes m ++ outs /\ NoDup starts /\
    Forall2 (reports (l ++ [(st, t)]) (size l)) starts outs /\
    forall s u, begun (l ++ [(st, t)]) s u -> tight val r s (size l + 1) -> s ∈ starts.
Proof.
  intros [V1 V2 V3 V4 V5 V6 V7]. cbn [perform]. rewrite tick_plain by done. cbn zeta.
  assert (Hsz : size (l ++ [(st, t)]) = size l + 1) by (by rewrite size_app).
  replace (tick_ m + 1) with (size l) by lia.
  set (p := ticking m (sampled ev gs (size l))).
  destruct (started_in_progress l m p st t V3 V7) as (ss & F & N & X). unfold with_start in F.
  set (rs := if st then attempts m ++ _ else attempts m) in *.
  destruct (step_attempts depth fuel p (size l) rs) as [[rs' outs]| |] eqn:Es; cbn [mbind result_bind]; [|done|done].
  intros [= <-].
  destruct (cover_attempts p (l ++ [(st, t)]) (size l) rs ss rs' outs) as (ss' & starts & (F1 & S1 & X1) & F2 & S2 & X2); try done.
  { unfold multiclocked, p. cbn. by rewrite V4. }
  { intros k. by rewrite guard_nth. }
  { apply Forall_lookup. intros i s Hi. destruct (Forall2_lookup_r _ _ _ _ _ F Hi) as (a & _ & Hb & _).
    apply begun_le in Hb. lia. }
  split.
  - split; try done; cbn; [lia|]. rewrite Hsz. exists ss'. split; [done|]. split; [by eapply sublist_NoDup|].
    intros s u Hb. destruct (X s u Hb) as [Hin|Hex]; [by apply X1|right].
    intros val' Ha e He. apply Hex; [|lia]. eapply agree_le; [|done]. lia.
  - exists outs, starts. split; [done|]. split; [by eapply sublist_NoDup|]. split; [done|].
    intros s u Hb Ht. destruct (X s u Hb) as [Hin|Hex]; [by apply X2|].
    exfalso. by apply (Hex val (agree_refl _ _) (size l)).
Qed.

Lemma cover_ends l m st t : cover_ok l m -> enough (fun d f => perform d f ev gs m (c_tick st false t)).
Proof.
  intros [V1 V2 V3 V4 V5 V6 (ss & V7 & _ & _)]. cbn [perform].
  set (n := tick_ m + 1). set (p := ticking m (sampled ev gs n)). assert (En : n = size l) by lia.
  assert (Hall : forall rs, (forall a, a ∈ rs -> exists s, counting s n (run_instance a)) ->
    enough (fun d f => step_attempts d f p n rs)).
  { assert (Hc : multiclocked p = false) by (unfold multiclocked, p; cbn; by rewrite V4).
    assert (Hv : forall k, guard p k = val n k) by (intros k; by rewrite guard_nth).
    induction rs as [|a rs IH]; intros Hr; [exists O; intros; apply ends_returns|].
    destruct IH as [k1 H1]; [intros x Hx; apply Hr; by right|].
    destruct (Hr a) as (s & [C1 C2 _ C4 _]); [by left|].
    destruct (matcher_ends T val n p Hc Hv V2 V1 r _ s (own_matcher p (run_instance a)) Hkind) as [k2 H2].
    { rewrite <- C2. eapply (own_follows T val n fuel p Hc Hv V2 V1); [done|by rewrite C1|]. by rewrite C2. }
    exists (k1 `max` k2)%nat. intros d f Hd Hf. cbn [step_attempts]. unfold step_attempt, p. cbn [plan_every_match ticking set_plan_now set_values]. rewrite V5.
    apply ends_bind; [|intros [o out] _; apply ends_bind; [apply H1; lia|intros [? ?] _; apply ends_returns]].
    apply ends_bind; [|intros [? ?] _; apply ends_returns].
    unfold step_every_match. apply ends_bind; [apply H2; lia|]. intros [? ?] _. apply ends_returns. }
  destruct (Hall (if st then attempts m ++ [MkRunning (instance_new (plan_root p) n) t] else attempts m)) as [k Hk].
  - assert (Hold : forall a, a ∈ attempts m -> exists s, counting s n (run_instance a)).
    { intros a [i Hi]%list_elem_of_lookup. destruct (Forall2_lookup_l _ _ _ _ _ V7 Hi) as (s & _ & _ & Hco). exists s. by rewrite En. }
    intros a Ha. destruct st; [|by apply Hold]. apply elem_of_app in Ha as [Ha|Ha]; [by apply Hold|].
    apply list_elem_of_singleton in Ha as ->. exists n. split; try done; cbn; [by left|lia].
  - exists k. intros d f Hd Hf. rewrite tick_plain by done. cbn zeta.
    apply ends_bind; [by apply Hk|]. intros [? ?] _. apply ends_returns.
Qed.

Lemma cover_performs l1 l m m' :
  cover_ok l1 m -> performs depth fuel ev gs m (tick_calls l) = Returns m' -> cover_ok (l1 ++ l) m'.
Proof.
  revert l1 m. induction l as [|[st t] l IH]; intros l1 m Hm; cbn [performs tick_calls map].
  - intros [= <-]. by rewrite app_nil_r.
  - destruct (perform depth fuel ev gs m (c_tick st false t)) as [m1| |] eqn:E; cbn [mbind result_bind fst snd]; rewrite ?E; cbn [mbind result_bind]; [|done|done].
    intros H. rewrite cons_middle, app_assoc. apply (IH _ m1); [by eapply cover_tick|done].
Qed.
End Cover.

(** The monitor of a compiled [cover sequence] starts in the invariant. *)
Lemma compiled_cover bv n truth_ c pl st r m ev :
  compile n true (compiler_new truth_) = (pl, c) -> denote_property bv n = Some (p_seq st r) -> regular r = true ->
  monitor_new pl (bound_values bv c) = Ok m ->
  tables_ok c /\ known c (atoms r) /\
  runs_seq (plan_ m) (cp_sequence (property_at (plan_ m) (plan_root (plan_ m)))) (seq_map (index c) r) /\
  cover_ok (plan_ m) (seq_map (index c) r) (c_guards c) ev [] m.
Proof.
  intros Hc Hd Hw Hm. destruct (compiled_new _ _ _ _ _ _ _ _ Hc Hd Hw Hm) as (T1 & K1 & R1 & Hcl & He & Ha & Ho & Hk).
  destruct R1 as (Rk & _ & Rs). split; [done|]. split; [done|]. split; [done|]. split; try done.
  - rewrite He, Rk. done.
  - exists []. rewrite Ha. split; [done|]. split; [apply NoDup_nil_2|]. by intros s t [_ H].
Qed.

Lemma tight_sampled ev c r i j :
  tables_ok c -> known c (atoms r) ->
  tight (guard_value ev (c_guards c)) (seq_map (index c) r) i j <-> tight ev r i j.
Proof.
  intros Ht Hk. rewrite tight_map. apply tight_atoms. intros n a Ha.
  apply guard_value_index; [done|]. by eapply (proj1 (list.Forall_forall _ _)) in Hk.
Qed.

(** An outcome in terms of the sampled expressions is one in terms of the trace. *)
Lemma reports_sampled ev c r l n s o :
  tables_ok c -> known c (atoms r) ->
  reports (seq_map (index c) r) (c_guards c) ev l n s o ->
  begun l s (res_started o) /\
  match res_outcome o with
  | success => tight ev r s (n + 1)
  | failure => forall ev', agree (n + 1) ev ev' -> forall e, s <= e -> ~ tight ev' r s (e + 1)
  | _ => False
  end.
Proof.
  intros T1 K1 [Hb Ho]. split; [done|]. destruct (res_outcome o); try done; [by apply tight_sampled in Ho|].
  intros ev' Ha e He Ht. eapply (Ho (guard_value ev' (c_guards c))); [by apply guard_value_agree|exact He|].
  by apply tight_sampled.
Qed.

Lemma begun_at l s t u : begun l s t -> begun l s u -> t = u.
Proof. intros [_ H1] [_ H2]. congruence. Qed.

(** A start with a match at this tick has a success among the outcomes. *)
Lemma matched_is_reported r gs ev l n starts outs s u :
  Forall2 (reports r gs ev l n) starts outs ->
  (forall s u, begun l s u -> tight (guard_value ev gs) r s (n + 1) -> s ∈ starts) ->
  begun l s u -> tight (guard_value ev gs) r s (n + 1) -> s <= n ->
  exists i, starts !! i = Some s /\ outs !! i = Some (MkResolved success u).
Proof.
  intros HF HA Hb Ht Hsn. pose proof (HA s u Hb Ht) as [i Hi]%list_elem_of_lookup.
  destruct (Forall2_lookup_l _ _ _ _ _ HF Hi) as ([o v] & Ho & Hv & Hm). cbn in *.
  exists i. split; [done|]. rewrite Ho. destruct o; try done; [by rewrite (begun_at _ _ _ _ Hb Hv)|].
  by destruct (Hm (guard_value ev gs) (agree_refl _ _) n Hsn).
Qed.

(** ** Attempts are neither lost nor reported twice *)

Section Conserve.
Context (ev : Trace) (gs : list Tokens) (depth fuel : nat).

Lemma step_attempts_conserve p n rs rs' outs :
  plan_every_match p = false -> step_attempts depth fuel p n rs = Returns (rs', outs) ->
  map run_started rs' ++ map res_started outs ≡ₚ map run_started rs.
Proof.
  intros He. revert rs' outs. induction rs as [|a rs IH]; intros rs' outs; cbn [step_attempts].
  - by intros [= <- <-].
  - unfold step_attempt. rewrite He.
    destruct (instance_step depth fuel p (run_instance a) n) as [i| |]; cbn [mbind result_bind]; [|done|done].
    destruct (step_attempts depth fuel p n rs) as [[rs1 outs1]| |]; cbn [mbind result_bind]; [|done|done].
    intros [= <- <-]. specialize (IH _ _ eq_refl).
    destruct (decided i); cbn; rewrite <- IH; [by rewrite Permutation_middle|done].
Qed.

Lemma ticks_conserve l0 l m m' :
  plan_clock_guards (plan_ m) = [] -> plan_every_match (plan_ m) = false ->
  map run_started (attempts m) ++ map res_started (outcomes m) ≡ₚ map snd (List.filter fst l0) ->
  mon_started m = map snd (List.filter fst l0) ->
  performs depth fuel ev gs m (tick_calls l) = Returns m' ->
  map run_started (attempts m') ++ map res_started (outcomes m') ≡ₚ map snd (List.filter fst (l0 ++ l)) /\
  mon_started m' = map snd (List.filter fst (l0 ++ l)).
Proof.
  revert l0 m. induction l as [|[st t] l IH]; intros l0 m Hc He Hp Hs; cbn [performs tick_calls map fst snd].
  - intros [= <-]. by rewrite app_nil_r.
  - cbn [perform]. rewrite tick_plain by done. cbn zeta.
    destruct (step_attempts _ _ _ _ _) as [[rs outs]| |] eqn:Es; cbn [mbind result_bind]; [|done|done].
    apply step_attempts_conserve in Es; [|done]. intros H.
    rewrite cons_middle, app_assoc. apply (IH (l0 ++ [(st, t)]) _) in H; [done|done|done| |]; cbn.
    + rewrite map_app, (Permutation_app_comm (map res_started _)), app_assoc, Es, List.filter_app, map_app.
      destruct st; cbn; [|by rewrite app_nil_r].
      rewrite map_app, <- Hp. cbn. rewrite <- !app_assoc. apply Permutation_app_head.
      apply Permutation_app_comm.
    + rewrite List.filter_app, map_app, <- Hs. destruct st; cbn; [done|by rewrite app_nil_r].
Qed.
End Conserve.
