(* ===== verification/SvaProperties.v ===== *)
(** * Properties of the assertion engine

    What the components of the assertion engine promise together: the plan text
    round-trips; a monitor built by the compiler and the constructor for a
    property of the fragment reports only verdicts that its property has on every
    continuation of the trace, and its calls end; [cover sequence] of a sequence
    of the fragment counts exactly the matches; no attempt is lost.  The fragment
    ([denote_property] with [well_formed], [denote] with [regular]): one clock;
    sequences of expressions with delays, repetitions, [->], [=] and [or]; every
    property operator but [accept_on] and [reject_on].  Left out: [and],
    [intersect], [within], [throughout] and [first_match] of sequences, further
    clocks, [##0] next to a sequence with an empty match, unbounded repetition of
    a sequence that can match without evaluating an expression, and [until] whose
    left operand takes more than one tick.  The last part evaluates the engine where it departs from
    IEEE 1800. *)
From stdpp Require Import gmap.
From S2P Require Import Prelude SvaPlan SvaPlanRoundTrip SvaMatcher SvaEngine SvaCompile SvaReach SvaStep.
From S2P Require Import SvaSequence SvaEmit SvaTermination SvaSemantics SvaVerdict SvaProperty.
From S2P Require Import SvaProgress SvaMonitor.
From stdpp Require Import options.

(** ** Verdicts *)

(** C5: for a property of the fragment, the monitor of the compiled property,
    stepped on a trace by any sequence of calls, queues only right outcomes: a
    success or vacuous success belongs to an attempt that was started, and every
    trace with the same ticks so far satisfies the property from the start tick
    of that attempt; a failure belongs to an attempt whose property every such
    trace violates; a disabled outcome only appears after a disabled tick. The
    fragment is [denote_property bv n = Some P] with [well_formed P]: one clock;
    sequences of expressions, delays, repetitions, goto and nonconsecutive
    repetitions and [or], but no [and], [intersect], [within], [throughout] or
    [first_match], no [##0] next to an empty match and no unbounded repetition
    that evaluates nothing; ranges of natural numbers in order; every property
    operator but [accept_on] and [reject_on]; left operands of [until] that are
    decided at their first tick. *)
Theorem monitor_outcomes_right bv n truth_ c pl P m0 ev depth fuel calls m o :
  compile n false (compiler_new truth_) = (pl, c) ->
  denote_property bv n = Some P -> well_formed P = true ->
  monitor_new pl (bound_values bv c) = Ok m0 ->
  performs depth fuel ev (c_guards c) m0 calls = Returns m -> o ∈ outcomes m ->
  match res_outcome o with
  | success | vacuous_success =>
      exists s, started_at calls s (res_started o) /\
        forall ev', agree (ticks calls) ev ev' -> satisfies ev' P s
  | failure =>
      exists s, started_at calls s (res_started o) /\
        forall ev', agree (ticks calls) ev ev' -> ~ satisfies ev' P s
  | disabled_outcome => exists l1 l2 st t, calls = l1 ++ c_tick st true t :: l2
  | no_outcome => False
  end.
Proof.
  intros Hc Hd Hw Hm Hrun Ho.
  destruct (compiled_monitor _ _ _ _ _ _ _ ev Hc Hd Hw Hm) as (T1 & K1 & R1 & M0).
  pose proof (performs_ok _ _ _ _ R1 depth fuel _ _ _ _ M0 Hrun) as M1.
  pose proof (mo_outcomes _ _ _ _ _ _ M1 o Ho) as H. unfold right_outcome in H.
  destruct (res_outcome o); try done; destruct H as (s & Hs & HS); exists s; (split; [done|]); intros ev' Ha;
    rewrite <- (satisfies_sampled ev' c P s T1 K1); by apply HS, guard_value_agree.
Qed.

(** a |-> ##[1:2] b on the ticks {a}, {}, {b}, an attempt at each tick. *)
Definition sample_property : Node :=
  n_implication true (n_boolean ["a"%string])
    (n_leading_delay (b_literal 1) (b_literal 2) (n_boolean ["b"%string])).
Definition sample_trace : Trace := fun n a =>
  ((n =? 0) && String.eqb a "a"%string) || ((n =? 2) && String.eqb a "b"%string).
Definition sample_calls : list Call := [c_tick true false 10; c_tick true false 20; c_tick true false 30].
Definition no_bounds : string -> Z := fun _ => 0.

Definition sample_compiled (n : Node) (every : bool) : Plan * Compiler :=
  compile n every (compiler_new ["1'b1"%string]).

Definition some_monitor : Monitor :=
  MkMonitor (MkCompiledPlan [] [] 0 0 false [] 0 [] [] [] [] 0) [] [] [] 0 (-1).
Definition sample_monitor (n : Node) (every : bool) : Monitor :=
  match monitor_new (sample_compiled n every).1 (bound_values no_bounds (sample_compiled n every).2) with
  | Ok m => m | Throw _ => some_monitor end.
Definition sample_run (n : Node) (every : bool) (ev : Trace) (l : list Call) : Result Monitor :=
  performs 20 2000 ev (c_guards (sample_compiled n every).2) (sample_monitor n every) l.
Definition returned (r : Result Monitor) : Monitor := match r with Returns m => m | _ => some_monitor end.

Lemma monitor_outcomes_right_witness :
  exists s, started_at sample_calls s 10 /\
    forall ev', agree 3 sample_trace ev' ->
      satisfies ev' (p_after true true (s_bool "a"%string) (p_seq false (s_lead 1 (Some 2) (s_bool "b"%string)))) s.
Proof.
  apply (monitor_outcomes_right no_bounds sample_property ["1'b1"%string]
    (sample_compiled sample_property false).2 (sample_compiled sample_property false).1 _
    (sample_monitor sample_property false) sample_trace 20 2000 sample_calls
    (returned (sample_run sample_property false sample_trace sample_calls)) (MkResolved success 10)).
  - reflexivity.
  - reflexivity.
  - reflexivity.
  - vm_compute. reflexivity.
  - vm_compute. reflexivity.
  - vm_compute. right. left.
Defined.

(** C16: for a property of the fragment of [well_formed] (one clock; sequences of
    expressions, delays, repetitions and [or], without [and], [intersect],
    [within], [throughout], [first_match], [##0] next to an empty match and
    unbounded repetition that evaluates nothing; ranges of natural numbers in
    order; no [accept_on] or [reject_on];
    left operands of [until] decided at their first tick) the engine comes to an
    end: in every state that the monitor of the compiled property reaches, every
    call returns, or throws because the attempts need more threads than the
    limit, once the model's bounds on nesting and on matcher steps are large
    enough. *)
Theorem monitor_calls_end bv n truth_ c pl P m0 ev depth fuel calls m x :
  compile n false (compiler_new truth_) = (pl, c) ->
  denote_property bv n = Some P -> well_formed P = true ->
  monitor_new pl (bound_values bv c) = Ok m0 ->
  performs depth fuel ev (c_guards c) m0 calls = Returns m ->
  exists enough_, forall depth' fuel', (enough_ <= depth')%nat -> (enough_ <= fuel')%nat ->
    (exists m', perform depth' fuel' ev (c_guards c) m x = Returns m') \/
    perform depth' fuel' ev (c_guards c) m x =
      Throws (runtime_error "concurrent property evaluation exceeded its thread limit").
Proof.
  intros Hc Hd Hw Hm Hrun.
  destruct (compiled_monitor _ _ _ _ _ _ _ ev Hc Hd Hw Hm) as (T1 & K1 & R1 & M0).
  pose proof (performs_ok _ _ _ _ R1 depth fuel _ _ _ _ M0 Hrun) as M1.
  exact (perform_ends _ _ _ _ R1 depth fuel _ _ x M1).
Qed.

Lemma monitor_calls_end_witness :
  let m := returned (sample_run sample_property false sample_trace sample_calls) in
  let gs := c_guards (sample_compiled sample_property false).2 in
  size (outcomes m) = 3 /\
  exists enough_, forall depth' fuel', (enough_ <= depth')%nat -> (enough_ <= fuel')%nat ->
    (exists m', perform depth' fuel' sample_trace gs m (c_tick true false 40) = Returns m') \/
    perform depth' fuel' sample_trace gs m (c_tick true false 40) =
      Throws (runtime_error "concurrent property evaluation exceeded its thread limit").
Proof.
  split; [vm_compute; reflexivity|].
  apply (monitor_calls_end no_bounds sample_property ["1'b1"%string]
    (sample_compiled sample_property false).2 (sample_compiled sample_property false).1
    (p_after true true (s_bool "a"%string) (p_seq false (s_lead 1 (Some 2) (s_bool "b"%string))))
    (sample_monitor sample_property false) sample_trace 20 2000 sample_calls).
  - reflexivity.
  - reflexivity.
  - reflexivity.
  - vm_compute. reflexivity.
  - vm_compute. reflexivity.
Defined.

(** ** Counting matches *)

(** C6: [cover sequence] counts every match once and nothing else, for a sequence
    of the fragment of [regular] (one clock; expressions, delays, repetitions and
    [or], without [and], [intersect], [within], [throughout], [first_match],
    [##0] next to an empty match and unbounded repetition that evaluates
    nothing; ranges of natural numbers in order).  A monitor that reports every match of the compiled sequence,
    stepped with the ticks [l], none of them disabled (each may start an
    attempt), ends its next such tick or exceeds the limit on threads.  When it
    returns, the outcomes it adds belong to different starts: a success to a
    start [s] such that the sequence matches the ticks from [s] to this one, a
    failure to a start from which no continuation of the trace has a match; and
    every start with a match that ends at this tick has its success. *)
Theorem cover_counts_every_match bv n truth_ c pl st_ r m0 ev depth fuel l m st t :
  compile n true (compiler_new truth_) = (pl, c) ->
  denote_property bv n = Some (p_seq st_ r) -> regular r = true ->
  monitor_new pl (bound_values bv c) = Ok m0 ->
  performs depth fuel ev (c_guards c) m0 (tick_calls l) = Returns m ->
  (exists enough_, forall depth' fuel', (enough_ <= depth')%nat -> (enough_ <= fuel')%nat ->
     (exists m', perform depth' fuel' ev (c_guards c) m (c_tick st false t) = Returns m') \/
     perform depth' fuel' ev (c_guards c) m (c_tick st false t) =
       Throws (runtime_error "concurrent property evaluation exceeded its thread limit")) /\
  forall depth' fuel' m', perform depth' fuel' ev (c_guards c) m (c_tick st false t) = Returns m' ->
    exists outs starts, outcomes m' = outcomes m ++ outs /\ NoDup starts /\
      Forall2 (fun s o => begun (l ++ [(st, t)]) s (res_started o) /\
        match res_outcome o with
        | success => tight ev r s (size l + 1)
        | failure => forall ev', agree (size l + 1) ev ev' -> forall e, s <= e -> ~ tight ev' r s (e + 1)
        | _ => False
        end) starts outs /\
      (forall s u, begun (l ++ [(st, t)]) s u -> tight ev r s (size l + 1) ->
         exists i, starts !! i = Some s /\ outs !! i = Some (MkResolved success u)).
Proof.
  intros Hc Hd Hr Hm Hrun.
  destruct (compiled_cover _ _ _ _ _ _ _ _ ev Hc Hd Hr Hm) as (T1 & K1 & R1 & M0).
  pose proof (cover_performs _ _ _ _ R1 depth fuel [] l _ _ M0 Hrun) as M1. cbn [app] in M1.
  split; [exact (cover_ends _ _ _ _ R1 depth fuel _ _ st t M1)|]. intros depth' fuel' m' Hp.
  destruct (cover_tick _ _ _ _ R1 depth' fuel' _ _ _ _ _ M1 Hp) as (_ & outs & starts & Ho & Hn & HF & HA).
  exists outs, starts. split; [done|]. split; [done|]. split.
  - eapply Forall2_impl; [exact HF|]. intros s o. by apply reports_sampled.
  - intros s u Hb Ht. assert (Ht' := Ht). apply (tight_sampled ev c r _ _ T1 K1) in Ht'.
    eapply matched_is_reported; [done..|]. apply begun_le in Hb. unfold size in *. rewrite length_app in Hb. cbn in Hb. lia.
Qed.

(** a ##[1:2] b on the ticks {a}, {b}, {b}: both ticks end a match. *)
Definition sample_sequence : Node :=
  n_delay (b_literal 1) (b_literal 2) (n_boolean ["a"%string]) (n_boolean ["b"%string]).
Definition cover_trace : Trace := fun n a =>
  ((n =? 0) && String.eqb a "a"%string) || ((1 <=? n) && String.eqb a "b"%string).

Lemma cover_counts_every_match_witness :
  let m := returned (sample_run sample_sequence true cover_trace (tick_calls [(true, 10); (false, 20)])) in
  let gs := c_guards (sample_compiled sample_sequence true).2 in
  outcomes m = [MkResolved success 10] /\
  forall depth fuel m', perform depth fuel cover_trace gs m (c_tick false false 30) = Returns m' ->
    exists outs starts, outcomes m' = outcomes m ++ outs /\ NoDup starts /\
      forall s u, begun [(true, 10); (false, 20); (false, 30)] s u ->
        tight cover_trace (s_delay 1 (Some 2) (s_bool "a"%string) (s_bool "b"%string)) s 3 ->
        exists i, starts !! i = Some s /\ outs !! i = Some (MkResolved success u).
Proof.
  split; [vm_compute; reflexivity|]. intros depth fuel m' Hp.
  destruct (cover_counts_every_match no_bounds sample_sequence ["1'b1"%string]
    (sample_compiled sample_sequence true).2 (sample_compiled sample_sequence true).1
    false (s_delay 1 (Some 2) (s_bool "a"%string) (s_bool "b"%string))
    (sample_monitor sample_sequence true) cover_trace 20 2000 [(true, 10); (false, 20)]
    (returned (sample_run sample_sequence true cover_trace (tick_calls [(true, 10); (false, 20)]))) false 30)
    as [_ H]; [reflexivity|reflexivity|reflexivity|vm_compute; reflexivity|vm_compute; reflexivity|].
  destruct (H _ _ _ Hp) as (outs & starts & Ho & Hn & _ & Hs). exists outs, starts.
  exact (conj Ho (conj Hn Hs)).
Defined.

(** ** The plan text *)

(** C15: the text of a plan reads back exactly for the plans whose tables are
    consistent ([plan_valid]: counts and numbers in range, references inside the
    tables, a root, no clock table or at least two clocks), and everything the
    decoder accepts is such a plan. *)
Theorem plan_text_round_trip p :
  (decode (encode p) = Some p <-> plan_valid p = true) /\
  (forall text, decode text = Some p -> decode (encode p) = Some p).
Proof.
  split; [apply decode_encode_iff|]. intros text H. apply decode_encode_iff. by eapply decode_valid.
Qed.

Lemma plan_text_round_trip_witness :
  decode (encode (sample_compiled sample_property false).1) = Some (sample_compiled sample_property false).1.
Proof. apply (plan_text_round_trip (sample_compiled sample_property false).1). vm_compute. reflexivity. Defined.

(** ** Attempts *)

(** C40: no attempt is lost or reported twice.  For a plan with one clock that
    does not report every match (not [cover sequence], which may report an
    attempt at several ticks), without disabled ticks, the start times of the running attempts and of the queued outcomes
    are together the start times of all attempts the ticks started, and
    [take_started] has the start times in order. *)
Theorem attempts_conserved pl bs m0 ev gs depth fuel l m :
  clock_guards pl = [] -> every_match pl = false -> monitor_new pl bs = Ok m0 ->
  performs depth fuel ev gs m0 (tick_calls l) = Returns m ->
  map run_started (attempts m) ++ map res_started (outcomes m) ≡ₚ map snd (List.filter fst l) /\
  mon_started m = map snd (List.filter fst l).
Proof.
  intros Hc He Hm Hrun. unfold monitor_new in Hm. rewrite Hc, He in Hm.
  destruct (properties pl !! Z.to_nat (root pl)) as [q|]; [|done].
  destruct (collect (compile_sequence bs) (sequences pl)); [|done]. cbn in Hm.
  destruct (collect (compile_property bs) (properties pl)); [|done]. cbn in Hm. injection Hm as <-.
  eapply (ticks_conserve ev gs depth fuel []) in Hrun; done.
Qed.

Lemma attempts_conserved_witness :
  let m := returned (sample_run sample_property false sample_trace (tick_calls [(true, 10); (true, 20)])) in
  map run_started (attempts m) = [10] /\
  map run_started (attempts m) ++ map res_started (outcomes m) ≡ₚ [10; 20].
Proof.
  split; [vm_compute; reflexivity|].
  apply (attempts_conserved (sample_compiled sample_property false).1
    (bound_values no_bounds (sample_compiled sample_property false).2) (sample_monitor sample_property false)
    sample_trace (c_guards (sample_compiled sample_property false).2) 20 2000 [(true, 10); (true, 20)]).
  - reflexivity.
  - reflexivity.
  - vm_compute. reflexivity.
  - vm_compute. reflexivity.
Defined.

(** ** Where the engine departs from IEEE 1800 *)

(** The names that are true at each tick. *)
Definition listed (ticks_ : list (list string)) : Trace := fun n a =>
  bool_decide (a ∈ nth (Z.to_nat n) ticks_ []).

(** One attempt at the first tick; the outcomes after all ticks. *)
Fixpoint single_attempt (k : nat) : list Call :=
  match k with
  | O => []
  | 1%nat => [c_tick true false 0]
  | S k => single_attempt k ++ [c_tick false false (Z.of_nat k)]
  end.
Definition attempt (n : Node) (ticks_ : list (list string)) : list SvaOutcome :=
  map res_outcome (outcomes (returned (sample_run n false (listed ticks_) (single_attempt (length ticks_))))).

Section Departures.
#[local] Open Scope string_scope.

Let B (x : string) : Node := n_boolean [x].
Let D (lo hi : Z) : Node -> Node -> Node := n_delay (b_literal lo) (b_literal hi).

(** g throughout (##2 b) succeeds although g is false at the first two ticks. *)
Lemma throughout_skips_leading_delay :
  attempt (n_throughout ["g"] (n_leading_delay (b_literal 2) (b_literal 2) (B "b"))) [[]; []; ["g"; "b"]]
    = [success].
Proof. vm_compute. reflexivity. Qed.

(** a ##[1:2] first_match(b ##[1:2] c) |-> d: the match that starts at the later
    b drops with the first one, and its consequent is never checked. *)
Lemma first_match_spans_starts :
  attempt (n_implication true (D 1 2 (B "a") (n_first_match (D 1 2 (B "b") (B "c")))) (B "d"))
    [["a"]; ["b"]; ["b"; "c"; "d"]; ["c"]; []] = [success].
Proof. vm_compute. reflexivity. Qed.

(** a ##[1:2] ((b ##1 c) and (d ##2 e)) matches with operands that start at
    different ticks. *)
Lemma join_pairs_different_starts :
  attempt (D 1 2 (B "a") (n_sequence_and (D 1 1 (B "b") (B "c")) (D 2 2 (B "d") (B "e"))))
    [["a"]; ["b"]; ["c"; "d"]; []; ["e"]; []] = [success].
Proof. vm_compute. reflexivity. Qed.

(** a ##0 b[*0:1] ##1 c succeeds at one tick: [##0] fuses with an empty match,
    which the meaning of the sequence excludes. *)
Lemma fusion_with_empty_match :
  let n := D 1 1 (D 0 0 (B "a") (n_repeat (b_literal 0) (b_literal 1) (B "b"))) (B "c") in
  attempt n [["a"; "c"]; []; []] = [success] /\
  exists r, denote no_bounds n = Some r /\ forall e, 0 <= e -> ~ tight (listed [["a"; "c"]; []; []]) r 0 (e + 1).
Proof.
  split; [vm_compute; reflexivity|]. eexists. split; [reflexivity|]. intros e He. cbn -[listed].
  intros (x & k & Hx & Hu & (y & j & Hy & Hv & [_ ->] & (q & Hq & Hw & Hq') & H0) & [Hc _] & _).
  specialize (Hv _ eq_refl). specialize (Hu _ eq_refl). specialize (Hw _ eq_refl).
  assert (y = 0) as -> by lia. assert (x = 1) as -> by lia. specialize (H0 eq_refl).
  destruct q as [|[|q]]; cbn -[listed] in Hq'; [lia| |lia].
  destruct Hq' as (z & [Hb _] & _). vm_compute in Hb. discriminate.
Qed.

(** (##1 a[*0:1])[*1:$]: one step of its matcher keeps a thread for each of
    more and more later ticks, and its queue does not run empty; the limit on
    threads ends it. *)
Fixpoint drain_some (k fuel : nat) (p : CompiledPlan) (m : Matcher) (queue : list Thread)
    : Result (Matcher * list Thread) :=
  match k, queue with
  | O, _ | _, [] => Returns (m, queue)
  | S k, t :: queue => '(m, queue) ← run fuel p m t queue; drain_some k fuel p m queue
  end.

Lemma step_keeps_more_and_more :
  let n := n_repeat (b_literal 1) b_unbounded
    (n_leading_delay (b_literal 1) (b_literal 1) (n_repeat (b_literal 0) (b_literal 1) (B "a"))) in
  let p := set_values (plan_ (sample_monitor n false)) [false] in
  let m := matcher_new (sequence_at p 0) 0 in
  let after k := match drain_some k 1000 p (begin_step m 0) (threads m) with
                 | Returns (m, queue) => (size (threads m), size queue) | _ => (0, 0) end in
  after 20%nat = (19, 2) /\ after 40%nat = (39, 2) /\ after 80%nat = (79, 2).
Proof. vm_compute. by split. Qed.

(** (c ##3 d) until q fails on {c}, {q}, {}, {d}, where it holds: the left
    operand of the tick of q is held against it. *)
Lemma until_fails_early :
  let n := n_until false false (D 3 3 (B "c") (B "d")) (B "q") in
  let ev := listed [["c"]; ["q"]; []; ["d"]; []] in
  attempt n [["c"]; ["q"]; []; ["d"]; []] = [failure] /\
  exists P, denote_property no_bounds n = Some P /\ satisfies ev P 0.
Proof.
  split; [vm_compute; reflexivity|]. eexists. split; [reflexivity|]. left. exists 1. split; [lia|]. split.
  - apply (sequence_holds _ false (s_bool "q") 1 1); [done|lia|]. split; [vm_compute; reflexivity|lia].
  - intros j Hj. assert (j = 0) as -> by lia.
    apply (sequence_holds _ false (s_delay 3 (Some 3) (s_bool "c") (s_bool "d")) 0 3); [done|lia|].
    exists 3, 1. split; [lia|]. split; [intros h [= <-]; lia|]. split; [by split|]. split; [by split|lia].
Qed.
End Departures.
