(* ===== verification/UvmSequence.v ===== *)
(** * UVM sequencer arbitration

    src/runtime/uvm_sequence_arbitration.cpp, with the tables and lookups of
    src/runtime/uvm_sequence.cpp it uses: requests of sequences wait in the queue
    of their sequencer, [select_request] takes one by the sequencer's arbitration
    mode.

    The object and component services are the record [Services]; callbacks return
    or throw and do not call back.  An operation that fails leaves the service
    unchanged, so failures carry no state. *)
From stdpp Require Import gmap.
From S2P Require Import Prelude.
From stdpp Require Import options.

(** ** Errors *)

(** A result, or a [SystemVerilogUvmSequenceError] with its code and message. *)
Inductive SeqResult (A : Type) :=
  | Done (a : A)
  | Fails (code_ message : string).
Arguments Done {A} _.
Arguments Fails {A} _ _.

#[global] Instance seq_ret : MRet SeqResult := fun A a => Done a.
#[global] Instance seq_bind : MBind SeqResult := fun A B f m =>
  match m with Done a => f a | Fails c t => Fails c t end.

Definition kInvalidHandle : string := "FSIM-UVM-SEQ-001".
Definition kForeignHandle : string := "FSIM-UVM-SEQ-002".
Definition kInvalidLifecycle : string := "FSIM-UVM-SEQ-005".
Definition kResourceLimit : string := "FSIM-UVM-SEQ-006".
Definition kInvalidArbitration : string := "FSIM-UVM-SEQ-008".

(** [if (condition) fail(code, message);] *)
Definition fail_if (b : bool) (code_ message : string) : SeqResult unit :=
  if b then Fails code_ message else Done tt.

(** ** Data *)

(** The handle classes: owner (0 when empty), slot and generation. *)
Record SeqHandle := mkSeqHandle { h_owner : Z; h_slot : Z; h_generation : Z }.
Definition no_handle : SeqHandle := mkSeqHandle 0 0 0.
Definition handle_valid (h : SeqHandle) : bool :=
  negb (h_owner h =? 0) && negb (h_slot h =? 0) && negb (h_generation h =? 0).

#[global] Instance seq_handle_eq_dec : EqDecision SeqHandle.
Proof. solve_decision. Defined.

Inductive ArbitrationMode := Fifo | Weighted | Random | StrictFifo | StrictRandom | User.
Inductive SelectionStatus := Selected | Empty | WaitingForRelevant.
Inductive ItemRole := RequestRole | ResponseRole.

#[global] Instance item_role_eq_dec : EqDecision ItemRole.
Proof. solve_decision. Defined.

Record RequestSnapshot := mkRequestSnapshot {
  rq_handle : SeqHandle;
  rq_sequence : SeqHandle;
  rq_sequencer : SeqHandle;
  rq_priority : Z;
  rq_relevant : bool;
  rq_order : Z;
  rq_item : SeqHandle;
}.

Inductive AccessKind := Lock | Grab.
Inductive AccessState := Pending | Granted.

#[global] Instance access_kind_eq_dec : EqDecision AccessKind.
Proof. solve_decision. Defined.
#[global] Instance access_state_eq_dec : EqDecision AccessState.
Proof. solve_decision. Defined.

Record AccessSnapshot := mkAccessSnapshot {
  ac_handle : SeqHandle;
  ac_sequence : SeqHandle;
  ac_sequencer : SeqHandle;
  ac_kind : AccessKind;
  ac_state : AccessState;
  ac_order : Z;
}.

Record Access := mkAccess {
  acc_value : AccessSnapshot;
  acc_generation : Z;
  acc_live : bool;
}.

(** Callbacks; [None] when they throw. *)
Definition Relevance := SeqHandle -> option bool.
Definition UserArbitration := list RequestSnapshot -> option SeqHandle.

Record RequestDescriptor := mkRequestDescriptor {
  rd_sequence : SeqHandle;
  rd_priority : Z;
  rd_relevant : bool;
  rd_is_relevant : option Relevance;
  rd_item : SeqHandle;
}.

Record Request := mkRequest {
  req_value : RequestSnapshot;
  req_is_relevant : option Relevance;
  req_generation : Z;
  req_live : bool;
}.

Record Sequencer := mkSequencer {
  sr_component : Z;
  sr_root : Z;
  sr_arbitration : ArbitrationMode;
  sr_seed : Z;
  sr_draws : Z;
  sr_waits : Z;
  sr_requests : list SeqHandle;
  sr_generation : Z;
  sr_live : bool;
  sr_random_state : Z;
  sr_user : option UserArbitration;
  sr_access_queue : list SeqHandle;
  sr_access_stack : list SeqHandle;
  sr_consecutive_grabs : Z;
}.

Record SeqSequence := mkSeqSequence {
  sq_object : Z;
  sq_parent : SeqHandle;
  sq_sequencer : SeqHandle;
  sq_generation : Z;
  sq_live : bool;
  sq_active : bool;
}.

Record SeqItem := mkSeqItem {
  it_object : Z;
  it_role : ItemRole;
  it_owner : SeqHandle;
  it_sequencer : SeqHandle;
  it_generation : Z;
  it_live : bool;
}.

Record SeqLimits := mkSeqLimits {
  maximum_mutations : Z;
  maximum_pending_requests : Z;
  maximum_requests_per_sequencer : Z;
  maximum_arbitration_work : Z;
  maximum_relevance_waits : Z;
  maximum_priority : Z;
  maximum_access_requests : Z;
  maximum_access_depth : Z;
  maximum_consecutive_grabs : Z;
}.

(** What the object and component services answer. *)
Record Services := mkServices {
  objects_contains : Z -> bool;
  components_contains : Z -> bool;
  contains_root : Z -> bool;
  root_of : Z -> Z;
}.

Record SequenceService := mkSequenceService {
  sv_limits : SeqLimits;
  sv_owner : Z;
  sequencers : gmap Z Sequencer;
  sv_sequences : gmap Z SeqSequence;
  sv_items : gmap Z SeqItem;
  sv_requests : gmap Z Request;
  next_request_slot : Z;
  next_request_order : Z;
  live_requests : Z;
  mutations : Z;
  callback_active : bool;
  accesses : gmap Z Access;
  next_access_slot : Z;
  next_access_order : Z;
  live_accesses : Z;
}.

(** Assignments. *)
Definition with_sequencer (s : SequenceService) (k : Z) (x : Sequencer) : SequenceService :=
  mkSequenceService (sv_limits s) (sv_owner s) (<[k := x]> (sequencers s)) (sv_sequences s) (sv_items s)
    (sv_requests s) (next_request_slot s) (next_request_order s) (live_requests s) (mutations s) (callback_active s)
    (accesses s) (next_access_slot s) (next_access_order s) (live_accesses s).
Definition with_requests (s : SequenceService) (rs : gmap Z Request) (slot_ order live : Z) : SequenceService :=
  mkSequenceService (sv_limits s) (sv_owner s) (sequencers s) (sv_sequences s) (sv_items s)
    rs slot_ order live (mutations s) (callback_active s)
    (accesses s) (next_access_slot s) (next_access_order s) (live_accesses s).
Definition with_mutations (s : SequenceService) (n : Z) : SequenceService :=
  mkSequenceService (sv_limits s) (sv_owner s) (sequencers s) (sv_sequences s) (sv_items s)
    (sv_requests s) (next_request_slot s) (next_request_order s) (live_requests s) n (callback_active s)
    (accesses s) (next_access_slot s) (next_access_order s) (live_accesses s).
Definition with_policy (x : Sequencer) (mode_ : ArbitrationMode) (seed draws waits state : Z) : Sequencer :=
  mkSequencer (sr_component x) (sr_root x) mode_ seed draws waits (sr_requests x)
    (sr_generation x) (sr_live x) state (sr_user x)
    (sr_access_queue x) (sr_access_stack x) (sr_consecutive_grabs x).
Definition with_user (x : Sequencer) (f : UserArbitration) : Sequencer :=
  mkSequencer (sr_component x) (sr_root x) (sr_arbitration x) (sr_seed x) (sr_draws x) (sr_waits x) (sr_requests x)
    (sr_generation x) (sr_live x) (sr_random_state x) (Some f)
    (sr_access_queue x) (sr_access_stack x) (sr_consecutive_grabs x).
Definition with_queue (x : Sequencer) (q : list SeqHandle) : Sequencer :=
  mkSequencer (sr_component x) (sr_root x) (sr_arbitration x) (sr_seed x) (sr_draws x) (sr_waits x) q
    (sr_generation x) (sr_live x) (sr_random_state x) (sr_user x)
    (sr_access_queue x) (sr_access_stack x) (sr_consecutive_grabs x).

(** [std::erase]. *)
Definition erase_handle (h : SeqHandle) (q : list SeqHandle) : list SeqHandle :=
  List.filter (fun x => negb (bool_decide (x = h))) q.

(** ** Lookups (uvm_sequence.cpp) *)

Section Lookups.
Context (v : Services) (s : SequenceService).

Definition contains_sequencer (h : SeqHandle) : bool :=
  handle_valid h && (h_owner h =? sv_owner s)
  && match sequencers s !! h_slot h with
     | None => false
     | Some x => sr_live x && (sr_generation x =? h_generation h)
                 && components_contains v (sr_component x) && contains_root v (sr_root x)
     end.

Definition contains_sequence (h : SeqHandle) : bool :=
  handle_valid h && (h_owner h =? sv_owner s)
  && match sv_sequences s !! h_slot h with
     | None => false
     | Some x => sq_live x && (sq_generation x =? h_generation h) && objects_contains v (sq_object x)
     end.

(** [sequencer], [sequence], [item] and [request], with their [require_live]. *)
Definition sequencer (h : SeqHandle) : SeqResult Sequencer :=
  _ ← fail_if (negb (handle_valid h)) kInvalidHandle "UVM sequencer handle is empty";
  _ ← fail_if (negb (h_owner h =? sv_owner s)) kForeignHandle "UVM sequencer handle belongs to another simulation";
  match sequencers s !! h_slot h with
  | Some x =>
      if sr_live x && (sr_generation x =? h_generation h) then
        _ ← fail_if (negb (components_contains v (sr_component x)) || negb (contains_root v (sr_root x))
                     || negb (root_of v (sr_component x) =? sr_root x))
              kInvalidHandle "UVM sequencer component or root is stale";
        Done x
      else Fails kInvalidHandle "UVM sequencer handle is stale"
  | None => Fails kInvalidHandle "UVM sequencer handle is stale"
  end.

Definition sequence (h : SeqHandle) : SeqResult SeqSequence :=
  _ ← fail_if (negb (handle_valid h)) kInvalidHandle "UVM sequence handle is empty";
  _ ← fail_if (negb (h_owner h =? sv_owner s)) kForeignHandle "UVM sequence handle belongs to another simulation";
  match sv_sequences s !! h_slot h with
  | Some x =>
      if sq_live x && (sq_generation x =? h_generation h) then
        _ ← fail_if (negb (objects_contains v (sq_object x))) kInvalidHandle "UVM sequence backing object is stale";
        _ ← fail_if (handle_valid (sq_parent x) && negb (contains_sequence (sq_parent x)))
              kInvalidHandle "UVM sequence parent is stale";
        _ ← fail_if (handle_valid (sq_sequencer x) && negb (contains_sequencer (sq_sequencer x)))
              kInvalidHandle "UVM sequence sequencer is stale";
        Done x
      else Fails kInvalidHandle "UVM sequence handle is stale"
  | None => Fails kInvalidHandle "UVM sequence handle is stale"
  end.

Definition item (h : SeqHandle) : SeqResult SeqItem :=
  _ ← fail_if (negb (handle_valid h)) kInvalidHandle "UVM sequence item handle is empty";
  _ ← fail_if (negb (h_owner h =? sv_owner s)) kForeignHandle "UVM sequence item belongs to another simulation";
  match sv_items s !! h_slot h with
  | Some x =>
      if it_live x && (it_generation x =? h_generation h) then
        _ ← fail_if (negb (objects_contains v (it_object x))) kInvalidHandle "UVM sequence item backing object is stale";
        _ ← fail_if (handle_valid (it_owner x) && negb (contains_sequence (it_owner x)))
              kInvalidHandle "UVM sequence item owner is stale";
        _ ← fail_if (handle_valid (it_sequencer x) && negb (contains_sequencer (it_sequencer x)))
              kInvalidHandle "UVM sequence item sequencer is stale";
        Done x
      else Fails kInvalidHandle "UVM sequence item handle is stale"
  | None => Fails kInvalidHandle "UVM sequence item handle is stale"
  end.

Definition request (h : SeqHandle) : SeqResult Request :=
  _ ← fail_if (negb (handle_valid h)) kInvalidHandle "UVM sequence request is empty";
  _ ← fail_if (negb (h_owner h =? sv_owner s)) kForeignHandle "UVM sequence request belongs to another simulation";
  match sv_requests s !! h_slot h with
  | Some x =>
      if req_live x && (req_generation x =? h_generation h) then
        _ ← fail_if (negb (contains_sequence (rq_sequence (req_value x)))
                     || negb (contains_sequencer (rq_sequencer (req_value x))))
              kInvalidHandle "UVM sequence request owner is stale";
        Done x
      else Fails kInvalidHandle "UVM sequence request is stale"
  | None => Fails kInvalidHandle "UVM sequence request is stale"
  end.
End Lookups.

(** ** Policy *)

Definition at_mutation_limit (s : SequenceService) : bool := maximum_mutations (sv_limits s) <=? mutations s.

Definition configure_arbitration (v : Services) (h : SeqHandle) (mode_ : ArbitrationMode) (seed : Z)
    (s : SequenceService) : SeqResult SequenceService :=
  _ ← fail_if (callback_active s) kInvalidArbitration "UVM arbitration callback cannot mutate policy";
  x ← sequencer v s h;
  _ ← fail_if (at_mutation_limit s) kResourceLimit "UVM arbitration mutation ceiling exceeded";
  Done (with_mutations (with_sequencer s (h_slot h) (with_policy x mode_ seed 0 0 seed)) (mutations s + 1)).

Definition set_user_arbitration (v : Services) (h : SeqHandle) (f : option UserArbitration)
    (s : SequenceService) : SeqResult SequenceService :=
  _ ← fail_if (callback_active s) kInvalidArbitration "UVM arbitration callback cannot replace itself";
  match f with
  | None => Fails kInvalidArbitration "UVM user arbitration callback is empty"
  | Some f =>
      x ← sequencer v s h;
      _ ← fail_if (at_mutation_limit s) kResourceLimit "UVM arbitration mutation ceiling exceeded";
      Done (with_mutations (with_sequencer s (h_slot h) (with_user x f)) (mutations s + 1))
  end.

Definition reseed_arbitration (v : Services) (h : SeqHandle) (seed : Z) (s : SequenceService)
    : SeqResult SequenceService :=
  _ ← fail_if (callback_active s) kInvalidArbitration "UVM arbitration callback cannot reseed";
  x ← sequencer v s h;
  _ ← fail_if (at_mutation_limit s) kResourceLimit "UVM arbitration mutation ceiling exceeded";
  Done (with_mutations (with_sequencer s (h_slot h) (with_policy x (sr_arbitration x) seed 0 (sr_waits x) seed))
          (mutations s + 1)).

(** ** Requests *)

Definition pending_for (h : SeqHandle) (s : SequenceService) : bool :=
  existsb (fun '(_, p) => req_live p && bool_decide (rq_sequence (req_value p) = h)) (map_to_list (sv_requests s)).

Definition check_item (v : Services) (d : RequestDescriptor) (q : SeqSequence) (s : SequenceService)
    : SeqResult unit :=
  if handle_valid (rd_item d) then
    i ← item v s (rd_item d);
    fail_if (negb (bool_decide (it_role i = RequestRole)) || negb (bool_decide (it_owner i = rd_sequence d))
             || negb (bool_decide (it_sequencer i = sq_sequencer q)))
      kInvalidLifecycle "UVM macro request item does not match its sequence and sequencer"
  else Done tt.

Definition enqueue_request (v : Services) (d : RequestDescriptor) (s : SequenceService)
    : SeqResult (SeqHandle * SequenceService) :=
  _ ← fail_if (callback_active s) kInvalidArbitration "UVM arbitration callback cannot enqueue";
  q ← sequence v s (rd_sequence d);
  _ ← fail_if (negb (handle_valid (sq_sequencer q))) kInvalidArbitration
        "unbound UVM sequence cannot request arbitration";
  x ← sequencer v s (sq_sequencer q);
  _ ← check_item v d q s;
  _ ← fail_if (sq_active q) kInvalidLifecycle "active UVM sequence cannot enqueue another request";
  _ ← fail_if (pending_for (rd_sequence d) s) kInvalidLifecycle "UVM sequence already has a pending request";
  _ ← fail_if ((rd_priority d =? 0) || (maximum_priority (sv_limits s) <? rd_priority d)) kInvalidArbitration
        "UVM sequence request priority is invalid";
  _ ← fail_if ((maximum_pending_requests (sv_limits s) <=? live_requests s)
               || (maximum_requests_per_sequencer (sv_limits s) <=? size (sr_requests x))
               || at_mutation_limit s || (next_request_slot s =? U64_MAX) || (next_request_order s =? U64_MAX))
        kResourceLimit "UVM sequence request queue ceiling exceeded";
  let slot_ := next_request_slot s in
  let h := mkSeqHandle (sv_owner s) slot_ 1 in
  let value := mkRequestSnapshot h (rd_sequence d) (sq_sequencer q) (rd_priority d) (rd_relevant d)
                 (next_request_order s) (rd_item d) in
  match sv_requests s !! slot_ with
  | Some _ => Fails kInvalidLifecycle "duplicate UVM sequence request slot"
  | None =>
      let s' := with_requests s (<[slot_ := mkRequest value (rd_is_relevant d) 1 true]> (sv_requests s))
                  (slot_ + 1) (next_request_order s + 1) (live_requests s + 1) in
      Done (h, with_mutations
                 (with_sequencer s' (h_slot (sq_sequencer q)) (with_queue x (sr_requests x ++ [h])))
                 (mutations s + 1))
  end.

(** Undoes the latest [enqueue_request]; never fails. *)
Definition rollback_latest_request (h : SeqHandle) (s : SequenceService) : SequenceService :=
  if negb (h_owner h =? sv_owner s) then s
  else match sv_requests s !! h_slot h with
  | Some r =>
      if negb (req_live r) || negb (req_generation r =? h_generation h) then s
      else
        let k := h_slot (rq_sequencer (req_value r)) in
        let s := match sequencers s !! k with
                 | Some x => with_sequencer s k (with_queue x (erase_handle h (sr_requests x)))
                 | None => s
                 end in
        let less n := if n =? 0 then 0 else n - 1 in
        with_mutations
          (with_requests s (delete (h_slot h) (sv_requests s))
             (if next_request_slot s =? h_slot h + 1 then next_request_slot s - 1 else next_request_slot s)
             (if next_request_order s =? rq_order (req_value r) + 1 then next_request_order s - 1
              else next_request_order s)
             (less (live_requests s)))
          (less (mutations s))
  | None => s
  end.

Definition set_relevant (r : Request) (b : bool) : Request :=
  let x := req_value r in
  mkRequest (mkRequestSnapshot (rq_handle x) (rq_sequence x) (rq_sequencer x) (rq_priority x) b (rq_order x) (rq_item x))
    (req_is_relevant r) (req_generation r) (req_live r).

Definition set_request_relevant (v : Services) (h : SeqHandle) (b : bool) (s : SequenceService)
    : SeqResult SequenceService :=
  _ ← fail_if (callback_active s) kInvalidArbitration "UVM relevance callback cannot mutate requests";
  r ← request v s h;
  x ← sequencer v s (rq_sequencer (req_value r));
  _ ← fail_if (at_mutation_limit s) kResourceLimit "UVM relevance mutation ceiling exceeded";
  let s' := with_requests s (<[h_slot h := set_relevant r b]> (sv_requests s))
              (next_request_slot s) (next_request_order s) (live_requests s) in
  let waits := if b then 0 else sr_waits x in
  Done (with_mutations
          (with_sequencer s' (h_slot (rq_sequencer (req_value r)))
             (with_policy x (sr_arbitration x) (sr_seed x) (sr_draws x) waits (sr_random_state x)))
          (mutations s + 1)).

(** A request that is no longer live: its handle is stale from now on. *)
Definition retire (r : Request) : Request :=
  mkRequest (req_value r) (req_is_relevant r) (req_generation r + 1) false.

Definition cancel_request (v : Services) (h : SeqHandle) (s : SequenceService) : SeqResult SequenceService :=
  _ ← fail_if (callback_active s) kInvalidArbitration "UVM arbitration callback cannot cancel requests";
  r ← request v s h;
  x ← sequencer v s (rq_sequencer (req_value r));
  _ ← fail_if (at_mutation_limit s || (req_generation r =? U64_MAX)) kResourceLimit
        "UVM request cancellation ceiling exceeded";
  let s' := with_requests s (<[h_slot h := retire r]> (sv_requests s))
              (next_request_slot s) (next_request_order s) (live_requests s - 1) in
  Done (with_mutations
          (with_sequencer s' (h_slot (rq_sequencer (req_value r))) (with_queue x (erase_handle h (sr_requests x))))
          (mutations s + 1)).

(** ** Random numbers *)

(** The next state of the generator and the number it yields (splitmix64). *)
Definition next_random (state : Z) : Z * Z :=
  let state := add64 state 0x9e3779b97f4a7c15 in
  let value := state in
  let value := mul64 (Z.lxor value (Z.shiftr value 30)) 0xbf58476d1ce4e5b9 in
  let value := mul64 (Z.lxor value (Z.shiftr value 27)) 0x94d049bb133111eb in
  (Z.lxor value (Z.shiftr value 31), state).

(** What [bounded_random] returns and leaves in its reference parameters. *)
Record Draw := mkDraw { d_value : Z; d_state : Z; d_draws : Z; d_work : Z }.

Definition draw_threshold (bound : Z) : Z := sub64 0 bound mod bound.

(** One pass per unit of work: [maximum_work - work] passes are enough. *)
Fixpoint draw_loop (fuel : nat) (state draws bound work maximum_work : Z) : SeqResult Draw :=
  _ ← fail_if ((maximum_work <=? work) || (draws =? U64_MAX))
        kResourceLimit "UVM arbitration random-work ceiling exceeded";
  match fuel with
  | O => Fails kResourceLimit "UVM arbitration random-work ceiling exceeded"
  | S fuel =>
      let '(value, state) := next_random state in
      if draw_threshold bound <=? value
      then Done (mkDraw (value mod bound) state (draws + 1) (work + 1))
      else draw_loop fuel state (draws + 1) bound (work + 1) maximum_work
  end.

Definition bounded_random (state draws bound work maximum_work : Z) : SeqResult Draw :=
  draw_loop (Z.to_nat (maximum_work - work)) state draws bound work maximum_work.

(** ** Selection *)

(** Whether a pending request is relevant now. *)
Definition relevant_now (r : Request) : SeqResult bool :=
  if rq_relevant (req_value r) then
    match req_is_relevant r with
    | None => Done true
    | Some f =>
        match f (rq_sequence (req_value r)) with
        | Some b => Done b
        | None => Fails kInvalidArbitration "UVM relevance callback threw"
        end
    end
  else Done false.

(** The loop that collects the candidates, with the work counter. *)
Fixpoint collect (v : Services) (s : SequenceService) (queue : list SeqHandle) (work : Z)
    : SeqResult (list RequestSnapshot * Z) :=
  match queue with
  | [] => Done ([], work)
  | h :: queue =>
      _ ← fail_if (maximum_arbitration_work (sv_limits s) <=? work) kResourceLimit
            "UVM arbitration selection-work ceiling exceeded";
      r ← request v s h;
      b ← relevant_now r;
      '(rest, work) ← collect v s queue (work + 1);
      Done (if b : bool then (req_value r :: rest, work) else (rest, work))
  end.

(** [std::ranges::max] of the priorities. *)
Definition max_priority (candidates : list RequestSnapshot) : Z :=
  foldr (fun c m => Z.max (rq_priority c) m) 0 candidates.

(** [std::ranges::find]: the index of the first match, the size without one. *)
Fixpoint find_index (p : RequestSnapshot -> bool) (candidates : list RequestSnapshot) : nat :=
  match candidates with
  | [] => 0
  | c :: candidates => if p c then 0%nat else S (find_index p candidates)
  end.

(** The loops of strict-random and weighted arbitration. *)
Fixpoint collect_ties (maximum limit : Z) (candidates : list RequestSnapshot) (index : nat) (work : Z)
    : SeqResult (list nat * Z) :=
  match candidates with
  | [] => Done ([], work)
  | c :: candidates =>
      _ ← fail_if (limit <=? work) kResourceLimit "UVM strict-random selection-work exceeded";
      '(ties, work) ← collect_ties maximum limit candidates (S index) (work + 1);
      Done (if rq_priority c =? maximum then (index :: ties, work) else (ties, work))
  end.

Fixpoint total_weight (limit : Z) (candidates : list RequestSnapshot) (total work : Z) : SeqResult (Z * Z) :=
  match candidates with
  | [] => Done (total, work)
  | c :: candidates =>
      _ ← fail_if ((limit <=? work) || (U64_MAX - rq_priority c <? total)) kResourceLimit
            "UVM weighted arbitration work overflow";
      total_weight limit candidates (total + rq_priority c) (work + 1)
  end.

Fixpoint ticket_index (ticket : Z) (candidates : list RequestSnapshot) (index : nat) : nat :=
  match candidates with
  | [] => 0
  | c :: candidates =>
      if ticket <? rq_priority c then index else ticket_index (ticket - rq_priority c) candidates (S index)
  end.

(** The [switch] on the mode: the index of the chosen candidate, the generator's
    state and its draw count. *)
Definition pick (x : Sequencer) (limit work : Z) (candidates : list RequestSnapshot) : SeqResult (nat * Z * Z) :=
  let state := sr_random_state x in
  let draws := sr_draws x in
  match sr_arbitration x with
  | Fifo => Done (0%nat, state, draws)
  | Random =>
      d ← bounded_random state draws (size candidates) work limit;
      Done (Z.to_nat (d_value d), d_state d, d_draws d)
  | StrictFifo =>
      let maximum := max_priority candidates in
      Done (find_index (fun c => rq_priority c =? maximum) candidates, state, draws)
  | StrictRandom =>
      '(ties, work) ← collect_ties (max_priority candidates) limit candidates 0 work;
      d ← bounded_random state draws (size ties) work limit;
      Done (default 0%nat (ties !! Z.to_nat (d_value d)), d_state d, d_draws d)
  | Weighted =>
      '(total, work) ← total_weight limit candidates 0 work;
      d ← bounded_random state draws total work limit;
      Done (ticket_index (d_value d) candidates 0, d_state d, d_draws d)
  | User =>
      match sr_user x with
      | None => Fails kInvalidArbitration "UVM user arbitration callback is unset"
      | Some f =>
          match f candidates with
          | None => Fails kInvalidArbitration "UVM user arbitration callback threw"
          | Some chosen =>
              let found := find_index (fun c => bool_decide (rq_handle c = chosen)) candidates in
              _ ← fail_if (found =? length candidates)%nat kInvalidArbitration
                    "UVM user arbitration chose no candidate";
              Done (found, state, draws)
          end
      end
  end.

Definition with_choice (x : Sequencer) (h : SeqHandle) (state draws : Z) : Sequencer :=
  mkSequencer (sr_component x) (sr_root x) (sr_arbitration x) (sr_seed x) draws 0 (erase_handle h (sr_requests x))
    (sr_generation x) (sr_live x) state (sr_user x)
    (sr_access_queue x) (sr_access_stack x) (sr_consecutive_grabs x).

Definition select_request (v : Services) (h : SeqHandle) (s : SequenceService)
    : SeqResult (SelectionStatus * option RequestSnapshot * SequenceService) :=
  _ ← fail_if (callback_active s) kInvalidArbitration "nested UVM arbitration is not permitted";
  x ← sequencer v s h;
  if decide (sr_requests x = []) then Done (Empty, None, s)
  else
    _ ← fail_if (at_mutation_limit s) kResourceLimit "UVM arbitration mutation ceiling exceeded";
    '(candidates, work) ← collect v s (sr_requests x) 0;
    if decide (candidates = []) then
      _ ← fail_if (maximum_relevance_waits (sv_limits s) <=? sr_waits x) kResourceLimit
            "UVM wait-for-relevant ceiling exceeded";
      Done (WaitingForRelevant, None,
            with_mutations
              (with_sequencer s (h_slot h)
                 (with_policy x (sr_arbitration x) (sr_seed x) (sr_draws x) (sr_waits x + 1) (sr_random_state x)))
              (mutations s + 1))
    else
      '(selected_index, state, draws) ← pick x (maximum_arbitration_work (sv_limits s)) work candidates;
      match candidates !! selected_index with
      | None => Fails "" "index out of range"
      | Some chosen =>
          r ← request v s (rq_handle chosen);
          _ ← fail_if (req_generation r =? U64_MAX) kResourceLimit "UVM request generation ceiling exceeded";
          let s' := with_requests s (<[h_slot (rq_handle chosen) := retire r]> (sv_requests s))
                      (next_request_slot s) (next_request_order s) (live_requests s - 1) in
          Done (Selected, Some chosen,
                with_mutations (with_sequencer s' (h_slot h) (with_choice x (rq_handle chosen) state draws))
                  (mutations s + 1))
      end.

Definition request_snapshot (v : Services) (h : SeqHandle) (s : SequenceService) : SeqResult RequestSnapshot :=
  r ← request v s h; Done (req_value r).

Definition requests (v : Services) (h : SeqHandle) (s : SequenceService) : SeqResult (list SeqHandle) :=
  x ← sequencer v s h; Done (sr_requests x).
