(* ===== verification/UvmArbitrationRandom.v ===== *)
(** * The random numbers of sequencer arbitration

    [next_random] permutes the 64-bit states, [bounded_random] rejects exactly the
    numbers that would favour the small remainders, so every ticket below the
    bound comes from the same number of generator states, and the modes that draw
    give every candidate the share of states its weight asks for. *)
From stdpp Require Import gmap.
From S2P Require Import Prelude UvmSequence.
From stdpp Require Import options.

(** ** The generator is a permutation *)

Definition xorshift (k x : Z) : Z := Z.lxor x (Z.shiftr x k).
Definition unxorshift (k y : Z) : Z := Z.lxor y (Z.lxor (Z.shiftr y k) (Z.shiftr y (2 * k))).

Lemma unxorshift_bits k y i : 0 <= k -> 0 <= i ->
  Z.testbit (unxorshift k y) i = xorb (Z.testbit y i) (xorb (Z.testbit y (i + k)) (Z.testbit y (i + k + k))).
Proof.
  intros. unfold unxorshift. rewrite !Z.lxor_spec, !Z.shiftr_spec by lia.
  by replace (i + 2 * k) with (i + k + k) by lia.
Qed.

Lemma xorshift_bits k x i : 0 <= i -> Z.testbit (xorshift k x) i = xorb (Z.testbit x i) (Z.testbit x (i + k)).
Proof. intros. unfold xorshift. by rewrite Z.lxor_spec, Z.shiftr_spec by lia. Qed.

Lemma unxorshift_xorshift k x : 22 <= k -> is_u64 x -> unxorshift k (xorshift k x) = x.
Proof.
  intros Hk Hx. apply Z.bits_inj'. intros i Hi. rewrite unxorshift_bits, !xorshift_bits by lia.
  rewrite (testbit_u64_high x (i + k + k + k)) by (done || lia).
  by destruct (Z.testbit x i), (Z.testbit x (i + k)), (Z.testbit x (i + k + k)).
Qed.

Lemma xorshift_unxorshift k y : 22 <= k -> is_u64 y -> xorshift k (unxorshift k y) = y.
Proof.
  intros Hk Hy. apply Z.bits_inj'. intros i Hi. rewrite xorshift_bits, !unxorshift_bits by lia.
  rewrite (testbit_u64_high y (i + k + k + k)) by (done || lia).
  by destruct (Z.testbit y i), (Z.testbit y (i + k)), (Z.testbit y (i + k + k)).
Qed.

Lemma is_u64_xorshift k x : 0 <= k -> is_u64 x -> is_u64 (xorshift k x).
Proof. intros. apply is_u64_lxor; [done|]. by apply is_u64_shiftr. Qed.

Lemma is_u64_unxorshift k x : 0 <= k -> is_u64 x -> is_u64 (unxorshift k x).
Proof. intros. repeat apply is_u64_lxor; try done; apply is_u64_shiftr; done || lia. Qed.

Lemma mul64_undo a b x : (a * b) mod 2 ^ 64 = 1 -> is_u64 x -> mul64 (mul64 x a) b = x.
Proof.
  intros Hab Hx. unfold mul64, wrap64. rewrite Z.mul_mod_idemp_l by lia.
  rewrite <- Z.mul_assoc, <- Z.mul_mod_idemp_r, Hab, Z.mul_1_r by lia. by apply Z.mod_small.
Qed.

Lemma add64_undo a x : is_u64 x -> sub64 (add64 x a) a = x.
Proof.
  intros Hx. unfold sub64, add64, wrap64. rewrite Zminus_mod_idemp_l.
  replace (x + a - a) with x by lia. by apply Z.mod_small.
Qed.
Lemma sub64_undo a x : is_u64 x -> add64 (sub64 x a) a = x.
Proof.
  intros Hx. unfold sub64, add64, wrap64. rewrite Zplus_mod_idemp_l.
  replace (x - a + a) with x by lia. by apply Z.mod_small.
Qed.

(** The number a state yields, and the state that yields a number. *)
Definition yields (state : Z) : Z := fst (next_random state).
Definition state_for (value : Z) : Z :=
  let value := mul64 (unxorshift 31 value) 0x319642b2d24d8ec3 in
  let value := mul64 (unxorshift 27 value) 0x96de1b173f119089 in
  sub64 (unxorshift 30 value) 0x9e3779b97f4a7c15.

Lemma is_u64_mul64 a b : is_u64 (mul64 a b).
Proof. apply is_u64_wrap64. Qed.
Lemma is_u64_add64 a b : is_u64 (add64 a b).
Proof. apply is_u64_wrap64. Qed.
Lemma is_u64_sub64 a b : is_u64 (sub64 a b).
Proof. apply is_u64_wrap64. Qed.

Lemma yields_steps state :
  yields state =
    xorshift 31 (mul64 (xorshift 27 (mul64 (xorshift 30 (add64 state 0x9e3779b97f4a7c15)) 0xbf58476d1ce4e5b9))
                   0x94d049bb133111eb).
Proof. done. Qed.

Lemma state_for_yields state : is_u64 state -> state_for (yields state) = state.
Proof.
  intros Hs. rewrite yields_steps. unfold state_for.
  rewrite unxorshift_xorshift by (lia || apply is_u64_mul64).
  rewrite mul64_undo by (done || (apply is_u64_xorshift; [lia|apply is_u64_mul64])).
  rewrite unxorshift_xorshift by (lia || apply is_u64_mul64).
  rewrite mul64_undo by (done || (apply is_u64_xorshift; [lia|apply is_u64_add64])).
  rewrite unxorshift_xorshift by (lia || apply is_u64_add64). by apply add64_undo.
Qed.

Lemma yields_state_for value : is_u64 value -> yields (state_for value) = value.
Proof.
  intros Hv. rewrite yields_steps. unfold state_for.
  rewrite sub64_undo by (apply is_u64_unxorshift; [lia|apply is_u64_mul64]).
  rewrite xorshift_unxorshift by (lia || apply is_u64_mul64).
  rewrite mul64_undo by (done || (apply is_u64_unxorshift; [lia|apply is_u64_mul64])).
  rewrite xorshift_unxorshift by (lia || apply is_u64_mul64).
  rewrite mul64_undo by (done || (apply is_u64_unxorshift; [lia|done])).
  by apply xorshift_unxorshift.
Qed.

Lemma is_u64_yields state : is_u64 (yields state).
Proof. rewrite yields_steps. apply is_u64_xorshift; [lia|apply is_u64_mul64]. Qed.
Lemma is_u64_state_for value : is_u64 (state_for value).
Proof. apply is_u64_sub64. Qed.

(** ** Tickets are uniform *)

(** [n] of the 2^64 states satisfy [P]: numbering them from 0 is a bijection. *)
Definition number_of_states (P : Z -> Prop) (n : Z) : Prop :=
  exists f : Z -> Z,
    (forall j, 0 <= j < n -> is_u64 (f j) /\ P (f j))
    /\ (forall i j, 0 <= i < n -> 0 <= j < n -> f i = f j -> i = j)
    /\ (forall state, is_u64 state -> P state -> exists j, 0 <= j < n /\ f j = state).

Lemma number_of_states_iff (P Q : Z -> Prop) n :
  (forall state, is_u64 state -> P state <-> Q state) -> number_of_states P n -> number_of_states Q n.
Proof.
  intros HPQ (f & Hin & Hinj & Hon). exists f. split_and!; [|done|].
  - intros j Hj. destruct (Hin j Hj). split; [done|]. by apply HPQ.
  - intros state Hs HQ. apply Hon; [done|]. by apply HPQ.
Qed.

Section Tickets.
Context (bound : Z) (Hbound : 1 <= bound <= U64_MAX).

#[local] Set Default Proof Using "All".

Let t := draw_threshold bound.
Let q := 2 ^ 64 / bound.

Lemma threshold_value : t = 2 ^ 64 mod bound.
Proof.
  unfold t, draw_threshold, sub64, wrap64, U64_MAX in *.
  replace ((0 - bound) mod 2 ^ 64) with (2 ^ 64 - bound).
  - by rewrite <- (Z.mod_add (2 ^ 64 - bound) 1 bound), Z.mul_1_l, Z.sub_add by lia.
  - rewrite <- (Z.mod_add (0 - bound) 1) by lia. rewrite Z.mod_small; lia.
Qed.

Lemma threshold_range : 0 <= t < bound.
Proof. rewrite threshold_value. apply Z.mod_pos_bound. lia. Qed.

Lemma states_split : 2 ^ 64 = t + bound * q.
Proof. rewrite threshold_value. unfold q. rewrite (Z.div_mod (2 ^ 64) bound) at 1 by lia. lia. Qed.

(** The [j]-th accepted number of remainder [r]. *)
Definition accepted_number (r j : Z) : Z := t + (r - t) mod bound + bound * j.

Lemma accepted_number_range r j : 0 <= j < q -> t <= accepted_number r j < 2 ^ 64.
Proof.
  intros Hj. unfold accepted_number. pose proof (Z.mod_pos_bound (r - t) bound ltac:(lia)).
  pose proof threshold_range. rewrite states_split. nia.
Qed.

Lemma accepted_number_mod r j : 0 <= r < bound -> accepted_number r j mod bound = r.
Proof.
  intros Hr. unfold accepted_number. rewrite (Z.mul_comm bound j), Z.mod_add, Z.add_mod_idemp_r by lia.
  rewrite Zplus_minus. by apply Z.mod_small.
Qed.

Lemma accepted_number_onto v : t <= v < 2 ^ 64 ->
  exists j, 0 <= j < q /\ accepted_number (v mod bound) j = v.
Proof.
  intros Hv. exists ((v - t) / bound).
  assert ((v mod bound - t) mod bound = (v - t) mod bound) as E by apply Zminus_mod_idemp_l.
  pose proof (Z.div_mod (v - t) bound ltac:(lia)) as D.
  pose proof (Z.mod_pos_bound (v - t) bound ltac:(lia)) as M.
  split.
  - split; [apply Z.div_pos; lia|]. apply Z.div_lt_upper_bound; [lia|].
    pose proof states_split. lia.
  - unfold accepted_number. rewrite E. lia.
Qed.

(** Every interval of tickets comes from [2^64 / bound] states per ticket. *)
Lemma tickets_uniform a b : 0 <= a <= b -> b <= bound ->
  number_of_states (fun state => t <= yields state /\ a <= yields state mod bound < b) ((b - a) * q).
Proof.
  intros Hab Hb. assert (0 < q) as Hq by (apply Z.div_str_pos; unfold U64_MAX in *; lia).
  pose proof threshold_range as Ht.
  exists (fun m => state_for (accepted_number (a + m / q) (m mod q))).
  assert (forall m, 0 <= m < (b - a) * q -> 0 <= m / q < b - a /\ 0 <= m mod q < q) as Hm.
  { intros m Hm. split; [split; [apply Z.div_pos; lia|]|by apply Z.mod_pos_bound].
    apply Z.div_lt_upper_bound; lia. }
  assert (forall m, 0 <= m < (b - a) * q -> is_u64 (accepted_number (a + m / q) (m mod q))) as Hu.
  { intros m R. destruct (Hm m R) as [_ M2]. pose proof (accepted_number_range (a + m / q) _ M2). split; lia. }
  split_and!.
  - intros m R. destruct (Hm m R) as [M1 M2]. rewrite yields_state_for by auto.
    split; [apply is_u64_state_for|]. split; [by apply accepted_number_range|].
    rewrite accepted_number_mod; lia.
  - intros m n Rm Rn E. apply (f_equal yields) in E. rewrite !yields_state_for in E by auto.
    destruct (Hm m Rm), (Hm n Rn). assert (m / q = n / q) as E1.
    { apply (f_equal (fun z => z mod bound)) in E. rewrite !accepted_number_mod in E; lia. }
    rewrite E1 in E. unfold accepted_number in E.
    rewrite (Z.div_mod m q), (Z.div_mod n q), E1 by lia. nia.
  - intros state Hs [Hacc Hr]. destruct (accepted_number_onto (yields state)) as (j & Hj & Ej).
    { split; [done|apply is_u64_yields]. }
    exists ((yields state mod bound - a) * q + j).
    assert (((yields state mod bound - a) * q + j) / q = yields state mod bound - a) as E1.
    { rewrite Z.div_add_l, (Z.div_small j) by lia. lia. }
    assert (((yields state mod bound - a) * q + j) mod q = j) as E2.
    { rewrite Z.add_comm, Z.mod_add, Z.mod_small; lia. }
    split; [nia|]. rewrite E1, E2, Zplus_minus, Ej. by apply state_for_yields.
Qed.
End Tickets.

(** ** The draws *)

Lemma fail_if_bind {A} b code_ message (k : SeqResult A) :
  (_ ← fail_if b code_ message; k) = if b then Fails code_ message else k.
Proof. by destruct b. Qed.

Lemma draw_loop_0 state draws bound work limit :
  draw_loop 0 state draws bound work limit = Fails kResourceLimit "UVM arbitration random-work ceiling exceeded".
Proof. cbn [draw_loop]. rewrite fail_if_bind. by case_match. Qed.

Lemma draw_loop_S fuel state draws bound work limit :
  draw_loop (S fuel) state draws bound work limit =
    if (limit <=? work) || (draws =? U64_MAX)
    then Fails kResourceLimit "UVM arbitration random-work ceiling exceeded"
    else if draw_threshold bound <=? yields state
    then Done (mkDraw (yields state mod bound) (snd (next_random state)) (draws + 1) (work + 1))
    else draw_loop fuel (snd (next_random state)) (draws + 1) bound (work + 1) limit.
Proof.
  cbn [draw_loop]. rewrite fail_if_bind. unfold yields. by destruct (next_random state).
Qed.

Lemma draw_loop_draws fuel state draws bound work limit d :
  draw_loop fuel state draws bound work limit = Done d -> draws < d_draws d.
Proof.
  revert state draws work. induction fuel as [|fuel IH]; intros state draws work.
  - by rewrite draw_loop_0.
  - rewrite draw_loop_S. case_match; [done|]. case_match.
    + intros [= <-]. cbn. lia.
    + intros E%IH. lia.
Qed.

Lemma bounded_random_value state draws bound work limit d : 0 < bound ->
  bounded_random state draws bound work limit = Done d -> 0 <= d_value d < bound.
Proof.
  intros Hb. unfold bounded_random. generalize (Z.to_nat (limit - work)). intros fuel.
  revert state draws work. induction fuel as [|fuel IH]; intros state draws work.
  - by rewrite draw_loop_0.
  - rewrite draw_loop_S. case_match; [done|]. case_match; [|apply IH].
    intros [= <-]. cbn. by apply Z.mod_pos_bound.
Qed.

(** The first draw decides when it is accepted; otherwise more draws follow. *)
Lemma bounded_random_first state draws bound work limit : work < limit -> draws <> U64_MAX ->
  if draw_threshold bound <=? yields state
  then bounded_random state draws bound work limit
       = Done (mkDraw (yields state mod bound) (snd (next_random state)) (draws + 1) (work + 1))
  else forall d, bounded_random state draws bound work limit = Done d -> draws + 1 < d_draws d.
Proof.
  intros Hw Hd. unfold bounded_random.
  destruct (Z.to_nat (limit - work)) as [|fuel] eqn:F; [lia|]. rewrite draw_loop_S.
  rewrite (proj2 (Z.leb_gt limit work)), (proj2 (Z.eqb_neq draws U64_MAX)) by done.
  cbn [orb]. case_match; [done|]. intros d. apply draw_loop_draws.
Qed.

(** Running out of work, or a full draw count, is the only failure. *)
Lemma bounded_random_fails state draws bound work limit code_ message :
  bounded_random state draws bound work limit = Fails code_ message -> code_ = kResourceLimit.
Proof.
  unfold bounded_random. generalize (Z.to_nat (limit - work)). intros fuel.
  revert state draws work. induction fuel as [|fuel IH]; intros state draws work.
  - rewrite draw_loop_0. by intros [= <- _].
  - rewrite draw_loop_S. case_match; [by intros [= <- _]|]. case_match; [done|apply IH].
Qed.

(** ** Shares *)

Definition zsum (ws : list Z) : Z := foldr Z.add 0 ws.

(** The weight of a candidate in the modes that draw. *)
Definition weight (mode_ : ArbitrationMode) (candidates : list RequestSnapshot) (c : RequestSnapshot) : Z :=
  match mode_ with
  | Random => 1
  | StrictRandom => if rq_priority c =? max_priority candidates then 1 else 0
  | Weighted => rq_priority c
  | _ => 0
  end.
Definition weights (mode_ : ArbitrationMode) (candidates : list RequestSnapshot) : list Z :=
  map (weight mode_ candidates) candidates.
Definition draws_lots (mode_ : ArbitrationMode) : bool :=
  match mode_ with Random | StrictRandom | Weighted => true | _ => false end.

(** Laying the weights side by side, ticket [t] lands on entry [i]. *)
Definition lands (ws : list Z) (t : Z) (i : nat) : Prop :=
  exists w, ws !! i = Some w /\ zsum (take i ws) <= t < zsum (take i ws) + w.

Lemma zsum_cons w ws : zsum (w :: ws) = w + zsum ws.
Proof. done. Qed.

Lemma lands_cons w ws t i : lands ws t i -> lands (w :: ws) (w + t) (S i).
Proof.
  intros (u & Hu & Ht). exists u. split; [done|]. change (take (S i) (w :: ws)) with (w :: take i ws).
  rewrite zsum_cons. lia.
Qed.

Lemma zsum_app a b : zsum (a ++ b) = zsum a + zsum b.
Proof. induction a as [|x a IH]; [done|]. cbn [app]. rewrite !zsum_cons. lia. Qed.

Lemma zsum_nonneg ws : Forall (fun w => 0 <= w) ws -> 0 <= zsum ws.
Proof. induction 1; [done|]. rewrite zsum_cons. lia. Qed.

Lemma zsum_take_mono ws i j : Forall (fun w => 0 <= w) ws -> (i <= j)%nat -> zsum (take i ws) <= zsum (take j ws).
Proof.
  intros Hn Hij. rewrite <- (take_drop i (take j ws)), take_take, zsum_app, Nat.min_l by done.
  pose proof (zsum_nonneg (drop i (take j ws)) ltac:(by apply Forall_drop, Forall_take)). lia.
Qed.

Lemma zsum_take_S ws i w : ws !! i = Some w -> zsum (take (S i) ws) = zsum (take i ws) + w.
Proof. intros E. rewrite (take_S_r _ _ _ E), zsum_app. cbn. lia. Qed.

Lemma zsum_take_le ws i : Forall (fun w => 0 <= w) ws -> zsum (take i ws) <= zsum ws.
Proof.
  intros Hn. rewrite <- (take_drop i ws) at 2. rewrite zsum_app.
  pose proof (zsum_nonneg (drop i ws) ltac:(by apply Forall_drop)). lia.
Qed.

Lemma lands_below ws t i j : Forall (fun w => 0 <= w) ws -> lands ws t i -> lands ws t j -> (i <= j)%nat.
Proof.
  intros Hn (u & Hu & Ru) (w & Hw & Rw). destruct (decide (i <= j)%nat) as [|Hij]; [done|].
  pose proof (zsum_take_mono ws (S j) i Hn ltac:(lia)) as M. rewrite (zsum_take_S _ _ _ Hw) in M. lia.
Qed.

Lemma lands_unique ws t i j : Forall (fun w => 0 <= w) ws -> lands ws t i -> lands ws t j -> i = j.
Proof.
  intros Hn Hi Hj. pose proof (lands_below ws t i j Hn Hi Hj). pose proof (lands_below ws t j i Hn Hj Hi). lia.
Qed.

(** *** Each mode's loop *)

Lemma lands_ones (cs : list RequestSnapshot) t : 0 <= t < size cs -> lands (map (fun _ => 1) cs) t (Z.to_nat t).
Proof.
  revert t. induction cs as [|c cs IH]; intros t Ht; unfold size in *; cbn [length] in Ht; [lia|].
  destruct (decide (t = 0)) as [->|]; [by exists 1|].
  replace (Z.to_nat t) with (S (Z.to_nat (t - 1))) by lia. replace t with (1 + (t - 1)) at 1 by lia.
  apply lands_cons, IH. lia.
Qed.

Lemma zsum_ones (cs : list RequestSnapshot) : zsum (map (fun _ => 1) cs) = size cs.
Proof. unfold size. induction cs as [|c cs IH]; [done|]. cbn [map length] in *. rewrite zsum_cons. lia. Qed.

Fixpoint tie_indices (maximum : Z) (cs : list RequestSnapshot) (index : nat) : list nat :=
  match cs with
  | [] => []
  | c :: cs => if rq_priority c =? maximum then index :: tie_indices maximum cs (S index)
               else tie_indices maximum cs (S index)
  end.

Lemma collect_ties_enough maximum limit cs index work : work + size cs <= limit ->
  collect_ties maximum limit cs index work = Done (tie_indices maximum cs index, work + size cs).
Proof.
  unfold size. revert index work. induction cs as [|c cs IH]; intros index work H; cbn [collect_ties tie_indices length] in *.
  - do 2 f_equal. lia.
  - rewrite fail_if_bind, (proj2 (Z.leb_gt limit work)) by lia. rewrite IH by lia. cbn.
    replace (work + 1 + Z.of_nat (length cs)) with (work + Z.of_nat (S (length cs))) by lia. by case_match.
Qed.

Definition tie_weights (maximum : Z) (cs : list RequestSnapshot) : list Z :=
  map (fun c => if rq_priority c =? maximum then 1 else 0) cs.

Lemma zsum_ties maximum cs index : zsum (tie_weights maximum cs) = size (tie_indices maximum cs index).
Proof.
  unfold size, tie_weights. revert index. induction cs as [|c cs IH]; intros index; [done|].
  cbn [tie_indices map]. rewrite zsum_cons, (IH (S index)). case_match; cbn [length]; lia.
Qed.

Lemma lands_ties maximum cs index (t k : nat) : tie_indices maximum cs index !! t = Some k ->
  exists j, k = (index + j)%nat /\ lands (tie_weights maximum cs) (Z.of_nat t) j.
Proof.
  revert index t. induction cs as [|c cs IH]; intros index t; [done|].
  cbn [tie_indices]. unfold tie_weights. cbn [map]. destruct (rq_priority c =? maximum).
  - destruct t as [|t].
    + intros [= <-]. exists 0%nat. split; [lia|]. by exists 1.
    + intros (j & -> & Hj)%IH. exists (S j). split; [lia|].
      replace (Z.of_nat (S t)) with (1 + Z.of_nat t) by lia. by apply lands_cons.
  - intros (j & -> & Hj)%IH. exists (S j). split; [lia|]. by apply (lands_cons 0).
Qed.

Lemma total_weight_enough limit cs total work :
  Forall (fun c => 0 <= rq_priority c) cs ->
  work + size cs <= limit -> total + zsum (map rq_priority cs) <= U64_MAX ->
  total_weight limit cs total work = Done (total + zsum (map rq_priority cs), work + size cs).
Proof.
  intros Hp. unfold size. revert total work.
  induction Hp as [|c cs Hc Hp IH]; intros total work; cbn [total_weight map length]; rewrite ?zsum_cons; intros.
  - change (zsum []) with 0. f_equal. f_equal; lia.
  - pose proof (zsum_nonneg (map rq_priority cs) ltac:(by apply Forall_map)) as N.
    rewrite fail_if_bind, (proj2 (Z.leb_gt limit work)), (proj2 (Z.ltb_ge _ _)) by lia. cbn [orb].
    rewrite IH by lia. f_equal. f_equal; lia.
Qed.

Lemma lands_tickets cs t index : 0 <= t < zsum (map rq_priority cs) ->
  exists j, ticket_index t cs index = (index + j)%nat /\ lands (map rq_priority cs) t j.
Proof.
  revert t index. induction cs as [|c cs IH]; intros t index; cbn [map ticket_index]; rewrite ?zsum_cons; intros Ht; [by change (zsum []) with 0 in Ht; lia|].
  destruct (Z.ltb_spec t (rq_priority c)).
  - exists 0%nat. split; [lia|]. exists (rq_priority c). cbn. split; [done|lia].
  - destruct (IH (t - rq_priority c) (S index)) as (j & -> & Hj); [lia|].
    exists (S j). split; [lia|]. replace t with (rq_priority c + (t - rq_priority c)) by lia. by apply lands_cons.
Qed.

(** *** The switch *)

Lemma max_priority_spec cs : cs <> [] -> Forall (fun c => 0 <= rq_priority c) cs ->
  (exists c, c ∈ cs /\ rq_priority c = max_priority cs) /\ Forall (fun c => rq_priority c <= max_priority cs) cs.
Proof.
  intros Hne Hp. induction Hp as [|c cs Hc Hp IH]; [done|]. cbn [max_priority foldr].
  fold (max_priority cs). destruct (decide (cs = [])) as [->|Hcs].
  - cbn. rewrite Z.max_l by lia. split; [exists c; split; [by left|done]|]. by constructor.
  - destruct (IH Hcs) as [(m & Hm & Em) Hall]. split.
    + destruct (Z.max_spec (rq_priority c) (max_priority cs)) as [[? ->]|[? ->]].
      * exists m. split; [by right|done].
      * exists c. split; [by left|done].
    + constructor; [lia|]. eapply Forall_impl; [done|]. cbn. lia.
Qed.

Lemma weights_nonneg mode_ cs : Forall (fun c => 0 <= rq_priority c) cs -> Forall (fun w => 0 <= w) (weights mode_ cs).
Proof.
  intros Hp. unfold weights. apply Forall_map. eapply Forall_impl; [done|]. intros c Hc.
  cbn beta in *. unfold weight. repeat case_match; lia.
Qed.

Lemma zsum_pos ws : Forall (fun w => 0 <= w) ws -> (exists w, w ∈ ws /\ 0 < w) -> 0 < zsum ws.
Proof.
  intros Hn (w & Hw & Hpos). apply list_elem_of_split in Hw as (a & b & ->).
  rewrite zsum_app, zsum_cons. apply Forall_app in Hn as [Ha Hb]. inversion Hb; subst.
  pose proof (zsum_nonneg a Ha). pose proof (zsum_nonneg b ltac:(done)). lia.
Qed.

Lemma weights_positive mode_ cs : draws_lots mode_ = true -> cs <> [] -> Forall (fun c => 1 <= rq_priority c) cs ->
  0 < zsum (weights mode_ cs).
Proof.
  intros Hm Hne Hp. assert (Forall (fun c => 0 <= rq_priority c) cs) as Hp0.
  { eapply Forall_impl; [done|]. cbn. lia. }
  apply zsum_pos; [by apply weights_nonneg|].
  destruct (max_priority_spec cs Hne Hp0) as [(c & Hc & Ec) _]. exists (weight mode_ cs c).
  split; [by apply list_elem_of_fmap_2|]. destruct mode_; cbn; try done.
  - eapply Forall_forall in Hp; [|done]. cbn in Hp. lia.
  - by rewrite Ec, Z.eqb_refl.
Qed.

(** In a mode that draws, the candidate is the one the ticket lands on. *)
Lemma pick_lands mode_ cs limit work :
  draws_lots mode_ = true -> Forall (fun c => 0 <= rq_priority c) cs ->
  zsum (weights mode_ cs) <= U64_MAX -> work + size cs < limit ->
  exists index work',
    work' < limit
    /\ (forall t, 0 <= t < zsum (weights mode_ cs) -> lands (weights mode_ cs) t (index t))
    /\ (forall x, sr_arbitration x = mode_ ->
          pick x limit work cs =
            (d ← bounded_random (sr_random_state x) (sr_draws x) (zsum (weights mode_ cs)) work' limit;
             Done (index (d_value d), d_state d, d_draws d))).
Proof.
  intros Hm Hp Htot Hw. assert (0 <= size cs) by (unfold size; lia). destruct mode_; try done; unfold weights in *; cbn [weight] in *.
  - exists (fun t => ticket_index t cs 0), (work + size cs). split_and!; [done| |].
    + intros t Ht. destruct (lands_tickets cs t 0 Ht) as (j & -> & Hj). done.
    + intros x Ex. unfold pick. rewrite Ex, total_weight_enough by (done || lia). done.
  - exists Z.to_nat, work. split_and!; [lia| |].
    + intros t Ht. apply lands_ones. by rewrite zsum_ones in Ht.
    + intros x Ex. unfold pick. by rewrite Ex, zsum_ones.
  - change (map (weight StrictRandom cs) cs) with (tie_weights (max_priority cs) cs) in *.
    exists (fun t => default 0%nat (tie_indices (max_priority cs) cs 0 !! Z.to_nat t)), (work + size cs).
    split_and!; [done| |].
    + intros t Ht. rewrite (zsum_ties _ _ 0) in Ht. unfold size in Ht.
      destruct (lookup_lt_is_Some_2 (tie_indices (max_priority cs) cs 0) (Z.to_nat t)) as [k Ek]; [lia|].
      rewrite Ek. destruct (lands_ties _ _ _ _ _ Ek) as (j & -> & Hj). by rewrite Z2Nat.id in Hj by lia.
    + intros x Ex. unfold pick. rewrite Ex, collect_ties_enough by lia. by rewrite (zsum_ties _ _ 0).
Qed.

Definition with_state (x : Sequencer) (state : Z) : Sequencer :=
  with_policy x (sr_arbitration x) (sr_seed x) (sr_draws x) (sr_waits x) state.

(** Of the 2^64 generator states, those whose first draw picks candidate [i]
    number its weight times [2^64] over the total. *)
Lemma pick_shares x cs limit work i c :
  draws_lots (sr_arbitration x) = true -> cs !! i = Some c ->
  Forall (fun c => 1 <= rq_priority c) cs ->
  zsum (weights (sr_arbitration x) cs) <= U64_MAX -> work + size cs < limit -> sr_draws x <> U64_MAX ->
  number_of_states
    (fun state => exists state', pick (with_state x state) limit work cs = Done (i, state', sr_draws x + 1))
    (weight (sr_arbitration x) cs c * (2 ^ 64 / zsum (weights (sr_arbitration x) cs))).
Proof.
  intros Hm Hi Hp Htot Hw Hd. set (ws := weights (sr_arbitration x) cs) in *.
  assert (cs <> []) as Hne by (by intros ->).
  assert (Forall (fun c => 0 <= rq_priority c) cs) as Hp0 by (eapply Forall_impl; [done|]; cbn; lia).
  pose proof (weights_positive _ _ Hm Hne Hp) as Hpos. fold ws in Hpos.
  pose proof (weights_nonneg (sr_arbitration x) _ Hp0) as Hn. fold ws in Hn.
  destruct (pick_lands _ _ _ _ Hm Hp0 Htot Hw) as (index & work' & Hw' & Hl & Hpick). fold ws in Hl, Hpick.
  assert (ws !! i = Some (weight (sr_arbitration x) cs c)) as Hwi.
  { unfold ws, weights. by rewrite list_lookup_fmap, Hi. }
  set (a := zsum (take i ws)). set (w := weight (sr_arbitration x) cs c) in *.
  assert (a + w <= zsum ws) as Hend by (unfold a; rewrite <- (zsum_take_S _ _ _ Hwi); by apply zsum_take_le).
  assert (0 <= a) as Ha by (by apply zsum_nonneg, Forall_take).
  assert (0 <= w) as Hw0 by (eapply Forall_lookup in Hn; done).
  replace (w * (2 ^ 64 / zsum ws)) with ((a + w - a) * (2 ^ 64 / zsum ws)) by (f_equal; lia).
  eapply number_of_states_iff; [|apply (tickets_uniform (zsum ws) ltac:(lia) a (a + w)); lia].
  intros state _. cbn beta. rewrite Hpick by done. cbn [with_state with_policy sr_random_state sr_draws].
  pose proof (bounded_random_first state (sr_draws x) (zsum ws) work' limit Hw' Hd) as Hfirst.
  pose proof (Z.mod_pos_bound (yields state) (zsum ws) Hpos) as Hmod.
  destruct (Z.leb_spec (draw_threshold (zsum ws)) (yields state)) as [Hle|Hgt].
  - rewrite Hfirst. cbn -[yields next_random]. split.
    + intros [_ Ht]. eexists. do 3 f_equal. apply (lands_unique ws (yields state mod zsum ws)); [done|by apply Hl|].
      by exists w.
    + intros [state' [= Ei _]]. split; [done|]. destruct (Hl _ Hmod) as (u & Hu & Ru). rewrite Ei in Hu, Ru.
      by simplify_eq.
  - split; [lia|]. intros [state' E]. destruct (bounded_random _ _ _ _ _) as [d|] eqn:B; [|done].
    injection E as _ _ E. pose proof (Hfirst d eq_refl). lia.
Qed.
