(* ===== verification/UvmArbitration.v ===== *)
(** * The requests of sequencer arbitration stay consistent

    [arbitration_ok] ties the request table to the queues of the sequencers; every
    arbitration call preserves it, whether it succeeds or fails. *)
From stdpp Require Import gmap sorting.
From S2P Require Import Prelude UvmSequence UvmArbitrationRandom.
From stdpp Require Import options.

(** ** Inverting successful calls *)

Lemma seq_bind_done {A B} (m : SeqResult A) (f : A -> SeqResult B) b :
  m ≫= f = Done b -> exists a, m = Done a /\ f a = Done b.
Proof. destruct m as [a|]; [by exists a|done]. Qed.

Lemma fail_if_done b code_ message u : fail_if b code_ message = Done u -> b = false.
Proof. by destruct b. Qed.

(** Turns [H : m ≫= f = Done _] into what each step of [m] returned. *)
Ltac seq_inv H :=
  repeat lazymatch type of H with
  | _ ≫= _ = Done _ =>
      let u := fresh "u" in let E := fresh "E" in
      apply seq_bind_done in H as (u & E & H);
      try (apply fail_if_done in E; clear u)
  end.

(** ** The invariant *)

(** Request [r] of slot [k]: while it is live its handle is current and waits in
    the queue of its sequencer. *)
Record request_ok (s : SequenceService) (k : Z) (r : Request) : Prop := {
  rok_slot : 1 <= k < next_request_slot s;
  rok_handle : rq_handle (req_value r) = mkSeqHandle (sv_owner s) k 1;
  rok_order : rq_order (req_value r) = k - 1;
  rok_priority : 1 <= rq_priority (req_value r) <= maximum_priority (sv_limits s);
  rok_generation : req_generation r = if req_live r then 1 else 2;
  rok_queued : req_live r = true ->
    exists x, sequencers s !! h_slot (rq_sequencer (req_value r)) = Some x
              /\ rq_handle (req_value r) ∈ sr_requests x;
}.

(** The queue of the sequencer of slot [k]: live requests of that sequencer, each
    once, the oldest first. *)
Record queue_ok (s : SequenceService) (k : Z) (x : Sequencer) : Prop := {
  qok_sorted : StronglySorted (fun a b => h_slot a < h_slot b) (sr_requests x);
  qok_live : forall h, h ∈ sr_requests x ->
    exists r, sv_requests s !! h_slot h = Some r /\ req_live r = true
              /\ rq_handle (req_value r) = h /\ h_slot (rq_sequencer (req_value r)) = k;
}.

Definition live_map (s : SequenceService) : gmap Z Request :=
  filter (fun kr => req_live kr.2 = true) (sv_requests s).

Record arbitration_ok (s : SequenceService) : Prop := {
  aok_owner : sv_owner s <> 0;
  aok_idle : callback_active s = false;
  aok_slot : 1 <= next_request_slot s <= U64_MAX;
  aok_order : next_request_order s = next_request_slot s - 1;
  aok_request k r : sv_requests s !! k = Some r -> request_ok s k r;
  aok_queue k x : sequencers s !! k = Some x -> queue_ok s k x;
  aok_live : live_requests s = Z.of_nat (base.size (live_map s));
  aok_pending k k' r r' : sv_requests s !! k = Some r -> sv_requests s !! k' = Some r' ->
    req_live r = true -> req_live r' = true ->
    rq_sequence (req_value r) = rq_sequence (req_value r') -> k = k';
}.

(** ** Lookups *)

Lemma sequencer_done v s h x : sequencer v s h = Done x ->
  sequencers s !! h_slot h = Some x /\ sr_live x = true.
Proof.
  unfold sequencer. intros H. seq_inv H. case_match; [|done]. destruct (sr_live _) eqn:L; [|done].
  cbn [andb] in H. case_match; [|done]. seq_inv H. by injection H as <-.
Qed.

Lemma request_done v s h r : arbitration_ok s -> request v s h = Done r ->
  sv_requests s !! h_slot h = Some r /\ req_live r = true /\ rq_handle (req_value r) = h.
Proof.
  intros Hok. unfold request. intros H. seq_inv H. destruct (sv_requests s !! h_slot h) as [r'|] eqn:Er; [|done].
  destruct (req_live r') eqn:L; [|done]. cbn [andb] in H. case_match; [|done]. seq_inv H. injection H as <-.
  pose proof (aok_request s Hok _ _ Er) as R. destruct h as [o k g]. cbn in *.
  split_and!; [done..|]. rewrite (rok_handle _ _ _ R). pose proof (rok_generation _ _ _ R) as G.
  rewrite L in G. assert (o = sv_owner s) by lia. assert (g = 1) by lia. by subst.
Qed.

Lemma erase_handle_elem h q a : a ∈ erase_handle h q <-> a ∈ q /\ a <> h.
Proof.
  unfold erase_handle. rewrite !list_elem_of_In, filter_In, negb_true_iff, bool_decide_eq_false. done.
Qed.

Lemma erase_handle_sorted (R : relation SeqHandle) h q : StronglySorted R q -> StronglySorted R (erase_handle h q).
Proof.
  induction 1 as [|a q Hs IH Hall]; [constructor|]. unfold erase_handle. cbn [List.filter].
  case_match; [|done]. constructor; [done|]. apply Forall_forall. intros b [Hb _]%erase_handle_elem.
  by apply Forall_forall with (x := b) in Hall.
Qed.

(** Two queue entries of one slot are the same handle. *)
Lemma queue_handle s k x h : arbitration_ok s -> sequencers s !! k = Some x -> h ∈ sr_requests x ->
  h = mkSeqHandle (sv_owner s) (h_slot h) 1.
Proof.
  intros Hok Hx Hh. destruct (qok_live _ _ _ (aok_queue _ Hok _ _ Hx) h Hh) as (r & Hr & _ & <- & _).
  rewrite (rok_handle _ _ _ (aok_request _ Hok _ _ Hr)). cbn.
  by rewrite (rok_handle _ _ _ (aok_request _ Hok _ _ Hr)) in Hr |- *.
Qed.

(** ** Kinds of change *)

(** A sequencer changes, its queue does not. *)
Lemma policy_ok s k x x' n : arbitration_ok s -> sequencers s !! k = Some x -> sr_requests x' = sr_requests x ->
  arbitration_ok (with_mutations (with_sequencer s k x') n).
Proof.
  intros Hok Hx Hq. constructor; cbn; try apply Hok.
  - intros j r Hr. destruct (aok_request _ Hok _ _ Hr) as [S H O P G Q]. constructor; cbn; [done..|].
    intros L. destruct (Q L) as (y & Hy & Hin). cbn. destruct (decide (h_slot (rq_sequencer (req_value r)) = k)) as [E|].
    + rewrite E in *. exists x'. rewrite lookup_insert_eq, Hq. rewrite Hx in Hy. by injection Hy as <-.
    + exists y. by rewrite lookup_insert_ne by done.
  - intros j y Hy. destruct (decide (j = k)) as [->|].
    + rewrite lookup_insert_eq in Hy. injection Hy as <-. destruct (aok_queue _ Hok _ _ Hx) as [S L].
      constructor; by rewrite Hq.
    + rewrite lookup_insert_ne in Hy by done. destruct (aok_queue _ Hok _ _ Hy). by constructor.
Qed.

(** A live request takes another relevance. *)
Lemma relevance_ok s h r b : arbitration_ok s -> sv_requests s !! h_slot h = Some r ->
  arbitration_ok (with_requests s (<[h_slot h := set_relevant r b]> (sv_requests s))
                    (next_request_slot s) (next_request_order s) (live_requests s)).
Proof.
  intros Hok Hr. assert (forall k q, <[h_slot h := set_relevant r b]> (sv_requests s) !! k = Some q ->
    exists q0, sv_requests s !! k = Some q0 /\ req_live q = req_live q0 /\ req_generation q = req_generation q0
      /\ rq_handle (req_value q) = rq_handle (req_value q0) /\ rq_sequencer (req_value q) = rq_sequencer (req_value q0)
      /\ rq_sequence (req_value q) = rq_sequence (req_value q0) /\ rq_order (req_value q) = rq_order (req_value q0)
      /\ rq_priority (req_value q) = rq_priority (req_value q0)) as Hsame.
  { intros k q. destruct (decide (k = h_slot h)) as [->|].
    - rewrite lookup_insert_eq. intros [= <-]. by exists r.
    - rewrite lookup_insert_ne by done. by exists q. }
  constructor; cbn; try apply Hok.
  - intros k q (q0 & Hq & L & G & H & S & _ & O & P)%Hsame.
    destruct (aok_request _ Hok _ _ Hq) as [? ? ? ? ? ?].
    constructor; cbn; rewrite ?L, ?G, ?H, ?S, ?O, ?P; done.
  - intros k x Hx. destruct (aok_queue _ Hok _ _ Hx) as [Hs Hl]. constructor; [done|]. intros a Ha. cbn.
    destruct (Hl a Ha) as (q & Hq & ? & ? & ?). destruct (decide (h_slot a = h_slot h)) as [E|].
    + rewrite E in *. rewrite Hr in Hq. injection Hq as <-. exists (set_relevant r b). by rewrite lookup_insert_eq.
    + exists q. by rewrite lookup_insert_ne by done.
  - rewrite (aok_live _ Hok). f_equal. unfold live_map. cbn [with_requests sv_requests].
    destruct (req_live r) eqn:L.
    + rewrite map_filter_insert_True by done. rewrite map_size_insert.
      by rewrite (proj2 (map_lookup_filter_Some _ _ _ _) (conj Hr L)).
    + rewrite map_filter_insert_False by (cbn; by rewrite L). rewrite map_filter_delete, delete_id; [done|].
      apply map_lookup_filter_None. right. intros q Hq. rewrite Hr in Hq. injection Hq as <-. cbn. by rewrite L.
  - intros k k' q q' (q0 & ? & ? & _ & _ & _ & ? & _)%Hsame (q0' & ? & ? & _ & _ & _ & ? & _)%Hsame ???.
    eapply (aok_pending _ Hok); [done..| | |]; congruence.
Qed.

Lemma live_positive s k r : arbitration_ok s -> sv_requests s !! k = Some r -> req_live r = true -> 0 < live_requests s.
Proof.
  intros Hok Hr L. rewrite (aok_live _ Hok).
  assert (live_map s !! k = Some r) as F by (by apply map_lookup_filter_Some).
  destruct (base.size (live_map s)) eqn:E; [|lia]. apply map_size_empty_inv in E. by rewrite E in F.
Qed.

(** A live request leaves its queue and the table of live requests. *)
Lemma retire_ok s h r x x' n : arbitration_ok s -> sv_requests s !! h_slot h = Some r -> req_live r = true ->
  rq_handle (req_value r) = h -> sequencers s !! h_slot (rq_sequencer (req_value r)) = Some x ->
  sr_requests x' = erase_handle h (sr_requests x) ->
  arbitration_ok
    (with_mutations
       (with_sequencer
          (with_requests s (<[h_slot h := retire r]> (sv_requests s))
             (next_request_slot s) (next_request_order s) (live_requests s - 1))
          (h_slot (rq_sequencer (req_value r))) x') n).
Proof.
  intros Hok Hr L Hh Hx Hq. set (k := h_slot (rq_sequencer (req_value r))) in *.
  constructor; cbn; try apply Hok.
  - intros j q Hj. destruct (decide (j = h_slot h)) as [->|Hne].
    + rewrite lookup_insert_eq in Hj. injection Hj as <-. destruct (aok_request _ Hok _ _ Hr) as [S H O P G Q].
      constructor; cbn; [done..| |done]. rewrite G, L. done.
    + rewrite lookup_insert_ne in Hj by done. destruct (aok_request _ Hok _ _ Hj) as [S H O P G Q].
      constructor; cbn; [done..|]. intros Lq. destruct (Q Lq) as (y & Hy & Hin).
      destruct (decide (h_slot (rq_sequencer (req_value q)) = k)) as [E|].
      * rewrite E in *. exists x'. rewrite lookup_insert_eq, Hq. split; [done|]. apply erase_handle_elem.
        rewrite Hx in Hy. injection Hy as <-. split; [done|]. intros E'. apply Hne. by rewrite <- E', H.
      * exists y. by rewrite lookup_insert_ne by done.
  - assert (forall j y a, sequencers s !! j = Some y -> a ∈ sr_requests y -> a <> h ->
      exists q, <[h_slot h := retire r]> (sv_requests s) !! h_slot a = Some q /\ req_live q = true
                /\ rq_handle (req_value q) = a /\ h_slot (rq_sequencer (req_value q)) = j) as Hkeep.
    { intros j y a Hy Ha Hne. destruct (qok_live _ _ _ (aok_queue _ Hok _ _ Hy) a Ha) as (q & Hq' & ? & E & ?).
      exists q. rewrite lookup_insert_ne; [done|]. intros E'. apply Hne. rewrite <- E', Hr in Hq'. congruence. }
    intros j y Hy. destruct (decide (j = k)) as [->|Hj].
    + rewrite lookup_insert_eq in Hy. injection Hy as <-. destruct (aok_queue _ Hok _ _ Hx) as [Hs Hl].
      constructor; rewrite Hq; [by apply erase_handle_sorted|].
      intros a [Ha Hne]%erase_handle_elem. by apply (Hkeep k x a).
    + rewrite lookup_insert_ne in Hy by done. destruct (aok_queue _ Hok _ _ Hy) as [Hs Hl].
      constructor; [done|]. intros a Ha. apply (Hkeep j y a Hy Ha). intros ->.
      destruct (Hl _ Ha) as (q & Hq' & _ & _ & E). rewrite Hr in Hq'. injection Hq' as <-. by apply Hj.
  - rewrite (aok_live _ Hok). unfold live_map. cbn [with_mutations with_sequencer with_requests sv_requests].
    rewrite map_filter_insert_False by done. rewrite map_filter_delete.
    rewrite map_size_delete_Some by (exists r; by apply map_lookup_filter_Some).
    pose proof (live_positive s _ r Hok Hr L) as N. rewrite (aok_live _ Hok) in N.
    unfold live_map in N. lia.
  - intros j j' q q' Hj Hj' Lq Lq' E.
    destruct (decide (j = h_slot h)) as [->|]; [rewrite lookup_insert_eq in Hj; by injection Hj as <-|].
    destruct (decide (j' = h_slot h)) as [->|]; [rewrite lookup_insert_eq in Hj'; by injection Hj' as <-|].
    rewrite lookup_insert_ne in Hj, Hj' by done. by apply (aok_pending _ Hok j j' q q').
Qed.

Lemma pending_for_false h s : pending_for h s = false ->
  forall k r, sv_requests s !! k = Some r -> req_live r = true -> rq_sequence (req_value r) <> h.
Proof.
  unfold pending_for. intros Hp k r Hr L E. apply not_true_iff_false in Hp. apply Hp, existsb_exists.
  exists (k, r). split; [by apply list_elem_of_In, elem_of_map_to_list|]. rewrite L. cbn. by apply bool_decide_eq_true.
Qed.

(** A new request joins the end of a queue. *)
Section Enqueue.
Context (s : SequenceService) (k : Z) (x : Sequencer) (r : Request) (n : Z).
Context (Hok : arbitration_ok s) (Hx : sequencers s !! k = Some x).
Context (Hhandle : rq_handle (req_value r) = mkSeqHandle (sv_owner s) (next_request_slot s) 1)
  (Hsequencer : h_slot (rq_sequencer (req_value r)) = k)
  (Horder : rq_order (req_value r) = next_request_order s)
  (Hpriority : 1 <= rq_priority (req_value r) <= maximum_priority (sv_limits s))
  (Hlive : req_live r = true) (Hgeneration : req_generation r = 1).
Context (Hroom : next_request_slot s <> U64_MAX) (Hnew : pending_for (rq_sequence (req_value r)) s = false).

#[local] Set Default Proof Using "All".

Let h := mkSeqHandle (sv_owner s) (next_request_slot s) 1.
Let s' := with_mutations
            (with_sequencer
               (with_requests s (<[next_request_slot s := r]> (sv_requests s))
                  (next_request_slot s + 1) (next_request_order s + 1) (live_requests s + 1))
               k (with_queue x (sr_requests x ++ [h]))) n.

Lemma slot_is_new : sv_requests s !! next_request_slot s = None.
Proof.
  destruct (sv_requests s !! next_request_slot s) as [q|] eqn:E; [|done].
  pose proof (rok_slot _ _ _ (aok_request _ Hok _ _ E)). lia.
Qed.

Lemma enqueue_keeps j q : sv_requests s !! j = Some q -> sv_requests s' !! j = Some q.
Proof. intros E. cbn. rewrite lookup_insert_ne; [done|]. intros <-. by rewrite slot_is_new in E. Qed.

Lemma enqueue_requests j q : sv_requests s' !! j = Some q -> request_ok s' j q.
Proof.
  intros E. pose proof (aok_slot _ Hok). pose proof (aok_order _ Hok). cbn in E.
  destruct (decide (j = next_request_slot s)) as [->|Hne].
  - rewrite lookup_insert_eq in E. injection E as <-. constructor; cbn; [lia|done|lia|done|by rewrite Hlive|].
    intros _. eexists. rewrite Hsequencer, lookup_insert_eq. split; [done|]. cbn. rewrite Hhandle. set_solver.
  - rewrite lookup_insert_ne in E by done. destruct (aok_request _ Hok _ _ E) as [S H' O P G Q].
    constructor; cbn; [lia|done..|]. intros L. destruct (Q L) as (y & Hy & Hin).
    destruct (decide (h_slot (rq_sequencer (req_value q)) = k)) as [Ek|].
    + rewrite Ek in *. rewrite Hx in Hy. injection Hy as <-. eexists. rewrite lookup_insert_eq.
      split; [done|]. cbn. set_solver.
    + exists y. by rewrite lookup_insert_ne by done.
Qed.

Lemma enqueue_queues j y : sequencers s' !! j = Some y -> queue_ok s' j y.
Proof.
  cbn. intros E. assert (forall a z, sequencers s !! j = Some z -> a ∈ sr_requests z ->
    exists q, sv_requests s' !! h_slot a = Some q /\ req_live q = true
              /\ rq_handle (req_value q) = a /\ h_slot (rq_sequencer (req_value q)) = j) as Hkeep.
  { intros a z Hz Ha. destruct (qok_live _ _ _ (aok_queue _ Hok _ _ Hz) a Ha) as (q & Hq & ?).
    exists q. split; [by apply enqueue_keeps|done]. }
  destruct (decide (j = k)) as [->|].
  - rewrite lookup_insert_eq in E. injection E as <-. destruct (aok_queue _ Hok _ _ Hx) as [Hs Hl].
    constructor; cbn [with_queue sr_requests].
    + apply StronglySorted_app_2; [|done|repeat constructor].
      intros a b Ha Hb. apply list_elem_of_singleton in Hb as ->. destruct (Hl a Ha) as (q & Hq & _). cbn.
      apply (rok_slot _ _ _ (aok_request _ Hok _ _ Hq)).
    + intros a [Ha|Ha%list_elem_of_singleton]%elem_of_app; [by apply (Hkeep a x)|]. subst a.
      exists r. split_and!; [|done..]. cbn. by rewrite lookup_insert_eq.
  - rewrite lookup_insert_ne in E by done. destruct (aok_queue _ Hok _ _ E). constructor; [done|].
    intros a Ha. by apply (Hkeep a y).
Qed.

Lemma enqueue_ok : arbitration_ok s'.
Proof.
  pose proof (aok_slot _ Hok). pose proof (aok_order _ Hok). pose proof slot_is_new as Hfresh.
  constructor; [apply Hok|apply Hok|cbn; lia|cbn; lia|apply enqueue_requests|apply enqueue_queues| |].
  - cbn. rewrite (aok_live _ Hok). unfold live_map. cbn. rewrite map_filter_insert_True by done.
    rewrite map_size_insert_None; [lia|]. apply map_lookup_filter_None. by left.
  - cbn. pose proof (pending_for_false _ _ Hnew) as Hp.
    intros j j' q q' [[<- <-]|[_ Hj]]%lookup_insert_Some [[<- <-]|[_ Hj']]%lookup_insert_Some L L' E; [done|..].
    + by destruct (Hp _ _ Hj' L').
    + by destruct (Hp _ _ Hj L).
    + by apply (aok_pending _ Hok j j' q q').
Qed.
End Enqueue.

(** A live request is taken back. *)
Section Rollback.
Context (s : SequenceService) (h : SeqHandle) (r : Request) (x : Sequencer) (n : Z).
Context (Hok : arbitration_ok s) (Hr : sv_requests s !! h_slot h = Some r) (Hlive : req_live r = true).
Context (Hhandle : rq_handle (req_value r) = h).

Let k := h_slot (rq_sequencer (req_value r)).
Context (Hx : sequencers s !! k = Some x).

#[local] Set Default Proof Using "All".

Let last := next_request_slot s =? h_slot h + 1.
Let s' := with_mutations
            (with_requests (with_sequencer s k (with_queue x (erase_handle h (sr_requests x))))
               (delete (h_slot h) (sv_requests s))
               (if last then next_request_slot s - 1 else next_request_slot s)
               (if next_request_order s =? rq_order (req_value r) + 1 then next_request_order s - 1
                else next_request_order s)
               (live_requests s - 1)) n.

Lemma rollback_slots : 1 <= next_request_slot s' <= U64_MAX /\ next_request_order s' = next_request_slot s' - 1.
Proof.
  pose proof (aok_slot _ Hok). pose proof (aok_order _ Hok) as O. pose proof (aok_request _ Hok _ _ Hr) as R.
  pose proof (rok_slot _ _ _ R). pose proof (rok_order _ _ _ R). subst last. cbn.
  destruct (Z.eqb_spec (next_request_slot s) (h_slot h + 1)), (Z.eqb_spec (next_request_order s) (rq_order (req_value r) + 1)); lia.
Qed.

Lemma rollback_requests j q : sv_requests s' !! j = Some q -> request_ok s' j q.
Proof.
  cbn. intros [Hne E]%lookup_delete_Some. destruct (aok_request _ Hok _ _ E) as [S H O P G Q].
  constructor; cbn; [|done..|].
  - subst last. destruct (Z.eqb_spec (next_request_slot s) (h_slot h + 1)); lia.
  - intros L. destruct (Q L) as (y & Hy & Hin). destruct (decide (h_slot (rq_sequencer (req_value q)) = k)) as [Ek|].
    + rewrite Ek in *. rewrite Hx in Hy. injection Hy as <-. eexists. rewrite lookup_insert_eq. split; [done|].
      apply erase_handle_elem. split; [done|]. intros E'. apply Hne. by rewrite <- E', H.
    + exists y. by rewrite lookup_insert_ne by done.
Qed.

Lemma rollback_queues j y : sequencers s' !! j = Some y -> queue_ok s' j y.
Proof.
  assert (forall j y a, sequencers s !! j = Some y -> a ∈ sr_requests y -> a <> h ->
      exists q, sv_requests s' !! h_slot a = Some q /\ req_live q = true
                /\ rq_handle (req_value q) = a /\ h_slot (rq_sequencer (req_value q)) = j) as Hkeep.
  { intros i z a Hz Ha Hne. destruct (qok_live _ _ _ (aok_queue _ Hok _ _ Hz) a Ha) as (q & Hq & ? & E & ?).
    exists q. cbn. rewrite lookup_delete_ne; [done|]. intros E'. apply Hne. rewrite <- E', Hr in Hq. congruence. }
  cbn. intros [[<- <-]|[Hj Hy]]%lookup_insert_Some.
  - destruct (aok_queue _ Hok _ _ Hx) as [Hs Hl]. constructor; [by apply erase_handle_sorted|].
    intros a [Ha Hne]%erase_handle_elem. by apply (Hkeep k x a).
  - destruct (aok_queue _ Hok _ _ Hy) as [Hs Hl]. constructor; [done|]. intros a Ha. apply (Hkeep j y a Hy Ha).
    intros ->. destruct (Hl _ Ha) as (q & Hq & _ & _ & E). rewrite Hr in Hq. by injection Hq as <-.
Qed.

Lemma remove_ok : arbitration_ok s'.
Proof.
  destruct rollback_slots. constructor; [apply Hok|apply Hok|done|done|apply rollback_requests|apply rollback_queues| |].
  - cbn. pose proof (live_positive s _ r Hok Hr Hlive). rewrite (aok_live _ Hok) in *. unfold live_map in *. cbn. rewrite map_filter_delete.
    rewrite map_size_delete_Some by (exists r; by apply map_lookup_filter_Some). lia.
  - cbn. intros j j' q q' [_ Hj]%lookup_delete_Some [_ Hj']%lookup_delete_Some. by apply (aok_pending _ Hok).
Qed.
End Rollback.

Lemma rollback_ok h s : arbitration_ok s -> arbitration_ok (rollback_latest_request h s).
Proof.
  intros Hok. unfold rollback_latest_request. destruct (Z.eqb_spec (h_owner h) (sv_owner s)) as [Ho|]; [|done].
  cbn [negb]. destruct (sv_requests s !! h_slot h) as [r|] eqn:Hr; [|done].
  destruct (req_live r) eqn:L; [|done]. cbn [negb orb].
  destruct (Z.eqb_spec (req_generation r) (h_generation h)) as [Hg|]; [|done]. cbn [negb].
  pose proof (aok_request _ Hok _ _ Hr) as R. assert (rq_handle (req_value r) = h) as Hh.
  { rewrite (rok_handle _ _ _ R). pose proof (rok_generation _ _ _ R) as G. rewrite L in G. destruct h; cbn in *. congruence. }
  destruct (rok_queued _ _ _ R L) as (x & Hx & _). rewrite Hx.
  pose proof (live_positive s _ r Hok Hr L). cbn [with_sequencer live_requests mutations].
  rewrite (proj2 (Z.eqb_neq (live_requests s) 0)) by lia. by apply (remove_ok s h r x).
Qed.
