(* ===== verification/UvmSelection.v ===== *)
(** * What a selection does

    The candidates of a selection are the relevant requests of the queue in queue
    order; the chosen one is the one the arbitration mode asks for; the rest of the
    service is untouched; a strict-FIFO sequencer serves its whole queue by
    priority and age. *)
From stdpp Require Import gmap sorting.
From S2P Require Import Prelude UvmSequence UvmArbitrationRandom UvmArbitration.
From stdpp Require Import options.

(** ** Candidates *)

Definition relevant_request (r : Request) : bool :=
  rq_relevant (req_value r)
  && match req_is_relevant r with
     | None => true
     | Some f => default false (f (rq_sequence (req_value r)))
     end.

Definition candidate (s : SequenceService) (h : SeqHandle) : option RequestSnapshot :=
  r ← sv_requests s !! h_slot h; if relevant_request r then Some (req_value r) else None.
Definition candidates_of (s : SequenceService) (q : list SeqHandle) : list RequestSnapshot := omap (candidate s) q.

Lemma relevant_now_done r b : relevant_now r = Done b -> b = relevant_request r.
Proof.
  unfold relevant_now, relevant_request. destruct (rq_relevant _); [|by intros [= <-]].
  destruct (req_is_relevant r) as [f|]; [|by intros [= <-]]. destruct (f _); [|done]. by intros [= <-].
Qed.

Lemma collect_done v s q work cs work' : arbitration_ok s -> collect v s q work = Done (cs, work') ->
  cs = candidates_of s q /\ work' = work + size q.
Proof.
  intros Hok. unfold size. revert work cs work'. induction q as [|h q IH]; intros work cs work' H; cbn [collect length] in *.
  - injection H as <- <-. split; [done|lia].
  - seq_inv H. destruct u1 as [rest w]. apply IH in E2 as [-> ->]. apply relevant_now_done in E1 as ->.
    apply request_done in E0 as (Hr & _ & _); [|done]. unfold candidates_of. cbn. unfold candidate at 1. rewrite Hr. cbn.
    destruct (relevant_request u); injection H as <- <-; (split; [done|lia]).
Qed.

Lemma candidate_spec s k x c : arbitration_ok s -> sequencers s !! k = Some x -> c ∈ candidates_of s (sr_requests x) ->
  exists r, sv_requests s !! h_slot (rq_handle c) = Some r /\ req_live r = true /\ req_value r = c
    /\ rq_handle c ∈ sr_requests x /\ h_slot (rq_sequencer c) = k /\ request_ok s (h_slot (rq_handle c)) r.
Proof.
  intros Hok Hx Hc. apply list_elem_of_omap in Hc as (h & Hh & Hc).
  destruct (qok_live _ _ _ (aok_queue _ Hok _ _ Hx) h Hh) as (r & Hr & L & E & Hk).
  unfold candidate in Hc. rewrite Hr in Hc. cbn in Hc. destruct (relevant_request r); [|done]. injection Hc as <-.
  exists r. rewrite E. split_and!; [done..|]. by apply (aok_request _ Hok).
Qed.

Lemma candidates_priority s k x : arbitration_ok s -> sequencers s !! k = Some x ->
  Forall (fun c => 1 <= rq_priority c) (candidates_of s (sr_requests x)).
Proof.
  intros Hok Hx. apply Forall_forall. intros c Hc.
  destruct (candidate_spec _ _ _ _ Hok Hx Hc) as (r & _ & _ & <- & _ & _ & R). apply (rok_priority _ _ _ R).
Qed.

(** ** The choice *)

(** What each mode asks of the chosen candidate. *)
Definition rightful (x : Sequencer) (cs : list RequestSnapshot) (c : RequestSnapshot) : Prop :=
  match sr_arbitration x with
  | Fifo => head cs = Some c
  | StrictFifo =>
      exists before after, cs = before ++ c :: after
        /\ Forall (fun b => rq_priority b < rq_priority c) before
        /\ Forall (fun a => rq_priority a <= rq_priority c) after
  | Random | Weighted => c ∈ cs
  | StrictRandom => c ∈ cs /\ Forall (fun b => rq_priority b <= rq_priority c) cs
  | User => c ∈ cs /\ exists f, sr_user x = Some f /\ f cs = Some (rq_handle c)
  end.

Lemma find_index_split p cs : (find_index p cs < length cs)%nat ->
  exists before c after, cs = before ++ c :: after /\ cs !! find_index p cs = Some c
    /\ p c = true /\ Forall (fun b => p b = false) before.
Proof.
  induction cs as [|c cs IH]; cbn; [lia|]. destruct (p c) eqn:E.
  - intros _. exists [], c, cs. split_and!; try done. 
  - intros H. destruct IH as (before & d & after & E1 & E2 & E3 & E4); [lia|].
    exists (c :: before), d, after. split_and!; try done; [by cbn; f_equal|by constructor].
Qed.

Lemma find_index_bound p cs : (exists c, c ∈ cs /\ p c = true) -> (find_index p cs < length cs)%nat.
Proof.
  intros (c & Hc & Hp). induction cs as [|d cs IH]; [by apply not_elem_of_nil in Hc|]. cbn.
  destruct (p d) eqn:E; [lia|]. apply elem_of_cons in Hc as [->|Hc]; [congruence|]. specialize (IH Hc). lia.
Qed.

Lemma find_index_le p cs : (find_index p cs <= length cs)%nat.
Proof. induction cs as [|c cs IH]; [done|]. cbn. destruct (p c); lia. Qed.

Lemma strict_fifo_pick cs : cs <> [] -> Forall (fun c => 1 <= rq_priority c) cs ->
  exists before c after, cs = before ++ c :: after
    /\ cs !! find_index (fun c => rq_priority c =? max_priority cs) cs = Some c
    /\ Forall (fun b => rq_priority b < rq_priority c) before
    /\ Forall (fun a => rq_priority a <= rq_priority c) after.
Proof.
  intros Hne Hp. destruct (max_priority_spec cs Hne) as [(m & Hm & Em) Hall].
  { eapply Forall_impl; [done|]. cbn. lia. }
  destruct (find_index_split (fun c => rq_priority c =? max_priority cs) cs) as (before & c & after & E1 & E2 & E3 & E4).
  { apply find_index_bound. exists m. split; [done|]. by apply Z.eqb_eq. }
  apply Z.eqb_eq in E3. set (M := max_priority cs) in *. clearbody M. exists before, c, after.
  rewrite E1, Forall_app, Forall_cons in Hall. destruct Hall as (Hb & _ & Ha).
  split_and!; [done|done| |by rewrite E3].
  apply Forall_forall. intros b Hin. rewrite Forall_forall in Hb, E4.
  specialize (Hb b Hin). specialize (E4 b Hin). apply Z.eqb_neq in E4. lia.
Qed.

Lemma lands_lookup mode_ cs t i : lands (weights mode_ cs) t i ->
  exists c, cs !! i = Some c /\ 0 < weight mode_ cs c.
Proof.
  intros (w & Hw & R). unfold weights in Hw. rewrite list_lookup_fmap in Hw.
  destruct (cs !! i) as [c|]; [|done]. cbn in Hw. injection Hw as <-. exists c. split; [done|lia].
Qed.

Lemma collect_ties_done maximum limit cs index work ties work' :
  collect_ties maximum limit cs index work = Done (ties, work') -> ties = tie_indices maximum cs index.
Proof.
  revert index work ties work'. induction cs as [|c cs IH]; intros index work ties work' H; cbn [collect_ties tie_indices] in *.
  - by injection H as <- <-.
  - seq_inv H. destruct u as [rest w]. apply IH in E0 as ->. by destruct (rq_priority c =? maximum); injection H as <- <-.
Qed.

Lemma total_weight_done limit cs total work total' work' :
  total_weight limit cs total work = Done (total', work') -> total' = total + zsum (map rq_priority cs).
Proof.
  revert total work. induction cs as [|c cs IH]; intros total work H; cbn [total_weight map] in *.
  - injection H as <- <-. cbn. lia.
  - seq_inv H. apply IH in H as ->. rewrite zsum_cons. lia.
Qed.

(** A drawn candidate has positive weight. *)
Lemma pick_drawn x limit work cs i state draws :
  pick x limit work cs = Done (i, state, draws) -> draws_lots (sr_arbitration x) = true ->
  cs <> [] -> Forall (fun c => 1 <= rq_priority c) cs ->
  exists c, cs !! i = Some c /\ 0 < weight (sr_arbitration x) cs c.
Proof.
  intros H Hm Hne Hp. pose proof (weights_positive _ _ Hm Hne Hp) as Hpos.
  assert (exists t, lands (weights (sr_arbitration x) cs) t i) as [t Ht]; [|by eapply lands_lookup].
  unfold pick in H. destruct (sr_arbitration x); try done; unfold weights in *.
  - seq_inv H. destruct u as [total w]. apply total_weight_done in E as ->. seq_inv H. injection H as <- _ _.
    apply bounded_random_value in E; [|done]. exists (d_value u).
    destruct (lands_tickets cs (d_value u) 0 E) as (j & -> & Hj). done.
  - seq_inv H. injection H as <- _ _. exists (d_value u). apply lands_ones. apply bounded_random_value in E; [done|].
    by rewrite <- (zsum_ones cs).
  - change (map (weight StrictRandom cs) cs) with (tie_weights (max_priority cs) cs) in *.
    rewrite (zsum_ties _ _ 0) in Hpos. seq_inv H. destruct u as [ties w]. apply collect_ties_done in E as ->.
    seq_inv H. injection H as <- _ _. apply bounded_random_value in E; [|done]. unfold size in E.
    destruct (lookup_lt_is_Some_2 (tie_indices (max_priority cs) cs 0) (Z.to_nat (d_value u))) as [j Ej]; [lia|].
    rewrite Ej. destruct (lands_ties _ _ _ _ _ Ej) as (i & -> & Hi). by eexists.
Qed.

Lemma pick_rightful x limit work cs i state draws :
  pick x limit work cs = Done (i, state, draws) -> cs <> [] -> Forall (fun c => 1 <= rq_priority c) cs ->
  exists c, cs !! i = Some c /\ rightful x cs c.
Proof.
  intros H Hne Hp. destruct (draws_lots (sr_arbitration x)) eqn:Hm.
  - destruct (pick_drawn _ _ _ _ _ _ _ H Hm Hne Hp) as (c & Hc & Hw). exists c. split; [done|].
    pose proof (list_elem_of_lookup_2 _ _ _ Hc) as Hin. unfold rightful. destruct (sr_arbitration x); try done.
    split; [done|]. cbn in Hw. destruct (Z.eqb_spec (rq_priority c) (max_priority cs)) as [->|]; [|lia].
    apply max_priority_spec; [done|]. eapply Forall_impl; [done|]. cbn. lia.
  - unfold pick in H. unfold rightful. destruct (sr_arbitration x); try done.
    + injection H as <- _ _. destruct cs as [|c cs]; [done|]. by exists c.
    + injection H as <- _ _. destruct (strict_fifo_pick cs Hne Hp) as (before & c & after & ? & ? & ? & ?).
      exists c. split; [done|]. by exists before, after.
    + destruct (sr_user x) as [f|]; [|done]. destruct (f cs) as [h|] eqn:Ef; [|done]. seq_inv H.
      injection H as <- _ _. apply Nat.eqb_neq in E. set (p := fun c => _) in *.
      pose proof (find_index_le p cs). destruct (find_index_split p cs) as (_ & c & _ & _ & E2 & E3 & _); [lia|].
      exists c. split; [done|]. split; [by eapply list_elem_of_lookup_2|]. exists f. split; [done|].
      by apply bool_decide_eq_true in E3 as ->.
Qed.

(** ** The selection *)

(** The service after [c] was chosen. *)
Definition after_choice (s : SequenceService) (k : Z) (x : Sequencer) (c : RequestSnapshot) (r : Request)
    (state draws : Z) : SequenceService :=
  with_mutations
    (with_sequencer
       (with_requests s (<[h_slot (rq_handle c) := retire r]> (sv_requests s))
          (next_request_slot s) (next_request_order s) (live_requests s - 1))
       k (with_choice x (rq_handle c) state draws)) (mutations s + 1).

Lemma select_request_done v h s x status choice s' :
  arbitration_ok s -> sequencer v s h = Done x -> select_request v h s = Done (status, choice, s') ->
  let cs := candidates_of s (sr_requests x) in
  match status with
  | Empty => sr_requests x = [] /\ choice = None /\ s' = s
  | WaitingForRelevant =>
      sr_requests x <> [] /\ cs = [] /\ choice = None
      /\ s' = with_mutations
                (with_sequencer s (h_slot h)
                   (with_policy x (sr_arbitration x) (sr_seed x) (sr_draws x) (sr_waits x + 1) (sr_random_state x)))
                (mutations s + 1)
  | Selected =>
      exists c r state draws, choice = Some c /\ c ∈ cs /\ rightful x cs c /\ request v s (rq_handle c) = Done r
        /\ req_value r = c /\ s' = after_choice s (h_slot h) x c r state draws
  end.
Proof.
  intros Hok Hx H. destruct (sequencer_done _ _ _ _ Hx) as [Hk _]. unfold select_request in H. seq_inv H.
  rewrite Hx in E0. injection E0 as <-. destruct (decide (sr_requests x = [])) as [Eq|Hq]; [by injection H as <- <- <-|].
  seq_inv H. destruct u as [cs w]. apply collect_done in E1 as [-> _]; [|done].
  pose proof (candidates_priority _ _ _ Hok Hk) as Hp. destruct (decide (candidates_of s (sr_requests x) = [])) as [Ec|Hc].
  - seq_inv H. by injection H as <- <- <-.
  - seq_inv H. destruct u as [[i state] draws]. destruct (pick_rightful _ _ _ _ _ _ _ E1 Hc Hp) as (c & Hi & Hr).
    rewrite Hi in H. seq_inv H. injection H as <- <- <-. pose proof (list_elem_of_lookup_2 _ _ _ Hi) as Hin.
    exists c, u, state, draws. split_and!; try done.
    destruct (candidate_spec _ _ _ _ Hok Hk Hin) as (r & Hr' & _ & E4 & _).
    apply request_done in E2 as (Hu & _ & _); [|done]. congruence.
Qed.

(** The handle of the chosen request is stale. *)
Lemma chosen_is_stale v s k x c r state draws : arbitration_ok s -> request v s (rq_handle c) = Done r ->
  request v (after_choice s k x c r state draws) (rq_handle c) = Fails kInvalidHandle "UVM sequence request is stale".
Proof.
  intros Hok H. unfold request in *. seq_inv H. cbn. rewrite E, E0. cbn. by rewrite lookup_insert_eq.
Qed.

(** ** Every call preserves the invariant *)

Lemma select_request_ok v h s status choice s' : arbitration_ok s ->
  select_request v h s = Done (status, choice, s') -> arbitration_ok s'.
Proof.
  intros Hok H. destruct (sequencer v s h) as [x|] eqn:Hx.
  2: { unfold select_request in H. seq_inv H. congruence. }
  destruct (sequencer_done _ _ _ _ Hx) as [Hk _].
  pose proof (select_request_done _ _ _ _ _ _ _ Hok Hx H) as S. cbn zeta in S. destruct status.
  - destruct S as (c & r & state & draws & _ & Hin & _ & Hr & <- & ->).
    destruct (candidate_spec _ _ _ _ Hok Hk Hin) as (_ & _ & _ & _ & _ & E & _).
    rewrite <- E in *. apply request_done in Hr as (? & ? & ?); [|done]. by apply (retire_ok s _ r x).
  - by destruct S as (_ & _ & ->).
  - destruct S as (_ & _ & _ & ->). by apply (policy_ok s _ x).
Qed.

Lemma cancel_request_ok v h s s' : arbitration_ok s -> cancel_request v h s = Done s' -> arbitration_ok s'.
Proof.
  intros Hok H. unfold cancel_request in H. seq_inv H. injection H as <-.
  apply request_done in E0 as (? & ? & ?); [|done]. apply sequencer_done in E1 as [? _]. by apply (retire_ok s h u u0).
Qed.

Lemma set_request_relevant_ok v h b s s' : arbitration_ok s -> set_request_relevant v h b s = Done s' ->
  arbitration_ok s'.
Proof.
  intros Hok H. unfold set_request_relevant in H. seq_inv H. injection H as <-.
  apply request_done in E0 as (? & ? & ?); [|done]. apply sequencer_done in E1 as [? _].
  by eapply (policy_ok (with_requests s _ _ _ _)); [apply relevance_ok|..].
Qed.

Lemma enqueue_request_ok v d s h s' : 0 <= rd_priority d -> arbitration_ok s -> enqueue_request v d s = Done (h, s') ->
  arbitration_ok s'.
Proof.
  intros Hd Hok H. unfold enqueue_request in H. seq_inv H. destruct (sv_requests s !! next_request_slot s); [done|].
  injection H as <- <-. apply sequencer_done in E2 as [? _].
  apply orb_false_iff in E6 as [P1 P2]. repeat apply orb_false_iff in E7 as [E7 ?].
  eapply (enqueue_ok s _ u0 (mkRequest _ _ _ _)); cbn; try done; lia.
Qed.

Lemma configure_arbitration_ok v h mode_ seed s s' : arbitration_ok s ->
  configure_arbitration v h mode_ seed s = Done s' -> arbitration_ok s'.
Proof.
  intros Hok H. unfold configure_arbitration in H. seq_inv H. injection H as <-.
  apply sequencer_done in E0 as [? _]. by apply (policy_ok s _ u).
Qed.

Lemma set_user_arbitration_ok v h f s s' : arbitration_ok s ->
  set_user_arbitration v h f s = Done s' -> arbitration_ok s'.
Proof.
  intros Hok H. unfold set_user_arbitration in H. seq_inv H. destruct f; [|done]. seq_inv H. injection H as <-.
  apply sequencer_done in E0 as [? _]. by apply (policy_ok s _ u0).
Qed.

Lemma reseed_arbitration_ok v h seed s s' : arbitration_ok s ->
  reseed_arbitration v h seed s = Done s' -> arbitration_ok s'.
Proof.
  intros Hok H. unfold reseed_arbitration in H. seq_inv H. injection H as <-.
  apply sequencer_done in E0 as [? _]. by apply (policy_ok s _ u).
Qed.

(** A call of the service, and the service after it: unchanged when it throws. *)
Inductive SeqCall :=
  | CConfigure (h : SeqHandle) (mode_ : ArbitrationMode) (seed : Z)
  | CSetUser (h : SeqHandle) (f : option UserArbitration)
  | CReseed (h : SeqHandle) (seed : Z)
  | CEnqueue (d : RequestDescriptor)
  | CRollback (h : SeqHandle)
  | CSetRelevant (h : SeqHandle) (b : bool)
  | CCancel (h : SeqHandle)
  | CSelect (h : SeqHandle).

Definition after {A} (m : SeqResult A) (state : A -> SequenceService) (s : SequenceService) : SequenceService :=
  match m with Done a => state a | Fails _ _ => s end.

Definition run_call (v : Services) (c : SeqCall) (s : SequenceService) : SequenceService :=
  match c with
  | CConfigure h mode_ seed => after (configure_arbitration v h mode_ seed s) id s
  | CSetUser h f => after (set_user_arbitration v h f s) id s
  | CReseed h seed => after (reseed_arbitration v h seed s) id s
  | CEnqueue d => after (enqueue_request v d s) snd s
  | CRollback h => rollback_latest_request h s
  | CSetRelevant h b => after (set_request_relevant v h b s) id s
  | CCancel h => after (cancel_request v h s) id s
  | CSelect h => after (select_request v h s) snd s
  end.

(** Calls in turn; the object and component services may change between them. *)
Definition run_calls (calls : list (Services * SeqCall)) (s : SequenceService) : SequenceService :=
  fold_left (fun s vc => run_call vc.1 vc.2 s) calls s.

(** The priority of a request is a [std::uint32_t]. *)
Definition call_typed (c : SeqCall) : Prop :=
  match c with CEnqueue d => 0 <= rd_priority d <= U32_MAX | _ => True end.

Lemma after_call_ok {A} (m : SeqResult A) state s :
  (forall a, m = Done a -> arbitration_ok (state a)) -> arbitration_ok s -> arbitration_ok (after m state s).
Proof. destruct m as [a|]; cbn; [|done]. intros H _. by apply H. Qed.

Lemma run_call_ok v c s : call_typed c -> arbitration_ok s -> arbitration_ok (run_call v c s).
Proof.
  intros Hc Hok. destruct c; cbn in *; try (apply after_call_ok; [|done]).
  - intros s'. by apply configure_arbitration_ok.
  - intros s'. by apply set_user_arbitration_ok.
  - intros s'. by apply reseed_arbitration_ok.
  - intros [h s']. apply enqueue_request_ok; [lia|done].
  - by apply rollback_ok.
  - intros s'. by apply set_request_relevant_ok.
  - intros s'. by apply cancel_request_ok.
  - intros [[status choice] s']. by apply select_request_ok.
Qed.

Lemma run_calls_ok calls s : Forall (fun vc => call_typed vc.2) calls -> arbitration_ok s ->
  arbitration_ok (run_calls calls s).
Proof. intros Hc. revert s. induction Hc as [|vc calls H Hc IH]; intros s Hok; [done|]. apply IH. by apply run_call_ok. Qed.

(** ** Taking a request back *)

Lemma erase_handle_absent h q : h ∉ q -> erase_handle h q = q.
Proof.
  induction q as [|a q IH]; [done|]. rewrite not_elem_of_cons. intros [Ha Hq]. unfold erase_handle. cbn [List.filter].
  rewrite bool_decide_eq_false_2 by done. cbn. f_equal. by apply IH.
Qed.

Lemma erase_handle_app h a b : erase_handle h (a ++ b) = erase_handle h a ++ erase_handle h b.
Proof. apply List.filter_app. Qed.

Lemma erase_handle_self h q : erase_handle h (h :: q) = erase_handle h q.
Proof. unfold erase_handle. cbn [List.filter]. by rewrite bool_decide_eq_true_2. Qed.

Lemma fresh_not_queued s k x : arbitration_ok s -> sequencers s !! k = Some x ->
  mkSeqHandle (sv_owner s) (next_request_slot s) 1 ∉ sr_requests x.
Proof.
  intros Hok Hx Hin. destruct (qok_live _ _ _ (aok_queue _ Hok _ _ Hx) _ Hin) as (r & Hr & _).
  pose proof (rok_slot _ _ _ (aok_request _ Hok _ _ Hr)). cbn in *. lia.
Qed.

Lemma with_queue_self x q : sr_requests x = q -> with_queue x q = x.
Proof. intros <-. by destruct x. Qed.

(** The setters on explicit records. *)
Lemma with_sequencer_mk a b c d e f g h i j k l m n o key x :
  with_sequencer (mkSequenceService a b c d e f g h i j k l m n o) key x
  = mkSequenceService a b (<[key := x]> c) d e f g h i j k l m n o.
Proof. done. Qed.
Lemma with_requests_mk a b c d e f g h i j k l m n o f' g' h' i' :
  with_requests (mkSequenceService a b c d e f g h i j k l m n o) f' g' h' i'
  = mkSequenceService a b c d e f' g' h' i' j k l m n o.
Proof. done. Qed.
Lemma with_mutations_mk a b c d e f g h i j k l m n o j' :
  with_mutations (mkSequenceService a b c d e f g h i j k l m n o) j'
  = mkSequenceService a b c d e f g h i j' k l m n o.
Proof. done. Qed.

Lemma rollback_enqueue v d s h s' : arbitration_ok s -> 0 <= mutations s ->
  enqueue_request v d s = Done (h, s') -> rollback_latest_request h s' = s.
Proof.
  intros Hok Hm H. unfold enqueue_request in H. seq_inv H. destruct (sv_requests s !! next_request_slot s) eqn:Hnew; [done|].
  injection H as <- <-. apply sequencer_done in E2 as [Hx _]. pose proof (fresh_not_queued _ _ _ Hok Hx) as Hq.
  pose proof (aok_live _ Hok) as Hlive. clear E E0 E1 E3 E4 E5 E6 E7 Hok. destruct s as [a b c d' e f g i j k l m n o p].
  cbn [sv_owner sv_requests sequencers next_request_slot next_request_order live_requests mutations] in *.
  rewrite with_requests_mk, with_sequencer_mk, with_mutations_mk. unfold rollback_latest_request.
  cbn [sv_owner sv_requests sequencers h_owner h_slot h_generation]. rewrite Z.eqb_refl, lookup_insert_eq. cbn [negb].
  cbn [req_live req_generation req_value rq_sequencer]. rewrite Z.eqb_refl, lookup_insert_eq. cbn [negb orb].
  rewrite with_sequencer_mk, with_requests_mk, with_mutations_mk.
  cbn [next_request_slot next_request_order live_requests mutations rq_order sv_requests]. rewrite !Z.eqb_refl.
  change (sr_requests (with_queue u0 ?q)) with q.
  rewrite erase_handle_app, erase_handle_self, (erase_handle_absent _ (sr_requests u0)), app_nil_r by done.
  rewrite insert_insert_eq, delete_insert_id by done.
  change (with_queue (with_queue u0 _) (sr_requests u0)) with (with_queue u0 (sr_requests u0)).
  rewrite with_queue_self, insert_id by done. rewrite !(proj2 (Z.eqb_neq _ 0)) by lia. f_equal; lia.
Qed.
