(* ===== verification/UvmServing.v ===== *)
(** * Serving requests

    A sequencer in FIFO or strict-FIFO mode whose requests are all relevant serves
    every one of them, the oldest of the highest priority first; in the modes that
    draw, [pick_shares] carried to whole selections: over the 2^64 states of its
    generator, a sequencer chooses each candidate in proportion to its weight. *)
From stdpp Require Import gmap sorting.
From S2P Require Import Prelude UvmSequence UvmArbitrationRandom UvmArbitration UvmSelection.
From stdpp Require Import options.

(** [n] selections in a row, up to the first that selects nothing. *)
Fixpoint drain (v : Services) (h : SeqHandle) (n : nat) (s : SequenceService)
    : SeqResult (list RequestSnapshot * SequenceService) :=
  match n with
  | O => Done ([], s)
  | S n =>
      '(_, choice, s') ← select_request v h s;
      match choice with
      | None => Done ([], s')
      | Some c => '(cs, s'') ← drain v h n s'; Done (c :: cs, s'')
      end
  end.

(** The order of service. *)
Definition served_before (mode_ : ArbitrationMode) (a b : RequestSnapshot) : Prop :=
  match mode_ with
  | StrictFifo => rq_priority b < rq_priority a \/ rq_priority a = rq_priority b /\ rq_order a < rq_order b
  | _ => rq_order a < rq_order b
  end.

(** A queue that can be served: live owners, no relevance conditions, room for the
    work and the mutations of one selection per request. *)
Record servable (v : Services) (h : SeqHandle) (s : SequenceService) (x : Sequencer) : Prop := {
  sb_ok : arbitration_ok s;
  sb_sequencer : sequencer v s h = Done x;
  sb_mode : sr_arbitration x = Fifo \/ sr_arbitration x = StrictFifo;
  sb_requests : forall a, a ∈ sr_requests x ->
    exists r, request v s a = Done r /\ rq_relevant (req_value r) = true /\ req_is_relevant r = None;
  sb_work : size (sr_requests x) <= maximum_arbitration_work (sv_limits s);
  sb_mutations : mutations s + size (sr_requests x) <= maximum_mutations (sv_limits s);
}.

(** ** One selection *)

Section Servable.
Context (v : Services) (h : SeqHandle) (s : SequenceService) (x : Sequencer).
Context (Hs : servable v h s x).

#[local] Set Default Proof Using "All".

Lemma servable_lookup : sequencers s !! h_slot h = Some x.
Proof. by apply (sequencer_done v s h), Hs. Qed.

Lemma collect_servable q work : (forall a, a ∈ q -> a ∈ sr_requests x) ->
  work + size q <= maximum_arbitration_work (sv_limits s) ->
  collect v s q work = Done (candidates_of s q, work + size q).
Proof.
  unfold size. revert work. induction q as [|a q IH]; intros work Hq Hw; cbn [collect length] in *.
  - do 2 f_equal. lia.
  - rewrite fail_if_bind, (proj2 (Z.leb_gt _ _)) by lia.
    destruct (sb_requests _ _ _ _ Hs a) as (r & Hr & R1 & R2); [apply Hq; by left|]. rewrite Hr. cbn [mbind seq_bind].
    unfold relevant_now. rewrite R1, R2. cbn [mbind seq_bind]. rewrite IH by (try lia; intros; apply Hq; by right).
    apply request_done in Hr as (Hr & _ & _); [|apply Hs]. cbn. unfold candidates_of. cbn. unfold candidate at 2.
    rewrite Hr. cbn. unfold relevant_request. rewrite R1, R2. cbn. do 2 f_equal. lia.
Qed.

Lemma servable_candidates : length (candidates_of s (sr_requests x)) = length (sr_requests x).
Proof.
  assert (forall q, (forall a, a ∈ q -> a ∈ sr_requests x) -> length (candidates_of s q) = length q) as H; [|by apply H].
  induction q as [|a q IH]; [done|]. intros Hq. unfold candidates_of in *. cbn.
  destruct (sb_requests _ _ _ _ Hs a) as (r & Hr & R1 & R2); [apply Hq; by left|].
  apply request_done in Hr as (Hr & _ & _); [|apply Hs]. unfold candidate at 1. rewrite Hr. cbn.
  unfold relevant_request. rewrite R1, R2. cbn. f_equal. apply IH. intros. apply Hq. by right.
Qed.

(** The mode picks without drawing. *)
Lemma pick_servable limit work : sr_requests x <> [] ->
  exists i c, pick x limit work (candidates_of s (sr_requests x)) = Done (i, sr_random_state x, sr_draws x)
    /\ candidates_of s (sr_requests x) !! i = Some c.
Proof.
  intros Hne. assert (candidates_of s (sr_requests x) <> []) as Hc.
  { intros E. pose proof servable_candidates as L. rewrite E in L. by destruct (sr_requests x). }
  unfold pick. destruct (sb_mode _ _ _ _ Hs) as [->| ->].
  - destruct (candidates_of s (sr_requests x)) as [|c cs] eqn:E; [done|]. by exists 0%nat, c.
  - destruct (strict_fifo_pick _ Hc (candidates_priority _ _ _ (sb_ok _ _ _ _ Hs) servable_lookup)) as (_ & c & _ & _ & E & _).
    eexists _, c. by split.
Qed.

Lemma select_servable : sr_requests x <> [] ->
  exists c s', select_request v h s = Done (Selected, Some c, s').
Proof.
  intros Hne. destruct (pick_servable (maximum_arbitration_work (sv_limits s)) (0 + size (sr_requests x)) Hne) as (i & c & Hp & Hi).
  pose proof (list_elem_of_lookup_2 _ _ _ Hi) as Hin.
  destruct (candidate_spec _ _ _ _ (sb_ok _ _ _ _ Hs) servable_lookup Hin) as (r & Hr & L & _ & Hq & _ & R).
  assert (0 < size (sr_requests x)) as Hsize by (unfold size; destruct (sr_requests x); [done|cbn; lia]).
  exists c. unfold select_request. rewrite (aok_idle _ (sb_ok _ _ _ _ Hs)). cbn [fail_if mbind seq_bind].
  rewrite (sb_sequencer _ _ _ _ Hs). cbn [mbind seq_bind]. rewrite decide_False by done.
  pose proof (sb_mutations _ _ _ _ Hs). rewrite fail_if_bind. unfold at_mutation_limit. rewrite (proj2 (Z.leb_gt _ _)) by lia.
  rewrite collect_servable by (done || apply Hs). cbn [mbind seq_bind].
  rewrite decide_False by (intros E; by rewrite E in Hi). rewrite Hp. cbn [mbind seq_bind]. rewrite Hi.
  destruct (sb_requests _ _ _ _ Hs _ Hq) as (r' & Hr' & _). rewrite Hr'. cbn [mbind seq_bind].
  apply request_done in Hr' as (Hr' & _); [|apply Hs]. rewrite Hr in Hr'. injection Hr' as <-.
  rewrite fail_if_bind, (rok_generation _ _ _ R), L. by eexists.
Qed.
End Servable.

(** ** What a selection leaves as it was *)

Section AfterChoice.
Context (v : Services) (s : SequenceService) (k : Z) (x : Sequencer) (c : RequestSnapshot) (r : Request) (state draws : Z).
Context (Hx : sequencers s !! k = Some x).

#[local] Set Default Proof Using "All".

Let s' := after_choice s k x c r state draws.

Lemma contains_sequencer_after a : contains_sequencer v s' a = contains_sequencer v s a.
Proof.
  unfold contains_sequencer. cbn. destruct (decide (h_slot a = k)) as [E|].
  - by rewrite E, lookup_insert_eq, Hx.
  - by rewrite lookup_insert_ne by done.
Qed.

Lemma request_after a : h_slot a <> h_slot (rq_handle c) -> request v s' a = request v s a.
Proof.
  intros Hne. unfold request. cbn [sv_owner sv_requests s' after_choice with_mutations with_sequencer with_requests].
  rewrite lookup_insert_ne by done. destruct (sv_requests s !! h_slot a) as [q|]; [|done].
  by rewrite !contains_sequencer_after.
Qed.

Lemma candidate_after a : h_slot a <> h_slot (rq_handle c) -> candidate s' a = candidate s a.
Proof. intros Hne. unfold candidate. cbn. by rewrite lookup_insert_ne by done. Qed.

Lemma candidates_after q : (forall a, a ∈ q -> h_slot a <> h_slot (rq_handle c)) ->
  candidates_of s' q = candidates_of s q.
Proof.
  induction q as [|a q IH]; [done|]. intros Hq. unfold candidates_of in *. cbn.
  rewrite candidate_after by (apply Hq; by left). rewrite IH; [done|]. intros b Hb. apply Hq. by right.
Qed.

Lemma sequencer_after a y : h_slot a = k -> sequencer v s a = Done y ->
  sequencer v s' a = Done (with_choice x (rq_handle c) state draws).
Proof.
  intros E. unfold sequencer. cbn. rewrite E, lookup_insert_eq, Hx.
  intros H. seq_inv H. rewrite E0, E1. cbn in *. destruct (sr_live x && _); [|done]. seq_inv H. by rewrite E2.
Qed.
End AfterChoice.

Lemma sorted_nodup (q : list SeqHandle) : StronglySorted (fun a b => h_slot a < h_slot b) q -> NoDup q.
Proof.
  induction 1 as [|a q Hs IH Hall]; constructor; [|done]. intros Ha. rewrite Forall_forall in Hall.
  specialize (Hall a Ha). lia.
Qed.

Lemma erase_handle_length h q : NoDup q -> h ∈ q -> length q = S (length (erase_handle h q)).
Proof.
  intros Hn Hin. apply list_elem_of_split in Hin as (a & b & ->). apply NoDup_app in Hn as (_ & Hd & Hb).
  apply NoDup_cons in Hb as [Hb _]. rewrite erase_handle_app, erase_handle_self, !length_app.
  rewrite !erase_handle_absent; [cbn; lia|done|]. intros Ha. apply (Hd h Ha). by left.
Qed.

(** The chosen candidate leaves the others. *)
Lemma candidates_split s k x c : arbitration_ok s -> sequencers s !! k = Some x ->
  c ∈ candidates_of s (sr_requests x) ->
  candidates_of s (sr_requests x) ≡ₚ c :: candidates_of s (erase_handle (rq_handle c) (sr_requests x)).
Proof.
  intros Hok Hx Hc. destruct (candidate_spec _ _ _ _ Hok Hx Hc) as (r & Hr & _ & Er & Hin & _).
  assert (candidate s (rq_handle c) = Some c) as Hcand.
  { apply list_elem_of_omap in Hc as (a & Ha & E). unfold candidate in *. rewrite Hr. cbn.
    destruct (qok_live _ _ _ (aok_queue _ Hok _ _ Hx) a Ha) as (r' & Hr' & _ & Ea & _). rewrite Hr' in E. cbn in E.
    destruct (relevant_request r') eqn:Rr; [|done]. injection E as E. subst c. rewrite Ea, Hr' in Hr. injection Hr as <-.
    by rewrite Rr. }
  pose proof (sorted_nodup _ (qok_sorted _ _ _ (aok_queue _ Hok _ _ Hx))) as Hn.
  apply list_elem_of_split in Hin as (a & b & E). rewrite E in *. apply NoDup_app in Hn as (_ & Hd & Hb).
  apply NoDup_cons in Hb as [Hb _]. rewrite erase_handle_app, erase_handle_self.
  rewrite !erase_handle_absent; [|done|intros Ha; apply (Hd _ Ha); by left].
  unfold candidates_of. rewrite !omap_app. cbn. rewrite Hcand. by rewrite Permutation_middle.
Qed.

(** Candidates are in order of age. *)
Lemma candidates_sorted s k x : arbitration_ok s -> sequencers s !! k = Some x ->
  StronglySorted (fun a b => rq_order a < rq_order b) (candidates_of s (sr_requests x)).
Proof.
  intros Hok Hx. destruct (aok_queue _ Hok _ _ Hx) as [Hs Hl]. unfold candidates_of.
  assert (forall a c, a ∈ sr_requests x -> candidate s a = Some c -> rq_order c = h_slot a - 1) as Ho.
  { intros a c Ha E. destruct (Hl a Ha) as (r & Hr & _). unfold candidate in E. rewrite Hr in E. cbn in E.
    destruct (relevant_request r); [|done]. injection E as <-. apply (rok_order _ _ _ (aok_request _ Hok _ _ Hr)). }
  clear Hl. induction Hs as [|a q Hs IH Hall]; [constructor|]. cbn.
  assert (StronglySorted (fun a b => rq_order a < rq_order b) (omap (candidate s) q)) as Hq.
  { apply IH. intros. apply Ho; [by right|done]. }
  destruct (candidate s a) as [c|] eqn:E; [|done]. constructor; [done|]. apply Forall_forall. intros d Hd.
  apply list_elem_of_omap in Hd as (b & Hb & Eb). rewrite (Ho a c), (Ho b d); [|by right|done|by left|done].
  rewrite Forall_forall in Hall. specialize (Hall b Hb). lia.
Qed.

(** ** The order of service *)

(** The rightful choice of the two FIFO modes goes before every other candidate. *)
Lemma rightful_first x cs c : sr_arbitration x = Fifo \/ sr_arbitration x = StrictFifo -> rightful x cs c ->
  StronglySorted (fun a b => rq_order a < rq_order b) cs ->
  forall d, d ∈ cs -> d = c \/ served_before (sr_arbitration x) c d.
Proof.
  unfold rightful, served_before. intros [->| ->] Hr Hs d Hd.
  - destruct cs as [|a cs]; [done|]. injection Hr as ->. inversion Hs as [|? ? _ Hall]; subst.
    apply elem_of_cons in Hd as [->|Hd]; [by left|]. right. by eapply Forall_forall in Hall.
  - destruct Hr as (before & after & -> & Hb & Ha). apply elem_of_app in Hd as [Hd|Hd].
    + right. left. by eapply Forall_forall in Hb.
    + apply elem_of_cons in Hd as [->|Hd]; [by left|]. right. eapply Forall_forall in Ha; [|done]. cbn in Ha.
      apply StronglySorted_app_1_r in Hs. inversion Hs as [|? ? _ Hall]; subst.
      eapply Forall_forall in Hall; [|done]. cbn in Hall. lia.
Qed.

(** After one selection the queue can still be served, and holds the others. *)
Lemma servable_step v h s x : servable v h s x -> sr_requests x <> [] ->
  exists c s' x', select_request v h s = Done (Selected, Some c, s') /\ servable v h s' x'
    /\ sr_arbitration x' = sr_arbitration x /\ length (sr_requests x) = S (length (sr_requests x'))
    /\ candidates_of s (sr_requests x) ≡ₚ c :: candidates_of s' (sr_requests x')
    /\ Forall (served_before (sr_arbitration x) c) (candidates_of s' (sr_requests x')).
Proof.
  intros Hs Hne. destruct (select_servable _ _ _ _ Hs Hne) as (c & s' & Hsel). pose proof (sb_ok _ _ _ _ Hs) as Hok.
  pose proof (servable_lookup _ _ _ _ Hs) as Hx. pose proof (aok_queue _ Hok _ _ Hx) as [Hsorted _].
  destruct (select_request_done _ _ _ _ _ _ _ Hok (sb_sequencer _ _ _ _ Hs) Hsel)
    as (c' & r & state & draws & [= <-] & Hc & Hr & Hreq & Hval & Es').
  destruct (candidate_spec _ _ _ _ Hok Hx Hc) as (_ & _ & _ & _ & Hin & _ & _).
  pose proof (sorted_nodup _ Hsorted) as Hn. set (x' := with_choice x (rq_handle c) state draws).
  assert (forall a, a ∈ sr_requests x' -> a ∈ sr_requests x /\ h_slot a <> h_slot (rq_handle c)) as Hrest.
  { intros a [Ha Hne']%erase_handle_elem. split; [done|]. intros E. apply Hne'.
    rewrite (queue_handle _ _ _ _ Hok Hx Ha), (queue_handle _ _ _ _ Hok Hx Hin). by rewrite E. }
  assert (candidates_of s' (sr_requests x') = candidates_of s (sr_requests x')) as Ecs.
  { rewrite Es'. apply (candidates_after v); [done|]. intros a Ha. by apply Hrest. }
  pose proof (erase_handle_length _ _ Hn Hin) as Hlen. pose proof (candidates_split _ _ _ _ Hok Hx Hc) as Hperm.
  exists c, s', x'. rewrite Ecs. split_and!; [done| |done|done|done|].
  - constructor; try (subst s'; cbn [after_choice sv_limits with_mutations with_sequencer with_requests mutations]).
    + by apply (select_request_ok v h s Selected (Some c)).
    + by eapply sequencer_after; [|done|apply Hs].
    + apply Hs.
    + intros a Ha. destruct (Hrest a Ha) as [Ha' Hne']. rewrite request_after by done. by apply Hs.
    + pose proof (sb_work _ _ _ _ Hs). unfold size in *. change (sr_requests x') with (erase_handle (rq_handle c) (sr_requests x)). lia.
    + pose proof (sb_mutations _ _ _ _ Hs). unfold size in *. change (sr_requests x') with (erase_handle (rq_handle c) (sr_requests x)). lia.
  - pose proof (rightful_first _ _ _ (sb_mode _ _ _ _ Hs) Hr (candidates_sorted _ _ _ Hok Hx)) as Hfirst.
    apply Forall_forall. intros d Hd. destruct (Hfirst d ltac:(rewrite Hperm; by right)) as [->|]; [|done].
    apply list_elem_of_omap in Hd as (a & Ha & E). destruct (Hrest a Ha) as [Ha' Hne'].
    destruct (qok_live _ _ _ (aok_queue _ Hok _ _ Hx) a Ha') as (q & Hq & _ & Eq & _).
    unfold candidate in E. rewrite Hq in E. cbn in E. destruct (relevant_request q); [|done]. injection E as E. congruence.
Qed.

Lemma drain_servable n v h s x : servable v h s x -> length (sr_requests x) = n ->
  exists served s' x', drain v h n s = Done (served, s') /\ sequencer v s' h = Done x' /\ sr_requests x' = []
    /\ served ≡ₚ candidates_of s (sr_requests x) /\ StronglySorted (served_before (sr_arbitration x)) served.
Proof.
  revert s x. induction n as [|n IH]; intros s x Hs Hlen.
  - destruct (sr_requests x) eqn:E; [|done]. exists [], s, x. split_and!; try done; [apply Hs|constructor].
  - destruct (servable_step _ _ _ _ Hs) as (c & s' & x' & Hsel & Hs' & Hm & Hl & Hp & Hf); [by intros E; rewrite E in Hlen|].
    destruct (IH s' x' Hs' ltac:(lia)) as (served & s'' & x'' & Hd & Hx'' & Hq & Hperm & Hsort).
    exists (c :: served), s'', x''. cbn [drain]. rewrite Hsel. cbn [mbind seq_bind]. rewrite Hd. split_and!; try done.
    + by rewrite Hp, Hperm.
    + rewrite Hm in Hsort. constructor; [done|]. by rewrite Hperm.
Qed.

(** ** The shares of the modes that draw *)

(** Every request of a collected queue is current. *)
Lemma collect_requests v s q work cs work' : collect v s q work = Done (cs, work') ->
  forall a, a ∈ q -> exists r, request v s a = Done r.
Proof.
  revert work cs work'. induction q as [|h q IH]; intros work cs work' H a Ha; [by apply not_elem_of_nil in Ha|].
  cbn [collect] in H. seq_inv H. apply elem_of_cons in Ha as [->|Ha]; [by eexists|].
  destruct u1 as [rest w]. by eapply IH.
Qed.

Section Reseeded.
Context (v : Services) (h : SeqHandle) (s : SequenceService) (x : Sequencer).
Context (Hok : arbitration_ok s) (Hx : sequencer v s h = Done x).

#[local] Set Default Proof Using "All".

(** The service with another generator state in sequencer [h]. *)
Definition reseeded (state : Z) : SequenceService := with_sequencer s (h_slot h) (with_state x state).

Lemma reseeded_lookup : sequencers s !! h_slot h = Some x.
Proof. by apply (sequencer_done v s h). Qed.

Lemma reseeded_contains state a : contains_sequencer v (reseeded state) a = contains_sequencer v s a.
Proof.
  unfold contains_sequencer. cbn. destruct (decide (h_slot a = h_slot h)) as [E|].
  - by rewrite E, lookup_insert_eq, reseeded_lookup.
  - by rewrite lookup_insert_ne by done.
Qed.

Lemma reseeded_request state a : request v (reseeded state) a = request v s a.
Proof.
  unfold request. cbn [reseeded with_sequencer sv_owner sv_requests].
  destruct (sv_requests s !! h_slot a) as [q|]; [|done].
  by rewrite !reseeded_contains.
Qed.

Lemma reseeded_collect state q work : collect v (reseeded state) q work = collect v s q work.
Proof.
  revert work. induction q as [|a q IH]; intros work; [done|]. cbn [collect]. rewrite reseeded_request.
  change (sv_limits (reseeded state)) with (sv_limits s). rewrite !fail_if_bind. case_match; [done|].
  destruct (request v s a) as [r|]; [|done]. cbn [mbind seq_bind]. destruct (relevant_now r); [|done].
  cbn [mbind seq_bind]. by rewrite IH.
Qed.

Lemma reseeded_sequencer state : sequencer v (reseeded state) h = Done (with_state x state).
Proof.
  pose proof Hx as H. unfold sequencer in *. cbn. rewrite lookup_insert_eq. rewrite reseeded_lookup in H.
  seq_inv H. rewrite E, E0. cbn in *. destruct (sr_live x && _); [|done]. seq_inv H. by rewrite E1.
Qed.

Context (cs : list RequestSnapshot) (work : Z).
Context (Hroom : at_mutation_limit s = false) (Hcs : collect v s (sr_requests x) 0 = Done (cs, work)).

Lemma collected : cs = candidates_of s (sr_requests x).
Proof. by apply (collect_done v s _ 0 _ work). Qed.

(** A selection succeeds exactly when the mode picks. *)
Lemma select_reseeded state i c state' draws : cs !! i = Some c ->
  pick (with_state x state) (maximum_arbitration_work (sv_limits s)) work cs = Done (i, state', draws) ->
  exists s', select_request v h (reseeded state) = Done (Selected, Some c, s')
    /\ sequencers s' !! h_slot h = Some (with_choice (with_state x state) (rq_handle c) state' draws).
Proof.
  intros Hi Hp. unfold select_request. cbn [callback_active reseeded with_sequencer]. rewrite (aok_idle _ Hok).
  fold (reseeded state). rewrite fail_if_bind, reseeded_sequencer. cbn [mbind seq_bind].
  change (sr_requests (with_state x state)) with (sr_requests x).
  rewrite decide_False by (intros E; rewrite E in Hcs; injection Hcs as <- _; done).
  change (at_mutation_limit (reseeded state)) with (at_mutation_limit s). rewrite Hroom, fail_if_bind.
  rewrite reseeded_collect, Hcs. cbn [mbind seq_bind]. rewrite decide_False by (by intros ->).
  change (sv_limits (reseeded state)) with (sv_limits s). rewrite Hp. cbn [mbind seq_bind]. rewrite Hi, reseeded_request.
  pose proof (list_elem_of_lookup_2 _ _ _ Hi) as Hin. rewrite collected in Hin.
  destruct (candidate_spec _ _ _ _ Hok reseeded_lookup Hin) as (r & Hr & L & _ & Hq & _ & R).
  destruct (collect_requests v s (sr_requests x) 0 cs work Hcs _ Hq) as [r' Hr'].
  rewrite Hr'. cbn [mbind seq_bind]. apply request_done in Hr' as (Hr' & _); [|done]. rewrite Hr in Hr'. injection Hr' as <-.
  rewrite fail_if_bind, (rok_generation _ _ _ R), L. eexists. split; [done|]. cbn. by rewrite lookup_insert_eq.
Qed.

Lemma select_reseeded_inv state c s' x' :
  select_request v h (reseeded state) = Done (Selected, Some c, s') -> sequencers s' !! h_slot h = Some x' ->
  exists i state', pick (with_state x state) (maximum_arbitration_work (sv_limits s)) work cs = Done (i, state', sr_draws x')
    /\ cs !! i = Some c.
Proof.
  intros H Hx'. unfold select_request in H. seq_inv H. rewrite reseeded_sequencer in E0. injection E0 as <-.
  destruct (decide _) as [|_]; [done|]. seq_inv H. destruct u as [cs' w]. rewrite reseeded_collect in E1.
  change (sr_requests (with_state x state)) with (sr_requests x) in E1. rewrite Hcs in E1. injection E1 as <- <-.
  destruct (decide _) as [|_]; [by seq_inv H|]. seq_inv H. destruct u as [[i state'] draws].
  destruct (cs !! i) as [c'|] eqn:Hi; [|done]. seq_inv H. injection H as <- <-. cbn in Hx'.
  rewrite lookup_insert_eq in Hx'. injection Hx' as <-. by exists i, state'.
Qed.

Lemma collected_nodup : NoDup cs.
Proof.
  rewrite collected. pose proof (candidates_sorted _ _ _ Hok reseeded_lookup) as H.
  induction H as [|a l _ IH Hall]; constructor; [|done]. intros Ha. rewrite Forall_forall in Hall. specialize (Hall a Ha). lia.
Qed.

Lemma select_shares i c : draws_lots (sr_arbitration x) = true -> cs !! i = Some c ->
  zsum (weights (sr_arbitration x) cs) <= U64_MAX -> work + size cs < maximum_arbitration_work (sv_limits s) ->
  sr_draws x <> U64_MAX ->
  number_of_states
    (fun state => exists s' x', select_request v h (reseeded state) = Done (Selected, Some c, s')
                  /\ sequencers s' !! h_slot h = Some x' /\ sr_draws x' = sr_draws x + 1)
    (weight (sr_arbitration x) cs c * (2 ^ 64 / zsum (weights (sr_arbitration x) cs))).
Proof.
  intros Hm Hi Htot Hw Hd. assert (Forall (fun c => 1 <= rq_priority c) cs) as Hp.
  { rewrite collected. apply (candidates_priority _ _ _ Hok reseeded_lookup). }
  eapply number_of_states_iff; [|by apply (pick_shares x cs (maximum_arbitration_work (sv_limits s)) work i c)]. intros state _. cbn beta. split.
  - intros [state' Hpick]. destruct (select_reseeded _ _ _ _ _ Hi Hpick) as (s' & Hs & Hx'). by eexists s', _.
  - intros (s' & x' & Hs & Hx' & Ed). destruct (select_reseeded_inv _ _ _ _ Hs Hx') as (j & state' & Hpick & Hj).
    rewrite Ed in Hpick. exists state'. by rewrite <- (NoDup_lookup cs j i c collected_nodup Hj Hi).
Qed.
End Reseeded.
