(* ===== verification/UvmAccess.v ===== *)
(** * Locks and grabs of sequencers

    src/runtime/uvm_sequence_access.cpp: a sequence asks for exclusive access to
    its sequencer.  The first holder and its descendants form the stack of granted
    accesses; the others wait in the queue, grabs before locks.  When the stack
    empties, the next waiting access is granted.

    Releasing an access may throw after it has changed the service (when the next
    access cannot be granted), so these operations return the service they leave
    behind together with their result. *)
From stdpp Require Import gmap.
From S2P Require Import Prelude UvmSequence.
From stdpp Require Import options.

Definition kInvalidAccess : string := "FSIM-UVM-SEQ-010".

(** Assignments. *)
Definition with_accesses (s : SequenceService) (m : gmap Z Access) (slot_ order live : Z) : SequenceService :=
  mkSequenceService (sv_limits s) (sv_owner s) (sequencers s) (sv_sequences s) (sv_items s)
    (sv_requests s) (next_request_slot s) (next_request_order s) (live_requests s) (mutations s) (callback_active s)
    m slot_ order live.
Definition with_holders (x : Sequencer) (queue stack : list SeqHandle) (grabs : Z) : Sequencer :=
  mkSequencer (sr_component x) (sr_root x) (sr_arbitration x) (sr_seed x) (sr_draws x) (sr_waits x) (sr_requests x)
    (sr_generation x) (sr_live x) (sr_random_state x) (sr_user x) queue stack grabs.
Definition granted (a : Access) : Access :=
  let x := acc_value a in
  mkAccess (mkAccessSnapshot (ac_handle x) (ac_sequence x) (ac_sequencer x) (ac_kind x) Granted (ac_order x))
    (acc_generation a) (acc_live a).
Definition released (a : Access) : Access := mkAccess (acc_value a) (acc_generation a + 1) false.

(** ** Lookups *)

Definition access (v : Services) (s : SequenceService) (h : SeqHandle) : SeqResult Access :=
  _ ← fail_if (negb (handle_valid h)) kInvalidHandle "UVM access handle is empty";
  _ ← fail_if (negb (h_owner h =? sv_owner s)) kForeignHandle "UVM access handle belongs to another simulation";
  match accesses s !! h_slot h with
  | Some a =>
      if acc_live a && (acc_generation a =? h_generation h) then
        _ ← fail_if (negb (contains_sequence v s (ac_sequence (acc_value a)))
                     || negb (contains_sequencer v s (ac_sequencer (acc_value a))))
              kInvalidHandle "UVM access owner is stale";
        Done a
      else Fails kInvalidHandle "UVM access handle is stale"
  | None => Fails kInvalidHandle "UVM access handle is stale"
  end.

(** Whether [candidate] is [owner] or one of its descendants.  One turn per
    sequence on the way to the root; [relation_fuel] turns are enough when parents
    are older than their children. *)
Fixpoint related_loop (fuel : nat) (v : Services) (s : SequenceService) (owner candidate : SeqHandle) : SeqResult bool :=
  if handle_valid candidate then
    if bool_decide (candidate = owner) then Done true
    else match fuel with
         | O => Fails "" "out of fuel"
         | S fuel => q ← sequence v s candidate; related_loop fuel v s owner (sq_parent q)
         end
  else Done false.

Definition relation_fuel (candidate : SeqHandle) : nat := Z.to_nat (h_slot candidate).
Definition access_related (v : Services) (s : SequenceService) (owner candidate : SeqHandle) : SeqResult bool :=
  related_loop (relation_fuel candidate) v s owner candidate.

(** The loop that looks for a waiting access of the same sequence. *)
Fixpoint check_waiting (v : Services) (s : SequenceService) (h : SeqHandle) (queue : list SeqHandle) : SeqResult unit :=
  match queue with
  | [] => Done tt
  | q :: queue =>
      a ← access v s q;
      _ ← fail_if (bool_decide (ac_sequence (acc_value a) = h)) kInvalidAccess
            "UVM sequence already waits for sequencer access";
      check_waiting v s h queue
  end.

(** [std::ranges::find_if] for the first lock: its position, or the size. *)
Fixpoint find_lock (v : Services) (s : SequenceService) (queue : list SeqHandle) : SeqResult nat :=
  match queue with
  | [] => Done 0%nat
  | q :: queue =>
      a ← access v s q;
      if bool_decide (ac_kind (acc_value a) = Lock) then Done 0%nat
      else i ← find_lock v s queue; Done (S i)
  end.

(** Whether the holders of a sequencer let sequence [h] in. *)
Definition nested (v : Services) (s : SequenceService) (x : Sequencer) (h : SeqHandle) : SeqResult bool :=
  match sr_access_stack x with
  | [] => Done false
  | front :: _ => a ← access v s front; access_related v s (ac_sequence (acc_value a)) h
  end.

(** ** Requests *)

Definition request_access (v : Services) (h : SeqHandle) (kind : AccessKind) (s : SequenceService)
    : SeqResult (SeqHandle * SequenceService) :=
  q ← sequence v s h;
  _ ← fail_if (negb (handle_valid (sq_sequencer q))) kInvalidAccess
        "unbound UVM sequence cannot own sequencer access";
  x ← sequencer v s (sq_sequencer q);
  _ ← check_waiting v s h (sr_access_queue x);
  _ ← fail_if ((maximum_access_requests (sv_limits s) <=? live_accesses s) || at_mutation_limit s
               || (next_access_slot s =? U64_MAX) || (next_access_order s =? U64_MAX))
        kResourceLimit "UVM sequencer access-request ceiling exceeded";
  is_nested ← nested v s x h;
  _ ← fail_if (is_nested && (maximum_access_depth (sv_limits s) <=? size (sr_access_stack x)))
        kResourceLimit "UVM sequencer access nesting depth exceeded";
  let slot_ := next_access_slot s in
  let handle := mkSeqHandle (sv_owner s) slot_ 1 in
  let state := if bool_decide (sr_access_stack x = []) || is_nested then Granted else Pending in
  let value := mkAccessSnapshot handle h (sq_sequencer q) kind state (next_access_order s) in
  '(queue, stack) ←
    match state with
    | Granted => Done (sr_access_queue x, sr_access_stack x ++ [handle])
    | Pending =>
        match kind with
        | Grab =>
            i ← find_lock v s (sr_access_queue x);
            Done (take i (sr_access_queue x) ++ handle :: drop i (sr_access_queue x), sr_access_stack x)
        | Lock => Done (sr_access_queue x ++ [handle], sr_access_stack x)
        end
    end;
  match accesses s !! slot_ with
  | Some _ => Fails kInvalidAccess "duplicate UVM access-request slot"
  | None =>
      let s' := with_accesses s (<[slot_ := mkAccess value 1 true]> (accesses s))
                  (slot_ + 1) (next_access_order s + 1) (live_accesses s + 1) in
      Done (handle, with_mutations
                      (with_sequencer s' (h_slot (sq_sequencer q)) (with_holders x queue stack (sr_consecutive_grabs x)))
                      (mutations s + 1))
  end.

Definition request_lock (v : Services) (h : SeqHandle) := request_access v h Lock.
Definition request_grab (v : Services) (h : SeqHandle) := request_access v h Grab.

Definition has_lock (v : Services) (h : SeqHandle) (s : SequenceService) : SeqResult bool :=
  q ← sequence v s h;
  if handle_valid (sq_sequencer q) then x ← sequencer v s (sq_sequencer q); nested v s x h else Done false.

(** ** Releases *)

(** A result and the service it leaves behind. *)
Definition Left (A : Type) : Type := SeqResult A * SequenceService.

(** Continues with the result, or fails in the service it has. *)
Definition with_result {A B} (m : SeqResult A) (s : SequenceService) (k : A -> Left B) : Left B :=
  match m with Done a => k a | Fails c t => (Fails c t, s) end.

(** The position of the access to grant: the first, or the first lock when too
    many grabs were granted in a row. *)
Definition next_position (v : Services) (s : SequenceService) (x : Sequencer) : SeqResult nat :=
  if maximum_consecutive_grabs (sv_limits s) <=? sr_consecutive_grabs x then
    i ← find_lock v s (sr_access_queue x);
    Done (if (i =? length (sr_access_queue x))%nat then 0%nat else i)
  else Done 0%nat.

(** [k] is the slot of the sequencer. *)
Definition grant_next_access (v : Services) (k : Z) (s : SequenceService) : Left unit :=
  match sequencers s !! k with
  | None => (Done tt, s)
  | Some x =>
      match sr_access_queue x with
      | [] => (Done tt, s)
      | first :: _ =>
          with_result (next_position v s x) s (fun i =>
          let handle := default first (sr_access_queue x !! i) in
          with_result (access v s handle) s (fun a =>
          let grabs := if bool_decide (ac_kind (acc_value a) = Grab) then sr_consecutive_grabs x + 1 else 0 in
          (Done tt,
           with_sequencer
             (with_accesses s (<[h_slot handle := granted a]> (accesses s))
                (next_access_slot s) (next_access_order s) (live_accesses s))
             k (with_holders x (delete i (sr_access_queue x)) (sr_access_stack x ++ [handle]) grabs))))
      end
  end.

(** [selected.live = false] and the counts, with the sequencer's lists changed. *)
Definition drop_access (s : SequenceService) (k : Z) (x : Sequencer) (h : SeqHandle) (a : Access)
    (queue stack : list SeqHandle) : SequenceService :=
  with_mutations
    (with_sequencer
       (with_accesses s (<[h_slot h := released a]> (accesses s))
          (next_access_slot s) (next_access_order s) (live_accesses s - 1))
       k (with_holders x queue stack (sr_consecutive_grabs x)))
    (mutations s + 1).

Definition release_access (v : Services) (k : Z) (x : Sequencer) (h : SeqHandle) (kind : AccessKind)
    (s : SequenceService) : Left unit :=
  match last (sr_access_stack x) with
  | None => (Fails kInvalidAccess "UVM sequencer access is not held", s)
  | Some top =>
      with_result (access v s top) s (fun held =>
      with_result
        (fail_if (negb (bool_decide (ac_sequence (acc_value held) = h)) || negb (bool_decide (ac_kind (acc_value held) = kind)))
           kInvalidAccess "UVM unlock/ungrab does not match nested ownership") s (fun _ =>
      with_result
        (fail_if (at_mutation_limit s || (acc_generation held =? U64_MAX)) kResourceLimit
           "UVM access release ceiling exceeded") s (fun _ =>
      let stack := removelast (sr_access_stack x) in
      let s' := drop_access s k x top held (sr_access_queue x) stack in
      if decide (stack = []) then grant_next_access v k s' else (Done tt, s'))))
  end.

Definition unlock_kind (kind : AccessKind) (unbound : string) (v : Services) (h : SeqHandle) (s : SequenceService)
    : Left unit :=
  with_result (sequence v s h) s (fun q =>
  with_result (fail_if (negb (handle_valid (sq_sequencer q))) kInvalidAccess unbound) s (fun _ =>
  with_result (sequencer v s (sq_sequencer q)) s (fun x =>
  release_access v (h_slot (sq_sequencer q)) x h kind s))).

Definition unlock := unlock_kind Lock "unbound UVM sequence cannot unlock".
Definition ungrab := unlock_kind Grab "unbound UVM sequence cannot ungrab".

Definition cancel_access (v : Services) (h : SeqHandle) (s : SequenceService) : Left unit :=
  with_result (access v s h) s (fun a =>
  let k := h_slot (ac_sequencer (acc_value a)) in
  with_result (sequencer v s (ac_sequencer (acc_value a))) s (fun x =>
  match ac_state (acc_value a) with
  | Granted =>
      with_result
        (fail_if (negb (bool_decide (last (sr_access_stack x) = Some h))) kInvalidAccess
           "only the nested top access can be cancelled") s (fun _ =>
      release_access v k x (ac_sequence (acc_value a)) (ac_kind (acc_value a)) s)
  | Pending =>
      with_result
        (fail_if (at_mutation_limit s || (acc_generation a =? U64_MAX)) kResourceLimit
           "UVM access cancellation ceiling exceeded") s (fun _ =>
      (Done tt, drop_access s k x h a (erase_handle h (sr_access_queue x)) (sr_access_stack x)))
  end)).

(** The accesses of sequence [h], whose record is [q]: first the waiting ones. *)
Fixpoint cancel_waiting (v : Services) (h : SeqHandle) (queued : list SeqHandle) (s : SequenceService) : Left unit :=
  match queued with
  | [] => (Done tt, s)
  | a :: queued =>
      with_result (access v s a) s (fun found =>
      if bool_decide (ac_sequence (acc_value found) = h) then
        let '(r, s') := cancel_access v a s in
        with_result r s' (fun _ => cancel_waiting v h queued s')
      else cancel_waiting v h queued s)
  end.

(** Then the granted ones, from the top; one turn per holder, and one for an
    access that was granted meanwhile. *)
Fixpoint cancel_holding (fuel : nat) (v : Services) (h : SeqHandle) (k : Z) (s : SequenceService) : Left unit :=
  match fuel with
  | O => (Fails "" "out of fuel", s)
  | S fuel =>
      match sequencers s !! k ≫= fun x => last (sr_access_stack x) with
      | None => (Done tt, s)
      | Some top =>
          with_result (access v s top) s (fun held =>
          if bool_decide (ac_sequence (acc_value held) = h) then
            let '(r, s') := cancel_access v top s in
            with_result r s' (fun _ => cancel_holding fuel v h k s')
          else (Done tt, s))
      end
  end.

Definition cancel_sequence_accesses (v : Services) (h : SeqHandle) (q : SeqSequence) (s : SequenceService) : Left unit :=
  if handle_valid (sq_sequencer q) then
    with_result (sequencer v s (sq_sequencer q)) s (fun x =>
    let '(r, s') := cancel_waiting v h (sr_access_queue x) s in
    with_result r s' (fun _ =>
    cancel_holding (S (S (length (sr_access_stack x) + length (sr_access_queue x)))) v h (h_slot (sq_sequencer q)) s'))
  else (Done tt, s).

(** ** Views *)

Definition access_snapshot (v : Services) (h : SeqHandle) (s : SequenceService) : SeqResult AccessSnapshot :=
  a ← access v s h; Done (acc_value a).
Definition access_requests (v : Services) (h : SeqHandle) (s : SequenceService) : SeqResult (list SeqHandle) :=
  x ← sequencer v s h; Done (sr_access_stack x ++ sr_access_queue x).
