(* ===== verification/UvmAccessTheorems.v ===== *)
(** * Locks and grabs: exclusion, order and bounded waiting

    [access_ok] ties the table of accesses to the stacks and queues of the
    sequencers and is kept by every call, also by calls that throw.  A waiting lock
    is overtaken by a bounded number of grants. *)
From stdpp Require Import gmap sorting.
From S2P Require Import Prelude UvmSequence UvmArbitrationRandom UvmArbitration UvmAccess.
From stdpp Require Import options.

(** ** The invariant *)

Definition kind_of (m : gmap Z Access) (h : SeqHandle) : AccessKind :=
  match m !! h_slot h with Some a => ac_kind (acc_value a) | None => Lock end.
Definition sequence_of (m : gmap Z Access) (h : SeqHandle) : SeqHandle :=
  match m !! h_slot h with Some a => ac_sequence (acc_value a) | None => no_handle end.

(** The order of a queue: grabs before locks, equal kinds by age. *)
Definition before (m : gmap Z Access) (a b : SeqHandle) : Prop :=
  (kind_of m a = Grab /\ kind_of m b = Lock) \/ (kind_of m a = kind_of m b /\ h_slot a < h_slot b).

(** [h] is [owner] or a descendant. *)
Inductive descends (s : SequenceService) (owner : SeqHandle) : SeqHandle -> Prop :=
  | descends_self : descends s owner owner
  | descends_parent h q : sv_sequences s !! h_slot h = Some q -> descends s owner (sq_parent q) -> descends s owner h.

(** [h] is a live access of the sequencer of slot [k] in state [st]. *)
Definition entry (m : gmap Z Access) (k : Z) (st : AccessState) (h : SeqHandle) : Prop :=
  exists a, m !! h_slot h = Some a /\ acc_live a = true /\ ac_handle (acc_value a) = h
            /\ h_slot (ac_sequencer (acc_value a)) = k /\ ac_state (acc_value a) = st.

Record holders_ok (s : SequenceService) (k : Z) (x : Sequencer) : Prop := {
  ho_stack : forall h, h ∈ sr_access_stack x -> entry (accesses s) k Granted h;
  ho_queue : forall h, h ∈ sr_access_queue x -> entry (accesses s) k Pending h;
  ho_nodup : NoDup (sr_access_stack x);
  ho_sorted : StronglySorted (before (accesses s)) (sr_access_queue x);
  ho_family : forall front h, head (sr_access_stack x) = Some front -> h ∈ sr_access_stack x ->
    descends s (sequence_of (accesses s) front) (sequence_of (accesses s) h);
}.

Definition place (a : Access) (x : Sequencer) : list SeqHandle :=
  match ac_state (acc_value a) with Granted => sr_access_stack x | Pending => sr_access_queue x end.

Record entry_ok (s : SequenceService) (k : Z) (a : Access) : Prop := {
  en_slot : 1 <= k < next_access_slot s;
  en_handle : ac_handle (acc_value a) = mkSeqHandle (sv_owner s) k 1;
  en_generation : acc_generation a = if acc_live a then 1 else 2;
  en_placed : acc_live a = true ->
    exists x, sequencers s !! h_slot (ac_sequencer (acc_value a)) = Some x /\ ac_handle (acc_value a) ∈ place a x;
}.

Definition live_accesses_map (m : gmap Z Access) : gmap Z Access := filter (fun ka => acc_live ka.2 = true) m.

Record access_ok (s : SequenceService) : Prop := {
  ao_owner : sv_owner s <> 0;
  ao_slot : 1 <= next_access_slot s <= U64_MAX;
  ao_order : next_access_order s = next_access_slot s - 1;
  ao_entry k a : accesses s !! k = Some a -> entry_ok s k a;
  ao_holders k x : sequencers s !! k = Some x -> holders_ok s k x;
  ao_live : live_accesses s = Z.of_nat (base.size (live_accesses_map (accesses s)));
}.

(** ** One access changes *)

Lemma sorted_impl {A} (R R' : A -> A -> Prop) l :
  (forall a b, a ∈ l -> b ∈ l -> R a b -> R' a b) -> StronglySorted R l -> StronglySorted R' l.
Proof.
  intros H. induction 1 as [|a l Hs IH Hall]; constructor.
  - apply IH. intros b c Hb Hc. apply H; by right.
  - apply Forall_forall. intros b Hb. rewrite Forall_forall in Hall. apply H; [by left|by right|by apply Hall].
Qed.

Section Change.
Context (s : SequenceService) (k : Z) (x x' : Sequencer) (j : Z) (a' : Access) (slot' live' n : Z).

Let h0 := mkSeqHandle (sv_owner s) j 1.
Let m' := <[j := a']> (accesses s).
Let s' := with_mutations (with_sequencer (with_accesses s m' slot' (slot' - 1) live') k x') n.

Context (Hok : access_ok s) (Hx : sequencers s !! k = Some x).
Context (Hslot : next_access_slot s <= slot' <= U64_MAX) (Hj : 1 <= j < slot').
Context (Hhandle : ac_handle (acc_value a') = h0) (Hgen : acc_generation a' = if acc_live a' then 1 else 2)
  (Hsequencer : h_slot (ac_sequencer (acc_value a')) = k).
Context (Hold : forall a, accesses s !! j = Some a ->
  ac_kind (acc_value a) = ac_kind (acc_value a') /\ ac_sequence (acc_value a) = ac_sequence (acc_value a')
  /\ h_slot (ac_sequencer (acc_value a)) = k).
Context (Hstack : h0 ∈ sr_access_stack x' <-> acc_live a' = true /\ ac_state (acc_value a') = Granted)
  (Hqueue : h0 ∈ sr_access_queue x' <-> acc_live a' = true /\ ac_state (acc_value a') = Pending).
Context (Hstack' : forall h, h <> h0 -> h ∈ sr_access_stack x' <-> h ∈ sr_access_stack x)
  (Hqueue' : forall h, h <> h0 -> h ∈ sr_access_queue x' <-> h ∈ sr_access_queue x).
Context (Hnodup : NoDup (sr_access_stack x')) (Hsorted : StronglySorted (before m') (sr_access_queue x')).
Context (Hfamily : forall front h, head (sr_access_stack x') = Some front -> h ∈ sr_access_stack x' ->
  descends s (sequence_of m' front) (sequence_of m' h)).
Context (Hlive : live' = Z.of_nat (base.size (live_accesses_map m'))).

#[local] Set Default Proof Using "All".

Lemma slot_handle h st i : entry (accesses s) i st h -> h_slot h = j -> h = h0.
Proof. intros (a & Ha & _ & <- & _) E. rewrite (en_handle _ _ _ (ao_entry _ Hok _ _ Ha)). unfold h0. by rewrite E. Qed.

Lemma entry_other i st h : entry (accesses s) i st h -> h <> h0 -> entry m' i st h.
Proof.
  intros He Hne. pose proof (slot_handle _ _ _ He) as Hh. destruct He as (a & Ha & R). exists a. unfold m'.
  rewrite lookup_insert_ne; [done|]. intros E. by apply Hne, Hh.
Qed.

Lemma entry_here st : acc_live a' = true -> ac_state (acc_value a') = st -> entry m' k st h0.
Proof. intros. exists a'. unfold m'. cbn. by rewrite lookup_insert_eq. Qed.

Lemma descends_kept o h : descends s o h -> descends s' o h.
Proof. induction 1 as [|h q Hq _ IH]; [constructor|]. by eapply descends_parent. Qed.

Lemma change_holders_here : holders_ok s' k x'.
Proof.
  destruct (ao_holders _ Hok _ _ Hx) as [Hs Hq _ _ _].
  constructor; cbn [s' with_mutations with_sequencer with_accesses accesses]; try done.
  - intros h Hh. destruct (decide (h = h0)) as [->|Hne].
    + apply Hstack in Hh as [? ?]. by apply entry_here.
    + apply entry_other; [|done]. by apply Hs, Hstack'.
  - intros h Hh. destruct (decide (h = h0)) as [->|Hne].
    + apply Hqueue in Hh as [? ?]. by apply entry_here.
    + apply entry_other; [|done]. by apply Hq, Hqueue'.
  - intros front h Hf Hh. by apply descends_kept, Hfamily.
Qed.

(** What is known of an access stays so. *)
Lemma known_kept h : is_Some (accesses s !! h_slot h) ->
  kind_of m' h = kind_of (accesses s) h /\ sequence_of m' h = sequence_of (accesses s) h.
Proof.
  intros [a Ha]. unfold kind_of, sequence_of, m'. destruct (decide (h_slot h = j)) as [E|].
  - rewrite E in *. rewrite lookup_insert_eq, Ha. destruct (Hold a Ha) as (-> & -> & _). done.
  - by rewrite lookup_insert_ne by done.
Qed.

Lemma entry_known i st h : entry (accesses s) i st h -> is_Some (accesses s !! h_slot h).
Proof. intros (a & Ha & _). by exists a. Qed.

Lemma change_holders_other i y : i <> k -> sequencers s !! i = Some y -> holders_ok s' i y.
Proof.
  intros Hi Hy. destruct (ao_holders _ Hok _ _ Hy) as [Hs Hq Hn Hso Hf].
  assert (forall st h, entry (accesses s) i st h -> entry m' i st h) as Hkeep.
  { intros st h He. apply entry_other; [done|]. intros ->. destruct He as (a & Ha & _ & _ & E & _).
    destruct (Hold a Ha) as (_ & _ & E'). congruence. }
  constructor; cbn [s' with_mutations with_sequencer with_accesses accesses]; auto.
  - eapply sorted_impl; [|done]. intros a b Ha Hb. unfold before.
    rewrite (proj1 (known_kept _ (entry_known _ _ _ (Hq _ Ha)))). by rewrite (proj1 (known_kept _ (entry_known _ _ _ (Hq _ Hb)))).
  - intros front h Hfr Hh. assert (front ∈ sr_access_stack y) as Hin by (by apply head_Some_elem_of).
    rewrite (proj2 (known_kept _ (entry_known _ _ _ (Hs _ Hin)))), (proj2 (known_kept _ (entry_known _ _ _ (Hs _ Hh)))).
    by apply descends_kept, Hf.
Qed.

Lemma change_entry i a : m' !! i = Some a -> entry_ok s' i a.
Proof.
  intros [[<- <-]|[Hne Ha]]%lookup_insert_Some.
  - constructor; cbn; [done..|]. intros L. exists x'. rewrite Hsequencer, lookup_insert_eq, Hhandle. split; [done|].
    unfold place. destruct (ac_state (acc_value a')) eqn:E; [by apply Hqueue|by apply Hstack].
  - destruct (ao_entry _ Hok _ _ Ha) as [S H G P]. constructor; cbn; [lia|done..|].
    intros L. destruct (P L) as (y & Hy & Hin). destruct (decide (h_slot (ac_sequencer (acc_value a)) = k)) as [E|].
    + rewrite E, Hx in *. injection Hy as <-. exists x'. rewrite lookup_insert_eq. split; [done|].
      assert (ac_handle (acc_value a) <> h0) as Hh by (rewrite H; intros [= ?]; congruence).
      unfold place in *. destruct (ac_state (acc_value a)); [by apply Hqueue'|by apply Hstack'].
    + exists y. by rewrite lookup_insert_ne by done.
Qed.

Lemma change_ok : access_ok s'.
Proof.
  constructor; cbn; [apply Hok|pose proof (ao_slot _ Hok); lia|done|apply change_entry| |done].
  intros i y [[<- <-]|[Hne Hy]]%lookup_insert_Some; [apply change_holders_here|by apply change_holders_other].
Qed.
End Change.

(** The count of live accesses after one changes. *)
Lemma live_insert (m : gmap Z Access) j a : 
  Z.of_nat (base.size (live_accesses_map (<[j := a]> m)))
  = Z.of_nat (base.size (live_accesses_map m))
    - (if from_option acc_live false (m !! j) then 1 else 0) + (if acc_live a then 1 else 0).
Proof.
  unfold live_accesses_map.
  assert (base.size (filter (fun ka => acc_live ka.2 = true) m)
    = (base.size (delete j (filter (fun ka : Z * Access => acc_live ka.2 = true) m))
       + if from_option acc_live false (m !! j) then 1 else 0)%nat) as E.
  { rewrite map_size_delete. destruct (m !! j) as [b|] eqn:Hb; cbn.
    - destruct (acc_live b) eqn:L.
      + rewrite (proj2 (map_lookup_filter_Some _ _ _ _) (conj Hb L)). cbn.
        destruct (base.size _) eqn:Ez; [|lia]. apply map_size_empty_inv in Ez.
        assert (filter (fun ka : Z * Access => acc_live ka.2 = true) m !! j = Some b) as F by (by apply map_lookup_filter_Some).
        by rewrite Ez in F.
      + rewrite (proj2 (map_lookup_filter_None _ _ _)); [cbn; lia|]. right. intros b' Hb'. cbn. congruence.
    - rewrite (proj2 (map_lookup_filter_None _ _ _)) by (by left). cbn. lia. }
  destruct (acc_live a) eqn:La.
  - rewrite map_filter_insert_True by done. rewrite <- insert_delete_eq, map_size_insert_None by apply lookup_delete_eq.
    rewrite E. destruct (from_option _ _ _); lia.
  - rewrite map_filter_insert_False by (cbn; by rewrite La). rewrite map_filter_delete, E. destruct (from_option _ _ _); lia.
Qed.

(** ** Lookups *)

Lemma access_done v s h a : access_ok s -> access v s h = Done a ->
  accesses s !! h_slot h = Some a /\ acc_live a = true /\ ac_handle (acc_value a) = h.
Proof.
  intros Hok H. unfold access in H. seq_inv H. destruct (accesses s !! h_slot h) as [a0|] eqn:Ha; [|done].
  destruct (acc_live a0) eqn:L; [|done]. cbn [andb] in H. case_match; [|done]. seq_inv H. injection H as <-.
  pose proof (ao_entry _ Hok _ _ Ha) as R. destruct h as [o k g]. cbn in *.
  split_and!; [done..|]. rewrite (en_handle _ _ _ R). pose proof (en_generation _ _ _ R) as G. rewrite L in G.
  assert (o = sv_owner s) by lia. assert (g = 1) by lia. by subst.
Qed.

Lemma related_descends fuel v s o h : related_loop fuel v s o h = Done true -> descends s o h.
Proof.
  revert h. induction fuel as [|fuel IH]; intros h H; cbn [related_loop] in H; destruct (handle_valid h); try done;
    destruct (bool_decide _) eqn:E; try done.
  - apply bool_decide_eq_true in E as ->. constructor.
  - apply bool_decide_eq_true in E as ->. constructor.
  - seq_inv H. unfold sequence in E0. seq_inv E0. destruct (sv_sequences s !! h_slot h) as [q|] eqn:Hq; [|done].
    case_match; [|done]. seq_inv E0. injection E0 as <-. eapply descends_parent; [done|]. by apply IH.
Qed.

Lemma find_lock_done v s q i : access_ok s -> find_lock v s q = Done i ->
  (i <= length q)%nat /\ Forall (fun h => kind_of (accesses s) h = Grab) (take i q)
  /\ (forall h, q !! i = Some h -> kind_of (accesses s) h = Lock).
Proof.
  intros Hok. revert i. induction q as [|h q IH]; intros i H; cbn [find_lock] in H.
  - injection H as <-. split_and!; [done|constructor|]. by intros h.
  - seq_inv H. apply access_done in E as (Ha & _ & _); [|done].
    assert (kind_of (accesses s) h = ac_kind (acc_value u)) as Hk by (unfold kind_of; by rewrite Ha).
    destruct (bool_decide _) eqn:B.
    + injection H as <-. apply bool_decide_eq_true in B. split_and!; [cbn; lia|constructor|].
      intros h' [= <-]. congruence.
    + seq_inv H. injection H as <-. destruct (IH _ E) as (I1 & I2 & I3).
      apply bool_decide_eq_false in B. split_and!; [cbn; lia| |done]. cbn [take]. constructor; [|done].
      rewrite Hk. by destruct (ac_kind _).
Qed.

(** ** Lists *)

Lemma sorted_insert {A} (R : A -> A -> Prop) l1 h l2 : StronglySorted R (l1 ++ l2) ->
  (forall a, a ∈ l1 -> R a h) -> (forall b, b ∈ l2 -> R h b) -> StronglySorted R (l1 ++ h :: l2).
Proof.
  rewrite !StronglySorted_app. intros (H & H1 & H2) Ha Hb. split_and!; [|done|].
  - intros a b Hin [->|Hb']%elem_of_cons; auto.
  - constructor; [done|]. by apply Forall_forall.
Qed.

Lemma sorted_delete {A} (R : A -> A -> Prop) l i : StronglySorted R l -> StronglySorted R (delete i l).
Proof.
  intros H. revert i. induction H as [|a l Hs IH Hall]; intros i; [constructor|]. destruct i as [|i]; [done|].
  cbn. constructor; [apply IH|]. apply Forall_forall. intros b Hb. rewrite Forall_forall in Hall. apply Hall.
  by eapply elem_of_sublist; [|apply sublist_delete].
Qed.

Lemma delete_elem {A} (l : list A) i h : NoDup l -> l !! i = Some h -> forall a, a ∈ delete i l <-> a ∈ l /\ a <> h.
Proof.
  intros Hn Hi a. pose proof (delete_Permutation l i h Hi) as P. rewrite P in Hn. apply NoDup_cons in Hn as [Hh _].
  assert (a ∈ l <-> a = h \/ a ∈ delete i l) as -> by (rewrite P at 1; apply elem_of_cons).
  split; [intros Ha; split; [by right|by intros ->]|]. by intros [[->|Ha] Hne].
Qed.

(** The first lock of a sorted queue: only locks follow. *)
Lemma locks_follow (m : gmap Z Access) q i : StronglySorted (before m) q ->
  (forall h, q !! i = Some h -> kind_of m h = Lock) -> Forall (fun h => kind_of m h = Lock) (drop i q).
Proof.
  intros Hs Hi. destruct (q !! i) as [h|] eqn:E; [|rewrite drop_ge; [constructor|by apply lookup_ge_None_1]].
  rewrite <- (take_drop_middle _ _ _ E) in Hs. apply StronglySorted_app_1_r in Hs.
  rewrite (drop_S _ _ _ E). constructor; [by apply Hi|]. inversion Hs as [|? ? _ Hall]; subst.
  eapply Forall_impl; [done|]. intros b [[Hg _]|[<- _]]; [|by apply Hi]. specialize (Hi h eq_refl). congruence.
Qed.

Lemma before_nodup (m : gmap Z Access) q : StronglySorted (before m) q -> NoDup q.
Proof.
  induction 1 as [|a q Hs IH Hall]; constructor; [|done]. intros Ha. rewrite Forall_forall in Hall.
  destruct (Hall a Ha) as [[E1 E2]|[_ E]]; [congruence|lia].
Qed.

Lemma last_elem {A} (l : list A) h : last l = Some h -> l = removelast l ++ [h].
Proof.
  intros E. apply last_Some in E as [l' ->]. by rewrite removelast_last.
Qed.

(** ** Requests *)

Section Add.
Context (s : SequenceService) (k : Z) (x : Sequencer) (a : Access) (n : Z).
Context (Hok : access_ok s) (Hx : sequencers s !! k = Some x).

Let h0 := mkSeqHandle (sv_owner s) (next_access_slot s) 1.
Let m' := <[next_access_slot s := a]> (accesses s).

Context (Hhandle : ac_handle (acc_value a) = h0) (Hgen : acc_generation a = 1) (Hlive : acc_live a = true)
  (Hsequencer : h_slot (ac_sequencer (acc_value a)) = k) (Hroom : next_access_slot s <> U64_MAX).

#[local] Set Default Proof Using "All".

Definition added (queue stack : list SeqHandle) : SequenceService :=
  with_mutations
    (with_sequencer
       (with_accesses s m' (next_access_slot s + 1) (next_access_order s + 1) (live_accesses s + 1))
       k (with_holders x queue stack (sr_consecutive_grabs x))) n.

Lemma fresh_slot : accesses s !! next_access_slot s = None.
Proof.
  destruct (accesses s !! next_access_slot s) as [b|] eqn:E; [|done].
  pose proof (en_slot _ _ _ (ao_entry _ Hok _ _ E)). lia.
Qed.

Lemma fresh_handle st h : entry (accesses s) k st h -> h_slot h < next_access_slot s /\ h <> h0.
Proof.
  intros (b & Hb & _). pose proof (en_slot _ _ _ (ao_entry _ Hok _ _ Hb)). split; [lia|]. intros ->. cbn in *. lia.
Qed.

Lemma fresh_kept h : is_Some (accesses s !! h_slot h) ->
  kind_of m' h = kind_of (accesses s) h /\ sequence_of m' h = sequence_of (accesses s) h.
Proof.
  intros Hh. unfold kind_of, sequence_of, m'. rewrite !lookup_insert_ne; [done|..]; intros E; rewrite <- E, fresh_slot in Hh; by destruct Hh.
Qed.

Lemma fresh_here : kind_of m' h0 = ac_kind (acc_value a) /\ sequence_of m' h0 = ac_sequence (acc_value a).
Proof. unfold kind_of, sequence_of, m', h0. cbn. by rewrite lookup_insert_eq. Qed.

Lemma added_live : live_accesses s + 1 = Z.of_nat (base.size (live_accesses_map m')).
Proof. unfold m'. rewrite live_insert, fresh_slot, Hlive, (ao_live _ Hok). cbn. lia. Qed.

Lemma not_in_stack : h0 ∉ sr_access_stack x.
Proof. intros H. by destruct (fresh_handle _ _ (ho_stack _ _ _ (ao_holders _ Hok _ _ Hx) _ H)). Qed.
Lemma not_in_queue : h0 ∉ sr_access_queue x.
Proof. intros H. by destruct (fresh_handle _ _ (ho_queue _ _ _ (ao_holders _ Hok _ _ Hx) _ H)). Qed.

Lemma added_ok queue stack :
  (h0 ∈ stack <-> ac_state (acc_value a) = Granted) -> (h0 ∈ queue <-> ac_state (acc_value a) = Pending) ->
  (forall h, h <> h0 -> h ∈ stack <-> h ∈ sr_access_stack x) -> (forall h, h <> h0 -> h ∈ queue <-> h ∈ sr_access_queue x) ->
  NoDup stack -> StronglySorted (before m') queue ->
  (forall front h, head stack = Some front -> h ∈ stack -> descends s (sequence_of m' front) (sequence_of m' h)) ->
  access_ok (added queue stack).
Proof.
  intros H1 H2 H3 H4 H5 H6 H7. unfold added. pose proof (ao_slot _ Hok). pose proof (ao_order _ Hok) as O.
  replace (next_access_order s + 1) with (next_access_slot s + 1 - 1) by lia.
  apply (change_ok s k x); try done; try lia.
  - by rewrite Hlive.
  - intros b. by rewrite fresh_slot.
  - cbn. fold h0. rewrite Hlive, H1. naive_solver.
  - cbn. fold h0. rewrite Hlive, H2. naive_solver.
  - apply added_live.
Qed.

Lemma stack_kept h : h ∈ sr_access_stack x -> sequence_of m' h = sequence_of (accesses s) h.
Proof.
  intros H. apply fresh_kept. destruct (ho_stack _ _ _ (ao_holders _ Hok _ _ Hx) h H) as (b & Hb & _). by exists b.
Qed.

Lemma queue_sorted : StronglySorted (before m') (sr_access_queue x).
Proof.
  destruct (ao_holders _ Hok _ _ Hx) as [_ Hq _ Hs _]. eapply sorted_impl; [|done].
  assert (forall h, h ∈ sr_access_queue x -> kind_of m' h = kind_of (accesses s) h) as E.
  { intros h Hh. apply fresh_kept. destruct (Hq h Hh) as (b & Hb & _). by exists b. }
  intros b c Hb Hc. unfold before. by rewrite !E.
Qed.

Lemma added_granted_ok : ac_state (acc_value a) = Granted ->
  sr_access_stack x = [] \/ (exists front, head (sr_access_stack x) = Some front
                             /\ descends s (sequence_of (accesses s) front) (ac_sequence (acc_value a))) ->
  access_ok (added (sr_access_queue x) (sr_access_stack x ++ [h0])).
Proof.
  intros Hst Hfam. pose proof not_in_stack. pose proof not_in_queue.
  destruct (ao_holders _ Hok _ _ Hx) as [Hs Hq Hn _ Hf]. apply added_ok; [| | | | |apply queue_sorted|].
  - set_solver.
  - rewrite Hst. split; [done|]. by intros [=].
  - set_solver.
  - done.
  - apply NoDup_app. split_and!; [done|set_solver|apply NoDup_singleton].
  - intros front h Hfr Hh. destruct Hfam as [E|(front' & Hfr' & Hd)].
    + rewrite E in *. cbn in *. injection Hfr as <-. apply list_elem_of_singleton in Hh as ->. constructor.
    + rewrite head_app, Hfr' in Hfr. cbn in Hfr. injection Hfr as <-.
      pose proof (head_Some_elem_of _ _ Hfr') as Hin. rewrite (stack_kept front') by done.
      apply elem_of_app in Hh as [Hh| ->%list_elem_of_singleton].
      * rewrite stack_kept by done. by apply Hf.
      * by rewrite (proj2 fresh_here).
Qed.

Lemma added_pending_ok q1 q2 : ac_state (acc_value a) = Pending -> sr_access_queue x = q1 ++ q2 ->
  (forall h, h ∈ q1 -> kind_of (accesses s) h = Grab \/ ac_kind (acc_value a) = Lock) ->
  (forall h, h ∈ q2 -> kind_of (accesses s) h = Lock /\ ac_kind (acc_value a) = Grab) ->
  access_ok (added (q1 ++ h0 :: q2) (sr_access_stack x)).
Proof.
  intros Hst Hq12 H1 H2. pose proof not_in_stack. pose proof not_in_queue. pose proof queue_sorted as Hso.
  destruct (ao_holders _ Hok _ _ Hx) as [Hs Hq Hn _ Hf].
  assert (forall h, h ∈ sr_access_queue x -> kind_of m' h = kind_of (accesses s) h /\ h_slot h < next_access_slot s) as E.
  { intros h Hh. destruct (fresh_handle _ _ (Hq h Hh)). split; [|done]. apply fresh_kept. destruct (Hq h Hh) as (b & Hb & _). by exists b. }
  apply added_ok; [| | | |done| |].
  - rewrite Hst. split; [done|]. by intros [=].
  - rewrite Hst. set_solver.
  - done.
  - intros h Hne. rewrite Hq12. set_solver.
  - rewrite Hq12 in Hso. apply sorted_insert; [done|..].
    + intros b Hb. destruct (E b) as [Eb Lb]; [rewrite Hq12; set_solver|]. unfold before. rewrite Eb, (proj1 fresh_here).
      destruct (H1 b Hb) as [->| ->]; [destruct (ac_kind (acc_value a))|destruct (kind_of (accesses s) b)]; auto.
    + intros b Hb. destruct (E b) as [Eb Lb]; [rewrite Hq12; set_solver|]. unfold before. rewrite Eb, (proj1 fresh_here).
      destruct (H2 b Hb) as [-> ->]. auto.
  - intros front h Hfr Hh. rewrite !stack_kept by (done || by apply head_Some_elem_of). by apply Hf.
Qed.
End Add.

Lemma nested_family v s k x h : access_ok s -> sequencers s !! k = Some x -> nested v s x h = Done true ->
  exists front, head (sr_access_stack x) = Some front /\ descends s (sequence_of (accesses s) front) h.
Proof.
  intros Hok Hx H. unfold nested in H. destruct (sr_access_stack x) as [|front rest]; [done|]. seq_inv H.
  apply access_done in E as (Ha & _); [|done]. exists front. split; [done|].
  unfold sequence_of. rewrite Ha. by eapply related_descends.
Qed.

Lemma request_access_ok v h kind s h' s' : access_ok s -> request_access v h kind s = Done (h', s') -> access_ok s'.
Proof.
  intros Hok H. unfold request_access in H. seq_inv H. destruct u3 as [queue stack].
  destruct (accesses s !! next_access_slot s); [done|]. injection H as _ <-. apply sequencer_done in E1 as [Hx _].
  repeat apply orb_false_iff in E3 as [E3 ?]. set (a := mkAccess _ _ _).
  assert (next_access_slot s <> U64_MAX) as Hroom by lia.
  destruct (bool_decide (sr_access_stack u0 = []) || u2) eqn:G; cbn [ac_state] in E6.
  - injection E6 as <- <-. apply (added_granted_ok s _ u0 a); try done. apply orb_true_iff in G as [G|G].
    + left. by apply bool_decide_eq_true in G.
    + right. subst u2. by eapply nested_family.
  - pose proof (ho_sorted _ _ _ (ao_holders _ Hok _ _ Hx)) as Hs. destruct kind.
    + injection E6 as <- <-. apply (added_pending_ok s _ u0 a _ Hok Hx) with (q2 := []); try done.
      * by rewrite app_nil_r.
      * by right.
      * intros b Hb. by apply not_elem_of_nil in Hb.
    + seq_inv E6. injection E6 as <- <-. apply find_lock_done in E1 as (I1 & I2 & I3); [|done].
      pose proof (locks_follow _ _ _ Hs I3) as Hl. rewrite Forall_forall in I2, Hl.
      apply (added_pending_ok s _ u0 a); try done.
      * by rewrite take_drop.
      * intros b Hb. left. by apply I2.
      * intros b Hb. split; [by apply Hl|done].
Qed.

(** ** Releases *)

Section Drop.
Context (s : SequenceService) (k : Z) (x : Sequencer) (h : SeqHandle) (a : Access).
Context (Hok : access_ok s) (Hx : sequencers s !! k = Some x).
Context (Ha : accesses s !! h_slot h = Some a) (Hlive : acc_live a = true) (Hhandle : ac_handle (acc_value a) = h)
  (Hk : h_slot (ac_sequencer (acc_value a)) = k).

#[local] Set Default Proof Using "All".

Lemma dropped_handle : h = mkSeqHandle (sv_owner s) (h_slot h) 1.
Proof. rewrite <- Hhandle at 1. apply (en_handle _ _ _ (ao_entry _ Hok _ _ Ha)). Qed.

(** Marking the access as granted or released keeps the kinds and sequences. *)
Lemma marked_kept a' b : ac_kind (acc_value a') = ac_kind (acc_value a) -> ac_sequence (acc_value a') = ac_sequence (acc_value a) ->
  kind_of (<[h_slot h := a']> (accesses s)) b = kind_of (accesses s) b
  /\ sequence_of (<[h_slot h := a']> (accesses s)) b = sequence_of (accesses s) b.
Proof.
  intros E1 E2. unfold kind_of, sequence_of. destruct (decide (h_slot b = h_slot h)) as [E|].
  - by rewrite E, lookup_insert_eq, Ha.
  - by rewrite lookup_insert_ne by done.
Qed.

Lemma access_dropped_ok queue stack : h ∉ stack -> h ∉ queue ->
  (forall b, b <> h -> b ∈ stack <-> b ∈ sr_access_stack x) -> (forall b, b <> h -> b ∈ queue <-> b ∈ sr_access_queue x) ->
  NoDup stack -> StronglySorted (before (accesses s)) queue ->
  (stack = [] \/ head stack = head (sr_access_stack x)) ->
  access_ok (drop_access s k x h a queue stack).
Proof.
  intros H1 H2 H3 H4 H5 H6 H7. unfold drop_access. rewrite (ao_order _ Hok). pose proof dropped_handle as Eh.
  pose proof (ao_slot _ Hok). destruct (ao_entry _ Hok _ _ Ha) as [S H' G P].
  destruct (ao_holders _ Hok _ _ Hx) as [Hs Hq Hn Hso Hf].
  apply (change_ok s k x); try rewrite <- Eh; cbn; try done; try lia.
  - by rewrite G, Hlive.
  - intros b Hb. rewrite Ha in Hb. by injection Hb as <-.
  - split; [done|]. by intros [? _].
  - split; [done|]. by intros [? _].
  - eapply sorted_impl; [|done]. intros b c _ _. unfold before. by rewrite !(proj1 (marked_kept (released a) _ eq_refl eq_refl)).
  - intros front b Hfr Hb. rewrite !(proj2 (marked_kept (released a) _ eq_refl eq_refl)).
    destruct H7 as [->|H7]; [done|]. rewrite H7 in Hfr. apply (Hf front b Hfr). apply H3; [|done]. by intros ->.
  - rewrite live_insert, Ha. cbn. rewrite Hlive. rewrite (ao_live _ Hok). lia.
Qed.
End Drop.

Lemma with_result_ok {A B} (P : SequenceService -> Prop) (m : SeqResult A) s (f : A -> Left B) :
  P s -> (forall a, m = Done a -> P (snd (f a))) -> P (snd (with_result m s f)).
Proof. intros H1 H2. destruct m; [by apply H2|done]. Qed.

Lemma next_position_bound v s x i : access_ok s -> sr_access_queue x <> [] -> next_position v s x = Done i ->
  (i < length (sr_access_queue x))%nat.
Proof.
  intros Hok Hne H. assert (0 < length (sr_access_queue x))%nat by (destruct (sr_access_queue x); [done|cbn; lia]).
  unfold next_position in H. case_match; [|by injection H as <-]. seq_inv H.
  apply find_lock_done in E as (E & _); [|done]. injection H as <-. destruct (Nat.eqb_spec u (length (sr_access_queue x))); lia.
Qed.

(** The access that is granted, when one is. *)
Lemma grant_next_done v k s x r s' : access_ok s -> sequencers s !! k = Some x -> grant_next_access v k s = (r, s') ->
  s' = s \/ exists i h a, next_position v s x = Done i /\ sr_access_queue x !! i = Some h /\ access v s h = Done a
    /\ s' = with_sequencer
              (with_accesses s (<[h_slot h := granted a]> (accesses s))
                 (next_access_slot s) (next_access_order s) (live_accesses s))
              k (with_holders x (delete i (sr_access_queue x)) (sr_access_stack x ++ [h])
                   (if bool_decide (ac_kind (acc_value a) = Grab) then sr_consecutive_grabs x + 1 else 0)).
Proof.
  intros Hok Hx H. unfold grant_next_access in H. rewrite Hx in H. destruct (sr_access_queue x) as [|first q] eqn:Eq.
  { left. by injection H as _ <-. }
  rewrite <- Eq in *. destruct (next_position v s x) as [i|] eqn:Ei; cbn [with_result] in H; [|left; by injection H as _ <-].
  pose proof (next_position_bound _ _ _ _ Hok ltac:(by rewrite Eq) Ei) as Hi.
  destruct (lookup_lt_is_Some_2 _ _ Hi) as [h Eh]. rewrite Eh in H. change (default first (Some h)) with h in H.
  destruct (access v s h) as [a|] eqn:Ea; cbn [with_result] in H; [|left; by injection H as _ <-]. right. exists i, h, a. by injection H as _ <-.
Qed.

Lemma grant_next_ok v k s x : access_ok s -> sequencers s !! k = Some x -> sr_access_stack x = [] ->
  access_ok (snd (grant_next_access v k s)).
Proof.
  intros Hok Hx Hst. destruct (grant_next_access v k s) as [r s'] eqn:E. cbn.
  destruct (grant_next_done _ _ _ _ _ _ Hok Hx E) as [->|(i & h & a & _ & Hi & Ha & ->)]; [done|]. clear E.
  pose proof (list_elem_of_lookup_2 _ _ _ Hi) as Hin. apply access_done in Ha as (Ha & L & Hh); [|done].
  destruct (ao_holders _ Hok _ _ Hx) as [Hs Hq Hn Hso Hf]. destruct (Hq h Hin) as (a1 & Ha1 & _ & _ & Hk & _).
  rewrite Ha in Ha1. injection Ha1 as <-. pose proof (dropped_handle s k x h a Hok Hx Ha L Hh Hk) as Eh.
  pose proof (marked_kept s k x h a Hok Hx Ha L Hh Hk (granted a)) as Hm. pose proof (before_nodup _ _ Hso) as Hnq.
  pose proof (delete_elem _ _ _ Hnq Hi) as Hdel. pose proof (ao_slot _ Hok). pose proof (ao_entry _ Hok _ _ Ha) as [S' _ G _].
  rewrite (ao_order _ Hok), Hst. cbn [app]. set (g := if bool_decide _ then _ else _).
  apply (change_ok s k x (with_holders x (delete i (sr_access_queue x)) [h] g) (h_slot h) (granted a) _ _ (mutations s));
    try rewrite <- Eh; cbn; try done; try lia.
  - intros b Hb. rewrite Ha in Hb. by injection Hb as <-.
  - rewrite L. set_solver.
  - rewrite Hdel, L. naive_solver.
  - intros b Hne. rewrite Hst. set_solver.
  - intros b Hne. rewrite Hdel. naive_solver.
  - apply NoDup_singleton.
  - eapply sorted_impl; [|by apply sorted_delete]. intros b c _ _. unfold before. by rewrite !(proj1 (Hm _ eq_refl eq_refl)).
  - intros front b [= <-] Hb%list_elem_of_singleton. subst b. constructor.
  - rewrite live_insert, Ha. cbn. rewrite L. rewrite (ao_live _ Hok). lia.
Qed.

Lemma access_released_ok s k x h a : access_ok s -> sequencers s !! k = Some x -> last (sr_access_stack x) = Some h ->
  accesses s !! h_slot h = Some a -> acc_live a = true -> ac_handle (acc_value a) = h ->
  access_ok (drop_access s k x h a (sr_access_queue x) (removelast (sr_access_stack x))).
Proof.
  intros Hok Hx Hlast Ha L Hh. pose proof (last_elem _ _ Hlast) as Hst. destruct (ao_holders _ Hok _ _ Hx) as [Hs Hq Hn Hso Hf].
  destruct (Hs h) as (a1 & Ha1 & _ & _ & Hk & Hg); [rewrite Hst; set_solver|]. rewrite Ha in Ha1. injection Ha1 as <-.
  set (st := removelast (sr_access_stack x)) in *. rewrite Hst in Hn. apply NoDup_app in Hn as (Hn & Hd & _).
  apply access_dropped_ok; try done.
  - intros Hin. apply (Hd h Hin). set_solver.
  - intros Hin. destruct (Hq h Hin) as (a1 & Ha1 & _ & _ & _ & Hp). rewrite Ha in Ha1. injection Ha1 as <-. congruence.
  - intros b Hne. rewrite Hst. set_solver.
  - rewrite Hst. destruct st; [by left|by right].
Qed.

Lemma release_access_ok v k x h kind s : access_ok s -> sequencers s !! k = Some x ->
  access_ok (snd (release_access v k x h kind s)).
Proof.
  intros Hok Hx. unfold release_access. destruct (last (sr_access_stack x)) as [top|] eqn:Hlast; [|done].
  apply with_result_ok; [done|]. intros a Ha. apply with_result_ok; [done|]. intros _ _.
  apply with_result_ok; [done|]. intros _ _. apply access_done in Ha as (Ha & L & Hh); [|done].
  pose proof (access_released_ok s k x top a Hok Hx Hlast Ha L Hh) as Hd. destruct (decide _) as [E|]; [|done].
  eapply grant_next_ok; [done|cbn; apply lookup_insert_eq|done].
Qed.

Lemma unlock_kind_ok kind unbound v h s : access_ok s -> access_ok (snd (unlock_kind kind unbound v h s)).
Proof.
  intros Hok. unfold unlock_kind. apply with_result_ok; [done|]. intros q _. apply with_result_ok; [done|]. intros _ _.
  apply with_result_ok; [done|]. intros x Hx. apply release_access_ok; [done|]. by apply (sequencer_done v).
Qed.

Lemma cancel_access_ok v h s : access_ok s -> access_ok (snd (cancel_access v h s)).
Proof.
  intros Hok. unfold cancel_access. apply with_result_ok; [done|]. intros a Ha. apply with_result_ok; [done|]. intros x Hx.
  apply sequencer_done in Hx as [Hx _]. apply access_done in Ha as (Ha & L & Hh); [|done].
  destruct (ac_state (acc_value a)) eqn:St; apply with_result_ok; try done; intros _ _.
  - destruct (ao_holders _ Hok _ _ Hx) as [Hs Hq Hn Hso Hf]. apply access_dropped_ok; try done.
    + intros Hin. destruct (Hs h Hin) as (a1 & Ha1 & _ & _ & _ & Hg). rewrite Ha in Ha1. injection Ha1 as <-. congruence.
    + intros [_ ?]%erase_handle_elem. done.
    + intros b Hne. rewrite erase_handle_elem. naive_solver.
    + by apply erase_handle_sorted.
    + by right.
  - by apply release_access_ok.
Qed.

(** ** Calls *)

Inductive AccessCall :=
  | ALock (h : SeqHandle)
  | AGrab (h : SeqHandle)
  | AUnlock (h : SeqHandle)
  | AUngrab (h : SeqHandle)
  | ACancel (h : SeqHandle).

(** The service after a request: unchanged when it throws. *)
Definition requested (m : SeqResult (SeqHandle * SequenceService)) (s : SequenceService) : SequenceService :=
  match m with Done (_, s') => s' | Fails _ _ => s end.

Definition run_access (v : Services) (c : AccessCall) (s : SequenceService) : SequenceService :=
  match c with
  | ALock h => requested (request_lock v h s) s
  | AGrab h => requested (request_grab v h s) s
  | AUnlock h => snd (unlock v h s)
  | AUngrab h => snd (ungrab v h s)
  | ACancel h => snd (cancel_access v h s)
  end.

Definition run_accesses (calls : list (Services * AccessCall)) (s : SequenceService) : SequenceService :=
  fold_left (fun s vc => run_access vc.1 vc.2 s) calls s.

Lemma run_access_ok v c s : access_ok s -> access_ok (run_access v c s).
Proof.
  intros Hok. destruct c; cbn; [| |by apply unlock_kind_ok..|by apply cancel_access_ok].
  - destruct (request_lock v h s) as [[h' s']|] eqn:E; [|done]. by eapply request_access_ok.
  - destruct (request_grab v h s) as [[h' s']|] eqn:E; [|done]. by eapply request_access_ok.
Qed.

Lemma run_accesses_ok calls s : access_ok s -> access_ok (run_accesses calls s).
Proof. revert s. induction calls as [|c calls IH]; intros s Hok; [done|]. apply IH. by apply run_access_ok. Qed.

(** [cancel_sequence_accesses] is a number of [cancel_access] calls. *)
Definition cancels (v : Services) (hs : list SeqHandle) : list (Services * AccessCall) := map (fun h => (v, ACancel h)) hs.

Lemma run_cancels v a hs s : run_accesses (cancels v (a :: hs)) s = run_accesses (cancels v hs) (snd (cancel_access v a s)).
Proof. done. Qed.

Lemma run_cancels_app v hs hs' s :
  run_accesses (cancels v (hs ++ hs')) s = run_accesses (cancels v hs') (run_accesses (cancels v hs) s).
Proof. unfold cancels, run_accesses. by rewrite map_app, fold_left_app. Qed.

Lemma cancel_waiting_calls v h queued s :
  exists hs, snd (cancel_waiting v h queued s) = run_accesses (cancels v hs) s.
Proof.
  revert s. induction queued as [|a queued IH]; intros s; cbn [cancel_waiting]; [by exists []|].
  destruct (access v s a) as [found|]; cbn [with_result]; [|by exists []]. case_match; [|apply IH].
  destruct (cancel_access v a s) as [r s'] eqn:E. destruct r as [[]|]; cbn [with_result].
  - destruct (IH s') as [hs Hs]. exists (a :: hs). by rewrite run_cancels, E.
  - exists [a]. by rewrite run_cancels, E.
Qed.

Lemma cancel_holding_calls fuel v h k s :
  exists hs, snd (cancel_holding fuel v h k s) = run_accesses (cancels v hs) s.
Proof.
  revert s. induction fuel as [|fuel IH]; intros s; cbn [cancel_holding]; [by exists []|].
  destruct (_ ≫= _) as [top|]; [|by exists []]. destruct (access v s top) as [held|]; cbn [with_result]; [|by exists []].
  case_match; [|by exists []]. destruct (cancel_access v top s) as [r s'] eqn:E. destruct r as [[]|]; cbn [with_result].
  - destruct (IH s') as [hs Hs]. exists (top :: hs). by rewrite run_cancels, E.
  - exists [top]. by rewrite run_cancels, E.
Qed.

Lemma cancel_sequence_calls v h q s :
  exists hs, snd (cancel_sequence_accesses v h q s) = run_accesses (cancels v hs) s.
Proof.
  unfold cancel_sequence_accesses. case_match; [|by exists []]. destruct (sequencer v s _) as [x|]; cbn [with_result]; [|by exists []].
  destruct (cancel_waiting_calls v h (sr_access_queue x) s) as [hs Hs].
  destruct (cancel_waiting v h (sr_access_queue x) s) as [r s']. cbn in Hs. destruct r as [[]|]; cbn [with_result]; [|by exists hs].
  destruct (cancel_holding_calls (S (S (length (sr_access_stack x) + length (sr_access_queue x)))) v h
              (h_slot (sq_sequencer q)) s') as [hs' Hs'].
  exists (hs ++ hs'). by rewrite run_cancels_app, <- Hs.
Qed.

(** ** The descent of sequences is decided *)

(** Parents are older than their children. *)
Definition parents_ok (s : SequenceService) : Prop :=
  forall k q, sv_sequences s !! k = Some q -> 1 <= k /\ 0 <= h_slot (sq_parent q) < k
    /\ (handle_valid (sq_parent q) = false -> sv_sequences s !! h_slot (sq_parent q) = None).

Lemma sequence_done v s h q : sequence v s h = Done q -> sv_sequences s !! h_slot h = Some q.
Proof.
  unfold sequence. intros H. seq_inv H. destruct (sv_sequences s !! h_slot h) as [q0|]; [|done].
  case_match; [|done]. seq_inv H. by injection H as <-.
Qed.

Lemma related_exact fuel v s o h b : parents_ok s -> handle_valid o = true ->
  (handle_valid h = false -> sv_sequences s !! h_slot h = None) -> related_loop fuel v s o h = Done b ->
  b = true <-> descends s o h.
Proof.
  intros Hp Ho Hh H. split; [intros ->; by eapply related_descends|]. intros D. revert fuel Hh H.
  induction D as [|h q Hq D IH]; intros fuel Hh H; destruct fuel as [|fuel]; cbn [related_loop] in H.
  1,2: rewrite Ho, bool_decide_eq_true_2 in H by done; by injection H as <-.
  - destruct (handle_valid h) eqn:V; [|by rewrite Hh in Hq]. case_match; [by injection H as <-|done].
  - destruct (handle_valid h) eqn:V; [|by rewrite Hh in Hq]. case_match; [by injection H as <-|]. seq_inv H.
    apply sequence_done in E. rewrite Hq in E. injection E as <-. apply (IH fuel); [|done]. by apply (Hp _ _ Hq).
Qed.

(** The walk to the root never runs out of fuel. *)
Lemma sequence_lookup_fails v s h code_ message : sequence v s h = Fails code_ message -> code_ <> ""%string.
Proof.
  unfold sequence, fail_if. intros H. repeat (case_match; cbn in H; try (by injection H as <- _)). done.
Qed.

Lemma related_fuel fuel v s o h message : parents_ok s -> 0 <= h_slot h <= Z.of_nat fuel ->
  related_loop fuel v s o h <> Fails "" message.
Proof.
  intros Hp. revert h. induction fuel as [|fuel IH]; intros h Hf; cbn [related_loop]; destruct (handle_valid h) eqn:V; try done.
  - unfold handle_valid in V. exfalso. assert (h_slot h = 0) as E by lia. rewrite E in V. cbn in V. lia.
  - case_match; [done|]. destruct (sequence v s h) as [q|c t] eqn:E; cbn [mbind seq_bind].
    + apply sequence_done in E. destruct (Hp _ _ E) as (? & ? & _). apply IH. lia.
    + intros [= -> _]. by apply sequence_lookup_fails in E.
Qed.

(** ** Bounded waiting *)

Definition known_same (m m' : gmap Z Access) : Prop :=
  forall b, is_Some (m !! h_slot b) -> is_Some (m' !! h_slot b) /\ kind_of m' b = kind_of m b.

(** From [s] to [s'] the sequencer of slot [k] grants nothing from its queue. *)
Record quiet (k : Z) (s s' : SequenceService) : Prop := {
  qu_limits : sv_limits s' = sv_limits s;
  qu_next : next_access_slot s <= next_access_slot s';
  qu_known : known_same (accesses s) (accesses s');
  qu_lists : exists x x', sequencers s !! k = Some x /\ sequencers s' !! k = Some x'
    /\ sr_consecutive_grabs x' = sr_consecutive_grabs x
    /\ (forall b, b ∈ sr_access_queue x' -> b ∈ sr_access_queue x \/ next_access_slot s <= h_slot b)
    /\ (forall b, b ∈ sr_access_stack x' -> b ∈ sr_access_stack x \/ next_access_slot s <= h_slot b);
}.

Lemma known_same_refl m : known_same m m.
Proof. by intros b. Qed.

Lemma quiet_refl k s x : sequencers s !! k = Some x -> quiet k s s.
Proof. intros Hx. constructor; [done|done|apply known_same_refl|]. exists x, x. split_and!; auto. Qed.

Lemma quiet_trans k s1 s2 s3 : quiet k s1 s2 -> quiet k s2 s3 -> quiet k s1 s3.
Proof.
  intros [L1 N1 K1 (x1 & x2 & Hx1 & Hx2 & C1 & Q1 & T1)] [L2 N2 K2 (y2 & x3 & Hy2 & Hx3 & C2 & Q2 & T2)].
  rewrite Hx2 in Hy2. injection Hy2 as <-. constructor; [congruence|lia| |].
  - intros b Hb. destruct (K1 b Hb) as [I1 E1]. destruct (K2 b I1) as [I2 E2]. split; [done|congruence].
  - exists x1, x3. split_and!; [done..|congruence| |].
    + intros b [Hb|Hb]%Q2; [auto|right; lia].
    + intros b [Hb|Hb]%T2; [auto|right; lia].
Qed.

Lemma known_mark (m : gmap Z Access) h a a' : m !! h_slot h = Some a -> ac_kind (acc_value a') = ac_kind (acc_value a) ->
  known_same m (<[h_slot h := a']> m).
Proof.
  intros Ha E b Hb. unfold kind_of. destruct (decide (h_slot b = h_slot h)) as [Eb|].
  - rewrite Eb, lookup_insert_eq, Ha. by split.
  - by rewrite lookup_insert_ne by done.
Qed.

Lemma known_add (m : gmap Z Access) j a : m !! j = None -> known_same m (<[j := a]> m).
Proof.
  intros Hj b Hb. unfold kind_of. rewrite lookup_insert_ne; [done|]. intros E. rewrite <- E, Hj in Hb. by destruct Hb.
Qed.

(** A change of one sequencer, seen from any sequencer. *)
Lemma quiet_change k s k' x x' y m' slot_ live n :
  sequencers s !! k' = Some x -> sequencers s !! k = Some y -> known_same (accesses s) m' ->
  next_access_slot s <= slot_ -> sr_consecutive_grabs x' = sr_consecutive_grabs x ->
  (forall b, b ∈ sr_access_queue x' -> b ∈ sr_access_queue x \/ next_access_slot s <= h_slot b) ->
  (forall b, b ∈ sr_access_stack x' -> b ∈ sr_access_stack x \/ next_access_slot s <= h_slot b) ->
  forall order, quiet k s (with_mutations (with_sequencer (with_accesses s m' slot_ order live) k' x') n).
Proof.
  intros Hx Hy Hm Hn Hc Hq Hs order. constructor; cbn; [done|done|done|]. destruct (decide (k = k')) as [->|].
  - exists x, x'. rewrite lookup_insert_eq. rewrite Hx in Hy. injection Hy as <-. auto.
  - exists y, y. rewrite lookup_insert_ne by done. split_and!; auto.
Qed.

Lemma request_quiet v h kind s h' s' k y : access_ok s -> sequencers s !! k = Some y ->
  request_access v h kind s = Done (h', s') -> quiet k s s'.
Proof.
  intros Hok Hy H. unfold request_access in H. seq_inv H. destruct u3 as [queue stack].
  destruct (accesses s !! next_access_slot s) eqn:Hnew; [done|]. injection H as _ <-. apply sequencer_done in E1 as [Hx _].
  eapply quiet_change; [done|done|by apply known_add|lia|done|..]; cbn [with_holders sr_access_queue sr_access_stack].
  - intros b Hb. destruct (bool_decide _ || u2); cbn in E6; [injection E6 as <- <-; auto|]. destruct kind.
    + injection E6 as <- <-. apply elem_of_app in Hb as [Hb|Hb%list_elem_of_singleton]; [auto|]. subst b. cbn. lia.
    + seq_inv E6. injection E6 as <- <-. rewrite <- (take_drop u3 (sr_access_queue u0)).
      apply elem_of_app in Hb as [Hb|[->|Hb]%elem_of_cons]; [set_solver|cbn; lia|set_solver].
  - intros b Hb. destruct (bool_decide _ || u2); cbn in E6.
    + injection E6 as <- <-. apply elem_of_app in Hb as [Hb|Hb%list_elem_of_singleton]; [auto|]. subst b. cbn. lia.
    + destruct kind; [|seq_inv E6]; injection E6 as <- <-; auto.
Qed.

Lemma drop_quiet k s k' x y h a queue stack : sequencers s !! k' = Some x -> sequencers s !! k = Some y ->
  accesses s !! h_slot h = Some a -> (forall b, b ∈ queue -> b ∈ sr_access_queue x) ->
  (forall b, b ∈ stack -> b ∈ sr_access_stack x) -> quiet k s (drop_access s k' x h a queue stack).
Proof. intros. eapply quiet_change; [done|done|by eapply known_mark|lia|done|cbn; auto|cbn; auto]. Qed.

(** A call is quiet up to one grant at its end. *)
Definition grants_at (k : Z) (s s' : SequenceService) : Prop :=
  exists v x r, access_ok s /\ sequencers s !! k = Some x /\ sr_access_stack x = [] /\ grant_next_access v k s = (r, s').

Definition quiet_then_grant (k : Z) (s s' : SequenceService) : Prop :=
  exists s1, quiet k s s1 /\ (s' = s1 \/ exists k', grants_at k' s1 s').

Lemma grant_elsewhere k k' s s' y : k <> k' -> sequencers s !! k = Some y -> grants_at k' s s' -> quiet k s s'.
Proof.
  intros Hne Hy (v & x & r & Hok & Hx & Hst & E).
  destruct (grant_next_done _ _ _ _ _ _ Hok Hx E) as [->|(i & h & a & _ & Hi & Ha & ->)]; [by eapply quiet_refl|].
  apply access_done in Ha as (Ha & _); [|done]. constructor; cbn; [done|lia|by eapply known_mark|].
  exists y, y. rewrite lookup_insert_ne by done. split_and!; auto.
Qed.

Lemma nothing_happens k s y : sequencers s !! k = Some y -> quiet_then_grant k s s.
Proof. intros Hy. exists s. split; [by eapply quiet_refl|by left]. Qed.

Lemma release_quiet v k' x h kind s k y : access_ok s -> sequencers s !! k' = Some x -> sequencers s !! k = Some y ->
  quiet_then_grant k s (snd (release_access v k' x h kind s)).
Proof.
  intros Hok Hx Hy. unfold release_access. pose proof (nothing_happens k s y Hy) as Hrefl.
  destruct (last (sr_access_stack x)) as [top|] eqn:Hlast; [|done].
  destruct (access v s top) as [a|] eqn:Ha; cbn [with_result]; [|done]. apply access_done in Ha as (Ha & L & Hh); [|done].
  destruct (fail_if _ _ _); cbn [with_result]; [|done]. destruct (fail_if _ _ _); cbn [with_result]; [|done].
  exists (drop_access s k' x top a (sr_access_queue x) (removelast (sr_access_stack x))). split.
  - apply drop_quiet with y; try done. intros b Hb. rewrite (last_elem _ _ Hlast). set_solver.
  - destruct (decide _) as [E|]; [|by left]. right. exists k'. pose proof (access_released_ok s k' x top a Hok Hx Hlast Ha L Hh) as Hd.
    destruct (grant_next_access _ _ _) as [r s'] eqn:G. exists v, (with_holders x (sr_access_queue x) (removelast (sr_access_stack x)) (sr_consecutive_grabs x)), r.
    split_and!; [done|cbn; apply lookup_insert_eq|done|done].
Qed.

Lemma unlock_quiet kind t v h s k y : access_ok s -> sequencers s !! k = Some y ->
  quiet_then_grant k s (snd (unlock_kind kind t v h s)).
Proof.
  intros Hok Hy. pose proof (nothing_happens k s y Hy) as Hrefl. unfold unlock_kind.
  destruct (sequence v s h) as [q|]; cbn [with_result]; [|done]. destruct (fail_if _ _ _); cbn [with_result]; [|done].
  destruct (sequencer v s _) as [x|] eqn:Hx; cbn [with_result]; [|done]. apply sequencer_done in Hx as [Hx _].
  by eapply release_quiet.
Qed.

Lemma cancel_quiet v h s k y : access_ok s -> sequencers s !! k = Some y ->
  quiet_then_grant k s (snd (cancel_access v h s)).
Proof.
  intros Hok Hy. pose proof (nothing_happens k s y Hy) as Hrefl. unfold cancel_access.
  destruct (access v s h) as [a|] eqn:Ha; cbn [with_result]; [|done].
  destruct (sequencer v s _) as [x|] eqn:Hx; cbn [with_result]; [|done]. apply sequencer_done in Hx as [Hx _].
  apply access_done in Ha as (Ha & _); [|done].
  destruct (ac_state (acc_value a)); (destruct (fail_if _ _ _); cbn [with_result]; [|done]); [|by eapply release_quiet].
  eexists. split; [|by left]. apply drop_quiet with y; try done. by intros b [Hb _]%erase_handle_elem.
Qed.

Lemma call_quiet v c s k y : access_ok s -> sequencers s !! k = Some y -> quiet_then_grant k s (run_access v c s).
Proof.
  intros Hok Hy. destruct c; cbn [run_access]; [| |by eapply unlock_quiet..|by eapply cancel_quiet].
  - destruct (request_lock v h s) as [[h' s']|] eqn:E; [|by eapply nothing_happens]. exists s'. split; [by eapply request_quiet|by left].
  - destruct (request_grab v h s) as [[h' s']|] eqn:E; [|by eapply nothing_happens]. exists s'. split; [by eapply request_quiet|by left].
Qed.

(** The locks of the queue that are older than [l]. *)
Definition locks_ahead (s : SequenceService) (x : Sequencer) (l : SeqHandle) : list SeqHandle :=
  filter (fun b => kind_of (accesses s) b = Lock /\ h_slot b < h_slot l) (sr_access_queue x).

(** How many grants lock [l] may have to wait for. *)
Definition patience (k : Z) (l : SeqHandle) (s : SequenceService) : Z :=
  match sequencers s !! k with
  | None => 0
  | Some x =>
      let most := maximum_consecutive_grabs (sv_limits s) in
      Z.of_nat (length (locks_ahead s x l)) * (most + 1) + Z.max 0 (most - sr_consecutive_grabs x)
  end.

(** [l] is a lock that waits for the sequencer of slot [k]. *)
Definition waiting (k : Z) (l : SeqHandle) (s : SequenceService) : Prop :=
  exists x, sequencers s !! k = Some x /\ l ∈ sr_access_queue x /\ kind_of (accesses s) l = Lock.

(** Some access of the queue of [s] is granted in [s']. *)
Definition grants (k : Z) (s s' : SequenceService) : bool :=
  match sequencers s !! k, sequencers s' !! k with
  | Some x, Some x' => existsb (fun b => bool_decide (b ∈ sr_access_stack x')) (sr_access_queue x)
  | _, _ => false
  end.

Lemma queue_entry s k x b : access_ok s -> sequencers s !! k = Some x -> b ∈ sr_access_queue x ->
  is_Some (accesses s !! h_slot b) /\ h_slot b < next_access_slot s /\ b ∉ sr_access_stack x.
Proof.
  intros Hok Hx Hb. destruct (ao_holders _ Hok _ _ Hx) as [Hs Hq _ _ _]. destruct (Hq b Hb) as (a & Ha & _ & _ & _ & Hp).
  split_and!; [by exists a|apply (en_slot _ _ _ (ao_entry _ Hok _ _ Ha))|]. intros Hst.
  destruct (Hs b Hst) as (a' & Ha' & _ & _ & _ & Hg). congruence.
Qed.

Lemma quiet_grants k s s' : access_ok s -> quiet k s s' -> grants k s s' = false.
Proof.
  intros Hok [_ _ _ (x & x' & Hx & Hx' & _ & _ & Hs)]. unfold grants. rewrite Hx, Hx'.
  apply not_true_iff_false. intros (b & Hb & Hst)%existsb_exists. apply bool_decide_eq_true in Hst.
  apply list_elem_of_In in Hb. destruct (queue_entry _ _ _ _ Hok Hx Hb) as (_ & Hn & Hno).
  destruct (Hs b Hst) as [?|?]; [done|lia].
Qed.

Lemma locks_ahead_le s s' x x' l : NoDup (sr_access_queue x') ->
  (forall b, b ∈ locks_ahead s' x' l -> b ∈ locks_ahead s x l) ->
  (length (locks_ahead s' x' l) <= length (locks_ahead s x l))%nat.
Proof.
  intros Hn Hsub. apply submseteq_length, NoDup_submseteq; [|done]. by apply NoDup_filter.
Qed.

Lemma quiet_patience k l s s' : access_ok s -> access_ok s' -> 0 <= maximum_consecutive_grabs (sv_limits s) ->
  waiting k l s -> quiet k s s' -> patience k l s' <= patience k l s.
Proof.
  intros Hok Hok' Hm (x & Hx & Hl & _) [Hlim Hnext Hknown (x0 & x' & Hx0 & Hx' & Hc & Hq & _)].
  rewrite Hx in Hx0. injection Hx0 as <-. unfold patience. rewrite Hx, Hx', Hlim, Hc. cbn zeta.
  destruct (queue_entry _ _ _ _ Hok Hx Hl) as (_ & Hnl & _).
  assert (length (locks_ahead s' x' l) <= length (locks_ahead s x l))%nat as Hle; [|nia].
  apply locks_ahead_le; [eapply before_nodup, (ho_sorted _ _ _ (ao_holders _ Hok' _ _ Hx'))|].
  intros b [[Hk Hb] Hin]%list_elem_of_filter. apply list_elem_of_filter.
  destruct (Hq b Hin) as [Hin'|?]; [|lia]. destruct (queue_entry _ _ _ _ Hok Hx Hin') as (Hb' & _).
  destruct (Hknown b Hb') as [_ E]. rewrite <- E. done.
Qed.

(** The next access is a grab only while grabs may still be granted in a row, and
    a lock only when it is the oldest one. *)
Lemma next_access_kind v s k x i h l : access_ok s -> sequencers s !! k = Some x -> l ∈ sr_access_queue x ->
  kind_of (accesses s) l = Lock -> next_position v s x = Done i -> sr_access_queue x !! i = Some h -> h <> l ->
  match kind_of (accesses s) h with
  | Grab => sr_consecutive_grabs x < maximum_consecutive_grabs (sv_limits s)
  | Lock => h ∈ locks_ahead s x l
  end.
Proof.
  intros Hok Hx Hl Hkl Hp Hi Hne. destruct (ao_holders _ Hok _ _ Hx) as [_ _ _ Hs _].
  pose proof (list_elem_of_lookup_2 _ _ _ Hi) as Hin.
  (* no lock before [h], and [h] is a lock when grabs are exhausted *)
  assert (Forall (fun b => kind_of (accesses s) b = Grab) (take i (sr_access_queue x))
          /\ (maximum_consecutive_grabs (sv_limits s) <= sr_consecutive_grabs x -> kind_of (accesses s) h = Lock)) as [Hbefore Hex].
  { unfold next_position in Hp. destruct (Z.leb_spec (maximum_consecutive_grabs (sv_limits s)) (sr_consecutive_grabs x)).
    - seq_inv Hp. injection Hp as Hp. apply find_lock_done in E as (I1 & I2 & I3); [|done].
      destruct (Nat.eqb_spec u (length (sr_access_queue x))) as [Eu|Nu].
      + exfalso. rewrite Eu, firstn_all, Forall_forall in I2. specialize (I2 l Hl). congruence.
      + subst u. split; [done|]. intros _. by apply I3.
    - injection Hp as <-. split; [constructor|lia]. }
  destruct (kind_of (accesses s) h) eqn:Ek; [|destruct (Z.le_gt_cases (maximum_consecutive_grabs (sv_limits s)) (sr_consecutive_grabs x)) as [H|H]; [|lia]; specialize (Hex H); congruence].
  rewrite <- (take_drop_middle _ _ _ Hi) in Hs, Hl. apply StronglySorted_app_1_r in Hs. inversion Hs as [|? ? _ Hall]; subst.
  apply elem_of_app in Hl as [Hl|[->|Hl]%elem_of_cons]; [rewrite Forall_forall in Hbefore; specialize (Hbefore l Hl); congruence|done|].
  rewrite Forall_forall in Hall. destruct (Hall l Hl) as [[E _]|[_ E]]; [congruence|]. by apply list_elem_of_filter.
Qed.

Lemma grant_patience k l s s' : 0 <= maximum_consecutive_grabs (sv_limits s) -> grants_at k s s' ->
  waiting k l s -> waiting k l s' -> s' = s \/ patience k l s' + 1 <= patience k l s.
Proof.
  intros Hm (v & x & r & Hok & Hx & Hst & E) (x0 & Hx0 & Hl & Hkl) (x' & Hx' & Hl' & _). rewrite Hx in Hx0. injection Hx0 as <-.
  destruct (grant_next_done _ _ _ _ _ _ Hok Hx E) as [->|(i & h & a & Hp & Hi & Ha & ->)]; [by left|]. right.
  apply access_done in Ha as (Ha & _); [|done]. destruct (ao_holders _ Hok _ _ Hx) as [_ _ _ Hs _].
  pose proof (before_nodup _ _ Hs) as Hn. cbn in Hx'. rewrite lookup_insert_eq in Hx'. injection Hx' as <-.
  cbn in Hl'. apply (delete_elem _ _ _ Hn Hi) in Hl' as [_ Hne].
  pose proof (next_access_kind _ _ _ _ _ _ _ Hok Hx Hl Hkl Hp Hi (not_eq_sym Hne)) as Hkind.
  assert (kind_of (accesses s) h = ac_kind (acc_value a)) as Ek by (unfold kind_of; by rewrite Ha). rewrite Ek in Hkind.
  pose proof (known_mark (accesses s) h a (granted a) Ha eq_refl) as Hk. clear E.
  set (x' := with_holders _ _ _ _). set (s' := with_sequencer _ _ _). assert (sequencers s' !! k = Some x') as Hx' by apply lookup_insert_eq.
  unfold patience. rewrite Hx, Hx'. change (sv_limits s') with (sv_limits s). cbn zeta.
  change (sr_consecutive_grabs x') with (if bool_decide (ac_kind (acc_value a) = Grab) then sr_consecutive_grabs x + 1 else 0).
  assert (forall b, b ∈ locks_ahead s' x' l -> b ∈ locks_ahead s x l /\ b <> h) as Hsub.
  { intros b [[Hkb Hb] Hin]%list_elem_of_filter. apply (delete_elem _ _ _ Hn Hi) in Hin as [Hin Hbh].
    destruct (queue_entry _ _ _ _ Hok Hx Hin) as (Hb' & _). destruct (Hk b Hb') as [_ Eb]. split; [|done].
    apply list_elem_of_filter. cbn in Hkb. by rewrite <- Eb. }
  assert (NoDup (sr_access_queue x')) as Hn' by (eapply before_nodup; by apply sorted_delete).
  destruct (ac_kind (acc_value a)) eqn:Ea.
  - rewrite bool_decide_eq_false_2 by done.
    assert (S (length (locks_ahead s' x' l)) <= length (locks_ahead s x l))%nat as Hle; [|nia].
    change (length (h :: locks_ahead s' x' l) <= length (locks_ahead s x l))%nat. apply submseteq_length, NoDup_submseteq.
    + apply NoDup_cons. split; [|by apply NoDup_filter]. intros Hin. by destruct (Hsub h Hin).
    + intros b [->|Hb]%elem_of_cons; [done|by apply Hsub].
  - rewrite bool_decide_eq_true_2 by done.
    assert (length (locks_ahead s' x' l) <= length (locks_ahead s x l))%nat as Hle.
    { apply locks_ahead_le; [done|]. intros b Hb. by apply Hsub. }
    nia.
Qed.

(** ** Runs while a lock waits *)

(** [overtakes k l n s s']: calls lead from [s] to [s'] while lock [l] waits for the
    sequencer of slot [k], and [n] of them grant an access from its queue. *)
Inductive overtakes (k : Z) (l : SeqHandle) : Z -> SequenceService -> SequenceService -> Prop :=
  | overtakes_none s : waiting k l s -> overtakes k l 0 s s
  | overtakes_call n s s' v c : overtakes k l n s s' -> waiting k l (run_access v c s') ->
      overtakes k l (n + if grants k s' (run_access v c s') then 1 else 0) s (run_access v c s').

Lemma run_access_limits v c s y k : access_ok s -> sequencers s !! k = Some y -> sv_limits (run_access v c s) = sv_limits s.
Proof.
  intros Hok Hy. destruct (call_quiet v c s k y Hok Hy) as (s1 & Q & [->|(k' & (v' & x & r & Hok1 & Hx & _ & E))]).
  - apply Q.
  - destruct (grant_next_done _ _ _ _ _ _ Hok1 Hx E) as [->|(i & h & a & _ & _ & _ & ->)]; apply Q.
Qed.

Lemma call_patience k l v c s : access_ok s -> 0 <= maximum_consecutive_grabs (sv_limits s) ->
  waiting k l s -> waiting k l (run_access v c s) ->
  patience k l (run_access v c s) + (if grants k s (run_access v c s) then 1 else 0) <= patience k l s.
Proof.
  intros Hok Hm Hw Hw'. pose proof (run_access_ok v c s Hok) as Hok'. destruct Hw as (y & Hy & Hl & Hk).
  destruct (call_quiet v c s k y Hok Hy) as (s1 & Q & G). set (s' := run_access v c s) in *.
  assert (waiting k l s) as Hw by (by exists y). assert (quiet k s s' -> patience k l s' + (if grants k s s' then 1 else 0) <= patience k l s) as Hquiet.
  { intros Q'. rewrite (quiet_grants k s s' Hok Q'). pose proof (quiet_patience k l s s' Hok Hok' Hm Hw Q'). lia. }
  destruct G as [->|(k' & G)]; [by apply Hquiet|]. destruct (decide (k' = k)) as [->|Hne].
  - pose proof G as (v' & x & r & Hok1 & Hx & Hst & E).
    destruct (grant_next_done _ _ _ _ _ _ Hok1 Hx E) as [Es|(i & h & a & Hp & Hi & Ha & Es)]; [apply Hquiet; by rewrite Es|].
    assert (waiting k l s1) as Hw1.
    { exists x. destruct Hw' as (x' & Hx' & Hl' & Hk'). rewrite Es in Hx'. cbn in Hx'. rewrite lookup_insert_eq in Hx'.
      injection Hx' as <-. cbn in Hl'. split_and!; [done|by eapply elem_of_sublist; [|apply sublist_delete]|].
      destruct (queue_entry _ _ _ _ Hok Hy Hl) as (Hb & _). destruct (qu_known _ _ _ Q l Hb) as [_ ->]. done. }
    pose proof (quiet_patience k l s s1 Hok Hok1 Hm Hw Q) as P1. rewrite <- (qu_limits _ _ _ Q) in Hm.
    destruct (grant_patience k l s1 s' Hm G Hw1 Hw') as [Es'|P2]; [apply Hquiet; by rewrite Es'|].
    destruct (grants k s s'); lia.
  - apply Hquiet. destruct (qu_lists _ _ _ Q) as (_ & y1 & _ & Hy1 & _). eapply quiet_trans; [done|].
    by eapply grant_elsewhere.
Qed.

Lemma overtakes_bounded k l n s s' : access_ok s -> 0 <= maximum_consecutive_grabs (sv_limits s) ->
  overtakes k l n s s' -> access_ok s' /\ waiting k l s' /\ sv_limits s' = sv_limits s /\ patience k l s' + n <= patience k l s.
Proof.
  intros Hok Hm H. induction H as [s Hw|n s s' v c H IH Hw]; [split_and!; try done; lia|].
  destruct (IH Hok Hm) as (Hok' & Hw' & Hlim & P). rewrite <- Hlim in Hm. pose proof (call_patience k l v c s' Hok' Hm Hw' Hw) as P'.
  destruct Hw' as (y & Hy & _). split_and!; [by apply run_access_ok|done| |lia].
  by rewrite (run_access_limits _ _ _ y k).
Qed.

Lemma patience_nonneg k l s : 0 <= maximum_consecutive_grabs (sv_limits s) -> 0 <= patience k l s.
Proof. intros. unfold patience. case_match; nia. Qed.
