(* ===== verification/SequenceProperties.v ===== *)
(** * Properties: UVM sequencers

    The claims about src/runtime/uvm_sequence_arbitration.cpp and
    uvm_sequence_access.cpp, each with a witness on a sequencer that serves three
    sequences. *)
From stdpp Require Import gmap sorting.
From S2P Require Import Prelude UvmSequence UvmArbitrationRandom UvmArbitration UvmSelection UvmServing.
From S2P Require Import UvmAccess UvmAccessTheorems.
From stdpp Require Import options.

(** ** A service to run on *)

Section Fresh.

(** No request was ever made. *)
Definition fresh_service (s : SequenceService) : Prop :=
  sv_owner s <> 0 /\ callback_active s = false /\ sv_requests s = ∅ /\ next_request_slot s = 1
  /\ next_request_order s = 0 /\ live_requests s = 0
  /\ map_Forall (fun _ x => sr_requests x = []) (sequencers s).

Lemma fresh_ok s : fresh_service s -> arbitration_ok s.
Proof.
  intros (? & ? & Hr & Hslot & Ho & Hl & Hq). constructor; try done.
  - by rewrite Hslot.
  - by rewrite Hslot, Ho.
  - intros k r. by rewrite Hr, lookup_empty.
  - intros k x Hx. constructor; rewrite (Hq k x Hx); [constructor|]. intros a Ha. by apply not_elem_of_nil in Ha.
  - unfold live_map. rewrite Hr, Hl, map_filter_empty. by rewrite map_size_empty.
  - intros k k' r r'. by rewrite Hr, lookup_empty.
Qed.
End Fresh.

Definition example_services : Services := mkServices (fun _ => true) (fun _ => true) (fun _ => true) (fun _ => 1).
Definition example_sequencer (mode_ : ArbitrationMode) : Sequencer :=
  mkSequencer 7 1 mode_ 0 0 0 [] 1 true 1 None [] [] 0.
Definition example_sequence : SeqSequence := mkSeqSequence 8 no_handle (mkSeqHandle 1 1 1) 1 true false.
Definition example_service (mode_ : ArbitrationMode) : SequenceService :=
  mkSequenceService (mkSeqLimits 100 10 10 50 10 1000 10 4 2) 1 {[1 := example_sequencer mode_]}
    {[2 := example_sequence; 3 := example_sequence; 4 := example_sequence]} ∅ ∅ 1 0 0 0 false ∅ 1 0 0.
Definition example_request (k priority : Z) : Services * SeqCall :=
  (example_services, CEnqueue (mkRequestDescriptor (mkSeqHandle 1 k 1) priority true None no_handle)).
Definition example_calls : list (Services * SeqCall) := [example_request 2 1; example_request 3 5; example_request 4 5].
Definition example_busy (mode_ : ArbitrationMode) : SequenceService := run_calls example_calls (example_service mode_).

Lemma example_fresh mode_ : fresh_service (example_service mode_).
Proof. split_and!; try done. intros k x. cbn. intros [<- <-]%lookup_singleton_Some. done. Qed.

Lemma example_typed : Forall (fun vc => call_typed vc.2) example_calls.
Proof. repeat constructor; cbn; unfold U32_MAX; lia. Qed.

Lemma example_busy_ok mode_ : arbitration_ok (example_busy mode_).
Proof. apply run_calls_ok; [apply example_typed|]. apply fresh_ok, example_fresh. Qed.

(** The three requests in the queue, all relevant. *)
Definition example_handle : SeqHandle := mkSeqHandle 1 1 1.
Definition example_waiting (mode_ : ArbitrationMode) : Sequencer :=
  with_queue (example_sequencer mode_) [mkSeqHandle 1 1 1; mkSeqHandle 1 2 1; mkSeqHandle 1 3 1].
Definition example_snapshot (k sequence_ priority : Z) : RequestSnapshot :=
  mkRequestSnapshot (mkSeqHandle 1 k 1) (mkSeqHandle 1 sequence_ 1) example_handle priority true (k - 1) no_handle.

Lemma example_sequencer_found mode_ :
  sequencer example_services (example_busy mode_) example_handle = Done (example_waiting mode_).
Proof. by destruct mode_; vm_compute. Qed.

Lemma example_servable : servable example_services example_handle (example_busy StrictFifo) (example_waiting StrictFifo).
Proof.
  constructor; [apply example_busy_ok|apply example_sequencer_found|by right| |done|done].
  intros a Ha. cbn in Ha. repeat (apply elem_of_cons in Ha as [->|Ha]; [eexists; split; [by vm_compute|done]|]).
  by apply not_elem_of_nil in Ha.
Qed.

(** ** Claims *)

(** C33: a selection that returns took the candidate the arbitration mode asks for
    (FIFO: the oldest relevant request; strict FIFO: the oldest of the highest
    priority; strict random: one of the highest priority; random and weighted: a
    relevant one; user: the one the callback names), removed exactly its handle
    from the queue and made the handle stale, and left every other request alone;
    it answers [Empty] only for an empty queue and [WaitingForRelevant] only
    without a relevant request. *)
Theorem selection_is_rightful v h s x status choice s' :
  arbitration_ok s -> sequencer v s h = Done x -> select_request v h s = Done (status, choice, s') ->
  let cs := candidates_of s (sr_requests x) in
  match status with
  | Empty => sr_requests x = [] /\ choice = None /\ s' = s
  | WaitingForRelevant =>
      sr_requests x <> [] /\ cs = [] /\ choice = None /\ sv_requests s' = sv_requests s
      /\ exists x', sequencers s' = <[h_slot h := x']> (sequencers s) /\ sr_requests x' = sr_requests x
                    /\ sr_waits x' = sr_waits x + 1
  | Selected =>
      exists c x', choice = Some c /\ rightful x cs c
        /\ sequencers s' = <[h_slot h := x']> (sequencers s)
        /\ sr_requests x' = erase_handle (rq_handle c) (sr_requests x) /\ sr_waits x' = 0
        /\ request v s' (rq_handle c) = Fails kInvalidHandle "UVM sequence request is stale"
        /\ live_requests s' = live_requests s - 1
        /\ forall k, k <> h_slot (rq_handle c) -> sv_requests s' !! k = sv_requests s !! k
  end.
Proof.
  intros Hok Hx H. destruct (sequencer_done _ _ _ _ Hx) as [Hk _].
  pose proof (select_request_done _ _ _ _ _ _ _ Hok Hx H) as S. cbn zeta in *. destruct status; [|done|].
  - destruct S as (c & r & state & draws & -> & Hin & Hr & Hreq & Hval & ->).
    exists c, (with_choice x (rq_handle c) state draws). split_and!; try done.
    + by apply chosen_is_stale.
    + intros k Hne. cbn. by rewrite lookup_insert_ne.
  - destruct S as (? & ? & ? & ->). split_and!; try done. by eexists.
Qed.

Lemma selection_is_rightful_witness :
  exists s', select_request example_services example_handle (example_busy StrictFifo)
             = Done (Selected, Some (example_snapshot 2 3 5), s')
    /\ request example_services s' (mkSeqHandle 1 2 1) = Fails kInvalidHandle "UVM sequence request is stale".
Proof.
  eexists. split; [vm_compute; reflexivity|].
  destruct (selection_is_rightful example_services example_handle (example_busy StrictFifo) (example_waiting StrictFifo)
              Selected (Some (example_snapshot 2 3 5)) _ (example_busy_ok _) (example_sequencer_found _)
              ltac:(vm_compute; reflexivity)) as (c & x' & [= <-] & _ & _ & _ & _ & E & _).
  exact E.
Defined.

(** C35: in the modes that draw, of the 2^64 states of a sequencer's generator
    those whose first draw selects candidate [c] number exactly the weight of [c]
    (1 in random mode, its priority in weighted mode, 1 for the candidates of the
    highest priority and 0 for the others in strict-random mode) times [2^64] over
    the total weight: the draw has no modulo bias. *)
Theorem lots_are_proportional v h s x cs work i c :
  arbitration_ok s -> sequencer v s h = Done x -> at_mutation_limit s = false ->
  collect v s (sr_requests x) 0 = Done (cs, work) -> cs !! i = Some c ->
  draws_lots (sr_arbitration x) = true -> zsum (weights (sr_arbitration x) cs) <= U64_MAX ->
  work + size cs < maximum_arbitration_work (sv_limits s) -> sr_draws x <> U64_MAX ->
  number_of_states
    (fun state => exists s' x', select_request v h (reseeded h s x state) = Done (Selected, Some c, s')
                  /\ sequencers s' !! h_slot h = Some x' /\ sr_draws x' = sr_draws x + 1)
    (weight (sr_arbitration x) cs c * (2 ^ 64 / zsum (weights (sr_arbitration x) cs))).
Proof. intros Hok Hx Hroom Hcs Hi Hm Htot Hw Hd. by apply (select_shares v h s x Hok Hx cs work Hroom Hcs i). Qed.

Lemma lots_are_proportional_witness :
  number_of_states
    (fun state => exists s' x',
       select_request example_services example_handle
         (reseeded example_handle (example_busy Weighted) (example_waiting Weighted) state)
       = Done (Selected, Some (example_snapshot 2 3 5), s')
       /\ sequencers s' !! 1 = Some x' /\ sr_draws x' = 1)
    (5 * (2 ^ 64 / 11)).
Proof.
  exact (lots_are_proportional example_services example_handle (example_busy Weighted) (example_waiting Weighted)
           [example_snapshot 1 2 1; example_snapshot 2 3 5; example_snapshot 3 4 5] 3 1 (example_snapshot 2 3 5)
           (example_busy_ok _) (example_sequencer_found _) eq_refl ltac:(vm_compute; reflexivity) eq_refl eq_refl
           ltac:(vm_compute; discriminate) ltac:(vm_compute; reflexivity) ltac:(vm_compute; discriminate)).
Defined.

(** C38: starting from a service without requests, after any calls, whether they
    succeed or throw and however the object and component services change in
    between, the queue of each sequencer is exactly its live requests, each once
    and the oldest first; the count of live requests is right; and a sequence has
    at most one live request. *)
Theorem queues_stay_consistent calls s :
  fresh_service s -> Forall (fun vc => call_typed vc.2) calls ->
  let s' := run_calls calls s in
  (forall k x, sequencers s' !! k = Some x ->
     StronglySorted (fun a b => h_slot a < h_slot b) (sr_requests x)
     /\ forall h, h ∈ sr_requests x <->
          exists r, sv_requests s' !! h_slot h = Some r /\ req_live r = true
                    /\ rq_handle (req_value r) = h /\ h_slot (rq_sequencer (req_value r)) = k)
  /\ live_requests s' = Z.of_nat (base.size (live_map s'))
  /\ (forall k k' r r', sv_requests s' !! k = Some r -> sv_requests s' !! k' = Some r' ->
        req_live r = true -> req_live r' = true ->
        rq_sequence (req_value r) = rq_sequence (req_value r') -> k = k').
Proof.
  intros Hf Hc s'. pose proof (run_calls_ok calls s Hc (fresh_ok s Hf)) as Hok. fold s' in Hok.
  split_and!; [|apply Hok|apply Hok]. intros k x Hx. destruct (aok_queue _ Hok _ _ Hx) as [Hs Hl].
  split; [done|]. intros h. split; [apply Hl|]. intros (r & Hr & L & Hh & Hk).
  destruct (rok_queued _ _ _ (aok_request _ Hok _ _ Hr) L) as (y & Hy & Hin). rewrite Hk, Hx in Hy. injection Hy as <-.
  by rewrite <- Hh.
Qed.

Lemma queues_stay_consistent_witness : live_requests (example_busy Fifo) = Z.of_nat (base.size (live_map (example_busy Fifo))).
Proof. exact (proj1 (proj2 (queues_stay_consistent example_calls (example_service Fifo) (example_fresh _) example_typed))). Defined.

(** C39: a FIFO or strict-FIFO sequencer whose requests are all relevant, with live
    owners and room for one selection per request, serves its whole queue in as
    many selections: every request once, in strict-FIFO mode by priority and among
    equals by age, in FIFO mode by age, and the queue is empty afterwards. *)
Theorem queue_served_in_order v h s x : servable v h s x ->
  exists served s' x', drain v h (length (sr_requests x)) s = Done (served, s')
    /\ sequencer v s' h = Done x' /\ sr_requests x' = []
    /\ served ≡ₚ candidates_of s (sr_requests x) /\ StronglySorted (served_before (sr_arbitration x)) served.
Proof. intros Hs. by apply drain_servable. Qed.

Lemma queue_served_in_order_witness :
  exists served s' x', drain example_services example_handle 3 (example_busy StrictFifo) = Done (served, s')
    /\ sequencer example_services s' example_handle = Done x' /\ sr_requests x' = []
    /\ served ≡ₚ candidates_of (example_busy StrictFifo) (sr_requests (example_waiting StrictFifo))
    /\ StronglySorted (served_before StrictFifo) served.
Proof. exact (queue_served_in_order _ _ _ _ example_servable). Defined.

(** ** Claims: locks and grabs *)

(** No access was ever requested. *)
Definition no_accesses (s : SequenceService) : Prop :=
  sv_owner s <> 0 /\ accesses s = ∅ /\ next_access_slot s = 1 /\ next_access_order s = 0 /\ live_accesses s = 0
  /\ map_Forall (fun _ x => sr_access_stack x = [] /\ sr_access_queue x = []) (sequencers s).

Lemma no_accesses_ok s : no_accesses s -> access_ok s.
Proof.
  intros (? & Ha & Hslot & Ho & Hl & Hq). constructor; try done.
  - by rewrite Hslot.
  - by rewrite Hslot, Ho.
  - intros k a. by rewrite Ha, lookup_empty.
  - intros k x Hx. destruct (Hq k x Hx) as [E1 E2].
    constructor; rewrite ?E1, ?E2; [..|constructor|constructor|]; by intros b Hb%not_elem_of_nil || done.
  - unfold live_accesses_map. rewrite Ha, Hl, map_filter_empty. by rewrite map_size_empty.
Qed.

(** Sequence 2 locks the sequencer, 3 asks for a lock, 4 for a grab. *)
Definition example_accesses : list (Services * AccessCall) :=
  [(example_services, ALock (mkSeqHandle 1 2 1)); (example_services, ALock (mkSeqHandle 1 3 1));
   (example_services, AGrab (mkSeqHandle 1 4 1))].
Definition example_locked : SequenceService := run_accesses example_accesses (example_service Fifo).

Lemma example_no_accesses : no_accesses (example_service Fifo).
Proof. split_and!; try done. intros k x. cbn. intros [<- <-]%lookup_singleton_Some. done. Qed.

Lemma example_locked_ok : access_ok example_locked.
Proof. apply run_accesses_ok, no_accesses_ok, example_no_accesses. Qed.

(** C22: starting from a service without accesses, after any calls, whether they
    succeed or throw and however the object and component services change in
    between: the holders of a sequencer are the first one and descendants of its
    sequence, so unrelated sequences never hold it together, and [has_lock] is true
    only of descendants of the first holder; the stack and the queue of a sequencer
    are exactly its granted and its pending accesses; grabs wait before locks and
    accesses of one kind in the order of their requests. *)
Theorem access_is_exclusive calls s : no_accesses s ->
  let s' := run_accesses calls s in
  forall k x, sequencers s' !! k = Some x ->
    (forall front h, head (sr_access_stack x) = Some front -> h ∈ sr_access_stack x ->
       descends s' (sequence_of (accesses s') front) (sequence_of (accesses s') h))
    /\ (forall v h front, has_lock v h s' = Done true -> head (sr_access_stack x) = Some front ->
          (exists q, sequence v s' h = Done q /\ h_slot (sq_sequencer q) = k) ->
          descends s' (sequence_of (accesses s') front) h)
    /\ (forall st h, h ∈ (match st with Granted => sr_access_stack x | Pending => sr_access_queue x end)
                     <-> entry (accesses s') k st h)
    /\ StronglySorted (before (accesses s')) (sr_access_queue x) /\ NoDup (sr_access_stack x).
Proof.
  intros Hf s' k x Hx. pose proof (run_accesses_ok calls s (no_accesses_ok s Hf)) as Hok. fold s' in Hok.
  destruct (ao_holders _ Hok _ _ Hx) as [Hs Hq Hn Hso Hfam]. split_and!; try done.
  - intros v h front Hl Hfr (q & Hseq & Hk). unfold has_lock in Hl. rewrite Hseq in Hl. cbn [mbind seq_bind] in Hl.
    destruct (handle_valid _); [|done]. seq_inv Hl. apply sequencer_done in E as [E _]. rewrite Hk, Hx in E. injection E as <-.
    destruct (nested_family v s' k x h Hok Hx Hl) as (front' & Hfr' & Hd). rewrite Hfr in Hfr'. by injection Hfr' as <-.
  - intros st h. split; [destruct st; auto|]. intros (a & Ha & L & Hh & Hk & Hst).
    destruct (en_placed _ _ _ (ao_entry _ Hok _ _ Ha) L) as (y & Hy & Hin). rewrite Hk, Hx in Hy. injection Hy as <-.
    unfold place in Hin. rewrite Hst, Hh in Hin. by destruct st.
Qed.

Lemma access_is_exclusive_witness :
  exists x, sequencers example_locked !! 1 = Some x
    /\ sr_access_stack x = [mkSeqHandle 1 1 1] /\ sr_access_queue x = [mkSeqHandle 1 3 1; mkSeqHandle 1 2 1]
    /\ StronglySorted (before (accesses example_locked)) (sr_access_queue x).
Proof.
  eexists. split; [vm_compute; reflexivity|]. split; [reflexivity|]. split; [reflexivity|].
  exact (proj1 (proj2 (proj2 (proj2 (access_is_exclusive example_accesses (example_service Fifo) example_no_accesses 1 _
           ltac:(vm_compute; reflexivity)))))).
Defined.

(** C31: a waiting lock is not starved: while it waits, whatever the calls, at most
    [locks ahead * (maximum_consecutive_grabs + 1) + maximum_consecutive_grabs]
    accesses are granted from the queue of its sequencer, however many grabs arrive
    meanwhile. *)
Theorem waiting_is_bounded k l n s s' : access_ok s -> 0 <= maximum_consecutive_grabs (sv_limits s) ->
  (forall x, sequencers s !! k = Some x -> 0 <= sr_consecutive_grabs x) -> overtakes k l n s s' ->
  exists x, sequencers s !! k = Some x
    /\ n <= Z.of_nat (length (locks_ahead s x l)) * (maximum_consecutive_grabs (sv_limits s) + 1)
            + maximum_consecutive_grabs (sv_limits s).
Proof.
  intros Hok Hm Hc H. destruct (overtakes_bounded k l n s s' Hok Hm H) as (Hok' & Hw & Hlim & P).
  assert (0 <= patience k l s') as N by (apply patience_nonneg; by rewrite Hlim).
  assert (waiting k l s) as (x & Hx & _) by (clear -H; induction H; done).
  exists x. split; [done|]. specialize (Hc x Hx). unfold patience in P at 2. rewrite Hx in P. cbn zeta in P. lia.
Qed.

Lemma example_overtakes :
  overtakes 1 (mkSeqHandle 1 2 1) 1 example_locked (run_access example_services (AUnlock (mkSeqHandle 1 2 1)) example_locked).
Proof.
  pose proof (overtakes_call 1 (mkSeqHandle 1 2 1) 0 example_locked example_locked example_services
                (AUnlock (mkSeqHandle 1 2 1))) as H.
  assert (grants 1 example_locked (run_access example_services (AUnlock (mkSeqHandle 1 2 1)) example_locked) = true) as G
    by (vm_compute; reflexivity).
  rewrite G in H. apply H; [apply overtakes_none|];
    (eexists; split; [vm_compute; reflexivity|]; split; [apply (bool_decide_unpack _); vm_compute; exact I|vm_compute; reflexivity]).
Qed.

Lemma waiting_is_bounded_witness :
  exists x, sequencers example_locked !! 1 = Some x
    /\ 1 <= Z.of_nat (length (locks_ahead example_locked x (mkSeqHandle 1 2 1))) * (2 + 1) + 2.
Proof.
  refine (waiting_is_bounded 1 (mkSeqHandle 1 2 1) 1 example_locked _ example_locked_ok _ _ example_overtakes).
  - vm_compute. discriminate.
  - intros x Hx. vm_compute in Hx. injection Hx as <-. vm_compute. discriminate.
Defined.

(** ** Further facts *)

(** Rolling back the request just enqueued restores the service. *)
Theorem rollback_undoes_enqueue v d s h s' : arbitration_ok s -> 0 <= mutations s ->
  enqueue_request v d s = Done (h, s') -> rollback_latest_request h s' = s.
Proof. apply rollback_enqueue. Qed.

(** The request after a rollback gets the handle of the request rolled back. *)
Theorem rollback_reuses_handle v v' d d' s h s' h' s'' : arbitration_ok s -> 0 <= mutations s ->
  enqueue_request v d s = Done (h, s') -> enqueue_request v' d' (rollback_latest_request h s') = Done (h', s'') ->
  h' = h.
Proof.
  intros Hok Hm H H'. rewrite (rollback_enqueue _ _ _ _ _ Hok Hm H) in H'. unfold enqueue_request in H, H'.
  seq_inv H. seq_inv H'. destruct (sv_requests s !! _); [done|]. injection H as <- _. by injection H' as <- _.
Qed.

(** ** Where locks fall short *)

(** Sequence 2 holds the lock of the sequencer; a request of sequence 3 is selected
    all the same: selections do not look at locks. *)
Definition example_unheeded : SequenceService :=
  run_calls [example_request 3 1] (run_accesses [(example_services, ALock (mkSeqHandle 1 2 1))] (example_service Fifo)).

Example lock_does_not_exclude :
  has_lock example_services (mkSeqHandle 1 2 1) example_unheeded = Done true
  /\ has_lock example_services (mkSeqHandle 1 3 1) example_unheeded = Done false
  /\ exists s', select_request example_services example_handle example_unheeded
                 = Done (Selected, Some (example_snapshot 1 3 1), s').
Proof. split; [vm_compute; reflexivity|]. split; [vm_compute; reflexivity|]. eexists. vm_compute. reflexivity. Qed.

(** The object of sequence 3, which waits first, is gone: sequence 2 releases its
    lock, the call throws, nobody holds the sequencer, and sequence 4, which waits
    too, is not granted. *)
Definition example_queue_of_locks : SequenceService :=
  run_accesses [(example_services, ALock (mkSeqHandle 1 2 1)); (example_services, ALock (mkSeqHandle 1 3 1));
                (example_services, ALock (mkSeqHandle 1 4 1))]
    (mkSequenceService (mkSeqLimits 100 10 10 50 10 1000 10 4 2) 1 {[1 := example_sequencer Fifo]}
       {[2 := example_sequence; 3 := mkSeqSequence 9 no_handle (mkSeqHandle 1 1 1) 1 true false; 4 := example_sequence]}
       ∅ ∅ 1 0 0 0 false ∅ 1 0 0).
Definition example_deleted : Services := mkServices (fun o => negb (o =? 9)) (fun _ => true) (fun _ => true) (fun _ => 1).

Example release_throws_and_strands :
  let '(r, s') := unlock example_deleted (mkSeqHandle 1 2 1) example_queue_of_locks in
  r = Fails kInvalidHandle "UVM access owner is stale"
  /\ (x ← sequencers s' !! 1; Some (sr_access_stack x, sr_access_queue x))
     = Some ([], [mkSeqHandle 1 2 1; mkSeqHandle 1 3 1]).
Proof. vm_compute. split; reflexivity. Qed.
