(* ===== verification/SyncObjects.v ===== *)
(** * Mailboxes, semaphores and dynamic events

    src/runtime/simir_synchronization.cpp: the SystemVerilog objects processes
    use to wait for each other, in tables of the interpreter and named by 64-bit
    handles, and the processes that use them, as far as these operations see them:
    whether one has halted or is suspended, its status, its registers, and the
    tasks that resume it.

    The client of an operation is a process of the reference interpreter
    ([ProcessSynchronizationClient]) whose registers are in its frame: no executor
    is installed and no callable activation is suspended; the static kernel hosts
    no process.  Identifiers of processes and registers are indices of tables, and
    are natural numbers here. *)
From S2P Require Import Prelude Logic WordSpan LogicWord PackedLogic4 PackedConvert PackedLogic9.
From stdpp Require Import options.

(** ** Results *)

(** [InterpreterError], with the process it names, or an exception of the value
    functions. *)
Inductive sync_error :=
  | InterpreterError (process : nat) (message : string)
  | StandardError (e : exception).

Inductive SyncResult (A : Type) :=
  | Returned (a : A)
  | Raised (e : sync_error).
Arguments Returned {A} _.
Arguments Raised {A} _.

#[global] Instance sync_ret : MRet SyncResult := fun A a => Returned a.
#[global] Instance sync_bind : MBind SyncResult := fun A B f m =>
  match m with Returned a => f a | Raised e => Raised e end.

Definition value_call {A} (m : Outcome A) : SyncResult A :=
  match m with Ok a => Returned a | Throw e => Raised (StandardError e) end.

(** [if (condition) client.fail(message);] *)
Definition fail_when (condition : bool) (self : nat) (message : string) : SyncResult unit :=
  if condition then Raised (InterpreterError self message) else Returned tt.

(** ** Processes *)

Inductive ProcessStatus := Finished | Running | Waiting | Suspended | Killed.
Inductive ValueKind := Kind_logic4 | Kind_logic9.

#[global] Instance ProcessStatus_eq_dec : EqDecision ProcessStatus.
Proof. solve_decision. Defined.

Record ProcessState := mkProcessState {
  ps_halted : bool;
  ps_killed : bool;
  ps_status : ProcessStatus;
  ps_suspended : bool;
  ps_suspended_status : ProcessStatus;
  ps_suspended_wake : bool;
  ps_queued : bool;
  ps_timer_wake : bool;
  ps_registers : list PackedLogic4;
  ps_string_registers : list string;
  ps_register_value_kinds : list ValueKind;
  ps_systemverilog : bool;  (* the scheduling domain of the program *)
  ps_pending_mailbox_result : option nat;
  ps_pending_mailbox_string_result : option nat;
  ps_pending_dynamic_event : option Z;
}.

(** Assignments to members of a process. *)
Definition with_registers (p : ProcessState) (r : list PackedLogic4) : ProcessState :=
  mkProcessState (ps_halted p) (ps_killed p) (ps_status p) (ps_suspended p) (ps_suspended_status p)
    (ps_suspended_wake p) (ps_queued p) (ps_timer_wake p) r (ps_string_registers p) (ps_register_value_kinds p)
    (ps_systemverilog p) (ps_pending_mailbox_result p) (ps_pending_mailbox_string_result p) (ps_pending_dynamic_event p).
Definition with_string_registers (p : ProcessState) (r : list string) : ProcessState :=
  mkProcessState (ps_halted p) (ps_killed p) (ps_status p) (ps_suspended p) (ps_suspended_status p)
    (ps_suspended_wake p) (ps_queued p) (ps_timer_wake p) (ps_registers p) r (ps_register_value_kinds p)
    (ps_systemverilog p) (ps_pending_mailbox_result p) (ps_pending_mailbox_string_result p) (ps_pending_dynamic_event p).
Definition with_pending (p : ProcessState) (m : option nat) (ms : option nat) (e : option Z) : ProcessState :=
  mkProcessState (ps_halted p) (ps_killed p) (ps_status p) (ps_suspended p) (ps_suspended_status p)
    (ps_suspended_wake p) (ps_queued p) (ps_timer_wake p) (ps_registers p) (ps_string_registers p)
    (ps_register_value_kinds p) (ps_systemverilog p) m ms e.
Definition with_process_status (p : ProcessState) (status : ProcessStatus) : ProcessState :=
  mkProcessState (ps_halted p) (ps_killed p) status (ps_suspended p) (ps_suspended_status p)
    (ps_suspended_wake p) (ps_queued p) (ps_timer_wake p) (ps_registers p) (ps_string_registers p)
    (ps_register_value_kinds p) (ps_systemverilog p) (ps_pending_mailbox_result p)
    (ps_pending_mailbox_string_result p) (ps_pending_dynamic_event p).
Definition with_queued (p : ProcessState) (queued timer_wake : bool) : ProcessState :=
  mkProcessState (ps_halted p) (ps_killed p) (ps_status p) (ps_suspended p) (ps_suspended_status p)
    (ps_suspended_wake p) queued timer_wake (ps_registers p) (ps_string_registers p)
    (ps_register_value_kinds p) (ps_systemverilog p) (ps_pending_mailbox_result p)
    (ps_pending_mailbox_string_result p) (ps_pending_dynamic_event p).
Definition with_suspension (p : ProcessState) (status : ProcessStatus) (suspended : bool)
    (suspended_status : ProcessStatus) (suspended_wake : bool) : ProcessState :=
  mkProcessState (ps_halted p) (ps_killed p) status suspended suspended_status suspended_wake (ps_queued p)
    (ps_timer_wake p) (ps_registers p) (ps_string_registers p) (ps_register_value_kinds p) (ps_systemverilog p)
    (ps_pending_mailbox_result p) (ps_pending_mailbox_string_result p) (ps_pending_dynamic_event p).

(** ** Objects *)

Inductive MailboxElementKind := Element_packed | Element_string.
#[global] Instance MailboxElementKind_eq_dec : EqDecision MailboxElementKind.
Proof. solve_decision. Defined.

(** A message: the member of a writer or of the mailbox that its kind selects. *)
Inductive MailboxValue :=
  | PackedValue (v : PackedLogic4)
  | StringValue (s : string).

Record MailboxReader := mkMailboxReader {
  mr_process : nat; mr_destination : nat; mr_string_destination : nat; mr_peek : bool }.
Record MailboxWriter := mkMailboxWriter { mw_process : nat; mw_value : MailboxValue }.
Record MailboxState := mkMailboxState {
  mb_element_kind : MailboxElementKind;
  mb_element_width : Z;
  mb_capacity : Z;
  mb_entries : list PackedLogic4;
  mb_string_entries : list string;
  mb_string_bytes : Z;
  mb_readers : list MailboxReader;
  mb_writers : list MailboxWriter;
}.

Record SemaphoreWaiter := mkSemaphoreWaiter { sw_process : nat; sw_keys : Z }.
Record SemaphoreState := mkSemaphoreState { sem_keys : Z; sem_waiters : list SemaphoreWaiter }.

Record DynamicEventState := mkDynamicEventState { de_waiters : list nat; de_last_trigger : option Z }.

(** What the operations ask of the scheduler: the task that resumes a process and
    the deferred trigger of an event. *)
Inductive SyncTask :=
  | ResumeProcess (id : nat)
  | TriggerEvent (handle : Z) (index : nat).

(** The interpreter's tables, the clock and the scheduled tasks, oldest first. *)
Record Sync := mkSync {
  processes : list ProcessState;
  mailboxes : list MailboxState;
  semaphores : list SemaphoreState;
  dynamic_events : list DynamicEventState;
  clock : Z;
  scheduled : list SyncTask;
}.

Definition with_processes (s : Sync) (l : list ProcessState) : Sync :=
  mkSync l (mailboxes s) (semaphores s) (dynamic_events s) (clock s) (scheduled s).
Definition with_mailboxes (s : Sync) (l : list MailboxState) : Sync :=
  mkSync (processes s) l (semaphores s) (dynamic_events s) (clock s) (scheduled s).
Definition with_semaphores (s : Sync) (l : list SemaphoreState) : Sync :=
  mkSync (processes s) (mailboxes s) l (dynamic_events s) (clock s) (scheduled s).
Definition with_events (s : Sync) (l : list DynamicEventState) : Sync :=
  mkSync (processes s) (mailboxes s) (semaphores s) l (clock s) (scheduled s).
Definition with_scheduled (s : Sync) (l : list SyncTask) : Sync :=
  mkSync (processes s) (mailboxes s) (semaphores s) (dynamic_events s) (clock s) l.
Definition set_process (s : Sync) (id : nat) (p : ProcessState) : Sync :=
  with_processes s (<[id := p]> (processes s)).
Definition set_mailbox (s : Sync) (i : nat) (m : MailboxState) : Sync :=
  with_mailboxes s (<[i := m]> (mailboxes s)).
Definition set_semaphore (s : Sync) (i : nat) (m : SemaphoreState) : Sync :=
  with_semaphores s (<[i := m]> (semaphores s)).
Definition set_event (s : Sync) (i : nat) (e : DynamicEventState) : Sync :=
  with_events s (<[i := e]> (dynamic_events s)).

(** ** The interpreter's side *)

Definition get_process (s : Sync) (id : nat) : SyncResult ProcessState :=
  match processes s !! id with
  | Some p => Returned p
  | None => Raised (StandardError (out_of_range "invalid SimIR process ID"))
  end.

Definition get_register (self : nat) (p : ProcessState) (id : nat) : SyncResult PackedLogic4 :=
  match ps_registers p !! id with
  | Some v => Returned v
  | None => Raised (InterpreterError self "invalid register ID")
  end.

Definition get_string_register (self : nat) (p : ProcessState) (id : nat) : SyncResult string :=
  match ps_string_registers p !! id with
  | Some v => Returned v
  | None => Raised (InterpreterError self "invalid string register ID")
  end.

Definition register_value_kind (p : ProcessState) (id : nat) : ValueKind :=
  default Kind_logic4 (ps_register_value_kinds p !! id).

Definition coerce_value_kind (value : PackedLogic4) (kind : ValueKind) : Outcome PackedLogic4 :=
  match kind with
  | Kind_logic9 => if is_logic9 value then Ok value else promoted_to_logic9 value
  | Kind_logic4 => if is_logic9 value then collapse_to_logic4 value else Ok value
  end.

Definition maximum_string_bytes : Z := 2 ^ 20.
Definition maximum_container_storage_bytes : Z := 256 * 1024 * 1024.
Definition string_size (s : string) : Z := Z.of_nat (String.length s).

Definition write_process_register (s : Sync) (id destination : nat) (value : PackedLogic4) : SyncResult Sync :=
  p ← get_process s id;
  converted ← value_call (coerce_value_kind value (register_value_kind p destination));
  _ ← get_register id p destination;
  Returned (set_process s id (with_registers p (<[destination := converted]> (ps_registers p)))).

Definition write_process_string_register (s : Sync) (id destination : nat) (value : string) : SyncResult Sync :=
  p ← get_process s id;
  _ ← fail_when (maximum_string_bytes <? string_size value) id "string mailbox value exceeds the byte limit";
  _ ← get_string_register id p destination;
  Returned (set_process s id (with_string_registers p (<[destination := value]> (ps_string_registers p)))).

(** The task is scheduled unless the process has halted or is queued already. *)
Definition queue_active_current (s : Sync) (id : nat) : SyncResult Sync :=
  p ← get_process s id;
  if ps_halted p || ps_queued p then Returned s
  else Returned (with_scheduled (set_process s id (with_queued p true false)) (scheduled s ++ [ResumeProcess id])).

Definition synchronization_halted (s : Sync) (id : nat) : SyncResult bool :=
  p ← get_process s id; Returned (ps_halted p).

Definition reset_if (pending : option nat) (destination : nat) : option nat :=
  if decide (pending = Some destination) then None else pending.

(** Both overloads of [synchronization_deliver]. *)
Definition synchronization_deliver (s : Sync) (reader : MailboxReader) (value : MailboxValue) : SyncResult Sync :=
  let id := mr_process reader in
  target ← get_process s id;
  match value with
  | PackedValue v =>
      s ← if ps_halted target then Returned s else write_process_register s id (mr_destination reader) v;
      target ← get_process s id;
      Returned (set_process s id (with_pending target
        (reset_if (ps_pending_mailbox_result target) (mr_destination reader))
        (ps_pending_mailbox_string_result target) (ps_pending_dynamic_event target)))
  | StringValue v =>
      s ← if ps_halted target then Returned s else write_process_string_register s id (mr_string_destination reader) v;
      target ← get_process s id;
      Returned (set_process s id (with_pending target (ps_pending_mailbox_result target)
        (reset_if (ps_pending_mailbox_string_result target) (mr_string_destination reader))
        (ps_pending_dynamic_event target)))
  end.

Definition synchronization_wake (s : Sync) (id : nat) : SyncResult (Sync * bool) :=
  waiter ← get_process s id;
  if ps_halted waiter then Returned (s, false)
  else
    s ← queue_active_current (set_process s id (with_process_status waiter Running)) id;
    Returned (s, true).

Definition synchronization_event_wake (s : Sync) (id : nat) (handle : Z) : SyncResult Sync :=
  target ← get_process s id;
  if ps_halted target || negb (bool_decide (ps_status target = Waiting))
     || negb (bool_decide (ps_pending_dynamic_event target = Some handle))
  then Returned s
  else
    let target := with_pending target (ps_pending_mailbox_result target)
      (ps_pending_mailbox_string_result target) None in
    queue_active_current (set_process s id (with_process_status target Running)) id.

(** [ProcessSynchronizationClient::wait]; the hook it notifies has no effect on
    the process. *)
Record Wait := mkWait { wait_mailbox_result : option nat; wait_mailbox_string_result : option nat; wait_dynamic_event : option Z }.
Definition no_wait : Wait := mkWait None None None.
Definition or_else {A} (new old : option A) : option A := match new with Some _ => new | None => old end.

Definition client_wait (s : Sync) (self : nat) (w : Wait) : SyncResult Sync :=
  p ← get_process s self;
  Returned (set_process s self (with_process_status (with_pending p
    (or_else (wait_mailbox_result w) (ps_pending_mailbox_result p))
    (or_else (wait_mailbox_string_result w) (ps_pending_mailbox_string_result p))
    (or_else (wait_dynamic_event w) (ps_pending_dynamic_event p))) Waiting)).

Definition client_read (s : Sync) (self id : nat) : SyncResult PackedLogic4 :=
  p ← get_process s self; get_register self p id.

Definition client_read_string (s : Sync) (self id : nat) : SyncResult string :=
  p ← get_process s self; get_string_register self p id.

(** [defer_trigger]: whether the trigger was handed to the scheduler. *)
Definition defer_trigger (s : Sync) (self : nat) (task : SyncTask) : SyncResult (Sync * bool) :=
  p ← get_process s self;
  if negb (ps_systemverilog p) then Returned (s, false)
  else Returned (with_scheduled s (scheduled s ++ [task]), true).

(** ** Registers and handles *)

Definition synchronization_handle_tag_mask : Z := 0xffff000000000000.
Definition mailbox_handle_tag : Z := 0x4d42000000000000.
Definition semaphore_handle_tag : Z := 0x5345000000000000.
Definition event_handle_tag : Z := 0x4556000000000000.
Definition synchronization_handle_payload_mask : Z := 0x0000ffffffffffff.
Definition maximum_synchronization_objects : Z := 2 ^ 20.

Definition read_string_register (s : Sync) (self id : nat) : SyncResult string :=
  value ← client_read_string s self id;
  _ ← fail_when (maximum_string_bytes <? string_size value) self "mailbox string value exceeds the byte limit";
  Returned value.

Definition known_u32 (s : Sync) (self id : nat) (purpose : string) : SyncResult Z :=
  v ← client_read s self id;
  value ← value_call (low_word v);
  _ ← fail_when (negb (l4w_bval value =? 0) || (U32_MAX <? l4w_aval value)) self
        (purpose ++ " must be a known 32-bit value");
  Returned (l4w_aval value).

Definition known_i32 (s : Sync) (self id : nat) (purpose : string) : SyncResult Z :=
  v ← known_u32 s self id purpose; Returned (to_int32 v).

Definition receiver_handle (s : Sync) (self id : nat) : SyncResult Z :=
  v ← client_read s self id;
  value ← value_call (low_word v);
  _ ← fail_when (negb (l4w_bval value =? 0)) self "synchronization handle contains X or Z";
  Returned (l4w_aval value).

(** The index of a handle's object in a table of [count] objects. *)
Definition object_index (self : nat) (handle tag count : Z) (wrong_kind outside : string) : SyncResult nat :=
  _ ← fail_when (negb (Z.land handle synchronization_handle_tag_mask =? tag)) self wrong_kind;
  let encoded := Z.land handle synchronization_handle_payload_mask in
  _ ← fail_when ((encoded =? 0) || (count <? encoded)) self outside;
  Returned (Z.to_nat (encoded - 1)).

(** The reference an index denotes; the index is inside the table. *)
Definition object_at {A} (table : list A) (i : nat) : SyncResult A :=
  match table !! i with
  | Some x => Returned x
  | None => Raised (StandardError (out_of_range "synchronization object"))
  end.

Definition mailbox_from_handle (s : Sync) (self id : nat) : SyncResult (nat * MailboxState) :=
  handle ← receiver_handle s self id;
  i ← object_index self handle mailbox_handle_tag (size (mailboxes s))
        "mailbox handle is null or has the wrong kind" "mailbox handle is outside the live object range";
  m ← object_at (mailboxes s) i;
  Returned (i, m).

Definition semaphore_from_handle (s : Sync) (self id : nat) : SyncResult (nat * SemaphoreState) :=
  handle ← receiver_handle s self id;
  i ← object_index self handle semaphore_handle_tag (size (semaphores s))
        "semaphore handle is null or has the wrong kind" "semaphore handle is outside the live object range";
  m ← object_at (semaphores s) i;
  Returned (i, m).

Definition write_word (s : Sync) (self destination : nat) (width value : Z) : SyncResult Sync :=
  v ← value_call (from_aval_bval width value 0);
  write_process_register s self destination v.

Definition write_bool (s : Sync) (self destination : nat) (value : bool) : SyncResult Sync :=
  write_word s self destination 32 (if value then 1 else 0).

Definition write_result (s : Sync) (self : nat) (result : option nat) (value : bool) : SyncResult Sync :=
  match result with Some r => write_bool s self r value | None => Returned s end.

(** ** Operations *)

Record MailboxCreate := mkMailboxCreate {
  mc_destination : nat; mc_capacity : nat; mc_element_width : Z; mc_element_kind : MailboxElementKind }.
Record MailboxPut := mkMailboxPut {
  mp_receiver : nat; mp_source : nat; mp_element_width : Z; mp_result : option nat;
  mp_element_kind : MailboxElementKind; mp_string_source : nat }.
Record MailboxGet := mkMailboxGet {
  mg_receiver : nat; mg_destination : nat; mg_element_width : Z; mg_result : option nat; mg_peek : bool;
  mg_element_kind : MailboxElementKind; mg_string_destination : nat }.
Record MailboxNum := mkMailboxNum { mn_destination : nat; mn_receiver : nat }.
Inductive DynamicEventOperation := Event_create | Event_trigger | Event_wait | Event_triggered.
Record DynamicEvent := mkDynamicEvent {
  ev_operation : DynamicEventOperation; ev_destination : nat; ev_receiver : nat; ev_nonblocking : bool }.
Record SemaphoreCreate := mkSemaphoreCreate { sc_destination : nat; sc_keys : nat }.
Record SemaphoreGet := mkSemaphoreGet { sg_receiver : nat; sg_keys : nat; sg_result : option nat }.
Record SemaphorePut := mkSemaphorePut { sp_receiver : nat; sp_keys : nat }.

Inductive SyncOperation :=
  | Op_MailboxCreate (o : MailboxCreate)
  | Op_MailboxPut (o : MailboxPut)
  | Op_MailboxGet (o : MailboxGet)
  | Op_DynamicEvent (o : DynamicEvent)
  | Op_MailboxNum (o : MailboxNum)
  | Op_SemaphoreCreate (o : SemaphoreCreate)
  | Op_SemaphoreGet (o : SemaphoreGet)
  | Op_SemaphorePut (o : SemaphorePut)
  | Op_other.

Inductive SynchronizationResult := Result_other | Result_completed | Result_waiting.

Definition mailbox_entry_storage_bytes (width : Z) : Z :=
  let words := (width + 63) `div` 64 in Z.max 1 (words * 8 * 2).

(** [sizeof(std::string)] of the 64-bit ABI the simulator is built for. *)
Definition mailbox_string_entry_storage_bytes : Z := 32.

Definition entry_storage_bytes (kind : MailboxElementKind) (width : Z) : Z :=
  match kind with
  | Element_string => mailbox_string_entry_storage_bytes
  | Element_packed => mailbox_entry_storage_bytes width
  end.

Definition mailbox_create (s : Sync) (self : nat) (o : MailboxCreate) : SyncResult (Sync * SynchronizationResult) :=
  _ ← fail_when (match mc_element_kind o with
                 | Element_packed => mc_element_width o =? 0
                 | Element_string => negb (mc_element_width o =? 0)
                 end) self "mailbox has an invalid element kind or width";
  _ ← fail_when (maximum_synchronization_objects <=? size (mailboxes s)) self "mailbox object limit is exhausted";
  requested ← known_u32 s self (mc_capacity o) "mailbox capacity";
  let maximum := maximum_container_storage_bytes
    `div` entry_storage_bytes (mc_element_kind o) (mc_element_width o) in
  _ ← fail_when ((maximum =? 0) || (negb (requested =? 0) && (maximum <? requested))) self
        "mailbox capacity exceeds the bounded storage limit";
  let m := mkMailboxState (mc_element_kind o) (mc_element_width o)
             (if requested =? 0 then maximum else requested) [] [] 0 [] [] in
  let s := with_mailboxes s (mailboxes s ++ [m]) in
  s ← write_word s self (mc_destination o) 64 (Z.lor mailbox_handle_tag (size (mailboxes s)));
  Returned (s, Result_completed).

(** *** Put *)

Definition entry_count (m : MailboxState) : Z :=
  match mb_element_kind m with Element_string => size (mb_string_entries m) | Element_packed => size (mb_entries m) end.

Definition with_mailbox_queues (m : MailboxState) (readers : list MailboxReader) (writers : list MailboxWriter) : MailboxState :=
  mkMailboxState (mb_element_kind m) (mb_element_width m) (mb_capacity m) (mb_entries m) (mb_string_entries m)
    (mb_string_bytes m) readers writers.

(** [entries.push_back], with the bytes of a string. *)
Definition append_entry (m : MailboxState) (value : MailboxValue) : MailboxState :=
  match value with
  | PackedValue v =>
      mkMailboxState (mb_element_kind m) (mb_element_width m) (mb_capacity m) (mb_entries m ++ [v])
        (mb_string_entries m) (mb_string_bytes m) (mb_readers m) (mb_writers m)
  | StringValue v =>
      mkMailboxState (mb_element_kind m) (mb_element_width m) (mb_capacity m) (mb_entries m)
        (mb_string_entries m ++ [v]) (wrap64 (mb_string_bytes m + string_size v)) (mb_readers m) (mb_writers m)
  end.

(** The loop of [deliver]: the readers that are left and whether a get has
    consumed the value. *)
Fixpoint deliver_loop (s : Sync) (readers : list MailboxReader) (value : MailboxValue)
    : SyncResult (Sync * list MailboxReader * bool) :=
  match readers with
  | [] => Returned (s, [], false)
  | reader :: readers =>
      s ← synchronization_deliver s reader value;
      halted ← synchronization_halted s (mr_process reader);
      if halted : bool then deliver_loop s readers value
      else
        '(s, _) ← synchronization_wake s (mr_process reader);
        if mr_peek reader then deliver_loop s readers value else Returned (s, readers, true)
  end.

(** The value a put reads from its source register. *)
Definition put_value (s : Sync) (self : nat) (o : MailboxPut) (m : MailboxState) : SyncResult MailboxValue :=
  match mb_element_kind m with
  | Element_packed =>
      v ← client_read s self (mp_source o);
      _ ← fail_when (negb (width v =? mp_element_width o)) self "mailbox put value has the wrong element width";
      Returned (PackedValue v)
  | Element_string =>
      v ← read_string_register s self (mp_string_source o);
      _ ← fail_when (maximum_container_storage_bytes - Z.min (mb_string_bytes m) maximum_container_storage_bytes
                     <? string_size v) self "mailbox string storage exceeds the bounded storage limit";
      Returned (StringValue v)
  end.

Definition put_available (m : MailboxState) : bool :=
  match mb_writers m with
  | [] => match mb_readers m with [] => entry_count m <? mb_capacity m | _ => true end
  | _ => false
  end.

Definition mailbox_put (s : Sync) (self : nat) (o : MailboxPut) : SyncResult (Sync * SynchronizationResult) :=
  '(i, m) ← mailbox_from_handle s self (mp_receiver o);
  _ ← fail_when (negb (bool_decide (mp_element_kind o = mb_element_kind m))
                 || negb (mp_element_width o =? mb_element_width m)) self
        "mailbox put operation has the wrong element type";
  value ← put_value s self o m;
  if put_available m then
    '(s, readers, consumed) ← deliver_loop s (mb_readers m) value;
    let m := with_mailbox_queues m readers (mb_writers m) in
    let s := set_mailbox s i (if consumed : bool then m else append_entry m value) in
    s ← write_result s self (mp_result o) true;
    Returned (s, Result_completed)
  else
    match mp_result o with
    | Some r => s ← write_bool s self r false; Returned (s, Result_completed)
    | None =>
        let m := with_mailbox_queues m (mb_readers m) (mb_writers m ++ [mkMailboxWriter self value]) in
        s ← client_wait (set_mailbox s i m) self no_wait;
        Returned (s, Result_waiting)
    end.

(** *** Get and peek *)

(** [entries.front()], as a message. *)
Definition first_entry (m : MailboxState) : option MailboxValue :=
  match mb_element_kind m with
  | Element_string => StringValue <$> head (mb_string_entries m)
  | Element_packed => PackedValue <$> head (mb_entries m)
  end.

Definition pop_entry (m : MailboxState) : MailboxState :=
  match mb_element_kind m with
  | Element_string =>
      match mb_string_entries m with
      | [] => m
      | v :: rest =>
          mkMailboxState (mb_element_kind m) (mb_element_width m) (mb_capacity m) (mb_entries m) rest
            (wrap64 (mb_string_bytes m - string_size v)) (mb_readers m) (mb_writers m)
      end
  | Element_packed =>
      mkMailboxState (mb_element_kind m) (mb_element_width m) (mb_capacity m) (tail (mb_entries m))
        (mb_string_entries m) (mb_string_bytes m) (mb_readers m) (mb_writers m)
  end.

(** The loop that lets the first live writer in. *)
Fixpoint admit_loop (s : Sync) (writers : list MailboxWriter) : SyncResult (Sync * list MailboxWriter * option MailboxValue) :=
  match writers with
  | [] => Returned (s, [], None)
  | writer :: writers =>
      '(s, woken) ← synchronization_wake s (mw_process writer);
      if woken : bool then Returned (s, writers, Some (mw_value writer)) else admit_loop s writers
  end.

Definition client_write (s : Sync) (self : nat) (o : MailboxGet) (value : MailboxValue) : SyncResult Sync :=
  match value with
  | PackedValue v => write_process_register s self (mg_destination o) v
  | StringValue v => write_process_string_register s self (mg_string_destination o) v
  end.

(** What a get does after it has read the front: the entry is removed and a
    writer's value takes the free place. *)
Definition take_entry (s : Sync) (i : nat) (m : MailboxState) : SyncResult Sync :=
  let m := pop_entry m in
  '(s, writers, admitted) ← admit_loop s (mb_writers m);
  let m := with_mailbox_queues m (mb_readers m) writers in
  Returned (set_mailbox s i (match admitted with Some v => append_entry m v | None => m end)).

Definition mailbox_get (s : Sync) (self : nat) (o : MailboxGet) : SyncResult (Sync * SynchronizationResult) :=
  '(i, m) ← mailbox_from_handle s self (mg_receiver o);
  _ ← fail_when (negb (bool_decide (mg_element_kind o = mb_element_kind m))
                 || negb (mg_element_width o =? mb_element_width m)) self
        "mailbox get operation has the wrong element type";
  match first_entry m with
  | Some value =>
      s ← client_write s self o value;
      s ← (if mg_peek o then Returned s else take_entry s i m);
      s ← write_result s self (mg_result o) true;
      Returned (s, Result_completed)
  | None =>
      match mg_result o with
      | Some r => s ← write_bool s self r false; Returned (s, Result_completed)
      | None =>
          let wait := match mb_element_kind m with
                      | Element_string => mkWait None (Some (mg_string_destination o)) None
                      | Element_packed => mkWait (Some (mg_destination o)) None None
                      end in
          let reader := mkMailboxReader self (mg_destination o) (mg_string_destination o) (mg_peek o) in
          s ← client_wait (set_mailbox s i (with_mailbox_queues m (mb_readers m ++ [reader]) (mb_writers m))) self wait;
          Returned (s, Result_waiting)
      end
  end.

Definition mailbox_num (s : Sync) (self : nat) (o : MailboxNum) : SyncResult (Sync * SynchronizationResult) :=
  '(_, m) ← mailbox_from_handle s self (mn_receiver o);
  s ← write_word s self (mn_destination o) 32 (wrap32 (entry_count m));
  Returned (s, Result_completed).

(** *** Dynamic events *)

(** [event_from_handle]: [None] is the null event. *)
Definition event_from_handle (s : Sync) (self id : nat) : SyncResult (option (nat * DynamicEventState)) :=
  handle ← receiver_handle s self id;
  if handle =? 0 then Returned None
  else
    i ← object_index self handle event_handle_tag (size (dynamic_events s))
          "event handle has the wrong kind" "event handle is outside the live object range";
    e ← object_at (dynamic_events s) i;
    Returned (Some (i, e)).

Fixpoint event_wake_loop (s : Sync) (waiters : list nat) (handle : Z) : SyncResult Sync :=
  match waiters with
  | [] => Returned s
  | waiter :: waiters => s ← synchronization_event_wake s waiter handle; event_wake_loop s waiters handle
  end.

(** The lambda [trigger]. *)
Definition trigger (s : Sync) (handle : Z) (index : nat) : SyncResult Sync :=
  e ← object_at (dynamic_events s) index;
  event_wake_loop (set_event s index (mkDynamicEventState [] (Some (clock s)))) (de_waiters e) handle.

Definition event_trigger (s : Sync) (self : nat) (o : DynamicEvent) : SyncResult Sync :=
  handle ← receiver_handle s self (ev_receiver o);
  found ← event_from_handle s self (ev_receiver o);
  match found with
  | None => Returned s
  | Some _ =>
      let index := Z.to_nat (Z.land handle synchronization_handle_payload_mask - 1) in
      '(s, deferred) ← (if ev_nonblocking o then defer_trigger s self (TriggerEvent handle index)
                        else Returned (s, false));
      if deferred : bool then Returned s else trigger s handle index
  end.

Definition event_wait (s : Sync) (self : nat) (o : DynamicEvent) : SyncResult Sync :=
  handle ← receiver_handle s self (ev_receiver o);
  found ← event_from_handle s self (ev_receiver o);
  let s := match found with
           | Some (i, e) => set_event s i (mkDynamicEventState (de_waiters e ++ [self]) (de_last_trigger e))
           | None => s
           end in
  client_wait s self (mkWait None None (Some handle)).

Definition dynamic_event (s : Sync) (self : nat) (o : DynamicEvent) : SyncResult (Sync * SynchronizationResult) :=
  match ev_operation o with
  | Event_create =>
      _ ← fail_when (maximum_synchronization_objects <=? size (dynamic_events s)) self "event object limit is exhausted";
      let s := with_events s (dynamic_events s ++ [mkDynamicEventState [] None]) in
      s ← write_word s self (ev_destination o) 64 (Z.lor event_handle_tag (size (dynamic_events s)));
      Returned (s, Result_completed)
  | Event_trigger => s ← event_trigger s self o; Returned (s, Result_completed)
  | Event_wait => s ← event_wait s self o; Returned (s, Result_waiting)
  | Event_triggered =>
      found ← event_from_handle s self (ev_receiver o);
      let triggered := match found with
                       | Some (_, e) => bool_decide (de_last_trigger e = Some (clock s))
                       | None => false
                       end in
      s ← write_word s self (ev_destination o) 1 (if triggered then 1 else 0);
      Returned (s, Result_completed)
  end.

(** *** Semaphores *)

Definition semaphore_create (s : Sync) (self : nat) (o : SemaphoreCreate) : SyncResult (Sync * SynchronizationResult) :=
  _ ← fail_when (maximum_synchronization_objects <=? size (semaphores s)) self "semaphore object limit is exhausted";
  keys ← known_i32 s self (sc_keys o) "semaphore key count";
  let s := with_semaphores s (semaphores s ++ [mkSemaphoreState keys []]) in
  s ← write_word s self (sc_destination o) 64 (Z.lor semaphore_handle_tag (size (semaphores s)));
  Returned (s, Result_completed).

Definition get_available (m : SemaphoreState) (requested : Z) : bool :=
  match sem_waiters m with [] => requested <=? sem_keys m | _ => false end.

Definition semaphore_get (s : Sync) (self : nat) (o : SemaphoreGet) : SyncResult (Sync * SynchronizationResult) :=
  '(i, m) ← semaphore_from_handle s self (sg_receiver o);
  requested ← known_i32 s self (sg_keys o) "semaphore get count";
  _ ← fail_when (requested <? 0) self "semaphore get count cannot be negative";
  if get_available m requested then
    let s := set_semaphore s i (mkSemaphoreState (sem_keys m - requested) (sem_waiters m)) in
    s ← write_result s self (sg_result o) true;
    Returned (s, Result_completed)
  else
    match sg_result o with
    | Some r => s ← write_bool s self r false; Returned (s, Result_completed)
    | None =>
        let m := mkSemaphoreState (sem_keys m) (sem_waiters m ++ [mkSemaphoreWaiter self requested]) in
        s ← client_wait (set_semaphore s i m) self no_wait;
        Returned (s, Result_waiting)
    end.

(** The loop of a put: the keys and waiters that are left. *)
Fixpoint grant_loop (s : Sync) (keys : Z) (waiters : list SemaphoreWaiter) : SyncResult (Sync * SemaphoreState) :=
  match waiters with
  | [] => Returned (s, mkSemaphoreState keys [])
  | waiter :: rest =>
      halted ← synchronization_halted s (sw_process waiter);
      if halted : bool then grant_loop s keys rest
      else if keys <? sw_keys waiter then Returned (s, mkSemaphoreState keys waiters)
      else
        '(s, _) ← synchronization_wake s (sw_process waiter);
        grant_loop s (keys - sw_keys waiter) rest
  end.

Definition semaphore_put (s : Sync) (self : nat) (o : SemaphorePut) : SyncResult (Sync * SynchronizationResult) :=
  '(i, m) ← semaphore_from_handle s self (sp_receiver o);
  returned ← known_i32 s self (sp_keys o) "semaphore put count";
  _ ← fail_when (returned <? 0) self "semaphore put count cannot be negative";
  _ ← fail_when (2 ^ 63 - 1 - returned <? sem_keys m) self "semaphore key count overflow";
  '(s, m) ← grant_loop s (sem_keys m + returned) (sem_waiters m);
  Returned (set_semaphore s i m, Result_completed).

(** *** All operations *)

Definition run_synchronization (s : Sync) (self : nat) (operation : SyncOperation)
    : SyncResult (Sync * SynchronizationResult) :=
  match operation with
  | Op_MailboxCreate o => mailbox_create s self o
  | Op_MailboxPut o => mailbox_put s self o
  | Op_MailboxGet o => mailbox_get s self o
  | Op_DynamicEvent o => dynamic_event s self o
  | Op_MailboxNum o => mailbox_num s self o
  | Op_SemaphoreCreate o => semaphore_create s self o
  | Op_SemaphoreGet o => semaphore_get s self o
  | Op_SemaphorePut o => semaphore_put s self o
  | Op_other => Returned (s, Result_other)
  end.

Definition handle_synchronization_boundary (s : Sync) (self : nat) (operation : SyncOperation)
    : SyncResult (Sync * bool) :=
  '(s, result) ← run_synchronization s self operation;
  match result with
  | Result_other => Returned (s, false)
  | Result_completed =>
      p ← get_process s self;
      Returned (set_process s self (with_process_status p Running), true)
  | Result_waiting => Returned (s, true)
  end.

(** ** The rest of a process's life *)

(** The task of a queued process and the entry of [execute]
    (src/runtime/simir_execution_interpreter.cpp), up to the program it runs: a
    suspended process notes the wake and does not run. *)
Definition resume_task (s : Sync) (id : nat) : SyncResult Sync :=
  p ← get_process s id;
  let p := with_queued p false (ps_timer_wake p) in
  if ps_suspended p
  then Returned (set_process s id (with_suspension p (ps_status p) true (ps_suspended_status p) true))
  else if ps_halted p then Returned (set_process s id p)
  else Returned (set_process s id (with_process_status p Running)).

Definition run_task (s : Sync) (task : SyncTask) : SyncResult Sync :=
  match task with
  | ResumeProcess id => resume_task s id
  | TriggerEvent handle index => trigger s handle index
  end.

(** [complete_process], as far as it concerns the process itself: [terminal_status]
    is finished or killed; the waits for signals and time that it removes and the
    processes that await its end are not part of the state here. *)
Definition complete_process (s : Sync) (id : nat) (killed : bool) : SyncResult Sync :=
  p ← get_process s id;
  Returned (set_process s id
    (mkProcessState true killed (if killed then Killed else Finished) false (ps_suspended_status p) false
      (ps_queued p) (ps_timer_wake p) (ps_registers p) (ps_string_registers p) (ps_register_value_kinds p)
      (ps_systemverilog p) (ps_pending_mailbox_result p) (ps_pending_mailbox_string_result p)
      (ps_pending_dynamic_event p))).

Definition suspend_process (s : Sync) (id : nat) : SyncResult Sync :=
  p ← get_process s id;
  if negb (ps_halted p) && negb (ps_suspended p)
  then Returned (set_process s id (with_suspension p Suspended true (ps_status p) (ps_suspended_wake p)))
  else Returned s.

Definition resume_process (s : Sync) (id : nat) : SyncResult Sync :=
  p ← get_process s id;
  if ps_suspended p then
    let make_runnable := ps_suspended_wake p || bool_decide (ps_suspended_status p = Running) in
    let s := set_process s id
      (with_suspension p (if make_runnable then Running else ps_suspended_status p) false (ps_suspended_status p) false) in
    if make_runnable && negb (ps_queued p) then queue_active_current s id else Returned s
  else Returned s.

(** [disable_process_interval] for a process inside the disabled block that is not
    the one that disables it: it continues behind the block. *)
Definition redirect_process (s : Sync) (id : nat) : SyncResult Sync :=
  p ← get_process s id;
  if ps_halted p then Returned s
  else
    let p := with_process_status p Running in
    let p := if ps_queued p && ps_timer_wake p then with_queued p false false else p in
    queue_active_current (set_process s id p) id.
