(* ===== verification/SyncWaiting.v ===== *)
(** * Processes that wait for synchronization objects

    The invariant of the interpreter's tables ([SyncObjects]): which processes may
    stand in the queues of mailboxes and semaphores, and that none of them is left
    there when it could go on.  [sync_step] is what can happen: processes operate,
    halt, are suspended and resumed, tasks are dispatched in any order, time passes,
    processes that wait for nothing here are disabled ([Disable]) or do anything else
    ([Other]) and new ones appear.  Not among the steps: a block is disabled while a
    process inside it stands in a queue or waits for an event; the code leaves such a
    process in the queue, and the invariant does not hold after it. *)
From S2P Require Import Prelude Logic WordSpan LogicWord PackedLogic4 PackedConvert PackedLogic9 SyncObjects.
From stdpp Require Import options.

(** ** What the queues depend on *)

(** The members of a process that decide whether it runs. *)
Record Control := mkControl {
  c_halted : bool; c_status : ProcessStatus; c_suspended : bool; c_suspended_status : ProcessStatus;
  c_suspended_wake : bool; c_queued : bool; c_timer : bool; c_event : option Z }.

Definition control (p : ProcessState) : Control :=
  mkControl (ps_halted p) (ps_status p) (ps_suspended p) (ps_suspended_status p) (ps_suspended_wake p)
    (ps_queued p) (ps_timer_wake p) (ps_pending_dynamic_event p).

Definition controls (s : Sync) : list Control := control <$> processes s.

Definition alive (cs : list Control) (p : nat) : bool :=
  match cs !! p with Some c => negb (c_halted c) | None => false end.

(** Not about to run, and not to be run by the next [resume]. *)
Definition blocked (c : Control) : Prop :=
  c_queued c = false /\ c_suspended_wake c = false
  /\ (if c_suspended c then c_suspended_status c else c_status c) = Waiting.

(** Executing its program; its registers hold values of class [PackedLogic4]. *)
Definition running (s : Sync) (p : nat) : Prop :=
  exists x, processes s !! p = Some x /\ ps_halted x = false /\ ps_suspended x = false
            /\ ps_queued x = false /\ ps_status x = Running /\ Forall wf (ps_registers x).

Definition mailbox_pids (m : MailboxState) : list nat := (mr_process <$> mb_readers m) ++ (mw_process <$> mb_writers m).
Definition semaphore_pids (m : SemaphoreState) : list nat := sw_process <$> sem_waiters m.

(** The processes in the queues of mailboxes and semaphores. *)
Definition parked (s : Sync) : list nat :=
  (mailboxes s ≫= mailbox_pids) ++ (semaphores s ≫= semaphore_pids).

Definition resumes (l : list SyncTask) : list nat :=
  omap (fun t => match t with ResumeProcess p => Some p | TriggerEvent _ _ => None end) l.

(** A live process is in one queue at most, and then waits for nothing else; it is
    queued exactly once for the scheduler, or not at all, and not by its timer when
    it has a task of the current time. *)
Record waiting_ok (cs : list Control) (tasks : list SyncTask) (P : list nat) : Prop := {
  wo_valid : forall p, p ∈ P -> (p < length cs)%nat;
  wo_blocked : forall p c, cs !! p = Some c -> c_halted c = false -> p ∈ P \/ c_event c <> None -> blocked c;
  wo_exclusive : forall p c, cs !! p = Some c -> c_halted c = false -> p ∈ P -> c_event c = None;
  wo_nodup : NoDup (filter (fun p => alive cs p = true) P);
  wo_wake : forall p c, cs !! p = Some c -> c_suspended_wake c = true -> c_suspended c = true;
  wo_queued : forall p, p ∈ resumes tasks -> exists c, cs !! p = Some c /\ c_queued c = true /\ c_timer c = false;
  wo_once : NoDup (resumes tasks);
}.

(** The messages in a mailbox. *)
Definition contents (m : MailboxState) : list MailboxValue :=
  match mb_element_kind m with
  | Element_string => StringValue <$> mb_string_entries m
  | Element_packed => PackedValue <$> mb_entries m
  end.

Definition bytes_of (v : MailboxValue) : nat :=
  match v with PackedValue _ => O | StringValue s => String.length s end.

(** A message of the mailbox's element type. *)
Definition value_ok (m : MailboxState) (v : MailboxValue) : Prop :=
  match mb_element_kind m, v with
  | Element_packed, PackedValue v => width v = mb_element_width m
  | Element_string, StringValue s => string_size s <= maximum_string_bytes
  | _, _ => False
  end.

(** Readers wait only for an empty mailbox, writers only for a full one. *)
Record mailbox_ok (m : MailboxState) : Prop := {
  mo_capacity : 1 <= mb_capacity m <= maximum_container_storage_bytes;
  mo_room : size (contents m) <= mb_capacity m;
  mo_readers : mb_readers m <> [] -> contents m = [];
  mo_writers : mb_writers m <> [] -> size (contents m) = mb_capacity m;
  mo_values : Forall (value_ok m) (contents m);
  mo_offers : Forall (value_ok m) (mw_value <$> mb_writers m);
  mo_bytes : mb_string_bytes m = Z.of_nat (sum_list_with bytes_of (contents m));
}.

(** Nobody waits for keys that are there, unless behind a process that has halted. *)
Definition semaphore_ok (cs : list Control) (m : SemaphoreState) : Prop :=
  Forall (fun w => 0 <= sw_keys w) (sem_waiters m)
  /\ match sem_waiters m with
     | [] => True
     | w :: _ => alive cs (sw_process w) = false \/ sem_keys m < sw_keys w
     end.

Record sync_ok (s : Sync) : Prop := {
  so_mailboxes : Forall mailbox_ok (mailboxes s);
  so_semaphores : Forall (semaphore_ok (controls s)) (semaphores s);
  so_waiting : waiting_ok (controls s) (scheduled s) (parked s);
}.

(** ** Steps *)

(** What happens next. *)
Inductive action :=
  | Operate (p : nat) (operation : SyncOperation)
  | RunTask (task : SyncTask)
  | Complete (p : nat) (killed : bool)
  | Suspend (p : nat)
  | Resume (p : nat)
  | Elapse
  | Disable (p : nat)
  | Other (p : nat)
  | Spawn.

Inductive sync_step (s : Sync) : action -> Sync -> Prop :=
  | step_operate p operation s' handled :
      running s p -> handle_synchronization_boundary s p operation = Returned (s', handled) ->
      sync_step s (Operate p operation) s'
  | step_task before task after s' :
      scheduled s = before ++ task :: after ->
      run_task (with_scheduled s (before ++ after)) task = Returned s' -> sync_step s (RunTask task) s'
  | step_complete p killed s' : complete_process s p killed = Returned s' -> sync_step s (Complete p killed) s'
  | step_suspend p s' : suspend_process s p = Returned s' -> sync_step s (Suspend p) s'
  | step_resume p s' : resume_process s p = Returned s' -> sync_step s (Resume p) s'
  | step_elapse t :
      clock s <= t ->
      sync_step s Elapse (mkSync (processes s) (mailboxes s) (semaphores s) (dynamic_events s) t (scheduled s))
  | step_disable p x s' :
      processes s !! p = Some x -> p ∉ parked s -> ps_pending_dynamic_event x = None ->
      redirect_process s p = Returned s' -> sync_step s (Disable p) s'
  | step_other p x x' :
      processes s !! p = Some x -> p ∉ parked s -> ps_pending_dynamic_event x = None ->
      ps_pending_dynamic_event x' = None -> (ps_halted x = true -> ps_halted x' = true) ->
      (ps_suspended_wake x' = true -> ps_suspended x' = true) ->
      (p ∈ resumes (scheduled s) -> ps_queued x' = true /\ ps_timer_wake x' = false) ->
      sync_step s (Other p) (set_process s p x')
  | step_spawn x :
      ps_pending_dynamic_event x = None -> ps_suspended_wake x = false ->
      sync_step s Spawn (with_processes s (processes s ++ [x])).

(** ** Inverting results *)

Lemma bind_returned {A B} (m : SyncResult A) (f : A -> SyncResult B) b :
  (m ≫= f) = Returned b <-> exists a, m = Returned a /\ f a = Returned b.
Proof. destruct m; simpl; split; [eauto | by intros (? & [= ->] & ?) | done | by intros (? & ? & ?)]. Qed.

Lemma fail_when_returned c self message u : fail_when c self message = Returned u <-> c = false.
Proof. unfold fail_when. destruct c, u; split; done. Qed.

Lemma value_call_returned {A} (m : Outcome A) a : value_call m = Returned a <-> m = Ok a.
Proof. destruct m; simpl; split; [by intros [= ->] | by intros [= ->] | done | done]. Qed.

Lemma get_process_returned s p x : get_process s p = Returned x <-> processes s !! p = Some x.
Proof. unfold get_process. destruct (processes s !! p); split; congruence. Qed.

Lemma object_at_returned {A} (l : list A) i x : object_at l i = Returned x <-> l !! i = Some x.
Proof. unfold object_at. destruct (l !! i); split; congruence. Qed.

(** Takes apart a hypothesis that a sequence of calls returned. *)
Ltac returned_step H :=
  match type of H with
  | (_ ≫= _) = Returned _ =>
      let E := fresh "E" in apply bind_returned in H as (? & E & H); returned_step E; cbv beta in H; returned_step H
  | (let '(_, _) := ?x in _) = Returned _ => destruct x; returned_step H
  | fail_when _ _ _ = Returned _ => apply fail_when_returned in H
  | value_call _ = Returned _ => apply value_call_returned in H
  | get_process _ _ = Returned _ => apply get_process_returned in H
  | object_at _ _ = Returned _ => apply object_at_returned in H
  | Returned _ = Returned _ => injection H as H
  | Raised _ = Returned _ => discriminate H
  | _ => idtac
  end.
Tactic Notation "returned" hyp(H) := returned_step H; simplify_eq/=.

(** ** The waiting processes *)

Lemma alive_lookup cs p c : cs !! p = Some c -> alive cs p = negb (c_halted c).
Proof. unfold alive. by intros ->. Qed.

Lemma parked_distinct cs p P :
  alive cs p = true -> NoDup (filter (fun p => alive cs p = true) (p :: P)) -> p ∉ P.
Proof.
  intros Ha. rewrite filter_cons_True by done. rewrite NoDup_cons. intros [H _] ?. apply H.
  by apply list_elem_of_filter.
Qed.

#[global] Instance waiting_ok_proper cs tasks : Proper ((≡ₚ) ==> iff) (waiting_ok cs tasks).
Proof.
  assert (forall P Q, P ≡ₚ Q -> waiting_ok cs tasks P -> waiting_ok cs tasks Q) as H.
  { intros P Q E []. split; try done; try (setoid_rewrite <- E; done). }
  intros P Q E. split; apply H; done.
Qed.

Lemma waiting_ok_drop cs tasks p P : waiting_ok cs tasks (p :: P) -> waiting_ok cs tasks P.
Proof.
  intros []. split; try done.
  - intros q Hq. apply wo_valid0. by right.
  - intros q c Hq Hc [H|H]; eapply wo_blocked0; eauto. left. by right.
  - intros q c Hq Hc H. eapply wo_exclusive0; eauto. by right.
  - rewrite filter_cons in wo_nodup0. destruct (decide _); [by apply NoDup_cons in wo_nodup0 as []|done].
Qed.

Lemma alive_insert cs p c c' q :
  cs !! p = Some c -> (c_halted c = true -> c_halted c' = true) ->
  alive (<[p := c']> cs) q = true -> alive cs q = true.
Proof.
  intros Hp Hh. unfold alive. destruct (decide (p = q)) as [<-|].
  - rewrite list_lookup_insert_eq by by eapply lookup_lt_Some. rewrite Hp.
    destruct (c_halted c), (c_halted c'); simpl; auto.
  - by rewrite list_lookup_insert_ne.
Qed.

Lemma filter_alive_sublist cs cs' P :
  (forall q, alive cs' q = true -> alive cs q = true) ->
  filter (fun p => alive cs' p = true) P `sublist_of` filter (fun p => alive cs p = true) P.
Proof.
  intros H. induction P as [|p P IH]; [done|]. rewrite !filter_cons.
  destruct (decide (alive cs' p = true)) as [E|E].
  - rewrite decide_True by auto. by apply sublist_skip.
  - destruct (decide _); [by apply sublist_cons|done].
Qed.

(** One process changes. *)
Lemma waiting_ok_update cs tasks P p c c' :
  waiting_ok cs tasks P -> cs !! p = Some c -> (c_halted c = true -> c_halted c' = true) ->
  (c_halted c' = false -> p ∈ P \/ c_event c' <> None -> blocked c') ->
  (c_halted c' = false -> p ∈ P -> c_event c' = None) ->
  (c_suspended_wake c' = true -> c_suspended c' = true) ->
  (p ∈ resumes tasks -> c_queued c' = true /\ c_timer c' = false) ->
  waiting_ok (<[p := c']> cs) tasks P.
Proof.
  intros W Hp Hh Hb He Hw Hq.
  assert (p < length cs)%nat as Hlt by by eapply lookup_lt_Some.
  destruct W. split; try done.
  - intros q Hin. rewrite length_insert. auto.
  - intros q d. destruct (decide (p = q)) as [<-|]; [|rewrite list_lookup_insert_ne by done; eauto].
    rewrite list_lookup_insert_eq by done. intros [= <-]. auto.
  - intros q d. destruct (decide (p = q)) as [<-|]; [|rewrite list_lookup_insert_ne by done; eauto].
    rewrite list_lookup_insert_eq by done. intros [= <-]. auto.
  - eapply sublist_NoDup; [exact wo_nodup0|]. apply filter_alive_sublist. intros q. by eapply alive_insert.
  - intros q d. destruct (decide (p = q)) as [<-|]; [|rewrite list_lookup_insert_ne by done; eauto].
    rewrite list_lookup_insert_eq by done. intros [= <-]. auto.
  - intros q Hin. destruct (decide (p = q)) as [<-|]; [|rewrite list_lookup_insert_ne by done; eauto].
    rewrite list_lookup_insert_eq by done. eauto.
Qed.

Lemma resumes_app l1 l2 : resumes (l1 ++ l2) = resumes l1 ++ resumes l2.
Proof. apply omap_app. Qed.

Lemma waiting_ok_schedule cs tasks P p c :
  waiting_ok cs tasks P -> cs !! p = Some c -> c_queued c = true /\ c_timer c = false -> p ∉ resumes tasks ->
  waiting_ok cs (tasks ++ [ResumeProcess p]) P.
Proof.
  intros [] Hp Hc Hq. split; try done; rewrite resumes_app; simpl.
  - intros q. rewrite elem_of_app, list_elem_of_singleton. intros [?| ->]; eauto.
  - apply NoDup_app. split; [done|]. split; [|apply NoDup_singleton].
    intros q Hin. by intros ->%list_elem_of_singleton.
Qed.

Lemma waiting_ok_trigger cs tasks P h i : waiting_ok cs tasks P -> waiting_ok cs (tasks ++ [TriggerEvent h i]) P.
Proof. intros []. split; try done; rewrite resumes_app, app_nil_r; done. Qed.

(** A queued process that is not waiting is woken. *)
Definition woken (c : Control) : Control :=
  mkControl (c_halted c) Running (c_suspended c) (c_suspended_status c) (c_suspended_wake c) true false None.

Lemma waiting_ok_woken cs tasks P p c :
  waiting_ok cs tasks P -> cs !! p = Some c -> c_halted c = false -> c_queued c = false -> p ∉ P ->
  waiting_ok (<[p := woken c]> cs) (tasks ++ [ResumeProcess p]) P.
Proof.
  intros W Hp Hh Hq HP. eapply waiting_ok_schedule.
  - eapply waiting_ok_update; try done; simpl.
    + intros _ [?|?]; done.
    + by eapply wo_wake.
  - apply list_lookup_insert_eq. by eapply lookup_lt_Some.
  - done.
  - intros Hin. destruct (wo_queued _ _ _ W _ Hin) as (d & Hd & ? & _). congruence.
Qed.

(** The first process of a queue is woken. *)
Lemma waiting_ok_wake cs tasks P p c :
  waiting_ok cs tasks (p :: P) -> cs !! p = Some c -> c_halted c = false ->
  waiting_ok (<[p := woken c]> cs) (tasks ++ [ResumeProcess p]) P /\ c_queued c = false /\ c_event c = None.
Proof.
  intros W Hp Hh.
  assert (alive cs p = true) as Ha by (rewrite (alive_lookup _ _ _ Hp), Hh; done).
  assert (p ∉ P) as HP by (eapply parked_distinct; [done|]; by apply wo_nodup in W).
  assert (blocked c) as (Hq & _ & _) by (eapply wo_blocked; [exact W|done|done|left; by left]).
  split; [|split; [done|eapply wo_exclusive; [exact W|done|done|by left]]].
  apply waiting_ok_woken; try done. by eapply waiting_ok_drop.
Qed.

(** ** What the calls change *)

Definition objects_of (s : Sync) := (mailboxes s, semaphores s, dynamic_events s, clock s).

(** Only process [p] differs. *)
Definition only (p : nat) (s s' : Sync) : Prop :=
  objects_of s' = objects_of s /\ length (processes s') = length (processes s)
  /\ forall q, q <> p -> processes s' !! q = processes s !! q.

(** Only the registers of process [p] differ. *)
Definition registers_only (p : nat) (s s' : Sync) : Prop :=
  only p s s' /\ controls s' = controls s /\ scheduled s' = scheduled s.

Lemma only_refl p s : only p s s.
Proof. done. Qed.

Lemma only_trans p s1 s2 s3 : only p s1 s2 -> only p s2 s3 -> only p s1 s3.
Proof.
  intros (E1 & L1 & H1) (E2 & L2 & H2). split; [congruence|]. split; [congruence|].
  intros q Hq. by rewrite H2, H1.
Qed.

Lemma only_set p s x : only p s (set_process s p x).
Proof.
  split; [done|]. split; [apply length_insert|]. intros q Hq. simpl. by apply list_lookup_insert_ne.
Qed.

Lemma controls_set s p x : controls (set_process s p x) = <[p := control x]> (controls s).
Proof. apply list_fmap_insert. Qed.

Lemma controls_set_same s p x y :
  processes s !! p = Some y -> control x = control y -> controls (set_process s p x) = controls s.
Proof.
  intros Hp E. rewrite controls_set, E. apply list_insert_id. unfold controls. by rewrite list_lookup_fmap, Hp.
Qed.

Lemma lookup_controls s p c :
  controls s !! p = Some c <-> exists x, processes s !! p = Some x /\ control x = c.
Proof.
  unfold controls. rewrite list_lookup_fmap, fmap_Some.
  split; intros (x & ? & ?); exists x; auto.
Qed.

Lemma set_process_lookup s p x y : processes s !! p = Some y -> processes (set_process s p x) !! p = Some x.
Proof. intros H. apply list_lookup_insert_eq. by eapply lookup_lt_Some. Qed.

Lemma registers_only_set p s x y :
  processes s !! p = Some y -> control x = control y -> registers_only p s (set_process s p x).
Proof.
  intros Hp E. split; [apply only_set|]. split; [by eapply controls_set_same|done].
Qed.

Lemma registers_only_trans p s1 s2 s3 :
  registers_only p s1 s2 -> registers_only p s2 s3 -> registers_only p s1 s3.
Proof. intros (? & ? & ?) (? & ? & ?). split; [by eapply only_trans|]. split; congruence. Qed.

Lemma registers_only_refl p s : registers_only p s s.
Proof. done. Qed.

Lemma write_process_register_keeps s p d v s' :
  write_process_register s p d v = Returned s' -> registers_only p s s'.
Proof. unfold write_process_register. intros H. returned H. by eapply registers_only_set. Qed.

Lemma write_process_string_register_keeps s p d v s' :
  write_process_string_register s p d v = Returned s' -> registers_only p s s'.
Proof. unfold write_process_string_register. intros H. returned H. by eapply registers_only_set. Qed.

Lemma write_word_keeps s p d w v s' : write_word s p d w v = Returned s' -> registers_only p s s'.
Proof. unfold write_word. intros H. returned H. by eapply write_process_register_keeps. Qed.

Lemma write_result_keeps s p r b s' : write_result s p r b = Returned s' -> registers_only p s s'.
Proof.
  destruct r; simpl; [unfold write_bool; apply write_word_keeps|]. intros [= <-]. apply registers_only_refl.
Qed.

Lemma client_write_keeps s p o v s' : client_write s p o v = Returned s' -> registers_only p s s'.
Proof. destruct v; [apply write_process_register_keeps|apply write_process_string_register_keeps]. Qed.

(** What a reader finds in its destination. *)
Definition received (s : Sync) (r : MailboxReader) (v : MailboxValue) : Prop :=
  exists x, processes s !! mr_process r = Some x /\
    match v with
    | PackedValue v => exists w, coerce_value_kind v (register_value_kind x (mr_destination r)) = Ok w
                                 /\ ps_registers x !! mr_destination r = Some w
    | StringValue v => ps_string_registers x !! mr_string_destination r = Some v
    end.

Lemma received_frame s s' r v :
  processes s' !! mr_process r = processes s !! mr_process r -> received s r v -> received s' r v.
Proof. intros E (x & Hx & H). exists x. by rewrite E. Qed.

Lemma get_register_valid self p d v : get_register self p d = Returned v -> (d < length (ps_registers p))%nat.
Proof. unfold get_register. destruct (_ !! _) eqn:E; [|done]. intros _. by eapply lookup_lt_Some. Qed.

Lemma get_string_register_valid self p d v :
  get_string_register self p d = Returned v -> (d < length (ps_string_registers p))%nat.
Proof. unfold get_string_register. destruct (_ !! _) eqn:E; [|done]. intros _. by eapply lookup_lt_Some. Qed.

Lemma write_process_register_written s p d v s' :
  write_process_register s p d v = Returned s' ->
  exists x w, processes s' !! p = Some x /\ coerce_value_kind v (register_value_kind x d) = Ok w
              /\ ps_registers x !! d = Some w.
Proof.
  unfold write_process_register. intros H. returned H. apply get_register_valid in E1.
  eexists _, _. split; [by eapply set_process_lookup|]. split; [done|]. simpl. by apply list_lookup_insert_eq.
Qed.

Lemma write_process_string_register_written s p d v s' :
  write_process_string_register s p d v = Returned s' ->
  exists x, processes s' !! p = Some x /\ ps_string_registers x !! d = Some v.
Proof.
  unfold write_process_string_register. intros H. returned H. apply get_string_register_valid in E1.
  eexists. split; [by eapply set_process_lookup|]. simpl. by apply list_lookup_insert_eq.
Qed.

Lemma synchronization_deliver_effect s r v s' :
  synchronization_deliver s r v = Returned s' ->
  registers_only (mr_process r) s s' /\ (alive (controls s) (mr_process r) = true -> received s' r v).
Proof.
  unfold synchronization_deliver. intros H. apply bind_returned in H as (x & Hx & H).
  apply get_process_returned in Hx.
  assert (alive (controls s) (mr_process r) = negb (ps_halted x)) as ->.
  { rewrite (alive_lookup _ _ (control x)); [done|]. apply lookup_controls. eauto. }
  destruct v as [v|v]; destruct (ps_halted x) eqn:Eh; returned H;
    try (split; [by eapply registers_only_set|done]).
  - pose proof (write_process_register_keeps _ _ _ _ _ E).
    destruct (write_process_register_written _ _ _ _ _ E) as (y & w & Hy & Hw & Hd). simplify_eq.
    split; [eapply registers_only_trans; [done|]; by eapply registers_only_set|]. intros _.
    eexists. split; [by eapply set_process_lookup|]. exists w. done.
  - pose proof (write_process_string_register_keeps _ _ _ _ _ E).
    destruct (write_process_string_register_written _ _ _ _ _ E) as (y & Hy & Hd). simplify_eq.
    split; [eapply registers_only_trans; [done|]; by eapply registers_only_set|]. intros _.
    eexists. split; [by eapply set_process_lookup|]. done.
Qed.

(** Waking a process that does not wait for an event and is not queued. *)
Lemma synchronization_wake_effect s p s' b :
  synchronization_wake s p = Returned (s', b) ->
  exists c, controls s !! p = Some c /\
    if c_halted c then s' = s /\ b = false
    else b = true /\ (c_queued c = false -> c_event c = None ->
           only p s s' /\ controls s' = <[p := woken c]> (controls s) /\ scheduled s' = scheduled s ++ [ResumeProcess p]
           /\ forall x, processes s !! p = Some x -> exists y, processes s' !! p = Some y
                /\ ps_registers y = ps_registers x /\ ps_string_registers y = ps_string_registers x
                /\ ps_register_value_kinds y = ps_register_value_kinds x).
Proof.
  unfold synchronization_wake, queue_active_current. intros H. apply bind_returned in H as (x & Hx & H).
  apply get_process_returned in Hx. exists (control x). split; [apply lookup_controls; eauto|]. simpl.
  destruct (ps_halted x) eqn:Eh; returned H; [done|]. split.
  { destruct (ps_halted x1 || ps_queued x1); returned E; done. }
  intros Hq He.
  rewrite list_lookup_insert_eq in E0 by by eapply lookup_lt_Some. simplify_eq/=. rewrite Eh, Hq in E. simpl in E. simplify_eq/=.
  split_and!.
  - split; [done|]. split; [simpl; by rewrite !length_insert|].
    intros q Hqp. simpl. by rewrite !list_lookup_insert_ne.
  - unfold controls. simpl. rewrite list_insert_insert_eq, list_fmap_insert. f_equal.
    unfold control, woken; simpl. by rewrite He.
  - done.
  - intros y Hy. simplify_eq. eexists. simpl. rewrite list_insert_insert_eq.
    split; [apply list_lookup_insert_eq; by eapply lookup_lt_Some|done].
Qed.

(** ** The loops over queues *)

(** The calls change processes and tasks, and no process halts. *)
Definition processes_only (s s' : Sync) : Prop :=
  objects_of s' = objects_of s /\ length (processes s') = length (processes s)
  /\ forall q, alive (controls s') q = alive (controls s) q.

Lemma processes_only_refl s : processes_only s s.
Proof. done. Qed.

Lemma processes_only_trans s1 s2 s3 : processes_only s1 s2 -> processes_only s2 s3 -> processes_only s1 s3.
Proof.
  intros (E1 & L1 & H1) (E2 & L2 & H2). split; [congruence|]. split; [congruence|].
  intros q. by rewrite H2, H1.
Qed.

Lemma processes_only_alive s s' q : processes_only s s' -> alive (controls s') q = alive (controls s) q.
Proof. by intros (_ & _ & H). Qed.

Lemma registers_only_processes p s s' : registers_only p s s' -> processes_only s s'.
Proof. intros ((? & ? & ?) & E & ?). split; [done|]. split; [done|]. by rewrite E. Qed.

Lemma alive_update cs p c c' q :
  cs !! p = Some c -> c_halted c' = c_halted c -> alive (<[p := c']> cs) q = alive cs q.
Proof.
  intros Hp E. unfold alive. destruct (decide (p = q)) as [<-|]; [|by rewrite list_lookup_insert_ne].
  rewrite list_lookup_insert_eq by by eapply lookup_lt_Some. by rewrite Hp, E.
Qed.

(** Waking the head of a queue. *)
Lemma wake_first s p P s' b :
  synchronization_wake s p = Returned (s', b) -> waiting_ok (controls s) (scheduled s) (p :: P) ->
  b = alive (controls s) p /\ processes_only s s' /\ waiting_ok (controls s') (scheduled s') P
  /\ scheduled s' = scheduled s ++ (if b then [ResumeProcess p] else [])
  /\ (forall q, q <> p -> processes s' !! q = processes s !! q)
  /\ (forall r v, mr_process r = p -> received s r v -> received s' r v).
Proof.
  intros (c & Hc & H)%synchronization_wake_effect W.
  rewrite (alive_lookup _ _ _ Hc). destruct (c_halted c) eqn:Eh.
  { destruct H as [-> ->]. simpl. rewrite app_nil_r. split_and!; try done. by eapply waiting_ok_drop. }
  destruct (waiting_ok_wake _ _ _ _ _ W Hc Eh) as (W' & Hq & He).
  destruct H as (-> & H). destruct (H Hq He) as ((HO & HL & Hp) & EC & ES & HX). split_and!; try done.
  - split; [done|]. split; [done|]. rewrite EC. intros q. by eapply alive_update.
  - by rewrite EC, ES.
  - intros r v <- (x & Hx & Hr). destruct (HX _ Hx) as (y & Hy & R1 & R2 & R3). exists y. split; [done|].
    unfold register_value_kind in *. rewrite R1, R2, R3. done.
Qed.

(** The first live reader that takes the message away. *)
Fixpoint first_taker (cs : list Control) (readers : list MailboxReader) : option MailboxReader :=
  match readers with
  | [] => None
  | r :: readers => if alive cs (mr_process r) && negb (mr_peek r) then Some r else first_taker cs readers
  end.

(** The readers behind it. *)
Fixpoint behind_taker (cs : list Control) (readers : list MailboxReader) : list MailboxReader :=
  match readers with
  | [] => []
  | r :: readers => if alive cs (mr_process r) && negb (mr_peek r) then readers else behind_taker cs readers
  end.

(** The live readers that get a copy of the message, in order. *)
Fixpoint served (cs : list Control) (readers : list MailboxReader) : list MailboxReader :=
  match readers with
  | [] => []
  | r :: readers =>
      if alive cs (mr_process r) then if mr_peek r then r :: served cs readers else [r] else served cs readers
  end.

Lemma taker_ext cs cs' readers :
  (forall q, alive cs' q = alive cs q) ->
  first_taker cs' readers = first_taker cs readers /\ behind_taker cs' readers = behind_taker cs readers
  /\ served cs' readers = served cs readers.
Proof.
  intros E. induction readers as [|r readers (I1 & I2 & I3)]; [done|]. simpl. rewrite E, I1, I2, I3. done.
Qed.

Lemma served_in cs readers r : r ∈ served cs readers -> r ∈ readers /\ alive cs (mr_process r) = true.
Proof.
  induction readers as [|q readers IH]; simpl; [by intros ?%elem_of_nil|].
  assert (r ∈ served cs readers -> r ∈ q :: readers /\ alive cs (mr_process r) = true) as IH'.
  { intros [? ?]%IH. split; [by right|done]. }
  destruct (alive cs (mr_process q)) eqn:E; [|done].
  destruct (mr_peek q); [intros [->|?]%elem_of_cons|intros ->%list_elem_of_singleton]; auto; split; auto; by left.
Qed.

Lemma served_pids cs readers p : p ∈ mr_process <$> served cs readers -> p ∈ mr_process <$> readers.
Proof. intros (r & -> & [Hr _]%served_in)%list_elem_of_fmap. by apply list_elem_of_fmap_2. Qed.

Lemma deliver_loop_ok readers v P : forall s s' left consumed,
  deliver_loop s readers v = Returned (s', left, consumed) ->
  waiting_ok (controls s) (scheduled s) ((mr_process <$> readers) ++ P) ->
  processes_only s s' /\ waiting_ok (controls s') (scheduled s') ((mr_process <$> left) ++ P)
  /\ left = behind_taker (controls s) readers /\ consumed = bool_decide (is_Some (first_taker (controls s) readers))
  /\ scheduled s' = scheduled s ++ (ResumeProcess ∘ mr_process <$> served (controls s) readers)
  /\ (forall r, r ∈ served (controls s) readers -> received s' r v)
  /\ (forall q, q ∉ mr_process <$> served (controls s) readers -> alive (controls s) q = true ->
        processes s' !! q = processes s !! q).
Proof.
  induction readers as [|r readers IH]; intros s s' left consumed H W; simpl in H.
  { simplify_eq/=. rewrite app_nil_r. split_and!; try done. by intros r ?%elem_of_nil. }
  apply bind_returned in H as (s1 & H1 & H). apply synchronization_deliver_effect in H1 as (R1 & HR).
  pose proof (registers_only_processes _ _ _ R1) as PO1. destruct R1 as ((_ & _ & Q1) & C1 & S1).
  apply bind_returned in H as (h & Hh & H). apply bind_returned in Hh as (x & Hx & [= <-]).
  apply get_process_returned in Hx.
  assert (alive (controls s) (mr_process r) = negb (ps_halted x)) as EA.
  { rewrite <- C1, (alive_lookup _ _ (control x)); [done|]. apply lookup_controls. eauto. }
  rewrite <- C1, <- S1 in W. simpl in W. cbn [served first_taker behind_taker]. rewrite EA in *.
  destruct (ps_halted x); simpl in *.
  { apply waiting_ok_drop in W. destruct (IH _ _ _ _ H W) as (PO & W' & -> & -> & ES & HS & HQ).
    rewrite C1, S1 in *. split_and!; try done; [by eapply processes_only_trans|].
    intros q Hq Ha. rewrite HQ by done. apply Q1. intros ->. congruence. }
  apply bind_returned in H as ([s2 b] & H2 & H).
  destruct (wake_first _ _ _ _ _ H2 W) as (-> & PO2 & W2 & S2 & Q2 & HR2).
  assert (mr_process r ∉ (mr_process <$> readers) ++ P) as Hnew.
  { eapply parked_distinct; [|eapply wo_nodup, W]. by rewrite C1. }
  rewrite C1, EA, S1 in *. specialize (HR eq_refl).
  destruct (mr_peek r); simpl.
  - destruct (IH _ _ _ _ H W2) as (PO & W' & EL & EB & ES & HS & HQ).
    destruct (taker_ext (controls s) (controls s2) readers) as (T1 & T2 & T3).
    { intros q. rewrite <- C1. apply PO2. }
    rewrite T1, T2, T3 in *. split_and!; try done.
    + eapply processes_only_trans; [done|]. by eapply processes_only_trans.
    + rewrite ES, S2, <- app_assoc. done.
    + intros q [->|Hq]%elem_of_cons; [|by apply HS]. eapply received_frame; [|by apply HR2].
      apply HQ; [|by rewrite (processes_only_alive _ _ _ PO2), C1]. intros Hin%served_pids. apply Hnew. apply elem_of_app. by left.
    + intros q Hq Ha. apply not_elem_of_cons in Hq as [Hq1 Hq2].
      rewrite HQ, Q2, Q1; try done. by rewrite (processes_only_alive _ _ _ PO2), C1.
  - simplify_eq. split_and!; try done.
    + by eapply processes_only_trans.
    + intros q ->%list_elem_of_singleton. by apply HR2.
    + intros q Hq Ha. apply not_elem_of_cons in Hq as [Hq1 _]. by rewrite Q2, Q1.
Qed.

(** The writers that have not halted. *)
Definition live_writers (cs : list Control) (l : list MailboxWriter) : list MailboxWriter :=
  filter (fun w => alive cs (mw_process w) = true) l.

Lemma live_writers_ext cs cs' l : (forall q, alive cs' q = alive cs q) -> live_writers cs' l = live_writers cs l.
Proof. intros E. apply list_filter_iff. intros w. by rewrite E. Qed.

Lemma admit_loop_ok writers P : forall s s' left admitted,
  admit_loop s writers = Returned (s', left, admitted) ->
  waiting_ok (controls s) (scheduled s) ((mw_process <$> writers) ++ P) ->
  processes_only s s' /\ waiting_ok (controls s') (scheduled s') ((mw_process <$> left) ++ P)
  /\ admitted = mw_value <$> head (live_writers (controls s) writers)
  /\ live_writers (controls s) left = tail (live_writers (controls s) writers)
  /\ (admitted = None -> left = []) /\ left `suffix_of` writers
  /\ (forall q, q ∉ mw_process <$> writers -> processes s' !! q = processes s !! q).
Proof.
  induction writers as [|w writers IH]; intros s s' left admitted H W; simpl in H.
  { simplify_eq/=. done. }
  apply bind_returned in H as ([s1 b] & H1 & H).
  destruct (wake_first _ _ _ _ _ H1 W) as (-> & PO & W1 & _ & Q1 & _).
  destruct (alive (controls s) (mw_process w)) eqn:EA; simpl.
  - unfold live_writers. rewrite filter_cons_True by done. simplify_eq. split_and!; try done.
    + by apply suffix_cons_r.
    + intros q Hq. apply not_elem_of_cons in Hq as [Hq _]. by apply Q1.
  - assert (live_writers (controls s) (w :: writers) = live_writers (controls s) writers) as ->.
    { apply filter_cons_False. by rewrite EA. }
    destruct (IH _ _ _ _ H W1) as (PO2 & W2 & EV & EL & EN & ES & Q2).
    assert (forall l, live_writers (controls s1) l = live_writers (controls s) l) as EX.
    { intros l. apply live_writers_ext. apply PO. }
    rewrite !EX in *.
    split_and!; try done.
    + by eapply processes_only_trans.
    + by apply suffix_cons_r.
    + intros q Hq. apply not_elem_of_cons in Hq as [Hq1 Hq2]. by rewrite Q2, Q1.
Qed.

(** The waiters that have not halted, and those that a number of keys satisfies in
    the order of the queue. *)
Definition live_waiters (cs : list Control) (l : list SemaphoreWaiter) : list SemaphoreWaiter :=
  filter (fun w => alive cs (sw_process w) = true) l.

Fixpoint satisfied (keys : Z) (l : list SemaphoreWaiter) : list SemaphoreWaiter :=
  match l with
  | [] => []
  | w :: l => if keys <? sw_keys w then [] else w :: satisfied (keys - sw_keys w) l
  end.

Definition keys_of (l : list SemaphoreWaiter) : Z := foldr (fun w n => sw_keys w + n) 0 l.

Lemma live_waiters_ext cs cs' l : (forall q, alive cs' q = alive cs q) -> live_waiters cs' l = live_waiters cs l.
Proof. intros E. apply list_filter_iff. intros w. by rewrite E. Qed.

Lemma grant_loop_ok waiters P : forall s keys s' m,
  grant_loop s keys waiters = Returned (s', m) ->
  Forall (fun w => 0 <= sw_keys w) waiters ->
  waiting_ok (controls s) (scheduled s) ((sw_process <$> waiters) ++ P) ->
  let granted := satisfied keys (live_waiters (controls s) waiters) in
  processes_only s s' /\ waiting_ok (controls s') (scheduled s') (semaphore_pids m ++ P)
  /\ live_waiters (controls s) waiters = granted ++ live_waiters (controls s) (sem_waiters m)
  /\ sem_keys m = keys - keys_of granted
  /\ scheduled s' = scheduled s ++ (ResumeProcess ∘ sw_process <$> granted)
  /\ semaphore_ok (controls s') m
  /\ sem_waiters m `suffix_of` waiters
  /\ (forall q, q ∉ sw_process <$> waiters -> processes s' !! q = processes s !! q).
Proof.
  induction waiters as [|w waiters IH]; intros s keys s' m H K W; simpl in H.
  { simplify_eq/=. rewrite app_nil_r. split_and!; try done. simpl. lia. }
  apply bind_returned in H as (h & Hh & H). apply bind_returned in Hh as (x & Hx & [= <-]).
  apply get_process_returned in Hx.
  assert (alive (controls s) (sw_process w) = negb (ps_halted x)) as EA.
  { rewrite (alive_lookup _ _ (control x)); [done|]. apply lookup_controls. eauto. }
  unfold live_waiters. rewrite filter_cons, EA. apply Forall_cons in K as [K1 K].
  destruct (ps_halted x); simpl in *.
  { apply waiting_ok_drop in W. destruct (IH _ _ _ _ H K W) as (R1 & R2 & R3 & R4 & R5 & R6 & R7 & R8).
    split_and!; try done; [by apply suffix_cons_r|]. intros q Hq. apply not_elem_of_cons in Hq as [_ Hq]. by apply R8. }
  destruct (keys <? sw_keys w) eqn:EK.
  - simplify_eq/=. rewrite filter_cons, EA. simpl. rewrite app_nil_r. split_and!; try done; [lia|].
    split; [by constructor|]. right. simpl. lia.
  - apply bind_returned in H as ([s1 b] & H1 & H).
    destruct (wake_first _ _ _ _ _ H1 W) as (-> & PO & W1 & S1 & Q1 & _).
    destruct (IH _ _ _ _ H K W1) as (PO2 & W2 & E1 & E2 & E3 & OK & HS & Q2).
    assert (forall l, live_waiters (controls s1) l = live_waiters (controls s) l) as EX.
    { intros l. apply live_waiters_ext. apply PO. }
    rewrite !EX in *. unfold live_waiters in *.
    split_and!; try done.
    + by eapply processes_only_trans.
    + by rewrite E1 at 1.
    + rewrite E2. unfold keys_of. simpl. lia.
    + rewrite E3, S1, EA, <- app_assoc. done.
    + by apply suffix_cons_r.
    + intros q Hq. apply not_elem_of_cons in Hq as [Hq1 Hq2]. by rewrite Q2, Q1.
Qed.

(** A process that an event wakes. *)
Definition wakes_on (c : Control) (handle : Z) : bool :=
  negb (c_halted c) && bool_decide (c_status c = Waiting) && bool_decide (c_event c = Some handle).

Lemma event_wake_ok s p handle s' P :
  synchronization_event_wake s p handle = Returned s' -> waiting_ok (controls s) (scheduled s) P ->
  processes_only s s' /\ waiting_ok (controls s') (scheduled s') P
  /\ exists c, controls s !! p = Some c /\
     controls s' = (if wakes_on c handle then <[p := woken c]> (controls s) else controls s) /\
     scheduled s' = scheduled s ++ (if wakes_on c handle then [ResumeProcess p] else []).
Proof.
  unfold synchronization_event_wake. intros H W. apply bind_returned in H as (x & Hx & H).
  apply get_process_returned in Hx.
  assert (controls s !! p = Some (control x)) as HC by (apply lookup_controls; eauto).
  assert (wakes_on (control x) handle = negb (ps_halted x || negb (bool_decide (ps_status x = Waiting))
     || negb (bool_decide (ps_pending_dynamic_event x = Some handle)))) as EW.
  { unfold wakes_on. simpl. by destruct (ps_halted x), (bool_decide _), (bool_decide _). }
  destruct (_ || _) eqn:EB; simpl in EW.
  { simplify_eq. split_and!; try done. exists (control x). rewrite EW, app_nil_r. done. }
  apply orb_false_iff in EB as [[Eh Es]%orb_false_iff Ee].
  apply negb_false_iff, bool_decide_eq_true in Es, Ee.
  assert (blocked (control x)) as (Hq & _) by (eapply wo_blocked; try done; right; simpl; congruence).
  assert (p ∉ P) as HP.
  { intros HP. pose proof (wo_exclusive _ _ _ W _ _ HC Eh HP) as HN. simpl in HN. congruence. }
  unfold queue_active_current in H. apply bind_returned in H as (y & Hy & H). apply get_process_returned in Hy.
  rewrite (set_process_lookup _ _ _ _ Hx) in Hy. simplify_eq/=. rewrite Eh, Hq in H. simpl in H. simplify_eq/=.
  assert (controls (with_scheduled (set_process (set_process s p (with_process_status (with_pending x
            (ps_pending_mailbox_result x) (ps_pending_mailbox_string_result x) None) Running)) p
            (with_queued (with_process_status (with_pending x
            (ps_pending_mailbox_result x) (ps_pending_mailbox_string_result x) None) Running) true false))
            (scheduled s ++ [ResumeProcess p])) = <[p := woken (control x)]> (controls s)) as EC.
  { unfold controls. simpl. by rewrite list_insert_insert_eq, list_fmap_insert. }
  split_and!.
  - split; [done|]. split; [simpl; by rewrite !length_insert|]. rewrite EC. intros q. by eapply alive_update.
  - rewrite EC. simpl. by apply waiting_ok_woken.
  - exists (control x). rewrite EW. by split_and!.
Qed.

Lemma event_wake_loop_ok waiters handle P : forall s s',
  event_wake_loop s waiters handle = Returned s' -> waiting_ok (controls s) (scheduled s) P ->
  processes_only s s' /\ waiting_ok (controls s') (scheduled s') P
  /\ forall q c, controls s !! q = Some c ->
     controls s' !! q = Some (if bool_decide (q ∈ waiters) && wakes_on c handle then woken c else c).
Proof.
  induction waiters as [|p waiters IH]; intros s s' H W; simpl in H.
  { simplify_eq. done. }
  apply bind_returned in H as (s1 & H1 & H).
  destruct (event_wake_ok _ _ _ _ _ H1 W) as (PO & W1 & c & HC & EC & _).
  destruct (IH _ _ H W1) as (PO2 & W2 & HQ). split; [by eapply processes_only_trans|]. split; [done|].
  assert (wakes_on (woken c) handle = false) as EN by (unfold wakes_on; simpl; by rewrite andb_false_r).
  intros q d Hq. destruct (decide (p = q)) as [<-|Hne].
  - simplify_eq. rewrite (bool_decide_true (p ∈ p :: waiters)) by by left. simpl.
    destruct (wakes_on c handle) eqn:EW.
    + rewrite (HQ p (woken c)); [by rewrite EN, andb_false_r|]. rewrite EC.
      apply list_lookup_insert_eq. by eapply lookup_lt_Some.
    + rewrite (HQ p c); [by rewrite EW, andb_false_r|]. by rewrite EC.
  - rewrite (HQ q d).
    + rewrite (bool_decide_ext (q ∈ waiters) (q ∈ p :: waiters)); [done|]. rewrite elem_of_cons. naive_solver.
    + rewrite EC. destruct (wakes_on c handle); [by rewrite list_lookup_insert_ne|done].
Qed.

(** ** Queues of one object *)

Lemma delete_insert {A} (l : list A) i x : delete i (<[i := x]> l) = delete i l.
Proof. revert i. induction l as [|y l IH]; intros [|i]; simpl; [done..|]. by rewrite IH. Qed.

Lemma insert_Permutation_delete {A} (l : list A) i x y : l !! i = Some y -> <[i := x]> l ≡ₚ x :: delete i l.
Proof.
  intros H. rewrite (delete_Permutation (<[i := x]> l) i x).
  - by rewrite delete_insert.
  - apply list_lookup_insert_eq. by eapply lookup_lt_Some.
Qed.

Definition beside_mailbox (s : Sync) (i : nat) : list nat :=
  (delete i (mailboxes s) ≫= mailbox_pids) ++ (semaphores s ≫= semaphore_pids).
Definition beside_semaphore (s : Sync) (i : nat) : list nat :=
  (delete i (semaphores s) ≫= semaphore_pids) ++ (mailboxes s ≫= mailbox_pids).

Lemma bind_Permutation {A B} (f : A -> list B) (l k : list A) : l ≡ₚ k -> (l ≫= f) ≡ₚ (k ≫= f).
Proof. by intros ->. Qed.

Lemma parked_mailbox s i m : mailboxes s !! i = Some m -> parked s ≡ₚ mailbox_pids m ++ beside_mailbox s i.
Proof.
  intros H. unfold parked, beside_mailbox.
  rewrite (bind_Permutation _ _ _ (delete_Permutation _ _ _ H)). simpl. by rewrite <- app_assoc.
Qed.

Lemma parked_semaphore s i m : semaphores s !! i = Some m -> parked s ≡ₚ semaphore_pids m ++ beside_semaphore s i.
Proof.
  intros H. unfold parked, beside_semaphore.
  rewrite (bind_Permutation _ _ _ (delete_Permutation _ _ _ H)). simpl.
  rewrite Permutation_app_comm, <- app_assoc. done.
Qed.

Lemma parked_set_mailbox s s' i m m' :
  mailboxes s !! i = Some m -> objects_of s' = (<[i := m']> (mailboxes s), semaphores s, dynamic_events s, clock s) ->
  parked s' ≡ₚ mailbox_pids m' ++ beside_mailbox s i.
Proof.
  intros H [= E1 E2 _ _]. rewrite (parked_mailbox s' i m').
  - unfold beside_mailbox. by rewrite E1, E2, delete_insert.
  - rewrite E1. apply list_lookup_insert_eq. by eapply lookup_lt_Some.
Qed.

Lemma parked_set_semaphore s s' i m m' :
  semaphores s !! i = Some m -> objects_of s' = (mailboxes s, <[i := m']> (semaphores s), dynamic_events s, clock s) ->
  parked s' ≡ₚ semaphore_pids m' ++ beside_semaphore s i.
Proof.
  intros H [= E1 E2 _ _]. rewrite (parked_semaphore s' i m').
  - unfold beside_semaphore. by rewrite E1, E2, delete_insert.
  - rewrite E2. apply list_lookup_insert_eq. by eapply lookup_lt_Some.
Qed.

(** A running process is in no queue and waits for no event. *)
Lemma running_free s p :
  sync_ok s -> running s p ->
  (p ∉ parked s) /\ exists c, controls s !! p = Some c /\ c_event c = None /\ c_halted c = false
                            /\ c_suspended c = false /\ c_queued c = false /\ c_status c = Running.
Proof.
  intros OK (x & Hx & Hh & Hs & Hq & Hr & _).
  assert (controls s !! p = Some (control x)) as Hc by (apply lookup_controls; eauto).
  assert (~ blocked (control x)) as HB.
  { intros (_ & _ & H). simpl in H. rewrite Hs in H. congruence. }
  split; [intros HP|exists (control x); split_and!; try done].
  - apply HB. eapply wo_blocked; [apply OK|done|done|by left].
  - destruct (c_event (control x)) eqn:E; [|done]. exfalso. apply HB.
    eapply wo_blocked; [apply OK|done|done|right; congruence].
Qed.

(** A running process starts to wait in a queue. *)
Definition waits (c : Control) (e : option Z) : Control :=
  mkControl (c_halted c) Waiting (c_suspended c) (c_suspended_status c) (c_suspended_wake c) (c_queued c) (c_timer c) e.

Lemma client_wait_effect s p w s' c :
  client_wait s p w = Returned s' -> controls s !! p = Some c -> c_event c = None ->
  objects_of s' = objects_of s /\ scheduled s' = scheduled s
  /\ controls s' = <[p := waits c (wait_dynamic_event w)]> (controls s)
  /\ length (processes s') = length (processes s) /\ (forall q, q <> p -> processes s' !! q = processes s !! q).
Proof.
  unfold client_wait. intros H Hc He. returned H. apply lookup_controls in Hc as (x' & ? & <-). simplify_eq/=.
  split_and!; try done.
  - rewrite controls_set. f_equal. unfold control, waits; simpl. rewrite He. by destruct (wait_dynamic_event w).
  - apply length_insert.
  - intros q Hq. simpl. by rewrite list_lookup_insert_ne.
Qed.

Lemma waiting_ok_park cs tasks P p c :
  waiting_ok cs tasks P -> cs !! p = Some c -> p ∉ P -> c_halted c = false -> c_suspended c = false ->
  c_queued c = false -> waiting_ok (<[p := waits c None]> cs) tasks (p :: P).
Proof.
  intros W Hp HP Hh Hs Hq.
  assert (c_suspended_wake c = false) as Hw.
  { destruct (c_suspended_wake c) eqn:E; [|done]. apply (wo_wake _ _ _ W _ _ Hp) in E. congruence. }
  assert (waiting_ok (<[p := waits c None]> cs) tasks P) as W'.
  { eapply waiting_ok_update; try done; simpl.
    - intros _ [?|?]; done.
    - by rewrite Hw.
    - intros Hin. destruct (wo_queued _ _ _ W _ Hin) as (d & Hd & ? & _). congruence. }
  assert (p < length cs)%nat as Hlt by by eapply lookup_lt_Some.
  destruct W'. split; try done.
  - intros q [->|?]%elem_of_cons; [by rewrite length_insert|auto].
  - intros q d Hd Hh' [[->|?]%elem_of_cons|?]; [|by eapply wo_blocked0; eauto..].
    rewrite list_lookup_insert_eq in Hd by done. simplify_eq/=. split_and!; simpl; try done. by rewrite Hs.
  - intros q d Hd Hh' [->|?]%elem_of_cons; [|by eapply wo_exclusive0; eauto].
    rewrite list_lookup_insert_eq in Hd by done. by simplify_eq.
  - rewrite filter_cons. destruct (decide _); [|done]. constructor; [|done].
    rewrite list_elem_of_filter. naive_solver.
Qed.
