(* ===== verification/SyncTheorems.v ===== *)
(** * Operations on mailboxes, semaphores and events

    What each operation of [SyncObjects] does to the tables, and that it keeps the
    invariant of [SyncWaiting]. *)
From S2P Require Import Prelude Logic WordSpan LogicWord PackedLogic4 PackedConvert PackedLogic9 SyncObjects SyncWaiting.
From stdpp Require Import options.

(** ** Contents of a mailbox *)

Lemma entry_count_contents m : entry_count m = size (contents m).
Proof. unfold entry_count, contents, size. destruct (mb_element_kind m); by rewrite length_fmap. Qed.

Lemma first_entry_contents m : first_entry m = head (contents m).
Proof. unfold first_entry, contents. destruct (mb_element_kind m); [by destruct (mb_entries m)|by destruct (mb_string_entries m)]. Qed.

Lemma contents_push m v : value_ok m v -> contents (append_entry m v) = contents m ++ [v].
Proof.
  unfold value_ok, contents. destruct (mb_element_kind m) eqn:E, v; simpl; try done; intros _;
    by rewrite E, fmap_app.
Qed.

Lemma contents_pop m v vs : contents m = v :: vs -> contents (pop_entry m) = vs.
Proof.
  unfold contents, pop_entry. destruct (mb_element_kind m) eqn:E; simpl.
  - rewrite ?E. destruct (mb_entries m); naive_solver.
  - destruct (mb_string_entries m) eqn:EE; simpl; rewrite ?E; [done|]. naive_solver.
Qed.

Lemma contents_queues m readers writers : contents (with_mailbox_queues m readers writers) = contents m.
Proof. done. Qed.

Lemma value_ok_same m m' v :
  mb_element_kind m' = mb_element_kind m -> mb_element_width m' = mb_element_width m -> value_ok m v -> value_ok m' v.
Proof. unfold value_ok. by intros -> ->. Qed.

Lemma push_same m v :
  mb_element_kind (append_entry m v) = mb_element_kind m /\ mb_element_width (append_entry m v) = mb_element_width m
  /\ mb_capacity (append_entry m v) = mb_capacity m /\ mb_readers (append_entry m v) = mb_readers m
  /\ mb_writers (append_entry m v) = mb_writers m.
Proof. by destruct v. Qed.

Lemma pop_same m :
  mb_element_kind (pop_entry m) = mb_element_kind m /\ mb_element_width (pop_entry m) = mb_element_width m
  /\ mb_capacity (pop_entry m) = mb_capacity m /\ mb_readers (pop_entry m) = mb_readers m
  /\ mb_writers (pop_entry m) = mb_writers m.
Proof. unfold pop_entry. destruct (mb_element_kind m) eqn:E; [done|]. by destruct (mb_string_entries m). Qed.

Lemma value_bytes m v : value_ok m v -> Z.of_nat (bytes_of v) <= 2 ^ 20.
Proof.
  unfold value_ok, string_size, maximum_string_bytes. destruct (mb_element_kind m), v; simpl; try done; lia.
Qed.

Lemma contents_bytes m l : Forall (value_ok m) l -> Z.of_nat (sum_list_with bytes_of l) <= size l * 2 ^ 20.
Proof.
  unfold size. induction 1 as [|v l Hv _ IH]; [done|]. apply value_bytes in Hv. simpl. lia.
Qed.

(** The byte count after a push and a pop. *)
Lemma push_bytes m v :
  mb_string_bytes m = Z.of_nat (sum_list_with bytes_of (contents m)) -> Forall (value_ok m) (contents m) ->
  size (contents m) <= maximum_container_storage_bytes -> value_ok m v ->
  mb_string_bytes (append_entry m v) = Z.of_nat (sum_list_with bytes_of (contents m ++ [v])).
Proof.
  intros E HF HS Hv. rewrite sum_list_with_app. pose proof (contents_bytes _ _ HF) as HB.
  pose proof (value_bytes _ _ Hv). unfold maximum_container_storage_bytes in HS.
  destruct v as [v|v]; simpl in *; [lia|]. rewrite E. unfold wrap64, string_size. rewrite Z.mod_small; lia.
Qed.

Lemma pop_bytes m v vs :
  mb_string_bytes m = Z.of_nat (sum_list_with bytes_of (contents m)) -> Forall (value_ok m) (contents m) ->
  size (contents m) <= maximum_container_storage_bytes -> contents m = v :: vs ->
  mb_string_bytes (pop_entry m) = Z.of_nat (sum_list_with bytes_of vs).
Proof.
  intros E HF HS EC. pose proof (contents_bytes _ _ HF) as HB. rewrite EC in *.
  apply Forall_cons in HF as [Hv HF]. unfold maximum_container_storage_bytes in HS. revert EC E HB Hv.
  unfold contents, pop_entry, value_ok. destruct (mb_element_kind m) eqn:EK; simpl.
  - destruct v; intros EC E HB Hv; done.
  - destruct (mb_string_entries m) as [|x xs]; simpl; [done|]. intros [= <- <-] E HB Hv. simpl in *.
    unfold wrap64, string_size in *. rewrite E. rewrite Z.mod_small; lia.
Qed.

(** ** The mailbox after a put and a get *)

(** The mailbox after a delivery to its readers. *)
Definition delivered (cs : list Control) (m : MailboxState) (v : MailboxValue) : MailboxState :=
  let m' := with_mailbox_queues m (behind_taker cs (mb_readers m)) (mb_writers m) in
  if bool_decide (is_Some (first_taker cs (mb_readers m))) then m' else append_entry m' v.

Lemma no_taker cs readers : first_taker cs readers = None -> behind_taker cs readers = [].
Proof. induction readers as [|r readers IH]; simpl; [done|]. by destruct (_ && _). Qed.

Lemma delivered_contents cs m v :
  value_ok m v ->
  contents (delivered cs m v) = contents m ++ (match first_taker cs (mb_readers m) with Some _ => [] | None => [v] end).
Proof.
  intros Hv. unfold delivered. destruct (first_taker cs (mb_readers m)); simpl.
  - by rewrite app_nil_r.
  - by rewrite contents_push.
Qed.

Lemma delivered_queues cs m v :
  mb_readers (delivered cs m v) = behind_taker cs (mb_readers m) /\ mb_writers (delivered cs m v) = mb_writers m
  /\ mb_element_kind (delivered cs m v) = mb_element_kind m /\ mb_element_width (delivered cs m v) = mb_element_width m
  /\ mb_capacity (delivered cs m v) = mb_capacity m.
Proof.
  unfold delivered. destruct (bool_decide _); [done|].
  destruct (push_same (with_mailbox_queues m (behind_taker cs (mb_readers m)) (mb_writers m)) v) as (-> & -> & -> & -> & ->).
  done.
Qed.

Lemma put_available_inv m :
  put_available m = true -> mb_writers m = [] /\ (mb_readers m <> [] \/ size (contents m) < mb_capacity m).
Proof.
  unfold put_available. rewrite entry_count_contents. destruct (mb_writers m); [|done].
  destruct (mb_readers m); [|by intros _; split; [|left]]. intros ?%Z.ltb_lt. auto.
Qed.

Lemma delivered_ok cs m v :
  mailbox_ok m -> put_available m = true -> value_ok m v -> mailbox_ok (delivered cs m v).
Proof.
  intros [C1 C2 C3 C4 C5 C6 C7] [HW HR]%put_available_inv Hv.
  destruct (delivered_queues cs m v) as (Q1 & Q2 & Q3 & Q4 & Q5).
  assert (forall w, value_ok m w -> value_ok (delivered cs m v) w) as HV by (intros w; by apply value_ok_same).
  pose proof (delivered_contents cs m v Hv) as EC.
  assert (first_taker cs (mb_readers m) <> None -> mb_readers m <> []) as HT by (intros H E; rewrite E in H; done).
  split; rewrite ?Q1, ?Q2, ?Q5, ?HW, ?EC; try done.
  - unfold size in *. rewrite length_app. destruct (first_taker cs (mb_readers m)); simpl; [lia|].
    destruct HR as [HR|HR]; [rewrite (C3 HR); simpl; lia|lia].
  - intros HB. destruct (first_taker _ _) eqn:ET; [rewrite app_nil_r; apply C3, HT; done|].
    by rewrite no_taker in HB.
  - rewrite Forall_app. split; [by eapply Forall_impl|]. destruct (first_taker _ _); [done|]. by repeat constructor; apply HV.
  - unfold delivered. destruct (first_taker _ _) eqn:ET; simpl; [by rewrite app_nil_r|].
    rewrite push_bytes; [done|done|done| |done]. change (size (contents m) <= maximum_container_storage_bytes). lia.
Qed.

(** The mailbox after a get. *)
Definition taken (cs : list Control) (m : MailboxState) (left : list MailboxWriter) : MailboxState :=
  let m' := with_mailbox_queues (pop_entry m) (mb_readers (pop_entry m)) left in
  match mw_value <$> head (live_writers cs (mb_writers m)) with Some v => append_entry m' v | None => m' end.

Lemma offer_ok cs m w :
  Forall (value_ok m) (mw_value <$> mb_writers m) -> head (live_writers cs (mb_writers m)) = Some w -> value_ok m (mw_value w).
Proof.
  rewrite Forall_fmap, Forall_forall. intros HF E%head_Some_elem_of. apply HF. by apply list_elem_of_filter in E as [_ ?].
Qed.

Lemma taken_contents cs m left v vs :
  Forall (value_ok m) (mw_value <$> mb_writers m) -> contents m = v :: vs ->
  contents (taken cs m left) = vs ++ (mw_value <$> option_list (head (live_writers cs (mb_writers m)))).
Proof.
  intros HF HC. apply contents_pop in HC. unfold taken.
  destruct (head (live_writers cs (mb_writers m))) as [w|] eqn:E; simpl.
  - rewrite contents_push; [by rewrite contents_queues, HC|].
    destruct (pop_same m) as (Hk & Hw & _). eapply value_ok_same; [exact Hk|exact Hw|by eapply offer_ok].
  - by rewrite contents_queues, HC, app_nil_r.
Qed.

Lemma taken_queues cs m left :
  mb_readers (taken cs m left) = mb_readers m /\ mb_writers (taken cs m left) = left
  /\ mb_element_kind (taken cs m left) = mb_element_kind m /\ mb_element_width (taken cs m left) = mb_element_width m
  /\ mb_capacity (taken cs m left) = mb_capacity m.
Proof.
  unfold taken. destruct (pop_same m) as (H1 & H2 & H3 & H4 & H5). destruct (mw_value <$> _) as [v|].
  - destruct (push_same (with_mailbox_queues (pop_entry m) (mb_readers (pop_entry m)) left) v) as (-> & -> & -> & -> & ->).
    done.
  - done.
Qed.

Lemma taken_ok cs m left v vs :
  mailbox_ok m -> contents m = v :: vs -> left `suffix_of` mb_writers m ->
  (head (live_writers cs (mb_writers m)) = None -> left = []) -> mailbox_ok (taken cs m left).
Proof.
  intros [C1 C2 C3 C4 C5 C6 C7] EC [gone EL] HN.
  destruct (taken_queues cs m left) as (Q1 & Q2 & Q3 & Q4 & Q5).
  assert (forall w, value_ok m w -> value_ok (taken cs m left) w) as HV by (intros w; by apply value_ok_same).
  pose proof (taken_contents cs m left v vs C6 EC) as ET.
  assert (mb_readers m = []) as ER.
  { destruct (mb_readers m) eqn:E; [done|]. exfalso. specialize (C3 ltac:(done)). congruence. }
  assert (head (live_writers cs (mb_writers m)) <> None -> mb_writers m <> []) as HT
    by (intros H E; rewrite E in H; done).
  assert (size (contents m) = size vs + 1) as ES by (rewrite EC; unfold size; simpl; lia).
  assert (size (contents (taken cs m left))
          = size vs + (if bool_decide (head (live_writers cs (mb_writers m)) = None) then 0 else 1)) as EN.
  { rewrite ET. unfold size. rewrite length_app. by destruct (head (live_writers cs (mb_writers m))); simpl; lia. }
  split; rewrite ?Q1, ?Q2, ?Q5, ?ER; try done.
  - rewrite EN. destruct (bool_decide _); lia.
  - intros HL. destruct (bool_decide _) eqn:EB.
    + apply bool_decide_eq_true in EB. by destruct HL; apply HN.
    + apply bool_decide_eq_false in EB. rewrite EN, <- (C4 (HT EB)), ES. lia.
  - rewrite ET, Forall_app. rewrite EC in C5. apply Forall_cons in C5 as [_ C5]. split; [by eapply Forall_impl|].
    destruct (head (live_writers cs (mb_writers m))) as [w|] eqn:E; simpl; [|done]. constructor; [|done]. by eapply HV, offer_ok.
  - rewrite EL, fmap_app, Forall_app in C6. destruct C6 as [_ C6]. by eapply Forall_impl.
  - rewrite ET, sum_list_with_app.
    pose proof (pop_bytes m v vs C7 C5 ltac:(lia) EC) as EP.
    destruct (pop_same m) as (P1 & P2 & _).
    unfold taken. destruct (head (live_writers cs (mb_writers m))) as [w|] eqn:E; simpl.
    + rewrite push_bytes.
      * rewrite contents_queues, (contents_pop _ _ _ EC), sum_list_with_app. simpl. lia.
      * rewrite contents_queues, (contents_pop _ _ _ EC). done.
      * rewrite contents_queues, (contents_pop _ _ _ EC). rewrite EC in C5. apply Forall_cons in C5 as [_ C5].
        eapply Forall_impl; [exact C5|]. intros x. by apply value_ok_same.
      * rewrite contents_queues, (contents_pop _ _ _ EC). lia.
      * eapply value_ok_same; [exact P1|exact P2|by eapply offer_ok].
    + rewrite EP. lia.
Qed.

(** ** Keeping the invariant *)

Lemma semaphore_ok_mono cs cs' m :
  (forall q, alive cs' q = true -> alive cs q = true) -> semaphore_ok cs m -> semaphore_ok cs' m.
Proof.
  intros H [HF HW]. split; [done|]. destruct (sem_waiters m) as [|w l]; [done|]. destruct HW as [HW|HW]; [left|by right].
  destruct (alive cs' (sw_process w)) eqn:E; [|done]. apply H in E. congruence.
Qed.

(** No process comes back to life. *)
Definition no_revival (s s' : Sync) : Prop := forall q, alive (controls s') q = true -> alive (controls s) q = true.

(** The same processes have halted. *)
Definition same_life (s s' : Sync) : Prop := forall q, alive (controls s') q = alive (controls s) q.

Lemma same_life_no_revival s s' : same_life s s' -> no_revival s s'.
Proof. intros H q. by rewrite H. Qed.
#[local] Hint Resolve same_life_no_revival : core.

Lemma processes_only_same_life s s' : processes_only s s' -> same_life s s'.
Proof. by intros (_ & _ & H). Qed.

Lemma sync_ok_processes s s' :
  sync_ok s -> mailboxes s' = mailboxes s -> semaphores s' = semaphores s -> no_revival s s' ->
  waiting_ok (controls s') (scheduled s') (parked s) -> sync_ok s'.
Proof.
  intros [OM OS OW] E1 E2 HR W. split.
  - by rewrite E1.
  - rewrite E2. eapply Forall_impl; [exact OS|]. intros m. by apply semaphore_ok_mono.
  - unfold parked in *. by rewrite E1, E2.
Qed.

Lemma sync_ok_mailbox s s' i m m' :
  sync_ok s -> mailboxes s !! i = Some m ->
  objects_of s' = (<[i := m']> (mailboxes s), semaphores s, dynamic_events s, clock s) -> mailbox_ok m' ->
  no_revival s s' -> waiting_ok (controls s') (scheduled s') (mailbox_pids m' ++ beside_mailbox s i) -> sync_ok s'.
Proof.
  intros [OM OS OW] Hm E OK HR W. pose proof (parked_set_mailbox _ _ _ _ _ Hm E) as EP.
  injection E as E1 E2 _ _. split.
  - rewrite E1. by apply Forall_insert.
  - rewrite E2. eapply Forall_impl; [exact OS|]. intros x. by apply semaphore_ok_mono.
  - by rewrite EP.
Qed.

Lemma sync_ok_semaphore s s' i m m' :
  sync_ok s -> semaphores s !! i = Some m ->
  objects_of s' = (mailboxes s, <[i := m']> (semaphores s), dynamic_events s, clock s) ->
  semaphore_ok (controls s') m' -> no_revival s s' ->
  waiting_ok (controls s') (scheduled s') (semaphore_pids m' ++ beside_semaphore s i) -> sync_ok s'.
Proof.
  intros [OM OS OW] Hm E OK HR W. pose proof (parked_set_semaphore _ _ _ _ _ Hm E) as EP.
  injection E as E1 E2 _ _. split.
  - by rewrite E1.
  - rewrite E2. apply Forall_insert; [|done]. eapply Forall_impl; [exact OS|]. intros x. by apply semaphore_ok_mono.
  - by rewrite EP.
Qed.

Lemma sync_ok_registers s s' p : sync_ok s -> registers_only p s s' -> sync_ok s'.
Proof.
  intros OK ((E & _) & EC & ES). injection E as E1 E2 _ _.
  eapply sync_ok_processes; try done; [by intros q; rewrite EC|]. rewrite EC, ES. apply OK.
Qed.

(** ** Put *)

(** The mailbox and the message of a put that gets as far as using them. *)
Definition put_operands (s : Sync) (p : nat) (o : MailboxPut) (i : nat) (m : MailboxState) (v : MailboxValue) : Prop :=
  mailbox_from_handle s p (mp_receiver o) = Returned (i, m) /\ put_value s p o m = Returned v.

Lemma mailbox_from_handle_lookup s p r i m :
  mailbox_from_handle s p r = Returned (i, m) -> mailboxes s !! i = Some m.
Proof. unfold mailbox_from_handle. intros H. returned H. done. Qed.

Lemma put_value_ok s p o m v :
  put_value s p o m = Returned v -> mp_element_width o = mb_element_width m -> value_ok m v.
Proof.
  unfold put_value, value_ok, read_string_register. destruct (mb_element_kind m); intros H Hw; returned H; lia.
Qed.

Inductive put_effect (s : Sync) (p : nat) (o : MailboxPut) (s' : Sync) : SynchronizationResult -> Prop :=
  | put_delivers i m v :
      put_operands s p o i m v -> mailboxes s !! i = Some m -> value_ok m v -> put_available m = true ->
      objects_of s' = (<[i := delivered (controls s) m v]> (mailboxes s), semaphores s, dynamic_events s, clock s) ->
      same_life s s' ->
      waiting_ok (controls s') (scheduled s') (mailbox_pids (delivered (controls s) m v) ++ beside_mailbox s i) ->
      scheduled s' = scheduled s ++ (ResumeProcess ∘ mr_process <$> served (controls s) (mb_readers m)) ->
      (forall r, r ∈ served (controls s) (mb_readers m) -> received s' r v) ->
      ((p ∉ parked s') /\ controls s' !! p = controls s !! p) ->
      put_effect s p o s' Result_completed
  | put_refused i m v :
      put_operands s p o i m v -> mailboxes s !! i = Some m -> put_available m = false -> mp_result o <> None ->
      registers_only p s s' -> put_effect s p o s' Result_completed
  | put_waits i m v c :
      put_operands s p o i m v -> mailboxes s !! i = Some m -> value_ok m v -> put_available m = false ->
      mp_result o = None -> controls s !! p = Some c ->
      objects_of s' = (<[i := with_mailbox_queues m (mb_readers m) (mb_writers m ++ [mkMailboxWriter p v])]> (mailboxes s),
                       semaphores s, dynamic_events s, clock s) ->
      controls s' = <[p := waits c None]> (controls s) -> scheduled s' = scheduled s ->
      put_effect s p o s' Result_waiting.

Lemma behind_taker_suffix cs readers : behind_taker cs readers `suffix_of` readers.
Proof.
  induction readers as [|r readers IH]; simpl; [done|]. destruct (_ && _); by apply suffix_cons_r.
Qed.

Lemma delivered_pids cs m v p : p ∈ mailbox_pids (delivered cs m v) -> p ∈ mailbox_pids m.
Proof.
  unfold mailbox_pids. destruct (delivered_queues cs m v) as (-> & -> & _).
  rewrite !elem_of_app. intros [(r & -> & H)%list_elem_of_fmap|H]; [left|by right]. apply list_elem_of_fmap_2.
  destruct (behind_taker_suffix cs (mb_readers m)) as [l E]. rewrite E, elem_of_app. by right.
Qed.

Lemma deliver_branch s p i m v s1 s' readers consumed r c :
  sync_ok s -> mailboxes s !! i = Some m -> value_ok m v -> p ∉ parked s ->
  controls s !! p = Some c -> c_halted c = false ->
  deliver_loop s (mb_readers m) v = Returned (s1, readers, consumed) ->
  write_result (set_mailbox s1 i (let m' := with_mailbox_queues m readers (mb_writers m) in
                                  if consumed : bool then m' else append_entry m' v)) p r true = Returned s' ->
  objects_of s' = (<[i := delivered (controls s) m v]> (mailboxes s), semaphores s, dynamic_events s, clock s) /\
  same_life s s' /\
  waiting_ok (controls s') (scheduled s') (mailbox_pids (delivered (controls s) m v) ++ beside_mailbox s i) /\
  scheduled s' = scheduled s ++ (ResumeProcess ∘ mr_process <$> served (controls s) (mb_readers m)) /\
  (forall r, r ∈ served (controls s) (mb_readers m) -> received s' r v) /\
  (p ∉ parked s') /\ controls s' !! p = controls s !! p.
Proof.
  intros OK Hm Hv HP Hc Hh H H'.
  pose proof (so_waiting _ OK) as W. rewrite (parked_mailbox _ _ _ Hm) in W, HP.
  unfold mailbox_pids in W. rewrite <- app_assoc in W.
  destruct (deliver_loop_ok _ _ _ _ _ _ _ H W) as (PO & W1 & -> & -> & ES & HR & HQ).
  destruct PO as (EO & _ & EA). injection EO as EO1 EO2 EO3 EO4.
  apply write_result_keeps in H' as ((EO' & _ & Hp) & EC & ES').
  change (controls s' = controls s1) in EC. change (scheduled s' = scheduled s1) in ES'.
  assert (objects_of s' = (<[i := delivered (controls s) m v]> (mailboxes s), semaphores s, dynamic_events s, clock s)) as EF.
  { rewrite EO'. unfold objects_of. simpl. by rewrite EO1, EO2, EO3, EO4. }
  assert (forall r, r ∈ mb_readers m -> mr_process r <> p) as Hne.
  { intros q Hq <-. apply HP. unfold mailbox_pids. rewrite !elem_of_app. left. left. by apply list_elem_of_fmap_2. }
  split_and!; try done.
  - intros q. by rewrite EC, EA.
  - rewrite EC, ES'. unfold mailbox_pids. rewrite <- app_assoc.
    by destruct (delivered_queues (controls s) m v) as (-> & -> & _).
  - by rewrite ES'.
  - intros q Hq. eapply received_frame; [|by apply HR]. apply Hp. apply Hne. by apply served_in in Hq as [? _].
  - rewrite (parked_set_mailbox _ _ _ _ _ Hm EF), elem_of_app. intros [Hin%delivered_pids|Hin];
      apply HP, elem_of_app; auto.
  - rewrite EC. unfold controls. rewrite !list_lookup_fmap. f_equal. apply HQ.
    + intros (q & -> & [Hq _]%served_in)%list_elem_of_fmap. by eapply Hne.
    + by rewrite (alive_lookup _ _ _ Hc), Hh.
Qed.

Lemma mailbox_put_effect s p o s' result :
  sync_ok s -> running s p -> mailbox_put s p o = Returned (s', result) -> put_effect s p o s' result.
Proof.
  intros OK RUN H. destruct (running_free _ _ OK RUN) as (HP & c & Hc & He & Hh & Hs & Hq & Hr).
  unfold mailbox_put in H. apply bind_returned in H as ([i m] & H1 & H).
  apply bind_returned in H as (u & H2 & H). apply fail_when_returned in H2.
  apply orb_false_iff in H2 as [_ H2]. apply negb_false_iff, Z.eqb_eq in H2.
  apply bind_returned in H as (v & H3 & H).
  pose proof (mailbox_from_handle_lookup _ _ _ _ _ H1) as Hm.
  pose proof (put_value_ok _ _ _ _ _ H3 H2) as Hv.
  destruct (put_available m) eqn:EA; [|destruct (mp_result o) eqn:ER].
  - apply bind_returned in H as ([[s1 readers] consumed] & H4 & H). apply bind_returned in H as (s2 & H5 & [= <- <-]).
    destruct (deliver_branch _ _ _ _ _ _ _ _ _ _ _ OK Hm Hv HP Hc Hh H4 H5) as (? & ? & ? & ? & ? & ? & ?).
    eapply put_delivers; done.
  - apply bind_returned in H as (s2 & H5 & [= <- <-]). apply write_word_keeps in H5.
    eapply put_refused; try done. congruence.
  - apply bind_returned in H as (s2 & H5 & [= <- <-]).
    destruct (client_wait_effect _ _ _ _ c H5) as (EO & ES & EC & _); try done.
    eapply put_waits; try done.
Qed.

(** ** Get and peek *)

Definition get_reader (p : nat) (o : MailboxGet) : MailboxReader :=
  mkMailboxReader p (mg_destination o) (mg_string_destination o) (mg_peek o).

Inductive get_effect (s : Sync) (p : nat) (o : MailboxGet) (s' : Sync) : SynchronizationResult -> Prop :=
  | get_takes i m v vs left :
      mailbox_from_handle s p (mg_receiver o) = Returned (i, m) -> mailboxes s !! i = Some m ->
      contents m = v :: vs -> mg_peek o = false ->
      objects_of s' = (<[i := taken (controls s) m left]> (mailboxes s), semaphores s, dynamic_events s, clock s) ->
      same_life s s' ->
      waiting_ok (controls s') (scheduled s') (mailbox_pids (taken (controls s) m left) ++ beside_mailbox s i) ->
      left `suffix_of` mb_writers m -> (head (live_writers (controls s) (mb_writers m)) = None -> left = []) ->
      live_writers (controls s) left = tail (live_writers (controls s) (mb_writers m)) ->
      (exists s0, client_write s p o v = Returned s0) ->
      ((p ∉ parked s') /\ controls s' !! p = controls s !! p) ->
      get_effect s p o s' Result_completed
  | get_peeks i m v vs :
      mailbox_from_handle s p (mg_receiver o) = Returned (i, m) -> mailboxes s !! i = Some m ->
      contents m = v :: vs -> mg_peek o = true -> registers_only p s s' -> get_effect s p o s' Result_completed
  | get_refused i m :
      mailbox_from_handle s p (mg_receiver o) = Returned (i, m) -> mailboxes s !! i = Some m ->
      contents m = [] -> mg_result o <> None -> registers_only p s s' -> get_effect s p o s' Result_completed
  | get_waits i m c :
      mailbox_from_handle s p (mg_receiver o) = Returned (i, m) -> mailboxes s !! i = Some m ->
      contents m = [] -> mg_result o = None -> controls s !! p = Some c ->
      objects_of s' = (<[i := with_mailbox_queues m (mb_readers m ++ [get_reader p o]) (mb_writers m)]> (mailboxes s),
                       semaphores s, dynamic_events s, clock s) ->
      controls s' = <[p := waits c None]> (controls s) -> scheduled s' = scheduled s ->
      get_effect s p o s' Result_waiting.

Lemma taken_pids cs m left p : left `suffix_of` mb_writers m -> p ∈ mailbox_pids (taken cs m left) -> p ∈ mailbox_pids m.
Proof.
  intros [l E]. unfold mailbox_pids. destruct (taken_queues cs m left) as (-> & -> & _).
  rewrite E, fmap_app, !elem_of_app. tauto.
Qed.

Lemma take_entry_effect s p i m v vs s' c :
  sync_ok s -> mailboxes s !! i = Some m -> contents m = v :: vs -> p ∉ parked s -> controls s !! p = Some c ->
  take_entry s i m = Returned s' ->
  exists left, objects_of s' = (<[i := taken (controls s) m left]> (mailboxes s), semaphores s, dynamic_events s, clock s) /\
    same_life s s' /\ waiting_ok (controls s') (scheduled s') (mailbox_pids (taken (controls s) m left) ++ beside_mailbox s i) /\
    left `suffix_of` mb_writers m /\ (head (live_writers (controls s) (mb_writers m)) = None -> left = []) /\
    live_writers (controls s) left = tail (live_writers (controls s) (mb_writers m)) /\
    (p ∉ parked s') /\ controls s' !! p = controls s !! p.
Proof.
  intros OK Hm HC HP Hc H. unfold take_entry in H.
  pose proof (so_waiting _ OK) as W. rewrite (parked_mailbox _ _ _ Hm) in W, HP.
  assert (mailbox_pids m ++ beside_mailbox s i
          ≡ₚ (mw_process <$> mb_writers m) ++ (mr_process <$> mb_readers m) ++ beside_mailbox s i) as EP.
  { unfold mailbox_pids. rewrite (Permutation_app_comm (mr_process <$> _)), <- app_assoc. done. }
  rewrite EP in W. destruct (pop_same m) as (_ & _ & _ & Er & Ew).
  apply bind_returned in H as ([[s1 left] admitted] & H1 & [= <-]). rewrite Ew in H1.
  destruct (admit_loop_ok _ _ _ _ _ _ H1 W) as (PO & W1 & EV & EL & EN & HS & HQ).
  destruct PO as (EO & _ & EA). injection EO as EO1 EO2 EO3 EO4.
  assert (objects_of (set_mailbox s1 i (match admitted with
                       | Some v => append_entry (with_mailbox_queues (pop_entry m) (mb_readers (pop_entry m)) left) v
                       | None => with_mailbox_queues (pop_entry m) (mb_readers (pop_entry m)) left end))
          = (<[i := taken (controls s) m left]> (mailboxes s), semaphores s, dynamic_events s, clock s)) as EF.
  { unfold objects_of, taken. simpl. by rewrite EO1, EO2, EO3, EO4, EV. }
  exists left. split_and!; try done.
  - unfold mailbox_pids. destruct (taken_queues (controls s) m left) as (-> & -> & _).
    rewrite (Permutation_app_comm (mr_process <$> _)), <- app_assoc. exact W1.
  - intros E. apply EN. by rewrite EV, E.
  - rewrite (parked_set_mailbox _ _ _ _ _ Hm EF), elem_of_app.
    intros [Hin|Hin]; apply HP, elem_of_app; [left; by eapply taken_pids|by right].
  - unfold controls. rewrite !list_lookup_fmap. f_equal. apply HQ. intros Hin. apply HP.
    rewrite EP, elem_of_app. by left.
Qed.

Lemma client_write_elsewhere s p o v s0 :
  client_write s p o v = Returned s0 ->
  controls s0 = controls s /\ scheduled s0 = scheduled s /\ objects_of s0 = objects_of s.
Proof. intros ((? & _) & ? & ?)%client_write_keeps. done. Qed.

Lemma mailbox_get_effect s p o s' result :
  sync_ok s -> running s p -> mailbox_get s p o = Returned (s', result) -> get_effect s p o s' result.
Proof.
  intros OK RUN H. destruct (running_free _ _ OK RUN) as (HP & c & Hc & He & _).
  unfold mailbox_get in H. apply bind_returned in H as ([i m] & H1 & H).
  apply bind_returned in H as (u & _ & H). pose proof (mailbox_from_handle_lookup _ _ _ _ _ H1) as Hm.
  rewrite first_entry_contents in H. destruct (contents m) as [|v vs] eqn:EV; simpl in H.
  - destruct (mg_result o) eqn:ER.
    + apply bind_returned in H as (s2 & H5 & [= <- <-]). apply write_word_keeps in H5.
      eapply get_refused; try done. congruence.
    + apply bind_returned in H as (s2 & H5 & [= <- <-]).
      destruct (client_wait_effect _ _ _ _ c H5) as (EO & ES & EC & _); try done.
      eapply get_waits; try done. rewrite EC. by destruct (mb_element_kind m).
  - apply bind_returned in H as (s1 & H2 & H). apply bind_returned in H as (s2 & H3 & H).
    apply bind_returned in H as (s3 & H4 & [= <- <-]). apply write_result_keeps in H4.
    pose proof (client_write_keeps _ _ _ _ _ H2) as R1. destruct (mg_peek o) eqn:EK.
    + injection H3 as <-. eapply get_peeks; try done. by eapply registers_only_trans.
    + destruct (client_write_elsewhere _ _ _ _ _ H2) as (C1 & S1 & O1). injection O1 as O1 O2 O3 O4.
      destruct (take_entry_effect s1 p i m v vs s2 c) as (left & EO & HR & W & HS & EN & EL & HP2 & HC2); try done.
      * by eapply sync_ok_registers.
      * by rewrite O1.
      * unfold parked. by rewrite O1, O2.
      * by rewrite C1.
      * destruct H4 as ((EO4 & _) & C4 & S4). unfold same_life, beside_mailbox in *.
        rewrite C1, O1, O2, O3, O4 in *. rewrite <- EO4 in EO.
        eapply get_takes; try done; rewrite ?C4, ?S4; try done; eauto.
        -- intros q. rewrite C4. apply HR.
        -- split; [|done]. injection EO4 as E1 E2 _ _. unfold parked. by rewrite E1, E2.
Qed.

(** ** Operations keep the invariant *)

(** After an operation the invariant holds, and a process that goes on is still free. *)
Definition operation_ok (s : Sync) (p : nat) (s' : Sync) (result : SynchronizationResult) : Prop :=
  sync_ok s' /\ same_life s s'
  /\ (result <> Result_waiting -> (p ∉ parked s') /\ controls s' !! p = controls s !! p).

Lemma operation_ok_registers s p s' result :
  sync_ok s -> p ∉ parked s -> registers_only p s s' -> operation_ok s p s' result.
Proof.
  intros OK HP H. split; [by eapply sync_ok_registers|]. destruct H as ((EO & _) & EC & _).
  injection EO as E1 E2 _ _. split; [intros q; by rewrite EC|]. intros _. unfold parked. by rewrite E1, E2, EC.
Qed.

Lemma operation_ok_then s p s1 s2 result :
  operation_ok s p s1 result -> registers_only p s1 s2 -> operation_ok s p s2 result.
Proof.
  intros (OK & HL & HP) R. split; [by eapply sync_ok_registers|]. destruct R as ((EO & _) & EC & _).
  split; [intros q; by rewrite EC|]. intros Hr. destruct (HP Hr) as [HP1 HP2].
  injection EO as E1 E2 _ _. unfold parked. by rewrite E1, E2, EC.
Qed.

(** The process joins a queue. *)
Lemma park_ok s s' p c P :
  sync_ok s -> running s p -> controls s !! p = Some c -> parked s ≡ₚ P ->
  controls s' = <[p := waits c None]> (controls s) -> scheduled s' = scheduled s ->
  waiting_ok (controls s') (scheduled s') (p :: P) /\ same_life s s'.
Proof.
  intros OK RUN Hc EP EC ES. destruct (running_free _ _ OK RUN) as (HP & d & Hd & _ & Hh & Hs & Hq & _). simplify_eq.
  rewrite EC, ES. split.
  - apply waiting_ok_park; try done; rewrite <- EP; [apply OK|done].
  - intros q. rewrite EC. by eapply alive_update.
Qed.

Lemma writer_joins m p v :
  mailbox_ok m -> put_available m = false -> value_ok m v ->
  mailbox_ok (with_mailbox_queues m (mb_readers m) (mb_writers m ++ [mkMailboxWriter p v])).
Proof.
  intros [] HA Hv. split; simpl; try done.
  - intros _. unfold put_available in HA. rewrite entry_count_contents in HA.
    change (size (contents m) = mb_capacity m). destruct (mb_writers m) eqn:EW; [|by apply mo_writers].
    destruct (mb_readers m); [|done]. apply Z.ltb_ge in HA. lia.
  - rewrite fmap_app, Forall_app. split; [done|]. by repeat constructor.
Qed.

Lemma reader_joins m r :
  mailbox_ok m -> contents m = [] -> mailbox_ok (with_mailbox_queues m (mb_readers m ++ [r]) (mb_writers m)).
Proof. intros [] HC. split; done. Qed.

Lemma mailbox_put_ok s p o s' result :
  sync_ok s -> running s p -> mailbox_put s p o = Returned (s', result) -> operation_ok s p s' result.
Proof.
  intros OK RUN H. destruct (running_free _ _ OK RUN) as (HP & _).
  assert (forall i m, mailboxes s !! i = Some m -> mailbox_ok m) as MO.
  { intros i m Hm. eapply Forall_lookup_1; [apply OK|done]. }
  destruct (mailbox_put_effect _ _ _ _ _ OK RUN H).
  - split; [|done]. eapply sync_ok_mailbox; eauto using delivered_ok.
  - by apply operation_ok_registers.
  - pose proof (parked_mailbox _ _ _ H1) as EP.
    destruct (park_ok s s' p c _ OK RUN H5 EP) as [W HR]; try done.
    split; [|done]. eapply sync_ok_mailbox; [done|done|done|by eapply writer_joins; eauto|auto|].
    unfold mailbox_pids in *. simpl. rewrite fmap_app. simpl.
    by rewrite app_assoc, (Permutation_app_comm _ [p]).
Qed.

Lemma mailbox_get_ok s p o s' result :
  sync_ok s -> running s p -> mailbox_get s p o = Returned (s', result) -> operation_ok s p s' result.
Proof.
  intros OK RUN H. destruct (running_free _ _ OK RUN) as (HP & _).
  assert (forall i m, mailboxes s !! i = Some m -> mailbox_ok m) as MO.
  { intros i m Hm. eapply Forall_lookup_1; [apply OK|done]. }
  destruct (mailbox_get_effect _ _ _ _ _ OK RUN H).
  - split; [|done]. eapply sync_ok_mailbox; eauto using taken_ok.
  - by apply operation_ok_registers.
  - by apply operation_ok_registers.
  - pose proof (parked_mailbox _ _ _ H1) as EP.
    destruct (park_ok s s' p c _ OK RUN H4 EP) as [W HR]; try done.
    split; [|done]. eapply sync_ok_mailbox; [done|done|done|by eapply reader_joins; eauto|auto|].
    unfold mailbox_pids in *. simpl. rewrite fmap_app. simpl.
    by rewrite (Permutation_app_comm (mr_process <$> _) [p]).
Qed.

(** *** Semaphores *)

Lemma semaphore_from_handle_lookup s p r i m :
  semaphore_from_handle s p r = Returned (i, m) -> semaphores s !! i = Some m.
Proof. unfold semaphore_from_handle. intros H. returned H. done. Qed.

Lemma keys_taken_ok s p i m k :
  sync_ok s -> p ∉ parked s -> semaphores s !! i = Some m -> sem_waiters m = [] ->
  operation_ok s p (set_semaphore s i (mkSemaphoreState k [])) Result_completed.
Proof.
  intros OK HP Hm EW. pose proof (parked_semaphore _ _ _ Hm) as EP. unfold semaphore_pids in EP. rewrite EW in EP.
  assert (parked (set_semaphore s i (mkSemaphoreState k [])) ≡ₚ parked s) as EP'.
  { rewrite (parked_set_semaphore s _ i m (mkSemaphoreState k []) Hm); [|done]. by rewrite EP. }
  split.
  - eapply sync_ok_semaphore; try done; [by intros q|]. simpl. simpl in EP. rewrite <- EP. apply OK.
  - split; [done|]. intros _. by rewrite EP'.
Qed.

Lemma waiter_joins cs m p n :
  semaphore_ok cs m -> 0 <= n -> get_available m n = false ->
  semaphore_ok cs (mkSemaphoreState (sem_keys m) (sem_waiters m ++ [mkSemaphoreWaiter p n])).
Proof.
  unfold get_available. intros [HF HW] Hn EA. split; simpl.
  - rewrite Forall_app. split; [done|]. by repeat constructor.
  - destruct (sem_waiters m); simpl in *; [|done]. right. lia.
Qed.

Lemma semaphore_get_ok s p o s' result :
  sync_ok s -> running s p -> semaphore_get s p o = Returned (s', result) -> operation_ok s p s' result.
Proof.
  intros OK RUN H. destruct (running_free _ _ OK RUN) as (HP & c & Hc & He & _).
  unfold semaphore_get in H. apply bind_returned in H as ([i m] & H1 & H). apply bind_returned in H as (n & H2 & H).
  apply bind_returned in H as (u & H3 & H). apply fail_when_returned, Z.ltb_ge in H3.
  apply semaphore_from_handle_lookup in H1.
  assert (semaphore_ok (controls s) m) as SO by (eapply Forall_lookup_1; [apply OK|done]).
  destruct (get_available m n) eqn:EA; [|destruct (sg_result o)].
  - apply bind_returned in H as (s2 & H5 & [= <- <-]). apply write_result_keeps in H5.
    unfold get_available in EA. destruct (sem_waiters m) eqn:EW; [|done].
    eapply operation_ok_then; [|exact H5]. by eapply keys_taken_ok.
  - apply bind_returned in H as (s2 & H5 & [= <- <-]). apply write_word_keeps in H5. by apply operation_ok_registers.
  - apply bind_returned in H as (s2 & H5 & [= <- <-]).
    destruct (client_wait_effect _ _ _ _ c H5) as (EO & ES & EC & _); try done.
    destruct (park_ok s s2 p c _ OK RUN Hc (parked_semaphore _ _ _ H1)) as [W HR]; try done.
    split; [|done]. eapply sync_ok_semaphore; [done|done|exact EO| |auto|].
    + eapply waiter_joins; try done. eapply semaphore_ok_mono; [|done]. by apply same_life_no_revival.
    + unfold semaphore_pids in *. simpl. rewrite fmap_app. simpl. by rewrite (Permutation_app_comm _ [p]).
Qed.

(** What a put of [n] keys does: the waiters that fit get their keys in order. *)
Record semaphore_put_effect (s : Sync) (i : nat) (m : SemaphoreState) (n : Z) (s' : Sync) : Prop := {
  spe_lookup : semaphores s !! i = Some m;
  spe_keys : exists m', objects_of s' = (mailboxes s, <[i := m']> (semaphores s), dynamic_events s, clock s)
     /\ sem_keys m' = sem_keys m + n - keys_of (satisfied (sem_keys m + n) (live_waiters (controls s) (sem_waiters m)))
     /\ live_waiters (controls s) (sem_waiters m)
        = satisfied (sem_keys m + n) (live_waiters (controls s) (sem_waiters m))
          ++ live_waiters (controls s) (sem_waiters m')
     /\ semaphore_ok (controls s') m'
     /\ waiting_ok (controls s') (scheduled s') (semaphore_pids m' ++ beside_semaphore s i);
  spe_woken : scheduled s' = scheduled s
     ++ (ResumeProcess ∘ sw_process <$> satisfied (sem_keys m + n) (live_waiters (controls s) (sem_waiters m)));
  spe_alive : processes_only s (with_semaphores s' (semaphores s));
  spe_others : forall q, q ∉ parked s -> (q ∉ parked s') /\ processes s' !! q = processes s !! q;
}.

Lemma semaphore_put_inv s p o s' result :
  sync_ok s -> semaphore_put s p o = Returned (s', result) ->
  exists i m n, semaphore_from_handle s p (sp_receiver o) = Returned (i, m)
    /\ known_i32 s p (sp_keys o) "semaphore put count" = Returned n /\ 0 <= n /\ sem_keys m + n < 2 ^ 63
    /\ result = Result_completed /\ semaphore_put_effect s i m n s'.
Proof.
  intros OK H. unfold semaphore_put in H. apply bind_returned in H as ([i m] & H1 & H).
  apply bind_returned in H as (n & H2 & H). apply bind_returned in H as (u & H3 & H).
  apply fail_when_returned, Z.ltb_ge in H3. apply bind_returned in H as (u' & H4 & H).
  apply fail_when_returned, Z.ltb_ge in H4. apply bind_returned in H as ([s1 m'] & H5 & [= <- <-]).
  exists i, m, n. split_and!; try done; [lia|].
  apply semaphore_from_handle_lookup in H1.
  assert (semaphore_ok (controls s) m) as [HF _] by (eapply Forall_lookup_1; [apply OK|done]).
  pose proof (so_waiting _ OK) as W. rewrite (parked_semaphore _ _ _ H1) in W.
  destruct (grant_loop_ok _ _ _ _ _ _ H5 HF W) as (PO & W1 & E1 & E2 & E3 & SO & [gone HS] & HQ).
  pose proof PO as (EO & EL & EA). injection EO as EO1 EO2 EO3 EO4.
  assert (objects_of (set_semaphore s1 i m') = (mailboxes s, <[i := m']> (semaphores s), dynamic_events s, clock s)) as EF.
  { unfold objects_of. simpl. by rewrite EO1, EO2, EO3, EO4. }
  split; try done.
  - exists m'. done.
  - split; [|split]; [|done|done]. unfold objects_of. simpl. by rewrite EO1, EO3, EO4.
  - intros q. rewrite (parked_semaphore _ _ _ H1), (parked_set_semaphore _ _ _ _ _ H1 EF). unfold semaphore_pids.
    rewrite HS, fmap_app, !elem_of_app. intros Hq. split; [tauto|]. apply HQ. rewrite HS, fmap_app, elem_of_app. tauto.
Qed.

Lemma semaphore_put_ok s p o s' result :
  sync_ok s -> running s p -> semaphore_put s p o = Returned (s', result) -> operation_ok s p s' result.
Proof.
  intros OK RUN H. destruct (running_free _ _ OK RUN) as (HP & _).
  destruct (semaphore_put_inv _ _ _ _ _ OK H) as (i & m & n & _ & _ & _ & _ & -> & E).
  destruct E as [Hm (m' & EF & _ & _ & SO & W) _ PO HQ]. split.
  - eapply sync_ok_semaphore; try done. apply same_life_no_revival. by apply processes_only_same_life in PO.
  - split; [by apply processes_only_same_life in PO|]. intros _. destruct (HQ _ HP) as [HQ1 HQ2]. split; [done|]. unfold controls. by rewrite !list_lookup_fmap, HQ2.
Qed.

(** *** New objects *)

Lemma entry_bytes_pos kind w : 1 <= entry_storage_bytes kind w.
Proof. unfold entry_storage_bytes, mailbox_entry_storage_bytes, mailbox_string_entry_storage_bytes. destruct kind; lia. Qed.

Lemma client_read_wf s p r v : running s p -> client_read s p r = Returned v -> wf v.
Proof.
  intros (x & Hx & _ & _ & _ & _ & HF) H. unfold client_read in H. returned H.
  unfold get_register in H. destruct (ps_registers x !! r) eqn:E; simplify_eq. by eapply Forall_lookup_1.
Qed.

Lemma low_word_aval v w : wf v -> low_word v = Ok w -> 0 <= l4w_aval w < 2 ^ 64.
Proof.
  unfold low_word. intros [_ [[_ H] _] _ _ _ _]. destruct (_ || _); [done|]. destruct (is_logic9 v); [done|].
  intros [= <-]. simpl. by apply word_at_u64.
Qed.

Lemma known_u32_bound s p r purpose n :
  running s p -> known_u32 s p r purpose = Returned n -> 0 <= n <= U32_MAX.
Proof.
  unfold known_u32. intros RUN H. returned H. apply orb_false_iff in E1 as [_ E1].
  pose proof (low_word_aval _ _ (client_read_wf _ _ _ _ RUN E) E0). lia.
Qed.

(** A table gets a new object without waiters. *)
Lemma sync_ok_new s s' p :
  sync_ok s -> p ∉ parked s ->
  (exists ms ss, mailboxes s' = mailboxes s ++ ms /\ semaphores s' = semaphores s ++ ss
     /\ Forall mailbox_ok ms /\ Forall (fun m => mb_readers m = [] /\ mb_writers m = []) ms
     /\ Forall (fun m => sem_waiters m = []) ss) ->
  processes s' = processes s -> scheduled s' = scheduled s -> operation_ok s p s' Result_completed.
Proof.
  intros OK HP (ms & ss & E1 & E2 & HM & HMW & HS) EP ES.
  assert (controls s' = controls s) as EC by (unfold controls; by rewrite EP).
  assert (ms ≫= mailbox_pids = []) as Hm.
  { clear -HMW. induction HMW as [|m l [H1 H2] _ IH]; [done|]. rewrite bind_cons, IH, app_nil_r. unfold mailbox_pids.
    by rewrite H1, H2. }
  assert (ss ≫= semaphore_pids = []) as Hs.
  { clear -HS. induction HS as [|m l H _ IH]; [done|]. rewrite bind_cons, IH, app_nil_r. unfold semaphore_pids. by rewrite H. }
  assert (parked s' = parked s) as EK.
  { unfold parked. by rewrite E1, E2, !bind_app, Hm, Hs, !app_nil_r. }
  split; [|split; [intros q; by rewrite EC|by rewrite EK, EC]]. split.
  - rewrite E1. apply Forall_app. split; [apply OK|done].
  - rewrite E2, EC. apply Forall_app. split; [apply OK|]. eapply Forall_impl; [exact HS|]. intros m H.
    split; rewrite H; done.
  - rewrite EC, ES, EK. apply OK.
Qed.

Lemma new_mailbox_ok kind w capacity :
  1 <= capacity <= maximum_container_storage_bytes -> mailbox_ok (mkMailboxState kind w capacity [] [] 0 [] []).
Proof.
  intros H. assert (contents (mkMailboxState kind w capacity [] [] 0 [] []) = []) as E by by destruct kind.
  split; rewrite ?E; simpl; try done. unfold size. simpl. lia.
Qed.

Lemma mailbox_create_ok s p o s' result :
  sync_ok s -> running s p -> mailbox_create s p o = Returned (s', result) -> operation_ok s p s' result.
Proof.
  intros OK RUN H. destruct (running_free _ _ OK RUN) as (HP & _). unfold mailbox_create in H. returned H.
  apply orb_false_iff in E2 as [E2 E4]. apply (known_u32_bound _ _ _ _ _ RUN) in E1. apply Z.eqb_neq in E2.
  apply write_word_keeps in E3 as R. eapply operation_ok_then; [|exact R].
  eapply sync_ok_new; try done. eexists [_], []. rewrite app_nil_r. split_and!; try done; [|by repeat constructor].
  constructor; [|done]. apply new_mailbox_ok.
  pose proof (entry_bytes_pos (mc_element_kind o) (mc_element_width o)) as Hd.
  set (d := entry_storage_bytes _ _) in *.
  assert (0 <= maximum_container_storage_bytes `div` d <= maximum_container_storage_bytes) as HM.
  { unfold maximum_container_storage_bytes. split; [apply Z.div_pos; lia|]. apply Z.div_le_upper_bound; nia. }
  destruct (x1 =? 0) eqn:EZ; simpl in E4; lia.
Qed.

Lemma semaphore_create_ok s p o s' result :
  sync_ok s -> running s p -> semaphore_create s p o = Returned (s', result) -> operation_ok s p s' result.
Proof.
  intros OK RUN H. destruct (running_free _ _ OK RUN) as (HP & _). unfold semaphore_create in H. returned H.
  apply write_word_keeps in E1 as R. eapply operation_ok_then; [|exact R].
  eapply sync_ok_new; try done. eexists [], [_]. rewrite app_nil_r. split_and!; try done. by repeat constructor.
Qed.

Lemma mailbox_num_ok s p o s' result :
  sync_ok s -> running s p -> mailbox_num s p o = Returned (s', result) -> operation_ok s p s' result.
Proof.
  intros OK RUN H. destruct (running_free _ _ OK RUN) as (HP & _). unfold mailbox_num in H. returned H.
  apply write_word_keeps in E0. by apply operation_ok_registers.
Qed.

(** *** Dynamic events *)

(** Only events change. *)
Lemma sync_ok_events s s' : 
  sync_ok s -> mailboxes s' = mailboxes s -> semaphores s' = semaphores s -> processes s' = processes s ->
  scheduled s' = scheduled s -> sync_ok s'.
Proof.
  intros OK E1 E2 E3 E4. eapply sync_ok_processes; try done.
  - intros q. unfold controls. by rewrite E3.
  - unfold controls. rewrite E3, E4. apply OK.
Qed.

Lemma trigger_ok s handle index s' :
  sync_ok s -> trigger s handle index = Returned s' ->
  sync_ok s' /\ parked s' = parked s /\ same_life s s' /\ mailboxes s' = mailboxes s
  /\ exists e, dynamic_events s !! index = Some e
     /\ dynamic_events s' = <[index := mkDynamicEventState [] (Some (clock s))]> (dynamic_events s)
     /\ forall q c, controls s !! q = Some c ->
        controls s' !! q = Some (if bool_decide (q ∈ de_waiters e) && wakes_on c handle then woken c else c).
Proof.
  intros OK H. unfold trigger in H. apply bind_returned in H as (e & He & H). apply object_at_returned in He.
  destruct (event_wake_loop_ok _ _ (parked s) _ _ H) as (PO & W & HQ); [apply OK|].
  pose proof PO as (EO & _ & EA). injection EO as EO1 EO2 EO3 EO4. simpl in *.
  split; [eapply sync_ok_processes; try done; intros q; by rewrite EA|]. split; [unfold parked; by rewrite EO1, EO2|].
  split; [done|]. split; [done|]. exists e. done.
Qed.

Lemma event_from_handle_lookup s p r i e : event_from_handle s p r = Returned (Some (i, e)) -> dynamic_events s !! i = Some e.
Proof. unfold event_from_handle. intros H. returned H. destruct (x =? 0); returned H. done. Qed.

Lemma operation_ok_keeps s p s' result :
  sync_ok s' -> same_life s s' -> p ∉ parked s -> parked s' = parked s -> controls s' !! p = controls s !! p ->
  operation_ok s p s' result.
Proof. intros OK HL HP E1 E2. split; [done|]. split; [done|]. by rewrite E1. Qed.

Lemma event_trigger_ok s p o s' :
  sync_ok s -> running s p -> event_trigger s p o = Returned s' -> operation_ok s p s' Result_completed.
Proof.
  intros OK RUN H. destruct (running_free _ _ OK RUN) as (HP & c & Hc & He & _). unfold event_trigger in H.
  apply bind_returned in H as (h & Hh & H). apply bind_returned in H as (found & Hf & H).
  destruct found as [[i e]|]; [|injection H as <-; by apply operation_ok_keeps].
  apply bind_returned in H as ([s1 deferred] & H1 & H).
  assert (sync_ok s1 /\ parked s1 = parked s /\ controls s1 = controls s) as (OK1 & EP & EC).
  { destruct (ev_nonblocking o); [|by injection H1 as <- <-]. unfold defer_trigger in H1. returned H1.
    destruct (negb _); returned H1; [done|]. split_and!; try done. eapply sync_ok_processes; try done; [by intros q|].
    simpl. apply waiting_ok_trigger. apply OK. }
  destruct deferred; [injection H as <-; apply operation_ok_keeps; try done; [intros q|]; by rewrite EC|].
  destruct (trigger_ok _ _ _ _ OK1 H) as (OK' & EP' & HL & _ & e' & _ & _ & HQ).
  apply operation_ok_keeps; try done; [intros q; by rewrite HL, EC|by rewrite EP'|]. rewrite (HQ p c) by by rewrite EC.
  rewrite Hc. unfold wakes_on. rewrite He. by rewrite !andb_false_r.
Qed.

Lemma event_wait_ok s p o s' :
  sync_ok s -> running s p -> event_wait s p o = Returned s' -> operation_ok s p s' Result_waiting.
Proof.
  intros OK RUN H. destruct (running_free _ _ OK RUN) as (HP & c & Hc & He & Hh & Hs & Hq & Hr). unfold event_wait in H.
  apply bind_returned in H as (h & _ & H). apply bind_returned in H as (found & Hf & H).
  set (s1 := match found with Some _ => _ | None => _ end) in H.
  assert (mailboxes s1 = mailboxes s /\ semaphores s1 = semaphores s /\ controls s1 = controls s
          /\ scheduled s1 = scheduled s) as (E1 & E2 & E3 & E4) by by unfold s1; destruct found as [[??]|].
  destruct (client_wait_effect _ _ _ _ c H) as (EO & ES & EC & _); [by rewrite E3|done|].
  injection EO as EO1 EO2 _ _. rewrite E3 in EC. simpl in EC.
  assert (c_suspended_wake c = false) as Hw.
  { destruct (c_suspended_wake c) eqn:E; [|done]. apply (wo_wake _ _ _ (so_waiting _ OK) _ _ Hc) in E. congruence. }
  assert (same_life s s') as HL by (intros q; rewrite EC; by eapply alive_update).
  split; [|done]. eapply sync_ok_processes; [exact OK|congruence|congruence|auto|].
  - rewrite EC, ES, E4. eapply waiting_ok_update; [apply OK|exact Hc|done| | | |]; simpl; try done.
    + intros _ _. split_and!; simpl; try done. by rewrite Hs.
    + by rewrite Hw.
    + intros Hin. destruct (wo_queued _ _ _ (so_waiting _ OK) _ Hin) as (d & Hd & ? & _). congruence.
Qed.

Lemma dynamic_event_ok s p o s' result :
  sync_ok s -> running s p -> dynamic_event s p o = Returned (s', result) -> operation_ok s p s' result.
Proof.
  intros OK RUN H. destruct (running_free _ _ OK RUN) as (HP & _). unfold dynamic_event in H.
  destruct (ev_operation o).
  - returned H. apply write_word_keeps in E0 as R. eapply operation_ok_then; [|exact R].
    apply operation_ok_keeps; try done. by eapply sync_ok_events.
  - apply bind_returned in H as (s1 & H1 & [= <- <-]). by eapply event_trigger_ok.
  - apply bind_returned in H as (s1 & H1 & [= <- <-]). by eapply event_wait_ok.
  - apply bind_returned in H as (f & _ & H). apply bind_returned in H as (s1 & H1 & [= <- <-]).
    apply write_word_keeps in H1. by apply operation_ok_registers.
Qed.

Theorem run_synchronization_ok s p op s' result :
  sync_ok s -> running s p -> run_synchronization s p op = Returned (s', result) -> operation_ok s p s' result.
Proof.
  destruct op; simpl;
    eauto using mailbox_create_ok, mailbox_put_ok, mailbox_get_ok, dynamic_event_ok, mailbox_num_ok, semaphore_create_ok,
      semaphore_get_ok, semaphore_put_ok.
  intros OK RUN [= <- <-]. destruct (running_free _ _ OK RUN) as (HP & _). by apply operation_ok_keeps.
Qed.

(** The boundary of an operation changes no more than the operation: the status of
    a process that goes on is running already. *)
Lemma boundary_inv s p op s' handled :
  sync_ok s -> running s p -> handle_synchronization_boundary s p op = Returned (s', handled) ->
  exists s1 result, run_synchronization s p op = Returned (s1, result) /\ operation_ok s p s1 result
    /\ registers_only p s1 s' /\ (forall r v, received s1 r v -> received s' r v).
Proof.
  intros OK RUN H. unfold handle_synchronization_boundary in H. apply bind_returned in H as ([s1 result] & H1 & H).
  exists s1, result. pose proof (run_synchronization_ok _ _ _ _ _ OK RUN H1) as OP. split; [done|]. split; [done|].
  destruct (running_free _ _ OK RUN) as (_ & c & Hc & _ & _ & _ & _ & Hr).
  destruct result.
  - injection H as <- <-. done.
  - apply bind_returned in H as (x & Hx & [= <- <-]). apply get_process_returned in Hx.
    destruct OP as (_ & _ & HC). destruct (HC ltac:(done)) as [_ EC]. rewrite Hc in EC.
    apply lookup_controls in EC as (y & Hy & <-). simplify_eq. split.
    + eapply registers_only_set; [done|]. unfold control; simpl in *. by rewrite Hr.
    + intros r v (y & Hy' & HR). destruct (decide (mr_process r = p)) as [E|E].
      * rewrite E in Hy'. simplify_eq. exists (with_process_status x Running). split; [by eapply set_process_lookup|done].
      * exists y. split; [|done]. simpl. by rewrite list_lookup_insert_ne.
  - injection H as <- <-. done.
Qed.

(** ** Steps keep the invariant *)

Lemma waiting_ok_tasks cs before task after P :
  waiting_ok cs (before ++ task :: after) P ->
  waiting_ok cs (before ++ after) P /\ (forall p, task = ResumeProcess p -> p ∉ resumes (before ++ after)).
Proof.
  assert (resumes (before ++ task :: after) = resumes before ++ resumes [task] ++ resumes after) as E
    by (rewrite resumes_app; by destruct task).
  intros []. rewrite E in wo_queued, wo_once. split.
  - split; try done; rewrite resumes_app.
    + intros p. rewrite elem_of_app. intros Hp. apply wo_queued. rewrite !elem_of_app. tauto.
    + eapply sublist_NoDup; [exact wo_once|]. apply sublist_app; [done|]. by apply sublist_inserts_l.
  - intros p ->. simpl in wo_once. rewrite resumes_app, elem_of_app. apply NoDup_app in wo_once as (_ & H1 & H2).
    apply NoDup_cons in H2 as [H2 _]. intros [Hp|Hp]; [|done]. apply (H1 p Hp). by left.
Qed.

Lemma sync_ok_unscheduled s before task after :
  sync_ok s -> scheduled s = before ++ task :: after -> sync_ok (with_scheduled s (before ++ after)).
Proof.
  intros OK E. eapply sync_ok_processes; try done; [by intros q|]. simpl.
  pose proof (so_waiting _ OK) as W. rewrite E in W. by apply waiting_ok_tasks in W as [W _].
Qed.

(** One process changes. *)
Lemma sync_ok_update s p x x' :
  sync_ok s -> processes s !! p = Some x -> (ps_halted x = true -> ps_halted x' = true) ->
  (ps_halted x' = false -> p ∈ parked s \/ ps_pending_dynamic_event x' <> None -> blocked (control x')) ->
  (ps_halted x' = false -> p ∈ parked s -> ps_pending_dynamic_event x' = None) ->
  (ps_suspended_wake x' = true -> ps_suspended x' = true) ->
  (p ∈ resumes (scheduled s) -> ps_queued x' = true /\ ps_timer_wake x' = false) ->
  sync_ok (set_process s p x').
Proof.
  intros OK Hx Hh Hb He Hw Hq.
  assert (controls s !! p = Some (control x)) as HC by (apply lookup_controls; eauto).
  eapply sync_ok_processes; try done.
  - intros q. rewrite controls_set. by eapply alive_insert.
  - rewrite controls_set. eapply waiting_ok_update; [apply OK|exact HC|done..].
Qed.

(** A live process in a queue or waiting for an event is blocked. *)
Lemma parked_blocked s p x :
  sync_ok s -> processes s !! p = Some x -> ps_halted x = false ->
  p ∈ parked s \/ ps_pending_dynamic_event x <> None -> blocked (control x).
Proof.
  intros OK Hx Hh H. eapply wo_blocked; [apply OK| |done|done]. apply lookup_controls. eauto.
Qed.

Lemma parked_no_event s p x :
  sync_ok s -> processes s !! p = Some x -> ps_halted x = false -> p ∈ parked s -> ps_pending_dynamic_event x = None.
Proof.
  intros OK Hx Hh H. eapply (wo_exclusive _ _ _ (so_waiting _ OK) _ (control x)); try done. apply lookup_controls. eauto.
Qed.

Lemma queued_not_blocked s p x :
  sync_ok s -> processes s !! p = Some x -> p ∈ resumes (scheduled s) -> ps_queued x = true /\ ps_timer_wake x = false.
Proof.
  intros OK Hx Hin. destruct (wo_queued _ _ _ (so_waiting _ OK) _ Hin) as (c & Hc & Hq).
  apply lookup_controls in Hc as (y & Hy & <-). by simplify_eq.
Qed.

Lemma resume_task_ok s before p after s' :
  sync_ok s -> scheduled s = before ++ ResumeProcess p :: after ->
  resume_task (with_scheduled s (before ++ after)) p = Returned s' -> sync_ok s'.
Proof.
  intros OK E H. pose proof (sync_ok_unscheduled _ _ _ _ OK E) as OK1.
  assert (p ∉ resumes (before ++ after)) as HN.
  { pose proof (so_waiting _ OK) as W. rewrite E in W. apply waiting_ok_tasks in W as [_ HN]. by apply HN. }
  unfold resume_task in H. apply bind_returned in H as (x & Hx & H). apply get_process_returned in Hx.
  assert (ps_queued x = true) as Hq.
  { eapply queued_not_blocked; [exact OK|done|]. rewrite E, resumes_app, elem_of_app. right. by left. }
  assert (ps_halted x = false -> p ∈ parked s \/ ps_pending_dynamic_event x <> None -> False) as HB.
  { intros Hh HP. destruct (parked_blocked _ _ _ OK Hx Hh HP) as [Hq' _]. simpl in Hq'. congruence. }
  assert (ps_suspended_wake x = true -> ps_suspended x = true) as HW.
  { intros ?. eapply (wo_wake _ _ _ (so_waiting _ OK) p (control x)); [|done]. apply lookup_controls. eauto. }
  simpl in *.
  destruct (ps_suspended x) eqn:ES; [|destruct (ps_halted x) eqn:Eh]; returned H;
    eapply sync_ok_update; try done; simpl; try done; rewrite ?Eh, ?ES; try done; intros; exfalso; eauto.
Qed.

Lemma suspend_process_ok s p s' : sync_ok s -> suspend_process s p = Returned s' -> sync_ok s'.
Proof.
  intros OK H. unfold suspend_process in H. apply bind_returned in H as (x & Hx & H). apply get_process_returned in Hx.
  destruct (_ && _) eqn:EB; [|by injection H as <-]. injection H as <-.
  apply andb_true_iff in EB as [Eh%negb_true_iff Es%negb_true_iff].
  eapply sync_ok_update; try done; simpl.
  - intros _ HP. destruct (parked_blocked _ _ _ OK Hx Eh HP) as (Hq & Hw & Hs). simpl in *. rewrite Es in Hs. done.
  - intros _. by apply parked_no_event.
  - by eapply queued_not_blocked.
Qed.

Lemma resume_process_ok s p s' : sync_ok s -> resume_process s p = Returned s' -> sync_ok s'.
Proof.
  intros OK H. unfold resume_process in H. apply bind_returned in H as (x & Hx & H). apply get_process_returned in Hx.
  destruct (ps_suspended x) eqn:Es; [|by injection H as <-].
  set (runnable := _ || _) in H. set (y := with_suspension _ _ _ _ _) in H.
  assert (ps_halted x = false -> p ∈ parked s \/ ps_pending_dynamic_event x <> None ->
          runnable = false /\ ps_queued x = false /\ ps_suspended_status x = Waiting) as HB.
  { intros Hh HP. destruct (parked_blocked _ _ _ OK Hx Hh HP) as (Hq & Hw & Hs). simpl in *. rewrite Es in Hs.
    unfold runnable. by rewrite Hw, Hs. }
  assert (sync_ok (set_process s p y)) as OK1.
  { eapply sync_ok_update; try done; unfold y; simpl.
    - intros Hh HP. destruct (HB Hh HP) as (-> & Hq & Hs). done.
    - by apply parked_no_event.
    - by eapply queued_not_blocked. }
  destruct (runnable && negb (ps_queued x)) eqn:EB; [|by injection H as <-].
  apply andb_true_iff in EB as [Er Eq%negb_true_iff]. unfold queue_active_current in H.
  apply bind_returned in H as (z & Hz & H). apply get_process_returned in Hz.
  rewrite (set_process_lookup _ _ _ _ Hx) in Hz. injection Hz as <-.
  destruct (ps_halted y || ps_queued y) eqn:EH; [by injection H as <-|]. injection H as <-.
  assert (sync_ok (set_process (set_process s p y) p (with_queued y true false))) as OK2.
  { eapply sync_ok_update; [done|by eapply set_process_lookup|..]; unfold y; simpl; try done.
    - intros Hh HP. destruct (HB Hh HP) as (? & _). congruence.
    - intros Hh HP. by apply (parked_no_event s p x). }
  eapply sync_ok_processes; [exact OK2|done|done|by intros q|].
  eapply (waiting_ok_schedule _ _ _ _ (control (with_queued y true false))); [apply OK2| |done|].
  - apply lookup_controls. eexists. split; [|reflexivity]. eapply set_process_lookup. by eapply set_process_lookup.
  - intros Hin. apply (queued_not_blocked _ _ _ OK Hx) in Hin as [? _]. congruence.
Qed.

(** A process that is queued for the current time goes on. *)
Lemma queue_active_ok s p x s' :
  sync_ok s -> processes s !! p = Some x -> p ∉ parked s -> ps_pending_dynamic_event x = None ->
  queue_active_current s p = Returned s' -> sync_ok s'.
Proof.
  intros OK Hx HP He H. unfold queue_active_current in H. apply bind_returned in H as (y & Hy & H).
  apply get_process_returned in Hy. simplify_eq.
  destruct (ps_halted x || ps_queued x) eqn:EH; injection H as <-; [done|]. apply orb_false_iff in EH as [Hh Hq].
  assert (sync_ok (set_process s p (with_queued x true false))) as OK1.
  { eapply sync_ok_update; try done; simpl; [by intros _ [?|?]|].
    apply (wo_wake _ _ _ (so_waiting _ OK) p (control x)). apply lookup_controls. eauto. }
  eapply sync_ok_processes; [exact OK1|done|done|by intros q|].
  eapply (waiting_ok_schedule _ _ _ _ (control (with_queued x true false))); [apply OK1| |done|].
  - apply lookup_controls. eexists. split; [by eapply set_process_lookup|reflexivity].
  - intros Hin. apply (queued_not_blocked _ _ _ OK Hx) in Hin as [? _]. congruence.
Qed.

Lemma redirect_process_ok s p x s' :
  sync_ok s -> processes s !! p = Some x -> p ∉ parked s -> ps_pending_dynamic_event x = None ->
  redirect_process s p = Returned s' -> sync_ok s'.
Proof.
  intros OK Hx HP He H. unfold redirect_process in H. apply bind_returned in H as (y & Hy & H).
  apply get_process_returned in Hy. simplify_eq. destruct (ps_halted x) eqn:Eh; [by injection H as <-|].
  set (y := if _ && _ then _ else _) in H.
  assert (ps_pending_dynamic_event y = None) as Hy by (unfold y; by destruct (_ && _)).
  assert (sync_ok (set_process s p y)) as OK1.
  { eapply sync_ok_update; try done.
    - congruence.
    - by intros _ [?|?].
    - pose proof (wo_wake _ _ _ (so_waiting _ OK) p (control x)) as Hw.
      assert (ps_suspended_wake x = true -> ps_suspended x = true) by (apply Hw, lookup_controls; eauto).
      unfold y. by destruct (_ && _).
    - intros Hin. destruct (queued_not_blocked _ _ _ OK Hx Hin) as [Hq Ht]. unfold y. simpl. by rewrite Hq, Ht. }
  eapply queue_active_ok; [exact OK1|by eapply set_process_lookup|done|done|exact H].
Qed.

Lemma filter_alive_same cs cs' (P : list nat) :
  (forall q, q ∈ P -> alive cs' q = alive cs q) ->
  filter (fun p => alive cs' p = true) P = filter (fun p => alive cs p = true) P.
Proof.
  induction P as [|p P IH]; intros H; [done|]. rewrite !filter_cons, IH by (intros; apply H; by right).
  rewrite (H p) by by left. done.
Qed.

Lemma waiting_ok_spawn cs tasks P c :
  waiting_ok cs tasks P -> c_event c = None -> c_suspended_wake c = false -> waiting_ok (cs ++ [c]) tasks P.
Proof.
  intros W He Hw.
  assert (forall p d, (cs ++ [c]) !! p = Some d -> cs !! p = Some d \/ (p = length cs /\ d = c)) as HL.
  { intros p d [H|[H1 H2]]%lookup_app_Some; [by left|right]. apply list_lookup_singleton_Some in H2 as [? ->].
    split; [lia|done]. }
  assert (length cs ∉ P) as HP by (intros H%(wo_valid _ _ _ W); lia).
  split.
  - intros p Hp%(wo_valid _ _ _ W). rewrite length_app. simpl. lia.
  - intros p d [Hd|[-> ->]]%HL Hh Hp; [by eapply wo_blocked|]. destruct Hp; done.
  - intros p d [Hd|[-> ->]]%HL Hh Hp; [by eapply wo_exclusive|done].
  - rewrite (filter_alive_same cs); [apply W|]. intros q Hq%(wo_valid _ _ _ W). unfold alive.
    by rewrite lookup_app_l.
  - intros p d [Hd|[-> ->]]%HL H; [by eapply wo_wake|congruence].
  - intros p Hp. destruct (wo_queued _ _ _ W _ Hp) as (d & Hd & Hq). exists d. split; [by apply lookup_app_l_Some|done].
  - apply W.
Qed.

Lemma sync_ok_spawn s x :
  sync_ok s -> ps_pending_dynamic_event x = None -> ps_suspended_wake x = false ->
  sync_ok (with_processes s (processes s ++ [x])).
Proof.
  intros OK He Hw. pose proof (so_waiting _ OK) as W.
  assert (controls (with_processes s (processes s ++ [x])) = controls s ++ [control x]) as EC by (unfold controls; simpl; by rewrite fmap_app).
  split; [apply OK| |rewrite EC; by apply waiting_ok_spawn].
  rewrite EC. apply Forall_forall. intros m Hm.
  pose proof (proj1 (Forall_forall _ _) (so_semaphores _ OK) m Hm) as [HF HS]. split; [done|].
  destruct (sem_waiters m) as [|w l] eqn:EW; [done|]. destruct HS as [HS|HS]; [left|by right].
  unfold alive in *. rewrite lookup_app_l; [done|]. apply (wo_valid _ _ _ W). apply elem_of_app. right.
  apply list_elem_of_bind. exists m. split; [|done]. unfold semaphore_pids. rewrite EW. by left.
Qed.

Theorem sync_step_ok s a s' : sync_ok s -> sync_step s a s' -> sync_ok s'.
Proof.
  intros OK [p op s1 handled RUN H|before task after s1 E H|p killed s1 H|p s1 H|p s1 H|t Ht
             |p x s1 Hx HP He H|p x x' Hx HP He He' Hh Hw Hq|x He Hw].
  - destruct (boundary_inv _ _ _ _ _ OK RUN H) as (s2 & result & _ & [OK2 _] & R & _). by eapply sync_ok_registers.
  - destruct task; simpl in H; [by eapply resume_task_ok|].
    by destruct (trigger_ok _ _ _ _ (sync_ok_unscheduled _ _ _ _ OK E) H).
  - unfold complete_process in H. apply bind_returned in H as (x & Hx & [= <-]). apply get_process_returned in Hx.
    eapply sync_ok_update; try done; simpl. by eapply queued_not_blocked.
  - by eapply suspend_process_ok.
  - by eapply resume_process_ok.
  - by eapply sync_ok_events.
  - by eapply redirect_process_ok.
  - eapply sync_ok_update; try done; simpl. intros _ [?|?]; done.
  - by apply sync_ok_spawn.
Qed.

