(* ===== verification/SyncProperties.v ===== *)
(** * Claims on mailboxes, semaphores and events

    A mailbox is a channel: the messages in it and those of the live writers that
    wait for room are one queue; puts add at its end, gets take from its front, and
    only the death of a waiting writer removes a message in between.  Capacity,
    readers that wait and deliveries that bypass the queue do not show.  Nobody waits
    for what is there; keys go to the waiters in order.  At the end, three ways in
    which a process that is killed, disabled or suspended while it waits disturbs the
    others or is forgotten. *)
From S2P Require Import Prelude Logic WordSpan LogicWord PackedLogic4 PackedConvert PackedLogic9 SyncObjects SyncWaiting SyncTheorems.
From stdpp Require Import options.

(** ** The abstract channel *)

Inductive channel_event :=
  | Offered (p : nat) (v : MailboxValue)
  | Taken (p : nat) (v : MailboxValue)
  | Withdrawn (p : nat) (v : MailboxValue).

Inductive channel_step : list MailboxValue -> channel_event -> list MailboxValue -> Prop :=
  | channel_offered q p v : channel_step q (Offered p v) (q ++ [v])
  | channel_taken q p v : channel_step (v :: q) (Taken p v) q
  | channel_withdrawn q1 q2 p v : channel_step (q1 ++ v :: q2) (Withdrawn p v) (q1 ++ q2).

Inductive channel_run : list MailboxValue -> list channel_event -> list MailboxValue -> Prop :=
  | channel_nil q : channel_run q [] q
  | channel_cons q e q' es q'' : channel_step q e q' -> channel_run q' es q'' -> channel_run q (e :: es) q''.

Lemma channel_run_app q es q' es' q'' : channel_run q es q' -> channel_run q' es' q'' -> channel_run q (es ++ es') q''.
Proof. induction 1; simpl; [done|]. intros H1. econstructor; eauto. Qed.

Definition offers (es : list channel_event) : list MailboxValue :=
  omap (fun e => match e with Offered _ v => Some v | _ => None end) es.
Definition takes (es : list channel_event) : list MailboxValue :=
  omap (fun e => match e with Taken _ v => Some v | _ => None end) es.
Definition withdrawals (es : list channel_event) : list MailboxValue :=
  omap (fun e => match e with Withdrawn _ v => Some v | _ => None end) es.

(** Messages come out in the order they went in. *)
Lemma channel_fifo q es q' : channel_run q es q' -> takes es ++ q' `sublist_of` q ++ offers es.
Proof.
  induction 1 as [q|q e q1 es q2 H _ IH]; simpl; [by rewrite app_nil_r|].
  destruct H as [q p v|q p v|q1 q3 p v]; simpl.
  - by rewrite <- app_assoc in IH.
  - by apply sublist_skip.
  - etrans; [exact IH|]. rewrite <- !app_assoc. simpl. apply sublist_app; [done|]. by apply sublist_cons.
Qed.

(** None is lost while nothing is withdrawn. *)
Lemma channel_conserves q es q' : channel_run q es q' -> withdrawals es = [] -> takes es ++ q' = q ++ offers es.
Proof.
  induction 1 as [q|q e q1 es q2 H _ IH]; simpl; [by rewrite app_nil_r|].
  destruct H as [q p v|q p v|q1 q3 p v]; simpl; intros HW; [|f_equal; auto|done].
  rewrite IH by done. by rewrite <- app_assoc.
Qed.

(** ** The channel of a mailbox *)

Definition channel (cs : list Control) (m : MailboxState) : list MailboxValue :=
  contents m ++ (mw_value <$> live_writers cs (mb_writers m)).

Definition channel_of (s : Sync) (i : nat) : list MailboxValue :=
  match mailboxes s !! i with Some m => channel (controls s) m | None => [] end.

(** What a put offers to mailbox [i], and to whom it goes at once. *)
Definition put_events (s : Sync) (p : nat) (o : MailboxPut) (i : nat) : list channel_event :=
  match mailbox_from_handle s p (mp_receiver o) with
  | Returned (j, m) =>
      if decide (j = i) then
        match put_value s p o m with
        | Returned v =>
            if put_available m then
              Offered p v :: match first_taker (controls s) (mb_readers m) with
                             | Some r => [Taken (mr_process r) v]
                             | None => []
                             end
            else match mp_result o with Some _ => [] | None => [Offered p v] end
        | Raised _ => []
        end
      else []
  | Raised _ => []
  end.

(** What a get takes from mailbox [i]. *)
Definition get_events (s : Sync) (p : nat) (o : MailboxGet) (i : nat) : list channel_event :=
  match mailbox_from_handle s p (mg_receiver o) with
  | Returned (j, m) =>
      if decide (j = i) then
        match contents m with
        | v :: _ => if mg_peek o then [] else [Taken p v]
        | [] => []
        end
      else []
  | Raised _ => []
  end.

(** The waiting messages of a process that halts. *)
Definition withdrawn_by (s : Sync) (p i : nat) : list channel_event :=
  match mailboxes s !! i with
  | Some m => (fun w => Withdrawn p (mw_value w)) <$>
                filter (fun w => mw_process w = p) (live_writers (controls s) (mb_writers m))
  | None => []
  end.

Definition action_events (s : Sync) (a : action) (i : nat) : list channel_event :=
  match a with
  | Operate p (Op_MailboxPut o) => put_events s p o i
  | Operate p (Op_MailboxGet o) => get_events s p o i
  | Complete p _ => withdrawn_by s p i
  | _ => []
  end.

(** Runs, with what happens to mailbox [i]. *)
Inductive mailbox_run (i : nat) : Sync -> list channel_event -> Sync -> Prop :=
  | run_done s : mailbox_run i s [] s
  | run_more s a s' es s'' :
      sync_step s a s' -> mailbox_run i s' es s'' -> mailbox_run i s (action_events s a i ++ es) s''.

(** ** Simulation *)

Lemma channel_of_same s s' i :
  mailboxes s' !! i = mailboxes s !! i ->
  (forall m q, mailboxes s !! i = Some m -> q ∈ mw_process <$> mb_writers m -> alive (controls s') q = alive (controls s) q) ->
  channel_of s' i = channel_of s i.
Proof.
  intros E HL. unfold channel_of. rewrite E. destruct (mailboxes s !! i) as [m|] eqn:Em; [|done].
  unfold channel. f_equal. f_equal. specialize (HL m). unfold live_writers.
  assert (forall q, q ∈ mw_process <$> mb_writers m -> alive (controls s') q = alive (controls s) q) as HL' by auto.
  clear -HL'. induction (mb_writers m) as [|w l IH]; [done|]. rewrite !filter_cons, IH.
  - rewrite (HL' (mw_process w)) by by left. done.
  - intros q Hq. apply HL'. by right.
Qed.

Lemma channel_changed s s' i j m m' :
  mailboxes s !! j = Some m -> mailboxes s' = <[j := m']> (mailboxes s) -> same_life s s' ->
  (i = j -> channel_of s i = channel (controls s) m /\ channel_of s' i = channel (controls s) m')
  /\ (i <> j -> channel_of s' i = channel_of s i).
Proof.
  intros Hm E HL. split.
  - intros ->. unfold channel_of, channel. rewrite Hm, E, list_lookup_insert_eq by by eapply lookup_lt_Some.
    split; [done|]. do 2 f_equal. by apply live_writers_ext.
  - intros Hne. apply channel_of_same; [by rewrite E, list_lookup_insert_ne|]. intros. apply HL.
Qed.

Lemma put_simulates s p o s' result i :
  sync_ok s -> running s p -> mailbox_put s p o = Returned (s', result) ->
  channel_run (channel_of s i) (put_events s p o i) (channel_of s' i).
Proof.
  intros OK RUN H. destruct (mailbox_put_ok _ _ _ _ _ OK RUN H) as (_ & HL & _). unfold put_events.
  destruct (mailbox_put_effect _ _ _ _ _ OK RUN H) as
    [j m v [E1 E2] Hm Hv EA EO _ _ _ _ _ | j m v [E1 E2] Hm EA ER (E & EC & _)| j m v c [E1 E2] Hm Hv EA ER Hc EO EC _];
    rewrite E1.
  - injection EO as EO _ _ _. destruct (channel_changed _ _ i _ _ _ Hm EO HL) as [HY HN].
    destruct (decide (j = i)) as [->|Hne]; [|rewrite HN by done; constructor].
    destruct (HY eq_refl) as [-> ->]. rewrite E2, EA. apply put_available_inv in EA as [EW _].
    unfold channel. rewrite (delivered_contents _ _ _ Hv).
    destruct (delivered_queues (controls s) m v) as (_ & -> & _). rewrite EW. simpl. rewrite !app_nil_r.
    econstructor; [constructor|]. destruct (first_taker _ _) eqn:ET; [|constructor].
    assert (contents m = []) as ->.
    { apply (mo_readers m); [eapply Forall_lookup_1; [apply OK|done]|]. intros EN. by rewrite EN in ET. }
    simpl. econstructor; constructor.
  - destruct E as (E & _). injection E as EM _ _ _.
    rewrite (channel_of_same s s'); [|by rewrite EM|intros; apply HL].
    destruct (decide (j = i)); [|constructor]. rewrite E2, EA. destruct (mp_result o); [constructor|done].
  - injection EO as EO _ _ _. destruct (channel_changed _ _ i _ _ _ Hm EO HL) as [HY HN].
    destruct (decide (j = i)) as [->|Hne]; [|rewrite HN by done; constructor].
    destruct (HY eq_refl) as [-> ->]. rewrite E2, EA, ER. unfold channel. simpl. unfold live_writers.
    rewrite filter_app, fmap_app, app_assoc. rewrite filter_cons_True.
    + econstructor; constructor.
    + simpl. destruct RUN as (x & Hx & Hh & _). rewrite (alive_lookup _ _ (control x)); [simpl; by rewrite Hh|].
      apply lookup_controls. eauto.
Qed.

Lemma get_simulates s p o s' result i :
  sync_ok s -> running s p -> mailbox_get s p o = Returned (s', result) ->
  channel_run (channel_of s i) (get_events s p o i) (channel_of s' i).
Proof.
  intros OK RUN H. destruct (mailbox_get_ok _ _ _ _ _ OK RUN H) as (_ & HL & _). unfold get_events.
  destruct (mailbox_get_effect _ _ _ _ _ OK RUN H) as
    [j m v vs left E1 Hm EV EK EO _ _ HS EN ET _ _|j m v vs E1 Hm EV EK (E & _)|j m E1 Hm EV ER (E & _)
    |j m c E1 Hm EV ER Hc EO _ _]; rewrite E1, EV.
  - injection EO as EO _ _ _. destruct (channel_changed _ _ i _ _ _ Hm EO HL) as [HY HN].
    destruct (decide (j = i)) as [->|Hne]; [|rewrite HN by done; constructor].
    destruct (HY eq_refl) as [-> ->]. rewrite EK. unfold channel.
    rewrite (taken_contents _ _ _ v vs); [|eapply mo_offers, Forall_lookup_1; [apply OK|done]|done].
    destruct (taken_queues (controls s) m left) as (_ & -> & _). rewrite ET, EV, <- app_assoc, <- fmap_app.
    destruct (live_writers (controls s) (mb_writers m)); simpl; econstructor; constructor.
  - destruct E as (E & _). injection E as EM _ _ _. rewrite (channel_of_same s s'); [|by rewrite EM|intros; apply HL].
    rewrite EK. destruct (decide (j = i)); constructor.
  - destruct E as (E & _). injection E as EM _ _ _. rewrite (channel_of_same s s'); [|by rewrite EM|intros; apply HL].
    destruct (decide (j = i)); constructor.
  - injection EO as EO _ _ _. destruct (channel_changed _ _ i _ _ _ Hm EO HL) as [HY HN].
    destruct (decide (j = i)) as [->|Hne]; [|rewrite HN by done; constructor].
    destruct (HY eq_refl) as [-> ->]. constructor.
Qed.

(** The other operations leave the mailboxes there are alone. *)
Lemma dynamic_event_mailboxes s p o s' result :
  sync_ok s -> running s p -> dynamic_event s p o = Returned (s', result) -> mailboxes s' = mailboxes s.
Proof.
  intros OK RUN H. destruct (running_free _ _ OK RUN) as (_ & c & Hc & He & _). unfold dynamic_event in H.
  destruct (ev_operation o).
  - returned H. apply write_word_keeps in E0 as ((E1 & _) & _). by injection E1 as E1 _ _ _.
  - apply bind_returned in H as (s1 & H1 & [= <- <-]). unfold event_trigger in H1.
    apply bind_returned in H1 as (h & _ & H1). apply bind_returned in H1 as (found & _ & H1).
    destruct found; [|by injection H1 as <-]. apply bind_returned in H1 as ([s2 deferred] & H2 & H1).
    assert (sync_ok s2 /\ mailboxes s2 = mailboxes s) as (OK2 & E).
    { destruct (ev_nonblocking o); [|by injection H2 as <- <-]. unfold defer_trigger in H2. returned H2.
      destruct (negb _); returned H2; [done|]. split; [|done]. eapply sync_ok_processes; try done; [by intros q|].
      simpl. apply waiting_ok_trigger. apply OK. }
    destruct deferred; [by injection H1 as <-|]. destruct (trigger_ok _ _ _ _ OK2 H1) as (_ & _ & _ & E' & _). congruence.
  - apply bind_returned in H as (s1 & H1 & [= <- <-]). unfold event_wait in H1.
    apply bind_returned in H1 as (h & _ & H1). apply bind_returned in H1 as (found & _ & H1).
    destruct (client_wait_effect _ _ _ _ c H1) as (E & _); [by destruct found as [[??]|]|done|].
    injection E as E _ _ _. rewrite E. by destruct found as [[??]|].
  - apply bind_returned in H as (f & _ & H). apply bind_returned in H as (s1 & H1 & [= <- <-]).
    apply write_word_keeps in H1 as ((E & _) & _). by injection E as E _ _ _.
Qed.

Lemma semaphore_mailboxes s p op s' result :
  sync_ok s -> running s p -> run_synchronization s p op = Returned (s', result) ->
  match op with Op_SemaphoreCreate _ | Op_SemaphoreGet _ | Op_SemaphorePut _ => True | _ => False end ->
  mailboxes s' = mailboxes s.
Proof.
  intros OK RUN H Hop. destruct (running_free _ _ OK RUN) as (_ & c & Hc & He & _). destruct op; try done; simpl in H.
  - unfold semaphore_create in H. returned H. apply write_word_keeps in E1 as ((E' & _) & _). by injection E' as E' _ _ _.
  - unfold semaphore_get in H. apply bind_returned in H as ([j m] & H1 & H). apply bind_returned in H as (n & _ & H).
    apply bind_returned in H as (u & _ & H). destruct (get_available m n); [|destruct (sg_result o)];
      apply bind_returned in H as (s2 & H5 & [= <- <-]).
    + apply write_result_keeps in H5 as ((E' & _) & _). by injection E' as E' _ _ _.
    + apply write_word_keeps in H5 as ((E' & _) & _). by injection E' as E' _ _ _.
    + destruct (client_wait_effect _ _ _ _ c H5) as (E' & _); [done|done|]. by injection E' as E' _ _ _.
  - destruct (semaphore_put_inv _ _ _ _ _ OK H) as (j & m & n & _ & _ & _ & _ & _ & [_ (m' & E' & _) _ _ _]).
    by injection E' as E' _ _ _.
Qed.

Lemma other_mailboxes s p op s' result i :
  sync_ok s -> running s p -> run_synchronization s p op = Returned (s', result) -> (i < length (mailboxes s))%nat ->
  match op with Op_MailboxPut _ | Op_MailboxGet _ => False | _ => True end ->
  mailboxes s' !! i = mailboxes s !! i.
Proof.
  intros OK RUN H Hi Hop. pose proof (semaphore_mailboxes _ _ _ _ _ OK RUN H) as HS. destruct op; try done; simpl in H.
  - unfold mailbox_create in H. returned H. apply write_word_keeps in E3 as ((E' & _) & _). injection E' as E' _ _ _.
    rewrite E'. by apply lookup_app_l.
  - by erewrite dynamic_event_mailboxes.
  - unfold mailbox_num in H. returned H. apply write_word_keeps in E0 as ((E' & _) & _). injection E' as E' _ _ _.
    by rewrite E'.
  - by rewrite HS.
  - by rewrite HS.
  - by rewrite HS.
  - by injection H as <- <-.
Qed.

Lemma operation_simulates s p op s' result i :
  sync_ok s -> running s p -> run_synchronization s p op = Returned (s', result) -> (i < length (mailboxes s))%nat ->
  channel_run (channel_of s i) (action_events s (Operate p op) i) (channel_of s' i).
Proof.
  intros OK RUN H Hi. destruct (run_synchronization_ok _ _ _ _ _ OK RUN H) as (_ & HL & _).
  pose proof (fun Hop => other_mailboxes _ _ _ _ _ _ OK RUN H Hi Hop) as HM.
  destruct op; simpl in *; try (rewrite (channel_of_same s s'); [constructor|by apply HM|intros; apply HL]).
  - by eapply put_simulates.
  - by eapply get_simulates.
Qed.

(** A process dies: its waiting messages disappear. *)
Lemma withdraw_run (q : list MailboxValue) p (l : list MailboxWriter) :
  channel_run (q ++ (mw_value <$> l)) ((fun w => Withdrawn p (mw_value w)) <$> filter (fun w => mw_process w = p) l)
    (q ++ (mw_value <$> filter (fun w => mw_process w <> p) l)).
Proof.
  revert q. induction l as [|w l IH]; intros q; [constructor|]. rewrite !filter_cons.
  destruct (decide (mw_process w = p)) as [E|E].
  - rewrite decide_False by (intros ?; done). simpl. econstructor; [constructor|]. apply IH.
  - rewrite decide_True by done. simpl. rewrite !(cons_middle (mw_value w) q). rewrite !app_assoc. apply IH.
Qed.

Lemma complete_simulates s p killed s' i :
  complete_process s p killed = Returned s' -> channel_run (channel_of s i) (withdrawn_by s p i) (channel_of s' i).
Proof.
  intros H. unfold complete_process in H. apply bind_returned in H as (x & Hx & [= <-]). apply get_process_returned in Hx.
  unfold channel_of, withdrawn_by. simpl. destruct (mailboxes s !! i) as [m|]; [|constructor].
  unfold channel. match goal with |- channel_run _ _ (_ ++ (_ <$> live_writers ?cs _)) =>
    assert (live_writers cs (mb_writers m) = filter (fun w => mw_process w <> p) (live_writers (controls s) (mb_writers m))) as -> end.
  - unfold live_writers. rewrite list_filter_filter. apply list_filter_iff. intros w. rewrite controls_set.
    unfold alive. destruct (decide (mw_process w = p)) as [->|Hne].
    + rewrite list_lookup_insert_eq by (unfold controls; rewrite length_fmap; by eapply lookup_lt_Some). simpl. naive_solver.
    + rewrite list_lookup_insert_ne by done. naive_solver.
  - apply withdraw_run.
Qed.

Lemma mailboxes_grow s p op s' result :
  sync_ok s -> running s p -> run_synchronization s p op = Returned (s', result) ->
  (length (mailboxes s) <= length (mailboxes s'))%nat.
Proof.
  intros OK RUN H. destruct op.
  2: { destruct (mailbox_put_effect _ _ _ _ _ OK RUN H) as [? ? ? _ _ _ _ EO|? ? ? _ _ _ _ ((EO & _) & _)|? ? ? ? _ _ _ _ _ _ EO];
       injection EO as EO _ _ _; by rewrite EO, ?length_insert. }
  2: { destruct (mailbox_get_effect _ _ _ _ _ OK RUN H) as [? ? ? ? ? _ _ _ _ EO|? ? ? ? _ _ _ _ ((EO & _) & _)
         |? ? _ _ _ _ ((EO & _) & _)|? ? ? _ _ _ _ _ EO];
       injection EO as EO _ _ _; by rewrite EO, ?length_insert. }
  all: destruct (decide (length (mailboxes s) <= length (mailboxes s'))%nat) as [?|Hlt]; [done|].
  all: assert (length (mailboxes s') < length (mailboxes s))%nat as Hi by lia.
  all: pose proof (other_mailboxes _ _ _ _ _ _ OK RUN H Hi I) as E.
  all: apply lookup_lt_is_Some in Hi as [m Hm]; rewrite Hm in E; apply lookup_lt_Some in E; lia.
Qed.

(** The other steps do not concern mailboxes. *)
Definition aside (s s' : Sync) : Prop :=
  mailboxes s' = mailboxes s /\ forall q, q ∈ parked s -> alive (controls s') q = alive (controls s) q.

Lemma aside_set s p x x' :
  processes s !! p = Some x -> ps_halted x' = ps_halted x \/ p ∉ parked s -> aside s (set_process s p x').
Proof.
  intros Hx H. assert (controls s !! p = Some (control x)) as HC by (apply lookup_controls; eauto).
  split; [done|]. intros q Hq. rewrite controls_set. destruct H as [H|H]; [by eapply alive_update|].
  unfold alive. rewrite list_lookup_insert_ne; [done|]. by intros ->.
Qed.

Lemma aside_queue s p s' : queue_active_current s p = Returned s' -> aside s s'.
Proof.
  unfold queue_active_current. intros H. apply bind_returned in H as (x & Hx & H). apply get_process_returned in Hx.
  destruct (_ || _); injection H as <-; [done|]. by apply (aside_set s p x (with_queued x true false) Hx); left.
Qed.

Lemma aside_trans s1 s2 s3 :
  aside s1 s2 -> aside s2 s3 -> semaphores s2 = semaphores s1 -> aside s1 s3.
Proof.
  intros [E1 H1] [E2 H2] ES. split; [congruence|]. intros q Hq. rewrite H2, H1; try done.
  unfold parked in *. by rewrite E1, ES.
Qed.

Lemma step_aside s a s' :
  sync_ok s -> sync_step s a s' -> match a with Operate _ _ | Complete _ _ => False | _ => True end -> aside s s'.
Proof.
  intros OK H Ha. destruct H as [p op s1 handled RUN H|before task after s1 E H|p killed s1 H|p s1 H|p s1 H|t Ht
             |p x s1 Hx HP He H|p x x' Hx HP He He' Hh Hw Hq|x He Hw]; try done.
  - destruct task; simpl in H.
    + unfold resume_task in H. apply bind_returned in H as (x & Hx & H). apply get_process_returned in Hx.
      simpl in *. destruct (ps_suspended x); [|destruct (ps_halted x) eqn:Eh]; injection H as <-;
        eapply (aside_set s id x); auto.
    + destruct (trigger_ok _ _ _ _ (sync_ok_unscheduled _ _ _ _ OK E) H) as (_ & _ & HL & EM & _).
      split; [done|]. intros q _. apply HL.
  - unfold suspend_process in H. apply bind_returned in H as (x & Hx & H). apply get_process_returned in Hx.
    destruct (_ && _); injection H as <-; [|done]. eapply aside_set; [done|by left].
  - unfold resume_process in H. apply bind_returned in H as (x & Hx & H). apply get_process_returned in Hx.
    destruct (ps_suspended x); [|by injection H as <-].
    match type of H with (if ?b then queue_active_current ?s1 _ else _) = _ =>
      assert (aside s s1) as A by (eapply aside_set; [done|by left]); destruct b end; [|by injection H as <-].
    eapply aside_trans; [exact A|by eapply aside_queue|done].
  - unfold redirect_process in H. apply bind_returned in H as (y & Hy & H). apply get_process_returned in Hy.
    destruct (ps_halted y); [by injection H as <-|].
    eapply aside_trans; [eapply aside_set; [exact Hy|by right]|by eapply aside_queue|done].
  - eapply aside_set; [done|by right].
  - split; [done|]. intros q Hq%(wo_valid _ _ _ (so_waiting _ OK)). unfold alive, controls. simpl.
    rewrite fmap_app, lookup_app_l; done.
Qed.

(** Whatever happens is a run of the abstract channel. *)
Lemma step_simulates s a s' i :
  sync_ok s -> sync_step s a s' -> (i < length (mailboxes s))%nat ->
  channel_run (channel_of s i) (action_events s a i) (channel_of s' i) /\ (i < length (mailboxes s'))%nat.
Proof.
  intros OK H Hi. pose proof (step_aside _ _ _ OK H) as HA.
  assert (aside s s' -> channel_of s' i = channel_of s i /\ (i < length (mailboxes s'))%nat) as HQ.
  { intros [E HL]. split; [|by rewrite E]. apply channel_of_same; [by rewrite E|]. intros m q Hm Hq. apply HL.
    rewrite (parked_mailbox _ _ _ Hm). unfold mailbox_pids. rewrite !elem_of_app. auto. }
  destruct H as [p op s1 handled RUN H|before task after s1 E H|p killed s1 H|p s1 H|p s1 H|t Ht
             |p x s1 Hx HP He H|p x x' Hx HP He He' Hh Hw Hq|x He Hw];
    try (destruct (HQ (HA I)) as [-> Hlt]; split; [constructor|done]).
  - destruct (boundary_inv _ _ _ _ _ OK RUN H) as (s2 & result & H2 & _ & ((EO & _) & EC & _) & _).
    injection EO as EO _ _ _. rewrite (channel_of_same s2 s1), EO; [|by rewrite EO|intros; by rewrite EC].
    split; [by eapply operation_simulates|]. pose proof (mailboxes_grow _ _ _ _ _ OK RUN H2). lia.
  - split; [by eapply complete_simulates|]. unfold complete_process in H.
    apply bind_returned in H as (x & Hx & [= <-]). done.
Qed.

Lemma run_simulates i s es s' :
  mailbox_run i s es s' -> sync_ok s -> (i < length (mailboxes s))%nat ->
  sync_ok s' /\ channel_run (channel_of s i) es (channel_of s' i).
Proof.
  induction 1 as [s|s a s' es s'' H _ IH]; intros OK Hi; [split; [done|constructor]|].
  destruct (step_simulates _ _ _ _ OK H Hi) as [HC Hi'].
  destruct (IH (sync_step_ok _ _ _ OK H) Hi') as [OK' HC']. split; [done|]. by eapply channel_run_app.
Qed.

(** ** Reachable states *)

(** A process before it has used any object. *)
Definition fresh (x : ProcessState) : Prop := ps_pending_dynamic_event x = None /\ ps_suspended_wake x = false.

Definition initial (l : list ProcessState) : Sync := mkSync l [] [] [] 0 [].

Inductive reachable (l : list ProcessState) : Sync -> Prop :=
  | reachable_initial : reachable l (initial l)
  | reachable_step s a s' : reachable l s -> sync_step s a s' -> reachable l s'.

Lemma initial_ok l : Forall fresh l -> sync_ok (initial l).
Proof.
  intros H. split; [done|done|].
  assert (forall p c, controls (initial l) !! p = Some c -> c_event c = None /\ c_suspended_wake c = false) as HC.
  { intros p c (x & Hx & <-)%lookup_controls. simpl. eapply (Forall_lookup_1 fresh); done. }
  split; simpl; try done.
  - by intros p ?%elem_of_nil.
  - intros p c [He _]%HC _ [?%elem_of_nil|?]; done.
  - intros p c [He _]%HC _ _. done.
  - constructor.
  - intros p c [_ Hw]%HC ?. congruence.
  - by intros p ?%elem_of_nil.
  - constructor.
Qed.

Lemma reachable_ok l s : Forall fresh l -> reachable l s -> sync_ok s.
Proof. intros H. induction 1; eauto using initial_ok, sync_step_ok. Qed.

(** ** Messages arrive *)








(** ** Handles *)

(** The handle of object [k] denotes it, as long as the table has it, and is a handle
    of its kind only. *)
Lemma handle_parts tag k :
  Z.land tag synchronization_handle_payload_mask = 0 -> Z.land tag synchronization_handle_tag_mask = tag -> 0 <= k < 2 ^ 48 ->
  Z.land (Z.lor tag k) synchronization_handle_tag_mask = tag
  /\ Z.land (Z.lor tag k) synchronization_handle_payload_mask = k.
Proof.
  intros H1 H2 Hk. rewrite !Z.land_lor_distr_l, H1, H2.
  assert (Z.land k synchronization_handle_payload_mask = k) as ->.
  { change synchronization_handle_payload_mask with (Z.ones 48). rewrite Z.land_ones by lia. by apply Z.mod_small. }
  assert (Z.land k synchronization_handle_tag_mask = 0) as ->; [|by rewrite Z.lor_0_r].
  apply Z.bits_inj'. intros n Hn. change synchronization_handle_tag_mask with (Z.shiftl (Z.ones 16) 48).
  rewrite Z.land_spec, Z.shiftl_spec, Z.bits_0 by done. destruct (decide (n < 48)).
  - rewrite (Z.testbit_neg_r _ (n - 48)) by lia. by rewrite andb_false_r.
  - rewrite (Z.bits_above_log2 k n); [done|lia|]. destruct (decide (k = 0)) as [->|]; [simpl; lia|].
    apply Z.log2_lt_pow2; [lia|]. apply (Z.lt_le_trans _ (2 ^ 48)); [lia|]. apply Z.pow_le_mono_r; lia.
Qed.

Theorem handle_denotes self tag other k count wrong outside :
  tag ∈ [mailbox_handle_tag; semaphore_handle_tag; event_handle_tag] -> 0 < k <= maximum_synchronization_objects ->
  object_index self (Z.lor tag k) other count wrong outside
  = if tag =? other then if count <? k then Raised (InterpreterError self outside) else Returned (Z.to_nat (k - 1))
    else Raised (InterpreterError self wrong).
Proof.
  intros Ht Hk. unfold maximum_synchronization_objects in Hk.
  assert (Z.land tag synchronization_handle_payload_mask = 0 /\ Z.land tag synchronization_handle_tag_mask = tag) as [H1 H2].
  { rewrite !elem_of_cons in Ht. destruct Ht as [->|[->|[->|Ht]]]; [done..|by apply elem_of_nil in Ht]. }
  destruct (handle_parts tag k H1 H2 ltac:(lia)) as [E1 E2].
  unfold object_index, fail_when. rewrite E1, E2. destruct (tag =? other); simpl; [|done].
  destruct (k =? 0) eqn:E0; [lia|]. simpl. by destruct (count <? k).
Qed.

(** ** Claims *)

(** C28: nobody waits in vain. In every state that a simulation can reach in which
    no process is disabled while it stands in a queue or waits for an event (the code
    leaves it in the queue, see [disabled_reader_takes_message]), readers wait only for an empty mailbox and writers only
    for a full one, a mailbox is within its capacity and its byte count is right,
    the first waiter of a semaphore lacks keys unless it has halted, and a live
    process stands in one queue at most, waits for nothing else and is not about to
    run. *)
Theorem nobody_waits_in_vain l s :
  Forall fresh l -> reachable l s ->
  (forall i m, mailboxes s !! i = Some m ->
     (mb_readers m <> [] -> contents m = []) /\ (mb_writers m <> [] -> size (contents m) = mb_capacity m)
     /\ size (contents m) <= mb_capacity m
     /\ mb_string_bytes m = Z.of_nat (sum_list_with bytes_of (contents m)))
  /\ (forall i m w ws, semaphores s !! i = Some m -> sem_waiters m = w :: ws -> alive (controls s) (sw_process w) = true ->
        sem_keys m < sw_keys w)
  /\ NoDup (filter (fun p => alive (controls s) p = true) (parked s))
  /\ (forall p x, processes s !! p = Some x -> ps_halted x = false -> p ∈ parked s ->
        ps_queued x = false /\ ps_pending_dynamic_event x = None
        /\ (if ps_suspended x then ps_suspended_status x else ps_status x) = Waiting).
Proof.
  intros HF HR. pose proof (reachable_ok _ _ HF HR) as OK. split_and!.
  - intros i m Hm. assert (mailbox_ok m) as [] by (eapply Forall_lookup_1; [apply OK|done]). done.
  - intros i m w ws Hm EW HA.
    assert (semaphore_ok (controls s) m) as [_ HW] by (eapply Forall_lookup_1; [apply OK|done]).
    rewrite EW in HW. destruct HW; [congruence|done].
  - apply OK.
  - intros p x Hx Hh HP. destruct (parked_blocked _ _ _ OK Hx Hh (or_introl HP)) as (? & _ & ?).
    split; [done|]. split; [by eapply parked_no_event|done].
Qed.

(** C25: a mailbox is a first-in first-out channel. From a state with the invariant
    [sync_ok], as every reachable one has, whatever processes, the scheduler and
    time do, as long as no process is disabled while it stands in a
    queue or waits for an event (see [disabled_reader_takes_message]), what happens to a mailbox is a run of the abstract
    channel whose queue is its messages followed by those of the live writers that
    wait: messages are taken in the order they were offered, none twice, and none is
    lost unless a writer that waits dies. *)
Theorem mailbox_is_a_channel i s es s' :
  sync_ok s -> (i < length (mailboxes s))%nat -> mailbox_run i s es s' ->
  channel_run (channel_of s i) es (channel_of s' i)
  /\ takes es ++ channel_of s' i `sublist_of` channel_of s i ++ offers es
  /\ (withdrawals es = [] -> takes es ++ channel_of s' i = channel_of s i ++ offers es).
Proof.
  intros OK Hi H. destruct (run_simulates _ _ _ _ H OK Hi) as [_ HC].
  split; [done|]. split; [by apply channel_fifo|by apply channel_conserves].
Qed.


Lemma satisfied_keys keys l :
  Forall (fun w => 0 <= sw_keys w) l -> keys_of (satisfied keys l) <= Z.max 0 keys.
Proof.
  intros HF. revert keys. induction HF as [|w l Hw HF IH]; intros keys; unfold keys_of in *; simpl; [lia|].
  destruct (_ <? _) eqn:E; simpl; [lia|]. specialize (IH (keys - sw_keys w)). lia.
Qed.

Lemma satisfied_subset keys l w : w ∈ satisfied keys l -> w ∈ l.
Proof.
  revert keys. induction l as [|x l IH]; intros keys; simpl; [done|]. destruct (_ <? _); [by intros ?%elem_of_nil|].
  rewrite !elem_of_cons. intros [->|H]; [by left|right; eauto].
Qed.

Lemma satisfied_maximal keys l w ws :
  l = satisfied keys l ++ w :: ws -> keys - keys_of (satisfied keys l) < sw_keys w.
Proof.
  revert keys. induction l as [|x l IH]; intros keys; simpl; [done|]. destruct (keys <? sw_keys x) eqn:E; simpl.
  - intros [= -> _]. unfold keys_of. simpl. lia.
  - intros [= H]. apply IH in H. unfold keys_of in *. simpl. lia.
Qed.

Lemma satisfied_none keys l : Forall (fun w => 0 <= sw_keys w) l -> keys < 0 -> satisfied keys l = [].
Proof. intros [|w l' Hw _] Hk; simpl; [done|]. destruct (_ <? _) eqn:E; [done|lia]. Qed.

Lemma keys_of_nonneg l : Forall (fun w => 0 <= sw_keys w) l -> 0 <= keys_of l.
Proof. unfold keys_of. induction 1; simpl; lia. Qed.

(** C21: keys go to the waiters in order. A put of n keys that returns gives keys to
    the longest prefix of the live waiters whose requests the keys satisfy one after
    the other, and resumes exactly these in this order; the rest keep their places,
    the remaining keys are what is left, below 2^63 and too few for the next live
    waiter. They are negative only if the old keys and n are together (a semaphore
    may be created with a negative count), and then no waiter gets any. *)
Theorem keys_go_in_order s p o s' result :
  sync_ok s -> running s p -> semaphore_put s p o = Returned (s', result) ->
  exists i m m' n, semaphore_from_handle s p (sp_receiver o) = Returned (i, m)
    /\ known_i32 s p (sp_keys o) "semaphore put count" = Returned n
    /\ let waiting := live_waiters (controls s) (sem_waiters m) in
       let granted := satisfied (sem_keys m + n) waiting in
       semaphores s' = <[i := m']> (semaphores s)
       /\ waiting = granted ++ live_waiters (controls s') (sem_waiters m')
       /\ sem_keys m' = sem_keys m + n - keys_of granted
       /\ scheduled s' = scheduled s ++ (ResumeProcess ∘ sw_process <$> granted)
       /\ Z.min 0 (sem_keys m + n) <= sem_keys m' < 2 ^ 63
       /\ (sem_keys m + n < 0 -> granted = [])
       /\ (forall w ws, live_waiters (controls s') (sem_waiters m') = w :: ws -> sem_keys m' < sw_keys w).
Proof.
  intros OK RUN H. destruct (semaphore_put_inv _ _ _ _ _ OK H) as (i & m & n & H1 & H2 & Hn & Hb & _ & E).
  destruct E as [Hm (m' & EF & EK & EW & SO & _) ES PO _]. injection EF as _ EF _ _.
  exists i, m, m', n. split; [done|]. split; [done|]. simpl.
  rewrite (live_waiters_ext (controls s) (controls s')) by apply PO.
  assert (Forall (fun w => 0 <= sw_keys w) (sem_waiters m)) as HF.
  { by assert (semaphore_ok (controls s) m) as [? _] by (eapply Forall_lookup_1; [apply OK|done]). }
  assert (Forall (fun w => 0 <= sw_keys w) (live_waiters (controls s) (sem_waiters m))) as HL.
  { apply Forall_forall. intros w [_ Hw]%list_elem_of_filter. rewrite Forall_forall in HF. auto. }
  pose proof (satisfied_keys (sem_keys m + n) _ HL) as Hle.
  assert (0 <= keys_of (satisfied (sem_keys m + n) (live_waiters (controls s) (sem_waiters m)))) as Hnn.
  { apply keys_of_nonneg. apply Forall_forall. intros w Hw%satisfied_subset. rewrite Forall_forall in HL. auto. }
  split_and!; try done; [lia|lia| |].
  - intros Hk. by apply satisfied_none.
  - intros w ws E. rewrite EK. rewrite E in EW. by eapply satisfied_maximal.
Qed.

(** ** Witnesses *)

Definition word (w n : Z) : PackedLogic4 :=
  match from_aval_bval w n 0 with Ok v => v | Throw _ => mkPackedLogic4 0 false [] [] [] [] false end.

Lemma word_wf w n : 0 < w <= 64 -> wf (word w n).
Proof.
  intros Hw. unfold word. pose proof (from_aval_bval_spec w n 0 Hw) as H.
  destruct (from_aval_bval w n 0); [|done]. by destruct H.
Qed.

(** Registers: 0, 4 and 5 the handles of the first mailbox, semaphore and event,
    1 one, 2 the message 7, 3 a destination, 6 two, 7 a flag. *)
Definition demo_registers (destination flag : Z) : list PackedLogic4 :=
  [word 64 (mailbox_handle_tag + 1); word 32 1; word 32 7; word 32 destination; word 64 (semaphore_handle_tag + 1);
   word 64 (event_handle_tag + 1); word 32 2; word 32 flag].
Definition demo_process : ProcessState :=
  mkProcessState false false Running false Running false false false (demo_registers 0 1) [] [] true None None None.
Definition demo_start : Sync := initial [demo_process; demo_process; demo_process].

Definition operate (s : Sync) (p : nat) (op : SyncOperation) : SyncResult Sync :=
  '(s, _) ← handle_synchronization_boundary s p op; Returned s.
Definition state_of (m : SyncResult Sync) : Sync := match m with Returned s => s | Raised _ => initial [] end.

Definition demo_create : SyncOperation := Op_MailboxCreate (mkMailboxCreate 0 1 32 Element_packed).
Definition demo_put : SyncOperation := Op_MailboxPut (mkMailboxPut 0 2 32 None Element_packed 0).
Definition demo_get (result : option nat) : SyncOperation :=
  Op_MailboxGet (mkMailboxGet 0 3 32 result false Element_packed 0).

Definition demo_mailbox : Sync := state_of (operate demo_start 0 demo_create).
Definition demo_waiting : Sync := state_of (operate demo_mailbox 1 (demo_get None)).
Definition demo_served : Sync := state_of (operate demo_waiting 0 demo_put).

Lemma demo_registers_wf d f : Forall wf (demo_registers d f).
Proof. repeat (constructor; [apply word_wf; lia|]). constructor. Qed.

Lemma demo_fresh : Forall fresh [demo_process; demo_process; demo_process].
Proof. by repeat constructor. Qed.

(** Discharges that a process of a concrete state runs. *)
Ltac demo_running := exists demo_process; split_and!; [vm_compute; reflexivity..|apply demo_registers_wf].

Lemma demo_step1 : sync_step demo_start (Operate 0 demo_create) demo_mailbox.
Proof. apply (step_operate _ _ _ _ true); [demo_running|vm_compute; reflexivity]. Qed.

Lemma demo_step2 : sync_step demo_mailbox (Operate 1 (demo_get None)) demo_waiting.
Proof. apply (step_operate _ _ _ _ true); [demo_running|vm_compute; reflexivity]. Qed.

Lemma demo_step3 : sync_step demo_waiting (Operate 0 demo_put) demo_served.
Proof. apply (step_operate _ _ _ _ true); [demo_running|vm_compute; reflexivity]. Qed.

Lemma demo_reachable : reachable [demo_process; demo_process; demo_process] demo_waiting.
Proof. eapply reachable_step; [eapply reachable_step; [apply reachable_initial|apply demo_step1]|apply demo_step2]. Qed.

Lemma demo_waiting_ok : sync_ok demo_waiting.
Proof. eapply reachable_ok; [apply demo_fresh|apply demo_reachable]. Qed.

Lemma nobody_waits_in_vain_witness :
  Forall fresh [demo_process; demo_process; demo_process] /\ parked demo_waiting = [1%nat]
  /\ NoDup (filter (fun p => alive (controls demo_waiting) p = true) (parked demo_waiting)).
Proof.
  split; [apply demo_fresh|]. split; [vm_compute; reflexivity|].
  apply (nobody_waits_in_vain [demo_process; demo_process; demo_process] demo_waiting demo_fresh demo_reachable).
Defined.

Lemma mailbox_is_a_channel_witness :
  takes (action_events demo_waiting (Operate 0 demo_put) 0 ++ []) = [PackedValue (word 32 7)]
  /\ channel_run (channel_of demo_waiting 0) (action_events demo_waiting (Operate 0 demo_put) 0 ++ []) (channel_of demo_served 0).
Proof.
  split; [vm_compute; reflexivity|].
  apply (mailbox_is_a_channel 0 demo_waiting _ demo_served demo_waiting_ok).
  - vm_compute. lia.
  - apply (run_more 0 _ _ _ _ _ demo_step3). apply run_done.
Defined.


(** Two processes wait for keys, of which the first gets its two. *)
Definition demo_semaphore : Sync :=
  state_of (operate demo_start 0 (Op_SemaphoreCreate (mkSemaphoreCreate 4 1))).
Definition demo_one : Sync := state_of (operate demo_semaphore 1 (Op_SemaphoreGet (mkSemaphoreGet 4 6 None))).
Definition demo_two : Sync := state_of (operate demo_one 2 (Op_SemaphoreGet (mkSemaphoreGet 4 1 None))).
Definition demo_keys : Sync :=
  match semaphore_put demo_two 0 (mkSemaphorePut 4 1) with Returned (s, _) => s | Raised _ => demo_two end.

Lemma demo_two_ok : sync_ok demo_two.
Proof.
  assert (sync_step demo_start (Operate 0 (Op_SemaphoreCreate (mkSemaphoreCreate 4 1))) demo_semaphore) as H1
    by (apply (step_operate _ _ _ _ true); [demo_running|vm_compute; reflexivity]).
  assert (sync_step demo_semaphore (Operate 1 (Op_SemaphoreGet (mkSemaphoreGet 4 6 None))) demo_one) as H2
    by (apply (step_operate _ _ _ _ true); [demo_running|vm_compute; reflexivity]).
  assert (sync_step demo_one (Operate 2 (Op_SemaphoreGet (mkSemaphoreGet 4 1 None))) demo_two) as H3
    by (apply (step_operate _ _ _ _ true); [demo_running|vm_compute; reflexivity]).
  eauto using sync_step_ok, initial_ok, demo_fresh.
Qed.

Lemma keys_go_in_order_witness :
  sem_waiters <$> semaphores demo_keys = [[mkSemaphoreWaiter 2 1]] /\
  exists i m m' n, semaphore_from_handle demo_two 0 4 = Returned (i, m)
    /\ known_i32 demo_two 0 1 "semaphore put count" = Returned n
    /\ semaphores demo_keys = <[i := m']> (semaphores demo_two).
Proof.
  split; [vm_compute; reflexivity|].
  destruct (keys_go_in_order demo_two 0 (mkSemaphorePut 4 1) demo_keys Result_completed demo_two_ok)
    as (i & m & m' & n & H1 & H2 & H3 & _); [demo_running|vm_compute; reflexivity|].
  exists i, m, m', n. exact (conj H1 (conj H2 H3)).
Defined.

(** ** Processes that do not come back *)

(** A killed process at the head of a semaphore's queue blocks the others although
    there are keys: only a put removes it. *)
Lemma dead_waiter_blocks :
  (s ← operate demo_semaphore 0 (Op_SemaphoreGet (mkSemaphoreGet 4 6 None));
   s ← complete_process s 0 true;
   '(s, result) ← run_synchronization s 1 (Op_SemaphoreGet (mkSemaphoreGet 4 1 None));
   Returned (result, sem_keys <$> semaphores s)) = Returned (Result_waiting, [1]).
Proof. vm_compute. reflexivity. Qed.

(** A process that waits in a block another process disables stays in the mailbox's
    queue: it gets the next message, which the process that asks for it misses. *)
Lemma disabled_reader_takes_message :
  (s ← operate demo_mailbox 0 (demo_get None);
   s ← redirect_process s 0;
   s ← operate s 1 demo_put;
   s ← operate s 2 (demo_get (Some 7%nat));
   Returned ((fun x => (ps_registers x !! 3%nat, ps_registers x !! 7%nat)) <$> processes s))
  = Returned [(Some (word 32 7), Some (word 32 1)); (Some (word 32 0), Some (word 32 1)); (Some (word 32 0), Some (word 32 0))].
Proof. vm_compute. reflexivity. Qed.

(** A process that is suspended while it waits for an event is dropped from the
    event's queue when the event triggers, and stays dropped after it is resumed. *)
Lemma suspended_waiter_is_forgotten :
  let event operation := Op_DynamicEvent (mkDynamicEvent operation 5 5 false) in
  (s ← operate demo_start 1 (event Event_create);
   s ← operate s 0 (event Event_wait);
   s ← suspend_process s 0;
   s ← operate s 1 (event Event_trigger);
   s ← resume_process s 0;
   s ← operate s 1 (event Event_trigger);
   Returned (ps_status <$> head (processes s), de_waiters <$> dynamic_events s, scheduled s))
  = Returned (Some Waiting, [[]], []).
Proof. vm_compute. reflexivity. Qed.
